(* ===== verification/_CoqProject ===== *)
-Q . S2P
Prelude.v
Bytes.v
HeapLogic.v
LinkedList.v
Container.v
ListStack.v
ObjectArray.v
ArrayStack.v
Queue.v
DoubleList.v
CircList.v
BinaryHeap.v
BinTree.v
MinMax.v
AtomTable.v
TinyLex.v
TinyParse.v
TinyPrint.v
TinyGen.v
TinyVM.v
TinyMain.v
PintosDiv.v
PintosBitmap.v
PintosString.v
PintosList.v
PintosListSort.v
PintosMemory.v
PintosPalloc.v
PintosMalloc.v
PintosArena.v
PintosAlloc.v
PintosFree.v
PintosAllocSpec.v
PintosAllocRefine.v
PintosAllocBoot.v
PintosAllocRuns.v
PintosPagedir.v
PintosPte.v
PintosPages.v
PintosTables.v
PintosVmSpec.v
PintosVmOps.v
PintosVmRefine.v
PintosVmDestroy.v
PintosPaging.v
PintosVmBoot.v
PintosVmMemory.v
PintosVmRuns.v
NodePool.v
HeightTree.v
PintosHash.v
PintosHashMap.v
PintosHashIter.v
PintosThread.v
PintosSynch.v
PintosSched.v
PintosRun.v
PintosLocks.v
PintosKernel.v
PintosLive.v
PintosSafety.v
PintosDisk.v
PintosInode.v
PintosDir.v
PintosTransfer.v
PintosLayout.v
PintosOpen.v
PintosFiles.v
PintosDirectory.v
PintosFsSpec.v
PintosFilesys.v
PintosNames.v
PintosBoot.v
PintosFsRuns.v
