(* ===== verification/Prelude.v ===== *)
(** Verification of the first-party C code of this repository: its library of data
    structures, the Tiny-C compiler, and the core of the Pintos kernel.

    * The parts, and where they are

    Paths are relative to src/.  Every definition has the name of the C function,
    structure or macro that it models, where Rocq allows that name; the steps of
    loops and the accessors of fields have names of their own.

    ** The libraries (src/libs)

    The code calls its allocator lang/memory.c and raises the exceptions of
    lang/except.h through the contract macros of lang/assert.h.  This file has the
    outcomes of a computation (a value, an exception, exit, undefined behaviour),
    the monad in which all parts are written, the contract macros and machine
    integers.  HeapLogic has the store of C structures with NEW, ALLOC, RESIZE and
    FREE, and a separation logic over it with triples of total correctness; Bytes
    has sequences of bytes and the words in them.
    - LinkedList (data_structs/list.c, list_rep.c), DoubleList (double_list.c),
      CircList (circ_list.c) and BinTree (binary_tree.c): a representation
      predicate, and the triple of every operation on every branch.
    - Container has the interfaces [Stack] and [Queue], and what follows from them;
      ListStack (list_stack.c), ArrayStack (array_stack.c, on ObjectArray) and
      Queue (queue.c) are their instances.
    - BinaryHeap (heap.c): heap order and permutation of the data.
    - MinMax (algorithms/minmax.c) and AtomTable (lang/atom.c).

    ** The Tiny-C compiler (src/bin/paradigms/tiny_c/tinyc.c)

    TinyLex (next_sym), TinyParse (the parser), TinyGen (the code generator),
    TinyVM (the machine) and TinyMain (main) follow the pipeline; TinyPrint has a
    printer, for the round trip.

    ** The data structures book (src/bin/books/advanced_data_structures)

    NodePool (ch1/free_list.c) is the allocator interface that HeightTree
    (ch3/h_bl_tree.c) is proved against.

    ** Pintos (src/bin/OS/pintos/src)

    - lib: PintosDiv (lib/arithmetic.c) and PintosString (lib/string.c).
    - lib/kernel: PintosBitmap (bitmap.c); PintosList and PintosListSort (list.c);
      PintosHash, PintosHashMap and PintosHashIter (hash.c, on PintosList).
    - threads: PintosThread (thread.c, and the interrupt level of interrupt.c) and
      PintosSynch (synch.c, and the steps of a machine that runs threads) have the
      definitions.  PintosSched, PintosRun, PintosLocks, PintosKernel and
      PintosLive have the invariants of the scheduler, of the locks and of the
      turns of threads, and their preservation; PintosSafety has what follows for
      every execution.
    - threads, memory: PintosMemory (words, bytes and blocks of memory, memset and
      memcpy), PintosPalloc (palloc.c, vaddr.h) and PintosMalloc (malloc.c, on
      PintosPalloc and PintosList) have the definitions.  PintosArena (headers and
      descriptors), PintosAlloc (the state of the allocator, and malloc) and
      PintosFree (free, calloc, realloc, pages) have their lemmas.  PintosAllocSpec
      is the abstract allocator, PintosAllocRefine proves that each call is a step
      of it, PintosAllocBoot has palloc_init and malloc_init, and PintosAllocRuns
      the theorems on programs that use the allocators.
    - threads and userprog, page tables: PintosPagedir (pagedir.c, pte.h, and
      paging_init of init.c, on PintosPalloc) has the definitions.  PintosPte has
      entries as records and their words, PintosPages pages as words, PintosTables
      directories as maps and who uses which page.  PintosVmSpec is the abstract
      user memory, with the processor's walk through the tables; PintosVmOps,
      PintosVmRefine and PintosVmDestroy prove that each call is a step of it.
      PintosPaging and PintosVmBoot have paging_init and the start, PintosVmMemory what
      memory holds of the directories, and PintosVmRuns the theorems.
    - filesys: PintosDisk (the disk and the structures on it), PintosInode
      (inode.c, file.c, free-map.c and the file transfer of bitmap.c) and
      PintosDir (directory.c, filesys.c) have the definitions.  PintosTransfer
      (reading and writing inodes), PintosLayout (which inode has which sectors),
      PintosOpen (counts of open inodes), PintosFiles (the invariant, and files)
      and PintosDirectory (the entries of the root directory) have their lemmas.
      PintosFsSpec is the abstract file system, PintosFilesys and PintosNames prove
      that the calls refine it, PintosBoot has formatting and starting again, and
      PintosFsRuns the theorems on programs that use the file system.

    * What the theorems show

    - Functional correctness of each operation, errors included: the triples of
      the libraries, and the [_correct] theorems.
    - Refinement of an abstract specification by any sequence of operations: the
      stacks are last in first out and the queue is first in first out across
      failures of the allocator; a hash table and a height-balanced tree are finite
      maps; an intrusive list is a sequence; a bitmap is a list of bits; the file
      system is a directory of names, files of bytes and open files with positions
      ([filesys_refines]), on the disk across a restart ([files_survive]); malloc
      and the page allocator hand out blocks that are apart, keep what is written
      in them, and fail only when no pages are free ([alloc_refines]); a page
      directory is a map from pages to frames with flags, and the processor sees
      the map that is active ([vm_refines]).
    - Equivalence: the lexer and a reference lexer, the parser and the grammar, the
      compiled code and the meaning of the program.  Round trips: parsing and
      printing, cutting and pasting a list, the disk and the files.
    - Invariants of all executions: locks exclude each other, no assertion of the
      kernel fails, no wake-up and no thread is lost, a ready thread gets its turn;
      no two files share a sector; the pages marked as used are exactly those with
      a byte of a block in use ([alloc_pages]); the page tables in memory have exactly
      the mappings that were asked for, in pages of their own, and a page that one
      directory maps is mapped nowhere else ([directories_in_memory]; that a page is
      not mapped twice is asked of the program, as in [vm_refines]).
    - The kernel's own part of memory is mapped as it should be, for the kernel alone
      and with its text read-only ([paging_init_maps]).
    - Termination and bounds: the parser terminates, the height of a tree is
      logarithmic in its size after any operations, and so are the rounds of the next
      one ([height_logarithmic]), 64-bit division is exact and its overflows are known.
    - Where the code does not do what it means to, the theorem says what it does:
      [constant_truncated], [create_existing_leaks], [Stack_push_failure],
      [malloc_overflow], [CircList_delete_correct], and the lemma [memmove_correct].

    * How the code is modelled

    - Integers of [w] bits are in Z with [wrap_u w] and [wrap_s w] where C wraps or
      converts, and [int_of] where an overflow of a signed integer is undefined.
      [size_t] and pointers have 64 bits in the libraries and 32 in Pintos.
    - The libraries have their contract checks on, and the allocator of memory.c,
      which throws Memory_Failed when there is no memory.  Tiny-C and the programs
      of the book do not check malloc, which is taken to succeed.  In Pintos an
      allocation may fail whenever the code checks for it.
    - A failed assertion of Pintos is a kernel panic: the exception Assert_Failed,
      which nothing catches.
    - Functions that C gets as arguments are parameters; in the kernel they are
      addresses of code.  Library clients give the data of lists and trees as
      pointers, with the triples of the functions on them as hypotheses.
    - Loops and recursive functions take fuel.  It is either computed by the
      definition from what the loop counts down (a size, a number of bits), or an
      argument, and then each theorem says how much is enough: more than the
      number of nodes, elements or entries, or than the height of the tree.  No
      theorem assumes that a computation returns: triples are of total correctness,
      and the other theorems give the result.  For the Tiny-C machine, which may
      not terminate, [compile_correct] says that it stops exactly when the program
      does.
    - The kernel runs one thread at a time.  A context switch leaves the rest of a
      function as the [code] of the thread, and a move of the machine is the rest of
      a function, a call by the running thread, or an interrupt.  The callers'
      obligations (releasing only locks that one holds, not sleeping in an
      interrupt handler, and so on) are in [call_ok].  The kernel is without
      USERPROG, and is not interrupted while it boots; interrupt handlers may raise
      semaphores and wake threads, but not try locks.
    - The file system has its disk as bytes that are read and written in sectors.
      [allocs] says which allocations succeed, [stack] what uninitialised variables
      hold; both are arbitrary.  The intrusive list of open inodes is a Coq list.
      Buffers that a function allocates and frees itself leave no trace.  The disk
      has at most 2^28 sectors, as the driver asserts.  Calls come one at a time, as
      the file system has no locks of its own.

    - The memory that Pintos hands out is made of words, at the locations that their
      addresses give; its bytes are the bytes of the words, and a free block is both
      bytes and an element of the list of free blocks.  Static variables are cells of
      their own, below the memory.  The bitmap of a pool takes the words at the start
      of the pool out of memory and is kept as a bitmap.  The locks are used by one
      thread: taking a lock that is held, or releasing one that is not, is a failed
      assertion.  [malloc_init] doubles a size at most 32 times, and a loop over the
      blocks of an arena has at most a page of rounds; the descriptors are searched
      with one round more than there are.  The programs of [alloc_refines] may
      depend on every result; sizes at which [malloc] itself or the product of
      [calloc] wraps around are left to [malloc_overflow] and [calloc_overflow].

    - The register CR3 is a cell, next to one that counts how often it is loaded:
      each load empties the TLB, and the count is part of the abstract state, so that
      a change of the active directory that needs the TLB emptied is seen to do so.
      The TLB itself, and the accessed and dirty bits that the processor sets, are
      hardware and not modelled; [translate] is the walk that pte.h describes, with
      the protection bits as loader.S turns them on.  A program may ask for a page
      that it has for itself to be mapped, at an address that is not mapped; it does
      not destroy the directory that is active.  The memory has room for the
      directory of the kernel, as paging_init asserts.  Loops over the words of a
      page have one round for each word and one to end, and paging_init one for each
      page of the machine and one to end.

    * What is not modelled

    - Output (data_structs printing functions beyond their traversal, log.c,
      printf), setjmp and longjmp themselves, the arena and the checking allocator
      of lang, which work on raw blocks, and the unfinished graph and sparse matrix.
    - The other programs of the book: variants of search trees, heaps and
      union-find, each with an interactive main.
    - Devices, start-up code other than that of memory, and the loading and the faults
      of user programs of Pintos, and the second kernel BlueKernel, which work on
      hardware throughout; of the disk driver only what it asserts and what a command
      does.
    - Third-party code (protothreads) and the short examples of language features. *)
From stdpp Require Export base tactics gmap list numbers strings.
From stdpp Require Export ssreflect.
From Stdlib Require Export ZArith Lia.

(** * Addresses *)

(** A C address that [malloc] can return, and a C pointer: [None] is [NULL]. *)
Abbreviation loc := positive.
Abbreviation ptr := (option positive).
Abbreviation NULL := (@None positive).

(** * Outcomes of a C computation *)

(** The exceptions declared in lang/except.h, lang/memory.h and lang/arena.h,
    one constructor per [const Except_T] object. *)
Inductive exn : Type :=
  | Assert_Failed
  | Precondition_Failed
  | Postcondition_Failed
  | Invariant_Error
  | Memory_Failed
  | Arena_NewFailed
  | Arena_Failed.

#[export] Instance exn_eq_dec : EqDecision exn.
Proof. solve_decision. Defined.

(** What running a function on a state gives: a value, a thrown exception that
    is still looking for its handler, a call of [exit], undefined behaviour (a
    [NULL] or dangling dereference, an index out of bounds, a signed overflow),
    or a loop that used up the fuel it was given. *)
Inductive outcome (S A : Type) : Type :=
  | Ret (a : A) (s : S)
  | Throw (e : exn) (s : S)
  | Exit (code : Z) (s : S)
  | Undef
  | NoFuel.
Arguments Ret {S A} a s.
Arguments Throw {S A} e s.
Arguments Exit {S A} code s.
Arguments Undef {S A}.
Arguments NoFuel {S A}.

(** * The state and error monad *)

Definition M (S A : Type) : Type := S → outcome S A.

#[export] Instance M_ret (S : Type) : MRet (M S) := λ A a s, Ret a s.

#[export] Instance M_bind (S : Type) : MBind (M S) := λ A B k m s,
  match m s with
  | Ret a s' => k a s'
  | Throw e s' => Throw e s'
  | Exit c s' => Exit c s'
  | Undef => Undef
  | NoFuel => NoFuel
  end.

Definition get {S} : M S S := λ s, Ret s s.
Definition gets {S A} (f : S → A) : M S A := λ s, Ret (f s) s.
Definition put {S} (s : S) : M S unit := λ _, Ret tt s.
Definition modify {S} (f : S → S) : M S unit := λ s, Ret tt (f s).
Definition throw {S A} (e : exn) : M S A := λ s, Throw e s.
Definition exit {S A} (c : Z) : M S A := λ s, Exit c s.
Definition undef {S A} : M S A := λ _, Undef.
Definition nofuel {S A} : M S A := λ _, NoFuel.

(** A partial operation of C: [None] is undefined behaviour. *)
Definition defined {S A} (o : option A) : M S A :=
  match o with Some a => mret a | None => undef end.

(** The contract macros of lang/assert.h, in their checking configuration. *)
Definition ASSERT {S} (b : bool) : M S unit :=
  if b then mret tt else throw Assert_Failed.
Definition REQUIRE {S} (b : bool) : M S unit :=
  if b then mret tt else throw Precondition_Failed.
Definition ENSURE {S} (b : bool) : M S unit :=
  if b then mret tt else throw Postcondition_Failed.
Definition INVARIANT {S} (b : bool) : M S unit :=
  if b then mret tt else throw Invariant_Error.

(** [TRY m CATCH(e) h END_TRY] of lang/except.h: [h] runs when [m] throws [e],
    in the state where [m] threw; any other exception goes on to the caller. *)
Definition try_catch {S A} (m : M S A) (e : exn) (h : M S A) : M S A := λ s,
  match m s with
  | Throw e' s' => if decide (e' = e) then h s' else Throw e' s'
  | r => r
  end.

(** A loop: [body x] either goes round again with a new loop variable or leaves
    with a result. *)
Fixpoint loop {S X R} (fuel : nat) (body : X → M S (X + R)) (x : X) : M S R :=
  match fuel with
  | O => nofuel
  | Datatypes.S fuel' =>
      r ← body x;
      match r with
      | inl x' => loop fuel' body x'
      | inr r' => mret r'
      end
  end.

(** Two computations are equivalent when they agree on every state. *)
#[export] Instance M_equiv (S A : Type) : Equiv (M S A) := λ m1 m2, ∀ s, m1 s = m2 s.

#[export] Instance M_equivalence (S A : Type) : Equivalence (≡@{M S A}).
Proof.
  split; [by intros m s | by intros m1 m2 H s | intros m1 m2 m3 H1 H2 s].
  by rewrite (H1 s).
Qed.

#[export] Instance M_bind_proper (S A B : Type) :
  Proper (pointwise_relation A (≡@{M S B}) ==> (≡@{M S A}) ==> (≡@{M S B})) mbind.
Proof.
  intros k1 k2 Hk m1 m2 Hm s. unfold mbind, M_bind. rewrite (Hm s).
  destruct (m2 s); auto. apply Hk.
Qed.

Section monad_laws.
Context {S A B C : Type}.

Lemma M_bind_ret_l (a : A) (k : A → M S B) : (mret a ≫= k) ≡ k a.
Proof. done. Qed.

Lemma M_bind_ret_r (m : M S A) : (m ≫= mret) ≡ m.
Proof. intros s. unfold mbind, M_bind. by destruct (m s). Qed.

Lemma M_bind_assoc (m : M S A) (k : A → M S B) (k' : B → M S C) :
  ((m ≫= k) ≫= k') ≡ (m ≫= λ a, k a ≫= k').
Proof. intros s. unfold mbind, M_bind. by destruct (m s). Qed.

Lemma M_bind_Ret (m : M S A) (k : A → M S B) s a s' :
  m s = Ret a s' → (m ≫= k) s = k a s'.
Proof. intros H. unfold mbind, M_bind. by rewrite H. Qed.

Lemma M_bind_Throw (m : M S A) (k : A → M S B) s e s' :
  m s = Throw e s' → (m ≫= k) s = Throw e s'.
Proof. intros H. unfold mbind, M_bind. by rewrite H. Qed.

Lemma M_bind_inv_Ret (m : M S A) (k : A → M S B) s b s' :
  (m ≫= k) s = Ret b s' → ∃ a s1, m s = Ret a s1 ∧ k a s1 = Ret b s'.
Proof.
  unfold mbind, M_bind. intros H. destruct (m s) as [a s1| | | |] eqn:E; try discriminate.
  by exists a, s1.
Qed.
End monad_laws.

(** Equations to run a computation step by step. *)
Section run.
Context {S A B C : Type}.

Lemma run_ret (a : A) (k : A → M S B) s : (mret a ≫= k) s = k a s.
Proof. done. Qed.
Lemma run_gets (f : S → A) (k : A → M S B) s : (gets f ≫= k) s = k (f s) s.
Proof. done. Qed.
Lemma run_modify (f : S → S) (k : unit → M S B) s : (modify f ≫= k) s = k tt (f s).
Proof. done. Qed.
Lemma run_defined (a : A) (k : A → M S B) s : (defined (Some a) ≫= k) s = k a s.
Proof. done. Qed.
Lemma run_undefined (k : A → M S B) s : (defined None ≫= k) s = Undef.
Proof. done. Qed.
Lemma run_exit (k : A → M S B) c s : (exit c ≫= k) s = Exit c s.
Proof. done. Qed.
Lemma run_undef (k : A → M S B) s : (undef ≫= k) s = Undef.
Proof. done. Qed.
Lemma run_assoc (m : M S A) (k : A → M S B) (k' : B → M S C) s :
  ((m ≫= k) ≫= k') s = (m ≫= λ a, k a ≫= k') s.
Proof. apply M_bind_assoc. Qed.
Lemma run_loop {X R} n (body : X → M S (X + R)) x s :
  loop (Datatypes.S n) body x s =
  (body x ≫= λ r, match r with inl x' => loop n body x' | inr r' => mret r' end) s.
Proof. done. Qed.
End run.

(** An invariant of a loop that returns. *)
Lemma loop_inv {S X R} (I : X → S → Prop) (Q : R → S → Prop) (body : X → M S (X + R)) :
  (∀ x s y s', I x s → body x s = Ret y s' →
    match y with inl x' => I x' s' | inr r => Q r s' end) →
  ∀ n x s r s', I x s → loop n body x s = Ret r s' → Q r s'.
Proof.
  intros Hbody n. induction n as [|n IH]; intros x s r s' HI H; [discriminate H|].
  rewrite run_loop in H. apply M_bind_inv_Ret in H as ([x'|r'] & s1 & H1 & H);
    specialize (Hbody _ _ _ _ HI H1); simpl in Hbody.
  - exact (IH _ _ _ _ Hbody H).
  - injection H as <- <-. done.
Qed.

(** Decompose the run [H] of a sequence of statements that returned. *)
Ltac run_inv H :=
  repeat first
    [ rewrite run_gets in H | rewrite run_ret in H
    | let a := fresh "x" in let s := fresh "σ" in let H1 := fresh "Hrun" in
      apply M_bind_inv_Ret in H as (a & s & H1 & H) ];
  cbv beta in H.

Create HintDb run discriminated.
#[export] Hint Rewrite @run_ret @run_gets @run_modify @run_defined @run_undefined @run_exit
  @run_undef @run_assoc : run.

(** Run the statements at the front whose effect is known. *)
Ltac run := repeat (progress (autorewrite with run; cbv beta iota)).

(** * Machine integers *)

Section machine_integers.
Local Open Scope Z_scope.

(** Conversion to an unsigned and to a two's complement integer of [w] bits. *)
Definition wrap_u (w z : Z) : Z := z mod 2 ^ w.
Definition wrap_s (w z : Z) : Z := (z + 2 ^ (w - 1)) mod 2 ^ w - 2 ^ (w - 1).

Definition in_u (w z : Z) : Prop := 0 <= z < 2 ^ w.
Definition in_s (w z : Z) : Prop := - 2 ^ (w - 1) <= z < 2 ^ (w - 1).

#[export] Instance in_u_dec w z : Decision (in_u w z).
Proof. unfold in_u. apply _. Defined.
#[export] Instance in_s_dec w z : Decision (in_s w z).
Proof. unfold in_s. apply _. Defined.

(** The result of an arithmetic operation on [int], whose overflow is undefined. *)
Definition int_of (z : Z) : option Z := if decide (in_s 32 z) then Some z else None.

Lemma int_of_in z : in_s 32 z → int_of z = Some z.
Proof. intros. unfold int_of. by rewrite decide_True. Qed.

Lemma int_of_out z : ¬ in_s 32 z → int_of z = None.
Proof. intros. unfold int_of. by rewrite decide_False. Qed.

Lemma pow2_half w : 0 < w → 2 ^ w = 2 * 2 ^ (w - 1).
Proof. intros. rewrite <- Z.pow_succ_r by lia. f_equal. lia. Qed.

Lemma wrap_u_range w z : 0 <= w → in_u w (wrap_u w z).
Proof. intros. apply Z.mod_pos_bound. by apply Z.pow_pos_nonneg. Qed.

Lemma wrap_s_range w z : 0 < w → in_s w (wrap_s w z).
Proof.
  intros Hw. unfold in_s, wrap_s.
  pose proof (Z.mod_pos_bound (z + 2 ^ (w - 1)) (2 ^ w)).
  pose proof (Z.pow_pos_nonneg 2 w). rewrite -> (pow2_half w) in * by done. lia.
Qed.

Lemma wrap_u_id w z : in_u w z → wrap_u w z = z.
Proof. intros. by apply Z.mod_small. Qed.

Lemma wrap_u_add_l w x y : wrap_u w (wrap_u w x + y) = wrap_u w (x + y).
Proof. apply Zplus_mod_idemp_l. Qed.

Lemma wrap_s_id w z : 0 < w → in_s w z → wrap_s w z = z.
Proof.
  intros Hw Hz. unfold in_s, wrap_s in *.
  rewrite Z.mod_small; [lia|]. rewrite -> (pow2_half w) by done. lia.
Qed.
End machine_integers.

(** * Lemmas on lists that several components use *)

Section lists.
Context {A : Type}.

Lemma app_cons_assoc (xs : list A) y ys : xs ++ y :: ys = (xs ++ [y]) ++ ys.
Proof. by rewrite <- (assoc_L (++)). Qed.

Lemma snoc_inv (xs : list A) : xs = [] ∨ ∃ ys y, xs = ys ++ [y].
Proof. destruct xs as [|y ys _] using rev_ind; eauto. Qed.

(** The prefix up to and including the first element that fails [f]: the
    elements an early-stopping traversal visits. *)
Fixpoint visited (f : A → bool) (xs : list A) : list A :=
  match xs with
  | [] => []
  | x :: xs => if f x then x :: visited f xs else [x]
  end.

Lemma visited_forallb f xs : forallb f xs = true → visited f xs = xs.
Proof.
  induction xs as [|x xs IH]; simpl; [done|].
  destruct (f x); simpl; [|done]. intros. by rewrite IH.
Qed.
End lists.
