(* ===== verification/Bytes.v ===== *)
(** Blocks of bytes, as the file system and the memory allocator of Pintos copy
    them, and little-endian words in them. *)
From S2P Require Export Prelude.
Local Open Scope Z_scope.

(** * Blocks of bytes *)

Abbreviation bytes := (list Z).

Definition size_of (l : bytes) : Z := Z.of_nat (length l).

(** The [n] bytes at offset [a]. *)
Definition slice (a n : Z) (l : bytes) : bytes := take (Z.to_nat n) (drop (Z.to_nat a) l).
(** [memcpy] of [x] to offset [a], where it fits. *)
Definition splice (a : Z) (x l : bytes) : bytes :=
  take (Z.to_nat a) l ++ x ++ drop (Z.to_nat a + length x) l.
(** Writing past the end of a block is undefined. *)
Definition overwrite (a : Z) (x l : bytes) : option bytes :=
  if bool_decide (0 <= a ∧ a + size_of x <= size_of l) then Some (splice a x l) else None.
(** So is reading there. *)
Definition block_at (a n : Z) (l : bytes) : option bytes :=
  if bool_decide (0 <= a ∧ a + n <= size_of l) then Some (slice a n l) else None.

(** Little-endian words. *)
Fixpoint le_split (n : nat) (w : Z) : bytes :=
  match n with O => [] | S n => w mod 256 :: le_split n (w / 256) end.
Fixpoint le_combine (l : bytes) : Z :=
  match l with [] => 0 | b :: l => b + 256 * le_combine l end.

(** * Lemmas on blocks *)

(** Linear arithmetic with quotients and remainders by constants. *)
Ltac div_lia := Z.to_euclidean_division_equations; lia.

Section blocks.
Implicit Types (l x y : bytes) (a n i : Z).

Lemma size_of_nonneg l : 0 <= size_of l.
Proof. unfold size_of. lia. Qed.
Lemma size_of_app l x : size_of (l ++ x) = size_of l + size_of x.
Proof. unfold size_of. rewrite length_app. lia. Qed.
Lemma size_of_replicate (k : nat) i : size_of (replicate k i) = Z.of_nat k.
Proof. unfold size_of. by rewrite length_replicate. Qed.

Lemma size_of_slice a n l : 0 <= a → 0 <= n → a + n <= size_of l → size_of (slice a n l) = n.
Proof. unfold size_of, slice. intros. rewrite length_take length_drop. lia. Qed.

Lemma size_of_splice a x l : 0 <= a → a + size_of x <= size_of l → size_of (splice a x l) = size_of l.
Proof. unfold size_of, splice. intros. rewrite !length_app length_take length_drop. lia. Qed.

(** Byte [i] of a block. *)
Definition byte_at i l : option Z := if bool_decide (0 <= i) then l !! Z.to_nat i else None.

Lemma byte_at_lt i l : 0 <= i < size_of l → is_Some (byte_at i l).
Proof. unfold size_of, byte_at. intros. rewrite bool_decide_true; [|lia]. apply lookup_lt_is_Some. lia. Qed.
Lemma byte_at_out i l : i < 0 ∨ size_of l <= i → byte_at i l = None.
Proof. unfold size_of, byte_at. intros. case_bool_decide; [|done]. apply lookup_ge_None. lia. Qed.

Lemma bytes_eq l x :
  size_of l = size_of x → (∀ i, 0 <= i < size_of l → byte_at i l = byte_at i x) → l = x.
Proof.
  unfold size_of, byte_at. intros Hn H. apply list_eq_same_length with (length x); [done|lia|].
  intros i c c' Hi Hc Hc'. specialize (H (Z.of_nat i) ltac:(lia)).
  rewrite bool_decide_true in H; [|lia]. rewrite Nat2Z.id in H. congruence.
Qed.

Lemma byte_at_slice a n l i : 0 <= a → 0 <= i < n → byte_at i (slice a n l) = byte_at (a + i) l.
Proof.
  intros. unfold byte_at, slice. rewrite (bool_decide_true (0 <= i)); [|lia]. rewrite (bool_decide_true (0 <= a + i)); [|lia].
  rewrite lookup_take_lt; [|lia]. rewrite lookup_drop. f_equal. lia.
Qed.

Lemma byte_at_app l x i :
  byte_at i (l ++ x) = if decide (i < size_of l) then byte_at i l else byte_at (i - size_of l) x.
Proof.
  unfold size_of, byte_at. case_decide.
  - case_bool_decide; [|done]. by rewrite lookup_app_l; [|lia].
  - rewrite !bool_decide_true; [|lia..]. rewrite lookup_app_r; [|lia]. f_equal. lia.
Qed.

Lemma byte_at_splice a x l i : 0 <= a → a + size_of x <= size_of l →
  byte_at i (splice a x l) = if decide (a <= i < a + size_of x) then byte_at (i - a) x else byte_at i l.
Proof.
  intros. destruct (decide (0 <= i)).
  2: { rewrite decide_False; [|lia]. unfold byte_at. by rewrite bool_decide_false. }
  unfold size_of, splice, byte_at in *. rewrite bool_decide_true; [|lia]. case_decide.
  - rewrite bool_decide_true; [|lia]. rewrite lookup_app_r length_take; [|lia].
    rewrite lookup_app_l; [|lia]. f_equal. lia.
  - destruct (decide (i < a)).
    + rewrite lookup_app_l; [|rewrite length_take; lia]. by rewrite lookup_take_lt; [|lia].
    + rewrite lookup_app_r length_take; [|lia]. rewrite lookup_app_r; [|lia]. rewrite lookup_drop. f_equal. lia.
Qed.
End blocks.

Section parts.
Implicit Types (l x : bytes) (a n : Z).
Lemma slice_all l : slice 0 (size_of l) l = l.
Proof. unfold slice, size_of. rewrite drop_0 take_ge; [done|lia]. Qed.
Lemma slice_nil a l : slice a 0 l = [].
Proof. done. Qed.
Lemma splice_nil a l : splice a [] l = l.
Proof. unfold splice. simpl. rewrite Nat.add_0_r. apply take_drop. Qed.
Lemma Forall_slice P a n l : Forall P l → Forall P (slice a n l).
Proof. intros. by apply Forall_take, Forall_drop. Qed.
Lemma Forall_splice P a x l : Forall P x → Forall P l → Forall P (splice a x l).
Proof. intros. unfold splice. rewrite !Forall_app. split_and!; [by apply Forall_take|done|by apply Forall_drop]. Qed.
End parts.

#[global] Opaque slice splice.

(** Prove sizes of blocks, and equalities of blocks byte by byte. *)
Ltac sizes := repeat match goal with
  | |- context [size_of (_ ++ _)] => rewrite size_of_app
  | |- context [size_of (replicate _ _)] => rewrite size_of_replicate
  | |- context [size_of (splice ?a ?x ?l)] => rewrite (size_of_splice a x l); [|sizes; lia..]
  | |- context [size_of (slice ?a ?n ?l)] => rewrite (size_of_slice a n l); [|sizes; lia..]
  end.
Ltac byte_cases := repeat match goal with
  | |- context [byte_at ?i (?l ++ ?x)] => rewrite (byte_at_app l x i); sizes
  | |- context [byte_at ?i (slice ?a ?n ?l)] => rewrite (byte_at_slice a n l i); [|sizes; lia..]
  | |- context [byte_at ?i (splice ?a ?x ?l)] => rewrite (byte_at_splice a x l i); [sizes|sizes; lia..]
  | |- _ => case_decide; try (exfalso; lia)
  end.
Ltac block_eq := apply bytes_eq; [sizes; try lia|];
  let i := fresh "i" in let Hi := fresh "Hi" in intros i Hi; revert Hi; sizes; intros Hi;
  byte_cases; try (first [done | f_equal; lia]).

Section slices.
Implicit Types (l x y : bytes) (a b n m : Z).

Lemma slice_slice a n b m l :
  0 <= a → 0 <= n → a + n <= m → 0 <= b → b + m <= size_of l → slice a n (slice b m l) = slice (b + a) n l.
Proof. intros. pose proof (size_of_nonneg l). block_eq. Qed.
Lemma slice_add a n m l :
  0 <= a → 0 <= n → 0 <= m → a + n + m <= size_of l → slice a (n + m) l = slice a n l ++ slice (a + n) m l.
Proof. intros. pose proof (size_of_nonneg l). block_eq. Qed.
Lemma slice_splice_out a n b x l :
  0 <= a → 0 <= n → a + n <= size_of l → 0 <= b → b + size_of x <= size_of l →
  a + n <= b ∨ b + size_of x <= a → slice a n (splice b x l) = slice a n l.
Proof. intros. pose proof (size_of_nonneg x). block_eq. Qed.
Lemma slice_splice_in a n b x l :
  0 <= a → 0 <= n → a + n <= size_of l → a <= b → b + size_of x <= a + n →
  slice a n (splice b x l) = splice (b - a) x (slice a n l).
Proof. intros. pose proof (size_of_nonneg x). block_eq. Qed.
Lemma slice_splice_eq b x l : 0 <= b → b + size_of x <= size_of l → slice b (size_of x) (splice b x l) = x.
Proof. intros. pose proof (size_of_nonneg x). block_eq. Qed.
Lemma slice_app_l l x : slice 0 (size_of l) (l ++ x) = l.
Proof. pose proof (size_of_nonneg l). pose proof (size_of_nonneg x). block_eq. Qed.
Lemma slice_app_r l x a : a = size_of l → slice a (size_of x) (l ++ x) = x.
Proof. intros ->. pose proof (size_of_nonneg l). pose proof (size_of_nonneg x). block_eq. Qed.
Lemma splice_app a x y l : 0 <= a → a + size_of x + size_of y <= size_of l →
  splice (a + size_of x) y (splice a x l) = splice a (x ++ y) l.
Proof. intros. pose proof (size_of_nonneg x). pose proof (size_of_nonneg y). block_eq. Qed.
Lemma splice_twice a x y l : 0 <= a → size_of x = size_of y → a + size_of x <= size_of l →
  splice a y (splice a x l) = splice a y l.
Proof. intros. pose proof (size_of_nonneg x). block_eq. Qed.
Lemma splice_slice a n l : 0 <= a → 0 <= n → a + n <= size_of l → splice a (slice a n l) l = l.
Proof. intros. block_eq. Qed.
Lemma splice_all x l : size_of x = size_of l → splice 0 x l = x.
Proof. intros. pose proof (size_of_nonneg x). block_eq. Qed.
(** Writing a part of a sector by reading it, changing it and writing it back. *)
Lemma splice_sector a b n x l : 0 <= a → 0 <= b → 0 <= n → b + size_of x <= n → a + n <= size_of l →
  splice a (splice b x (slice a n l)) l = splice (a + b) x l.
Proof. intros. pose proof (size_of_nonneg x). block_eq. Qed.

Lemma block_at_Some a n l : 0 <= a → a + n <= size_of l → block_at a n l = Some (slice a n l).
Proof. intros. unfold block_at. by rewrite bool_decide_true. Qed.
Lemma overwrite_Some a x l : 0 <= a → a + size_of x <= size_of l → overwrite a x l = Some (splice a x l).
Proof. intros. unfold overwrite. by rewrite bool_decide_true. Qed.

End slices.

(** * Lemmas on words *)

Lemma size_of_le_split n w : size_of (le_split n w) = Z.of_nat n.
Proof. revert w. unfold size_of. induction n as [|n IH]; intros w; simpl; [done|]. specialize (IH (w / 256)). lia. Qed.

Lemma le_split_bytes n w : Forall (in_u 8) (le_split n w).
Proof.
  revert w. induction n as [|n IH]; intros w; simpl; constructor; [|done].
  unfold in_u. pose proof (Z.mod_pos_bound w 256). lia.
Qed.

Lemma le_combine_split n w : le_combine (le_split n w) = w mod 256 ^ Z.of_nat n.
Proof.
  revert w. induction n as [|n IH]; intros w; cbn [le_split le_combine]; [by rewrite Z.mod_1_r|].
  rewrite IH Nat2Z.inj_succ Z.pow_succ_r; [|lia]. by rewrite -Z.rem_mul_r; [|lia|apply Z.pow_pos_nonneg; lia].
Qed.

Lemma le_combine_range l : Forall (in_u 8) l → 0 <= le_combine l < 256 ^ size_of l.
Proof.
  unfold size_of. induction 1 as [|b l Hb _ IH]; cbn [le_combine length]; [done|].
  rewrite Nat2Z.inj_succ Z.pow_succ_r; [|lia]. unfold in_u in Hb. lia.
Qed.

Lemma le_split_combine l : Forall (in_u 8) l → le_split (length l) (le_combine l) = l.
Proof.
  induction 1 as [|b l Hb _ IH]; cbn [le_split le_combine length]; [done|]. unfold in_u in Hb.
  f_equal.
  - rewrite Z.mul_comm Z.mod_add; [|lia]. apply Z.mod_small. lia.
  - rewrite Z.mul_comm Z.div_add; [|lia]. by rewrite Z.div_small.
Qed.

Lemma le_combine_4 w : in_u 32 w → le_combine (le_split 4 w) = w.
Proof. intros. rewrite le_combine_split. apply Z.mod_small. done. Qed.

(** A negative word is kept in two's complement. *)
Lemma le_combine_4_signed w : in_s 32 w → wrap_s 32 (le_combine (le_split 4 w)) = w.
Proof.
  intros Hw. rewrite le_combine_split. unfold in_s in Hw. unfold wrap_s.
  change (256 ^ Z.of_nat 4) with (2 ^ 32). rewrite Zplus_mod_idemp_l. rewrite Z.mod_small; lia.
Qed.

Lemma le_split_mod n w : le_split n (w mod 256 ^ Z.of_nat n) = le_split n w.
Proof.
  revert w. induction n as [|n IH]; intros w; cbn [le_split]; [done|].
  rewrite Nat2Z.inj_succ Z.pow_succ_r; [|lia]. rewrite Z.rem_mul_r; [|lia|apply Z.pow_pos_nonneg; lia].
  rewrite (Z.mul_comm 256) Z.div_add // Z.mod_add // Z.mod_mod //.
  rewrite (Z.div_small (w mod 256)); [|apply Z.mod_pos_bound; lia]. by rewrite Z.add_0_l IH.
Qed.

(** The bytes of a sequence of words. *)
Definition words_bytes (ws : list Z) : bytes := ws ≫= le_split 4.

Lemma words_bytes_app ws vs : words_bytes (ws ++ vs) = words_bytes ws ++ words_bytes vs.
Proof. apply bind_app. Qed.

Lemma size_of_words ws : size_of (words_bytes ws) = 4 * Z.of_nat (length ws).
Proof.
  induction ws as [|w ws IH]; [done|]. unfold words_bytes in *. cbn [mbind list_bind length]. rewrite size_of_app size_of_le_split IH. lia.
Qed.

Lemma words_bytes_split ws i w : ws !! i = Some w →
  words_bytes ws = words_bytes (take i ws) ++ le_split 4 w ++ words_bytes (drop (S i) ws).
Proof. intros H. rewrite -{1}(take_drop_middle ws i w H) words_bytes_app. done. Qed.

Lemma slice_words ws i w : ws !! i = Some w → slice (4 * Z.of_nat i) 4 (words_bytes ws) = le_split 4 w.
Proof.
  intros H. rewrite (words_bytes_split ws i w H). pose proof (lookup_lt_Some _ _ _ H).
  assert (size_of (words_bytes (take i ws)) = 4 * Z.of_nat i) as Hs by (rewrite size_of_words length_take; lia).
  pose proof (size_of_le_split 4 w) as Hw. pose proof (size_of_nonneg (words_bytes (drop (S i) ws))). block_eq.
Qed.

Lemma splice_words ws i w : (i < length ws)%nat → splice (4 * Z.of_nat i) (le_split 4 w) (words_bytes ws) = words_bytes (<[i := w]> ws).
Proof.
  intros Hi. destruct (lookup_lt_is_Some_2 ws i Hi) as [v Hv].
  rewrite (words_bytes_split ws i v Hv) (words_bytes_split (<[i := w]> ws) i w); [|by apply list_lookup_insert_eq].
  rewrite take_insert_ge // drop_insert_lt; [|lia].
  assert (size_of (words_bytes (take i ws)) = 4 * Z.of_nat i) as Hs by (rewrite size_of_words length_take; lia).
  pose proof (size_of_le_split 4 w) as Hw. pose proof (size_of_le_split 4 v) as Hw'.
  pose proof (size_of_nonneg (words_bytes (drop (S i) ws))). block_eq.
Qed.

Lemma words_bytes_zero n : words_bytes (replicate n 0) = replicate (4 * n) 0.
Proof.
  induction n as [|n IH]; [done|]. unfold words_bytes in *. cbn [replicate mbind list_bind]. rewrite IH.
  replace (4 * S n)%nat with (4 + 4 * n)%nat by lia. done.
Qed.
