(* ===== verification/HeapLogic.v ===== *)
(** A store of typed C structures with its allocator, and a separation logic
    over it.

    The model of memory used for the linked data structures of src/libs: a heap
    maps addresses to cells, a cell holds one C structure, and the primitives
    below are what [p->field], [NEW] and [FREE] do (src/libs/lang/memory.c in
    its production configuration).  The logic is a linear separation logic in
    which [emp] is the empty heap, so that a specification that ends in [emp]
    also says that nothing leaks; it is an instance of the Iris [bi] interface,
    which gives its proof mode.  Triples are for total correctness. *)
From S2P Require Export Prelude.
From iris.proofmode Require Export proofmode environments.

(** * The store *)

(** [T] is one of the structure types that cells of type [N] can hold. *)
Class Struct (T N : Type) := {
  pack : T → N;
  unpack : N → option T;
  unpack_pack x : unpack (pack x) = Some x;
}.
#[export] Hint Mode Struct ! ! : typeclass_instances.

#[export] Instance struct_self T : Struct T T | 0 :=
  {| pack := id; unpack := Some; unpack_pack x := eq_refl |}.

#[export] Instance struct_inl T N N' `{!Struct T N} : Struct T (N + N') | 10.
Proof.
  refine {| pack x := inl (pack x);
            unpack n := match n with inl n => unpack n | inr _ => None end |}.
  intros x. apply unpack_pack.
Defined.

#[export] Instance struct_inr T N N' `{!Struct T N'} : Struct T (N + N') | 11.
Proof.
  refine {| pack x := inr (pack x);
            unpack n := match n with inl _ => None | inr n => unpack n end |}.
  intros x. apply unpack_pack.
Defined.

(** The C library's [malloc], as a function of the addresses in use: it fails
    with [NULL], or returns an address that is not in use.  Nothing else is
    assumed, so a result holds for every allocation policy, for one that reuses
    freed addresses and for one that runs out of memory. *)
Class Malloc := {
  malloc : gset loc → ptr;
  malloc_fresh s l : malloc s = Some l → l ∉ s;
}.

(** The first address above those in use. *)
Definition above (s : gset loc) : loc := foldr (λ l m, Pos.max m (Pos.succ l)) 1%positive (elements s).

Lemma above_fresh s : above s ∉ s.
Proof.
  assert (∀ l, l ∈ s → (l < above s)%positive) as H.
  { intros l Hl%elem_of_elements. unfold above.
    induction Hl as [|l l' ls Hl IH]; simpl; lia. }
  intros Hs%H. lia.
Qed.

(** An allocator with room for [n] cells, and one that never fails. *)
Definition malloc_limited (n : nat) : Malloc.
Proof.
  refine {| malloc s := if decide (size s < n) then Some (above s) else None |}.
  intros s l Hl. case_decide; [|discriminate].
  assert (above s = l) as <- by congruence. apply above_fresh.
Defined.

Definition malloc_always : Malloc.
Proof.
  refine {| malloc s := Some (above s) |}.
  intros s l Hl. assert (above s = l) as <- by congruence. apply above_fresh.
Defined.

Section store.
Context {N : Type} {MA : Malloc}.

Abbreviation heap := (gmap loc N).

(** [*p], for a pointer to a [T]. *)
Definition load {T} `{!Struct T N} (p : ptr) : M heap T := λ h,
  match p with
  | Some l =>
      match h !! l ≫= unpack (T := T) with
      | Some x => Ret x h
      | None => Undef
      end
  | None => Undef
  end.

(** [*p = x]. *)
Definition store {T} `{!Struct T N} (p : ptr) (x : T) : M heap unit := λ h,
  match p with
  | Some l =>
      match h !! l ≫= unpack (T := T) with
      | Some _ => Ret tt (<[l := pack x]> h)
      | None => Undef
      end
  | None => Undef
  end.

(** [NEW(p)] followed by the assignments that initialise [*p]: [Memory_alloc]
    throws [Memory_Failed] when [malloc] returns [NULL]. *)
Definition Memory_alloc {T} `{!Struct T N} (x : T) : M heap ptr := λ h,
  match malloc (dom h) with
  | Some l => Ret (Some l) (<[l := pack x]> h)
  | None => Throw Memory_Failed h
  end.

(** [FREE(p)] up to the assignment of [NULL] to the variable: [Memory_free]
    ignores [NULL], and freeing an address that is not in use is undefined. *)
Definition Memory_free (p : ptr) : M heap unit := λ h,
  match p with
  | None => Ret tt h
  | Some l =>
      match h !! l with
      | Some _ => Ret tt (delete l h)
      | None => Undef
      end
  end.
(** [Memory_resize(p, n)] on a block whose contents become [grow x].  The new
    block may be where the old one was.  When [realloc] fails the old block is
    freed before [Memory_Failed] is thrown. *)
Definition Memory_resize {T} `{!Struct T N} (p : ptr) (grow : T → T) : M heap ptr := λ h,
  match p with
  | None => Throw Precondition_Failed h
  | Some l =>
      match h !! l ≫= unpack (T := T) with
      | Some x =>
          match malloc (dom (delete l h)) with
          | Some l' => Ret (Some l') (<[l' := pack (grow x)]> (delete l h))
          | None => Throw Memory_Failed (delete l h)
          end
      | None => Undef
      end
  end.

(** A function pointer is [None] when it is [NULL]. *)
Definition is_fn {A} (f : option A) : bool := if f then true else false.
Definition call {A B} (f : option (A → M heap B)) (a : A) : M heap B :=
  match f with Some f => f a | None => undef end.

End store.

(** * Heap assertions *)

Record hprop (N : Type) : Type := HProp { hprop_holds :> gmap loc N → Prop }.
Arguments HProp {N} _.
Arguments hprop_holds {N} _ _ : simpl never.
Add Printing Constructor hprop.

Section hprop_definitions.
Context {N : Type}.
Implicit Types P Q : hprop N.

Record hprop_equivalent P Q : Prop := Equivalent { equivalent_holds : ∀ h, P h ↔ Q h }.
#[local] Instance hprop_equiv : Equiv (hprop N) := hprop_equivalent.
#[local] Instance hprop_equivalence : Equivalence (≡@{hprop N}).
Proof.
  split; [done | by intros P Q [HPQ]; split; intros h | intros P Q R [HPQ] [HQR]; split; intros h].
  by rewrite (HPQ h).
Qed.
Canonical Structure hpropO := discreteO (hprop N).

Record hprop_entails (P Q : hprop N) : Prop := Entails { entails_holds : ∀ h, P h → Q h }.
Definition hprop_emp : hprop N := HProp (λ h, h = ∅).
Definition hprop_pure (φ : Prop) : hprop N := HProp (λ _, φ).
Definition hprop_and P Q : hprop N := HProp (λ h, P h ∧ Q h).
Definition hprop_or P Q : hprop N := HProp (λ h, P h ∨ Q h).
Definition hprop_impl P Q : hprop N := HProp (λ h, P h → Q h).
Definition hprop_forall {A} (Φ : A → hprop N) : hprop N := HProp (λ h, ∀ a, Φ a h).
Definition hprop_exist {A} (Φ : A → hprop N) : hprop N := HProp (λ h, ∃ a, Φ a h).
Definition hprop_sep P Q : hprop N := HProp (λ h,
  ∃ h1 h2, h = h1 ∪ h2 ∧ h1 ##ₘ h2 ∧ P h1 ∧ Q h2).
Definition hprop_wand P Q : hprop N := HProp (λ h,
  ∀ h', h ##ₘ h' → P h' → Q (h ∪ h')).
Definition hprop_persistently P : hprop N := hprop_pure (hprop_entails hprop_emp P).
Definition hprop_later P : hprop N := P.
End hprop_definitions.

Section hprop_bi.
Context {N : Type}.
#[local] Existing Instance hprop_equiv.
#[local] Existing Instance hprop_equivalence.

Lemma hprop_bi_mixin :
  BiMixin (PROP := hprop N) hprop_entails hprop_emp hprop_pure hprop_and hprop_or
    hprop_impl (@hprop_forall N) (@hprop_exist N) hprop_sep hprop_wand.
Proof.
  split.
  - split; [by intros P; split | intros P Q R [HPQ] [HQR]; split; intros h HP; by apply HQR, HPQ].
  - intros P Q. split; [intros [HPQ]; split; split; intros h; apply HPQ|].
    intros [[H1] [H2]]. split. intros h. split; [apply H1 | apply H2].
  - intros n φ1 φ2 Hφ. split. intros h. apply Hφ.
  - intros n P P' [HP] Q Q' [HQ]. split. intros h. split; intros []; split; by (apply HP || apply HQ).
  - intros n P P' [HP] Q Q' [HQ]. split. intros h.
    split; (intros [|]; [left; by apply HP | right; by apply HQ]).
  - intros n P P' [HP] Q Q' [HQ]. split. intros h. split; intros H ?; apply HQ, H, HP; done.
  - intros A n Φ Ψ HΦ. split. intros h. split; intros H a; apply HΦ, H.
  - intros A n Φ Ψ HΦ. split. intros h. split; intros [a H]; exists a; by apply HΦ.
  - intros n P P' [HP] Q Q' [HQ]. split. intros h.
    split; intros (h1 & h2 & ? & ? & ? & ?); exists h1, h2;
      repeat split; auto; by (apply HP || apply HQ).
  - intros n P P' [HP] Q Q' [HQ]. split. intros h.
    split; intros H h' ??; apply HQ, H; auto; by apply HP.
  - by intros φ P Hφ; split; intros h _.
  - intros φ P H. split. intros h Hφ. by apply (entails_holds _ _ (H Hφ) h).
  - by intros P Q; split; intros h [].
  - by intros P Q; split; intros h [].
  - intros P Q R [H1] [H2]. split. intros h HP. split; [by apply H1 | by apply H2].
  - by intros P Q; split; intros h HP; left.
  - by intros P Q; split; intros h HP; right.
  - intros P Q R [H1] [H2]. split. intros h [?|?]; [by apply H1 | by apply H2].
  - intros P Q R [H]. split. intros h HP HQ. by apply (H h (conj HP HQ)).
  - intros P Q R [H]. split. intros h [HP HQ]. by apply (H h HP).
  - intros A P Ψ H. split. intros h HP a. by apply H.
  - intros A Ψ a. split. intros h H. apply H.
  - intros A Ψ a. split. intros h H. by exists a.
  - intros A Φ Q H. split. intros h [a Ha]. by apply (H a).
  - intros P P' Q Q' [HP] [HQ]. split. intros h (h1 & h2 & ? & ? & ? & ?).
    exists h1, h2. repeat split; auto; by (apply HP || apply HQ).
  - intros P. split. intros h HP. exists ∅, h. rewrite left_id_L.
    repeat split; auto. apply map_disjoint_empty_l.
  - intros P. split. intros h (h1 & h2 & -> & ? & Hemp & HP).
    unfold hprop_holds in Hemp; simpl in Hemp. subst h1. by rewrite left_id_L.
  - intros P Q. split. intros h (h1 & h2 & -> & ? & ? & ?). exists h2, h1.
    repeat split; auto. by apply map_union_comm.
  - intros P Q R. split. intros h (h12 & h3 & -> & Hd & (h1 & h2 & -> & ? & ? & ?) & ?).
    apply map_disjoint_union_l in Hd as [??].
    exists h1, (h2 ∪ h3). rewrite assoc_L. repeat split; auto.
    + by apply map_disjoint_union_r.
    + by exists h2, h3.
  - intros P Q R [H]. split. intros h HP h' ? HQ. apply H. by exists h, h'.
  - intros P Q R [H]. split. intros h (h1 & h2 & -> & ? & HP & HQ). by apply (H h1 HP h2).
Qed.

Lemma hprop_persistently_mixin :
  BiPersistentlyMixin (PROP := hprop N) hprop_entails hprop_emp hprop_and
    (@hprop_exist N) hprop_sep hprop_persistently.
Proof.
  eapply bi_persistently_mixin_discrete, hprop_bi_mixin.
  - done.
  - intros A Φ [H]. destruct (H ∅) as [a Ha]; [done|]. exists a. split.
    intros h Hh. unfold hprop_holds in Hh; simpl in Hh. by subst h.
  - done.
Qed.

Lemma hprop_later_mixin :
  BiLaterMixin (PROP := hprop N) hprop_entails hprop_pure hprop_or hprop_impl
    (@hprop_forall N) (@hprop_exist N) hprop_sep hprop_persistently hprop_later.
Proof. eapply bi_later_mixin_id, hprop_bi_mixin. done. Qed.
End hprop_bi.

Canonical Structure hpropI (N : Type) : bi :=
  {| bi_ofe_mixin := ofe_mixin_of (hprop N);
     bi_bi_mixin := hprop_bi_mixin;
     bi_bi_persistently_mixin := hprop_persistently_mixin;
     bi_bi_later_mixin := hprop_later_mixin |}.

#[export] Instance hprop_pure_forall N : BiPureForall (hpropI N).
Proof. intros A φ. by unfold bi_forall. Qed.

Declare Scope hprop_scope.
Delimit Scope hprop_scope with hprop.
Open Scope hprop_scope.

(** A fact about values, which owns no cell. *)
Notation "⌈ φ ⌉" := (bi_affinely (bi_pure φ%type%stdpp)) (at level 0, φ at level 200,
  format "⌈ φ ⌉") : bi_scope.

(** [l ↦ x]: the heap is one cell, at [l], and it holds the structure [x]. *)
Definition points_to {T N} `{!Struct T N} (l : loc) (x : T) : hprop N :=
  HProp (λ h, h = {[l := pack x]}).
Notation "l ↦ x" := (points_to l x) (at level 20) : bi_scope.

(** * Weakest preconditions for total correctness *)

(** From a heap that satisfies [wp m Φ Ψ], [m] returns with [Φ] of its result or
    throws with [Ψ] of its exception, whatever the rest [hf] of the heap is, and
    leaves [hf] as it was; it does not go wrong and does not run out of fuel. *)
Definition wp {N A} (m : M (gmap loc N) A) (Φ : A → hpropI N) (Ψ : exn → hpropI N)
    : hpropI N := HProp (λ h, ∀ hf, h ##ₘ hf →
  match m (h ∪ hf) with
  | Ret a h2 => ∃ h', h2 = h' ∪ hf ∧ h' ##ₘ hf ∧ hprop_holds (Φ a) h'
  | Throw e h2 => ∃ h', h2 = h' ∪ hf ∧ h' ##ₘ hf ∧ hprop_holds (Ψ e) h'
  | _ => False
  end).

(** Triples: [Q] of the result on a normal return, [E] of the exception. *)
Definition hoare {N A} (P : hpropI N) (m : M (gmap loc N) A) (Q : A → hpropI N)
    (E : exn → hpropI N) : Prop := P ⊢ wp m Q E.

#[warnings="-closed-notation-not-level-0"]
Notation "⦃ P ⦄ m ⦃ x , Q | e , E ⦄" := (hoare P%I m (λ x, Q%I) (λ e, E%I))
  (at level 20, m at level 100, x name, e name, Q at level 200, E at level 200,
   format "'[hv' ⦃  P  ⦄  '/  ' m  '/' ⦃  x ,  Q  |  e ,  E  ⦄ ']'").
#[warnings="-closed-notation-not-level-0"]
Notation "⦃ P ⦄ m ⦃ x , Q ⦄" := (hoare P%I m (λ x, Q%I) (λ _, False%I))
  (at level 20, m at level 100, x name, Q at level 200,
   format "'[hv' ⦃  P  ⦄  '/  ' m  '/' ⦃  x ,  Q  ⦄ ']'").

Lemma hprop_sep_holds {N} (P Q : hpropI N) h :
  hprop_holds (P ∗ Q)%I h ↔
  ∃ h1 h2, h = h1 ∪ h2 ∧ h1 ##ₘ h2 ∧ hprop_holds P h1 ∧ hprop_holds Q h2.
Proof. done. Qed.

Section wp_rules.
Context {N : Type}.
Implicit Types P R : hpropI N.

Lemma wp_ret {A} (a : A) (Φ : A → hpropI N) Ψ : Φ a ⊢ wp (mret a) Φ Ψ.
Proof. split. intros h H hf ?. by exists h. Qed.

Lemma wp_throw {A} e (Φ : A → hpropI N) Ψ : Ψ e ⊢ wp (throw e) Φ Ψ.
Proof. split. intros h H hf ?. by exists h. Qed.

Lemma wp_bind {A B} (m : M (gmap loc N) A) (k : A → M (gmap loc N) B) Φ Ψ :
  wp m (λ a, wp (k a) Φ Ψ) Ψ ⊢ wp (m ≫= k) Φ Ψ.
Proof.
  split. intros h H hf Hd. specialize (H hf Hd). unfold mbind, M_bind.
  destruct (m (h ∪ hf)) as [a h2| | | |]; auto.
  destruct H as (h' & -> & Hd' & H). by apply H.
Qed.

Lemma wp_try {A} (m : M (gmap loc N) A) e (c : M (gmap loc N) A) Φ Ψ :
  wp m Φ (λ e', if decide (e' = e) then wp c Φ Ψ else Ψ e') ⊢ wp (try_catch m e c) Φ Ψ.
Proof.
  split. intros h H hf Hd. specialize (H hf Hd). unfold try_catch.
  destruct (m (h ∪ hf)) as [a h2|e' h2| | |]; auto.
  destruct H as (h' & -> & Hd' & H). case_decide; [by apply H | by exists h'].
Qed.

(** Equivalent computations have the same preconditions. *)
Lemma wp_equiv {A} (m m' : M (gmap loc N) A) Φ Ψ : m ≡ m' → wp m' Φ Ψ ⊢ wp m Φ Ψ.
Proof. intros Hm. split. intros h H hf Hd. rewrite (Hm (h ∪ hf)). by apply H. Qed.

(** A computation that leaves every heap as it is. *)
Lemma wp_run {A} (m : M (gmap loc N) A) a Φ Ψ : (∀ h, m h = Ret a h) → Φ a ⊢ wp m Φ Ψ.
Proof. intros Hm. split. intros h H hf Hd. rewrite Hm. by exists h. Qed.

Lemma wp_defined {A} (o : option A) a Φ Ψ : o = Some a → Φ a ⊢ wp (N := N) (defined o) Φ Ψ.
Proof. intros ->. apply wp_ret. Qed.

Lemma wp_wand {A} (m : M (gmap loc N) A) Φ Ψ Φ' Ψ' :
  wp m Φ Ψ -∗ ((∀ a, Φ a -∗ Φ' a) ∧ (∀ e, Ψ e -∗ Ψ' e)) -∗ wp m Φ' Ψ'.
Proof.
  apply bi.entails_wand, bi.wand_intro_r.
  split. intros h (h1 & h2 & -> & Hd12 & H & HQ) hf Hd.
  apply map_disjoint_union_l in Hd as [Hd1 Hd2].
  specialize (H (h2 ∪ hf)). rewrite -assoc_L.
  pose proof (proj1 HQ) as HQ1. pose proof (proj2 HQ) as HQ2. clear HQ.
  assert (h1 ##ₘ h2 ∪ hf) as Hd' by by apply map_disjoint_union_r.
  specialize (H Hd'). destruct (m _) as [a h3|e h3| | |]; auto;
    destruct H as (h' & -> & Hdf & H); apply map_disjoint_union_r in Hdf as [??];
    exists (h2 ∪ h'); rewrite (map_union_comm h2 h'); auto; rewrite -assoc_L;
    (split; [done|]); (split; [by apply map_disjoint_union_l|]);
    rewrite (map_union_comm h' h2); auto.
  - by apply (HQ1 a h').
  - by apply (HQ2 e h').
Qed.

Lemma wp_loop {X Y} n (body : X → M (gmap loc N) (X + Y)) x Φ Ψ :
  wp (body x) (λ r, wp (match r with inl x' => loop n body x' | inr r => mret r end) Φ Ψ) Ψ
  ⊢ wp (loop (S n) body x) Φ Ψ.
Proof. apply wp_bind. Qed.

Lemma wp_REQUIRE (b : bool) Φ Ψ :
  (if b then Φ tt else Ψ Precondition_Failed) ⊢ wp (N := N) (REQUIRE b) Φ Ψ.
Proof. destruct b; [apply wp_ret | apply wp_throw]. Qed.

Lemma wp_ENSURE (b : bool) Φ Ψ :
  (if b then Φ tt else Ψ Postcondition_Failed) ⊢ wp (N := N) (ENSURE b) Φ Ψ.
Proof. destruct b; [apply wp_ret | apply wp_throw]. Qed.

Lemma wp_frame {A} (m : M (gmap loc N) A) Φ Ψ R :
  R ∗ wp m Φ Ψ ⊢ wp m (λ a, R ∗ Φ a) (λ e, R ∗ Ψ e).
Proof.
  iIntros "[HR H]". iApply (wp_wand with "H").
  iSplit; iIntros (?) "$"; iFrame.
Qed.

(** How a triple is used inside another proof, with and without exceptions. *)
Lemma hoare_wp {A} P (m : M (gmap loc N) A) Q E Φ Ψ :
  hoare P m Q E → P -∗ ((∀ a, Q a -∗ Φ a) ∧ (∀ e, E e -∗ Ψ e)) -∗ wp m Φ Ψ.
Proof.
  unfold hoare. intros H. iIntros "HP HQ". iApply (wp_wand with "[HP] HQ"). by iApply H.
Qed.

Lemma hoare_wp_ret {A} P (m : M (gmap loc N) A) Q Φ Ψ :
  hoare P m Q (λ _, False%I) → P -∗ (∀ a, Q a -∗ Φ a) -∗ wp m Φ Ψ.
Proof.
  intros H. iIntros "HP HQ". iApply (hoare_wp with "HP"); [exact H|].
  iSplit; [done|]. iIntros (e) "[]".
Qed.

(** The rule of consequence and the frame rule. *)
Lemma hoare_conseq {A} P P' (m : M (gmap loc N) A) Q Q' E E' :
  hoare P' m Q' E' → (P ⊢ P') → (∀ a, Q' a ⊢ Q a) → (∀ e, E' e ⊢ E e) → hoare P m Q E.
Proof.
  intros H HP HQ HE. unfold hoare. iIntros "HP". iApply (hoare_wp with "[HP]"); [exact H|by iApply HP|].
  iSplit; iIntros (?) "?"; [by iApply HQ|by iApply HE].
Qed.

Lemma hoare_frame {A} P (m : M (gmap loc N) A) Q E R :
  hoare P m Q E → hoare (R ∗ P) m (λ a, R ∗ Q a)%I (λ e, R ∗ E e)%I.
Proof. intros H. unfold hoare. rewrite H. apply wp_frame. Qed.

(** What a triple says of a run of the program on a concrete heap [h ∪ hf]. *)
Lemma hoare_run {A} P (m : M (gmap loc N) A) Q E h hf :
  hoare P m Q E → hprop_holds P h → h ##ₘ hf →
  match m (h ∪ hf) with
  | Ret a h2 => ∃ h', h2 = h' ∪ hf ∧ h' ##ₘ hf ∧ hprop_holds (Q a) h'
  | Throw e h2 => ∃ h', h2 = h' ∪ hf ∧ h' ##ₘ hf ∧ hprop_holds (E e) h'
  | _ => False
  end.
Proof. intros [H] HP Hd. by apply (H h HP). Qed.
End wp_rules.

Section wp_store.
Context {N : Type} {MA : Malloc}.

Lemma points_to_holds {T} `{!Struct T N} l (x : T) (h : gmap loc N) :
  hprop_holds (l ↦ x)%I h → h = {[l := pack x]}.
Proof. done. Qed.

Lemma union_singleton_lookup (l : loc) (n : N) (hf : gmap loc N) : ({[l := n]} ∪ hf) !! l = Some n.
Proof. apply lookup_union_Some_l, lookup_singleton_eq. Qed.

Lemma points_to_ne {T U} `{!Struct T N, !Struct U N} l l' (x : T) (y : U) :
  ⊢@{hpropI N} l ↦ x -∗ l' ↦ y -∗ ⌜l ≠ l'⌝.
Proof.
  apply bi.entails_wand, bi.wand_intro_r.
  split. intros h (h1 & h2 & -> & Hd & ->%points_to_holds & ->%points_to_holds) <-.
  apply map_disjoint_singleton_l in Hd. by rewrite lookup_singleton_eq in Hd.
Qed.

Lemma wp_load {T} `{!Struct T N} l (x : T) Φ Ψ :
  l ↦ x -∗ (l ↦ x -∗ Φ x) -∗ wp (N := N) (load (Some l)) Φ Ψ.
Proof.
  apply bi.entails_wand, bi.wand_intro_r.
  split. intros h (h1 & h2 & -> & Hd & ->%points_to_holds & H) hf Hdf.
  unfold load. rewrite -assoc_L union_singleton_lookup /= unpack_pack.
  eexists. rewrite assoc_L. split; [done|]. split; [done|].
  rewrite map_union_comm //. by apply H.
Qed.

(** What a cell held before does not matter, as long as a [T] fits in it. *)
Lemma wp_store_over {T} `{!Struct T N} l (c : N) (y : T) Φ Ψ :
  is_Some (unpack (T := T) c) → l ↦ c -∗ (l ↦ y -∗ Φ tt) -∗ wp (N := N) (store (Some l) y) Φ Ψ.
Proof.
  intros [x Hx]. apply bi.entails_wand, bi.wand_intro_r.
  split. intros h (h1 & h2 & -> & Hd & ->%points_to_holds & H) hf Hdf.
  unfold store. rewrite -assoc_L union_singleton_lookup /= Hx.
  apply map_disjoint_union_l in Hdf as [Hd1 Hd2].
  apply map_disjoint_singleton_l in Hd, Hd1.
  exists (h2 ∪ {[l := pack y]}). split.
  - rewrite (map_union_comm h2 {[l := pack y]}); [|by apply map_disjoint_singleton_r].
    rewrite -assoc_L -!insert_union_singleton_l. apply insert_insert_eq.
  - split; [apply map_disjoint_union_l; split; [done|by apply map_disjoint_singleton_l]|].
    apply H; [by apply map_disjoint_singleton_r|done].
Qed.

Lemma wp_store {T} `{!Struct T N} l (x y : T) Φ Ψ :
  l ↦ x -∗ (l ↦ y -∗ Φ tt) -∗ wp (N := N) (store (Some l) y) Φ Ψ.
Proof. apply (wp_store_over l (pack x)). rewrite unpack_pack. by eexists. Qed.

Lemma wp_alloc {T} `{!Struct T N} (x : T) Φ Ψ :
  ((∀ l, l ↦ x -∗ Φ (Some l)) ∧ Ψ Memory_Failed) ⊢ wp (N := N) (Memory_alloc x) Φ Ψ.
Proof.
  split. intros h H hf Hd. pose proof (proj1 H) as H1. pose proof (proj2 H) as H2. clear H.
  unfold Memory_alloc. destruct (malloc _) as [l|] eqn:Hl; [|by exists h].
  apply malloc_fresh, not_elem_of_dom, lookup_union_None in Hl as [Hl1 Hl2].
  exists (h ∪ {[l := pack x]}). split; [|split].
  - rewrite (map_union_comm h {[l := pack x]}); [|by apply map_disjoint_singleton_r].
    by rewrite -assoc_L -insert_union_singleton_l.
  - apply map_disjoint_union_l. split; [done|by apply map_disjoint_singleton_l].
  - apply H1; [by apply map_disjoint_singleton_r|done].
Qed.

Lemma wp_free {T} `{!Struct T N} l (x : T) Φ Ψ :
  l ↦ x -∗ Φ tt -∗ wp (N := N) (Memory_free (Some l)) Φ Ψ.
Proof.
  apply bi.entails_wand, bi.wand_intro_r.
  split. intros h (h1 & h2 & -> & Hd & ->%points_to_holds & H) hf Hdf.
  unfold Memory_free. rewrite -assoc_L union_singleton_lookup.
  apply map_disjoint_union_l in Hdf as [Hd1 Hd2].
  apply map_disjoint_singleton_l in Hd, Hd1.
  exists h2. split; [|done].
  rewrite -insert_union_singleton_l delete_insert_id //. by apply lookup_union_None.
Qed.

(** Resizing is freeing the block and allocating the new one. *)
Lemma Memory_resize_equiv {T} `{!Struct T N} l (grow : T → T) :
  Memory_resize (N := N) (Some l) grow ≡
  (x ← load (Some l); Memory_free (Some l);; Memory_alloc (grow x)).
Proof.
  intros h. unfold Memory_resize, Memory_free, Memory_alloc, mbind, M_bind, load.
  destruct (h !! l) as [n|] eqn:Hl; simpl; [|done].
  destruct (unpack n); [|done]. by rewrite Hl.
Qed.

Lemma wp_resize {T} `{!Struct T N} l (x : T) grow Φ Ψ :
  l ↦ x -∗ ((∀ l', l' ↦ grow x -∗ Φ (Some l')) ∧ Ψ Memory_Failed) -∗
  wp (N := N) (Memory_resize (Some l) grow) Φ Ψ.
Proof.
  iIntros "Hl H". iApply (wp_equiv _ _ _ _ (Memory_resize_equiv l grow)).
  iApply wp_bind. iApply (wp_load with "Hl"). iIntros "Hl".
  iApply wp_bind. iApply (wp_free with "Hl"). by iApply wp_alloc.
Qed.

Lemma wp_free_null Φ Ψ : Φ tt ⊢ wp (N := N) (Memory_free NULL) Φ Ψ.
Proof. apply wp_ret. Qed.
End wp_store.

(** * Proof automation *)

(** Bring the first statement of a sequence to the front. *)
Ltac wp_focus :=
  cbv beta; repeat lazymatch goal with
  | |- envs_entails _ (wp (mbind _ _) _ _) => iApply wp_bind
  end.
Ltac wp_finish :=
  cbv beta;
  repeat (lazymatch goal with
  | |- envs_entails _ (wp (mret _) _ _) => iApply wp_ret
  | |- envs_entails _ (wp (mbind _ (mret _)) _ _) => iApply wp_bind; iApply wp_ret
  end; cbv beta).

Ltac wp_require :=
  wp_focus; iApply wp_REQUIRE; cbn [negb is_fn]; cbv beta iota.

Tactic Notation "wp_load" constr(H) :=
  wp_focus; iApply (wp_load with H); iIntros H; wp_finish.
Tactic Notation "wp_store" constr(H) :=
  wp_focus; iApply (wp_store with H); iIntros H; wp_finish.
Tactic Notation "wp_free" constr(H) :=
  wp_focus; iApply (wp_free with H); wp_finish.
(** A rule for an access to one cell, whose points-to is the hypothesis [H]. *)
Tactic Notation "wp_rule" uconstr(lem) "on" constr(H) :=
  wp_focus; iApply (lem with H); iIntros H; wp_finish.
(** A triple without exceptions, whose precondition is made from [H]. *)
Tactic Notation "wp_call" uconstr(lem) "with" constr(H) :=
  wp_focus; iApply (hoare_wp_ret with H); [eapply lem|..].

(** Closing an entailment whose cells are all in the context. *)
Ltac hfin :=
  iFrame; repeat (first [iSplit; [done|] | iExists _; progress iFrame]); done.
