(* ===== verification/LinkedList.v ===== *)
(** The singly linked list of src/libs/data_structs/list.c and list_rep.c: the
    operations on the store, the representation predicate [is_list], and the
    triple of each operation on each of its branches. *)
From S2P Require Export HeapLogic.

(** * The node *)

(** [struct node] of list_rep.h; [Object_T] is a pointer to client data. *)
Record node := Node { datapointer : ptr; next : ptr }.

(** * The operations *)

Section list_operations.
Context {N : Type} `{!Struct node N} {MA : Malloc}.
Abbreviation heap := (gmap loc N).

Definition DATA (p : ptr) : M heap ptr := n ← load p; mret (datapointer n).
Definition NEXT (p : ptr) : M heap ptr := n ← load p; mret (next n).

(** [NEXT(p) = q]. *)
Definition set_NEXT (p q : ptr) : M heap unit :=
  n ← load p; store p (Node (datapointer n) q).

(** The out parameter [pp_node] is the result. *)
Definition List__allocate_node (data : ptr) : M heap ptr := Memory_alloc (Node data NULL).
Definition List__free_node (p_node : ptr) : M heap unit := Memory_free p_node.

Definition List_new : ptr := NULL.
Definition List_is_empty (list : ptr) : bool := bool_decide (list = NULL).

(** A [List_T* p_list] parameter is modelled by the value of the variable before
    the call; the value after the call is part of the result. *)
Definition List_insert (p_list : ptr) (data : ptr) : M heap ptr :=
  p_node ← List__allocate_node data;
  set_NEXT p_node p_list;;
  mret p_node.

Definition List_append (fuel : nat) (p_list : ptr) (data : ptr) : M heap ptr :=
  p_node ← List__allocate_node data;
  if List_is_empty p_list then mret p_node
  else
    iter_node ← loop fuel (λ iter_node,
      nx ← NEXT iter_node;
      mret (if bool_decide (nx = NULL) then inr iter_node else inl nx)) p_list;
    set_NEXT iter_node p_node;;
    mret p_list.

Definition List_delete_node (fuel : nat) (p_list p_node : ptr) : M heap ptr :=
  p_list' ←
    (if bool_decide (p_list = p_node) then NEXT p_list
     else
       iter_node ← loop fuel (λ iter_node,
         if bool_decide (iter_node = NULL) then mret (inr iter_node)
         else
           nx ← NEXT iter_node;
           mret (if bool_decide (nx = p_node) then inr iter_node else inl nx)) p_list;
       ENSURE (negb (bool_decide (iter_node = NULL)));;
       nx ← NEXT p_node;
       set_NEXT iter_node nx;;
       mret p_list);
  List__free_node p_node;;
  mret p_list'.

(** Returns the new list and, for [true], the value stored in [*p_data__]. *)
Definition List_delete_head (fuel : nat) (p_list : ptr) : M heap (ptr * option ptr) :=
  if List_is_empty p_list then mret (p_list, None)
  else
    data ← DATA p_list;
    p_list' ← List_delete_node fuel p_list p_list;
    mret (p_list', Some data).

Fixpoint List_traverse (fuel : nat) (list : ptr) (apply_fn : option (ptr → M heap bool))
    : M heap bool :=
  match fuel with
  | O => nofuel
  | Datatypes.S fuel =>
      REQUIRE (is_fn apply_fn);;
      if List_is_empty list then mret true
      else
        d ← DATA list;
        b ← call apply_fn d;
        if negb b then mret false
        else nx ← NEXT list; List_traverse fuel nx apply_fn
  end.

Definition List_iterator (list last_return : ptr) : M heap ptr :=
  if bool_decide (last_return = NULL) then mret list else NEXT last_return.

(** [n] is a [size_t]. *)
Definition List_length (fuel : nat) (list : ptr) : M heap Z :=
  loop fuel (λ '(list, n),
    if bool_decide (list = NULL) then mret (inr n)
    else nx ← NEXT list; mret (inl (nx, wrap_u 64 (n + 1)%Z))) (list, 0%Z).

(** [Some p] is [true] with [*pp_keynode__ = p]. *)
Definition List_find_key (fuel : nat) (list : ptr)
    (equal_fn : option (ptr * ptr → M heap bool)) (key : ptr) : M heap (option ptr) :=
  REQUIRE (negb (bool_decide (list = NULL)));;
  REQUIRE (is_fn equal_fn);;
  REQUIRE (negb (bool_decide (key = NULL)));;
  loop fuel (λ p_curr,
    p_curr ← List_iterator list p_curr;
    if bool_decide (p_curr = NULL) then mret (inr None)
    else
      d ← DATA p_curr;
      b ← call equal_fn (key, d);
      mret (if (b : bool) then inr (Some p_curr) else inl p_curr)) NULL.

Definition List_print (fuel : nat) (list : ptr) (print_data_fn : ptr → M heap unit)
    : M heap unit :=
  loop fuel (λ curr_node,
    curr_node ← List_iterator list curr_node;
    if bool_decide (curr_node = NULL) then mret (inr tt)
    else
      d ← DATA curr_node;
      print_data_fn d;;
      mret (inl curr_node)) NULL.

(** The variable [*p_list] is [NULL] when the loop ends, which is the result. *)
Definition List_destroy (fuel : nat) (p_list : ptr) (free_data_fn : option (ptr → M heap unit))
    : M heap ptr :=
  loop fuel (λ p_list,
    if bool_decide (p_list = NULL) then mret (inr p_list)
    else
      next_tmp ← NEXT p_list;
      (if is_fn free_data_fn then d ← DATA p_list; call free_data_fn d else mret tt);;
      Memory_free p_list;;
      mret (inl next_tmp)) p_list.

Definition List_free (fuel : nat) (p_list : ptr) : M heap ptr := List_destroy fuel p_list None.
End list_operations.

(** * Representation *)

Section list_representation.
Context {N : Type} `{!Struct node N} {MA : Malloc}.

(** A chain of nodes from [p] to [q], with the addresses and data [ns]. *)
Fixpoint lseg (p : ptr) (ns : list (loc * ptr)) (q : ptr) : hpropI N :=
  match ns with
  | [] => ⌈p = q⌉
  | (l, d) :: ns => ⌈p = Some l⌉ ∗ ∃ nx, l ↦ Node d nx ∗ lseg nx ns q
  end%I.

(** [p] is the C list of the data [xs]. *)
Definition is_list (p : ptr) (xs : list ptr) : hpropI N :=
  ∃ ns, ⌈xs = ns.*2⌉ ∗ lseg p ns NULL.

Lemma lseg_app p ns1 ns2 q :
  lseg p (ns1 ++ ns2) q ⊣⊢ ∃ m, lseg p ns1 m ∗ lseg m ns2 q.
Proof.
  revert p. induction ns1 as [|[l d] ns1 IH]; intros p; simpl; iSplit.
  - iIntros "H". iExists p. by iFrame.
  - by iIntros "(% & -> & H)".
  - iIntros "(-> & %nx & Hl & H)". rewrite IH. iDestruct "H" as "(%m & H1 & H2)".
    iExists m. hfin.
  - iIntros "(%m & (-> & %nx & Hl & H1) & H2)". iSplit; [done|]. iExists nx.
    rewrite IH. hfin.
Qed.

Lemma lseg_cons p l d ns q :
  lseg p ((l, d) :: ns) q ⊣⊢ ⌈p = Some l⌉ ∗ ∃ nx, l ↦ Node d nx ∗ lseg nx ns q.
Proof. done. Qed.

(** A list that starts at [NULL] is empty, and one that does not has a head. *)
Lemma lseg_null ns : lseg NULL ns NULL ⊢ ⌜ns = []⌝.
Proof.
  destruct ns as [|[l d] ns]; simpl; [by iIntros "%"|]. by iIntros "(% & _)".
Qed.

Lemma lseg_some l ns :
  lseg (Some l) ns NULL ⊢ ∃ d ns' nx, ⌈ns = (l, d) :: ns'⌉ ∗ l ↦ Node d nx ∗ lseg nx ns' NULL.
Proof.
  destruct ns as [|[l' d] ns]; simpl; [by iIntros "%"|].
  iIntros "(%H & %nx & Hl & H)". simplify_eq. iExists d, ns, nx. by iFrame.
Qed.

(** An address owned apart from a chain is not one of the chain's. *)
Lemma lseg_fresh (l : loc) (x : node) p ns q :
  l ↦ x -∗ lseg p ns q -∗ ⌜l ∉ ns.*1⌝.
Proof.
  iInduction ns as [|[l' d] ns] "IH" forall (p); simpl.
  - iIntros "_ _". iPureIntro. by apply not_elem_of_nil.
  - iIntros "Hl (-> & %nx & Hl' & H)".
    iDestruct (points_to_ne with "Hl Hl'") as %Hne.
    iDestruct ("IH" with "Hl H") as %Hni. iPureIntro.
    by apply not_elem_of_cons.
Qed.

Lemma is_list_nil : ⊢ is_list NULL [].
Proof. iExists []. by iSplit. Qed.

Lemma wp_NEXT (l : loc) (n : node) Φ Ψ :
  l ↦ n -∗ (l ↦ n -∗ Φ (next n)) -∗ wp (N := N) (NEXT (Some l)) Φ Ψ.
Proof. iIntros "H HΦ". unfold NEXT. wp_load "H". by iApply "HΦ". Qed.

Lemma wp_DATA (l : loc) (n : node) Φ Ψ :
  l ↦ n -∗ (l ↦ n -∗ Φ (datapointer n)) -∗ wp (N := N) (DATA (Some l)) Φ Ψ.
Proof. iIntros "H HΦ". unfold DATA. wp_load "H". by iApply "HΦ". Qed.

Lemma wp_set_NEXT (l : loc) d nx q Φ Ψ :
  l ↦ Node d nx -∗ (l ↦ Node d q -∗ Φ tt) -∗ wp (N := N) (set_NEXT (Some l) q) Φ Ψ.
Proof. iIntros "H HΦ". unfold set_NEXT. wp_load "H". wp_store "H". by iApply "HΦ". Qed.

Lemma lseg_NoDup p ns q : lseg p ns q ⊢ ⌜NoDup ns.*1⌝.
Proof.
  iInduction ns as [|[l d] ns] "IH" forall (p); simpl.
  - iIntros "_". iPureIntro. apply NoDup_nil_2.
  - iIntros "(-> & %nx & Hl & H)".
    iDestruct (lseg_fresh with "Hl H") as %Hl. iDestruct ("IH" with "H") as %Hns.
    iPureIntro. by apply NoDup_cons.
Qed.

(** A chain is acyclic: it comes back to its first node nowhere. *)
Lemma lseg_start l ns1 d ns2 :
  lseg (Some l) (ns1 ++ (l, d) :: ns2) NULL ⊢ ⌜ns1 = []⌝.
Proof.
  iIntros "H". iDestruct (lseg_NoDup with "H") as %Hnd.
  iDestruct (lseg_some with "H") as (d' ns' nx Hns) "_". iPureIntro.
  destruct ns1 as [|[l' d1] ns1]; [done|]. simplify_list_eq. csimpl in *.
  apply NoDup_cons in Hnd as [Hl _]. destruct Hl. set_solver.
Qed.

Lemma lseg_NULL_iff p ns : lseg p ns NULL ⊢ ⌜p = NULL ↔ ns = []⌝.
Proof.
  destruct ns as [|[l d] ns]; simpl; [by iIntros "%"|]. by iIntros "(-> & _)".
Qed.

(** The addresses of the first and of the last node. *)
Definition head_addr (ns : list (loc * ptr)) : ptr := fst <$> head ns.
Definition last_addr (ns : list (loc * ptr)) : ptr := fst <$> last ns.

Lemma last_addr_snoc ns l d : last_addr (ns ++ [(l, d)]) = Some l.
Proof. unfold last_addr. by rewrite last_snoc. Qed.

Lemma head_addr_app ns1 ns2 : ns1 ≠ [] → head_addr (ns1 ++ ns2) = head_addr ns1.
Proof. by destruct ns1. Qed.

Lemma last_addr_cons l d ns : ns ≠ [] → last_addr ((l, d) :: ns) = last_addr ns.
Proof. by destruct ns as [|[] ?]. Qed.

(** Only in a list of one node are the first and the last node the same. *)
Lemma last_addr_ne l d ns : NoDup (((l, d) :: ns).*1) → last_addr ((l, d) :: ns) = Some l → ns = [].
Proof.
  intros Hnd Hl. destruct (snoc_inv ns) as [->|(ns' & [l' d'] & ->)]; [done|].
  rewrite app_comm_cons last_addr_snoc in Hl. injection Hl as ->.
  csimpl in *. apply NoDup_cons in Hnd as [Hl _]. destruct Hl. rewrite fmap_app. set_solver.
Qed.

Lemma head_addr_ne l ns : l ∉ ns.*1 → head_addr ns ≠ Some l.
Proof. destruct ns as [|[l' d] ns]; csimpl; [done|]. intros Hl [= ->]. set_solver. Qed.

Lemma lseg_head p ns : lseg p ns NULL ⊢ ⌜p = head_addr ns⌝.
Proof.
  destruct ns as [|[l d] ns]; simpl; [by iIntros "%"|]. by iIntros "(-> & _)".
Qed.

(** The node after the first part [ns1] of a list, and what puts it back. *)
Lemma lseg_acc p ns1 l d ns2 :
  lseg p (ns1 ++ (l, d) :: ns2) NULL ⊢
  l ↦ Node d (head_addr ns2) ∗
  (l ↦ Node d (head_addr ns2) -∗ lseg p (ns1 ++ (l, d) :: ns2) NULL).
Proof.
  rewrite lseg_app. iIntros "(%m & H1 & -> & %nx & Hl & H2)".
  iDestruct (lseg_head with "H2") as %->. iFrame. iIntros "Hl". hfin.
Qed.

(** * The triples of the operations *)

Lemma wp_List_iterator p c ns1 ns2 Φ Ψ :
  c = last_addr ns1 →
  lseg p (ns1 ++ ns2) NULL -∗
  (lseg p (ns1 ++ ns2) NULL -∗ Φ (head_addr ns2)) -∗
  wp (List_iterator p c) Φ Ψ.
Proof.
  iIntros (->) "H HΦ". unfold List_iterator.
  destruct (snoc_inv ns1) as [->|(ns & [l d] & ->)]; simpl.
  - iDestruct (lseg_head with "H") as %->. iApply wp_ret. by iApply "HΦ".
  - rewrite last_addr_snoc -app_assoc /=.
    iDestruct (lseg_acc with "H") as "[Hl H]".
    wp_rule wp_NEXT on "Hl". iApply "HΦ". by iApply "H".
Qed.

Lemma wp_lseg_DATA p ns1 l d ns2 Φ Ψ :
  lseg p (ns1 ++ (l, d) :: ns2) NULL -∗
  (lseg p (ns1 ++ (l, d) :: ns2) NULL -∗ Φ d) -∗
  wp (DATA (Some l)) Φ Ψ.
Proof.
  iIntros "H HΦ". iDestruct (lseg_acc with "H") as "[Hl H]".
  wp_rule wp_DATA on "Hl". iApply "HΦ". by iApply "H".
Qed.

(** The loop that looks for the last node stops there. *)
Lemma last_loop_spec fuel p ns l d :
  length ns < fuel →
  ⦃ lseg p (ns ++ [(l, d)]) NULL ⦄
    loop fuel (λ iter_node,
      nx ← NEXT iter_node;
      mret (if bool_decide (nx = NULL) then inr iter_node else inl nx)) p
  ⦃ r, ⌈r = Some l⌉ ∗ lseg p ns (Some l) ∗ l ↦ Node d NULL ⦄.
Proof.
  unfold hoare. iInduction fuel as [|fuel] "IH" forall (p ns); iIntros (Hf) "H"; [lia|].
  iApply wp_loop. destruct ns as [|[l' d'] ns]; simpl in *.
  - iDestruct "H" as "(-> & %nx & Hl & %Hnx)". subst nx.
    wp_rule wp_NEXT on "Hl". hfin.
  - iDestruct "H" as "(-> & %nx & Hl' & H)". iDestruct (lseg_NULL_iff with "H") as %Hnx.
    wp_rule wp_NEXT on "Hl'". rewrite /= bool_decide_false; [|by rewrite Hnx; destruct ns].
    iApply (wp_wand with "[H]"); [iApply ("IH" with "[%] H"); lia|].
    iSplit; [|by iIntros (e) "[]"]. iIntros (r) "(-> & H & ?)". hfin.
Qed.

(** The loop that looks for the predecessor of the node at [l]. *)
Lemma pred_loop_spec fuel p ns1 l1 d1 l d ns2 :
  length ns1 < fuel →
  ⦃ lseg p (ns1 ++ (l1, d1) :: (l, d) :: ns2) NULL ⦄
    loop fuel (λ iter_node,
      if bool_decide (iter_node = NULL) then mret (inr iter_node)
      else
        nx ← NEXT iter_node;
        mret (if bool_decide (nx = Some l) then inr iter_node else inl nx)) p
  ⦃ r, ⌈r = Some l1⌉ ∗ lseg p ns1 (Some l1) ∗ l1 ↦ Node d1 (Some l) ∗
       lseg (Some l) ((l, d) :: ns2) NULL ⦄.
Proof.
  unfold hoare. iInduction fuel as [|fuel] "IH" forall (p ns1); iIntros (Hf) "H"; [lia|].
  iApply wp_loop. destruct ns1 as [|[l' d'] ns1]; simpl in *.
  - iDestruct "H" as "(-> & %nx & Hl1 & -> & %nx' & H)".
    rewrite bool_decide_false //. wp_rule wp_NEXT on "Hl1". rewrite /= bool_decide_true //. wp_finish. hfin.
  - iDestruct "H" as "(-> & %nx & Hl' & H)".
    rewrite bool_decide_false //. wp_rule wp_NEXT on "Hl'". simpl.
    iAssert ⌜nx ≠ Some l⌝%I as %Hnx.
    { iIntros (->).
      change (ns1 ++ (l1, d1) :: (l, d) :: ns2) with (ns1 ++ [(l1, d1)] ++ (l, d) :: ns2).
      rewrite app_assoc lseg_start. iDestruct "H" as %[]%app_nil. done. }
    rewrite bool_decide_false //.
    iApply (wp_wand with "[H]"); [iApply ("IH" with "[%] H"); lia|].
    iSplit; [|by iIntros (e) "[]"]. iIntros (r) "(-> & H & ? & ?)". hfin.
Qed.

Lemma List_insert_spec p xs d :
  ⦃ is_list p xs ⦄ List_insert p d
  ⦃ p', is_list p' (d :: xs) | e, ⌈e = Memory_Failed⌉ ∗ is_list p xs ⦄.
Proof.
  unfold hoare. iIntros "(%ns & -> & H)". unfold List_insert, List__allocate_node.
  wp_focus. iApply wp_alloc. iSplit; [|by hfin].
  iIntros (l) "Hl". wp_rule wp_set_NEXT on "Hl".
  iExists ((l, d) :: ns). hfin.
Qed.

Lemma List_append_spec fuel p xs d :
  length xs < fuel →
  ⦃ is_list p xs ⦄ List_append fuel p d
  ⦃ p', is_list p' (xs ++ [d]) | e, ⌈e = Memory_Failed⌉ ∗ is_list p xs ⦄.
Proof.
  unfold hoare. iIntros (Hf) "(%ns & -> & H)". unfold List_append, List__allocate_node.
  wp_focus. iApply wp_alloc. iSplit; [|by hfin].
  iIntros (l) "Hl". unfold List_is_empty. cbv beta.
  iDestruct (lseg_NULL_iff with "H") as %Hp.
  destruct (snoc_inv ns) as [->|(ns' & [l' d'] & ->)].
  - rewrite bool_decide_true; [|tauto]. wp_finish. iDestruct "H" as "_".
    iExists [(l, d)]. hfin.
  - rewrite bool_decide_false; [|by rewrite Hp; destruct ns'].
    rewrite length_fmap length_app /= in Hf.
    wp_call last_loop_spec with "H"; [lia|]. iIntros (r) "(-> & H & Hl')".
    wp_rule wp_set_NEXT on "Hl'".
    iExists ((ns' ++ [(l', d')]) ++ [(l, d)]). rewrite !fmap_app. iSplit; [done|].
    rewrite -app_assoc lseg_app. hfin.
Qed.

(** Deleting the node at [l] takes exactly that node out and frees it. *)
Lemma List_delete_node_spec fuel p ns1 l d ns2 :
  length ns1 ≤ fuel →
  ⦃ lseg p (ns1 ++ (l, d) :: ns2) NULL ⦄ List_delete_node fuel p (Some l)
  ⦃ p', lseg p' (ns1 ++ ns2) NULL ⦄.
Proof.
  unfold hoare. iIntros (Hf) "H". unfold List_delete_node, List__free_node.
  destruct (snoc_inv ns1) as [->|(ns & [l1 d1] & ->)]; simpl.
  - iDestruct "H" as "(-> & %nx & Hl & H)". rewrite bool_decide_true //.
    wp_rule wp_NEXT on "Hl". wp_free "Hl". done.
  - rewrite -app_assoc /=. iAssert ⌜p ≠ Some l⌝%I as %Hp.
    { iIntros (->). change ((l1, d1) :: (l, d) :: ns2) with ([(l1, d1)] ++ (l, d) :: ns2).
      rewrite app_assoc lseg_start. iDestruct "H" as %[]%app_nil. done. }
    rewrite bool_decide_false // length_app /= in Hf |- *.
    wp_call pred_loop_spec with "H"; [lia|].
    iIntros (r) "(-> & H1 & Hl1 & _ & %nx & Hl & H2)".
    wp_focus. iApply wp_ENSURE. simpl. wp_focus. wp_rule wp_NEXT on "Hl".
    wp_rule wp_set_NEXT on "Hl1". wp_free "Hl". rewrite -app_assoc lseg_app. hfin.
Qed.

(** Asked for a node that is not in the list, it throws and changes nothing. *)
Lemma List_delete_node_absent fuel p ns l :
  length ns < fuel → l ∉ ns.*1 →
  ⦃ lseg p ns NULL ⦄ List_delete_node fuel p (Some l)
  ⦃ _p, False | e, ⌈e = Postcondition_Failed⌉ ∗ lseg p ns NULL ⦄.
Proof.
  unfold hoare. iIntros (Hf Hl) "H". unfold List_delete_node.
  iDestruct (lseg_head with "H") as %Hp.
  rewrite bool_decide_false; [|rewrite Hp; by apply head_addr_ne].
  wp_focus. iApply (hoare_wp_ret _ _ (λ r, ⌈r = NULL⌉ ∗ lseg p ns NULL)%I with "H").
  - unfold hoare. clear Hp.
    iInduction fuel as [|fuel] "IH" forall (p ns Hf Hl); iIntros "H"; [lia|].
    iApply wp_loop. destruct ns as [|[l' d'] ns]; simpl in *.
    + iDestruct "H" as "->". rewrite bool_decide_true //. wp_finish. hfin.
    + iDestruct "H" as "(-> & %nx & Hl' & H)". iDestruct (lseg_head with "H") as %Hnx.
      apply not_elem_of_cons in Hl as [_ Hl].
      rewrite bool_decide_false //. wp_rule wp_NEXT on "Hl'". simpl.
      rewrite bool_decide_false; [|rewrite Hnx; by apply head_addr_ne].
      iApply (wp_wand with "[H]"); [iApply ("IH" with "[%] [//] H"); lia|].
      iSplit; [|by iIntros (e) "[]"]. iIntros (r) "(-> & H)". hfin.
  - iIntros (r) "(-> & H)". wp_focus. iApply wp_ENSURE. simpl. hfin.
Qed.

Lemma List_delete_head_spec fuel p d xs :
  ⦃ is_list p (d :: xs) ⦄ List_delete_head fuel p
  ⦃ r, ∃ p', ⌈r = (p', Some d)⌉ ∗ is_list p' xs ⦄.
Proof.
  unfold hoare. iIntros "(%ns & %Hns & H)". destruct ns as [|[l d'] ns]; simplify_eq/=.
  iDestruct "H" as "(-> & %nx & Hl & H)". unfold List_delete_head. simpl.
  wp_rule wp_DATA on "Hl".
  wp_call (List_delete_node_spec fuel (Some l) [] l d' ns) with "[Hl H]"; simpl; [lia|hfin|].
  iIntros (p') "H". wp_finish. iExists p'. iSplit; [done|]. hfin.
Qed.

Lemma List_delete_head_empty fuel p :
  ⦃ is_list p [] ⦄ List_delete_head fuel p ⦃ r, ⌈r = (NULL, None)⌉ ∗ is_list p [] ⦄.
Proof.
  unfold hoare. iIntros "(%ns & %Hns & H)". destruct ns; [|done].
  iDestruct "H" as %->. iApply wp_ret. iSplit; [done|]. iApply is_list_nil.
Qed.

Lemma List_length_loop fuel p ns n :
  length ns < fuel → in_u 64 n →
  ⦃ lseg p ns NULL ⦄
    loop fuel (λ '(list, n),
      if bool_decide (list = NULL) then mret (inr n)
      else nx ← NEXT list; mret (inl (nx, wrap_u 64 (n + 1)%Z))) (p, n)
  ⦃ r, ⌈r = wrap_u 64 (n + Z.of_nat (length ns))⌉ ∗ lseg p ns NULL ⦄.
Proof.
  unfold hoare. iInduction fuel as [|fuel] "IH" forall (p ns n); iIntros (Hf Hn) "H"; [lia|].
  iApply wp_loop. destruct ns as [|[l d] ns]; simpl in *.
  - iDestruct "H" as "->". rewrite bool_decide_true //. wp_finish.
    rewrite Z.add_0_r wrap_u_id // ; hfin.
  - iDestruct "H" as "(-> & %nx & Hl & H)". rewrite bool_decide_false //.
    wp_rule wp_NEXT on "Hl".
    iApply (wp_wand with "[H]"); [iApply ("IH" with "[%] [%] H"); [lia|by apply wrap_u_range]|].
    iSplit; [|by iIntros (e) "[]"]. iIntros (r) "(-> & H)". rewrite wrap_u_add_l -Z.add_assoc.
    iSplitR; [|hfin]. iPureIntro. f_equal. lia.
Qed.

Lemma List_length_spec fuel p xs :
  length xs < fuel →
  ⦃ is_list p xs ⦄ List_length fuel p
  ⦃ n, ⌈n = wrap_u 64 (Z.of_nat (length xs))⌉ ∗ is_list p xs ⦄.
Proof.
  unfold hoare. iIntros (Hf) "(%ns & -> & H)". rewrite length_fmap in Hf |- *.
  wp_call List_length_loop with "H"; [done|by split|]. iIntros (n) "[-> H]". hfin.
Qed.

(** The first node whose data satisfies [f]. *)
Fixpoint first_match (f : ptr → bool) (ns : list (loc * ptr)) : ptr :=
  match ns with
  | [] => NULL
  | (l, d) :: ns => if f d then Some l else first_match f ns
  end.

Lemma first_match_app f ns1 ns2 :
  forallb (negb ∘ f) ns1.*2 = true → first_match f (ns1 ++ ns2) = first_match f ns2.
Proof.
  induction ns1 as [|[l d] ns1 IH]; csimpl; [done|]. by destruct (f d).
Qed.

Lemma first_match_none f ns : forallb (negb ∘ f) ns.*2 = true → first_match f ns = NULL.
Proof. intros H. rewrite -(app_nil_r ns). by rewrite first_match_app. Qed.

Lemma first_match_some f ns l :
  first_match f ns = Some l →
  ∃ ns1 d ns2, ns = ns1 ++ (l, d) :: ns2 ∧ f d = true ∧ forallb (negb ∘ f) ns1.*2 = true.
Proof.
  induction ns as [|[l' d] ns IH]; simpl; [done|]. destruct (f d) eqn:E.
  - intros [= ->]. by exists [], d, ns.
  - intros (ns1 & d' & ns2 & -> & ? & ?)%IH. exists ((l', d) :: ns1), d', ns2. by rewrite /= E.
Qed.

Lemma first_match_none_iff f ns : first_match f ns = NULL → forallb (negb ∘ f) ns.*2 = true.
Proof. induction ns as [|[l d] ns IH]; csimpl; [done|]. by destruct (f d). Qed.

(** The common loop of [List_find_key] and [List_print]: the cursor goes over the
    nodes in order, and [body] looks at one datum, keeping the invariant [I]. *)
Lemma cursor_loop_spec {R} fuel p ns1 ns2 (I : list ptr → hpropI N)
    (body : ptr → ptr → M (gmap loc N) (ptr + R)) (z : R) (Q : R → hpropI N) :
  length ns2 < fuel →
  (∀ done l d rest, ns1 ++ ns2 = done ++ (l, d) :: rest →
    ⦃ I done.*2 ⦄ body (Some l) d
    ⦃ r, match r with inl c => ⌈c = Some l⌉ ∗ I (done.*2 ++ [d]) | inr r => Q r end ⦄) →
  (I (ns1 ++ ns2).*2 ⊢ Q z) →
  ⦃ lseg p (ns1 ++ ns2) NULL ∗ I ns1.*2 ⦄
    loop fuel (λ c,
      c ← List_iterator p c;
      if bool_decide (c = NULL) then mret (inr z) else d ← DATA c; body c d) (last_addr ns1)
  ⦃ r, lseg p (ns1 ++ ns2) NULL ∗ Q r ⦄.
Proof.
  intros Hf Hbody Hz. unfold hoare.
  iInduction fuel as [|fuel] "IH" forall (ns1 ns2 Hf Hbody Hz); [lia|].
  iIntros "[H HI]". iApply wp_loop. wp_focus.
  iApply (wp_List_iterator with "H"); [done|]. iIntros "H".
  cbv beta. destruct ns2 as [|[l d] ns2]; unfold head_addr at 1; simpl in *.
  - wp_finish. iFrame "H". iApply Hz. by rewrite app_nil_r.
  - wp_focus. iApply (wp_lseg_DATA with "H"). iIntros "H".
    iApply (hoare_wp_ret with "HI"); [by eapply Hbody|]. iIntros ([c|r]) "HQ"; [|by wp_finish; iFrame].
    iDestruct "HQ" as "[-> HI]". cbv beta iota.
    rewrite app_cons_assoc in Hbody, Hz |- *.
    assert (Some l = last_addr (ns1 ++ [(l, d)])) as Hc by by rewrite last_addr_snoc.
    rewrite {1}Hc.
    iApply ("IH" with "[%] [%] [%] [$H HI]"); [lia|done|done|by rewrite fmap_app].
Qed.

Lemma List_find_key_spec fuel p ns eq key f R :
  length ns < fuel → ns ≠ [] → key ≠ NULL →
  (∀ d, d ∈ ns.*2 → ⦃ R ⦄ eq (key, d) ⦃ b, ⌈b = f d⌉ ∗ R ⦄) →
  ⦃ lseg p ns NULL ∗ R ⦄ List_find_key fuel p (Some eq) key
  ⦃ r, ⌈r = (Some <$> first_match f ns)⌉ ∗ lseg p ns NULL ∗ R ⦄.
Proof.
  intros Hf Hns Hkey Heq. unfold hoare, List_find_key. iIntros "[H HR]".
  iDestruct (lseg_NULL_iff with "H") as %Hp.
  rewrite (bool_decide_false (p = NULL)); [|tauto]. rewrite (bool_decide_false (key = NULL)) //.
  do 3 wp_require.
  wp_call (cursor_loop_spec fuel p [] ns
    (λ done, ⌈forallb (negb ∘ f) done = true⌉ ∗ R)%I
    (λ c d, b ← eq (key, d); mret (if (b : bool) then inr (Some c) else inl c)) None
    (λ r, ⌈r = (Some <$> first_match f ns)⌉ ∗ R)%I) with "[H HR]"; [done| | | |].
  - intros done l d rest Hd. unfold hoare. iIntros "[%Hdone HR]".
    wp_focus. iApply (hoare_wp_ret with "HR"); [apply Heq; set_solver|].
    iIntros (b) "[-> HR]". wp_finish. destruct (f d) eqn:E; simpl; iFrame; iPureIntro.
    + rewrite /= in Hd. by rewrite Hd first_match_app // /= E.
    + split; [done|]. by rewrite forallb_app Hdone /= E.
  - simpl. iIntros "[%Hdone $]". iPureIntro. by rewrite first_match_none.
  - iFrame. done.
  - iIntros (r) "($ & $ & $)".
Qed.

(** A null argument is refused before the store is looked at. *)
Lemma List_find_key_null fuel p (eq : option (ptr * ptr → M (gmap loc N) bool)) key R :
  p = NULL ∨ eq = None ∨ key = NULL →
  ⦃ R ⦄ List_find_key fuel p eq key ⦃ _r, False | e, ⌈e = Precondition_Failed⌉ ∗ R ⦄.
Proof.
  intros H. unfold hoare, List_find_key. iIntros "HR".
  wp_focus. iApply wp_REQUIRE. destruct p as [l|]; cbn; [|hfin].
  wp_focus. iApply wp_REQUIRE. destruct eq as [eq|]; cbn; [|hfin].
  wp_focus. iApply wp_REQUIRE. destruct key; cbn; [by destruct H as [|[|]]|hfin].
Qed.

(** [I done] holds while the data [done] have been visited and [apply_fn] answered
    [true]; [J done] when it answered [false] on the last of them. *)
Lemma lseg_traverse fuel p ns (f : ptr → M (gmap loc N) bool) (I J : list ptr → hpropI N) (done : list ptr) :
  length ns < fuel →
  (∀ done' d rest, done ++ ns.*2 = done' ++ d :: rest →
    ⦃ I done' ⦄ f d ⦃ b, if b then I (done' ++ [d]) else J (done' ++ [d]) ⦄) →
  ⦃ lseg p ns NULL ∗ I done ⦄ List_traverse fuel p (Some f)
  ⦃ b, lseg p ns NULL ∗ if b then I (done ++ ns.*2)
       else ∃ done' rest, ⌈done ++ ns.*2 = done' ++ rest⌉ ∗ J done' ⦄.
Proof.
  unfold hoare. iInduction fuel as [|fuel] "IH" forall (p ns done); iIntros (Hf Hbody) "[H HI]"; [lia|].
  cbn [List_traverse]. wp_require. unfold List_is_empty.
  destruct ns as [|[l d] ns]; simpl in *.
  - iDestruct "H" as "->". rewrite bool_decide_true //. wp_finish. rewrite app_nil_r. hfin.
  - iDestruct "H" as "(-> & %nx & Hl & H)". rewrite bool_decide_false //.
    wp_rule wp_DATA on "Hl". wp_focus. iApply (hoare_wp_ret with "HI"); [by eapply Hbody|].
    iIntros ([|]) "HI"; simpl.
    + wp_rule wp_NEXT on "Hl".
      rewrite app_cons_assoc in Hbody |- *.
      iApply (wp_wand with "[H HI]"); [iApply ("IH" with "[%] [%] [$H $HI]"); [lia|done]|].
      iSplit; [|by iIntros (e) "[]"]. iIntros (b) "[H $]". hfin.
    + wp_finish. iSplitL "Hl H"; [hfin|]. iExists (done ++ [d]), ns.*2. iFrame.
      by rewrite app_cons_assoc.
Qed.

Lemma List_traverse_spec fuel p xs (f : ptr → M (gmap loc N) bool) (I J : list ptr → hpropI N) :
  length xs < fuel →
  (∀ done d rest, xs = done ++ d :: rest →
    ⦃ I done ⦄ f d ⦃ b, if b then I (done ++ [d]) else J (done ++ [d]) ⦄) →
  ⦃ is_list p xs ∗ I [] ⦄ List_traverse fuel p (Some f)
  ⦃ b, is_list p xs ∗ if b then I xs else ∃ done rest, ⌈xs = done ++ rest⌉ ∗ J done ⦄.
Proof.
  intros Hf Hbody. unfold hoare. iIntros "[(%ns & -> & H) HI]". rewrite length_fmap in Hf.
  wp_call (lseg_traverse fuel p ns f I J []) with "[H HI]"; [done|exact Hbody|iFrame|].
  iIntros (b) "[H $]". hfin.
Qed.

Lemma List_print_spec fuel p xs (f : ptr → M (gmap loc N) unit) (I : list ptr → hpropI N) :
  length xs < fuel →
  (∀ done d rest, xs = done ++ d :: rest → ⦃ I done ⦄ f d ⦃ _u, I (done ++ [d]) ⦄) →
  ⦃ is_list p xs ∗ I [] ⦄ List_print fuel p f ⦃ _u, is_list p xs ∗ I xs ⦄.
Proof.
  intros Hf Hbody. unfold hoare. iIntros "[(%ns & -> & H) HI]". rewrite length_fmap in Hf.
  wp_call (cursor_loop_spec fuel p [] ns I (λ c d, f d;; mret (inl c)) tt
    (λ _, I ns.*2)) with "[H HI]"; [done| |done|iFrame|].
  - intros done l d rest Hd. 
    assert (ns.*2 = done.*2 ++ d :: rest.*2) as Hb%Hbody by by rewrite /= in Hd; rewrite Hd fmap_app.
    unfold hoare. iIntros "HI". wp_focus. iApply (hoare_wp_ret _ _ _ _ _ Hb with "HI").
    iIntros ([]) "HI". wp_finish. hfin.
  - iIntros ([]) "[H $]". hfin.
Qed.

(** Every datum is handed to [free_data_fn] once, in order, and no cell remains. *)
Lemma lseg_destroy fuel p ns (f : ptr → M (gmap loc N) unit) (I : list ptr → hpropI N) (done : list ptr) :
  length ns < fuel →
  (∀ done' d rest, done ++ ns.*2 = done' ++ d :: rest →
    ⦃ I done' ⦄ f d ⦃ _u, I (done' ++ [d]) ⦄) →
  ⦃ lseg p ns NULL ∗ I done ⦄ List_destroy fuel p (Some f)
  ⦃ p', ⌈p' = NULL⌉ ∗ I (done ++ ns.*2) ⦄.
Proof.
  unfold hoare, List_destroy.
  iInduction fuel as [|fuel] "IH" forall (p ns done); iIntros (Hf Hbody) "[H HI]"; [lia|].
  iApply wp_loop. destruct ns as [|[l d] ns]; simpl in *.
  - iDestruct "H" as "->". rewrite bool_decide_true //. wp_finish. rewrite app_nil_r. hfin.
  - iDestruct "H" as "(-> & %nx & Hl & H)". rewrite bool_decide_false //.
    wp_rule wp_NEXT on "Hl". wp_rule wp_DATA on "Hl".
    pose proof (Hbody _ _ _ eq_refl) as Hb.
    iApply (hoare_wp_ret _ _ _ _ _ Hb with "HI"). iIntros ([]) "HI".
    wp_free "Hl".
    rewrite app_cons_assoc in Hbody |- *.
    iApply ("IH" with "[%] [%] [$H $HI]"); [lia|done].
Qed.

Lemma List_destroy_spec fuel p xs (f : ptr → M (gmap loc N) unit) (I : list ptr → hpropI N) :
  length xs < fuel →
  (∀ done d rest, xs = done ++ d :: rest → ⦃ I done ⦄ f d ⦃ _u, I (done ++ [d]) ⦄) →
  ⦃ is_list p xs ∗ I [] ⦄ List_destroy fuel p (Some f) ⦃ p', ⌈p' = NULL⌉ ∗ I xs ⦄.
Proof.
  intros Hf Hbody. unfold hoare. iIntros "[(%ns & -> & H) HI]". rewrite length_fmap in Hf.
  wp_call (lseg_destroy fuel p ns f I []) with "[H HI]"; [done|exact Hbody|iFrame|].
  iIntros (p') "[$ $]".
Qed.

(** [List_free] gives back every node and leaves the data alone. *)
Lemma List_free_spec fuel p xs :
  length xs < fuel → ⦃ is_list p xs ⦄ List_free fuel p ⦃ p', ⌈p' = NULL⌉ ⦄.
Proof.
  unfold hoare, List_free, List_destroy. iIntros (Hf) "(%ns & -> & H)".
  rewrite length_fmap in Hf.
  iInduction fuel as [|fuel] "IH" forall (p ns Hf); [lia|].
  iApply wp_loop. destruct ns as [|[l d] ns]; simpl in *.
  - iDestruct "H" as "->". rewrite bool_decide_true //. wp_finish. done.
  - iDestruct "H" as "(-> & %nx & Hl & H)". rewrite bool_decide_false //.
    wp_rule wp_NEXT on "Hl". wp_free "Hl". iApply ("IH" with "[%] H"). lia.
Qed.

(** [List_delete_node] on a well-formed list, asked for any node [l]: either
    [l] is one of the nodes, and the result is the list without exactly that node,
    whose cell is freed; or it is not, and the function throws
    [Postcondition_Failed] and leaves the list as it was. *)
Theorem List_delete_node_correct fuel p ns l :
  length ns < fuel →
  ⦃ lseg p ns NULL ⦄ List_delete_node fuel p (Some l)
  ⦃ p', ∃ ns1 d ns2, ⌈ns = ns1 ++ (l, d) :: ns2⌉ ∗ lseg p' (ns1 ++ ns2) NULL
  | e, ⌈e = Postcondition_Failed ∧ l ∉ ns.*1⌉ ∗ lseg p ns NULL ⦄.
Proof.
  intros Hf. destruct (decide (l ∈ ns.*1)) as [Hl|Hl].
  - apply list_elem_of_fmap in Hl as ([l' d] & -> & (ns1 & ns2 & ->)%list_elem_of_split).
    eapply hoare_conseq; [apply (List_delete_node_spec fuel)|done| |by iIntros (e) "[]"].
    + rewrite length_app in Hf. lia.
    + iIntros (p') "H". iExists ns1, d, ns2. by iFrame.
  - eapply hoare_conseq; [by apply List_delete_node_absent|done|by iIntros (p') "[]"|].
    iIntros (e) "[-> $]". done.
Qed.

(** [List_find_key] returns the first node whose datum the client's
    [equal_fn] accepts, or [false] when there is none, and changes nothing. *)
Theorem List_find_key_correct fuel p ns eq key f R :
  length ns < fuel → ns ≠ [] → key ≠ NULL →
  (∀ d, d ∈ ns.*2 → ⦃ R ⦄ eq (key, d) ⦃ b, ⌈b = f d⌉ ∗ R ⦄) →
  ⦃ lseg p ns NULL ∗ R ⦄ List_find_key fuel p (Some eq) key
  ⦃ r, ⌈match r with
        | Some q => ∃ ns1 l d ns2, q = Some l ∧ ns = ns1 ++ (l, d) :: ns2 ∧ f d = true ∧
                      forallb (negb ∘ f) ns1.*2 = true
        | None => forallb (negb ∘ f) ns.*2 = true
        end⌉ ∗ lseg p ns NULL ∗ R ⦄.
Proof.
  intros Hf Hns Hkey Heq. eapply hoare_conseq; [by eapply List_find_key_spec|done| |done].
  iIntros (r) "[-> $]". iPureIntro. destruct (first_match f ns) as [l|] eqn:E; simpl.
  - apply first_match_some in E as (ns1 & d & ns2 & ? & ? & ?). naive_solver.
  - by apply first_match_none_iff.
Qed.
End list_representation.

Lemma List_delete_node_correct_witness :
  2 < 3 ∧
  ⦃ lseg (N := node) (Some 1%positive) [(1%positive, NULL); (2%positive, NULL)] NULL ⦄
    List_delete_node (N := node) 3 (Some 1%positive) (Some 2%positive)
  ⦃ p', ∃ ns1 d ns2, ⌈[(1%positive, NULL); (2%positive, NULL)] = ns1 ++ (2%positive, d) :: ns2⌉ ∗
         lseg (N := node) p' (ns1 ++ ns2) NULL
  | e, ⌈e = Postcondition_Failed ∧ 2%positive ∉ [1%positive; 2%positive]⌉ ∗
       lseg (N := node) (Some 1%positive) [(1%positive, NULL); (2%positive, NULL)] NULL ⦄.
Proof.
  split; [lia|].
  exact (List_delete_node_correct (N := node) 3 (Some 1%positive) [(1%positive, NULL); (2%positive, NULL)] 2
    ltac:(simpl; lia)).
Defined.

Lemma List_find_key_correct_witness :
  ⦃ lseg (N := node) (Some 1%positive) [(1%positive, NULL); (2%positive, Some 7%positive)] NULL ∗ emp ⦄
    List_find_key (N := node) 3 (Some 1%positive) (Some (λ '(k, d), mret (bool_decide (k = d)))) (Some 7%positive)
  ⦃ r, ⌈match r with
        | Some q => ∃ ns1 l d ns2, q = Some l ∧
            [(1%positive, NULL); (2%positive, Some 7%positive)] = ns1 ++ (l, d) :: ns2 ∧
            bool_decide (Some 7%positive = d) = true ∧
            forallb (negb ∘ λ d, bool_decide (Some 7%positive = d)) ns1.*2 = true
        | None => forallb (negb ∘ λ d, bool_decide (Some 7%positive = d))
            [NULL; Some 7%positive] = true
        end⌉ ∗ lseg (N := node) (Some 1%positive) [(1%positive, NULL); (2%positive, Some 7%positive)] NULL ∗ emp ⦄.
Proof.
  apply (List_find_key_correct (N := node) 3 _ [(1%positive, NULL); (2%positive, Some 7%positive)] _ _
    (λ d, bool_decide (Some 7%positive = d)) emp%I); [simpl; lia|done|done|].
  intros d _. unfold hoare. iIntros "_". iApply wp_ret. done.
Defined.
