(* ===== verification/Container.v ===== *)
(** The interfaces that the stacks and the queue of src/libs/data_structs
    promise to their clients, and what follows from the interfaces alone: the
    loop that empties a container, [peel], and last-in first-out order. *)
From S2P Require Export HeapLogic.

(** * Containers that can be emptied *)

(** A handle [s] represents the data [xs], and [cremove] takes the first. *)
Class Container (N : Type) := {
  crep : ptr → list ptr → hpropI N;
  cremove : ptr → M (gmap loc N) (option ptr);
  cremove_some s x xs :
    ⦃ crep s (x :: xs) ⦄ cremove s ⦃ r, ⌈r = Some x⌉ ∗ crep s xs ⦄;
  cremove_none s :
    ⦃ crep s [] ⦄ cremove s ⦃ r, ⌈r = None⌉ ∗ crep s [] ⦄;
}.

Section drain.
Context {N : Type} `{!Container N}.

(** [while (remove(s, &stale_out)) f(stale_out);] *)
Definition drain (fuel : nat) (remove : ptr → M (gmap loc N) (option ptr)) (s : ptr)
    (f : ptr → M (gmap loc N) unit) : M (gmap loc N) unit :=
  loop fuel (λ _,
    stale_out ← remove s;
    match stale_out with
    | Some d => f d;; mret (inl tt)
    | None => mret (inr tt)
    end) tt.

Lemma drain_spec_from fuel s f (I : list ptr → hpropI N) done xs :
  length xs < fuel →
  (∀ done' d rest, done ++ xs = done' ++ d :: rest → ⦃ I done' ⦄ f d ⦃ _u, I (done' ++ [d]) ⦄) →
  ⦃ crep s xs ∗ I done ⦄ drain fuel cremove s f ⦃ _u, crep s [] ∗ I (done ++ xs) ⦄.
Proof.
  unfold hoare, drain.
  iInduction fuel as [|fuel] "IH" forall (done xs); iIntros (Hf Hbody) "[H HI]"; [lia|].
  iApply wp_loop. wp_focus. destruct xs as [|x xs].
  - wp_call cremove_none with "H". iIntros (r) "[-> H]". wp_finish. rewrite app_nil_r. iFrame.
  - wp_call cremove_some with "H". iIntros (r) "[-> H]". cbv beta iota.
    pose proof (Hbody _ _ _ eq_refl) as Hb.
    wp_focus. iApply (hoare_wp_ret _ _ _ _ _ Hb with "HI"). iIntros ([]) "HI". wp_finish.
    rewrite app_cons_assoc in Hbody |- *. simpl in Hf.
    iApply ("IH" with "[%] [//] [$H $HI]"). lia.
Qed.

(** Emptying hands every element to [f] once, in the order of removal. *)
Lemma drain_spec fuel s f (I : list ptr → hpropI N) xs :
  length xs < fuel →
  (∀ done d rest, xs = done ++ d :: rest → ⦃ I done ⦄ f d ⦃ _u, I (done ++ [d]) ⦄) →
  ⦃ crep s xs ∗ I [] ⦄ drain fuel cremove s f ⦃ _u, crep s [] ∗ I xs ⦄.
Proof. apply (drain_spec_from fuel s f I [] xs). Qed.
End drain.

(** A datum that [FREE] accepts: [NULL], or a cell that is owned. *)
Definition owned {N} (d : ptr) : hpropI N :=
  match d with None => emp | Some l => ∃ n : N, l ↦ n end%I.

Lemma owned_free {N} {MA : Malloc} (d : ptr) (xs : list ptr) :
  ⦃ [∗ list] x ∈ (d :: xs), owned (N := N) x ⦄ Memory_free d ⦃ _u, [∗ list] x ∈ xs, owned x ⦄.
Proof.
  unfold hoare. simpl. iIntros "[Hd H]". destruct d as [l|]; simpl.
  - iDestruct "Hd" as (n) "Hd". wp_free "Hd". iFrame.
  - by iApply wp_free_null.
Qed.

(** * Stacks *)

(** [slost s xs] describes the store after a push on [s], which held [xs], has
    thrown; [sfits n] says that a stack may hold [n] elements. *)
Class Stack (N : Type) := {
  stack_container :: Container N;
  spush : ptr → ptr → M (gmap loc N) unit;
  slost : ptr → list ptr → hpropI N;
  sfits : nat → Prop;
  spush_spec s x xs : sfits (S (length xs)) →
    ⦃ crep s xs ⦄ spush s x
    ⦃ _u, crep s (x :: xs) | e, ⌈e = Memory_Failed⌉ ∗ slost s xs ⦄;
  sfits_le n m : n ≤ m → sfits m → sfits n;
  crep_fits s xs : crep s xs ⊢ ⌜sfits (length xs)⌝;
}.

(** Two clients: push (or add) all of [xs], and pop (or remove) [n] times. *)
Fixpoint push_all {N} (push : ptr → ptr → M (gmap loc N) unit) (s : ptr) (xs : list ptr)
    : M (gmap loc N) unit :=
  match xs with [] => mret tt | x :: xs => push s x;; push_all push s xs end.
Fixpoint pop_n {N} (pop : ptr → M (gmap loc N) (option ptr)) (n : nat) (s : ptr)
    : M (gmap loc N) (list (option ptr)) :=
  match n with
  | O => mret []
  | S n => r ← pop s; rs ← pop_n pop n s; mret (r :: rs)
  end.

Lemma pop_n_spec {N} `{!Container N} s xs ys :
  ⦃ crep s (xs ++ ys) ⦄ pop_n cremove (length xs) s ⦃ r, ⌈r = Some <$> xs⌉ ∗ crep s ys ⦄.
Proof.
  unfold hoare. iInduction xs as [|x xs] "IH"; simpl; iIntros "H".
  - iApply wp_ret. hfin.
  - wp_call cremove_some with "H". iIntros (r) "[-> H]".
    wp_focus. iApply (wp_wand with "[H]"); [by iApply "IH"|].
    iSplit; [|by iIntros (e) "[]"]. iIntros (r) "[-> H]". wp_finish. hfin.
Qed.

Section stack_clients.
Context {N : Type} `{!Stack N}.

(** Both stacks implement [peel] as a [pop] followed by a [push]. *)
Definition peel (pop : ptr → M (gmap loc N) (option ptr))
    (push : ptr → ptr → M (gmap loc N) unit) (s : ptr) : M (gmap loc N) (option ptr) :=
  r ← pop s;
  match r with
  | None => mret None
  | Some d => push s d;; mret (Some d)
  end.

(** [peel] leaves the stack as it was, but when its [push] fails the element it
    has popped is gone. *)
Lemma peel_spec s x xs :
  ⦃ crep s (x :: xs) ⦄ peel cremove spush s
  ⦃ r, ⌈r = Some x⌉ ∗ crep s (x :: xs) | e, ⌈e = Memory_Failed⌉ ∗ slost s xs ⦄.
Proof.
  unfold hoare, peel. iIntros "H". iDestruct (crep_fits with "H") as %Hf.
  wp_call cremove_some with "H". iIntros (r) "[-> H]".
  wp_focus. iApply (hoare_wp with "H"); [by apply spush_spec|].
  iSplit; [|by iIntros (e) "H"]. iIntros ([]) "H". wp_finish. hfin.
Qed.

Lemma peel_empty s :
  ⦃ crep s [] ⦄ peel cremove spush s ⦃ r, ⌈r = None⌉ ∗ crep s [] ⦄.
Proof.
  unfold hoare, peel. iIntros "H". wp_call cremove_none with "H".
  iIntros (r) "[-> H]". wp_finish. hfin.
Qed.


Lemma push_all_spec s xs ys :
  sfits (length xs + length ys) →
  ⦃ crep s ys ⦄ push_all spush s xs
  ⦃ _u, crep s (rev xs ++ ys) | e, ⌈e = Memory_Failed⌉ ∗ ∃ zs, slost s zs ⦄.
Proof.
  unfold hoare. iInduction xs as [|x xs] "IH" forall (ys); simpl; iIntros (Hf) "H".
  - by iApply wp_ret.
  - wp_focus. iApply (hoare_wp with "H"); [apply spush_spec; eapply sfits_le, Hf; lia|].
    iSplit; [|by iIntros (e) "[$ H]"; iExists _].
    iIntros ([]) "H". rewrite -app_assoc /=. iApply ("IH" with "[%] H").
    by rewrite /= Nat.add_succ_r.
Qed.

(** Whatever is pushed comes back in the opposite order. *)
Lemma lifo_spec s xs ys :
  sfits (length xs + length ys) →
  ⦃ crep s ys ⦄ push_all spush s xs;; pop_n cremove (length xs) s
  ⦃ r, ⌈r = Some <$> rev xs⌉ ∗ crep s ys | e, ⌈e = Memory_Failed⌉ ∗ ∃ zs, slost s zs ⦄.
Proof.
  unfold hoare. iIntros (Hf) "H". wp_focus.
  iApply (hoare_wp with "H"); [by apply push_all_spec|].
  iSplit; [|by iIntros (e) "$"]. iIntros ([]) "H".
  rewrite -(length_rev xs). iApply (hoare_wp_ret with "H"); [apply pop_n_spec|].
  by iIntros (r) "$".
Qed.
End stack_clients.
