(* ===== verification/ListStack.v ===== *)
(** The stack of src/libs/data_structs/list_stack.c, which keeps its elements in
    a singly linked list: a client of [LinkedList] and an instance of [Stack]. *)
From S2P Require Export LinkedList Container.

(** [struct stack] of list_stack.c. *)
Record lstack := LStack { count : Z; storage : ptr }.

Section lstack_operations.
Context {N : Type} `{!Struct node N, !Struct lstack N} {MA : Malloc}.
Abbreviation heap := (gmap loc N).

Definition LStack_new : M heap ptr := Memory_alloc (LStack 0 List_new).

(** [Require(stack)]. *)
Definition require_ptr (p : ptr) : M heap unit := REQUIRE (negb (bool_decide (p = NULL))).

Definition LStack_is_empty (stack : ptr) : M heap bool :=
  require_ptr stack;;
  s ← load stack;
  mret (bool_decide (count s = 0%Z)).

Definition LStack_push (stack data : ptr) : M heap unit :=
  require_ptr stack;;
  s ← load stack;
  l ← List_insert (storage s) data;
  store stack (LStack (count s) l);;
  n ← defined (int_of (count s + 1));
  store stack (LStack n l).

(** [None] is [false]; [Some d] is [true] with [*p_data__ = d]. *)
Definition LStack_pop (fuel : nat) (stack : ptr) : M heap (option ptr) :=
  require_ptr stack;;
  s ← load stack;
  if bool_decide (count s = 0%Z) then mret None
  else
    '(l, d) ← List_delete_head fuel (storage s);
    store stack (LStack (count s) l);;
    n ← defined (int_of (count s - 1));
    store stack (LStack n l);;
    mret d.

Definition LStack_peel (fuel : nat) (stack : ptr) : M heap (option ptr) :=
  r ← LStack_pop fuel stack;
  match r with
  | None => mret None
  | Some d => LStack_push stack d;; mret (Some d)
  end.

Definition LStack_destroy (fuel : nat) (stack : ptr) (free_data_fn : option (ptr → M heap unit))
    : M heap unit :=
  e ← LStack_is_empty stack;
  (if negb e then
     s ← load stack;
     l ← List_destroy fuel (storage s) free_data_fn;
     store stack (LStack 0 l)
   else mret tt);;
  Memory_free stack.

Definition LStack_free (fuel : nat) (stack : ptr) : M heap unit := LStack_destroy fuel stack None.
End lstack_operations.

Section lstack_specs.
Context {N : Type} `{!Struct node N, !Struct lstack N} {MA : Malloc}.

(** The most elements that the [int] counter can count. *)
Definition lstack_fits (n : nat) : Prop := (Z.of_nat n < 2 ^ 31)%Z.

Definition lstack_rep (s : ptr) (xs : list ptr) : hpropI N :=
  ∃ l p, ⌈s = Some l⌉ ∗ ⌈lstack_fits (length xs)⌉ ∗
    l ↦ LStack (Z.of_nat (length xs)) p ∗ is_list p xs.

Lemma LStack_new_spec :
  ⦃ emp ⦄ LStack_new ⦃ s, lstack_rep s [] | e, ⌈e = Memory_Failed⌉ ⦄.
Proof.
  unfold hoare. iIntros "_". iApply wp_alloc. iSplit; [|done].
  iIntros (l) "Hl". iExists l, NULL. iFrame. repeat iSplit; try done. iApply is_list_nil.
Qed.

Lemma LStack_is_empty_spec s xs :
  ⦃ lstack_rep s xs ⦄ LStack_is_empty s
  ⦃ b, ⌈b = bool_decide (xs = [])⌉ ∗ lstack_rep s xs ⦄.
Proof.
  unfold hoare, LStack_is_empty, require_ptr. iIntros "(%l & %p & -> & %Hf & Hl & H)".
  wp_require. wp_load "Hl". iSplit; [|hfin].
  iPureIntro. apply bool_decide_ext. destruct xs; simpl; split; (done || lia).
Qed.

(** A push that cannot allocate leaves the stack as it was. *)
Lemma LStack_push_spec s x xs :
  lstack_fits (S (length xs)) →
  ⦃ lstack_rep s xs ⦄ LStack_push s x
  ⦃ _u, lstack_rep s (x :: xs) | e, ⌈e = Memory_Failed⌉ ∗ lstack_rep s xs ⦄.
Proof.
  unfold hoare, LStack_push, require_ptr. iIntros (Hx) "(%l & %p & -> & %Hf & Hl & H)".
  wp_require. wp_load "Hl". wp_focus. iApply (hoare_wp with "H"); [apply List_insert_spec|].
  iSplit; [|iIntros (e) "[$ H]"; hfin]. iIntros (p') "H".
  wp_store "Hl". simpl. wp_focus. iApply wp_defined.
  { apply int_of_in. unfold lstack_fits, in_s in *. lia. }
  wp_store "Hl". iExists l, p'. repeat (iSplit; [done|]). iFrame.
  replace (Z.of_nat (length (x :: xs))) with (Z.of_nat (length xs) + 1)%Z by (simpl; lia). hfin.
Qed.

Lemma LStack_pop_spec fuel s x xs :
  ⦃ lstack_rep s (x :: xs) ⦄ LStack_pop fuel s ⦃ r, ⌈r = Some x⌉ ∗ lstack_rep s xs ⦄.
Proof.
  unfold hoare, LStack_pop, require_ptr. iIntros "(%l & %p & -> & %Hf & Hl & H)".
  wp_require. wp_load "Hl". rewrite bool_decide_false; [|by simpl; lia].
  wp_call List_delete_head_spec with "H". iIntros (r) "(%p' & -> & H)". cbv beta iota.
  wp_store "Hl". wp_focus. iApply wp_defined.
  { apply int_of_in. unfold lstack_fits, in_s in *. simpl in *. lia. }
  wp_store "Hl". iSplit; [done|]. iExists l, p'. repeat (iSplit; [done|]).
  unfold lstack_fits in *. iSplit; [iPureIntro; simpl in *; lia|].
  replace (count _ - 1)%Z with (Z.of_nat (length xs)) by (simpl; lia). hfin.
Qed.

Lemma LStack_pop_empty fuel s :
  ⦃ lstack_rep s [] ⦄ LStack_pop fuel s ⦃ r, ⌈r = None⌉ ∗ lstack_rep s [] ⦄.
Proof.
  unfold hoare, LStack_pop, require_ptr. iIntros "(%l & %p & -> & %Hf & Hl & H)".
  wp_require. wp_load "Hl". rewrite bool_decide_true //. wp_finish. hfin.
Qed.

(** The structure satisfies the interface, so the clients' theorems hold of it. *)
#[export] Instance lstack_container fuel : Container N := {|
  crep := lstack_rep;
  cremove := LStack_pop fuel;
  cremove_some := LStack_pop_spec fuel;
  cremove_none := LStack_pop_empty fuel;
|}.

#[export] Program Instance lstack_stack fuel : Stack N := {|
  stack_container := lstack_container fuel;
  spush := LStack_push;
  slost := lstack_rep;
  sfits := lstack_fits;
  spush_spec := LStack_push_spec;
|}.
Next Obligation. unfold lstack_fits. lia. Qed.
Next Obligation. iIntros (fuel s xs) "(%l & %p & _ & %H & _)". done. Qed.

(** Destroying frees the nodes and the header, after every datum was handed to
    [free_data_fn] from the top down. *)
Lemma LStack_destroy_spec fuel s xs f (I : list ptr → hpropI N) :
  length xs < fuel →
  (∀ done d rest, xs = done ++ d :: rest → ⦃ I done ⦄ f d ⦃ _u, I (done ++ [d]) ⦄) →
  ⦃ lstack_rep s xs ∗ I [] ⦄ LStack_destroy fuel s (Some f) ⦃ _u, I xs ⦄.
Proof.
  intros Hf Hbody. unfold hoare, LStack_destroy. iIntros "[H HI]".
  wp_call LStack_is_empty_spec with "H". iIntros (b) "[-> H]".
  iDestruct "H" as "(%l & %p & -> & _ & Hl & H)".
  destruct xs as [|x xs]; simpl negb; cbv iota.
  - wp_finish. wp_free "Hl". iDestruct "H" as ([|] Hns) "H"; [|done]. simpl.
    iDestruct "H" as "_". iFrame.
  - wp_load "Hl". wp_call (List_destroy_spec _ _ _ _ I) with "[H HI]"; [done|done|iFrame|].
    iIntros (p') "[-> HI]". wp_store "Hl". wp_free "Hl". iFrame.
Qed.

(** the list stack is last in, first out: what is pushed on any stack comes
    back in the opposite order and leaves the stack as it was, unless a push
    runs out of memory. *)
Theorem LStack_lifo fuel s xs ys :
  lstack_fits (length xs + length ys) →
  ⦃ lstack_rep s ys ⦄ push_all LStack_push s xs;; pop_n (LStack_pop fuel) (length xs) s
  ⦃ r, ⌈r = Some <$> rev xs⌉ ∗ lstack_rep s ys | e, ⌈e = Memory_Failed⌉ ∗ ∃ zs, lstack_rep s zs ⦄.
Proof. exact (@lifo_spec N (lstack_stack fuel) s xs ys). Qed.

(** [LStack_peel] answers with the top element and leaves the stack as it
    was; but when its inner push cannot allocate, the element it popped is gone. *)
Theorem LStack_peel_correct fuel s xs :
  ⦃ lstack_rep s xs ⦄ LStack_peel fuel s
  ⦃ r, ⌈r = head xs⌉ ∗ lstack_rep s xs | e, ⌈e = Memory_Failed⌉ ∗ lstack_rep s (tail xs) ⦄.
Proof.
  destruct xs as [|x xs]; [|exact (@peel_spec N (lstack_stack fuel) s x xs)].
  eapply hoare_conseq; [exact (@peel_empty N (lstack_stack fuel) s)|done|done|by iIntros (e) "[]"].
Qed.
End lstack_specs.

Lemma LStack_lifo_witness :
  lstack_fits (2 + 0) ∧
  ⦃ lstack_rep (N := node + lstack) (Some 1%positive) [] ⦄
    push_all (LStack_push (MA := malloc_always)) (Some 1%positive) [Some 5%positive; Some 6%positive];;
    pop_n (LStack_pop 1) 2 (Some 1%positive)
  ⦃ r, ⌈r = [Some (Some 6%positive); Some (Some 5%positive)]⌉ ∗ lstack_rep (Some 1%positive) []
  | e, ⌈e = Memory_Failed⌉ ∗ ∃ zs, lstack_rep (Some 1%positive) zs ⦄.
Proof.
  assert (lstack_fits (2 + 0)) as Hf by (unfold lstack_fits; lia). split; [exact Hf|].
  exact (LStack_lifo (N := node + lstack) (MA := malloc_always) 1 (Some 1%positive)
    [Some 5%positive; Some 6%positive] [] Hf).
Defined.
