(* ===== verification/ObjectArray.v ===== *)
(** Blocks of [Object_T] allocated with [ALLOC] and grown with [RESIZE], as the
    array stack and the binary heap use them.  A slot that was never written
    holds an indeterminate value: reading it, like reading or writing outside the
    block, is undefined behaviour. *)
From S2P Require Export HeapLogic.

Record objarray := ObjArray { slots : list (option ptr) }.

Section array_operations.
Context {N : Type} `{!Struct objarray N} {MA : Malloc}.
Abbreviation heap := (gmap loc N).

(** [ALLOC(n * sizeof(Object_T))] and [RESIZE(p, n * sizeof(Object_T))], with the
    [Require(nbytes > 0)] of [Memory_alloc] and [Memory_resize]. *)
Definition array_alloc (n : Z) : M heap ptr :=
  REQUIRE (bool_decide (0 < n)%Z);;
  Memory_alloc (ObjArray (replicate (Z.to_nat n) None)).

Definition array_grow (n : Z) (a : objarray) : objarray :=
  let k := Z.to_nat n in
  ObjArray (take k (slots a) ++ replicate (k - length (slots a)) None).

Definition array_resize (p : ptr) (n : Z) : M heap ptr :=
  REQUIRE (bool_decide (0 < n)%Z);;
  Memory_resize p (array_grow n).

(** [p[i]] and [p[i] = d]. *)
Definition slot_get (p : ptr) (i : Z) : M heap ptr :=
  a ← load p;
  if bool_decide (0 ≤ i)%Z then defined (slots a !! Z.to_nat i ≫= id) else undef.

Definition slot_set (p : ptr) (i : Z) (d : ptr) : M heap unit :=
  a ← load p;
  if bool_decide (0 ≤ i < Z.of_nat (length (slots a)))%Z
  then store p (ObjArray (<[Z.to_nat i := Some d]> (slots a)))
  else undef.
End array_operations.

Section array_specs.
Context {N : Type} `{!Struct objarray N} {MA : Malloc}.

(** A block of [n] slots whose first [length xs] hold [xs]. *)
Definition is_array (l : loc) (xs : list ptr) (n : Z) : hpropI N :=
  ∃ rest, ⌈Z.of_nat (length xs + length rest) = n⌉ ∗ l ↦ ObjArray ((Some <$> xs) ++ rest).

Lemma wp_array_alloc n Φ Ψ :
  (0 < n)%Z →
  ((∀ l, is_array l [] n -∗ Φ (Some l)) ∧ Ψ Memory_Failed) ⊢ wp (array_alloc n) Φ Ψ.
Proof.
  iIntros (Hn) "H". unfold array_alloc. rewrite bool_decide_true //. wp_require.
  iApply wp_alloc. iSplit; [|by iDestruct "H" as "[_ H]"].
  iIntros (l) "Hl". iDestruct "H" as "[H _]". iApply "H". iExists _. iFrame.
  iPureIntro. rewrite length_replicate /=. lia.
Qed.

Lemma wp_array_resize l xs n n' Φ Ψ :
  (n ≤ n')%Z → (0 < n')%Z →
  is_array l xs n -∗
  ((∀ l', is_array l' xs n' -∗ Φ (Some l')) ∧ Ψ Memory_Failed) -∗
  wp (array_resize (Some l) n') Φ Ψ.
Proof.
  iIntros (Hn Hn') "(%rest & %Hlen & Hl) H". unfold array_resize.
  rewrite bool_decide_true //. wp_require. iApply (wp_resize with "Hl"). iSplit.
  - iIntros (l') "Hl". iDestruct "H" as "[H _]". iApply "H".
    unfold array_grow. simpl. rewrite take_ge; [|rewrite length_app length_fmap; lia].
    rewrite -app_assoc. iExists _. iFrame. iPureIntro.
    rewrite !length_app length_fmap length_replicate. lia.
  - by iDestruct "H" as "[_ H]".
Qed.

Lemma wp_slot_get l xs n i d Φ Ψ :
  (0 ≤ i)%Z → xs !! Z.to_nat i = Some d →
  is_array l xs n -∗ (is_array l xs n -∗ Φ d) -∗ wp (slot_get (Some l) i) Φ Ψ.
Proof.
  iIntros (Hi Hd) "(%rest & %Hlen & Hl) H". unfold slot_get. wp_load "Hl".
  rewrite bool_decide_true //. iApply wp_defined.
  { simpl. by erewrite lookup_app_l_Some; [|by rewrite list_lookup_fmap Hd]. }
  iApply "H". hfin.
Qed.

Lemma wp_slot_set l xs n i d Φ Ψ :
  (0 ≤ i < Z.of_nat (length xs))%Z →
  is_array l xs n -∗ (is_array l (<[Z.to_nat i := d]> xs) n -∗ Φ tt) -∗
  wp (slot_set (Some l) i d) Φ Ψ.
Proof.
  iIntros (Hi) "(%rest & %Hlen & Hl) H". unfold slot_set. wp_load "Hl".
  rewrite bool_decide_true; [|simpl; rewrite length_app length_fmap; lia].
  wp_store "Hl". iApply "H". iExists rest. rewrite length_insert. iSplit; [done|].
  rewrite /= insert_app_l; [|rewrite length_fmap; lia]. rewrite list_fmap_insert. iFrame.
Qed.

(** Writing the first free slot appends an element. *)
Lemma wp_slot_push l xs n i d Φ Ψ :
  i = Z.of_nat (length xs) → (i < n)%Z →
  is_array l xs n -∗ (is_array l (xs ++ [d]) n -∗ Φ tt) -∗ wp (slot_set (Some l) i d) Φ Ψ.
Proof.
  iIntros (-> Hn) "(%rest & %Hlen & Hl) H". unfold slot_set. wp_load "Hl".
  rewrite bool_decide_true; [|simpl; rewrite length_app length_fmap; lia].
  wp_store "Hl". iApply "H". destruct rest as [|r rest]; simpl in *; [lia|].
  iExists rest. iSplit; [iPureIntro; rewrite length_app /=; lia|].
  rewrite Nat2Z.id insert_app_r_alt; [|by rewrite length_fmap].
  rewrite length_fmap Nat.sub_diag fmap_app -app_assoc /=. iFrame.
Qed.

(** Forgetting the last element leaves its slot free. *)
Lemma is_array_pop l xs d n : is_array l (xs ++ [d]) n ⊢ is_array l xs n.
Proof.
  iIntros "(%rest & %Hlen & Hl)". rewrite fmap_app -app_assoc /=. iExists (Some d :: rest).
  iFrame. iPureIntro. rewrite length_app /= in Hlen |- *. lia.
Qed.

Lemma is_array_length l xs n : is_array l xs n ⊢ ⌜(Z.of_nat (length xs) ≤ n)%Z⌝.
Proof. iIntros "(%rest & %Hlen & _)". iPureIntro. lia. Qed.
End array_specs.
