(* ===== verification/ArrayStack.v ===== *)
(** The stack of src/libs/data_structs/array_stack.c, which keeps its elements in
    a block that it enlarges when it is full: a second instance of [Stack]. *)
From S2P Require Export ObjectArray Container.

(** [struct stack] of array_stack.c.  [top] is a pointer into a block: the block
    and an index. *)
Record astack := AStack { storage : ptr; top : ptr * Z; size : Z }.

Definition RESIZE_STEP : Z := 100.
Definition k_initial_size : Z := 50.

Section astack_operations.
Context {N : Type} `{!Struct objarray N, !Struct astack N} {MA : Malloc}.
Abbreviation heap := (gmap loc N).

(** [top - storage]: undefined when they point into different blocks. *)
Definition CURRENT_SIZE (s : astack) : option Z :=
  if bool_decide ((top s).1 = storage s) then Some (top s).2 else None.

(** The fields of the new header are indeterminate until they are assigned. *)
Definition Stack_new (initial_size : Z) : M heap ptr :=
  REQUIRE (bool_decide (initial_size > 0)%Z);;
  stack ← Memory_alloc (AStack NULL (NULL, 0%Z) 0);
  p ← array_alloc initial_size;
  store stack (AStack p (p, 0%Z) initial_size);;
  mret stack.

Definition Stack_new_def : M heap ptr := Stack_new k_initial_size.

Definition Stack_is_empty (stack : ptr) : M heap bool :=
  REQUIRE (negb (bool_decide (stack = NULL)));;
  s ← load stack;
  mret (bool_decide (top s = (storage s, 0%Z))).

(** [size] is an [unsigned], so the new size is computed modulo 2^32. *)
Definition Stack_push (stack data : ptr) : M heap unit :=
  REQUIRE (negb (bool_decide (stack = NULL)));;
  s ← load stack;
  cur ← defined (CURRENT_SIZE s);
  (if bool_decide (cur = size s) then
     p_newstack ← array_resize (storage s) (wrap_u 32 (size s + RESIZE_STEP));
     store stack (AStack p_newstack (p_newstack, size s) (wrap_u 32 (size s + RESIZE_STEP)))
   else mret tt);;
  s ← load stack;
  slot_set (top s).1 (top s).2 data;;
  store stack (AStack (storage s) ((top s).1, (top s).2 + 1)%Z (size s)).

Definition Stack_pop (stack : ptr) : M heap (option ptr) :=
  REQUIRE (negb (bool_decide (stack = NULL)));;
  e ← Stack_is_empty stack;
  if (e : bool) then mret None
  else
    s ← load stack;
    store stack (AStack (storage s) ((top s).1, (top s).2 - 1)%Z (size s));;
    d ← slot_get (top s).1 ((top s).2 - 1);
    mret (Some d).

Definition Stack_peel (stack : ptr) : M heap (option ptr) :=
  r ← Stack_pop stack;
  match r with
  | None => mret None
  | Some d => Stack_push stack d;; mret (Some d)
  end.

Definition Stack_destroy (fuel : nat) (stack : ptr) (free_data_fn : option (ptr → M heap unit))
    : M heap unit :=
  e ← Stack_is_empty stack;
  (if negb e then
     loop fuel (λ _,
       stale_out ← Stack_pop stack;
       match stale_out with
       | Some d =>
           match free_data_fn with
           | None => Memory_free d
           | Some f => f d
           end;;
           mret (inl tt)
       | None => mret (inr tt)
       end) tt
   else mret tt);;
  s ← load stack;
  Memory_free (storage s);;
  Memory_free stack.

Definition Stack_free (fuel : nat) (stack : ptr) : M heap unit := Stack_destroy fuel stack None.
End astack_operations.

Section astack_specs.
Context {N : Type} `{!Struct objarray N, !Struct astack N} {MA : Malloc}.

(** Below this many elements the size of the block does not wrap around. *)
Definition astack_fits (n : nat) : Prop := (Z.of_nat n + RESIZE_STEP < 2 ^ 32)%Z.

(** The block holds the elements from the bottom of the stack up. *)
Definition astack_rep (s : ptr) (xs : list ptr) : hpropI N :=
  ∃ l b n, ⌈s = Some l⌉ ∗ ⌈astack_fits (length xs) ∧ in_u 32 n⌉ ∗
    l ↦ AStack (Some b) (Some b, Z.of_nat (length xs)) n ∗ is_array b (rev xs) n.

(** After a failed growth the header still points to the block, which is freed. *)
Definition astack_dangling (s : ptr) (xs : list ptr) : hpropI N :=
  ∃ l b, ⌈s = Some l⌉ ∗
    l ↦ AStack (Some b) (Some b, Z.of_nat (length xs)) (Z.of_nat (length xs)).

Lemma astack_fits_le n m : n ≤ m → astack_fits m → astack_fits n.
Proof. unfold astack_fits. lia. Qed.

Lemma Stack_new_spec n :
  (0 < n)%Z → in_u 32 n →
  ⦃ emp ⦄ Stack_new n
  ⦃ s, astack_rep s [] | e, ⌈e = Memory_Failed⌉ ∗ (emp ∨ ∃ l (st : astack), l ↦ st) ⦄.
Proof.
  unfold hoare, Stack_new. iIntros (Hn Hu) "_". rewrite bool_decide_true; [|lia].
  wp_require. wp_focus. iApply wp_alloc. iSplit; [|iSplit; [done|by iLeft]].
  iIntros (l) "Hl". wp_focus. iApply wp_array_alloc; [done|]. iSplit; [|iSplit; [done|iRight; hfin]].
  iIntros (b) "Hb". wp_store "Hl". iExists l, b, n. iFrame. done.
Qed.

Lemma Stack_is_empty_spec s xs :
  ⦃ astack_rep s xs ⦄ Stack_is_empty s
  ⦃ b, ⌈b = bool_decide (xs = [])⌉ ∗ astack_rep s xs ⦄.
Proof.
  unfold hoare, Stack_is_empty. iIntros "(%l & %b & %n & -> & %Hf & Hl & Hb)".
  wp_require. wp_load "Hl". iSplit; [|hfin].
  iPureIntro. apply bool_decide_ext. by destruct xs.
Qed.

Lemma Stack_push_spec s x xs :
  astack_fits (S (length xs)) →
  ⦃ astack_rep s xs ⦄ Stack_push s x
  ⦃ _u, astack_rep s (x :: xs) | e, ⌈e = Memory_Failed⌉ ∗ astack_dangling s xs ⦄.
Proof.
  unfold hoare, Stack_push. iIntros (Hx) "(%l & %b & %n & -> & [%Hf %Hn] & Hl & Hb)".
  wp_require. wp_load "Hl". wp_focus. iApply wp_defined.
  { unfold CURRENT_SIZE. simpl. by rewrite bool_decide_true. }
  simpl top. simpl size. simpl storage. iDestruct (is_array_length with "Hb") as %Hlen.
  rewrite length_rev in Hlen. wp_focus.
  iApply (wp_wand _ (λ _, ∃ b n, ⌈in_u 32 n ∧ (Z.of_nat (length xs) < n)%Z⌉ ∗
    l ↦ AStack (Some b) (Some b, Z.of_nat (length xs)) n ∗ is_array b (rev xs) n)%I
    (λ e, ⌈e = Memory_Failed⌉ ∗ astack_dangling (Some l) xs)%I with "[Hl Hb]").
  - case_bool_decide as Heq; [|wp_finish; iExists b, n; iFrame; iPureIntro; split; [done|lia]].
    assert (wrap_u 32 (n + RESIZE_STEP) = n + RESIZE_STEP)%Z as ->.
    { apply wrap_u_id. unfold astack_fits, in_u in *. unfold RESIZE_STEP in *. lia. }
    unfold astack_fits, in_u, RESIZE_STEP in *.
    wp_focus. iApply (wp_array_resize with "Hb"); [lia|lia|]. iSplit.
    + iIntros (b') "Hb". wp_store "Hl". rewrite -Heq. iExists b', _. iFrame. iPureIntro. lia.
    + iSplit; [done|]. iExists l, b. rewrite -Heq. hfin.
  - iSplit; [|by iIntros (e) "$"]. iIntros ([]) "(%b' & %n' & [%Hn' %Hlt] & Hl & Hb)".
    wp_load "Hl". simpl. wp_focus.
    iApply (wp_slot_push with "Hb"); [by rewrite length_rev|done|]. iIntros "Hb".
    wp_store "Hl". iExists l, b', n'. simpl.
    replace (Z.of_nat (S (length xs))) with (Z.of_nat (length xs) + 1)%Z by lia.
    iFrame. done.
Qed.

Lemma Stack_pop_spec s x xs :
  ⦃ astack_rep s (x :: xs) ⦄ Stack_pop s ⦃ r, ⌈r = Some x⌉ ∗ astack_rep s xs ⦄.
Proof.
  unfold hoare, Stack_pop. iIntros "H". iDestruct "H" as (l b n ->) "H".
  wp_require. wp_call Stack_is_empty_spec with "[H]"; [by iExists l, b, n; iFrame|].
  iIntros (r) "[-> H]". clear b n. iDestruct "H" as (l' b n [= <-]) "([%Hf %Hn] & Hl & Hb)".
  rewrite bool_decide_false //. wp_load "Hl". wp_store "Hl". cbn [top storage size fst snd length rev].
  wp_focus. iApply (wp_slot_get with "Hb"); [lia| |].
  { rewrite lookup_app_r; rewrite length_rev; [|lia].
    by replace (Z.to_nat (Z.of_nat (S (length xs)) - 1) - length xs) with 0 by lia. }
  iIntros "Hb". wp_finish. iSplit; [done|]. iExists l, b, n. rewrite is_array_pop.
  replace (Z.of_nat (S (length xs)) - 1)%Z with (Z.of_nat (length xs)) by lia. iFrame.
  iPureIntro. split; [done|]. split; [|done]. eapply astack_fits_le, Hf. simpl. lia.
Qed.

Lemma Stack_pop_empty s :
  ⦃ astack_rep s [] ⦄ Stack_pop s ⦃ r, ⌈r = None⌉ ∗ astack_rep s [] ⦄.
Proof.
  unfold hoare, Stack_pop. iIntros "H". iDestruct "H" as (l b n ->) "H".
  wp_require. wp_call Stack_is_empty_spec with "[H]"; [by iExists l, b, n; iFrame|].
  iIntros (r) "[-> H]". rewrite bool_decide_true //. wp_finish. hfin.
Qed.

#[export] Instance astack_container : Container N := {|
  crep := astack_rep;
  cremove := Stack_pop;
  cremove_some := Stack_pop_spec;
  cremove_none := Stack_pop_empty;
|}.

#[export] Program Instance astack_stack : Stack N := {|
  stack_container := astack_container;
  spush := Stack_push;
  slost := astack_dangling;
  sfits := astack_fits;
  spush_spec := Stack_push_spec;
|}.
Next Obligation. exact astack_fits_le. Qed.
Next Obligation. iIntros (s xs) "(%l & %b & %n & _ & [%H _] & _)". done. Qed.

(** What [Stack_destroy] does with one datum. *)
Definition stale_fn (free_data_fn : option (ptr → M (gmap loc N) unit)) (d : ptr)
    : M (gmap loc N) unit :=
  match free_data_fn with None => Memory_free d | Some f => f d end.

Lemma Stack_destroy_spec fuel s xs g (I : list ptr → hpropI N) :
  length xs < fuel →
  (∀ done d rest, xs = done ++ d :: rest →
    ⦃ I done ⦄ stale_fn g d ⦃ _u, I (done ++ [d]) ⦄) →
  ⦃ astack_rep s xs ∗ I [] ⦄ Stack_destroy fuel s g ⦃ _u, I xs ⦄.
Proof.
  intros Hf Hbody. unfold hoare, Stack_destroy. iIntros "[H HI]".
  wp_call Stack_is_empty_spec with "H". iIntros (e) "[-> H]". wp_focus.
  iApply (wp_wand _ (λ _, astack_rep s [] ∗ I xs)%I (λ _, False)%I with "[H HI]").
  - destruct xs as [|x xs]; simpl negb; cbv iota; [wp_finish; iFrame|].
    change (loop _ _ _) with (drain fuel cremove s (stale_fn g)).
    wp_call (drain_spec fuel s (stale_fn g) I (x :: xs)) with "[H HI]"; [done|done|iFrame|].
    iIntros ([]) "[$ $]".
  - iSplit; [|by iIntros (e) "[]"]. iIntros ([]) "[(%l & %b & %n & -> & _ & Hl & Hb) HI]".
    wp_load "Hl". iDestruct "Hb" as (rest) "[_ Hb]". simpl storage.
    wp_free "Hb". wp_free "Hl". iFrame.
Qed.

(** [Stack_free] on a stack of data that are blocks of their own frees every
    datum, the storage and the header: nothing is left in the store. *)
Theorem Stack_free_correct fuel s xs :
  length xs < fuel →
  ⦃ astack_rep s xs ∗ [∗ list] d ∈ xs, owned d ⦄ Stack_free fuel s ⦃ _u, emp ⦄.
Proof.
  intros Hf. unfold hoare, Stack_free.
  iIntros "[H HI]". wp_call (Stack_destroy_spec fuel s xs None
    (λ done, [∗ list] d ∈ drop (length done) xs, owned (N := N) d)%I) with "[H HI]"; [done| |by iFrame|].
  - intros done d rest ->. rewrite length_app Nat.add_1_r drop_app_length.
    rewrite app_cons_assoc. replace (S (length done)) with (length (done ++ [d])) by (rewrite length_app /=; lia).
    rewrite drop_app_length. apply owned_free.
  - iIntros ([]). rewrite drop_ge; [|done]. by iIntros "H".
Qed.

(** C37: the array stack is last in, first out, also across the points where its
    storage is enlarged. *)
Theorem Stack_lifo s xs ys :
  astack_fits (length xs + length ys) →
  ⦃ astack_rep s ys ⦄ push_all Stack_push s xs;; pop_n Stack_pop (length xs) s
  ⦃ r, ⌈r = Some <$> rev xs⌉ ∗ astack_rep s ys
  | e, ⌈e = Memory_Failed⌉ ∗ ∃ zs, astack_dangling s zs ⦄.
Proof. exact (@lifo_spec N astack_stack s xs ys). Qed.

(** C38: when the storage of a full stack cannot be enlarged, [Stack_push] throws
    [Memory_Failed] with the storage already freed and the header still pointing
    at it, so that the next [Stack_pop] reads freed memory. *)
Theorem Stack_push_failure (h : gmap loc N) (l b : loc) (d : ptr) (n : Z) ss :
  h !! l = Some (pack (AStack (Some b) (Some b, n) n)) →
  h !! b = Some (pack (ObjArray ss)) → l ≠ b → (0 < n)%Z → (n + 100 < 2 ^ 32)%Z →
  malloc (dom (delete b h)) = None →
  Stack_push (Some l) d h = Throw Memory_Failed (delete b h) ∧
  Stack_pop (Some l) (delete b h) = Undef.
Proof.
  intros Hl Hb Hne Hn Hn2 Hm. split.
  - unfold Stack_push, REQUIRE. simpl. unfold mbind, M_bind, mret, M_ret, load. rewrite Hl /= unpack_pack.
    unfold CURRENT_SIZE, defined. simpl. rewrite bool_decide_true // /=.
    rewrite bool_decide_true // /= /array_resize wrap_u_id; [|unfold in_u, RESIZE_STEP in *; lia].
    rewrite bool_decide_true; [|unfold RESIZE_STEP; lia].
    unfold Memory_resize, mbind, M_bind. simpl. by rewrite Hb /= unpack_pack Hm.
  - unfold Stack_pop, Stack_is_empty, REQUIRE. simpl. unfold mbind, M_bind, mret, M_ret, load.
    rewrite lookup_delete_ne // Hl /= unpack_pack /=. rewrite bool_decide_false /=; [|intros [= ->]; lia].
    rewrite lookup_delete_ne // Hl /= unpack_pack /= /store lookup_delete_ne // Hl /= unpack_pack /=.
    unfold slot_get, mbind, M_bind, load. by rewrite lookup_insert_ne // lookup_delete_eq.
Qed.
End astack_specs.

Lemma Stack_lifo_witness :
  astack_fits (2 + 0) ∧
  ⦃ astack_rep (N := objarray + astack) (Some 1%positive) [] ⦄
    push_all (Stack_push (MA := malloc_always)) (Some 1%positive) [Some 5%positive; Some 6%positive];;
    pop_n Stack_pop 2 (Some 1%positive)
  ⦃ r, ⌈r = [Some (Some 6%positive); Some (Some 5%positive)]⌉ ∗ astack_rep (Some 1%positive) []
  | e, ⌈e = Memory_Failed⌉ ∗ ∃ zs, astack_dangling (Some 1%positive) zs ⦄.
Proof.
  assert (astack_fits (2 + 0)) as Hf by (unfold astack_fits, RESIZE_STEP; lia). split; [exact Hf|].
  exact (Stack_lifo (N := objarray + astack) (MA := malloc_always) (Some 1%positive)
    [Some 5%positive; Some 6%positive] [] Hf).
Defined.

(** A stack with room for one element, which is full, on an allocator without
    room for another block. *)
Definition full_stack : gmap loc (objarray + astack) :=
  {[1%positive := inr (AStack (Some 2%positive) (Some 2%positive, 1%Z) 1);
    2%positive := inl (ObjArray [Some NULL])]}.

Lemma Stack_push_failure_witness :
  Stack_push (MA := malloc_limited 1) (Some 1%positive) NULL full_stack =
    Throw Memory_Failed (delete 2%positive full_stack) ∧
  Stack_pop (Some 1%positive) (delete 2%positive full_stack) = Undef.
Proof.
  apply (Stack_push_failure (MA := malloc_limited 1) full_stack 1 2 NULL 1 [Some NULL]);
    [reflexivity|reflexivity|discriminate|lia|lia|reflexivity].
Defined.

Lemma Stack_free_correct_witness :
  1 < 2 ∧
  ⦃ astack_rep (N := objarray + astack) (Some 1%positive) [Some 5%positive] ∗
    [∗ list] d ∈ [Some 5%positive], owned d ⦄ Stack_free 2 (Some 1%positive) ⦃ _u, emp ⦄.
Proof.
  split; [lia|].
  apply (Stack_free_correct (N := objarray + astack) (MA := malloc_always) 2 (Some 1%positive) [Some 5%positive]). simpl. lia.
Defined.
