(* ===== verification/Queue.v ===== *)
(** The queue of src/libs/data_structs/queue.c: a singly linked list with a
    pointer to its last node.  queue.c declares its own [struct node], with the
    fields and the accessor macros of list_rep.h, so the node and [lseg] of
    [LinkedList] serve here too. *)
From S2P Require Export LinkedList Container.

(** [struct queue]. *)
Record queue := MkQueue { front : ptr; rear : ptr }.

Section queue_operations.
Context {N : Type} `{!Struct node N, !Struct queue N} {MA : Malloc}.
Abbreviation heap := (gmap loc N).

Definition allocate_node (data : ptr) : M heap ptr := Memory_alloc (Node data NULL).
Definition free_node (p_node : ptr) : M heap unit := Memory_free p_node.
Definition iterator (p_node last_return : ptr) : M heap ptr :=
  if bool_decide (last_return = NULL) then mret p_node else NEXT last_return.

Definition Queue_new : M heap ptr := Memory_alloc (MkQueue NULL NULL).

Definition Queue_is_empty (q : ptr) : M heap bool :=
  REQUIRE (negb (bool_decide (q = NULL)));;
  s ← load q;
  mret (bool_decide (front s = NULL)).

Definition Queue_add (q data : ptr) : M heap unit :=
  REQUIRE (negb (bool_decide (q = NULL)));;
  new_node ← allocate_node data;
  e ← Queue_is_empty q;
  if (e : bool) then store q (MkQueue new_node new_node)
  else
    s ← load q;
    set_NEXT (rear s) new_node;;
    store q (MkQueue (front s) new_node).

(** [None] is [false]; [Some d] is [true] with [*p_data = d]. *)
Definition Queue_remove (q : ptr) : M heap (option ptr) :=
  REQUIRE (negb (bool_decide (q = NULL)));;
  e ← Queue_is_empty q;
  if (e : bool) then mret None
  else
    s ← load q;
    let front_node := front s in
    d ← DATA front_node;
    (if bool_decide (rear s = front s) then store q (MkQueue NULL NULL)
     else nx ← NEXT front_node; store q (MkQueue nx (rear s)));;
    free_node front_node;;
    mret (Some d).

(** [accum] is a [size_t]. *)
Definition Queue_length (fuel : nat) (q : ptr) : M heap Z :=
  loop fuel (λ '(accum, curr_node),
    s ← load q;
    curr_node ← iterator (front s) curr_node;
    mret (if bool_decide (curr_node = NULL) then inr accum
          else inl (wrap_u 64 (accum + 1)%Z, curr_node))) (0%Z, NULL).

Definition Queue_destroy (fuel : nat) (q : ptr) (free_data_fn : option (ptr → M heap unit))
    : M heap unit :=
  REQUIRE (negb (bool_decide (q = NULL)));;
  e ← Queue_is_empty q;
  if (e : bool) then mret tt
  else
    loop fuel (λ _,
      stale_out ← Queue_remove q;
      match stale_out with
      | Some d =>
          match free_data_fn with
          | None => Memory_free d
          | Some f => f d
          end;;
          mret (inl tt)
      | None => mret (inr tt)
      end) tt;;
    Memory_free q.

Definition Queue_free (fuel : nat) (q : ptr) : M heap unit := Queue_destroy fuel q None.
End queue_operations.

Section queue_specs.
Context {N : Type} `{!Struct node N, !Struct queue N} {MA : Malloc}.

(** [rear] points to the last node, and both are [NULL] in an empty queue. *)
Definition queue_cells (l : loc) (ns : list (loc * ptr)) : hpropI N :=
  l ↦ MkQueue (head_addr ns) (last_addr ns) ∗ lseg (head_addr ns) ns NULL.

Definition queue_rep (q : ptr) (xs : list ptr) : hpropI N :=
  ∃ l ns, ⌈q = Some l⌉ ∗ ⌈xs = ns.*2⌉ ∗ queue_cells l ns.

Lemma Queue_new_spec : ⦃ emp ⦄ Queue_new ⦃ q, queue_rep q [] | e, ⌈e = Memory_Failed⌉ ⦄.
Proof.
  unfold hoare. iIntros "_". iApply wp_alloc. iSplit; [|done].
  iIntros (l) "Hl". iExists l, []. iFrame. done.
Qed.

Lemma Queue_is_empty_spec q xs :
  ⦃ queue_rep q xs ⦄ Queue_is_empty q ⦃ b, ⌈b = bool_decide (xs = [])⌉ ∗ queue_rep q xs ⦄.
Proof.
  unfold hoare, Queue_is_empty. iIntros "(%l & %ns & -> & -> & Hl & H)".
  wp_require. wp_load "Hl". iSplit; [|hfin].
  iPureIntro. apply bool_decide_ext. by destruct ns as [|[] ?].
Qed.

Lemma Queue_add_spec q x xs :
  ⦃ queue_rep q xs ⦄ Queue_add q x
  ⦃ _u, queue_rep q (xs ++ [x]) | e, ⌈e = Memory_Failed⌉ ∗ queue_rep q xs ⦄.
Proof.
  unfold hoare, Queue_add, allocate_node. iIntros "H". iDestruct "H" as (l ns -> ->) "[Hl H]".
  wp_require. wp_focus. iApply wp_alloc. iSplit; [|iSplit; [done|hfin]]. iIntros (a) "Ha".
  wp_call (Queue_is_empty_spec (Some l) ns.*2) with "[Hl H]"; [hfin|].
  iIntros (r) "[-> H]". iDestruct "H" as (l' ns' [= <-] Hns) "[Hl H]". rewrite Hns. clear Hns ns.
  destruct (snoc_inv ns') as [->|(ns & [b d] & ->)].
  - rewrite bool_decide_true //. wp_store "Hl". iExists l, [(a, x)]. simpl.
    iDestruct "H" as "_". hfin.
  - rewrite bool_decide_false; [|by destruct ns]. wp_load "Hl". rewrite lseg_app.
    iDestruct "H" as (m) "(H & -> & %nx & Hb & %Hnx)". subst nx.
    rewrite last_addr_snoc. simpl rear. wp_rule wp_set_NEXT on "Hb". wp_store "Hl".
    iExists l, ((ns ++ [(b, d)]) ++ [(a, x)]). iSplit; [done|]. iSplit; [by rewrite !fmap_app|].
    unfold queue_cells. rewrite last_addr_snoc (head_addr_app (ns ++ _)); [|by destruct ns]. iFrame "Hl".
    rewrite -app_assoc lseg_app. hfin.
Qed.

Lemma Queue_remove_spec q x xs :
  ⦃ queue_rep q (x :: xs) ⦄ Queue_remove q ⦃ r, ⌈r = Some x⌉ ∗ queue_rep q xs ⦄.
Proof.
  unfold hoare, Queue_remove, free_node. iIntros "H". iDestruct "H" as (l ns -> Hns) "[Hl H]".
  wp_require. wp_call (Queue_is_empty_spec (Some l) ns.*2) with "[Hl H]"; [hfin|].
  iIntros (r) "[-> H]". iDestruct "H" as (l' ns' [= <-] Hns') "[Hl H]".
  rewrite Hns' in Hns |- *. clear Hns' ns. destruct ns' as [|[a d] ns]; simplify_eq/=.
  wp_load "Hl".
  iDestruct (lseg_NoDup _ ((a, d) :: ns) with "H") as %Hnd.
  iDestruct "H" as "(_ & %nx & Ha & H)". iDestruct (lseg_head with "H") as %->.
  simpl front. wp_rule wp_DATA on "Ha". simpl rear. wp_focus.
  iApply (wp_wand _ (λ _, l ↦ MkQueue (head_addr ns) (last_addr ns) ∗
    a ↦ Node d (head_addr ns))%I (λ _, False)%I with "[Hl Ha]").
  - case_bool_decide as Hr.
    + apply last_addr_ne in Hr as ->; [|done]. iApply (wp_store with "Hl"). by iIntros "$".
    + wp_rule wp_NEXT on "Ha". iApply (wp_store with "Hl").
      rewrite last_addr_cons; [by iIntros "$"|]. by intros ->.
  - iSplit; [|by iIntros (e) "[]"]. iIntros ([]) "[Hl Ha]". wp_free "Ha". hfin.
Qed.

Lemma Queue_remove_empty q :
  ⦃ queue_rep q [] ⦄ Queue_remove q ⦃ r, ⌈r = None⌉ ∗ queue_rep q [] ⦄.
Proof.
  unfold hoare, Queue_remove. iIntros "H". iDestruct "H" as (l ns -> Hns) "[Hl H]".
  destruct ns; [|done].
  wp_require. wp_call (Queue_is_empty_spec (Some l) []) with "[Hl H]"; [by iExists l, []; hfin|].
  iIntros (r) "[-> H]". rewrite bool_decide_true //. wp_finish. hfin.
Qed.

#[export] Instance queue_container : Container N := {|
  crep := queue_rep;
  cremove := Queue_remove;
  cremove_some := Queue_remove_spec;
  cremove_none := Queue_remove_empty;
|}.

Lemma Queue_length_loop fuel l ns1 ns2 n :
  length ns2 < fuel → in_u 64 n →
  ⦃ queue_cells l (ns1 ++ ns2) ⦄
    loop fuel (λ '(accum, curr_node),
      s ← load (Some l);
      curr_node ← iterator (front s) curr_node;
      mret (if bool_decide (curr_node = NULL) then inr accum
            else inl (wrap_u 64 (accum + 1)%Z, curr_node))) (n, last_addr ns1)
  ⦃ r, ⌈r = wrap_u 64 (n + Z.of_nat (length ns2))⌉ ∗
    queue_cells l (ns1 ++ ns2) ⦄.
Proof.
  unfold hoare. iInduction fuel as [|fuel] "IH" forall (ns1 ns2 n); iIntros (Hf Hn) "[Hl H]"; [lia|].
  iApply wp_loop. wp_load "Hl". simpl front. wp_focus.
  iApply (wp_List_iterator with "H"); [done|]. iIntros "H". wp_finish.
  destruct ns2 as [|[a d] ns2]; simpl in Hf.
  - rewrite /= Z.add_0_r wrap_u_id //. wp_finish. hfin.
  - change (head_addr ((a, d) :: ns2)) with (Some a). rewrite bool_decide_false //. wp_finish.
    rewrite -(last_addr_snoc ns1 a d). rewrite app_cons_assoc.
    iApply (wp_wand with "[H Hl]"); [iApply ("IH" with "[%] [%] [$Hl $H]"); [lia|by apply wrap_u_range]|].
    iSplit; [|by iIntros (e) "[]"]. iIntros (r) "(-> & H)". iFrame.
    rewrite wrap_u_add_l -Z.add_assoc. iPureIntro. f_equal. simpl. lia.
Qed.

Lemma Queue_length_spec fuel q xs :
  length xs < fuel →
  ⦃ queue_rep q xs ⦄ Queue_length fuel q
  ⦃ n, ⌈n = wrap_u 64 (Z.of_nat (length xs))⌉ ∗ queue_rep q xs ⦄.
Proof.
  unfold hoare, Queue_length. iIntros (Hf) "(%l & %ns & -> & -> & Hl & H)".
  rewrite length_fmap in Hf |- *.
  wp_call (Queue_length_loop fuel l [] ns 0) with "[Hl H]"; [done|by split|iFrame|].
  iIntros (n) "(-> & H)". hfin.
Qed.

(** On a queue with elements, [Queue_destroy] releases everything, after each
    datum was handed over in queue order. *)
Lemma Queue_destroy_spec fuel q x xs f (I : list ptr → hpropI N) :
  S (length xs) < fuel →
  (∀ done d rest, x :: xs = done ++ d :: rest → ⦃ I done ⦄ f d ⦃ _u, I (done ++ [d]) ⦄) →
  ⦃ queue_rep q (x :: xs) ∗ I [] ⦄ Queue_destroy fuel q (Some f) ⦃ _u, I (x :: xs) ⦄.
Proof.
  intros Hf Hbody. unfold hoare, Queue_destroy. iIntros "[H HI]".
  iAssert ⌜q ≠ NULL⌝%I as %Hq; [by iDestruct "H" as (l ns ->) "_"|].
  rewrite bool_decide_false //. wp_require.
  wp_call Queue_is_empty_spec with "H". iIntros (e) "[-> H]". rewrite bool_decide_false //.
  wp_focus. change (loop _ _ _) with (drain fuel cremove q f).
  wp_call (drain_spec fuel q f I (x :: xs)) with "[H HI]"; [done|done|iFrame|].
  iIntros ([]) "[(%l & %ns & -> & %Hns & Hl & H) HI]". destruct ns; [|done]. simpl.
  iDestruct "H" as "_". wp_free "Hl". iFrame.
Qed.

(** On an empty queue it returns at once, and the header is not released. *)
Lemma Queue_destroy_empty fuel q f :
  ⦃ queue_rep q [] ⦄ Queue_destroy fuel q f ⦃ _u, queue_rep q [] ⦄.
Proof.
  unfold hoare, Queue_destroy. iIntros "H".
  iAssert ⌜q ≠ NULL⌝%I as %Hq; [by iDestruct "H" as (l ns ->) "_"|].
  rewrite bool_decide_false //. wp_require.
  wp_call Queue_is_empty_spec with "H". iIntros (e) "[-> H]". rewrite bool_decide_true //.
  wp_finish. done.
Qed.

Lemma add_all_spec q xs ys :
  ⦃ queue_rep q xs ⦄ push_all Queue_add q ys
  ⦃ _u, queue_rep q (xs ++ ys) | e, ⌈e = Memory_Failed⌉ ∗ ∃ zs, queue_rep q zs ⦄.
Proof.
  unfold hoare. iInduction ys as [|y ys] "IH" forall (xs); simpl; iIntros "H".
  - iApply wp_ret. by rewrite app_nil_r.
  - wp_focus. iApply (hoare_wp with "H"); [apply Queue_add_spec|].
    iSplit; [|by iIntros (e) "[$ H]"; iExists _]. iIntros ([]) "H".
    rewrite (app_cons_assoc xs y ys). by iApply "IH".
Qed.

(** the queue is first in, first out: from a queue that holds [xs], to which
    [ys] are added, the elements come out in the order [xs], [ys], and then it is
    empty; an addition that runs out of memory leaves a queue. *)
Theorem Queue_fifo q xs ys :
  ⦃ queue_rep q xs ⦄ push_all Queue_add q ys;; pop_n Queue_remove (length (xs ++ ys)) q
  ⦃ r, ⌈r = Some <$> (xs ++ ys)⌉ ∗ queue_rep q [] | e, ⌈e = Memory_Failed⌉ ∗ ∃ zs, queue_rep q zs ⦄.
Proof.
  unfold hoare. iIntros "H". wp_focus. iApply (hoare_wp with "H"); [apply add_all_spec|].
  iSplit; [|by iIntros (e) "$"]. iIntros ([]) "H".
  pose proof (pop_n_spec q (xs ++ ys) []) as Hpop. rewrite app_nil_r in Hpop.
  iApply (hoare_wp_ret with "H"); [exact Hpop|]. by iIntros (r) "$".
Qed.

(** [Queue_destroy] hands every datum over in queue order and frees the
    whole queue, except that the header of an empty queue is never freed. *)
Theorem Queue_destroy_correct fuel q xs f (I : list ptr → hpropI N) :
  S (length xs) < fuel →
  (∀ done d rest, xs = done ++ d :: rest → ⦃ I done ⦄ f d ⦃ _u, I (done ++ [d]) ⦄) →
  ⦃ queue_rep q xs ∗ I [] ⦄ Queue_destroy fuel q (Some f)
  ⦃ _u, (if bool_decide (xs = []) then queue_rep q [] else emp) ∗ I xs ⦄.
Proof.
  intros Hf Hbody. destruct xs as [|x xs].
  - unfold hoare. iIntros "[H HI]". iApply (hoare_wp_ret with "H"); [apply Queue_destroy_empty|].
    iIntros ([]) "H". simpl. iFrame.
  - simpl in Hf. eapply hoare_conseq; [apply (Queue_destroy_spec fuel q x xs f I); [lia|exact Hbody]|done| |done].
    iIntros ([]) "H". simpl. by iFrame.
Qed.
End queue_specs.

Lemma Queue_destroy_correct_witness :
  2 < 3 ∧
  ⦃ queue_rep (N := node + queue) (Some 1%positive) [Some 5%positive] ∗ emp ⦄
    Queue_destroy 3 (Some 1%positive) (Some (λ _, mret tt)) ⦃ _u, emp ∗ emp ⦄.
Proof.
  split; [lia|].
  apply (Queue_destroy_correct (N := node + queue) 3 (Some 1%positive)
    [Some 5%positive] (λ _, mret tt) (λ _, emp%I)); [simpl; lia|].
  intros done d rest _. unfold hoare. iIntros "_". by iApply wp_ret.
Defined.
