(* ===== verification/DoubleList.v ===== *)
(** The doubly linked list of src/libs/data_structs/double_list.c.  A
    [DoubleList_T] variable may point at any node of a list, so the triples split
    the list at the node that the variable points to. *)
From S2P Require Export HeapLogic.

(** [struct double_node]. *)
Record dnode := DNode { datapointer : ptr; next : ptr; prev : ptr }.

Section dlist_operations.
Context {N : Type} `{!Struct dnode N} {MA : Malloc}.
Abbreviation heap := (gmap loc N).

Definition DATA (p : ptr) : M heap ptr := n ← load p; mret (datapointer n).
Definition NEXT (p : ptr) : M heap ptr := n ← load p; mret (next n).
Definition PREV (p : ptr) : M heap ptr := n ← load p; mret (prev n).
Definition set_NEXT (p q : ptr) : M heap unit :=
  n ← load p; store p (DNode (datapointer n) q (prev n)).
Definition set_PREV (p q : ptr) : M heap unit :=
  n ← load p; store p (DNode (datapointer n) (next n) q).

Definition allocate_double_node (data : ptr) : M heap ptr :=
  Memory_alloc (DNode data NULL NULL).
Definition free_double_node (p_node : ptr) : M heap unit := Memory_free p_node.

(** The value of [*p_list] after the call is the result. *)
Definition delete_double_node (p_list p_node : ptr) : M heap ptr :=
  pv ← PREV p_node;
  nx ← NEXT p_node;
  (if negb (bool_decide (pv = NULL)) then set_NEXT pv nx else mret tt);;
  (if negb (bool_decide (nx = NULL)) then set_PREV nx pv else mret tt);;
  free_double_node p_node;;
  mret (if bool_decide (p_node = p_list)
        then if negb (bool_decide (nx = NULL)) then nx else pv
        else p_list).

Definition DoubleList_new : ptr := NULL.
Definition DoubleList_is_empty (list : ptr) : bool := bool_decide (list = NULL).

Definition DoubleList_insert (p_list data : ptr) : M heap ptr :=
  new_node ← allocate_double_node data;
  (if DoubleList_is_empty p_list then
     set_PREV new_node NULL;;
     set_NEXT new_node NULL
   else
     set_NEXT new_node p_list;;
     pv ← PREV p_list;
     set_PREV new_node pv;;
     set_PREV p_list new_node;;
     pv ← PREV new_node;
     if negb (bool_decide (pv = NULL))
     then pv ← PREV new_node; set_NEXT pv new_node
     else mret tt);;
  mret new_node.

(** [for (n = list; NEXT(n) != NULL; ) n = NEXT(n);] *)
Definition last_node_from (fuel : nat) (list : ptr) : M heap ptr :=
  loop fuel (λ n,
    nx ← NEXT n;
    mret (if bool_decide (nx = NULL) then inr n else inl nx)) list.

Definition DoubleList_append (fuel : nat) (p_list data : ptr) : M heap ptr :=
  p_node ← allocate_double_node data;
  if DoubleList_is_empty p_list then mret p_node
  else
    last_node ← last_node_from fuel p_list;
    set_NEXT last_node p_node;;
    set_PREV p_node last_node;;
    mret p_list.

Definition DoubleList_length (fuel : nat) (list : ptr) : M heap Z :=
  loop fuel (λ '(list, n),
    if bool_decide (list = NULL) then mret (inr n)
    else nx ← NEXT list; mret (inl (nx, wrap_u 64 (n + 1)%Z))) (list, 0%Z).

(** [idx] is an [int]. *)
Definition DoubleList_nth (fuel : nat) (list : ptr) (idx : Z) : M heap ptr :=
  REQUIRE (negb (bool_decide (idx = 0%Z)));;
  if DoubleList_is_empty list then mret NULL
  else if bool_decide (idx > 0)%Z then
    loop fuel (λ '(iter, nth),
      if bool_decide (iter < idx)%Z && negb (bool_decide (nth = NULL)) then
        nth ← NEXT nth; mret (inl (iter + 1, nth)%Z)
      else mret (inr nth)) (1%Z, list)
  else
    nth ← last_node_from fuel list;
    loop fuel (λ '(iter, nth),
      if bool_decide (iter > idx)%Z && negb (bool_decide (nth = NULL)) then
        nth ← PREV nth; mret (inl (iter - 1, nth)%Z)
      else mret (inr nth)) ((-1)%Z, nth).

(** Returns the new list and, for [true], the value stored in [*p_data__]. *)
Definition DoubleList_delete_head (p_list : ptr) : M heap (ptr * option ptr) :=
  if DoubleList_is_empty p_list then mret (p_list, None)
  else
    data ← DATA p_list;
    p_list' ← delete_double_node p_list p_list;
    mret (p_list', Some data).

Fixpoint DoubleList_traverse (fuel : nat) (list : ptr) (apply_fn : option (ptr → M heap bool))
    : M heap bool :=
  match fuel with
  | O => nofuel
  | Datatypes.S fuel =>
      REQUIRE (is_fn apply_fn);;
      if DoubleList_is_empty list then mret true
      else
        d ← DATA list;
        b ← call apply_fn d;
        if negb b then mret false
        else nx ← NEXT list; DoubleList_traverse fuel nx apply_fn
  end.

Definition DoubleList_cut (p_list p_start p_end : ptr) : M heap ptr :=
  pv ← PREV p_start;
  (if negb (bool_decide (pv = NULL)) then
     pv ← PREV p_start; nx ← NEXT p_end; set_NEXT pv nx
   else mret tt);;
  nx ← NEXT p_end;
  (if negb (bool_decide (nx = NULL)) then
     nx ← NEXT p_end; pv ← PREV p_start; set_PREV nx pv
   else mret tt);;
  p_list' ← (if bool_decide (p_list = p_start) then NEXT p_end else mret p_list);
  set_NEXT p_end NULL;;
  set_PREV p_start NULL;;
  mret p_list'.

(** Returns [*p_target] and [*p_source] after the call. *)
Definition DoubleList_paste (fuel : nat) (p_target p_source : ptr) : M heap (ptr * ptr) :=
  if DoubleList_is_empty p_source then mret (p_target, p_source)
  else if DoubleList_is_empty p_target then mret (p_source, NULL)
  else
    let source := p_source in
    let target := p_target in
    lastnode ← DoubleList_nth fuel source (-1);
    nx ← NEXT target;
    set_NEXT lastnode nx;;
    nx ← NEXT target;
    (if negb (bool_decide (nx = NULL)) then
       nx ← NEXT target; set_PREV nx lastnode
     else mret tt);;
    set_PREV source target;;
    set_NEXT target source;;
    mret (p_target, NULL).

Definition DoubleList_destroy (fuel : nat) (p_list : ptr)
    (free_data_fn : option (ptr → M heap unit)) : M heap ptr :=
  loop fuel (λ p_list,
    if bool_decide (p_list = NULL) then mret (inr p_list)
    else
      next_tmp ← NEXT p_list;
      (if is_fn free_data_fn then d ← DATA p_list; call free_data_fn d else mret tt);;
      Memory_free p_list;;
      mret (inl next_tmp)) p_list.

Definition DoubleList_free (fuel : nat) (p_list : ptr) : M heap ptr :=
  DoubleList_destroy fuel p_list None.
End dlist_operations.

(** * Representation *)

(** The first node of a segment that goes on with [q], and its last node when the
    node before it is [pv]. *)
Definition hd_addr (q : ptr) (ns : list (loc * ptr)) : ptr :=
  match ns with [] => q | (l, _) :: _ => Some l end.
Fixpoint lst_addr (pv : ptr) (ns : list (loc * ptr)) : ptr :=
  match ns with [] => pv | (l, _) :: ns => lst_addr (Some l) ns end.

Lemma lst_addr_app pv ns1 ns2 : lst_addr pv (ns1 ++ ns2) = lst_addr (lst_addr pv ns1) ns2.
Proof. revert pv. induction ns1 as [|[] ? IH]; intros pv; simpl; auto. Qed.

Lemma hd_addr_app q ns1 ns2 : hd_addr q (ns1 ++ ns2) = hd_addr (hd_addr q ns2) ns1.
Proof. by destruct ns1 as [|[] ?]. Qed.

Section dlist_representation.
Context {N : Type} `{!Struct dnode N} {MA : Malloc}.

(** The nodes [ns], linked both ways, between the nodes [pv] and [q]. *)
Fixpoint dseg (pv : ptr) (ns : list (loc * ptr)) (q : ptr) : hpropI N :=
  match ns with
  | [] => emp
  | (l, d) :: ns => l ↦ DNode d (hd_addr q ns) pv ∗ dseg (Some l) ns q
  end%I.

Lemma dseg_app pv ns1 ns2 q :
  dseg pv (ns1 ++ ns2) q ⊣⊢ dseg pv ns1 (hd_addr q ns2) ∗ dseg (lst_addr pv ns1) ns2 q.
Proof.
  revert pv. induction ns1 as [|[l d] ns1 IH]; intros pv; simpl.
  - by rewrite left_id.
  - by rewrite IH assoc hd_addr_app.
Qed.

Lemma wp_dnode_NEXT (l : loc) (n : dnode) Φ Ψ :
  l ↦ n -∗ (l ↦ n -∗ Φ (next n)) -∗ wp (N := N) (NEXT (Some l)) Φ Ψ.
Proof. iIntros "H HΦ". unfold NEXT. wp_load "H". by iApply "HΦ". Qed.
Lemma wp_dnode_PREV (l : loc) (n : dnode) Φ Ψ :
  l ↦ n -∗ (l ↦ n -∗ Φ (prev n)) -∗ wp (N := N) (PREV (Some l)) Φ Ψ.
Proof. iIntros "H HΦ". unfold PREV. wp_load "H". by iApply "HΦ". Qed.
Lemma wp_dnode_DATA (l : loc) (n : dnode) Φ Ψ :
  l ↦ n -∗ (l ↦ n -∗ Φ (datapointer n)) -∗ wp (N := N) (DATA (Some l)) Φ Ψ.
Proof. iIntros "H HΦ". unfold DATA. wp_load "H". by iApply "HΦ". Qed.
Lemma wp_dnode_set_NEXT (l : loc) d nx pv q Φ Ψ :
  l ↦ DNode d nx pv -∗ (l ↦ DNode d q pv -∗ Φ tt) -∗ wp (N := N) (set_NEXT (Some l) q) Φ Ψ.
Proof. iIntros "H HΦ". unfold set_NEXT. wp_load "H". wp_store "H". by iApply "HΦ". Qed.
Lemma wp_dnode_set_PREV (l : loc) d nx pv q Φ Ψ :
  l ↦ DNode d nx pv -∗ (l ↦ DNode d nx q -∗ Φ tt) -∗ wp (N := N) (set_PREV (Some l) q) Φ Ψ.
Proof. iIntros "H HΦ". unfold set_PREV. wp_load "H". wp_store "H". by iApply "HΦ". Qed.

(** Reading and relinking the two ends of a segment. *)
Lemma wp_PREV_hd pv ns q q' Φ Ψ :
  ns ≠ [] → dseg pv ns q -∗ (dseg pv ns q -∗ Φ pv) -∗ wp (PREV (hd_addr q' ns)) Φ Ψ.
Proof.
  iIntros (Hns) "H HΦ". destruct ns as [|[l d] ns]; [done|]. iDestruct "H" as "[Hl H]".
  wp_rule wp_dnode_PREV on "Hl". iApply "HΦ". iFrame.
Qed.

Lemma wp_set_PREV_hd pv pv' ns q q' Φ Ψ :
  ns ≠ [] → dseg pv ns q -∗ (dseg pv' ns q -∗ Φ tt) -∗ wp (set_PREV (hd_addr q' ns) pv') Φ Ψ.
Proof.
  iIntros (Hns) "H HΦ". destruct ns as [|[l d] ns]; [done|]. iDestruct "H" as "[Hl H]".
  iApply (wp_dnode_set_PREV with "Hl"). iIntros "Hl". iApply "HΦ". iFrame.
Qed.

Lemma wp_NEXT_lst pv pv' ns q Φ Ψ :
  ns ≠ [] → dseg pv ns q -∗ (dseg pv ns q -∗ Φ q) -∗ wp (NEXT (lst_addr pv' ns)) Φ Ψ.
Proof.
  iIntros (Hns) "H HΦ". destruct (snoc_inv ns) as [->|(ns' & [l d] & ->)]; [done|].
  rewrite lst_addr_app dseg_app /=. iDestruct "H" as "(H & Hl & _)".
  wp_rule wp_dnode_NEXT on "Hl". iApply "HΦ". iFrame.
Qed.

Lemma wp_set_NEXT_lst pv pv' ns q q' Φ Ψ :
  ns ≠ [] → dseg pv ns q -∗ (dseg pv ns q' -∗ Φ tt) -∗ wp (set_NEXT (lst_addr pv' ns) q') Φ Ψ.
Proof.
  iIntros (Hns) "H HΦ". destruct (snoc_inv ns) as [->|(ns' & [l d] & ->)]; [done|].
  rewrite lst_addr_app !dseg_app /=. iDestruct "H" as "(H & Hl & _)".
  iApply (wp_dnode_set_NEXT with "Hl"). iIntros "Hl". iApply "HΦ". iFrame.
Qed.

Lemma hd_addr_NULL ns : hd_addr NULL ns = NULL ↔ ns = [].
Proof. by destruct ns as [|[] ?]. Qed.

Lemma lst_addr_NULL ns : lst_addr NULL ns = NULL ↔ ns = [].
Proof.
  destruct (snoc_inv ns) as [->|(ns' & [l d] & ->)]; [done|].
  rewrite lst_addr_app /=. split; [done|]. by destruct ns'.
Qed.

(** The guarded assignments [if (p) NEXT(p) = q] and [if (p) PREV(p) = q]. *)
Lemma wp_link_next ns q q' Φ Ψ :
  dseg NULL ns q -∗ (dseg NULL ns q' -∗ Φ tt) -∗
  wp (if negb (bool_decide (lst_addr NULL ns = NULL)) then set_NEXT (lst_addr NULL ns) q'
      else mret tt) Φ Ψ.
Proof.
  iIntros "H HΦ". case_bool_decide as Hns; simpl.
  - apply lst_addr_NULL in Hns as ->. iApply wp_ret. by iApply "HΦ".
  - iApply (wp_set_NEXT_lst with "H HΦ"). by intros ->.
Qed.

Lemma wp_link_prev pv pv' ns Φ Ψ :
  dseg pv ns NULL -∗ (dseg pv' ns NULL -∗ Φ tt) -∗
  wp (if negb (bool_decide (hd_addr NULL ns = NULL)) then set_PREV (hd_addr NULL ns) pv'
      else mret tt) Φ Ψ.
Proof.
  iIntros "H HΦ". case_bool_decide as Hns; simpl.
  - apply hd_addr_NULL in Hns as ->. iApply wp_ret. by iApply "HΦ".
  - iApply (wp_set_PREV_hd with "H HΦ"). by intros ->.
Qed.

(** * The triples of the operations *)

(** The new node goes before the node that [p_list] points to. *)
Lemma DoubleList_insert_spec ns1 ns2 d :
  (ns2 = [] → ns1 = []) →
  ⦃ dseg NULL (ns1 ++ ns2) NULL ⦄ DoubleList_insert (hd_addr NULL ns2) d
  ⦃ p', ∃ l, ⌈p' = Some l⌉ ∗ dseg NULL (ns1 ++ (l, d) :: ns2) NULL
  | e, ⌈e = Memory_Failed⌉ ∗ dseg NULL (ns1 ++ ns2) NULL ⦄.
Proof.
  unfold hoare, DoubleList_insert, allocate_double_node, DoubleList_is_empty. iIntros (Hns) "H".
  wp_focus. iApply wp_alloc. iSplit; [|iSplit; [done|iFrame]]. iIntros (l) "Hl".
  destruct ns2 as [|[l2 d2] ns2].
  - rewrite (Hns eq_refl). simpl.
    wp_rule wp_dnode_set_PREV on "Hl". wp_rule wp_dnode_set_NEXT on "Hl". iExists l. simpl. by iFrame.
  - rewrite bool_decide_false //. iEval (rewrite dseg_app /=) in "H". iDestruct "H" as "(H1 & Hl2 & H2)".
    wp_rule wp_dnode_set_NEXT on "Hl". wp_rule wp_dnode_PREV on "Hl2". wp_rule wp_dnode_set_PREV on "Hl".
    wp_rule wp_dnode_set_PREV on "Hl2". wp_rule wp_dnode_PREV on "Hl". simpl.
    wp_focus. iApply (wp_wand _ (λ _, l ↦ DNode d (Some l2) (lst_addr NULL ns1) ∗
      dseg NULL ns1 (Some l))%I (λ _, False)%I with "[Hl H1]").
    + case_bool_decide as Hn; simpl.
      * apply lst_addr_NULL in Hn as ->. wp_finish. iFrame.
      * wp_rule wp_dnode_PREV on "Hl". iApply (wp_set_NEXT_lst with "H1"); [by intros ->|].
        iIntros "$". iFrame.
    + iSplit; [|by iIntros (e) "[]"]. iIntros ([]) "[Hl H1]". wp_finish.
      iExists l. rewrite dseg_app /=. by iFrame.
Qed.

(** Any node can be taken out; the list variable moves only if it pointed at it. *)
Lemma delete_double_node_spec p ns1 l d ns2 :
  ⦃ dseg NULL (ns1 ++ (l, d) :: ns2) NULL ⦄ delete_double_node p (Some l)
  ⦃ p', ⌈p' = if bool_decide (Some l = p) then hd_addr (lst_addr NULL ns1) ns2 else p⌉ ∗
        dseg NULL (ns1 ++ ns2) NULL ⦄.
Proof.
  unfold hoare, delete_double_node, free_double_node. rewrite !dseg_app /=.
  iIntros "(H1 & Hl & H2)". wp_rule wp_dnode_PREV on "Hl". wp_rule wp_dnode_NEXT on "Hl". simpl.
  wp_focus. iApply (wp_link_next with "H1"). iIntros "H1".
  wp_focus. iApply (wp_link_prev with "H2"). iIntros "H2".
  wp_free "Hl". iSplitR; [|rewrite dseg_app; iFrame].
  iPureIntro. case_bool_decide; [|done]. by destruct ns2 as [|[] ?].
Qed.

Lemma DoubleList_delete_head_spec ns1 l d ns2 :
  ⦃ dseg NULL (ns1 ++ (l, d) :: ns2) NULL ⦄ DoubleList_delete_head (Some l)
  ⦃ r, ⌈r = (hd_addr (lst_addr NULL ns1) ns2, Some d)⌉ ∗ dseg NULL (ns1 ++ ns2) NULL ⦄.
Proof.
  unfold hoare, DoubleList_delete_head. simpl. rewrite dseg_app /=. iIntros "(H1 & Hl & H2)".
  wp_rule wp_dnode_DATA on "Hl". wp_call delete_double_node_spec with "[H1 Hl H2]".
  { rewrite dseg_app /=. iFrame. }
  iIntros (r) "[-> H]". wp_finish. rewrite bool_decide_true //. hfin.
Qed.

Lemma last_node_from_spec fuel pv ns ns1 :
  length ns < fuel → ns ≠ [] →
  ⦃ dseg pv (ns1 ++ ns) NULL ⦄ last_node_from fuel (hd_addr NULL ns)
  ⦃ r, ⌈r = lst_addr pv (ns1 ++ ns)⌉ ∗ dseg pv (ns1 ++ ns) NULL ⦄.
Proof.
  unfold hoare, last_node_from. iInduction fuel as [|fuel] "IH" forall (ns ns1);
    iIntros (Hf Hns) "H"; [lia|].
  destruct ns as [|[l d] ns]; [done|]. simpl in Hf. iApply wp_loop.
  iEval (rewrite dseg_app /=) in "H". iDestruct "H" as "(H1 & Hl & H2)".
  wp_rule wp_dnode_NEXT on "Hl". simpl. iAssert (dseg pv (ns1 ++ (l, d) :: ns) NULL) with "[H1 Hl H2]" as "H".
  { rewrite dseg_app /=. iFrame. }
  case_bool_decide as Hn.
  - apply hd_addr_NULL in Hn as ->. wp_finish. iFrame. by rewrite lst_addr_app.
  - rewrite app_cons_assoc. iApply ("IH" with "[%] [%] H"); [lia|]. by intros ->.
Qed.

Lemma DoubleList_append_spec fuel ns1 ns2 d :
  length ns2 < fuel → (ns2 = [] → ns1 = []) →
  ⦃ dseg NULL (ns1 ++ ns2) NULL ⦄ DoubleList_append fuel (hd_addr NULL ns2) d
  ⦃ p', ∃ l, ⌈p' = hd_addr (Some l) ns2⌉ ∗ dseg NULL (ns1 ++ ns2 ++ [(l, d)]) NULL
  | e, ⌈e = Memory_Failed⌉ ∗ dseg NULL (ns1 ++ ns2) NULL ⦄.
Proof.
  unfold hoare, DoubleList_append, allocate_double_node, DoubleList_is_empty. iIntros (Hf Hns) "H".
  wp_focus. iApply wp_alloc. iSplit; [|iSplit; [done|iFrame]]. iIntros (l) "Hl".
  case_bool_decide as Hp.
  - apply hd_addr_NULL in Hp as ->. rewrite (Hns eq_refl). wp_finish. iExists l. simpl. by iFrame.
  - assert (ns2 ≠ []) as Hne by by intros ->.
    wp_call last_node_from_spec with "H"; [done|done|]. iIntros (r) "[-> H]".
    wp_focus. iApply (wp_set_NEXT_lst with "H"); [by destruct ns1|]. iIntros "H".
    wp_rule wp_dnode_set_PREV on "Hl". iExists l. iSplit; [by destruct ns2 as [|[] ?]|].
    rewrite assoc_L (dseg_app NULL (ns1 ++ ns2)) /=. iFrame.
Qed.

Lemma DoubleList_length_loop fuel pv ns n :
  length ns < fuel → in_u 64 n →
  ⦃ dseg pv ns NULL ⦄
    loop fuel (λ '(list, n),
      if bool_decide (list = NULL) then mret (inr n)
      else nx ← NEXT list; mret (inl (nx, wrap_u 64 (n + 1)%Z))) (hd_addr NULL ns, n)
  ⦃ r, ⌈r = wrap_u 64 (n + Z.of_nat (length ns))⌉ ∗ dseg pv ns NULL ⦄.
Proof.
  unfold hoare. iInduction fuel as [|fuel] "IH" forall (pv ns n); iIntros (Hf Hn) "H"; [lia|].
  iApply wp_loop. destruct ns as [|[l d] ns]; simpl in *.
  - wp_finish. rewrite Z.add_0_r wrap_u_id // ; by iFrame.
  - iDestruct "H" as "[Hl H]". wp_rule wp_dnode_NEXT on "Hl". simpl.
    iApply (wp_wand with "[H]"); [iApply ("IH" with "[%] [%] H"); [lia|by apply wrap_u_range]|].
    iSplit; [|by iIntros (e) "[]"]. iIntros (r) "(-> & H)". rewrite wrap_u_add_l -Z.add_assoc.
    iFrame. iPureIntro. f_equal. lia.
Qed.

Lemma DoubleList_length_spec fuel pv ns :
  length ns < fuel →
  ⦃ dseg pv ns NULL ⦄ DoubleList_length fuel (hd_addr NULL ns)
  ⦃ n, ⌈n = wrap_u 64 (Z.of_nat (length ns))⌉ ∗ dseg pv ns NULL ⦄.
Proof.
  unfold hoare, DoubleList_length. iIntros (Hf) "H".
  wp_call DoubleList_length_loop with "H"; [done|by split|]. by iIntros (n) "[-> $]".
Qed.

(** Walking [k] nodes forwards, and [k] nodes backwards, within the list. *)
Lemma nth_forward_loop fuel ns1 ns2 (iter idx : Z) :
  (Z.to_nat (idx - iter) < fuel) → (iter ≤ idx)%Z →
  ⦃ dseg NULL (ns1 ++ ns2) NULL ⦄
    loop fuel (λ '(iter, nth),
      if bool_decide (iter < idx)%Z && negb (bool_decide (nth = NULL)) then
        nth ← NEXT nth; mret (inl (iter + 1, nth)%Z)
      else mret (inr nth)) (iter, hd_addr NULL ns2)
  ⦃ r, ⌈r = fst <$> ns2 !! Z.to_nat (idx - iter)⌉ ∗ dseg NULL (ns1 ++ ns2) NULL ⦄.
Proof.
  unfold hoare. iInduction fuel as [|fuel] "IH" forall (ns1 ns2 iter); iIntros (Hf Hi) "H"; [lia|].
  iApply wp_loop. case_bool_decide as Hlt; simpl.
  - destruct ns2 as [|[l d] ns2]; simpl; [wp_finish; by iFrame|].
    iEval (rewrite dseg_app /=) in "H". iDestruct "H" as "(H1 & Hl & H2)".
    wp_rule wp_dnode_NEXT on "Hl". simpl.
    iAssert (dseg NULL ((ns1 ++ [(l, d)]) ++ ns2) NULL) with "[H1 Hl H2]" as "H".
    { rewrite -app_cons_assoc dseg_app /=. iFrame. }
    rewrite (app_cons_assoc ns1 (l, d) ns2).
    iApply (wp_wand with "[H]"); [iApply ("IH" with "[%] [%] H"); lia|].
    iSplit; [|by iIntros (e) "[]"]. iIntros (r) "[-> $]". iPureIntro.
    by replace (Z.to_nat (idx - iter)) with (S (Z.to_nat (idx - (iter + 1)))) by lia.
  - wp_finish. iFrame. replace (Z.to_nat (idx - iter)) with 0 by lia.
    by destruct ns2 as [|[] ?].
Qed.

Lemma nth_backward_loop fuel ns1 ns2 (iter idx : Z) :
  (Z.to_nat (iter - idx) < fuel) → (idx ≤ iter)%Z →
  ⦃ dseg NULL (ns1 ++ ns2) NULL ⦄
    loop fuel (λ '(iter, nth),
      if bool_decide (iter > idx)%Z && negb (bool_decide (nth = NULL)) then
        nth ← PREV nth; mret (inl (iter - 1, nth)%Z)
      else mret (inr nth)) (iter, lst_addr NULL ns1)
  ⦃ r, ⌈r = fst <$> rev ns1 !! Z.to_nat (iter - idx)⌉ ∗ dseg NULL (ns1 ++ ns2) NULL ⦄.
Proof.
  unfold hoare. iInduction fuel as [|fuel] "IH" forall (ns1 ns2 iter); iIntros (Hf Hi) "H"; [lia|].
  iApply wp_loop. destruct (snoc_inv ns1) as [->|(ns & [l d] & ->)].
  - rewrite /= andb_false_r. wp_finish. by iFrame.
  - rewrite lst_addr_app rev_app_distr /= andb_true_r. case_bool_decide as Hlt.
    + rewrite -app_cons_assoc. iEval (rewrite dseg_app /=) in "H".
      iDestruct "H" as "(H1 & Hl & H2)". wp_rule wp_dnode_PREV on "Hl". simpl.
      iAssert (dseg NULL (ns ++ (l, d) :: ns2) NULL) with "[H1 Hl H2]" as "H".
      { rewrite dseg_app /=. iFrame. }
      iApply (wp_wand with "[H]"); [iApply ("IH" with "[%] [%] H"); lia|].
      iSplit; [|by iIntros (e) "[]"]. iIntros (r) "[-> $]". iPureIntro.
      by replace (Z.to_nat (iter - idx)) with (S (Z.to_nat (iter - 1 - idx))) by lia.
    + wp_finish. iFrame. by replace (Z.to_nat (iter - idx)) with 0 by lia.
Qed.

(** The node that [DoubleList_nth list idx] finds, for a list variable that points
    after the nodes [ns1]: a positive index counts from the variable, a negative
    one from the end of the list. *)
Definition nth_node (ns1 ns2 : list (loc * ptr)) (idx : Z) : ptr :=
  if bool_decide (ns2 = []) then NULL
  else if bool_decide (idx > 0)%Z then fst <$> ns2 !! Z.to_nat (idx - 1)
  else fst <$> rev (ns1 ++ ns2) !! Z.to_nat (- 1 - idx).

Lemma DoubleList_nth_spec fuel ns1 ns2 idx :
  idx ≠ 0%Z → Z.to_nat (Z.abs idx) < fuel → length ns2 < fuel →
  ⦃ dseg NULL (ns1 ++ ns2) NULL ⦄ DoubleList_nth fuel (hd_addr NULL ns2) idx
  ⦃ r, ⌈r = nth_node ns1 ns2 idx⌉ ∗ dseg NULL (ns1 ++ ns2) NULL ⦄.
Proof.
  unfold hoare, DoubleList_nth, DoubleList_is_empty, nth_node. iIntros (Hidx Hf Hf2) "H".
  rewrite (bool_decide_false (idx = 0%Z)) //. wp_require.
  rewrite (bool_decide_ext (hd_addr NULL ns2 = NULL) (ns2 = [])); [|apply hd_addr_NULL].
  case_bool_decide as Hns; [wp_finish; by iFrame|]. case_bool_decide as Hpos.
  - wp_call nth_forward_loop with "H"; [lia|lia|]. by iIntros (r) "[-> $]".
  - wp_call last_node_from_spec with "H"; [done|done|]. iIntros (r) "[-> H]".
    iEval (rewrite -(app_nil_r (ns1 ++ ns2))) in "H".
    wp_call nth_backward_loop with "H"; [lia|lia|]. iIntros (r) "[-> H]".
    rewrite app_nil_r. by iFrame.
Qed.

Lemma DoubleList_nth_zero fuel p (R : hpropI N) :
  ⦃ R ⦄ DoubleList_nth fuel p 0 ⦃ _r, False | e, ⌈e = Precondition_Failed⌉ ∗ R ⦄.
Proof.
  unfold hoare, DoubleList_nth. iIntros "HR". wp_require. by iFrame.
Qed.

(** [cut] splits a list in two: the nodes between [p_start] and [p_end], which are
    a list of their own afterwards, and the others. *)
Lemma DoubleList_cut_spec p ns1 mid ns2 :
  mid ≠ [] →
  ⦃ dseg NULL (ns1 ++ mid ++ ns2) NULL ⦄
    DoubleList_cut p (hd_addr NULL mid) (lst_addr NULL mid)
  ⦃ p', ⌈p' = if bool_decide (p = hd_addr NULL mid) then hd_addr NULL ns2 else p⌉ ∗
        dseg NULL mid NULL ∗ dseg NULL (ns1 ++ ns2) NULL ⦄.
Proof.
  unfold hoare, DoubleList_cut. iIntros (Hmid) "H".
  assert (hd_addr (hd_addr NULL ns2) mid = hd_addr NULL mid) as Hhd by by destruct mid as [|[] ?].
  assert (lst_addr (lst_addr NULL ns1) mid = lst_addr NULL mid) as Hlst by by destruct mid as [|[] ?].
  iEval (rewrite !dseg_app hd_addr_app Hhd Hlst) in "H". iDestruct "H" as "(H1 & H & H2)".
  wp_focus. iApply (wp_PREV_hd with "H"); [done|]. iIntros "H".
  wp_focus. iApply (wp_wand _ (λ _, dseg NULL ns1 (hd_addr NULL ns2) ∗
    dseg (lst_addr NULL ns1) mid (hd_addr NULL ns2))%I (λ _, False)%I with "[H1 H]").
  { case_bool_decide as Hn; simpl; [apply lst_addr_NULL in Hn as ->; wp_finish; iFrame|].
    wp_focus. iApply (wp_PREV_hd with "H"); [done|]. iIntros "H".
    wp_focus. iApply (wp_NEXT_lst with "H"); [done|]. iIntros "H".
    iApply (wp_set_NEXT_lst with "H1"); [by intros ->|]. iIntros "$". iFrame. }
  iSplit; [|by iIntros (e) "[]"]. iIntros ([]) "[H1 H]".
  wp_focus. iApply (wp_NEXT_lst with "H"); [done|]. iIntros "H".
  wp_focus. iApply (wp_wand _ (λ _, dseg (lst_addr NULL ns1) ns2 NULL ∗
    dseg (lst_addr NULL ns1) mid (hd_addr NULL ns2))%I (λ _, False)%I with "[H2 H]").
  { case_bool_decide as Hn; simpl; [apply hd_addr_NULL in Hn as ->; wp_finish; iFrame|].
    wp_focus. iApply (wp_NEXT_lst with "H"); [done|]. iIntros "H".
    wp_focus. iApply (wp_PREV_hd with "H"); [done|]. iIntros "H".
    iApply (wp_set_PREV_hd with "H2"); [by intros ->|]. iIntros "$". iFrame. }
  iSplit; [|by iIntros (e) "[]"]. iIntros ([]) "[H2 H]". cbv beta.
  iApply wp_bind. iApply (wp_wand _ (λ r,
    ⌈r = if bool_decide (p = hd_addr NULL mid) then hd_addr NULL ns2 else p⌉ ∗
    dseg (lst_addr NULL ns1) mid (hd_addr NULL ns2))%I (λ _, False)%I with "[H]").
  { case_bool_decide; [|wp_finish; by iFrame].
    iApply (wp_NEXT_lst with "H"); [done|]. iIntros "$". done. }
  iSplit; [|by iIntros (e) "[]"]. iIntros (r) "[-> H]".
  wp_focus. iApply (wp_set_NEXT_lst with "H"); [done|]. iIntros "H".
  wp_focus. iApply (wp_set_PREV_hd with "H"); [done|]. iIntros "H".
  wp_finish. iSplit; [done|]. iFrame "H". rewrite dseg_app. iFrame.
Qed.

(** [paste] puts the whole source list after the node the target points to. *)
Lemma DoubleList_paste_spec fuel ns1 t d ns2 src :
  length src < fuel → 1 < fuel → src ≠ [] →
  ⦃ dseg NULL (ns1 ++ (t, d) :: ns2) NULL ∗ dseg NULL src NULL ⦄
    DoubleList_paste fuel (Some t) (hd_addr NULL src)
  ⦃ r, ⌈r = (Some t, NULL)⌉ ∗ dseg NULL (ns1 ++ (t, d) :: src ++ ns2) NULL ⦄.
Proof.
  unfold hoare, DoubleList_paste, DoubleList_is_empty. iIntros (Hf Hf1 Hsrc) "[H Hs]".
  rewrite (bool_decide_false (hd_addr NULL src = NULL)); [|by rewrite hd_addr_NULL].
  rewrite bool_decide_false //.
  wp_call (DoubleList_nth_spec fuel [] src (-1)) with "Hs"; [done|done|done|].
  iIntros (r) "[-> Hs]". unfold nth_node. simpl app. rewrite !bool_decide_false //.
  assert (fst <$> rev src !! Z.to_nat (-1 - -1) = lst_addr NULL src) as ->.
  { destruct (snoc_inv src) as [->|(s & [l e] & ->)]; [done|].
    by rewrite rev_app_distr lst_addr_app. }
  iEval (rewrite dseg_app /=) in "H". iDestruct "H" as "(H1 & Ht & H2)".
  wp_rule wp_dnode_NEXT on "Ht". simpl. wp_focus.
  iApply (wp_set_NEXT_lst with "Hs"); [done|]. iIntros "Hs". wp_rule wp_dnode_NEXT on "Ht". simpl.
  wp_focus. iApply (wp_wand _ (λ _, t ↦ DNode d (hd_addr NULL ns2) (lst_addr NULL ns1) ∗
    dseg (lst_addr NULL src) ns2 NULL)%I (λ _, False)%I with "[Ht H2]").
  { case_bool_decide as Hn; simpl; [apply hd_addr_NULL in Hn as ->; wp_finish; iFrame|].
    wp_rule wp_dnode_NEXT on "Ht". iApply (wp_set_PREV_hd with "H2"); [by intros ->|].
    iIntros "$". iFrame. }
  iSplit; [|by iIntros (e) "[]"]. iIntros ([]) "[Ht H2]".
  wp_focus. iApply (wp_set_PREV_hd with "Hs"); [done|]. iIntros "Hs".
  wp_rule wp_dnode_set_NEXT on "Ht". iSplit; [done|]. rewrite dseg_app /= dseg_app hd_addr_app.
  destruct src as [|[a b] src]; [done|]. simpl. iFrame.
Qed.

(** Pasting an empty source changes nothing, and an empty target takes the source over. *)
Lemma DoubleList_paste_empty fuel t s (R : hpropI N) :
  t = NULL ∨ s = NULL →
  ⦃ R ⦄ DoubleList_paste fuel t s
  ⦃ r, ⌈r = if bool_decide (s = NULL) then (t, s) else (s, NULL)⌉ ∗ R ⦄.
Proof.
  unfold hoare, DoubleList_paste, DoubleList_is_empty. iIntros (H) "HR".
  case_bool_decide as Hs; [wp_finish; by iFrame|].
  rewrite bool_decide_true; [|by destruct H]. wp_finish. by iFrame.
Qed.

Lemma DoubleList_traverse_from fuel pv ns (f : ptr → M (gmap loc N) bool) (I J : list ptr → hpropI N) (done : list ptr) :
  length ns < fuel →
  (∀ done' d rest, done ++ ns.*2 = done' ++ d :: rest →
    ⦃ I done' ⦄ f d ⦃ b, if (b : bool) then I (done' ++ [d]) else J (done' ++ [d]) ⦄) →
  ⦃ dseg pv ns NULL ∗ I done ⦄ DoubleList_traverse fuel (hd_addr NULL ns) (Some f)
  ⦃ b, dseg pv ns NULL ∗ if b then I (done ++ ns.*2)
       else ∃ done' rest, ⌈done ++ ns.*2 = done' ++ rest⌉ ∗ J done' ⦄.
Proof.
  unfold hoare. iInduction fuel as [|fuel] "IH" forall (pv ns done); iIntros (Hf Hbody) "[H HI]"; [lia|].
  cbn [DoubleList_traverse]. wp_require. unfold DoubleList_is_empty.
  destruct ns as [|[l d] ns]; simpl in *.
  - wp_finish. rewrite app_nil_r. iFrame.
  - iDestruct "H" as "[Hl H]". wp_rule wp_dnode_DATA on "Hl".
    pose proof (Hbody _ _ _ eq_refl) as Hb.
    wp_focus. iApply (hoare_wp_ret _ _ _ _ _ Hb with "HI").
    iIntros ([|]) "HI"; simpl.
    + wp_rule wp_dnode_NEXT on "Hl". rewrite app_cons_assoc in Hbody |- *. simpl.
      iApply (wp_wand with "[H HI]"); [iApply ("IH" with "[%] [//] [$H $HI]"); lia|].
      iSplit; [|by iIntros (e) "[]"]. iIntros (b) "[H $]". iFrame.
    + wp_finish. iFrame. iExists ns.*2. by rewrite -app_assoc.
Qed.

Lemma DoubleList_destroy_from fuel pv ns (f : ptr → M (gmap loc N) unit) (I : list ptr → hpropI N) (done : list ptr) :
  length ns < fuel →
  (∀ done' d rest, done ++ ns.*2 = done' ++ d :: rest →
    ⦃ I done' ⦄ f d ⦃ _u, I (done' ++ [d]) ⦄) →
  ⦃ dseg pv ns NULL ∗ I done ⦄ DoubleList_destroy fuel (hd_addr NULL ns) (Some f)
  ⦃ p', ⌈p' = NULL⌉ ∗ I (done ++ ns.*2) ⦄.
Proof.
  unfold hoare, DoubleList_destroy.
  iInduction fuel as [|fuel] "IH" forall (pv ns done); iIntros (Hf Hbody) "[H HI]"; [lia|].
  iApply wp_loop. destruct ns as [|[l d] ns]; simpl in *.
  - wp_finish. rewrite app_nil_r. by iFrame.
  - iDestruct "H" as "[Hl H]". wp_rule wp_dnode_NEXT on "Hl". wp_rule wp_dnode_DATA on "Hl".
    pose proof (Hbody _ _ _ eq_refl) as Hb.
    iApply (hoare_wp_ret _ _ _ _ _ Hb with "HI"). iIntros ([]) "HI". wp_free "Hl".
    rewrite app_cons_assoc in Hbody |- *. iApply ("IH" with "[%] [//] [$H $HI]"). lia.
Qed.

Lemma DoubleList_free_spec fuel pv ns :
  length ns < fuel →
  ⦃ dseg pv ns NULL ⦄ DoubleList_free fuel (hd_addr NULL ns) ⦃ p', ⌈p' = NULL⌉ ⦄.
Proof.
  unfold hoare, DoubleList_free, DoubleList_destroy.
  iInduction fuel as [|fuel] "IH" forall (pv ns); iIntros (Hf) "H"; [lia|].
  iApply wp_loop. destruct ns as [|[l d] ns]; simpl in *; [by wp_finish|].
  iDestruct "H" as "[Hl H]". wp_rule wp_dnode_NEXT on "Hl". wp_free "Hl". iApply ("IH" with "[%] H"). lia.
Qed.

(** C39: cutting a segment out of a list and pasting it after the node that was
    before it restores the list, all links of both directions included. *)
Theorem DoubleList_cut_paste fuel p ns1 t d mid ns2 :
  mid ≠ [] → length mid < fuel → 1 < fuel →
  ⦃ dseg NULL (ns1 ++ (t, d) :: mid ++ ns2) NULL ⦄
    DoubleList_cut p (hd_addr NULL mid) (lst_addr NULL mid);;
    DoubleList_paste fuel (Some t) (hd_addr NULL mid)
  ⦃ r, ⌈r = (Some t, NULL)⌉ ∗ dseg NULL (ns1 ++ (t, d) :: mid ++ ns2) NULL ⦄.
Proof.
  intros Hmid Hf Hf1. unfold hoare. iIntros "H". rewrite {1}app_cons_assoc.
  wp_call (DoubleList_cut_spec p (ns1 ++ [(t, d)]) mid ns2) with "H"; [done|].
  iIntros (p') "(_ & Hm & H)". iEval (rewrite -app_cons_assoc) in "H".
  wp_call (DoubleList_paste_spec fuel ns1 t d ns2 mid) with "[Hm H]"; [done..|iFrame|].
  by iIntros (r) "$".
Qed.

(** [DoubleList_nth] for every index: 0 is refused, a positive one counts from
    the node the variable points to, a negative one from the end of the list, and
    an index outside the list gives [NULL]. *)
Theorem DoubleList_nth_correct fuel ns1 ns2 idx :
  Z.to_nat (Z.abs idx) < fuel → length ns2 < fuel →
  ⦃ dseg NULL (ns1 ++ ns2) NULL ⦄ DoubleList_nth fuel (hd_addr NULL ns2) idx
  ⦃ r, ⌈idx ≠ 0%Z ∧ r = nth_node ns1 ns2 idx⌉ ∗ dseg NULL (ns1 ++ ns2) NULL
  | e, ⌈idx = 0%Z ∧ e = Precondition_Failed⌉ ∗ dseg NULL (ns1 ++ ns2) NULL ⦄.
Proof.
  intros Hf1 Hf2. destruct (decide (idx = 0%Z)) as [->|Hidx].
  - eapply hoare_conseq; [apply DoubleList_nth_zero|done|by iIntros (r) "[]"|]. by iIntros (e) "[-> $]".
  - eapply hoare_conseq; [by apply DoubleList_nth_spec|done| |by iIntros (e) "[]"].
    by iIntros (r) "[-> $]".
Qed.
End dlist_representation.

Lemma DoubleList_cut_paste_witness :
  ⦃ dseg (N := dnode) NULL [(1%positive, NULL); (2%positive, NULL); (3%positive, NULL)] NULL ⦄
    DoubleList_cut (N := dnode) NULL (Some 2%positive) (Some 2%positive);;
    DoubleList_paste 2 (Some 1%positive) (Some 2%positive)
  ⦃ r, ⌈r = (Some 1%positive, NULL)⌉ ∗
       dseg NULL [(1%positive, NULL); (2%positive, NULL); (3%positive, NULL)] NULL ⦄.
Proof.
  apply (DoubleList_cut_paste (N := dnode) 2 NULL [] 1 NULL [(2%positive, NULL)] [(3%positive, NULL)]);
    [discriminate|simpl; lia|lia].
Defined.

Lemma DoubleList_nth_correct_witness :
  ⦃ dseg (N := dnode) NULL [(1%positive, NULL); (2%positive, NULL)] NULL ⦄
    DoubleList_nth (N := dnode) 3 (Some 2%positive) (-2)
  ⦃ r, ⌈(-2)%Z ≠ 0%Z ∧ r = Some 1%positive⌉ ∗ dseg NULL [(1%positive, NULL); (2%positive, NULL)] NULL
  | e, ⌈(-2)%Z = 0%Z ∧ e = Precondition_Failed⌉ ∗
       dseg NULL [(1%positive, NULL); (2%positive, NULL)] NULL ⦄.
Proof.
  apply (DoubleList_nth_correct (N := dnode) 3 [(1%positive, NULL)] [(2%positive, NULL)] (-2)); simpl; lia.
Defined.
