(* ===== verification/CircList.v ===== *)
(** The circular list of src/libs/data_structs/circ_list.c.  The list variable
    points to the last node, and the node after it is the first. *)
From S2P Require Export LinkedList.

Section circ_operations.
Context {N : Type} `{!Struct node N} {MA : Malloc}.
Abbreviation heap := (gmap loc N).

Definition CircList_new : ptr := NULL.
Definition CircList_is_empty (circlist : ptr) : bool := bool_decide (circlist = NULL).

(** The static [__delete_node]; the value of [*p_circlist] after it is the result. *)
Definition delete_node (fuel : nat) (p_circlist p_node : ptr) : M heap ptr :=
  nx ← NEXT p_node;
  p_circlist' ←
    (if bool_decide (p_node = nx) then mret NULL
     else
       start ← NEXT p_circlist;
       node_iter ← loop fuel (λ node_iter,
         if bool_decide (node_iter = p_circlist) then mret (inr node_iter)
         else
           nx ← NEXT node_iter;
           mret (if bool_decide (nx = p_node) then inr node_iter else inl nx)) start;
       nx ← NEXT node_iter;
       ENSURE (bool_decide (nx = p_node));;
       nx ← NEXT p_node;
       set_NEXT node_iter nx;;
       mret (if bool_decide (p_node = p_circlist) then node_iter else p_circlist));
  List__free_node p_node;;
  mret p_circlist'.

Definition CircList_insert (p_circlist data : ptr) : M heap ptr :=
  new_node ← List__allocate_node data;
  if CircList_is_empty p_circlist then
    set_NEXT new_node new_node;;
    mret new_node
  else
    nx ← NEXT p_circlist;
    set_NEXT new_node nx;;
    set_NEXT p_circlist new_node;;
    mret p_circlist.

Definition CircList_append (p_circlist data : ptr) : M heap ptr :=
  p_circlist ← CircList_insert p_circlist data;
  NEXT p_circlist.

(** Returns the new list and, for [true], the value stored in [*p_data__]. *)
Definition CircList_delete (fuel : nat) (p_circlist : ptr) : M heap (ptr * option ptr) :=
  if CircList_is_empty p_circlist then mret (p_circlist, None)
  else
    nx ← NEXT p_circlist;
    data ← DATA nx;
    p_circlist' ← delete_node fuel p_circlist p_circlist;
    mret (p_circlist', Some data).

Definition CircList_traverse (fuel : nat) (circlist : ptr) (apply_fn : ptr → M heap bool)
    : M heap bool :=
  if CircList_is_empty circlist then mret true
  else
    loop fuel (λ tmp,
      tmp ← NEXT tmp;
      d ← DATA tmp;
      b ← apply_fn d;
      mret (if negb b then inr false
            else if bool_decide (tmp = circlist) then inr true else inl tmp)) circlist.

(** [idx] is an [int], and [--idx] is undefined when it overflows. *)
Definition CircList_nth (fuel : nat) (circlist : ptr) (idx : Z) : M heap ptr :=
  if CircList_is_empty circlist then mret NULL
  else if bool_decide (idx = -1)%Z then mret circlist
  else
    loop fuel (λ '(iter, idx),
      iter ← NEXT iter;
      idx ← defined (int_of (idx - 1));
      mret (if bool_decide (idx > 0)%Z && negb (bool_decide (iter = circlist))
            then inl (iter, idx)
            else inr (if bool_decide (idx ≠ 0%Z) then NULL else iter))) (circlist, idx).

Definition CircList_iterator (circlist last_return : ptr) : M heap ptr :=
  if bool_decide (last_return = NULL) then
    if bool_decide (circlist = NULL) then mret NULL else NEXT circlist
  else if bool_decide (last_return = circlist) then mret NULL
  else NEXT last_return.

Definition CircList_length (fuel : nat) (circlist : ptr) : M heap Z :=
  loop fuel (λ '(accum, curr_node),
    curr_node ← CircList_iterator circlist curr_node;
    mret (if bool_decide (curr_node = NULL) then inr accum
          else inl (wrap_u 64 (accum + 1)%Z, curr_node))) (0%Z, NULL).

(** The loop variables are [*p_circlist] and [next_tmp]; the first is the result. *)
Definition CircList_destroy (fuel : nat) (p_circlist : ptr)
    (free_data_fn : option (ptr → M heap unit)) : M heap ptr :=
  loop fuel (λ '(p_circlist, next_tmp),
    if bool_decide (p_circlist = next_tmp) then mret (inr p_circlist)
    else
      next_tmp ← NEXT p_circlist;
      (if is_fn free_data_fn then d ← DATA p_circlist; call free_data_fn d else mret tt);;
      Memory_free p_circlist;;
      mret (inl (next_tmp, next_tmp))) (p_circlist, NULL).

Definition CircList_free (fuel : nat) (p_circlist : ptr) : M heap ptr :=
  CircList_destroy fuel p_circlist None.
End circ_operations.

Section circ_specs.
Context {N : Type} `{!Struct node N} {MA : Malloc}.

(** The nodes of a circular list, from the first one round to the last one, to
    which the variable [p] points. *)
Definition circ (p : ptr) (ns : list (loc * ptr)) : hpropI N :=
  ⌈p = last_addr ns⌉ ∗ lseg (head_addr ns) ns (head_addr ns).

Lemma circ_snoc p ns l d :
  circ p (ns ++ [(l, d)]) ⊣⊢
  ⌈p = Some l⌉ ∗ lseg (head_addr (ns ++ [(l, d)])) ns (Some l) ∗
  l ↦ Node d (head_addr (ns ++ [(l, d)])).
Proof.
  rewrite /circ lseg_app last_addr_snoc. iSplit.
  - iIntros "[$ (%m & H & -> & %nx & Hl & ->)]". iFrame.
  - iIntros "($ & H & Hl)". iExists (Some l). iFrame "H". simpl. hfin.
Qed.

Lemma circ_empty p ns : circ p ns ⊢ ⌜p = NULL ↔ ns = []⌝.
Proof.
  destruct (snoc_inv ns) as [->|(ns' & [l d] & ->)]; [by iIntros "[-> _]"|].
  rewrite circ_snoc. iIntros "(-> & _)". iPureIntro. split; [done|]. by destruct ns'.
Qed.

(** An insertion makes the new node the first one, ... *)
Lemma CircList_insert_spec p ns d :
  ⦃ circ p ns ⦄ CircList_insert p d
  ⦃ p', ∃ l, circ p' ((l, d) :: ns) ∗ ⌈p' = if bool_decide (ns = []) then Some l else p⌉
  | e, ⌈e = Memory_Failed⌉ ∗ circ p ns ⦄.
Proof.
  unfold hoare, CircList_insert, List__allocate_node, CircList_is_empty. iIntros "H".
  wp_focus. iApply wp_alloc. iSplit; [|iSplit; [done|iFrame]]. iIntros (l) "Hl".
  iDestruct (circ_empty with "H") as %Hp. destruct (snoc_inv ns) as [->|(ns' & [a b] & ->)].
  - rewrite bool_decide_true; [|by apply Hp]. iDestruct "H" as "_".
    wp_rule wp_set_NEXT on "Hl". iExists l. rewrite (circ_snoc _ [] l d) /=. hfin.
  - rewrite bool_decide_false; [|by rewrite Hp; destruct ns'].
    iDestruct (circ_snoc with "H") as "(-> & H & Ha)".
    wp_rule wp_NEXT on "Ha". simpl. wp_rule wp_set_NEXT on "Hl". wp_rule wp_set_NEXT on "Ha".
    iExists l. rewrite app_comm_cons circ_snoc. rewrite (bool_decide_false (ns' ++ _ = [])); [|by destruct ns'].
    simpl. hfin.
Qed.

(** ... and an append makes it the last one. *)
Lemma CircList_append_spec p ns d :
  ⦃ circ p ns ⦄ CircList_append p d
  ⦃ p', ∃ l, circ p' (ns ++ [(l, d)]) | e, ⌈e = Memory_Failed⌉ ∗ circ p ns ⦄.
Proof.
  unfold hoare, CircList_append. iIntros "H". wp_focus.
  iApply (hoare_wp with "H"); [apply CircList_insert_spec|]. iSplit; [|by iIntros (e) "$"].
  iIntros (p') "(%l & H & %Hp')". destruct (snoc_inv ns) as [->|(ns' & [a b] & ->)].
  - iDestruct (circ_snoc p' [] l d with "H") as "(-> & H & Hl)".
    wp_rule wp_NEXT on "Hl". iExists l. rewrite (circ_snoc _ [] l d). hfin.
  - rewrite app_comm_cons. iDestruct (circ_snoc with "H") as "(-> & H & Ha)".
    wp_rule wp_NEXT on "Ha". iExists l. rewrite circ_snoc.
    iDestruct "H" as "(_ & %nx & Hl & H)".
    iAssert ⌜nx = head_addr (ns' ++ [(a, b)])⌝%I as %->.
    { destruct ns' as [|[c e] ns']; simpl; [by iDestruct "H" as "->"|by iDestruct "H" as "(-> & _)"]. }
    simpl. iSplit; [done|]. rewrite (head_addr_app (ns' ++ _)); [|by destruct ns'].
    iFrame "Hl". rewrite lseg_app. iExists (Some a). iFrame "H". simpl. hfin.
Qed.

(** The successor of a node: the node after the nodes [ns1] is reached from the
    last of them, and the first node from the last of all. *)
Lemma wp_circ_NEXT p c ns1 ns2 Φ Ψ :
  ns2 ≠ [] → c = last_addr (ns2 ++ ns1) →
  circ p (ns1 ++ ns2) -∗ (circ p (ns1 ++ ns2) -∗ Φ (head_addr ns2)) -∗ wp (NEXT c) Φ Ψ.
Proof.
  iIntros (Hns ->) "H HΦ". destruct (snoc_inv ns1) as [->|(ns & [l d] & ->)].
  - rewrite app_nil_r. destruct (snoc_inv ns2) as [->|(ns & [l d] & ->)]; [done|].
    simpl. iDestruct (circ_snoc with "H") as "(-> & H & Hl)". rewrite last_addr_snoc.
    wp_rule wp_NEXT on "Hl". iApply "HΦ". rewrite circ_snoc. hfin.
  - rewrite assoc_L last_addr_snoc -assoc_L. unfold circ. iDestruct "H" as "[-> H]".
    iDestruct (lseg_app with "H") as (m) "(H1 & -> & %nx & Hl & H2)".
    iAssert ⌜nx = head_addr ns2⌝%I as %->.
    { destruct ns2 as [|[a b] ns2]; [done|]. by iDestruct "H2" as "(-> & _)". }
    wp_rule wp_NEXT on "Hl". iApply "HΦ". iSplit; [done|]. rewrite lseg_app. hfin.
Qed.

Lemma wp_circ_DATA p ns1 l d ns2 Φ Ψ :
  circ p (ns1 ++ (l, d) :: ns2) -∗ (circ p (ns1 ++ (l, d) :: ns2) -∗ Φ d) -∗
  wp (DATA (Some l)) Φ Ψ.
Proof.
  iIntros "[-> H] HΦ". iDestruct (lseg_app with "H") as (m) "(H1 & -> & %nx & Hl & H2)".
  wp_rule wp_DATA on "Hl". iApply "HΦ". iSplit; [done|]. rewrite lseg_app. hfin.
Qed.

Lemma last_addr_app ns1 ns2 : ns2 ≠ [] → last_addr (ns1 ++ ns2) = last_addr ns2.
Proof.
  destruct (snoc_inv ns2) as [->|(ns & [l d] & ->)]; [done|]. intros _.
  by rewrite assoc_L !last_addr_snoc.
Qed.

(** Only the last node is the one the variable points to. *)
Lemma circ_last p ns1 l d ns2 :
  circ p (ns1 ++ (l, d) :: ns2) ⊢ ⌜Some l = p ↔ ns2 = []⌝.
Proof.
  iIntros "[-> H]". iDestruct (lseg_NoDup with "H") as %Hnd. iPureIntro.
  rewrite last_addr_app //. split; [|by intros ->].
  intros H. symmetry in H. apply last_addr_ne in H; [done|].
  rewrite fmap_app in Hnd. by apply NoDup_app in Hnd as (_ & _ & ?).
Qed.

(** The iterator goes from [NULL] over the nodes in order and back to [NULL]. *)
Lemma wp_CircList_iterator p c ns1 ns2 Φ Ψ :
  c = last_addr ns1 →
  circ p (ns1 ++ ns2) -∗ (circ p (ns1 ++ ns2) -∗ Φ (head_addr ns2)) -∗
  wp (CircList_iterator p c) Φ Ψ.
Proof.
  iIntros (->) "H HΦ". unfold CircList_iterator.
  destruct (snoc_inv ns1) as [->|(ns & [l d] & ->)].
  - simpl app. iDestruct (circ_empty with "H") as %Hp. simpl. case_bool_decide as Hn.
    + destruct ns2; [|by apply Hp in Hn]. iApply wp_ret. by iApply "HΦ".
    + iDestruct "H" as "[%Hlast H]". iApply (wp_circ_NEXT p p [] ns2 with "[H]").
      * intros ->. by apply Hn, Hp.
      * by rewrite app_nil_r.
      * unfold circ. by iFrame.
      * done.
  - rewrite last_addr_snoc -app_assoc /=. iDestruct (circ_last with "H") as %Hl.
    case_bool_decide as Hn.
    + apply Hl in Hn as ->. iApply wp_ret. by iApply "HΦ".
    + destruct ns2 as [|n ns2]; [by destruct Hn; apply Hl|].
      rewrite app_cons_assoc. iApply (wp_circ_NEXT with "H"); [done| |done].
      by rewrite assoc_L last_addr_snoc.
Qed.

Lemma CircList_length_loop fuel p ns1 ns2 n :
  length ns2 < fuel → in_u 64 n →
  ⦃ circ p (ns1 ++ ns2) ⦄
    loop fuel (λ '(accum, curr_node),
      curr_node ← CircList_iterator p curr_node;
      mret (if bool_decide (curr_node = NULL) then inr accum
            else inl (wrap_u 64 (accum + 1)%Z, curr_node))) (n, last_addr ns1)
  ⦃ r, ⌈r = wrap_u 64 (n + Z.of_nat (length ns2))⌉ ∗ circ p (ns1 ++ ns2) ⦄.
Proof.
  unfold hoare. iInduction fuel as [|fuel] "IH" forall (ns1 ns2 n); iIntros (Hf Hn) "H"; [lia|].
  iApply wp_loop. wp_focus.
  iApply (wp_CircList_iterator with "H"); [done|]. iIntros "H". wp_finish.
  destruct ns2 as [|[a d] ns2]; simpl in Hf.
  - rewrite /= Z.add_0_r wrap_u_id //. wp_finish. hfin.
  - change (head_addr ((a, d) :: ns2)) with (Some a). rewrite bool_decide_false //. wp_finish.
    rewrite -(last_addr_snoc ns1 a d) app_cons_assoc.
    iApply (wp_wand with "[H]"); [iApply ("IH" with "[%] [%] H"); [lia|by apply wrap_u_range]|].
    iSplit; [|by iIntros (e) "[]"]. iIntros (r) "(-> & H)". iFrame.
    rewrite wrap_u_add_l -Z.add_assoc. iPureIntro. f_equal. simpl. lia.
Qed.

Lemma CircList_length_spec fuel p ns :
  length ns < fuel →
  ⦃ circ p ns ⦄ CircList_length fuel p
  ⦃ n, ⌈n = wrap_u 64 (Z.of_nat (length ns))⌉ ∗ circ p ns ⦄.
Proof. intros Hf. by apply (CircList_length_loop fuel p [] ns 0). Qed.

Lemma CircList_traverse_loop fuel p c ns1 ns2 (f : ptr → M (gmap loc N) bool)
    (I J : list ptr → hpropI N) :
  length ns2 ≤ fuel → ns2 ≠ [] → c = last_addr (ns2 ++ ns1) →
  (∀ done d rest, (ns1 ++ ns2).*2 = done ++ d :: rest →
    ⦃ I done ⦄ f d ⦃ b, if b then I (done ++ [d]) else J (done ++ [d]) ⦄) →
  ⦃ circ p (ns1 ++ ns2) ∗ I ns1.*2 ⦄
    loop fuel (λ tmp,
      tmp ← NEXT tmp;
      d ← DATA tmp;
      b ← f d;
      mret (if negb b then inr false
            else if bool_decide (tmp = p) then inr true else inl tmp)) c
  ⦃ b, circ p (ns1 ++ ns2) ∗ if b then I (ns1 ++ ns2).*2
       else ∃ done rest, ⌈(ns1 ++ ns2).*2 = done ++ rest⌉ ∗ J done ⦄.
Proof.
  unfold hoare. iInduction fuel as [|fuel] "IH" forall (c ns1 ns2); iIntros (Hf Hns Hc Hbody) "[H HI]";
    [by destruct ns2; simpl in Hf; [|lia]|].
  iApply wp_loop. wp_focus. iApply (wp_circ_NEXT with "H"); [done..|]. iIntros "H".
  destruct ns2 as [|[l d] ns2]; [done|]. unfold head_addr. simpl fmap. wp_focus.
  iApply (wp_circ_DATA with "H"). iIntros "H". iDestruct (circ_last with "H") as %Hl.
  assert ((ns1 ++ (l, d) :: ns2).*2 = ns1.*2 ++ d :: ns2.*2) as Hd%Hbody by by rewrite fmap_app.
  wp_focus. iApply (hoare_wp_ret _ _ _ _ _ Hd with "HI"). iIntros ([|]) "HI"; wp_finish; cbn [negb].
  - case_bool_decide as Hlast.
    + apply Hl in Hlast as ->. wp_finish. iFrame. by rewrite fmap_app.
    + rewrite app_cons_assoc in Hbody |- *.
      iApply ("IH" with "[%] [%] [%] [%] [$H HI]"); [simpl in Hf; lia| | |done|by rewrite fmap_app].
      * intros ->. by apply Hlast, Hl.
      * by rewrite assoc_L last_addr_snoc.
  - wp_finish. iFrame "H". iExists (ns1.*2 ++ [d]), ns2.*2. iFrame. iPureIntro.
    by rewrite fmap_app -app_cons_assoc.
Qed.

(** [I done] holds while the data [done] were visited and [apply_fn] answered
    [true]; [J done] when it answered [false] on the last of them. *)
Lemma CircList_traverse_spec fuel p ns (f : ptr → M (gmap loc N) bool)
    (I J : list ptr → hpropI N) :
  length ns ≤ fuel →
  (∀ done d rest, ns.*2 = done ++ d :: rest →
    ⦃ I done ⦄ f d ⦃ b, if b then I (done ++ [d]) else J (done ++ [d]) ⦄) →
  ⦃ circ p ns ∗ I [] ⦄ CircList_traverse fuel p f
  ⦃ b, circ p ns ∗ if b then I ns.*2 else ∃ done rest, ⌈ns.*2 = done ++ rest⌉ ∗ J done ⦄.
Proof.
  intros Hf Hbody. unfold hoare, CircList_traverse, CircList_is_empty. iIntros "[H HI]".
  iDestruct (circ_empty with "H") as %Hp. case_bool_decide as Hn.
  - apply Hp in Hn as ->. wp_finish. iFrame.
  - iAssert ⌜p = last_addr (ns ++ [])⌝%I as %Hlast; [rewrite app_nil_r; by iDestruct "H" as "[-> _]"|].
    iApply (CircList_traverse_loop fuel p p [] ns f I J with "[$H $HI]"); [done| |done|done].
    intros ->. by apply Hn, Hp.
Qed.

Lemma CircList_nth_loop fuel p c ns1 ns2 k :
  length ns2 ≤ fuel → ns2 ≠ [] → c = last_addr (ns2 ++ ns1) → in_s 32 (k - 1) →
  ⦃ circ p (ns1 ++ ns2) ⦄
    loop fuel (λ '(iter, idx),
      iter ← NEXT iter;
      idx ← defined (int_of (idx - 1));
      mret (if bool_decide (idx > 0)%Z && negb (bool_decide (iter = p))
            then inl (iter, idx)
            else inr (if bool_decide (idx ≠ 0%Z) then NULL else iter))) (c, k)
  ⦃ r, ⌈r = if bool_decide (1 ≤ k)%Z then fst <$> ns2 !! Z.to_nat (k - 1) else NULL⌉ ∗
       circ p (ns1 ++ ns2) ⦄.
Proof.
  unfold hoare. iInduction fuel as [|fuel] "IH" forall (c ns1 ns2 k); iIntros (Hf Hns Hc Hk) "H";
    [by destruct ns2; simpl in Hf; [|lia]|].
  iApply wp_loop. wp_focus. iApply (wp_circ_NEXT with "H"); [done..|]. iIntros "H".
  wp_focus. iApply wp_defined; [by apply int_of_in|]. wp_finish.
  destruct ns2 as [|[l d] ns2]; [done|]. unfold head_addr. simpl fmap.
  iDestruct (circ_last with "H") as %Hl. simpl in Hf.
  destruct (decide (k - 1 > 0)%Z) as [Hk0|Hk0];
    [rewrite (bool_decide_true (k - 1 > 0)%Z) //|rewrite (bool_decide_false (k - 1 > 0)%Z) //]; cbn [andb].
  - rewrite (bool_decide_true (1 ≤ k)%Z); [|lia].
    replace (Z.to_nat (k - 1)) with (S (Z.to_nat (k - 1 - 1))) by lia. cbn [lookup list_lookup].
    case_bool_decide as Hlast; cbn [negb].
    + apply Hl in Hlast as ->. wp_finish. rewrite bool_decide_true; [|lia]. by iFrame.
    + rewrite app_cons_assoc. iApply (wp_wand with "[H]").
      * iApply ("IH" with "[%] [%] [%] [%] H"); [lia| | |unfold in_s in *; lia].
        { intros ->. by apply Hlast, Hl. }
        by rewrite assoc_L last_addr_snoc.
      * iSplit; [|by iIntros (e) "[]"]. iIntros (r) "(-> & $)".
        rewrite (bool_decide_true (1 ≤ k - 1)%Z); [done|lia].
  - wp_finish. destruct (decide (k = 1)%Z) as [->|Hk1].
    + by iFrame.
    + rewrite (bool_decide_false (1 ≤ k)%Z); [|lia]. rewrite bool_decide_true; [by iFrame|lia].
Qed.

(** [CircList_nth] numbers the nodes from 1, -1 is the last one, and any other
    index outside the list gives [NULL]. *)
Theorem CircList_nth_correct fuel p ns k :
  length ns ≤ fuel → in_s 32 (k - 1) →
  ⦃ circ p ns ⦄ CircList_nth fuel p k
  ⦃ r, ⌈r = if bool_decide (k = -1)%Z then last_addr ns
            else if bool_decide (1 ≤ k)%Z then fst <$> ns !! Z.to_nat (k - 1) else NULL⌉ ∗ circ p ns ⦄.
Proof.
  intros Hf Hk. unfold hoare, CircList_nth, CircList_is_empty. iIntros "H".
  iDestruct (circ_empty with "H") as %Hp. iAssert ⌜p = last_addr ns⌝%I as %Hlast; [by iDestruct "H" as "[-> _]"|].
  case_bool_decide as Hn.
  - apply Hp in Hn as ->. wp_finish. iFrame. by repeat case_bool_decide.
  - case_bool_decide as H1; [wp_finish; by iFrame|].
    iApply (CircList_nth_loop fuel p p [] ns k with "H"); [done| | |done].
    + intros ->. by apply Hn, Hp.
    + by rewrite app_nil_r.
Qed.

(** The loop that looks for the predecessor of the last node [l]. *)
Lemma circ_pred_loop fuel c ns a b l (x : node) :
  length ns < fuel →
  ⦃ lseg (N := N) c (ns ++ [(a, b)]) (Some l) ∗ l ↦ x ⦄
    loop fuel (λ node_iter,
      if bool_decide (node_iter = Some l) then mret (inr node_iter)
      else
        nx ← NEXT node_iter;
        mret (if bool_decide (nx = Some l) then inr node_iter else inl nx)) c
  ⦃ r, ⌈r = Some a⌉ ∗ lseg c ns (Some a) ∗ a ↦ Node b (Some l) ∗ l ↦ x ⦄.
Proof.
  unfold hoare. iInduction fuel as [|fuel] "IH" forall (c ns); iIntros (Hf) "[H Hl]"; [lia|].
  iApply wp_loop. destruct ns as [|[l1 d1] ns]; simpl in *; iDestruct "H" as "(-> & %nx & Hn & H)";
    iDestruct (points_to_ne with "Hn Hl") as %Hne; rewrite bool_decide_false; try congruence;
    wp_rule wp_NEXT on "Hn"; simpl.
  - iDestruct "H" as "->". rewrite bool_decide_true //. wp_finish. hfin.
  - iAssert ⌜nx ≠ Some l⌝%I as %Hnx.
    { iIntros (->). destruct ns as [|[l2 d2] ns]; simpl; iDestruct "H" as "(%E & % & Hn2 & _)";
        injection E as <-; by iDestruct (points_to_ne with "Hn2 Hl") as %[]. }
    rewrite bool_decide_false //. iApply (wp_wand with "[H Hl]"); [iApply ("IH" with "[%] [$H $Hl]"); lia|].
    iSplit; [|by iIntros (e) "[]"]. iIntros (r) "(-> & H & ? & ?)". hfin.
Qed.

(** [CircList_delete] takes the LAST node out of the list and frees it, ... *)
Lemma delete_last_spec fuel p ns l d :
  length ns ≤ fuel →
  ⦃ circ p (ns ++ [(l, d)]) ⦄ delete_node fuel p p ⦃ p', circ p' ns ⦄.
Proof.
  unfold hoare, delete_node, List__free_node. iIntros (Hf) "H". rewrite circ_snoc.
  iDestruct "H" as "(-> & H & Hl)". wp_rule wp_NEXT on "Hl". cbn [next].
  destruct (snoc_inv ns) as [->|(ns' & [a b] & ->)].
  - cbn. rewrite bool_decide_true //. wp_finish. wp_free "Hl". by iSplit.
  - rewrite (head_addr_app (ns' ++ [(a, b)])); [|by destruct ns'].
    iAssert ⌜Some l ≠ head_addr (ns' ++ [(a, b)])⌝%I as %Hne.
    { destruct ns' as [|[a' b'] ns']; simpl; iDestruct "H" as "(_ & % & Ha & _)";
        iDestruct (points_to_ne with "Ha Hl") as %Hne; iPureIntro; intros [= ->]; done. }
    rewrite bool_decide_false //. wp_focus. wp_rule wp_NEXT on "Hl".
    rewrite length_app /= in Hf.
    wp_call (circ_pred_loop fuel (head_addr (ns' ++ [(a, b)])) ns' a b) with "[H Hl]"; [lia|iFrame|]. iIntros (r) "(-> & H & Ha & Hl)".
    wp_focus. wp_rule wp_NEXT on "Ha". cbn [next]. rewrite bool_decide_true //. wp_focus. iApply wp_ENSURE. cbv iota.
    wp_focus. wp_rule wp_NEXT on "Hl". wp_rule wp_set_NEXT on "Ha".
    wp_free "Hl". rewrite circ_snoc. cbn [next]. by iFrame.
Qed.

(** C40: [CircList_delete] hands back the datum of the FIRST node, but the node it
    takes out and frees is the LAST one. *)
Theorem CircList_delete_correct fuel p n ns :
  length ns ≤ fuel →
  ⦃ circ p (n :: ns) ⦄ CircList_delete fuel p
  ⦃ r, ∃ p', ⌈r = (p', Some n.2)⌉ ∗ circ p' (removelast (n :: ns)) ⦄.
Proof.
  unfold hoare, CircList_delete, CircList_is_empty. iIntros (Hf) "H".
  iDestruct (circ_empty with "H") as %Hp. rewrite bool_decide_false; [|by intros ?%Hp].
  iAssert ⌜p = last_addr ((n :: ns) ++ [])⌝%I as %Hl; [rewrite app_nil_r; by iDestruct "H" as "[-> _]"|].
  wp_focus. iApply (wp_circ_NEXT p p [] (n :: ns) with "H"); [done..|]. iIntros "H".
  destruct n as [l d]. unfold head_addr. simpl fmap.
  wp_focus. iApply (wp_circ_DATA p [] l d ns with "H"). iIntros "H". wp_focus.
  destruct (snoc_inv ((l, d) :: ns)) as [|(ns' & [a b] & Hns)]; [done|].
  simpl app. rewrite Hns removelast_last.
  assert (length ns' = length ns) by (apply (f_equal length) in Hns; rewrite length_app /= in Hns; lia).
  iApply (hoare_wp_ret with "H"); [apply delete_last_spec; lia|]. iIntros (p') "H". wp_finish. hfin.
Qed.

Lemma CircList_delete_empty fuel p :
  ⦃ circ p [] ⦄ CircList_delete fuel p ⦃ r, ⌈r = (NULL, None)⌉ ∗ circ NULL [] ⦄.
Proof. unfold hoare. iIntros "[-> H]". iApply wp_ret. iFrame. done. Qed.

(** [CircList_destroy] hands one datum over, that of the last node, and frees
    that node alone; the others stay in the store with the last link dangling, and
    the variable points to the first. *)
Theorem CircList_destroy_correct fuel p ns l d (f : ptr → M (gmap loc N) unit) (P Q : hpropI N) :
  2 ≤ fuel →
  ⦃ P ⦄ f d ⦃ _u, Q ⦄ →
  ⦃ circ p (ns ++ [(l, d)]) ∗ P ⦄ CircList_destroy fuel p (Some f)
  ⦃ p', ⌈p' = head_addr (ns ++ [(l, d)])⌉ ∗ lseg (head_addr (ns ++ [(l, d)])) ns (Some l) ∗ Q ⦄.
Proof.
  unfold hoare. intros Hf Hb. destruct fuel as [|[|fuel]]; [lia..|]. unfold CircList_destroy.
  rewrite circ_snoc. iIntros "[(-> & H & Hl) HP]". iApply wp_loop. rewrite bool_decide_false //.
  wp_rule wp_NEXT on "Hl". cbn [is_fn next call]. wp_focus. wp_rule wp_DATA on "Hl".
  iApply (hoare_wp_ret _ _ _ _ _ Hb with "HP"). iIntros ([]) "HQ". wp_free "Hl".
  iApply wp_loop. rewrite bool_decide_true //. wp_finish. by iFrame.
Qed.
End circ_specs.

Lemma CircList_nth_correct_witness :
  ⦃ circ (N := node) (Some 2%positive) [(1%positive, NULL); (2%positive, NULL)] ⦄
    CircList_nth (N := node) 2 (Some 2%positive) 1
  ⦃ r, ⌈r = Some 1%positive⌉ ∗ circ (Some 2%positive) [(1%positive, NULL); (2%positive, NULL)] ⦄.
Proof.
  apply (CircList_nth_correct (N := node) 2 (Some 2%positive) [(1%positive, NULL); (2%positive, NULL)] 1);
    [simpl; lia|unfold in_s; lia].
Defined.

Lemma CircList_delete_correct_witness :
  ⦃ circ (N := node) (Some 2%positive) [(1%positive, Some 7%positive); (2%positive, NULL)] ⦄
    CircList_delete 2 (Some 2%positive)
  ⦃ r, ∃ p', ⌈r = (p', Some (Some 7%positive))⌉ ∗ circ p' [(1%positive, Some 7%positive)] ⦄.
Proof.
  apply (CircList_delete_correct (N := node) 2 (Some 2%positive) (1%positive, Some 7%positive)
    [(2%positive, NULL)]). simpl. lia.
Defined.

Lemma CircList_destroy_correct_witness :
  ⦃ circ (N := node) (Some 2%positive) [(1%positive, NULL); (2%positive, NULL)] ∗ emp ⦄
    CircList_destroy 2 (Some 2%positive) (Some (λ _, mret tt))
  ⦃ p', ⌈p' = Some 1%positive⌉ ∗ lseg (Some 1%positive) [(1%positive, NULL)] (Some 2%positive) ∗ emp ⦄.
Proof.
  apply (CircList_destroy_correct (N := node) 2 (Some 2%positive) [(1%positive, NULL)] 2 NULL (λ _, mret tt)
    emp%I emp%I); [lia|]. unfold hoare. iIntros "_". by iApply wp_ret.
Defined.
