(* ===== verification/BinaryHeap.v ===== *)
(** The binary heap of src/libs/data_structs/heap.c: the operations on the store,
    the functions on lists that they implement, heap order, and permutation. *)
From S2P Require Export ObjectArray Container.
From Stdlib Require Import Sorted.

(** [struct heap]. *)
Record bheap := BHeap { storage : ptr; nextelement_idx : Z; size : Z }.

Definition k_resize_step : Z := 128.

(** * The operations *)

Section heap_operations.
Context {N : Type} `{!Struct objarray N, !Struct bheap N} {MA : Malloc}.
Abbreviation heap := (gmap loc N).

(** [heap->storage[i]] and [heap->storage[i] = d]. *)
Definition storage_get (h : ptr) (i : Z) : M heap ptr := s ← load h; slot_get (storage s) i.
Definition storage_set (h : ptr) (i : Z) (d : ptr) : M heap unit :=
  s ← load h; slot_set (storage s) i d.

(** Exchange two elements through [tmpvalue]. *)
Definition swap (h : ptr) (i j : Z) : M heap unit :=
  tmpvalue ← storage_get h i;
  d ← storage_get h j;
  storage_set h i d;;
  storage_set h j tmpvalue.

Fixpoint siftup (fuel : nat) (h : ptr) (elm_idx : Z) (cmp_fn : ptr → ptr → M heap Z) : M heap unit :=
  match fuel with
  | O => nofuel
  | Datatypes.S fuel =>
      if bool_decide (elm_idx = 0%Z) then mret tt
      else
        let parent_idx := ((elm_idx - 1) / 2)%Z in
        a ← storage_get h elm_idx;
        b ← storage_get h parent_idx;
        cmp_result ← cmp_fn a b;
        if bool_decide (cmp_result >= 0)%Z then mret tt
        else
          swap h elm_idx parent_idx;;
          siftup fuel h parent_idx cmp_fn
  end.

(** The index arithmetic is on [size_t]. *)
Fixpoint siftdown (fuel : nat) (h : ptr) (parent_idx : Z) (cmp_fn : ptr → ptr → M heap Z) : M heap unit :=
  match fuel with
  | O => nofuel
  | Datatypes.S fuel =>
      let leftchild := wrap_u 64 (2 * parent_idx + 1) in
      let rightchild := wrap_u 64 (leftchild + 1) in
      s ← load h;
      if bool_decide (leftchild >= nextelement_idx s)%Z then mret tt
      else
        a ← storage_get h parent_idx;
        b ← storage_get h leftchild;
        left_cmp ← cmp_fn a b;
        s ← load h;
        if bool_decide (rightchild >= nextelement_idx s)%Z then
          if bool_decide (left_cmp > 0)%Z then swap h parent_idx leftchild else mret tt
        else
          a ← storage_get h parent_idx;
          b ← storage_get h rightchild;
          right_cmp ← cmp_fn a b;
          if bool_decide (left_cmp > 0)%Z || bool_decide (right_cmp > 0)%Z then
            a ← storage_get h leftchild;
            b ← storage_get h rightchild;
            left_right_cmp ← cmp_fn a b;
            let swapelement := if bool_decide (left_right_cmp < 0)%Z then leftchild else rightchild in
            swap h parent_idx swapelement;;
            siftdown fuel h swapelement cmp_fn
          else mret tt
  end.

Definition Heap_new : M heap ptr :=
  h ← Memory_alloc (BHeap NULL 0 0);
  p ← array_alloc k_resize_step;
  store h (BHeap p 0 k_resize_step);;
  mret h.

Definition Heap_is_empty (h : ptr) : M heap bool :=
  s ← load h; mret (bool_decide (nextelement_idx s = 0%Z)).

Definition Heap_insert (fuel : nat) (h data : ptr) (cmp_fn : ptr → ptr → M heap Z) : M heap unit :=
  s ← load h;
  (if bool_decide (nextelement_idx s = size s) then
     newstorage ← array_resize (storage s) (wrap_u 64 (size s + k_resize_step));
     store h (BHeap newstorage (nextelement_idx s) (wrap_u 64 (size s + k_resize_step)))
   else mret tt);;
  s ← load h;
  storage_set h (nextelement_idx s) data;;
  siftup fuel h (nextelement_idx s) cmp_fn;;
  s ← load h;
  store h (BHeap (storage s) (wrap_u 64 (nextelement_idx s + 1)) (size s)).

(** [None] is [false]; [Some d] is [true] with [*p_data__ = d]. *)
Definition Heap_delete (fuel : nat) (h : ptr) (elm_idx : Z) (cmp_fn : ptr → ptr → M heap Z)
    : M heap (option ptr) :=
  s ← load h;
  if bool_decide (elm_idx >= nextelement_idx s)%Z then mret None
  else
    d ← storage_get h elm_idx;
    store h (BHeap (storage s) (wrap_u 64 (nextelement_idx s - 1)) (size s));;
    s ← load h;
    (if negb (bool_decide (elm_idx = nextelement_idx s)) then
       e ← storage_get h (nextelement_idx s);
       storage_set h elm_idx e;;
       siftdown fuel h elm_idx cmp_fn
     else mret tt);;
    mret (Some d).
End heap_operations.

(** * The same on lists *)

Section heap_lists.
Context (f : ptr → ptr → Z).

Definition swap_list (xs : list ptr) (i j : nat) : list ptr :=
  <[j := xs !!! i]> (<[i := xs !!! j]> xs).

Definition parent (i : nat) : nat := Nat.div2 (i - 1).

(** [fuel] bounds the number of levels that are visited. *)
Fixpoint siftup_list (fuel : nat) (xs : list ptr) (i : nat) : list ptr :=
  match fuel with
  | O => xs
  | Datatypes.S fuel =>
      if decide (i ≠ 0 ∧ (f (xs !!! i) (xs !!! parent i) < 0)%Z)
      then siftup_list fuel (swap_list xs i (parent i)) (parent i)
      else xs
  end.

(** The smaller of the children of [i], the right one when they are equal. *)
Definition smaller_child (xs : list ptr) (i : nat) : nat :=
  if decide (2 * i + 2 < length xs ∧ (0 ≤ f (xs !!! (2 * i + 1)%nat) (xs !!! (2 * i + 2)%nat))%Z)
  then 2 * i + 2 else 2 * i + 1.

Fixpoint siftdown_list (fuel : nat) (xs : list ptr) (i : nat) : list ptr :=
  match fuel with
  | O => xs
  | Datatypes.S fuel =>
      let c := smaller_child xs i in
      if decide (2 * i + 1 < length xs ∧ (0 < f (xs !!! i) (xs !!! c))%Z)
      then siftdown_list fuel (swap_list xs i c) c
      else xs
  end.

Definition insert_list (xs : list ptr) (d : ptr) : list ptr :=
  siftup_list (Datatypes.S (length xs)) (xs ++ [d]) (length xs).

(** Deleting puts the last element in the place of the one at [i]. *)
Definition delete_list (xs : list ptr) (i : nat) : list ptr :=
  let ys := take (length xs - 1) (<[i := xs !!! (length xs - 1)%nat]> xs) in
  if decide (i = length xs - 1)%nat then ys else siftdown_list (length xs) ys i.

(** No element is smaller than its parent. *)
Definition heap_ordered (xs : list ptr) : Prop := ∀ i,
  0 < i → i < length xs → (f (xs !!! parent i) (xs !!! i) ≤ 0)%Z.
End heap_lists.

(** A comparison function that is the sign of a total preorder. *)
Record total_comparison (f : ptr → ptr → Z) : Prop := {
  comparison_sign a b : (0 < f a b ↔ f b a < 0)%Z;
  comparison_trans a b c : (f a b ≤ 0 → f b c ≤ 0 → f a c ≤ 0)%Z;
}.

Lemma parent_lt i : i ≠ 0 → parent i < i.
Proof. intros. unfold parent. pose proof (Nat.div2_decr (i - 1) (i - 1)). lia. Qed.

Lemma parent_eq i j : 0 < j → parent j = i ↔ j = 2 * i + 1 ∨ j = 2 * i + 2.
Proof.
  intros. unfold parent. pose proof (Nat.div2_odd (j - 1)). destruct (Nat.odd (j - 1)); simpl in *; lia.
Qed.

Lemma parent_Z i : i ≠ 0 → ((Z.of_nat i - 1) / 2)%Z = Z.of_nat (parent i).
Proof. intros. unfold parent. rewrite Nat.div2_div Nat2Z.inj_div. f_equal. lia. Qed.

Section heap_lists_correct.
Context {f : ptr → ptr → Z}.

Lemma length_swap_list xs i j : length (swap_list xs i j) = length xs.
Proof. unfold swap_list. by rewrite !length_insert. Qed.

Lemma swap_list_lookup xs i j k : i < length xs → j < length xs →
  swap_list xs i j !!! k =
    if decide (k = j) then xs !!! i else if decide (k = i) then xs !!! j else xs !!! k.
Proof.
  intros. unfold swap_list. case_decide as Hj.
  - subst k. apply list_lookup_total_insert_eq. by rewrite length_insert.
  - rewrite list_lookup_total_insert_ne; [|done]. case_decide as Hi.
    + subst k. by apply list_lookup_total_insert_eq.
    + by apply list_lookup_total_insert_ne.
Qed.

Lemma swap_list_perm xs i j : i < length xs → j < length xs → swap_list xs i j ≡ₚ xs.
Proof. intros. apply Permutation_insert_swap; by apply list_lookup_lookup_total_lt. Qed.

Lemma smaller_child_bound xs i :
  2 * i + 1 < length xs → i < smaller_child f xs i < length xs ∧ parent (smaller_child f xs i) = i.
Proof.
  intros. unfold smaller_child. case_decide; (split; [lia|]); rewrite parent_eq; lia.
Qed.

(** A heap except that [i] may be smaller than its parent, resp. larger than its
    children: what the two functions below repair. *)
Definition heap_above (xs : list ptr) (i : nat) : Prop := ∀ j, 0 < j → j < length xs →
  (j ≠ i → (f (xs !!! parent j) (xs !!! j) ≤ 0)%Z) ∧
  (parent j = i → 0 < i → (f (xs !!! parent i) (xs !!! j) ≤ 0)%Z).
Definition heap_below (xs : list ptr) (i : nat) : Prop := ∀ j, 0 < j → j < length xs →
  (parent j ≠ i → (f (xs !!! parent j) (xs !!! j) ≤ 0)%Z) ∧
  (parent j = i → 0 < i → (f (xs !!! parent i) (xs !!! j) ≤ 0)%Z).

Lemma siftup_list_perm n xs i : i < length xs → siftup_list f n xs i ≡ₚ xs.
Proof.
  revert xs i. induction n as [|n IH]; intros xs i Hi; simpl; [done|]. case_decide as H; [|done].
  pose proof (parent_lt i). rewrite IH; [|rewrite length_swap_list; lia]. apply swap_list_perm; lia.
Qed.

Lemma siftdown_list_leaf n xs i : length xs ≤ 2 * i + 1 → siftdown_list f n xs i = xs.
Proof. intros. destruct n as [|n]; simpl; [done|]. rewrite decide_False //. lia. Qed.

Lemma smaller_child_Z xs i : 2 * i + 2 < length xs →
  (if bool_decide (f (xs !!! (2 * i + 1)%nat) (xs !!! (2 * i + 2)%nat) < 0)%Z
   then Z.of_nat (2 * i + 1) else Z.of_nat (2 * i + 2)) = Z.of_nat (smaller_child f xs i).
Proof. intros. unfold smaller_child. case_bool_decide; case_decide; lia. Qed.

(** More fuel than enough changes nothing. *)
Lemma siftup_list_fuel n m xs i : i < n → i < m → siftup_list f n xs i = siftup_list f m xs i.
Proof.
  revert m xs i. induction n as [|n IH]; intros [|m] xs i Hn Hm; simpl; try lia.
  case_decide; [|done]. pose proof (parent_lt i). apply IH; lia.
Qed.

Lemma siftdown_list_fuel n m xs i : i < length xs → length xs ≤ n + i → length xs ≤ m + i →
  siftdown_list f n xs i = siftdown_list f m xs i.
Proof.
  revert m xs i. induction n as [|n IH]; intros [|m] xs i Hi Hn Hm; simpl; try lia.
  case_decide; [|done]. destruct (smaller_child_bound xs i); [lia|].
  apply IH; rewrite length_swap_list; lia.
Qed.

Lemma siftdown_list_perm n xs i : i < length xs → siftdown_list f n xs i ≡ₚ xs.
Proof.
  revert xs i. induction n as [|n IH]; intros xs i Hi; simpl; [done|]. case_decide as H; [|done].
  pose proof (smaller_child_bound xs i). rewrite IH; [|rewrite length_swap_list; lia].
  apply swap_list_perm; lia.
Qed.

Context (Hf : total_comparison f).
Local Abbreviation le a b := (f a b ≤ 0)%Z.

Lemma comparison_lt a b : (f a b < 0)%Z → le a b.
Proof. lia. Qed.
Lemma comparison_gt a b : (0 < f a b)%Z → le b a.
Proof. rewrite comparison_sign //. lia. Qed.
Lemma comparison_ge a b : ¬ (f a b < 0)%Z → le b a.
Proof. pose proof (comparison_sign f Hf b a). lia. Qed.
Lemma comparison_trans' a b c : le a b → le b c → le a c.
Proof. apply Hf. Qed.
Lemma comparison_refl a : le a a.
Proof. pose proof (comparison_sign f Hf a a). lia. Qed.
#[local] Hint Resolve comparison_lt comparison_gt comparison_ge comparison_refl : core.

Lemma siftup_list_ordered n xs i :
  i < n → i < length xs → heap_above xs i → heap_ordered f (siftup_list f n xs i).
Proof.
  revert xs i. induction n as [|n IH]; intros xs i Hn Hi H; [lia|]. simpl.
  case_decide as Hd.
  - destruct Hd as [Hi0 Hlt]. pose proof (parent_lt i Hi0) as Hp.
    apply IH; [lia|by rewrite length_swap_list; lia|].
    intros j Hj Hlen. rewrite length_swap_list in Hlen. destruct (H j Hj Hlen) as [H1 H2].
    pose proof (parent_lt j ltac:(lia)). assert (parent i < length xs) by lia.
    rewrite !swap_list_lookup; [|done..]. split.
    + intros Hne. repeat case_decide; subst; try lia; auto.
      apply (comparison_trans' _ (xs !!! parent i)); [auto|]. rewrite -H4. auto.
    + intros Hpar Hpos. pose proof (parent_lt (parent i) ltac:(lia)).
      pose proof (proj1 (H (parent i) Hpos ltac:(lia)) ltac:(lia)) as Hpp.
      repeat case_decide; subst; try lia; auto.
      eapply comparison_trans'; [exact Hpp|]. rewrite -Hpar. auto.
  - intros j Hj Hlen. destruct (H j Hj Hlen) as [H1 _].
    destruct (decide (j = i)) as [->|]; [|auto].
    apply comparison_ge. intros Hlt. apply Hd. split; [lia|done].
Qed.

Lemma smaller_child_le xs i j :
  0 < j → j < length xs → parent j = i → le (xs !!! smaller_child f xs i) (xs !!! j).
Proof.
  intros Hj Hlen Hp. apply parent_eq in Hp; [|done]. unfold smaller_child.
  case_decide as Hd; destruct Hp as [->| ->]; auto.
  - pose proof (comparison_sign f Hf (xs !!! (2 * i + 1)%nat) (xs !!! (2 * i + 2)%nat)).
    destruct (decide (0 < f (xs !!! (2 * i + 1)%nat) (xs !!! (2 * i + 2)%nat))%Z); [auto|].
    pose proof (comparison_sign f Hf (xs !!! (2 * i + 2)%nat) (xs !!! (2 * i + 1)%nat)). lia.
  - apply comparison_lt. lia.
Qed.

(** What the two comparisons with the children decide. *)
Lemma smaller_child_gt xs i : 2 * i + 2 < length xs →
  (f (xs !!! i) (xs !!! (2 * i + 1)%nat) > 0 ∨ f (xs !!! i) (xs !!! (2 * i + 2)%nat) > 0)%Z ↔
  (0 < f (xs !!! i) (xs !!! smaller_child f xs i))%Z.
Proof.
  intros Hi. assert (∀ j, parent j = i → 0 < j → j < length xs → (f (xs !!! i) (xs !!! j) > 0)%Z →
    (0 < f (xs !!! i) (xs !!! smaller_child f xs i))%Z) as Hgt.
  { intros j Hp Hj Hlen Hg. apply Z.nle_gt. intros Hle.
    pose proof (comparison_trans' _ _ _ Hle (smaller_child_le xs i j Hj Hlen Hp)). lia. }
  split.
  - intros [H|H]; [apply (Hgt (2 * i + 1)%nat)|apply (Hgt (2 * i + 2)%nat)]; try lia; apply parent_eq; lia.
  - unfold smaller_child. case_decide; lia.
Qed.

Lemma siftdown_list_ordered n xs i :
  length xs ≤ n + i → i < length xs → heap_below xs i → heap_ordered f (siftdown_list f n xs i).
Proof.
  revert xs i. induction n as [|n IH]; intros xs i Hn Hi H; [lia|]. simpl.
  pose proof (smaller_child_bound xs i) as Hc. pose proof (smaller_child_le xs i) as Hle.
  set (c := smaller_child f xs i) in *. clearbody c. case_decide as Hd.
  - destruct Hd as [Hlt Hgt]. destruct (Hc ltac:(lia)) as [[Hic Hcl] Hpc]. clear Hc.
    apply IH; [rewrite length_swap_list; lia..|].
    intros j Hj Hlen. rewrite length_swap_list in Hlen. destruct (H j Hj Hlen) as [H1 H2].
    specialize (Hle j Hj Hlen).
    pose proof (parent_lt j ltac:(lia)). rewrite !swap_list_lookup; [|done..]. split.
    + intros Hne. repeat case_decide; subst; try lia; auto.
      apply (proj2 (H c ltac:(lia) Hcl)); done.
    + intros Hpar Hpos. rewrite Hpc. repeat case_decide; subst; try lia; auto.
  - intros j Hj Hlen. destruct (H j Hj Hlen) as [H1 _].
    destruct (decide (parent j = i)) as [Hp|]; [|auto]. rewrite Hp.
    eapply comparison_trans'; [|by apply Hle].
    apply parent_eq in Hp; [|done]. lia.
Qed.

Lemma insert_list_perm xs d : insert_list f xs d ≡ₚ d :: xs.
Proof.
  unfold insert_list. rewrite siftup_list_perm; [|rewrite length_app /=; lia].
  symmetry. apply Permutation_cons_append.
Qed.

Lemma lookup_total_app_snoc (xs : list ptr) d i : i < length xs → (xs ++ [d]) !!! i = xs !!! i.
Proof. intros. by apply lookup_total_app_l. Qed.

Lemma insert_list_ordered xs d : heap_ordered f xs → heap_ordered f (insert_list f xs d).
Proof.
  intros H. apply siftup_list_ordered; [lia|rewrite length_app /=; lia|].
  intros j Hj Hlen. rewrite length_app /= in Hlen. pose proof (parent_lt j).
  split; intros; [|lia]. rewrite !lookup_total_app_snoc; [apply H; lia|lia..].
Qed.

(** The root of a heap is a smallest element. *)
Lemma heap_ordered_root xs i : heap_ordered f xs → i < length xs → le (xs !!! 0%nat) (xs !!! i).
Proof.
  intros H. induction i as [i IH] using lt_wf_ind. intros Hi.
  destruct (decide (i = 0)) as [->|Hne].
  - apply comparison_refl.
  - pose proof (parent_lt i Hne). apply (comparison_trans' _ (xs !!! parent i)); [apply IH; lia|]. apply H; lia.
Qed.

(** The elements that [delete_list] rearranges. *)
Definition moved (xs : list ptr) (i : nat) : list ptr :=
  take (length xs - 1) (<[i := xs !!! (length xs - 1)%nat]> xs).

Lemma length_moved xs i : length (moved xs i) = length xs - 1.
Proof. unfold moved. rewrite length_take length_insert. lia. Qed.

Lemma moved_lookup xs i k : i < length xs → k < length xs - 1 →
  moved xs i !!! k = if decide (k = i) then xs !!! (length xs - 1)%nat else xs !!! k.
Proof.
  intros. unfold moved. rewrite lookup_total_take_lt; [|done]. case_decide.
  - subst. by apply list_lookup_total_insert_eq.
  - by apply list_lookup_total_insert_ne.
Qed.

Lemma moved_perm xs i : i < length xs → xs !!! i :: moved xs i ≡ₚ xs.
Proof.
  intros Hi. set (n := length xs - 1).
  assert (moved xs i = take n (swap_list xs i n)) as ->.
  { unfold moved, swap_list. by rewrite (take_insert_ge (<[i:=_]> xs)). }
  rewrite Permutation_cons_append -(take_S_r (swap_list xs i n)).
  - rewrite take_ge; [apply swap_list_perm|rewrite length_swap_list]; lia.
  - rewrite list_lookup_lookup_total_lt; [|rewrite length_swap_list; lia].
    rewrite swap_list_lookup; [|lia..]. by rewrite decide_True.
Qed.

Lemma delete_list_perm xs i : i < length xs → xs !!! i :: delete_list f xs i ≡ₚ xs.
Proof.
  intros Hi. unfold delete_list. change (take _ _) with (moved xs i).
  case_decide; [by apply moved_perm|].
  rewrite siftdown_list_perm; [by apply moved_perm|]. rewrite length_moved. lia.
Qed.

(** Deleting an element keeps the order of a heap when the last element, which
    takes its place, is not smaller than the parent of that place. *)
Lemma delete_list_ordered xs i :
  i < length xs → heap_ordered f xs →
  (0 < i → le (xs !!! parent i) (xs !!! (length xs - 1)%nat)) →
  heap_ordered f (delete_list f xs i).
Proof.
  intros Hi H Hlast. unfold delete_list. change (take _ _) with (moved xs i).
  case_decide as Hd.
  - intros j Hj Hlen. pose proof (parent_lt j). rewrite length_moved in Hlen.
    rewrite !moved_lookup; [|lia..]. rewrite !decide_False; [apply H; lia|lia..].
  - apply siftdown_list_ordered; [rewrite length_moved; lia..|].
    intros j Hj Hlen. rewrite length_moved in Hlen. pose proof (parent_lt j). pose proof (parent_lt i).
    assert (parent i ≤ i) by (destruct (decide (i = 0)) as [->|]; [done|lia]).
    rewrite !moved_lookup; [|lia..]. split.
    + intros Hp. rewrite (decide_False (P := parent j = i)) //.
      case_decide; [subst; apply Hlast; lia|apply H; lia].
    + intros Hp Hpos. rewrite !decide_False; [|lia..].
      apply (comparison_trans' _ (xs !!! i)); [apply H; lia|]. rewrite -Hp. apply H; lia.
Qed.
End heap_lists_correct.

(** * The operations implement the functions on lists *)

Section heap_specs.
Context {N : Type} `{!Struct objarray N, !Struct bheap N} {MA : Malloc}.
Context (f : ptr → ptr → Z) (cmp_fn : ptr → ptr → M (gmap loc N) Z) (R : hpropI N).

(** [cmp_fn] computes [f] on the elements of [xs], whose data [R] owns. *)
Definition compares (xs : list ptr) : Prop := ∀ a b, a ∈ xs → b ∈ xs →
  ⦃ R ⦄ cmp_fn a b ⦃ r, ⌈r = f a b⌉ ∗ R ⦄.

(** The header at [l] with [k] as its next index, and its storage. *)
Definition heap_at (l : loc) (k : nat) (xs : list ptr) (n : Z) : hpropI N :=
  ∃ b, l ↦ BHeap (Some b) (Z.of_nat k) n ∗ is_array b xs n.

(** Below this many elements the byte count of the storage does not wrap. *)
Definition heap_fits (n : nat) : Prop := (Z.of_nat n + k_resize_step < 2 ^ 61)%Z.

Definition heap_rep (h : ptr) (xs : list ptr) : hpropI N :=
  ∃ l n, ⌈h = Some l⌉ ∗ ⌈heap_fits (length xs)⌉ ∗ heap_at l (length xs) xs n.

Lemma wp_heap_load l k xs n Φ Ψ :
  heap_at l k xs n -∗
  (∀ s, ⌈nextelement_idx s = Z.of_nat k⌉ -∗ heap_at l k xs n -∗ Φ s) -∗
  wp (load (T := bheap) (Some l)) Φ Ψ.
Proof.
  iIntros "(%b & Hl & Hb) H". wp_load "Hl". iApply "H"; [done|]. hfin.
Qed.

Lemma wp_storage_get_cells l b k xs n i (Φ : ptr → hpropI N) Ψ :
  i < length xs → l ↦ BHeap (Some b) k n -∗ is_array b xs n -∗
  (l ↦ BHeap (Some b) k n -∗ is_array b xs n -∗ Φ (xs !!! i)) -∗
  wp (storage_get (Some l) (Z.of_nat i)) Φ Ψ.
Proof.
  iIntros (Hi) "Hl Hb H". unfold storage_get. wp_load "Hl". simpl.
  iApply (wp_slot_get with "Hb"); [lia| |].
  { rewrite Nat2Z.id. by apply list_lookup_lookup_total_lt. }
  iApply ("H" with "Hl").
Qed.

Lemma wp_storage_get l k xs n i Φ Ψ :
  i < length xs → heap_at l k xs n -∗ (heap_at l k xs n -∗ Φ (xs !!! i)) -∗
  wp (storage_get (Some l) (Z.of_nat i)) Φ Ψ.
Proof.
  iIntros (Hi) "(%b & Hl & Hb) H". iApply (wp_storage_get_cells with "Hl Hb"); [done|].
  iIntros "Hl Hb". iApply "H". hfin.
Qed.

Lemma wp_storage_set l k xs n i d Φ Ψ :
  i < length xs → heap_at l k xs n -∗ (heap_at l k (<[i:=d]> xs) n -∗ Φ tt) -∗
  wp (storage_set (Some l) (Z.of_nat i) d) Φ Ψ.
Proof.
  iIntros (Hi) "(%b & Hl & Hb) H". unfold storage_set. wp_load "Hl". simpl.
  iApply (wp_slot_set with "Hb"); [lia|]. rewrite Nat2Z.id.
  iIntros "Hb". iApply "H". hfin.
Qed.

Lemma wp_swap l k xs n i j Φ Ψ :
  i < length xs → j < length xs →
  heap_at l k xs n -∗ (heap_at l k (swap_list xs i j) n -∗ Φ tt) -∗
  wp (swap (Some l) (Z.of_nat i) (Z.of_nat j)) Φ Ψ.
Proof.
  iIntros (Hi Hj) "Hh H". unfold swap.
  wp_focus. iApply (wp_storage_get with "Hh"); [done|]. iIntros "Hh".
  wp_focus. iApply (wp_storage_get with "Hh"); [done|]. iIntros "Hh".
  wp_focus. iApply (wp_storage_set with "Hh"); [done|]. iIntros "Hh".
  iApply (wp_storage_set with "Hh"); [by rewrite length_insert|done].
Qed.

Lemma wp_compare xs a b Φ Ψ :
  compares xs → a ∈ xs → b ∈ xs → R -∗ (R -∗ Φ (f a b)) -∗ wp (cmp_fn a b) Φ Ψ.
Proof.
  iIntros (Hc Ha Hb) "HR H". wp_call (Hc a b) with "HR"; [done..|].
  iIntros (r) "[-> HR]". by iApply "H".
Qed.

Lemma elem_lookup_total (xs : list ptr) i : i < length xs → xs !!! i ∈ xs.
Proof. intros. eapply list_elem_of_lookup_2. by apply list_lookup_lookup_total_lt. Qed.

Lemma compares_perm xs ys : ys ≡ₚ xs → compares xs → compares ys.
Proof. intros Hp Hc a b Ha Hb. rewrite -> Hp in *. auto. Qed.

Lemma siftup_spec fuel l k xs n i :
  i < fuel → i < length xs → compares xs →
  ⦃ heap_at l k xs n ∗ R ⦄ siftup fuel (Some l) (Z.of_nat i) cmp_fn
  ⦃ _u, heap_at l k (siftup_list f fuel xs i) n ∗ R ⦄.
Proof.
  revert xs i. induction fuel as [|fuel IH]; intros xs i Hf Hi Hc; [lia|].
  unfold hoare. cbn [siftup siftup_list]. iIntros "[Hh HR]".
  destruct (decide (i = 0)) as [->|Hne].
  { rewrite bool_decide_true //. case_decide; [lia|]. wp_finish. iFrame. }
  pose proof (parent_lt i Hne). rewrite bool_decide_false; [|lia]. rewrite parent_Z //.
  wp_focus. iApply (wp_storage_get with "Hh"); [done|]. iIntros "Hh".
  wp_focus. iApply (wp_storage_get with "Hh"); [lia|]. iIntros "Hh".
  wp_focus. iApply (wp_compare xs with "HR"); [done|apply elem_lookup_total; lia..|]. iIntros "HR".
  case_bool_decide as Hcmp; case_decide; try lia.
  - wp_finish. iFrame.
  - wp_focus. iApply (wp_swap with "Hh"); [lia..|]. iIntros "Hh".
    iApply IH; [lia|rewrite length_swap_list; lia| |iFrame].
    eapply compares_perm, Hc. apply swap_list_perm; lia.
Qed.

Lemma siftdown_spec fuel l xs n i :
  total_comparison f → (Z.of_nat (length xs) < 2 ^ 62)%Z →
  length xs < fuel + i → i < length xs → compares xs →
  ⦃ heap_at l (length xs) xs n ∗ R ⦄ siftdown fuel (Some l) (Z.of_nat i) cmp_fn
  ⦃ _u, heap_at l (length xs) (siftdown_list f fuel xs i) n ∗ R ⦄.
Proof.
  intros Htc Hmax. revert xs i Hmax. induction fuel as [|fuel IH]; intros xs i Hmax Hf Hi Hc; [lia|].
  unfold hoare. iIntros "[Hh HR]". cbn [siftdown siftdown_list].
  assert (wrap_u 64 (2 * Z.of_nat i + 1) = Z.of_nat (2 * i + 1)) as ->.
  { rewrite wrap_u_id; [lia|]. unfold in_u. lia. }
  assert (wrap_u 64 (Z.of_nat (2 * i + 1) + 1) = Z.of_nat (2 * i + 2)) as ->.
  { rewrite wrap_u_id; [lia|]. unfold in_u. lia. }
  wp_focus. iApply (wp_heap_load with "Hh"). iIntros (s) "-> Hh".
  case_bool_decide as Hleft.
  { case_decide; [lia|]. wp_finish. iFrame. }
  wp_focus. iApply (wp_storage_get with "Hh"); [done|]. iIntros "Hh".
  wp_focus. iApply (wp_storage_get with "Hh"); [lia|]. iIntros "Hh".
  wp_focus. iApply (wp_compare xs with "HR"); [done|apply elem_lookup_total; lia..|]. iIntros "HR".
  wp_focus. iApply (wp_heap_load with "Hh"). clear s. iIntros (s) "-> Hh".
  case_bool_decide as Hright.
  { assert (smaller_child f xs i = 2 * i + 1)%nat as -> by (unfold smaller_child; case_decide; lia).
    case_bool_decide; case_decide; try lia; [|wp_finish; iFrame].
    iApply (wp_swap with "Hh"); [lia..|]. iIntros "Hh".
    rewrite siftdown_list_leaf; [|rewrite length_swap_list; lia]. iFrame. }
  wp_focus. iApply (wp_storage_get with "Hh"); [done|]. iIntros "Hh".
  wp_focus. iApply (wp_storage_get with "Hh"); [lia|]. iIntros "Hh".
  wp_focus. iApply (wp_compare xs with "HR"); [done|apply elem_lookup_total; lia..|]. iIntros "HR".
  pose proof (smaller_child_gt Htc xs i ltac:(lia)) as Hiff.
  rewrite -bool_decide_or (bool_decide_ext _ (0 < f (xs !!! i) (xs !!! smaller_child f xs i))%Z Hiff).
  case_bool_decide as Hgt; case_decide; try lia; [|wp_finish; iFrame].
  wp_focus. iApply (wp_storage_get with "Hh"); [lia|]. iIntros "Hh".
  wp_focus. iApply (wp_storage_get with "Hh"); [lia|]. iIntros "Hh".
  wp_focus. iApply (wp_compare xs with "HR"); [done|apply elem_lookup_total; lia..|]. iIntros "HR".
  rewrite smaller_child_Z; [|lia].
  destruct (smaller_child_bound (f := f) xs i) as [? _]; [lia|].
  wp_focus. iApply (wp_swap with "Hh"); [lia..|]. iIntros "Hh".
  pose proof (length_swap_list xs i (smaller_child f xs i)) as Hlen.
  rewrite -Hlen. iApply IH; [rewrite Hlen; lia..| |iFrame].
  eapply compares_perm, Hc. apply swap_list_perm; lia.
Qed.
(** A header whose storage was freed by a growth that failed. *)
Definition heap_lost (h : ptr) : hpropI N :=
  ∃ l (s : bheap), ⌈h = Some l⌉ ∗ l ↦ s.

Lemma Heap_new_spec :
  ⦃ emp ⦄ Heap_new ⦃ h, heap_rep h [] | e, ⌈e = Memory_Failed⌉ ∗ (emp ∨ ∃ h, heap_lost h) ⦄.
Proof.
  unfold hoare, Heap_new. iIntros "_". wp_focus. iApply wp_alloc.
  iSplit; [|iSplit; [done|by iLeft]]. iIntros (l) "Hl".
  wp_focus. iApply wp_array_alloc; [done|]. iSplit; [|iSplit; [done|iRight; iExists _; hfin]].
  iIntros (b) "Hb". wp_store "Hl". iExists l, k_resize_step. hfin.
Qed.

Lemma Heap_is_empty_spec h xs :
  ⦃ heap_rep h xs ⦄ Heap_is_empty h ⦃ b, ⌈b = bool_decide (xs = [])⌉ ∗ heap_rep h xs ⦄.
Proof.
  unfold hoare, Heap_is_empty. iIntros "(%l & %n & -> & %Hf & Hh)".
  wp_focus. iApply (wp_heap_load with "Hh"). iIntros (s) "-> Hh". wp_finish.
  iSplit; [|hfin]. iPureIntro. apply bool_decide_ext. destruct xs; simpl; split; (done || lia).
Qed.

Lemma Heap_insert_spec fuel h d xs :
  length xs < fuel → heap_fits (S (length xs)) → compares (d :: xs) →
  ⦃ heap_rep h xs ∗ R ⦄ Heap_insert fuel h d cmp_fn
  ⦃ _u, heap_rep h (insert_list f xs d) ∗ R
  | e, ⌈e = Memory_Failed⌉ ∗ heap_lost h ∗ R ⦄.
Proof.
  unfold hoare, Heap_insert. iIntros (Hf Hfit Hc) "[(%l & %n & -> & _ & %b & Hl & Hb) HR]".
  wp_load "Hl". cbn [nextelement_idx size storage].
  iDestruct (is_array_length with "Hb") as %Hlen. unfold heap_fits, k_resize_step in *. wp_focus.
  iApply (wp_wand _ (λ _, ∃ b n, ⌈(Z.of_nat (length xs) < n)%Z⌉ ∗
    l ↦ BHeap (Some b) (Z.of_nat (length xs)) n ∗ is_array b xs n)%I
    (λ e, ⌈e = Memory_Failed⌉ ∗ heap_lost (Some l))%I with "[Hl Hb]").
  - case_bool_decide as Heq; [|wp_finish; iExists b, n; iFrame; iPureIntro; lia].
    rewrite wrap_u_id; [|unfold in_u; lia].
    wp_focus. iApply (wp_array_resize with "Hb"); [lia|lia|]. iSplit.
    + iIntros (b') "Hb". wp_store "Hl". iExists b', _. iFrame. iPureIntro. lia.
    + iSplit; [done|]. iExists l. hfin.
  - iSplit; [|iIntros (e) "[$ $]"; iFrame]. clear b n Hlen.
    iIntros ([]) "(%b & %n & %Hlen & Hl & Hb)". wp_load "Hl". cbn [nextelement_idx].
    iEval (unfold storage_set). wp_load "Hl". cbn [storage]. wp_focus.
    iApply (wp_slot_push with "Hb"); [done|lia|]. iIntros "Hb".
    wp_focus. iApply (hoare_wp_ret with "[Hl Hb HR]").
    { apply (siftup_spec fuel l (length xs) (xs ++ [d])); [done|rewrite length_app /=; lia|].
      eapply compares_perm, Hc. symmetry. apply Permutation_cons_append. }
    { iFrame. }
    iIntros ([]) "[(%b' & Hl & Hb) HR]". wp_load "Hl". wp_store "Hl". cbn [storage nextelement_idx size].
    rewrite wrap_u_id; [|unfold in_u; lia]. iFrame "HR". iExists l, n.
    rewrite (siftup_list_fuel fuel (S (length xs))); [|lia..]. fold (insert_list f xs d).
    rewrite (Permutation_length (insert_list_perm xs d)) /=.
    replace (Z.of_nat (length xs) + 1)%Z with (Z.of_nat (S (length xs))) by lia.
    hfin.
Qed.

(** The storage past the new end still holds the element that was there. *)
Lemma heap_at_moved l k xs n i :
  i < length xs →
  heap_at l k (<[i := xs !!! (length xs - 1)%nat]> xs) n ⊢ heap_at l k (moved xs i) n.
Proof.
  iIntros (Hi) "(%b & Hl & Hb)". iExists b. iFrame "Hl". iApply is_array_pop.
  unfold moved. set (ys := <[_:=_]> xs).
  assert (length ys = length xs) as Hlen by apply length_insert.
  erewrite <-take_S_r; [|apply list_lookup_lookup_total_lt; lia].
  rewrite take_ge; [done|lia].
Qed.

Lemma elem_of_moved xs i x : i < length xs → x ∈ moved xs i → x ∈ xs.
Proof. intros Hi Hx. rewrite -(moved_perm xs i Hi). by right. Qed.

Lemma Heap_delete_spec fuel h xs i :
  total_comparison f → length xs < fuel → i < length xs → compares xs →
  ⦃ heap_rep h xs ∗ R ⦄ Heap_delete fuel h (Z.of_nat i) cmp_fn
  ⦃ r, ⌈r = Some (xs !!! i)⌉ ∗ heap_rep h (delete_list f xs i) ∗ R ⦄.
Proof.
  unfold hoare, Heap_delete. iIntros (Ht Hf Hi Hc) "[(%l & %n & -> & %Hfit & Hh) HR]".
  unfold heap_fits, k_resize_step in *.
  iDestruct "Hh" as (b) "[Hl Hb]". wp_load "Hl". cbn [nextelement_idx storage size].
  rewrite bool_decide_false; [|lia].
  wp_focus. iApply (wp_storage_get_cells with "Hl Hb"); [done|]. iIntros "Hl Hb". wp_store "Hl". wp_load "Hl". cbn [nextelement_idx storage size].
  rewrite wrap_u_id; [|unfold in_u; lia].
  replace (Z.of_nat (length xs) - 1)%Z with (Z.of_nat (length xs - 1)) by lia.
  iAssert (heap_at l (length xs - 1) xs n) with "[Hl Hb]" as "Hh"; [hfin|].
  wp_focus.
  iApply (wp_wand _ (λ _, heap_at l (length xs - 1) (delete_list f xs i) n ∗ R)%I (λ _, False)%I with "[Hh HR]").
  - unfold delete_list. change (take _ _) with (moved xs i). case_bool_decide as Hlast; simpl negb; cbv iota.
    + rewrite decide_True; [|lia]. wp_finish. iFrame "HR". iApply heap_at_moved; [lia|].
      rewrite list_insert_id; [done|]. replace (length xs - 1) with i by lia.
      by apply list_lookup_lookup_total_lt.
    + rewrite decide_False; [|lia].
      wp_focus. iApply (wp_storage_get with "Hh"); [lia|]. iIntros "Hh".
      wp_focus. iApply (wp_storage_set with "Hh"); [lia|]. iIntros "Hh".
      iDestruct (heap_at_moved with "Hh") as "Hh"; [done|].
      rewrite -(length_moved xs i).
      rewrite (siftdown_list_fuel (length xs) fuel); [|rewrite length_moved; lia..].
      assert (compares (moved xs i)) as Hc'.
      { intros x y Hx Hy. apply Hc; eapply elem_of_moved; eauto. }
      iApply (hoare_wp_ret with "[Hh HR]").
      { apply (siftdown_spec fuel l (moved xs i)); [done|rewrite length_moved; lia..|done]. }
      { iFrame. }
      by iIntros ([]) "$".
  - iSplit; [|by iIntros (e) "[]"]. iIntros ([]) "[Hh HR]". wp_finish. iFrame "HR". iSplit; [done|].
    pose proof (Permutation_length (delete_list_perm (f := f) xs i Hi)) as Hlen. simpl in Hlen.
    replace (length xs - 1) with (length (delete_list f xs i)) by lia.
    iExists l, n. iFrame. iPureIntro. split; [done|]. unfold heap_fits, k_resize_step. lia.
Qed.

Lemma Heap_delete_out fuel h xs i :
  (Z.of_nat (length xs) ≤ i)%Z →
  ⦃ heap_rep h xs ⦄ Heap_delete fuel h i cmp_fn ⦃ r, ⌈r = None⌉ ∗ heap_rep h xs ⦄.
Proof.
  unfold hoare, Heap_delete. iIntros (Hi) "(%l & %n & -> & %Hfit & Hh)".
  wp_focus. iApply (wp_heap_load with "Hh"). iIntros (s) "-> Hh".
  rewrite bool_decide_true; [|lia]. wp_finish. hfin.
Qed.
Lemma compares_subset xs ys : ys ⊆ xs → compares xs → compares ys.
Proof. intros Hs Hc a b Ha Hb. apply Hc; auto. Qed.

(** Inserting keeps a heap a heap, with one element more. *)
Lemma Heap_insert_heap fuel h d xs :
  total_comparison f → heap_ordered f xs →
  length xs < fuel → heap_fits (S (length xs)) → compares (d :: xs) →
  ⦃ heap_rep h xs ∗ R ⦄ Heap_insert fuel h d cmp_fn
  ⦃ _u, ∃ ys, ⌈heap_ordered f ys ∧ ys ≡ₚ d :: xs⌉ ∗ heap_rep h ys ∗ R
  | e, ⌈e = Memory_Failed⌉ ∗ heap_lost h ∗ R ⦄.
Proof.
  intros Ht Ho Hf Hfit Hc. eapply hoare_conseq; [by apply Heap_insert_spec|done| |done].
  iIntros ([]) "[Hh $]". iExists _. iFrame. iPureIntro.
  split; [by apply insert_list_ordered|apply insert_list_perm].
Qed.

(** Deleting the root takes out a smallest element. *)
Lemma Heap_delete_root fuel h xs :
  total_comparison f → heap_ordered f xs → 0 < length xs < fuel → compares xs →
  ⦃ heap_rep h xs ∗ R ⦄ Heap_delete fuel h 0 cmp_fn
  ⦃ r, ∃ m ys, ⌈r = Some m ∧ heap_ordered f ys ∧ m :: ys ≡ₚ xs ∧
         Forall (λ a, f m a ≤ 0)%Z xs⌉ ∗ heap_rep h ys ∗ R ⦄.
Proof.
  intros Ht Ho [Hpos Hf] Hc. eapply hoare_conseq; [by apply (Heap_delete_spec fuel h xs 0)|done| |done].
  iIntros (r) "(-> & Hh & $)". iExists (xs !!! 0), _. iFrame. iPureIntro. repeat split.
  - apply delete_list_ordered; [done..|lia].
  - by apply delete_list_perm.
  - apply Forall_lookup_2. intros i a Hi. rewrite -(list_lookup_total_correct _ _ _ Hi).
    apply heap_ordered_root; [done..|]. by eapply lookup_lt_Some.
Qed.

Lemma push_all_heap fuel h ds xs :
  total_comparison f → heap_ordered f xs →
  length xs + length ds < fuel → heap_fits (length xs + length ds) → compares (ds ++ xs) →
  ⦃ heap_rep h xs ∗ R ⦄ push_all (λ h d, Heap_insert fuel h d cmp_fn) h ds
  ⦃ _u, ∃ ys, ⌈heap_ordered f ys ∧ ys ≡ₚ ds ++ xs⌉ ∗ heap_rep h ys ∗ R
  | e, ⌈e = Memory_Failed⌉ ∗ heap_lost h ∗ R ⦄.
Proof.
  unfold hoare. iIntros (Ht). iInduction ds as [|d ds] "IH" forall (xs); simpl; iIntros (Ho Hf Hfit Hc) "H".
  - iApply wp_ret. iDestruct "H" as "[H $]". hfin.
  - wp_focus. iApply (hoare_wp with "H").
    { apply Heap_insert_heap; [done..|lia| |].
      - unfold heap_fits in *. lia.
      - eapply compares_subset, Hc.
        intros a [->|Ha]%elem_of_cons; [left|right; apply elem_of_app; by right]. }
    iSplit; [|by iIntros (e) "$"]. iIntros ([]) "(%ys & %Hys & H)".
    destruct Hys as [Ho' Hp].
    pose proof (Permutation_length Hp) as Hlen. simpl in Hlen.
    iApply (wp_wand with "[H]").
    { iApply ("IH" $! ys with "[//] [%] [%] [%] H").
      - lia.
      - unfold heap_fits in *. lia.
      - eapply compares_perm, Hc. rewrite Hp. symmetry. apply Permutation_middle. }
    iSplit; [|by iIntros (e) "$"]. iIntros ([]) "(%zs & %Hzs & H)".
    destruct Hzs as [Hz Hzp]. iExists zs. iFrame.
    iPureIntro. split; [done|]. rewrite Hzp Hp. symmetry. apply Permutation_middle.
Qed.

Lemma pop_all_heap fuel h xs :
  total_comparison f → heap_ordered f xs → length xs < fuel → compares xs →
  ⦃ heap_rep h xs ∗ R ⦄ pop_n (λ h, Heap_delete fuel h 0 cmp_fn) (length xs) h
  ⦃ r, ∃ ys, ⌈r = Some <$> ys ∧ ys ≡ₚ xs ∧ StronglySorted (λ a b, f a b ≤ 0)%Z ys⌉ ∗
       heap_rep h [] ∗ R ⦄.
Proof.
  unfold hoare. iIntros (Ht). remember (length xs) as n eqn:Hn.
  iInduction n as [|n] "IH" forall (xs Hn); simpl; iIntros (Ho Hf Hc) "H".
  - destruct xs; [|done]. iApply wp_ret. iExists []. iDestruct "H" as "[$ $]". iPureIntro.
    repeat split; constructor.
  - wp_focus. iApply (hoare_wp_ret with "H").
    { apply Heap_delete_root; [done|done|lia|done]. }
    iIntros (r) "(%m & %ys & %Hr & H)". destruct Hr as (-> & Ho' & Hp & Hm).
    pose proof (Permutation_length Hp) as Hlen. simpl in Hlen. wp_focus.
    iApply (wp_wand with "[H]").
    { iApply ("IH" $! ys with "[%] [//] [%] [%] H"); [lia|lia|].
      eapply compares_subset, Hc. intros a Ha. rewrite -Hp. by right. }
    iSplit; [|by iIntros (e) "[]"]. iIntros (r) "(%zs & %Hr & Hh & HR)".
    destruct Hr as (-> & Hzp & Hs). wp_finish.
    iFrame. iExists (m :: zs). iPureIntro. split; [done|]. split; [by rewrite Hzp|].
    constructor; [done|]. rewrite Hzp. rewrite -Hp in Hm. by apply Forall_cons in Hm as [_ Hm].
Qed.
(** inserting into a heap gives a heap of one element more, also when the
    storage is enlarged for it; when that fails, the exception leaves a header
    whose storage is gone. *)
Theorem Heap_insert_correct fuel h d xs :
  total_comparison f → heap_ordered f xs →
  length xs < fuel → heap_fits (S (length xs)) → compares (d :: xs) →
  ⦃ heap_rep h xs ∗ R ⦄ Heap_insert fuel h d cmp_fn
  ⦃ _u, ∃ ys, ⌈heap_ordered f ys ∧ ys ≡ₚ d :: xs⌉ ∗ heap_rep h ys ∗ R
  | e, ⌈e = Memory_Failed⌉ ∗ heap_lost h ∗ R ⦄.
Proof. apply Heap_insert_heap. Qed.

(** deleting at an index within the heap returns the element there and
    leaves the others; they are a heap when the last element, which is moved to
    that index, is not smaller than the parent of the index. *)
Theorem Heap_delete_correct fuel h xs i :
  total_comparison f → heap_ordered f xs → length xs < fuel → compares xs →
  ⦃ heap_rep h xs ∗ R ⦄ Heap_delete fuel h (Z.of_nat i) cmp_fn
  ⦃ r, ⌈r = xs !! i⌉ ∗ R ∗ ∃ ys, heap_rep h ys ∗
       ⌈match r with
        | None => ys = xs
        | Some d => d :: ys ≡ₚ xs ∧
            ((0 < i → (f (xs !!! parent i) (xs !!! (length xs - 1)%nat) ≤ 0)%Z) → heap_ordered f ys)
        end⌉ ⦄.
Proof.
  intros Ht Ho Hf Hc. destruct (decide (i < length xs)) as [Hi|Hi].
  - eapply hoare_conseq; [by apply Heap_delete_spec|done| |done].
    iIntros (r) "(-> & Hh & $)". rewrite list_lookup_lookup_total_lt //. iSplit; [done|].
    iExists _. iFrame. iPureIntro. split; [by apply delete_list_perm|].
    intros. by apply delete_list_ordered.
  - eapply hoare_conseq; [eapply hoare_frame, (Heap_delete_out fuel h xs); lia| | |by iIntros (e) "[_ []]"].
    { by rewrite bi.sep_comm. }
    iIntros (r) "($ & -> & Hh)". rewrite lookup_ge_None_2; [|lia]. iSplit; [done|]. hfin.
Qed.

(** C36: heap sort.  Inserting data into an empty heap and deleting the root as
    many times returns the data in increasing order. *)
Theorem Heap_sorts fuel h ds :
  total_comparison f → length ds < fuel → heap_fits (length ds) → compares ds →
  ⦃ heap_rep h [] ∗ R ⦄
    push_all (λ h d, Heap_insert fuel h d cmp_fn) h ds;;
    pop_n (λ h, Heap_delete fuel h 0 cmp_fn) (length ds) h
  ⦃ r, ∃ ys, ⌈r = Some <$> ys ∧ ys ≡ₚ ds ∧ StronglySorted (λ a b, f a b ≤ 0)%Z ys⌉ ∗
       heap_rep h [] ∗ R
  | e, ⌈e = Memory_Failed⌉ ∗ heap_lost h ∗ R ⦄.
Proof.
  unfold hoare. iIntros (Ht Hf Hfit Hc) "H". wp_focus.
  iApply (hoare_wp with "H").
  { apply (push_all_heap fuel h ds []); [done| |done|done|].
    - intros i _ Hi. simpl in Hi. lia.
    - by rewrite app_nil_r. }
  iSplit; [|by iIntros (e) "$"]. iIntros ([]) "(%ys & %Hys & H)".
  rewrite app_nil_r in Hys. destruct Hys as [Ho Hp]. rewrite -(Permutation_length Hp).
  iApply (hoare_wp_ret with "H").
  { apply pop_all_heap; [done..|by rewrite (Permutation_length Hp)|by eapply compares_perm]. }
  iIntros (r) "(%zs & %Hzs & $)". destruct Hzs as (-> & Hz & Hs). iExists zs.
  iPureIntro. split; [done|]. split; [by rewrite Hz|done].
Qed.
End heap_specs.

(** An order on the addresses themselves, for concrete runs. *)
Definition ptr_key (p : ptr) : Z := from_option Z.pos 0%Z p.
Definition ptr_compare (a b : ptr) : Z := (ptr_key a - ptr_key b)%Z.
Definition ptr_compare_fn {N} (a b : ptr) : M (gmap loc N) Z := mret (ptr_compare a b).

Lemma ptr_compare_total : total_comparison ptr_compare.
Proof. unfold ptr_compare. split; intros; lia. Qed.

Lemma ptr_compare_compares {N} xs : compares ptr_compare (ptr_compare_fn (N := N)) emp xs.
Proof. intros a b _ _. unfold hoare. iIntros "_". iApply wp_ret. done. Qed.

Lemma Heap_insert_correct_witness :
  heap_ordered ptr_compare [Some 3%positive] ∧
  ⦃ heap_rep (N := objarray + bheap) (Some 1%positive) [Some 3%positive] ∗ emp ⦄
    Heap_insert (MA := malloc_always) 2 (Some 1%positive) (Some 2%positive) ptr_compare_fn
  ⦃ _u, ∃ ys, ⌈heap_ordered ptr_compare ys ∧ ys ≡ₚ [Some 2%positive; Some 3%positive]⌉ ∗
        heap_rep (Some 1%positive) ys ∗ emp
  | e, ⌈e = Memory_Failed⌉ ∗ heap_lost (Some 1%positive) ∗ emp ⦄.
Proof.
  assert (heap_ordered ptr_compare [Some 3%positive]) as Ho.
  { intros i Hi Hlen. simpl in Hlen. lia. }
  split; [exact Ho|].
  apply (Heap_insert_correct (N := objarray + bheap) (MA := malloc_always) ptr_compare);
    [exact ptr_compare_total|exact Ho|simpl; lia|unfold heap_fits, k_resize_step; simpl; lia|
     apply ptr_compare_compares].
Defined.

Lemma Heap_delete_correct_witness :
  heap_ordered ptr_compare [Some 3%positive] ∧
  ⦃ heap_rep (N := objarray + bheap) (Some 1%positive) [Some 3%positive] ∗ emp ⦄
    Heap_delete 2 (Some 1%positive) 0 ptr_compare_fn
  ⦃ r, ⌈r = Some (Some 3%positive)⌉ ∗ emp ∗ ∃ ys, heap_rep (Some 1%positive) ys ∗
       ⌈match r with
        | None => ys = [Some 3%positive]
        | Some d => d :: ys ≡ₚ [Some 3%positive] ∧
            ((0 < 0 → (ptr_compare (Some 3%positive) (Some 3%positive) ≤ 0)%Z) → heap_ordered ptr_compare ys)
        end⌉ ⦄.
Proof.
  assert (heap_ordered ptr_compare [Some 3%positive]) as Ho.
  { intros i Hi Hlen. simpl in Hlen. lia. }
  split; [exact Ho|].
  apply (Heap_delete_correct (N := objarray + bheap) ptr_compare ptr_compare_fn emp 2
    (Some 1%positive) [Some 3%positive] 0);
    [exact ptr_compare_total|exact Ho|simpl; lia|apply ptr_compare_compares].
Defined.

Lemma Heap_sorts_witness :
  heap_fits 2 ∧
  ⦃ heap_rep (N := objarray + bheap) (Some 1%positive) [] ∗ emp ⦄
    push_all (λ h d, Heap_insert (MA := malloc_always) 3 h d ptr_compare_fn) (Some 1%positive)
      [Some 3%positive; Some 2%positive];;
    pop_n (λ h, Heap_delete 3 h 0 ptr_compare_fn) 2 (Some 1%positive)
  ⦃ r, ∃ ys, ⌈r = Some <$> ys ∧ ys ≡ₚ [Some 3%positive; Some 2%positive] ∧
         StronglySorted (λ a b, ptr_compare a b ≤ 0)%Z ys⌉ ∗ heap_rep (Some 1%positive) [] ∗ emp
  | e, ⌈e = Memory_Failed⌉ ∗ heap_lost (Some 1%positive) ∗ emp ⦄.
Proof.
  assert (heap_fits 2) as Hfit by (unfold heap_fits, k_resize_step; lia). split; [exact Hfit|].
  apply (Heap_sorts (N := objarray + bheap) (MA := malloc_always) ptr_compare ptr_compare_fn emp 3
    (Some 1%positive) [Some 3%positive; Some 2%positive]);
    [exact ptr_compare_total|simpl; lia|exact Hfit|apply ptr_compare_compares].
Defined.

(** A heap of seven elements. *)
Definition seven : list ptr := Some <$> [1; 10; 2; 11; 12; 3; 4]%positive.
Definition heap_store (xs rest : list ptr) : gmap loc (objarray + bheap) :=
  {[20%positive := inr (BHeap (Some 21%positive) (Z.of_nat (length xs)) 7);
    21%positive := inl (ObjArray (Some <$> (xs ++ rest)))]}.

Lemma seven_ordered : heap_ordered ptr_compare seven.
Proof.
  intros i Hi Hlen. unfold seven in *. simpl in Hlen.
  do 7 (destruct i as [|i]; [try lia; vm_compute; discriminate|]). lia.
Qed.

(** [Heap_delete] at an index other than the root can break the order: when
    11 is deleted from this heap, 4 takes its place below 10, and is not moved up. *)
Theorem Heap_delete_unordered :
  ∃ ys, Heap_delete 8 (Some 20%positive) 3 ptr_compare_fn (heap_store seven []) =
          Ret (Some (Some 11%positive)) (heap_store ys [Some 4%positive]) ∧
        heap_ordered ptr_compare seven ∧ ¬ heap_ordered ptr_compare ys.
Proof.
  exists (Some <$> [1; 10; 2; 4; 12; 3]%positive).
  split; [vm_compute; reflexivity|]. split; [exact seven_ordered|].
  intros H. specialize (H 3). revert H. vm_compute. intros H. apply H; [lia|lia|done].
Qed.
