(* ===== verification/BinTree.v ===== *)
(** The binary tree of src/libs/data_structs/binary_tree.c: the operations on
    the store, and the triples of the traversals, which can stop early, and of
    the recursive destruction. *)
From S2P Require Export HeapLogic.

(** [struct tree_node] and [order_et]. *)
Record btnode := BTNode { datapointer : ptr; left : ptr; right : ptr }.
Inductive order_et := PRE_ORDER | IN_ORDER | POST_ORDER.

(** * The operations *)

Section bintree_operations.
Context {N : Type} `{!Struct btnode N} {MA : Malloc}.
Abbreviation heap := (gmap loc N).

Definition DATA (p : ptr) : M heap ptr := n ← load p; mret (datapointer n).
Definition LEFT (p : ptr) : M heap ptr := n ← load p; mret (left n).
Definition RIGHT (p : ptr) : M heap ptr := n ← load p; mret (right n).
Definition set_LEFT (p q : ptr) : M heap unit := n ← load p; store p (BTNode (datapointer n) q (right n)).
Definition set_RIGHT (p q : ptr) : M heap unit := n ← load p; store p (BTNode (datapointer n) (left n) q).

Definition allocate_tree_node (data : ptr) : M heap ptr := Memory_alloc (BTNode data NULL NULL).
Definition free_tree_node (p_btnode : ptr) : M heap unit := Memory_free p_btnode.

Definition BinTree_new : ptr := NULL.
Definition BinTree_is_empty (btree : ptr) : bool := bool_decide (btree = NULL).

(** The value of [*p_btree] before the call is an argument, and the value after
    the call is the result. *)
Definition BinTree_make_root (p_btree data left right : ptr) : M heap ptr :=
  (if negb (BinTree_is_empty p_btree) then REQUIRE false else mret tt);;
  p ← allocate_tree_node data;
  set_LEFT p left;;
  set_RIGHT p right;;
  mret p.

(** [if (result) result = m;] *)
Definition and_if (result : bool) (m : M heap bool) : M heap bool :=
  if result then m else mret result.

Fixpoint preorder_traverse (fuel : nat) (btree : ptr) (apply_fn : option (ptr → M heap bool)) : M heap bool :=
  match fuel with
  | O => nofuel
  | S fuel =>
      REQUIRE (is_fn apply_fn);;
      if BinTree_is_empty btree then mret true
      else
        result ← (d ← DATA btree; call apply_fn d);
        result ← and_if result (l ← LEFT btree; preorder_traverse fuel l apply_fn);
        and_if result (r ← RIGHT btree; preorder_traverse fuel r apply_fn)
  end.

Fixpoint inorder_traverse (fuel : nat) (btree : ptr) (apply_fn : option (ptr → M heap bool)) : M heap bool :=
  match fuel with
  | O => nofuel
  | S fuel =>
      REQUIRE (is_fn apply_fn);;
      if BinTree_is_empty btree then mret true
      else
        result ← (l ← LEFT btree; inorder_traverse fuel l apply_fn);
        result ← and_if result (d ← DATA btree; call apply_fn d);
        and_if result (r ← RIGHT btree; inorder_traverse fuel r apply_fn)
  end.

Fixpoint postorder_traverse (fuel : nat) (btree : ptr) (apply_fn : option (ptr → M heap bool)) : M heap bool :=
  match fuel with
  | O => nofuel
  | S fuel =>
      REQUIRE (is_fn apply_fn);;
      if BinTree_is_empty btree then mret true
      else
        result ← (l ← LEFT btree; postorder_traverse fuel l apply_fn);
        result ← and_if result (r ← RIGHT btree; postorder_traverse fuel r apply_fn);
        and_if result (d ← DATA btree; call apply_fn d)
  end.

(** [None] is a value of [order] that is not one of the enumerators. *)
Definition BinTree_traverse (fuel : nat) (btree : ptr) (apply_fn : option (ptr → M heap bool))
    (order : option order_et) : M heap bool :=
  match order with
  | Some PRE_ORDER => preorder_traverse fuel btree apply_fn
  | Some IN_ORDER => inorder_traverse fuel btree apply_fn
  | Some POST_ORDER => postorder_traverse fuel btree apply_fn
  | None => REQUIRE false;; mret false
  end.

(** [&LEFT( *p_btree)] is a field of the node, which the recursive call sets to
    [NULL] when it freed the child. *)
Fixpoint BinTree_destroy (fuel : nat) (p_btree : ptr) (free_data_fn : option (ptr → M heap unit)) : M heap ptr :=
  match fuel with
  | O => nofuel
  | S fuel =>
      if negb (BinTree_is_empty p_btree) then
        l ← LEFT p_btree;
        l ← BinTree_destroy fuel l free_data_fn;
        set_LEFT p_btree l;;
        r ← RIGHT p_btree;
        r ← BinTree_destroy fuel r free_data_fn;
        set_RIGHT p_btree r;;
        (if is_fn free_data_fn then d ← DATA p_btree; call free_data_fn d else mret tt);;
        free_tree_node p_btree;;
        mret NULL
      else mret p_btree
  end.

Definition BinTree_free (fuel : nat) (p_btree : ptr) : M heap ptr := BinTree_destroy fuel p_btree None.
End bintree_operations.

(** * The trees they represent *)

Inductive tree := Leaf | Branch (d : ptr) (l r : tree).

Fixpoint height (t : tree) : nat :=
  match t with Leaf => 0 | Branch _ l r => S (max (height l) (height r)) end.

(** The data in the order in which they are visited. *)
Fixpoint preorder (t : tree) : list ptr :=
  match t with Leaf => [] | Branch d l r => [d] ++ preorder l ++ preorder r end.
Fixpoint inorder (t : tree) : list ptr :=
  match t with Leaf => [] | Branch d l r => inorder l ++ [d] ++ inorder r end.
Fixpoint postorder (t : tree) : list ptr :=
  match t with Leaf => [] | Branch d l r => postorder l ++ postorder r ++ [d] end.

Definition in_order (o : order_et) : tree → list ptr :=
  match o with PRE_ORDER => preorder | IN_ORDER => inorder | POST_ORDER => postorder end.

Section bintree_specs.
Context {N : Type} `{!Struct btnode N} {MA : Malloc}.

Fixpoint is_btree (p : ptr) (t : tree) : hpropI N :=
  match t with
  | Leaf => ⌈p = NULL⌉
  | Branch d tl tr => ∃ k l r, ⌈p = Some k⌉ ∗ k ↦ BTNode d l r ∗ is_btree l tl ∗ is_btree r tr
  end%I.

Lemma BinTree_make_root_spec d l r tl tr :
  ⦃ is_btree l tl ∗ is_btree r tr ⦄ BinTree_make_root NULL d l r
  ⦃ p, is_btree p (Branch d tl tr) | e, ⌈e = Memory_Failed⌉ ∗ is_btree l tl ∗ is_btree r tr ⦄.
Proof.
  unfold hoare, BinTree_make_root. iIntros "[Hl Hr]". wp_focus. iApply wp_ret.
  wp_focus. unfold allocate_tree_node. iApply wp_alloc. iSplit; [|hfin]. iIntros (k) "Hk".
  iEval (unfold set_LEFT). wp_focus. wp_load "Hk". iApply (wp_store with "Hk"). iIntros "Hk".
  iEval (unfold set_RIGHT). wp_focus. wp_load "Hk". iApply (wp_store with "Hk"). iIntros "Hk".
  wp_finish. simpl. iExists k, l, r. hfin.
Qed.

(** ** Traversals *)

Section walk.
Context (f : ptr → M (gmap loc N) bool) (I J : list ptr → hpropI N) (all : list ptr).

(** The callback, on the data of [all] in order, goes from [I] to [I] when it
    asks to go on, and to [J] when it asks to stop. *)
Definition visits : Prop := ∀ done d rest, all = done ++ d :: rest →
  ⦃ I done ⦄ f d ⦃ b, if b then I (done ++ [d]) else J (done ++ [d]) ⦄.
Hypothesis Hf : visits.

Definition stopped : hpropI N := ∃ done rest, ⌈all = done ++ rest⌉ ∗ J done.

(** [m] visits the segment [xs] of [all], and keeps [P]. *)
Definition walks (P : hpropI N) (m : M (gmap loc N) bool) (xs : list ptr) : Prop :=
  ∀ done rest, all = done ++ xs ++ rest →
    ⦃ P ∗ I done ⦄ m ⦃ b, P ∗ if b then I (done ++ xs) else stopped ⦄.

Lemma walks_seq P m1 m2 xs ys :
  walks P m1 xs → walks P m2 ys → walks P (result ← m1; and_if result m2) (xs ++ ys).
Proof.
  intros H1 H2 done rest Hall. unfold hoare. iIntros "H". wp_focus.
  iApply (hoare_wp_ret with "H"); [apply (H1 done (ys ++ rest)); by rewrite Hall -app_assoc|].
  iIntros ([|]) "[HP HI]"; simpl.
  - rewrite app_assoc. iApply (hoare_wp_ret with "[HP HI]"); [apply (H2 (done ++ xs) rest)|iFrame|].
    + by rewrite Hall -!app_assoc.
    + by iIntros (b) "$".
  - wp_finish. iFrame.
Qed.

(** The body of the three traversals at a node. *)
Lemma walks_node P k m1 m2 m3 xs ys zs :
  walks P m1 xs → walks P m2 ys → walks P m3 zs →
  walks P (REQUIRE (is_fn (Some f));;
           if BinTree_is_empty (Some k) then mret true
           else result ← m1; result ← and_if result m2; and_if result m3) (xs ++ ys ++ zs).
Proof.
  intros H1 H2 H3 done rest Hall. rewrite (app_assoc xs) in Hall |- *.
  pose proof (walks_seq P _ m3 _ zs (walks_seq P m1 m2 xs ys H1 H2) H3 done rest Hall) as H.
  unfold hoare in *. etrans; [exact H|]. apply wp_equiv. intros s. symmetry.
  exact (M_bind_assoc m1 (λ r, and_if r m2) (λ r, and_if r m3) s).
Qed.

Lemma walks_data k n Q : walks (k ↦ n ∗ Q) (d ← DATA (Some k); call (Some f) d) [datapointer n].
Proof.
  intros done rest Hall. unfold hoare, DATA. iIntros "[[Hk HQ] HI]". wp_focus. wp_load "Hk".
  iApply (hoare_wp_ret with "HI"); [by eapply Hf|]. iIntros ([|]) "HI"; [iFrame|].
  iFrame "Hk HQ". iExists _, rest. iFrame. iPureIntro. by rewrite Hall -app_assoc.
Qed.

(** The child of a node is read, and its subtree is walked. *)
Lemma walks_child k (n : btnode) child q t Q m xs :
  (∀ Φ Ψ, k ↦ n -∗ (k ↦ n -∗ Φ q) -∗ wp (child (Some k)) Φ Ψ) →
  walks (is_btree q t) (m q) xs →
  walks (k ↦ n ∗ is_btree q t ∗ Q) (c ← child (Some k); m c) xs.
Proof.
  intros Hc Hm done rest Hall. unfold hoare. iIntros "[(Hk & Ht & HQ) HI]".
  wp_focus. iApply (Hc with "Hk"). iIntros "Hk".
  iApply (hoare_wp_ret with "[Ht HI]"); [by eapply Hm|iFrame|]. iIntros (b) "[$ $]". iFrame.
Qed.

Lemma walks_equiv P P' m xs : P ⊣⊢ P' → walks P' m xs → walks P m xs.
Proof.
  intros HP Hm done rest Hall. 
  eapply hoare_conseq; [by eapply Hm| | |done]; intros; by rewrite HP.
Qed.

Lemma walks_left k d l r tl tr m xs :
  walks (is_btree l tl) (m l) xs →
  walks (k ↦ BTNode d l r ∗ is_btree l tl ∗ is_btree r tr) (c ← LEFT (Some k); m c) xs.
Proof.
  apply walks_child. iIntros (Φ Ψ) "Hk H". unfold LEFT. wp_load "Hk". by iApply "H".
Qed.

Lemma walks_right k d l r tl tr m xs :
  walks (is_btree r tr) (m r) xs →
  walks (k ↦ BTNode d l r ∗ is_btree l tl ∗ is_btree r tr) (c ← RIGHT (Some k); m c) xs.
Proof.
  intros H. eapply walks_equiv; [|eapply (walks_child _ (BTNode d l r)), H].
  - by rewrite (comm _ (is_btree l tl)).
  - iIntros (Φ Ψ) "Hk H". unfold RIGHT. wp_load "Hk". by iApply "H".
Qed.
Lemma walks_branch p d tl tr m xs :
  (∀ k l r, p = Some k →
    walks (k ↦ BTNode d l r ∗ is_btree l tl ∗ is_btree r tr) m xs) →
  walks (is_btree p (Branch d tl tr)) m xs.
Proof.
  intros Hm done rest Hall. unfold hoare. iIntros "[(%k & %l & %r & -> & H) HI]".
  iApply (hoare_wp_ret with "[H HI]"); [by eapply (Hm k l r)|iFrame|].
  iIntros (b) "[H $]". hfin.
Qed.

Lemma walks_leaf p m : (p = NULL → m = mret true) → walks (is_btree p Leaf) m [].
Proof.
  intros Hm done rest Hall. unfold hoare. iIntros "[-> HI]". rewrite Hm //.
  iApply wp_ret. rewrite app_nil_r. hfin.
Qed.

Lemma preorder_walks fuel p t :
  height t < fuel → walks (is_btree p t) (preorder_traverse fuel p (Some f)) (preorder t).
Proof.
  revert p t. induction fuel as [|fuel IH]; intros p [|d tl tr] Hh; simpl in Hh; [lia|lia|by apply walks_leaf; intros ->|].
  apply walks_branch. intros k l r ->.
  cbn [preorder_traverse]. apply walks_node.
  - apply (walks_data k (BTNode d l r)).
  - apply walks_left, IH. lia.
  - apply walks_right, IH. lia.
Qed.

Lemma inorder_walks fuel p t :
  height t < fuel → walks (is_btree p t) (inorder_traverse fuel p (Some f)) (inorder t).
Proof.
  revert p t. induction fuel as [|fuel IH]; intros p [|d tl tr] Hh; simpl in Hh; [lia|lia|by apply walks_leaf; intros ->|].
  apply walks_branch. intros k l r ->.
  cbn [inorder_traverse]. apply walks_node.
  - apply walks_left, IH. lia.
  - apply (walks_data k (BTNode d l r)).
  - apply walks_right, IH. lia.
Qed.

Lemma postorder_walks fuel p t :
  height t < fuel → walks (is_btree p t) (postorder_traverse fuel p (Some f)) (postorder t).
Proof.
  revert p t. induction fuel as [|fuel IH]; intros p [|d tl tr] Hh; simpl in Hh; [lia|lia|by apply walks_leaf; intros ->|].
  apply walks_branch. intros k l r ->.
  cbn [postorder_traverse]. apply walks_node.
  - apply walks_left, IH. lia.
  - apply walks_right, IH. lia.
  - apply (walks_data k (BTNode d l r)).
Qed.
End walk.

(** in each of the three orders, the callback is applied to the data of the
    tree in that order until it returns [false], and the result says whether it
    was applied to all of them; the tree is unchanged. *)
Theorem BinTree_traverse_correct fuel p t f I J o :
  height t < fuel → visits f I J (in_order o t) →
  ⦃ is_btree p t ∗ I [] ⦄ BinTree_traverse fuel p (Some f) (Some o)
  ⦃ b, is_btree p t ∗ if b then I (in_order o t) else stopped J (in_order o t) ⦄.
Proof.
  intros Hh Hf.
  assert (walks I J (in_order o t) (is_btree p t) (BinTree_traverse fuel p (Some f) (Some o)) (in_order o t)) as Hw.
  { destruct o; [by apply preorder_walks|by apply inorder_walks|by apply postorder_walks]. }
  apply (Hw [] []). by rewrite app_nil_r.
Qed.

(** What [BinTree_destroy] does with one datum. *)
Definition free_datum (free_data_fn : option (ptr → M (gmap loc N) unit)) (d : ptr) : M (gmap loc N) unit :=
  match free_data_fn with Some f => f d | None => mret tt end.

(** A missing callback and an unknown order are rejected. *)
Lemma BinTree_traverse_errors fuel p (f : option (ptr → M (gmap loc N) bool)) o :
  (f = None ∨ o = None) →
  ⦃ emp ⦄ BinTree_traverse (S fuel) p f o ⦃ _b, False | e, ⌈e = Precondition_Failed⌉ ⦄.
Proof.
  intros H. unfold hoare. iIntros "_". destruct o as [o|].
  - destruct H as [->|]; [|done]. destruct o; simpl; wp_focus; by iApply wp_throw.
  - simpl. wp_focus. by iApply wp_throw.
Qed.

Lemma free_datum_spec k n f (I : list ptr → hpropI N) done :
  ⦃ I done ⦄ free_datum f (datapointer n) ⦃ _u, I (done ++ [datapointer n]) ⦄ →
  ⦃ k ↦ n ∗ I done ⦄
    (if is_fn f then d ← DATA (Some k); call f d else mret tt)
  ⦃ _u, k ↦ n ∗ I (done ++ [datapointer n]) ⦄.
Proof.
  unfold hoare. iIntros (Hf) "[Hk HI]". destruct f as [f|]; simpl in *.
  - unfold DATA. wp_focus. wp_load "Hk". iApply (hoare_wp_ret with "HI"); [exact Hf|]. iIntros ([]) "$". iFrame.
  - iApply (hoare_wp_ret with "HI"); [exact Hf|]. iIntros ([]) "$". iFrame.
Qed.

Lemma BinTree_destroy_from fuel p t f (I : list ptr → hpropI N) all done rest :
  height t < fuel → all = done ++ postorder t ++ rest →
  (∀ done d rest, all = done ++ d :: rest → ⦃ I done ⦄ free_datum f d ⦃ _u, I (done ++ [d]) ⦄) →
  ⦃ is_btree p t ∗ I done ⦄ BinTree_destroy fuel p f ⦃ q, ⌈q = NULL⌉ ∗ I (done ++ postorder t) ⦄.
Proof.
  unfold hoare. iInduction fuel as [|fuel] "IH" forall (p t done rest); iIntros (Hh Hall Hf) "[Ht HI]"; [lia|].
  cbn [BinTree_destroy]. unfold BinTree_is_empty. destruct t as [|d tl tr]; simpl in *.
  - iDestruct "Ht" as "->". rewrite bool_decide_true //. simpl negb. cbv iota. wp_finish. rewrite app_nil_r. hfin.
  - iDestruct "Ht" as (k l r ->) "(Hk & Hl & Hr)". rewrite bool_decide_false //. simpl negb. cbv iota.
    unfold LEFT, RIGHT, DATA, set_LEFT, set_RIGHT. wp_focus. wp_load "Hk". simpl.
    wp_focus. iApply (wp_wand with "[Hl HI]").
    { iApply ("IH" $! l tl done with "[%] [%] [//] [$]"); [lia|]. by rewrite Hall -app_assoc. }
    iSplit; [|by iIntros (e) "[]"]. iIntros (q) "[-> HI]".
    wp_load "Hk". wp_store "Hk". wp_load "Hk". simpl.
    wp_focus. iApply (wp_wand with "[Hr HI]").
    { iApply ("IH" $! r tr (done ++ postorder tl) with "[%] [%] [//] [$]"); [lia|]. by rewrite Hall -!app_assoc. }
    iSplit; [|by iIntros (e) "[]"]. iIntros (q) "[-> HI]".
    wp_load "Hk". wp_store "Hk". simpl.
    wp_focus. rewrite -(app_assoc done).
    iApply (hoare_wp_ret with "[Hk HI]").
    { apply (free_datum_spec k (BTNode d NULL NULL) f I (done ++ postorder tl ++ postorder tr)); simpl.
      apply (Hf _ d rest). by rewrite Hall -!app_assoc. }
    { iFrame. }
    iIntros ([]) "[Hk HI]". unfold free_tree_node. wp_free "Hk". rewrite -!app_assoc. by iFrame.
Qed.

(** C35: destroying a tree applies the given function, if any, to every datum in
    postorder and frees every node. *)
Theorem BinTree_destroy_correct fuel p t f (I : list ptr → hpropI N) :
  height t < fuel →
  (∀ done d rest, postorder t = done ++ d :: rest → ⦃ I done ⦄ free_datum f d ⦃ _u, I (done ++ [d]) ⦄) →
  ⦃ is_btree p t ∗ I [] ⦄ BinTree_destroy fuel p f ⦃ q, ⌈q = NULL⌉ ∗ I (postorder t) ⦄.
Proof. intros Hh Hf. apply (BinTree_destroy_from fuel p t f I (postorder t) [] []); [done| |done]. by rewrite app_nil_r. Qed.
End bintree_specs.

(** A tree of three nodes. *)
Definition three : tree :=
  Branch (Some 1%positive) (Branch (Some 2%positive) Leaf Leaf) (Branch (Some 3%positive) Leaf Leaf).

Lemma BinTree_traverse_correct_witness :
  height three < 3 ∧
  ⦃ is_btree (N := btnode) (Some 7%positive) three ∗ emp ⦄
    BinTree_traverse 3 (Some 7%positive) (Some (λ d, mret (bool_decide (d ≠ Some 1%positive)))) (Some IN_ORDER)
  ⦃ b, is_btree (Some 7%positive) three ∗
       if b then emp else stopped (λ _, emp)%I [Some 2%positive; Some 1%positive; Some 3%positive] ⦄.
Proof.
  assert (height three < 3) as Hh by (simpl; lia). split; [exact Hh|].
  apply (BinTree_traverse_correct (N := btnode) 3 (Some 7%positive) three
    (λ d, mret (bool_decide (d ≠ Some 1%positive))) (λ _, emp)%I (λ _, emp)%I IN_ORDER Hh).
  intros done d rest _. unfold hoare. iIntros "_". iApply wp_ret. by case_bool_decide.
Defined.

Lemma BinTree_destroy_correct_witness :
  height three < 3 ∧
  ⦃ is_btree (N := btnode) (Some 7%positive) three ∗ emp ⦄
    BinTree_free 3 (Some 7%positive) ⦃ q, ⌈q = NULL⌉ ∗ emp ⦄.
Proof.
  assert (height three < 3) as Hh by (simpl; lia). split; [exact Hh|].
  apply (BinTree_destroy_correct (N := btnode) 3 (Some 7%positive) three None (λ _, emp)%I Hh).
  intros done d rest _. unfold hoare. iIntros "_". by iApply wp_ret.
Defined.
