(* ===== verification/MinMax.v ===== *)
(** The divide-and-conquer search of src/libs/algorithms/minmax.c for the least
    and the greatest element of an array of [int]. *)
From S2P Require Export Prelude.
Local Open Scope Z_scope.

(** [numlist[i]]: reading outside the array is undefined. *)
Definition numlist_get (numlist : list Z) (i : nat) : option Z := numlist !! i.

(** The two out parameters are the result; the recursive calls use the caller's
    for the first half and locals for the second.  [fuel] bounds the depth of
    the recursion, and [numlist + n / 2] is the array from that index on. *)
Fixpoint minmax {S} (fuel : nat) (numlist : list Z) (n : Z) : M S (Z * Z) :=
  match fuel with
  | O => nofuel
  | Datatypes.S fuel =>
      REQUIRE (bool_decide (n > 0));;
      if bool_decide (n = 1) then
        a ← defined (numlist_get numlist 0);
        mret (a, a)
      else if bool_decide (n = 2) then
        a ← defined (numlist_get numlist 0);
        b ← defined (numlist_get numlist 1);
        mret (if bool_decide (a < b) then (a, b) else (b, a))
      else
        '(min1, max1) ← minmax fuel numlist (Z.quot n 2);
        '(min2, max2) ← minmax fuel (drop (Z.to_nat (Z.quot n 2)) numlist) (n - Z.quot n 2);
        let min1 := if bool_decide (min2 < min1) then min2 else min1 in
        let max1 := if bool_decide (max2 > max1) then max2 else max1 in
        mret (min1, max1)
  end.

(** The least and the greatest element of a list. *)
Definition is_min (m : Z) (xs : list Z) : Prop := m ∈ xs ∧ Forall (λ x, m ≤ x) xs.
Definition is_max (m : Z) (xs : list Z) : Prop := m ∈ xs ∧ Forall (λ x, x ≤ m) xs.

Lemma is_min_app a b xs ys :
  is_min a xs → is_min b ys → is_min (if bool_decide (b < a) then b else a) (xs ++ ys).
Proof.
  unfold is_min. rewrite !elem_of_app !Forall_app !Forall_forall. intros [Ha Hx] [Hb Hy].
  case_bool_decide; (split; [tauto|]); split; intros z Hz;
    specialize (Hx z); specialize (Hy z); first [apply Hx in Hz|apply Hy in Hz]; lia.
Qed.

Lemma is_max_app a b xs ys :
  is_max a xs → is_max b ys → is_max (if bool_decide (b > a) then b else a) (xs ++ ys).
Proof.
  unfold is_max. rewrite !elem_of_app !Forall_app !Forall_forall. intros [Ha Hx] [Hb Hy].
  case_bool_decide; (split; [tauto|]); split; intros z Hz;
    specialize (Hx z); specialize (Hy z); first [apply Hx in Hz|apply Hy in Hz]; lia.
Qed.

Lemma half_length {A} (xs : list A) :
  Z.quot (Z.of_nat (length xs)) 2 = Z.of_nat (Nat.div2 (length xs)).
Proof. by rewrite Z.quot_div_nonneg ?Nat.div2_div ?Nat2Z.inj_div; lia. Qed.

(** on an array of at least [n] elements, with [n] positive, the search
    returns the least and the greatest of the first [n]; [n] levels of recursion
    are enough, and nothing outside the array is read. *)
Theorem minmax_correct {S} fuel xs ys (σ : S) :
  xs ≠ [] → (length xs ≤ fuel)%nat →
  ∃ lo hi, minmax fuel (xs ++ ys) (Z.of_nat (length xs)) σ = Ret (lo, hi) σ ∧
    is_min lo xs ∧ is_max hi xs.
Proof.
  revert xs ys. induction fuel as [|fuel IH]; intros xs ys Hne Hf.
  { destruct xs; simpl in *; [done|lia]. }
  destruct xs as [|a [|b [|c xs]]]; [done|..].
  - exists a, a. split; [reflexivity|]. split; (split; [apply list_elem_of_here|repeat constructor; lia]).
  - exists (if bool_decide (a < b) then a else b), (if bool_decide (a < b) then b else a).
    split; [trans ((mret (if bool_decide (a < b) then (a, b) else (b, a)) : M S _) σ); [done|by case_bool_decide]|].
    unfold is_min, is_max.
    case_bool_decide; (split; (split; [rewrite !elem_of_cons; tauto|repeat constructor; lia])).
  - remember (a :: b :: c :: xs) as zs eqn:Hz. assert (3 ≤ length zs)%nat as Hlen by (subst; simpl; lia).
    clear Hz a b c xs Hne. cbn [minmax].
    rewrite (bool_decide_true (Z.of_nat (length zs) > 0)); [|lia].
    rewrite (bool_decide_false (Z.of_nat (length zs) = 1)); [|lia].
    rewrite (bool_decide_false (Z.of_nat (length zs) = 2)); [|lia].
    rewrite half_length Nat2Z.id. set (k := Nat.div2 (length zs)).
    pose proof (Nat.div2_odd (length zs)) as Hk. fold k in Hk.
    assert (1 ≤ k < length zs)%nat as Hk1 by (destruct (Nat.odd _); simpl in Hk; lia). clear Hk.
    pose proof (length_take_le zs k ltac:(lia)) as Ht. pose proof (length_drop zs k) as Hd.
    rewrite drop_app_le; [|lia].
    destruct (IH (take k zs) (drop k zs ++ ys)) as (lo1 & hi1 & E1 & Hlo1 & Hhi1);
      [by intros E; rewrite E /= in Ht; lia|lia|].
    destruct (IH (drop k zs) ys) as (lo2 & hi2 & E2 & Hlo2 & Hhi2);
      [by intros E; rewrite E /= in Hd; lia|lia|].
    rewrite app_assoc take_drop Ht in E1. rewrite Hd in E2.
    exists (if bool_decide (lo2 < lo1) then lo2 else lo1), (if bool_decide (hi2 > hi1) then hi2 else hi1).
    split; [|rewrite -(take_drop k zs); split; [by apply is_min_app|by apply is_max_app]].
    unfold REQUIRE. run. rewrite (M_bind_Ret _ _ _ _ _ E1).
    replace (Z.of_nat (length zs) - Z.of_nat k) with (Z.of_nat (length zs - k)) by lia.
    by rewrite (M_bind_Ret _ _ _ _ _ E2).
Qed.

Lemma minmax_correct_witness :
  [3; -1; 7; 2; 5] ≠ [] ∧
  ∃ lo hi, minmax 5 [3; -1; 7; 2; 5; 100] 5 tt = Ret (lo, hi) tt ∧
    is_min lo [3; -1; 7; 2; 5] ∧ is_max hi [3; -1; 7; 2; 5].
Proof.
  split; [discriminate|].
  apply (minmax_correct 5 [3; -1; 7; 2; 5] [100] tt); [discriminate|simpl; lia].
Defined.
