(* ===== verification/AtomTable.v ===== *)
(** The atoms of src/libs/lang/atom.c: strings that are kept once, in a hash
    table with chaining, so that equal strings have equal addresses. *)
From S2P Require Export HeapLogic.

(** [struct atom].  The block also holds the bytes of the string, so the address
    [p->str] is modelled by the address of the atom. *)
Record atom := Atom { link : ptr; len : Z; str : list Z }.

(** The global array [buckets], and the table of random numbers. *)
Record bucket_array := Buckets { heads : list ptr }.
Definition num_buckets : nat := 2048.

Definition scatter : list Z :=
  [2078917053; 143302914; 1027100827; 1953210302; 755253631; 2002600785; 1405390230; 45248011;
    1099951567; 433832350; 2018585307; 438263339; 813528929; 1703199216; 618906479; 573714703;
    766270699; 275680090; 1510320440; 1583583926; 1723401032; 1965443329; 1098183682;
    1636505764; 980071615; 1011597961; 643279273; 1315461275; 157584038; 1069844923; 471560540;
    89017443; 1213147837; 1498661368; 2042227746; 1968401469; 1353778505; 1300134328;
    2013649480; 306246424; 1733966678; 1884751139; 744509763; 400011959; 1440466707; 1363416242;
    973726663; 59253759; 1639096332; 336563455; 1642837685; 1215013716; 154523136; 593537720;
    704035832; 1134594751; 1605135681; 1347315106; 302572379; 1762719719; 269676381; 774132919;
    1851737163; 1482824219; 125310639; 1746481261; 1303742040; 1479089144; 899131941;
    1169907872; 1785335569; 485614972; 907175364; 382361684; 885626931; 200158423; 1745777927;
    1859353594; 259412182; 1237390611; 48433401; 1902249868; 304920680; 202956538; 348303940;
    1008956512; 1337551289; 1953439621; 208787970; 1640123668; 1568675693; 478464352; 266772940;
    1272929208; 1961288571; 392083579; 871926821; 1117546963; 1871172724; 1771058762; 139971187;
    1509024645; 109190086; 1047146551; 1891386329; 994817018; 1247304975; 1489680608; 706686964;
    1506717157; 579587572; 755120366; 1261483377; 884508252; 958076904; 1609787317; 1893464764;
    148144545; 1415743291; 2102252735; 1788268214; 836935336; 433233439; 2055041154; 2109864544;
    247038362; 299641085; 834307717; 1364585325; 23330161; 457882831; 1504556512; 1532354806;
    567072918; 404219416; 1276257488; 1561889936; 1651524391; 618454448; 121093252; 1010757900;
    1198042020; 876213618; 124757630; 2082550272; 1834290522; 1734544947; 1828531389;
    1982435068; 1002804590; 1783300476; 1623219634; 1839739926; 69050267; 1530777140;
    1802120822; 316088629; 1830418225; 488944891; 1680673954; 1853748387; 946827723; 1037746818;
    1238619545; 1513900641; 1441966234; 367393385; 928306929; 946006977; 985847834; 1049400181;
    1956764878; 36406206; 1925613800; 2081522508; 2118956479; 1612420674; 1668583807;
    1800004220; 1447372094; 523904750; 1435821048; 923108080; 216161028; 1504871315; 306401572;
    2018281851; 1820959944; 2136819798; 359743094; 1354150250; 1843084537; 1306570817;
    244413420; 934220434; 672987810; 1686379655; 1301613820; 1601294739; 484902984; 139978006;
    503211273; 294184214; 176384212; 281341425; 228223074; 147857043; 1893762099; 1896806882;
    1947861263; 1193650546; 273227984; 1236198663; 2116758626; 489389012; 593586330; 275676551;
    360187215; 267062626; 265012701; 719930310; 1621212876; 2108097238; 2026501127; 1865626297;
    894834024; 552005290; 1404522304; 48964196; 5816381; 1889425288; 188942202; 509027654;
    36125855; 365326415; 790369079; 264348929; 513183458; 536647531; 13672163; 313561074;
    1730298077; 286900147; 1549759737; 1699573055; 776289160; 2143346068; 1975249606;
    1136476375; 262925046; 92778659; 1856406685; 1884137923; 53392249; 1735424165; 1602280572]%Z.

(** * The operations *)

Section atom_operations.
Context {N : Type} `{!Struct atom N, !Struct bucket_array N} {MA : Malloc}.
Context (buckets : ptr).
Abbreviation heap := (gmap loc N).

Definition bucket_get (h : Z) : M heap ptr :=
  b ← load buckets; defined (heads b !! Z.to_nat h).
Definition bucket_set (h : Z) (p : ptr) : M heap unit :=
  b ← load buckets;
  if bool_decide (Z.to_nat h < length (heads b))
  then store buckets (Buckets (<[Z.to_nat h := p]> (heads b))) else undef.

(** [h] is an [unsigned long]; a byte of [str] is read as an [unsigned char]. *)
Definition hash_loop (fuel : nat) (str : list Z) (len : Z) : M heap Z :=
  loop fuel (λ '(h, i),
    if bool_decide (Z.of_nat i < len)%Z then
      c ← defined (str !! i);
      s ← defined (scatter !! Z.to_nat (wrap_u 8 c));
      mret (inl (wrap_u 64 (wrap_u 64 (Z.shiftl h 1) + s), S i))
    else mret (inr h)) (0%Z, 0).

(** The number of leading bytes, out of [len], in which two strings agree. *)
Definition compare_loop (fuel : nat) (s1 s2 : list Z) (len : Z) : M heap nat :=
  loop fuel (λ i,
    if bool_decide (Z.of_nat i < len)%Z then
      c ← defined (s1 !! i);
      d ← defined (s2 !! i);
      mret (if bool_decide (c = d) then inl (S i) else inr i)
    else mret (inr i)) 0.

(** The search along a chain. *)
Definition find_body (s : list Z) (n : Z) (p : ptr) : M heap (ptr + ptr) :=
  if bool_decide (p = NULL) then mret (inr NULL)
  else
    a ← load p;
    if bool_decide (n = len a) then
      i ← compare_loop (S (Z.to_nat n)) (str a) s n;
      if bool_decide (Z.of_nat i = n) then mret (inr p) else mret (inl (link a))
    else mret (inl (link a)).
Definition find_loop (fuel : nat) (s : list Z) (n : Z) (p : ptr) : M heap ptr :=
  loop fuel (find_body s n) p.

(** [s] is the bytes at the address [str], which is not [NULL]. *)
Definition Atom_new (fuel : nat) (s : list Z) (n : Z) : M heap ptr :=
  REQUIRE (bool_decide (n > 0)%Z);;
  h ← hash_loop (S (Z.to_nat n)) s n;
  let h := Z.land h (Z.of_nat num_buckets - 1) in
  b ← bucket_get h;
  p ← find_loop fuel s n b;
  if negb (bool_decide (p = NULL)) then mret p
  else
    p ← Memory_alloc (Atom NULL n (take (Z.to_nat n) s ++ [0%Z]));
    b ← bucket_get h;
    store p (Atom b n (take (Z.to_nat n) s ++ [0%Z]));;
    bucket_set h p;;
    mret p.

(** The bytes of a C string up to its terminator, when it has one. *)
Fixpoint strlen (s : list Z) : option Z :=
  match s with
  | [] => None
  | c :: s => if bool_decide (c = 0%Z) then Some 0%Z else (λ n, n + 1)%Z <$> strlen s
  end.

Definition Atom_string (fuel : nat) (s : list Z) : M heap ptr :=
  n ← defined (strlen s);
  Atom_new fuel s n.

(** The search along a chain for an address, and along the chains. *)
Definition length_body (s p : ptr) : M heap (ptr + option Z) :=
  if bool_decide (p = NULL) then mret (inr None)
  else
    a ← load p;
    if bool_decide (p = s) then mret (inr (Some (len a))) else mret (inl (link a)).
Definition chains_body (fuel : nat) (s : ptr) (i : nat) : M heap (nat + option Z) :=
  if bool_decide (i < num_buckets) then
    p ← bucket_get (Z.of_nat i);
    r ← loop fuel (length_body s) p;
    match r with
    | Some n => mret (inr (Some n))
    | None => mret (inl (S i))
    end
  else mret (inr None).

Definition Atom_length (fuel : nat) (s : ptr) : M heap Z :=
  REQUIRE (negb (bool_decide (s = NULL)));;
  r ← loop (S num_buckets) (chains_body fuel s) 0;
  match r with
  | Some n => mret n
  | None => ASSERT false;; mret 0%Z
  end.
End atom_operations.

(** * The loops over the bytes *)

Definition hash_step (h c : Z) : Z :=
  wrap_u 64 (wrap_u 64 (Z.shiftl h 1) + scatter !!! Z.to_nat (wrap_u 8 c)).
Definition hash_of (s : list Z) : Z := foldl hash_step 0%Z s.

(** The index of the chain of a string. *)
Definition bucket (s : list Z) : nat := Z.to_nat (Z.land (hash_of s) (Z.of_nat num_buckets - 1)).

Lemma scatter_lookup c : scatter !! Z.to_nat (wrap_u 8 c) = Some (scatter !!! Z.to_nat (wrap_u 8 c)).
Proof.
  apply list_lookup_lookup_total_lt. pose proof (wrap_u_range 8 c ltac:(lia)) as [H1 H2].
  change (length scatter) with 256. lia.
Qed.

Lemma bucket_lt s : bucket s < num_buckets.
Proof.
  unfold bucket, num_buckets. change (Z.of_nat 2048 - 1)%Z with (Z.ones 11).
  rewrite Z.land_ones; [|lia]. pose proof (Z.mod_pos_bound (hash_of s) (2 ^ 11)). lia.
Qed.

Lemma bucket_Z s : Z.to_nat (Z.land (hash_of s) (Z.of_nat num_buckets - 1)) = bucket s.
Proof. done. Qed.

Section atom_loops.
Context {N : Type}.
Implicit Types σ : gmap loc N.

Lemma hash_loop_run s rest σ :
  hash_loop (S (length s)) (s ++ rest) (Z.of_nat (length s)) σ = Ret (hash_of s) σ.
Proof.
  unfold hash_loop.
  assert (∀ fuel h i, length s < i + fuel → i ≤ length s →
    loop fuel (λ '(h, i),
      if bool_decide (Z.of_nat i < Z.of_nat (length s))%Z then
        c ← defined ((s ++ rest) !! i);
        x ← defined (scatter !! Z.to_nat (wrap_u 8 c));
        mret (inl (wrap_u 64 (wrap_u 64 (Z.shiftl h 1) + x), S i))
      else mret (inr h)) (h, i) σ = Ret (foldl hash_step h (drop i s)) σ) as H.
  { induction fuel as [|fuel IH]; intros h i Hf Hi; [lia|]. rewrite run_loop. cbv beta iota.
    case_bool_decide as Hlt.
    - destruct (lookup_lt_is_Some_2 s i ltac:(lia)) as [c Hc].
      rewrite (lookup_app_l_Some _ _ _ _ Hc). run. rewrite scatter_lookup. run.
      rewrite IH; [|lia..]. by rewrite (drop_S s c i Hc).
    - run. by rewrite drop_ge; [|lia]. }
  apply H; lia.
Qed.

Lemma compare_loop_run s1 s2 r1 r2 : length s1 = length s2 →
  ∃ i, (∀ σ, compare_loop (S (length s1)) (s1 ++ r1) (s2 ++ r2) (Z.of_nat (length s1)) σ = Ret i σ) ∧
    (Z.of_nat i = Z.of_nat (length s1) ↔ s1 = s2).
Proof.
  intros Hlen. unfold compare_loop.
  assert (∀ fuel i, length s1 < i + fuel → i ≤ length s1 → take i s1 = take i s2 →
    ∃ k, (∀ σ, loop fuel (λ i,
      if bool_decide (Z.of_nat i < Z.of_nat (length s1))%Z then
        c ← defined ((s1 ++ r1) !! i);
        d ← defined ((s2 ++ r2) !! i);
        mret (if bool_decide (c = d) then inl (S i) else inr i)
      else mret (inr i)) i σ = Ret k σ) ∧ (Z.of_nat k = Z.of_nat (length s1) ↔ s1 = s2)) as H.
  { induction fuel as [|fuel IH]; intros i Hf Hi Heq; [lia|]. destruct (decide (i < length s1)) as [Hlt|Hge].
    - destruct (lookup_lt_is_Some_2 s1 i ltac:(lia)) as [c Hc].
      destruct (lookup_lt_is_Some_2 s2 i ltac:(lia)) as [d Hd].
      destruct (decide (c = d)) as [->|Hcd].
      + destruct (IH (S i)) as (k & Hk & Hiff); [lia..| |].
        { by rewrite (take_S_r _ _ _ Hc) (take_S_r _ _ _ Hd) Heq. }
        exists k. split; [|done]. intros σ. rewrite run_loop bool_decide_true; [|lia].
        rewrite (lookup_app_l_Some _ _ _ _ Hc). run. rewrite (lookup_app_l_Some _ _ _ _ Hd). run.
        by rewrite bool_decide_true.
      + exists i. split; [|split; [lia|]; intros ->; congruence]. intros σ.
        rewrite run_loop bool_decide_true; [|lia].
        rewrite (lookup_app_l_Some _ _ _ _ Hc). run. rewrite (lookup_app_l_Some _ _ _ _ Hd). run.
        by rewrite bool_decide_false.
    - exists i. split; [intros σ; rewrite run_loop bool_decide_false; [done|lia]|].
      split; [|lia]. intros _. rewrite take_ge in Heq; [|lia]. rewrite take_ge in Heq; [done|lia]. }
  apply H; [lia|lia|done].
Qed.
End atom_loops.

(** * The table *)

(** The atoms of one chain, each with its string. *)
Abbreviation chain_t := (list (loc * list Z)).

Fixpoint find_atom (s : list Z) (c : chain_t) : option loc :=
  match c with
  | [] => None
  | (l, s') :: c => if decide (s' = s) then Some l else find_atom s c
  end.

Fixpoint find_string (l : loc) (c : chain_t) : option (list Z) :=
  match c with
  | [] => None
  | (l', s) :: c => if decide (l' = l) then Some s else find_string l c
  end.

(** Every string is in its own chain, and no string is there twice. *)
Record wf_table (cs : list chain_t) : Prop := {
  wf_length : length cs = num_buckets;
  wf_bucket i c l s : cs !! i = Some c → (l, s) ∈ c → bucket s = i;
  wf_strings i c : cs !! i = Some c → NoDup c.*2;
}.

(** [s] is kept at [l]. *)
Definition interned (cs : list chain_t) (l : loc) (s : list Z) : Prop :=
  ∃ c, cs !! bucket s = Some c ∧ (l, s) ∈ c.

Definition add_atom (cs : list chain_t) (l : loc) (s : list Z) : list chain_t :=
  alter (cons (l, s)) (bucket s) cs.

Lemma find_atom_Some s c l : find_atom s c = Some l → (l, s) ∈ c.
Proof.
  induction c as [|[l' s'] c IH]; simpl; [done|]. case_decide as H.
  - intros [= <-]. subst s'. by left.
  - intros Hf. right. by apply IH.
Qed.

Lemma find_atom_None s c : find_atom s c = None → s ∉ c.*2.
Proof.
  induction c as [|[l' s'] c IH]; simpl; [intros _; apply not_elem_of_nil|].
  case_decide as H; [done|]. intros Hf. rewrite not_elem_of_cons. split; [congruence|by apply IH].
Qed.

Lemma interned_fun cs l l' s : wf_table cs → interned cs l s → interned cs l' s → l = l'.
Proof.
  intros Hwf (c & Hc & Hl) (c' & Hc' & Hl'). simplify_eq.
  pose proof (wf_strings cs Hwf _ _ Hc) as Hnd.
  apply list_elem_of_lookup in Hl as [i Hi]. apply list_elem_of_lookup in Hl' as [j Hj].
  assert (i = j) as <-.
  { eapply (NoDup_lookup c.*2); [done|by rewrite list_lookup_fmap Hi|by rewrite list_lookup_fmap Hj]. }
  congruence.
Qed.

Lemma add_atom_insert cs l s c :
  cs !! bucket s = Some c → add_atom cs l s = <[bucket s := (l, s) :: c]> cs.
Proof.
  intros Hc. unfold add_atom. apply list_eq. intros i. destruct (decide (bucket s = i)) as [<-|Hne].
  - rewrite list_lookup_alter_eq Hc list_lookup_insert_eq //. by eapply lookup_lt_Some.
  - by rewrite list_lookup_alter_ne // list_lookup_insert_ne.
Qed.

Lemma interned_add cs l s : wf_table cs → interned (add_atom cs l s) l s.
Proof.
  intros Hwf. destruct (lookup_lt_is_Some_2 cs (bucket s)) as [c Hc].
  { rewrite (wf_length cs Hwf). apply bucket_lt. }
  exists ((l, s) :: c). split; [|by left]. unfold add_atom. by rewrite list_lookup_alter_eq Hc.
Qed.

Lemma interned_mono cs l s l' s' : interned cs l' s' → interned (add_atom cs l s) l' s'.
Proof.
  intros (c & Hc & Hl). unfold interned, add_atom. destruct (decide (bucket s = bucket s')) as [->|Hne].
  - exists ((l, s) :: c). rewrite list_lookup_alter_eq Hc. split; [done|by right].
  - exists c. by rewrite list_lookup_alter_ne.
Qed.

Lemma wf_add cs l s c :
  wf_table cs → cs !! bucket s = Some c → s ∉ c.*2 → wf_table (add_atom cs l s).
Proof.
  intros Hwf Hc Hs. unfold add_atom. split.
  - rewrite length_alter. apply (wf_length cs Hwf).
  - intros i c' l' s'. destruct (decide (bucket s = i)) as [<-|Hne].
    + rewrite list_lookup_alter_eq Hc. intros [= <-] [[= -> ->]|H]%elem_of_cons; [done|].
      by eapply (wf_bucket cs Hwf).
    + rewrite list_lookup_alter_ne //. by apply (wf_bucket cs Hwf).
  - intros i c'. destruct (decide (bucket s = i)) as [<-|Hne].
    + rewrite list_lookup_alter_eq Hc. intros [= <-]. simpl. apply NoDup_cons. split; [done|].
      by eapply (wf_strings cs Hwf).
    + rewrite list_lookup_alter_ne //. by apply (wf_strings cs Hwf).
Qed.

Section atom_specs.
Context {N : Type} `{!Struct atom N, !Struct bucket_array N} {MA : Malloc}.
Context (buckets : loc).

(** Every string is followed by a terminator. *)
Fixpoint is_chain (p : ptr) (c : chain_t) : hpropI N :=
  match c with
  | [] => ⌈p = NULL⌉
  | (l, s) :: c => ∃ nx, ⌈p = Some l⌉ ∗ l ↦ Atom nx (Z.of_nat (length s)) (s ++ [0%Z]) ∗ is_chain nx c
  end%I.

Definition atoms (cs : list chain_t) : hpropI N :=
  ∃ hs, ⌈wf_table cs⌉ ∗ buckets ↦ Buckets hs ∗ [∗ list] h;c ∈ hs;cs, is_chain h c.

(** [fuel] is more than the length of every chain. *)
Definition short_chains (fuel : nat) (cs : list chain_t) : Prop := Forall (λ c, length c < fuel) cs.

Lemma find_body_spec l nx s s' rest :
  ⦃ l ↦ Atom nx (Z.of_nat (length s')) (s' ++ [0%Z]) ⦄
    find_body (N := N) (s ++ rest) (Z.of_nat (length s)) (Some l)
  ⦃ r, ⌈r = if decide (s' = s) then inr (Some l) else inl nx⌉ ∗
       l ↦ Atom nx (Z.of_nat (length s')) (s' ++ [0%Z]) ⦄.
Proof.
  unfold hoare, find_body. iIntros "Hl". rewrite bool_decide_false //. wp_load "Hl". cbn [len str link].
  case_bool_decide as Hlen.
  - apply Nat2Z.inj in Hlen. rewrite Nat2Z.id.
    destruct (compare_loop_run (N := N) s' s [0%Z] rest (eq_sym Hlen)) as (i & Hrun & Hi).
    rewrite Hlen. wp_focus. iApply (wp_run _ i); [exact Hrun|].
    destruct (decide (s' = s)) as [Heq|Hne].
    + rewrite bool_decide_true; [|by apply Hi]. wp_finish. by iFrame.
    + rewrite bool_decide_false; [|by intros ?%Hi]. wp_finish. by iFrame.
  - rewrite decide_False; [|congruence]. wp_finish. by iFrame.
Qed.

Lemma find_loop_spec fuel s rest p c :
  length c < fuel →
  ⦃ is_chain p c ⦄ find_loop fuel (s ++ rest) (Z.of_nat (length s)) p
  ⦃ r, ⌈r = find_atom s c⌉ ∗ is_chain p c ⦄.
Proof.
  unfold hoare, find_loop.
  iInduction fuel as [|fuel] "IH" forall (p c); iIntros (Hf) "H"; [lia|].
  iApply wp_loop. destruct c as [|[l s'] c]; simpl in *.
  { iDestruct "H" as "->". unfold find_body. rewrite bool_decide_true //. wp_finish. hfin. }
  iDestruct "H" as (nx ->) "[Hl Hc]". iApply (hoare_wp_ret with "Hl"); [apply find_body_spec|].
  iIntros (r) "[-> Hl]". case_decide; [wp_finish; hfin|].
  iApply (wp_wand with "[Hc]"); [iApply ("IH" with "[%] Hc"); lia|].
  iSplit; [|by iIntros (e) "[]"]. iIntros (r) "[$ Hc]". hfin.
Qed.

Lemma length_loop_spec fuel l p c :
  length c < fuel →
  ⦃ is_chain p c ⦄ loop fuel (length_body (Some l)) p
  ⦃ r, ⌈r = (λ s, Z.of_nat (length s)) <$> find_string l c⌉ ∗ is_chain p c ⦄.
Proof.
  unfold hoare.
  iInduction fuel as [|fuel] "IH" forall (p c); iIntros (Hf) "H"; [lia|].
  iApply wp_loop. iEval (unfold length_body). destruct c as [|[l' s'] c]; simpl in *.
  { iDestruct "H" as "->". rewrite bool_decide_true //. wp_finish. hfin. }
  iDestruct "H" as (nx ->) "[Hl Hc]". rewrite bool_decide_false //. wp_load "Hl". cbn [len link].
  case_decide as Hl.
  - rewrite bool_decide_true; [|congruence]. wp_finish. hfin.
  - rewrite bool_decide_false; [|congruence]. wp_finish.
    iApply (wp_wand with "[Hc]"); [iApply ("IH" with "[%] Hc"); lia|].
    iSplit; [|by iIntros (e) "[]"]. iIntros (r) "[$ Hc]". hfin.
Qed.
Lemma wp_bucket_get hs i p Φ Ψ :
  hs !! i = Some p → buckets ↦ Buckets hs -∗ (buckets ↦ Buckets hs -∗ Φ p) -∗
  wp (bucket_get (N := N) (Some buckets) (Z.of_nat i)) Φ Ψ.
Proof.
  iIntros (Hp) "Hb H". unfold bucket_get. wp_load "Hb". simpl. rewrite Nat2Z.id.
  iApply wp_defined; [exact Hp|]. by iApply "H".
Qed.

Lemma bucket_land s : Z.land (hash_of s) (Z.of_nat num_buckets - 1) = Z.of_nat (bucket s).
Proof.
  unfold bucket. rewrite Z2Nat.id; [done|]. apply Z.land_nonneg. right. done.
Qed.

Lemma Atom_new_spec fuel s rest cs :
  s ≠ [] → short_chains fuel cs →
  ⦃ atoms cs ⦄ Atom_new (Some buckets) fuel (s ++ rest) (Z.of_nat (length s))
  ⦃ r, ∃ l, ⌈r = Some l⌉ ∗
       (⌈interned cs l s⌉ ∗ atoms cs ∨ ⌈∀ l', ¬ interned cs l' s⌉ ∗ atoms (add_atom cs l s))
  | e, ⌈e = Memory_Failed⌉ ∗ atoms cs ⦄.
Proof.
  unfold hoare, Atom_new. iIntros (Hs Hsh) "(%hs & %Hwf & Hb & Hcs)".
  rewrite bool_decide_true; [|destruct s; [done|simpl; lia]]. wp_require. rewrite Nat2Z.id.
  wp_focus. iApply (wp_run _ (hash_of s)); [intros σ; apply hash_loop_run|]. rewrite bucket_land.
  iDestruct (big_sepL2_length with "Hcs") as %Hlen.
  destruct (lookup_lt_is_Some_2 cs (bucket s)) as [c Hc].
  { rewrite (wf_length cs Hwf). apply bucket_lt. }
  destruct (lookup_lt_is_Some_2 hs (bucket s)) as [h Hh].
  { rewrite Hlen. by eapply lookup_lt_Some. }
  wp_focus. iApply (wp_bucket_get with "Hb"); [done|]. iIntros "Hb".
  iDestruct (big_sepL2_insert_acc with "Hcs") as "[Hc Hcs]"; [done..|].
  wp_focus. iApply (hoare_wp_ret with "Hc").
  { apply find_loop_spec. unfold short_chains in Hsh. rewrite Forall_lookup in Hsh. by eapply Hsh. }
  iIntros (r) "[-> Hc]". destruct (find_atom s c) as [l|] eqn:Hfind.
  - rewrite bool_decide_false //. simpl negb. cbv iota. wp_finish.
    iExists l. iSplit; [done|]. iLeft. iSplit; [iPureIntro; exists c; eauto using find_atom_Some|].
    iExists hs. iFrame "Hb". iSplit; [done|]. iSpecialize ("Hcs" with "Hc").
    by rewrite !list_insert_id.
  - rewrite bool_decide_true //. simpl negb. cbv iota.
    rewrite take_app_length. wp_focus. iApply wp_alloc. iSplit.
    + iIntros (l) "Hl". wp_focus. iApply (wp_bucket_get with "Hb"); [done|]. iIntros "Hb".
      wp_store "Hl". iEval (unfold bucket_set). wp_focus. wp_load "Hb". cbn [heads]. rewrite Nat2Z.id.
      rewrite bool_decide_true; [|by eapply lookup_lt_Some].
      iApply (wp_store with "Hb"). iIntros "Hb". wp_finish.
      iExists l. iSplit; [done|]. iRight. iSplit.
      { iPureIntro. intros l' (c' & Hc' & Hl'). simplify_eq. eapply find_atom_None; [done|].
        apply list_elem_of_fmap. by exists (l', s). }
      iExists _. iFrame "Hb". iSplit; [iPureIntro; eapply wf_add; eauto using find_atom_None|].
      iSpecialize ("Hcs" $! (Some l) ((l, s) :: c) with "[Hc Hl]"); [simpl; hfin|].
      by rewrite (add_atom_insert _ _ _ _ Hc).
    + iSplit; [done|]. iExists hs. iFrame "Hb". iSplit; [done|]. iSpecialize ("Hcs" with "Hc").
      by rewrite !list_insert_id.
Qed.
Lemma atoms_wf cs : atoms cs ⊢ ⌜wf_table cs⌝.
Proof. by iIntros "(%hs & %Hwf & _)". Qed.

(** ** Atoms have different addresses *)

Lemma is_chain_elem p c l s :
  (l, s) ∈ c → is_chain p c ⊢ (∃ a : atom, l ↦ a) ∗ True.
Proof.
  revert p. induction c as [|[l' s'] c IH]; intros p Hl; [by apply not_elem_of_nil in Hl|].
  simpl. iIntros "(%nx & -> & Hl & Hc)". apply elem_of_cons in Hl as [[= <- <-]|Hl].
  - hfin.
  - iDestruct (IH with "Hc") as "[$ _]"; done.
Qed.

Lemma is_chain_disjoint p q c d l : is_chain p c ∗ is_chain q d ⊢ ⌜l ∈ c.*1 → l ∉ d.*1⌝.
Proof.
  iIntros "[Hc Hd]" ([[l1 s1] [-> Hl1]]%list_elem_of_fmap [[l2 s2] [Heq Hl2]]%list_elem_of_fmap).
  simpl in *. subst l2. iDestruct (is_chain_elem _ _ _ _ Hl1 with "Hc") as "[(%a & H1) _]".
  iDestruct (is_chain_elem _ _ _ _ Hl2 with "Hd") as "[(%b & H2) _]".
  by iDestruct (points_to_ne with "H1 H2") as %?.
Qed.

Lemma is_chain_nodup p c : is_chain p c ⊢ ⌜NoDup c.*1⌝.
Proof.
  revert p. induction c as [|[l s] c IH]; intros p; simpl.
  - iIntros "_". iPureIntro. constructor.
  - iIntros "(%nx & -> & Hl & Hc)". iDestruct (IH with "Hc") as %Hnd.
    iAssert ⌜l ∉ c.*1⌝%I as %Hl; [|iPureIntro; by constructor].
    iIntros ([[l' s'] [-> Hl']]%list_elem_of_fmap). simpl.
    iDestruct (is_chain_elem _ _ _ _ Hl' with "Hc") as "[(%b & H2) _]".
    by iDestruct (points_to_ne with "Hl H2") as %?.
Qed.

(** An address holds one string. *)
Lemma atoms_inj cs l s s' : interned cs l s → interned cs l s' → atoms cs ⊢ ⌜s = s'⌝.
Proof.
  iIntros ((c & Hc & Hl) (c' & Hc' & Hl')) "(%hs & %Hwf & _ & Hcs)".
  iDestruct (big_sepL2_length with "Hcs") as %Hlen.
  destruct (lookup_lt_is_Some_2 hs (bucket s)) as [h Hh]; [rewrite Hlen; by eapply lookup_lt_Some|].
  destruct (lookup_lt_is_Some_2 hs (bucket s')) as [h' Hh']; [rewrite Hlen; by eapply lookup_lt_Some|].
  destruct (decide (bucket s = bucket s')) as [Heq|Hne].
  - rewrite -Heq Hc in Hc'. injection Hc' as <-.
    iDestruct (big_sepL2_lookup_acc _ _ _ _ _ _ Hh Hc with "Hcs") as "[Hc _]".
    iDestruct (is_chain_nodup with "Hc") as %Hnd. iPureIntro.
    apply list_elem_of_lookup in Hl as [i Hi]. apply list_elem_of_lookup in Hl' as [j Hj].
    assert (i = j) as <-; [|congruence].
    eapply (NoDup_lookup c.*1); [done|by rewrite list_lookup_fmap Hi|by rewrite list_lookup_fmap Hj].
  - iDestruct (big_sepL2_delete _ _ _ _ _ _ Hh Hc with "Hcs") as "[Hc Hcs]".
    iDestruct (big_sepL2_lookup_acc _ _ _ _ _ _ Hh' Hc' with "Hcs") as "[Hc' _]".
    rewrite decide_False; [|congruence]. iDestruct (is_chain_disjoint _ _ _ _ l with "[$Hc $Hc']") as %Hd.
    exfalso. apply Hd; apply list_elem_of_fmap; [by exists (l, s)|by exists (l, s')].
Qed.
(** What a client relies on: afterwards the string is kept at the address that
    is returned, and what was kept stays where it is. *)
Lemma Atom_new_interned fuel s rest cs :
  s ≠ [] → short_chains fuel cs →
  ⦃ atoms cs ⦄ Atom_new (Some buckets) fuel (s ++ rest) (Z.of_nat (length s))
  ⦃ r, ∃ l cs', ⌈r = Some l ∧ interned cs' l s ∧ (∀ l' s', interned cs l' s' → interned cs' l' s') ∧
         (∀ n, short_chains n cs → short_chains (S n) cs')⌉ ∗ atoms cs'
  | e, ⌈e = Memory_Failed⌉ ∗ atoms cs ⦄.
Proof.
  intros Hs Hsh. unfold hoare. iIntros "H". iDestruct (atoms_wf with "H") as %Hwf.
  iApply (hoare_wp with "H"); [by apply Atom_new_spec|].
  iSplit; [|by iIntros (e) "$"]. iIntros (p) "(%l & -> & [[%H1 H]|[_ H]])".
  - iExists l, cs. iFrame. iPureIntro. repeat split; [done..|].
    intros n Hn. eapply Forall_impl; [exact Hn|]. simpl. lia.
  - iExists l, (add_atom cs l s). iFrame. iPureIntro.
    repeat split; [by apply interned_add|intros; by apply interned_mono|].
    intros n Hn. unfold add_atom. apply Forall_alter; [eapply Forall_impl; [exact Hn|simpl; lia]|].
    unfold short_chains in Hn. rewrite Forall_lookup in Hn. intros c Hc _. apply Hn in Hc. simpl. lia.
Qed.

Fixpoint find_table (l : loc) (cs : list chain_t) : option (list Z) :=
  match cs with
  | [] => None
  | c :: cs => match find_string l c with Some s => Some s | None => find_table l cs end
  end.

Lemma find_string_Some l c s : find_string l c = Some s → (l, s) ∈ c.
Proof.
  induction c as [|[l' s'] c IH]; simpl; [done|]. case_decide as H.
  - intros [= <-]. subst l'. by left.
  - intros Hf. right. by apply IH.
Qed.

Lemma find_string_None l c s : find_string l c = None → (l, s) ∉ c.
Proof.
  induction c as [|[l' s'] c IH]; simpl; [intros _; apply not_elem_of_nil|].
  case_decide as H; [done|]. intros Hf. rewrite not_elem_of_cons. split; [congruence|by apply IH].
Qed.

Lemma find_table_Some l cs s : find_table l cs = Some s → ∃ i c, cs !! i = Some c ∧ (l, s) ∈ c.
Proof.
  induction cs as [|c cs IH]; simpl; [done|]. destruct (find_string l c) eqn:E; intros H.
  - exists 0, c. split; [done|]. apply find_string_Some. congruence.
  - destruct (IH H) as (i & c' & Hi & Hl). by exists (S i), c'.
Qed.

Lemma find_table_None l cs s i c : find_table l cs = None → cs !! i = Some c → (l, s) ∉ c.
Proof.
  revert i. induction cs as [|c' cs IH]; intros i; simpl; [done|].
  destruct (find_string l c') eqn:E; [done|]. intros H. destruct i as [|i]; simpl.
  - intros [= <-]. by apply find_string_None.
  - by apply IH.
Qed.

Lemma chains_loop_spec fuel k i l hs cs :
  length cs = num_buckets → i ≤ num_buckets → num_buckets < k + i → short_chains fuel cs →
  ⦃ buckets ↦ Buckets hs ∗ [∗ list] h;c ∈ hs;cs, is_chain h c ⦄
    loop k (chains_body (Some buckets) fuel (Some l)) i
  ⦃ r, ⌈r = (λ s, Z.of_nat (length s)) <$> find_table l (drop i cs)⌉ ∗
       buckets ↦ Buckets hs ∗ [∗ list] h;c ∈ hs;cs, is_chain h c ⦄.
Proof.
  unfold hoare. iIntros (Hlen Hi Hk Hsh). iRevert (i Hi Hk).
  iInduction k as [|k] "IH"; iIntros (i Hi Hk) "[Hb Hcs]"; [lia|].
  iDestruct (big_sepL2_length with "Hcs") as %Hlen'.
  iApply wp_loop. iEval (unfold chains_body). case_bool_decide as Hlt.
  - destruct (lookup_lt_is_Some_2 cs i ltac:(lia)) as [c Hc].
    destruct (lookup_lt_is_Some_2 hs i ltac:(lia)) as [h Hh].
    wp_focus. iApply (wp_bucket_get with "Hb"); [done|]. iIntros "Hb".
    iDestruct (big_sepL2_lookup_acc _ _ _ _ _ _ Hh Hc with "Hcs") as "[Hc Hcs]".
    wp_focus. iApply (hoare_wp_ret with "Hc").
    { apply length_loop_spec. unfold short_chains in Hsh. rewrite Forall_lookup in Hsh. by eapply Hsh. }
    iIntros (r) "[-> Hc]". iDestruct ("Hcs" with "Hc") as "Hcs". rewrite (drop_S _ _ _ Hc).
    cbn [find_table]. destruct (find_string l c) as [s|]; simpl; wp_finish; [by iFrame|].
    iApply ("IH" with "[%] [%] [$]"); lia.
  - wp_finish. iFrame. rewrite drop_ge; [done|lia].
Qed.

(** ** Properties *)

(** C28: equal strings, and only those, get the same address: the second of two
    calls returns what the first returned exactly when the bytes are the same. *)
Theorem Atom_new_interns fuel s1 s2 r1 r2 cs :
  s1 ≠ [] → s2 ≠ [] → short_chains fuel cs →
  ⦃ atoms cs ⦄
    p1 ← Atom_new (Some buckets) (S fuel) (s1 ++ r1) (Z.of_nat (length s1));
    p2 ← Atom_new (Some buckets) (S fuel) (s2 ++ r2) (Z.of_nat (length s2));
    mret (p1, p2)
  ⦃ p, ⌈p.1 = p.2 ↔ s1 = s2⌉ ∗ ∃ cs', atoms cs' | e, ⌈e = Memory_Failed⌉ ∗ ∃ cs', atoms cs' ⦄.
Proof.
  intros Hs1 Hs2 Hf. unfold hoare. iIntros "H".
  assert (short_chains (S fuel) cs) as Hf'.
  { eapply Forall_impl; [exact Hf|]. simpl. lia. }
  wp_focus. iApply (hoare_wp with "H"); [by apply Atom_new_interned|].
  iSplit; [|iIntros (e) "[$ H]"; by iExists cs].
  iIntros (p1) "(%l1 & %cs1 & %H1 & H)". destruct H1 as (-> & H1 & _ & Hf1).
  specialize (Hf1 fuel Hf).
  wp_focus. iApply (hoare_wp with "H"); [by apply Atom_new_interned|].
  iSplit; [|iIntros (e) "[$ H]"; by iExists cs1].
  iIntros (p2) "(%l2 & %cs2 & %H2 & H)". destruct H2 as (-> & H2 & Hmono & _).
  apply Hmono in H1. wp_finish. simpl.
  iAssert ⌜l1 = l2 → s1 = s2⌝%I as %Hinj.
  { iIntros (->). by iApply (atoms_inj with "H"). }
  iDestruct (atoms_wf with "H") as %Hwf. iSplit; [iPureIntro|by iExists cs2].
  split; [intros [= ->]; by apply Hinj|]. intros ->. by rewrite (interned_fun _ _ _ _ Hwf H1 H2).
Qed.

(** [Atom_length] returns the length of the string at an address that
    [Atom_new] has returned, and fails for every other address. *)
Theorem Atom_length_correct fuel l cs :
  short_chains fuel cs →
  ⦃ atoms cs ⦄ Atom_length (Some buckets) fuel (Some l)
  ⦃ n, ⌈∃ s, interned cs l s ∧ n = Z.of_nat (length s)⌉ ∗ atoms cs
  | e, ⌈e = Assert_Failed ∧ ∀ s, ¬ interned cs l s⌉ ∗ atoms cs ⦄.
Proof.
  intros Hsh. unfold hoare, Atom_length. iIntros "(%hs & %Hwf & H)". wp_require.
  wp_focus. iApply (hoare_wp_ret with "H").
  { apply chains_loop_spec; [apply (wf_length cs Hwf)|lia|lia|exact Hsh]. }
  iIntros (r) "[-> H]". rewrite drop_0. destruct (find_table l cs) as [s|] eqn:E; simpl.
  - wp_finish. iSplit; [iPureIntro|by iExists hs; iFrame].
    destruct (find_table_Some _ _ _ E) as (i & c & Hi & Hl). exists s. split; [|done].
    exists c. by rewrite (wf_bucket cs Hwf _ _ _ _ Hi Hl).
  - wp_focus. iApply wp_throw. iSplit; [iPureIntro|by iExists hs; iFrame].
    split; [done|]. intros s (c & Hc & Hl). by eapply find_table_None.
Qed.
End atom_specs.

(** The empty table. *)
Definition no_atoms : list chain_t := replicate num_buckets [].

Lemma Atom_new_interns_witness :
  short_chains 1 no_atoms ∧
  ⦃ atoms (N := atom + bucket_array) 9 no_atoms ⦄
    p1 ← Atom_new (MA := malloc_always) (Some 9%positive) 2 [104; 105; 0]%Z 2;
    p2 ← Atom_new (MA := malloc_always) (Some 9%positive) 2 [104; 105]%Z 2;
    mret (p1, p2)
  ⦃ p, ⌈p.1 = p.2 ↔ [104; 105]%Z = [104; 105]%Z⌉ ∗ ∃ cs', atoms 9 cs'
  | e, ⌈e = Memory_Failed⌉ ∗ ∃ cs', atoms 9 cs' ⦄.
Proof.
  assert (short_chains 1 no_atoms) as Hf by (apply Forall_replicate; simpl; lia).
  split; [exact Hf|].
  apply (Atom_new_interns (N := atom + bucket_array) (MA := malloc_always) 9 1
    [104; 105]%Z [104; 105]%Z [0%Z] [] no_atoms); [discriminate|discriminate|exact Hf].
Defined.

Lemma Atom_length_correct_witness :
  short_chains 1 no_atoms ∧
  ⦃ atoms (N := atom + bucket_array) 9 no_atoms ⦄ Atom_length (Some 9%positive) 1 (Some 3%positive)
  ⦃ n, ⌈∃ s, interned no_atoms 3 s ∧ n = Z.of_nat (length s)⌉ ∗ atoms 9 no_atoms
  | e, ⌈e = Assert_Failed ∧ ∀ s, ¬ interned no_atoms 3 s⌉ ∗ atoms 9 no_atoms ⦄.
Proof.
  assert (short_chains 1 no_atoms) as Hf by (apply Forall_replicate; simpl; lia).
  split; [exact Hf|].
  apply (Atom_length_correct (N := atom + bucket_array) 9 1 3 no_atoms); exact Hf.
Defined.

(** The address of a string is found again whatever follows it in memory. *)
Definition intern_twice : M (gmap loc (atom + bucket_array)) (bool * Z) :=
  p1 ← Atom_string (MA := malloc_always) (Some 9%positive) 2 [104; 105; 0]%Z;
  p2 ← Atom_string (MA := malloc_always) (Some 9%positive) 2 [104; 105; 0; 7]%Z;
  n ← Atom_length (Some 9%positive) 2 p1;
  mret (bool_decide (p1 = p2), n).

Example intern_twice_run :
  match intern_twice {[9%positive := inr (Buckets (replicate num_buckets NULL))]} with
  | Ret r _ => r = (true, 2%Z)
  | _ => False
  end.
Proof. vm_compute. reflexivity. Qed.
