(* ===== verification/TinyLex.v ===== *)
(** The lexer of src/bin/paradigms/tiny_c/tinyc.c, and its equivalence with a
    reference lexer that works on the text that is left. *)
From S2P Require Export Prelude.
Local Open Scope Z_scope.

(** * The program *)

(** The first [enum], in its order: [words] is indexed by the same numbers. *)
Inductive symbol :=
  | DO_SYM | ELSE_SYM | IF_SYM | WHILE_SYM | LBRA | RBRA | LPAR | RPAR
  | PLUS | MINUS | LESS | SEMI | EQUAL | INT | ID | EOI.

#[export] Instance symbol_eq_dec : EqDecision symbol.
Proof. solve_decision. Defined.

(** A text is a list of bytes, as [getchar] delivers them. *)
Definition text_of (s : string) : list Z := (λ a, Z.of_N (Ascii.N_of_ascii a)) <$> String.list_ascii_of_string s.

Definition words : list (list Z) := text_of <$> ["do"; "else"; "if"; "while"]%string.

(** The value of the enumeration constants that [sym] can have in the search. *)
Definition sym_of_index (i : nat) : option symbol := [DO_SYM; ELSE_SYM; IF_SYM; WHILE_SYM] !! i.

(** The lexer's global variables, and the input that is still to be read. *)
Record lexer := Lexer { input : list Z; ch : Z; sym : symbol; int_val : Z; id_name : list Z }.

Definition EOF : Z := -1.
Definition init_lexer (text : list Z) : lexer := Lexer text 32 DO_SYM 0 (replicate 100 0).

Definition syntax_error {A} : M lexer A := exit 1.

Definition set_sym (s : symbol) : M lexer unit :=
  modify (λ σ, Lexer (input σ) (ch σ) s (int_val σ) (id_name σ)).
Definition set_int_val (v : Z) : M lexer unit :=
  modify (λ σ, Lexer (input σ) (ch σ) (sym σ) v (id_name σ)).

(** [ch = getchar();]: the next byte of the input, or [EOF] when there is none. *)
Definition next_ch : M lexer unit :=
  modify (λ σ, match input σ with
               | [] => Lexer [] EOF (sym σ) (int_val σ) (id_name σ)
               | c :: cs => Lexer cs c (sym σ) (int_val σ) (id_name σ)
               end).

(** [id_name[i] = c;] in the array of 100 characters. *)
Definition set_id_name (i : nat) (c : Z) : M lexer unit := λ σ,
  if bool_decide (i < length (id_name σ))%nat
  then Ret tt (Lexer (input σ) (ch σ) (sym σ) (int_val σ) (<[i := c]> (id_name σ)))
  else Undef.

(** The characters of a C string, up to its terminating zero. *)
Fixpoint c_string (cs : list Z) : list Z :=
  match cs with
  | [] => []
  | c :: cs => if bool_decide (c = 0) then [] else c :: c_string cs
  end.

Definition is_digit (c : Z) : bool := bool_decide (48 ≤ c ≤ 57).
Definition is_lower (c : Z) : bool := bool_decide (97 ≤ c ≤ 122).
Definition is_space (c : Z) : bool := bool_decide (c = 32 ∨ c = 10).

(** The cases of the [switch] for one-character symbols. *)
Definition punct (c : Z) : option symbol :=
  if bool_decide (c = 123) then Some LBRA
  else if bool_decide (c = 125) then Some RBRA
  else if bool_decide (c = 40) then Some LPAR
  else if bool_decide (c = 41) then Some RPAR
  else if bool_decide (c = 43) then Some PLUS
  else if bool_decide (c = 45) then Some MINUS
  else if bool_decide (c = 60) then Some LESS
  else if bool_decide (c = 59) then Some SEMI
  else if bool_decide (c = 61) then Some EQUAL
  else None.

(** [while (ch >= '0' && ch <= '9') { int_val = int_val * 10 + (ch - '0'); next_ch(); }] *)
Definition read_digits (fuel : nat) : M lexer unit :=
  loop fuel (λ _,
    c ← gets ch;
    if is_digit c then
      v ← gets int_val;
      v10 ← defined (int_of (v * 10));
      v' ← defined (int_of (v10 + (c - 48)));
      set_int_val v';;
      next_ch;;
      mret (inl tt)
    else mret (inr tt)) tt.

(** [while ((ch >= 'a' && ch <= 'z') || ch == '_') { id_name[i++] = ch; next_ch(); }] *)
Definition read_word (fuel : nat) : M lexer nat :=
  loop fuel (λ i,
    c ← gets ch;
    if is_lower c || bool_decide (c = 95) then
      set_id_name i c;;
      next_ch;;
      mret (inl (S i))
    else mret (inr i)) 0%nat.

(** [sym = 0; while (words[sym] != NULL && strcmp(words[sym], id_name) != 0) sym++;]
    for the words from number [i] on. *)
Fixpoint search_word (ws : list (list Z)) (name : list Z) (i : nat) : nat :=
  match ws with
  | [] => i
  | w :: ws => if bool_decide (w = name) then i else search_word ws name (S i)
  end.

(** The [default] case of the [switch]. *)
Definition next_word_sym (fuel : nat) : M lexer unit :=
  c ← gets ch;
  if is_digit c then
    set_int_val 0;;
    read_digits fuel;;
    set_sym INT
  else if is_lower c then
    i ← read_word fuel;
    set_id_name i 0;;
    name ← gets id_name;
    match sym_of_index (search_word words (c_string name) 0) with
    | Some s => set_sym s
    | None =>
        c1 ← defined (name !! 1%nat);
        if bool_decide (c1 = 0) then set_sym ID else syntax_error
    end
  else syntax_error.

(** Every round of a loop reads a character, which bounds the number of rounds. *)
Definition next_sym : M lexer unit := λ σ,
  let fuel := S (S (length (input σ))) in
  loop fuel (λ _,
    c ← gets ch;
    if is_space c then next_ch;; mret (inl tt)
    else if bool_decide (c = EOF) then set_sym EOI;; mret (inr tt)
    else match punct c with
         | Some s => next_ch;; set_sym s;; mret (inr tt)
         | None => next_word_sym fuel;; mret (inr tt)
         end) tt σ.

(** * The reference lexer *)

(** A symbol with its value: that of an integer, the number of a variable. *)
Definition token : Type := symbol * Z.

Inductive lexed :=
  | Tok (t : token) (rest : list Z)
  | Bad       (* a syntax error *)
  | Overflow. (* an integer or an identifier that is too long *)

(** The longest prefix whose elements satisfy [f], and the rest. *)
Fixpoint span (f : Z → bool) (cs : list Z) : list Z * list Z :=
  match cs with
  | [] => ([], [])
  | c :: cs' => if f c then let '(a, b) := span f cs' in (c :: a, b) else ([], cs)
  end.

Definition is_word (c : Z) : bool := is_lower c || bool_decide (c = 95).

(** The value of the digits [ds] after digits of value [v]. *)
Definition number (v : Z) (ds : list Z) : Z := foldl (λ v c, v * 10 + (c - 48)) v ds.

Definition keyword (w : list Z) : option symbol := sym_of_index (search_word words w 0).

Fixpoint lex (text : list Z) : lexed :=
  match text with
  | [] => Tok (EOI, 0) []
  | c :: cs =>
      if is_space c then lex cs
      else match punct c with
      | Some s => Tok (s, 0) cs
      | None =>
          if is_digit c then
            let '(ds, r) := span is_digit text in
            if bool_decide (number 0 ds < 2 ^ 31) then Tok (INT, number 0 ds) r else Overflow
          else if is_lower c then
            let '(w, r) := span is_word text in
            if bool_decide (length w < 100)%nat then
              match keyword w with
              | Some s => Tok (s, 0) r
              | None => match w with [a] => Tok (ID, a - 97) r | _ => Bad end
              end
            else Overflow
          else Bad
      end
  end.

(** The lexer's state when [text] is left. *)
Definition at_text (text : list Z) (s : symbol) (v : Z) (nm : list Z) : lexer :=
  match text with
  | [] => Lexer [] EOF s v nm
  | c :: cs => Lexer cs c s v nm
  end.

Definition rem (σ : lexer) : list Z := if bool_decide (ch σ = EOF) then [] else ch σ :: input σ.

Definition byte (c : Z) : Prop := 0 ≤ c < 256.
Definition wf (σ : lexer) : Prop :=
  σ = at_text (rem σ) (sym σ) (int_val σ) (id_name σ) ∧ Forall byte (rem σ) ∧
  length (id_name σ) = 100%nat.

(** The current token. *)
Definition tok (σ : lexer) : token :=
  match sym σ with
  | INT => (INT, int_val σ)
  | ID => (ID, default 0 (id_name σ !! 0%nat) - 97)
  | s => (s, 0)
  end.

Lemma rem_at_text text s v nm : Forall byte text → rem (at_text text s v nm) = text.
Proof.
  unfold rem. destruct text as [|c cs]; simpl; [done|]. intros [Hc _]%Forall_cons.
  rewrite bool_decide_false //. unfold byte, EOF in *. lia.
Qed.

Lemma wf_at_text text s v nm : Forall byte text → length nm = 100%nat → wf (at_text text s v nm).
Proof.
  intros Ht Hn. unfold wf. rewrite rem_at_text //. destruct text; simpl; auto.
Qed.

Lemma wf_init text : Forall byte text → wf (init_lexer text).
Proof. intros Ht. apply (wf_at_text (32 :: text)); [|done]. constructor; [unfold byte; lia|done]. Qed.

Lemma run_next_ch {A} (k : unit → M lexer A) c cs s v nm :
  (next_ch ≫= k) (Lexer cs c s v nm) = k tt (at_text cs s v nm).
Proof. by destruct cs. Qed.
#[export] Hint Rewrite @run_next_ch : run.

Lemma span_app f cs a b : span f cs = (a, b) → cs = a ++ b ∧ Forall (λ c, f c = true) a.
Proof.
  revert a b. induction cs as [|c cs IH]; intros a b; simpl; [by intros [= <- <-]|].
  destruct (f c) eqn:E; [|by intros [= <- <-]].
  destruct (span f cs) as [a' b']. intros [= <- <-]. destruct (IH a' b' eq_refl) as [-> ?].
  split; [done|]. by constructor.
Qed.

Lemma number_ge v ds : 0 ≤ v → Forall (λ c, is_digit c = true) ds → v ≤ number v ds.
Proof.
  intros Hv H. revert v Hv. induction H as [|c ds Hc _ IH]; intros v Hv; unfold number in *; simpl; [lia|].
  unfold is_digit in Hc. apply bool_decide_eq_true in Hc. specialize (IH (v * 10 + (c - 48))). lia.
Qed.

Lemma read_digits_spec fuel cs s v nm :
  (length cs < fuel)%nat → Forall byte cs → 0 ≤ v < 2 ^ 31 →
  read_digits fuel (at_text cs s v nm) =
  let '(ds, r) := span is_digit cs in
  if bool_decide (number v ds < 2 ^ 31) then Ret tt (at_text r s (number v ds) nm) else Undef.
Proof.
  unfold read_digits. revert cs v. induction fuel as [|fuel IH]; intros cs v Hf Hcs Hv; [lia|].
  destruct cs as [|c cs].
  - cbn [span]. unfold number; cbn [foldl]. rewrite (bool_decide_true (v < 2 ^ 31)); [done|lia].
  - apply Forall_cons in Hcs as [Hc Hcs]. rewrite run_loop. run. cbn [at_text ch span].
    destruct (is_digit c) eqn:E.
    + pose proof E as E'. unfold is_digit in E'. apply bool_decide_eq_true in E'.
      run. cbn [int_val]. destruct (span is_digit cs) as [ds r] eqn:Hs.
      destruct (span_app _ _ _ _ Hs) as [-> Hds].
      destruct (decide (v * 10 + (c - 48) < 2 ^ 31)) as [Hlt|Hge].
      * rewrite int_of_in; [|unfold in_s; lia]. run. rewrite int_of_in; [|unfold in_s; lia].
        unfold set_int_val. run.
        cbn [input ch sym id_name at_text].
        run.
        rewrite IH; [|simpl in Hf; lia|done|lia]. by rewrite Hs.
      * assert (v * 10 + (c - 48) ≤ number (v * 10 + (c - 48)) ds) by (apply number_ge; [lia|done]).
        change (number v (c :: ds)) with (number (v * 10 + (c - 48)) ds).
        rewrite (bool_decide_false (_ < 2 ^ 31)); [|lia].
        destruct (decide (in_s 32 (v * 10))); [|by rewrite int_of_out].
        rewrite int_of_in //. run. rewrite int_of_out; [done|unfold in_s; lia].
    + run. unfold number; cbn [foldl]. rewrite (bool_decide_true (v < 2 ^ 31)); [done|lia].
Qed.

(** The characters of a word replace the front of [id_name]. *)
Lemma insert_word (w nm : list Z) c :
  (length w < length nm)%nat → <[length w := c]> (w ++ drop (length w) nm) = w ++ c :: drop (S (length w)) nm.
Proof.
  intros Hw. rewrite insert_app_r_alt // Nat.sub_diag.
  apply lookup_lt_is_Some_2 in Hw as [x Hx]. by rewrite (drop_S _ _ _ Hx).
Qed.

Lemma read_word_loop fuel cs s v w nm :
  (length cs < fuel)%nat → Forall byte cs → length nm = 100%nat → (length w ≤ 100)%nat →
  loop fuel (λ i,
    c ← gets ch;
    if is_lower c || bool_decide (c = 95) then
      set_id_name i c;;
      next_ch;;
      mret (inl (S i))
    else mret (inr i)) (length w) (at_text cs s v (w ++ drop (length w) nm)) =
  let '(w', r) := span is_word cs in
  if bool_decide (length (w ++ w') ≤ 100)%nat
  then Ret (length (w ++ w')) (at_text r s v ((w ++ w') ++ drop (length (w ++ w')) nm))
  else Undef.
Proof.
  revert cs w. induction fuel as [|fuel IH]; intros cs w Hf Hcs Hnm Hw; [lia|].
  destruct cs as [|c cs].
  - cbn [span]. rewrite app_nil_r bool_decide_true //.
  - apply Forall_cons in Hcs as [Hc Hcs]. rewrite run_loop. run. cbn [at_text ch span].
    fold (is_word c). destruct (is_word c) eqn:E.
    + destruct (span is_word cs) as [w' r] eqn:Hs. run.
      destruct (decide (length w < 100)%nat) as [Hlt|Hge].
      * erewrite M_bind_Ret; last first.
        { unfold set_id_name. cbn [id_name at_text input ch sym int_val].
          rewrite bool_decide_true; [done|]. rewrite length_app length_drop. lia. }
        rewrite insert_word; [|lia].
        run.
        rewrite app_cons_assoc. replace (S (length w)) with (length (w ++ [c])) by (rewrite length_app /=; lia).
        rewrite IH; [|simpl in Hf; lia|done|done|rewrite length_app /=; lia].
        by rewrite Hs -app_assoc.
      * rewrite bool_decide_false; [|rewrite length_app /=; lia].
        unfold set_id_name, mbind, M_bind. cbn [id_name at_text]. rewrite bool_decide_false //.
        rewrite length_app length_drop. lia.
    + run. by rewrite app_nil_r bool_decide_true.
Qed.

Lemma run_set_sym {A} (k : unit → M lexer A) cs s v nm s' :
  (set_sym s' ≫= k) (at_text cs s v nm) = k tt (at_text cs s' v nm).
Proof. by destruct cs. Qed.
Lemma run_set_int_val {A} (k : unit → M lexer A) cs s v nm v' :
  (set_int_val v' ≫= k) (at_text cs s v nm) = k tt (at_text cs s v' nm).
Proof. by destruct cs. Qed.
Lemma run_set_id_name {A} (k : unit → M lexer A) cs s v nm i c :
  (set_id_name i c ≫= k) (at_text cs s v nm) =
  if bool_decide (i < length nm)%nat then k tt (at_text cs s v (<[i := c]> nm)) else Undef.
Proof.
  unfold mbind, M_bind, set_id_name. destruct cs; cbn [id_name at_text]; by case_bool_decide.
Qed.
Lemma id_name_at_text cs s v nm : id_name (at_text cs s v nm) = nm.
Proof. by destruct cs. Qed.

Lemma c_string_word w nm :
  Forall (λ c, is_word c = true) w → c_string (w ++ 0 :: nm) = w.
Proof.
  induction 1 as [|c w Hc _ IH]; simpl; [done|]. rewrite IH bool_decide_false //. by intros ->.
Qed.

(** What the outcome of [next_sym] must be for each answer of [lex]. *)
Definition agrees (l : lexed) (o : outcome lexer unit) : Prop :=
  match l with
  | Tok t r => ∃ σ', o = Ret tt σ' ∧ wf σ' ∧ rem σ' = r ∧ tok σ' = t
  | Bad => ∃ σ', o = Exit 1 σ'
  | Overflow => o = Undef
  end.

Lemma agrees_Tok s' z text s v nm :
  Forall byte text → length nm = 100%nat → tok (at_text text s v nm) = (s', z) →
  agrees (Tok (s', z) text) (Ret tt (at_text text s v nm)).
Proof. intros. eexists. split; [done|]. split; [by apply wf_at_text|]. by rewrite rem_at_text. Qed.

Lemma tok_at_text text s v nm : s ≠ INT → s ≠ ID → tok (at_text text s v nm) = (s, 0).
Proof. destruct text; by destruct s. Qed.

Lemma sym_of_index_keyword i s : sym_of_index i = Some s → s ≠ INT ∧ s ≠ ID.
Proof. intros H. do 4 (destruct i as [|i]; [injection H as <-; done|]). done. Qed.

Lemma span_byte f cs a b : Forall byte cs → span f cs = (a, b) → Forall byte a ∧ Forall byte b.
Proof. intros H Hs. destruct (span_app _ _ _ _ Hs) as [-> _]. by apply Forall_app. Qed.

Lemma next_word_sym_spec fuel c cs s v nm :
  is_space c = false → punct c = None →
  (S (length cs) < fuel)%nat → Forall byte (c :: cs) → length nm = 100%nat →
  agrees (lex (c :: cs)) (next_word_sym fuel (at_text (c :: cs) s v nm)).
Proof.
  intros Hsp Hp Hf Hcs Hnm. cbn [lex]. rewrite Hsp Hp. unfold next_word_sym. rewrite run_gets.
  change (ch (at_text (c :: cs) s v nm)) with c. destruct (is_digit c) eqn:Hd.
  - rewrite run_set_int_val. unfold mbind at 1, M_bind at 1. rewrite read_digits_spec; [|done|done|done].
    destruct (span is_digit (c :: cs)) as [ds r] eqn:Hs. destruct (span_byte _ _ _ _ Hcs Hs) as [_ Hr].
    case_bool_decide; [|done]. rewrite -(M_bind_ret_r (set_sym INT) _) run_set_sym.
    apply agrees_Tok; [done|done|by destruct r].
  - destruct (is_lower c) eqn:Hl; [|by eexists].
    unfold read_word. unfold mbind at 1, M_bind at 1.
    pose proof (read_word_loop fuel (c :: cs) s v [] nm Hf Hcs Hnm ltac:(simpl; lia)) as Hw.
    cbn [app length drop] in Hw. rewrite drop_0 in Hw. rewrite Hw. clear Hw.
    destruct (span is_word (c :: cs)) as [w r] eqn:Hs.
    destruct (span_byte _ _ _ _ Hcs Hs) as [_ Hr]. destruct (span_app _ _ _ _ Hs) as [Hsplit Hw].
    destruct (bool_decide_reflect (length w < 100)%nat) as [Hlt|Hge].
    + rewrite bool_decide_true; [|lia]. rewrite run_set_id_name bool_decide_true;
        [|rewrite length_app length_drop; lia].
      rewrite insert_word; [|lia]. rewrite run_gets id_name_at_text c_string_word //.
      unfold keyword. destruct (sym_of_index (search_word words w 0)) as [s'|] eqn:Hk.
      * apply sym_of_index_keyword in Hk as [??]. rewrite -(M_bind_ret_r (set_sym s') _) run_set_sym.
        apply agrees_Tok; [done| |by apply tok_at_text]. rewrite length_app /= length_drop. lia.
      * destruct w as [|a [|b w]].
        -- exfalso. simpl in Hs. unfold is_word in Hs. rewrite Hl in Hs. cbn in Hs.
           by destruct (span _ cs).
        -- cbn [app lookup list_lookup]. run. rewrite bool_decide_true //.
           rewrite -(M_bind_ret_r (set_sym ID) _) run_set_sym.
           apply agrees_Tok; [done| |by destruct r]. rewrite /= length_drop. lia.
        -- cbn [app lookup list_lookup]. run. rewrite bool_decide_false; [by eexists|].
           intros ->. apply Forall_cons in Hw as [_ [Hb _]%Forall_cons]. done.
    + destruct (decide (length w ≤ 100)%nat).
      * rewrite bool_decide_true //. rewrite run_set_id_name bool_decide_false //.
        rewrite length_app length_drop. lia.
      * by rewrite bool_decide_false.
Qed.

Lemma next_sym_loop fuel fuel' text s v nm :
  (length text < fuel)%nat → (length text < fuel')%nat → Forall byte text → length nm = 100%nat →
  agrees (lex text) (loop fuel (λ _,
    c ← gets ch;
    if is_space c then next_ch;; mret (inl tt)
    else if bool_decide (c = EOF) then set_sym EOI;; mret (inr tt)
    else match punct c with
         | Some s => next_ch;; set_sym s;; mret (inr tt)
         | None => next_word_sym fuel';; mret (inr tt)
         end) tt (at_text text s v nm)).
Proof.
  revert text. induction fuel as [|fuel IH]; intros text Hf Hf' Htext Hnm; [lia|].
  rewrite run_loop. destruct text as [|c cs].
  - apply (agrees_Tok EOI 0 [] EOI v nm); [done|done|done].
  - rewrite run_assoc run_gets. change (ch (at_text (c :: cs) s v nm)) with c.
    pose proof Htext as [Hc Hcs]%Forall_cons. simpl in Hf, Hf'.
    destruct (is_space c) eqn:Hsp.
    + cbn [lex]. rewrite Hsp. cbn [at_text]. run. apply IH; [lia|lia|done|done].
    + rewrite bool_decide_false; [|unfold byte, EOF in *; lia].
      destruct (punct c) as [s'|] eqn:Hp.
      * cbn [lex]. rewrite Hsp Hp. cbn [at_text]. run. rewrite run_set_sym. run.
        apply agrees_Tok; [done|done|]. apply tok_at_text; intros ->; unfold punct in Hp;
          repeat (case_bool_decide; [discriminate|]); discriminate.
      * run. pose proof (next_word_sym_spec fuel' c cs s v nm Hsp Hp ltac:(lia) Htext Hnm) as H.
        unfold mbind, M_bind. destruct (lex (c :: cs)) as [t r| |].
        -- destruct H as (σ' & -> & ?). by exists σ'.
        -- destruct H as [σ' ->]. by exists σ'.
        -- by rewrite H.
Qed.

Lemma next_sym_agrees σ : wf σ → agrees (lex (rem σ)) (next_sym σ).
Proof.
  intros (Hσ & Hb & Hn). unfold next_sym.
  assert (length (rem σ) < S (S (length (input σ))))%nat as Hf.
  { unfold rem. case_bool_decide; simpl; lia. }
  pose proof (next_sym_loop _ _ _ (sym σ) (int_val σ) (id_name σ) Hf Hf Hb Hn) as H.
  by rewrite -Hσ in H.
Qed.

(** Reading a token shortens the text, and only the end of the text is [EOI]. *)
Lemma span_length f cs a b : span f cs = (a, b) → length cs = (length a + length b)%nat.
Proof. intros [-> _]%span_app. by rewrite length_app. Qed.

Lemma lex_length text t r :
  lex text = Tok t r → (length r ≤ length text)%nat ∧ (t.1 ≠ EOI → (length r < length text)%nat).
Proof.
  induction text as [|c cs IH]; cbn [lex]; [by intros [= <- <-]|].
  destruct (is_space c); [intros [??]%IH; simpl; split; [lia|intros ?; specialize (H0 H1); lia]|].
  destruct (punct c); [intros [= <- <-]; simpl; lia|].
  destruct (is_digit c) eqn:Hd.
  - destruct (span is_digit (c :: cs)) as [ds r'] eqn:Hs. pose proof (span_length _ _ _ _ Hs) as Hl.
    simpl in Hs. rewrite Hd in Hs. destruct (span is_digit cs). injection Hs as <- <-.
    case_bool_decide; [|done]. intros [= <- <-]. simpl in *. lia.
  - destruct (is_lower c) eqn:Hlow; [|done].
    destruct (span is_word (c :: cs)) as [w r'] eqn:Hs. pose proof (span_length _ _ _ _ Hs) as Hl.
    assert (is_word c = true) as Hw by by (unfold is_word; rewrite Hlow).
    simpl in Hs. rewrite Hw in Hs. destruct (span is_word cs). injection Hs as <- <-.
    case_bool_decide; [|done]. destruct (keyword _).
    + intros [= <- <-]. simpl in *. lia.
    + destruct l; [|done]. intros [= <- <-]. simpl in *. lia.
Qed.

(** C26: [next_sym] is the reference lexer: on a well-formed state it delivers the
    token that [lex] reads off the text that is left and leaves the rest; it exits
    with a syntax error exactly when [lex] says so, and is undefined exactly when
    an integer or an identifier is too long. *)
Theorem next_sym_correct σ :
  wf σ →
  match lex (rem σ) with
  | Tok t r => ∃ σ', next_sym σ = Ret tt σ' ∧ wf σ' ∧ rem σ' = r ∧ tok σ' = t
  | Bad => ∃ σ', next_sym σ = Exit 1 σ'
  | Overflow => next_sym σ = Undef
  end.
Proof. intros H. exact (next_sym_agrees σ H). Qed.

Lemma next_sym_correct_witness :
  wf (init_lexer (text_of "while")) ∧
  ∃ σ', next_sym (init_lexer (text_of "while")) = Ret tt σ' ∧ wf σ' ∧ rem σ' = [] ∧
        tok σ' = (WHILE_SYM, 0).
Proof.
  assert (wf (init_lexer (text_of "while"))) as H.
  { apply wf_init. repeat constructor; unfold byte; lia. }
  split; [exact H|]. exact (next_sym_correct _ H).
Defined.
