(* ===== verification/TinyParse.v ===== *)
(** The recursive descent parser of src/bin/paradigms/tiny_c/tinyc.c: it accepts
    exactly the grammar in the comment at the top of the file, it builds the tree
    in which every [else] belongs to the nearest [if], and it terminates. *)
From S2P Require Export TinyLex.
Local Open Scope Z_scope.

(** * The program *)

(** [struct node]: a node has a kind, and the operands and the value that nodes
    of that kind use.  The parser never shares a node, so a tree is a value; the
    [malloc] of [new_node] is taken to succeed. *)
Inductive node :=
  | VAR (val : Z)
  | CST (val : Z)
  | ADD (o1 o2 : node)
  | SUB (o1 o2 : node)
  | LT (o1 o2 : node)
  | SET (o1 o2 : node)
  | IF1 (o1 o2 : node)
  | IF2 (o1 o2 o3 : node)
  | WHILE (o1 o2 : node)
  | DO (o1 o2 : node)
  | EMPTY
  | SEQ (o1 o2 : node)
  | EXPR (o1 : node)
  | PROG (o1 : node).

(** [if (sym == s) { next_sym(); } else { syntax_error(); }] *)
Definition expect (s : symbol) : M lexer unit :=
  s' ← gets sym;
  if bool_decide (s' = s) then next_sym else syntax_error.

Definition is_VAR (x : node) : bool := match x with VAR _ => true | _ => false end.

(** Recursion descends at most six levels without reading a token, and a level of
    [fuel] is one call or one round of a loop. *)
Fixpoint term (fuel : nat) : M lexer node :=
  match fuel with
  | O => nofuel
  | S fuel =>
      s ← gets sym;
      if bool_decide (s = ID) then
        nm ← gets id_name;
        c ← defined (nm !! 0%nat);
        next_sym;;
        mret (VAR (c - 97))
      else if bool_decide (s = INT) then
        v ← gets int_val;
        next_sym;;
        mret (CST v)
      else paren_expr fuel
  end

with sum (fuel : nat) : M lexer node :=
  match fuel with
  | O => nofuel
  | S fuel =>
      x ← term fuel;
      loop fuel (λ x,
        s ← gets sym;
        if bool_decide (s = PLUS) || bool_decide (s = MINUS) then
          next_sym;;
          y ← term fuel;
          mret (inl (if bool_decide (s = PLUS) then ADD x y else SUB x y))
        else mret (inr x)) x
  end

with test (fuel : nat) : M lexer node :=
  match fuel with
  | O => nofuel
  | S fuel =>
      x ← sum fuel;
      s ← gets sym;
      if bool_decide (s = LESS) then
        next_sym;;
        y ← sum fuel;
        mret (LT x y)
      else mret x
  end

with expr (fuel : nat) : M lexer node :=
  match fuel with
  | O => nofuel
  | S fuel =>
      s ← gets sym;
      if negb (bool_decide (s = ID)) then test fuel
      else
        x ← test fuel;
        s ← gets sym;
        if is_VAR x && bool_decide (s = EQUAL) then
          next_sym;;
          y ← expr fuel;
          mret (SET x y)
        else mret x
  end

with paren_expr (fuel : nat) : M lexer node :=
  match fuel with
  | O => nofuel
  | S fuel =>
      expect LPAR;;
      x ← expr fuel;
      expect RPAR;;
      mret x
  end.

Fixpoint statement (fuel : nat) : M lexer node :=
  match fuel with
  | O => nofuel
  | S fuel =>
      s ← gets sym;
      if bool_decide (s = IF_SYM) then
        next_sym;;
        x ← paren_expr fuel;
        y ← statement fuel;
        s ← gets sym;
        if bool_decide (s = ELSE_SYM) then
          next_sym;;
          z ← statement fuel;
          mret (IF2 x y z)
        else mret (IF1 x y)
      else if bool_decide (s = WHILE_SYM) then
        next_sym;;
        x ← paren_expr fuel;
        y ← statement fuel;
        mret (WHILE x y)
      else if bool_decide (s = DO_SYM) then
        next_sym;;
        x ← statement fuel;
        expect WHILE_SYM;;
        y ← paren_expr fuel;
        expect SEMI;;
        mret (DO x y)
      else if bool_decide (s = SEMI) then
        next_sym;;
        mret EMPTY
      else if bool_decide (s = LBRA) then
        next_sym;;
        x ← loop fuel (λ x,
          s ← gets sym;
          if bool_decide (s = RBRA) then mret (inr x)
          else y ← statement fuel; mret (inl (SEQ x y))) EMPTY;
        next_sym;;
        mret x
      else
        x ← expr fuel;
        expect SEMI;;
        mret (EXPR x)
  end.

Definition program (fuel : nat) : M lexer node :=
  next_sym;;
  x ← statement fuel;
  s ← gets sym;
  if bool_decide (s = EOI) then mret (PROG x) else syntax_error.

(** * The grammar *)

(** Token sequences and the trees they stand for, one constructor per alternative
    of the grammar in tinyc.c. *)
Definition sym_tok (s : symbol) : token := (s, 0).

Inductive d_term : list token → node → Prop :=
  | d_id v : d_term [(ID, v)] (VAR v)
  | d_int v : d_term [(INT, v)] (CST v)
  | d_paren ts x : d_paren_expr ts x → d_term ts x
with d_sum : list token → node → Prop :=
  | d_sum_term ts x : d_term ts x → d_sum ts x
  | d_add ts1 x ts2 y : d_sum ts1 x → d_term ts2 y → d_sum (ts1 ++ sym_tok PLUS :: ts2) (ADD x y)
  | d_sub ts1 x ts2 y : d_sum ts1 x → d_term ts2 y → d_sum (ts1 ++ sym_tok MINUS :: ts2) (SUB x y)
with d_test : list token → node → Prop :=
  | d_test_sum ts x : d_sum ts x → d_test ts x
  | d_less ts1 x ts2 y : d_sum ts1 x → d_sum ts2 y → d_test (ts1 ++ sym_tok LESS :: ts2) (LT x y)
with d_expr : list token → node → Prop :=
  | d_expr_test ts x : d_test ts x → d_expr ts x
  | d_set v ts x : d_expr ts x → d_expr ((ID, v) :: sym_tok EQUAL :: ts) (SET (VAR v) x)
with d_paren_expr : list token → node → Prop :=
  | d_parens ts x : d_expr ts x → d_paren_expr (sym_tok LPAR :: ts ++ [sym_tok RPAR]) x.

Scheme d_term_mut := Minimality for d_term Sort Prop
  with d_sum_mut := Minimality for d_sum Sort Prop
  with d_test_mut := Minimality for d_test Sort Prop
  with d_expr_mut := Minimality for d_expr Sort Prop
  with d_paren_expr_mut := Minimality for d_paren_expr Sort Prop.
Combined Scheme d_expr_mutind from d_term_mut, d_sum_mut, d_test_mut, d_expr_mut, d_paren_expr_mut.

Inductive d_stmt : list token → node → Prop :=
  | d_if1 ts1 x ts2 y : d_paren_expr ts1 x → d_stmt ts2 y →
      d_stmt (sym_tok IF_SYM :: ts1 ++ ts2) (IF1 x y)
  | d_if2 ts1 x ts2 y ts3 z : d_paren_expr ts1 x → d_stmt ts2 y → d_stmt ts3 z →
      d_stmt (sym_tok IF_SYM :: ts1 ++ ts2 ++ sym_tok ELSE_SYM :: ts3) (IF2 x y z)
  | d_while ts1 x ts2 y : d_paren_expr ts1 x → d_stmt ts2 y →
      d_stmt (sym_tok WHILE_SYM :: ts1 ++ ts2) (WHILE x y)
  | d_do ts1 x ts2 y : d_stmt ts1 x → d_paren_expr ts2 y →
      d_stmt (sym_tok DO_SYM :: ts1 ++ sym_tok WHILE_SYM :: ts2 ++ [sym_tok SEMI]) (DO x y)
  | d_block ts x : d_stmts ts x → d_stmt (sym_tok LBRA :: ts ++ [sym_tok RBRA]) x
  | d_expr_stmt ts x : d_expr ts x → d_stmt (ts ++ [sym_tok SEMI]) (EXPR x)
  | d_empty : d_stmt [sym_tok SEMI] EMPTY
with d_stmts : list token → node → Prop :=
  | d_stmts_nil : d_stmts [] EMPTY
  | d_stmts_snoc ts1 x ts2 y : d_stmts ts1 x → d_stmt ts2 y → d_stmts (ts1 ++ ts2) (SEQ x y).

Scheme d_stmt_mut := Minimality for d_stmt Sort Prop
  with d_stmts_mut := Minimality for d_stmts Sort Prop.
Combined Scheme d_stmt_mutind from d_stmt_mut, d_stmts_mut.

(** [closed x]: a following [else] would not belong to an [if] at the end of [x].
    [greedy x]: no [else] in [x] belongs to an [if] that is not the nearest. *)
Fixpoint closed (x : node) : bool :=
  match x with
  | IF1 _ _ => false
  | IF2 _ _ z => closed z
  | WHILE _ y => closed y
  | _ => true
  end.

Fixpoint greedy (x : node) : bool :=
  match x with
  | IF1 _ y => greedy y
  | IF2 _ y z => greedy y && closed y && greedy z
  | WHILE _ y => greedy y
  | DO x _ => greedy x
  | SEQ x y => greedy x && greedy y
  | _ => true
  end.

(** * Soundness *)

(** Reading the tokens [ts] leads from one state to the other. *)
Inductive consumes : lexer → list token → lexer → Prop :=
  | consumes_nil σ : consumes σ [] σ
  | consumes_cons σ σ1 ts σ' : next_sym σ = Ret tt σ1 → consumes σ1 ts σ' → consumes σ (tok σ :: ts) σ'.

Lemma consumes_app σ ts1 ts2 σ' :
  consumes σ (ts1 ++ ts2) σ' ↔ ∃ σ1, consumes σ ts1 σ1 ∧ consumes σ1 ts2 σ'.
Proof.
  split.
  - revert σ. induction ts1 as [|t ts1 IH]; intros σ; simpl; [eauto using consumes|].
    inversion 1 as [|? ? ? ? Hn Hc]; subst. destruct (IH _ Hc) as (σ2 & ? & ?). eauto using consumes.
  - intros (σ1 & H1 & H2). induction H1; simpl; eauto using consumes.
Qed.

Lemma consumes_one σ σ' : next_sym σ = Ret tt σ' → consumes σ [tok σ] σ'.
Proof. intros. eauto using consumes. Qed.

Lemma consumes_snoc σ ts σ1 σ' :
  consumes σ ts σ1 → next_sym σ1 = Ret tt σ' → consumes σ (ts ++ [tok σ1]) σ'.
Proof. intros. apply consumes_app. eauto using consumes_one. Qed.

Lemma tok_sym σ s : sym σ = s → s ≠ INT → s ≠ ID → tok σ = sym_tok s.
Proof. intros <- ??. unfold tok. by destruct (sym σ). Qed.

Lemma expect_inv s σ u σ' :
  expect s σ = Ret u σ' → s ≠ INT → s ≠ ID → consumes σ [sym_tok s] σ'.
Proof.
  unfold expect. intros H ??. run_inv H. case_bool_decide as Hs; [|done].
  rewrite -(tok_sym σ s) //. destruct u. by apply consumes_one.
Qed.

(** Case analysis on the tests of the current symbol in a run. *)
Ltac on_sym H :=
  lazymatch type of H with
  | context [bool_decide (sym ?σ = ?s)] =>
      let E := fresh "Hs" in destruct (bool_decide_reflect (sym σ = s)) as [E|E]
  end; cbn [orb andb negb] in H; cbv iota in H.

Lemma next_sym_run σ u σ' s :
  next_sym σ = Ret u σ' → sym σ = s → s ≠ INT → s ≠ ID → consumes σ [sym_tok s] σ'.
Proof. intros H Hs ??. rewrite -(tok_sym σ s) //. destruct u. by apply consumes_one. Qed.

Lemma term_sound n :
  (∀ σ x σ', paren_expr n σ = Ret x σ' → ∃ ts, consumes σ ts σ' ∧ d_paren_expr ts x) →
  ∀ σ x σ', term (S n) σ = Ret x σ' → ∃ ts, consumes σ ts σ' ∧ d_term ts x.
Proof.
  intros IH σ x σ' H. cbn [term] in H. run_inv H. on_sym H; [|on_sym H].
  - run_inv H. destruct (id_name σ !! 0%nat) as [c|] eqn:Hc; simpl in Hrun; [|done].
    injection Hrun as <- <-. injection H as <- <-. destruct x1. eexists. split; [by apply consumes_one|].
    unfold tok. rewrite Hs Hc. apply d_id.
  - run_inv H. injection H as <- <-. destruct x0. eexists. split; [by apply consumes_one|].
    unfold tok. rewrite Hs0. apply d_int.
  - apply IH in H as (ts & ? & ?). eauto using d_term.
Qed.

Lemma sum_sound n :
  (∀ σ x σ', term n σ = Ret x σ' → ∃ ts, consumes σ ts σ' ∧ d_term ts x) →
  ∀ σ x σ', sum (S n) σ = Ret x σ' → ∃ ts, consumes σ ts σ' ∧ d_sum ts x.
Proof.
  intros IH σ x σ' H. cbn [sum] in H. run_inv H. apply IH in Hrun as (ts & Hc & Hd).
  pose (I := λ x1 σ1, ∃ ts, consumes σ ts σ1 ∧ d_sum ts x1).
  refine (loop_inv I I _ _ _ _ _ _ _ _ H); [|exists ts; eauto using d_sum].
  clear -IH. intros y σ1 r σ2 (ts & Hc & Hd) H. run_inv H.
  on_sym H; [|on_sym H]; [| |injection H as <- <-; by exists ts].
  all: run_inv H; injection H as <- <-; apply IH in Hrun0 as (ts2 & Hc2 & Hd2).
  - apply (next_sym_run _ _ _ _ Hrun) in Hs; [|done..]. exists (ts ++ sym_tok PLUS :: ts2).
    split; [|by apply d_add]. apply consumes_app. exists σ1. split; [done|].
    apply (consumes_app _ [_]). eauto.
  - apply (next_sym_run _ _ _ _ Hrun) in Hs0; [|done..]. exists (ts ++ sym_tok MINUS :: ts2).
    split; [|by apply d_sub]. apply consumes_app. exists σ1. split; [done|].
    apply (consumes_app _ [_]). eauto.
Qed.

Lemma consumes_cons_app σ t ts σ1 σ' : consumes σ [t] σ1 → consumes σ1 ts σ' → consumes σ (t :: ts) σ'.
Proof. intros. apply (consumes_app _ [t]). eauto. Qed.

Lemma consumes_trans σ ts1 ts2 σ1 σ' :
  consumes σ ts1 σ1 → consumes σ1 ts2 σ' → consumes σ (ts1 ++ ts2) σ'.
Proof. intros. apply consumes_app. eauto. Qed.

Lemma test_sound n :
  (∀ σ x σ', sum n σ = Ret x σ' → ∃ ts, consumes σ ts σ' ∧ d_sum ts x) →
  ∀ σ x σ', test (S n) σ = Ret x σ' → ∃ ts, consumes σ ts σ' ∧ d_test ts x.
Proof.
  intros IH σ x σ' H. cbn [test] in H. run_inv H. apply IH in Hrun as (ts1 & Hc1 & Hd1). on_sym H.
  - run_inv H. injection H as <- <-. apply IH in Hrun0 as (ts2 & Hc2 & Hd2).
    apply (next_sym_run _ _ _ _ Hrun) in Hs; [|done..]. exists (ts1 ++ sym_tok LESS :: ts2).
    split; [|by apply d_less]. eauto using consumes_trans, consumes_cons_app.
  - injection H as <- <-. eauto using d_test.
Qed.

Lemma d_expr_head :
  (∀ ts x, d_term ts x → ∃ t ts', ts = t :: ts' ∧ (t.1 = ID ∨ t.1 = INT ∨ t.1 = LPAR) ∧
     (is_VAR x = true → t.1 = ID → ∃ v, ts = [(ID, v)] ∧ x = VAR v)) ∧
  (∀ ts x, d_sum ts x → ∃ t ts', ts = t :: ts' ∧ (t.1 = ID ∨ t.1 = INT ∨ t.1 = LPAR) ∧
     (is_VAR x = true → t.1 = ID → ∃ v, ts = [(ID, v)] ∧ x = VAR v)) ∧
  (∀ ts x, d_test ts x → ∃ t ts', ts = t :: ts' ∧ (t.1 = ID ∨ t.1 = INT ∨ t.1 = LPAR) ∧
     (is_VAR x = true → t.1 = ID → ∃ v, ts = [(ID, v)] ∧ x = VAR v)) ∧
  (∀ ts x, d_expr ts x → ∃ t ts', ts = t :: ts' ∧ (t.1 = ID ∨ t.1 = INT ∨ t.1 = LPAR) ∧
     (is_VAR x = true → t.1 = ID → ∃ v, ts = [(ID, v)] ∧ x = VAR v)) ∧
  (∀ ts x, d_paren_expr ts x → ∃ ts', ts = sym_tok LPAR :: ts').
Proof.
  apply d_expr_mutind; try done.
  - intros v. do 2 eexists. split; [done|]. split; [by left|]. eauto.
  - intros v. do 2 eexists. split; [done|]. split; [by right; left|]. done.
  - intros ts x _ (ts' & ->). do 2 eexists. split; [done|]. split; [by right; right|]. done.
  - intros ts1 x ts2 y _ (t & ts' & -> & ? & _) _ _. simpl. do 2 eexists. split; [done|]. by split.
  - intros ts1 x ts2 y _ (t & ts' & -> & ? & _) _ _. simpl. do 2 eexists. split; [done|]. by split.
  - intros ts1 x ts2 y _ (t & ts' & -> & ? & _) _ _. simpl. do 2 eexists. split; [done|]. by split.
  - intros v ts x _ _. do 2 eexists. split; [done|]. split; [by left|]. done.
  - intros ts x _ _. by eexists.
Qed.

Lemma consumes_head σ t ts σ' : consumes σ (t :: ts) σ' → tok σ = t.
Proof. by inversion 1. Qed.

Lemma tok_fst σ : (tok σ).1 = sym σ.
Proof. unfold tok. by destruct (sym σ). Qed.

Lemma expr_sound_step n :
  (∀ σ x σ', test n σ = Ret x σ' → ∃ ts, consumes σ ts σ' ∧ d_test ts x) →
  (∀ σ x σ', expr n σ = Ret x σ' → ∃ ts, consumes σ ts σ' ∧ d_expr ts x) →
  ∀ σ x σ', expr (S n) σ = Ret x σ' → ∃ ts, consumes σ ts σ' ∧ d_expr ts x.
Proof.
  intros IHt IH σ x σ' H. cbn [expr] in H. run_inv H. on_sym H.
  - run_inv H. apply IHt in Hrun as (ts1 & Hc1 & Hd1). destruct (is_VAR x0) eqn:HV; cbn [andb] in H;
      [on_sym H|]; [|injection H as <- <-; eauto using d_expr..].
    destruct (proj1 (proj2 (proj2 d_expr_head)) _ _ Hd1) as (t & ts' & -> & _ & Hv).
    destruct Hv as (v & [= -> ->] & ->); [done|by rewrite -(consumes_head _ _ _ _ Hc1) tok_fst|].
    run_inv H. injection H as <- <-. apply IH in Hrun0 as (ts2 & Hc2 & Hd2).
    apply (next_sym_run _ _ _ _ Hrun) in Hs0; [|done..]. exists ((ID, v) :: sym_tok EQUAL :: ts2).
    split; [|by apply d_set]. eauto using consumes_cons_app.
  - apply IHt in H as (ts & ? & ?). eauto using d_expr.
Qed.

Lemma expr_sound n :
  (∀ σ x σ', term n σ = Ret x σ' → ∃ ts, consumes σ ts σ' ∧ d_term ts x) ∧
  (∀ σ x σ', sum n σ = Ret x σ' → ∃ ts, consumes σ ts σ' ∧ d_sum ts x) ∧
  (∀ σ x σ', test n σ = Ret x σ' → ∃ ts, consumes σ ts σ' ∧ d_test ts x) ∧
  (∀ σ x σ', expr n σ = Ret x σ' → ∃ ts, consumes σ ts σ' ∧ d_expr ts x) ∧
  (∀ σ x σ', paren_expr n σ = Ret x σ' → ∃ ts, consumes σ ts σ' ∧ d_paren_expr ts x).
Proof.
  induction n as [|n (IHterm & IHsum & IHtest & IHexpr & IHparen)]; [by repeat split|].
  split_and!; [by apply term_sound|by apply sum_sound|by apply test_sound|by apply expr_sound_step|].
  intros σ x σ' H. cbn [paren_expr] in H. run_inv H. injection H as <- <-.
  apply IHexpr in Hrun0 as (ts & ? & ?). apply expect_inv in Hrun, Hrun1; [|done..].
  eexists. split; [|by apply d_parens]. eauto using consumes_cons_app, consumes_trans.
Qed.

(** What a successful parse of a statement from [σ] to [σ'] shows. *)
Definition parsed (σ : lexer) (x : node) (σ' : lexer) : Prop :=
  ∃ ts, consumes σ ts σ' ∧ d_stmt ts x ∧ greedy x = true ∧ (closed x = false → sym σ' ≠ ELSE_SYM).

Lemma d_stmts_greedy ts x : d_stmts ts x → closed x = true.
Proof. by destruct 1. Qed.

Lemma block_sound n :
  (∀ σ x σ', statement n σ = Ret x σ' → parsed σ x σ') →
  ∀ σ x σ', loop n (λ x,
      s ← gets sym;
      if bool_decide (s = RBRA) then mret (inr x)
      else y ← statement n; mret (inl (SEQ x y))) EMPTY σ = Ret x σ' →
    sym σ' = RBRA ∧ ∃ ts, consumes σ ts σ' ∧ d_stmts ts x ∧ greedy x = true.
Proof.
  intros IH σ x σ' H.
  refine (loop_inv (λ x1 σ1, ∃ ts, consumes σ ts σ1 ∧ d_stmts ts x1 ∧ greedy x1 = true)
    (λ x1 σ1, sym σ1 = RBRA ∧ ∃ ts, consumes σ ts σ1 ∧ d_stmts ts x1 ∧ greedy x1 = true)
    _ _ _ _ _ _ _ _ H); [|exists []; eauto using consumes, d_stmts].
  clear -IH. intros y σ1 r σ2 (ts & Hc & Hd & Hg) H. run_inv H. on_sym H.
  - injection H as <- <-. eauto.
  - run_inv H. injection H as <- <-. apply IH in Hrun as (ts2 & Hc2 & Hd2 & Hg2 & _).
    exists (ts ++ ts2). split; [by eapply consumes_trans|]. split; [by apply d_stmts_snoc|].
    by rewrite /= Hg Hg2.
Qed.

Lemma statement_sound n σ x σ' : statement n σ = Ret x σ' → parsed σ x σ'.
Proof.
  revert σ x σ'. induction n as [|n IH]; intros σ x σ' H; [done|].
  destruct (expr_sound n) as (_ & _ & _ & He & Hp).
  cbn [statement] in H. run_inv H. on_sym H; [|on_sym H; [|on_sym H; [|on_sym H; [|on_sym H]]]].
  - run_inv H. apply (next_sym_run _ _ _ _ Hrun) in Hs; [|done..].
    apply Hp in Hrun0 as (ts1 & Hc1 & Hd1). apply IH in Hrun1 as (ts2 & Hc2 & Hd2 & Hg2 & Hcl2).
    on_sym H.
    + run_inv H. injection H as <- <-. apply IH in Hrun1 as (ts3 & Hc3 & Hd3 & Hg3 & Hcl3).
      apply (next_sym_run _ _ _ _ Hrun0) in Hs0 as He2; [|done..].
      exists (sym_tok IF_SYM :: ts1 ++ ts2 ++ sym_tok ELSE_SYM :: ts3).
      split; [eauto 7 using consumes_cons_app, consumes_trans|]. split; [by apply d_if2|].
      split; [|done]. simpl. destruct (closed x2) eqn:Hcl; [by rewrite Hg2 Hg3|by destruct (Hcl2 eq_refl)].
    + injection H as <- <-. exists (sym_tok IF_SYM :: ts1 ++ ts2).
      split; [eauto using consumes_cons_app, consumes_trans|]. split; [by apply d_if1|]. done.
  - run_inv H. injection H as <- <-. apply (next_sym_run _ _ _ _ Hrun) in Hs0; [|done..].
    apply Hp in Hrun0 as (ts1 & Hc1 & Hd1). apply IH in Hrun1 as (ts2 & Hc2 & Hd2 & Hg2 & Hcl2).
    exists (sym_tok WHILE_SYM :: ts1 ++ ts2).
    split; [eauto using consumes_cons_app, consumes_trans|]. split; [by apply d_while|]. done.
  - run_inv H. injection H as <- <-. apply (next_sym_run _ _ _ _ Hrun) in Hs1; [|done..].
    apply IH in Hrun0 as (ts1 & Hc1 & Hd1 & Hg1 & _). apply expect_inv in Hrun1, Hrun3; [|done..].
    apply Hp in Hrun2 as (ts2 & Hc2 & Hd2).
    exists (sym_tok DO_SYM :: ts1 ++ sym_tok WHILE_SYM :: ts2 ++ [sym_tok SEMI]).
    split; [eauto 7 using consumes_cons_app, consumes_trans|]. split; [by apply d_do|]. done.
  - run_inv H. injection H as <- <-. apply (next_sym_run _ _ _ _ Hrun) in Hs2; [|done..].
    exists [sym_tok SEMI]. split; [done|]. split; [apply d_empty|]. done.
  - run_inv H. injection H as <- <-. apply (next_sym_run _ _ _ _ Hrun) in Hs3; [|done..].
    apply (block_sound n IH) in Hrun0 as (Hs4 & ts & Hc & Hd & Hg).
    apply (next_sym_run _ _ _ _ Hrun1) in Hs4; [|done..].
    exists (sym_tok LBRA :: ts ++ [sym_tok RBRA]).
    split; [eauto using consumes_cons_app, consumes_trans|]. split; [by apply d_block|].
    split; [done|]. by rewrite (d_stmts_greedy _ _ Hd).
  - run_inv H. injection H as <- <-. apply He in Hrun as (ts & Hc & Hd).
    apply expect_inv in Hrun0; [|done..]. exists (ts ++ [sym_tok SEMI]).
    split; [eauto using consumes_trans|]. split; [by apply d_expr_stmt|]. done.
Qed.

(** * Completeness *)

Lemma consumes_cons_inv σ t ts σ' :
  consumes σ (t :: ts) σ' → tok σ = t ∧ ∃ σ1, next_sym σ = Ret tt σ1 ∧ consumes σ1 ts σ'.
Proof. inversion 1; subst. eauto. Qed.

Lemma sym_of_tok σ t : tok σ = t → sym σ = t.1.
Proof. intros <-. by rewrite tok_fst. Qed.

Lemma run_bind {A B} (m : M lexer A) (k : A → M lexer B) σ a σ' :
  m σ = Ret a σ' → (m ≫= k) σ = k a σ'.
Proof. apply M_bind_Ret. Qed.

Definition sum_body (n : nat) (x : node) : M lexer (node + node) :=
  s ← gets sym;
  if bool_decide (s = PLUS) || bool_decide (s = MINUS) then
    next_sym;;
    y ← term n;
    mret (inl (if bool_decide (s = PLUS) then ADD x y else SUB x y))
  else mret (inr x).

Lemma next_sym_wf σ u σ' : wf σ → next_sym σ = Ret u σ' → wf σ'.
Proof.
  intros Hwf Hn. pose proof (next_sym_agrees σ Hwf) as H. rewrite Hn in H.
  destruct (lex (rem σ)); [by destruct H as (? & [= _ <-] & ? & _)|by destruct H|done].
Qed.

Lemma consumes_wf σ ts σ' : wf σ → consumes σ ts σ' → wf σ'.
Proof. intros Hwf H. induction H; eauto using next_sym_wf. Qed.

(** The parser of each nonterminal returns the tree of a derivation, when the
    next symbol cannot continue it. *)
Definition c_term (ts : list token) (x : node) : Prop := ∀ n σ σ', wf σ →
  (6 * length ts + 1 ≤ n)%nat → consumes σ ts σ' → term n σ = Ret x σ'.
Definition c_sum (ts : list token) (x : node) : Prop := ∀ n σ σ', wf σ →
  (6 * length ts + 1 ≤ n)%nat → consumes σ ts σ' → ∃ k, (n ≤ k + length ts)%nat ∧
    (term n ≫= loop n (sum_body n)) σ = loop k (sum_body n) x σ'.
Definition c_test (ts : list token) (x : node) : Prop := ∀ n σ σ', wf σ →
  (6 * length ts + 3 ≤ n)%nat → consumes σ ts σ' →
  sym σ' ≠ PLUS → sym σ' ≠ MINUS → sym σ' ≠ LESS → test n σ = Ret x σ'.
Definition c_expr (ts : list token) (x : node) : Prop := ∀ n σ σ', wf σ →
  (6 * length ts + 4 ≤ n)%nat → consumes σ ts σ' →
  sym σ' ≠ PLUS → sym σ' ≠ MINUS → sym σ' ≠ LESS → sym σ' ≠ EQUAL → expr n σ = Ret x σ'.
Definition c_paren_expr (ts : list token) (x : node) : Prop := ∀ n σ σ', wf σ →
  (6 * length ts ≤ n)%nat → consumes σ ts σ' → paren_expr n σ = Ret x σ'.

(** Read the first of the tokens that [H] consumes. *)
Ltac read H :=
  let Ht := fresh "Ht" in let Hn := fresh "Hn" in let Hs := fresh "Hs" in let σ1 := fresh "σ" in
  apply consumes_cons_inv in H as (Ht & σ1 & Hn & H);
  pose proof (sym_of_tok _ _ Ht) as Hs; cbn [sym_tok fst] in Hs;
  match goal with
  | Hwf : wf ?σ, Hn : next_sym ?σ = Ret _ _ |- _ => pose proof (next_sym_wf _ _ _ Hwf Hn)
  end.

(** Decide the tests of a symbol that is known. *)
Ltac known_sym :=
  repeat match goal with
  | H : sym ?σ = ?s |- context [bool_decide (sym ?σ = ?s')] =>
      first [ rewrite (bool_decide_true (sym σ = s')); [|by rewrite H]
            | rewrite (bool_decide_false (sym σ = s')); [|by rewrite H] ]
  | H : sym ?σ ≠ ?s |- context [bool_decide (sym ?σ = ?s)] => rewrite (bool_decide_false (sym σ = s)); [|done]
  end; cbn [orb andb negb]; cbv iota.

(** Run a call that is known to return. *)
Ltac run_call H := rewrite (run_bind _ _ _ _ _ H); run.

Lemma sum_step n k x σ ts y σ' (s : symbol) :
  s = PLUS ∨ s = MINUS → c_term ts y → wf σ → (6 * length ts + 1 ≤ n)%nat →
  consumes σ (sym_tok s :: ts) σ' →
  loop (S k) (sum_body n) x σ =
  loop k (sum_body n) (if bool_decide (s = PLUS) then ADD x y else SUB x y) σ'.
Proof.
  intros Hs Hy Hwf Hn Hc. read Hc.
  assert (sum_body n x σ = Ret (inl (if bool_decide (s = PLUS) then ADD x y else SUB x y)) σ') as Hb.
  { unfold sum_body. run. rewrite Hs0.
    rewrite (_ : bool_decide (s = PLUS) || bool_decide (s = MINUS) = true);
      [|by destruct Hs as [-> | ->]].
    run_call Hn0. by run_call (Hy n σ0 σ' H Hn Hc). }
  rewrite run_loop. by run_call Hb.
Qed.

Lemma sum_complete ts x :
  c_sum ts x → ∀ n σ σ', wf σ → (6 * length ts + 2 ≤ n)%nat → consumes σ ts σ' →
  sym σ' ≠ PLUS → sym σ' ≠ MINUS → sum n σ = Ret x σ'.
Proof.
  intros Hx [|n] σ σ' Hwf Hn Hc Hp Hm; [lia|]. destruct (Hx n σ σ') as (k & Hk & H); [done|lia|done|].
  change (sum (S n) σ) with ((term n ≫= loop n (sum_body n)) σ). rewrite H.
  destruct k as [|k]; [lia|]. assert (sum_body n x σ' = Ret (inr x) σ') as Hb.
  { unfold sum_body. run. by known_sym. }
  rewrite run_loop. by run_call Hb.
Qed.

Lemma wf_id_name σ v : wf σ → tok σ = (ID, v) → ∃ c, id_name σ !! 0%nat = Some c ∧ v = c - 97.
Proof.
  intros (_ & _ & Hl) Ht. pose proof (sym_of_tok _ _ Ht) as Hs. unfold tok in Ht. rewrite Hs in Ht.
  destruct (id_name σ) as [|c nm]; [done|]. injection Ht as <-. by exists c.
Qed.

Lemma c_id v : c_term [(ID, v)] (VAR v).
Proof.
  intros [|n] σ σ' Hwf Hn Hc; [simpl in Hn; lia|]. read Hc. inversion Hc; subst; clear Hc.
  destruct (wf_id_name _ _ Hwf Ht) as (c & Hc & ->).
  cbn [term]. run. known_sym. run. rewrite Hc. run. by run_call Hn0.
Qed.

Lemma c_sum_term ts x : c_term ts x → c_sum ts x.
Proof. intros H n σ σ' Hwf Hn Hc. exists n. split; [lia|]. by run_call (H n σ σ' Hwf Hn Hc). Qed.

Lemma c_test_sum ts x : c_sum ts x → c_test ts x.
Proof.
  intros H [|n] σ σ' Hwf Hn Hc Hp Hm Hl; [lia|]. cbn [test].
  run_call (sum_complete _ _ H n σ σ' Hwf ltac:(lia) Hc Hp Hm). by known_sym.
Qed.

Lemma run_expect {A} (k : unit → M lexer A) s σ σ' :
  sym σ = s → next_sym σ = Ret tt σ' → (expect s ≫= k) σ = k tt σ'.
Proof. intros Hs Hn. unfold expect. run. known_sym. by run_call Hn. Qed.

Lemma d_expr_complete :
  (∀ ts x, d_term ts x → c_term ts x) ∧ (∀ ts x, d_sum ts x → c_sum ts x) ∧
  (∀ ts x, d_test ts x → c_test ts x) ∧ (∀ ts x, d_expr ts x → c_expr ts x) ∧
  (∀ ts x, d_paren_expr ts x → c_paren_expr ts x).
Proof.
  apply d_expr_mutind.
  - exact c_id.
  - intros v [|n] σ σ' Hwf Hn Hc; [simpl in Hn; lia|]. read Hc. inversion Hc; subst; clear Hc.
    unfold tok in Ht. rewrite Hs in Ht. injection Ht as <-.
    cbn [term]. run. known_sym. run. by run_call Hn0.
  - intros ts x Hd IH [|n] σ σ' Hwf Hn Hc; [lia|].
    destruct (proj2 (proj2 (proj2 (proj2 d_expr_head))) _ _ Hd) as (ts' & ->).
    pose proof Hc as Hc'. read Hc'. cbn [term]. run. known_sym. apply IH; [done|lia|done].
  - intros ts x _. apply c_sum_term.
  - intros ts1 x ts2 y _ IHx _ IHy n σ σ' Hwf Hn Hc. rewrite length_app /= in Hn |- *.
    apply consumes_app in Hc as (σ1 & Hc1 & Hc2).
    destruct (IHx n σ σ1) as (k & Hk & ->); [done|lia|done|]. destruct k as [|k]; [lia|].
    exists k. split; [lia|].
    rewrite (sum_step n k x σ1 ts2 y σ' PLUS); [done|by left|done|by eapply consumes_wf|lia|done].
  - intros ts1 x ts2 y _ IHx _ IHy n σ σ' Hwf Hn Hc. rewrite length_app /= in Hn |- *.
    apply consumes_app in Hc as (σ1 & Hc1 & Hc2).
    destruct (IHx n σ σ1) as (k & Hk & ->); [done|lia|done|]. destruct k as [|k]; [lia|].
    exists k. split; [lia|].
    rewrite (sum_step n k x σ1 ts2 y σ' MINUS); [done|by right|done|by eapply consumes_wf|lia|done].
  - intros ts x _. apply c_test_sum.
  - intros ts1 x ts2 y _ IHx _ IHy [|n] σ σ' Hwf Hn Hc Hp Hm Hl; [lia|].
    rewrite length_app /= in Hn. apply consumes_app in Hc as (σ1 & Hc1 & Hc2).
    pose proof (consumes_wf _ _ _ Hwf Hc1) as Hwf1. read Hc2. cbn [test].
    run_call (sum_complete _ _ IHx n σ σ1 Hwf ltac:(lia) Hc1 ltac:(congruence) ltac:(congruence)).
    known_sym. run_call Hn0. by run_call (sum_complete _ _ IHy n σ0 σ' H ltac:(lia) Hc2 Hp Hm).
  - intros ts x Hd IH [|n] σ σ' Hwf Hn Hc Hp Hm Hl He; [lia|]. cbn [expr]. run.
    pose proof (IH n σ σ' Hwf ltac:(lia) Hc Hp Hm Hl) as Ht.
    destruct (bool_decide_reflect (sym σ = ID)); cbn [negb]; [|done]. run_call Ht. known_sym.
    by rewrite andb_false_r.
  - intros v ts x _ IH [|n] σ σ' Hwf Hn Hc Hp Hm Hl He; simpl in Hn; [lia|]. read Hc.
    pose proof (consumes_cons _ _ _ _ Hn0 (consumes_nil _)) as Hc1. rewrite Ht in Hc1.
    read Hc. cbn [expr]. run. known_sym.
    run_call (c_test_sum _ _ (c_sum_term _ _ (c_id v)) n σ σ0 Hwf ltac:(simpl; lia) Hc1
      ltac:(congruence) ltac:(congruence) ltac:(congruence)).
    cbn [is_VAR andb]. known_sym. run_call Hn1. by run_call (IH n σ1 σ' H0 ltac:(lia) Hc Hp Hm Hl He).
  - intros ts x _ IH [|n] σ σ' Hwf Hn Hc; simpl in Hn; rewrite length_app /= in Hn; [lia|]. read Hc.
    apply consumes_app in Hc as (σ1 & Hc & Hr). pose proof (consumes_wf _ _ _ H Hc). read Hr.
    inversion Hr; subst; clear Hr. cbn [paren_expr]. rewrite (run_expect _ _ _ _ Hs Hn0).
    run_call (IH n σ0 σ1 H ltac:(lia) Hc ltac:(congruence) ltac:(congruence) ltac:(congruence) ltac:(congruence)).
    by rewrite (run_expect _ _ _ _ Hs0 Hn1).
Qed.

Definition block_body (n : nat) (x : node) : M lexer (node + node) :=
  s ← gets sym;
  if bool_decide (s = RBRA) then mret (inr x)
  else y ← statement n; mret (inl (SEQ x y)).

Definition c_stmt (ts : list token) (x : node) : Prop := ∀ n σ σ', wf σ →
  (6 * length ts + 5 ≤ n)%nat → consumes σ ts σ' → greedy x = true →
  (closed x = false → sym σ' ≠ ELSE_SYM) → statement n σ = Ret x σ'.
Definition c_stmts (ts : list token) (x : node) : Prop := ∀ n σ σ', wf σ →
  (6 * length ts + 5 ≤ n)%nat → consumes σ ts σ' → greedy x = true → sym σ' ≠ ELSE_SYM →
  ∃ k, (n ≤ k + length ts)%nat ∧ loop n (block_body n) EMPTY σ = loop k (block_body n) x σ'.

Lemma d_stmt_head ts x :
  d_stmt ts x → ∃ t ts', ts = t :: ts' ∧ t.1 ≠ ELSE_SYM ∧ t.1 ≠ RBRA.
Proof.
  destruct 1 as [| | | | |ts x H|]; try (do 2 eexists; split; [done|by split]).
  destruct (proj1 (proj2 (proj2 (proj2 d_expr_head))) _ _ H) as (t & ts' & -> & Ht & _).
  do 2 eexists. split; [done|]. by destruct Ht as [E|[E|E]]; rewrite E.
Qed.

Lemma expr_complete ts x n σ σ' s :
  d_expr ts x → wf σ → (6 * length ts + 4 ≤ n)%nat → consumes σ ts σ' →
  sym σ' = s → s = RPAR ∨ s = SEMI → expr n σ = Ret x σ'.
Proof.
  intros Hd Hwf Hn Hc Hs H. apply d_expr_complete in Hd. destruct H; apply Hd; (done || congruence).
Qed.

Lemma paren_complete ts x n σ σ' :
  d_paren_expr ts x → wf σ → (6 * length ts ≤ n)%nat → consumes σ ts σ' → paren_expr n σ = Ret x σ'.
Proof. intros Hd Hwf Hn Hc. apply d_expr_complete in Hd. by apply Hd. Qed.

Lemma stmts_step ts1 x ts2 y :
  c_stmts ts1 x → d_stmt ts2 y → c_stmt ts2 y → c_stmts (ts1 ++ ts2) (SEQ x y).
Proof.
  intros IHx Hd IHy n σ σ' Hwf Hn Hc Hg He. rewrite length_app in Hn |- *.
  simpl in Hg. apply andb_true_iff in Hg as [Hg1 Hg2].
  apply consumes_app in Hc as (σ1 & Hc1 & Hc2).
  destruct (d_stmt_head _ _ Hd) as (t & ts' & -> & Ht1 & Ht2).
  pose proof (sym_of_tok _ _ (consumes_head _ _ _ _ Hc2)) as Hs. rewrite -Hs in Ht1 Ht2.
  destruct (IHx n σ σ1) as (k & Hk & ->); [done|lia|done|done|done|].
  destruct k as [|k]; [simpl in *; lia|]. exists k. split; [simpl in *; lia|].
  assert (block_body n x σ1 = Ret (inl (SEQ x y)) σ') as Hb.
  { unfold block_body. run. known_sym.
    by run_call (IHy n σ1 σ' (consumes_wf _ _ _ Hwf Hc1) ltac:(lia) Hc2 Hg2 (λ _, He)). }
  rewrite run_loop. by run_call Hb.
Qed.

Lemma block_complete ts x n σ σ' :
  c_stmts ts x → wf σ → (6 * length ts + 5 ≤ n)%nat → consumes σ ts σ' → greedy x = true →
  sym σ' = RBRA → loop n (block_body n) EMPTY σ = Ret x σ'.
Proof.
  intros H Hwf Hn Hc Hg Hs. destruct (H n σ σ') as (k & Hk & ->); [done|done|done|done|congruence|].
  destruct k as [|k]; [lia|]. assert (block_body n x σ' = Ret (inr x) σ') as Hb.
  { unfold block_body. run. by known_sym. }
  rewrite run_loop. by run_call Hb.
Qed.

Lemma if1_complete ts1 x ts2 y :
  d_paren_expr ts1 x → c_stmt ts2 y → c_stmt (sym_tok IF_SYM :: ts1 ++ ts2) (IF1 x y).
Proof.
  intros Hx IHy [|n] σ σ' Hwf Hn Hc Hg He; simpl in Hn; [lia|]. rewrite length_app in Hn. read Hc.
  apply consumes_app in Hc as (σ1 & Hc1 & Hc2). pose proof (consumes_wf _ _ _ H Hc1).
  cbn [statement]. run. known_sym. run_call Hn0.
  run_call (paren_complete _ _ n σ0 σ1 Hx H ltac:(lia) Hc1).
  run_call (IHy n σ1 σ' H0 ltac:(lia) Hc2 Hg (λ _, He eq_refl)).
  pose proof (He eq_refl). by known_sym.
Qed.

Lemma if2_complete ts1 x ts2 y ts3 z :
  d_paren_expr ts1 x → c_stmt ts2 y → c_stmt ts3 z →
  c_stmt (sym_tok IF_SYM :: ts1 ++ ts2 ++ sym_tok ELSE_SYM :: ts3) (IF2 x y z).
Proof.
  intros Hx IHy IHz [|n] σ σ' Hwf Hn Hc Hg He; simpl in Hn; [lia|].
  rewrite !length_app /= in Hn. read Hc. simpl in Hg.
  apply andb_true_iff in Hg as [[Hg Hcl]%andb_true_iff Hgz].
  apply consumes_app in Hc as (σ1 & Hc1 & (σ2 & Hc2 & Hc)%consumes_app).
  pose proof (consumes_wf _ _ _ H Hc1) as Hwf1. pose proof (consumes_wf _ _ _ Hwf1 Hc2) as Hwf2. read Hc.
  cbn [statement]. run. known_sym. run_call Hn0.
  run_call (paren_complete _ _ n σ0 σ1 Hx H ltac:(lia) Hc1).
  run_call (IHy n σ1 σ2 Hwf1 ltac:(lia) Hc2 Hg ltac:(congruence)).
  known_sym. run_call Hn1. by run_call (IHz n _ σ' H0 ltac:(lia) Hc Hgz He).
Qed.

Lemma while_complete ts1 x ts2 y :
  d_paren_expr ts1 x → c_stmt ts2 y → c_stmt (sym_tok WHILE_SYM :: ts1 ++ ts2) (WHILE x y).
Proof.
  intros Hx IHy [|n] σ σ' Hwf Hn Hc Hg He; simpl in Hn; [lia|]. rewrite length_app in Hn. read Hc.
  apply consumes_app in Hc as (σ1 & Hc1 & Hc2). pose proof (consumes_wf _ _ _ H Hc1).
  cbn [statement]. run. known_sym. run_call Hn0.
  run_call (paren_complete _ _ n σ0 σ1 Hx H ltac:(lia) Hc1).
  by run_call (IHy n σ1 σ' H0 ltac:(lia) Hc2 Hg He).
Qed.

Lemma do_complete ts1 x ts2 y :
  c_stmt ts1 x → d_paren_expr ts2 y →
  c_stmt (sym_tok DO_SYM :: ts1 ++ sym_tok WHILE_SYM :: ts2 ++ [sym_tok SEMI]) (DO x y).
Proof.
  intros IHx Hy [|n] σ σ' Hwf Hn Hc Hg He; simpl in Hn; [lia|].
  rewrite length_app /= length_app /= in Hn. read Hc.
  apply consumes_app in Hc as (σ1 & Hc1 & Hc). pose proof (consumes_wf _ _ _ H Hc1) as Hwf1. read Hc.
  apply consumes_app in Hc as (σ3 & Hc2 & Hc). pose proof (consumes_wf _ _ _ H0 Hc2) as Hwf3. read Hc.
  inversion Hc; subst; clear Hc. cbn [statement]. run. known_sym. run_call Hn0.
  run_call (IHx n σ0 σ1 H ltac:(lia) Hc1 Hg ltac:(congruence)).
  rewrite (run_expect _ _ _ _ Hs0 Hn1).
  run_call (paren_complete _ _ n _ σ3 Hy H0 ltac:(lia) Hc2).
  by rewrite (run_expect _ _ _ _ Hs1 Hn2).
Qed.

Lemma stmt_block_complete ts x :
  c_stmts ts x → c_stmt (sym_tok LBRA :: ts ++ [sym_tok RBRA]) x.
Proof.
  intros IH [|n] σ σ' Hwf Hn Hc Hg He; simpl in Hn; rewrite length_app /= in Hn; [lia|]. read Hc.
  apply consumes_app in Hc as (σ1 & Hc1 & Hc). pose proof (consumes_wf _ _ _ H Hc1) as Hwf1. read Hc.
  inversion Hc; subst; clear Hc. cbn [statement]. run. known_sym. run_call Hn0.
  run_call (block_complete _ _ n σ0 σ1 IH H ltac:(lia) Hc1 Hg Hs0). by run_call Hn1.
Qed.

Lemma expr_stmt_complete ts x : d_expr ts x → c_stmt (ts ++ [sym_tok SEMI]) (EXPR x).
Proof.
  intros Hd [|n] σ σ' Hwf Hn Hc Hg He; rewrite length_app /= in Hn; [lia|].
  apply consumes_app in Hc as (σ1 & Hc1 & Hc). pose proof (consumes_wf _ _ _ Hwf Hc1) as Hwf1. read Hc.
  inversion Hc; subst; clear Hc.
  destruct (proj1 (proj2 (proj2 (proj2 d_expr_head))) _ _ Hd) as (t & ts' & -> & Ht' & _).
  pose proof (sym_of_tok _ _ (consumes_head _ _ _ _ Hc1)) as Hs'.
  assert (sym σ ≠ IF_SYM ∧ sym σ ≠ WHILE_SYM ∧ sym σ ≠ DO_SYM ∧ sym σ ≠ SEMI ∧ sym σ ≠ LBRA)
    as (?&?&?&?&?) by (rewrite Hs'; by destruct Ht' as [E|[E|E]]; rewrite E).
  cbn [statement]. run. known_sym.
  run_call (expr_complete _ _ n σ σ1 _ Hd Hwf ltac:(simpl in *; lia) Hc1 Hs (or_intror eq_refl)).
  by rewrite (run_expect _ _ _ _ Hs Hn0).
Qed.

Lemma empty_complete : c_stmt [sym_tok SEMI] EMPTY.
Proof.
  intros [|n] σ σ' Hwf Hn Hc Hg He; simpl in Hn; [lia|]. read Hc. inversion Hc; subst; clear Hc.
  cbn [statement]. run. known_sym. by run_call Hn0.
Qed.

Lemma d_stmt_complete :
  (∀ ts x, d_stmt ts x → c_stmt ts x) ∧ (∀ ts x, d_stmts ts x → c_stmts ts x).
Proof.
  apply d_stmt_mutind; intros;
    eauto using if1_complete, if2_complete, while_complete, do_complete, stmt_block_complete,
      expr_stmt_complete, empty_complete, stmts_step.
  intros n σ σ' _ Hn Hc _ _. inversion Hc; subst. exists n. split; [lia|done].
Qed.

(** * Texts *)

(** The tokens of a text, up to its end. *)
Inductive tokens : list Z → list token → Prop :=
  | tokens_eoi text v r : lex text = Tok (EOI, v) r → tokens text []
  | tokens_cons text t r ts : lex text = Tok t r → t.1 ≠ EOI → tokens r ts → tokens text (t :: ts).

Lemma tokens_length text ts : tokens text ts → (length ts ≤ length text)%nat.
Proof.
  induction 1 as [|text t r ts Hl Ht _ IH]; simpl; [lia|].
  apply lex_length in Hl as [_ Hl]. specialize (Hl Ht). lia.
Qed.

Lemma d_expr_no_eoi :
  (∀ ts x, d_term ts x → Forall (λ t, t.1 ≠ EOI) ts) ∧
  (∀ ts x, d_sum ts x → Forall (λ t, t.1 ≠ EOI) ts) ∧
  (∀ ts x, d_test ts x → Forall (λ t, t.1 ≠ EOI) ts) ∧
  (∀ ts x, d_expr ts x → Forall (λ t, t.1 ≠ EOI) ts) ∧
  (∀ ts x, d_paren_expr ts x → Forall (λ t, t.1 ≠ EOI) ts).
Proof.
  apply d_expr_mutind; intros; repeat (rewrite Forall_app || rewrite Forall_cons || split); done.
Qed.

Lemma d_stmt_no_eoi :
  (∀ ts x, d_stmt ts x → Forall (λ t, t.1 ≠ EOI) ts) ∧
  (∀ ts x, d_stmts ts x → Forall (λ t, t.1 ≠ EOI) ts).
Proof.
  destruct d_expr_no_eoi as (_ & _ & _ & ? & ?).
  apply d_stmt_mutind; intros; repeat (rewrite Forall_app || rewrite Forall_cons || split); eauto; done.
Qed.

(** The tokens of the text that is left are those that the parser will see. *)
Lemma tokens_consumes σ ts :
  wf σ → tokens (rem σ) ts → ∃ σ1 σ', next_sym σ = Ret tt σ1 ∧ wf σ1 ∧ consumes σ1 ts σ' ∧ sym σ' = EOI.
Proof.
  intros Hwf H. remember (rem σ) as text eqn:Ht. revert σ Hwf Ht.
  induction H as [text v r Hl|text t r ts Hl Hne H IH]; intros σ Hwf ->;
    pose proof (next_sym_agrees σ Hwf) as Ha; rewrite Hl in Ha; destruct Ha as (σ1 & Hn & Hwf1 & Hr & Ht).
  - exists σ1, σ1. split_and!; [done|done|constructor|]. by rewrite (sym_of_tok _ _ Ht).
  - destruct (IH σ1 Hwf1 (eq_sym Hr)) as (σ2 & σ' & Hn2 & _ & Hc & Hs).
    exists σ1, σ'. split_and!; [done|done| |done]. rewrite -Ht. by eapply consumes_cons.
Qed.

Lemma consumes_tokens σ σ1 ts σ' :
  wf σ → next_sym σ = Ret tt σ1 → consumes σ1 ts σ' → sym σ' = EOI → Forall (λ t, t.1 ≠ EOI) ts →
  tokens (rem σ) ts.
Proof.
  intros Hwf Hn Hc. revert σ Hwf Hn. induction Hc as [σ1|σ1 σ2 ts σ' Hn2 Hc IH]; intros σ Hwf Hn Hs Hf;
    pose proof (next_sym_agrees σ Hwf) as Ha; rewrite Hn in Ha;
    destruct (lex (rem σ)) as [t r| |] eqn:Hl; try (by destruct Ha); try done;
    destruct Ha as (? & [= <-] & Hwf1 & Hr & Ht).
  - destruct t as [s v]. apply (tokens_eoi _ v r). rewrite Hl. do 2 f_equal.
    rewrite -Hs. by rewrite (sym_of_tok _ _ Ht).
  - apply Forall_cons in Hf as [Hf1 Hf]. rewrite Ht in Hf1 |- *. eapply tokens_cons; [done|done|].
    rewrite -Hr. by apply IH.
Qed.

Lemma tokens_init text ts : Forall byte text → tokens (rem (init_lexer text)) ts ↔ tokens text ts.
Proof.
  intros _. change (rem (init_lexer text)) with (32 :: text). 
  assert (lex (32 :: text) = lex text) as Hl by done.
  split; inversion 1; subst; econstructor; (done || congruence).
Qed.

Lemma program_complete fuel text ts x :
  Forall byte text → (6 * length text + 5 ≤ fuel)%nat →
  tokens text ts → d_stmt ts x → greedy x = true →
  ∃ σ', program fuel (init_lexer text) = Ret (PROG x) σ'.
Proof.
  intros Ht Hf Htok Hd Hg. pose proof (wf_init text Ht) as Hwf. pose proof (tokens_length _ _ Htok).
  apply (tokens_init _ _ Ht) in Htok.
  destruct (tokens_consumes _ _ Hwf Htok) as (σ1 & σ' & Hn & Hwf1 & Hc & Hs). exists σ'.
  apply d_stmt_complete in Hd. unfold program. run_call Hn.
  run_call (Hd fuel σ1 σ' Hwf1 ltac:(lia) Hc Hg ltac:(congruence)). by known_sym.
Qed.

(** C22: the parser accepts exactly the grammar of tinyc.c: for every text, it
    returns the tree [x] when, and only when, the text is a sequence of tokens
    that the grammar derives as [x] and every [else] of [x] belongs to the
    nearest [if]; the fuel needed is linear in the length of the text. *)
Theorem program_correct fuel text x :
  Forall byte text → (6 * length text + 5 ≤ fuel)%nat →
  (∃ σ', program fuel (init_lexer text) = Ret (PROG x) σ') ↔
  (∃ ts, tokens text ts ∧ d_stmt ts x ∧ greedy x = true).
Proof.
  intros Ht Hf. pose proof (wf_init text Ht) as Hwf. split.
  - intros (σ' & H). unfold program in H. run_inv H. destruct x0. on_sym H; [|done].
    injection H as <- <-. apply statement_sound in Hrun0 as (ts & Hc & Hd & Hg & _).
    exists ts. split_and!; [|done|done]. apply (tokens_init _ _ Ht).
    eapply consumes_tokens; [done|exact Hrun|exact Hc|exact Hs|]. exact (proj1 d_stmt_no_eoi _ _ Hd).
  - intros (ts & Htok & Hd & Hg). by eapply program_complete.
Qed.

(** * The trees that the parser builds *)

(** The trees that the parser can build: the shape of each kind of node, and the
    ranges of the values. *)
Fixpoint is_expr (x : node) : bool :=
  match x with
  | VAR v => bool_decide (0 ≤ v < 26)
  | CST v => bool_decide (0 ≤ v < 2 ^ 31)
  | ADD x y | SUB x y | LT x y => is_expr x && is_expr y
  | SET (VAR v) y => bool_decide (0 ≤ v < 26) && is_expr y
  | _ => false
  end.

Definition is_block (x : node) : bool := match x with EMPTY | SEQ _ _ => true | _ => false end.

Fixpoint is_stmt (x : node) : bool :=
  match x with
  | IF1 x y | WHILE x y => is_expr x && is_stmt y
  | IF2 x y z => is_expr x && is_stmt y && is_stmt z
  | DO x y => is_stmt x && is_expr y
  | EMPTY => true
  | SEQ x y => is_block x && is_stmt x && is_stmt y
  | EXPR x => is_expr x
  | _ => false
  end.

(** A token that the lexer can deliver, but for the end of the text. *)
Definition valid_token (t : token) : Prop :=
  match t.1 with
  | INT => 0 ≤ t.2 < 2 ^ 31
  | ID => 0 ≤ t.2 < 26
  | EOI => False
  | _ => t.2 = 0
  end.

Lemma lex_valid text t r : lex text = Tok t r → t.1 ≠ EOI → valid_token t.
Proof.
  induction text as [|c cs IH]; cbn [lex]; [by intros [= <- _]|].
  destruct (is_space c); [done|].
  destruct (punct c) as [s|] eqn:Hp.
  { intros [= <- _] _. unfold punct in Hp. by repeat (case_bool_decide; [by injection Hp as <-|]). }
  destruct (is_digit c) eqn:Hd.
  - destruct (span is_digit (c :: cs)) as [ds r'] eqn:Hs. apply span_app in Hs as [_ Hds].
    case_bool_decide; [|done]. intros [= <- _] _. split; [|done]. by apply number_ge.
  - destruct (is_lower c) eqn:Hlow; [|done]. unfold is_lower in Hlow. apply bool_decide_eq_true in Hlow.
    destruct (span is_word (c :: cs)) as [w r'] eqn:Hs. pose proof Hs as [Hsplit Hw]%span_app.
    case_bool_decide; [|done]. destruct (keyword w) as [s|] eqn:Hk.
    + intros [= <- _] _. apply sym_of_index_keyword in Hk as Hk'. unfold keyword in Hk.
      destruct Hk'. unfold valid_token. cbn [fst snd].
      destruct (search_word words w 0) as [|[|[|[|i]]]]; injection Hk as <- || done; done.
    + destruct w as [|a [|]]; try done. intros [= <- _] _. injection Hsplit as -> _.
      unfold valid_token. cbn [fst snd]. lia.
Qed.

Lemma tokens_valid text ts : tokens text ts → Forall valid_token ts.
Proof. induction 1; constructor; [by eapply lex_valid|done]. Qed.

Ltac split_tokens := repeat match goal with
  | H : Forall _ (_ ++ _) |- _ => apply Forall_app in H as [??]
  | H : Forall _ (_ :: _) |- _ => apply Forall_cons in H as [??]
  end.

Lemma d_expr_is_expr :
  (∀ ts x, d_term ts x → Forall valid_token ts → is_expr x = true) ∧
  (∀ ts x, d_sum ts x → Forall valid_token ts → is_expr x = true) ∧
  (∀ ts x, d_test ts x → Forall valid_token ts → is_expr x = true) ∧
  (∀ ts x, d_expr ts x → Forall valid_token ts → is_expr x = true) ∧
  (∀ ts x, d_paren_expr ts x → Forall valid_token ts → is_expr x = true).
Proof.
  apply d_expr_mutind; intros; split_tokens; simpl; repeat (apply andb_true_iff; split);
    try (apply bool_decide_eq_true); auto.
Qed.

Lemma d_stmt_is_stmt :
  (∀ ts x, d_stmt ts x → Forall valid_token ts → is_stmt x = true) ∧
  (∀ ts x, d_stmts ts x → Forall valid_token ts → is_stmt x = true ∧ is_block x = true).
Proof.
  destruct d_expr_is_expr as (_ & _ & _ & He & Hp).
  apply d_stmt_mutind; intros; split_tokens; simpl; rewrite ?andb_true_iff;
    repeat match goal with
    | H : Forall valid_token ?ts → _, H' : Forall valid_token ?ts |- _ => specialize (H H')
    end; destruct_and?; split_and?; eauto.
Qed.

Lemma program_is_stmt fuel text x σ' :
  Forall byte text → program fuel (init_lexer text) = Ret x σ' →
  ∃ y, x = PROG y ∧ is_stmt y = true ∧ greedy y = true.
Proof.
  intros Ht H. pose proof (wf_init text Ht) as Hwf.
  unfold program in H. run_inv H. destruct x0. on_sym H; [|discriminate H].
  injection H as <- <-. apply statement_sound in Hrun0 as (ts & Hc & Hd & Hg & _). eexists.
  split; [done|]. split; [|done]. apply (proj1 d_stmt_is_stmt _ _ Hd).
  eapply tokens_valid, consumes_tokens; [exact Hwf|exact Hrun|exact Hc|exact Hs|].
  exact (proj1 d_stmt_no_eoi _ _ Hd).
Qed.

(** * Termination *)

(** No integer or identifier of the text is too long for the lexer. *)
Definition no_overflow (text : list Z) : Prop := ∀ n, lex (drop n text) ≠ Overflow.

Section termination.
Context (C : Prop).

(** A measure of what is still to be read. *)
Definition left (σ : lexer) : nat := if bool_decide (sym σ = EOI) then 0%nat else S (length (rem σ)).

Definition ok (σ : lexer) : Prop := wf σ ∧ (C → no_overflow (rem σ)).

(** The run ended: it returned in a state with less than [m] to read, or with a
    syntax error, or it was undefined, which it is not when [C] holds. *)
Definition ends {A} (m : nat) (o : outcome lexer A) : Prop :=
  match o with
  | Ret _ σ' => ok σ' ∧ (left σ' < m)%nat
  | Exit c _ => c = 1
  | Undef => ¬ C
  | _ => False
  end.

Lemma lex_suffix text t r : lex text = Tok t r → ∃ n, r = drop n text.
Proof.
  induction text as [|c cs IH]; cbn [lex]; [intros [= _ <-]; by exists 0%nat|].
  destruct (is_space c); [intros [n ->]%IH; by exists (S n)|].
  destruct (punct c); [intros [= _ <-]; by exists 1%nat|].
  destruct (is_digit c).
  - destruct (span is_digit (c :: cs)) as [ds r'] eqn:Hs. apply span_app in Hs as [-> _].
    case_bool_decide; [|done]. intros [= _ <-]. exists (length ds). by rewrite drop_app_length.
  - destruct (is_lower c); [|done].
    destruct (span is_word (c :: cs)) as [w r'] eqn:Hs. apply span_app in Hs as [-> _].
    case_bool_decide; [|done]. assert (r' = drop (length w) (w ++ r')) by by rewrite drop_app_length.
    destruct (keyword w); [intros [= _ <-]; eauto|]. destruct w as [|? [|]]; try done.
    intros [= _ <-]; eauto.
Qed.

Lemma ends_bind {A B} m1 m2 (m : M lexer A) (k : A → M lexer B) σ :
  ends m1 (m σ) → (∀ x σ', m σ = Ret x σ' → ok σ' → (left σ' < m1)%nat → ends m2 (k x σ')) →
  ends m2 ((m ≫= k) σ).
Proof.
  unfold mbind, M_bind. intros H Hk. destruct (m σ); simpl in H; try done. destruct H. by apply Hk.
Qed.

Lemma ends_ret {A} m (a : A) σ : ok σ → (left σ < m)%nat → ends m (mret (M := M lexer) a σ).
Proof. by split. Qed.

Lemma ends_lt {A} m1 m2 (o : outcome lexer A) : ends m1 o → (m1 ≤ m2)%nat → ends m2 o.
Proof. destruct o; simpl; [intros [??] ?; split; [done|lia]|done..]. Qed.

Lemma next_sym_ends σ : ok σ → sym σ ≠ EOI → ends (left σ) (next_sym σ).
Proof.
  intros [Hwf Hov] Hs. pose proof (next_sym_agrees σ Hwf) as Ha.
  destruct (lex (rem σ)) as [t r| |] eqn:Hl; simpl in Ha.
  - destruct Ha as (σ' & -> & Hwf' & <- & Ht). simpl. split.
    + split; [done|]. intros HC n. destruct (lex_suffix _ _ _ Hl) as [k ->]. rewrite drop_drop. by apply Hov.
    + pose proof (lex_length _ _ _ Hl) as [Hle Hlt]. rewrite -(sym_of_tok _ _ Ht) in Hlt.
      unfold left. rewrite (bool_decide_false (sym σ = EOI)) //. case_bool_decide; [lia|].
      specialize (Hlt H). lia.
  - by destruct Ha as [σ' ->].
  - rewrite Ha. simpl. intros HC. by apply (Hov HC 0%nat).
Qed.

Lemma expect_ends s σ : ok σ → s ≠ EOI → ends (left σ) (expect s σ).
Proof.
  intros Hok Hs. unfold expect. run. destruct (bool_decide_reflect (sym σ = s)) as [E|]; [|done].
  apply next_sym_ends; congruence.
Qed.

(** A round of a loop that goes on reads something. *)
Definition round_ends {X R} (σ : lexer) (o : outcome lexer (X + R)) : Prop :=
  match o with
  | Ret (inl _) σ' => ok σ' ∧ (left σ' < left σ)%nat
  | _ => ends (S (left σ)) o
  end.

Lemma round_ends_lt {X R} σ (o : outcome lexer (X + R)) : ends (left σ) o → round_ends σ o.
Proof. destruct o as [[]| | | |]; simpl; try done. intros [??]. split; [done|lia]. Qed.

Lemma loop_ends {X R} n (body : X → M lexer (X + R)) x σ :
  (∀ x σ', ok σ' → (left σ' ≤ left σ)%nat → round_ends σ' (body x σ')) →
  ok σ → (left σ < n)%nat → ends (S (left σ)) (loop n body x σ).
Proof.
  revert x σ. induction n as [|n IH]; intros x σ Hbody Hok Hn; [lia|].
  rewrite run_loop. unfold mbind, M_bind. pose proof (Hbody x σ Hok (le_n _)) as H.
  destruct (body x σ) as [[x'|r] σ''| | | |]; try done. destruct H as [Hok' Hlt].
  eapply ends_lt; [apply IH; [|done|lia]|lia]. intros y σ' ??. apply Hbody; [done|lia].
Qed.

Ltac ends_call H := run; eapply ends_bind; [apply H|intros ? ? _ ? ?].
Ltac ends_sym := run; repeat match goal with
  | |- context [bool_decide (sym ?σ = ?s)] => destruct (bool_decide_reflect (sym σ = s)); cbn [orb andb negb]; cbv iota
  end.

Lemma expr_ends n :
  (∀ σ, ok σ → (6 * left σ + 2 ≤ n)%nat → ends (left σ) (term n σ)) ∧
  (∀ σ, ok σ → (6 * left σ + 3 ≤ n)%nat → ends (left σ) (sum n σ)) ∧
  (∀ σ, ok σ → (6 * left σ + 4 ≤ n)%nat → ends (left σ) (test n σ)) ∧
  (∀ σ, ok σ → (6 * left σ + 5 ≤ n)%nat → ends (left σ) (expr n σ)) ∧
  (∀ σ, ok σ → (6 * left σ + 1 ≤ n)%nat → ends (left σ) (paren_expr n σ)).
Proof.
  induction n as [|n (IHterm & IHsum & IHtest & IHexpr & IHparen)]; [split_and!; intros; lia|].
  split_and!; intros σ Hok Hn.
  - cbn [term]. ends_sym.
    + destruct (id_name σ) as [|c nm] eqn:Hnm; [by destruct Hok as [(_ & _ & Hl) _]; rewrite Hnm in Hl|].
      run. rewrite Hnm. change ((c :: nm) !! 0%nat) with (Some c). run.
      ends_call next_sym_ends; [done|congruence|]. by apply ends_ret.
    + ends_call next_sym_ends; [done|congruence|]. by apply ends_ret.
    + apply IHparen; [done|lia].
  - cbn [sum]. ends_call IHterm; [done|lia|].
    eapply ends_lt; [apply loop_ends; [|done|lia]|lia]. clear x. intros x σ1 Hok1 Hle.
    ends_sym; [apply round_ends_lt|apply round_ends_lt|by split; [|lia]].
    all: ends_call next_sym_ends; [done|congruence|]; ends_call IHterm; [done|lia|]; apply ends_ret; [done|lia].
  - cbn [test]. ends_call IHsum; [done|lia|]. ends_sym; [|by apply ends_ret].
    ends_call next_sym_ends; [done|congruence|]. ends_call IHsum; [done|lia|]. apply ends_ret; [done|lia].
  - cbn [expr]. ends_sym; [|apply IHtest; [done|lia]].
    ends_call IHtest; [done|lia|]. run. destruct (is_VAR x); cbn [andb]; [|by apply ends_ret].
    ends_sym; [|by apply ends_ret].
    ends_call next_sym_ends; [done|congruence|]. ends_call IHexpr; [done|lia|]. apply ends_ret; [done|lia].
  - cbn [paren_expr]. ends_call expect_ends; [done|done|]. ends_call IHexpr; [done|lia|].
    ends_call expect_ends; [done|done|]. apply ends_ret; [done|lia].
Qed.

Lemma statement_ends n σ : ok σ → (6 * left σ + 6 ≤ n)%nat → ends (left σ) (statement n σ).
Proof.
  revert σ. induction n as [|n IH]; intros σ Hok Hn; [lia|].
  destruct (expr_ends n) as (_ & _ & _ & He & Hp).
  assert (∀ σ, ok σ → sym σ ≠ EOI → ends (left σ) (next_sym σ)) as Hnext by exact next_sym_ends.
  cbn [statement]. run.
  destruct (bool_decide_reflect (sym σ = IF_SYM)); [|
  destruct (bool_decide_reflect (sym σ = WHILE_SYM)); [|
  destruct (bool_decide_reflect (sym σ = DO_SYM)); [|
  destruct (bool_decide_reflect (sym σ = SEMI)); [|
  destruct (bool_decide_reflect (sym σ = LBRA))]]]].
  - ends_call Hnext; [done|congruence|]. ends_call Hp; [done|lia|]. ends_call IH; [done|lia|].
    ends_sym; [|apply ends_ret; [done|lia]].
    ends_call Hnext; [done|congruence|]. ends_call IH; [done|lia|]. apply ends_ret; [done|lia].
  - ends_call Hnext; [done|congruence|]. ends_call Hp; [done|lia|]. ends_call IH; [done|lia|].
    apply ends_ret; [done|lia].
  - ends_call Hnext; [done|congruence|]. ends_call IH; [done|lia|]. ends_call expect_ends; [done|done|].
    ends_call Hp; [done|lia|]. ends_call expect_ends; [done|done|]. apply ends_ret; [done|lia].
  - ends_call Hnext; [done|congruence|]. by apply ends_ret.
  - ends_call Hnext; [done|congruence|].
    eapply ends_bind; [apply loop_ends; [|done|lia]|].
    + clear x. intros x σ1 Hok1 Hle. ends_sym; [by split; [|lia]|]. apply round_ends_lt.
      ends_call IH; [done|lia|]. apply ends_ret; [done|lia].
    + intros y σ1 Hrun Hok1 Hle. assert (sym σ1 = RBRA) as Hs.
      { refine (loop_inv (λ _ _, True) (λ _ σ, sym σ = RBRA) _ _ _ _ _ _ _ I Hrun).
        clear. intros x s y s' _ H. run_inv H. on_sym H; [by injection H as <- <-|].
        run_inv H. by injection H as <- <-. }
      ends_call Hnext; [done|congruence|]. apply ends_ret; [done|lia].
  - ends_call He; [done|lia|]. ends_call expect_ends; [done|done|]. apply ends_ret; [done|lia].
Qed.
End termination.

(** C23: the parser terminates on every text: with fuel linear in the length it
    returns a program or exits with a syntax error, and if no integer and no
    identifier is too long for the lexer it does nothing else. *)
Theorem program_terminates fuel text :
  Forall byte text → (6 * length text + 12 ≤ fuel)%nat →
  match program fuel (init_lexer text) with
  | Ret x _ => ∃ y, x = PROG y
  | Exit c _ => c = 1
  | Undef => ¬ no_overflow text
  | _ => False
  end.
Proof.
  intros Ht Hf. pose (C := no_overflow text).
  assert (ok C (init_lexer text)) as Hok.
  { split; [by apply wf_init|]. intros HC [|n]; [exact (HC 0%nat)|exact (HC n)]. }
  assert (ends C (left (init_lexer text)) (next_sym (init_lexer text))) as Hn by by apply next_sym_ends.
  change (left (init_lexer text)) with (S (S (length text))) in Hn.
  unfold program. unfold mbind, M_bind. destruct (next_sym (init_lexer text)) as [[] σ1| | | |]; try done.
  destruct Hn as [Hok1 Hl]. pose proof (statement_ends C fuel σ1 Hok1 ltac:(lia)) as Hs.
  destruct (statement fuel σ1) as [x σ2| | | |]; try done.
  unfold gets. case_bool_decide; [by eexists|done].
Qed.

Lemma program_terminates_witness :
  (6 * length (text_of "while(") + 12 ≤ 48)%nat ∧
  match program 48 (init_lexer (text_of "while(")) with
  | Ret x _ => ∃ y, x = PROG y
  | Exit c _ => c = 1
  | Undef => ¬ no_overflow (text_of "while(")
  | _ => False
  end.
Proof.
  split; [vm_compute; lia|].
  apply program_terminates; [repeat constructor; unfold byte; lia|vm_compute; lia].
Defined.

Lemma program_correct_witness :
  (∃ σ', program 50 (init_lexer (text_of "a=b;")) = Ret (PROG (EXPR (SET (VAR 0) (VAR 1)))) σ') ↔
  (∃ ts, tokens (text_of "a=b;") ts ∧ d_stmt ts (EXPR (SET (VAR 0) (VAR 1))) ∧
         greedy (EXPR (SET (VAR 0) (VAR 1))) = true).
Proof.
  apply (program_correct 50 (text_of "a=b;")); [repeat constructor; unfold byte; lia|vm_compute; lia].
Defined.
