(* ===== verification/TinyPrint.v ===== *)
(** A printer for Tiny-C programs, and the round trip: parsing the printed text of
    a program gives the program back. *)
From S2P Require Export TinyParse.
Local Open Scope Z_scope.

(** * Tokens to text *)

(** The decimal digits of a number, most significant first; [n] bounds how many. *)
Fixpoint digits (n : nat) (v : Z) : list Z :=
  match n with
  | O => [48 + v]
  | S n => if bool_decide (v < 10) then [48 + v] else digits n (v / 10) ++ [48 + v mod 10]
  end.

Definition token_text (t : token) : list Z :=
  match t.1 with
  | DO_SYM => text_of "do" | ELSE_SYM => text_of "else" | IF_SYM => text_of "if"
  | WHILE_SYM => text_of "while" | LBRA => [123] | RBRA => [125] | LPAR => [40] | RPAR => [41]
  | PLUS => [43] | MINUS => [45] | LESS => [60] | SEMI => [59] | EQUAL => [61]
  | INT => digits 9 t.2
  | ID => [97 + t.2]
  | EOI => []
  end.

(** Every token is followed by a space. *)
Definition text_of_tokens (ts : list token) : list Z := t ← ts; token_text t ++ [32].

Lemma digits_spec n v :
  0 ≤ v < 10 ^ Z.of_nat (S n) →
  Forall (λ c, is_digit c = true) (digits n v) ∧ digits n v ≠ [] ∧ number 0 (digits n v) = v.
Proof.
  revert v. induction n as [|n IH]; intros v Hv; cbn [digits]; [|case_bool_decide as Hlt].
  1, 2: (split; [constructor; [unfold is_digit; apply bool_decide_eq_true; lia|done]|];
    split; [done|unfold number; cbn; lia]).
  destruct (IH (v / 10)) as (Hd & Hne & Hnum).
  { rewrite Nat2Z.inj_succ Z.pow_succ_r in Hv; [|lia].
    split; [apply Z.div_pos; lia|apply Z.div_lt_upper_bound; lia]. }
  pose proof (Z.mod_pos_bound v 10 ltac:(lia)). split; [|split; [by destruct (digits n _)|]].
  - apply Forall_app. split; [done|]. constructor; [|done]. unfold is_digit. apply bool_decide_eq_true. lia.
  - unfold number in *. rewrite foldl_app Hnum. cbn. pose proof (Z.div_mod v 10). lia.
Qed.

Lemma span_all f cs c r :
  Forall (λ c, f c = true) cs → f c = false → span f (cs ++ c :: r) = (cs, c :: r).
Proof. intros H Hc. induction H as [|a cs Ha _ IH]; simpl; [by rewrite Hc|]. by rewrite Ha IH. Qed.

(** A space ends every token, so the lexer finds exactly what was printed. *)
Lemma lex_digits v r :
  0 ≤ v < 2 ^ 31 → lex (digits 9 v ++ 32 :: r) = Tok (INT, v) (32 :: r).
Proof.
  intros Hv. destruct (digits_spec 9 v) as (Hd & Hne & Hnum); [simpl; lia|].
  destruct (digits 9 v) as [|c ds] eqn:E; [done|].
  pose proof (span_all is_digit (c :: ds) 32 r Hd eq_refl) as Hs.
  apply Forall_cons in Hd as [Hc Hd]. cbn [app lex].
  assert (is_space c = false ∧ punct c = None) as [-> ->].
  { unfold is_digit in Hc. apply bool_decide_eq_true in Hc. unfold is_space, punct.
    split; repeat (rewrite bool_decide_false; [|lia]); done. }
  cbn [app] in Hs. by rewrite Hc Hs Hnum bool_decide_true; [|lia].
Qed.

Lemma lex_id v r : 0 ≤ v < 26 → lex ((97 + v) :: 32 :: r) = Tok (ID, v) (32 :: r).
Proof.
  intros Hv. cbn [lex].
  assert (is_space (97 + v) = false ∧ punct (97 + v) = None ∧ is_digit (97 + v) = false ∧
    is_lower (97 + v) = true) as (-> & -> & -> & Hl).
  { unfold is_space, punct, is_digit, is_lower. split_and!;
      repeat (rewrite bool_decide_false; [|lia]); (done || by rewrite bool_decide_true; [|lia]). }
  rewrite Hl. assert (is_word (97 + v) = true) as Hw by (unfold is_word; by rewrite Hl).
  pose proof (span_all is_word [97 + v] 32 r ltac:(by constructor) eq_refl) as Hs. cbn [app] in Hs.
  rewrite Hs. cbn [length]. rewrite bool_decide_true; [|lia].
  assert (keyword [97 + v] = None) as ->.
  { unfold keyword, search_word, words. simpl. by repeat (rewrite bool_decide_false; [|done]). }
  do 2 f_equal. f_equal. lia.
Qed.

Lemma lex_token t r : valid_token t → lex (token_text t ++ 32 :: r) = Tok t (32 :: r).
Proof.
  destruct t as [s v]; unfold valid_token, token_text; cbn [fst snd].
  destruct s; intros Hv; try (subst v; reflexivity); [by apply lex_digits|by apply lex_id|done].
Qed.

Lemma tokens_space text ts : tokens text ts → tokens (32 :: text) ts.
Proof. inversion 1; subst; econstructor; eauto. Qed.

Lemma tokens_text ts : Forall valid_token ts → tokens (text_of_tokens ts) ts.
Proof.
  induction 1 as [|t ts Ht _ IH]; [by eapply (tokens_eoi [] 0 [])|].
  change (text_of_tokens (t :: ts)) with ((token_text t ++ [32]) ++ text_of_tokens ts).
  rewrite -app_assoc. eapply tokens_cons; [by apply lex_token| |by apply tokens_space].
  by destruct t as [[] ?].
Qed.

Lemma token_text_byte t : valid_token t → Forall byte (token_text t).
Proof.
  destruct t as [s v]; unfold valid_token, token_text; cbn [fst snd].
  destruct s; intros Hv; try (repeat constructor; unfold byte; lia).
  destruct (digits_spec 9 v) as (Hd & _); [simpl; lia|].
  eapply Forall_impl; [exact Hd|]. intros c Hc. unfold is_digit in Hc.
  apply bool_decide_eq_true in Hc. unfold byte. lia.
Qed.

Lemma text_byte ts : Forall valid_token ts → Forall byte (text_of_tokens ts).
Proof.
  induction 1 as [|t ts Ht _ IH]; [done|].
  change (text_of_tokens (t :: ts)) with ((token_text t ++ [32]) ++ text_of_tokens ts).
  apply Forall_app. split; [|done]. apply Forall_app. split; [by apply token_text_byte|].
  repeat constructor; unfold byte; lia.
Qed.

(** * Trees to tokens *)

Definition parens (x : node) (ts : list token) : list token :=
  match x with
  | VAR _ | CST _ => ts
  | _ => sym_tok LPAR :: ts ++ [sym_tok RPAR]
  end.

(** Operands that are not a variable or a constant are put in parentheses. *)
Fixpoint print_expr (x : node) : list token :=
  match x with
  | VAR v => [(ID, v)]
  | CST v => [(INT, v)]
  | ADD x y => parens x (print_expr x) ++ sym_tok PLUS :: parens y (print_expr y)
  | SUB x y => parens x (print_expr x) ++ sym_tok MINUS :: parens y (print_expr y)
  | LT x y => parens x (print_expr x) ++ sym_tok LESS :: parens y (print_expr y)
  | SET (VAR v) y => (ID, v) :: sym_tok EQUAL :: print_expr y
  | _ => []
  end.

Definition print_paren (x : node) : list token := sym_tok LPAR :: print_expr x ++ [sym_tok RPAR].

(** [block] says that the statements are inside the braces of a block. *)
Fixpoint print_stmt (block : bool) (x : node) : list token :=
  match x with
  | IF1 x y => sym_tok IF_SYM :: print_paren x ++ print_stmt false y
  | IF2 x y z =>
      sym_tok IF_SYM :: print_paren x ++ print_stmt false y ++ sym_tok ELSE_SYM :: print_stmt false z
  | WHILE x y => sym_tok WHILE_SYM :: print_paren x ++ print_stmt false y
  | DO x y =>
      sym_tok DO_SYM :: print_stmt false x ++ sym_tok WHILE_SYM :: print_paren y ++ [sym_tok SEMI]
  | EMPTY => if block then [] else [sym_tok SEMI]
  | SEQ x y =>
      let ts := print_stmt true x ++ print_stmt false y in
      if block then ts else sym_tok LBRA :: ts ++ [sym_tok RBRA]
  | EXPR x => print_expr x ++ [sym_tok SEMI]
  | _ => []
  end.

Lemma parens_term x ts : d_expr ts x → (∀ v, x = VAR v → ts = [(ID, v)]) →
  (∀ v, x = CST v → ts = [(INT, v)]) → d_term (parens x ts) x.
Proof.
  intros Hd Hv Hc. destruct x; cbn [parens];
    try (rewrite (Hv _ eq_refl); constructor); try (rewrite (Hc _ eq_refl); constructor);
    by apply d_paren, d_parens.
Qed.

Lemma print_expr_derives x : is_expr x = true → d_expr (print_expr x) x.
Proof.
  assert (∀ x, is_expr x = true → d_expr (print_expr x) x → d_term (parens x (print_expr x)) x) as Hp.
  { intros y _ Hd. apply parens_term; [done|by intros v ->|by intros v ->]. }
  induction x; simpl; intros H; try done.
  - by repeat constructor.
  - by repeat constructor.
  - apply andb_true_iff in H as [??]. constructor. constructor. constructor; [constructor|]; eauto.
  - apply andb_true_iff in H as [??]. constructor. constructor. apply d_sub; [constructor|]; eauto.
  - apply andb_true_iff in H as [??]. constructor. apply d_less; constructor; eauto.
  - destruct x1; try done. apply andb_true_iff in H as [??]. apply d_set. eauto.
Qed.

Lemma print_stmt_derives x :
  is_stmt x = true →
  d_stmt (print_stmt false x) x ∧ (is_block x = true → d_stmts (print_stmt true x) x).
Proof.
  assert (∀ x, is_expr x = true → d_paren_expr (print_paren x) x) as Hp.
  { intros y Hy. constructor. by apply print_expr_derives. }
  induction x; cbn [print_stmt is_stmt is_block]; intros H; try done; split; try done.
  - apply andb_true_iff in H as [??]. apply d_if1; [eauto|by apply IHx2].
  - apply andb_true_iff in H as [[??]%andb_true_iff ?]. apply d_if2; [eauto|by apply IHx2|by apply IHx3].
  - apply andb_true_iff in H as [??]. apply d_while; [eauto|by apply IHx2].
  - apply andb_true_iff in H as [??]. apply d_do; [by apply IHx1|eauto].
  - apply d_empty.
  - intros _. apply d_stmts_nil.
  - apply andb_true_iff in H as [[??]%andb_true_iff ?]. apply d_block, d_stmts_snoc; [by apply IHx1|by apply IHx2].
  - apply andb_true_iff in H as [[??]%andb_true_iff ?]. intros _.
    apply d_stmts_snoc; [by apply IHx1|by apply IHx2].
  - apply d_expr_stmt. by apply print_expr_derives.
Qed.

Lemma print_expr_tokens x : is_expr x = true → Forall valid_token (print_expr x).
Proof.
  assert (∀ x, Forall valid_token (print_expr x) → Forall valid_token (parens x (print_expr x))) as Hp.
  { intros y Hy. destruct y; try done; cbn [parens];
      (constructor; [done|apply Forall_app; split; [done|by constructor]]). }
  induction x; simpl; intros H; try done.
  - constructor; [|done]. by apply bool_decide_eq_true in H.
  - constructor; [|done]. by apply bool_decide_eq_true in H.
  - apply andb_true_iff in H as [??]. apply Forall_app. split; [eauto|]. constructor; [done|eauto].
  - apply andb_true_iff in H as [??]. apply Forall_app. split; [eauto|]. constructor; [done|eauto].
  - apply andb_true_iff in H as [??]. apply Forall_app. split; [eauto|]. constructor; [done|eauto].
  - destruct x1; try done. apply andb_true_iff in H as [H ?]. apply bool_decide_eq_true in H.
    constructor; [done|]. constructor; [done|eauto].
Qed.

Lemma print_stmt_tokens x b : is_stmt x = true → Forall valid_token (print_stmt b x).
Proof.
  assert (∀ x, is_expr x = true → Forall valid_token (print_paren x)) as Hp.
  { intros y Hy. constructor; [done|]. apply Forall_app. split; [by apply print_expr_tokens|by constructor]. }
  revert b. induction x; intros b; simpl; intros H; try done;
    repeat (apply andb_true_iff in H as [H ?]);
    try (destruct b); repeat (rewrite Forall_app || rewrite Forall_cons || split);
    eauto using print_expr_tokens; done.
Qed.

Lemma parse_print_run fuel x :
  is_stmt x = true → greedy x = true →
  (6 * length (text_of_tokens (print_stmt false x)) + 5 ≤ fuel)%nat →
  ∃ σ', program fuel (init_lexer (text_of_tokens (print_stmt false x))) = Ret (PROG x) σ'.
Proof.
  intros Hx Hg Hf. pose proof (print_stmt_tokens x false Hx) as Ht.
  eapply program_complete; [by apply text_byte|done|by apply tokens_text| |done].
  by apply print_stmt_derives.
Qed.

(** C24: parsing undoes printing: every tree of the shape that the parser builds,
    with every [else] at the nearest [if], is what the parser returns for its
    printed text. *)
Theorem parse_print fuel x :
  is_stmt x = true → greedy x = true →
  (6 * length (text_of_tokens (print_stmt false x)) + 5 ≤ fuel)%nat →
  ∃ σ', program fuel (init_lexer (text_of_tokens (print_stmt false x))) = Ret (PROG x) σ'.
Proof. apply parse_print_run. Qed.

Lemma parse_print_witness :
  let x := WHILE (LT (VAR 0) (CST 10)) (SEQ (SEQ EMPTY (EXPR (SET (VAR 0) (ADD (VAR 0) (CST 1))))) EMPTY) in
  is_stmt x = true ∧ greedy x = true ∧
  ∃ σ', program 400 (init_lexer (text_of_tokens (print_stmt false x))) = Ret (PROG x) σ'.
Proof.
  split; [reflexivity|]. split; [reflexivity|].
  apply (parse_print 400); [reflexivity|reflexivity|vm_compute; lia].
Defined.
