(* ===== verification/TinyGen.v ===== *)
(** The code generator of src/bin/paradigms/tiny_c/tinyc.c, which writes into a
    fixed array of [char]s and back-patches jumps, against a function from trees
    to position-independent code. *)
From S2P Require Export TinyParse.
Local Open Scope Z_scope.

(** * The program *)

(** The third [enum]: the instructions. *)
Definition IFETCH : Z := 0.
Definition ISTORE : Z := 1.
Definition IPUSH : Z := 2.
Definition IPOP : Z := 3.
Definition IADD : Z := 4.
Definition ISUB : Z := 5.
Definition ILT : Z := 6.
Definition JZ : Z := 7.
Definition JNZ : Z := 8.
Definition JMP : Z := 9.
Definition HALT : Z := 10.

(** [code object[1000], *here = object;] where [code] is a signed 8-bit [char]. *)
Record gen := Gen { object : list Z; here : nat }.
Definition object_size : nat := 1000.
Definition init_gen : gen := Gen (replicate object_size 0) 0.

(** The conversion of an [int] to [code] keeps the low 8 bits. *)
Definition code (c : Z) : Z := wrap_s 8 c.

(** [*here++ = c;] *)
Definition g (c : Z) : M gen unit := λ σ,
  if bool_decide (here σ < object_size)%nat
  then Ret tt (Gen (<[here σ := code c]> (object σ)) (S (here σ)))
  else Undef.

(** [return here++;], where [here] may not go further than one past the end. *)
Definition hole : M gen nat := λ σ,
  if bool_decide (here σ < object_size)%nat
  then Ret (here σ) (Gen (object σ) (S (here σ)))
  else Undef.

(** [*src = dst - src;] *)
Definition fix_ (src dst : nat) : M gen unit := λ σ,
  if bool_decide (src < object_size)%nat
  then Ret tt (Gen (<[src := code (Z.of_nat dst - Z.of_nat src)]> (object σ)) (here σ))
  else Undef.

(** [x->val], which only the nodes for variables and constants have. *)
Definition node_val (x : node) : option Z :=
  match x with VAR v | CST v => Some v | _ => None end.

Fixpoint c (x : node) : M gen unit :=
  match x with
  | VAR v => g IFETCH;; g v
  | CST v => g IPUSH;; g v
  | ADD o1 o2 => c o1;; c o2;; g IADD
  | SUB o1 o2 => c o1;; c o2;; g ISUB
  | LT o1 o2 => c o1;; c o2;; g ILT
  | SET o1 o2 => c o2;; g ISTORE;; v ← defined (node_val o1); g v
  | IF1 o1 o2 =>
      c o1;; g JZ;; p1 ← hole; c o2;; h ← gets here; fix_ p1 h
  | IF2 o1 o2 o3 =>
      c o1;; g JZ;; p1 ← hole; c o2;; g JMP;; p2 ← hole;
      h ← gets here; fix_ p1 h;; c o3;; h ← gets here; fix_ p2 h
  | WHILE o1 o2 =>
      p1 ← gets here; c o1;; g JZ;; p2 ← hole; c o2;; g JMP;;
      p ← hole; fix_ p p1;; h ← gets here; fix_ p2 h
  | DO o1 o2 =>
      p1 ← gets here; c o1;; c o2;; g JNZ;; p ← hole; fix_ p p1
  | EMPTY => mret tt
  | SEQ o1 o2 => c o1;; c o2
  | EXPR o1 => c o1;; g IPOP
  | PROG o1 => c o1;; g HALT
  end.

(** * The reference code *)

(** The code of a tree, with the jump offsets as mathematical integers: an offset
    counts from the place where it is stored. *)
Fixpoint code_of (x : node) : list Z :=
  match x with
  | VAR v => [IFETCH; v]
  | CST v => [IPUSH; v]
  | ADD o1 o2 => code_of o1 ++ code_of o2 ++ [IADD]
  | SUB o1 o2 => code_of o1 ++ code_of o2 ++ [ISUB]
  | LT o1 o2 => code_of o1 ++ code_of o2 ++ [ILT]
  | SET o1 o2 => code_of o2 ++ [ISTORE; default 0 (node_val o1)]
  | IF1 o1 o2 =>
      code_of o1 ++ [JZ; Z.of_nat (length (code_of o2)) + 1] ++ code_of o2
  | IF2 o1 o2 o3 =>
      code_of o1 ++ [JZ; Z.of_nat (length (code_of o2)) + 3] ++
      code_of o2 ++ [JMP; Z.of_nat (length (code_of o3)) + 1] ++ code_of o3
  | WHILE o1 o2 =>
      code_of o1 ++ [JZ; Z.of_nat (length (code_of o2)) + 3] ++ code_of o2 ++
      [JMP; - (Z.of_nat (length (code_of o1)) + Z.of_nat (length (code_of o2)) + 3)]
  | DO o1 o2 =>
      code_of o1 ++ code_of o2 ++
      [JNZ; - (Z.of_nat (length (code_of o1)) + Z.of_nat (length (code_of o2)) + 1)]
  | EMPTY => []
  | SEQ o1 o2 => code_of o1 ++ code_of o2
  | EXPR o1 => code_of o1 ++ [IPOP]
  | PROG o1 => code_of o1 ++ [HALT]
  end.

(** The target of every assignment is a variable, as the parser makes it. *)
Fixpoint assigns_vars (x : node) : bool :=
  match x with
  | SET o1 o2 => is_VAR o1 && assigns_vars o2
  | ADD x y | SUB x y | LT x y | IF1 x y | WHILE x y | DO x y | SEQ x y => assigns_vars x && assigns_vars y
  | IF2 x y z => assigns_vars x && assigns_vars y && assigns_vars z
  | EXPR x | PROG x => assigns_vars x
  | VAR _ | CST _ | EMPTY => true
  end.

Lemma is_expr_assigns x : is_expr x = true → assigns_vars x = true.
Proof.
  induction x; simpl; rewrite ?andb_true_iff; try done; try (intros [??]; auto).
  destruct x1; try done. rewrite andb_true_iff. intros [_ ?]. auto.
Qed.

Lemma is_stmt_assigns x : is_stmt x = true → assigns_vars x = true.
Proof.
  induction x; simpl; rewrite ?andb_true_iff; try done; intros; destruct_and?; split_and?;
    auto using is_expr_assigns.
Qed.

(** * The generator writes the reference code *)

(** At [here = k], [m] writes [l], converted to [char]s, and nothing else; it is
    undefined when there is no room for [l]. *)
Record emits (k : nat) (m : M gen unit) (l : list Z) : Prop := {
  emits_room A old B :
    length (A ++ old ++ B) = object_size → length old = length l → length A = k →
    m (Gen (A ++ old ++ B) k) = Ret tt (Gen (A ++ (code <$> l) ++ B) (k + length l));
  emits_overflow obj :
    length obj = object_size → (k ≤ object_size < k + length l)%nat → m (Gen obj k) = Undef;
}.

Lemma object_split (obj : list Z) h n :
  length obj = object_size → (h + n ≤ object_size)%nat →
  ∃ A old B, obj = A ++ old ++ B ∧ length A = h ∧ length old = n.
Proof.
  intros Ho Hn. exists (take h obj), (take n (drop h obj)), (drop n (drop h obj)).
  rewrite !take_drop. split; [done|]. rewrite !length_take !length_drop. lia.
Qed.

Lemma insert_middle (A B : list Z) x y : <[length A := y]> (A ++ x :: B) = A ++ y :: B.
Proof. rewrite insert_app_r_alt // Nat.sub_diag. done. Qed.

Ltac len := repeat progress (rewrite ?length_app ?length_fmap /=); lia.

Lemma emits_g k c : emits k (g c) [c].
Proof.
  split.
  - intros A [|o [|]] B Ho Hl <-; try done. unfold g. cbn [here object app].
    rewrite length_app /= in Ho. rewrite bool_decide_true; [|unfold object_size in *; lia].
    rewrite insert_middle. do 2 f_equal. simpl. lia.
  - intros obj Ho Hh. unfold g. cbn [here]. rewrite bool_decide_false //. simpl in Hh. lia.
Qed.

Lemma emits_nil k : emits k (mret tt) [].
Proof.
  split.
  - intros A [|] B _ H <-; [|done]. simpl. by rewrite Nat.add_0_r.
  - intros obj _ H. simpl in H. lia.
Qed.

(** A write of [l] in the middle, as [emits] gives it, and what it leaves. *)
Lemma emits_cont {A} k (m : M gen unit) l (f : unit → M gen A) obj1 old obj2 :
  emits k m l → length (obj1 ++ old ++ obj2) = object_size → length obj1 = k →
  length old = length l →
  (m ≫= f) (Gen (obj1 ++ old ++ obj2) k) = f tt (Gen (obj1 ++ (code <$> l) ++ obj2) (k + length l)).
Proof. intros [H _] Ho Hk Hl. unfold mbind, M_bind. by rewrite H. Qed.

Lemma emits_seq k m1 m2 l1 l2 :
  emits k m1 l1 → emits (k + length l1) m2 l2 → emits k (m1;; m2) (l1 ++ l2).
Proof.
  intros H1 H2. split.
  - intros A old B Ho Hl Hk. rewrite length_app in Hl.
    rewrite -(take_drop (length l1) old) -!app_assoc in Ho |- *.
    rewrite (emits_cont _ _ _ _ _ _ _ H1) //; [|rewrite length_take; lia].
    rewrite !length_app !length_take !length_drop in Ho.
    rewrite app_assoc (emits_room _ _ _ H2).
    + rewrite fmap_app -!app_assoc !length_app. do 2 f_equal. lia.
    + rewrite !length_app !length_fmap !length_drop. lia.
    + rewrite length_drop. lia.
    + rewrite length_app length_fmap. lia.
  - intros obj Ho Hh. rewrite length_app in Hh.
    destruct (decide (k + length l1 ≤ object_size)%nat) as [Hle|].
    + destruct (object_split obj k (length l1) Ho Hle) as (A & old & B & -> & Hk & Hold).
      rewrite (emits_cont _ _ _ _ _ _ _ H1) //. apply (emits_overflow _ _ _ H2); [|lia].
      rewrite !length_app !length_fmap in Ho |- *. lia.
    + unfold mbind, M_bind. rewrite (emits_overflow _ _ _ H1) //. lia.
Qed.

Lemma emits_equiv k m m' l : m ≡ m' → emits k m' l → emits k m l.
Proof. intros E [H O]. split; intros; rewrite (E _); auto. Qed.

Lemma emits_here k f l : emits k (f k) l → emits k (h ← gets here; f h) l.
Proof. intros [H O]. split; intros; rewrite run_gets; cbn [here]; auto. Qed.

Lemma run_hole {A} (f : nat → M gen A) obj k :
  (k < object_size)%nat → (hole ≫= f) (Gen obj k) = f k (Gen obj (S k)).
Proof. intros. unfold mbind, M_bind, hole. cbn [here]. by rewrite bool_decide_true. Qed.

Lemma hole_overflow {A} (f : nat → M gen A) obj k :
  (object_size ≤ k)%nat → (hole ≫= f) (Gen obj k) = Undef.
Proof. intros. unfold mbind, M_bind, hole. cbn [here]. rewrite bool_decide_false //. lia. Qed.

Lemma fix_middle A x B src dst h :
  length A = src → (src < object_size)%nat →
  fix_ src dst (Gen (A ++ x :: B) h) = Ret tt (Gen (A ++ code (Z.of_nat dst - Z.of_nat src) :: B) h).
Proof. intros <- Hs. unfold fix_. rewrite bool_decide_true //. cbn [object here]. by rewrite insert_middle. Qed.

(** A backward jump: the hole is filled at once with the distance to [p1]. *)
Lemma emits_back k p1 : emits k (p ← hole; fix_ p p1) [Z.of_nat p1 - Z.of_nat k].
Proof.
  split.
  - intros A [|o [|]] B Ho Hl Hk; try done. cbn [app]. rewrite length_app /= in Ho.
    rewrite run_hole; [|lia]. rewrite fix_middle //; [|lia]. do 2 f_equal. simpl. lia.
  - intros obj Ho Hh. apply hole_overflow. simpl in Hh. lia.
Qed.

(** A forward jump over what [m] writes. *)
Lemma emits_forward k m l :
  emits (S k) m l →
  emits k (p ← hole; m;; h ← gets here; fix_ p h) (Z.of_nat (length l) + 1 :: l).
Proof.
  intros H. split.
  - intros A [|o old] B Ho Hl Hk; [done|]. cbn [app]. simpl in Hl. rewrite length_app /= in Ho.
    rewrite run_hole; [|lia]. rewrite app_cons_assoc.
    rewrite length_app in Ho.
    rewrite (emits_cont _ _ _ _ _ _ _ H); [|len..].
    rewrite run_gets. cbn [here]. rewrite -app_assoc. cbn [app]. rewrite fix_middle //; [|lia].
    rewrite fmap_cons. cbn [app length]. do 2 f_equal; [|lia]. do 2 f_equal. f_equal. lia.
  - intros obj Ho Hh. simpl in Hh. destruct (decide (k < object_size)%nat); [|apply hole_overflow; lia].
    rewrite run_hole //. unfold mbind, M_bind. rewrite (emits_overflow _ _ _ H) //. lia.
Qed.

(** The two jumps of an [if] with an [else]: the first is filled after the hole of
    the second was left. *)
Lemma emits_else k m2 l2 m3 l3 :
  emits (S k) m2 l2 → emits (S (S k) + length l2) m3 l3 →
  emits k (p1 ← hole; m2;; p2 ← hole; h ← gets here; fix_ p1 h;; m3;; h ← gets here; fix_ p2 h)
    (Z.of_nat (length l2) + 2 :: l2 ++ Z.of_nat (length l3) + 1 :: l3).
Proof.
  intros H2 H3. split.
  - intros A [|o old] B Ho Hl Hk; [done|]. simpl in Hl. rewrite length_app /= in Hl.
    rewrite -(take_drop (length l2) old) in Ho |- *.
    assert (length (take (length l2) old) = length l2) as Ht by (rewrite length_take; lia).
    assert (length (drop (length l2) old) = S (length l3)) as Hd by (rewrite length_drop; lia).
    destruct (drop (length l2) old) as [|o2 old3]; [done|]. injection Hd as Hd.
    generalize dependent (take (length l2) old). intros old2 Ho Ht. clear old Hl.
    repeat (rewrite length_app /= in Ho). cbn [app].
    rewrite run_hole; [|lia].
    rewrite (_ : A ++ o :: (old2 ++ o2 :: old3) ++ B = (A ++ [o]) ++ old2 ++ o2 :: old3 ++ B);
      [|by rewrite -!app_assoc].
    rewrite (emits_cont _ _ _ _ _ _ _ H2); [|len..].
    rewrite run_hole; [|lia]. rewrite run_gets. cbn [here].
    rewrite -app_assoc. cbn [app]. unfold mbind at 1, M_bind at 1. rewrite fix_middle //; [|lia].
    rewrite [A ++ _](_ : _ = (A ++ code (Z.of_nat (length l2) + 2) :: (code <$> l2) ++ [o2]) ++ old3 ++ B);
      [|rewrite -!app_assoc /= -!app_assoc; do 2 f_equal; f_equal; lia].
    rewrite (emits_cont _ _ _ _ _ _ _ H3); [|len..]. rewrite run_gets. cbn [here].
    rewrite -!app_assoc. cbn [app]. rewrite -!app_assoc. cbn [app].
    rewrite (_ : A ++ _ :: (code <$> l2) ++ o2 :: (code <$> l3) ++ B =
      (A ++ code (Z.of_nat (length l2) + 2) :: (code <$> l2)) ++ o2 :: (code <$> l3) ++ B);
      [|by rewrite -app_assoc].
    rewrite fix_middle; [|len..]. rewrite fmap_cons fmap_app fmap_cons -!app_assoc. cbn [app].
    rewrite -!app_assoc. cbn [app]. do 2 f_equal; [|len]. do 4 f_equal. f_equal. lia.
  - intros obj Ho Hh. simpl in Hh. rewrite length_app /= in Hh.
    destruct (decide (k < object_size)%nat); [|apply hole_overflow; lia]. rewrite run_hole //.
    destruct (decide (S k + length l2 ≤ object_size)%nat) as [Hle|].
    + destruct (object_split obj (S k) (length l2) Ho Hle) as (A & old & B & -> & Hk & Hold).
      rewrite (emits_cont _ _ _ _ _ _ _ H2) //.
      destruct (decide (S k + length l2 < object_size)%nat); [|apply hole_overflow; lia].
      rewrite run_hole // run_gets. cbn [here]. destruct A as [|a A] using rev_ind; [done|]. clear IHA.
      rewrite -app_assoc /= length_app /= in Hk |- *. unfold mbind at 1, M_bind at 1.
      rewrite fix_middle; [|lia|lia]. unfold mbind, M_bind. rewrite (emits_overflow _ _ _ H3) //; [|lia].
      revert Ho. len.
    + unfold mbind, M_bind. rewrite (emits_overflow _ _ _ H2) //. lia.
Qed.

Lemma c_emits x k : assigns_vars x = true → emits k (c x) (code_of x).
Proof.
  revert k. induction x as [v|v|x IHx y IHy|x IHx y IHy|x IHx y IHy|x _ y IHy|x IHx y IHy
    |x IHx y IHy z IHz|x IHx y IHy|x IHx y IHy| |x IHx y IHy|x IHx|x IHx]; intros k H;
    cbn [assigns_vars] in H; repeat (apply andb_true_iff in H as [H ?]); cbn [c code_of].
  - apply (emits_seq _ _ _ [_] [_]); apply emits_g.
  - apply (emits_seq _ _ _ [_] [_]); apply emits_g.
  - repeat apply emits_seq; auto using emits_g.
  - repeat apply emits_seq; auto using emits_g.
  - repeat apply emits_seq; auto using emits_g.
  - destruct x as [v| | | | | | | | | | | | |]; try done.
    apply emits_seq; [auto|]. apply (emits_seq _ _ _ [_] [_]); [apply emits_g|].
    eapply emits_equiv; [intros σ; by run|apply emits_g].
  - apply emits_seq; [auto|]. apply (emits_seq _ _ _ [_] (_ :: _)); [apply emits_g|].
    apply emits_forward. auto.
  - apply emits_seq; [auto|]. apply (emits_seq _ _ _ [_] (_ :: _)); [apply emits_g|].
    pose proof (emits_else (k + length (code_of x) + 1) (c y;; g JMP) (code_of y ++ [JMP]) (c z) (code_of z)) as He.
    rewrite length_app Nat2Z.inj_add -Z.add_assoc -app_assoc in He. eapply emits_equiv; [|apply He].
    + apply M_bind_proper; [intros p1|done]. by rewrite M_bind_assoc.
    + apply emits_seq; auto using emits_g.
    + auto.
  - apply emits_here. apply emits_seq; [auto|]. apply (emits_seq _ _ _ [_] (_ :: _)); [apply emits_g|].
    set (d := - _).
    pose proof (emits_forward (k + length (code_of x) + 1) (c y;; g JMP;; p ← hole; fix_ p k)
      (code_of y ++ [JMP] ++ [d])) as He.
    rewrite !length_app Nat2Z.inj_add -Z.add_assoc in He. eapply emits_equiv; [|apply He].
    + apply M_bind_proper; [intros p1|done]. rewrite M_bind_assoc.
      apply M_bind_proper; [intros []|done]. rewrite M_bind_assoc.
      apply M_bind_proper; [intros []|done]. by rewrite M_bind_assoc.
    + apply emits_seq; [auto|]. apply emits_seq; [apply emits_g|].
      rewrite (_ : d = Z.of_nat k - Z.of_nat (S (k + length (code_of x) + 1) + length (code_of y) + length [JMP]));
        [apply emits_back|unfold d; simpl; lia].
  - apply emits_here. apply emits_seq; [auto|]. apply emits_seq; [auto|].
    apply (emits_seq _ _ _ [_] [_]); [apply emits_g|].
    set (d := - _). rewrite (_ : d = Z.of_nat k - Z.of_nat (k + length (code_of x) + length (code_of y) + length [JNZ]));
      [apply emits_back|unfold d; simpl; lia].
  - apply emits_nil.
  - apply emits_seq; auto.
  - apply emits_seq; auto using emits_g.
  - apply emits_seq; auto using emits_g.
Qed.

Lemma c_run x :
  assigns_vars x = true →
  c x init_gen =
  if bool_decide (length (code_of x) ≤ object_size)%nat
  then Ret tt (Gen ((code <$> code_of x) ++ replicate (object_size - length (code_of x)) 0)
                   (length (code_of x)))
  else Undef.
Proof.
  intros Hx. pose proof (c_emits x 0 Hx) as [Hr Ho]. unfold init_gen. case_bool_decide as Hle.
  - specialize (Hr [] (replicate (length (code_of x)) 0) (replicate (object_size - length (code_of x)) 0)).
    cbn [app] in Hr. rewrite -replicate_add in Hr. rewrite (_ : _ + (_ - _) = object_size)%nat in Hr; [|lia].
    apply Hr; by rewrite ?length_replicate.
  - apply Ho; [apply length_replicate|lia].
Qed.

(** C25: the generator, holes and patches included, writes exactly the reference
    code, each element cut down to a [char], and leaves [here] after it; it is
    undefined exactly when that code does not fit in the 1000 bytes of [object]. *)
Theorem c_correct x :
  assigns_vars x = true →
  c (PROG x) init_gen =
  if bool_decide (length (code_of x) < object_size)%nat
  then Ret tt (Gen ((code <$> (code_of x ++ [HALT])) ++ replicate (object_size - S (length (code_of x))) 0)
                   (S (length (code_of x))))
  else Undef.
Proof.
  intros Hx. rewrite c_run; [|done]. cbn [code_of]. rewrite length_app /= Nat.add_1_r.
  by rewrite (bool_decide_ext _ (length (code_of x) < object_size)%nat); [|lia].
Qed.

Lemma c_correct_witness :
  let x := IF2 (VAR 0) (EXPR (CST 1)) (EXPR (SET (VAR 1) (CST 2))) in
  assigns_vars x = true ∧
  c (PROG x) init_gen =
  Ret tt (Gen ([0; 0; 7; 6; 2; 1; 3; 9; 6; 2; 2; 1; 1; 3; 10] ++ replicate 985 0) 15).
Proof.
  split; [reflexivity|].
  exact (c_correct (IF2 (VAR 0) (EXPR (CST 1)) (EXPR (SET (VAR 1) (CST 2)))) eq_refl).
Defined.
