(* ===== verification/TinyVM.v ===== *)
(** The virtual machine of src/bin/paradigms/tiny_c/tinyc.c, and the proof that
    compiled code does what the program means. *)
From S2P Require Export TinyGen.
Local Open Scope Z_scope.

(** * The machine *)

(** The local variables of [run] and the array [globals].  A stack cell that was
    never written is indeterminate; [sp] and [pc] are indices of the arrays. *)
Record vm := VM { stack : list (option Z); sp : nat; pc : nat; globals : list Z }.
Definition stack_size : nat := 1000.

Definition init_vm (gs : list Z) : vm := VM (replicate stack_size None) 0 0 gs.

Section machine.
Context (obj : list Z).

(** [*pc] and [pc++], where [pc] may not go further than one past the end. *)
Definition peek_code : M vm Z := p ← gets pc; defined (obj !! p).
Definition next_pc : M vm unit := λ σ,
  if bool_decide (pc σ < object_size)%nat
  then Ret tt (VM (stack σ) (sp σ) (S (pc σ)) (globals σ))
  else Undef.
Definition fetch : M vm Z := v ← peek_code; next_pc;; mret v.

(** [pc += *pc]. *)
Definition jump : M vm unit :=
  o ← peek_code;
  p ← gets pc;
  if bool_decide (0 ≤ Z.of_nat p + o ≤ Z.of_nat object_size)
  then modify (λ σ, VM (stack σ) (sp σ) (Z.to_nat (Z.of_nat p + o)) (globals σ))
  else undef.

(** [*sp++ = v], [sp[-i]], [sp[-i] = v] and [--sp]. *)
Definition push (v : Z) : M vm unit := λ σ,
  if bool_decide (sp σ < stack_size)%nat
  then Ret tt (VM (<[sp σ := Some v]> (stack σ)) (S (sp σ)) (pc σ) (globals σ))
  else Undef.
Definition top (i : nat) : M vm Z := λ σ,
  if bool_decide (i ≤ sp σ)%nat then defined (stack σ !! (sp σ - i)%nat ≫= id) σ else Undef.
Definition set_top (i : nat) (v : Z) : M vm unit := λ σ,
  if bool_decide (i ≤ sp σ)%nat
  then Ret tt (VM (<[(sp σ - i)%nat := Some v]> (stack σ)) (sp σ) (pc σ) (globals σ))
  else Undef.
Definition drop_top : M vm unit := λ σ,
  if bool_decide (1 ≤ sp σ)%nat
  then Ret tt (VM (stack σ) (sp σ - 1) (pc σ) (globals σ))
  else Undef.

(** [globals[i]], an array of 26. *)
Definition get_global (i : Z) : M vm Z :=
  gs ← gets globals;
  if bool_decide (0 ≤ i) then defined (gs !! Z.to_nat i) else undef.
Definition set_global (i : Z) (v : Z) : M vm unit := λ σ,
  if bool_decide (0 ≤ i < Z.of_nat (length (globals σ)))
  then Ret tt (VM (stack σ) (sp σ) (pc σ) (<[Z.to_nat i := v]> (globals σ)))
  else Undef.

(** [sp[-2] = op(sp[-2], sp[-1]); --sp;] *)
Definition binop (op : Z → Z → option Z) : M vm unit :=
  a ← top 2;
  b ← top 1;
  v ← defined (op a b);
  set_top 2 v;;
  drop_top.

Definition lt_int (a b : Z) : Z := if bool_decide (a < b) then 1 else 0.

(** One round of the [switch]; [inr] leaves [run]. *)
Definition step : M vm (unit + unit) :=
  opc ← fetch;
  if bool_decide (opc = IFETCH) then i ← fetch; v ← get_global i; push v;; mret (inl tt)
  else if bool_decide (opc = ISTORE) then
    i ← fetch; v ← top 1; set_global i v;; mret (inl tt)
  else if bool_decide (opc = IPUSH) then v ← fetch; push v;; mret (inl tt)
  else if bool_decide (opc = IPOP) then drop_top;; mret (inl tt)
  else if bool_decide (opc = IADD) then binop (λ a b, int_of (a + b));; mret (inl tt)
  else if bool_decide (opc = ISUB) then binop (λ a b, int_of (a - b));; mret (inl tt)
  else if bool_decide (opc = ILT) then binop (λ a b, Some (lt_int a b));; mret (inl tt)
  else if bool_decide (opc = JMP) then jump;; mret (inl tt)
  else if bool_decide (opc = JZ) then
    drop_top;; s ← gets sp; v ← (λ σ, defined (stack σ !! s ≫= id) σ);
    (if bool_decide (v = 0) then jump else next_pc);; mret (inl tt)
  else if bool_decide (opc = JNZ) then
    drop_top;; s ← gets sp; v ← (λ σ, defined (stack σ !! s ≫= id) σ);
    (if bool_decide (v ≠ 0) then jump else next_pc);; mret (inl tt)
  else mret (inr tt).

Definition run (fuel : nat) : M vm unit := loop fuel (λ _, step) tt.
End machine.

(** * The meaning of programs *)

(** The state of a program is the array of its 26 variables; the operations on
    [int] are undefined when they overflow. *)
Definition var_get (i : Z) : M (list Z) Z := λ gs,
  if bool_decide (0 ≤ i) then defined (gs !! Z.to_nat i) gs else Undef.
Definition var_set (i v : Z) : M (list Z) unit := λ gs,
  if bool_decide (0 ≤ i < Z.of_nat (length gs)) then Ret tt (<[Z.to_nat i := v]> gs) else Undef.

Lemma var_get_cases i gs : (∃ v, var_get i gs = Ret v gs) ∨ var_get i gs = Undef.
Proof. unfold var_get. case_bool_decide; [|by right]. destruct (gs !! _); [left; by eexists|by right]. Qed.
Lemma var_set_cases i v gs : (∃ gs', var_set i v gs = Ret tt gs') ∨ var_set i v gs = Undef.
Proof. unfold var_set. case_bool_decide; [left; by eexists|by right]. Qed.

(** Expressions are evaluated from left to right, assignments included. *)
Fixpoint eval (x : node) : M (list Z) Z :=
  match x with
  | VAR v => var_get v
  | CST v => mret v
  | ADD x y => a ← eval x; b ← eval y; defined (int_of (a + b))
  | SUB x y => a ← eval x; b ← eval y; defined (int_of (a - b))
  | LT x y => a ← eval x; b ← eval y; mret (lt_int a b)
  | SET x y => v ← eval y; i ← defined (node_val x); var_set i v;; mret v
  | _ => undef
  end.

(** [fuel] bounds the rounds of each loop. *)
Fixpoint exec (fuel : nat) (x : node) : M (list Z) unit :=
  match x with
  | IF1 x y => v ← eval x; if bool_decide (v = 0) then mret tt else exec fuel y
  | IF2 x y z => v ← eval x; if bool_decide (v = 0) then exec fuel z else exec fuel y
  | WHILE x y =>
      loop fuel (λ _,
        v ← eval x;
        if bool_decide (v = 0) then mret (inr tt) else exec fuel y;; mret (inl tt)) tt
  | DO x y =>
      loop fuel (λ _,
        exec fuel x;;
        v ← eval y;
        mret (if bool_decide (v = 0) then inr tt else inl tt)) tt
  | EMPTY => mret tt
  | SEQ x y => exec fuel x;; exec fuel y
  | EXPR x => eval x;; mret tt
  | PROG x => exec fuel x
  | _ => undef
  end.

(** The trees that have a meaning: those that the parser makes, with any constants
    and variables. *)
Fixpoint expr_shape (x : node) : bool :=
  match x with
  | VAR _ | CST _ => true
  | ADD x y | SUB x y | LT x y => expr_shape x && expr_shape y
  | SET x y => is_VAR x && expr_shape y
  | _ => false
  end.
Fixpoint stmt_shape (x : node) : bool :=
  match x with
  | IF1 x y | WHILE x y => expr_shape x && stmt_shape y
  | IF2 x y z => expr_shape x && stmt_shape y && stmt_shape z
  | DO x y => stmt_shape x && expr_shape y
  | EMPTY => true
  | SEQ x y => stmt_shape x && stmt_shape y
  | EXPR x => expr_shape x
  | _ => false
  end.

Lemma is_expr_shape x : is_expr x = true → expr_shape x = true.
Proof.
  induction x; simpl; rewrite ?andb_true_iff; try done; try (intros [??]; auto).
  destruct x1; try done. rewrite andb_true_iff. intros [_ ?]. auto.
Qed.
Lemma is_stmt_shape x : is_stmt x = true → stmt_shape x = true.
Proof.
  induction x; simpl; rewrite ?andb_true_iff; try done; intros; destruct_and?; split_and?; auto using is_expr_shape.
Qed.
Lemma expr_shape_assigns x : expr_shape x = true → assigns_vars x = true.
Proof. induction x; simpl; rewrite ?andb_true_iff; try done; intros [??]; auto. Qed.
Lemma stmt_shape_assigns x : stmt_shape x = true → assigns_vars x = true.
Proof.
  induction x; simpl; rewrite ?andb_true_iff; try done; intros; destruct_and?; split_and?; auto using expr_shape_assigns.
Qed.

(** The stack cells that evaluating [x] needs. *)
Fixpoint depth (x : node) : nat :=
  match x with
  | VAR _ | CST _ => 1
  | ADD x y | SUB x y | LT x y => depth x `max` S (depth y)
  | SET _ y => depth y
  | IF1 x y | WHILE x y | DO x y | SEQ x y => depth x `max` depth y
  | IF2 x y z => depth x `max` depth y `max` depth z
  | EMPTY => 0
  | EXPR x | PROG x => depth x
  end.

(** * Compiled code on the machine *)

(** The first cells of the stack hold [vs], from the bottom up. *)
Definition stk (st : list (option Z)) (vs : list Z) : Prop :=
  length st = stack_size ∧ take (length vs) st = Some <$> vs.

Lemma stk_push st vs v :
  stk st vs → (length vs < stack_size)%nat → stk (<[length vs := Some v]> st) (vs ++ [v]).
Proof.
  intros [Hl Ht] Hv. split; [by rewrite length_insert|].
  rewrite length_app Nat.add_1_r fmap_app.
  rewrite (take_S_r _ _ (Some v)); [|by rewrite list_lookup_insert_eq; [|lia]].
  by rewrite take_insert_ge ?Ht.
Qed.

Lemma stk_top st vs v : stk st (vs ++ [v]) → st !! length vs = Some (Some v).
Proof.
  intros [_ Ht]. rewrite length_app Nat.add_1_r fmap_app in Ht.
  assert (take (S (length vs)) st !! length vs = Some (Some v)) as H.
  { rewrite Ht lookup_app_r length_fmap // Nat.sub_diag. done. }
  rewrite lookup_take in H. by case_decide.
Qed.

Lemma stk_pop st vs v : stk st (vs ++ [v]) → stk st vs.
Proof.
  intros [Hl Ht]. split; [done|]. rewrite length_app Nat.add_1_r fmap_app in Ht.
  apply (f_equal (take (length vs))) in Ht. rewrite take_take Nat.min_l in Ht; [|lia].
  rewrite Ht take_app_le ?length_fmap // take_ge ?length_fmap //.
Qed.

Lemma stk_length st vs : stk st vs → (length vs ≤ stack_size)%nat.
Proof. intros [Hl Ht]. apply (f_equal length) in Ht. rewrite length_take length_fmap Hl in Ht. lia. Qed.

Section simulation.
Context (obj : list Z) (Hobj : length obj = object_size).

(** [l] is the code at position [p]. *)
Definition code_at (p : nat) (l : list Z) : Prop := ∃ rest, drop p obj = l ++ rest.

Lemma code_at_app p l1 l2 : code_at p (l1 ++ l2) → code_at p l1 ∧ code_at (p + length l1) l2.
Proof.
  intros [rest H]. rewrite -app_assoc in H. split; [by exists (l2 ++ rest)|]. exists rest.
  by rewrite -drop_drop H drop_app_length.
Qed.

Lemma code_at_cons p c l : code_at p (c :: l) → obj !! p = Some c ∧ code_at (S p) l.
Proof.
  intros H. split.
  - destruct H as [rest H]. by rewrite -(Nat.add_0_r p) -lookup_drop H.
  - apply (code_at_app p [c] l) in H as [_ H]. by rewrite Nat.add_1_r in H.
Qed.

Lemma code_at_length p l : code_at p l → l ≠ [] → (p + length l ≤ object_size)%nat.
Proof.
  intros [rest H] Hl. apply (f_equal length) in H. rewrite length_drop length_app Hobj in H.
  destruct l; [done|]. simpl in *. lia.
Qed.

(** Equations for the machine's operations on a state whose stack holds [vs]. *)
Lemma run_fetch {A} (k : Z → M vm A) st s p gs c :
  obj !! p = Some c → (fetch obj ≫= k) (VM st s p gs) = k c (VM st s (S p) gs).
Proof.
  intros Hc. unfold fetch, peek_code. run. cbn [pc]. rewrite Hc. run.
  unfold next_pc, mbind, M_bind. cbn [pc stack sp globals]. rewrite bool_decide_true //.
  rewrite -Hobj. by eapply lookup_lt_Some.
Qed.

Lemma run_push {A} (k : unit → M vm A) st (vs : list Z) p gs v :
  (length vs < stack_size)%nat →
  (push v ≫= k) (VM st (length vs) p gs) =
  k tt (VM (<[length vs := Some v]> st) (length (vs ++ [v])) p gs).
Proof.
  intros Hv. unfold push, mbind, M_bind. cbn [sp]. rewrite bool_decide_true //.
  by rewrite length_app Nat.add_1_r.
Qed.

Lemma run_top1 {A} (k : Z → M vm A) st (vs : list Z) v p gs :
  stk st (vs ++ [v]) →
  (top 1 ≫= k) (VM st (length (vs ++ [v])) p gs) = k v (VM st (length (vs ++ [v])) p gs).
Proof.
  intros Hs. unfold top, mbind at 1, M_bind at 1. cbn [sp stack]. rewrite length_app /= Nat.add_sub.
  rewrite bool_decide_true; [|lia]. by rewrite (stk_top _ _ _ Hs).
Qed.

Lemma run_top2 {A} (k : Z → M vm A) st (vs : list Z) a b p gs :
  stk st ((vs ++ [a]) ++ [b]) →
  (top 2 ≫= k) (VM st (length ((vs ++ [a]) ++ [b])) p gs) =
  k a (VM st (length ((vs ++ [a]) ++ [b])) p gs).
Proof.
  intros Hs%stk_pop%stk_top. unfold top, mbind at 1, M_bind at 1. cbn [sp stack].
  rewrite !length_app /= (_ : length vs + 1 + 1 - 2 = length vs)%nat; [|lia].
  rewrite bool_decide_true; [|lia]. by rewrite Hs.
Qed.

Lemma run_drop_top {A} (k : unit → M vm A) st (vs : list Z) v p gs :
  (drop_top ≫= k) (VM st (length (vs ++ [v])) p gs) = k tt (VM st (length vs) p gs).
Proof.
  unfold drop_top, mbind, M_bind. cbn [sp stack pc globals]. rewrite length_app /= Nat.add_sub.
  rewrite bool_decide_true //. lia.
Qed.

Lemma run_jump {A} (k : unit → M vm A) st s p gs o q :
  obj !! p = Some o → Z.of_nat p + o = Z.of_nat q → (q ≤ object_size)%nat →
  (jump obj ≫= k) (VM st s p gs) = k tt (VM st s q gs).
Proof.
  intros Ho Hq Hle. unfold jump, peek_code. run. cbn [pc]. rewrite Ho. run. cbn [pc]. rewrite Hq.
  rewrite bool_decide_true; [|lia]. run. cbn [stack sp globals]. by rewrite Nat2Z.id.
Qed.

Lemma run_next_pc {A} (k : unit → M vm A) st s p gs o :
  obj !! p = Some o → (next_pc ≫= k) (VM st s p gs) = k tt (VM st s (S p) gs).
Proof.
  intros Ho. unfold next_pc, mbind, M_bind. cbn [pc]. rewrite bool_decide_true //.
  rewrite -Hobj. by eapply lookup_lt_Some.
Qed.

(** Decide which instruction an opcode is. *)
Ltac opcode := repeat match goal with
  | |- context [bool_decide (?a = ?b)] =>
      let v := eval vm_compute in (bool_decide (a = b)) in
      lazymatch v with true => idtac | false => idtac end;
      change (bool_decide (a = b)) with v; cbv iota
  end.

Ltac at_code H :=
  let Hc := fresh "Hc" in
  apply code_at_cons in H as [Hc H]; unfold step; rewrite (run_fetch _ _ _ _ _ _ Hc); opcode.

Lemma step_IPUSH p v st (vs : list Z) gs :
  code_at p [IPUSH; v] → (length vs < stack_size)%nat →
  step obj (VM st (length vs) p gs) =
  Ret (inl tt) (VM (<[length vs := Some v]> st) (length (vs ++ [v])) (p + 2) gs).
Proof.
  intros H Hv. at_code H. apply code_at_cons in H as [Hc' _]. rewrite (run_fetch _ _ _ _ _ _ Hc').
  rewrite run_push //. do 2 f_equal. lia.
Qed.

Lemma step_IFETCH p i v st (vs : list Z) gs :
  code_at p [IFETCH; i] → (length vs < stack_size)%nat → var_get i gs = Ret v gs →
  step obj (VM st (length vs) p gs) =
  Ret (inl tt) (VM (<[length vs := Some v]> st) (length (vs ++ [v])) (p + 2) gs).
Proof.
  intros H Hv Hg. at_code H. apply code_at_cons in H as [Hc' _]. rewrite (run_fetch _ _ _ _ _ _ Hc').
  unfold var_get in Hg. unfold get_global. rewrite run_assoc run_gets. cbn [globals].
  case_bool_decide; [|done]. destruct (gs !! Z.to_nat i); [|done].
  injection Hg as ->. run. rewrite run_push //. do 2 f_equal. lia.
Qed.

Lemma step_ISTORE p i v st (vs : list Z) gs gs' :
  code_at p [ISTORE; i] → stk st (vs ++ [v]) → var_set i v gs = Ret tt gs' →
  step obj (VM st (length (vs ++ [v])) p gs) =
  Ret (inl tt) (VM st (length (vs ++ [v])) (p + 2) gs').
Proof.
  intros H Hs Hg. at_code H. apply code_at_cons in H as [Hc' _]. rewrite (run_fetch _ _ _ _ _ _ Hc').
  rewrite run_top1 //. unfold var_set in Hg. unfold set_global, mbind, M_bind. cbn [globals stack sp pc].
  case_bool_decide; [|done]. injection Hg as <-. unfold mret, M_ret. do 2 f_equal. lia.
Qed.

Lemma step_IPOP p v st (vs : list Z) gs :
  code_at p [IPOP] →
  step obj (VM st (length (vs ++ [v])) p gs) = Ret (inl tt) (VM st (length vs) (p + 1) gs).
Proof. intros H. at_code H. rewrite run_drop_top. do 2 f_equal. lia. Qed.

Lemma run_binop {A} (k : unit → M vm A) op st (vs : list Z) a b p gs :
  stk st ((vs ++ [a]) ++ [b]) →
  (binop op ≫= k) (VM st (length ((vs ++ [a]) ++ [b])) p gs) =
  match op a b with
  | Some v => k tt (VM (<[length vs := Some v]> st) (length (vs ++ [v])) p gs)
  | None => Undef
  end.
Proof.
  intros Hs. unfold binop. rewrite run_assoc run_top2 //. rewrite run_assoc run_top1 //.
  rewrite run_assoc. destruct (op a b) as [v|]; [|done]. run.
  unfold set_top, mbind at 1, M_bind at 1. cbn [sp stack pc globals].
  rewrite !length_app /= bool_decide_true; [|lia].
  rewrite (_ : length vs + 1 + 1 - 2 = length vs)%nat; [|lia].
  rewrite (_ : length vs + 1 + 1 = length ((vs ++ [a]) ++ [b]))%nat; [|by rewrite !length_app].
  rewrite run_drop_top. by rewrite !length_app.
Qed.

Lemma step_HALT p st s gs :
  code_at p [HALT] → step obj (VM st s p gs) = Ret (inr tt) (VM st s (S p) gs).
Proof. intros H. at_code H. done. Qed.

(** The binary operations, and what they compute. *)
Definition binop_of (o : Z) : option (Z → Z → option Z) :=
  if bool_decide (o = IADD) then Some (λ a b, int_of (a + b))
  else if bool_decide (o = ISUB) then Some (λ a b, int_of (a - b))
  else if bool_decide (o = ILT) then Some (λ a b, Some (lt_int a b))
  else None.

Lemma step_binop p o op st (vs : list Z) a b gs :
  code_at p [o] → binop_of o = Some op → stk st ((vs ++ [a]) ++ [b]) →
  step obj (VM st (length ((vs ++ [a]) ++ [b])) p gs) =
  match op a b with
  | Some v => Ret (inl tt) (VM (<[length vs := Some v]> st) (length (vs ++ [v])) (p + 1) gs)
  | None => Undef
  end.
Proof.
  intros H Ho Hs. rewrite Nat.add_1_r. unfold binop_of in Ho.
  repeat (case_bool_decide; [subst o; injection Ho as <-; at_code H; by rewrite run_binop|]). done.
Qed.

Lemma step_JMP p o q st s gs :
  code_at p [JMP; o] → Z.of_nat p + 1 + o = Z.of_nat q → (q ≤ object_size)%nat →
  step obj (VM st s p gs) = Ret (inl tt) (VM st s q gs).
Proof.
  intros H Hq Hle. at_code H. apply code_at_cons in H as [Hc' _].
  rewrite (run_jump _ _ _ _ _ _ q Hc'); [done|lia|done].
Qed.

Lemma step_JZ p o q v st (vs : list Z) gs :
  code_at p [JZ; o] → stk st (vs ++ [v]) →
  (v = 0 → Z.of_nat p + 1 + o = Z.of_nat q ∧ (q ≤ object_size)%nat) → (v ≠ 0 → q = (p + 2)%nat) →
  step obj (VM st (length (vs ++ [v])) p gs) = Ret (inl tt) (VM st (length vs) q gs).
Proof.
  intros H Hs H0 H1. at_code H. apply code_at_cons in H as [Hc' _].
  rewrite run_drop_top run_gets. cbn [sp]. unfold mbind at 1, M_bind at 1. cbn [stack].
  rewrite (stk_top _ _ _ Hs). cbn [mbind option_bind id defined]. unfold mret at 1, M_ret at 1.
  case_bool_decide as Hv.
  - destruct (H0 Hv) as [??]. rewrite (run_jump _ _ _ _ _ _ q Hc'); [done|lia|done].
  - rewrite (run_next_pc _ _ _ _ _ _ Hc') (H1 Hv). do 2 f_equal. lia.
Qed.

Lemma step_JNZ p o q v st (vs : list Z) gs :
  code_at p [JNZ; o] → stk st (vs ++ [v]) →
  (v ≠ 0 → Z.of_nat p + 1 + o = Z.of_nat q ∧ (q ≤ object_size)%nat) → (v = 0 → q = (p + 2)%nat) →
  step obj (VM st (length (vs ++ [v])) p gs) = Ret (inl tt) (VM st (length vs) q gs).
Proof.
  intros H Hs H0 H1. at_code H. apply code_at_cons in H as [Hc' _].
  rewrite run_drop_top run_gets. cbn [sp]. unfold mbind at 1, M_bind at 1. cbn [stack].
  rewrite (stk_top _ _ _ Hs). cbn [mbind option_bind id defined]. unfold mret at 1, M_ret at 1.
  case_bool_decide as Hv.
  - destruct (H0 Hv) as [??]. rewrite (run_jump _ _ _ _ _ _ q Hc'); [done|lia|done].
  - rewrite (run_next_pc _ _ _ _ _ _ Hc') (H1 ltac:(lia)). do 2 f_equal. lia.
Qed.

Lemma step_IFETCH_undef p i st (vs : list Z) gs :
  code_at p [IFETCH; i] → var_get i gs = Undef → step obj (VM st (length vs) p gs) = Undef.
Proof.
  intros H Hg. at_code H. apply code_at_cons in H as [Hc' _]. rewrite (run_fetch _ _ _ _ _ _ Hc').
  unfold var_get in Hg. unfold get_global. rewrite run_assoc run_gets. cbn [globals].
  case_bool_decide; [|done]. by destruct (gs !! Z.to_nat i).
Qed.

Lemma step_ISTORE_undef p i v st (vs : list Z) gs :
  code_at p [ISTORE; i] → stk st (vs ++ [v]) → var_set i v gs = Undef →
  step obj (VM st (length (vs ++ [v])) p gs) = Undef.
Proof.
  intros H Hs Hg. at_code H. apply code_at_cons in H as [Hc' _]. rewrite (run_fetch _ _ _ _ _ _ Hc').
  rewrite run_top1 //. unfold var_set in Hg. unfold set_global, mbind, M_bind. cbn [globals].
  by case_bool_decide.
Qed.

(** [n] rounds of the machine that do not leave it. *)
Inductive steps : nat → vm → vm → Prop :=
  | steps_O σ : steps 0 σ σ
  | steps_S n σ σ1 σ' : step obj σ = Ret (inl tt) σ1 → steps n σ1 σ' → steps (S n) σ σ'.

Lemma steps_trans n1 n2 σ σ1 σ' : steps n1 σ σ1 → steps n2 σ1 σ' → steps (n1 + n2) σ σ'.
Proof. induction 1; simpl; eauto using steps. Qed.

Lemma steps_one σ σ' : step obj σ = Ret (inl tt) σ' → steps 1 σ σ'.
Proof. eauto using steps. Qed.

Lemma steps_run n m σ σ' : steps n σ σ' → run obj (n + m) σ = run obj m σ'.
Proof.
  unfold run. induction 1 as [|n σ σ1 σ' H _ IH]; [done|]. cbn [Nat.add].
  rewrite run_loop. by rewrite (M_bind_Ret _ _ _ _ _ H).
Qed.

Lemma steps_nofuel n m σ σ' : steps n σ σ' → (m ≤ n)%nat → run obj m σ = NoFuel.
Proof.
  intros H. revert m. unfold run. induction H as [|n σ σ1 σ' H _ IH]; intros [|m] Hm; try done; [lia|].
  rewrite run_loop (M_bind_Ret _ _ _ _ _ H). apply IH. lia.
Qed.

(** The machine gets stuck in undefined behaviour. *)
Definition goes_wrong (σ : vm) : Prop := ∃ n σ', steps n σ σ' ∧ step obj σ' = Undef.

Lemma goes_wrong_steps n σ σ' : steps n σ σ' → goes_wrong σ' → goes_wrong σ.
Proof. intros H (m & σ2 & ? & ?). exists (n + m)%nat, σ2. split; [by eapply steps_trans|done]. Qed.

Lemma goes_wrong_now σ : step obj σ = Undef → goes_wrong σ.
Proof. intros H. exists 0%nat, σ. split; [constructor|done]. Qed.

(** What the machine does with an expression that the program gives [o]. *)
Definition computes (o : outcome (list Z) Z) (σ : vm) (vs : list Z) (q : nat) : Prop :=
  match o with
  | Ret v gs' => ∃ n st', steps (S n) σ (VM st' (length (vs ++ [v])) q gs') ∧ stk st' (vs ++ [v])
  | Undef => goes_wrong σ
  | _ => False
  end.

Lemma computes_binop x y o op st (vs : list Z) p gs :
  (∀ st vs p gs, stk st vs → code_at p (code_of x) → (length vs + depth x ≤ stack_size)%nat →
    computes (eval x gs) (VM st (length vs) p gs) vs (p + length (code_of x))) →
  (∀ st vs p gs, stk st vs → code_at p (code_of y) → (length vs + depth y ≤ stack_size)%nat →
    computes (eval y gs) (VM st (length vs) p gs) vs (p + length (code_of y))) →
  binop_of o = Some op →
  stk st vs → code_at p (code_of x ++ code_of y ++ [o]) →
  (length vs + depth x `max` S (depth y) ≤ stack_size)%nat →
  computes ((a ← eval x; b ← eval y; defined (op a b)) gs) (VM st (length vs) p gs) vs
    (p + length (code_of x ++ code_of y ++ [o])).
Proof.
  intros Hx Hy Ho Hst Hcode Hd. rewrite !length_app /=.
  apply code_at_app in Hcode as [Hcx [Hcy Hco]%code_at_app].
  specialize (Hx st vs p gs Hst Hcx ltac:(lia)). unfold mbind at 1, M_bind at 1.
  destruct (eval x gs) as [a gs1| | | |]; simpl in Hx; try done. destruct Hx as (n1 & st1 & Hn1 & Hst1).
  specialize (Hy st1 (vs ++ [a]) _ gs1 Hst1 Hcy ltac:(rewrite length_app /=; lia)).
  unfold mbind, M_bind. destruct (eval y gs1) as [b gs2| | | |]; simpl in Hy; try done;
    [|by eapply goes_wrong_steps].
  destruct Hy as (n2 & st2 & Hn2 & Hst2).
  pose proof (step_binop _ _ _ st2 vs a b gs2 Hco Ho Hst2) as Hs.
  pose proof (steps_trans _ _ _ _ _ Hn1 Hn2) as Hn. destruct (op a b) as [v|]; simpl.
  - eexists _, _. split.
    + eapply (steps_trans (S n1 + S n2)); [exact Hn|]. apply steps_one. rewrite Hs. do 2 f_equal. lia.
    + apply stk_push; [by apply stk_pop with a, stk_pop with b|].
      apply stk_length in Hst2. rewrite !length_app /= in Hst2. lia.
  - eapply goes_wrong_steps; [exact Hn|]. by apply goes_wrong_now.
Qed.

Lemma computes_seq o σ vs p q :
  computes o σ vs p → p = q → computes o σ vs q.
Proof. by intros ? <-. Qed.

(** An expression leaves its value on top of the stack. *)
Lemma eval_sim x st (vs : list Z) p gs :
  expr_shape x = true → stk st vs → code_at p (code_of x) → (length vs + depth x ≤ stack_size)%nat →
  computes (eval x gs) (VM st (length vs) p gs) vs (p + length (code_of x)).
Proof.
  revert st vs p gs. induction x as [v|v|x IHx y IHy|x IHx y IHy|x IHx y IHy|x _ y IHy| | | | | | | |];
    intros st vs p gs Hx Hst Hcode Hd; simpl in Hx; try done;
    cbn [code_of depth] in *.
  - cbn [eval]. destruct (var_get_cases v gs) as [[w Hg]|Hg]; rewrite Hg.
    + eexists 0%nat, _. split; [|apply stk_push; [done|lia]].
      apply steps_one. apply step_IFETCH with v; [done|lia|done].
    + apply goes_wrong_now. by eapply step_IFETCH_undef.
  - eexists 0%nat, _. split; [|apply stk_push; [done|lia]].
    apply steps_one. apply step_IPUSH; [done|lia].
  - apply andb_true_iff in Hx as [??]. apply computes_binop; auto.
  - apply andb_true_iff in Hx as [??]. apply computes_binop; auto.
  - apply andb_true_iff in Hx as [??].
    apply (computes_binop x y ILT (λ a b, Some (lt_int a b))); auto.
  - destruct x as [i| | | | | | | | | | | | |]; try done. apply andb_true_iff in Hx as [_ Hy].
    apply code_at_app in Hcode as [Hcy Hcs]. rewrite length_app /=.
    specialize (IHy st vs p gs Hy Hst Hcy ltac:(lia)). cbn [eval node_val]. unfold mbind at 1, M_bind at 1.
    destruct (eval y gs) as [v gs1| | | |]; simpl in IHy; try done. destruct IHy as (n1 & st1 & Hn1 & Hst1).
    run. unfold mbind, M_bind. destruct (var_set_cases i v gs1) as [[gs2 Hset]|Hset]; rewrite Hset.
    + pose proof (step_ISTORE _ _ _ _ _ _ _ Hcs Hst1 Hset) as Hs. eexists (n1 + 1)%nat, _.
      split; [|exact Hst1]. eapply (steps_trans (S n1) 1); [exact Hn1|]. apply steps_one. rewrite Hs.
      do 2 f_equal. lia.
    + eapply goes_wrong_steps; [exact Hn1|]. apply goes_wrong_now. by eapply step_ISTORE_undef.
Qed.

(** What the machine does with a statement that the program gives [o]: when the
    program used up [k] rounds of a loop, it makes at least [k] rounds. *)
Definition performs (k : nat) (o : outcome (list Z) unit) (σ : vm) (q : nat) : Prop :=
  match o with
  | Ret _ gs' => ∃ n st', steps n σ (VM st' 0 q gs') ∧ stk st' []
  | Undef => goes_wrong σ
  | NoFuel => ∃ n σ', (k ≤ n)%nat ∧ steps n σ σ'
  | _ => False
  end.

Lemma performs_steps n k o σ σ' q : steps n σ σ' → performs k o σ' q → performs k o σ q.
Proof.
  intros Hn. destruct o; simpl; try done.
  - intros (m & st' & ? & ?). exists (n + m)%nat, st'. split; [by eapply steps_trans|done].
  - intros; by eapply goes_wrong_steps.
  - intros (m & σ2 & ? & ?). exists (n + m)%nat, σ2. split; [lia|by eapply steps_trans].
Qed.

Lemma performs_seq k (m1 m2 : M (list Z) unit) gs σ p q :
  performs k (m1 gs) σ p →
  (∀ gs' st', stk st' [] → performs k (m2 gs') (VM st' 0 p gs') q) →
  performs k ((m1;; m2) gs) σ q.
Proof.
  intros H1 H2. unfold mbind, M_bind. destruct (m1 gs) as [[] gs'| | | |]; simpl in H1; try done.
  destruct H1 as (n & st' & Hn & Hst). eapply performs_steps; [exact Hn|]. by apply H2.
Qed.

(** An expression at the bottom of the stack, and what comes after it. *)
Lemma performs_eval k x (f : Z → M (list Z) unit) st p gs q :
  expr_shape x = true → stk st [] → code_at p (code_of x) → (depth x ≤ stack_size)%nat →
  (∀ v gs' st', stk st' [v] → performs k (f v gs') (VM st' 1 (p + length (code_of x)) gs') q) →
  performs k ((eval x ≫= f) gs) (VM st 0 p gs) q.
Proof.
  intros Hx Hst Hc Hd Hf. pose proof (eval_sim x st [] p gs Hx Hst Hc Hd) as H.
  unfold mbind, M_bind. destruct (eval x gs) as [v gs'| | | |]; simpl in H; try done.
  destruct H as (n & st' & Hn & Hst'). eapply performs_steps; [exact Hn|]. by apply Hf.
Qed.

Lemma performs_le k1 k2 o σ q : performs k1 o σ q → (k2 ≤ k1)%nat → performs k2 o σ q.
Proof. destruct o; simpl; try done. intros (n & σ' & ? & ?) ?. exists n, σ'. split; [lia|done]. Qed.

Lemma performs_step k o σ σ' q : step obj σ = Ret (inl tt) σ' → performs k o σ' q → performs (S k) o σ q.
Proof.
  intros H. destruct o; simpl; try done.
  - intros (n & st' & ? & ?). exists (S n), st'. split; [by eapply steps_S|done].
  - apply goes_wrong_steps with 1%nat. by apply steps_one.
  - intros (n & σ2 & ? & ?). exists (S n), σ2. split; [lia|by eapply steps_S].
Qed.

Lemma performs_step_le k o σ σ' q : step obj σ = Ret (inl tt) σ' → performs k o σ' q → performs k o σ q.
Proof. intros H Hp. eapply performs_le; [by eapply performs_step|lia]. Qed.

Lemma performs_ret k st gs q : stk st [] → performs k (Ret tt gs) (VM st 0 q gs) q.
Proof. intros H. exists 0%nat, st. split; [constructor|done]. Qed.

(** A statement that is simulated wherever its code is. *)
Definition simulated (fuel : nat) (x : node) : Prop := ∀ st p gs,
  stk st [] → code_at p (code_of x) → (depth x ≤ stack_size)%nat →
  performs fuel (exec fuel x gs) (VM st 0 p gs) (p + length (code_of x)).

Lemma while_sim fuel k x y st p gs :
  expr_shape x = true → simulated fuel y → (k ≤ fuel)%nat →
  stk st [] → code_at p (code_of (WHILE x y)) → (depth x `max` depth y ≤ stack_size)%nat →
  performs k (loop k (λ _,
    v ← eval x;
    if bool_decide (v = 0) then mret (inr tt) else exec fuel y;; mret (inl tt)) tt gs)
    (VM st 0 p gs) (p + length (code_of (WHILE x y))).
Proof.
  intros Hx Hy. revert st gs. induction k as [|k IH]; intros st gs Hk Hst Hcode Hd.
  { exists 0%nat, (VM st 0 p gs). split; [lia|constructor]. }
  pose proof Hcode as Hcode'. cbn [code_of] in Hcode'. rewrite run_loop run_assoc.
  apply code_at_app in Hcode' as [Hcx Hc]. apply (code_at_app _ [_; _]) in Hc as [Hcz Hc].
  apply code_at_app in Hc as [Hcy Hcj]. cbn [length] in Hcy, Hcj.
  assert (p + length (code_of (WHILE x y)) = p + length (code_of x) + 2 + length (code_of y) + 2)%nat as Hq.
  { cbn [code_of]. len. }
  pose proof (code_at_length _ _ Hcj ltac:(done)) as Hlen. cbn [length] in Hlen.
  apply performs_eval; [done|done|done|lia|]. intros v gs1 st1 Hst1. case_bool_decide as Hv.
  - eapply performs_step_le; [|by apply performs_ret, stk_pop with v].
    eapply (step_JZ _ _ _ v st1 []); [exact Hcz|done| |done]. intros _. split; [lia|lia].
  - eapply performs_step_le.
    { eapply (step_JZ _ _ (p + length (code_of x) + 2) v st1 []); [exact Hcz|done|done|done]. }
    rewrite run_assoc. eapply performs_seq.
    + eapply performs_le; [apply Hy; [by apply stk_pop with v|exact Hcy|lia]|lia].
    + intros gs2 st2 Hst2. run. eapply performs_step; [|apply IH; [lia|exact Hst2|done|lia]].
      eapply (step_JMP _ _ p _ _ _ Hcj); lia.
Qed.

Lemma do_sim fuel k x y st p gs :
  expr_shape y = true → simulated fuel x → (k ≤ fuel)%nat →
  stk st [] → code_at p (code_of (DO x y)) → (depth x `max` depth y ≤ stack_size)%nat →
  performs k (loop k (λ _,
    exec fuel x;;
    v ← eval y;
    mret (if bool_decide (v = 0) then inr tt else inl tt)) tt gs)
    (VM st 0 p gs) (p + length (code_of (DO x y))).
Proof.
  intros Hy Hx. revert st gs. induction k as [|k IH]; intros st gs Hk Hst Hcode Hd.
  { exists 0%nat, (VM st 0 p gs). split; [lia|constructor]. }
  pose proof Hcode as Hcode'. cbn [code_of] in Hcode'. rewrite run_loop run_assoc.
  apply code_at_app in Hcode' as [Hcx [Hcy Hcj]%code_at_app].
  assert (p + length (code_of (DO x y)) = p + length (code_of x) + length (code_of y) + 2)%nat as Hq.
  { cbn [code_of]. len. }
  pose proof (code_at_length _ _ Hcj ltac:(done)) as Hlen. cbn [length] in Hlen.
  eapply performs_seq.
  { eapply performs_le; [apply Hx; [exact Hst|exact Hcx|lia]|lia]. }
  intros gs1 st1 Hst1. rewrite run_assoc.
  apply performs_eval; [done|done|done|lia|]. intros v gs2 st2 Hst2. run. case_bool_decide as Hv.
  - eapply performs_step_le; [|by apply performs_ret, stk_pop with v].
    eapply (step_JNZ _ _ _ v st2 []); [exact Hcj|done|done|]. intros _. lia.
  - eapply performs_step; [|apply IH; [lia|by apply stk_pop with v|done|lia]].
    eapply (step_JNZ _ _ p v st2 []); [exact Hcj|done| |done]. intros _. split; [lia|lia].
Qed.

Lemma exec_sim fuel x : stmt_shape x = true → simulated fuel x.
Proof.
  induction x as [| | | | | |x _ y IHy|x _ y IHy z IHz|x _ y IHy|x IHx y _| |x IHx y IHy|x _|];
    intros Hx st p gs Hst Hcode Hd; simpl in Hx; try done; cbn [depth exec] in *.
  - apply andb_true_iff in Hx as [Hx Hy]. cbn [code_of] in *.
    apply code_at_app in Hcode as [Hcx Hc]. apply (code_at_app _ [_; _]) in Hc as [Hcz Hcy].
    cbn [length] in Hcy. assert (p + length (code_of x) + 2 + length (code_of y) ≤ object_size)%nat as Hlen.
    { destruct (code_of y) eqn:E; [pose proof (code_at_length _ _ Hcz ltac:(done)); simpl in *; lia|].
      by apply (code_at_length _ _ Hcy). }
    rewrite !length_app /=. apply performs_eval; [done|done|done|lia|]. intros v gs1 st1 Hst1.
    case_bool_decide as Hv.
    + eapply performs_step_le; [|by apply performs_ret, stk_pop with v].
      eapply (step_JZ _ _ _ v st1 []); [exact Hcz|done| |done]. intros _. split; [lia|lia].
    + eapply performs_step_le.
      { eapply (step_JZ _ _ (p + length (code_of x) + 2) v st1 []); [exact Hcz|done|done|done]. }
      rewrite (_ : p + (length (code_of x) + S (S (length (code_of y)))) =
                   p + length (code_of x) + 2 + length (code_of y))%nat; [|lia].
      apply IHy; [done|by apply stk_pop with v|exact Hcy|lia].
  - apply andb_true_iff in Hx as [[Hx Hy]%andb_true_iff Hz]. cbn [code_of] in *.
    apply code_at_app in Hcode as [Hcx Hc]. apply (code_at_app _ [_; _]) in Hc as [Hcz Hc].
    apply code_at_app in Hc as [Hcy Hc]. apply (code_at_app _ [_; _]) in Hc as [Hcj Hcz'].
    cbn [length] in *.
    assert (p + length (code_of x) + 2 + length (code_of y) + 2 + length (code_of z) ≤ object_size)%nat as Hlen.
    { destruct (code_of z) eqn:E; [pose proof (code_at_length _ _ Hcj ltac:(done)); simpl in *; lia|].
      by apply (code_at_length _ _ Hcz'). }
    rewrite (_ : p + length _ = p + length (code_of x) + 2 + length (code_of y) + 2 + length (code_of z))%nat;
      [|len]. apply performs_eval; [done|done|done|lia|]. intros v gs1 st1 Hst1. case_bool_decide as Hv.
    + eapply performs_step_le.
      { eapply (step_JZ _ _ (p + length (code_of x) + 2 + length (code_of y) + 2) v st1 []);
          [exact Hcz|done| |done]. intros _. split; [lia|lia]. }
      apply IHz; [done|by apply stk_pop with v|exact Hcz'|lia].
    + eapply performs_step_le.
      { eapply (step_JZ _ _ (p + length (code_of x) + 2) v st1 []); [exact Hcz|done|done|done]. }
      assert (performs fuel ((exec fuel y;; mret tt) gs1) (VM st1 0 (p + length (code_of x) + 2) gs1)
        (p + length (code_of x) + 2 + length (code_of y) + 2 + length (code_of z))) as Hp.
      { eapply performs_seq; [apply IHy; [done|by apply stk_pop with v|exact Hcy|lia]|].
        intros gs2 st2 Hst2. eapply performs_step_le; [|by apply performs_ret].
        eapply (step_JMP _ _ _ _ _ _ Hcj); lia. }
      unfold mbind, M_bind in Hp. by destruct (exec fuel y gs1) as [[]| | | |].
  - apply andb_true_iff in Hx as [Hx Hy]. by apply while_sim; [|apply IHy| | | |].
  - apply andb_true_iff in Hx as [Hx Hy]. by apply do_sim; [|apply IHx| | | |].
  - cbn [code_of length]. rewrite Nat.add_0_r. by apply performs_ret.
  - apply andb_true_iff in Hx as [Hx Hy]. cbn [code_of] in *.
    apply code_at_app in Hcode as [Hcx Hcy]. rewrite length_app Nat.add_assoc.
    eapply performs_seq; [apply IHx; [done|done|done|lia]|]. intros gs' st' Hst'. apply IHy; [done|done|done|lia].
  - cbn [code_of] in *. apply code_at_app in Hcode as [Hcx Hcp]. rewrite length_app Nat.add_assoc.
    apply performs_eval; [done|done|done|lia|]. intros v gs1 st1 Hst1.
    eapply performs_step_le; [|by apply performs_ret, stk_pop with v].
    by apply (step_IPOP _ v st1 []).
Qed.
End simulation.

Lemma stk_init : stk (replicate stack_size None) [].
Proof. split; [apply length_replicate|done]. Qed.

(** The code fits: in the array [object], and every constant and every jump offset
    in a [char]; and the expressions fit in the stack. *)
Definition fits (x : node) : bool :=
  bool_decide (length (code_of x) < object_size)%nat &&
  bool_decide (Forall (in_s 8) (code_of x)) &&
  bool_decide (depth x ≤ stack_size)%nat.

Lemma compiled_code x :
  stmt_shape x = true → fits x = true →
  ∃ obj h, c (PROG x) init_gen = Ret tt (Gen obj h) ∧ length obj = object_size ∧
    code_at obj 0 (code_of x ++ [HALT]).
Proof.
  intros Hx [[Hl Hf]%andb_true_iff _]%andb_true_iff.
  apply bool_decide_eq_true in Hl, Hf.
  rewrite c_run; [|exact (stmt_shape_assigns x Hx)]. cbn [code_of]. rewrite length_app /= Nat.add_1_r.
  rewrite bool_decide_true; [|lia]. do 2 eexists. split; [done|]. split.
  - rewrite length_app length_fmap length_app length_replicate. cbn [length]. lia.
  - eexists. rewrite drop_0. f_equal. rewrite fmap_app. f_equal.
    clear -Hf. induction Hf as [|v l Hv _ IH]; [done|]. rewrite fmap_cons IH. f_equal.
    by apply wrap_s_id.
Qed.

(** How a run of the machine on [obj] relates to what the program does. *)
Definition agrees_with (obj : list Z) (gs : list Z) (k : nat) (o : outcome (list Z) unit) : Prop :=
  match o with
  | Ret _ gs' => ∃ n σ', globals σ' = gs' ∧ ∀ m, (n ≤ m)%nat → run obj m (init_vm gs) = Ret tt σ'
  | Undef => ∃ n, ∀ m, (n ≤ m)%nat → run obj m (init_vm gs) = Undef
  | NoFuel => ∀ m, (m ≤ k)%nat → run obj m (init_vm gs) = NoFuel
  | _ => False
  end.

Lemma compiled_agrees k x gs obj h :
  stmt_shape x = true → fits x = true → c (PROG x) init_gen = Ret tt (Gen obj h) →
  agrees_with obj gs k (exec k x gs).
Proof.
  intros Hx Hfits Hc. destruct (compiled_code x Hx Hfits) as (obj' & h' & Hc' & Hobj & Hcode).
  rewrite Hc in Hc'. injection Hc' as <- <-. apply code_at_app in Hcode as [Hcode Hh].
  apply andb_true_iff in Hfits as [_ Hd%bool_decide_eq_true].
  pose proof (exec_sim obj Hobj k x Hx _ 0%nat gs stk_init Hcode Hd) as H.
  destruct (exec k x gs) as [[] gs'| | | |]; try done; cbn [performs agrees_with] in *.
  - destruct H as (n & st' & Hn & _). pose proof (step_HALT obj Hobj _ st' 0%nat gs' Hh) as Hs.
    exists (S n), (VM st' 0 (S (0 + length (code_of x))) gs'). split; [done|]. intros m Hm.
    replace m with (n + S (m - S n))%nat by lia. rewrite (steps_run _ _ _ _ _ Hn).
    unfold run. rewrite run_loop. by rewrite (M_bind_Ret _ _ _ _ _ Hs).
  - destruct H as (n & σ' & Hn & Hs). exists (S n). intros m Hm.
    replace m with (n + S (m - S n))%nat by lia. rewrite (steps_run _ _ _ _ _ Hn).
    unfold run. rewrite run_loop. unfold mbind, M_bind. by rewrite Hs.
  - destruct H as (n & σ' & Hk & Hn). intros m Hm. by eapply (steps_nofuel obj Hobj n); [exact Hn|lia].
Qed.

(** C20: compiled code means what the program means.  For a program whose code
    fits, on any values of the variables: if the program ends with values [gs'],
    the machine halts with them; if it overflows an [int], so does the machine;
    and while the program goes round a loop, the machine is still running. *)
Theorem compile_correct k x gs obj h :
  is_stmt x = true → fits x = true → c (PROG x) init_gen = Ret tt (Gen obj h) →
  match exec k x gs with
  | Ret _ gs' => ∃ n σ', globals σ' = gs' ∧ ∀ m, (n ≤ m)%nat → run obj m (init_vm gs) = Ret tt σ'
  | Undef => ∃ n, ∀ m, (n ≤ m)%nat → run obj m (init_vm gs) = Undef
  | NoFuel => ∀ m, (m ≤ k)%nat → run obj m (init_vm gs) = NoFuel
  | _ => False
  end.
Proof. intros Hx. exact (compiled_agrees k x gs obj h (is_stmt_shape x Hx)). Qed.

Lemma compile_correct_witness :
  let x := WHILE (LT (VAR 0) (CST 3)) (EXPR (SET (VAR 0) (ADD (VAR 0) (CST 1)))) in
  let gs := replicate 26 0 in
  ∃ obj h, c (PROG x) init_gen = Ret tt (Gen obj h) ∧
    ∃ n σ', globals σ' = 3 :: replicate 25 0 ∧ ∀ m, (n ≤ m)%nat → run obj m (init_vm gs) = Ret tt σ'.
Proof.
  intros x gs. eexists _, _. split; [vm_compute; reflexivity|].
  exact (compile_correct 10 x gs _ _ eq_refl ltac:(vm_compute; reflexivity) ltac:(vm_compute; reflexivity)).
Defined.
