(* ===== verification/TinyMain.v ===== *)
(** The main program of src/bin/paradigms/tiny_c/tinyc.c: reading, compiling,
    running and printing, composed. *)
From S2P Require Export TinyPrint TinyVM.
From stdpp Require Import pretty.
Local Open Scope Z_scope.

(** * The program *)

(** [printf("%c = %d\n", 'a' + i, globals[i])] for the variables that are not 0. *)
Definition newline : string := String (Ascii.ascii_of_nat 10) EmptyString.
Definition print_global (i : nat) (v : Z) : string :=
  if bool_decide (v ≠ 0)
  then (String (Ascii.ascii_of_nat (97 + i)) EmptyString +:+ " = " +:+ pretty v +:+ newline)%string
  else EmptyString.
Definition print_globals (gs : list Z) : string :=
  foldr (λ s1 s2, (s1 +:+ s2)%string) EmptyString (imap print_global gs).

(** What one phase gives to the next: its result, or the way it ended. *)
Definition and_then {S A B} (o : outcome S A) (f : A → S → outcome unit B) : outcome unit B :=
  match o with
  | Ret a s => f a s
  | Throw e _ => Throw e tt
  | Exit code _ => Exit code tt
  | Undef => Undef
  | NoFuel => NoFuel
  end.

(** [main]: the result is what it prints. *)
Definition main (fuel : nat) (text : list Z) : outcome unit string :=
  and_then (program fuel (init_lexer text)) (λ x _,
  and_then (c x init_gen) (λ _ σ,
  and_then (run (object σ) fuel (init_vm (replicate 26 0))) (λ _ σ',
  Ret (print_globals (globals σ')) tt))).

(** The invocations in the comment at the top of tinyc.c. *)
Example main_chain : main 200 (text_of "a=b=c=2<3;") = Ret (print_globals ([1; 1; 1] ++ replicate 23 0)) tt.
Proof. vm_compute. reflexivity. Qed.
Example main_while :
  main 400 (text_of "{ i=1; while (i<100) i=i+i; }") = Ret ("i = 128" +:+ newline)%string tt.
Proof. vm_compute. reflexivity. Qed.
Example main_gcd :
  main 600 (text_of "{ i=125; j=100; while (i-j) if (i<j) j=j-i; else i=i-j; }") =
  Ret ("i = 25" +:+ newline +:+ "j = 25" +:+ newline)%string tt.
Proof. vm_compute. reflexivity. Qed.
Example main_do :
  main 400 (text_of "{ i=1; do i=i+10; while (i<50); }") = Ret ("i = 51" +:+ newline)%string tt.
Proof. vm_compute. reflexivity. Qed.
Example main_empty_body :
  main 400 (text_of "{ i=1; while ((i=i+10)<50) ; }") = Ret ("i = 51" +:+ newline)%string tt.
Proof. vm_compute. reflexivity. Qed.
Example main_ifs :
  main 400 (text_of "{ i=7; if (i<5) x=1; if (i<10) y=2; }") =
  Ret ("i = 7" +:+ newline +:+ "y = 2" +:+ newline)%string tt.
Proof. vm_compute. reflexivity. Qed.
Example main_syntax_error : main 200 (text_of "while (a") = Exit 1 tt.
Proof. vm_compute. reflexivity. Qed.

(** * End to end *)

(** C21: the compiler works from text to output: if the grammar derives the text
    as the program [x], the code of [x] fits, and [x] ends with the values [gs]
    when it starts with all variables 0, then running the compiler on the text
    prints the variables of [gs] that are not 0. *)
Theorem main_correct text ts x k gs :
  Forall byte text → tokens text ts → d_stmt ts x → greedy x = true → fits x = true →
  exec k x (replicate 26 0) = Ret tt gs →
  ∃ n, ∀ fuel, (n ≤ fuel)%nat → main fuel text = Ret (print_globals gs) tt.
Proof.
  intros Ht Htok Hd Hg Hf He.
  assert (is_stmt x = true) as Hx by exact (proj1 d_stmt_is_stmt _ _ Hd (tokens_valid _ _ Htok)).
  apply is_stmt_shape in Hx. destruct (compiled_code x Hx Hf) as (obj & h & Hc & _ & _).
  pose proof (compiled_agrees k x (replicate 26 0) obj h Hx Hf Hc) as H. rewrite He in H.
  destruct H as (n & σ' & <- & Hrun). exists (n + (6 * length text + 5))%nat. intros fuel Hfuel.
  destruct (program_complete fuel text ts x Ht ltac:(lia) Htok Hd Hg) as [σ Hp].
  unfold main. rewrite Hp. cbn [and_then]. rewrite Hc. cbn [and_then object].
  rewrite Hrun; [done|lia].
Qed.

Lemma main_correct_witness :
  ∃ n, ∀ fuel, (n ≤ fuel)%nat →
    main fuel (text_of_tokens (print_stmt false (EXPR (SET (VAR 0) (CST 7))))) =
    Ret (print_globals (7 :: replicate 25 0)) tt.
Proof.
  apply (main_correct _ (print_stmt false (EXPR (SET (VAR 0) (CST 7)))) (EXPR (SET (VAR 0) (CST 7))) 1
    (7 :: replicate 25 0)).
  - apply text_byte. by apply print_stmt_tokens.
  - apply tokens_text. by apply print_stmt_tokens.
  - by apply print_stmt_derives.
  - reflexivity.
  - vm_compute. reflexivity.
  - reflexivity.
Defined.

(** * Constants *)

(** A tree with its constants cut down to 8 bits. *)
Fixpoint truncate (x : node) : node :=
  match x with
  | CST v => CST (wrap_s 8 v)
  | ADD x y => ADD (truncate x) (truncate y)
  | SUB x y => SUB (truncate x) (truncate y)
  | LT x y => LT (truncate x) (truncate y)
  | SET x y => SET (truncate x) (truncate y)
  | IF1 x y => IF1 (truncate x) (truncate y)
  | IF2 x y z => IF2 (truncate x) (truncate y) (truncate z)
  | WHILE x y => WHILE (truncate x) (truncate y)
  | DO x y => DO (truncate x) (truncate y)
  | SEQ x y => SEQ (truncate x) (truncate y)
  | EXPR x => EXPR (truncate x)
  | PROG x => PROG (truncate x)
  | VAR _ | EMPTY => x
  end.

Lemma code_truncate v : code (wrap_s 8 v) = code v.
Proof. unfold code. rewrite (wrap_s_id 8 (wrap_s 8 v)) //. by apply wrap_s_range. Qed.

Lemma length_code_truncate x : length (code_of (truncate x)) = length (code_of x).
Proof. induction x; cbn [truncate code_of]; rewrite ?length_app /= ?length_app /=; congruence. Qed.

(** The array of [char]s is the same. *)
Lemma chars_truncate x : code <$> code_of (truncate x) = code <$> code_of x.
Proof.
  induction x as [v|v|x IHx y IHy|x IHx y IHy|x IHx y IHy|x _ y IHy|x IHx y IHy
    |x IHx y IHy z IHz|x IHx y IHy|x IHx y IHy| |x IHx y IHy|x IHx|x IHx];
    cbn [truncate code_of]; rewrite ?length_code_truncate ?fmap_app ?IHx ?IHy ?IHz; try done.
  - cbn. by rewrite code_truncate.
  - f_equal. destruct x; cbn; rewrite ?code_truncate; done.
Qed.

Lemma is_VAR_truncate x : is_VAR (truncate x) = is_VAR x.
Proof. by destruct x. Qed.
Lemma expr_shape_truncate x : expr_shape (truncate x) = expr_shape x.
Proof. induction x; cbn [truncate expr_shape]; rewrite ?is_VAR_truncate; congruence. Qed.
Lemma stmt_shape_truncate x : stmt_shape (truncate x) = stmt_shape x.
Proof. induction x; cbn [truncate stmt_shape]; rewrite ?expr_shape_truncate; congruence. Qed.

Lemma c_truncate x : stmt_shape x = true → c (PROG (truncate x)) init_gen = c (PROG x) init_gen.
Proof.
  intros Hx. assert (assigns_vars (truncate x) = true) as Ht by (apply stmt_shape_assigns; by rewrite stmt_shape_truncate).
  apply stmt_shape_assigns in Hx. rewrite !c_run //. cbn [code_of].
  by rewrite !length_app !fmap_app chars_truncate length_code_truncate.
Qed.

(** C27: the compiler takes every constant of a program modulo 256, to a number from
    -128 to 127, because the code array holds [char]s: any program of the grammar
    whose code and jumps fit does what the program with its constants cut down
    does, prints its variables, overflows an [int], or goes on with it. *)
Theorem constant_truncated text ts x k :
  Forall byte text → tokens text ts → d_stmt ts x → greedy x = true → fits (truncate x) = true →
  match exec k (truncate x) (replicate 26 0) with
  | Ret _ gs => ∃ n, ∀ fuel, (n ≤ fuel)%nat → main fuel text = Ret (print_globals gs) tt
  | Undef => ∃ n, ∀ fuel, (n ≤ fuel)%nat → main fuel text = Undef
  | NoFuel => ∀ fuel, (6 * length text + 5 ≤ fuel ≤ k)%nat → main fuel text = NoFuel
  | _ => False
  end.
Proof.
  intros Ht Htok Hd Hg Hf.
  assert (stmt_shape x = true) as Hx by apply is_stmt_shape, (proj1 d_stmt_is_stmt _ _ Hd (tokens_valid _ _ Htok)).
  assert (stmt_shape (truncate x) = true) as Hx' by by rewrite stmt_shape_truncate.
  destruct (compiled_code (truncate x) Hx' Hf) as (obj & h & Hc & _ & _).
  pose proof (compiled_agrees k (truncate x) (replicate 26 0) obj h Hx' Hf Hc) as H. rewrite (c_truncate x Hx) in Hc.
  assert (∀ fuel, (6 * length text + 5 ≤ fuel)%nat →
    main fuel text = and_then (run obj fuel (init_vm (replicate 26 0))) (λ _ σ', Ret (print_globals (globals σ')) tt)) as Hmain.
  { intros fuel Hfuel. destruct (program_complete fuel text ts x Ht Hfuel Htok Hd Hg) as [σ Hp].
    unfold main. rewrite Hp. cbn [and_then]. by rewrite Hc. }
  destruct (exec k (truncate x) (replicate 26 0)) as [[] gs| | | |]; try done; cbn [agrees_with] in H.
  - destruct H as (n & σ' & <- & Hrun). exists (n + (6 * length text + 5))%nat. intros fuel Hfuel. rewrite Hmain; [|lia]. by rewrite Hrun; [|lia].
  - destruct H as (n & Hrun). exists (n + (6 * length text + 5))%nat. intros fuel Hfuel. rewrite Hmain; [|lia]. by rewrite Hrun; [|lia].
  - intros fuel Hfuel. rewrite Hmain; [|lia]. by rewrite H; [|lia].
Qed.

(** [a=1000;] sets [a] to -24. *)
Lemma constant_truncated_witness :
  ∃ n, ∀ fuel, (n ≤ fuel)%nat →
    main fuel (text_of_tokens (print_stmt false (EXPR (SET (VAR 0) (CST 1000))))) = Ret (print_globals (-24 :: replicate 25 0)) tt.
Proof.
  apply (constant_truncated _ (print_stmt false (EXPR (SET (VAR 0) (CST 1000)))) (EXPR (SET (VAR 0) (CST 1000))) 1).
  - apply text_byte. by apply print_stmt_tokens.
  - apply tokens_text. by apply print_stmt_tokens.
  - by apply print_stmt_derives.
  - reflexivity.
  - vm_compute. reflexivity.
Defined.

(** A jump over more than 127 bytes is truncated as well: this program of the
    grammar, an [if] around 26 assignments, runs out of the code array. *)
Example long_jump :
  main 900 (text_of "if (a) {" ++ concat (replicate 26 (text_of "b=b;")) ++ text_of "}") = Undef.
Proof. vm_compute. reflexivity. Qed.
