(* ===== verification/PintosDiv.v ===== *)
(** The 64-bit division routines of src/bin/OS/pintos/src/lib/arithmetic.c, for
    a machine whose [divl] divides a 64-bit number by a 32-bit one. *)
From S2P Require Export Prelude.
Local Open Scope Z_scope.

(** * The routines *)

(** The x86 instruction: [None] is the divide error #DE.  Unsigned operations on
    64 and 32 bits are written with their wrap-around. *)
Definition divl (n d : Z) : option Z :=
  let n1 := wrap_u 32 (Z.shiftr n 32) in
  let n0 := wrap_u 32 n in
  if bool_decide (d = 0) then None
  else
    let q := Z.div (n1 * 2 ^ 32 + n0) d in
    if bool_decide (q < 2 ^ 32) then Some q else None.

(** One [if] of [nlz], on its two variables. *)
Definition nlz_step (k m : Z) (p : Z * Z) : Z * Z :=
  if bool_decide (p.2 <= m) then (p.1 + k, wrap_u 32 (Z.shiftl p.2 k)) else p.

Definition nlz (x : Z) : Z :=
  let p := nlz_step 16 0x0000FFFF (0, x) in
  let p := nlz_step 8 0x00FFFFFF p in
  let p := nlz_step 4 0x0FFFFFFF p in
  let p := nlz_step 2 0x3FFFFFFF p in
  if bool_decide (p.2 <= 0x7FFFFFFF) then p.1 + 1 else p.1.

(** A division or a remainder by zero is undefined, which is also [None]. *)
Definition udiv64 (n d : Z) : option Z :=
  if bool_decide (Z.shiftr d 32 = 0) then
    let b := wrap_u 64 (Z.shiftl 1 32) in
    let n1 := wrap_u 32 (Z.shiftr n 32) in
    let n0 := wrap_u 32 n in
    let d0 := wrap_u 32 d in
    if bool_decide (d0 = 0) then None
    else
      q ← divl (wrap_u 64 (wrap_u 64 (b * (n1 mod d0)) + n0)) d0;
      Some (wrap_u 64 (q + wrap_u 64 (b * (n1 / d0))))
  else if bool_decide (n < d) then Some 0
  else
    let d1 := wrap_u 32 (Z.shiftr d 32) in
    let s := nlz d1 in
    q ← divl (Z.shiftr n 1) (wrap_u 32 (Z.shiftr (wrap_u 64 (Z.shiftl d s)) 32));
    let q := Z.shiftr q (31 - s) in
    Some (if bool_decide (wrap_u 64 (n - wrap_u 64 (wrap_u 64 (q - 1) * d)) < d)
          then wrap_u 64 (q - 1) else q).

(** The result type is [uint32_t]. *)
Definition umod64 (n d : Z) : option Z :=
  q ← udiv64 n d;
  Some (wrap_u 32 (wrap_u 64 (n - wrap_u 64 (d * q)))).

(** Overflow of an operation on [int64_t] is undefined; the conversion of an
    [uint64_t] to [int64_t] wraps around. *)
Definition int64_of (z : Z) : option Z := if decide (in_s 64 z) then Some z else None.
Definition abs64 (n : Z) : Z := if bool_decide (n >= 0) then wrap_u 64 n else wrap_u 64 (- wrap_u 64 n).

Definition sdiv64 (n d : Z) : option Z :=
  q_abs ← udiv64 (abs64 n) (abs64 d);
  if bool_decide (bool_decide (n < 0) = bool_decide (d < 0))
  then Some (wrap_s 64 q_abs)
  else int64_of (- wrap_s 64 q_abs).

(** The result type is [int32_t]. *)
Definition smod64 (n d : Z) : option Z :=
  q ← sdiv64 n d;
  p ← int64_of (d * q);
  r ← int64_of (n - p);
  Some (wrap_s 32 r).

Definition divdi3 (n d : Z) : option Z := sdiv64 n d.
Definition moddi3 (n d : Z) : option Z := smod64 n d.
Definition udivdi3 (n d : Z) : option Z := udiv64 n d.
Definition umoddi3 (n d : Z) : option Z := umod64 n d.

(** * Correctness *)

Lemma divl_correct n d :
  in_u 64 n → 0 < d → n < d * 2 ^ 32 → divl n d = Some (n / d).
Proof.
  intros Hn Hd Hlt. unfold divl, wrap_u, in_u in *. rewrite Z.shiftr_div_pow2; [|lia].
  rewrite (Z.mod_small (n / 2 ^ 32)).
  2: { split; [apply Z.div_pos; lia|apply Z.div_lt_upper_bound; lia]. }
  rewrite bool_decide_false; [|lia].
  replace (n / 2 ^ 32 * 2 ^ 32 + n mod 2 ^ 32) with n.
  2: { pose proof (Z.div_mod n (2 ^ 32)). lia. }
  rewrite bool_decide_true; [done|]. apply Z.div_lt_upper_bound; lia.
Qed.

(** [nlz] counts the leading zeros: it is the shift that brings the highest bit
    to the top.  Before the step for [k] bits, at most [2 * k] bits are zero. *)
Definition shifted (x : Z) (p : Z * Z) (b : Z) : Prop :=
  0 <= p.1 ∧ p.2 = x * 2 ^ p.1 ∧ 2 ^ b <= p.2 < 2 ^ 32.

Lemma nlz_step_shifted x k m p :
  0 < k <= 16 → m = 2 ^ (32 - k) - 1 →
  shifted x p (32 - 2 * k) → shifted x (nlz_step k m p) (32 - k).
Proof.
  intros Hk -> (Hn & Hy & Hlo & Hhi). unfold nlz_step, shifted. case_bool_decide as Hle; cbn [fst snd]; [|lia].
  rewrite Z.shiftl_mul_pow2; [|lia]. rewrite (Z.pow_add_r 2 p.1); [|lia..].
  assert (2 ^ 32 = 2 ^ (32 - k) * 2 ^ k) as E by (rewrite -Z.pow_add_r; [f_equal; lia|lia|lia]).
  assert (2 ^ (32 - k) = 2 ^ (32 - 2 * k) * 2 ^ k) as E' by (rewrite -Z.pow_add_r; [f_equal; lia|lia|lia]).
  pose proof (Z.pow_pos_nonneg 2 k ltac:(lia) ltac:(lia)).
  rewrite wrap_u_id; [|unfold in_u; nia]. repeat split; nia.
Qed.

Lemma nlz_correct x : 0 < x < 2 ^ 32 → 0 <= nlz x <= 31 ∧ 2 ^ 31 <= x * 2 ^ nlz x < 2 ^ 32.
Proof.
  intros Hx.
  assert (0 <= nlz x ∧ 2 ^ 31 <= x * 2 ^ nlz x < 2 ^ 32) as (H1 & H2 & H3).
  { unfold nlz. assert (shifted x (0, x) (32 - 2 * 16)) as H.
    { unfold shifted. cbn [fst snd]. rewrite Z.mul_1_r. lia. }
    apply (nlz_step_shifted x 16 0x0000FFFF) in H; [|lia|done].
    apply (nlz_step_shifted x 8 0x00FFFFFF) in H; [|lia|done].
    apply (nlz_step_shifted x 4 0x0FFFFFFF) in H; [|lia|done].
    apply (nlz_step_shifted x 2 0x3FFFFFFF) in H; [|lia|done].
    destruct H as (Hn & Hy & Hlo & Hhi). case_bool_decide.
    - rewrite Z.pow_add_r; [|lia..]. nia.
    - split; [done|]. rewrite -Hy. lia. }
  split; [|done]. split; [done|].
  destruct (decide (nlz x <= 31)); [done|].
  pose proof (Z.pow_le_mono_r 2 32 (nlz x) ltac:(lia) ltac:(lia)). nia.
Qed.

(** The estimate of the quotient of Hacker's Delight: it is the quotient or one
    more. *)
Lemma estimate_bounds n d v t :
  0 <= n < 2 ^ 64 → 2 <= t → 2 ^ 31 <= v → v * t <= d < (v + 1) * t →
  n / d <= n / (v * t) <= n / d + 1.
Proof.
  intros Hn Ht Hv Hd. set (w := v * t) in *. assert (0 < w) by nia.
  set (q := n / w). assert (q * w <= n < q * w + w) as Hq.
  { pose proof (Z.div_mod n w ltac:(lia)). pose proof (Z.mod_pos_bound n w ltac:(lia)). unfold q. lia. }
  assert (0 <= q) by (apply Z.div_pos; lia). split.
  - apply Z.div_le_compat_l; lia.
  - enough (q - 1 <= n / d) by lia. apply Z.div_le_lower_bound; [lia|].
    assert (Hsq : 2 ^ 62 * (t * t) <= w * w).
    { replace (w * w) with (v * v * (t * t)) by (unfold w; ring).
      apply Z.mul_le_mono_nonneg_r; [nia|]. change (2 ^ 62) with (2 ^ 31 * 2 ^ 31).
      apply Z.mul_le_mono_nonneg; lia. }
    assert (Ht2 : 4 * (t - 1) <= t * t) by nia.
    assert (Hnt : n * (t - 1) <= w * w).
    { trans (2 ^ 64 * (t - 1)); [apply Z.mul_le_mono_nonneg_r; lia|]. lia. }
    assert (Hdw : 0 <= d - w <= t - 1) by (unfold w in *; lia).
    assert (Hqw : q * (d - w) <= w).
    { assert (q * w * (d - w) <= n * (t - 1)) by (apply Z.mul_le_mono_nonneg; lia).
      assert (q * (d - w) * w <= w * w) by lia. nia. }
    lia.
Qed.

Lemma udiv64_low n d : in_u 64 n → 0 < d < 2 ^ 32 → udiv64 n d = Some (n / d).
Proof.
  unfold in_u. intros Hn Hd. unfold udiv64.
  rewrite Z.shiftr_div_pow2; [|lia]. rewrite (Z.div_small d); [|lia].
  rewrite bool_decide_true; [|done]. rewrite (wrap_u_id 32 d); [|unfold in_u; lia].
  rewrite bool_decide_false; [|lia]. rewrite Z.shiftr_div_pow2; [|lia].
  set (b := 2 ^ 32). change (wrap_u 64 (Z.shiftl 1 32)) with b.
  assert (Hb : b = 2 ^ 32) by done.
  rewrite (wrap_u_id 32 (n / b)).
  2: { split; [apply Z.div_pos; lia|apply Z.div_lt_upper_bound; lia]. }
  assert (wrap_u 32 n = n mod b) as -> by done.
  pose proof (Z.div_mod n b ltac:(lia)) as Edm. pose proof (Z.mod_pos_bound n b ltac:(lia)).
  set (n1 := n / b) in *. set (n0 := n mod b) in *.
  pose proof (Z.div_mod n1 d ltac:(lia)) as Ed. pose proof (Z.mod_pos_bound n1 d ltac:(lia)).
  assert (0 <= n1 < b) by (split; [apply Z.div_pos; lia|apply Z.div_lt_upper_bound; lia]).
  assert (0 <= n1 / d <= n1) by (split; [apply Z.div_pos; lia|apply Z.div_le_upper_bound; nia]).
  set (r := n1 mod d) in *. set (k := n1 / d) in *.
  rewrite !(wrap_u_id 64 (b * r)); [|unfold in_u; nia].
  rewrite (wrap_u_id 64 (b * r + n0)); [|unfold in_u; nia].
  rewrite (wrap_u_id 64 (b * k)); [|unfold in_u; nia].
  assert (Hq : n / d = (b * r + n0) / d + b * k).
  { rewrite Edm Ed. replace (b * (d * k + r) + n0) with (b * r + n0 + b * k * d) by ring.
    apply Z.div_add. lia. }
  assert (0 <= (b * r + n0) / d) by (apply Z.div_pos; nia).
  assert (n / d <= n) by (apply Z.div_le_upper_bound; nia).
  rewrite divl_correct; [|unfold in_u; nia|lia|nia]. simpl.
  rewrite wrap_u_id; [by rewrite Hq|unfold in_u; lia].
Qed.

Lemma udiv64_high n d : in_u 64 n → 2 ^ 32 <= d < 2 ^ 64 → udiv64 n d = Some (n / d).
Proof.
  unfold in_u. intros Hn Hd. unfold udiv64. rewrite (Z.shiftr_div_pow2 d); [|lia].
  set (d1 := d / 2 ^ 32). pose proof (Z.div_mod d (2 ^ 32) ltac:(lia)) as Ed. fold d1 in Ed.
  pose proof (Z.mod_pos_bound d (2 ^ 32) ltac:(lia)) as Hd0.
  assert (1 <= d1 < 2 ^ 32) by lia.
  rewrite bool_decide_false; [|lia]. case_bool_decide as Hnd.
  { by rewrite Z.div_small; [|lia]. }
  rewrite (wrap_u_id 32 d1); [|unfold in_u; lia].
  destruct (nlz_correct d1 ltac:(lia)) as [Hs Hsh]. set (s := nlz d1) in *.
  rewrite Z.shiftl_mul_pow2; [|lia]. rewrite !Z.shiftr_div_pow2; try lia.
  assert (E32 : 2 ^ 32 = 2 ^ (32 - s) * 2 ^ s) by (rewrite -Z.pow_add_r; [f_equal; lia|lia|lia]).
  pose proof (Z.pow_pos_nonneg 2 s ltac:(lia) ltac:(lia)).
  assert (d1 < 2 ^ (32 - s)) by nia.
  assert (Hds : 2 ^ 63 <= d * 2 ^ s < 2 ^ 64) by nia.
  rewrite (wrap_u_id 64 (d * 2 ^ s)); [|unfold in_u; lia].
  set (v := d * 2 ^ s / 2 ^ 32).
  pose proof (Z.div_mod (d * 2 ^ s) (2 ^ 32) ltac:(lia)) as Ev. fold v in Ev.
  pose proof (Z.mod_pos_bound (d * 2 ^ s) (2 ^ 32) ltac:(lia)) as Hv0.
  assert (Hv : 2 ^ 31 <= v < 2 ^ 32) by lia.
  rewrite (wrap_u_id 32 v); [|unfold in_u; lia]. change (2 ^ 1) with 2.
  pose proof (Z.div_mod n 2 ltac:(lia)). pose proof (Z.mod_pos_bound n 2 ltac:(lia)).
  rewrite divl_correct; [|unfold in_u; lia|lia|lia]. cbn [mbind option_bind].
  rewrite (Z.shiftr_div_pow2 _ (31 - s)); [|lia].
  pose proof (Z.pow_pos_nonneg 2 (31 - s) ltac:(lia) ltac:(lia)).
  assert (0 < v * 2 ^ (31 - s)) by (apply Z.mul_pos_pos; lia).
  rewrite !Z.div_div; [|lia..].
  assert (Et : 2 * (v * 2 ^ (31 - s)) = v * 2 ^ (32 - s)).
  { replace (32 - s) with (1 + (31 - s)) by lia. rewrite Z.pow_add_r; lia. }
  rewrite -?Z.mul_assoc Et.
  assert (Ht : 2 <= 2 ^ (32 - s)).
  { change 2 with (2 ^ 1) at 1. apply Z.pow_le_mono_r; lia. }
  assert (Hvt : v * 2 ^ (32 - s) <= d < (v + 1) * 2 ^ (32 - s)).
  { split; [apply (Z.mul_le_mono_pos_r _ _ (2 ^ s))|apply (Z.mul_lt_mono_pos_r (2 ^ s))]; try done;
      rewrite -Z.mul_assoc -E32; lia. }
  pose proof (estimate_bounds n d v (2 ^ (32 - s)) Hn Ht ltac:(lia) Hvt) as Hq.
  set (q := n / (v * 2 ^ (32 - s))) in *.
  pose proof (Z.div_mod n d ltac:(lia)) as En. pose proof (Z.mod_pos_bound n d ltac:(lia)) as Hr.
  assert (1 <= n / d) by (apply Z.div_le_lower_bound; lia).
  set (q0 := n / d) in *. assert (0 <= (q - 1) * d <= n) by nia.
  assert (q - 1 <= n) by nia.
  rewrite (wrap_u_id 64 (q - 1)); [|unfold in_u; lia].
  rewrite (wrap_u_id 64 ((q - 1) * d)); [|unfold in_u; lia].
  rewrite wrap_u_id; [|unfold in_u; lia].
  clear Hvt Ht Et Ev. clearbody q q0.
  f_equal. assert (q = q0 ∨ q = q0 + 1) as [->| ->] by lia; case_bool_decide; lia.
Qed.

Lemma udiv64_div n d : in_u 64 n → in_u 64 d → d ≠ 0 → udiv64 n d = Some (n / d).
Proof.
  unfold in_u. intros Hn Hd Hne. destruct (decide (d < 2 ^ 32)).
  - apply udiv64_low; [done|lia].
  - apply udiv64_high; [done|lia].
Qed.

(** C30: the unsigned 64-bit quotient is exact for every dividend and every
    divisor but zero, and the division instruction never traps. *)
Theorem udivdi3_correct n d : in_u 64 n → in_u 64 d → d ≠ 0 → udivdi3 n d = Some (n / d).
Proof. apply udiv64_div. Qed.

(** the unsigned remainder keeps only 32 bits, so that it is the remainder
    exactly when that is below 2^32. *)
Theorem umoddi3_truncated n d :
  in_u 64 n → in_u 64 d → d ≠ 0 →
  umoddi3 n d = Some (wrap_u 32 (n mod d)) ∧ (umoddi3 n d = Some (n mod d) ↔ n mod d < 2 ^ 32).
Proof.
  intros Hn Hd Hne. assert (umoddi3 n d = Some (wrap_u 32 (n mod d))) as E.
  { unfold umoddi3, umod64. rewrite udiv64_div //. simpl. do 2 f_equal. unfold in_u in *.
    pose proof (Z.div_mod n d Hne). pose proof (Z.mod_pos_bound n d ltac:(lia)).
    assert (0 <= n / d) by (apply Z.div_pos; lia).
    rewrite (wrap_u_id 64 (d * (n / d))); [|unfold in_u; nia].
    rewrite wrap_u_id; [lia|unfold in_u; lia]. }
  split; [done|]. rewrite E. unfold in_u in *.
  pose proof (Z.mod_pos_bound n d ltac:(lia)). pose proof (wrap_u_range 32 (n mod d) ltac:(lia)) as Hw.
  unfold in_u in Hw. split; [intros [= H1]; lia|]. intros. rewrite wrap_u_id //. unfold in_u. lia.
Qed.

Lemma abs64_abs n : in_s 64 n → abs64 n = Z.abs n ∧ in_u 64 (Z.abs n).
Proof.
  unfold abs64, in_s, in_u. change (2 ^ (64 - 1)) with (2 ^ 63). intros Hn.
  split; [|lia]. case_bool_decide.
  - rewrite wrap_u_id; [lia|unfold in_u; lia].
  - unfold wrap_u. rewrite -(Z_mod_plus_full n 1 (2 ^ 64)) (Z.mod_small (n + 1 * 2 ^ 64)); [|lia].
    rewrite -(Z_mod_plus_full _ 1 (2 ^ 64)) Z.mod_small; lia.
Qed.

Lemma sgn_product n d : n ≠ 0 → d ≠ 0 →
  Z.sgn n * Z.sgn d = if bool_decide (bool_decide (n < 0) = bool_decide (d < 0)) then 1 else -1.
Proof.
  intros Hn Hd. destruct (bool_decide_reflect (n < 0)), (bool_decide_reflect (d < 0));
    case_bool_decide; try done; lia.
Qed.

Lemma sdiv64_quot n d :
  in_s 64 n → in_s 64 d → d ≠ 0 →
  sdiv64 n d =
    if bool_decide (n = - 2 ^ 63 ∧ d = 1) then None
    else if bool_decide (n = - 2 ^ 63 ∧ d = -1) then Some (- 2 ^ 63)
    else Some (Z.quot n d).
Proof.
  intros Hn Hd Hne. unfold sdiv64.
  destruct (abs64_abs n Hn) as [-> Hun]. destruct (abs64_abs d Hd) as [-> Hud].
  rewrite udiv64_div //; [|lia]. simpl. rewrite Z.quot_div //.
  unfold in_s, in_u in *. change (2 ^ (64 - 1)) with (2 ^ 63) in *.
  pose proof (Z.div_mod (Z.abs n) (Z.abs d) ltac:(lia)) as E.
  pose proof (Z.mod_pos_bound (Z.abs n) (Z.abs d) ltac:(lia)) as Hm.
  assert (0 <= Z.abs n / Z.abs d) by (apply Z.div_pos; lia).
  set (q := Z.abs n / Z.abs d) in *.
  destruct (decide (Z.abs n = 2 ^ 63 ∧ Z.abs d = 1)) as [[En Ed]|Hq].
  - assert (n = - 2 ^ 63) as -> by lia. assert (q = 2 ^ 63) as -> by (rewrite Ed in E Hm; lia).
    assert (d = 1 ∨ d = -1) as [->| ->] by lia; reflexivity.
  - assert (q < 2 ^ 63).
    { apply Z.div_lt_upper_bound; [lia|]. destruct (decide (Z.abs n = 2 ^ 63)); nia. }
    rewrite wrap_s_id; [|lia|unfold in_s; change (2 ^ (64 - 1)) with (2 ^ 63); lia].
    rewrite !(bool_decide_false (_ ∧ _)); [|lia|lia].
    unfold int64_of. rewrite decide_True; [|unfold in_s; change (2 ^ (64 - 1)) with (2 ^ 63); lia].
    destruct (decide (n = 0)) as [->|Hn0].
    { replace q with 0 by (unfold q; rewrite Z.div_0_l; lia). by case_bool_decide. }
    rewrite (sgn_product n d Hn0 Hne). case_bool_decide; f_equal; lia.
Qed.

(** the signed quotient truncates towards zero, but for the least dividend:
    divided by 1 it overflows, which is undefined, and divided by -1 it is left
    as it is.  The signed remainder keeps only 32 bits, and overflows for the
    least dividend and a divisor of 1 or -1. *)
Theorem divdi3_correct n d :
  in_s 64 n → in_s 64 d → d ≠ 0 →
  divdi3 n d =
    (if bool_decide (n = - 2 ^ 63 ∧ d = 1) then None
     else if bool_decide (n = - 2 ^ 63 ∧ d = -1) then Some (- 2 ^ 63)
     else Some (Z.quot n d)) ∧
  moddi3 n d =
    if bool_decide (n = - 2 ^ 63 ∧ (d = 1 ∨ d = -1)) then None else Some (wrap_s 32 (Z.rem n d)).
Proof.
  intros Hn Hd Hne. unfold divdi3, moddi3, smod64. rewrite sdiv64_quot //. split; [done|].
  destruct (decide (n = - 2 ^ 63 ∧ (d = 1 ∨ d = -1))) as [[-> [->| ->]]|Hmin]; [reflexivity..|].
  rewrite (bool_decide_false (_ ∧ d = 1)); [|tauto]. rewrite (bool_decide_false (_ ∧ d = -1)); [|tauto].
  rewrite bool_decide_false //. simpl.
  pose proof (Z.quot_rem' n d) as E. unfold in_s in *. change (2 ^ (64 - 1)) with (2 ^ 63) in *.
  assert (Z.abs (Z.rem n d) <= Z.abs n) as Hr.
  { rewrite -Z.rem_abs //. apply Z.rem_le; lia. }
  assert (Z.rem n d * n >= 0) as Hs by (pose proof (Z.rem_sign_mul n d Hne); lia).
  assert (- 2 ^ 63 <= d * Z.quot n d < 2 ^ 63) as Hp by nia.
  unfold int64_of. rewrite decide_True; [|exact Hp]. simpl.
  rewrite decide_True; [|unfold in_s; change (2 ^ (64 - 1)) with (2 ^ 63); lia]. simpl. do 2 f_equal. lia.
Qed.

Lemma udivdi3_correct_witness :
  in_u 64 (2 ^ 64 - 1) ∧ udivdi3 (2 ^ 64 - 1) (2 ^ 33 + 1) = Some ((2 ^ 64 - 1) / (2 ^ 33 + 1)).
Proof. split; [done|]. apply (udivdi3_correct (2 ^ 64 - 1) (2 ^ 33 + 1)); done. Defined.

Lemma umoddi3_truncated_witness :
  in_u 64 (2 ^ 33) ∧
  umoddi3 (2 ^ 32) (2 ^ 33) = Some (wrap_u 32 (2 ^ 32 mod 2 ^ 33)) ∧
  (umoddi3 (2 ^ 32) (2 ^ 33) = Some (2 ^ 32 mod 2 ^ 33) ↔ 2 ^ 32 mod 2 ^ 33 < 2 ^ 32).
Proof. split; [done|]. apply (umoddi3_truncated (2 ^ 32) (2 ^ 33)); done. Defined.

Lemma divdi3_correct_witness :
  in_s 64 (-7) ∧
  divdi3 (-7) 2 =
    (if bool_decide (-7 = - 2 ^ 63 ∧ 2 = 1) then None
     else if bool_decide (-7 = - 2 ^ 63 ∧ 2 = -1) then Some (- 2 ^ 63) else Some (-3)) ∧
  moddi3 (-7) 2 = if bool_decide (-7 = - 2 ^ 63 ∧ (2 = 1 ∨ 2 = -1)) then None else Some (-1).
Proof. split; [done|]. apply (divdi3_correct (-7) 2); done. Defined.
