(* ===== verification/PintosBitmap.v ===== *)
(** The bitmap of src/bin/OS/pintos/src/lib/kernel/bitmap.c, an array of bits
    kept in 32-bit words, and what each operation does to the array of bits. *)
From S2P Require Export Prelude.
Local Open Scope Z_scope.

(** [struct bitmap]; [bits] is the block that the field points to, and [[]] stands
    for the [NULL] of an empty bitmap.  [elem_type] and [size_t] have 32 bits. *)
Record bitmap := Bitmap { bit_cnt : Z; bits : list Z }.

Definition ELEM_BITS : Z := 32.
Definition BITMAP_ERROR : Z := 2 ^ 32 - 1.

Definition elem_idx (bit_idx : Z) : Z := bit_idx / ELEM_BITS.
Definition bit_mask (bit_idx : Z) : Z := wrap_u 32 (Z.shiftl 1 (bit_idx mod ELEM_BITS)).
Definition elem_cnt (bit_cnt : Z) : Z := wrap_u 32 (bit_cnt + ELEM_BITS - 1) / ELEM_BITS.
Definition byte_cnt (bit_cnt : Z) : Z := wrap_u 32 (4 * elem_cnt bit_cnt).

(** * The operations on an existing bitmap

    A failed [ASSERT] is a kernel panic, which nothing catches. *)

Definition elem_get (i : Z) : M bitmap Z := λ b,
  match bits b !! Z.to_nat i with Some w => Ret w b | None => Undef end.
Definition elem_set (i w : Z) : M bitmap unit := λ b,
  match bits b !! Z.to_nat i with
  | Some _ => Ret tt (Bitmap (bit_cnt b) (<[Z.to_nat i := w]> (bits b)))
  | None => Undef
  end.

Definition bitmap_size : M bitmap Z := gets bit_cnt.

Definition bitmap_mark (bit_idx : Z) : M bitmap unit :=
  let idx := elem_idx bit_idx in
  let mask := bit_mask bit_idx in
  w ← elem_get idx; elem_set idx (Z.lor w mask).

Definition bitmap_reset (bit_idx : Z) : M bitmap unit :=
  let idx := elem_idx bit_idx in
  let mask := bit_mask bit_idx in
  w ← elem_get idx; elem_set idx (Z.land w (wrap_u 32 (Z.lnot mask))).

Definition bitmap_flip (bit_idx : Z) : M bitmap unit :=
  let idx := elem_idx bit_idx in
  let mask := bit_mask bit_idx in
  w ← elem_get idx; elem_set idx (Z.lxor w mask).

Definition bitmap_set (idx : Z) (value : bool) : M bitmap unit :=
  n ← gets bit_cnt;
  ASSERT (bool_decide (idx < n));;
  if value then bitmap_mark idx else bitmap_reset idx.

Definition bitmap_test (idx : Z) : M bitmap bool :=
  n ← gets bit_cnt;
  ASSERT (bool_decide (idx < n));;
  w ← elem_get (elem_idx idx);
  mret (negb (bool_decide (Z.land w (bit_mask idx) = 0))).

(** The two assertions on a range; [start + cnt] can wrap around. *)
Definition assert_range (start cnt : Z) : M bitmap unit :=
  n ← gets bit_cnt;
  ASSERT (bool_decide (start <= n));;
  ASSERT (bool_decide (wrap_u 32 (start + cnt) <= n)).

(** [cnt + 1] rounds are enough for the loops over [cnt] bits. *)
Definition bitmap_set_multiple (start cnt : Z) (value : bool) : M bitmap unit :=
  assert_range start cnt;;
  loop (S (Z.to_nat cnt)) (λ i,
    if bool_decide (i < cnt) then
      bitmap_set (wrap_u 32 (start + i)) value;; mret (inl (i + 1))
    else mret (inr tt)) 0.

Definition bitmap_set_all (value : bool) : M bitmap unit :=
  n ← bitmap_size; bitmap_set_multiple 0 n value.

Definition bitmap_count (start cnt : Z) (value : bool) : M bitmap Z :=
  assert_range start cnt;;
  loop (S (Z.to_nat cnt)) (λ '(i, value_cnt),
    if bool_decide (i < cnt) then
      t ← bitmap_test (wrap_u 32 (start + i));
      mret (inl (i + 1, if bool_decide (t = value) then value_cnt + 1 else value_cnt))
    else mret (inr value_cnt)) (0, 0).

Definition bitmap_contains (start cnt : Z) (value : bool) : M bitmap bool :=
  assert_range start cnt;;
  loop (S (Z.to_nat cnt)) (λ i,
    if bool_decide (i < cnt) then
      t ← bitmap_test (wrap_u 32 (start + i));
      mret (if bool_decide (t = value) then inr true else inl (i + 1))
    else mret (inr false)) 0.

Definition bitmap_any (start cnt : Z) : M bitmap bool := bitmap_contains start cnt true.
Definition bitmap_none (start cnt : Z) : M bitmap bool :=
  c ← bitmap_contains start cnt true; mret (negb c).
Definition bitmap_all (start cnt : Z) : M bitmap bool :=
  c ← bitmap_contains start cnt false; mret (negb c).

Definition bitmap_scan (start cnt : Z) (value : bool) : M bitmap Z :=
  n ← gets bit_cnt;
  ASSERT (bool_decide (start <= n));;
  if bool_decide (cnt <= n) then
    let last := n - cnt in
    loop (S (S (Z.to_nat last))) (λ i,
      if bool_decide (i <= last) then
        c ← bitmap_contains i cnt (negb value);
        mret (if negb c then inr i else inl (i + 1))
      else mret (inr BITMAP_ERROR)) start
  else mret BITMAP_ERROR.

Definition bitmap_scan_and_flip (start cnt : Z) (value : bool) : M bitmap Z :=
  idx ← bitmap_scan start cnt value;
  (if negb (bool_decide (idx = BITMAP_ERROR)) then bitmap_set_multiple idx cnt (negb value) else mret tt);;
  mret idx.

(** * Creation

    [header] says whether [malloc] returned a block for the structure, and
    [block] is what it returned for the words, with whatever they held. *)

Definition bitmap_create (header : bool) (block : option (list Z)) (bit_cnt : Z)
    : outcome unit (option bitmap) :=
  if header then
    if bool_decide (block ≠ None ∨ bit_cnt = 0) then
      match bitmap_set_all false (Bitmap bit_cnt (default [] block)) with
      | Ret _ b => Ret (Some b) tt
      | Throw e _ => Throw e tt
      | Exit c _ => Exit c tt
      | Undef => Undef
      | NoFuel => NoFuel
      end
    else Ret None tt
  else Ret None tt.

(** [sizeof (struct bitmap)] is 8. *)
Definition bitmap_buf_size (bit_cnt : Z) : Z := wrap_u 32 (8 + byte_cnt bit_cnt).

(** The words of the buffer start after the structure. *)
Definition bitmap_create_in_buf (bit_cnt : Z) (block : list Z) (block_size : Z) : outcome bitmap unit :=
  (ASSERT (bool_decide (block_size >= bitmap_buf_size bit_cnt));;
   bitmap_set_all false) (Bitmap bit_cnt (drop 2 block)).

(** * The array of bits *)

Definition bit (b : bitmap) (i : Z) : bool :=
  match bits b !! Z.to_nat (elem_idx i) with Some w => Z.testbit w (i mod ELEM_BITS) | None => false end.

(** The block has a word for every bit, and the number of words does not wrap. *)
Record wf_bitmap (b : bitmap) : Prop := {
  wf_cnt : 0 <= bit_cnt b <= 2 ^ 32 - ELEM_BITS;
  wf_words : elem_cnt (bit_cnt b) <= Z.of_nat (length (bits b));
  wf_word : Forall (in_u 32) (bits b);
}.

(** [b'] is [b] with its bits changed to those of [f]. *)
Record changed (b b' : bitmap) (f : Z → bool) : Prop := {
  changed_wf : wf_bitmap b';
  changed_cnt : bit_cnt b' = bit_cnt b;
  changed_bit i : 0 <= i < bit_cnt b → bit b' i = f i;
}.

Lemma in_u_testbit z : in_u 32 z ↔ 0 <= z ∧ ∀ k, 32 <= k → Z.testbit z k = false.
Proof.
  unfold in_u. split.
  - intros Hz. split; [lia|]. apply Z.bounded_iff_bits_nonneg'; lia.
  - intros [Hz Hb]. by apply Z.bounded_iff_bits_nonneg'.
Qed.

Lemma bit_mask_testbit i k : 0 <= k → Z.testbit (bit_mask i) k = bool_decide (k = i mod ELEM_BITS).
Proof.
  intros Hk. unfold bit_mask, ELEM_BITS. pose proof (Z.mod_pos_bound i 32).
  rewrite Z.shiftl_mul_pow2; [|lia]. rewrite Z.mul_1_l wrap_u_id.
  - rewrite Z.pow2_bits_eqb; [|lia]. case_bool_decide; lia.
  - split; [apply Z.pow_nonneg; lia|apply Z.pow_lt_mono_r; lia].
Qed.

Lemma bit_mask_in_u i : in_u 32 (bit_mask i).
Proof. apply wrap_u_range. lia. Qed.

Lemma in_u_lor a b : in_u 32 a → in_u 32 b → in_u 32 (Z.lor a b).
Proof.
  rewrite !in_u_testbit. intros [Ha Ha'] [Hb Hb']. split; [by apply Z.lor_nonneg|].
  intros k Hk. by rewrite Z.lor_spec Ha' // Hb'.
Qed.
Lemma in_u_land a b : in_u 32 a → in_u 32 (Z.land a b).
Proof.
  rewrite !in_u_testbit. intros [Ha Ha']. split; [apply Z.land_nonneg; by left|].
  intros k Hk. by rewrite Z.land_spec Ha'.
Qed.
Lemma in_u_lxor a b : in_u 32 a → in_u 32 b → in_u 32 (Z.lxor a b).
Proof.
  rewrite !in_u_testbit. intros [Ha Ha'] [Hb Hb']. split; [by apply Z.lxor_nonneg|].
  intros k Hk. by rewrite Z.lxor_spec Ha' // Hb'.
Qed.

(** The three ways to change a word. *)
Lemma lor_mask_testbit w i k : 0 <= k →
  Z.testbit (Z.lor w (bit_mask i)) k = if decide (k = i mod ELEM_BITS) then true else Z.testbit w k.
Proof.
  intros Hk. rewrite Z.lor_spec bit_mask_testbit //. case_bool_decide; case_decide; try done.
  - apply orb_true_r.
  - apply orb_false_r.
Qed.
Lemma land_mask_testbit w i k : 0 <= k < 32 →
  Z.testbit (Z.land w (wrap_u 32 (Z.lnot (bit_mask i)))) k =
  if decide (k = i mod ELEM_BITS) then false else Z.testbit w k.
Proof.
  intros Hk. unfold wrap_u. rewrite Z.land_spec Z.mod_pow2_bits_low; [|lia].
  rewrite Z.lnot_spec; [|lia]. rewrite bit_mask_testbit; [|lia].
  case_bool_decide; case_decide; try done; [apply andb_false_r|apply andb_true_r].
Qed.
Lemma lxor_mask_testbit w i k : 0 <= k →
  Z.testbit (Z.lxor w (bit_mask i)) k =
  if decide (k = i mod ELEM_BITS) then negb (Z.testbit w k) else Z.testbit w k.
Proof.
  intros Hk. rewrite Z.lxor_spec bit_mask_testbit //. case_bool_decide; case_decide; try done;
    first [apply xorb_true_r|apply xorb_false_r].
Qed.
Lemma land_mask_zero w i :
  bool_decide (Z.land w (bit_mask i) = 0) = negb (Z.testbit w (i mod ELEM_BITS)).
Proof.
  unfold ELEM_BITS. pose proof (Z.mod_pos_bound i 32) as Hi.
  destruct (Z.testbit w (i mod 32)) eqn:E; simpl.
  - apply bool_decide_eq_false. intros H.
    assert (Z.testbit (Z.land w (bit_mask i)) (i mod 32) = false) as Hb by (rewrite H; apply Z.bits_0).
    rewrite Z.land_spec E bit_mask_testbit in Hb; [|lia]. by rewrite bool_decide_true in Hb.
  - apply bool_decide_eq_true. apply Z.bits_inj'. intros k Hk.
    rewrite Z.land_spec Z.bits_0 bit_mask_testbit //. case_bool_decide as H; [|apply andb_false_r].
    unfold ELEM_BITS in H. by rewrite H E.
Qed.

Lemma elem_idx_eq i j : elem_idx i = elem_idx j ∧ i mod ELEM_BITS = j mod ELEM_BITS ↔ i = j.
Proof.
  unfold elem_idx, ELEM_BITS. split; [|by intros ->]. intros [H1 H2].
  pose proof (Z.div_mod i 32). pose proof (Z.div_mod j 32). lia.
Qed.

(** Every bit has its word. *)
Lemma elem_lookup b i : wf_bitmap b → 0 <= i < bit_cnt b →
  ∃ w, bits b !! Z.to_nat (elem_idx i) = Some w ∧ in_u 32 w ∧ 0 <= elem_idx i.
Proof.
  intros [Hcnt Hwords Hword] Hi. unfold elem_cnt, elem_idx, ELEM_BITS in *.
  rewrite wrap_u_id in Hwords; [|unfold in_u; lia].
  assert (0 <= i / 32) by (apply Z.div_pos; lia).
  assert (i / 32 < (bit_cnt b + 32 - 1) / 32).
  { apply Z.div_lt_upper_bound; [lia|].
    pose proof (Z.div_mod (bit_cnt b + 32 - 1) 32). pose proof (Z.mod_pos_bound (bit_cnt b + 32 - 1) 32). lia. }
  destruct (lookup_lt_is_Some_2 (bits b) (Z.to_nat (i / 32))) as [w Hw]; [lia|].
  exists w. split; [done|]. split; [|done]. by eapply Forall_lookup_1.
Qed.

(** Replacing the word of bit [i] by one that differs from it in that bit only. *)
Lemma elem_set_changed b i w w' v :
  wf_bitmap b → 0 <= i < bit_cnt b → bits b !! Z.to_nat (elem_idx i) = Some w → in_u 32 w' →
  (∀ k, 0 <= k < 32 → Z.testbit w' k = if decide (k = i mod ELEM_BITS) then v else Z.testbit w k) →
  ∃ b', elem_set (elem_idx i) w' b = Ret tt b' ∧
    changed b b' (λ j, if decide (j = i) then v else bit b j).
Proof.
  intros Hwf Hi Hw Hw' Hbits. unfold elem_set. rewrite Hw.
  eexists. split; [done|]. split; [|done|].
  - destruct Hwf as [Hcnt Hwords Hword]. split; [done|by rewrite /= length_insert|].
    by apply Forall_insert.
  - intros j Hj. unfold bit at 1. simpl. destruct (decide (elem_idx j = elem_idx i)) as [E|E].
    + rewrite E list_lookup_insert_eq; [|by eapply lookup_lt_Some].
      unfold bit, ELEM_BITS in *. rewrite E Hw Hbits; [|apply Z.mod_pos_bound; lia].
      case_decide as H1; case_decide as H2; try done.
      * destruct H2. by apply elem_idx_eq.
      * subst. done.
    + destruct (elem_lookup b j Hwf Hj) as (wj & _ & _ & Hpos).
      destruct (elem_lookup b i Hwf Hi) as (wi & _ & _ & Hpos').
      rewrite list_lookup_insert_ne; [|lia]. rewrite decide_False //. by intros ->.
Qed.

(** * Single bits *)

Lemma elem_get_run {A} i w b (k : Z → M bitmap A) : bits b !! Z.to_nat i = Some w → (elem_get i ≫= k) b = k w b.
Proof. intros Hw. unfold mbind, M_bind, elem_get. by rewrite Hw. Qed.

Section single.
Context (b : bitmap) (i : Z) (Hwf : wf_bitmap b) (Hi : 0 <= i < bit_cnt b).

Lemma bitmap_mark_run :
  ∃ b', bitmap_mark i b = Ret tt b' ∧ changed b b' (λ j, if decide (j = i) then true else bit b j).
Proof.
  destruct (elem_lookup b i Hwf Hi) as (w & Hw & Hu & _). unfold bitmap_mark. rewrite (elem_get_run _ _ _ _ Hw).
  eapply elem_set_changed; [done..|apply in_u_lor; [done|apply bit_mask_in_u]|].
  intros k Hk. apply lor_mask_testbit. lia.
Qed.

Lemma bitmap_reset_run :
  ∃ b', bitmap_reset i b = Ret tt b' ∧ changed b b' (λ j, if decide (j = i) then false else bit b j).
Proof.
  destruct (elem_lookup b i Hwf Hi) as (w & Hw & Hu & _). unfold bitmap_reset. rewrite (elem_get_run _ _ _ _ Hw).
  eapply elem_set_changed; [done..|by apply in_u_land|]. intros k Hk. by apply land_mask_testbit.
Qed.

Lemma bitmap_flip_run :
  ∃ b', bitmap_flip i b = Ret tt b' ∧ changed b b' (λ j, if decide (j = i) then negb (bit b j) else bit b j).
Proof.
  destruct (elem_lookup b i Hwf Hi) as (w & Hw & Hu & _). unfold bitmap_flip. rewrite (elem_get_run _ _ _ _ Hw).
  destruct (elem_set_changed b i w (Z.lxor w (bit_mask i)) (negb (Z.testbit w (i mod ELEM_BITS))))
    as (b' & Hrun & Hc); [done..|apply in_u_lxor; [done|apply bit_mask_in_u]| |].
  { intros k Hk. rewrite lxor_mask_testbit; [|lia]. case_decide; [by subst|done]. }
  exists b'. split; [done|]. destruct Hc as [H1 H2 H3]. split; [done..|]. intros j Hj. rewrite H3 //.
  case_decide; [subst|done]. unfold bit. by rewrite Hw.
Qed.

Lemma bitmap_set_run v :
  ∃ b', bitmap_set i v b = Ret tt b' ∧ changed b b' (λ j, if decide (j = i) then v else bit b j).
Proof.
  unfold bitmap_set. run. rewrite bool_decide_true; [|lia]. unfold ASSERT. run.
  destruct v; [apply bitmap_mark_run|apply bitmap_reset_run].
Qed.

Lemma bitmap_test_run : bitmap_test i b = Ret (bit b i) b.
Proof.
  unfold bitmap_test. run. rewrite bool_decide_true; [|lia]. unfold ASSERT. run.
  destruct (elem_lookup b i Hwf Hi) as (w & Hw & _). rewrite (elem_get_run _ _ _ _ Hw).
  rewrite land_mask_zero negb_involutive. unfold bit. by rewrite Hw.
Qed.
End single.

(** * Ranges *)

Section range.
Context (start cnt : Z).

(** A range inside the bitmap. *)
Definition in_range (b : bitmap) : Prop := 0 <= start ∧ 0 <= cnt ∧ start + cnt <= bit_cnt b.

Lemma assert_range_run {A} b (k : unit → M bitmap A) :
  wf_bitmap b → in_range b → (assert_range start cnt ≫= k) b = k tt b.
Proof.
  intros [Hcnt _ _] (H1 & H2 & H3). unfold ELEM_BITS in Hcnt. unfold assert_range. run.
  rewrite wrap_u_id; [|unfold in_u; lia]. rewrite (bool_decide_true (start <= bit_cnt b)); [|lia].
  unfold ASSERT. run. rewrite bool_decide_true; [done|lia].
Qed.

Definition set_body (value : bool) (i : Z) : M bitmap (Z + unit) :=
  if bool_decide (i < cnt) then
    bitmap_set (wrap_u 32 (start + i)) value;; mret (inl (i + 1))
  else mret (inr tt).

Lemma set_body_eq v i : set_body v i =
  if bool_decide (i < cnt) then bitmap_set (wrap_u 32 (start + i)) v;; mret (inl (i + 1)) else mret (inr tt).
Proof. done. Qed.

Lemma set_loop_run v fuel i b0 b :
  wf_bitmap b0 → in_range b0 → 0 <= i <= cnt → cnt - i < Z.of_nat fuel →
  changed b0 b (λ j, if decide (start <= j < start + i) then v else bit b0 j) →
  ∃ b', loop fuel (set_body v) i b = Ret tt b' ∧
    changed b0 b' (λ j, if decide (start <= j < start + cnt) then v else bit b0 j).
Proof.
  intros Hwf Hr. revert i b. induction fuel as [|fuel IH]; intros i b Hi Hf Hc; [lia|].
  destruct Hr as (H1 & H2 & H3). pose proof (wf_cnt b0 Hwf) as Hcnt. unfold ELEM_BITS in Hcnt.
  rewrite run_loop set_body_eq. case_bool_decide as Hlt.
  - rewrite wrap_u_id; [|unfold in_u; lia]. run. destruct Hc as [Hwf1 Hcnt1 Hb1].
    destruct (bitmap_set_run b (start + i) Hwf1 ltac:(lia) v) as (b1 & Hrun & [Hwf2 Hcnt2 Hb2]).
    rewrite (M_bind_Ret _ _ _ _ _ Hrun). run. apply IH; [lia|lia|].
    split; [done|by rewrite Hcnt2|]. intros j Hj. rewrite Hb2; [|lia].
    case_decide as E; [subst; by rewrite decide_True; [|lia]|]. rewrite Hb1 //.
    do 2 case_decide; done || lia.
  - run. exists b. split; [done|]. by replace cnt with i by lia.
Qed.

Lemma bitmap_set_multiple_run v b :
  wf_bitmap b → in_range b →
  ∃ b', bitmap_set_multiple start cnt v b = Ret tt b' ∧
    changed b b' (λ j, if decide (start <= j < start + cnt) then v else bit b j).
Proof.
  intros Hwf Hr. unfold bitmap_set_multiple. rewrite assert_range_run //.
  change (λ i, if bool_decide (i < cnt) then _ else _) with (set_body v).
  pose proof Hr as (H1 & H2 & H3). apply set_loop_run; [done|done|lia|lia|].
  split; [done|done|]. intros j Hj. rewrite decide_False //. lia.
Qed.

Lemma bitmap_contains_run v b :
  wf_bitmap b → in_range b →
  ∃ r, bitmap_contains start cnt v b = Ret r b ∧
    (r = true ↔ ∃ j, start <= j < start + cnt ∧ bit b j = v).
Proof.
  intros Hwf Hr. unfold bitmap_contains. rewrite assert_range_run //.
  destruct Hr as (H1 & H2 & H3). pose proof (wf_cnt b Hwf) as Hcnt. unfold ELEM_BITS in Hcnt.
  assert (∀ fuel i, 0 <= i <= cnt → cnt - i < Z.of_nat fuel →
    (∀ j, start <= j < start + i → bit b j ≠ v) →
    ∃ r, loop fuel (λ i,
      if bool_decide (i < cnt) then
        t ← bitmap_test (wrap_u 32 (start + i));
        mret (if bool_decide (t = v) then inr true else inl (i + 1))
      else mret (inr false)) i b = Ret r b ∧
      (r = true ↔ ∃ j, start <= j < start + cnt ∧ bit b j = v)) as H.
  { induction fuel as [|fuel IH]; intros i Hi Hf Hno; [lia|]. rewrite run_loop. cbv beta.
    case_bool_decide as Hlt.
    - rewrite wrap_u_id; [|unfold in_u; lia]. run.
      rewrite (M_bind_Ret _ _ _ _ _ (bitmap_test_run b (start + i) Hwf ltac:(lia))). run.
      case_bool_decide as Hbit.
      + run. exists true. split; [done|]. split; [|done]. intros _. exists (start + i). split; [lia|done].
      + apply IH; [lia..|]. intros j Hj. destruct (decide (j = start + i)) as [->|]; [done|]. apply Hno. lia.
    - run. exists false. split; [done|]. split; [done|]. intros (j & Hj & Hb). exfalso. eapply Hno, Hb. lia. }
  apply H; [lia..|]. intros j Hj. lia.
Qed.
Definition count_of (b : bitmap) (v : bool) (k : nat) : Z :=
  Z.of_nat (length (filter (λ j, bit b j = v) (seqZ start (Z.of_nat k)))).

Lemma count_of_S b v k :
  count_of b v (S k) = if bool_decide (bit b (start + Z.of_nat k) = v) then count_of b v k + 1 else count_of b v k.
Proof.
  unfold count_of. replace (Z.of_nat (S k)) with (Z.of_nat k + 1) by lia.
  rewrite seqZ_app; [|lia..]. rewrite filter_app length_app filter_cons filter_nil.
  case_decide; [rewrite bool_decide_true //|rewrite bool_decide_false //]; simpl; lia.
Qed.

Lemma bitmap_count_run v b :
  wf_bitmap b → in_range b → bitmap_count start cnt v b = Ret (count_of b v (Z.to_nat cnt)) b.
Proof.
  intros Hwf Hr. unfold bitmap_count. rewrite assert_range_run //.
  destruct Hr as (H1 & H2 & H3). pose proof (wf_cnt b Hwf) as Hcnt. unfold ELEM_BITS in Hcnt.
  assert (∀ fuel k, Z.of_nat k <= cnt → cnt - Z.of_nat k < Z.of_nat fuel →
    loop fuel (λ '(i, value_cnt),
      if bool_decide (i < cnt) then
        t ← bitmap_test (wrap_u 32 (start + i));
        mret (inl (i + 1, if bool_decide (t = v) then value_cnt + 1 else value_cnt))
      else mret (inr value_cnt)) (Z.of_nat k, count_of b v k) b = Ret (count_of b v (Z.to_nat cnt)) b) as H.
  { induction fuel as [|fuel IH]; intros k Hk Hf; [lia|]. rewrite run_loop. cbv beta iota.
    case_bool_decide as Hlt.
    - rewrite wrap_u_id; [|unfold in_u; lia]. run.
      rewrite (M_bind_Ret _ _ _ _ _ (bitmap_test_run b (start + Z.of_nat k) Hwf ltac:(lia))). run.
      rewrite -count_of_S. replace (Z.of_nat k + 1) with (Z.of_nat (S k)) by lia. apply IH; lia.
    - run. by replace (Z.to_nat cnt) with k by lia. }
  apply (H _ O); lia.
Qed.
End range.

(** * Finding a group *)

(** The [cnt] bits from [i] on are in the bitmap and all [v]. *)
Definition group (b : bitmap) (v : bool) (cnt i : Z) : Prop :=
  i + cnt <= bit_cnt b ∧ ∀ j, i <= j < i + cnt → bit b j = v.

(** The first group at or after [start], or [BITMAP_ERROR]. *)
Definition first_group (b : bitmap) (v : bool) (start cnt r : Z) : Prop :=
  (r = BITMAP_ERROR ∧ ∀ i, start <= i → ¬ group b v cnt i) ∨
  (r ≠ BITMAP_ERROR ∧ start <= r ∧ group b v cnt r ∧ ∀ i, start <= i < r → ¬ group b v cnt i).

Lemma bitmap_scan_run b start cnt v :
  wf_bitmap b → 0 <= start <= bit_cnt b → 0 <= cnt →
  ∃ r, bitmap_scan start cnt v b = Ret r b ∧ first_group b v start cnt r.
Proof.
  intros Hwf Hs Hc. pose proof (wf_cnt b Hwf) as Hcnt. unfold ELEM_BITS in Hcnt.
  unfold bitmap_scan, ASSERT. run. rewrite (bool_decide_true (start <= _)); [|lia]. run.
  case_bool_decide as Hle.
  2: { run. exists BITMAP_ERROR. split; [done|]. left. split; [done|]. intros i Hi [Hg _]. lia. }
  assert (∀ fuel i, start <= i → bit_cnt b - cnt + 2 - i <= Z.of_nat fuel → (1 <= fuel)%nat →
    (∀ j, start <= j < i → ¬ group b v cnt j) →
    ∃ r, loop fuel (λ i,
      if bool_decide (i <= bit_cnt b - cnt) then
        c ← bitmap_contains i cnt (negb v);
        mret (if negb c then inr i else inl (i + 1))
      else mret (inr BITMAP_ERROR)) i b = Ret r b ∧ first_group b v start cnt r) as H.
  { induction fuel as [|fuel IH]; intros i Hi Hf Hf1 Hno; [lia|]. rewrite run_loop; cbv beta.
    case_bool_decide as Hlast.
    - destruct (bitmap_contains_run i cnt (negb v) b Hwf) as (c & Hrun & Hiff); [split_and!; lia|].
      run. rewrite (M_bind_Ret _ _ _ _ _ Hrun). run. destruct c; simpl.
      + apply IH; [lia..|]. intros j Hj. destruct (decide (j = i)) as [->|]; [|apply Hno; lia].
        intros [_ Hg]. destruct (proj1 Hiff eq_refl) as (k & Hk & Hb). rewrite Hg in Hb; [by destruct v|done].
      + run. exists i. split; [done|]. right. unfold BITMAP_ERROR. split; [lia|]. split; [done|].
        split; [|done]. split; [lia|]. intros j Hj.
        destruct (decide (bit b j = v)) as [|Hne]; [done|]. exfalso.
        enough (false = true) by done. apply Hiff. exists j. split; [done|]. by destruct (bit b j), v.
    - run. exists BITMAP_ERROR. split; [done|]. left. split; [done|]. intros j Hj [Hg Hg'].
      destruct (decide (j < i)); [|lia]. by apply (Hno j). }
  apply H; lia.
Qed.

(** C34: on a bitmap, setting, flipping and testing a bit, setting a range and
    counting in a range do to the array of bits what they should: they change
    the bits they name and no other. *)
Theorem bitmap_operations_correct b i start cnt v :
  wf_bitmap b → 0 <= i < bit_cnt b → in_range start cnt b →
  bitmap_test i b = Ret (bit b i) b ∧
  (∃ b', bitmap_set i v b = Ret tt b' ∧ changed b b' (λ j, if decide (j = i) then v else bit b j)) ∧
  (∃ b', bitmap_flip i b = Ret tt b' ∧ changed b b' (λ j, if decide (j = i) then negb (bit b j) else bit b j)) ∧
  (∃ b', bitmap_set_multiple start cnt v b = Ret tt b' ∧
     changed b b' (λ j, if decide (start <= j < start + cnt) then v else bit b j)) ∧
  bitmap_count start cnt v b =
    Ret (Z.of_nat (length (filter (λ j, bit b j = v) (seqZ start cnt)))) b.
Proof.
  intros Hwf Hi Hr. split; [by apply bitmap_test_run|]. split; [by apply bitmap_set_run|].
  split; [by apply bitmap_flip_run|]. split; [by apply bitmap_set_multiple_run|].
  rewrite bitmap_count_run //. unfold count_of. do 4 f_equal. destruct Hr as (_ & Hc & _). f_equal. lia.
Qed.

(** [bitmap_scan_and_flip] finds the first group of [cnt] bits at or after
    [start] that have the given value, and inverts exactly the bits of that
    group; it returns [BITMAP_ERROR] and changes nothing when there is none. *)
Lemma bitmap_scan_and_flip_run b start cnt v :
  wf_bitmap b → 0 <= start <= bit_cnt b → 0 <= cnt →
  ∃ r b', bitmap_scan_and_flip start cnt v b = Ret r b' ∧ first_group b v start cnt r ∧
    if bool_decide (r = BITMAP_ERROR) then b' = b
    else in_range r cnt b ∧ changed b b' (λ j, if decide (r <= j < r + cnt) then negb v else bit b j).
Proof.
  intros Hwf Hs Hc. destruct (bitmap_scan_run b start cnt v Hwf Hs Hc) as (r & Hrun & Hg).
  exists r. unfold bitmap_scan_and_flip. rewrite (M_bind_Ret _ _ _ _ _ Hrun). cbv beta. case_bool_decide as Hr.
  - by exists b.
  - assert (in_range r cnt b) as Hin.
    { destruct Hg as [[? _]|(_ & ? & [? _] & _)]; [done|]. split_and!; lia. }
    destruct (bitmap_set_multiple_run r cnt (negb v) b Hwf Hin) as (b' & Hrun' & Hch).
    exists b'. simpl negb. cbv iota. rewrite (M_bind_Ret _ _ _ _ _ Hrun'). done.
Qed.

(** A new bitmap has all bits off, whatever its block held. *)
Lemma bitmap_clear_run block n :
  0 <= n <= 2 ^ 32 - ELEM_BITS → elem_cnt n <= Z.of_nat (length block) → Forall (in_u 32) block →
  ∃ b, bitmap_set_all false (Bitmap n block) = Ret tt b ∧ wf_bitmap b ∧ bit_cnt b = n ∧
    ∀ i, 0 <= i < n → bit b i = false.
Proof.
  intros Hn Hlen Hw.
  destruct (bitmap_set_multiple_run 0 n false (Bitmap n block)) as (b & Hrun & [H1 H2 H3]);
    [by split|split_and!; simpl; lia|].
  unfold bitmap_set_all, bitmap_size. run. simpl. rewrite Hrun. exists b. split; [done|]. split; [done|].
  split; [done|]. intros i Hi. rewrite H3 //. by rewrite decide_True; [|lia].
Qed.

Lemma bitmap_create_clear block n :
  0 <= n <= 2 ^ 32 - ELEM_BITS → elem_cnt n <= Z.of_nat (length block) → Forall (in_u 32) block →
  ∃ b, bitmap_create true (Some block) n = Ret (Some b) tt ∧ wf_bitmap b ∧ bit_cnt b = n ∧
    ∀ i, 0 <= i < n → bit b i = false.
Proof.
  intros Hn Hlen Hw. destruct (bitmap_clear_run block n Hn Hlen Hw) as (b & Hrun & H).
  exists b. split; [|done]. unfold bitmap_create. rewrite bool_decide_true; [|by left]. simpl. by rewrite Hrun.
Qed.

Lemma bitmap_create_in_buf_clear block n size :
  0 <= n <= 2 ^ 32 - ELEM_BITS → elem_cnt n + 2 <= Z.of_nat (length block) → Forall (in_u 32) block →
  bitmap_buf_size n <= size →
  ∃ b, bitmap_create_in_buf n block size = Ret tt b ∧ wf_bitmap b ∧ bit_cnt b = n ∧
    ∀ i, 0 <= i < n → bit b i = false.
Proof.
  intros Hn Hlen Hw Hs. destruct (bitmap_clear_run (drop 2 block) n Hn) as (b & Hrun & H).
  { rewrite length_drop. lia. }
  { by apply Forall_drop. }
  exists b. split; [|done]. unfold bitmap_create_in_buf. rewrite bool_decide_true; [|lia]. exact Hrun.
Qed.

(** A bitmap of 40 bits in two words, the first of which is full. *)
Definition forty : bitmap := Bitmap 40 [2 ^ 32 - 1; 5].

Lemma forty_wf : wf_bitmap forty.
Proof. split; [done|done|repeat constructor; done]. Qed.

Lemma bitmap_operations_correct_witness :
  wf_bitmap forty ∧
  bitmap_test 34 forty = Ret true forty ∧
  (∃ b', bitmap_set 34 false forty = Ret tt b' ∧ changed forty b' (λ j, if decide (j = 34) then false else bit forty j)) ∧
  (∃ b', bitmap_flip 34 forty = Ret tt b' ∧ changed forty b' (λ j, if decide (j = 34) then negb (bit forty j) else bit forty j)) ∧
  (∃ b', bitmap_set_multiple 30 5 false forty = Ret tt b' ∧
     changed forty b' (λ j, if decide (30 <= j < 30 + 5) then false else bit forty j)) ∧
  bitmap_count 30 5 false forty = Ret 1 forty.
Proof.
  split; [exact forty_wf|].
  apply (bitmap_operations_correct forty 34 30 5 false forty_wf); [done|split_and!; done].
Defined.

(** With a count of zero the result is [start], which the comment on
    [bitmap_scan_and_flip] gives as 0. *)
Example scan_zero : bitmap_scan_and_flip 7 0 false forty = Ret 7 forty.
Proof. vm_compute. reflexivity. Qed.
