(* ===== verification/PintosString.v ===== *)
(** The string library of src/bin/OS/pintos/src/lib/string.c on a memory of
    bytes, with the properties of its copying, searching and tokenizing. *)
From S2P Require Export Prelude.
Local Open Scope Z_scope.

(** * Memory

    Addresses are numbers, 0 is [NULL].  A [char] is modelled by its byte, also
    where the code compares signed characters for equality. *)

Abbreviation mem := (gmap Z Z).
Definition NIL : Z := 0.

Definition load_byte (a : Z) : M mem Z := λ m,
  match m !! a with Some c => Ret c m | None => Undef end.
(** Only memory that is there can be written. *)
Definition store_byte (a c : Z) : M mem unit := λ m,
  match m !! a with Some _ => Ret tt (<[a := wrap_u 8 c]> m) | None => Undef end.

(** [for (;; p++)]: look at one position after the other until [step] has a result. *)
Definition search {A} (fuel : nat) (step : Z → M mem (option A)) (p : Z) : M mem A :=
  loop fuel (λ p,
    r ← step p;
    mret (match r with Some a => inr a | None => inl (p + 1) end)) p.

(** The assertions on a block, and on a string. *)
Definition assert_block (p size : Z) : M mem unit := ASSERT (bool_decide (p ≠ NIL ∨ size = 0)).
Definition assert_string (p : Z) : M mem unit := ASSERT (bool_decide (p ≠ NIL)).

(** * Blocks

    The loops that count [size] down run over the positions below [size]. *)

Definition rounds (size : Z) : nat := S (Z.to_nat size).

Definition copy_up (dst src size : Z) : M mem unit :=
  search (rounds size) (λ i,
    if bool_decide (i < size) then
      c ← load_byte (src + i); store_byte (dst + i) c;; mret None
    else mret (Some tt)) 0.

Definition copy_down (dst src size : Z) : M mem unit :=
  search (rounds size) (λ i,
    if bool_decide (i < size) then
      c ← load_byte (src + size - 1 - i); store_byte (dst + size - 1 - i) c;; mret None
    else mret (Some tt)) 0.

Definition memcpy (dst_ src_ size : Z) : M mem Z :=
  assert_block dst_ size;; assert_block src_ size;;
  copy_up dst_ src_ size;;
  mret dst_.

(** The result is the variable [dst], which the first loop has moved. *)
Definition memmove (dst_ src_ size : Z) : M mem Z :=
  assert_block dst_ size;; assert_block src_ size;;
  if bool_decide (dst_ < src_) then
    copy_up dst_ src_ size;;
    mret (dst_ + size)
  else
    copy_down dst_ src_ size;;
    mret dst_.

Definition memcmp (a_ b_ size : Z) : M mem Z :=
  assert_block a_ size;; assert_block b_ size;;
  search (rounds size) (λ i,
    if bool_decide (i < size) then
      a ← load_byte (a_ + i); b ← load_byte (b_ + i);
      mret (if bool_decide (a = b) then None else Some (if bool_decide (a > b) then 1 else -1))
    else mret (Some 0)) 0.

Definition memchr (block_ ch_ size : Z) : M mem Z :=
  assert_block block_ size;;
  search (rounds size) (λ i,
    if bool_decide (i < size) then
      c ← load_byte (block_ + i);
      mret (if bool_decide (c = wrap_u 8 ch_) then Some (block_ + i) else None)
    else mret (Some NIL)) 0.

Definition memset (dst_ value size : Z) : M mem Z :=
  assert_block dst_ size;;
  search (rounds size) (λ i,
    if bool_decide (i < size) then store_byte (dst_ + i) value;; mret None
    else mret (Some tt)) 0;;
  mret dst_.

(** * Strings: [fuel] is more than the length of each string involved *)

Section strings.
Context (fuel : nat).

Definition strcmp (a_ b_ : Z) : M mem Z :=
  assert_string a_;; assert_string b_;;
  i ← search fuel (λ i,
    a ← load_byte (a_ + i);
    if bool_decide (a ≠ 0) then
      b ← load_byte (b_ + i);
      mret (if bool_decide (a = b) then None else Some i)
    else mret (Some i)) 0;
  a ← load_byte (a_ + i); b ← load_byte (b_ + i);
  mret (if bool_decide (a < b) then -1 else if bool_decide (a > b) then 1 else 0).

Definition strchr (string c_ : Z) : M mem Z :=
  assert_string string;;
  search fuel (λ p,
    ch ← load_byte p;
    mret (if bool_decide (ch = wrap_u 8 c_) then Some p
          else if bool_decide (ch = 0) then Some NIL else None)) string.

Definition strcspn (string stop : Z) : M mem Z :=
  search fuel (λ length,
    ch ← load_byte (string + length);
    if bool_decide (ch ≠ 0) then
      q ← strchr stop ch;
      mret (if bool_decide (q ≠ NIL) then Some length else None)
    else mret (Some length)) 0.

Definition strpbrk (string stop : Z) : M mem Z :=
  search fuel (λ p,
    ch ← load_byte p;
    if bool_decide (ch ≠ 0) then
      q ← strchr stop ch;
      mret (if bool_decide (q ≠ NIL) then Some p else None)
    else mret (Some NIL)) string.

Definition strrchr (string c_ : Z) : M mem Z :=
  loop fuel (λ '(string, p),
    ch ← load_byte string;
    mret (if bool_decide (ch ≠ 0)
          then inl (string + 1, if bool_decide (ch = wrap_u 8 c_) then string else p)
          else inr p)) (string, NIL).

Definition strspn (string skip : Z) : M mem Z :=
  search fuel (λ length,
    ch ← load_byte (string + length);
    if bool_decide (ch ≠ 0) then
      q ← strchr skip ch;
      mret (if bool_decide (q = NIL) then Some length else None)
    else mret (Some length)) 0.

Definition strlen (string : Z) : M mem Z :=
  assert_string string;;
  p ← search fuel (λ p, ch ← load_byte p; mret (if bool_decide (ch ≠ 0) then None else Some p)) string;
  mret (p - string).

Definition strnlen (string maxlen : Z) : M mem Z :=
  search fuel (λ length,
    ch ← load_byte (string + length);
    mret (if bool_decide (ch ≠ 0) && bool_decide (length < maxlen) then None else Some length)) 0.

Definition strstr (haystack needle : Z) : M mem Z :=
  haystack_len ← strlen haystack;
  needle_len ← strlen needle;
  if bool_decide (haystack_len >= needle_len) then
    search (rounds (haystack_len + 1)) (λ i,
      if bool_decide (i <= haystack_len - needle_len) then
        c ← memcmp (haystack + i) needle needle_len;
        mret (if bool_decide (c = 0) then Some (haystack + i) else None)
      else mret (Some NIL)) 0
  else mret NIL.

(** [*save_ptr] is passed and returned: the result is the token and the new
    value.  [save_ptr] itself is not [NULL]. *)
Definition strtok_r (s delimiters save_ptr : Z) : M mem (Z * Z) :=
  assert_string delimiters;;
  let s := if bool_decide (s = NIL) then save_ptr else s in
  assert_string s;;
  r ← search fuel (λ s,
    ch ← load_byte s;
    q ← strchr delimiters ch;
    mret (if bool_decide (q ≠ NIL) then (if bool_decide (ch = 0) then Some (s, true) else None)
          else Some (s, false))) s;
  if (r.2 : bool) then mret (NIL, r.1)
  else
    let token := r.1 in
    s ← search fuel (λ s,
      ch ← load_byte s;
      q ← strchr delimiters ch;
      mret (if bool_decide (q = NIL) then None else Some s)) token;
    ch ← load_byte s;
    if bool_decide (ch ≠ 0) then
      store_byte s 0;; mret (token, s + 1)
    else mret (token, s).

(** The sizes are of type [size_t], which has 32 bits. *)
Definition strlcpy (dst src size : Z) : M mem Z :=
  assert_string dst;; assert_string src;;
  src_len ← strlen src;
  (if bool_decide (size > 0) then
     let dst_len := size - 1 in
     let dst_len := if bool_decide (src_len < dst_len) then src_len else dst_len in
     memcpy dst src dst_len;;
     store_byte (dst + dst_len) 0
   else mret tt);;
  mret src_len.

Definition strlcat (dst src size : Z) : M mem Z :=
  assert_string dst;; assert_string src;;
  src_len ← strlen src;
  dst_len ← strlen dst;
  (if bool_decide (size > 0 ∧ dst_len < size) then
     let copy_cnt := size - dst_len - 1 in
     let copy_cnt := if bool_decide (src_len < copy_cnt) then src_len else copy_cnt in
     memcpy (dst + dst_len) src copy_cnt;;
     store_byte (dst + dst_len + copy_cnt) 0
   else mret tt);;
  mret (wrap_u 32 (src_len + dst_len)).
End strings.

(** * Contents of memory *)

(** The bytes [bs] are at [p]; the [n] addresses from [p] on are there; [m] with
    the bytes [bs] written at [p]. *)
Definition bytes_at (m : mem) (p : Z) (bs : list Z) : Prop :=
  ∀ i c, bs !! i = Some c → m !! (p + Z.of_nat i) = Some c.
Definition writable (m : mem) (p n : Z) : Prop := ∀ a, p <= a < p + n → is_Some (m !! a).
Fixpoint write (m : mem) (p : Z) (bs : list Z) : mem :=
  match bs with [] => m | c :: bs => <[p := c]> (write m (p + 1) bs) end.

Lemma write_lookup_in m p bs i c : bs !! i = Some c → write m p bs !! (p + Z.of_nat i) = Some c.
Proof.
  revert p i. induction bs as [|d bs IH]; intros p i Hi; [done|]. simpl. destruct i as [|i]; simpl in Hi.
  - rewrite Z.add_0_r lookup_insert_eq //.
  - rewrite lookup_insert_ne; [|lia]. replace (p + Z.of_nat (S i)) with (p + 1 + Z.of_nat i) by lia. by apply IH.
Qed.

Lemma write_lookup_out m p bs a : ¬ p <= a < p + Z.of_nat (length bs) → write m p bs !! a = m !! a.
Proof.
  revert p. induction bs as [|d bs IH]; intros p Ha; [done|]. simpl in *.
  rewrite lookup_insert_ne; [|lia]. apply IH. lia.
Qed.

Lemma write_app m p bs cs : write m p (bs ++ cs) = write (write m (p + Z.of_nat (length bs)) cs) p bs.
Proof.
  revert p. induction bs as [|b bs IH]; intros p; simpl; [by rewrite Z.add_0_r|].
  rewrite IH. do 3 f_equal. lia.
Qed.

Lemma write_snoc m p bs c : write m p (bs ++ [c]) = <[p + Z.of_nat (length bs) := c]> (write m p bs).
Proof.
  revert p. induction bs as [|b bs IH]; intros p; [by rewrite /= Z.add_0_r|].
  cbn [app write length]. rewrite IH. replace (p + 1 + Z.of_nat (length bs)) with (p + Z.of_nat (S (length bs))) by lia.
  apply insert_insert_ne. lia.
Qed.

Lemma writable_write m p n q bs : writable m p n → writable (write m q bs) p n.
Proof.
  intros Hw a Ha. destruct (decide (q <= a < q + Z.of_nat (length bs))) as [Hin|Hout].
  - destruct (lookup_lt_is_Some_2 bs (Z.to_nat (a - q))) as [c Hc]; [lia|].
    exists c. replace a with (q + Z.of_nat (Z.to_nat (a - q))) by lia. by apply write_lookup_in.
  - rewrite write_lookup_out //. by apply Hw.
Qed.

Lemma bytes_at_app m p bs cs :
  bytes_at m p (bs ++ cs) ↔ bytes_at m p bs ∧ bytes_at m (p + Z.of_nat (length bs)) cs.
Proof.
  unfold bytes_at. split.
  - intros H. split; intros i c Hi.
    + apply H. by apply lookup_app_l_Some.
    + replace (p + Z.of_nat (length bs) + Z.of_nat i) with (p + Z.of_nat (length bs + i)) by lia.
      apply H. rewrite lookup_app_r; [|lia]. by replace (length bs + i - length bs)%nat with i by lia.
  - intros [H1 H2] i c Hi. apply lookup_app_Some in Hi as [Hi|[Hlen Hi]]; [by apply H1|].
    specialize (H2 _ _ Hi). by replace (p + Z.of_nat i) with
      (p + Z.of_nat (length bs) + Z.of_nat (i - length bs)) by lia.
Qed.

Lemma bytes_at_write m p bs : bytes_at (write m p bs) p bs.
Proof. intros i c Hi. by apply write_lookup_in. Qed.

Lemma load_byte_run {A} a c m (k : Z → M mem A) : m !! a = Some c → (load_byte a ≫= k) m = k c m.
Proof. intros H. unfold mbind, M_bind, load_byte. by rewrite H. Qed.

Lemma store_byte_run {A} a c m (k : unit → M mem A) :
  is_Some (m !! a) → in_u 8 c → (store_byte a c ≫= k) m = k tt (<[a := c]> m).
Proof. intros [d H] Hc. unfold mbind, M_bind, store_byte. by rewrite H wrap_u_id. Qed.

(** A search that finds its result after [n] positions, while the memory goes
    through the states [st]. *)
Lemma search_run {A} fuel (step : Z → M mem (option A)) p n a (st : nat → mem) m' :
  (n < fuel)%nat →
  (∀ k, (k < n)%nat → step (p + Z.of_nat k) (st k) = Ret None (st (S k))) →
  step (p + Z.of_nat n) (st n) = Ret (Some a) m' →
  search fuel step p (st O) = Ret a m'.
Proof.
  unfold search. revert p n st. induction fuel as [|fuel IH]; intros p n st Hn Hstep Hlast; [lia|].
  rewrite run_loop. destruct n as [|n].
  - rewrite Z.add_0_r in Hlast. run. by rewrite (M_bind_Ret _ _ _ _ _ Hlast).
  - pose proof (Hstep O ltac:(lia)) as H0. rewrite Z.add_0_r in H0. run.
    rewrite (M_bind_Ret _ _ _ _ _ H0). run. apply (IH (p + 1) n (λ k, st (S k))); [lia| |].
    + intros k Hk. replace (p + 1 + Z.of_nat k) with (p + Z.of_nat (S k)) by lia. apply Hstep. lia.
    + by replace (p + 1 + Z.of_nat n) with (p + Z.of_nat (S n)) by lia.
Qed.

(** A search that does not change the memory. *)
Lemma search_find {A} fuel (step : Z → M mem (option A)) p n a m :
  (n < fuel)%nat →
  (∀ k, (k < n)%nat → step (p + Z.of_nat k) m = Ret None m) →
  step (p + Z.of_nat n) m = Ret (Some a) m →
  search fuel step p m = Ret a m.
Proof. intros. by apply (search_run fuel step p n a (λ _, m)). Qed.

(** * Copying *)

Lemma assert_block_run {A} p size (k : unit → M mem A) m :
  p ≠ NIL ∨ size = 0 → (assert_block p size ≫= k) m = k tt m.
Proof. intros H. unfold assert_block. rewrite bool_decide_true //. Qed.
Lemma assert_string_run {A} p (k : unit → M mem A) m : p ≠ NIL → (assert_string p ≫= k) m = k tt m.
Proof. intros H. unfold assert_string. rewrite bool_decide_true //. Qed.

Section copy.
Context (m : mem) (dst src : Z) (bs : list Z).
Local Abbreviation size := (Z.of_nat (length bs)).
Context (Hsrc : bytes_at m src bs) (Hdst : writable m dst size) (Hu : Forall (in_u 8) bs).

Lemma copy_up_run : dst <= src ∨ src + size <= dst → copy_up dst src size m = Ret tt (write m dst bs).
Proof.
  intros Hlap. unfold copy_up, rounds. rewrite Nat2Z.id.
  apply (search_run _ _ 0 (length bs) tt (λ k, write m dst (take k bs))); [lia| |].
  - intros k Hk. destruct (lookup_lt_is_Some_2 bs k Hk) as [c Hc].
    rewrite bool_decide_true; [|lia]. rewrite Z.add_0_l.
    rewrite (load_byte_run _ c); [|rewrite write_lookup_out; [by apply Hsrc|rewrite length_take; lia]].
    rewrite store_byte_run; [|apply (writable_write m dst size dst (take k bs) Hdst); lia|by eapply Forall_lookup_1].
    rewrite (take_S_r _ _ _ Hc) write_snoc length_take. by replace (k `min` length bs)%nat with k by lia.
  - rewrite bool_decide_false; [|lia]. by rewrite take_ge.
Qed.

Lemma copy_down_run : src <= dst → copy_down dst src size m = Ret tt (write m dst bs).
Proof.
  intros Hlap. unfold copy_down, rounds. rewrite Nat2Z.id.
  replace m with (write m (dst + size - Z.of_nat 0) (drop (length bs - 0) bs)) at 1 by (by rewrite drop_ge; [|lia]).
  apply (search_run _ _ 0 (length bs) tt
    (λ k, write m (dst + size - Z.of_nat k) (drop (length bs - k) bs))); [lia| |].
  - intros k Hk. destruct (lookup_lt_is_Some_2 bs (length bs - S k)) as [c Hc]; [lia|].
    rewrite bool_decide_true; [|lia]. rewrite Z.add_0_l.
    rewrite (load_byte_run _ c).
    2: { rewrite write_lookup_out; [|rewrite length_drop; lia].
         replace (src + size - 1 - Z.of_nat k) with (src + Z.of_nat (length bs - S k)) by lia. by apply Hsrc. }
    rewrite store_byte_run; [|eapply (writable_write m dst size _ _ Hdst); lia|by eapply Forall_lookup_1].
    rewrite (drop_S _ _ _ Hc). simpl. replace (S (length bs - S k)) with (length bs - k)%nat by lia.
    do 2 f_equal; [lia|]. do 2 f_equal. lia.
  - rewrite bool_decide_false; [|lia]. rewrite Nat.sub_diag drop_0. do 2 f_equal. lia.
Qed.
End copy.

(** [memmove] copies a block to anywhere, also over itself, and writes
    nothing else; what it returns is [dst] only when the block does not move down:
    otherwise it is the end of the copy. *)
Theorem memmove_correct m dst src bs :
  dst ≠ NIL → src ≠ NIL → Forall (in_u 8) bs →
  bytes_at m src bs → writable m dst (Z.of_nat (length bs)) →
  memmove dst src (Z.of_nat (length bs)) m =
  Ret (if bool_decide (dst < src) then dst + Z.of_nat (length bs) else dst) (write m dst bs).
Proof.
  intros Hd Hs Hu Hsrc Hdst. unfold memmove.
  rewrite assert_block_run; [|by left]. rewrite assert_block_run; [|by left].
  case_bool_decide.
  - rewrite (M_bind_Ret _ _ _ _ _ (copy_up_run m dst src bs Hsrc Hdst Hu ltac:(lia))). done.
  - rewrite (M_bind_Ret _ _ _ _ _ (copy_down_run m dst src bs Hsrc Hdst Hu ltac:(lia))). done.
Qed.

(** * Strings *)

(** The terminated string [s] is at [p]. *)
Record is_str (m : mem) (p : Z) (s : list Z) : Prop := {
  str_bytes : bytes_at m p (s ++ [0]);
  str_chars : 0 ∉ s;
  str_u : Forall (in_u 8) s;
  str_pos : 0 < p;
}.

Lemma is_str_lookup m p s i : is_str m p s → (i < length s)%nat →
  ∃ c, s !! i = Some c ∧ m !! (p + Z.of_nat i) = Some c ∧ c ≠ 0 ∧ in_u 8 c.
Proof.
  intros [Hb H0 Hu _] Hi. destruct (lookup_lt_is_Some_2 s i Hi) as [c Hc].
  exists c. split; [done|]. split; [apply Hb; by apply lookup_app_l_Some|].
  split; [|by eapply Forall_lookup_1]. intros ->. apply H0. by eapply list_elem_of_lookup_2.
Qed.

Lemma is_str_end m p s : is_str m p s → m !! (p + Z.of_nat (length s)) = Some 0.
Proof. intros [Hb _ _ _]. apply Hb. by rewrite list_lookup_middle. Qed.

Lemma is_str_app m p s t : is_str m p (s ++ t) → is_str m (p + Z.of_nat (length s)) t.
Proof.
  intros [Hb H0 Hu Hp]. rewrite -app_assoc in Hb. apply bytes_at_app in Hb as [_ Hb].
  apply Forall_app in Hu as [_ Hu]. split; [done| |done|lia].
  intros H. apply H0. apply elem_of_app. by right.
Qed.

(** A string stays where the memory does not change. *)
Lemma is_str_frame m m' p s :
  is_str m p s → (∀ a, p <= a <= p + Z.of_nat (length s) → m' !! a = m !! a) → is_str m' p s.
Proof.
  intros [Hb H0 Hu Hp] Hm. split; [|done..]. intros i c Hi.
  rewrite Hm; [by apply Hb|]. apply lookup_lt_Some in Hi. rewrite length_app /= in Hi. lia.
Qed.

Lemma str_not_nil m p s : is_str m p s → p ≠ NIL.
Proof. intros [_ _ _ Hp]. unfold NIL. lia. Qed.

Lemma bytes_at_prefix m p bs cs : bytes_at m p (bs ++ cs) → bytes_at m p bs.
Proof. intros H. by apply bytes_at_app in H as [H _]. Qed.

Section search_strings.
Context (fuel : nat).

Lemma strlen_run m p s :
  is_str m p s → (length s < fuel)%nat → strlen fuel p m = Ret (Z.of_nat (length s)) m.
Proof.
  intros Hs Hf. unfold strlen. rewrite assert_string_run; [|by eapply str_not_nil].
  erewrite M_bind_Ret; [|apply (search_find _ _ _ (length s) (p + Z.of_nat (length s))); [done| |]].
  - cbv beta. unfold mret, M_ret. f_equal. lia.
  - intros k Hk. destruct (is_str_lookup m p s k Hs Hk) as (c & _ & Hm & Hc & _).
    rewrite (load_byte_run _ c) //. by rewrite bool_decide_true.
  - rewrite (load_byte_run _ 0); [|by apply is_str_end]. by rewrite bool_decide_false; [|tauto].
Qed.

(** The position of the first byte [c] in a string with its terminator. *)
Definition chr_of (s : list Z) (p c : Z) : Z :=
  match list_find (λ d, d = c) (s ++ [0]) with Some (i, _) => p + Z.of_nat i | None => NIL end.

Lemma strchr_run m p s c :
  is_str m p s → (length s < fuel)%nat → in_u 8 c → strchr fuel p c m = Ret (chr_of s p c) m.
Proof.
  intros Hs Hf Hc. unfold strchr, chr_of. rewrite assert_string_run; [|by eapply str_not_nil].
  rewrite (wrap_u_id 8 c) //. destruct (list_find _ _) as [[i d]|] eqn:Hfind.
  - apply list_find_Some in Hfind as (Hi & -> & Hfirst).
    pose proof (lookup_lt_Some _ _ _ Hi) as Hlen. rewrite length_app /= in Hlen.
    apply (search_find _ _ _ i); [lia| |].
    + intros k Hk. destruct (is_str_lookup m p s k Hs ltac:(lia)) as (d & Hd & Hm & Hd0 & _).
      rewrite (load_byte_run _ d) //. rewrite bool_decide_false; [by rewrite bool_decide_false|].
      eapply Hfirst; [|exact Hk]. by apply lookup_app_l_Some.
    + rewrite (load_byte_run _ c); [by rewrite bool_decide_true|]. by apply (str_bytes m p s Hs).
  - apply list_find_None in Hfind. rewrite Forall_app Forall_singleton in Hfind.
    destruct Hfind as [Hno H0]. apply (search_find _ _ _ (length s)); [done| |].
    + intros k Hk. destruct (is_str_lookup m p s k Hs Hk) as (d & Hd & Hm & Hd0 & _).
      rewrite (load_byte_run _ d) //. rewrite bool_decide_false; [by rewrite bool_decide_false|].
      by eapply (Forall_lookup_1 _ _ _ _ Hno).
    + rewrite (load_byte_run _ 0); [|by apply is_str_end]. by rewrite bool_decide_false.
Qed.

(** [strchr] finds a byte exactly when it is in the string or the terminator. *)
Lemma chr_of_found s p c : 0 < p → chr_of s p c ≠ NIL ↔ c ∈ s ∨ c = 0.
Proof.
  intros Hp. unfold chr_of, NIL. destruct (list_find _ _) as [[i d]|] eqn:Hfind.
  - apply list_find_Some in Hfind as (Hi & -> & _). apply list_elem_of_lookup_2 in Hi.
    rewrite elem_of_app elem_of_cons elem_of_nil in Hi. split; [tauto|lia].
  - apply list_find_None in Hfind. rewrite Forall_app Forall_singleton Forall_forall in Hfind.
    destruct Hfind as [Hno H0]. split; [done|]. intros [H| ->]; [by apply Hno in H|done].
Qed.
End search_strings.

(** * Tokens *)

Section tokens.
Context (D : list Z).

(** The maximal runs of characters that are not in [D]; [cur] is the run that
    has begun, backwards. *)
Fixpoint words_from (cur s : list Z) : list (list Z) :=
  match s with
  | [] => match cur with [] => [] | _ => [reverse cur] end
  | c :: s =>
      if decide (c ∈ D) then
        match cur with [] => words_from [] s | _ => reverse cur :: words_from [] s end
      else words_from (c :: cur) s
  end.
Definition words (s : list Z) : list (list Z) := words_from [] s.

Lemma words_skip skip s : Forall (.∈ D) skip → words (skip ++ s) = words s.
Proof. induction 1 as [|c skip Hc _ IH]; [done|]. unfold words in *. simpl. by rewrite decide_True. Qed.

Lemma words_from_run cur tok s :
  Forall (.∉ D) tok → words_from cur (tok ++ s) = words_from (reverse tok ++ cur) s.
Proof.
  intros H. revert cur. induction H as [|c tok Hc _ IH]; intros cur; [done|].
  simpl. rewrite decide_False // IH reverse_cons -app_assoc //.
Qed.

Lemma words_token tok rest :
  tok ≠ [] → Forall (.∉ D) tok → (∀ d r, rest = d :: r → d ∈ D) →
  words (tok ++ rest) = tok :: words (tail rest).
Proof.
  intros Hne Htok Hrest. unfold words. rewrite words_from_run // app_nil_r.
  destruct (reverse tok) as [|c cur] eqn:Hrev.
  { destruct Hne. by rewrite -(reverse_involutive tok) Hrev. }
  rewrite -(reverse_involutive tok) Hrev. destruct rest as [|d rest]; simpl; [done|].
  by rewrite decide_True; [|by eapply Hrest].
Qed.

(** A string is delimiters, a token and the rest from the next delimiter on. *)
Lemma span (P : Z → Prop) `{!∀ c, Decision (P c)} s :
  ∃ a b, s = a ++ b ∧ Forall P a ∧ (∀ d r, b = d :: r → ¬ P d).
Proof.
  induction s as [|c s (a & b & -> & Ha & Hb)]; [by exists [], []|].
  destruct (decide (P c)) as [Hc|Hc].
  - exists (c :: a), b. by repeat split; [constructor|].
  - exists [], (c :: a ++ b). repeat split; [constructor|]. by intros d r [= <- <-].
Qed.

Lemma token_split s : ∃ skip tok rest, s = skip ++ tok ++ rest ∧ Forall (.∈ D) skip ∧
  Forall (.∉ D) tok ∧ (tok = [] → rest = []) ∧ (∀ d r, rest = d :: r → d ∈ D).
Proof.
  destruct (span (.∈ D) s) as (skip & s' & -> & Hskip & Hs').
  destruct (span (.∉ D) s') as (tok & rest & -> & Htok & Hrest).
  assert (∀ d r, rest = d :: r → d ∈ D) as Hrest'.
  { intros d r Hr. apply Hrest in Hr. by destruct (decide (d ∈ D)). }
  exists skip, tok, rest. repeat split; [done..| |done].
  intros ->. destruct rest as [|d r]; [done|]. exfalso.
  by apply (Hs' d r eq_refl), (Hrest' d r).
Qed.
End tokens.

(** * [strtok_r] *)

Section strtok.
Context (fuel : nat) (q : Z) (D : list Z) (HD : (length D < fuel)%nat).

(** Whether a character is a delimiter, in a memory that holds [D]. *)
Lemma strchr_delim m c :
  is_str m q D → in_u 8 c → ∃ r, strchr fuel q c m = Ret r m ∧
    ((c ∈ D ∨ c = 0) ∧ r ≠ NIL ∨ c ∉ D ∧ c ≠ 0 ∧ r = NIL).
Proof.
  intros Hq Hc. exists (chr_of D q c). split; [by apply strchr_run|].
  pose proof (chr_of_found D q c (str_pos m q D Hq)).
  destruct (decide (chr_of D q c = NIL)); tauto.
Qed.

(** Read the character [c] and look for it in the delimiters. *)
Local Ltac delim c :=
  let r := fresh "r" in let H := fresh in
  lazymatch goal with Hq : is_str ?m q D |- _ =>
    destruct (strchr_delim m c Hq) as (r & H & Hr); [by try assumption|] end;
  rewrite (load_byte_run _ c) // (M_bind_Ret _ _ _ _ _ H); clear H.

Lemma strtok_r_run m s v p skip tok rest :
  (if bool_decide (s = NIL) then v else s) = p →
  is_str m q D → is_str m p (skip ++ tok ++ rest) → (length (skip ++ tok ++ rest) < fuel)%nat →
  Forall (.∈ D) skip → Forall (.∉ D) tok → (tok = [] → rest = []) →
  (∀ d r, rest = d :: r → d ∈ D) →
  let t := p + Z.of_nat (length skip) in
  let e := t + Z.of_nat (length tok) in
  strtok_r fuel s q v m =
  match tok, rest with
  | [], _ => Ret (NIL, t) m
  | _, [] => Ret (t, e) m
  | _, _ => Ret (t, e + 1) (<[e := 0]> m)
  end.
Proof.
  intros Hp Hq Hs Hf Hskip Htok Hemp Hrest t e. unfold strtok_r.
  rewrite assert_string_run; [|by eapply str_not_nil]. cbv zeta. rewrite Hp.
  rewrite assert_string_run; [|by eapply str_not_nil].
  rewrite !length_app in Hf.
  assert (is_str m t (tok ++ rest)) as Ht by by apply is_str_app.
  assert (is_str m e rest) as He by by apply is_str_app.
  assert (∀ k, (k < length skip)%nat → ∃ c, m !! (p + Z.of_nat k) = Some c ∧ c ≠ 0 ∧ in_u 8 c ∧ c ∈ D) as Hks.
  { intros k Hk. destruct (is_str_lookup m p _ k Hs) as (c & Hc & Hm & Hc0 & Hu); [rewrite length_app; lia|].
    rewrite lookup_app_l // in Hc. exists c. split_and!; [done..|exact (Forall_lookup_1 _ _ _ _ Hskip Hc)]. }
  assert (∀ k, (k < length tok)%nat → ∃ c, m !! (t + Z.of_nat k) = Some c ∧ c ≠ 0 ∧ in_u 8 c ∧ c ∉ D) as Hkt.
  { intros k Hk. destruct (is_str_lookup m t _ k Ht) as (c & Hc & Hm & Hc0 & Hu); [rewrite length_app; lia|].
    rewrite lookup_app_l // in Hc. exists c. split_and!; [done..|exact (Forall_lookup_1 _ _ _ _ Htok Hc)]. }
  erewrite M_bind_Ret;
    [|apply (search_find _ _ _ (length skip) (t, bool_decide (tok = []))); [lia| |]].
  2: { intros k Hk. destruct (Hks k Hk) as (c & Hm & Hc0 & Hu & Hc).
       delim c.
       rewrite bool_decide_true; [|tauto]. by rewrite bool_decide_false. }
  2: { destruct tok as [|c0 tok'].
       - rewrite Hemp // in He. pose proof (is_str_end m e [] He) as Hm.
         unfold e in Hm; simpl in Hm; rewrite !Z.add_0_r in Hm.
         delim 0.
         rewrite bool_decide_true; [done|tauto].
       - destruct (Hkt O) as (c & Hm & Hc0 & Hu & Hc); [simpl; lia|]. rewrite Z.add_0_r in Hm.
         delim c.
         rewrite bool_decide_false; [done|tauto]. }
  cbv beta. simpl. destruct tok as [|c0 tok']; [by rewrite bool_decide_true|].
  rewrite bool_decide_false //. remember (c0 :: tok') as tok eqn:Etok.
  assert (∃ d, m !! e = Some d ∧ in_u 8 d ∧ (d ∈ D ∨ d = 0) ∧
    if rest is [] then d = 0 else d ≠ 0) as (d & Hd & Hdu & HdD & Hdz).
  { destruct rest as [|d r].
    - exists 0. pose proof (is_str_end m e [] He) as Hm. simpl in Hm. rewrite Z.add_0_r in Hm. split_and!; [done..|by right|done].
    - destruct (is_str_lookup m e _ 0 He) as (d' & Hd & Hm & Hd0 & Hu); [simpl; lia|].
      rewrite Z.add_0_r in Hm. simpl in Hd. exists d'. split_and!; [done|done| |done].
      left. apply (Hrest d' r). by simplify_eq. }
  erewrite M_bind_Ret; [|apply (search_find _ _ _ (length tok) e); [lia| |]].
  2: { intros k Hk. destruct (Hkt k Hk) as (c & Hm & Hc0 & Hu & Hc).
       delim c.
       rewrite bool_decide_true; [done|tauto]. }
  2: { delim d.
       rewrite bool_decide_false; [done|tauto]. }
  cbv beta. rewrite (load_byte_run _ d) //. destruct rest as [|d' r].
  - subst d. rewrite bool_decide_false; [done|tauto].
  - rewrite bool_decide_true // store_byte_run //.
Qed.
(** The loop of the comment on [strtok_r]: take tokens until there are none. *)
Fixpoint collect (n : nat) (s save_ptr : Z) : M mem (list Z) :=
  match n with
  | O => nofuel
  | S n =>
      '(token, save_ptr) ← strtok_r fuel s q save_ptr;
      if bool_decide (token ≠ NIL) then
        tokens ← collect n NIL save_ptr; mret (token :: tokens)
      else mret []
  end.

Lemma collect_run n m s v p str :
  (if bool_decide (s = NIL) then v else s) = p →
  is_str m q D → is_str m p str → (length str < fuel)%nat → (length str < n)%nat →
  q + Z.of_nat (length D) < p ∨ p + Z.of_nat (length str) < q →
  ∃ ts m', collect n s v m = Ret ts m' ∧ Forall2 (is_str m') ts (words D str) ∧
    ∀ a, ¬ p <= a < p + Z.of_nat (length str) → m' !! a = m !! a.
Proof.
  revert m s v p str. induction n as [|n IH]; intros m s v p str Hp Hq Hs Hf Hn Hdisj; [lia|].
  destruct (token_split D str) as (skip & tok & rest & -> & Hskip & Htok & Hemp & Hrest).
  pose proof (strtok_r_run m s v p skip tok rest Hp Hq Hs Hf Hskip Htok Hemp Hrest) as Hrun.
  cbv zeta in Hrun. pose proof (str_pos _ _ _ Hs) as Hpos. pose proof (is_str_app _ _ _ _ Hs) as Ht.
  rewrite !length_app in Hf, Hn, Hdisj |- *. rewrite words_skip //.
  destruct tok as [|c tok].
  { exists [], m. rewrite Hemp //. split_and!; [|constructor|done].
    simpl. by rewrite (M_bind_Ret _ _ _ _ _ Hrun). }
  rewrite words_token //. set (t := p + Z.of_nat (length skip)) in *.
  set (e := t + Z.of_nat (length (c :: tok))) in *.
  assert (is_str (<[e := 0]> m) t (c :: tok)) as Ht'.
  { destruct Ht as [Hb H0 Hu _]. apply Forall_app in Hu as [Hu _]. split; [|by intros H; apply H0, elem_of_app; left|done|lia].
    rewrite -app_assoc in Hb. apply bytes_at_app in Hb as [Hb _].
    intros i d [Hi|[Hlen Hi]]%lookup_app_Some.
    - rewrite lookup_insert_ne; [by apply Hb|]. apply lookup_lt_Some in Hi. unfold e. lia.
    - apply list_lookup_singleton_Some in Hi as [Hi <-].
      replace (t + Z.of_nat i) with e by (unfold e; lia). by rewrite lookup_insert_eq. }
  destruct rest as [|d rest].
  - exists [t], m. split_and!; [|constructor; [by rewrite app_nil_r in Ht|constructor]|done].
    simpl. rewrite (M_bind_Ret _ _ _ _ _ Hrun). rewrite bool_decide_true; [|unfold NIL; lia].
    destruct n as [|n]; [simpl in Hn; lia|]. simpl.
    assert (is_str m e []) as He by by apply (is_str_app m t (c :: tok) []).
    erewrite (M_bind_Ret (_ ≫= _)); [done|].
    erewrite M_bind_Ret; [|apply (strtok_r_run m NIL e e [] [] []); [done..|simpl; lia|constructor|constructor|done|done]].
    done.
  - assert (is_str m (e + 1) rest) as He.
    { replace (e + 1) with (e + Z.of_nat (length [d])) by (simpl; lia). apply (is_str_app m e [d] rest).
      by apply (is_str_app m t (c :: tok)). }
    destruct (IH (<[e := 0]> m) NIL (e + 1) (e + 1) rest) as (ts & m' & Hts & Hw & Hm'); [done| | |simpl in *; lia..|].
    + eapply is_str_frame; [exact Hq|]. intros a Ha. rewrite lookup_insert_ne //. unfold e, t. simpl in *. lia.
    + eapply is_str_frame; [exact He|]. intros a Ha. rewrite lookup_insert_ne //. lia.
    + exists (t :: ts), m'. split_and!.
      * simpl. rewrite (M_bind_Ret _ _ _ _ _ Hrun). rewrite bool_decide_true; [|unfold NIL; lia].
        by rewrite (M_bind_Ret _ _ _ _ _ Hts).
      * simpl. constructor; [|done]. eapply is_str_frame; [exact Ht'|]. intros a Ha. apply Hm'. unfold e. lia.
      * intros a Ha. rewrite Hm'; [|unfold e, t; simpl in *; lia]. rewrite lookup_insert_ne //. unfold e, t. simpl in *. lia.
Qed.
End strtok.

(** * Comparing *)

(** The sign of the first difference. *)
Fixpoint lex (xs ys : list Z) : Z :=
  match xs, ys with
  | x :: xs, y :: ys => if decide (x = y) then lex xs ys else if decide (x > y) then 1 else -1
  | _, _ => 0
  end.

Lemma lex_first xs ys : ∃ k,
  (∀ j, (j < k)%nat → ∃ c, xs !! j = Some c ∧ ys !! j = Some c) ∧
  ((xs !! k = None ∨ ys !! k = None) ∧ lex xs ys = 0 ∨
   ∃ x y, xs !! k = Some x ∧ ys !! k = Some y ∧ x ≠ y ∧ lex xs ys = if decide (x > y) then 1 else -1).
Proof.
  revert ys. induction xs as [|x xs IH]; intros ys.
  { exists O. split; [lia|]. left. by split; [left|]. }
  destruct ys as [|y ys].
  { exists O. split; [lia|]. left. by split; [right|]. }
  simpl. destruct (decide (x = y)) as [<-|Hne].
  - destruct (IH ys) as (k & Hk & H). exists (S k). split; [|done].
    intros [|j] Hj; [by exists x|]. apply Hk. lia.
  - exists O. split; [lia|]. right. by exists x, y.
Qed.

Lemma lex_eq xs ys : length xs = length ys → lex xs ys = 0 ↔ xs = ys.
Proof.
  revert ys. induction xs as [|x xs IH]; intros [|y ys] Hlen; try discriminate; [done|].
  simpl in *. destruct (decide (x = y)) as [<-|Hne].
  - rewrite IH; [|lia]. split; [by intros ->|by intros [= ->]].
  - split; [by case_decide|by intros [= -> _]].
Qed.

Lemma memcmp_run m a b xs ys :
  (a ≠ NIL ∧ b ≠ NIL ∨ xs = []) → length xs = length ys → bytes_at m a xs → bytes_at m b ys →
  memcmp a b (Z.of_nat (length xs)) m = Ret (lex xs ys) m.
Proof.
  intros Hnil Hlen Ha Hb. unfold memcmp.
  rewrite assert_block_run; [|destruct Hnil as [[? ?]| ->]; by auto].
  rewrite assert_block_run; [|destruct Hnil as [[? ?]| ->]; by auto].
  unfold rounds. rewrite Nat2Z.id. destruct (lex_first xs ys) as (k & Hk & Hfirst).
  assert (∀ j, (j < k)%nat → (j < length xs)%nat) as Hkl.
  { intros j Hj. destruct (Hk j Hj) as (c & Hc & _). by eapply lookup_lt_Some. }
  assert (k ≤ length xs)%nat as Hkx by (destruct k as [|k]; [lia|]; specialize (Hkl k); lia).
  apply (search_find _ _ 0 k); [lia| |].
  - intros j Hj. rewrite Z.add_0_l. destruct (Hk j Hj) as (c & Hxc & Hyc).
    rewrite bool_decide_true; [|specialize (Hkl j); lia].
    rewrite (load_byte_run _ c); [|by apply Ha]. rewrite (load_byte_run _ c); [|by apply Hb].
    by rewrite bool_decide_true.
  - rewrite Z.add_0_l. destruct Hfirst as [[Hend ->]|(x & y & Hx & Hy & Hne & ->)].
    + rewrite bool_decide_false; [done|]. rewrite !lookup_ge_None in Hend. lia.
    + apply lookup_lt_Some in Hx as Hlt. rewrite bool_decide_true; [|lia].
      rewrite (load_byte_run _ x); [|by apply Ha]. rewrite (load_byte_run _ y); [|by apply Hb].
      rewrite bool_decide_false //. by case_decide; case_bool_decide.
Qed.

(** The last position that a comparison of two strings looks at. *)
Lemma lex_terminated s t : 0 ∉ s → 0 ∉ t →
  ∃ i x y, (i ≤ length s)%nat ∧ (s ++ [0]) !! i = Some x ∧ (t ++ [0]) !! i = Some y ∧
    (∀ j, (j < i)%nat → ∃ c, c ≠ 0 ∧ (s ++ [0]) !! j = Some c ∧ (t ++ [0]) !! j = Some c) ∧
    (x = 0 ∨ x ≠ y) ∧ lex (s ++ [0]) (t ++ [0]) = if decide (x = y) then 0 else if decide (x > y) then 1 else -1.
Proof.
  assert (∀ u j c, 0 ∉ u → (u ++ [0]) !! j = Some c → c = 0 → j = length u) as Hz.
  { intros u j c Hu [Hj|[Hlen Hj]]%lookup_app_Some ->.
    - destruct Hu. by eapply list_elem_of_lookup_2.
    - apply list_lookup_singleton_Some in Hj as [? _]. lia. }
  intros Hs Ht. destruct (lex_first (s ++ [0]) (t ++ [0])) as (k & Hk & Hfirst).
  assert (∀ j c, (j < k)%nat → (s ++ [0]) !! j = Some c → (t ++ [0]) !! j = Some c) as Heq.
  { intros j c Hj Hc. destruct (Hk j Hj) as (c' & Hc' & ?). by simplify_eq. }
  assert ((s ++ [0]) !! length s = Some 0) as Hend by by apply list_lookup_middle.
  assert ((t ++ [0]) !! length t = Some 0) as Htend by by apply list_lookup_middle.
  destruct Hfirst as [[Hnone Hlex]|(x & y & Hx & Hy & Hne & Hlex)].
  - assert (length s < k)%nat as Hsk.
    { destruct (decide (length s < k)%nat); [done|exfalso]. rewrite !lookup_ge_None !length_app /= in Hnone.
      destruct Hnone as [?|Hlt]; [lia|].
      destruct (Hk (length t)) as (c & Hc & Hc'); [lia|]. simplify_eq. apply Hz in Hc; [|done..]. lia. }
    exists (length s), 0, 0. split_and!; [done..|by apply (Heq _ _ Hsk)| |by left|done].
    intros j Hj. destruct (Hk j) as (c & Hc & Hc'); [lia|]. exists c. split_and!; [|done..].
    intros ->. apply Hz in Hc; [lia|done..].
  - apply lookup_lt_Some in Hx as Hlt. rewrite length_app /= in Hlt.
    exists k, x, y. split_and!; [lia|done..| |by right|by rewrite decide_False].
    intros j Hj. destruct (Hk j Hj) as (c & Hc & Hc'). exists c. split_and!; [|done..].
    intros ->. apply Hz in Hc; [lia|done..].
Qed.

Lemma strcmp_run fuel m a b s t :
  is_str m a s → is_str m b t → (length s < fuel)%nat →
  strcmp fuel a b m = Ret (lex (s ++ [0]) (t ++ [0])) m.
Proof.
  intros Hs Ht Hf. unfold strcmp.
  rewrite assert_string_run; [|by eapply str_not_nil]. rewrite assert_string_run; [|by eapply str_not_nil].
  destruct (lex_terminated s t) as (i & x & y & Hi & Hx & Hy & Hbefore & Hxy & ->);
    [by eapply str_chars|by eapply str_chars|].
  erewrite M_bind_Ret; [|apply (search_find _ _ 0 i (Z.of_nat i)); [lia| |]].
  - cbv beta. rewrite (load_byte_run _ x); [|by apply (str_bytes m a s Hs)].
    rewrite (load_byte_run _ y); [|by apply (str_bytes m b t Ht)].
    unfold mret, M_ret. f_equal. repeat (case_bool_decide || case_decide); lia.
  - intros j Hj. rewrite Z.add_0_l. destruct (Hbefore j Hj) as (c & Hc0 & Hc & Hc').
    rewrite (load_byte_run _ c); [|by apply (str_bytes m a s Hs)]. rewrite bool_decide_true //.
    rewrite (load_byte_run _ c); [|by apply (str_bytes m b t Ht)]. by rewrite bool_decide_true.
  - rewrite Z.add_0_l. rewrite (load_byte_run _ x); [|by apply (str_bytes m a s Hs)].
    destruct (decide (x = 0)) as [->|Hx0]; [by rewrite bool_decide_false; [|tauto]|].
    rewrite bool_decide_true //. rewrite (load_byte_run _ y); [|by apply (str_bytes m b t Ht)].
    rewrite bool_decide_false //. tauto.
Qed.

(** * [strstr] *)

(** The first position at which [ns] occurs in [hs]. *)
Fixpoint first_occurrence (ns hs : list Z) : option nat :=
  if decide (ns `prefix_of` hs) then Some O
  else match hs with [] => None | _ :: hs => S <$> first_occurrence ns hs end.

Lemma first_occurrence_spec ns hs :
  match first_occurrence ns hs with
  | Some i => (i + length ns ≤ length hs)%nat ∧ ns `prefix_of` drop i hs ∧ ∀ j, (j < i)%nat → ¬ ns `prefix_of` drop j hs
  | None => ∀ j, ¬ ns `prefix_of` drop j hs
  end.
Proof.
  induction hs as [|h hs IH]; simpl; case_decide as Hp.
  - split_and!; [by apply prefix_length in Hp|done|lia].
  - intros j. by rewrite drop_nil.
  - split_and!; [by apply prefix_length in Hp|done|lia].
  - destruct (first_occurrence ns hs) as [i|]; simpl.
    + destruct IH as (Hlen & Hi & Hj). split_and!; [lia|done|]. intros [|j] Hlt; [done|]. apply Hj. lia.
    + intros [|j]; [done|]. apply IH.
Qed.

Lemma prefix_take (ns hs : list Z) :
  (length ns ≤ length hs)%nat → take (length ns) hs = ns ↔ ns `prefix_of` hs.
Proof.
  intros Hlen. split.
  - intros H. exists (drop (length ns) hs). rewrite -{1}H. by rewrite take_drop.
  - intros [k ->]. by rewrite take_app_length.
Qed.

Lemma bytes_at_sub m p xs i n : bytes_at m p xs → bytes_at m (p + Z.of_nat i) (take n (drop i xs)).
Proof.
  intros H j c Hj. apply lookup_take_Some in Hj as [Hj _]. rewrite lookup_drop in Hj.
  replace (p + Z.of_nat i + Z.of_nat j) with (p + Z.of_nat (i + j)) by lia. by apply H.
Qed.

(** [strstr] returns the address of the first occurrence of the needle, or
    [NULL] when there is none. *)
Theorem strstr_correct fuel m haystack needle hs ns :
  is_str m haystack hs → is_str m needle ns →
  (length hs < fuel)%nat → (length ns < fuel)%nat →
  strstr fuel haystack needle m =
  Ret (match first_occurrence ns hs with Some i => haystack + Z.of_nat i | None => NIL end) m.
Proof.
  intros Hh Hn Hfh Hfn. unfold strstr.
  rewrite (M_bind_Ret _ _ _ _ _ (strlen_run fuel m haystack hs Hh Hfh)).
  rewrite (M_bind_Ret _ _ _ _ _ (strlen_run fuel m needle ns Hn Hfn)).
  pose proof (first_occurrence_spec ns hs) as Hspec.
  assert (∀ j, (j + length ns ≤ length hs)%nat → ∃ r,
    memcmp (haystack + Z.of_nat j) needle (Z.of_nat (length ns)) m = Ret r m ∧
    (r = 0 ↔ ns `prefix_of` drop j hs)) as Hcmp.
  { intros j Hj. exists (lex (take (length ns) (drop j hs)) ns).
    assert (length (take (length ns) (drop j hs)) = length ns) as Hlen by (rewrite length_take length_drop; lia).
    split.
    - rewrite -{1}Hlen. apply memcmp_run; [|done| |by eapply bytes_at_prefix, (str_bytes m needle ns)].
      + left. pose proof (str_pos _ _ _ Hh). pose proof (str_pos _ _ _ Hn). unfold NIL. lia.
      + by eapply bytes_at_sub, bytes_at_prefix, (str_bytes m haystack hs).
    - rewrite lex_eq // prefix_take // length_drop. lia. }
  destruct (first_occurrence ns hs) as [i|].
  - destruct Hspec as (Hlen & Hi & Hfirst). rewrite bool_decide_true; [|lia].
    apply (search_find _ _ 0 i); [unfold rounds; lia| |].
    + intros j Hj. rewrite Z.add_0_l. destruct (Hcmp j) as (r & Hr & Hr0); [lia|].
      rewrite bool_decide_true; [|lia]. rewrite (M_bind_Ret _ _ _ _ _ Hr).
      rewrite bool_decide_false; [done|]. intros ->. by apply (Hfirst j Hj), Hr0.
    + rewrite Z.add_0_l. destruct (Hcmp i) as (r & Hr & Hr0); [lia|].
      rewrite bool_decide_true; [|lia]. rewrite (M_bind_Ret _ _ _ _ _ Hr).
      by rewrite bool_decide_true; [|by apply Hr0].
  - case_bool_decide as Hle; [|done].
    apply (search_find _ _ 0 (length hs - length ns + 1)); [unfold rounds; lia| |].
    + intros j Hj. rewrite Z.add_0_l. destruct (Hcmp j) as (r & Hr & Hr0); [lia|].
      rewrite bool_decide_true; [|lia]. rewrite (M_bind_Ret _ _ _ _ _ Hr).
      rewrite bool_decide_false; [done|]. intros ->. by apply (Hspec j), Hr0.
    + rewrite Z.add_0_l. by rewrite bool_decide_false; [|lia].
Qed.

(** * Bounded copies *)

Lemma bytes_at_frame m m' p bs :
  bytes_at m p bs → (∀ a, p <= a < p + Z.of_nat (length bs) → m' !! a = m !! a) → bytes_at m' p bs.
Proof. intros Hb Hm i c Hi. rewrite Hm; [by apply Hb|]. apply lookup_lt_Some in Hi. lia. Qed.

(** Copying the first [n] characters of a string behind [cur], and a terminator. *)
Lemma copy_terminated m p src bs n size :
  p ≠ NIL ∧ src ≠ NIL ∨ n = O → bytes_at m src bs → Forall (in_u 8) bs → (n ≤ length bs)%nat →
  writable m p size → Z.of_nat n < size →
  src + Z.of_nat (length bs) <= p ∨ p + size <= src →
  (memcpy p src (Z.of_nat n);; store_byte (p + Z.of_nat n) 0) m = Ret tt (write m p (take n bs ++ [0])).
Proof.
  intros Hnil Hsrc Hu Hn Hw Hsize Hdisj. unfold memcpy.
  assert (length (take n bs) = n) as Hlen by (rewrite length_take; lia).
  erewrite M_bind_Ret.
  2: { rewrite assert_block_run; [|destruct Hnil as [[? ?]| ->]; by auto].
       rewrite assert_block_run; [|destruct Hnil as [[? ?]| ->]; by auto].
       rewrite -{1}Hlen. erewrite M_bind_Ret; [done|]. apply copy_up_run.
       - by rewrite -(take_drop n bs) in Hsrc; apply bytes_at_prefix in Hsrc.
       - intros a Ha. apply Hw. lia.
       - by apply Forall_take.
       - lia. }
  rewrite write_snoc Hlen. unfold store_byte.
  destruct (writable_write m p size p (take n bs) Hw (p + Z.of_nat n)) as [c ->]; [lia|done].
Qed.

Lemma strlcpy_run fuel m dst src s size :
  is_str m src s → (length s < fuel)%nat → dst ≠ NIL → 0 < size → writable m dst size →
  src + Z.of_nat (length s) < dst ∨ dst + size <= src →
  strlcpy fuel dst src size m =
  Ret (Z.of_nat (length s)) (write m dst (take (Z.to_nat (size - 1)) s ++ [0])).
Proof.
  intros Hs Hf Hd Hsize Hw Hdisj. unfold strlcpy.
  rewrite assert_string_run // assert_string_run; [|by eapply str_not_nil].
  rewrite (M_bind_Ret _ _ _ _ _ (strlen_run fuel m src s Hs Hf)).
  rewrite bool_decide_true; [|lia]. cbv zeta.
  set (n := Nat.min (Z.to_nat (size - 1)) (length s)).
  replace (if bool_decide (Z.of_nat (length s) < size - 1) then Z.of_nat (length s) else size - 1)
    with (Z.of_nat n) by (unfold n; case_bool_decide; lia).
  erewrite M_bind_Ret.
  2: { apply (copy_terminated m dst src s n size); [left; split; [done|by eapply str_not_nil]| |by eapply str_u|lia|done|lia|lia].
       by eapply bytes_at_prefix, str_bytes. }
  cbv beta. unfold mret, M_ret. do 3 f_equal. unfold n. destruct (decide (Z.to_nat (size - 1) ≤ length s)%nat).
  - by rewrite Nat.min_l.
  - rewrite Nat.min_r; [|lia]. rewrite !take_ge //. lia.
Qed.

Lemma strlcat_run fuel m dst src d s size :
  is_str m dst d → is_str m src s → (length s < fuel)%nat → (length d < fuel)%nat →
  Z.of_nat (length d) < size → writable m dst size →
  src + Z.of_nat (length s) < dst ∨ dst + size <= src →
  strlcat fuel dst src size m =
  Ret (wrap_u 32 (Z.of_nat (length s) + Z.of_nat (length d)))
      (write m (dst + Z.of_nat (length d)) (take (Z.to_nat (size - Z.of_nat (length d) - 1)) s ++ [0])).
Proof.
  intros Hd Hs Hf Hfd Hsize Hw Hdisj. unfold strlcat.
  rewrite assert_string_run; [|by eapply str_not_nil]. rewrite assert_string_run; [|by eapply str_not_nil].
  rewrite (M_bind_Ret _ _ _ _ _ (strlen_run fuel m src s Hs Hf)).
  rewrite (M_bind_Ret _ _ _ _ _ (strlen_run fuel m dst d Hd Hfd)).
  rewrite bool_decide_true; [|lia]. cbv zeta.
  set (n := Nat.min (Z.to_nat (size - Z.of_nat (length d) - 1)) (length s)).
  replace (if bool_decide _ then _ else _) with (Z.of_nat n) by (unfold n; case_bool_decide; lia).
  pose proof (str_pos _ _ _ Hd). pose proof (str_pos _ _ _ Hs).
  erewrite M_bind_Ret.
  2: { apply (copy_terminated m _ src s n (size - Z.of_nat (length d))); [|by eapply bytes_at_prefix, str_bytes|by eapply str_u|lia| |lia|lia].
       - left. unfold NIL. lia.
       - intros a Ha. apply Hw. lia. }
  cbv beta. unfold mret, M_ret. do 3 f_equal. unfold n.
  destruct (decide (Z.to_nat (size - Z.of_nat (length d) - 1) ≤ length s)%nat); [by rewrite Nat.min_l|].
  rewrite Nat.min_r; [|lia]. rewrite !take_ge //. lia.
Qed.

Lemma is_str_write m p s : 0 < p → 0 ∉ s → Forall (in_u 8) s → is_str (write m p (s ++ [0])) p s.
Proof. intros. split; [apply bytes_at_write|done..]. Qed.

Lemma not_elem_of_take (x : Z) n xs : x ∉ xs → x ∉ take n xs.
Proof. intros Hx H. apply Hx. rewrite -(take_drop n xs). apply elem_of_app. by left. Qed.

(** [strlcpy] followed by [strlcat] into a buffer of [size] bytes builds the
    concatenation of the two strings cut to the buffer: the result is always
    terminated, nothing outside the buffer is written, and the number that is
    returned tells what the length would have been. *)
Theorem strlcat_correct fuel m dst src1 src2 s1 s2 size :
  is_str m src1 s1 → is_str m src2 s2 → (length s1 < fuel)%nat → (length s2 < fuel)%nat →
  0 < dst → 0 < size → writable m dst size →
  src1 + Z.of_nat (length s1) < dst ∨ dst + size <= src1 →
  src2 + Z.of_nat (length s2) < dst ∨ dst + size <= src2 →
  ∃ m', (strlcpy fuel dst src1 size;; strlcat fuel dst src2 size) m =
    Ret (wrap_u 32 (Z.of_nat (length s2) + Z.min (Z.of_nat (length s1)) (size - 1))) m' ∧
  is_str m' dst (take (Z.to_nat (size - 1)) (s1 ++ s2)) ∧
  ∀ a, ¬ dst <= a < dst + size → m' !! a = m !! a.
Proof.
  intros H1 H2 Hf1 Hf2 Hd Hsize Hw Hdisj1 Hdisj2.
  set (t := take (Z.to_nat (size - 1)) s1).
  assert (Z.of_nat (length t) = Z.min (Z.of_nat (length s1)) (size - 1)) as Hlen
    by (unfold t; rewrite length_take; lia).
  erewrite M_bind_Ret; [|apply (strlcpy_run fuel m dst src1 s1 size H1 Hf1); [unfold NIL; lia|lia|done|lia]].
  fold t. cbv beta. assert (is_str (write m dst (t ++ [0])) dst t) as Ht.
  { apply is_str_write; [done|by apply not_elem_of_take; eapply str_chars|by apply Forall_take; eapply str_u]. }
  erewrite strlcat_run; [|exact Ht| |done|lia|lia|by apply writable_write|lia].
  2: { eapply is_str_frame; [exact H2|]. intros a Ha. rewrite write_lookup_out //. rewrite length_app /=. lia. }
  rewrite Hlen. eexists. split; [done|]. split.
  - rewrite write_app in Ht |- *. set (u := take _ s2).
    assert (take (Z.to_nat (size - 1)) (s1 ++ s2) = t ++ u) as ->.
    { unfold t, u. rewrite take_app. do 2 f_equal. rewrite -Hlen /t length_take. lia. }
    pose proof (str_chars _ _ _ H1). pose proof (str_chars _ _ _ H2).
    split; [|..|done].
    + rewrite -app_assoc. apply bytes_at_app. rewrite -Hlen. split.
      * eapply bytes_at_frame; [by eapply bytes_at_prefix, (str_bytes _ _ _ Ht)|].
        intros a Ha. rewrite write_lookup_out //. lia.
      * rewrite -write_app. apply bytes_at_write.
    + intros [Hin|Hin]%elem_of_app; by eapply not_elem_of_take in Hin.
    + apply Forall_app. split; apply Forall_take; by eapply str_u.
  - intros a Ha. rewrite !write_lookup_out //; rewrite length_app /= ?length_take; lia.
Qed.

(** C33: calling [strtok_r] on a string and then on [NULL] until it returns
    [NULL] gives pointers to exactly the maximal runs of the string that hold no
    delimiter, in order; each is terminated, and only the string is written. *)
Theorem strtok_r_tokens fuel n m s q save D str :
  is_str m s str → is_str m q D → (length str < fuel)%nat → (length D < fuel)%nat →
  (length str < n)%nat → q + Z.of_nat (length D) < s ∨ s + Z.of_nat (length str) < q →
  ∃ ts m', collect fuel q n s save m = Ret ts m' ∧ Forall2 (is_str m') ts (words D str) ∧
    ∀ a, ¬ s <= a < s + Z.of_nat (length str) → m' !! a = m !! a.
Proof.
  intros Hs Hq Hf HD Hn Hdisj. apply (collect_run fuel q D HD n m s save s str); [|done..].
  rewrite bool_decide_false //. by eapply str_not_nil.
Qed.

(** * A memory with the strings "a,bc" and "," and a block of zeros *)

Definition comma : Z := 44.
Definition ex_str : list Z := [97; comma; 98; 99].
Definition ex_mem : mem := write (write (write ∅ 300 (replicate 8 0)) 200 ([comma] ++ [0])) 100 (ex_str ++ [0]).

Lemma ex_mem_str : is_str ex_mem 100 ex_str.
Proof. apply is_str_write; [done|by apply (bool_decide_unpack _)|by apply (bool_decide_unpack _)]. Qed.
Lemma ex_mem_delims : is_str ex_mem 200 [comma].
Proof.
  eapply is_str_frame; [apply is_str_write; [done|by apply (bool_decide_unpack _)..]|].
  intros a Ha. apply write_lookup_out. simpl in *. lia.
Qed.
Lemma ex_mem_buffer : writable ex_mem 300 8.
Proof.
  apply writable_write, writable_write. intros a Ha. exists 0.
  replace a with (300 + Z.of_nat (Z.to_nat (a - 300))) by lia. apply write_lookup_in.
  apply lookup_replicate_2. lia.
Qed.

Example ex_tokens : (match collect 10 200 10 100 0 ex_mem with Ret ts _ => ts | _ => [] end) = [100; 102].
Proof. vm_compute. done. Qed.

Lemma strtok_r_tokens_witness : ∃ ts m',
  collect 10 200 10 100 0 ex_mem = Ret ts m' ∧ Forall2 (is_str m') ts [[97]; [98; 99]].
Proof.
  destruct (strtok_r_tokens 10 10 ex_mem 100 200 0 [comma] ex_str) as (ts & m' & H1 & H2 & _);
    [apply ex_mem_str|apply ex_mem_delims|simpl; lia..|]. by exists ts, m'.
Defined.

Lemma strstr_correct_witness : strstr 10 100 200 ex_mem = Ret 101 ex_mem.
Proof. apply (strstr_correct 10 ex_mem 100 200 ex_str [comma]); [apply ex_mem_str|apply ex_mem_delims|simpl; lia..]. Defined.

Lemma strlcat_correct_witness : ∃ m',
  (strlcpy 10 300 100 6;; strlcat 10 300 100 6) ex_mem = Ret 8 m' ∧ is_str m' 300 [97; 44; 98; 99; 97].
Proof.
  destruct (strlcat_correct 10 ex_mem 300 100 100 ex_str ex_str 6) as (m' & H1 & H2 & _);
    [apply ex_mem_str|apply ex_mem_str|simpl; lia..| |simpl; lia|simpl; lia|by exists m'].
  intros a Ha. apply ex_mem_buffer. lia.
Defined.

(** Moving "bc" and its terminator one down returns the end of the copy. *)
Lemma memmove_correct_witness : memmove 101 102 3 ex_mem = Ret 104 (write ex_mem 101 [98; 99; 0]).
Proof.
  apply (memmove_correct ex_mem 101 102 [98; 99; 0]); [done|done|by apply (bool_decide_unpack _)| |].
  - apply (bytes_at_app ex_mem 100 [97; comma] [98; 99; 0]), ex_mem_str.
  - intros a Ha. destruct (lookup_lt_is_Some_2 (ex_str ++ [0]) (Z.to_nat (a - 100))) as [c Hc]; [simpl in *; lia|].
    exists c. replace a with (100 + Z.of_nat (Z.to_nat (a - 100))) by lia. by apply (str_bytes _ _ _ ex_mem_str).
Defined.
