(* ===== verification/PintosList.v ===== *)
(** The intrusive doubly linked list of src/bin/OS/pintos/src/lib/kernel/list.c:
    the operations on the store, the triples of each, and the correctness of the
    in-place merge sort.

    The store holds the pointer variables [prev] and [next] of the elements, so
    that an element at [e] is the two variables at [e~0] and [e~1].  A [struct
    list] at [l] is its two elements, [head] at [l~0] and [tail] at [l~1]. *)
From S2P Require Export HeapLogic.


(** * The operations *)

#[export] Instance M_fmap (S : Type) : FMap (M S) := λ A B f m, m ≫= λ a, mret (f a).

Section list_operations.
Context {N : Type} `{!Struct ptr N}.
Abbreviation heap := (gmap loc N).

(** [&elem->prev], [&elem->next], [&list->head], [&list->tail]. *)
Definition addr_prev (elem : ptr) : ptr := xO <$> elem.
Definition addr_next (elem : ptr) : ptr := xI <$> elem.
Definition addr_head (list : ptr) : ptr := xO <$> list.
Definition addr_tail (list : ptr) : ptr := xI <$> list.

Definition get_prev (elem : ptr) : M heap ptr := load (addr_prev elem).
Definition get_next (elem : ptr) : M heap ptr := load (addr_next elem).
Definition set_prev (elem p : ptr) : M heap unit := store (addr_prev elem) p.
Definition set_next (elem p : ptr) : M heap unit := store (addr_next elem) p.

(** [m && m'] and [m || m'], from left to right. *)
Definition M_and (m m' : M heap bool) : M heap bool := b ← m; if (b : bool) then m' else mret false.
Definition M_or (m m' : M heap bool) : M heap bool := b ← m; if (b : bool) then mret true else m'.
Definition not_null (p : ptr) : bool := bool_decide (p ≠ NULL).
Definition is_null (p : ptr) : bool := bool_decide (p = NULL).
Definition ASSERT_M (m : M heap bool) : M heap unit := b ← m; ASSERT (b : bool).

Definition is_head (elem : ptr) : M heap bool :=
  M_and (mret (not_null elem)) (M_and (is_null <$> get_prev elem) (not_null <$> get_next elem)).
Definition is_interior (elem : ptr) : M heap bool :=
  M_and (mret (not_null elem)) (M_and (not_null <$> get_prev elem) (not_null <$> get_next elem)).
Definition is_tail (elem : ptr) : M heap bool :=
  M_and (mret (not_null elem)) (M_and (not_null <$> get_prev elem) (is_null <$> get_next elem)).

Definition list_init (list : ptr) : M heap unit :=
  ASSERT (not_null list);;
  set_prev (addr_head list) NULL;;
  set_next (addr_head list) (addr_tail list);;
  set_prev (addr_tail list) (addr_head list);;
  set_next (addr_tail list) NULL.

Definition list_begin (list : ptr) : M heap ptr :=
  ASSERT (not_null list);; get_next (addr_head list).
Definition list_next (elem : ptr) : M heap ptr :=
  ASSERT_M (M_or (is_head elem) (is_interior elem));; get_next elem.
Definition list_end (list : ptr) : M heap ptr :=
  ASSERT (not_null list);; mret (addr_tail list).
Definition list_rbegin (list : ptr) : M heap ptr :=
  ASSERT (not_null list);; get_prev (addr_tail list).
Definition list_prev (elem : ptr) : M heap ptr :=
  ASSERT_M (M_or (is_interior elem) (is_tail elem));; get_prev elem.
Definition list_rend (list : ptr) : M heap ptr :=
  ASSERT (not_null list);; mret (addr_head list).
Definition list_head (list : ptr) : M heap ptr :=
  ASSERT (not_null list);; mret (addr_head list).
Definition list_tail (list : ptr) : M heap ptr :=
  ASSERT (not_null list);; mret (addr_tail list).

Definition list_insert (before elem : ptr) : M heap unit :=
  ASSERT_M (M_or (is_interior before) (is_tail before));;
  ASSERT (not_null elem);;
  p ← get_prev before; set_prev elem p;;
  set_next elem before;;
  p ← get_prev before; set_next p elem;;
  set_prev before elem.

(** The assignments of [list_splice], where [last] is the last element to move. *)
Definition splice_links (before first last : ptr) : M heap unit :=
  p ← get_prev first; n ← get_next last; set_next p n;;
  n ← get_next last; p ← get_prev first; set_prev n p;;
  p ← get_prev before; set_prev first p;;
  set_next last before;;
  p ← get_prev before; set_next p first;;
  set_prev before last.

Definition list_splice (before first last : ptr) : M heap unit :=
  ASSERT_M (M_or (is_interior before) (is_tail before));;
  if bool_decide (first = last) then mret tt
  else
    last ← list_prev last;
    ASSERT_M (is_interior first);;
    ASSERT_M (is_interior last);;
    splice_links before first last.

Definition list_push_front (list elem : ptr) : M heap unit :=
  b ← list_begin list; list_insert b elem.
Definition list_push_back (list elem : ptr) : M heap unit :=
  e ← list_end list; list_insert e elem.

Definition list_remove (elem : ptr) : M heap ptr :=
  ASSERT_M (is_interior elem);;
  p ← get_prev elem; n ← get_next elem; set_next p n;;
  n ← get_next elem; p ← get_prev elem; set_prev n p;;
  get_next elem.

Definition list_empty (list : ptr) : M heap bool :=
  b ← list_begin list; e ← list_end list; mret (bool_decide (b = e)).

Definition list_front (list : ptr) : M heap ptr :=
  ASSERT_M (negb <$> list_empty list);; get_next (addr_head list).
Definition list_back (list : ptr) : M heap ptr :=
  ASSERT_M (negb <$> list_empty list);; get_prev (addr_tail list).

Definition list_pop_front (list : ptr) : M heap ptr :=
  front ← list_front list; list_remove front;; mret front.
Definition list_pop_back (list : ptr) : M heap ptr :=
  back ← list_back list; list_remove back;; mret back.

(** [for (e = ...; e != list_end(list); e = list_next(e)) body], where [body] may
    leave the loop with a result; [s] are the variables it changes. *)
Definition for_each {A} (fuel : nat) (list : ptr) (body : ptr → A → M heap (A + A)) (e : ptr) (s : A) : M heap (ptr * A) :=
  loop fuel (λ '(e, s),
    e' ← list_end list;
    if bool_decide (e ≠ e') then
      r ← body e s;
      match r with
      | inl s => e ← list_next e; mret (inl (e, s))
      | inr s => mret (inr (e, s))
      end
    else mret (inr (e, s))) (e, s).

Definition list_size (fuel : nat) (list : ptr) : M heap Z :=
  b ← list_begin list;
  r ← for_each fuel list (λ _ cnt, mret (inl (wrap_u 32 (cnt + 1)))) b 0%Z;
  mret r.2.

(** The arguments are the addresses of two pointer variables. *)
Definition swap (a b : ptr) : M heap unit :=
  t ← load (T := ptr) a; u ← load (T := ptr) b; store a u;; store b t.

Definition list_reverse (fuel : nat) (list : ptr) : M heap unit :=
  empty ← list_empty list;
  if negb (empty : bool) then
    b ← list_begin list;
    loop fuel (λ e,
      e' ← list_end list;
      if bool_decide (e ≠ e') then
        swap (addr_prev e) (addr_next e);; e ← get_prev e; mret (inl e)
      else mret (inr tt)) b;;
    swap (addr_next (addr_head list)) (addr_prev (addr_tail list));;
    h ← get_next (addr_head list); t ← get_prev (addr_tail list);
    swap (addr_prev h) (addr_next t)
  else mret tt.

(** [list_less_func], with its auxiliary data. *)
Abbreviation list_less_func := (option (ptr * ptr * ptr → M heap bool)).

Section ordered.
Context (fuel : nat) (less : list_less_func) (aux : ptr).

Definition is_sorted (a b : ptr) : M heap bool :=
  if bool_decide (a ≠ b) then
    loop fuel (λ a,
      a ← list_next a;
      if bool_decide (a ≠ b) then
        p ← list_prev a; r ← call less (a, p, aux);
        mret (if (r : bool) then inr false else inl a)
      else mret (inr true)) a
  else mret true.

Definition find_end_of_run (a b : ptr) : M heap ptr :=
  ASSERT (not_null a);; ASSERT (not_null b);; ASSERT (is_fn less);; ASSERT (bool_decide (a ≠ b));;
  loop fuel (λ a,
    a ← list_next a;
    if bool_decide (a ≠ b) then
      p ← list_prev a; r ← call less (a, p, aux);
      mret (if (r : bool) then inr a else inl a)
    else mret (inr a)) a.

Definition inplace_merge (a0 a1b0 b1 : ptr) : M heap unit :=
  ASSERT (not_null a0);; ASSERT (not_null a1b0);; ASSERT (not_null b1);; ASSERT (is_fn less);;
  ASSERT_M (is_sorted a0 a1b0);; ASSERT_M (is_sorted a1b0 b1);;
  loop fuel (λ '(a0, a1b0),
    if bool_decide (a0 ≠ a1b0) && bool_decide (a1b0 ≠ b1) then
      r ← call less (a1b0, a0, aux);
      if negb r then
        a0 ← list_next a0; mret (inl (a0, a1b0))
      else
        a1b0 ← list_next a1b0;
        p ← list_prev a1b0;
        list_splice a0 p a1b0;;
        mret (inl (a0, a1b0))
    else mret (inr tt)) (a0, a1b0).

(** One round of a pass over the list: find two runs from [a0] on and merge them. *)
Definition sort_round (list : ptr) '(a0, output_run_cnt) : M heap (ptr * Z + Z) :=
  e ← list_end list;
  if bool_decide (a0 ≠ e) then
    let output_run_cnt := wrap_u 32 (output_run_cnt + 1) in
    e ← list_end list;
    a1b0 ← find_end_of_run a0 e;
    e ← list_end list;
    if bool_decide (a1b0 = e) then mret (inr output_run_cnt)
    else
      e ← list_end list;
      b1 ← find_end_of_run a1b0 e;
      inplace_merge a0 a1b0 b1;;
      mret (inl (b1, output_run_cnt))
  else mret (inr output_run_cnt).

(** A pass over the list; the result is [output_run_cnt]. *)
Definition sort_pass (list : ptr) : M heap Z :=
  a0 ← list_begin list;
  loop fuel (sort_round list) (a0, 0%Z).

Definition list_sort (list : ptr) : M heap unit :=
  ASSERT (not_null list);; ASSERT (is_fn less);;
  loop fuel (λ _,
    output_run_cnt ← sort_pass list;
    mret (if bool_decide (output_run_cnt > 1)%Z then inl tt else inr tt)) tt;;
  ASSERT_M (b ← list_begin list; e ← list_end list; is_sorted b e).

Definition list_insert_ordered (list elem : ptr) : M heap unit :=
  ASSERT (not_null list);; ASSERT (not_null elem);; ASSERT (is_fn less);;
  b ← list_begin list;
  r ← for_each fuel list (λ e _, r ← call less (elem, e, aux); mret (if (r : bool) then inr tt else inl tt)) b tt;
  list_insert r.1 elem.

Definition list_unique (list duplicates : ptr) : M heap unit :=
  ASSERT (not_null list);; ASSERT (is_fn less);;
  empty ← list_empty list;
  if (empty : bool) then mret tt
  else
    b ← list_begin list;
    loop fuel (λ elem,
      next ← list_next elem;
      e ← list_end list;
      if bool_decide (next ≠ e) then
        same ← M_and (negb <$> call less (elem, next, aux)) (negb <$> call less (next, elem, aux));
        if (same : bool) then
          list_remove next;;
          (if not_null duplicates then list_push_back duplicates next else mret tt);;
          mret (inl elem)
        else mret (inl next)
      else mret (inr tt)) b.

(** The loop of [list_max] and [list_min]: [better m e] says to take [e] for [m]. *)
Definition list_extreme (list : ptr) (better : ptr → ptr → M heap bool) : M heap ptr :=
  m ← list_begin list;
  e ← list_end list;
  if bool_decide (m ≠ e) then
    n ← list_next m;
    r ← for_each fuel list (λ e m, r ← better m e; mret (inl (if (r : bool) then e else m))) n m;
    mret r.2
  else mret m.

Definition list_max (list : ptr) : M heap ptr := list_extreme list (λ m e, call less (m, e, aux)).
Definition list_min (list : ptr) : M heap ptr := list_extreme list (λ m e, call less (e, m, aux)).
End ordered.
End list_operations.

(** * Chains of elements *)

Section representation.
Context {N : Type} `{!Struct ptr N}.

(** [a] and [b] point to each other; [links] has neighbours linked. *)
Definition link (a b : ptr) : hpropI N :=
  (match a with Some x => x~1 ↦ b | None => emp end ∗ match b with Some y => y~0 ↦ a | None => emp end)%positive%I.
Fixpoint links (ps : list ptr) : hpropI N :=
  match ps with
  | a :: ps' => match ps' with b :: _ => link a b ∗ links ps' | [] => emp end
  | [] => emp
  end%I.

(** The elements [zs], from a head to a tail; the list at [l] with the interior
    elements [xs]; an element that is in no list. *)
Definition chain (zs : list loc) : hpropI N := links (NULL :: (Some <$> zs) ++ [NULL]).
Definition is_list (l : loc) (xs : list loc) : hpropI N := chain (l~0 :: xs ++ [l~1])%positive.
Definition elem (e : loc) : hpropI N := (∃ p n : ptr, e~0 ↦ p ∗ e~1 ↦ n)%positive%I.

(** A place for a pointer variable, and for an element, whatever is there. *)
Definition space (l : loc) : hpropI N := (∃ c : N, ⌈is_Some (unpack (T := ptr) c)⌉ ∗ l ↦ c)%I.
Definition elem_space (e : loc) : hpropI N := (space e~0 ∗ space e~1)%positive%I.

Lemma ptr_to_space l (p : ptr) : l ↦ p ⊢ space l.
Proof.
  iIntros "H". iExists (pack p). iSplit; [|iExact "H"]. iPureIntro. rewrite unpack_pack. by eexists.
Qed.

Lemma elem_to_space e : elem e ⊢ elem_space e.
Proof. iIntros "(% & % & H1 & H2)". iSplitL "H1"; by iApply ptr_to_space. Qed.

Lemma wp_store_space l (y : ptr) Φ Ψ : space l -∗ (l ↦ y -∗ Φ tt) -∗ wp (N := N) (store (Some l) y) Φ Ψ.
Proof. iIntros "(%c & %Hc & Hl) H". by iApply (wp_store_over with "Hl H"). Qed.

Lemma links_cons a b ps : links (a :: b :: ps) ⊣⊢ link a b ∗ links (b :: ps).
Proof. done. Qed.

Lemma links_app ps a qs : links (ps ++ a :: qs) ⊣⊢ links (ps ++ [a]) ∗ links (a :: qs).
Proof.
  induction ps as [|b ps IH]; simpl app; [by rewrite left_id|].
  destruct ps as [|c ps]; simpl app in *; rewrite !links_cons.
  - iSplit; [iIntros "[$ $]"|iIntros "[[$ _] $]"].
  - by rewrite IH assoc.
Qed.

Lemma links_app2 ps a b qs : links (ps ++ a :: b :: qs) ⊣⊢ links (ps ++ [a]) ∗ link a b ∗ links (b :: qs).
Proof. by rewrite links_app links_cons. Qed.

(** A chain with an element in sight. *)
Lemma chain_eq u v : chain (u ++ v) = links ((NULL :: (Some <$> u)) ++ (Some <$> v) ++ [NULL]).
Proof. by rewrite /chain fmap_app -app_assoc. Qed.

Lemma links_prev_in x xs a qs : x ∈ xs →
  links (a :: (Some <$> xs) ++ qs) ⊢ ∃ v : ptr, (x~0)%positive ↦ v ∗ True.
Proof.
  revert a. induction xs as [|y xs IH]; intros a Hx; [by apply not_elem_of_nil in Hx|].
  rewrite fmap_cons. cbn [app]. rewrite links_cons. iIntros "[[_ H] Hs]".
  apply elem_of_cons in Hx as [->|Hx]; [iExists a; by iFrame|].
  iDestruct (IH (Some y) Hx with "Hs") as (v) "[Hx _]". iExists v. by iFrame.
Qed.

Lemma links_NoDup a xs qs : links (a :: (Some <$> xs) ++ qs) ⊢ ⌜NoDup xs⌝.
Proof.
  revert a. induction xs as [|x xs IH]; intros a; [iIntros "_"; iPureIntro; constructor|].
  rewrite fmap_cons. cbn [app]. rewrite links_cons. iIntros "[[_ H] Hs]".
  iAssert ⌜x ∉ xs⌝%I as %Hx.
  { iIntros (Hx). iDestruct (links_prev_in x xs _ _ Hx with "Hs") as (v) "[Hx _]".
    by iDestruct (points_to_ne with "H Hx") as %?. }
  iDestruct (IH with "Hs") as %Hnd. iPureIntro. by constructor.
Qed.

Lemma chain_NoDup zs : chain zs ⊢ ⌜NoDup zs⌝.
Proof. apply links_NoDup. Qed.

Lemma is_list_NoDup l xs : is_list l xs ⊢ ⌜NoDup (xs ++ [l~1]%positive)⌝.
Proof. unfold is_list. iIntros "H". iDestruct (chain_NoDup with "H") as %H. iPureIntro. by apply NoDup_cons in H as [_ H]. Qed.

(** * Reading *)

Lemma wp_get_prev ps qs p x Φ Ψ :
  links (ps ++ p :: Some x :: qs) -∗ (links (ps ++ p :: Some x :: qs) -∗ Φ p) -∗ wp (get_prev (Some x)) Φ Ψ.
Proof.
  rewrite links_app2. iIntros "(H1 & [Hp Hx] & H2) HΦ". unfold get_prev; simpl.
  wp_focus. iApply (wp_load with "Hx"). iIntros "Hx". iApply "HΦ". iFrame.
Qed.

Lemma wp_get_next ps qs n x Φ Ψ :
  links (ps ++ Some x :: n :: qs) -∗ (links (ps ++ Some x :: n :: qs) -∗ Φ n) -∗ wp (get_next (Some x)) Φ Ψ.
Proof.
  rewrite links_app2. iIntros "(H1 & [Hp Hx] & H2) HΦ". unfold get_next; simpl.
  wp_focus. iApply (wp_load with "Hp"). iIntros "Hp". iApply "HΦ". iFrame.
Qed.

Lemma wp_fmap {A B} (f : A → B) (m : M (gmap loc N) A) Φ Ψ : wp m (λ a, Φ (f a)) Ψ ⊢ wp (f <$> m) Φ Ψ.
Proof.
  iIntros "H". unfold fmap, M_fmap. iApply wp_bind. iApply (wp_wand with "H").
  iSplit; [|by iIntros (e) "$"]. iIntros (a) "H". by iApply wp_ret.
Qed.

(** What the kind of an element is, from its neighbours. *)
Lemma wp_neighbours ps qs p x n (f g : ptr → bool) Φ Ψ :
  links (ps ++ p :: Some x :: n :: qs) -∗
  (links (ps ++ p :: Some x :: n :: qs) -∗ Φ (f p && g n)) -∗
  wp (M_and (mret (not_null (Some x))) (M_and (f <$> get_prev (Some x)) (g <$> get_next (Some x)))) Φ Ψ.
Proof.
  iIntros "H HΦ". unfold M_and, not_null. rewrite bool_decide_true //. wp_finish.
  iApply wp_bind. iApply wp_fmap. iApply (wp_get_prev with "H"). iIntros "H".
  destruct (f p); [|iApply wp_ret; by iApply "HΦ"].
  iApply wp_fmap. rewrite app_cons_assoc. iApply (wp_get_next with "H"). iIntros "H". by iApply "HΦ".
Qed.

Lemma wp_ASSERT_M m Φ Ψ : wp m (λ b : bool, ⌈b = true⌉ ∗ Φ tt)%I Ψ ⊢ wp (N := N) (ASSERT_M m) Φ Ψ.
Proof.
  iIntros "H". unfold ASSERT_M. iApply wp_bind. iApply (wp_wand with "H").
  iSplit; [|by iIntros (e) "$"]. iIntros (b) "[-> H]". by iApply wp_ret.
Qed.

Lemma wp_M_or m m' Φ Ψ :
  wp m (λ b : bool, if b then Φ true else wp m' Φ Ψ) Ψ ⊢ wp (N := N) (M_or m m') Φ Ψ.
Proof.
  iIntros "H". unfold M_or. iApply wp_bind. iApply (wp_wand with "H").
  iSplit; [|by iIntros (e) "$"]. iIntros (b) "H". destruct b; [by iApply wp_ret|done].
Qed.

(** An element of a chain and its neighbours: [last u] and [head v] are [NULL]
    at the ends. *)
Lemma chain_at u x v : ∃ ps qs, chain (u ++ x :: v) = links (ps ++ last u :: Some x :: head v :: qs).
Proof.
  destruct (snoc_inv u) as [->|(u' & w & ->)]; [exists [] | exists (NULL :: (Some <$> u'))];
    (destruct v as [|y v]; [exists [] | exists ((Some <$> v) ++ [NULL])]);
    by rewrite chain_eq ?last_snoc ?fmap_app /= -?app_assoc.
Qed.

Lemma wp_elem_prev u x v Φ Ψ :
  chain (u ++ x :: v) -∗ (chain (u ++ x :: v) -∗ Φ (last u)) -∗ wp (get_prev (Some x)) Φ Ψ.
Proof. destruct (chain_at u x v) as (ps & qs & ->). apply wp_get_prev. Qed.

Lemma wp_elem_next u x v Φ Ψ :
  chain (u ++ x :: v) -∗ (chain (u ++ x :: v) -∗ Φ (head v)) -∗ wp (get_next (Some x)) Φ Ψ.
Proof. destruct (chain_at u x v) as (ps & qs & ->). rewrite app_cons_assoc. apply wp_get_next. Qed.

Lemma wp_kind u x v (f g : ptr → bool) Φ Ψ :
  chain (u ++ x :: v) -∗ (chain (u ++ x :: v) -∗ Φ (f (last u) && g (head v))) -∗
  wp (M_and (mret (not_null (Some x))) (M_and (f <$> get_prev (Some x)) (g <$> get_next (Some x)))) Φ Ψ.
Proof. destruct (chain_at u x v) as (ps & qs & ->). apply wp_neighbours. Qed.

(** The assertions [is_head || is_interior], [is_interior || is_tail] and
    [is_interior] of an element that has the neighbours they ask for. *)
Lemma wp_has_next zs u x y v Φ Ψ : zs = u ++ x :: y :: v →
  chain zs -∗ (chain zs -∗ Φ tt) -∗
  wp (ASSERT_M (M_or (is_head (Some x)) (is_interior (Some x)))) Φ Ψ.
Proof.
  intros ->. iIntros "H HΦ". iApply wp_ASSERT_M. iApply wp_M_or. iApply (wp_kind with "H"). iIntros "H".
  unfold is_null, not_null. rewrite (bool_decide_true (head _ ≠ NULL)) // andb_true_r.
  case_bool_decide; [iSplit; [done|by iApply "HΦ"]|].
  iApply (wp_kind with "H"). iIntros "H". unfold not_null. rewrite !bool_decide_true //.
  iSplit; [done|by iApply "HΦ"].
Qed.

Lemma wp_has_prev zs u x y v Φ Ψ : zs = u ++ x :: y :: v →
  chain zs -∗ (chain zs -∗ Φ tt) -∗
  wp (ASSERT_M (M_or (is_interior (Some y)) (is_tail (Some y)))) Φ Ψ.
Proof.
  intros ->. rewrite app_cons_assoc.
  iIntros "H HΦ". iApply wp_ASSERT_M. iApply wp_M_or. iApply (wp_kind with "H"). iIntros "H".
  unfold is_null, not_null. rewrite last_snoc (bool_decide_true (Some x ≠ NULL)) //. cbn [andb].
  case_bool_decide; [iSplit; [done|by iApply "HΦ"]|].
  iApply (wp_kind with "H"). iIntros "H". unfold is_null, not_null. rewrite last_snoc bool_decide_true //.
  rewrite bool_decide_true; [|by destruct (decide (head v = NULL))]. iSplit; [done|by iApply "HΦ"].
Qed.

Lemma wp_interior zs u x y z v Φ Ψ : zs = u ++ x :: y :: z :: v →
  chain zs -∗ (chain zs -∗ Φ tt) -∗
  wp (ASSERT_M (is_interior (Some y))) Φ Ψ.
Proof.
  intros ->. rewrite app_cons_assoc. iIntros "H HΦ". iApply wp_ASSERT_M. iApply (wp_kind with "H"). iIntros "H".
  unfold not_null. rewrite last_snoc !bool_decide_true //. iSplit; [done|by iApply "HΦ"].
Qed.

Lemma wp_list_next zs u x y v Φ Ψ : zs = u ++ x :: y :: v →
  chain zs -∗ (chain zs -∗ Φ (Some y)) -∗ wp (list_next (Some x)) Φ Ψ.
Proof.
  intros ->. iIntros "H HΦ". unfold list_next. iApply wp_bind. iApply (wp_has_next with "H"); [done|]. iIntros "H".
  by iApply (wp_elem_next with "H").
Qed.

Lemma wp_list_prev zs u x y v Φ Ψ : zs = u ++ x :: y :: v →
  chain zs -∗ (chain zs -∗ Φ (Some x)) -∗ wp (list_prev (Some y)) Φ Ψ.
Proof.
  intros ->. iIntros "H HΦ". unfold list_prev. iApply wp_bind. iApply (wp_has_prev with "H"); [done|]. iIntros "H".
  rewrite app_cons_assoc. iApply (wp_elem_prev with "H"). by rewrite last_snoc.
Qed.

(** * Insertion, removal and splicing *)

(** Equations between concatenations. *)
Local Ltac lists := repeat progress (simpl; rewrite -?app_assoc); done.

Local Ltac fields :=
  unfold get_prev, set_prev, get_next, set_next, addr_prev, addr_next, addr_head, addr_tail.

Lemma wp_ASSERT_ptr x Φ Ψ : Φ tt ⊢ wp (N := N) (ASSERT (not_null (Some x))) Φ Ψ.
Proof. apply wp_ret. Qed.

(** The cells of a link can be set one by one. *)
Lemma chain_link u x y v :
  chain (u ++ x :: y :: v) ⊣⊢
  links ((NULL :: (Some <$> u)) ++ [Some x]) ∗ link (Some x) (Some y) ∗ links (Some y :: (Some <$> v) ++ [NULL]).
Proof. rewrite chain_eq. apply links_app2. Qed.

Lemma list_insert_space_spec u p b v e :
  ⦃ chain (u ++ p :: b :: v) ∗ elem_space e ⦄ list_insert (Some b) (Some e) ⦃ _u, chain (u ++ p :: e :: b :: v) ⦄.
Proof.
  unfold hoare, list_insert. iIntros "[H [Hep Hen]]". iApply wp_bind. iApply (wp_has_prev with "H"); [done|]. iIntros "H".
  wp_focus. iApply wp_ASSERT_ptr. rewrite chain_link. iDestruct "H" as "(H1 & [Hp Hb] & H2)". fields.
  wp_load "Hb". wp_focus. iApply (wp_store_space with "Hep"). iIntros "Hep".
  wp_focus. iApply (wp_store_space with "Hen"). iIntros "Hen". wp_load "Hb". wp_store "Hp".
  iApply (wp_store with "Hb"). iIntros "Hb".
  rewrite chain_link links_cons. iFrame.
Qed.

Lemma list_insert_spec u p b v e :
  ⦃ chain (u ++ p :: b :: v) ∗ elem e ⦄ list_insert (Some b) (Some e) ⦃ _u, chain (u ++ p :: e :: b :: v) ⦄.
Proof. unfold hoare. rewrite elem_to_space. apply list_insert_space_spec. Qed.

Lemma list_remove_spec u p e n v :
  ⦃ chain (u ++ p :: e :: n :: v) ⦄ list_remove (Some e) ⦃ r, ⌈r = Some n⌉ ∗ chain (u ++ p :: n :: v) ∗ elem e ⦄.
Proof.
  unfold hoare, list_remove. iIntros "H". iApply wp_bind. iApply (wp_interior with "H"); [done|]. iIntros "H".
  rewrite chain_link links_cons. iDestruct "H" as "(H1 & [Hp Hep] & [Hen Hn] & H2)".
  fields.
  wp_load "Hep". wp_load "Hen". wp_store "Hp". wp_load "Hen". wp_load "Hep". wp_store "Hn".
  iApply (wp_load with "Hen"). iIntros "Hen". iSplit; [done|].
  rewrite chain_link. iFrame.
Qed.

Lemma splice_links_spec p b q f m z :
  ⦃ link (Some p) (Some b) ∗ link (Some q) (Some f) ∗ link (Some m) (Some z) ⦄
  splice_links (Some b) (Some f) (Some m)
  ⦃ _u, link (Some p) (Some f) ∗ link (Some m) (Some b) ∗ link (Some q) (Some z) ⦄.
Proof.
  unfold hoare, splice_links. iIntros "([Hp Hb] & [Hq Hf] & [Hm Hz])". fields.
  wp_load "Hf". wp_load "Hm". wp_store "Hq". wp_load "Hm". wp_load "Hf". wp_store "Hz".
  wp_load "Hb". wp_store "Hf". wp_store "Hm". wp_load "Hb". wp_store "Hp".
  iApply (wp_store with "Hb"). iIntros "Hb". unfold link. iFrame.
Qed.

Lemma links_block a xs b qs : xs ≠ [] →
  links (a :: (Some <$> xs) ++ b :: qs) ⊣⊢
  link a (head xs) ∗ links (Some <$> xs) ∗ link (last xs) b ∗ links (b :: qs).
Proof.
  intros Hne. destruct xs as [|x xs]; [done|]. rewrite fmap_cons. cbn [app head]. rewrite links_cons.
  f_equiv. destruct (snoc_inv (x :: xs)) as [Hx|(ys & y & Hx)]; [done|].
  rewrite app_comm_cons -fmap_cons Hx last_snoc fmap_app -app_assoc /=. apply links_app2.
Qed.

(** A chain with a block of elements in it. *)
Lemma chain_block u p B z v : B ≠ [] →
  chain (u ++ p :: B ++ z :: v) ⊣⊢
  links ((NULL :: (Some <$> u)) ++ [Some p]) ∗ link (Some p) (head B) ∗ links (Some <$> B) ∗
  link (last B) (Some z) ∗ links (Some z :: (Some <$> v) ++ [NULL]).
Proof.
  intros HB. trans (links ((NULL :: (Some <$> u)) ++ Some p :: (Some <$> B) ++ Some z :: (Some <$> v) ++ [NULL])).
  { by rewrite chain_eq fmap_cons fmap_app /= -app_assoc. }
  rewrite links_app. f_equiv.
  by apply links_block.
Qed.

Lemma chain_two_blocks u p B F z v : B ≠ [] → F ≠ [] →
  chain (u ++ p :: B ++ F ++ z :: v) ⊣⊢
  links ((NULL :: (Some <$> u)) ++ [Some p]) ∗ (link (Some p) (head B) ∗ link (last B) (head F) ∗ link (last F) (Some z)) ∗
  (links (Some <$> B) ∗ links (Some <$> F)) ∗ links (Some z :: (Some <$> v) ++ [NULL]).
Proof.
  intros HB HF. replace (u ++ p :: B ++ F ++ z :: v) with (u ++ p :: (B ++ F) ++ z :: v) by lists.
  rewrite chain_block; [|by destruct B].
  destruct (snoc_inv B) as [->|(B0 & q & EB)]; [done|]. destruct F as [|f F]; [done|].
  assert (head (B ++ f :: F) = head B) as -> by by destruct B.
  rewrite last_app_cons. rewrite (fmap_app _ B) fmap_cons EB fmap_app last_snoc -app_assoc /=.
  rewrite links_app2. iSplit; iIntros "($ & H)".
  - iDestruct "H" as "($ & ($ & $ & $) & $ & $)".
  - iDestruct "H" as "(($ & $ & $) & ($ & $) & $)".
Qed.

(** Moving the block [F] down over the block [B] before it. *)
Lemma list_splice_spec u p B F z v b f : head B = Some b → head F = Some f →
  ⦃ chain (u ++ p :: B ++ F ++ z :: v) ⦄ list_splice (Some b) (Some f) (Some z)
  ⦃ _u, chain (u ++ p :: F ++ B ++ z :: v) ⦄.
Proof.
  intros Hb Hf. unfold hoare, list_splice. iIntros "H".
  assert (∃ B', B = b :: B') as [B' EB] by (destruct B as [|? B']; simplify_eq/=; by eexists).
  assert (∃ F', F = f :: F') as [F' EF] by (destruct F as [|? F']; simplify_eq/=; by eexists).
  destruct (snoc_inv B) as [->|(B0 & q & EB0)]; [done|].
  destruct (snoc_inv F) as [->|(F0 & m & EF0)]; [done|].
  iDestruct (chain_NoDup with "H") as %Hnd.
  assert (f ≠ z) as Hfz.
  { rewrite EF in Hnd. intros <-. apply NoDup_app in Hnd as (_ & _ & Hnd). apply NoDup_cons in Hnd as [_ Hnd].
    apply NoDup_app in Hnd as (_ & _ & Hnd). cbn [app] in Hnd. apply NoDup_cons in Hnd as [Hnd _].
    apply Hnd, elem_of_app. right. apply elem_of_cons. by left. }
  set (zs := u ++ p :: B ++ F ++ z :: v).
  assert (zs = (u ++ p :: B ++ F0) ++ m :: z :: v) as Em by (rewrite /zs EF0; lists).
  assert (∃ u' x, zs = u' ++ x :: m :: z :: v) as (u' & x & Em').
  { destruct (snoc_inv (u ++ p :: B ++ F0)) as [Hnil|(u' & x & Hx)]; [by destruct u|].
    exists u', x. rewrite Em Hx. lists. }
  assert (∃ w ws, zs = (u ++ p :: B0) ++ q :: f :: w :: ws) as (w & ws & Ef).
  { destruct F' as [|w ws]; [exists z, v|exists w, (ws ++ z :: v)]; rewrite /zs EB0 EF; lists. }
  (* the assertions *)
  iApply wp_bind. iApply (wp_has_prev zs u p b with "H"); [by rewrite /zs EB|]. iIntros "H".
  rewrite bool_decide_false; [|congruence].
  iApply wp_bind. iApply (wp_list_prev with "H"); [exact Em|]. iIntros "H".
  iApply wp_bind. iApply (wp_interior with "H"); [exact Ef|]. iIntros "H".
  iApply wp_bind. iApply (wp_interior with "H"); [exact Em'|]. iIntros "H".
  (* the links that change *)
  assert (last B = Some q) as HlB by by rewrite EB0 last_snoc.
  assert (last F = Some m) as HlF by by rewrite EF0 last_snoc.
  rewrite /zs chain_two_blocks; [|by rewrite EB|by rewrite EF].
  rewrite Hb Hf HlB HlF. iDestruct "H" as "(H1 & Hlinks & [HB HF] & H2)".
  iApply (hoare_wp_ret with "Hlinks"); [apply splice_links_spec|]. iIntros ([]) "(Hpf & Hmb & Hqz)".
  rewrite chain_two_blocks; [|by rewrite EF|by rewrite EB].
  rewrite Hb Hf HlB HlF. iFrame.
Qed.

(** Moving the block [F] of one chain into another. *)
Lemma list_splice_other u p b v u' q F z v' f : head F = Some f →
  ⦃ chain (u ++ p :: b :: v) ∗ chain (u' ++ q :: F ++ z :: v') ⦄ list_splice (Some b) (Some f) (Some z)
  ⦃ _u, chain (u ++ p :: F ++ b :: v) ∗ chain (u' ++ q :: z :: v') ⦄.
Proof.
  intros Hf. unfold hoare, list_splice. iIntros "[Hc H]".
  assert (∃ F', F = f :: F') as [F' EF] by (destruct F as [|? F']; simplify_eq/=; by eexists).
  destruct (snoc_inv F) as [->|(F0 & m & EF0)]; [done|].
  set (zs := u' ++ q :: F ++ z :: v').
  assert (zs = (u' ++ q :: F0) ++ m :: z :: v') as Em by (rewrite /zs EF0; lists).
  assert (∃ u2 x, zs = u2 ++ x :: m :: z :: v') as (u2 & x & Em').
  { destruct (snoc_inv (u' ++ q :: F0)) as [Hnil|(u2 & x & Hx)]; [by destruct u'|].
    exists u2, x. rewrite Em Hx. lists. }
  assert (∃ w ws, zs = u' ++ q :: f :: w :: ws) as (w & ws & Ef).
  { destruct F' as [|w ws]; [exists z, v'|exists w, (ws ++ z :: v')]; rewrite /zs EF; lists. }
  iDestruct (chain_NoDup with "H") as %Hnd.
  assert (f ≠ z) as Hfz.
  { rewrite /zs EF in Hnd. intros <-. apply NoDup_app in Hnd as (_ & _ & Hnd). apply NoDup_cons in Hnd as [_ Hnd].
    cbn [app] in Hnd. apply NoDup_cons in Hnd as [Hnd _]. apply Hnd, elem_of_app. right. apply elem_of_cons. by left. }
  iApply wp_bind. iApply (wp_has_prev with "Hc"); [done|]. iIntros "Hc".
  rewrite bool_decide_false; [|congruence].
  iApply wp_bind. iApply (wp_list_prev with "H"); [exact Em|]. iIntros "H".
  iApply wp_bind. iApply (wp_interior with "H"); [exact Ef|]. iIntros "H".
  iApply wp_bind. iApply (wp_interior with "H"); [exact Em'|]. iIntros "H".
  assert (last F = Some m) as HlF by by rewrite EF0 last_snoc.
  rewrite /zs (chain_block u' q); [|by rewrite EF]. rewrite Hf HlF chain_link.
  iDestruct "Hc" as "(Hc1 & Hpb & Hc2)". iDestruct "H" as "(H1 & Hqf & HF & Hmz & H2)".
  iApply (hoare_wp_ret with "[Hpb Hqf Hmz]"); [apply (splice_links_spec p b q f m z)|iFrame|].
  iIntros ([]) "(Hpf & Hmb & Hqz)".
  rewrite (chain_block u p F); [|by rewrite EF]. rewrite Hf HlF chain_link. iFrame.
Qed.

(** * Lists *)

Section lists.
Context (l : loc).

Lemma list_init_spec : ⦃ elem l~0 ∗ elem l~1 ⦄ list_init (Some l) ⦃ _u, is_list l [] ⦄.
Proof.
  unfold hoare, list_init, elem. iIntros "[(%&%&H1&H2) (%&%&H3&H4)]".
  iApply wp_bind. iApply wp_ASSERT_ptr. fields.
  wp_store "H1". wp_store "H2". wp_store "H3". iApply (wp_store with "H4"). iIntros "H4".
  unfold is_list, chain. simpl. unfold link. iFrame.
Qed.

Lemma wp_list_begin xs Φ Ψ :
  is_list l xs -∗ (is_list l xs -∗ Φ (head (xs ++ [l~1]%positive))) -∗ wp (list_begin (Some l)) Φ Ψ.
Proof.
  iIntros "H HΦ". iApply wp_bind. iApply wp_ASSERT_ptr. unfold is_list.
  by iApply (wp_elem_next [] with "H").
Qed.

Lemma is_list_snoc xs : is_list l xs = chain ((l~0 :: xs)%positive ++ [l~1%positive]).
Proof. done. Qed.

Lemma wp_list_rbegin xs Φ Ψ :
  is_list l xs -∗ (is_list l xs -∗ Φ (last (l~0 :: xs)%positive)) -∗ wp (list_rbegin (Some l)) Φ Ψ.
Proof.
  iIntros "H HΦ". iApply wp_bind. iApply wp_ASSERT_ptr. rewrite !is_list_snoc.
  by iApply (wp_elem_prev (l~0 :: xs)%positive with "H").
Qed.

Lemma wp_list_end Φ Ψ : Φ (Some l~1%positive) ⊢ wp (N := N) (list_end (Some l)) Φ Ψ.
Proof. iIntros "H". iApply wp_bind. iApply wp_ASSERT_ptr. by iApply wp_ret. Qed.

(** The first of the elements [xs], or the tail. *)
Definition first (xs : list loc) : ptr := head (xs ++ [l~1]%positive).

Lemma first_end xs rest :
  is_list l (xs ++ rest) ⊢ ⌜first rest = Some l~1%positive ↔ rest = []⌝.
Proof.
  iIntros "H". iDestruct (is_list_NoDup with "H") as %Hnd. iPureIntro.
  rewrite -app_assoc in Hnd. apply NoDup_app in Hnd as (_ & _ & Hnd).
  destruct rest as [|x rest]; [done|]. split; [|done]. intros [= ->].
  apply NoDup_cons in Hnd as [Hnd _]. destruct Hnd. apply elem_of_app. right. apply elem_of_cons. by left.
Qed.

Lemma wp_list_empty xs Φ Ψ :
  is_list l xs -∗ (is_list l xs -∗ Φ (bool_decide (xs = []))) -∗ wp (list_empty (Some l)) Φ Ψ.
Proof.
  iIntros "H HΦ". iApply wp_bind. iApply (wp_list_begin with "H"). iIntros "H".
  iApply wp_bind. iApply wp_list_end. iDestruct (first_end [] xs with "H") as %E. unfold first in E.
  rewrite (bool_decide_ext _ _ E).
  iApply wp_ret. by iApply "HΦ".
Qed.

Lemma list_push_front_space_spec xs x :
  ⦃ is_list l xs ∗ elem_space x ⦄ list_push_front (Some l) (Some x) ⦃ _u, is_list l (x :: xs) ⦄.
Proof.
  unfold hoare, list_push_front. iIntros "[H Hx]". iApply wp_bind. iApply (wp_list_begin with "H"). iIntros "H".
  destruct xs as [|y xs].
  - by iApply (list_insert_space_spec [] (l~0)%positive _ [] x with "[$H $Hx]").
  - by iApply (list_insert_space_spec [] (l~0)%positive y (xs ++ [l~1]%positive) x with "[$H $Hx]").
Qed.

Lemma list_push_back_space_spec xs x :
  ⦃ is_list l xs ∗ elem_space x ⦄ list_push_back (Some l) (Some x) ⦃ _u, is_list l (xs ++ [x]) ⦄.
Proof.
  unfold hoare, list_push_back. iIntros "[H Hx]". iApply wp_bind. iApply wp_list_end.
  destruct (snoc_inv xs) as [->|(ys & y & ->)].
  - by iApply (list_insert_space_spec [] (l~0)%positive _ [] x with "[$H $Hx]").
  - unfold is_list. rewrite -!app_assoc. cbn [app].
    by iApply (list_insert_space_spec (l~0 :: ys)%positive y (l~1)%positive [] x with "[$H $Hx]").
Qed.

Lemma list_push_front_spec xs x :
  ⦃ is_list l xs ∗ elem x ⦄ list_push_front (Some l) (Some x) ⦃ _u, is_list l (x :: xs) ⦄.
Proof. unfold hoare. rewrite elem_to_space. apply list_push_front_space_spec. Qed.

Lemma list_push_back_spec xs x :
  ⦃ is_list l xs ∗ elem x ⦄ list_push_back (Some l) (Some x) ⦃ _u, is_list l (xs ++ [x]) ⦄.
Proof. unfold hoare. rewrite elem_to_space. apply list_push_back_space_spec. Qed.

Lemma is_list_cons xs : is_list l xs = chain ([] ++ (l~0)%positive :: xs ++ [l~1%positive]).
Proof. done. Qed.
Lemma is_list_mid ys x zs :
  is_list l (ys ++ x :: zs) = chain ((l~0 :: ys)%positive ++ x :: zs ++ [l~1%positive]).
Proof. unfold is_list. by rewrite -app_assoc. Qed.

(** Removing any element gives the one that follows, or the tail. *)
Lemma list_remove_at ys x zs :
  ⦃ is_list l (ys ++ x :: zs) ⦄ list_remove (Some x)
  ⦃ r, ⌈r = first zs⌉ ∗ is_list l (ys ++ zs) ∗ elem x ⦄.
Proof.
  assert (∃ u p, (l~0 :: ys)%positive = u ++ [p]) as (u & p & Hp).
  { destruct (snoc_inv (l~0 :: ys)%positive) as [|(u & p & ->)]; [done|]. by exists u, p. }
  unfold hoare. rewrite is_list_mid Hp -app_assoc.
  assert (∃ n v, zs ++ [l~1]%positive = n :: v) as (n & v & Hn).
  { destruct zs as [|n v]; [by eexists _, _|by exists n, (v ++ [l~1]%positive)]. }
  rewrite Hn. iIntros "H". iApply (hoare_wp_ret with "H"); [apply list_remove_spec|].
  iIntros (r) "(-> & H & $)". unfold first. rewrite Hn. iSplit; [done|].
  unfold is_list. rewrite -app_assoc Hn app_comm_cons Hp -app_assoc. iFrame.
Qed.

Lemma wp_nonempty xs Φ Ψ :
  is_list l xs -∗ (is_list l xs -∗ if bool_decide (xs = []) then Ψ Assert_Failed else Φ tt) -∗
  wp (ASSERT_M (negb <$> list_empty (Some l))) Φ Ψ.
Proof.
  iIntros "H HΦ". unfold ASSERT_M. iApply wp_bind. iApply wp_fmap. iApply (wp_list_empty with "H").
  iIntros "H". iSpecialize ("HΦ" with "H").
  case_bool_decide; simpl; [by iApply wp_throw|by iApply wp_ret].
Qed.

(** On the empty list the assertion fails. *)
Lemma list_front_spec xs :
  ⦃ is_list l xs ⦄ list_front (Some l)
  ⦃ r, ⌈xs ≠ [] ∧ r = head xs⌉ ∗ is_list l xs | e, ⌈xs = [] ∧ e = Assert_Failed⌉ ∗ is_list l xs ⦄.
Proof.
  unfold hoare, list_front. iIntros "H". iApply wp_bind. iApply (wp_nonempty with "H"). iIntros "H".
  case_bool_decide as Hxs; [by iFrame|]. rewrite is_list_cons.
  iApply (wp_elem_next with "H"). iIntros "$". iPureIntro. split; [done|by destruct xs].
Qed.

Lemma list_back_spec xs :
  ⦃ is_list l xs ⦄ list_back (Some l)
  ⦃ r, ⌈xs ≠ [] ∧ r = last xs⌉ ∗ is_list l xs | e, ⌈xs = [] ∧ e = Assert_Failed⌉ ∗ is_list l xs ⦄.
Proof.
  unfold hoare, list_back. iIntros "H". iApply wp_bind. iApply (wp_nonempty with "H"). iIntros "H".
  case_bool_decide as Hxs; [by iFrame|]. rewrite is_list_snoc.
  iApply (wp_elem_prev with "H"). iIntros "$". iPureIntro. split; [done|by destruct xs].
Qed.

Lemma list_pop_front_spec xs :
  ⦃ is_list l xs ⦄ list_pop_front (Some l)
  ⦃ r, ∃ x ys, ⌈xs = x :: ys ∧ r = Some x⌉ ∗ is_list l ys ∗ elem x | e, ⌈xs = [] ∧ e = Assert_Failed⌉ ∗ is_list l xs ⦄.
Proof.
  unfold hoare, list_pop_front. iIntros "H". iApply wp_bind.
  iApply (hoare_wp with "H"); [apply list_front_spec|]. iSplit; [|by iIntros (e) "$"].
  iIntros (r) "[[%Hne ->] H]". destruct xs as [|x xs]; [done|]. simpl.
  iApply wp_bind. iApply (hoare_wp_ret with "H"); [apply (list_remove_at [])|].
  iIntros (r) "(_ & H & Hx)". iApply wp_ret. iExists x, xs. by iFrame.
Qed.

Lemma list_pop_back_spec xs :
  ⦃ is_list l xs ⦄ list_pop_back (Some l)
  ⦃ r, ∃ x ys, ⌈xs = ys ++ [x] ∧ r = Some x⌉ ∗ is_list l ys ∗ elem x | e, ⌈xs = [] ∧ e = Assert_Failed⌉ ∗ is_list l xs ⦄.
Proof.
  unfold hoare, list_pop_back. iIntros "H". iApply wp_bind.
  iApply (hoare_wp with "H"); [apply list_back_spec|]. iSplit; [|by iIntros (e) "$"].
  iIntros (r) "[[%Hne ->] H]". destruct (snoc_inv xs) as [->|(ys & x & ->)]; [done|]. rewrite last_snoc.
  iApply wp_bind. iApply (hoare_wp_ret with "H"); [apply (list_remove_at ys x [])|].
  iIntros (r) "(_ & H & Hx)". rewrite app_nil_r. iApply wp_ret. iExists x, ys. by iFrame.
Qed.

(** * Loops over a list *)

Lemma wp_list_next_at ys x zs Φ Ψ :
  is_list l (ys ++ x :: zs) -∗ (is_list l (ys ++ x :: zs) -∗ Φ (first zs)) -∗ wp (list_next (Some x)) Φ Ψ.
Proof.
  iIntros "H HΦ". destruct zs as [|z zs]; rewrite !is_list_mid; by iApply (wp_list_next with "H").
Qed.

(** What a loop with [step] as its body does: the elements it has not passed
    when it stops, and its result. *)
Fixpoint scan {A} (step : loc → A → A + A) (xs : list loc) (s : A) : list loc * A :=
  match xs with
  | [] => ([], s)
  | x :: xs => match step x s with inl s => scan step xs s | inr s => (x :: xs, s) end
  end.

Lemma for_each_spec {A} fuel body (step : loc → A → A + A) (I : A → Prop) (R : hpropI N) ys xs s :
  length xs < fuel → I s →
  (∀ x s, I s → ⦃ R ⦄ body (Some x) s ⦃ r, ⌈r = step x s⌉ ∗ R ⦄) →
  (∀ x s s', I s → step x s = inl s' → I s') →
  ⦃ is_list l (ys ++ xs) ∗ R ⦄ for_each fuel (Some l) body (first xs) s
  ⦃ r, ⌈r = (first (scan step xs s).1, (scan step xs s).2)⌉ ∗ is_list l (ys ++ xs) ∗ R ⦄.
Proof.
  intros Hf HI Hbody Hstep. unfold hoare, for_each. iInduction fuel as [|fuel] "IH" forall (ys xs s Hf HI); [lia|].
  iIntros "[H HR]". iApply wp_loop. iApply wp_bind. iApply wp_list_end.
  iDestruct (first_end with "H") as %E.
  destruct xs as [|x xs].
  { rewrite bool_decide_false; [|tauto]. iApply wp_ret. iApply wp_ret. iFrame. done. }
  rewrite bool_decide_true; [|by intros Hx%E].
  iApply wp_bind. iApply (hoare_wp_ret with "HR"); [by apply (Hbody x s)|]. iIntros (r) "[-> HR]". simpl.
  destruct (step x s) as [s'|s'] eqn:Hs.
  - iApply wp_bind. iApply (wp_list_next_at with "H"). iIntros "H". iApply wp_ret.
    rewrite app_cons_assoc. iApply "IH"; [iPureIntro; simpl in Hf; lia|iPureIntro; by eapply Hstep|]. iFrame.
  - iApply wp_ret. iApply wp_ret. iFrame. done.
Qed.

Lemma list_size_spec fuel xs : length xs < fuel →
  ⦃ is_list l xs ⦄ list_size fuel (Some l) ⦃ r, ⌈r = wrap_u 32 (length xs)⌉ ∗ is_list l xs ⦄.
Proof.
  intros Hf. unfold hoare, list_size. iIntros "H". iApply wp_bind. iApply (wp_list_begin with "H"). iIntros "H".
  iApply wp_bind. iApply (hoare_wp_ret with "[H]");
    [apply (for_each_spec fuel _ (λ _ cnt, inl (wrap_u 32 (cnt + 1))) (λ _, True) emp%I [] xs 0%Z Hf); [done| |done]|iFrame|].
  { intros x s _. unfold hoare. iIntros "H". iApply wp_ret. by iFrame. }
  iIntros (r) "(-> & H & _)". iApply wp_ret. iFrame. iPureIntro. simpl. clear Hf.
  assert (∀ ys n, (scan (λ _ cnt, inl (wrap_u 32 (cnt + 1))) ys (wrap_u 32 n)).2 = wrap_u 32 (n + length ys)%Z) as H.
  { induction ys as [|y ys IH]; intros n; simpl; [by rewrite Z.add_0_r|].
    rewrite wrap_u_add_l IH. f_equal. lia. }
  by rewrite -(H xs 0%Z).
Qed.

(** * Reversal *)

(** The cells of the elements [xs] between [pv] and [nx]; with the two pointers
    of each element exchanged when [sw]. *)
Fixpoint cells (sw : bool) (pv : ptr) (xs : list loc) (nx : ptr) : hpropI N :=
  match xs with
  | [] => emp
  | x :: xs =>
      let next := from_option Some nx (head xs) in
      (if sw then x~0 ↦ next ∗ x~1 ↦ pv else x~0 ↦ pv ∗ x~1 ↦ next)%positive ∗ cells sw (Some x) xs nx
  end%I.

Lemma cells_app sw pv xs ys nx :
  cells sw pv (xs ++ ys) nx ⊣⊢
  cells sw pv xs (from_option Some nx (head ys)) ∗ cells sw (from_option Some pv (last xs)) ys nx.
Proof.
  revert pv. induction xs as [|x xs IH]; intros pv; [by rewrite /= left_id|].
  cbn [app cells]. rewrite IH assoc. destruct xs as [|y xs]; [done|].
  rewrite last_cons_cons. by rewrite (last_cons y xs); destruct (last xs).
Qed.

(** Elements whose pointers are exchanged are the elements in reverse order. *)
Lemma cells_reverse pv xs nx : cells true pv xs nx ⊣⊢ cells false nx (reverse xs) pv.
Proof.
  revert pv. induction xs as [|x xs IH]; intros pv; [done|].
  rewrite reverse_cons cells_app -IH /= right_id last_reverse. destruct (head xs); simpl; by rewrite comm.
Qed.

Lemma links_cells p xs t :
  links (Some p :: (Some <$> xs) ++ [Some t; NULL]) ⊣⊢
  ((p~1)%positive ↦ from_option Some (Some t) (head xs) ∗ cells false (Some p) xs (Some t) ∗
   (t~0)%positive ↦ from_option Some (Some p) (last xs) ∗ (t~1)%positive ↦ NULL)%I.
Proof.
  revert p. induction xs as [|x xs IH]; intros p.
  - simpl. rewrite /link. iSplit; [iIntros "([$ $] & [$ _] & _)"|iIntros "($ & _ & $ & $)"].
  - rewrite fmap_cons. cbn [app]. rewrite links_cons IH last_cons. cbn [cells head from_option]. rewrite /link.
    assert (from_option Some (Some p) (match last xs with Some y => Some y | None => Some x end) =
            from_option Some (Some x) (last xs)) as -> by by destruct (last xs).
    iSplit; [iIntros "([$ $] & $ & $ & $ & $)"|iIntros "($ & ([$ $] & $) & $ & $)"].
Qed.

Lemma chain_cells p xs t :
  chain (p :: xs ++ [t]) ⊣⊢
  ((p~0)%positive ↦ NULL ∗ (p~1)%positive ↦ from_option Some (Some t) (head xs) ∗ cells false (Some p) xs (Some t) ∗
   (t~0)%positive ↦ from_option Some (Some p) (last xs) ∗ (t~1)%positive ↦ NULL)%I.
Proof.
  rewrite -links_cells /chain fmap_cons fmap_app -app_comm_cons -app_assoc links_cons.
  rewrite /link. iSplit; [iIntros "[[_ $] $]"|iIntros "[$ $]"].
Qed.

(** The outer pointers of a sequence of elements can be set. *)
Lemma cells_ends pv xs nx y x : head xs = Some y → last xs = Some x →
  cells false pv xs nx ⊢ (y~0)%positive ↦ pv ∗ (x~1)%positive ↦ nx ∗
    (∀ pv' nx', (y~0)%positive ↦ pv' -∗ (x~1)%positive ↦ nx' -∗ cells false pv' xs nx').
Proof.
  destruct xs as [|y' xs]; [done|]. intros [= ->]. destruct (snoc_inv xs) as [->|(zs & z & ->)].
  - intros [= ->]. simpl. iIntros "[[$ $] _]". iIntros (pv' nx') "H1 H2". iFrame.
  - rewrite app_comm_cons last_snoc. intros [= ->]. cbn [app cells].
    rewrite cells_app. cbn [cells head from_option].
    iIntros "[[$ H1] (H2 & [H3 $] & _)]". iIntros (pv' nx') "Hp Hn".
    rewrite cells_app. cbn [cells head from_option].
    assert (head (zs ++ [x]) = from_option Some (Some x) (head zs)) as -> by by destruct zs.
    destruct zs; iFrame.
Qed.

Lemma wp_swap_vars (a b : loc) (x y : ptr) Φ Ψ :
  a ↦ x -∗ b ↦ y -∗ (a ↦ y -∗ b ↦ x -∗ Φ tt) -∗ wp (N := N) (swap (Some a) (Some b)) Φ Ψ.
Proof.
  iIntros "Ha Hb HΦ". unfold swap. wp_load "Ha". wp_load "Hb". wp_store "Ha".
  iApply (wp_store with "Hb"). iIntros "Hb". iApply ("HΦ" with "Ha Hb").
Qed.

(** The loop of [list_reverse] exchanges the pointers of each element. *)
Lemma reverse_loop fuel pv xs Φ Ψ :
  length xs < fuel → (l~1)%positive ∉ xs →
  cells false pv xs (Some (l~1)%positive) -∗ (cells true pv xs (Some (l~1)%positive) -∗ Φ tt) -∗
  wp (loop fuel (λ e,
      e' ← list_end (Some l);
      if bool_decide (e ≠ e') then
        swap (addr_prev e) (addr_next e);; e ← get_prev e; mret (inl e)
      else mret (inr tt)) (first xs)) Φ Ψ.
Proof.
  iInduction fuel as [|fuel] "IH" forall (pv xs); iIntros (Hf Hend) "H HΦ"; [lia|].
  iApply wp_loop. iApply wp_bind. iApply wp_list_end. destruct xs as [|x xs].
  { rewrite bool_decide_false; [|by intros []]. iApply wp_ret. iApply wp_ret. by iApply "HΦ". }
  apply not_elem_of_cons in Hend as [Hx Hend]. simpl in Hf.
  rewrite bool_decide_true; [|by intros [= ->]]. iDestruct "H" as "[[H1 H2] H]".
  iApply wp_bind. iApply (wp_swap_vars with "H1 H2"). iIntros "H1 H2".
  iApply wp_bind. iApply (wp_load with "H1"). iIntros "H1". iApply wp_ret.
  assert (from_option Some (Some (l~1)%positive) (head xs) = first xs) as -> by by destruct xs.
  iApply ("IH" with "[%] [//] H"); [lia|]. iIntros "H". iApply "HΦ". simpl. iFrame. by destruct xs.
Qed.

Lemma list_reverse_spec fuel xs : length xs < fuel →
  ⦃ is_list l xs ⦄ list_reverse fuel (Some l) ⦃ _u, is_list l (reverse xs) ⦄.
Proof.
  intros Hf. unfold hoare, list_reverse. iIntros "H".
  iDestruct (is_list_NoDup with "H") as %Hnd.
  iApply wp_bind. iApply (wp_list_empty with "H"). iIntros "H".
  case_bool_decide as Hxs; simpl negb; cbv iota; [subst xs; by iApply wp_ret|].
  iApply wp_bind. iApply (wp_list_begin with "H"). iIntros "H".
  assert ((l~1)%positive ∉ xs) as Hend.
  { intros H. apply NoDup_app in Hnd as (_ & Hnd & _). apply (Hnd _ H). apply elem_of_cons. by left. }
  unfold is_list. rewrite chain_cells. iDestruct "H" as "(Hhp & Hhn & H & Htp & Htn)".
  iApply wp_bind. iApply (reverse_loop with "H"); [done..|]. iIntros "H".
  rewrite cells_reverse.
  destruct xs as [|x xs']; [done|]. destruct (snoc_inv (x :: xs')) as [|(ys & y & E)]; [done|].
  assert (head (reverse (x :: xs')) = Some y) as Hh by by rewrite E reverse_app.
  assert (last (reverse (x :: xs')) = Some x) as Hl by by rewrite last_reverse.
  assert (last (x :: xs') = Some y) as -> by by rewrite E last_snoc.
  rewrite (cells_ends _ _ _ y x Hh Hl). iDestruct "H" as "(Hy & Hx & H)". cbn [from_option head].
  iApply wp_bind. iApply (wp_swap_vars with "Hhn Htp"). iIntros "Hhn Htp".
  iApply wp_bind. iApply (wp_load with "Hhn"). iIntros "Hhn".
  iApply wp_bind. iApply (wp_load with "Htp"). iIntros "Htp".
  iApply (wp_swap_vars with "Hy Hx"). iIntros "Hy Hx".
  iSpecialize ("H" with "Hy Hx"). rewrite chain_cells Hh Hl. iFrame.
Qed.

(** * Sequences of operations *)

(** Some operations of a client, and what they do to the sequence of elements
    and to the set of elements that are in no list. *)
Inductive cmd := PushFront (x : loc) | PushBack (x : loc) | PopFront | PopBack | Remove (x : loc) | Reverse.

Definition run_cmd (fuel : nat) (c : cmd) : M (gmap loc N) ptr :=
  match c with
  | PushFront x => list_push_front (Some l) (Some x);; mret NULL
  | PushBack x => list_push_back (Some l) (Some x);; mret NULL
  | PopFront => list_pop_front (Some l)
  | PopBack => list_pop_back (Some l)
  | Remove x => list_remove (Some x);; mret NULL
  | Reverse => list_reverse fuel (Some l);; mret NULL
  end.
Fixpoint run_cmds (fuel : nat) (cs : list cmd) : M (gmap loc N) (list ptr) :=
  match cs with
  | [] => mret []
  | c :: cs => r ← run_cmd fuel c; rs ← run_cmds fuel cs; mret (r :: rs)
  end.
End lists.
End representation.

(** [None] when the operation may not be called. *)
Definition abs_cmd (c : cmd) (xs : list loc) (free : gset loc) : option (ptr * list loc * gset loc) :=
  match c with
  | PushFront x => if decide (x ∈ free) then Some (NULL, x :: xs, free ∖ {[x]}) else None
  | PushBack x => if decide (x ∈ free) then Some (NULL, xs ++ [x], free ∖ {[x]}) else None
  | PopFront => x ← head xs; Some (Some x, tail xs, {[x]} ∪ free)
  | PopBack => x ← last xs; Some (Some x, reverse (tail (reverse xs)), {[x]} ∪ free)
  | Remove x => if decide (x ∈ xs) then Some (NULL, filter (λ y, y ≠ x) xs, {[x]} ∪ free) else None
  | Reverse => Some (NULL, reverse xs, free)
  end.
Fixpoint abs_cmds (cs : list cmd) (xs : list loc) (free : gset loc) : option (list ptr * list loc * gset loc) :=
  match cs with
  | [] => Some ([], xs, free)
  | c :: cs =>
      '(r, xs, free) ← abs_cmd c xs free;
      '(rs, xs, free) ← abs_cmds cs xs free;
      Some (r :: rs, xs, free)
  end.

Section refinement.
Context {N : Type} `{!Struct ptr N}.

Definition list_state (l : loc) (xs : list loc) (free : gset loc) : hpropI N :=
  (is_list l xs ∗ [∗ set] x ∈ free, elem x)%I.

Lemma elem_free x free : elem x -∗ ([∗ set] y ∈ free, elem y) -∗ ([∗ set] y ∈ {[x]} ∪ free, elem (N := N) y).
Proof.
  iIntros "Hx H". iAssert ⌜x ∉ free⌝%I as %Hx.
  { iIntros (Hin). rewrite (big_sepS_delete _ free x) //. iDestruct "H" as "[Hx' _]".
    unfold elem. iDestruct "Hx" as (??) "[Hx _]". iDestruct "Hx'" as (??) "[Hx' _]".
    by iDestruct (points_to_ne with "Hx Hx'") as %?. }
  rewrite big_sepS_insert //. iFrame.
Qed.

Lemma filter_all {A} (P : A → Prop) `{!∀ x, Decision (P x)} xs : Forall P xs → filter P xs = xs.
Proof. induction 1 as [|x xs Hx _ IH]; [done|]. by rewrite filter_cons_True // IH. Qed.

Lemma filter_out (x : loc) ys zs : NoDup (ys ++ x :: zs) → filter (λ y, y ≠ x) (ys ++ x :: zs) = ys ++ zs.
Proof.
  intros (_ & Hys & [Hzs _]%NoDup_cons)%NoDup_app.
  rewrite filter_app filter_cons_False; [|by intros []]. f_equal; apply filter_all, Forall_forall.
  - intros y Hy ->. apply (Hys x Hy). apply elem_of_cons. by left.
  - by intros y Hy ->.
Qed.

Lemma abs_cmd_length c xs free r xs' free' :
  abs_cmd c xs free = Some (r, xs', free') → length xs' ≤ S (length xs).
Proof.
  destruct c as [x|x| | |x|]; simpl; intros H; repeat case_decide; try discriminate.
  - simplify_eq. simpl. lia.
  - simplify_eq. rewrite length_app /=. lia.
  - destruct xs; simplify_eq/=. lia.
  - destruct (last xs); simplify_eq/=. rewrite length_reverse -(length_reverse xs). destruct (reverse xs); simpl; lia.
  - simplify_eq. pose proof (length_filter (λ y, y ≠ x) xs). lia.
  - simplify_eq. rewrite length_reverse. lia.
Qed.

Lemma run_cmd_spec l fuel c xs free r xs' free' :
  length xs < fuel → abs_cmd c xs free = Some (r, xs', free') →
  ⦃ list_state l xs free ⦄ run_cmd l fuel c ⦃ r', ⌈r' = r⌉ ∗ list_state l xs' free' ⦄.
Proof.
  intros Hf Habs. unfold hoare, list_state. iIntros "[H Hfree]".
  destruct c as [x|x| | |x|]; simpl in *; try case_decide; simplify_eq.
  - rewrite (big_sepS_delete _ free x) //. iDestruct "Hfree" as "[Hx Hfree]".
    iApply wp_bind. iApply (hoare_wp_ret _ _ _ _ _ (list_push_front_spec l xs x) with "[$H $Hx]").
    iIntros ([]) "H". iApply wp_ret. by iFrame.
  - rewrite (big_sepS_delete _ free x) //. iDestruct "Hfree" as "[Hx Hfree]".
    iApply wp_bind. iApply (hoare_wp_ret _ _ _ _ _ (list_push_back_spec l xs x) with "[$H $Hx]").
    iIntros ([]) "H". iApply wp_ret. by iFrame.
  - destruct xs as [|x xs]; simplify_eq/=.
    iApply (hoare_wp with "H"); [apply list_pop_front_spec|]. iSplit; [|iIntros (e) "[[% _] _]"; done].
    iIntros (r) "(%&%&[%Heq ->] & H & Hx)". simplify_eq. iFrame. iSplit; [done|]. by iApply (elem_free with "Hx").
  - destruct (snoc_inv xs) as [->|(ys & x & ->)]; simplify_eq/=. rewrite last_snoc /= in Habs. simplify_eq.
    rewrite reverse_app /= reverse_involutive.
    iApply (hoare_wp with "H"); [apply list_pop_back_spec|].
    iSplit; [|iIntros (e) "[[%Hnil _] _]"; by destruct ys].
    iIntros (r) "(%&%&[%Heq ->] & H & Hx)". simplify_list_eq. iFrame. iSplit; [done|]. by iApply (elem_free with "Hx").
  - apply list_elem_of_split in H as (ys & zs & ->).
    iDestruct (is_list_NoDup with "H") as %Hnd. apply NoDup_app in Hnd as (Hnd & _). rewrite filter_out //.
    iApply wp_bind. iApply (hoare_wp_ret with "H"); [apply list_remove_at|].
    iIntros (r) "(_ & H & Hx)". iApply wp_ret. iFrame. iSplit; [done|]. by iApply (elem_free with "Hx").
  - iApply wp_bind. iApply (hoare_wp_ret with "H"); [by apply list_reverse_spec|].
    iIntros ([]) "H". iApply wp_ret. by iFrame.
Qed.

(** C32: a list behaves as the sequence of its elements: any sequence of insertions
    at either end, removals at either end or of a given element, and reversals
    returns and leaves what it does on the sequence, as long as only elements
    that are in no list are inserted and nothing is taken from the empty list;
    elements that are taken out can be inserted again. *)
Theorem list_refines_sequence l fuel cs xs free rs xs' free' :
  length xs + length cs < fuel → abs_cmds cs xs free = Some (rs, xs', free') →
  ⦃ list_state l xs free ⦄ run_cmds l fuel cs ⦃ r, ⌈r = rs⌉ ∗ list_state l xs' free' ⦄.
Proof.
  unfold hoare. iIntros (Hf Habs) "H".
  iInduction cs as [|c cs] "IH" forall (xs free rs Hf Habs); simpl in *; [simplify_eq; iApply wp_ret; by iFrame|].
  destruct (abs_cmd c xs free) as [[[r xs1] free1]|] eqn:Hc; [|done]. simpl in Habs.
  destruct (abs_cmds cs xs1 free1) as [[[rs1 xs2] free2]|] eqn:Hcs; simplify_eq/=.
  pose proof (abs_cmd_length _ _ _ _ _ _ Hc).
  iApply wp_bind. iApply (hoare_wp_ret with "H"); [eapply run_cmd_spec; [lia|exact Hc]|].
  iIntros (r') "[-> H]". iApply wp_bind. iApply (wp_wand with "[H]").
  - iApply ("IH" with "[%] [//] H"). lia.
  - iSplit; [|by iIntros (e) "[]"]. iIntros (rs') "[-> H]". iApply wp_ret. by iFrame.
Qed.
End refinement.

(** Elements at 5 and 6, and a list at 1, whose elements are at 2 and 3. *)
Lemma list_refines_sequence_witness :
  ⦃ list_state (N := ptr) 1 [] {[5; 6]}%positive ⦄
  run_cmds 1 10 [PushBack 5; PushBack 6; Reverse; PopFront]%positive
  ⦃ r, ⌈r = [NULL; NULL; NULL; Some 6%positive]⌉ ∗ list_state 1 [5%positive] {[6%positive]} ⦄.
Proof. apply (list_refines_sequence 1 10 _ [] {[5; 6]}%positive); [simpl; lia|by vm_compute]. Defined.

Example list_run :
  (match (list_init (Some 1%positive);; run_cmds 1 10 [PushBack 5; PushFront 6; PushBack 7; Remove 5; Reverse; PopFront]%positive)
    (gset_to_gmap NULL (list_to_set (Pos.of_nat <$> seq 1 20))) with
   | Ret r _ => r | _ => [] end) = [NULL; NULL; NULL; NULL; NULL; Some 7%positive].
Proof. vm_compute. done. Qed.
