(* ===== verification/PintosListSort.v ===== *)
(** The operations on ordered lists of src/bin/OS/pintos/src/lib/kernel/list.c:
    the merge sort, insertion in order, removal of duplicates, and the extremes.
    The order is a function of the client that may read the client's data. *)
From stdpp Require Import sorting.
From S2P Require Export PintosList.

(** * Runs and merges of sequences *)

Lemma filter_none {A} (P : A → Prop) `{!∀ x, Decision (P x)} xs : Forall (λ x, ¬ P x) xs → filter P xs = [].
Proof. induction 1 as [|x xs Hx _ IH]; [done|]. by rewrite filter_cons_False. Qed.

Section sequences.
Context (lt : loc → loc → bool).

(** [y] may follow [x]. *)
Definition ordered (x y : loc) : Prop := lt y x = false.
#[export] Instance ordered_dec x y : Decision (ordered x y).
Proof. unfold ordered. apply _. Defined.

Fixpoint sorted_from (x : loc) (xs : list loc) : bool :=
  match xs with [] => true | y :: ys => negb (lt y x) && sorted_from y ys end.
Definition sorted (xs : list loc) : bool := match xs with [] => true | x :: xs => sorted_from x xs end.

Lemma sorted_Sorted xs : sorted xs = true ↔ Sorted ordered xs.
Proof.
  destruct xs as [|x xs]; simpl; [split; [constructor|done]|].
  revert x. induction xs as [|y ys IH]; intros x; simpl; [split; [by repeat constructor|done]|].
  rewrite andb_true_iff IH negb_true_iff. split.
  - intros [H Hs]. constructor; [done|]. by constructor.
  - intros [Hs Hh]%Sorted_inv. split; [by apply HdRel_inv in Hh|done].
Qed.

(** The rest of the run that begins with [x], and what comes after it. *)
Fixpoint run_of (x : loc) (xs : list loc) : list loc * list loc :=
  match xs with
  | [] => ([], [])
  | y :: ys => if lt y x then ([], y :: ys) else let r := run_of y ys in (y :: r.1, r.2)
  end.

(** The runs of a sequence. *)
Fixpoint runs_from (x : loc) (xs : list loc) : list (list loc) :=
  match xs with
  | [] => [[x]]
  | y :: ys =>
      if lt y x then [x] :: runs_from y ys
      else match runs_from y ys with r :: rs => (x :: r) :: rs | [] => [[x]] end
  end.
Definition runs (xs : list loc) : list (list loc) := match xs with [] => [] | x :: xs => runs_from x xs end.

Lemma run_of_app x xs : (run_of x xs).1 ++ (run_of x xs).2 = xs.
Proof. revert x. induction xs as [|y ys IH]; intros x; simpl; [done|]. destruct (lt y x); simpl; [done|]. by rewrite IH. Qed.

Lemma runs_run_of x xs : runs (x :: xs) = (x :: (run_of x xs).1) :: runs (run_of x xs).2.
Proof.
  simpl. revert x. induction xs as [|y ys IH]; intros x; simpl; [done|].
  destruct (lt y x); simpl; [done|]. by rewrite IH.
Qed.

Lemma run_of_sorted x xs : sorted (x :: (run_of x xs).1) = true.
Proof.
  simpl. revert x. induction xs as [|y ys IH]; intros x; simpl; [done|].
  destruct (lt y x) eqn:E; simpl; [done|]. by rewrite E IH.
Qed.

Lemma run_of_length x xs : length (run_of x xs).2 ≤ length xs.
Proof. rewrite -{2}(run_of_app x xs) length_app. lia. Qed.

(** Each run is sorted, and they make up the sequence. *)
Lemma runs_spec xs :
  concat (runs xs) = xs ∧ Forall (λ r, r ≠ [] ∧ sorted r = true) (runs xs) ∧ length (runs xs) ≤ length xs.
Proof.
  remember (length xs) as n eqn:Hn. revert xs Hn. induction (lt_wf n) as [n _ IH]. intros xs ->.
  destruct xs as [|x xs]; [by repeat constructor|]. rewrite runs_run_of.
  destruct (IH (length (run_of x xs).2)) with (run_of x xs).2 as (Hc & Hs & Hl); [|done|].
  { simpl. pose proof (run_of_length x xs). lia. }
  split_and!.
  - simpl. by rewrite Hc run_of_app.
  - constructor; [|done]. split; [done|]. apply run_of_sorted.
  - simpl. pose proof (run_of_length x xs). lia.
Qed.

(** A sequence that is the concatenation of [n] sorted ones has at most [n] runs. *)
Lemma runs_sorted_app x xs ys : sorted (x :: xs) = true → length (runs (x :: xs ++ ys)) ≤ S (length (runs ys)).
Proof.
  simpl. revert x. induction xs as [|z zs IH]; intros x Hs; simpl in *.
  - destruct ys as [|y ys]; simpl; [lia|]. destruct (lt y x); simpl; [lia|].
    destruct (runs_from y ys); simpl; lia.
  - apply andb_true_iff in Hs as [Hz Hs]. apply negb_true_iff in Hz. rewrite Hz.
    specialize (IH z Hs). destruct (runs_from z (zs ++ ys)); simpl in *; lia.
Qed.

Lemma runs_concat rs :
  Forall (λ r, r ≠ [] ∧ sorted r = true) rs → length (runs (concat rs)) ≤ length rs.
Proof.
  induction 1 as [|[|x xs] rs [Hne Hs] _ IH]; [done|done|]. simpl concat.
  pose proof (runs_sorted_app x xs (concat rs) Hs). simpl in *. lia.
Qed.

(** Merging neighbours two by two. *)
Abbreviation merge := (list_merge ordered).
Fixpoint merge_pairs (rs : list (list loc)) : list (list loc) :=
  match rs with a :: b :: rs => merge a b :: merge_pairs rs | _ => rs end.

Lemma merge_cons a A b B :
  merge (a :: A) (b :: B) = if lt b a then b :: merge (a :: A) B else a :: merge A (b :: B).
Proof. rewrite list_merge_cons. case_decide as H; unfold ordered in H; by destruct (lt b a). Qed.

Lemma list_ind2 {B} (P : list B → Prop) :
  P [] → (∀ x, P [x]) → (∀ x y l, P l → P (x :: y :: l)) → ∀ l, P l.
Proof.
  intros H0 H1 H2. fix IH 1. intros [|x [|y l]]; [done|done|]. apply H2, IH.
Qed.

Lemma merge_pairs_length rs :
  2 * length (merge_pairs rs) ≤ S (length rs).
Proof. induction rs as [|x|x y l IH] using list_ind2; simpl in *; lia. Qed.

Lemma merge_pairs_perm rs : concat (merge_pairs rs) ≡ₚ concat rs.
Proof.
  induction rs as [|x|x y l IH] using list_ind2; simpl; [done|done|].
  by rewrite merge_Permutation IH assoc_L.
Qed.

(** With an asymmetric [lt], merging keeps order; with a strict weak order the
    order of equivalent elements does not change. *)
Section orders.
Context (lt_asym : ∀ x y, lt x y = true → lt y x = false).

#[local] Instance ordered_total : Total ordered.
Proof. intros x y. unfold ordered. destruct (lt y x) eqn:E; [right; by apply lt_asym|by left]. Qed.

Lemma merge_sorted A B : sorted A = true → sorted B = true → sorted (merge A B) = true.
Proof. rewrite !sorted_Sorted. apply Sorted_list_merge. apply _. Qed.

Lemma merge_pairs_sorted rs :
  Forall (λ r, r ≠ [] ∧ sorted r = true) rs → Forall (λ r, r ≠ [] ∧ sorted r = true) (merge_pairs rs).
Proof.
  induction rs as [|x|x y l IH] using list_ind2; simpl; [done|done|].
  intros [[Hx Hsx] [[Hy Hsy] Hl]%Forall_cons]%Forall_cons. constructor; [|by apply IH].
  split; [|by apply merge_sorted]. intros Hnil. apply (f_equal length) in Hnil.
  rewrite merge_Permutation length_app in Hnil. destruct x; [done|]. simpl in Hnil. lia.
Qed.

Context (ordered_trans : ∀ x y z, ordered x y → ordered y z → ordered x z).
#[local] Instance ordered_transitive : Transitive ordered := ordered_trans.

(** Elements that neither comes before the other. *)
Definition equivalent (x y : loc) : Prop := ordered x y ∧ ordered y x.
#[export] Instance equivalent_dec x y : Decision (equivalent x y).
Proof. unfold equivalent. apply _. Defined.

Lemma merge_stable x A B : sorted A = true → sorted B = true →
  filter (equivalent x) (merge A B) = filter (equivalent x) A ++ filter (equivalent x) B.
Proof.
  rewrite !sorted_Sorted. intros HA HB. apply Sorted_StronglySorted in HA; [|apply _].
  clear HB. induction A as [|a A IHA] in B, HA |- *; [by rewrite list_merge_nil_l|].
  induction B as [|b B IHB]; [by rewrite list_merge_nil_r app_nil_r|].
  rewrite merge_cons. destruct (lt b a) eqn:Hba.
  - rewrite (filter_cons _ b B) (filter_cons _ b). rewrite IHB. case_decide as Hb; [|done].
    assert (filter (equivalent x) (a :: A) = []) as ->; [|done].
    apply filter_none. apply StronglySorted_inv in HA as [_ HA].
    assert (∀ c, ordered a c → ¬ equivalent x c) as Hno.
    { intros c Hac [Hxc Hcx]. destruct Hb as [Hxb Hbx].
      assert (ordered a b) as Hab by (etrans; [exact Hac|]; by etrans). unfold ordered in Hab. congruence. }
    constructor; [apply Hno|by eapply Forall_impl].
    by destruct (ordered_total a a).
  - rewrite !(filter_cons _ a). apply StronglySorted_inv in HA as [HA _]. rewrite (IHA (b :: B) HA). by case_decide.
Qed.

Lemma merge_pairs_stable x rs : Forall (λ r, r ≠ [] ∧ sorted r = true) rs →
  filter (equivalent x) (concat (merge_pairs rs)) = filter (equivalent x) (concat rs).
Proof.
  induction rs as [|r|r r' l IH] using list_ind2; [done|done|].
  intros [[_ Hr] [[_ Hr'] Hl]%Forall_cons]%Forall_cons. simpl.
  rewrite !filter_app merge_stable // IH // assoc_L //.
Qed.
End orders.

(** * Duplicates and extremes of sequences *)

(** Of [x :: xs], the elements after [x] that stay, and those that are
    equivalent to the last one that stays. *)
Fixpoint unique_from (x : loc) (xs : list loc) : list loc * list loc :=
  match xs with
  | [] => ([], [])
  | y :: ys =>
      if negb (lt x y) && negb (lt y x) then let r := unique_from x ys in (r.1, y :: r.2)
      else let r := unique_from y ys in (y :: r.1, r.2)
  end.

(** What [list_unique] keeps and removes of a list. *)
Definition unique (xs : list loc) : list loc * list loc :=
  match xs with [] => ([], []) | x :: xs => let r := unique_from x xs in (x :: r.1, r.2) end.

(** The first element, or a later one that is better than all that come before it. *)
Definition best (x : loc) (xs : list loc) : loc :=
  foldl (λ m e, if lt m e then e else m) x xs.

(** No element is greater than [x], and those before it are less. *)
Definition earliest (xs : list loc) (x : loc) : Prop :=
  ∃ us vs, xs = us ++ x :: vs ∧ (∀ u, u ∈ us → lt u x = true) ∧ (∀ z, z ∈ xs → lt x z = false).

(** A strict weak order. *)
Record strict_weak : Prop := {
  lt_asym x y : lt x y = true → lt y x = false;
  ordered_trans x y z : ordered x y → ordered y z → ordered x z;
}.

Section strict_weak_orders.
Context (Hlt : strict_weak).

Lemma lt_trans_true x y z : lt x y = true → lt y z = true → lt x z = true.
Proof.
  intros Hxy Hyz. destruct (lt x z) eqn:Hxz; [done|]. apply (lt_asym Hlt) in Hxy.
  assert (ordered z y) as H by by apply (ordered_trans Hlt z x y). unfold ordered in H. congruence.
Qed.

(** From an ordered pair on, a strict one stays strict. *)
Lemma lt_le_trans x y z : lt x z = true → ordered y x → lt y z = true.
Proof.
  intros Hxz Hyx. destruct (lt y z) eqn:Hyz; [done|].
  assert (ordered z x) as H by by apply (ordered_trans Hlt z y x). unfold ordered in H. congruence.
Qed.

Lemma unique_from_perm x xs : (unique_from x xs).1 ++ (unique_from x xs).2 ≡ₚ xs.
Proof.
  revert x. induction xs as [|y ys IH]; intros x; simpl; [done|]. destruct (_ && _); simpl.
  - by rewrite -Permutation_middle IH.
  - by rewrite IH.
Qed.

Lemma unique_from_represents x xs z : z ∈ x :: xs → ∃ y, y ∈ x :: (unique_from x xs).1 ∧ equivalent z y.
Proof.
  revert x. induction xs as [|y ys IH]; intros x; simpl.
  - intros Hz. exists z. split; [done|]. by destruct (lt z z) eqn:E; [pose proof (lt_asym Hlt z z E); congruence|].
  - destruct (negb (lt x y) && negb (lt y x)) eqn:Hxy; simpl.
    + intros [->|[->|Hz]%elem_of_cons]%elem_of_cons; [apply IH, elem_of_cons; by left| |apply IH, elem_of_cons; by right].
      apply andb_true_iff in Hxy as [H1%negb_true_iff H2%negb_true_iff].
      exists x. split; [apply elem_of_cons; by left|by split].
    + intros [->|Hz]%elem_of_cons.
      * exists x. split; [apply elem_of_cons; by left|].
        by destruct (lt x x) eqn:E; [pose proof (lt_asym Hlt x x E); congruence|].
      * destruct (IH y Hz) as (w & Hw & Hzw). exists w. split; [apply elem_of_cons; by right|done].
Qed.

Lemma unique_from_strict x xs : Sorted ordered (x :: xs) → Sorted (λ a b, lt a b = true) (x :: (unique_from x xs).1).
Proof.
  revert x. induction xs as [|y ys IH]; intros x Hs; simpl; [by repeat constructor|].
  apply Sorted_inv in Hs as [Hs Hxy%HdRel_inv]. destruct (negb (lt x y) && negb (lt y x)) eqn:E; simpl.
  - apply IH. apply Sorted_inv in Hs as [Hs Hd]. constructor; [done|].
    destruct Hd as [|z zs Hyz]; constructor. by eapply (ordered_trans Hlt).
  - constructor; [by apply IH|]. constructor. unfold ordered in Hxy. rewrite Hxy /= andb_true_r in E.
    by apply negb_false_iff in E.
Qed.

(** The best element is the earliest of those that no other is better than. *)
Lemma best_spec x xs : earliest (x :: xs) (best x xs).
Proof.
  assert (∀ a, lt a a = false) as Hirr.
  { intros a. destruct (lt a a) eqn:E; [|done]. pose proof (lt_asym Hlt a a E). congruence. }
  unfold best, earliest. revert x. induction xs as [|y ys IH]; intros x; simpl.
  { exists [], []. split_and!; [done|by intros u ?%elem_of_nil|]. intros z ->%list_elem_of_singleton. apply Hirr. }
  destruct (lt x y) eqn:Hxy.
  - destruct (IH y) as (us & vs & Heq & Hus & Hmax). set (b := foldl _ y ys) in *.
    assert (lt x b = true) as Hxb.
    { destruct us as [|u us]; simplify_eq/=; [congruence|].
      eapply lt_trans_true; [exact Hxy|]. apply Hus, elem_of_cons. by left. }
    exists (x :: us), vs. split_and!; [by rewrite Heq| |].
    + intros u [->|Hu]%elem_of_cons; [done|by apply Hus].
    + intros z [->|Hz]%elem_of_cons; [by apply (lt_asym Hlt)|by apply Hmax].
  - destruct (IH x) as (us & vs & Heq & Hus & Hmax). set (b := foldl _ x ys) in *.
    destruct us as [|u us]; injection Heq as Hx Hys; simpl in Hus.
    + exists [], (y :: ys). rewrite -Hx. split_and!; [done|by intros u ?%elem_of_nil|].
      rewrite -Hx in Hmax. intros z [->|[->|Hz]%elem_of_cons]%elem_of_cons; [apply Hirr|done|].
      apply Hmax, elem_of_cons. by right.
    + assert (lt x b = true) as Hxb by (rewrite Hx; apply Hus, elem_of_cons; by left).
      assert (lt y b = true) as Hyb by by eapply lt_le_trans.
      exists (x :: y :: us), vs. split_and!; [by rewrite Hys| |].
      * intros w [->|[->|Hw]%elem_of_cons]%elem_of_cons; [done|done|]. apply Hus, elem_of_cons. by right.
      * intros z [->|[->|Hz]%elem_of_cons]%elem_of_cons.
        -- by apply (lt_asym Hlt).
        -- by apply (lt_asym Hlt).
        -- apply Hmax, elem_of_cons. by right.
Qed.
End strict_weak_orders.
End sequences.

(** * The operations *)

Section ordered_operations.
Context {N : Type} `{!Struct ptr N}.
Context (lt : loc → loc → bool) (less : ptr * ptr * ptr → M (gmap loc N) bool) (aux : ptr) (D : hpropI N).
Context (less_spec : ∀ a b, ⦃ D ⦄ less (Some a, Some b, aux) ⦃ r, ⌈r = lt a b⌉ ∗ D ⦄).
Abbreviation merge := (list_merge (ordered lt)).

Lemma wp_less a b Φ Ψ : D -∗ (D -∗ Φ (lt a b)) -∗ wp (call (Some less) (Some a, Some b, aux)) Φ Ψ.
Proof.
  iIntros "HD HΦ". iApply (hoare_wp_ret with "HD"); [apply less_spec|]. iIntros (r) "[-> HD]". by iApply "HΦ".
Qed.

(** The first of the elements [xs] of a range that ends before [e]. *)
Definition next_of (e : loc) (xs : list loc) : ptr := head (xs ++ [e]).

Lemma next_of_end u xs e v : chain (N := N) (u ++ xs ++ e :: v) ⊢ ⌜next_of e xs = Some e ↔ xs = []⌝.
Proof.
  iIntros "H". iDestruct (chain_NoDup with "H") as %Hnd. iPureIntro.
  apply NoDup_app in Hnd as (_ & _ & Hnd). unfold next_of.
  destruct xs as [|x xs]; [done|]. split; [|done]. intros [= ->].
  cbn [app] in Hnd. apply NoDup_cons in Hnd as [Hnd _]. destruct Hnd. apply elem_of_app. right. apply elem_of_cons. by left.
Qed.

Lemma wp_range_next u x xs e v Φ Ψ :
  chain (N := N) (u ++ x :: xs ++ e :: v) -∗ (chain (u ++ x :: xs ++ e :: v) -∗ Φ (next_of e xs)) -∗
  wp (list_next (Some x)) Φ Ψ.
Proof. iIntros "H HΦ". destruct xs; by iApply (wp_list_next with "H"). Qed.

(** A step to the next element, which compares it with the one before. *)
Lemma wp_next_less {B} u x xs e v (k : bool → ptr → B) (k0 : ptr → B) Φ Ψ :
  chain (N := N) (u ++ x :: xs ++ e :: v) -∗ D -∗
  (chain (u ++ x :: xs ++ e :: v) -∗ D -∗
    Φ (match xs with [] => k0 (Some e) | y :: _ => k (lt y x) (Some y) end)) -∗
  wp (a ← list_next (Some x);
      if bool_decide (a ≠ Some e) then
        p ← list_prev a; r ← call (Some less) (a, p, aux); mret (k r a)
      else mret (k0 a)) Φ Ψ.
Proof.
  iIntros "H HD HΦ". iApply wp_bind. iApply (wp_range_next with "H"). iIntros "H".
  rewrite app_cons_assoc. iDestruct (next_of_end (u ++ [x]) with "H") as %E. rewrite -app_cons_assoc.
  destruct xs as [|y ys].
  - rewrite bool_decide_false; [|by rewrite E; auto]. iApply wp_ret. iApply ("HΦ" with "H HD").
  - rewrite bool_decide_true; [|by rewrite E]. iApply wp_bind.
    iApply (wp_list_prev with "H"); [done|]. iIntros "H".
    iApply wp_bind. iApply (wp_less with "HD"). iIntros "HD". iApply wp_ret. iApply ("HΦ" with "H HD").
Qed.

Lemma is_sorted_spec fuel u x xs e v : length xs < fuel →
  ⦃ chain (u ++ x :: xs ++ e :: v) ∗ D ⦄ is_sorted fuel (Some less) aux (Some x) (Some e)
  ⦃ r, ⌈r = sorted_from lt x xs⌉ ∗ chain (u ++ x :: xs ++ e :: v) ∗ D ⦄.
Proof.
  intros Hf. unfold hoare, is_sorted. iIntros "[H HD]".
  iDestruct (next_of_end u (x :: xs) with "H") as %E. rewrite bool_decide_true; [|by rewrite E].
  clear E. iInduction fuel as [|fuel] "IH" forall (u x xs Hf); [lia|]. iApply wp_loop.
  iApply (wp_next_less u x xs e v (λ r a, if r then inr false else inl a) (λ _, inr true) with "H HD").
  iIntros "H HD". destruct xs as [|y ys]; [iApply wp_ret; by iFrame|]. simpl in *.
  destruct (lt y x); [iApply wp_ret; by iFrame|]. simpl.
  rewrite app_cons_assoc. iApply ("IH" with "[%] H HD"). lia.
Qed.

Lemma is_sorted_range fuel u xs e v : length xs < fuel →
  ⦃ chain (u ++ xs ++ e :: v) ∗ D ⦄ is_sorted fuel (Some less) aux (next_of e xs) (Some e)
  ⦃ r, ⌈r = sorted lt xs⌉ ∗ chain (u ++ xs ++ e :: v) ∗ D ⦄.
Proof.
  intros Hf. destruct xs as [|x xs]; [|apply is_sorted_spec; simpl in Hf; lia].
  unfold hoare, is_sorted. simpl. iIntros "[H HD]". rewrite bool_decide_false; [|tauto].
  iApply wp_ret. by iFrame.
Qed.

Lemma wp_ASSERT_true Φ Ψ (b : bool) : b = true → Φ tt ⊢ wp (N := N) (ASSERT b) Φ Ψ.
Proof. intros ->. apply wp_ret. Qed.

Lemma find_end_of_run_spec fuel u x xs e v : length xs < fuel →
  ⦃ chain (u ++ x :: xs ++ e :: v) ∗ D ⦄ find_end_of_run fuel (Some less) aux (Some x) (Some e)
  ⦃ r, ⌈r = next_of e (run_of lt x xs).2⌉ ∗ chain (u ++ x :: xs ++ e :: v) ∗ D ⦄.
Proof.
  intros Hf. unfold hoare, find_end_of_run. iIntros "[H HD]".
  iDestruct (next_of_end u (x :: xs) with "H") as %E.
  do 3 (iApply wp_bind; iApply wp_ret). iApply wp_bind.
  iApply wp_ASSERT_true; [rewrite bool_decide_true; [done|by rewrite E]|]. clear E.
  iInduction fuel as [|fuel] "IH" forall (u x xs Hf); [lia|]. iApply wp_loop.
  iApply (wp_next_less u x xs e v (λ r a, if r then inr a else inl a) (λ a, inr a) with "H HD").
  iIntros "H HD". destruct xs as [|y ys]; [iApply wp_ret; by iFrame|]. simpl in *.
  destruct (lt y x); [iApply wp_ret; by iFrame|]. simpl.
  rewrite app_cons_assoc. iApply ("IH" with "[%] H HD"). lia.
Qed.

Lemma NoDup_ne {A} (u : list A) x m y v : NoDup (u ++ x :: m ++ y :: v) → x ≠ y.
Proof.
  intros (_ & _ & [Hx _]%NoDup_cons)%NoDup_app ->. apply Hx, elem_of_app. right. apply elem_of_cons. by left.
Qed.

Lemma merge_loop fuel w p A B e v : length A + length B < fuel →
  chain (w ++ p :: A ++ B ++ e :: v) ∗ D ⊢
  wp (loop fuel (λ '(a0, a1b0),
    if bool_decide (a0 ≠ a1b0) && bool_decide (a1b0 ≠ Some e) then
      r ← call (Some less) (a1b0, a0, aux);
      if negb r then
        a0 ← list_next a0; mret (inl (a0, a1b0))
      else
        a1b0 ← list_next a1b0;
        p ← list_prev a1b0;
        list_splice a0 p a1b0;;
        mret (inl (a0, a1b0))
    else mret (inr tt)) (head (A ++ B ++ [e]), next_of e B))
  (λ _, chain (w ++ p :: merge A B ++ e :: v) ∗ D)%I (λ _, False%I).
Proof.
  iInduction fuel as [|fuel] "IH" forall (w p A B); iIntros (Hf) "[H HD]"; [lia|].
  iApply wp_loop. destruct A as [|a A].
  { rewrite bool_decide_false; [|by intros []]. iApply wp_ret. iApply wp_ret. rewrite list_merge_nil_l. iFrame. }
  destruct B as [|b B].
  { rewrite (bool_decide_false (next_of e [] ≠ Some e)); [|by intros []]. rewrite andb_false_r.
    iApply wp_ret. iApply wp_ret. rewrite list_merge_nil_r. iFrame. }
  iDestruct (chain_NoDup with "H") as %Hnd. simpl in Hf.
  assert (a ≠ b) as Hab by by apply (NoDup_ne (w ++ [p]) a A b (B ++ e :: v)); rewrite -app_assoc.
  assert (b ≠ e) as Hbe.
  { apply (NoDup_ne (w ++ p :: a :: A) b B e v). by rewrite -app_assoc. }
  cbn [app head next_of]. unfold next_of. cbn [app head].
  rewrite !bool_decide_true; [|congruence..]. cbn [andb].
  iApply wp_bind. iApply (wp_less with "HD"). iIntros "HD".
  rewrite merge_cons. destruct (lt b a) eqn:Hba; cbn [negb].
  - assert (w ++ p :: (a :: A) ++ (b :: B) ++ e :: v = (w ++ p :: a :: A) ++ b :: B ++ e :: v) as Eb
      by by rewrite -app_assoc.
    iApply wp_bind. rewrite Eb. iApply (wp_range_next with "H"). iIntros "H".
    assert (∃ z v', B ++ e :: v = z :: v' ∧ next_of e B = Some z) as (z & v' & Ez & Hz).
    { destruct B as [|z B']; [by exists e, v|by exists z, (B' ++ e :: v)]. }
    rewrite Hz Ez. iApply wp_bind. iApply (wp_list_prev with "H"); [done|]. iIntros "H".
    rewrite -app_assoc. cbn [app]. iApply wp_bind.
    iApply (hoare_wp_ret _ _ _ _ _ (list_splice_spec w p (a :: A) [b] z v' a b eq_refl eq_refl) with "[H]"); [iExact "H"|].
    iIntros ([]) "H". iApply wp_ret.
    assert (w ++ p :: [b] ++ (a :: A) ++ z :: v' = (w ++ [p]) ++ b :: (a :: A) ++ B ++ e :: v) as ->
      by by rewrite -Ez -app_assoc.
    rewrite -Hz. iApply (wp_wand with "[H HD]").
    + iApply ("IH" $! (w ++ [p]) b (a :: A) B with "[%] [$H $HD]"). simpl. lia.
    + iSplit; [|by iIntros (?) "[]"]. iIntros (_) "[H $]". by rewrite -app_assoc.
  - assert (w ++ p :: (a :: A) ++ (b :: B) ++ e :: v = (w ++ [p]) ++ a :: (A ++ b :: B) ++ e :: v) as Ea
      by by rewrite -!app_assoc.
    cbn [app] in Ea |- *. rewrite Ea.
    iApply wp_bind. iApply (wp_range_next with "H"). iIntros "H". iApply wp_ret.
    assert (next_of e (A ++ b :: B) = head (A ++ (b :: B) ++ [e])) as -> by by rewrite /next_of -app_assoc.
    rewrite -(app_assoc A). iApply (wp_wand with "[H HD]").
    + iApply ("IH" $! (w ++ [p]) a A (b :: B) with "[%] [$H $HD]"). simpl. lia.
    + iSplit; [|by iIntros (?) "[]"]. iIntros (_) "[H $]". by rewrite -app_assoc.
Qed.

Lemma inplace_merge_spec fuel w p A B e v : A ≠ [] → B ≠ [] → length A + length B < fuel →
  sorted lt A = true → sorted lt B = true →
  ⦃ chain (w ++ p :: A ++ B ++ e :: v) ∗ D ⦄
  inplace_merge fuel (Some less) aux (head A) (head B) (Some e)
  ⦃ _u, chain (w ++ p :: merge A B ++ e :: v) ∗ D ⦄.
Proof.
  intros HA HB Hf HsA HsB. destruct A as [|a A]; [done|]. destruct B as [|b B]; [done|].
  unfold hoare, inplace_merge. iIntros "[H HD]". simpl in Hf. cbn [head].
  do 4 (iApply wp_bind; iApply wp_ret).
  iApply wp_bind. iApply wp_ASSERT_M.
  iApply (hoare_wp_ret with "[H HD]"); [apply (is_sorted_spec fuel (w ++ [p]) a A b (B ++ e :: v)); lia| |].
  { rewrite -app_assoc. iFrame. }
  iIntros (r) "(-> & H & HD)". iSplit; [done|]. rewrite -app_assoc. cbn [app].
  iApply wp_bind. iApply wp_ASSERT_M.
  iApply (hoare_wp_ret with "[H HD]"); [apply (is_sorted_spec fuel (w ++ p :: a :: A) b B e v); lia| |].
  { rewrite -app_assoc. iFrame. }
  iIntros (r) "(-> & H & HD)". iSplit; [done|]. rewrite -app_assoc. cbn [app].
  iApply (merge_loop fuel w p (a :: A) (b :: B) e v with "[$H $HD]"). simpl. lia.
Qed.

Section sort.
Context (l : loc).

Lemma is_list_range ys xs : is_list (N := N) l (ys ++ xs) = chain ((l~0 :: ys)%positive ++ xs ++ (l~1)%positive :: []).
Proof. unfold is_list. by rewrite -app_assoc. Qed.

(** One round of a pass, from the first element of [x :: xs] on: the two runs
    that it finds, and what follows them. *)
Lemma pass_round fuel ys x xs : length (x :: xs) < fuel →
  let A := x :: (run_of lt x xs).1 in
  let rest := (run_of lt x xs).2 in
  ⦃ is_list l (ys ++ x :: xs) ∗ D ⦄
  (a1b0 ← find_end_of_run fuel (Some less) aux (Some x) (Some (l~1)%positive);
   if bool_decide (a1b0 = Some (l~1)%positive) then mret None
   else
     b1 ← find_end_of_run fuel (Some less) aux a1b0 (Some (l~1)%positive);
     inplace_merge fuel (Some less) aux (Some x) a1b0 b1;;
     mret (Some b1))
  ⦃ r, match rest with
       | [] => ⌈r = None⌉ ∗ is_list l (ys ++ x :: xs)
       | y :: zs => ⌈r = Some (first l (run_of lt y zs).2)⌉ ∗
           is_list l (ys ++ merge A (y :: (run_of lt y zs).1) ++ (run_of lt y zs).2)
       end ∗ D ⦄.
Proof.
  intros Hf A rest. unfold hoare. rewrite is_list_mid. iIntros "[H HD]". simpl in Hf.
  assert (xs = tail A ++ rest) as Exs by by rewrite /A /rest /= run_of_app.
  assert (sorted lt A = true) as HsA by apply run_of_sorted.
  pose proof (f_equal length Exs) as Hlen. rewrite length_app in Hlen.
  iApply wp_bind. iApply (hoare_wp_ret _ _ _ _ _ (find_end_of_run_spec fuel (l~0 :: ys)%positive x xs _ [] ltac:(lia)) with "[$H $HD]").
  iIntros (r) "(-> & H & HD)". fold rest.
  rewrite -is_list_mid. rewrite (app_cons_assoc ys x xs) Exs (app_assoc _ (tail A)).
  iDestruct (first_end l _ rest with "H") as %E. unfold next_of. fold (first l rest).
  rewrite -(app_assoc _ (tail A)) -Exs -app_cons_assoc.
  destruct rest as [|y zs] eqn:Erest.
  { rewrite bool_decide_true; [|by apply E]. iApply wp_ret. iFrame. done. }
  rewrite bool_decide_false; [|by rewrite E]. clear E.
  set (B := y :: (run_of lt y zs).1). set (rest' := (run_of lt y zs).2).
  assert (sorted lt B = true) as HsB by apply run_of_sorted.
  assert (zs = tail B ++ rest') as Ezs by by rewrite /B /rest' /= run_of_app.
  pose proof (f_equal length Ezs) as Hlen'. rewrite length_app in Hlen'. simpl in Hlen.
  iApply wp_bind.
  assert (ys ++ x :: xs = (ys ++ A) ++ y :: zs) as -> by by rewrite Exs -app_assoc.
  rewrite is_list_mid.
  iApply (hoare_wp_ret _ _ _ _ _ (find_end_of_run_spec fuel (l~0 :: ys ++ A)%positive y zs _ [] ltac:(lia)) with "[$H $HD]").
  iIntros (r) "(-> & H & HD)". fold rest'.
  assert (∃ e v, rest' ++ [l~1]%positive = e :: v) as (e & v & Ee).
  { destruct rest' as [|e v]; [by eexists _, _|by exists e, (v ++ [l~1]%positive)]. }
  assert (∃ w p, (l~0 :: ys)%positive = w ++ [p]) as (w & p & Ep).
  { destruct (snoc_inv (l~0 :: ys)%positive) as [|(w & p & ->)]; [done|]. by exists w, p. }
  assert ((l~0 :: ys ++ A)%positive ++ y :: zs ++ [l~1]%positive = w ++ p :: A ++ B ++ e :: v) as ->.
  { rewrite app_comm_cons Ep {1}Ezs -Ee -!app_assoc. done. }
  assert (next_of (l~1)%positive rest' = Some e) as -> by by rewrite /next_of Ee.
  iApply wp_bind.
  iApply (hoare_wp_ret _ _ _ _ _ (inplace_merge_spec fuel w p A B e v _ _ _ HsA HsB) with "[$H $HD]").
  iIntros ([]) "[H HD]". iApply wp_ret. iFrame "HD". iSplit; [by rewrite /first Ee|].
  unfold is_list. rewrite -!app_assoc Ee (app_comm_cons ys _ (l~0)%positive) Ep -app_assoc. iFrame.
  Unshelve. all: simpl in *; (done || lia).
Qed.

Lemma sort_round_equiv fuel (a0 : ptr) (n : Z) :
  a0 ≠ Some (l~1)%positive →
  sort_round fuel (Some less) aux (Some l) (a0, n) ≡
  (r ← (a1b0 ← find_end_of_run fuel (Some less) aux a0 (Some (l~1)%positive);
     if bool_decide (a1b0 = Some (l~1)%positive) then mret None
     else
       b1 ← find_end_of_run fuel (Some less) aux a1b0 (Some (l~1)%positive);
       inplace_merge fuel (Some less) aux a0 a1b0 b1;;
       mret (Some b1));
   mret (match r with None => inr (wrap_u 32 (n + 1)) | Some b1 => inl (b1, wrap_u 32 (n + 1)) end)).
Proof.
  intros Hne h. unfold sort_round, mbind, M_bind, list_end, ASSERT, mret, M_ret. simpl. rewrite bool_decide_true //.
  destruct (find_end_of_run _ _ _ _ _ h) as [a h'| | | |]; try done.
  case_bool_decide; [done|]. destruct (find_end_of_run _ _ _ a _ h') as [b h''| | | |]; try done.
  by destruct (inplace_merge _ _ _ _ _ _ h'').
Qed.

Lemma sort_pass_loop fuel f ys xs n : length (ys ++ xs) < fuel → length xs < f → (n + length xs < 2 ^ 32)%Z → (0 <= n)%Z →
  ⦃ is_list l (ys ++ xs) ∗ D ⦄ loop f (sort_round fuel (Some less) aux (Some l)) (first l xs, n)
  ⦃ r, ⌈r = (n + length (merge_pairs lt (runs lt xs)))%Z⌉ ∗
       is_list l (ys ++ concat (merge_pairs lt (runs lt xs))) ∗ D ⦄.
Proof.
  intros Hf Hf' Hw Hn. unfold hoare. 
  iInduction f as [|f] "IH" forall (ys xs n Hf Hf' Hw Hn); iIntros "[H HD]"; [lia|].
  iApply wp_loop. iDestruct (first_end with "H") as %E.
  destruct xs as [|x xs].
  { iApply wp_bind. iApply wp_list_end. rewrite bool_decide_false; [|tauto].
    iApply wp_ret. iApply wp_ret. iFrame. simpl. iPureIntro. lia. }
  iApply (wp_equiv _ _ _ _ (sort_round_equiv fuel (first l (x :: xs)) n _)).
  simpl in Hw, Hf'. rewrite length_app /= in Hf.
  iApply wp_bind. iApply (hoare_wp_ret _ _ _ _ _ (pass_round fuel ys x xs _) with "[$H $HD]").
  rewrite wrap_u_id; [|unfold in_u; lia]. rewrite runs_run_of.
  set (A := x :: (run_of lt x xs).1). set (rest := (run_of lt x xs).2).
  assert (xs = tail A ++ rest) as Exs by by rewrite /A /rest /= run_of_app.
  pose proof (f_equal length Exs) as Hlen. rewrite length_app in Hlen.
  iIntros (r) "[H HD]". iApply wp_ret. destruct rest as [|y zs].
  { iDestruct "H" as "[-> H]". iApply wp_ret. simpl. rewrite app_nil_r {1}Exs app_nil_r /=. iFrame. iPureIntro. lia. }
  iDestruct "H" as "[-> H]". rewrite runs_run_of. cbn [merge_pairs concat]. 
  set (B := y :: (run_of lt y zs).1). set (rest' := (run_of lt y zs).2) in *.
  assert (zs = tail B ++ rest') as Ezs by by rewrite /B /rest' /= run_of_app.
  pose proof (f_equal length Ezs) as Hlen'. rewrite length_app in Hlen'. simpl in Hlen.
  rewrite app_assoc. iApply (wp_wand with "[H HD]").
  - iApply ("IH" with "[%] [%] [%] [%] [$H $HD]"); [|lia..].
    rewrite !length_app merge_Permutation length_app /=. simpl in *. lia.
  - iSplit; [|by iIntros (e) "[]"]. iIntros (r) "(-> & H & $)". rewrite -app_assoc. iFrame. iPureIntro. simpl. lia.
  Unshelve. all: simpl; (by rewrite E || lia).
Qed.

Lemma sort_pass_spec fuel xs : length xs < fuel → (length xs < 2 ^ 32)%Z →
  ⦃ is_list l xs ∗ D ⦄ sort_pass fuel (Some less) aux (Some l)
  ⦃ r, ⌈r = Z.of_nat (length (merge_pairs lt (runs lt xs)))⌉ ∗ is_list l (concat (merge_pairs lt (runs lt xs))) ∗ D ⦄.
Proof.
  intros Hf Hw. unfold hoare, sort_pass. iIntros "[H HD]".
  iApply wp_bind. iApply (wp_list_begin with "H"). iIntros "H". fold (first l xs).
  iApply (sort_pass_loop fuel fuel [] xs 0 with "[$H $HD]"); simpl; lia.
Qed.

Context (Hlt : strict_weak lt).

(** [ys] is [xs] sorted, and elements that are equivalent are in the same order. *)
Definition stably_sorts (xs ys : list loc) : Prop :=
  ys ≡ₚ xs ∧ ∀ x, filter (equivalent lt x) ys = filter (equivalent lt x) xs.

Lemma pass_stable xs : stably_sorts xs (concat (merge_pairs lt (runs lt xs))).
Proof.
  destruct (runs_spec lt xs) as (Hc & Hs & _). split.
  - by rewrite merge_pairs_perm Hc.
  - intros x. by rewrite merge_pairs_stable //; [by rewrite Hc|apply Hlt|apply Hlt].
Qed.

Lemma stably_sorts_trans xs ys zs : stably_sorts xs ys → stably_sorts ys zs → stably_sorts xs zs.
Proof. intros [H1 H2] [H3 H4]. split; [by rewrite H3|]. intros x. by rewrite H4. Qed.

Lemma sort_loop fuel f xs : length xs < fuel → (length xs < 2 ^ 32)%Z → length (runs lt xs) < f →
  ⦃ is_list l xs ∗ D ⦄
  loop f (λ _, output_run_cnt ← sort_pass fuel (Some less) aux (Some l);
               mret (if bool_decide (output_run_cnt > 1)%Z then inl tt else inr tt)) tt
  ⦃ _u, ∃ ys, ⌈sorted lt ys = true ∧ stably_sorts xs ys⌉ ∗ is_list l ys ∗ D ⦄.
Proof.
  intros Hf Hw Hr. unfold hoare.
  iInduction f as [|f] "IH" forall (xs Hf Hw Hr); iIntros "[H HD]"; [lia|].
  iApply wp_loop. iApply wp_bind.
  iApply (hoare_wp_ret _ _ _ _ _ (sort_pass_spec fuel xs Hf Hw) with "[$H $HD]").
  iIntros (r) "(-> & H & HD)". iApply wp_ret.
  pose proof (pass_stable xs) as Hstable. set (ms := merge_pairs lt (runs lt xs)) in *.
  assert (Forall (λ r, r ≠ [] ∧ sorted lt r = true) ms) as Hms by (apply merge_pairs_sorted; [apply Hlt|apply runs_spec]).
  pose proof (merge_pairs_length lt (runs lt xs)) as Hhalf. fold ms in Hhalf.
  pose proof (runs_concat lt ms Hms) as Hruns.
  assert (length (concat ms) = length xs) as Hlen by (destruct Hstable as [-> _]; done).
  case_bool_decide as Hcnt.
  - iApply (wp_wand with "[H HD]").
    + iApply ("IH" $! (concat ms) with "[%] [%] [%] [$H $HD]"); lia.
    + iSplit; [|by iIntros (e) "[]"]. iIntros (u) "(%ys & [% %] & $)". iPureIntro.
      split; [done|]. by eapply stably_sorts_trans.
  - iApply wp_ret. iExists (concat ms). iFrame. iPureIntro. split; [|done].
    destruct ms as [|m [|m' ms']]; [done| |simpl in Hcnt; lia].
    simpl. rewrite app_nil_r. by apply Forall_inv in Hms as [_ Hms].
Qed.

Lemma list_sort_spec fuel xs : length xs < fuel → (length xs < 2 ^ 32)%Z →
  ⦃ is_list l xs ∗ D ⦄ list_sort fuel (Some less) aux (Some l)
  ⦃ _u, ∃ ys, ⌈StronglySorted (ordered lt) ys ∧ stably_sorts xs ys⌉ ∗ is_list l ys ∗ D ⦄.
Proof.
  intros Hf Hw. unfold hoare, list_sort. iIntros "[H HD]".
  iApply wp_bind. iApply wp_ASSERT_ptr. iApply wp_bind. iApply wp_ret.
  destruct (runs_spec lt xs) as (_ & _ & Hruns).
  iApply wp_bind. iApply (hoare_wp_ret with "[H HD]"); [apply (sort_loop fuel fuel xs); lia|iFrame|].
  iIntros ([]) "(%ys & [%Hs %Hst] & H & HD)".
  assert (length ys = length xs) as Hlen by (destruct Hst as [-> _]; done).
  iApply wp_ASSERT_M. iApply wp_bind. iApply (wp_list_begin with "H"). iIntros "H".
  iApply wp_bind. iApply wp_list_end. rewrite is_list_cons.
  iApply (hoare_wp_ret with "[H HD]"); [apply (is_sorted_range fuel [(l~0)%positive] ys (l~1)%positive []); lia|iFrame|].
  iIntros (r) "(-> & H & HD)". iSplit; [done|]. iExists ys. iFrame. iPureIntro. split; [|done].
  apply Sorted_StronglySorted; [exact (ordered_trans lt Hlt)|by apply sorted_Sorted].
Qed.

(** * Insertion in order *)

(** The elements that [elem] is not less than, before the first one that it is
    less than, and the others. *)
Definition before (elem : loc) (xs : list loc) : list loc := fst (scan (λ e _, if lt elem e then inr tt else inl tt) xs tt).

Fixpoint insert_ordered (elem : loc) (xs : list loc) : list loc :=
  match xs with
  | [] => [elem]
  | x :: xs => if lt elem x then elem :: x :: xs else x :: insert_ordered elem xs
  end.

Lemma insert_ordered_before elem xs :
  ∃ ys, xs = ys ++ before elem xs ∧ insert_ordered elem xs = ys ++ elem :: before elem xs.
Proof.
  unfold before. induction xs as [|x xs (ys & Hxs & Hins)]; simpl; [by exists []|].
  destruct (lt elem x); simpl; [by exists []|]. exists (x :: ys). rewrite Hins. split; [|done].
  by rewrite {1}Hxs.
Qed.

Lemma insert_at ys xs x :
  ⦃ is_list (N := N) l (ys ++ xs) ∗ elem x ⦄ list_insert (first l xs) (Some x) ⦃ _u, is_list l (ys ++ x :: xs) ⦄.
Proof.
  assert (∃ w p, (l~0 :: ys)%positive = w ++ [p]) as (w & p & Ep).
  { destruct (snoc_inv (l~0 :: ys)%positive) as [|(w & p & ->)]; [done|]. by exists w, p. }
  assert (∃ e v, xs ++ [l~1]%positive = e :: v) as (e & v & Ee).
  { destruct xs as [|e v]; [by eexists _, _|by exists e, (v ++ [l~1]%positive)]. }
  assert (first l xs = Some e) as -> by by rewrite /first Ee.
  pose proof (list_insert_spec (N := N) w p e v x) as Hspec. unfold hoare in *.
  rewrite is_list_mid is_list_range Ee Ep -!app_assoc. exact Hspec.
Qed.

Lemma list_insert_ordered_spec fuel xs x : length xs < fuel →
  ⦃ is_list l xs ∗ elem x ∗ D ⦄ list_insert_ordered fuel (Some less) aux (Some l) (Some x)
  ⦃ _u, is_list l (insert_ordered x xs) ∗ D ⦄.
Proof.
  intros Hf. unfold hoare, list_insert_ordered. iIntros "(H & Hx & HD)".
  do 2 (iApply wp_bind; iApply wp_ASSERT_ptr). iApply wp_bind. iApply wp_ret.
  iApply wp_bind. iApply (wp_list_begin with "H"). iIntros "H". fold (first l xs).
  iApply wp_bind. iApply (hoare_wp_ret with "[H HD]");
    [apply (for_each_spec l fuel _ (λ e _, if lt x e then inr tt else inl tt) (λ _, True) D [] xs tt Hf); [done| |done]|iFrame|].
  { intros e [] _. unfold hoare. iIntros "HD". iApply wp_bind. iApply (wp_less with "HD"). iIntros "HD".
    iApply wp_ret. iFrame. by destruct (lt x e). }
  iIntros (r) "(-> & H & HD)". cbn [fst app]. fold (before x xs).
  destruct (insert_ordered_before x xs) as (ys & Hxs & Hins). rewrite {1}Hxs Hins.
  iApply (hoare_wp_ret _ _ _ _ _ (insert_at ys (before x xs) x) with "[$H $Hx]").
  iIntros ([]) "$". iFrame.
Qed.

Lemma insert_ordered_sorted x xs : Sorted (ordered lt) xs → Sorted (ordered lt) (insert_ordered x xs).
Proof.
  induction 1 as [|y ys Hys IH Hy]; simpl; [by repeat constructor|].
  destruct (lt x y) eqn:E.
  - constructor; [by constructor|]. constructor. by apply (lt_asym lt Hlt).
  - constructor; [done|]. destruct Hy as [|z zs Hz]; simpl; [by constructor|].
    destruct (lt x z); by constructor.
Qed.

(** * Duplicates *)

(** The list of duplicates, or the removed elements when there is none. *)
Definition removed (duplicates : ptr) (ys : list loc) : hpropI N :=
  match duplicates with Some d => is_list d ys | None => [∗ list] y ∈ ys, elem y end%I.

Lemma wp_remove_dup duplicates ys x Φ Ψ :
  removed duplicates ys -∗ elem x -∗ (removed duplicates (ys ++ [x]) -∗ Φ tt) -∗
  wp (if not_null duplicates then list_push_back duplicates (Some x) else mret tt) Φ Ψ.
Proof.
  iIntros "H Hx HΦ". destruct duplicates as [d|]; simpl.
  - iApply (hoare_wp_ret _ _ _ _ _ (list_push_back_spec d ys x) with "[$H $Hx]"). by iIntros ([]).
  - iApply wp_ret. iApply "HΦ". rewrite big_sepL_app /=. by iFrame.
Qed.

Lemma list_unique_loop f duplicates ys done x xs : length xs < f →
  ⦃ is_list l (done ++ x :: xs) ∗ removed duplicates ys ∗ D ⦄
  loop f (λ elem,
      next ← list_next elem;
      e ← list_end (Some l);
      if bool_decide (next ≠ e) then
        same ← M_and (negb <$> call (Some less) (elem, next, aux)) (negb <$> call (Some less) (next, elem, aux));
        if (same : bool) then
          list_remove next;;
          (if not_null duplicates then list_push_back duplicates next else mret tt);;
          mret (inl elem)
        else mret (inl next)
      else mret (inr tt)) (Some x)
  ⦃ _u, is_list l (done ++ x :: (unique_from lt x xs).1) ∗ removed duplicates (ys ++ (unique_from lt x xs).2) ∗ D ⦄.
Proof.
  unfold hoare. iInduction f as [|f] "IH" forall (ys done x xs); iIntros (Hf) "(H & Hd & HD)"; [lia|].
  iApply wp_loop. iApply wp_bind. iApply (wp_list_next_at with "H"). iIntros "H".
  iApply wp_bind. iApply wp_list_end. rewrite app_cons_assoc. iDestruct (first_end with "H") as %E.
  destruct xs as [|y xs].
  { rewrite bool_decide_false; [|tauto]. iApply wp_ret. iApply wp_ret. rewrite !app_nil_r. simpl. iFrame. }
  rewrite bool_decide_true; [|by rewrite E]. simpl in *. unfold M_and.
  assert (∀ b : bool, (if b then mret b else mret false : M (gmap loc N) bool) = mret b) as Hb by by intros [].
  iApply wp_bind. iApply wp_bind. iApply wp_fmap. iApply (wp_less with "HD"). iIntros "HD".
  destruct (lt x y) eqn:Hxy; cbn [negb andb].
  { iApply wp_ret. iApply wp_ret. iApply (wp_wand with "[H Hd HD]"); [iApply ("IH" with "[%] [$H $Hd $HD]"); lia|].
    iSplit; [|by iIntros (e) "[]"]. iIntros (u) "(H & $ & $)". rewrite -(app_assoc done). cbn [fst snd app]. iFrame. }
  iApply wp_fmap. iApply (wp_less with "HD"). iIntros "HD". destruct (lt y x) eqn:Hyx; cbn [negb andb].
  { iApply wp_ret. iApply (wp_wand with "[H Hd HD]"); [iApply ("IH" with "[%] [$H $Hd $HD]"); lia|].
    iSplit; [|by iIntros (e) "[]"]. iIntros (u) "(H & $ & $)". rewrite -(app_assoc done). cbn [fst snd app]. iFrame. }
  iApply wp_bind. iApply (hoare_wp_ret with "H"); [apply list_remove_at|]. iIntros (r) "(_ & H & Hy)".
  iApply wp_bind. iApply (wp_remove_dup with "Hd Hy"). iIntros "Hd". iApply wp_ret.
  rewrite -app_cons_assoc. iApply (wp_wand with "[H Hd HD]"); [iApply ("IH" with "[%] [$H $Hd $HD]"); lia|].
  iSplit; [|by iIntros (e) "[]"]. iIntros (u) "(H & Hd & $)". cbn [fst snd]. rewrite -app_assoc. iFrame.
Qed.

Lemma list_unique_spec fuel duplicates xs ys : length xs < fuel →
  ⦃ is_list l xs ∗ removed duplicates ys ∗ D ⦄ list_unique fuel (Some less) aux (Some l) duplicates
  ⦃ _u, is_list l (unique lt xs).1 ∗ removed duplicates (ys ++ (unique lt xs).2) ∗ D ⦄.
Proof.
  intros Hf. unfold hoare, list_unique. iIntros "(H & Hd & HD)".
  iApply wp_bind. iApply wp_ASSERT_ptr. iApply wp_bind. iApply wp_ret.
  iApply wp_bind. iApply (wp_list_empty with "H"). iIntros "H".
  destruct xs as [|x xs]; [rewrite bool_decide_true //|rewrite bool_decide_false //].
  { iApply wp_ret. rewrite app_nil_r. simpl. iFrame. }
  iApply wp_bind. iApply (wp_list_begin with "H"). iIntros "H". simpl in Hf.
  iApply (list_unique_loop fuel duplicates ys [] x xs with "[$H $Hd $HD]"). lia.
Qed.

(** * Extremes *)

Lemma list_extreme_spec fuel (f : ptr → ptr → M (gmap loc N) bool) better xs : length xs < fuel →
  (∀ m e, ⦃ D ⦄ f (Some m) (Some e) ⦃ r, ⌈r = better m e⌉ ∗ D ⦄) →
  ⦃ is_list l xs ∗ D ⦄ list_extreme fuel (Some l) f
  ⦃ r, ⌈r = match xs with [] => Some (l~1)%positive | x :: xs => Some (best better x xs) end⌉ ∗ is_list l xs ∗ D ⦄.
Proof.
  intros Hf Hbetter. unfold hoare, list_extreme. iIntros "[H HD]".
  iApply wp_bind. iApply (wp_list_begin with "H"). iIntros "H". fold (first l xs).
  iApply wp_bind. iApply wp_list_end. iDestruct (first_end l [] xs with "H") as %E.
  destruct xs as [|x xs]; [rewrite bool_decide_false; [|tauto]; iApply wp_ret; by iFrame|].
  rewrite bool_decide_true; [|by rewrite E]. iApply wp_bind.
  iApply (wp_list_next_at l [] with "H"). iIntros "H". simpl in Hf.
  set (step := λ (e : loc) (m : ptr), @inl ptr ptr (if (if m is Some m then better m e else false) then Some e else m)).
  iApply wp_bind. iApply (hoare_wp_ret with "[H HD]");
    [apply (for_each_spec l fuel _ step (λ m, is_Some m) D [x] xs (Some x)); [lia|done| |]|iFrame|].
  - intros e m [m' ->]. unfold hoare. iIntros "HD". iApply wp_bind.
    iApply (hoare_wp_ret with "HD"); [apply Hbetter|]. iIntros (r) "[-> HD]". iApply wp_ret. by iFrame.
  - intros e m s' [m' ->] [= <-]. by destruct (better m' e).
  - iIntros (r) "(-> & H & HD)". iApply wp_ret. iFrame. iPureIntro. simpl. clear.
    revert x. induction xs as [|y xs IH]; intros x; simpl; [done|]. rewrite -IH. by destruct (better x y).
Qed.

(** * Correctness *)

(** C31: [list_sort] terminates without a failed assertion and leaves the elements
    of the list in nondecreasing order, equivalent elements in the order in which
    they were: a stable sort, for any list shorter than 2^32 and any comparison
    that is a strict weak order. *)
Theorem list_sort_correct fuel xs : length xs < fuel → (length xs < 2 ^ 32)%Z →
  ⦃ is_list l xs ∗ D ⦄ list_sort fuel (Some less) aux (Some l)
  ⦃ _u, ∃ ys, ⌈StronglySorted (ordered lt) ys ∧ ys ≡ₚ xs ∧
                (∀ x, filter (equivalent lt x) ys = filter (equivalent lt x) xs)⌉ ∗ is_list l ys ∗ D ⦄.
Proof. apply list_sort_spec. Qed.

(** sorting a list and then calling [list_unique] with a list for the
    duplicates leaves one element of each class of equivalent ones, in strictly
    increasing order, and appends all others to the other list. *)
Theorem list_sort_unique_correct fuel d xs ds : length xs < fuel → (length xs < 2 ^ 32)%Z →
  ⦃ is_list l xs ∗ is_list d ds ∗ D ⦄
  list_sort fuel (Some less) aux (Some l);; list_unique fuel (Some less) aux (Some l) (Some d)
  ⦃ _u, ∃ ys zs, ⌈StronglySorted (λ a b, lt a b = true) ys ∧ ys ++ zs ≡ₚ xs ∧
                   (∀ x, x ∈ xs → ∃ y, y ∈ ys ∧ equivalent lt x y)⌉ ∗
       is_list l ys ∗ is_list d (ds ++ zs) ∗ D ⦄.
Proof.
  intros Hf Hw. unfold hoare. iIntros "(H & Hd & HD)". iApply wp_bind.
  iApply (hoare_wp_ret _ _ _ _ _ (list_sort_spec fuel xs Hf Hw) with "[$H $HD]").
  iIntros (u) "(%ys & [%Hs [%Hp _]] & H & HD)". assert (length ys < fuel) as Hf' by by rewrite Hp.
  iApply (hoare_wp_ret _ _ _ _ _ (list_unique_spec fuel (Some d) ys ds Hf') with "[$H $Hd $HD]").
  iIntros (u') "(H & Hd & $)". iExists _, _. iFrame. iPureIntro.
  destruct ys as [|y ys]; simpl; [split_and!; [constructor|done|]; intros x; rewrite -Hp; by intros ?%elem_of_nil|].
  split_and!.
  - apply Sorted_StronglySorted; [intros a b c; by apply lt_trans_true|].
    by apply unique_from_strict, StronglySorted_Sorted.
  - by rewrite -Hp unique_from_perm.
  - intros x. rewrite -Hp. by apply unique_from_represents.
Qed.

(** [list_max] and [list_min] return the earliest of the greatest and of the
    least elements, and the tail of an empty list. *)
Theorem list_max_min_correct fuel xs : length xs < fuel →
  ⦃ is_list l xs ∗ D ⦄
  (p ← list_max fuel (Some less) aux (Some l); q ← list_min fuel (Some less) aux (Some l); mret (p, q))
  ⦃ r, ⌈(xs = [] ∧ r = (Some l~1, Some l~1)%positive) ∨
        ∃ x y, r = (Some x, Some y) ∧ earliest lt xs x ∧ earliest (λ a b, lt b a) xs y⌉ ∗
       is_list l xs ∗ D ⦄.
Proof.
  intros Hf. assert (strict_weak (λ a b, lt b a)) as Hgt.
  { split; [intros; by apply (lt_asym lt Hlt)|]. intros x y z Hxy Hyz. by apply (ordered_trans lt Hlt z y x). }
  unfold hoare, list_max, list_min. iIntros "[H HD]". iApply wp_bind.
  iApply (hoare_wp_ret with "[H HD]"); [apply (list_extreme_spec fuel _ lt xs Hf)|iFrame|].
  { intros m e. apply less_spec. }
  iIntros (p) "(-> & H & HD)". iApply wp_bind.
  iApply (hoare_wp_ret with "[H HD]"); [apply (list_extreme_spec fuel _ (λ m e, lt e m) xs Hf)|iFrame|].
  { intros m e. apply less_spec. }
  iIntros (q) "(-> & H & HD)". iApply wp_ret. iFrame. iPureIntro.
  destruct xs as [|x xs]; [by left|]. right.
  exists (best lt x xs), (best (λ a b, lt b a) x xs). split_and!; [done|by apply best_spec|].
  by apply (best_spec (λ a b, lt b a)).
Qed.
End sort.
End ordered_operations.

(** * Elements that are compared by their addresses *)

Definition addr_lt (a b : loc) : bool := bool_decide (a < b)%positive.
Definition addr_less {N} (args : ptr * ptr * ptr) : M (gmap loc N) bool :=
  match args with (Some a, Some b, _) => mret (addr_lt a b) | _ => undef end.

Lemma addr_strict_weak : strict_weak addr_lt.
Proof.
  split; intros *; unfold ordered, addr_lt; rewrite ?bool_decide_eq_true ?bool_decide_eq_false; lia.
Qed.

Lemma addr_less_spec {N} a b :
  ⦃ emp ⦄ addr_less (N := N) (Some a, Some b, NULL) ⦃ r, ⌈r = addr_lt a b⌉ ∗ emp ⦄.
Proof. unfold hoare. iIntros "_". iApply wp_ret. done. Qed.

Lemma list_sort_correct_witness :
  ⦃ is_list (N := ptr) 1 [7; 5; 6]%positive ∗ emp ⦄ list_sort 4 (Some addr_less) NULL (Some 1%positive)
  ⦃ _u, ∃ ys, ⌈StronglySorted (ordered addr_lt) ys ∧ ys ≡ₚ [7; 5; 6]%positive ∧
                (∀ x, filter (equivalent addr_lt x) ys = filter (equivalent addr_lt x) [7; 5; 6]%positive)⌉ ∗ is_list 1 ys ∗ emp ⦄.
Proof. apply (list_sort_correct _ _ _ _ addr_less_spec 1 addr_strict_weak); simpl; lia. Defined.

Lemma list_sort_unique_correct_witness :
  ⦃ is_list (N := ptr) 1 [7; 5; 6]%positive ∗ is_list 10 [] ∗ emp ⦄
  list_sort 4 (Some addr_less) NULL (Some 1%positive);; list_unique 4 (Some addr_less) NULL (Some 1%positive) (Some 10%positive)
  ⦃ _u, ∃ ys zs, ⌈StronglySorted (λ a b, addr_lt a b = true) ys ∧ ys ++ zs ≡ₚ [7; 5; 6]%positive ∧
                   (∀ x, x ∈ [7; 5; 6]%positive → ∃ y, y ∈ ys ∧ equivalent addr_lt x y)⌉ ∗
       is_list 1 ys ∗ is_list 10 ([] ++ zs) ∗ emp ⦄.
Proof. apply (list_sort_unique_correct _ _ _ _ addr_less_spec 1 addr_strict_weak); simpl; lia. Defined.

Lemma list_max_min_correct_witness :
  ⦃ is_list (N := ptr) 1 [7; 5; 6]%positive ∗ emp ⦄
  (p ← list_max 4 (Some addr_less) NULL (Some 1%positive); q ← list_min 4 (Some addr_less) NULL (Some 1%positive); mret (p, q))
  ⦃ r, ∃ p q, ⌈r = (Some p, Some q)⌉ ∗ is_list 1 [7; 5; 6]%positive ∗ emp ⦄.
Proof.
  eapply hoare_conseq; [apply (list_max_min_correct _ _ _ _ addr_less_spec 1 addr_strict_weak 4 [7; 5; 6]%positive); simpl; lia|done| |done].
  iIntros (r) "([[%H _]|(%x & %y & %H & _)] & $)"; [discriminate H|by iExists x, y].
Defined.

(** Three elements in descending order, sorted in the store. *)
Example list_sort_run :
  (match (list_init (Some 1%positive);; run_cmds 1 10 [PushBack 7; PushBack 6; PushBack 5]%positive;;
          list_sort 10 (Some addr_less) NULL (Some 1%positive);; run_cmds 1 10 [PopFront; PopFront; PopFront])
    (gset_to_gmap NULL (list_to_set (Pos.of_nat <$> seq 1 20))) with
   | Ret r _ => r | _ => [] end) = [Some 5; Some 6; Some 7]%positive.
Proof. vm_compute. done. Qed.
