(* ===== verification/PintosMemory.v ===== *)
(** The memory that the page allocator and the block allocator of Pintos hand out
    (src/bin/OS/pintos/src/threads/palloc.c, malloc.c): words of four bytes at
    addresses, their use as elements of lists, and [memset] and [memcpy] of
    lib/string.c on them. *)
From S2P Require Export Bytes PintosBitmap PintosList.
Local Open Scope Z_scope.

(** * Addresses

    Cells of the store hold words, or structures of static data of some type [X].
    The word at the byte address [a] is at [loc_of a].  The list element at [e] has
    its variables at the words [e~0] and [e~1], so that its address is [8 e - 4]:
    this is the word that a pointer to it is.  Any word can be read as a pointer. *)

Definition loc_of (a : Z) : loc := Z.to_pos (a / 4 + 1).
Definition ptr_of (a : Z) : ptr := if decide (a = 0) then NULL else Some (Z.to_pos ((a + 4) / 8)).
Definition address (p : ptr) : Z := match p with Some e => 8 * Z.pos e - 4 | None => 0 end.

Lemma ptr_of_address p : ptr_of (address p) = p.
Proof.
  destruct p as [e|]; [|done]. unfold ptr_of, address. case_decide; [lia|]. f_equal.
  replace ((8 * Z.pos e - 4 + 4) / 8) with (Z.pos e) by div_lia. done.
Qed.

#[export] Instance ptr_word : Struct ptr Z := {|
  pack := address;
  unpack w := Some (ptr_of w);
  unpack_pack p := f_equal Some (ptr_of_address p);
|}.

(** * Access to memory *)

Section memory.
Context {X : Type}.
Abbreviation cell := (Z + X)%type.
Abbreviation heap := (gmap loc cell).

Definition load_word (a : Z) : M heap Z :=
  if decide (0 < a ∧ a mod 4 = 0) then w ← load (T := Z) (Some (loc_of a)); mret (wrap_u 32 w) else undef.
Definition store_word (a w : Z) : M heap unit :=
  if decide (0 < a ∧ a mod 4 = 0) then store (Some (loc_of a)) (wrap_u 32 w) else undef.

(** The word that has the byte at [a], and where that byte is in it. *)
Definition word_of (a : Z) : Z := a - a mod 4.
Definition load_byte (a : Z) : M heap Z :=
  w ← load_word (word_of a); defined (byte_at (a mod 4) (le_split 4 w)).
Definition store_byte (a c : Z) : M heap unit :=
  w ← load_word (word_of a);
  store_word (word_of a) (le_combine (splice (a mod 4) [wrap_u 8 c] (le_split 4 w))).

(** The loops that count [size] down run over the positions below [size]. *)
Definition memset (dst_ value size : Z) : M heap Z :=
  ASSERT (bool_decide (dst_ ≠ 0 ∨ size = 0));;
  loop (S (Z.to_nat size)) (λ i,
    if bool_decide (i < size) then store_byte (dst_ + i) value;; mret (inl (i + 1))
    else mret (inr tt)) 0;;
  mret dst_.

Definition memcpy (dst_ src_ size : Z) : M heap Z :=
  ASSERT (bool_decide (dst_ ≠ 0 ∨ size = 0));; ASSERT (bool_decide (src_ ≠ 0 ∨ size = 0));;
  loop (S (Z.to_nat size)) (λ i,
    if bool_decide (i < size) then c ← load_byte (src_ + i); store_byte (dst_ + i) c;; mret (inl (i + 1))
    else mret (inr tt)) 0;;
  mret dst_.

(** * Blocks of memory *)

(** The word at [a] has the bytes [l]; the memory from [a] on has the bytes [bs]. *)
Definition word_at (a : Z) (l : bytes) : hpropI cell := (∃ w : Z, ⌈le_split 4 w = l⌉ ∗ loc_of a ↦ w)%I.
Definition block (a : Z) (bs : bytes) : hpropI cell :=
  (⌈0 < a ∧ a mod 4 = 0 ∧ size_of bs mod 4 = 0⌉ ∗
   [∗ list] i ∈ seqZ 0 (size_of bs / 4), word_at (a + 4 * i) (slice (4 * i) 4 bs))%I.

Lemma loc_of_inj a b : 0 < a → 0 < b → a mod 4 = 0 → b mod 4 = 0 → loc_of a = loc_of b → a = b.
Proof. unfold loc_of. intros ???? H. apply (f_equal Z.pos) in H. rewrite !Z2Pos.id in H; div_lia. Qed.

Lemma word_at_ne a b x y : word_at a x -∗ word_at b y -∗ ⌜loc_of a ≠ loc_of b⌝.
Proof. iIntros "(% & _ & H1) (% & _ & H2)". iApply (points_to_ne with "H1 H2"). Qed.

Lemma big_sepL_seqZ_shift (Φ : Z → hpropI cell) b m n :
  ([∗ list] i ∈ seqZ (b + m) n, Φ i) ⊣⊢ [∗ list] i ∈ seqZ b n, Φ (m + i).
Proof.
  replace (b + m) with (m + b) by lia. rewrite -fmap_add_seqZ big_sepL_fmap. done.
Qed.

Lemma block_pure a bs : block a bs ⊢ ⌜0 < a ∧ a mod 4 = 0 ∧ size_of bs mod 4 = 0⌝.
Proof. iIntros "[% _]". by iPureIntro. Qed.

Lemma block_app a x y : 0 < a → a mod 4 = 0 → size_of x mod 4 = 0 → size_of y mod 4 = 0 →
  block a (x ++ y) ⊣⊢ block a x ∗ block (a + size_of x) y.
Proof.
  intros Ha Ha4 Hx Hy. pose proof (size_of_nonneg x). pose proof (size_of_nonneg y). unfold block.
  assert (∀ P : Prop, P → ⌈P⌉ ⊣⊢@{hpropI cell} emp) as Hpure.
  { intros P HP. iSplit; [by iIntros "_"|]. iIntros "_". done. }
  rewrite !Hpure; [|sizes; div_lia..]. rewrite !left_id.
  sizes. replace ((size_of x + size_of y) / 4) with (size_of x / 4 + size_of y / 4) by div_lia.
  rewrite seqZ_app; [|div_lia..]. rewrite big_sepL_app. f_equiv.
  - apply big_sepL_proper. intros k i Hi. apply lookup_seqZ in Hi as [-> Hk].
    assert (4 * Z.of_nat k + 4 <= size_of x) by div_lia. f_equiv. block_eq.
  - rewrite big_sepL_seqZ_shift. apply big_sepL_proper. intros k i Hi. apply lookup_seqZ in Hi as [-> Hk].
    replace (a + 4 * (size_of x / 4 + (0 + Z.of_nat k))) with (a + size_of x + 4 * (0 + Z.of_nat k)) by div_lia.
    assert (4 * Z.of_nat k + 4 <= size_of y) by div_lia.
    replace (4 * (size_of x / 4 + (0 + Z.of_nat k))) with (size_of x + 4 * Z.of_nat k) by div_lia.
    f_equiv. block_eq.
Qed.

Lemma block_word a l : 0 < a → a mod 4 = 0 → size_of l = 4 → block a l ⊣⊢ word_at a l.
Proof.
  intros Ha Ha4 Hl. unfold block. rewrite Hl. change (4 / 4) with 1. rewrite (seqZ_cons 0 1) // seqZ_nil //=.
  rewrite right_id Z.mul_0_r Z.add_0_r. replace (slice 0 4 l) with l by by rewrite -Hl slice_all. iSplit; [by iIntros "[_ $]"|]. iIntros "$". done.
Qed.

Lemma word_at_size a l : word_at a l ⊢ ⌜size_of l = 4⌝.
Proof. iIntros "(% & <- & _)". by rewrite size_of_le_split. Qed.

(** The word with the byte at [i], and the block when that word changes. *)
Lemma block_access a bs i : 0 <= i < size_of bs →
  block a bs ⊢ ⌈0 < word_of (a + i) ∧ word_of (a + i) mod 4 = 0 ∧ (a + i) mod 4 = i mod 4⌉ ∗
    word_at (word_of (a + i)) (slice (word_of i) 4 bs) ∗
    (∀ l, word_at (word_of (a + i)) l -∗ block a (splice (word_of i) l bs)).
Proof.
  intros Hi. iIntros "H". iDestruct (block_pure with "H") as %(Ha & Ha4 & Hs). unfold word_of in *.
  iSplit; [iPureIntro; div_lia|].
  set (k := i - i mod 4). assert (0 <= k ∧ k mod 4 = 0 ∧ k + 4 <= size_of bs ∧ a + i - (a + i) mod 4 = a + k) as (Hk0 & Hk4 & Hk & ->) by (subst k; div_lia).
  clearbody k.
  assert (∀ l, size_of l = 4 → splice k l bs = slice 0 k bs ++ l ++ slice (k + 4) (size_of bs - k - 4) bs) as Hsp.
  { intros l Hl. block_eq. }
  assert (bs = slice 0 k bs ++ slice k 4 bs ++ slice (k + 4) (size_of bs - k - 4) bs) as Hbs by block_eq.
  assert (∀ l, size_of l = 4 → block a (splice k l bs) ⊣⊢
    block a (slice 0 k bs) ∗ word_at (a + k) l ∗ block (a + k + 4) (slice (k + 4) (size_of bs - k - 4) bs)) as Hblock.
  { intros l Hl. rewrite Hsp // block_app; [|done..|sizes; div_lia|sizes; div_lia].
    rewrite (size_of_slice 0 k); [|lia..]. f_equiv. rewrite block_app; [|lia|div_lia|by rewrite Hl|sizes; div_lia].
    rewrite Hl block_word; [done|lia|div_lia|done]. }
  rewrite {1}Hbs -Hsp; [|sizes; lia]. rewrite Hblock; [|sizes; lia]. iDestruct "H" as "(H1 & $ & H2)".
  iIntros (l) "H". iDestruct (word_at_size with "H") as %Hl. rewrite Hblock //. iFrame.
Qed.

(** * Access to the bytes of a block *)

Lemma wp_load_word a (w : Z) Φ Ψ : 0 < a → a mod 4 = 0 → loc_of a ↦ w -∗ (loc_of a ↦ w -∗ Φ (wrap_u 32 w)) -∗ wp (load_word a) Φ Ψ.
Proof.
  intros Ha Ha4. unfold load_word. case_decide; [|lia]. iIntros "Hl H". wp_focus. iApply (wp_load with "Hl"). iIntros "Hl".
  iApply wp_ret. by iApply "H".
Qed.
Lemma wp_store_word a (w v : Z) Φ Ψ : 0 < a → a mod 4 = 0 →
  loc_of a ↦ w -∗ (loc_of a ↦ wrap_u 32 v -∗ Φ tt) -∗ wp (store_word a v) Φ Ψ.
Proof. intros Ha Ha4. unfold store_word. case_decide; [|lia]. apply wp_store. Qed.

Lemma le_split_wrap w : le_split 4 (wrap_u 32 w) = le_split 4 w.
Proof. apply (le_split_mod 4). Qed.

Lemma wp_load_byte a bs i c Φ Ψ : byte_at i bs = Some c →
  block a bs -∗ (block a bs -∗ Φ c) -∗ wp (load_byte (a + i)) Φ Ψ.
Proof.
  intros Hc. assert (0 <= i < size_of bs) as Hi.
  { destruct (decide (0 <= i < size_of bs)) as [|Hn]; [done|]. rewrite byte_at_out in Hc; [done|lia]. }
  iIntros "H HΦ". iDestruct (block_pure with "H") as %(_ & _ & Hs4).
  iDestruct (block_access a bs i Hi with "H") as "(%Hp & (%w & %Hw & Hl) & H)". destruct Hp as (H1 & H2 & H3).
  unfold load_byte. wp_focus. iApply (wp_load_word with "Hl"); [done..|]. iIntros "Hl".
  assert (0 <= word_of i ∧ word_of i + 4 <= size_of bs ∧ i = word_of i + i mod 4 ∧ 0 <= i mod 4 < 4) as (Hk0 & Hk & Hki & Hk4).
  { unfold word_of. div_lia. }
  iApply wp_defined.
  { rewrite H3 le_split_wrap Hw byte_at_slice //. by rewrite -Hki. }
  iApply "HΦ". iSpecialize ("H" $! (slice (word_of i) 4 bs) with "[Hl]"); [iExists w; by iFrame|].
  by rewrite splice_slice; [|lia..].
Qed.

Lemma le_split_combine_wrap l : size_of l = 4 → Forall (in_u 8) l → le_split 4 (wrap_u 32 (le_combine l)) = l.
Proof.
  intros Hl Hb. pose proof (le_combine_range l Hb) as Hr. rewrite Hl in Hr.
  rewrite wrap_u_id; [|done]. change 4%nat with (Z.to_nat 4). rewrite -Hl /size_of Nat2Z.id. by apply le_split_combine.
Qed.

Lemma wp_store_byte a bs i c Φ Ψ : 0 <= i < size_of bs →
  block a bs -∗ (block a (splice i [wrap_u 8 c] bs) -∗ Φ tt) -∗ wp (store_byte (a + i) c) Φ Ψ.
Proof.
  intros Hi. iIntros "H HΦ". iDestruct (block_pure with "H") as %(_ & _ & Hs4).
  iDestruct (block_access a bs i Hi with "H") as "(%Hp & (%w & %Hw & Hl) & H)". destruct Hp as (H1 & H2 & H3).
  unfold store_byte. wp_focus. iApply (wp_load_word with "Hl"); [done..|]. iIntros "Hl".
  assert (0 <= word_of i ∧ word_of i + 4 <= size_of bs ∧ i = word_of i + i mod 4 ∧ 0 <= i mod 4 < 4) as (Hk0 & Hk & Hki & Hk4).
  { unfold word_of. div_lia. }
  iApply (wp_store_word with "Hl"); [done..|]. iIntros "Hl". iApply "HΦ".
  assert (size_of [wrap_u 8 c] = 1) as Hc1 by done.
  iSpecialize ("H" $! (splice (i mod 4) [wrap_u 8 c] (slice (word_of i) 4 bs)) with "[Hl]").
  - iExists _. iSplit; [|iExact "Hl"]. iPureIntro. rewrite H3 (le_split_wrap w) -Hw. apply le_split_combine_wrap; [rewrite size_of_splice ?size_of_le_split ?Hc1; lia|].
    apply Forall_splice; [|apply le_split_bytes]. constructor; [|done]. apply wrap_u_range. lia.
  - rewrite splice_sector; [|rewrite ?Hc1; lia..]. by rewrite -Hki.
Qed.

(** * [memset] and [memcpy] *)

Lemma wp_ASSERT (b : bool) Φ Ψ : (if b then Φ tt else Ψ Assert_Failed) ⊢ wp (N := cell) (ASSERT b) Φ Ψ.
Proof. destruct b; [apply wp_ret|apply wp_throw]. Qed.

Lemma splice_snoc (x bs : bytes) c : size_of x < size_of bs → splice (size_of x) [c] (splice 0 x bs) = splice 0 (x ++ [c]) bs.
Proof.
  intros. pose proof (size_of_nonneg x). change (size_of x) with (0 + size_of x) at 1.
  apply splice_app; [done|]. change (size_of [c]) with 1. lia.
Qed.

Lemma slice_snoc i y c : byte_at i y = Some c → slice 0 (i + 1) y = slice 0 i y ++ [c].
Proof.
  intros Hc. assert (0 <= i < size_of y) as Hi.
  { destruct (decide (0 <= i < size_of y)) as [|Hn]; [done|]. rewrite byte_at_out in Hc; [done|lia]. }
  rewrite slice_add; [|lia..]. f_equal. assert (size_of [c] = 1) as H1 by done.
  apply bytes_eq; [rewrite size_of_slice ?H1; lia|]. rewrite size_of_slice; [|lia..]. intros j Hj. replace j with 0 by lia.
  rewrite byte_at_slice; [|lia..]. by rewrite Z.add_0_l Z.add_0_r Hc.
Qed.

Lemma block_bytes a bs : block a bs ⊢ ⌜Forall (in_u 8) bs⌝.
Proof.
  iIntros "H". rewrite Forall_lookup. iIntros (i c Hc).
  assert (0 <= Z.of_nat i < size_of bs) as Hi by (apply lookup_lt_Some in Hc; unfold size_of; lia).
  iDestruct (block_pure with "H") as %(_ & _ & Hs4).
  iDestruct (block_access a bs (Z.of_nat i) Hi with "H") as "(_ & (%w & %Hw & _) & _)". iPureIntro.
  pose proof (le_split_bytes 4 w) as Hb. rewrite Hw Forall_lookup in Hb. apply (Hb (i mod 4)%nat).
  assert (byte_at (Z.of_nat i mod 4) (slice (word_of (Z.of_nat i)) 4 bs) = Some c) as H.
  { rewrite byte_at_slice; [|unfold word_of; div_lia..]. replace (word_of _ + _) with (Z.of_nat i) by (unfold word_of; lia).
    unfold byte_at. rewrite bool_decide_true; [|lia]. by rewrite Nat2Z.id. }
  unfold byte_at in H. rewrite bool_decide_true in H; [|div_lia]. rewrite -H. f_equal.
  change 4 with (Z.of_nat 4). rewrite -Nat2Z.inj_mod. by rewrite Nat2Z.id.
Qed.

Lemma memset_spec a v n bs : 0 <= n <= size_of bs →
  ⦃ block a bs ⦄ memset a v n ⦃ r, ⌈r = a⌉ ∗ block a (splice 0 (replicate (Z.to_nat n) (wrap_u 8 v)) bs) ⦄.
Proof.
  intros Hn. unfold hoare, memset. iIntros "H". iDestruct (block_pure with "H") as %(Ha & _).
  wp_focus. iApply wp_ASSERT. rewrite bool_decide_true; [|lia].
  assert (∀ fuel i bs', 0 <= i <= n → n - i < Z.of_nat fuel → bs' = splice 0 (replicate (Z.to_nat i) (wrap_u 8 v)) bs →
    block a bs' ⊢ wp (loop fuel (λ i,
      if bool_decide (i < n) then store_byte (a + i) v;; mret (inl (i + 1)) else mret (inr tt)) i)
      (λ _, block a (splice 0 (replicate (Z.to_nat n) (wrap_u 8 v)) bs)) (λ _, False%I)) as Hloop.
  { induction fuel as [|fuel IH]; intros i bs' Hi Hf ->; [lia|]. iIntros "H". iApply wp_loop. case_bool_decide as Hlt.
    - wp_focus. iApply (wp_store_byte with "H"); [sizes; lia|]. iIntros "H". wp_finish.
      iApply (IH with "H"); [lia|lia|].
      assert (size_of (replicate (Z.to_nat i) (wrap_u 8 v)) = i) as Hsz by (sizes; lia).
      rewrite -{1}Hsz splice_snoc; [|lia]. replace (Z.to_nat (i + 1)) with (S (Z.to_nat i)) by lia. by rewrite replicate_S_end.
    - wp_finish. by replace n with i by lia. }
  wp_focus. iApply (wp_wand with "[H]").
  { iApply (Hloop _ 0 bs with "H"); [lia|lia|]. by rewrite splice_nil. }
  iSplit; [|iIntros (e) "[]"]. iIntros (u) "H". iApply wp_ret. by iFrame.
Qed.

Lemma memcpy_spec d s n x y : 0 <= n <= size_of x → n <= size_of y →
  ⦃ block d x ∗ block s y ⦄ memcpy d s n ⦃ r, ⌈r = d⌉ ∗ block d (splice 0 (slice 0 n y) x) ∗ block s y ⦄.
Proof.
  intros Hx Hy. unfold hoare, memcpy. iIntros "[Hd Hs]".
  iDestruct (block_pure with "Hd") as %(Hd & _). iDestruct (block_pure with "Hs") as %(Hs & _).
  iDestruct (block_bytes with "Hs") as %Hb.
  wp_focus. iApply wp_ASSERT. rewrite bool_decide_true; [|lia].
  wp_focus. iApply wp_ASSERT. rewrite bool_decide_true; [|lia].
  assert (∀ fuel i x', 0 <= i <= n → n - i < Z.of_nat fuel → x' = splice 0 (slice 0 i y) x →
    block d x' ∗ block s y ⊢ wp (loop fuel (λ i,
      if bool_decide (i < n) then c ← load_byte (s + i); store_byte (d + i) c;; mret (inl (i + 1)) else mret (inr tt)) i)
      (λ _, block d (splice 0 (slice 0 n y) x) ∗ block s y)%I (λ _, False%I)) as Hloop.
  { induction fuel as [|fuel IH]; intros i x' Hi Hf ->; [lia|]. iIntros "[Hd Hs]". iApply wp_loop. case_bool_decide as Hlt.
    - destruct (byte_at_lt i y) as [c Hc]; [lia|].
      wp_focus. iApply (wp_load_byte with "Hs"); [done|]. iIntros "Hs".
      wp_focus. iApply (wp_store_byte with "Hd"); [sizes; lia|]. iIntros "Hd". wp_finish.
      iApply (IH with "[$Hd $Hs]"); [lia|lia|].
      rewrite (slice_snoc i y c) // wrap_u_id.
      + assert (size_of (slice 0 i y) = i) as Hsz by (sizes; lia). rewrite -{1}Hsz splice_snoc; [done|lia].
      + rewrite Forall_lookup in Hb. unfold byte_at in Hc. rewrite bool_decide_true in Hc; [|lia]. by eapply Hb.
    - wp_finish. replace n with i by lia. iFrame. }
  wp_focus. iApply (wp_wand with "[Hd Hs]").
  { iApply (Hloop _ 0 x with "[$Hd $Hs]"); [lia|lia|]. by rewrite slice_nil splice_nil. }
  iSplit; [|iIntros (e) "[]"]. iIntros (u) "[Hd Hs]". iApply wp_ret. by iFrame.
Qed.

(** * Words, elements and blocks *)

(** Four bytes are a word, and a word is four bytes. *)
Lemma block_to_word a l : size_of l = 4 → block a l ⊢ ∃ w : Z, loc_of a ↦ w.
Proof.
  intros Hl. iIntros "H". iDestruct (block_pure with "H") as %(? & ? & _).
  rewrite block_word //. iDestruct "H" as (w) "[_ H]". by iExists w.
Qed.
Lemma word_to_block a (w : Z) : 0 < a → a mod 4 = 0 → loc_of a ↦ w ⊢ block a (le_split 4 w).
Proof. intros. rewrite block_word ?size_of_le_split //. iIntros "H". iExists w. by iFrame. Qed.

Lemma block_split a n bs : 0 <= n <= size_of bs → n mod 4 = 0 →
  block a bs ⊢ block a (slice 0 n bs) ∗ block (a + n) (slice n (size_of bs - n) bs).
Proof.
  intros Hn Hn4. iIntros "H". iDestruct (block_pure with "H") as %(Ha & Ha4 & Hs).
  assert (bs = slice 0 n bs ++ slice n (size_of bs - n) bs) as E by block_eq.
  rewrite {1}E block_app; [|done|done|sizes; div_lia|sizes; div_lia]. by rewrite (size_of_slice 0 n); [|lia..].
Qed.

Lemma block_join a x y n : size_of x = n → block a x ∗ block (a + n) y ⊢ block a (x ++ y).
Proof.
  intros <-. iIntros "[H1 H2]". iDestruct (block_pure with "H1") as %(Ha & Ha4 & Hs).
  iDestruct (block_pure with "H2") as %(_ & _ & Hs'). rewrite block_app //. iFrame.
Qed.

(** The element at an address, and its two words. *)
Lemma elem_loc a : 0 < a → a mod 8 = 4 → ∃ e, ptr_of a = Some e ∧ address (Some e) = a ∧
  (e~0)%positive = loc_of a ∧ (e~1)%positive = loc_of (a + 4).
Proof.
  intros Ha Ha8. exists (Z.to_pos ((a + 4) / 8)). unfold ptr_of, address, loc_of. case_decide; [lia|].
  assert (0 < (a + 4) / 8) as Hk by div_lia. split; [done|]. rewrite Z2Pos.id //. split; [div_lia|].
  pose proof (Z2Pos.id _ Hk) as He. set (e := Z.to_pos ((a + 4) / 8)) in *. clearbody e.
  split; apply (inj Z.pos); rewrite Z2Pos.id; [rewrite (Pos2Z.inj_xO e); div_lia|div_lia|rewrite (Pos2Z.inj_xI e); div_lia|div_lia].
Qed.

Lemma block_to_elem a bs e : address (Some e) = a → size_of bs = 8 → block a bs ⊢ elem_space (N := cell) e.
Proof.
  intros He Hs. iIntros "H". iDestruct (block_pure with "H") as %(Ha & Ha4 & _).
  destruct (elem_loc a Ha) as (e' & He' & Ha' & H0 & H1); [unfold address in He; div_lia|].
  assert (e' = e) as -> by (unfold address in He, Ha'; lia).
  iDestruct (block_split a 4 with "H") as "[H1 H2]"; [lia|done|].
  iDestruct (block_to_word with "H1") as (w1) "H1"; [sizes; lia|]. iDestruct (block_to_word with "H2") as (w2) "H2"; [sizes; lia|].
  unfold elem_space. rewrite H0 H1. iSplitL "H1"; (iExists (inl _); iSplit; [|iAssumption]); iPureIntro; by eexists.
Qed.

Lemma elem_to_block a e : address (Some e) = a → elem (N := cell) e ⊢ ∃ bs, ⌈size_of bs = 8⌉ ∗ block a bs.
Proof.
  intros He. destruct (elem_loc a) as (e' & He' & Ha' & H0 & H1); [unfold address in He; div_lia..|].
  assert (e' = e) as -> by (unfold address in He, Ha'; lia).
  unfold elem. iIntros "(%p & %n & H1 & H2)". rewrite H0 H1.
  iExists (le_split 4 (pack p) ++ le_split 4 (pack n)).
  iSplit; [iPureIntro; by rewrite size_of_app !size_of_le_split|].
  iApply (block_join a (le_split 4 (pack p)) (le_split 4 (pack n)) 4 (size_of_le_split 4 _)).
  unfold address in He. iSplitL "H1".
  - iApply (word_to_block a (pack p)); [lia|div_lia|]. iExact "H1".
  - iApply (word_to_block (a + 4) (pack n)); [lia|div_lia|]. iExact "H2".
Qed.

(** Two blocks have no byte in common. *)
Definition apart (a : Z) (n : Z) (b : Z) (m : Z) : Prop := a + n <= b ∨ b + m <= a.

Lemma block_apart a x b y : 0 < size_of x → 0 < size_of y → block a x ∗ block b y ⊢ ⌜apart a (size_of x) b (size_of y)⌝.
Proof.
  intros Hx Hy. iIntros "[H1 H2]". iDestruct (block_pure with "H1") as %(Ha & Ha4 & Hs).
  iDestruct (block_pure with "H2") as %(Hb & Hb4 & Hs').
  destruct (decide (apart a (size_of x) b (size_of y))) as [|Hn]; [done|]. unfold apart in Hn.
  assert (∃ m, 0 <= m - a < size_of x ∧ 0 <= m - b < size_of y) as (m & Hma & Hmb) by (exists (Z.max a b); lia).
  rewrite (block_access a x (m - a) Hma) (block_access b y (m - b) Hmb).
  iDestruct "H1" as "(_ & H1 & _)". iDestruct "H2" as "(_ & H2 & _)".
  iDestruct (word_at_ne with "H1 H2") as %Hne. exfalso. apply Hne. f_equal. unfold word_of.
  replace (a + (m - a)) with m by lia. by replace (b + (m - b)) with m by lia.
Qed.
End memory.
