(* ===== verification/PintosPalloc.v ===== *)
(** The page allocator of src/bin/OS/pintos/src/threads/palloc.c, with the address
    arithmetic of vaddr.h: its operations, and what each does to the pages of the
    two pools. *)
From S2P Require Export PintosMemory.
Local Open Scope Z_scope.

(** * Virtual addresses *)

Definition PGBITS : Z := 12.
Definition PGSIZE : Z := Z.shiftl 1 PGBITS.
Definition PGMASK : Z := PGSIZE - 1.
Definition PHYS_BASE : Z := 0xc0000000.

Definition pg_ofs (va : Z) : Z := Z.land va PGMASK.
Definition pg_no (va : Z) : Z := Z.shiftr va PGBITS.
Definition pg_round_up (va : Z) : Z := Z.land (wrap_u 32 (va + PGSIZE - 1)) (wrap_u 32 (Z.lnot PGMASK)).
Definition pg_round_down (va : Z) : Z := Z.land va (wrap_u 32 (Z.lnot PGMASK)).

Definition DIV_ROUND_UP (x step : Z) : Z := wrap_u 32 (x + step - 1) / step.

Lemma PGSIZE_eq : PGSIZE = 4096.
Proof. done. Qed.
(** Linear arithmetic with the size of a page. *)
Ltac pg_lia := change PGSIZE with 4096 in *; div_lia.

Lemma pg_ofs_mod a : pg_ofs a = a mod PGSIZE.
Proof. unfold pg_ofs. by rewrite (Z.land_ones a 12). Qed.
Lemma pg_no_div a : pg_no a = a / PGSIZE.
Proof. unfold pg_no. by rewrite Z.shiftr_div_pow2. Qed.
Lemma land_page_mask a : in_u 32 a → Z.land a (wrap_u 32 (Z.lnot PGMASK)) = a - a mod PGSIZE.
Proof.
  intros Ha. change (wrap_u 32 (Z.lnot PGMASK)) with (Z.ldiff (Z.ones 32) (Z.ones 12)).
  rewrite Z.ldiff_land Z.land_assoc (Z.land_ones a 32) // Z.mod_small // -Z.ldiff_land Z.ldiff_ones_r //.
  rewrite Z.shiftl_mul_pow2 // Z.shiftr_div_pow2 //. change (2 ^ 12) with 4096. pg_lia.
Qed.
Lemma pg_round_down_mod a : in_u 32 a → pg_round_down a = a - a mod PGSIZE.
Proof. apply land_page_mask. Qed.
Lemma pg_round_up_mod a : 0 <= a → a + PGSIZE - 1 < 2 ^ 32 → pg_round_up a = PGSIZE * ((a + PGSIZE - 1) / PGSIZE).
Proof.
  intros Ha Hb. unfold pg_round_up. rewrite land_page_mask; [|apply wrap_u_range; lia].
  rewrite wrap_u_id; [pg_lia|unfold in_u; pg_lia].
Qed.
Lemma DIV_ROUND_UP_eq x step : 0 <= x → 0 < step → x + step - 1 < 2 ^ 32 → DIV_ROUND_UP x step = (x + step - 1) / step.
Proof. intros. unfold DIV_ROUND_UP. rewrite wrap_u_id //. unfold in_u. lia. Qed.

(** * Pools

    The bitmap of a pool is kept with the pool, and not in the words at the start of
    its memory.  [pool_locked] says that the running thread holds the lock. *)

Record pool := Pool { pool_locked : bool; used_map : bitmap; base : Z }.

Definition PAL_ASSERT : Z := 1.
Definition PAL_ZERO : Z := 2.
Definition PAL_USER : Z := 4.
Definition flag (flags f : Z) : bool := bool_decide (Z.land flags f ≠ 0).

(** Where the static variables of palloc.c and malloc.c are. *)
Class Statics := { kernel_pool : loc; user_pool : loc; descs : loc; desc_cnt : loc }.

Section palloc.
Context {Y : Type} {ST : Statics}.
Abbreviation cell := (Z + (pool + Y))%type.
Abbreviation heap := (gmap loc cell).

Definition PANIC {A} : M heap A := throw Assert_Failed.

(** The locks, as one thread uses them: what they assert of their holder. *)
Definition lock_pool (p : loc) : M heap unit :=
  x ← load (T := pool) (Some p); ASSERT (negb (pool_locked x));; store (Some p) (Pool true (used_map x) (base x)).
Definition unlock_pool (p : loc) : M heap unit :=
  x ← load (T := pool) (Some p); ASSERT (pool_locked x);; store (Some p) (Pool false (used_map x) (base x)).

(** An operation on the bitmap of a pool. *)
Definition on_used_map {A} (p : loc) (m : M bitmap A) : M heap A :=
  x ← load (T := pool) (Some p);
  match m (used_map x) with
  | Ret a b => store (Some p) (Pool (pool_locked x) b (base x));; mret a
  | Throw e b => store (Some p) (Pool (pool_locked x) b (base x));; throw e
  | Exit c b => store (Some p) (Pool (pool_locked x) b (base x));; exit c
  | Undef => undef
  | NoFuel => nofuel
  end.

Definition palloc_get_multiple (flags page_cnt : Z) : M heap Z :=
  let pool := if flag flags PAL_USER then user_pool else kernel_pool in
  if bool_decide (page_cnt = 0) then mret 0
  else
    lock_pool pool;;
    page_idx ← on_used_map pool (bitmap_scan_and_flip 0 page_cnt false);
    unlock_pool pool;;
    x ← load (T := PintosPalloc.pool) (Some pool);
    let pages := if bool_decide (page_idx ≠ BITMAP_ERROR) then wrap_u 32 (base x + PGSIZE * page_idx) else 0 in
    (if bool_decide (pages ≠ 0) then
       if flag flags PAL_ZERO then memset pages 0 (wrap_u 32 (PGSIZE * page_cnt));; mret tt else mret tt
     else
       if flag flags PAL_ASSERT then PANIC else mret tt);;
    mret pages.

Definition palloc_get_page (flags : Z) : M heap Z := palloc_get_multiple flags 1.

Definition page_from_pool (pool : loc) (page : Z) : M heap bool :=
  x ← load (T := PintosPalloc.pool) (Some pool);
  let page_no := pg_no page in
  let start_page := pg_no (base x) in
  n ← on_used_map pool bitmap_size;
  let end_page := wrap_u 32 (start_page + n) in
  mret (bool_decide (page_no >= start_page) && bool_decide (page_no < end_page)).

Definition palloc_free_multiple (pages page_cnt : Z) : M heap unit :=
  ASSERT (bool_decide (pg_ofs pages = 0));;
  if bool_decide (pages = 0) || bool_decide (page_cnt = 0) then mret tt
  else
    k ← page_from_pool kernel_pool pages;
    pool ← (if (k : bool) then mret kernel_pool
            else u ← page_from_pool user_pool pages; if (u : bool) then mret user_pool else PANIC);
    x ← load (T := PintosPalloc.pool) (Some pool);
    let page_idx := wrap_u 32 (pg_no pages - pg_no (base x)) in
    memset pages 0xcc (wrap_u 32 (PGSIZE * page_cnt));;
    all ← on_used_map pool (bitmap_all page_idx page_cnt);
    ASSERT all;;
    on_used_map pool (bitmap_set_multiple page_idx page_cnt false).

Definition palloc_free_page (page : Z) : M heap unit := palloc_free_multiple page 1.

(** * Start-up

    The words of the buffer are no longer memory when the bitmap has them. *)

Fixpoint take_words (a : Z) (n : nat) : M heap (list Z) :=
  match n with
  | O => mret []
  | S n => w ← load_word a; Memory_free (Some (loc_of a));; ws ← take_words (a + 4) n; mret (w :: ws)
  end.

Definition init_pool (p : loc) (base page_cnt : Z) : M heap unit :=
  let bm_pages := DIV_ROUND_UP (bitmap_buf_size page_cnt) PGSIZE in
  if bool_decide (bm_pages > page_cnt) then PANIC
  else
    let page_cnt := page_cnt - bm_pages in
    block ← take_words base (Z.to_nat (bm_pages * (PGSIZE / 4)));
    match bitmap_create_in_buf page_cnt block (bm_pages * PGSIZE) with
    | Ret _ b => store (Some p) (Pool false b (wrap_u 32 (base + bm_pages * PGSIZE)))
    | Throw e _ => throw e
    | Exit c _ => exit c
    | Undef => undef
    | NoFuel => nofuel
    end.

Definition ptov (paddr : Z) : M heap Z :=
  ASSERT (bool_decide (paddr < PHYS_BASE));; mret (wrap_u 32 (paddr + PHYS_BASE)).

Definition is_user_vaddr (vaddr : Z) : bool := bool_decide (vaddr < PHYS_BASE).
Definition is_kernel_vaddr (vaddr : Z) : bool := bool_decide (vaddr >= PHYS_BASE).
Definition vtop (vaddr : Z) : M heap Z := ASSERT (is_kernel_vaddr vaddr);; mret (wrap_u 32 (vaddr - PHYS_BASE)).

(** The physical addresses that have a virtual one; for the others [ptov] wraps
    around, which its assertion does not see. *)
Lemma ptov_vtop paddr h : 0 <= paddr < 2 ^ 32 - PHYS_BASE → (a ← ptov paddr; vtop a) h = Ret paddr h.
Proof.
  intros H. unfold PHYS_BASE in H. rewrite (M_bind_Ret (ptov paddr) _ h (paddr + PHYS_BASE) h).
  - unfold vtop, is_kernel_vaddr. rewrite bool_decide_true; [|unfold PHYS_BASE; lia]. cbv [ASSERT].
    rewrite (M_bind_Ret _ _ h tt h) //. rewrite wrap_u_id; [|unfold in_u; lia]. by rewrite Z.add_simpl_r.
  - unfold ptov. rewrite bool_decide_true; [|unfold PHYS_BASE; lia]. rewrite (M_bind_Ret _ _ h tt h) //.
    rewrite wrap_u_id //. unfold in_u, PHYS_BASE. lia.
Qed.

(** [end_] is the address of the linker's symbol [_end]; [ram_pages] and
    [user_page_limit] are variables of init.c and palloc.c. *)
Definition palloc_init (end_ ram_pages user_page_limit : Z) : M heap unit :=
  let free_start := pg_round_up end_ in
  free_end ← ptov (wrap_u 32 (ram_pages * PGSIZE));
  let free_pages := wrap_u 32 (Z.quot (wrap_s 32 (free_end - free_start)) PGSIZE) in
  let user_pages := free_pages / 2 in
  let user_pages := if bool_decide (user_pages > user_page_limit) then user_page_limit else user_pages in
  let kernel_pages := wrap_u 32 (free_pages - user_pages) in
  init_pool kernel_pool free_start kernel_pages;;
  init_pool user_pool (wrap_u 32 (free_start + kernel_pages * PGSIZE)) user_pages.

(** * The pages of a pool *)

Definition page_range (i n : Z) : gset Z := list_to_set (seqZ i n).
Lemma elem_of_page_range j i n : j ∈ page_range i n ↔ i <= j < i + n.
Proof. unfold page_range. rewrite elem_of_list_to_set elem_of_seqZ. done. Qed.

Definition page (j : Z) : hpropI cell := (∃ bs, ⌈size_of bs = PGSIZE⌉ ∗ block (PGSIZE * j) bs)%I.

(** The pages from [s] on that are not in [C], which are in use. *)
Definition free_pages (s n : Z) (C : gset Z) : hpropI cell :=
  ([∗ list] j ∈ seqZ s n, if decide (j ∈ C) then emp else page j)%I.

Record pool_ok (b : bitmap) (s n : Z) (C : gset Z) : Prop := {
  pool_wf : wf_bitmap b;
  pool_cnt : bit_cnt b = n;
  pool_bit i : 0 <= i < n → bit b i = bool_decide (s + i ∈ C);
  pool_start : 0 < s;
  pool_end : s + n <= 2 ^ 20;
}.

(** The pool at [p] has the [n] pages from page [s] on, those in [C] in use. *)
Definition pool_rep (p : loc) (s n : Z) (C : gset Z) : hpropI cell :=
  (∃ b, ⌈pool_ok b s n C⌉ ∗ p ↦ Pool false b (PGSIZE * s) ∗ free_pages s n C)%I.

Lemma free_pages_app s n m C : 0 <= n → 0 <= m → free_pages s (n + m) C ⊣⊢ free_pages s n C ∗ free_pages (s + n) m C.
Proof. intros. unfold free_pages. by rewrite seqZ_app // big_sepL_app. Qed.

Lemma free_pages_ext s n C C' : (∀ j, s <= j < s + n → (j ∈ C ↔ j ∈ C')) → free_pages s n C ⊣⊢ free_pages s n C'.
Proof.
  intros H. apply big_sepL_proper. intros k j Hj. apply lookup_seqZ in Hj as [-> Hk].
  by rewrite (decide_ext _ _ _ _ (H (s + Z.of_nat k) ltac:(lia))).
Qed.

Lemma free_pages_none s n C : (∀ j, s <= j < s + n → j ∈ C) → free_pages s n C ⊣⊢ emp.
Proof.
  intros H. unfold free_pages. rewrite (big_sepL_proper _ (λ _ _, emp)%I); [by rewrite big_sepL_emp|].
  intros k j Hj. apply lookup_seqZ in Hj as [-> Hk]. rewrite decide_True //. apply H. lia.
Qed.

(** Free pages next to each other are a block. *)
Lemma free_pages_block s n C : 0 < s → 0 < n → (∀ j, s <= j < s + n → j ∉ C) →
  free_pages s n C ⊣⊢ ∃ bs, ⌈size_of bs = (PGSIZE * n)%Z⌉ ∗ block (PGSIZE * s) bs.
Proof.
  intros Hs Hn H. assert (∃ k, n = Z.of_nat (S k)) as [k ->] by (exists (Z.to_nat (n - 1)); lia). clear Hn.
  assert (∀ j, 0 < j → j ∉ C → free_pages j 1 C ⊣⊢ page j) as H1.
  { intros j Hj Hc. unfold free_pages. rewrite (seqZ_cons j 1) // seqZ_nil //= right_id. by case_decide. }
  revert s Hs H. induction k as [|k IH]; intros s Hs H.
  { change (Z.of_nat 1) with 1 in *. rewrite (H1 s Hs (H s ltac:(lia))). unfold page. by setoid_rewrite Z.mul_1_r. }
  replace (Z.of_nat (S (S k))) with (1 + Z.of_nat (S k)) by lia.
  rewrite free_pages_app; [|lia..]. rewrite (H1 s Hs (H s ltac:(lia))). rewrite IH; [|lia|intros; apply H; lia]. unfold page. iSplit.
  - iIntros "[(%x & %Hx & H1) (%y & %Hy & H2)]". iExists (x ++ y). iSplit; [iPureIntro; sizes; lia|].
    iApply (block_join _ x y PGSIZE Hx). replace (PGSIZE * s + PGSIZE) with (PGSIZE * (s + 1)) by lia. iFrame.
  - iIntros "(%bs & %Hbs & H)". iDestruct (block_split _ PGSIZE with "H") as "[H1 H2]"; [pg_lia|done|].
    replace (PGSIZE * s + PGSIZE) with (PGSIZE * (s + 1)) by lia.
    iSplitL "H1"; iExists _; iFrame; iPureIntro; rewrite size_of_slice; pg_lia.
Qed.

(** * Getting pages *)

Lemma wp_on_used_map {A} p x (m : M bitmap A) a b Φ Ψ : m (used_map x) = Ret a b →
  p ↦ x -∗ (p ↦ Pool (pool_locked x) b (base x) -∗ Φ a) -∗ wp (on_used_map p m) Φ Ψ.
Proof.
  intros Hm. iIntros "Hp H". unfold on_used_map. wp_load "Hp". rewrite Hm. wp_store "Hp".
  by iApply "H".
Qed.

Lemma wp_lock_pool p b bs Φ Ψ : p ↦ Pool false b bs -∗ (p ↦ Pool true b bs -∗ Φ tt) -∗ wp (lock_pool p) Φ Ψ.
Proof. iIntros "Hp H". unfold lock_pool. wp_load "Hp". iApply (wp_store with "Hp"). done. Qed.
Lemma wp_unlock_pool p b bs Φ Ψ : p ↦ Pool true b bs -∗ (p ↦ Pool false b bs -∗ Φ tt) -∗ wp (unlock_pool p) Φ Ψ.
Proof. iIntros "Hp H". unfold unlock_pool. wp_load "Hp". iApply (wp_store with "Hp"). done. Qed.

(** There are no [cnt] free pages next to each other in the pool. *)
Definition no_room (s n : Z) (C : gset Z) (cnt : Z) : Prop :=
  ∀ i, s <= i → i + cnt <= s + n → ∃ j, i <= j < i + cnt ∧ j ∈ C.

(** The pages from [i] on are free pages of the pool. *)
Definition all_free (s n : Z) (C : gset Z) (i cnt : Z) : Prop :=
  s <= i ∧ i + cnt <= s + n ∧ ∀ j, i <= j < i + cnt → j ∉ C.

Lemma pool_group b s n C cnt r : pool_ok b s n C → 0 < cnt → first_group b false 0 cnt r →
  (r = BITMAP_ERROR ∧ no_room s n C cnt) ∨ (r ≠ BITMAP_ERROR ∧ 0 <= r ∧ all_free s n C (s + r) cnt).
Proof.
  intros [Hwf Hn Hbit Hs He] Hc [[-> H]|(Hr & Hr0 & [H1 H2] & _)].
  - left. split; [done|]. intros i Hi Hin.
    destruct (decide (Exists (λ j, j ∈ C) (seqZ i cnt))) as [(j & Hj & HC)%Exists_exists|Hno].
    { exists j. apply elem_of_seqZ in Hj. split; [lia|done]. }
    rewrite Exists_exists in Hno.
    exfalso. apply (H (i - s)); [lia|]. split; [lia|]. intros j Hj. rewrite Hbit; [|lia]. apply bool_decide_eq_false.
    intros HC. apply Hno. exists (s + j). split; [apply elem_of_seqZ; lia|done].
  - right. split; [done|]. split; [done|]. split; [lia|]. split; [lia|]. intros j Hj HC.
    specialize (H2 (j - s) ltac:(lia)). rewrite Hbit in H2; [|lia]. apply bool_decide_eq_false in H2. apply H2.
    by replace (s + (j - s)) with j by lia.
Qed.

Lemma free_pages_split s n i cnt C : s <= i → 0 <= cnt → i + cnt <= s + n →
  free_pages s n C ⊣⊢ free_pages s (i - s) C ∗ free_pages i cnt C ∗ free_pages (i + cnt) (s + n - i - cnt) C.
Proof.
  intros. replace n with (i - s + (cnt + (s + n - i - cnt))) at 1 by lia.
  rewrite (free_pages_app s (i - s) (cnt + (s + n - i - cnt))); [|lia..].
  replace (s + (i - s)) with i by lia. by rewrite (free_pages_app i cnt); [|lia..].
Qed.

Lemma pool_take p b b' s n C i cnt :
  pool_ok b s n C → 0 < cnt → all_free s n C i cnt →
  changed b b' (λ j, if decide (i - s <= j < i - s + cnt) then true else bit b j) →
  p ↦ Pool false b' (PGSIZE * s) ∗ free_pages s n C ⊢
  pool_rep p s n (C ∪ page_range i cnt) ∗ ∃ bs, ⌈size_of bs = (PGSIZE * cnt)%Z⌉ ∗ block (PGSIZE * i) bs.
Proof.
  intros [Hwf Hn Hbit Hs He] Hc (H1 & H2 & H3) [Hwf' Hn' Hb']. rewrite (free_pages_split s n i cnt C) //; [|lia].
  rewrite (free_pages_block i cnt) //; [|lia]. iIntros "(Hp & Hl & $ & Hr)". iExists b'. iFrame "Hp". iSplit.
  - iPureIntro. split; [done|by rewrite Hn'|intros k Hk|done|done]. rewrite Hb'; [|lia]. case_decide as E.
    + rewrite bool_decide_true //. apply elem_of_union_r, elem_of_page_range. lia.
    + rewrite Hbit //. apply bool_decide_ext. rewrite elem_of_union elem_of_page_range. split; [by left|].
      intros [|]; [done|lia].
  - rewrite (free_pages_split s n i cnt (C ∪ _)) //; [|lia]. rewrite (free_pages_none i); last first.
    { intros j Hj. apply elem_of_union_r, elem_of_page_range. lia. }
    rewrite left_id.
    rewrite (free_pages_ext s (i - s) (C ∪ _) C); [|intros j Hj; rewrite elem_of_union elem_of_page_range; split; [intros [|]; [done|lia]|by left]].
    rewrite (free_pages_ext (i + cnt) _ (C ∪ _) C); [|intros j Hj; rewrite elem_of_union elem_of_page_range; split; [intros [|]; [done|lia]|by left]].
    iFrame.
Qed.

Definition pool_of (flags : Z) : loc := if flag flags PAL_USER then user_pool else kernel_pool.

Lemma palloc_get_spec flags cnt s n C : 0 <= cnt →
  ⦃ pool_rep (pool_of flags) s n C ⦄ palloc_get_multiple flags cnt
  ⦃ r, (⌈r = 0 ∧ (cnt = 0 ∨ no_room s n C cnt)⌉ ∗ pool_rep (pool_of flags) s n C) ∨
       (∃ i bs, ⌈r = (PGSIZE * i)%Z ∧ 0 < cnt ∧ all_free s n C i cnt ∧ size_of bs = (PGSIZE * cnt)%Z ∧
           (flag flags PAL_ZERO = true → bs = replicate (Z.to_nat (PGSIZE * cnt)) 0)⌉ ∗
          pool_rep (pool_of flags) s n (C ∪ page_range i cnt) ∗ block r bs)
  | e, ⌈e = Assert_Failed ∧ flag flags PAL_ASSERT = true ∧ no_room s n C cnt⌉ ∗ pool_rep (pool_of flags) s n C ⦄.
Proof.
  intros Hc. unfold hoare, palloc_get_multiple. fold (pool_of flags). iIntros "H".
  case_bool_decide as Hc0; [iApply wp_ret; iLeft; iFrame; iPureIntro; tauto|].
  iDestruct "H" as (b Hb) "[Hp Hfree]". wp_focus. iApply (wp_lock_pool with "Hp"). iIntros "Hp".
  destruct (bitmap_scan_and_flip_run b 0 cnt false (pool_wf _ _ _ _ Hb)) as (r & b' & Hrun & Hg & Hch);
    [pose proof (wf_cnt b (pool_wf _ _ _ _ Hb)); lia|lia|].
  wp_focus. iApply (wp_on_used_map with "Hp"); [exact Hrun|]. iIntros "Hp". cbn [pool_locked base].
  wp_focus. iApply (wp_unlock_pool with "Hp"). iIntros "Hp". wp_load "Hp". cbn [base].
  destruct (pool_group b s n C cnt r Hb ltac:(lia) Hg) as [[-> Hno]|(Hr & Hr0 & Hall)].
  - rewrite (bool_decide_false (BITMAP_ERROR ≠ BITMAP_ERROR)); [|tauto]. rewrite (bool_decide_false (0 ≠ 0)); [|tauto].
    iAssert (pool_rep (pool_of flags) s n C) with "[Hp Hfree]" as "H".
    { rewrite bool_decide_true // in Hch. subst b'. iExists b. by iFrame. }
    destruct (flag flags PAL_ASSERT) eqn:Hf.
    + iApply wp_bind. iApply wp_throw. by iFrame.
    + wp_finish. iLeft. iFrame. iPureIntro. tauto.
  - rewrite (bool_decide_true (r ≠ BITMAP_ERROR)) //.
    assert (wrap_u 32 (PGSIZE * s + PGSIZE * r) = PGSIZE * (s + r)) as ->.
    { rewrite wrap_u_id; [lia|]. destruct Hb, Hall as (? & ? & _). unfold in_u. pg_lia. }
    rewrite bool_decide_true; [|destruct Hb; pg_lia].
    iDestruct (pool_take _ b b' s n C (s + r) cnt Hb with "[$Hp $Hfree]") as "[Hpool (%bs & %Hbs & Hblock)]"; [lia|done| |].
    { rewrite bool_decide_false // in Hch. destruct Hch as (_ & [Hwf' Hn' Hb']). split; [done..|]. intros j Hj. rewrite Hb' //.
      apply decide_ext. by replace (s + r - s) with r by lia. }
    destruct (flag flags PAL_ZERO) eqn:Hf.
    + wp_focus. iApply (hoare_wp_ret with "Hblock"); [apply memset_spec|].
      { rewrite wrap_u_id; [pg_lia|]. destruct Hb, Hall as (? & ? & _). unfold in_u. pg_lia. }
      iIntros (x) "[-> Hblock]". wp_finish. iRight. iExists (s + r), _. iFrame. iPureIntro.
      rewrite wrap_u_id; [|destruct Hb, Hall as (? & ? & _); unfold in_u; pg_lia].
      change (wrap_u 8 0) with 0. rewrite splice_all; [|sizes; pg_lia]. split; [done|]. split; [lia|]. split; [done|].
      split; [sizes; pg_lia|done].
    + wp_finish. iRight. iExists (s + r), _. iFrame. iPureIntro. split; [done|]. split; [lia|]. done.
Qed.

(** * Giving pages back *)

Lemma pool_give p b b' s n C i cnt bs :
  pool_ok b s n C → s <= i → i + cnt <= s + n → 0 < cnt → (∀ j, i <= j < i + cnt → j ∈ C) → size_of bs = PGSIZE * cnt →
  changed b b' (λ j, if decide (i - s <= j < i - s + cnt) then false else bit b j) →
  p ↦ Pool false b' (PGSIZE * s) ∗ free_pages s n C ∗ block (PGSIZE * i) bs ⊢ pool_rep p s n (C ∖ page_range i cnt).
Proof.
  intros [Hwf Hn Hbit Hs He] H1 H2 Hc H3 Hbs [Hwf' Hn' Hb']. rewrite (free_pages_split s n i cnt C) //; [|lia].
  rewrite (free_pages_none i cnt C) // left_id. iIntros "(Hp & (Hl & Hr) & Hb)". iExists b'. iFrame "Hp". iSplit.
  - iPureIntro. split; [done|by rewrite Hn'|intros k Hk|done|done]. rewrite Hb'; [|lia].
    destruct (decide (i - s <= k < i - s + cnt)) as [E|E].
    + rewrite bool_decide_false //. rewrite elem_of_difference elem_of_page_range. intros [_ []]. lia.
    + rewrite Hbit //. apply bool_decide_ext. rewrite elem_of_difference elem_of_page_range. split; [|tauto].
      intros; split; [done|lia].
  - rewrite (free_pages_split s n i cnt (C ∖ _)) //; [|lia].
    rewrite (free_pages_ext s (i - s) (C ∖ _) C); [|intros j Hj; rewrite elem_of_difference elem_of_page_range; split; [tauto|intros; split; [done|lia]]].
    rewrite (free_pages_ext (i + cnt) _ (C ∖ _) C); [|intros j Hj; rewrite elem_of_difference elem_of_page_range; split; [tauto|intros; split; [done|lia]]].
    iFrame "Hl Hr". rewrite (free_pages_block i cnt) //; [by iExists bs; iFrame|lia|].
    intros j Hj. rewrite elem_of_difference elem_of_page_range. tauto.
Qed.

Lemma page_from_pool_spec p b s n C a Φ Ψ : pool_ok b s n C →
  p ↦ Pool false b (PGSIZE * s) -∗
  (p ↦ Pool false b (PGSIZE * s) -∗ Φ (bool_decide (s <= a / PGSIZE < s + n))) -∗
  wp (page_from_pool p a) Φ Ψ.
Proof.
  intros [Hwf Hn Hbit Hs He]. iIntros "Hp H". unfold page_from_pool. wp_load "Hp". cbn [base].
  wp_focus. iApply (wp_on_used_map with "Hp"); [done|]. iIntros "Hp". cbn [pool_locked used_map base]. iApply wp_ret.
  rewrite !pg_no_div. replace (PGSIZE * s / PGSIZE) with s by pg_lia. rewrite Hn.
  destruct (wf_cnt b Hwf) as [H1 _]. rewrite wrap_u_id; [|unfold in_u; lia].
  replace (_ && _) with (bool_decide (s <= a / PGSIZE < s + n)); [by iApply "H"|].
  rewrite bool_decide_and. f_equal. apply bool_decide_ext. lia.
Qed.

(** Where the pools are. *)
Section pools.
Context (ks kn us un : Z) (Happart : ks + kn <= us).

(** Both pools, with the pages in [C] in use. *)
Definition pools (C : gset Z) : hpropI cell := (pool_rep kernel_pool ks kn C ∗ pool_rep user_pool us un C)%I.

(** Pages that are next to each other in one of the pools. *)
Definition in_pool (i cnt : Z) : Prop := (ks <= i ∧ i + cnt <= ks + kn) ∨ (us <= i ∧ i + cnt <= us + un).

(** What happens in one pool does not matter to the other. *)
Lemma pool_rep_ext p s n C C' : (∀ j, s <= j < s + n → (j ∈ C ↔ j ∈ C')) → pool_rep p s n C ⊢ pool_rep p s n C'.
Proof.
  intros H. iIntros "(%b & %Hb & Hp & Hf)". iExists b. iFrame "Hp". rewrite (free_pages_ext s n C C') //. iFrame. iPureIntro.
  destruct Hb as [Hwf Hn Hbit Hs He]. split; [done|done|intros k Hk|done|done]. rewrite Hbit //.
  apply bool_decide_ext, H. lia.
Qed.

Lemma pool_untouched p s n C j cnt : j + cnt <= s ∨ s + n <= j → pool_rep p s n C ⊢ pool_rep p s n (C ∪ page_range j cnt).
Proof.
  intros H. apply pool_rep_ext. intros q Hq. rewrite elem_of_union elem_of_page_range. split; [by left|]. intros [|]; [done|lia].
Qed.

(** The end of [palloc_free_multiple], in the pool that the pages are from. *)
Lemma free_in_pool p s n C i cnt bs :
  s <= i → i + cnt <= s + n → 0 < cnt → (∀ j, i <= j < i + cnt → j ∈ C) → size_of bs = PGSIZE * cnt →
  ⦃ pool_rep p s n C ∗ block (PGSIZE * i) bs ⦄
  (x ← load (T := PintosPalloc.pool) (Some p);
   let page_idx := wrap_u 32 (pg_no (PGSIZE * i) - pg_no (base x)) in
   memset (PGSIZE * i) 0xcc (wrap_u 32 (PGSIZE * cnt));;
   all ← on_used_map p (bitmap_all page_idx cnt);
   ASSERT all;;
   on_used_map p (bitmap_set_multiple page_idx cnt false))
  ⦃ _u, pool_rep p s n (C ∖ page_range i cnt) ⦄.
Proof.
  intros H1 H2 Hc H3 Hbs. unfold hoare. iIntros "[(%b & %Hb & Hp & Hf) Hblock]". wp_load "Hp". cbn [base].
  pose proof Hb as [Hwf Hn Hbit Hs He].
  assert (wrap_u 32 (pg_no (PGSIZE * i) - pg_no (PGSIZE * s)) = i - s) as ->.
  { rewrite !pg_no_div wrap_u_id; [|unfold in_u]; pg_lia. }
  rewrite wrap_u_id; [|unfold in_u; pg_lia].
  wp_focus. iApply (hoare_wp_ret with "Hblock"); [apply memset_spec; pg_lia|]. iIntros (x) "[-> Hblock]".
  assert (in_range (i - s) cnt b) as Hr by (split_and!; lia).
  destruct (bitmap_contains_run (i - s) cnt false b Hwf Hr) as (c & Hrun & Hc').
  assert (c = false) as ->.
  { destruct c; [|done]. destruct (proj1 Hc' eq_refl) as (j & Hj & Hbj). rewrite Hbit in Hbj; [|lia].
    apply bool_decide_eq_false in Hbj. destruct Hbj. apply H3. lia. }
  wp_focus. iApply (wp_on_used_map with "Hp").
  { unfold bitmap_all. cbn [used_map]. rewrite (M_bind_Ret _ _ _ _ _ Hrun). reflexivity. }
  iIntros "Hp". cbn [pool_locked base negb]. wp_focus. iApply wp_ASSERT.
  destruct (bitmap_set_multiple_run (i - s) cnt false b Hwf Hr) as (b' & Hrun' & Hch).
  iApply (wp_on_used_map with "Hp"); [exact Hrun'|]. iIntros "Hp". cbn [pool_locked base].
  iApply (pool_give p b b' s n C i cnt with "[$Hp $Hf $Hblock]"); try done.
  assert (0 <= PGSIZE * cnt) by pg_lia. by sizes.
Qed.

Lemma palloc_free_spec C i cnt bs :
  in_pool i cnt → 0 < cnt → (∀ j, i <= j < i + cnt → j ∈ C) → size_of bs = PGSIZE * cnt →
  ⦃ pools C ∗ block (PGSIZE * i) bs ⦄ palloc_free_multiple (PGSIZE * i) cnt ⦃ _u, pools (C ∖ page_range i cnt) ⦄.
Proof.
  intros Hin Hc HC Hbs. unfold hoare, palloc_free_multiple. iIntros "[[Hk Hu] Hblock]".
  iDestruct (block_pure with "Hblock") as %(Hpos & _).
  wp_focus. iApply wp_ASSERT. rewrite bool_decide_true; [|rewrite pg_ofs_mod; pg_lia].
  rewrite !bool_decide_false; [|lia..]. cbn [orb].
  iDestruct "Hk" as (kb Hkb) "[Hk Hkf]". wp_focus. iApply (page_from_pool_spec with "Hk"); [done|]. iIntros "Hk".
  replace (PGSIZE * i / PGSIZE) with i by pg_lia. destruct (decide (ks <= i < ks + kn)) as [Hi|Hi].
  - rewrite bool_decide_true //. wp_finish. destruct Hin as [[H1 H2]|?]; [|lia].
    iApply (hoare_wp_ret with "[Hk Hkf Hblock]"); [apply (free_in_pool kernel_pool ks kn C i cnt bs); done| |].
    { iFrame "Hblock". iExists kb. by iFrame. }
    iIntros (_u) "$". iApply (pool_rep_ext with "Hu"). intros j Hj.
    rewrite elem_of_difference elem_of_page_range. split; [intros; split; [done|lia]|tauto].
  - rewrite bool_decide_false //. destruct Hin as [?|[H1 H2]]; [lia|].
    iDestruct "Hu" as (ub Hub) "[Hu Huf]". wp_focus. iApply (page_from_pool_spec with "Hu"); [done|]. iIntros "Hu".
    replace (PGSIZE * i / PGSIZE) with i by pg_lia. rewrite bool_decide_true; [|lia]. wp_finish.
    iApply (hoare_wp_ret with "[Hu Huf Hblock]"); [apply (free_in_pool user_pool us un C i cnt bs); done| |].
    { iFrame "Hblock". iExists ub. by iFrame. }
    iIntros (_u) "$". iApply (pool_rep_ext with "[Hk Hkf]"); [|iExists kb; by iFrame]. intros j Hj.
    rewrite elem_of_difference elem_of_page_range. split; [intros; split; [done|lia]|tauto].
Qed.
End pools.

(** * Start-up *)

Lemma block_nil a : block (X := pool + Y) a [] ⊢ emp.
Proof. unfold block. iIntros "[_ H]". done. Qed.

Lemma take_words_spec a n bs : size_of bs = 4 * Z.of_nat n →
  ⦃ block a bs ⦄ take_words a n ⦃ ws, ⌈length ws = n ∧ Forall (in_u 32) ws⌉ ⦄.
Proof.
  unfold hoare. revert a bs. induction n as [|n IH]; intros a bs Hbs; cbn [take_words].
  { assert (bs = []) as -> by (destruct bs; [done|unfold size_of in Hbs; simpl in Hbs; lia]).
    rewrite block_nil. iIntros "_". by iApply wp_ret. }
  iIntros "H". iDestruct (block_split _ 4 with "H") as "[H1 H2]"; [lia|done|].
  iDestruct (block_pure with "H1") as %(Ha & Ha4 & _).
  iDestruct (block_to_word with "H1") as (w) "H1"; [sizes; lia|].
  wp_focus. iApply (wp_load_word with "H1"); [done..|]. iIntros "H1". wp_free "H1".
  wp_focus. iApply (hoare_wp_ret with "H2"); [apply IH; sizes; lia|]. iIntros (ws [Hlen Hw]). iApply wp_ret.
  iPureIntro. split; [by rewrite /= Hlen|]. constructor; [|done]. by apply wrap_u_range.
Qed.

(** The pages that the bitmap of a pool of [n] pages takes. *)
Definition bm_pages (n : Z) : Z := DIV_ROUND_UP (bitmap_buf_size n) PGSIZE.

Lemma bitmap_buf_size_eq n : 0 <= n <= 2 ^ 20 → bitmap_buf_size n = 8 + 4 * elem_cnt n ∧ elem_cnt n = (n + 31) / 32.
Proof.
  intros Hn. assert (elem_cnt n = (n + 31) / 32) as E.
  { unfold elem_cnt, ELEM_BITS. rewrite wrap_u_id; [f_equal; lia|unfold in_u; lia]. }
  split; [|done]. unfold bitmap_buf_size, byte_cnt. rewrite E !wrap_u_id //; unfold in_u; div_lia.
Qed.

Lemma bm_pages_eq n : 0 <= n <= 2 ^ 20 → bm_pages n = (8 + 4 * ((n + 31) / 32) + 4095) / 4096.
Proof.
  intros Hn. destruct (bitmap_buf_size_eq n Hn) as [E1 E2]. unfold bm_pages. rewrite E1 E2 DIV_ROUND_UP_eq; [f_equal; pg_lia|pg_lia..].
Qed.

Lemma init_pool_spec p (x : pool) s n bs :
  0 < s → s + n < 2 ^ 20 → 0 <= n → bm_pages n <= n → size_of bs = PGSIZE * n →
  ⦃ p ↦ x ∗ block (PGSIZE * s) bs ⦄ init_pool p (PGSIZE * s) n ⦃ _u, pool_rep p (s + bm_pages n) (n - bm_pages n) ∅ ⦄.
Proof.
  intros Hs He Hn Hbm Hbs. unfold hoare, init_pool. fold (bm_pages n). iIntros "[Hp H]".
  rewrite bool_decide_false; [|lia]. pose proof (bm_pages_eq n ltac:(lia)) as Hq. set (m := bm_pages n) in *. clearbody m.
  change (PGSIZE / 4) with 1024. iDestruct (block_split _ (PGSIZE * m) with "H") as "[H1 H2]"; [pg_lia|pg_lia|].
  wp_focus. iApply (hoare_wp_ret with "H1"); [apply take_words_spec; rewrite size_of_slice; pg_lia|]. iIntros (ws [Hlen Hw]).
  destruct (bitmap_buf_size_eq (n - m)) as [E1 E2]; [div_lia|].
  destruct (bitmap_create_in_buf_clear ws (n - m) (m * PGSIZE)) as (b & Hrun & Hwf & Hcnt & Hbit).
  { unfold ELEM_BITS. div_lia. }
  { rewrite Hlen E2. pg_lia. }
  { done. }
  { rewrite E1 E2. pg_lia. }
  rewrite Hrun wrap_u_id; [|unfold in_u; pg_lia]. iApply (wp_store with "Hp"). iIntros "Hp".
  iExists b. replace (PGSIZE * s + m * PGSIZE) with (PGSIZE * (s + m)) by lia. iFrame "Hp". iSplit.
  - iPureIntro. split; [done|done|intros i Hi|div_lia|lia]. rewrite Hbit //.
  - replace (PGSIZE * s + PGSIZE * m) with (PGSIZE * (s + m)) by lia. destruct (decide (n = m)) as [->|Hne].
    + rewrite Hbs !Z.sub_diag slice_nil block_nil. by iIntros.
    + rewrite free_pages_block; [|div_lia|div_lia|set_solver]. iExists _. iFrame. iPureIntro. rewrite size_of_slice; pg_lia.
Qed.

(** Memory from the page [s] on, of which the user pool gets [un] pages and the
    kernel pool [kn], and the bitmap of each takes the first. *)
Record boot_ok (end_ ram_pages user_page_limit s kn un : Z) : Prop := {
  boot_end : PHYS_BASE < end_ ∧ end_ + PGSIZE - 1 < 2 ^ 32 ∧ s = (end_ + PGSIZE - 1) / PGSIZE;
  boot_ram : 0 <= ram_pages ∧ s + kn + un = PHYS_BASE / PGSIZE + ram_pages ∧ s + kn + un < 2 ^ 20;
  boot_user : un = Z.min ((kn + un) / 2) user_page_limit ∧ 0 <= un ∧ 0 <= kn;
  boot_room : bm_pages kn <= kn ∧ bm_pages un <= un;
}.

Lemma palloc_init_spec end_ ram_pages limit s kn un (k u : pool) bs :
  boot_ok end_ ram_pages limit s kn un → size_of bs = PGSIZE * (kn + un) →
  ⦃ kernel_pool ↦ k ∗ user_pool ↦ u ∗ block (PGSIZE * s) bs ⦄ palloc_init end_ ram_pages limit
  ⦃ _u, pools (s + bm_pages kn) (kn - bm_pages kn) (s + kn + bm_pages un) (un - bm_pages un) ∅ ⦄.
Proof.
  intros [(He & He' & Hs) (Hr & Hsum & Hlt) (Hun & Hu0 & Hk0) [Hbk Hbu]] Hbs. unfold hoare, palloc_init, ptov.
  iIntros "(Hk & Hu & H)". rewrite pg_round_up_mod; [|unfold PHYS_BASE in He; lia|done]. rewrite -Hs.
  assert (786432 <= s) by (unfold PHYS_BASE in He; pg_lia).
  change (PHYS_BASE / PGSIZE) with 786432 in Hsum. wp_focus.
  rewrite (wrap_u_id 32 (ram_pages * PGSIZE)); [|unfold in_u; pg_lia].
  iApply wp_ASSERT. rewrite bool_decide_true; [|unfold PHYS_BASE; pg_lia]. wp_finish.
  assert (wrap_u 32 (ram_pages * PGSIZE + PHYS_BASE) = PGSIZE * (s + (kn + un))) as ->.
  { rewrite wrap_u_id; unfold in_u, PHYS_BASE; pg_lia. }
  replace (PGSIZE * (s + (kn + un)) - PGSIZE * s) with ((kn + un) * PGSIZE) by lia.
  rewrite wrap_s_id; [|lia|unfold in_s; pg_lia]. rewrite Z.quot_mul //. rewrite (wrap_u_id 32 (kn + un)); [|unfold in_u; lia].
  assert ((if bool_decide ((kn + un) / 2 > limit) then limit else (kn + un) / 2) = un) as ->.
  { case_bool_decide; lia. }
  replace (kn + un - un) with kn by lia. rewrite (wrap_u_id 32 kn); [|unfold in_u; lia].
  iDestruct (block_split _ (PGSIZE * kn) with "H") as "[H1 H2]"; [pg_lia|pg_lia|].
  wp_focus. iApply (hoare_wp_ret with "[Hk H1]"); [apply init_pool_spec; [lia..|done|]|iFrame|]; [rewrite size_of_slice; pg_lia|].
  iIntros (_u) "Hk". replace (PGSIZE * s + PGSIZE * kn) with (PGSIZE * (s + kn)) by lia.
  replace (PGSIZE * s + kn * PGSIZE) with (PGSIZE * (s + kn)) by lia. rewrite wrap_u_id; [|unfold in_u; pg_lia].
  iApply (hoare_wp_ret with "[Hu H2]"); [apply init_pool_spec; [lia..|done|]|iFrame|]; [rewrite size_of_slice; pg_lia|].
  iIntros (_u') "Hu". iFrame.
Qed.
End palloc.
