(* ===== verification/PintosMalloc.v ===== *)
(** The block allocator of src/bin/OS/pintos/src/threads/malloc.c: descriptors with
    lists of free blocks, arenas, and [malloc], [calloc], [realloc] and [free]. *)
From S2P Require Export PintosPalloc.
Local Open Scope Z_scope.

(** [struct desc] without its list.  The descriptor at [d] has these fields at
    [d~0], and its list of free blocks is at [d~1].  [desc_locked] says that the
    running thread holds the lock. *)
Record desc := Desc { desc_block_size : Z; blocks_per_arena : Z; desc_locked : bool }.

Definition ARENA_MAGIC : Z := 0x9a548eed.
(** [sizeof (struct arena)] and the number of elements of [descs]. *)
Definition ARENA_SIZE : Z := 12.
Definition DESC_MAX : Z := 10.

Section malloc.
Context {ST : Statics}.
Abbreviation cell := (Z + (pool + desc))%type.
Abbreviation heap := (gmap loc cell).

(** * Fields *)

(** [&descs[i]] *)
Definition desc_at (i : Z) : loc := Z.to_pos (Z.pos descs + i).
Definition free_list (d : ptr) : ptr := xI <$> d.
Definition get_desc (d : ptr) : M heap desc := load (xO <$> d).
Definition set_desc (d : ptr) (x : desc) : M heap unit := store (xO <$> d) x.

(** The locks, as one thread uses them: what they assert of their holder. *)
Definition lock_desc (d : ptr) : M heap unit :=
  x ← get_desc d; ASSERT (negb (desc_locked x));; set_desc d (Desc (desc_block_size x) (blocks_per_arena x) true).
Definition unlock_desc (d : ptr) : M heap unit :=
  x ← get_desc d; ASSERT (desc_locked x);; set_desc d (Desc (desc_block_size x) (blocks_per_arena x) false).

(** [a->magic], [a->desc] and [a->free_cnt] *)
Definition load_ptr (a : Z) : M heap ptr :=
  if decide (0 < a ∧ a mod 4 = 0) then load (T := ptr) (Some (loc_of a)) else undef.
Definition store_ptr (a : Z) (p : ptr) : M heap unit :=
  if decide (0 < a ∧ a mod 4 = 0) then store (Some (loc_of a)) p else undef.
Definition get_magic (a : Z) : M heap Z := load_word a.
Definition get_arena_desc (a : Z) : M heap ptr := load_ptr (a + 4).
Definition get_free_cnt (a : Z) : M heap Z := load_word (a + 8).
Definition set_magic (a w : Z) : M heap unit := store_word a w.
Definition set_arena_desc (a : Z) (d : ptr) : M heap unit := store_ptr (a + 4) d.
Definition set_free_cnt (a w : Z) : M heap unit := store_word (a + 8) w.

(** * Blocks and arenas *)

Definition block_to_arena (b : Z) : M heap Z :=
  let a := pg_round_down b in
  ASSERT (bool_decide (a ≠ 0));;
  ASSERT_M (magic ← get_magic a; mret (bool_decide (magic = ARENA_MAGIC)));;
  ASSERT_M (M_or (is_null <$> get_arena_desc a)
    (d ← get_arena_desc a; x ← get_desc d;
     mret (bool_decide (wrap_u 32 (pg_ofs b - ARENA_SIZE) mod desc_block_size x = 0))));;
  ASSERT_M (M_or (not_null <$> get_arena_desc a) (mret (bool_decide (pg_ofs b = ARENA_SIZE))));;
  mret a.

Definition arena_to_block (a idx : Z) : M heap Z :=
  ASSERT (bool_decide (a ≠ 0));;
  ASSERT_M (magic ← get_magic a; mret (bool_decide (magic = ARENA_MAGIC)));;
  ASSERT_M (d ← get_arena_desc a; x ← get_desc d; mret (bool_decide (idx < blocks_per_arena x)));;
  d ← get_arena_desc a; x ← get_desc d;
  mret (wrap_u 32 (a + ARENA_SIZE + idx * desc_block_size x)).

(** [for (i = 0; i < d->blocks_per_arena; i++) body (arena_to_block (a, i))], where
    an arena has at most a page of blocks. *)
Definition for_blocks (d : ptr) (a : Z) (body : Z → M heap unit) : M heap unit :=
  loop (S (Z.to_nat PGSIZE)) (λ i,
    x ← get_desc d;
    if bool_decide (i < blocks_per_arena x) then
      b ← arena_to_block a i; body b;; mret (inl (i + 1))
    else mret (inr tt)) 0.

(** * The allocator *)

(** A [size_t] can be doubled 32 times. *)
Definition malloc_init : M heap unit :=
  loop 32 (λ block_size,
    if bool_decide (block_size < PGSIZE / 2) then
      cnt ← load (T := Z) (Some desc_cnt);
      let d := Some (desc_at cnt) in
      store (Some desc_cnt) (cnt + 1);;
      ASSERT (bool_decide (cnt + 1 <= DESC_MAX));;
      x ← get_desc d;
      set_desc d (Desc block_size ((PGSIZE - ARENA_SIZE) / block_size) false);;
      list_init (free_list d);;
      mret (inl (wrap_u 32 (block_size * 2)))
    else mret (inr tt)) 16.

(** The index of the smallest descriptor for [size] bytes, or [desc_cnt]. *)
Definition find_desc (size cnt : Z) : M heap Z :=
  loop (S (Z.to_nat cnt)) (λ i,
    if bool_decide (i < cnt) then
      x ← get_desc (Some (desc_at i));
      mret (if bool_decide (desc_block_size x >= size) then inr i else inl (i + 1))
    else mret (inr i)) 0.

Definition malloc_big (size : Z) : M heap Z :=
  let page_cnt := DIV_ROUND_UP (wrap_u 32 (size + ARENA_SIZE)) PGSIZE in
  a ← palloc_get_multiple 0 page_cnt;
  if bool_decide (a = 0) then mret 0
  else
    set_magic a ARENA_MAGIC;; set_arena_desc a NULL;; set_free_cnt a page_cnt;;
    mret (a + ARENA_SIZE).

(** A new arena for the descriptor [d]; [false] is that there is no page. *)
Definition new_arena (d : ptr) : M heap bool :=
  a ← palloc_get_page 0;
  if bool_decide (a = 0) then mret false
  else
    x ← get_desc d;
    set_magic a ARENA_MAGIC;; set_arena_desc a d;; set_free_cnt a (blocks_per_arena x);;
    for_blocks d a (λ b, list_push_back (free_list d) (ptr_of b));;
    mret true.

Definition malloc_small (d : ptr) : M heap Z :=
  lock_desc d;;
  empty ← list_empty (free_list d);
  ok ← (if (empty : bool) then new_arena d else mret true);
  if negb ok then unlock_desc d;; mret 0
  else
    e ← list_pop_front (free_list d);
    let b := address e in
    a ← block_to_arena b;
    c ← get_free_cnt a; set_free_cnt a (wrap_u 32 (c - 1));;
    unlock_desc d;;
    mret b.

Definition malloc (size : Z) : M heap Z :=
  if bool_decide (size = 0) then mret 0
  else
    cnt ← load (T := Z) (Some desc_cnt);
    i ← find_desc size cnt;
    if bool_decide (i = cnt) then malloc_big size else malloc_small (Some (desc_at i)).

Definition calloc (a b : Z) : M heap Z :=
  let size := wrap_u 32 (a * b) in
  if bool_decide (size < a) || bool_decide (size < b) then mret 0
  else
    p ← malloc size;
    (if bool_decide (p ≠ 0) then memset p 0 size;; mret tt else mret tt);;
    mret p.

Definition block_size (block : Z) : M heap Z :=
  a ← block_to_arena block;
  d ← get_arena_desc a;
  if not_null d then x ← get_desc d; mret (desc_block_size x)
  else c ← get_free_cnt a; mret (wrap_u 32 (PGSIZE * c - pg_ofs block)).

(** The arena [a] goes when none of its blocks is in use. *)
Definition free_arena (d : ptr) (a : Z) : M heap unit :=
  c ← get_free_cnt a; x ← get_desc d; ASSERT (bool_decide (c = blocks_per_arena x));;
  for_blocks d a (λ b, list_remove (ptr_of b);; mret tt);;
  palloc_free_page a.

Definition free_small (d : ptr) (a b : Z) : M heap unit :=
  x ← get_desc d;
  memset b 0xcc (desc_block_size x);;
  lock_desc d;;
  list_push_front (free_list d) (ptr_of b);;
  c ← get_free_cnt a; set_free_cnt a (wrap_u 32 (c + 1));;
  x ← get_desc d;
  (if bool_decide (wrap_u 32 (c + 1) >= blocks_per_arena x) then free_arena d a else mret tt);;
  unlock_desc d.

Definition free (p : Z) : M heap unit :=
  if bool_decide (p = 0) then mret tt
  else
    a ← block_to_arena p;
    d ← get_arena_desc a;
    if not_null d then free_small d a p
    else c ← get_free_cnt a; palloc_free_multiple a c.

Definition realloc (old_block new_size : Z) : M heap Z :=
  if bool_decide (new_size = 0) then free old_block;; mret 0
  else
    new_block ← malloc new_size;
    (if bool_decide (old_block ≠ 0) && bool_decide (new_block ≠ 0) then
       old_size ← block_size old_block;
       let min_size := if bool_decide (new_size < old_size) then new_size else old_size in
       memcpy new_block old_block min_size;;
       free old_block
     else mret tt);;
    mret new_block.
End malloc.
