(* ===== verification/PintosArena.v ===== *)
(** The memory of the block allocator of Pintos: arenas, their headers and blocks,
    and the lists of free blocks; lemmas on the steps of [malloc] and [free]. *)
From S2P Require Export PintosMalloc.
Local Open Scope Z_scope.

(** * Sizes and addresses of blocks *)

(** The size of the blocks of descriptor [i], and how many an arena has. *)
Definition bsize (i : Z) : Z := 16 * 2 ^ i.
Definition nblk (i : Z) : Z := (PGSIZE - ARENA_SIZE) / bsize i.
(** The number of descriptors, which [malloc_init] fills. *)
Definition CLASSES : Z := 7.

(** Block [k] of the arena at [a], and the list element in it. *)
Definition blk (i a k : Z) : Z := a + ARENA_SIZE + k * bsize i.
Definition el (b : Z) : loc := Z.to_pos ((b + 4) / 8).

Lemma class_cases i : 0 <= i < CLASSES → i = 0 ∨ i = 1 ∨ i = 2 ∨ i = 3 ∨ i = 4 ∨ i = 5 ∨ i = 6.
Proof. unfold CLASSES. lia. Qed.

Lemma class_sizes i : 0 <= i < CLASSES →
  16 <= bsize i <= 1024 ∧ bsize i mod 16 = 0 ∧ 3 <= nblk i <= 255 ∧ nblk i * bsize i <= 4084.
Proof. intros H. destruct (class_cases i H) as [->|[->|[->|[->|[->|[->| ->]]]]]]; vm_compute; split_and!; congruence. Qed.

(** A page of the kernel. *)
Definition is_page (a : Z) : Prop := ∃ j, a = PGSIZE * j ∧ 0 < j < 2 ^ 20.

Lemma blk_bounds i a k : 0 <= i < CLASSES → 0 <= k < nblk i → a + 12 <= blk i a k ∧ blk i a k + bsize i <= a + PGSIZE.
Proof.
  intros Hi Hk. destruct (class_sizes i Hi) as (H1 & H2 & H3 & H4). unfold blk. change ARENA_SIZE with 12. change PGSIZE with 4096.
  nia.
Qed.

Lemma blk_aligned i a k : 0 <= i < CLASSES → is_page a → blk i a k mod 16 = 12.
Proof.
  intros Hi (j & -> & Hj). destruct (class_sizes i Hi) as (H1 & H2 & H3 & H4). unfold blk. change ARENA_SIZE with 12.
  assert (bsize i = 16 * (bsize i / 16)) as E by div_lia. rewrite E. change PGSIZE with 4096.
  replace (4096 * j + 12 + k * (16 * (bsize i / 16))) with (12 + (256 * j + k * (bsize i / 16)) * 16) by lia.
  by rewrite Z.mod_add.
Qed.

Lemma el_address b : 0 < b → b mod 8 = 4 → address (Some (el b)) = b.
Proof. intros. unfold address, el. rewrite Z2Pos.id; div_lia. Qed.
Lemma el_ptr b : 0 < b → ptr_of b = Some (el b).
Proof. intros. unfold ptr_of. case_decide; [lia|done]. Qed.

Lemma el_inj b b' : 0 < b → b mod 8 = 4 → 0 < b' → b' mod 8 = 4 → el b = el b' → b = b'.
Proof. intros H1 H2 H3 H4 E. by rewrite -(el_address b) // -(el_address b') // E. Qed.

(** What the code computes from the address of a block. *)
Lemma blk_page i a k : 0 <= i < CLASSES → is_page a → 0 <= k < nblk i →
  pg_round_down (blk i a k) = a ∧ pg_ofs (blk i a k) = ARENA_SIZE + k * bsize i ∧ in_u 32 (blk i a k) ∧
  0 < blk i a k ∧ blk i a k mod 8 = 4.
Proof.
  intros Hi Ha Hk. pose proof (blk_bounds i a k Hi Hk) as Hb. pose proof (blk_aligned i a k Hi Ha) as H16.
  destruct Ha as (j & -> & Hj).
  assert (blk i (PGSIZE * j) k mod PGSIZE = ARENA_SIZE + k * bsize i) as Hm.
  { unfold blk in *. replace (PGSIZE * j + ARENA_SIZE + k * bsize i) with (ARENA_SIZE + k * bsize i + j * PGSIZE) by lia.
    rewrite Z.mod_add //. apply Z.mod_small. change ARENA_SIZE with 12 in *. change PGSIZE with 4096 in *.
    destruct (class_sizes i Hi). lia. }
  assert (in_u 32 (blk i (PGSIZE * j) k)) as Hu.
  { destruct (class_sizes i Hi). unfold in_u. change PGSIZE with 4096 in *. lia. }
  rewrite pg_round_down_mod // pg_ofs_mod Hm. split; [unfold blk; lia|]. split; [done|]. split; [done|].
  change PGSIZE with 4096 in *. split; [lia|]. clear -H16. div_lia.
Qed.

Section arena.
Context {ST : Statics}.
Abbreviation cell := (Z + (pool + desc))%type.

(** * Headers and descriptors *)

Definition header (a : Z) (d : ptr) (c : Z) : hpropI cell :=
  (loc_of a ↦ ARENA_MAGIC ∗ loc_of (a + 4) ↦ d ∗ loc_of (a + 8) ↦ c)%I.

(** The descriptors, of which one may be locked. *)
Definition desc_rep (held : option Z) (i : Z) : hpropI cell :=
  (desc_at i)~0%positive ↦ Desc (bsize i) (nblk i) (bool_decide (held = Some i)).
Definition descs_rep (held : option Z) : hpropI cell :=
  ([∗ list] i ∈ seqZ 0 CLASSES, desc_rep held i)%I.

Lemma seqZ_take (Φ : Z → hpropI cell) i n : 0 <= i < n →
  ([∗ list] j ∈ seqZ 0 n, Φ j) ⊣⊢ Φ i ∗ [∗ list] j ∈ seqZ 0 n, if decide (j = i) then emp else Φ j.
Proof.
  intros Hi. rewrite (big_sepL_delete _ _ (Z.to_nat i) i); [|apply lookup_seqZ; lia]. f_equiv.
  apply big_sepL_proper. intros k j Hj. apply lookup_seqZ in Hj as [-> Hk]. do 2 case_decide; done || lia.
Qed.

Lemma descs_rep_take held i : 0 <= i < CLASSES → descs_rep held ⊢
  desc_rep held i ∗
  (∀ held', ⌈∀ j, 0 <= j < CLASSES → j ≠ i → (held' = Some j ↔ held = Some j)⌉ -∗ desc_rep held' i -∗ descs_rep held').
Proof.
  intros Hi. unfold descs_rep. rewrite (seqZ_take _ i CLASSES Hi). iIntros "[$ H]" (held' Hh) "Hi".
  rewrite (seqZ_take (desc_rep held') i CLASSES Hi). iFrame "Hi".
  iApply (big_sepL_mono with "H"). intros k j Hj. apply lookup_seqZ in Hj as [-> Hk].
  case_decide as E; [done|]. unfold desc_rep. by rewrite (bool_decide_ext _ _ (Hh (0 + Z.of_nat k) ltac:(lia) E)).
Qed.

Lemma wp_get_desc i held Φ Ψ : 0 <= i < CLASSES →
  descs_rep held -∗ (descs_rep held -∗ Φ (Desc (bsize i) (nblk i) (bool_decide (held = Some i)))) -∗
  wp (get_desc (Some (desc_at i))) Φ Ψ.
Proof.
  intros Hi. iIntros "H HΦ". iDestruct (descs_rep_take held i Hi with "H") as "[Hi H]".
  iApply (wp_load with "Hi"). iIntros "Hi". iApply "HΦ". by iApply ("H" with "[] Hi").
Qed.

Lemma wp_lock_desc i Φ Ψ : 0 <= i < CLASSES →
  descs_rep None -∗ (descs_rep (Some i) -∗ Φ tt) -∗ wp (lock_desc (Some (desc_at i))) Φ Ψ.
Proof.
  intros Hi. iIntros "H HΦ". iDestruct (descs_rep_take None i Hi with "H") as "[Hi H]".
  unfold lock_desc, get_desc, set_desc. cbn [fmap option_fmap option_map]. wp_load "Hi". wp_focus. iApply wp_ret.
  iApply (wp_store with "Hi"). iIntros "Hi". iApply "HΦ". iApply ("H" $! (Some i) with "[] [Hi]").
  - iPureIntro. intros j _ Hj. split; congruence.
  - unfold desc_rep. rewrite (bool_decide_true (Some i = Some i)); [iExact "Hi"|done].
Qed.

Lemma wp_unlock_desc i Φ Ψ : 0 <= i < CLASSES →
  descs_rep (Some i) -∗ (descs_rep None -∗ Φ tt) -∗ wp (unlock_desc (Some (desc_at i))) Φ Ψ.
Proof.
  intros Hi. iIntros "H HΦ". iDestruct (descs_rep_take (Some i) i Hi with "H") as "[Hi H]".
  unfold unlock_desc, get_desc, set_desc. cbn [fmap option_fmap option_map].
  unfold desc_rep at 1. rewrite (bool_decide_true (Some i = Some i)) //.
  wp_load "Hi". wp_focus. iApply wp_ret.
  iApply (wp_store with "Hi"). iIntros "Hi". iApply "HΦ". iApply ("H" $! None with "[] [Hi]"); [|done].
  iPureIntro. intros j _ Hj. split; congruence.
Qed.

(** * The header of an arena *)

Lemma page_pos a : is_page a → 0 < a ∧ a mod PGSIZE = 0 ∧ a + PGSIZE <= 2 ^ 32.
Proof. intros (j & -> & Hj). pg_lia. Qed.

Lemma wp_load_ptr a (p : ptr) Φ Ψ : 0 < a → a mod 4 = 0 → loc_of a ↦ p -∗ (loc_of a ↦ p -∗ Φ p) -∗ wp (load_ptr a) Φ Ψ.
Proof. intros Ha Ha4. unfold load_ptr. case_decide; [|lia]. apply wp_load. Qed.

Section header.
Context (a : Z) (Ha : is_page a).

Lemma header_aligned : 0 < a ∧ a mod 4 = 0 ∧ 0 < a + 4 ∧ (a + 4) mod 4 = 0 ∧ 0 < a + 8 ∧ (a + 8) mod 4 = 0.
Proof. destruct (page_pos a Ha) as (H1 & H2 & _). pg_lia. Qed.

Lemma wp_get_magic d c Φ Ψ : header a d c -∗ (header a d c -∗ Φ ARENA_MAGIC) -∗ wp (get_magic a) Φ Ψ.
Proof.
  destruct header_aligned as (H1 & H2 & _). iIntros "(Hm & Hd & Hc) H".
  iApply (wp_load_word with "Hm"); [done..|]. iIntros "Hm". iApply "H". iFrame.
Qed.
Lemma wp_get_arena_desc d c Φ Ψ : header a d c -∗ (header a d c -∗ Φ d) -∗ wp (get_arena_desc a) Φ Ψ.
Proof.
  destruct header_aligned as (_ & _ & H1 & H2 & _). iIntros "(Hm & Hd & Hc) H".
  iApply (wp_load_ptr with "Hd"); [done..|]. iIntros "Hd". iApply "H". iFrame.
Qed.
Lemma wp_get_free_cnt d c Φ Ψ : in_u 32 c → header a d c -∗ (header a d c -∗ Φ c) -∗ wp (get_free_cnt a) Φ Ψ.
Proof.
  intros Hu. destruct header_aligned as (_ & _ & _ & _ & H1 & H2). iIntros "(Hm & Hd & Hc) H".
  iApply (wp_load_word with "Hc"); [done..|]. iIntros "Hc". rewrite wrap_u_id //. iApply "H". iFrame.
Qed.
Lemma wp_set_free_cnt d c v Φ Ψ : in_u 32 v → header a d c -∗ (header a d v -∗ Φ tt) -∗ wp (set_free_cnt a v) Φ Ψ.
Proof.
  intros Hu. destruct header_aligned as (_ & _ & _ & _ & H1 & H2). iIntros "(Hm & Hd & Hc) H".
  iApply (wp_store_word with "Hc"); [done..|]. iIntros "Hc". rewrite wrap_u_id //. iApply "H". iFrame.
Qed.

(** The first words of a page become a header. *)
Lemma wp_new_header {A} (k : M _ A) bs d v Φ Ψ : size_of bs = ARENA_SIZE → in_u 32 v →
  block a bs -∗ (header a d v -∗ wp k Φ Ψ) -∗
  wp (set_magic a ARENA_MAGIC;; set_arena_desc a d;; set_free_cnt a v;; k) Φ Ψ.
Proof.
  intros Hbs Hv. destruct header_aligned as (H1 & H2 & H3 & H4 & H5 & H6).
  iIntros "Hb H". change ARENA_SIZE with 12 in Hbs.
  iDestruct (block_split _ 4 with "Hb") as "[Hb0 Hb]"; [lia|done|].
  iDestruct (block_split _ 4 with "Hb") as "[Hb1 Hb2]"; [rewrite size_of_slice; lia|done|].
  rewrite -Z.add_assoc. iDestruct (block_to_word with "Hb0") as (w0) "Hb0"; [sizes; lia|].
  iDestruct (block_to_word with "Hb1") as (w1) "Hb1"; [sizes; lia|].
  iDestruct (block_to_word with "Hb2") as (w2) "Hb2"; [rewrite size_of_slice ?size_of_slice; lia|].
  wp_focus. iApply (wp_store_word with "Hb0"); [done..|]. iIntros "Hb0". wp_focus.
  unfold set_arena_desc, store_ptr. case_decide; [|lia].
  iApply (wp_store_over _ (inl w1) with "Hb1"); [by eexists|]. iIntros "Hb1". wp_focus.
  iApply (wp_store_word with "Hb2"); [done..|]. iIntros "Hb2". iApply "H". rewrite (wrap_u_id 32 v) //. iFrame.
Qed.

(** And back. *)
Lemma header_block d c : header a d c ⊢ ∃ bs, ⌈size_of bs = ARENA_SIZE⌉ ∗ block a bs.
Proof.
  destruct header_aligned as (H1 & H2 & H3 & H4 & H5 & H6). iIntros "(Hm & Hd & Hc)".
  iExists (le_split 4 ARENA_MAGIC ++ le_split 4 (pack d) ++ le_split 4 c).
  iSplit; [by rewrite !size_of_app !size_of_le_split|].
  iApply (block_join a _ _ 4 (size_of_le_split 4 _)). iSplitL "Hm"; [by iApply word_to_block|].
  iApply (block_join (a + 4) _ _ 4 (size_of_le_split 4 _)). iSplitL "Hd"; [by iApply (word_to_block (a + 4) (pack d))|].
  rewrite -Z.add_assoc. by iApply word_to_block.
Qed.

Lemma wp_assert_magic {A} (k : M _ A) d c Φ Ψ : header a d c -∗ (header a d c -∗ wp k Φ Ψ) -∗
  wp (ASSERT (bool_decide (a ≠ 0));; ASSERT_M (magic ← get_magic a; mret (bool_decide (magic = ARENA_MAGIC)));; k) Φ Ψ.
Proof.
  destruct header_aligned as (H1 & _). iIntros "Hh H". wp_focus. iApply wp_ASSERT. rewrite bool_decide_true; [|lia].
  wp_focus. iApply wp_ASSERT_M. wp_focus. iApply (wp_get_magic with "Hh"). iIntros "Hh". iApply wp_ret. iSplit; [done|]. by iApply "H".
Qed.

Lemma wp_block_to_arena_small i k c held Φ Ψ : 0 <= i < CLASSES → 0 <= k < nblk i →
  header a (Some (desc_at i)) c -∗ descs_rep held -∗
  (header a (Some (desc_at i)) c -∗ descs_rep held -∗ Φ a) -∗
  wp (block_to_arena (blk i a k)) Φ Ψ.
Proof.
  intros Hi Hk. destruct (blk_page i a k Hi Ha Hk) as (Hp & Ho & _).
  destruct (class_sizes i Hi) as (Hs & _ & _ & Hn). iIntros "Hh Hd H". unfold block_to_arena. rewrite Hp Ho.
  iApply (wp_assert_magic with "Hh"). iIntros "Hh".
  wp_focus. iApply wp_ASSERT_M. iApply wp_M_or. iApply wp_fmap. iApply (wp_get_arena_desc with "Hh"). iIntros "Hh".
  change (is_null (Some (desc_at i))) with false. cbv iota. wp_focus. iApply (wp_get_arena_desc with "Hh"). iIntros "Hh".
  wp_focus. iApply (wp_get_desc with "Hd"); [done|]. iIntros "Hd". iApply wp_ret. iSplit.
  { iPureIntro. cbn [desc_block_size]. apply bool_decide_eq_true.
    replace (ARENA_SIZE + k * bsize i - ARENA_SIZE) with (k * bsize i) by lia. rewrite wrap_u_id; [apply Z.mod_mul; lia|].
    unfold in_u. nia. }
  wp_focus. iApply wp_ASSERT_M. iApply wp_M_or. iApply wp_fmap. iApply (wp_get_arena_desc with "Hh"). iIntros "Hh".
  change (not_null (Some (desc_at i))) with true. cbv iota. iSplit; [done|]. iApply wp_ret. iApply ("H" with "Hh Hd").
Qed.

Lemma wp_block_to_arena_big c Φ Ψ : header a NULL c -∗ (header a NULL c -∗ Φ a) -∗ wp (block_to_arena (a + ARENA_SIZE)) Φ Ψ.
Proof.
  destruct (page_pos a Ha) as (H1 & H2 & H3). iIntros "Hh H". unfold block_to_arena.
  assert ((a + ARENA_SIZE) mod PGSIZE = ARENA_SIZE) as Hm by (change ARENA_SIZE with 12; pg_lia).
  rewrite pg_ofs_mod pg_round_down_mod; [|unfold in_u; change ARENA_SIZE with 12; pg_lia]. rewrite Hm.
  replace (a + ARENA_SIZE - ARENA_SIZE) with a by lia. iApply (wp_assert_magic with "Hh"). iIntros "Hh".
  wp_focus. iApply wp_ASSERT_M. iApply wp_M_or. iApply wp_fmap. iApply (wp_get_arena_desc with "Hh"). iIntros "Hh".
  change (is_null NULL) with true. cbv iota. iSplit; [done|].
  wp_focus. iApply wp_ASSERT_M. iApply wp_M_or. iApply wp_fmap. iApply (wp_get_arena_desc with "Hh"). iIntros "Hh".
  change (not_null NULL) with false. cbv iota. iApply wp_ret. iSplit; [iPureIntro; by apply bool_decide_eq_true|]. iApply wp_ret. by iApply "H".
Qed.

Lemma wp_arena_to_block i k c held Φ Ψ : 0 <= i < CLASSES → 0 <= k < nblk i →
  header a (Some (desc_at i)) c -∗ descs_rep held -∗
  (header a (Some (desc_at i)) c -∗ descs_rep held -∗ Φ (blk i a k)) -∗
  wp (arena_to_block a k) Φ Ψ.
Proof.
  intros Hi Hk. destruct (blk_page i a k Hi Ha Hk) as (_ & _ & Hu & _). iIntros "Hh Hd H". unfold arena_to_block.
  iApply (wp_assert_magic with "Hh"). iIntros "Hh".
  wp_focus. iApply wp_ASSERT_M. wp_focus. iApply (wp_get_arena_desc with "Hh"). iIntros "Hh".
  wp_focus. iApply (wp_get_desc with "Hd"); [done|]. iIntros "Hd". iApply wp_ret. cbn [blocks_per_arena].
  iSplit; [iPureIntro; apply bool_decide_eq_true; lia|].
  wp_focus. iApply (wp_get_arena_desc with "Hh"). iIntros "Hh".
  wp_focus. iApply (wp_get_desc with "Hd"); [done|]. iIntros "Hd". iApply wp_ret. cbn [desc_block_size].
  rewrite wrap_u_id //. iApply ("H" with "Hh Hd").
Qed.

(** The loop over the blocks, each of which takes [P k] to [Q]. *)
Lemma for_blocks_spec i c held (body : Z → M _ unit) (I : Z → hpropI cell) : 0 <= i < CLASSES →
  (∀ k, 0 <= k < nblk i → ⦃ I k ⦄ body (blk i a k) ⦃ _u, I (k + 1) ⦄) →
  ⦃ header a (Some (desc_at i)) c ∗ descs_rep held ∗ I 0 ⦄ for_blocks (Some (desc_at i)) a body
  ⦃ _u, header a (Some (desc_at i)) c ∗ descs_rep held ∗ I (nblk i) ⦄.
Proof.
  intros Hi Hbody. unfold hoare, for_blocks. destruct (class_sizes i Hi) as (_ & _ & Hn & _).
  assert (∀ fuel k, 0 <= k <= nblk i → nblk i - k < Z.of_nat fuel →
    header a (Some (desc_at i)) c ∗ descs_rep held ∗ I k ⊢
    wp (loop fuel (λ k, x ← get_desc (Some (desc_at i));
        if bool_decide (k < blocks_per_arena x) then b ← arena_to_block a k; body b;; mret (inl (k + 1)) else mret (inr tt)) k)
      (λ _, header a (Some (desc_at i)) c ∗ descs_rep held ∗ I (nblk i))%I (λ _, False%I)) as Hloop.
  { induction fuel as [|fuel IH]; intros k Hk Hf; [lia|]. iIntros "(Hh & Hd & H)". iApply wp_loop.
    wp_focus. iApply (wp_get_desc with "Hd"); [done|]. iIntros "Hd". cbn [blocks_per_arena]. case_bool_decide as Hlt.
    - wp_focus. iApply (wp_arena_to_block with "Hh Hd"); [done|lia|]. iIntros "Hh Hd".
      wp_focus. iApply (hoare_wp_ret with "H"); [apply Hbody; lia|]. iIntros (_u) "H". wp_finish.
      iApply (IH with "[$Hh $Hd $H]"); lia.
    - wp_finish. replace (nblk i) with k by lia. iFrame. }
  apply Hloop; [lia|]. change PGSIZE with 4096. lia.
Qed.
End header.

(** * The blocks of an arena *)

(** The part of a free block behind its list element, and what is behind the last block. *)
Definition rest (i a k : Z) : hpropI cell := (∃ r, ⌈size_of r = (bsize i - 8)%Z⌉ ∗ block (blk i a k + 8) r)%I.
Definition tail (i a : Z) : hpropI cell :=
  (∃ t, ⌈size_of t = (PGSIZE - ARENA_SIZE - nblk i * bsize i)%Z⌉ ∗ block (a + ARENA_SIZE + nblk i * bsize i) t)%I.
Definition whole (i a k : Z) : hpropI cell := (∃ x, ⌈size_of x = bsize i⌉ ∗ block (blk i a k) x)%I.

Section blocks.
Context (i a : Z) (Hi : 0 <= i < CLASSES) (Ha : is_page a).

Lemma whole_free k : 0 <= k < nblk i → whole i a k ⊢ elem_space (N := cell) (el (blk i a k)) ∗ rest i a k.
Proof.
  intros Hk. destruct (blk_page i a k Hi Ha Hk) as (_ & _ & _ & Hpos & H8). destruct (class_sizes i Hi) as (Hs & _).
  iIntros "(%x & %Hx & H)". iDestruct (block_split _ 8 with "H") as "[H1 H2]"; [lia|done|]. iSplitL "H1".
  - iApply (block_to_elem with "H1"); [by apply el_address|sizes; lia].
  - iExists _. iFrame. iPureIntro. sizes. lia.
Qed.

Lemma free_whole k : 0 <= k < nblk i → elem (N := cell) (el (blk i a k)) ∗ rest i a k ⊢ whole i a k.
Proof.
  intros Hk. destruct (blk_page i a k Hi Ha Hk) as (_ & _ & _ & Hpos & H8).
  iIntros "[He (%r & %Hr & H)]". iDestruct (elem_to_block (blk i a k) with "He") as (x) "[%Hx He]"; [by apply el_address|].
  iExists (x ++ r). iSplit; [iPureIntro; sizes; lia|]. iApply (block_join _ x r 8 Hx). iFrame.
Qed.

(** The blocks are next to each other. *)
Lemma block_wholes n m bs : 0 <= m → size_of bs = Z.of_nat n * bsize i →
  block (blk i a m) bs ⊢ [∗ list] k ∈ seqZ m (Z.of_nat n), whole i a k.
Proof.
  destruct (class_sizes i Hi) as (Hs & Hs16 & _). revert m bs. induction n as [|n IH]; intros m bs Hm Hbs.
  { assert (bs = []) as -> by (destruct bs; [done|unfold size_of in Hbs; simpl in Hbs; lia]).
    rewrite block_nil. by iIntros "_". }
  rewrite (seqZ_cons m (Z.of_nat (S n))); [|lia]. cbn [big_opL].
  iIntros "H". iDestruct (block_split _ (bsize i) with "H") as "[H1 H2]"; [nia|div_lia|]. iSplitL "H1".
  - iExists _. iFrame. iPureIntro. rewrite size_of_slice; nia.
  - replace (Z.pred (Z.of_nat (S n))) with (Z.of_nat n) by lia. replace (Z.succ m) with (m + 1) by lia.
    iApply (IH (m + 1) with "[H2]"); [lia| |].
    2: { replace (blk i a (m + 1)) with (blk i a m + bsize i) by (unfold blk; lia). iExact "H2". }
    rewrite size_of_slice; nia.
Qed.

Lemma wholes_block n m : 0 <= m → ([∗ list] k ∈ seqZ m (Z.of_nat (S n)), whole i a k) ⊢
  ∃ bs, ⌈size_of bs = (Z.of_nat (S n) * bsize i)%Z⌉ ∗ block (blk i a m) bs.
Proof.
  revert m. induction n as [|n IH]; intros m Hm; rewrite (seqZ_cons m); [|lia| |lia]; cbn [big_opL].
  - change (Z.pred (Z.of_nat 1)) with 0. rewrite seqZ_nil //=. iIntros "[(%x & %Hx & H) _]". iExists x. iFrame. iPureIntro. lia.
  - replace (Z.pred (Z.of_nat (S (S n)))) with (Z.of_nat (S n)) by lia. rewrite IH; [|lia].
    iIntros "[(%x & %Hx & H1) (%y & %Hy & H2)]". iExists (x ++ y). iSplit; [iPureIntro; sizes; lia|].
    iApply (block_join _ x y (bsize i) Hx). replace (blk i a m + bsize i) with (blk i a (Z.succ m)) by (unfold blk; lia). iFrame.
Qed.

(** A page is an arena. *)
Lemma page_arena bs : size_of bs = PGSIZE →
  block a bs ⊢ (∃ h, ⌈size_of h = ARENA_SIZE⌉ ∗ block a h) ∗ ([∗ list] k ∈ seqZ 0 (nblk i), whole i a k) ∗ tail i a.
Proof.
  intros Hbs. destruct (class_sizes i Hi) as (Hs & Hs16 & Hn & Htot). change PGSIZE with 4096 in *.
  iIntros "H". iDestruct (block_split _ ARENA_SIZE with "H") as "[H1 H2]"; [change ARENA_SIZE with 12; lia|done|].
  assert (size_of (slice ARENA_SIZE (size_of bs - ARENA_SIZE) bs) = 4084) as H4084 by (change ARENA_SIZE with 12; sizes; lia).
  iSplitL "H1"; [iExists _; iFrame; iPureIntro; change ARENA_SIZE with 12; sizes; lia|].
  iDestruct (block_split _ (nblk i * bsize i) with "H2") as "[H2 H3]"; [lia| |].
  { rewrite Z.mul_mod // (_ : bsize i mod 4 = 0); [by rewrite Z.mul_0_r|div_lia]. }
  iSplitL "H2".
  - rewrite -{2}(Z2Nat.id (nblk i)); [|lia]. iApply (block_wholes (Z.to_nat (nblk i)) 0); [done| |].
    2: { replace (blk i a 0) with (a + ARENA_SIZE) by (unfold blk; lia). iExact "H2". }
    rewrite size_of_slice; lia.
  - iExists _. iFrame. iPureIntro. change ARENA_SIZE with 12 in *. change PGSIZE with 4096. rewrite size_of_slice; lia.
Qed.

Lemma arena_page d c : header a d c ∗ ([∗ list] k ∈ seqZ 0 (nblk i), whole i a k) ∗ tail i a ⊢
  ∃ bs, ⌈size_of bs = PGSIZE⌉ ∗ block a bs.
Proof.
  destruct (class_sizes i Hi) as (Hs & Hs16 & Hn & Htot).
  assert (∃ m, nblk i = Z.of_nat (S m)) as [m Hm] by (exists (Z.to_nat (nblk i - 1)); lia).
  rewrite (header_block a Ha) {1}Hm wholes_block //. iIntros "((%h & %Hh & H1) & (%x & %Hx & H2) & (%t & %Ht & H3))".
  rewrite -Hm in Hx. iExists (h ++ x ++ t). iSplit; [iPureIntro; sizes; lia|].
  iApply (block_join a h _ ARENA_SIZE Hh). iFrame "H1".
  iApply (block_join _ x t _ Hx). replace (blk i a 0) with (a + ARENA_SIZE) by (unfold blk; lia). iFrame.
Qed.
End blocks.
End arena.
