(* ===== verification/PintosAlloc.v ===== *)
(** The state of the block allocator of Pintos as a map from pages to what was made
    of them, and what [malloc], [free] and the page allocator do to it. *)
From S2P Require Export PintosArena.
Local Open Scope Z_scope.

(** * Chunks *)

(** What starts at a page that is in use: an arena of descriptor [i] with its used
    blocks, a big block of [malloc], or pages from the page allocator. *)
Inductive chunk : Type :=
  | Arena (i : Z) (used : gset Z)
  | Big (cnt : Z)
  | Pages (cnt : Z).

Definition chunk_cnt (c : chunk) : Z := match c with Arena _ _ => 1 | Big cnt | Pages cnt => cnt end.

Definition chunk_ok (c : chunk) : Prop :=
  match c with
  | Arena i U => 0 <= i < CLASSES ∧ set_Forall (λ k, 0 <= k < nblk i) U
  | Big cnt | Pages cnt => 0 < cnt
  end.

(** The elements of the free blocks of descriptor [i]. *)
Definition unused (i : Z) (U : gset Z) : list Z := filter (λ k, k ∉ U) (seqZ 0 (nblk i)).
Definition free_in (i : Z) (jc : Z * chunk) : list loc :=
  match jc.2 with
  | Arena i' U => if decide (i' = i) then (λ k, el (blk i (PGSIZE * jc.1) k)) <$> unused i U else []
  | _ => []
  end.
Definition free_of (i : Z) (σ : gmap Z chunk) : list loc := map_to_list σ ≫= free_in i.

(** The pages in use. *)
Definition covered (σ : gmap Z chunk) : gset Z := ⋃ ((λ jc : Z * chunk, page_range jc.1 (chunk_cnt jc.2)) <$> map_to_list σ).

Lemma free_of_insert i j c σ : σ !! j = None → free_of i (<[j := c]> σ) ≡ₚ free_in i (j, c) ++ free_of i σ.
Proof. intros Hj. unfold free_of. by rewrite map_to_list_insert. Qed.

Lemma free_of_delete i j c σ : σ !! j = Some c → free_of i σ ≡ₚ free_in i (j, c) ++ free_of i (base.delete j σ).
Proof. intros Hj. unfold free_of. by rewrite -(map_to_list_delete σ j c Hj). Qed.

Lemma free_of_replace i j c c' σ : σ !! j = Some c →
  free_of i (<[j := c']> σ) ≡ₚ free_in i (j, c') ++ free_of i (base.delete j σ).
Proof. intros Hj. rewrite -insert_delete_eq. apply free_of_insert, lookup_delete_eq. Qed.

Lemma elem_of_free_of i x σ : x ∈ free_of i σ ↔ ∃ j U k, σ !! j = Some (Arena i U) ∧ 0 <= k < nblk i ∧ k ∉ U ∧ x = el (blk i (PGSIZE * j) k).
Proof.
  unfold free_of. rewrite list_elem_of_bind. split.
  - intros ([j c] & Hx & Hj%elem_of_map_to_list). unfold free_in in Hx. cbn [fst snd] in Hx.
    destruct c as [i' U| |]; [|by apply not_elem_of_nil in Hx..]. case_decide; [subst|by apply not_elem_of_nil in Hx].
    apply list_elem_of_fmap in Hx as (k & -> & Hk). unfold unused in Hk. apply list_elem_of_filter in Hk as [Hk Hk'].
    apply elem_of_seqZ in Hk'. exists j, U, k. done.
  - intros (j & U & k & Hj & Hk & HU & ->). exists (j, Arena i U). split; [|by apply elem_of_map_to_list].
    unfold free_in. cbn [fst snd]. rewrite decide_True //. apply list_elem_of_fmap. exists k. split; [done|].
    apply list_elem_of_filter. split; [done|]. apply elem_of_seqZ. lia.
Qed.

Lemma unused_insert i U k : 0 <= k < nblk i → k ∉ U → unused i U ≡ₚ k :: unused i ({[k]} ∪ U).
Proof.
  intros Hk HU. unfold unused. apply NoDup_Permutation.
  - apply NoDup_filter, NoDup_seqZ.
  - apply NoDup_cons. split; [|apply NoDup_filter, NoDup_seqZ]. rewrite list_elem_of_filter. intros [Hn _]. by apply Hn, elem_of_union_l, elem_of_singleton.
  - intros x. rewrite elem_of_cons !list_elem_of_filter elem_of_seqZ not_elem_of_union not_elem_of_singleton.
    destruct (decide (x = k)) as [->|]; [|tauto]. split; [by left|]. intros _. split; [done|lia].
Qed.

Lemma size_used i (U : gset Z) : set_Forall (λ k, 0 <= k < nblk i) U → 0 <= i < CLASSES → Z.of_nat (size U) <= nblk i.
Proof.
  intros HU Hi. destruct (class_sizes i Hi) as (_ & _ & Hn & _).
  assert (U ⊆ list_to_set (seqZ 0 (nblk i))) as Hsub%subseteq_size.
  { intros k Hk. apply elem_of_list_to_set, elem_of_seqZ. specialize (HU k Hk). simpl in HU. lia. }
  rewrite size_list_to_set in Hsub; [|apply NoDup_seqZ]. rewrite length_seqZ in Hsub. lia.
Qed.

Lemma elem_of_covered p σ : p ∈ covered σ ↔ ∃ j c, σ !! j = Some c ∧ j <= p < j + chunk_cnt c.
Proof.
  unfold covered. rewrite elem_of_union_list. split.
  - intros (X & HX & Hp). apply list_elem_of_fmap in HX as ([j c] & -> & Hj%elem_of_map_to_list).
    apply elem_of_page_range in Hp. by exists j, c.
  - intros (j & c & Hj & Hp). exists (page_range j (chunk_cnt c)). split; [|by apply elem_of_page_range].
    apply list_elem_of_fmap. exists (j, c). split; [done|]. by apply elem_of_map_to_list.
Qed.

Lemma covered_insert j c σ : σ !! j = None → covered (<[j := c]> σ) = covered σ ∪ page_range j (chunk_cnt c).
Proof.
  intros Hj. apply set_eq. intros p. rewrite elem_of_union !elem_of_covered elem_of_page_range. split.
  - intros (j' & c' & Hj' & Hp). apply lookup_insert_Some in Hj' as [[<- <-]|[_ Hj']]; [by right|left; eauto].
  - intros [(j' & c' & Hj' & Hp)|Hp].
    + exists j', c'. split; [|done]. rewrite lookup_insert_ne //. by intros <-; rewrite Hj in Hj'.
    + exists j, c. by rewrite lookup_insert_eq.
Qed.

Lemma covered_replace j c c' σ : σ !! j = Some c → chunk_cnt c' = chunk_cnt c → covered (<[j := c']> σ) = covered σ.
Proof.
  intros Hj Hc. apply set_eq. intros p. rewrite !elem_of_covered. split.
  - intros (j' & c'' & Hj' & Hp). apply lookup_insert_Some in Hj' as [[<- <-]|[_ Hj']]; [|eauto].
    exists j, c. split; [done|]. by rewrite -Hc.
  - intros (j' & c'' & Hj' & Hp). destruct (decide (j = j')) as [->|Hne].
    + exists j', c'. rewrite lookup_insert_eq. split; [done|]. rewrite Hj in Hj'. injection Hj' as <-. by rewrite Hc.
    + exists j', c''. by rewrite lookup_insert_ne.
Qed.

(** * The state of the allocator *)

Section alloc.
Context {ST : Statics} (ks kn us un : Z).
Abbreviation cell := (Z + (pool + desc))%type.

Definition layout_ok : Prop := 0 < ks ∧ ks + kn <= us ∧ us + un <= 2 ^ 20 ∧ 0 <= kn ∧ 0 <= un.

Record wf (σ : gmap Z chunk) : Prop := {
  wf_chunk j c : σ !! j = Some c → chunk_ok c ∧ in_pool ks kn us un j (chunk_cnt c);
  wf_apart j c j' c' : σ !! j = Some c → σ !! j' = Some c' → j ≠ j' → j + chunk_cnt c <= j' ∨ j' + chunk_cnt c' <= j;
}.

(** Every arena has a block in use. *)
Definition busy (σ : gmap Z chunk) : Prop := ∀ j i, σ !! j ≠ Some (Arena i ∅).

Definition chunk_rep (j : Z) (c : chunk) : hpropI cell :=
  match c with
  | Arena i U =>
      header (PGSIZE * j) (Some (desc_at i)) (nblk i - Z.of_nat (size U)) ∗ tail i (PGSIZE * j) ∗
      [∗ list] k ∈ seqZ 0 (nblk i), if decide (k ∈ U) then emp else rest i (PGSIZE * j) k
  | Big cnt => header (PGSIZE * j) NULL cnt
  | Pages _ => emp
  end%I.
Definition chunks (σ : gmap Z chunk) : hpropI cell := ([∗ map] j ↦ c ∈ σ, chunk_rep j c)%I.

Definition list_rep (σ : gmap Z chunk) (i : Z) : hpropI cell :=
  (∃ xs, ⌈xs ≡ₚ free_of i σ⌉ ∗ is_list (N := cell) (desc_at i)~1%positive xs)%I.
Definition lists (σ : gmap Z chunk) : hpropI cell := ([∗ list] i ∈ seqZ 0 CLASSES, list_rep σ i)%I.

Definition malloc_inv (σ : gmap Z chunk) : hpropI cell :=
  (⌈wf σ ∧ busy σ⌉ ∗ pools ks kn us un (covered σ) ∗ desc_cnt ↦ CLASSES ∗ descs_rep None ∗ lists σ ∗ chunks σ)%I.

(** Taking the list of a descriptor out, and putting it back for another state. *)
Lemma lists_take σ i : 0 <= i < CLASSES → lists σ ⊢
  list_rep σ i ∗ (∀ σ', ⌈∀ i', 0 <= i' < CLASSES → i' ≠ i → free_of i' σ ≡ₚ free_of i' σ'⌉ -∗ list_rep σ' i -∗ lists σ').
Proof.
  intros Hi. unfold lists. rewrite (seqZ_take (list_rep σ) i CLASSES Hi). iIntros "[$ H]" (σ' Hσ) "Hi".
  rewrite (seqZ_take (list_rep σ') i CLASSES Hi). iFrame "Hi".
  iApply (big_sepL_mono with "H"). intros k j Hj. apply lookup_seqZ in Hj as [-> Hk].
  case_decide as E; [done|]. iIntros "(%xs & %Hxs & H)". iExists xs. iFrame. iPureIntro.
  rewrite Hxs. by apply Hσ; [lia|].
Qed.

(** Chunks without free blocks do not matter to the lists. *)
Lemma lists_pages σ σ' : (∀ i, free_of i σ ≡ₚ free_of i σ') → lists σ ⊢ lists σ'.
Proof.
  intros H. apply big_sepL_mono. intros k i _. iIntros "(%xs & %Hxs & H)". iExists xs. iFrame. iPureIntro. by rewrite Hxs.
Qed.

Lemma free_in_other i i' j U : i' ≠ i → free_in i' (j, Arena i U) = [].
Proof. intros. unfold free_in. cbn [fst snd]. case_decide; [congruence|done]. Qed.

(** The other lists are as before when an arena changes. *)
Lemma free_of_other i i' j U U' σ : σ !! j = Some (Arena i U) → i' ≠ i →
  free_of i' σ ≡ₚ free_of i' (<[j := Arena i U']> σ).
Proof. intros Hj Hi. by rewrite (free_of_delete i' j _ σ Hj) (free_of_replace i' j _ _ σ Hj) !free_in_other. Qed.

Hypothesis Hlayout : layout_ok.

Lemma wf_page σ j c : wf σ → σ !! j = Some c → is_page (PGSIZE * j).
Proof.
  intros Hwf Hj. destruct (wf_chunk σ Hwf j c Hj) as [Hok Hin]. exists j. split; [done|].
  destruct Hlayout as (H1 & H2 & H3 & H4 & H5). assert (0 < chunk_cnt c) by (destruct c; [simpl; lia|exact Hok..]).
  destruct Hin as [?|?]; lia.
Qed.

(** Chunks where the pages were not in use, and pages that are given back. *)
Lemma wf_insert σ j c : wf σ → chunk_ok c → in_pool ks kn us un j (chunk_cnt c) → 0 < chunk_cnt c →
  (∀ p, j <= p < j + chunk_cnt c → p ∉ covered σ) → wf (<[j := c]> σ) ∧ σ !! j = None.
Proof.
  intros [H1 H2] Hok Hin Hc Hp.
  assert (∀ j' c', σ !! j' = Some c' → j + chunk_cnt c <= j' ∨ j' + chunk_cnt c' <= j) as Hap.
  { intros j' c' Hj'. destruct (H1 j' c' Hj') as [Hok' _]. assert (0 < chunk_cnt c') by (destruct c'; [simpl; lia|exact Hok'..]).
    destruct (decide (j + chunk_cnt c <= j')); [by left|]. destruct (decide (j' + chunk_cnt c' <= j)); [by right|].
    exfalso. apply (Hp (Z.max j j')); [lia|]. apply elem_of_covered. exists j', c'. split; [done|lia]. }
  split; [split|].
  - intros j' c' Hj'. apply lookup_insert_Some in Hj' as [[<- <-]|[_ Hj']]; [done|by apply H1].
  - intros j1 c1 j2 c2 Hj1 Hj2 Hne. apply lookup_insert_Some in Hj1 as [[<- <-]|[_ Hj1]]; apply lookup_insert_Some in Hj2 as [[<- <-]|[_ Hj2]].
    + done.
    + by apply Hap.
    + specialize (Hap _ _ Hj1). tauto.
    + by eapply H2.
  - destruct (σ !! j) as [c'|] eqn:E; [|done]. specialize (Hap _ _ E). destruct (H1 j c' E) as [Hok' _].
    assert (0 < chunk_cnt c') by (destruct c'; [simpl; lia|exact Hok'..]). lia.
Qed.

Lemma wf_delete σ j : wf σ → wf (base.delete j σ).
Proof.
  intros [H1 H2]. split.
  - intros j' c' Hj'. apply lookup_delete_Some in Hj' as [_ Hj']. by apply H1.
  - intros j1 c1 j2 c2 Hj1 Hj2. apply lookup_delete_Some in Hj1 as [_ Hj1]. apply lookup_delete_Some in Hj2 as [_ Hj2]. by eapply H2.
Qed.

Lemma wf_replace σ j c c' : wf σ → σ !! j = Some c → chunk_ok c' → chunk_cnt c' = chunk_cnt c → wf (<[j := c']> σ).
Proof.
  intros [H1 H2] Hj Hok Hc. destruct (H1 j c Hj) as [_ Hin]. split.
  - intros j1 c1 Hj1. apply lookup_insert_Some in Hj1 as [[<- <-]|[_ Hj1]]; [by rewrite Hc|by apply H1].
  - intros j1 c1 j2 c2 Hj1 Hj2 Hne. apply lookup_insert_Some in Hj1 as [[<- <-]|[_ Hj1]]; apply lookup_insert_Some in Hj2 as [[<- <-]|[_ Hj2]].
    + done.
    + rewrite Hc. by apply H2.
    + rewrite Hc. by apply H2.
    + by apply H2.
Qed.

Lemma covered_delete σ j c : wf σ → σ !! j = Some c → covered (base.delete j σ) = covered σ ∖ page_range j (chunk_cnt c).
Proof.
  intros Hwf Hj. apply set_eq. intros p. rewrite elem_of_difference !elem_of_covered elem_of_page_range. split.
  - intros (j' & c' & Hj' & Hp). apply lookup_delete_Some in Hj' as [Hne Hj']. split; [by exists j', c'|].
    destruct (wf_apart σ Hwf j c j' c' Hj Hj' Hne); lia.
  - intros [(j' & c' & Hj' & Hp) Hout]. exists j', c'. split; [|done]. rewrite lookup_delete_ne //.
    intros <-. rewrite Hj in Hj'. injection Hj' as <-. done.
Qed.

(** * The steps of [malloc] *)

Lemma wp_find_desc size Φ Ψ :
  descs_rep None -∗
  (∀ i, ⌈(i = CLASSES ∧ bsize 6 < size) ∨ (0 <= i < CLASSES ∧ size <= bsize i)⌉ -∗ descs_rep None -∗ Φ i) -∗
  wp (find_desc size CLASSES) Φ Ψ.
Proof.
  iIntros "Hd H". unfold find_desc.
  assert (∀ fuel i, 0 <= i <= CLASSES → CLASSES - i < Z.of_nat fuel → (i = CLASSES → bsize 6 < size) →
    descs_rep None -∗
    (∀ i, ⌈(i = CLASSES ∧ bsize 6 < size) ∨ (0 <= i < CLASSES ∧ size <= bsize i)⌉ -∗ descs_rep None -∗ Φ i) -∗
    wp (loop fuel (λ i, if bool_decide (i < CLASSES) then x ← get_desc (Some (desc_at i));
          mret (if bool_decide (desc_block_size x >= size) then inr i else inl (i + 1)) else mret (inr i)) i) Φ Ψ) as Hloop.
  { induction fuel as [|fuel IH]; intros i Hi Hf H6; [lia|]. iIntros "Hd H". iApply wp_loop. case_bool_decide as Hlt.
    - wp_focus. iApply (wp_get_desc with "Hd"); [lia|]. iIntros "Hd". cbn [desc_block_size]. wp_finish. case_bool_decide as Hs.
      + wp_finish. iApply ("H" with "[] Hd"). iPureIntro. right. lia.
      + iApply (IH with "Hd H"); [lia|lia|]. intros Hi6. replace 6 with i by (unfold CLASSES in *; lia). lia.
    - wp_finish. iApply ("H" with "[] Hd"). iPureIntro. left. split; [lia|]. apply H6. lia. }
  iApply (Hloop with "Hd H"); unfold CLASSES; lia.
Qed.

(** Taking block [k] of the arena at [j] out of the free blocks. *)
Lemma chunk_take σ j i U k : wf σ → σ !! j = Some (Arena i U) → 0 <= k < nblk i → k ∉ U →
  chunks σ ⊢ header (PGSIZE * j) (Some (desc_at i)) (nblk i - Z.of_nat (size U)) ∗ rest i (PGSIZE * j) k ∗
    (header (PGSIZE * j) (Some (desc_at i)) (nblk i - Z.of_nat (size ({[k]} ∪ U))) -∗
     chunks (<[j := Arena i ({[k]} ∪ U)]> σ)).
Proof.
  intros Hwf Hj Hk HU. unfold chunks. rewrite (big_sepM_delete _ _ _ _ Hj). cbn [chunk_rep].
  rewrite (seqZ_take (λ k, if decide (k ∈ U) then emp else rest i (PGSIZE * j) k)%I k) //. rewrite decide_False //.
  iIntros "[($ & Ht & $ & Hr) Hσ] Hh". rewrite -insert_delete_eq big_sepM_insert; [|apply lookup_delete_eq]. iFrame "Hσ". cbn [chunk_rep].
  iFrame "Hh Ht". iApply (big_sepL_mono with "Hr"). intros k' x Hx. apply lookup_seqZ in Hx as [-> Hx].
  rewrite (decide_ext (_ ∈ {[k]} ∪ U) (0 + Z.of_nat k' = k ∨ 0 + Z.of_nat k' ∈ U)); [|by rewrite elem_of_union elem_of_singleton].
  case_decide; [rewrite decide_True; [done|by left]|]. case_decide; [rewrite decide_True; [done|by right]|].
  by rewrite decide_False; [|tauto].
Qed.

Lemma wf_take σ j i U k : wf σ → σ !! j = Some (Arena i U) → 0 <= k < nblk i → wf (<[j := Arena i ({[k]} ∪ U)]> σ).
Proof.
  intros Hwf Hj Hk. eapply wf_replace; [done|done| |done]. destruct (wf_chunk σ Hwf j _ Hj) as [[Hi HU] _].
  split; [done|]. intros k' [->%elem_of_singleton|Hk']%elem_of_union; [done|by apply HU].
Qed.

(** The end of [malloc_small], when there is a free block. *)
Definition take_block (d : ptr) : M _ Z :=
  e ← list_pop_front (N := cell) (free_list d);
  let b := address e in
  a ← block_to_arena b;
  c ← get_free_cnt a; set_free_cnt a (wrap_u 32 (c - 1));;
  unlock_desc d;;
  mret b.

Lemma take_block_spec σ i : wf σ → 0 <= i < CLASSES → free_of i σ ≠ [] →
  ⦃ lists σ ∗ chunks σ ∗ descs_rep (Some i) ⦄ take_block (Some (desc_at i))
  ⦃ b, ∃ j U k bs, ⌈σ !! j = Some (Arena i U) ∧ 0 <= k < nblk i ∧ k ∉ U ∧ b = blk i (PGSIZE * j) k ∧ size_of bs = bsize i⌉ ∗
     block b bs ∗ lists (<[j := Arena i ({[k]} ∪ U)]> σ) ∗ chunks (<[j := Arena i ({[k]} ∪ U)]> σ) ∗ descs_rep None ⦄.
Proof.
  intros Hwf Hi Hne. unfold hoare, take_block. iIntros "(Hl & Hc & Hd)".
  iDestruct (lists_take σ i Hi with "Hl") as "[(%xs & %Hxs & Hl) Hclose]".
  wp_focus. iApply (hoare_wp with "Hl"); [apply list_pop_front_spec|]. iSplit; last first.
  { iIntros (e) "[%Hx _]". destruct Hx as [-> _]. by apply Permutation_nil in Hxs. }
  iIntros (e) "(%x & %ys & %Hx & Hl & Hx)". destruct Hx as [-> ->].
  assert (x ∈ free_of i σ) as (j & U & k & Hj & Hk & HU & ->)%elem_of_free_of by (rewrite -Hxs; apply elem_of_cons; by left).
  pose proof (wf_page σ j _ Hwf Hj) as Hpage. destruct (blk_page i _ k Hi Hpage Hk) as (_ & _ & _ & Hpos & H8).
  iDestruct (chunk_take σ j i U k Hwf Hj Hk HU with "Hc") as "(Hh & Hr & Hc)".
  rewrite (el_address (blk i (PGSIZE * j) k)) //.
  wp_focus. iApply (wp_block_to_arena_small with "Hh Hd"); [done..|]. iIntros "Hh Hd".
  destruct (class_sizes i Hi) as (_ & _ & Hn & _). destruct (wf_chunk σ Hwf j _ Hj) as [[_ HUr] _].
  pose proof (size_used i U HUr Hi) as Hsz.
  assert (size ({[k]} ∪ U) = S (size U)) as Hsz' by (rewrite size_union ?size_singleton; [done|set_solver]).
  pose proof (size_used i _ (proj2 (proj1 (wf_chunk _ (wf_take σ j i U k Hwf Hj Hk) j _ (lookup_insert_eq σ j _)))) Hi) as Hsz2.
  wp_focus. iApply (wp_get_free_cnt with "Hh"); [done|unfold in_u; lia|]. iIntros "Hh".
  rewrite wrap_u_id; [|unfold in_u; lia].
  wp_focus. iApply (wp_set_free_cnt with "Hh"); [done|unfold in_u; lia|]. iIntros "Hh".
  wp_focus. iApply (wp_unlock_desc with "Hd"); [done|]. iIntros "Hd". iApply wp_ret.
  iDestruct (free_whole i _ Hi Hpage k Hk with "[$Hx $Hr]") as (bs Hbs) "Hb".
  iExists j, U, k, bs. iFrame "Hb Hd". iSplit; [done|]. iSplitL "Hl Hclose".
  - iApply "Hclose"; [iPureIntro; intros i' _ Hi'; by eapply free_of_other|]. iExists ys. iFrame. iPureIntro.
    apply (Permutation_cons_inv (a := el (blk i (PGSIZE * j) k))). rewrite Hxs.
    rewrite (free_of_delete i j _ σ Hj) (free_of_replace i j _ _ σ Hj). unfold free_in. cbn [fst snd].
    rewrite !decide_True //. by rewrite (unused_insert i U k Hk HU).
  - iApply "Hc". rewrite Hsz'. by replace (nblk i - Z.of_nat (S (size U))) with (nblk i - Z.of_nat (size U) - 1) by lia.
Qed.

(** * A new arena *)

Definition els (i j m n : Z) : list loc := (λ k, el (blk i (PGSIZE * j) k)) <$> seqZ m n.

Lemma els_snoc i j m : 0 <= m → els i j 0 (m + 1) = els i j 0 m ++ [el (blk i (PGSIZE * j) m)].
Proof. intros. unfold els. by rewrite seqZ_app // fmap_app (seqZ_cons (0 + m) 1) // seqZ_nil. Qed.
Lemma els_cons i j m : m < nblk i → els i j m (nblk i - m) = el (blk i (PGSIZE * j) m) :: els i j (m + 1) (nblk i - (m + 1)).
Proof.
  intros. unfold els. rewrite seqZ_cons; [|lia]. cbn [fmap list_fmap]. by replace (Z.pred (nblk i - m)) with (nblk i - (m + 1)) by lia.
Qed.

Lemma free_in_new i j : free_in i (j, Arena i ∅) = els i j 0 (nblk i).
Proof.
  unfold free_in, els, unused. cbn [fst snd]. rewrite decide_True //. f_equal. apply filter_all.
  apply Forall_forall. intros k _. apply not_elem_of_empty.
Qed.

Lemma push_blocks_spec i j c held xs : 0 <= i < CLASSES → is_page (PGSIZE * j) →
  ⦃ header (PGSIZE * j) (Some (desc_at i)) c ∗ descs_rep held ∗ is_list (N := cell) (desc_at i)~1 xs ∗
    [∗ list] k ∈ seqZ 0 (nblk i), elem_space (el (blk i (PGSIZE * j) k)) ⦄
  for_blocks (Some (desc_at i)) (PGSIZE * j) (λ b, list_push_back (free_list (Some (desc_at i))) (ptr_of b))
  ⦃ _u, header (PGSIZE * j) (Some (desc_at i)) c ∗ descs_rep held ∗ is_list (desc_at i)~1 (xs ++ els i j 0 (nblk i)) ⦄.
Proof.
  intros Hi Hp. eapply hoare_conseq.
  - apply (for_blocks_spec _ Hp i c held _ (λ m, is_list (desc_at i)~1%positive (xs ++ els i j 0 m) ∗
      [∗ list] k ∈ seqZ m (nblk i - m), elem_space (el (blk i (PGSIZE * j) k)))%I Hi).
    intros k Hk. destruct (blk_page i _ k Hi Hp Hk) as (_ & _ & _ & Hpos & H8).
    unfold hoare. rewrite (el_ptr _ Hpos) seqZ_cons; [|lia]. cbn [big_opL]. iIntros "(Hl & He & H)".
    iApply (hoare_wp_ret with "[Hl He]"); [apply list_push_back_space_spec|iFrame|]. iIntros (_u) "Hl".
    rewrite els_snoc; [|lia]. rewrite app_assoc. replace (Z.pred (nblk i - k)) with (nblk i - (k + 1)) by lia.
    replace (Z.succ k) with (k + 1) by lia. iFrame.
  - iIntros "($ & $ & Hl & H)". rewrite app_nil_r Z.sub_0_r. iFrame.
  - iIntros (_u) "($ & $ & $ & H)". rewrite Z.sub_diag seqZ_nil //.
  - done.
Qed.

(** What [palloc_get_multiple] gives, from the pool that the flags say. *)

Lemma palloc_pools_spec σ flags cnt : 0 <= cnt → flag flags PAL_ASSERT = false →
  ⦃ pools ks kn us un (covered σ) ⦄ palloc_get_multiple (Y := desc) flags cnt
  ⦃ r, (⌈r = 0 ∧ (cnt = 0 ∨ if flag flags PAL_USER then no_room us un (covered σ) cnt else no_room ks kn (covered σ) cnt)⌉ ∗
      pools ks kn us un (covered σ)) ∨
    (∃ j bs, ⌈r = (PGSIZE * j)%Z ∧ 0 < cnt ∧ size_of bs = (PGSIZE * cnt)%Z ∧ in_pool ks kn us un j cnt ∧
       (∀ p, j <= p < j + cnt → p ∉ covered σ) ∧ (flag flags PAL_ZERO = true → bs = replicate (Z.to_nat (PGSIZE * cnt)) 0)⌉ ∗
      pools ks kn us un (covered σ ∪ page_range j cnt) ∗ block r bs) ⦄.
Proof.
  intros Hc Hf. destruct Hlayout as (L1 & L2 & L3 & L4 & L5).
  unfold hoare, pools. pose proof (palloc_get_spec (Y := desc) flags cnt (if flag flags PAL_USER then us else ks) (if flag flags PAL_USER then un else kn) (covered σ) Hc) as Hspec.
  iIntros "[Hk Hu]". unfold pool_of in Hspec. destruct (flag flags PAL_USER).
  - iApply (hoare_wp with "Hu"); [exact Hspec|]. iSplit; [|iIntros (e) "[%He _]"; destruct He as (_ & He & _); congruence].
    iIntros (r) "[[%Hr H]|(%j & %bs & %Hr & H & Hb)]"; [iLeft; by iFrame|]. iRight. iExists j, bs. iFrame "H Hb".
    destruct Hr as (-> & Hc0 & (H1 & H2 & H3) & Hbs & Hz). iSplit; [iPureIntro; split_and!; [done..|by right|done|done]|].
    iApply (pool_untouched with "Hk"). lia.
  - iApply (hoare_wp with "Hk"); [exact Hspec|]. iSplit; [|iIntros (e) "[%He _]"; destruct He as (_ & He & _); congruence].
    iIntros (r) "[[%Hr H]|(%j & %bs & %Hr & H & Hb)]"; [iLeft; by iFrame|]. iRight. iExists j, bs. iFrame "H Hb".
    destruct Hr as (-> & Hc0 & (H1 & H2 & H3) & Hbs & Hz). iSplit; [iPureIntro; split_and!; [done..|by left|done|done]|].
    iApply (pool_untouched with "Hu"). lia.
Qed.

Lemma palloc_kernel_spec σ cnt : wf σ → 0 <= cnt →
  ⦃ pools ks kn us un (covered σ) ⦄ palloc_get_multiple (Y := desc) 0 cnt
  ⦃ r, (⌈r = 0 ∧ (cnt = 0 ∨ no_room ks kn (covered σ) cnt)⌉ ∗ pools ks kn us un (covered σ)) ∨
    (∃ j bs, ⌈r = (PGSIZE * j)%Z ∧ 0 < cnt ∧ size_of bs = (PGSIZE * cnt)%Z ∧ in_pool ks kn us un j cnt ∧
       (∀ p, j <= p < j + cnt → p ∉ covered σ)⌉ ∗
      pools ks kn us un (covered σ ∪ page_range j cnt) ∗ block r bs) ⦄.
Proof.
  intros _ Hc. eapply hoare_conseq; [by apply (palloc_pools_spec σ 0)|done| |done].
  iIntros (r) "[H|(%j & %bs & %Hr & H)]"; [by iLeft|iRight]. iExists j, bs. iFrame. iPureIntro. tauto.
Qed.

Lemma new_arena_spec σ i held : wf σ → 0 <= i < CLASSES →
  ⦃ pools ks kn us un (covered σ) ∗ descs_rep held ∗ lists σ ∗ chunks σ ⦄ new_arena (Some (desc_at i))
  ⦃ ok, if ok : bool then ∃ j, ⌈σ !! j = None ∧ wf (<[j := Arena i ∅]> σ)⌉ ∗
          pools ks kn us un (covered (<[j := Arena i ∅]> σ)) ∗ descs_rep held ∗ lists (<[j := Arena i ∅]> σ) ∗ chunks (<[j := Arena i ∅]> σ)
        else ⌈no_room ks kn (covered σ) 1⌉ ∗ pools ks kn us un (covered σ) ∗ descs_rep held ∗ lists σ ∗ chunks σ ⦄.
Proof.
  intros Hwf Hi. unfold hoare, new_arena, palloc_get_page. iIntros "(Hp & Hd & Hl & Hc)".
  wp_focus. iApply (hoare_wp_ret with "Hp"); [by apply palloc_kernel_spec|]. iIntros (r) "[[%Hr Hp]|(%j & %bs & %Hr & Hp & Hb)]".
  { destruct Hr as [-> [|Hno]]; [done|]. rewrite bool_decide_true //. iApply wp_ret. by iFrame. }
  destruct Hr as (-> & _ & Hbs & Hin & Hout).
  destruct (wf_insert σ j (Arena i ∅) Hwf) as [Hwf' Hj]; [by split|done|done|done|].
  pose proof (wf_page _ j _ Hwf' (lookup_insert_eq σ j _)) as Hpage. destruct (page_pos _ Hpage) as (Hpos & _).
  rewrite bool_decide_false; [|lia]. wp_focus. iApply (wp_get_desc with "Hd"); [done|]. iIntros "Hd". cbn [blocks_per_arena].
  destruct (class_sizes i Hi) as (_ & _ & Hn & _). rewrite Z.mul_1_r in Hbs.
  iDestruct (page_arena i _ Hi bs Hbs with "Hb") as "((%h & %Hh & Hb) & Hw & Ht)".
  iApply (wp_new_header _ Hpage with "Hb"); [done|unfold in_u; lia|]. iIntros "Hh".
  iAssert (([∗ list] k ∈ seqZ 0 (nblk i), elem_space (el (blk i (PGSIZE * j) k))) ∗
           [∗ list] k ∈ seqZ 0 (nblk i), rest i (PGSIZE * j) k)%I with "[Hw]" as "[Hs Hr]".
  { rewrite -big_sepL_sep. iApply (big_sepL_mono with "Hw"). intros k x Hx. apply lookup_seqZ in Hx as [-> Hx].
    apply (whole_free i _ Hi Hpage). lia. }
  iDestruct (lists_take σ i Hi with "Hl") as "[(%xs & %Hxs & Hl) Hclose]".
  wp_focus. iApply (hoare_wp_ret with "[Hh Hd Hl Hs]"); [by apply push_blocks_spec|iFrame|]. iIntros (_u) "(Hh & Hd & Hl)".
  iApply wp_ret. iExists j. rewrite (covered_insert j) //. iFrame "Hp Hd". iSplit; [done|]. iSplitL "Hl Hclose".
  - iApply "Hclose".
    + iPureIntro. intros i' _ Hi'. by rewrite (free_of_insert i' j _ σ Hj) free_in_other.
    + iExists _. iFrame. iPureIntro. by rewrite Hxs (free_of_insert i j _ σ Hj) free_in_new Permutation_app_comm.
  - unfold chunks. rewrite big_sepM_insert //. iFrame "Hc". cbn [chunk_rep]. rewrite size_empty Z.sub_0_r. iFrame "Hh Ht Hr".
Qed.

(** * [malloc]

    [handed σ a k n] says that the [n] bytes at [a] are a block that its user got
    from [malloc], or from the page allocator. *)

Inductive kind := Heap | Paged (cnt : Z).

Inductive block_of (j : Z) : chunk → Z → kind → Z → Prop :=
  | block_arena i U k : k ∈ U → block_of j (Arena i U) (blk i (PGSIZE * j) k) Heap (bsize i)
  | block_big cnt : block_of j (Big cnt) (PGSIZE * j + ARENA_SIZE) Heap (PGSIZE * cnt - ARENA_SIZE)
  | block_pages cnt : block_of j (Pages cnt) (PGSIZE * j) (Paged cnt) (PGSIZE * cnt).

Definition handed (σ : gmap Z chunk) (a : Z) (k : kind) (n : Z) : Prop := ∃ j c, σ !! j = Some c ∧ block_of j c a k n.

(** [σ'] hands out what [σ] does, and one block more. *)
Definition grows (σ : gmap Z chunk) (a : Z) (k : kind) (n : Z) (σ' : gmap Z chunk) : Prop :=
  (∀ a' k' n', handed σ' a' k' n' ↔ (a' = a ∧ k' = k ∧ n' = n) ∨ handed σ a' k' n') ∧ (∀ k' n', ¬ handed σ a k' n').

(** The pages that [malloc] needs when it has no free block. *)
Definition pages_for (size : Z) : Z :=
  if bool_decide (size <= bsize 6) then 1 else (size + ARENA_SIZE + PGSIZE - 1) / PGSIZE.

Definition short (σ : gmap Z chunk) (size : Z) : Prop := no_room ks kn (covered σ) (pages_for size).

(** The chunk of a block is the one of its page. *)
Lemma block_page j c a k n : chunk_ok c → block_of j c a k n → a / PGSIZE = j.
Proof.
  intros Hok Hb. destruct Hb as [i U k Hk|cnt|cnt].
  - destruct Hok as [Hi HU]. specialize (HU k Hk). simpl in HU. pose proof (blk_bounds i (PGSIZE * j) k Hi HU).
    destruct (class_sizes i Hi). pg_lia.
  - change ARENA_SIZE with 12. pg_lia.
  - pg_lia.
Qed.

Lemma grows_insert σ j c a k n : wf σ → chunk_ok c → σ !! j = None →
  (∀ a' k' n', block_of j c a' k' n' ↔ a' = a ∧ k' = k ∧ n' = n) → grows σ a k n (<[j := c]> σ).
Proof.
  intros Hwf Hok Hj Hc. split.
  - intros a' k' n'. rewrite -Hc. split.
    + intros (j' & c' & [[<- <-]|[_ H]]%lookup_insert_Some & Hb); [by left|right; by exists j', c'].
    + intros [Hb|(j' & c' & H & Hb)]; [exists j, c|exists j', c']; (split; [|done]); [apply lookup_insert_eq|].
      rewrite lookup_insert_ne //. intros <-. by rewrite Hj in H.
  - intros k' n' (j' & c' & H & Hb). destruct (wf_chunk σ Hwf j' c' H) as [Hok' _].
    pose proof (block_page j' c' a k' n' Hok' Hb). pose proof (block_page j c a k n Hok (proj2 (Hc a k n) ltac:(done))).
    assert (j' = j) as -> by lia. by rewrite Hj in H.
Qed.

Lemma blk_inj i a k k' : 0 <= i < CLASSES → blk i a k = blk i a k' → k = k'.
Proof. intros Hi H. destruct (class_sizes i Hi). unfold blk in H. nia. Qed.

Lemma grows_take σ j i U k : wf σ → σ !! j = Some (Arena i U) → 0 <= k < nblk i → k ∉ U →
  grows σ (blk i (PGSIZE * j) k) Heap (bsize i) (<[j := Arena i ({[k]} ∪ U)]> σ).
Proof.
  intros Hwf Hj Hk HU. destruct (wf_chunk σ Hwf j _ Hj) as [[Hi _] _]. split.
  - intros a' k' n'. split.
    + intros (j' & c' & [[<- <-]|[_ H]]%lookup_insert_Some & Hb); [|right; by exists j', c'].
      inversion Hb as [i' U' k0 Hk0 E1 E2| |]; subst. apply elem_of_union in Hk0 as [->%elem_of_singleton|Hk0]; [by left|].
      right. exists j, (Arena i U). split; [done|by constructor].
    + intros [(-> & -> & ->)|(j' & c' & H & Hb)].
      * exists j, (Arena i ({[k]} ∪ U)). split; [apply lookup_insert_eq|]. constructor. by apply elem_of_union_l, elem_of_singleton.
      * destruct (decide (j = j')) as [<-|Hne]; [|exists j', c'; by rewrite lookup_insert_ne].
        rewrite Hj in H. injection H as <-. exists j, (Arena i ({[k]} ∪ U)). split; [apply lookup_insert_eq|].
        inversion Hb; subst. constructor. by apply elem_of_union_r.
  - intros k' n' (j' & c' & H & Hb). destruct (wf_chunk σ Hwf j' c' H) as [Hok' _].
    pose proof (block_page j' c' _ k' n' Hok' Hb) as Hp.
    assert (blk i (PGSIZE * j) k / PGSIZE = j) as Hp'.
    { apply (block_page j (Arena i ({[k]} ∪ U)) _ Heap (bsize i)); [|constructor; by apply elem_of_union_l, elem_of_singleton].
      apply (wf_chunk _ (wf_take σ j i U k Hwf Hj Hk) j _ (lookup_insert_eq σ j _)). }
    assert (j' = j) as -> by lia. rewrite Hj in H. injection H as <-. inversion Hb; subst.
    match goal with E : blk _ _ _ = blk _ _ _ |- _ => apply blk_inj in E as ->; done end.
Qed.

Definition malloc_fails (σ : gmap Z chunk) (size : Z) (p : Z) : Prop := p = 0 ∧ (size = 0 ∨ short σ size).

(** [malloc] gives a block that nobody has, or there are no pages for it. *)
Definition malloc_post (σ : gmap Z chunk) (size : Z) (p : Z) : hpropI cell :=
  ((⌈malloc_fails σ size p⌉ ∗ malloc_inv σ) ∨
   (∃ σ' bs, ⌈0 < p ∧ grows σ p Heap (size_of bs) σ' ∧ size <= size_of bs ∧ size ≠ 0⌉ ∗ malloc_inv σ' ∗ block p bs))%I.

Lemma busy_insert σ j c : busy σ → (∀ i, c ≠ Arena i ∅) → busy (<[j := c]> σ).
Proof. intros Hb Hc j' i [[_ H]|[_ H]]%lookup_insert_Some; [by eapply Hc|by eapply Hb]. Qed.

Lemma inv_pure σ : malloc_inv σ ⊢ ⌜wf σ ∧ busy σ⌝.
Proof. iIntros "[% _]". by iPureIntro. Qed.

(** A big block takes the pages that the code computes from its size. *)
Lemma malloc_big_run σ size cnt : cnt = DIV_ROUND_UP (wrap_u 32 (size + ARENA_SIZE)) PGSIZE → 0 <= cnt →
  ⦃ malloc_inv σ ⦄ malloc_big size
  ⦃ p, (⌈p = 0 ∧ (cnt = 0 ∨ no_room ks kn (covered σ) cnt)⌉ ∗ malloc_inv σ) ∨
       (∃ j bs, ⌈p = (PGSIZE * j + ARENA_SIZE)%Z ∧ 0 < j ∧ 0 < cnt ∧ wf (<[j := Big cnt]> σ) ∧ σ !! j = None ∧
           size_of bs = (PGSIZE * cnt - ARENA_SIZE)%Z⌉ ∗ malloc_inv (<[j := Big cnt]> σ) ∗ block p bs) ⦄.
Proof.
  intros Hcnt Hcnt0. unfold hoare, malloc_big. rewrite -Hcnt. clear Hcnt. iIntros "(%Hσ & Hp & Hn & Hd & Hl & Hc)". destruct Hσ as [Hwf Hbusy].
  wp_focus. iApply (hoare_wp_ret with "Hp"); [by apply palloc_kernel_spec|].
  iIntros (r) "[[%Hr Hp]|(%j & %bs & %Hr & Hp & Hb)]".
  { destruct Hr as [-> Hno]. rewrite bool_decide_true //. iApply wp_ret. iLeft. by iFrame. }
  destruct Hr as (-> & Hc0 & Hbs & Hin & Hout).
  destruct (wf_insert σ j (Big cnt) Hwf) as [Hwf' Hj]; [done..|].
  pose proof (wf_page _ j _ Hwf' (lookup_insert_eq σ j _)) as Hpage. destruct (page_pos _ Hpage) as (Hpos & _).
  rewrite bool_decide_false; [|lia].
  iDestruct (block_split _ ARENA_SIZE with "Hb") as "[H1 H2]"; [change ARENA_SIZE with 12; pg_lia|done|].
  iApply (wp_new_header _ Hpage with "H1").
  { change ARENA_SIZE with 12. rewrite size_of_slice; pg_lia. }
  { destruct Hlayout as (L1 & L2 & L3 & L4 & L5). destruct Hin; unfold in_u; lia. }
  iIntros "Hh". iApply wp_ret. iRight. iExists j, _. iFrame "H2". iSplit.
  - iPureIntro. split_and!; [done|pg_lia|done..|]. change ARENA_SIZE with 12. rewrite size_of_slice; pg_lia.
  - unfold malloc_inv. rewrite (covered_insert j) //. iFrame "Hp Hn Hd". iSplit; [iPureIntro; split; [done|by apply busy_insert]|]. iSplitL "Hl".
    + iApply (lists_pages with "Hl"). intros i. by rewrite (free_of_insert i j _ σ Hj).
    + unfold chunks. rewrite big_sepM_insert //. iFrame.
Qed.

Lemma malloc_big_spec σ size : bsize 6 < size < 2 ^ 32 - 11 →
  ⦃ malloc_inv σ ⦄ malloc_big size ⦃ p, malloc_post σ size p ⦄.
Proof.
  intros Hs. change (bsize 6) with 1024 in Hs. set (cnt := DIV_ROUND_UP (wrap_u 32 (size + ARENA_SIZE)) PGSIZE).
  assert (0 <= cnt ∧ (0 < cnt → cnt = pages_for size) ∧ (cnt = 0 → pages_for size = 2 ^ 20)) as (Hcnt & Hpf & Hpf0).
  { unfold cnt, DIV_ROUND_UP, pages_for. change (bsize 6) with 1024. rewrite bool_decide_false; [|lia].
    change ARENA_SIZE with 12. unfold wrap_u. change PGSIZE with 4096. split; [div_lia|].
    destruct (decide (size + 12 + 4096 - 1 < 2 ^ 32)); [rewrite !Z.mod_small; [split; [done|div_lia]|lia..]|].
    destruct (decide (size = 2 ^ 32 - 12)) as [->|]; [by vm_compute|]. rewrite (Z.mod_small (size + 12)); [|lia].
    replace ((size + 12 + 4096 - 1) mod 2 ^ 32) with (size + 12 + 4096 - 1 - 2 ^ 32) by div_lia. div_lia. }
  assert (0 <= ks + kn <= 2 ^ 20 ∧ 0 < ks) as Hks by (destruct Hlayout; lia).
  eapply hoare_conseq; [by apply (malloc_big_run σ size cnt)|done| |done].
  clearbody cnt. iIntros (p) "[[%Hr H]|(%j & %bs & %Hr & H & Hb)]".
  - destruct Hr as [-> Hno]. iLeft. iFrame. iPureIntro. split; [done|]. right. unfold short. destruct (decide (0 < cnt)) as [H0|H0].
    + rewrite -Hpf //. destruct Hno as [->|]; [lia|done].
    + rewrite Hpf0; [|lia]. intros i Hi1 Hi2. lia.
  - destruct Hr as (-> & Hj0 & Hc0 & Hwf & Hj & Hbs). iDestruct (inv_pure with "H") as %[Hwf' _].
    iRight. iExists _, bs. iFrame. iPureIntro. rewrite Hbs. split; [change ARENA_SIZE with 12; pg_lia|]. split.
    + apply grows_insert; [by rewrite -(delete_insert_id σ j (Big cnt) Hj); apply wf_delete|done|done|].
      intros a' k' n'. split; [by inversion 1|]. intros (-> & -> & ->). constructor.
    + split; [|lia]. rewrite Hpf // /pages_for. change (bsize 6) with 1024. rewrite bool_decide_false; [|lia]. change ARENA_SIZE with 12. pg_lia.
Qed.

Lemma used_nonempty (k : Z) (U : gset Z) : {[k]} ∪ U ≠ ∅.
Proof.
  intros H. assert (k ∈ (∅ : gset Z)) as Hk by (rewrite -H; by apply elem_of_union_l, elem_of_singleton).
  by apply not_elem_of_empty in Hk.
Qed.

Lemma busy_take σ j i U k : busy σ → busy (<[j := Arena i ({[k]} ∪ U)]> σ).
Proof. intros Hb. apply busy_insert; [done|]. intros i' [= _ H]. by apply used_nonempty in H. Qed.

(** After a new arena a block is taken from it. *)
Lemma busy_after σ j i j' U k : busy σ → <[j := Arena i ∅]> σ !! j' = Some (Arena i U) → σ !! j = None →
  free_of i σ = [] → 0 <= k < nblk i → k ∉ U → j' = j.
Proof.
  intros Hb Hj' Hj Hfree Hk HU. apply lookup_insert_Some in Hj' as [[E _]|[Hne Hj']]; [done|]. exfalso.
  assert (el (blk i (PGSIZE * j') k) ∈ free_of i σ) as Hin by (apply elem_of_free_of; by exists j', U, k).
  rewrite Hfree in Hin. by apply not_elem_of_nil in Hin.
Qed.

Lemma malloc_small_code d : malloc_small d =
  (lock_desc d;; empty ← list_empty (N := cell) (free_list d); ok ← (if (empty : bool) then new_arena d else mret true);
   if negb ok then unlock_desc d;; mret 0 else take_block d).
Proof. done. Qed.

Lemma malloc_small_spec σ size i : 0 <= i < CLASSES → size <= bsize i → size ≠ 0 →
  ⦃ malloc_inv σ ⦄ malloc_small (Some (desc_at i)) ⦃ p, malloc_post σ size p ⦄.
Proof.
  intros Hi Hsize Hsize0. rewrite malloc_small_code. unfold hoare. iIntros "(%Hσ & Hp & Hn & Hd & Hl & Hc)".
  destruct Hσ as [Hwf Hbusy]. wp_focus. iApply (wp_lock_desc with "Hd"); [done|]. iIntros "Hd".
  iDestruct (lists_take σ i Hi with "Hl") as "[(%xs & %Hxs & Hl) Hclose]".
  wp_focus. iApply (wp_list_empty with "Hl"). iIntros "Hl".
  iDestruct ("Hclose" $! σ with "[] [Hl]") as "Hl"; [done|iExists xs; by iFrame|].
  assert (size <= 1024) as Hs by (destruct (class_sizes i Hi); lia).
  assert (∀ σ', wf σ' → busy (σ' : gmap Z chunk) ∨ (busy σ ∧ free_of i σ = [] ∧ ∃ j, σ !! j = None ∧ σ' = <[j := Arena i ∅]> σ) → free_of i σ' ≠ [] →
    (∀ a k n, handed σ' a k n ↔ handed σ a k n) →
    pools ks kn us un (covered σ') ∗ desc_cnt ↦ CLASSES ∗ lists σ' ∗ chunks σ' ∗ descs_rep (Some i) ⊢
    wp (take_block (Some (desc_at i))) (malloc_post σ size) (λ _, False%I)) as Htake.
  { intros σ' Hwf' Hbusy' Hne Hsame. iIntros "(Hp & Hn & Hl & Hc & Hd)".
    iApply (hoare_wp_ret with "[Hl Hc Hd]"); [by apply take_block_spec|iFrame|].
    iIntros (b) "(%j & %U & %k & %bs & %Hb & Hb & Hl & Hc & Hd)". destruct Hb as (Hj & Hk & HU & -> & Hbs).
    iRight. iExists (<[j := Arena i ({[k]} ∪ U)]> σ'), bs. iFrame "Hb". iSplit.
    - iPureIntro. split; [|split].
      + apply (blk_page i _ k Hi (wf_page _ j _ Hwf' Hj) Hk).
      + rewrite Hbs. destruct (grows_take σ' j i U k Hwf' Hj Hk HU) as [H1 H2]. split.
        * intros a' k' n'. by rewrite H1 Hsame.
        * intros k' n'. by rewrite -Hsame.
      + split; [lia|done].
    - iSplit; [iPureIntro; split; [by apply wf_take|]|rewrite (covered_replace j (Arena i U)) //; iFrame].
      destruct Hbusy' as [Hbusy'|(_ & Hfree & j0 & Hj0 & ->)]; [by apply busy_take|].
      assert (j = j0) as -> by by eapply busy_after. rewrite insert_insert_eq. apply busy_insert; [done|]. intros i' [= _ H]. by apply used_nonempty in H. }
  case_bool_decide as Hempty.
  - subst xs. apply Permutation_nil_l in Hxs.
    wp_focus. iApply (hoare_wp_ret with "[Hp Hd Hl Hc]"); [by apply new_arena_spec|iFrame|]. iIntros (ok) "H". destruct ok.
    + iDestruct "H" as (j) "(%Hj & Hp & Hd & Hl & Hc)". destruct Hj as [Hj Hwf']. cbn [negb].
      iApply (Htake (<[j := Arena i ∅]> σ) with "[$Hp $Hn $Hl $Hc $Hd]"); [done|right; eauto| |].
      * intros Hnil. pose proof (free_of_insert i j (Arena i ∅) σ Hj) as Hp. rewrite Hnil free_in_new in Hp.
        apply Permutation_nil_l in Hp. destruct (class_sizes i Hi) as (_ & _ & Hn & _).
        unfold els in Hp. rewrite (seqZ_cons 0) in Hp; [done|lia].
      * intros a k n. split; [|intros (j' & c & Hj' & Hb); exists j', c; rewrite lookup_insert_ne //; by intros <-; rewrite Hj in Hj'].
        intros (j' & c & [[<- <-]|[_ Hj']]%lookup_insert_Some & Hb); [|by exists j', c].
        inversion Hb; subst. match goal with H : _ ∈ ∅ |- _ => by apply not_elem_of_empty in H end.
    + iDestruct "H" as "(%Hno & Hp & Hd & Hl & Hc)". cbn [negb]. wp_focus. iApply (wp_unlock_desc with "Hd"); [done|]. iIntros "Hd".
      iApply wp_ret. iLeft. iFrame. iPureIntro. split; [split; [done|]|done]. right.
      unfold short, pages_for. change (bsize 6) with 1024. by rewrite bool_decide_true.
  - wp_finish. cbn [negb]. iApply (Htake σ with "[$Hp $Hn $Hl $Hc $Hd]"); [done|by left| |done].
    intros E. rewrite E in Hxs. by apply Permutation_nil_r in Hxs.
Qed.

Lemma malloc_spec σ size : 0 <= size < 2 ^ 32 - 11 → ⦃ malloc_inv σ ⦄ malloc size ⦃ p, malloc_post σ size p ⦄.
Proof.
  intros Hs. unfold hoare, malloc. iIntros "H". case_bool_decide as H0.
  { iApply wp_ret. iLeft. iFrame. iPureIntro. split; [done|by left]. }
  iDestruct "H" as "(Hσ & Hp & Hn & Hd & H)". wp_load "Hn". wp_focus. iApply (wp_find_desc with "Hd").
  iIntros (i) "%Hi Hd". iCombine "Hσ Hp Hn Hd H" as "H". case_bool_decide as Hic.
  - iApply (hoare_wp_ret with "H"); [apply malloc_big_spec; destruct Hi; [lia|unfold CLASSES in *; lia]|]. by iIntros (p) "H".
  - iApply (hoare_wp_ret with "H"); [destruct Hi as [[-> _]|[H1 H2]]; [done|by apply malloc_small_spec]|]. by iIntros (p) "H".
Qed.
End alloc.
