(* ===== verification/PintosFree.v ===== *)
(** What [free], [calloc] and [realloc] of the block allocator of Pintos do. *)
From S2P Require Export PintosAlloc.
Local Open Scope Z_scope.

Section free.
Context {ST : Statics} (ks kn us un : Z) (Hlayout : layout_ok ks kn us un).
Abbreviation cell := (Z + (pool + desc))%type.
Abbreviation malloc_inv := (malloc_inv ks kn us un).
Abbreviation wf := (wf ks kn us un).

(** * Taking a chunk apart *)

Lemma grows_delete σ j c a k n : wf σ → σ !! j = Some c →
  (∀ a' k' n', block_of j c a' k' n' ↔ a' = a ∧ k' = k ∧ n' = n) → grows (base.delete j σ) a k n σ.
Proof.
  intros Hwf Hj Hc. rewrite -{2}(insert_delete_id σ j c Hj).
  eapply grows_insert; [by apply wf_delete|by apply (wf_chunk _ _ _ _ σ Hwf j c)|apply lookup_delete_eq|done].
Qed.

Lemma grows_give σ j i U k : wf σ → σ !! j = Some (Arena i U) → k ∈ U →
  grows (<[j := Arena i (U ∖ {[k]})]> σ) (blk i (PGSIZE * j) k) Heap (bsize i) σ ∧ wf (<[j := Arena i (U ∖ {[k]})]> σ).
Proof.
  intros Hwf Hj Hk. destruct (wf_chunk _ _ _ _ σ Hwf j _ Hj) as [[Hi HU] _].
  assert (wf (<[j := Arena i (U ∖ {[k]})]> σ)) as Hwf'.
  { eapply wf_replace; [done|done| |done]. split; [done|]. intros k' [Hk' _]%elem_of_difference. by apply HU. }
  split; [|done]. assert (σ = <[j := Arena i ({[k]} ∪ U ∖ {[k]})]> (<[j := Arena i (U ∖ {[k]})]> σ)) as E.
  { by rewrite insert_insert_eq -union_difference_singleton_L // insert_id. }
  pose proof (grows_take _ _ _ _ (<[j := Arena i (U ∖ {[k]})]> σ) j i (U ∖ {[k]}) k Hwf' (lookup_insert_eq σ j _) (HU k Hk)) as H.
  rewrite -E in H. apply H. rewrite elem_of_difference elem_of_singleton. tauto.
Qed.

(** A chunk of the map. *)
Lemma chunks_take σ j c : σ !! j = Some c → chunks σ ⊣⊢ chunk_rep j c ∗ chunks (base.delete j σ).
Proof. intros Hj. unfold chunks. by rewrite (big_sepM_delete _ _ _ _ Hj). Qed.
Lemma chunks_put σ j c c' : σ !! j = Some c → chunks (<[j := c']> σ) ⊣⊢ chunk_rep j c' ∗ chunks (base.delete j σ).
Proof. intros Hj. unfold chunks. rewrite -insert_delete_eq big_sepM_insert //. apply lookup_delete_eq. Qed.

Lemma rest_give i a (U : gset Z) k : 0 <= k < nblk i → k ∈ U →
  rest i a k ∗ ([∗ list] k ∈ seqZ 0 (nblk i), if decide (k ∈ U) then emp else rest i a k) ⊢
  [∗ list] k' ∈ seqZ 0 (nblk i), if decide (k' ∈ U ∖ {[k]}) then emp else rest i a k'.
Proof.
  intros Hk HU. rewrite (seqZ_take (λ k, if decide (k ∈ U) then emp else rest i a k)%I k) // decide_True // left_id.
  rewrite (seqZ_take (λ k', if decide (k' ∈ U ∖ {[k]}) then emp else rest i a k')%I k) //.
  rewrite (decide_False (P := k ∈ U ∖ {[k]})); [|rewrite elem_of_difference elem_of_singleton; tauto]. f_equiv. apply big_sepL_mono. intros m x _.
  case_decide as E; [done|]. by rewrite (decide_ext (x ∈ U ∖ {[k]}) (x ∈ U)); [|rewrite elem_of_difference elem_of_singleton; tauto].
Qed.

Lemma handed_pos σ a k n : wf σ → handed σ a k n → 0 < n.
Proof.
  intros Hwf (j & c & Hj & Hb). destruct (wf_chunk _ _ _ _ σ Hwf j c Hj) as [Hok _]. destruct Hb as [i U k Hk|cnt|cnt].
  - destruct Hok as [Hi _]. destruct (class_sizes i Hi). lia.
  - change ARENA_SIZE with 12. simpl in Hok. pg_lia.
  - simpl in Hok. pg_lia.
Qed.

(** * [free] *)

Definition free_post (σ : gmap Z chunk) (p n : Z) : hpropI cell := (∃ σ', ⌈grows σ' p Heap n σ⌉ ∗ malloc_inv σ')%I.

Lemma free_big_spec σ j cnt bs : σ !! j = Some (Big cnt) → size_of bs = PGSIZE * cnt - ARENA_SIZE →
  ⦃ malloc_inv σ ∗ block (PGSIZE * j + ARENA_SIZE) bs ⦄ free (PGSIZE * j + ARENA_SIZE)
  ⦃ _u, free_post σ (PGSIZE * j + ARENA_SIZE) (PGSIZE * cnt - ARENA_SIZE) ⦄.
Proof.
  intros Hj Hbs. unfold hoare, free. iIntros "[(%Hσ & Hp & Hn & Hd & Hl & Hc) Hb]". destruct Hσ as [Hwf Hbusy].
  pose proof (wf_page _ _ _ _ Hlayout σ j _ Hwf Hj) as Hpage. destruct (page_pos _ Hpage) as (Hpos & _).
  destruct (wf_chunk _ _ _ _ σ Hwf j _ Hj) as [Hcnt Hin]. cbn [chunk_ok chunk_cnt] in Hcnt, Hin.
  rewrite bool_decide_false; [|change ARENA_SIZE with 12; lia]. rewrite (chunks_take σ j _ Hj). iDestruct "Hc" as "[Hh Hc]". cbn [chunk_rep].
  wp_focus. iApply (wp_block_to_arena_big _ Hpage with "Hh"). iIntros "Hh".
  wp_focus. iApply (wp_get_arena_desc _ Hpage with "Hh"). iIntros "Hh". change (not_null NULL) with false. cbv iota.
  wp_focus. iApply (wp_get_free_cnt _ Hpage with "Hh").
  { destruct Hlayout as (L1 & L2 & L3 & L4 & L5). destruct Hin; unfold in_u; lia. }
  iIntros "Hh". iDestruct (header_block _ Hpage with "Hh") as (h Hh) "Hh".
  iDestruct (block_join _ h bs ARENA_SIZE Hh with "[$Hh $Hb]") as "Hb".
  iApply (hoare_wp_ret with "[Hp Hb]"); [apply (palloc_free_spec ks kn us un) with (i := j) (cnt := cnt)|iFrame|].
  { by destruct Hlayout as (_ & ? & _). }
  { done. }
  { done. }
  { intros p Hp. apply elem_of_covered. by exists j, (Big cnt). }
  { sizes. lia. }
  iIntros (_u) "Hp". iExists (base.delete j σ). iSplit.
  - iPureIntro. eapply grows_delete; [done|done|]. intros a' k' n'. split; [by inversion 1|]. intros (-> & -> & ->). constructor.
  - unfold PintosAlloc.malloc_inv. rewrite (covered_delete _ _ _ _ σ j _ Hwf Hj). iFrame "Hp Hn Hd Hc". iSplit.
    + iPureIntro. split; [by apply wf_delete|]. intros j' i [_ H]%lookup_delete_Some. by eapply Hbusy.
    + iApply (lists_pages with "Hl"). intros i. by rewrite (free_of_delete i j _ σ Hj).
Qed.

(** Removing the blocks of an arena from the list. *)
Lemma remove_blocks_spec i j c held xs ys : 0 <= i < CLASSES → is_page (PGSIZE * j) → xs ≡ₚ els i j 0 (nblk i) ++ ys →
  ⦃ header (PGSIZE * j) (Some (desc_at i)) c ∗ descs_rep held ∗ is_list (N := cell) (desc_at i)~1 xs ⦄
  for_blocks (Some (desc_at i)) (PGSIZE * j) (λ b, list_remove (ptr_of b);; mret tt)
  ⦃ _u, header (PGSIZE * j) (Some (desc_at i)) c ∗ descs_rep held ∗
     (∃ zs, ⌈zs ≡ₚ ys⌉ ∗ is_list (desc_at i)~1 zs) ∗ [∗ list] k ∈ seqZ 0 (nblk i), elem (el (blk i (PGSIZE * j) k)) ⦄.
Proof.
  intros Hi Hp Hxs. eapply hoare_conseq.
  - apply (for_blocks_spec _ Hp i c held _ (λ m, (∃ zs, ⌈zs ≡ₚ els i j m (nblk i - m) ++ ys⌉ ∗ is_list (N := cell) (desc_at i)~1%positive zs) ∗
      [∗ list] k ∈ seqZ 0 m, elem (el (blk i (PGSIZE * j) k)))%I Hi).
    intros k Hk. destruct (blk_page i _ k Hi Hp Hk) as (_ & _ & _ & Hpos & H8).
    unfold hoare. rewrite (el_ptr _ Hpos). iIntros "[(%zs & %Hzs & Hl) He]".
    rewrite els_cons in Hzs; [|lia]. cbn [app] in Hzs.
    assert (el (blk i (PGSIZE * j) k) ∈ zs) as (u & v & ->)%list_elem_of_split by (rewrite Hzs; apply elem_of_cons; by left).
    wp_focus. iApply (hoare_wp_ret with "Hl"); [apply list_remove_at|]. iIntros (r) "(_ & Hl & Hx)". iApply wp_ret. iSplitL "Hl".
    + iExists (u ++ v). iFrame. iPureIntro. apply (Permutation_cons_inv (a := el (blk i (PGSIZE * j) k))).
      by rewrite Permutation_middle Hzs.
    + rewrite seqZ_app; [|lia..]. rewrite big_sepL_app. iFrame "He". rewrite (seqZ_cons (0 + k) 1) // seqZ_nil //=. by iFrame.
  - iIntros "($ & $ & Hl)". rewrite seqZ_nil //. iSplitL; [|done]. iExists xs. iFrame. iPureIntro. by rewrite Z.sub_0_r.
  - iIntros (_u) "($ & $ & (%zs & %Hzs & Hl) & $)". iExists zs. iFrame. iPureIntro. rewrite Hzs Z.sub_diag.
    unfold els. by rewrite seqZ_nil.
  - done.
Qed.

Lemma list_elems_free i j (n : Z) : 0 <= i < CLASSES → is_page (PGSIZE * j) → n <= nblk i →
  ([∗ list] k ∈ seqZ 0 n, elem (N := cell) (el (blk i (PGSIZE * j) k))) ∗ ([∗ list] k ∈ seqZ 0 n, rest i (PGSIZE * j) k) ⊢
  [∗ list] k ∈ seqZ 0 n, whole i (PGSIZE * j) k.
Proof.
  intros Hi Hp Hn. rewrite -big_sepL_sep. apply big_sepL_mono. intros k x Hx. apply lookup_seqZ in Hx as [-> Hx].
  apply (free_whole i _ Hi Hp). lia.
Qed.

(** An arena without used blocks goes back to the page allocator. *)
Lemma free_arena_spec σ i j : wf σ → σ !! j = Some (Arena i ∅) →
  ⦃ pools ks kn us un (covered σ) ∗ descs_rep (Some i) ∗ lists σ ∗ chunks σ ⦄
  free_arena (Some (desc_at i)) (PGSIZE * j)
  ⦃ _u, pools ks kn us un (covered (base.delete j σ)) ∗ descs_rep (Some i) ∗ lists (base.delete j σ) ∗ chunks (base.delete j σ) ⦄.
Proof.
  intros Hwf Hj. destruct (wf_chunk _ _ _ _ σ Hwf j _ Hj) as [[Hi _] Hin]. pose proof (wf_page _ _ _ _ Hlayout σ j _ Hwf Hj) as Hpage.
  destruct (class_sizes i Hi) as (_ & _ & Hn & _).
  unfold hoare, free_arena. iIntros "(Hp & Hd & Hl & Hc)". rewrite (chunks_take σ j _ Hj). cbn [chunk_rep].
  iDestruct "Hc" as "[(Hh & Ht & Hr) Hc]". rewrite size_empty Z.sub_0_r.
  wp_focus. iApply (wp_get_free_cnt _ Hpage with "Hh"); [unfold in_u; lia|]. iIntros "Hh".
  wp_focus. iApply (wp_get_desc with "Hd"); [done|]. iIntros "Hd". cbn [blocks_per_arena].
  wp_focus. iApply wp_ASSERT. rewrite bool_decide_true //.
  iDestruct (lists_take σ i Hi with "Hl") as "[(%xs & %Hxs & Hl) Hclose]".
  rewrite (free_of_delete i j _ σ Hj) free_in_new in Hxs.
  wp_focus. iApply (hoare_wp_ret with "[Hh Hd Hl]"); [by eapply (remove_blocks_spec i j (nblk i) (Some i) xs)|iFrame|].
  iIntros (_u) "(Hh & Hd & (%zs & %Hzs & Hl) & He)".
  iDestruct (list_elems_free i j (nblk i) Hi Hpage with "[$He Hr]") as "Hw"; [done|done|].
  iDestruct (arena_page i _ Hi Hpage with "[$Hh $Hw $Ht]") as (bs Hbs) "Hb".
  iApply (hoare_wp_ret with "[Hp Hb]"); [apply (palloc_free_spec ks kn us un) with (i := j) (cnt := 1)|iFrame|].
  { by destruct Hlayout as (_ & ? & _). }
  { done. }
  { done. }
  { intros p Hp. apply elem_of_covered. exists j, (Arena i ∅). split; [done|exact Hp]. }
  { lia. }
  iIntros (_u') "Hp". rewrite (covered_delete _ _ _ _ σ j _ Hwf Hj). iFrame "Hp Hd Hc". iApply "Hclose".
  - iPureIntro. intros i' _ Hi'. by rewrite (free_of_delete i' j _ σ Hj) free_in_other.
  - iExists zs. by iFrame.
Qed.

Lemma size_give (U : gset Z) k : k ∈ U → size U = S (size (U ∖ {[k]})).
Proof.
  intros Hk. rewrite {1}(union_difference_singleton_L k U) // size_union ?size_singleton //.
  rewrite disjoint_singleton_l elem_of_difference elem_of_singleton. tauto.
Qed.

(** A block goes back to the list and is counted as free. *)
Lemma give_block_spec {A} (K : Z → M _ A) σ i j U k Φ Ψ : wf σ → σ !! j = Some (Arena i U) → k ∈ U →
  chunk_rep j (Arena i U) -∗ chunks (base.delete j σ) -∗ lists σ -∗ whole i (PGSIZE * j) k -∗
  (chunks (<[j := Arena i (U ∖ {[k]})]> σ) -∗ lists (<[j := Arena i (U ∖ {[k]})]> σ) -∗
   wp (K (nblk i - Z.of_nat (size U))) Φ Ψ) -∗
  wp (list_push_front (free_list (Some (desc_at i))) (ptr_of (blk i (PGSIZE * j) k));;
      c ← get_free_cnt (PGSIZE * j); set_free_cnt (PGSIZE * j) (wrap_u 32 (c + 1));; K c) Φ Ψ.
Proof.
  intros Hwf Hj HkU. destruct (wf_chunk _ _ _ _ σ Hwf j _ Hj) as [[Hi HU] _]. pose proof (HU k HkU) as Hk. simpl in Hk.
  pose proof (wf_page _ _ _ _ Hlayout σ j _ Hwf Hj) as Hpage. destruct (blk_page i _ k Hi Hpage Hk) as (_ & _ & _ & Hpos & _).
  destruct (class_sizes i Hi) as (_ & _ & Hnb & _). iIntros "(Hh & Ht & Hr) Hc Hl Hw HK".
  iDestruct (whole_free i _ Hi Hpage k Hk with "Hw") as "[Hx Hrk]".
  iDestruct (lists_take σ i Hi with "Hl") as "[(%xs & %Hxs & Hl) Hclose]".
  rewrite (el_ptr _ Hpos). wp_focus. iApply (hoare_wp_ret with "[Hl Hx]"); [apply list_push_front_space_spec|iFrame|]. iIntros (_u) "Hl".
  iDestruct ("Hclose" $! (<[j := Arena i (U ∖ {[k]})]> σ) with "[] [Hl]") as "Hl".
  { iPureIntro. intros i' _ Hi'. by eapply free_of_other. }
  { iExists _. iFrame. iPureIntro. rewrite Hxs (free_of_delete i j _ σ Hj) (free_of_replace i j _ _ σ Hj).
    unfold free_in. cbn [fst snd]. rewrite !decide_True //.
    rewrite (unused_insert i (U ∖ {[k]}) k) //; [|rewrite elem_of_difference elem_of_singleton; tauto].
    by rewrite -union_difference_singleton_L. }
  pose proof (size_used i U HU Hi) as Hsz. pose proof (size_give U k HkU) as Hsz'.
  wp_focus. iApply (wp_get_free_cnt _ Hpage with "Hh"); [unfold in_u; lia|]. iIntros "Hh".
  rewrite wrap_u_id; [|unfold in_u; lia].
  wp_focus. iApply (wp_set_free_cnt _ Hpage with "Hh"); [unfold in_u; lia|]. iIntros "Hh".
  iDestruct (rest_give i _ U k Hk HkU with "[$Hrk $Hr]") as "Hr". iApply ("HK" with "[Hh Ht Hr Hc] Hl").
  rewrite (chunks_put σ j _ _ Hj). cbn [chunk_rep].
  replace (nblk i - Z.of_nat (size (U ∖ {[k]}))) with (nblk i - Z.of_nat (size U) + 1) by lia. iFrame.
Qed.

Lemma grows_last σ j i U k : wf σ → σ !! j = Some (Arena i U) → k ∈ U → U ∖ {[k]} = ∅ →
  grows (base.delete j (<[j := Arena i (U ∖ {[k]})]> σ)) (blk i (PGSIZE * j) k) Heap (bsize i) σ.
Proof.
  intros Hwf Hj HkU E. rewrite delete_insert_eq. eapply grows_delete; [done|done|]. intros a' k' n'. split.
  - inversion 1 as [i' U' k0 Hk0| |]; subst. assert (k0 = k) as ->; [|done].
    destruct (decide (k0 = k)) as [|Hne]; [done|]. exfalso. apply (not_elem_of_empty (C := gset Z) k0). rewrite -E.
    by rewrite elem_of_difference elem_of_singleton.
  - intros (-> & -> & ->). by constructor.
Qed.

Lemma free_small_spec σ i j U k bs : σ !! j = Some (Arena i U) → k ∈ U → size_of bs = bsize i →
  ⦃ malloc_inv σ ∗ block (blk i (PGSIZE * j) k) bs ⦄ free (blk i (PGSIZE * j) k)
  ⦃ _u, free_post σ (blk i (PGSIZE * j) k) (bsize i) ⦄.
Proof.
  intros Hj HkU Hbs. unfold hoare, free. iIntros "[(%Hσ & Hp & Hn & Hd & Hl & Hc) Hb]". destruct Hσ as [Hwf Hbusy].
  destruct (grows_give σ j i U k Hwf Hj HkU) as [Hgrows Hwf']. pose proof (size_give U k HkU) as Hsz.
  destruct (wf_chunk _ _ _ _ σ Hwf j _ Hj) as [[Hi HU] _]. pose proof (HU k HkU) as Hk. simpl in Hk.
  pose proof (wf_page _ _ _ _ Hlayout σ j _ Hwf Hj) as Hpage. destruct (blk_page i _ k Hi Hpage Hk) as (_ & _ & _ & Hpos & _).
  destruct (class_sizes i Hi) as (Hs & _ & Hnb & _). pose proof (size_used i U HU Hi) as Hsz'.
  rewrite bool_decide_false; [|lia]. rewrite (chunks_take σ j _ Hj). iDestruct "Hc" as "[[Hh Hr] Hc]".
  wp_focus. iApply (wp_block_to_arena_small _ Hpage with "Hh Hd"); [done..|]. iIntros "Hh Hd".
  wp_focus. iApply (wp_get_arena_desc _ Hpage with "Hh"). iIntros "Hh". change (not_null (Some (desc_at i))) with true. cbv iota.
  unfold free_small. wp_focus. iApply (wp_get_desc with "Hd"); [done|]. iIntros "Hd". cbn [desc_block_size].
  wp_focus. iApply (hoare_wp_ret with "Hb"); [apply memset_spec; lia|]. iIntros (r) "[_ Hb]".
  wp_focus. iApply (wp_lock_desc with "Hd"); [done|]. iIntros "Hd". iCombine "Hh Hr" as "Hj".
  iApply (give_block_spec _ σ with "Hj Hc Hl [Hb]"); [done..| |].
  { iExists _. iFrame. iPureIntro. rewrite size_of_splice //. rewrite size_of_replicate. lia. }
  iIntros "Hc Hl". rewrite wrap_u_id; [|unfold in_u; lia]. set (σ' := <[j := Arena i (U ∖ {[k]})]> σ) in *.
  assert (covered σ = covered σ') as -> by by rewrite (covered_replace j (Arena i U)).
  wp_focus. iApply (wp_get_desc with "Hd"); [done|]. iIntros "Hd". cbn [blocks_per_arena].
  destruct (decide (U ∖ {[k]} = ∅)) as [E|E].
  - assert (σ' !! j = Some (Arena i ∅)) as Hj' by (unfold σ'; rewrite E; apply lookup_insert_eq).
    rewrite bool_decide_true; [|rewrite Hsz E size_empty; lia]. wp_focus.
    iApply (hoare_wp_ret with "[Hp Hd Hl Hc]"); [by apply free_arena_spec|iFrame|]. iIntros (_u') "(Hp & Hd & Hl & Hc)".
    iApply (wp_unlock_desc with "Hd"); [done|]. iIntros "Hd". iExists (base.delete j σ'). iFrame "Hp Hn Hd Hl Hc". iPureIntro.
    split; [by apply grows_last|]. split; [by apply wf_delete|].
    unfold σ'. intros j' i' [Hne H]%lookup_delete_Some. rewrite lookup_insert_ne // in H. by eapply Hbusy.
  - rewrite bool_decide_false; [|assert (size (U ∖ {[k]}) ≠ 0%nat) by (rewrite size_empty_iff; fold_leibniz; done); lia]. wp_finish.
    iApply (wp_unlock_desc with "Hd"); [done|]. iIntros "Hd". iExists σ'. unfold PintosAlloc.malloc_inv. iFrame "Hp Hn Hd Hl Hc". iPureIntro.
    split; [done|]. split; [done|]. apply busy_insert; [done|]. intros i' [= _ ?]. done.
Qed.

Lemma free_null_spec σ : ⦃ malloc_inv σ ⦄ free 0 ⦃ _u, malloc_inv σ ⦄.
Proof. unfold hoare, free. rewrite bool_decide_true //. iIntros "H". by iApply wp_ret. Qed.

Lemma free_spec σ p bs : handed σ p Heap (size_of bs) →
  ⦃ malloc_inv σ ∗ block p bs ⦄ free p ⦃ _u, free_post σ p (size_of bs) ⦄.
Proof.
  intros (j & c & Hj & Hb). remember Heap as kd eqn:Hkd. remember (size_of bs) as n eqn:Hn.
  destruct Hb as [i U k Hk|cnt|cnt]; [by eapply free_small_spec|by eapply free_big_spec|done].
Qed.

(** * [calloc] and [realloc] *)

Lemma calloc_spec σ a b : 0 <= a < 2 ^ 32 → 0 <= b < 2 ^ 32 → a * b < 2 ^ 32 - 11 →
  ⦃ malloc_inv σ ⦄ calloc a b
  ⦃ p, (⌈malloc_fails ks kn σ (a * b) p⌉ ∗ malloc_inv σ) ∨
    (∃ σ' bs, ⌈(a * b)%Z ≠ 0 ∧ 0 < p ∧ grows σ p Heap (size_of bs) σ' ∧ a * b <= size_of bs ∧ slice 0 (a * b) bs = replicate (Z.to_nat (a * b)) 0⌉ ∗
      malloc_inv σ' ∗ block p bs) ⦄.
Proof.
  intros Ha Hb Hab. unfold hoare, calloc. iIntros "H". rewrite wrap_u_id; [|unfold in_u; nia].
  destruct (bool_decide (a * b < a) || bool_decide (a * b < b)) eqn:E.
  { iApply wp_ret. iLeft. iFrame. iPureIntro. split; [done|left].
    apply orb_true_iff in E as [E%bool_decide_eq_true|E%bool_decide_eq_true];
      [destruct (decide (b = 0))|destruct (decide (a = 0))]; nia. }
  wp_focus. iApply (hoare_wp_ret with "H"); [apply (malloc_spec ks kn us un Hlayout); nia|].
  iIntros (p) "[[%Hf H]|(%σ' & %bs & %Hp & H & Hblock)]".
  - destruct Hf as [-> Hf]. rewrite bool_decide_false; [|tauto]. wp_finish. iLeft. by iFrame.
  - destruct Hp as (Hp & Hg & Hs & H0). rewrite bool_decide_true; [|lia].
    wp_focus. iApply (hoare_wp_ret with "Hblock"); [apply memset_spec; nia|]. iIntros (r) "[_ Hblock]". wp_finish.
    iRight. iExists σ', _. iFrame. change (wrap_u 8 0) with 0.
    assert (size_of (replicate (Z.to_nat (a * b)) 0) = a * b) as Hz by (rewrite size_of_replicate; nia).
    iPureIntro. rewrite size_of_splice; [|done|lia]. split_and!; [done..|]. rewrite -{1}Hz. apply slice_splice_eq; lia.
Qed.

Lemma block_size_spec σ p n : handed σ p Heap n → ⦃ malloc_inv σ ⦄ block_size p ⦃ r, ⌈r = n⌉ ∗ malloc_inv σ ⦄.
Proof.
  intros (j & c & Hj & Hb). unfold hoare, block_size. iIntros "(%Hσ & Hp & Hn & Hd & Hl & Hc)". pose proof Hσ as [Hwf _].
  pose proof (wf_page _ _ _ _ Hlayout σ j _ Hwf Hj) as Hpage. destruct (wf_chunk _ _ _ _ σ Hwf j _ Hj) as [Hok Hin].
  remember Heap as kd eqn:Hkd. destruct Hb as [i U k Hk|cnt|cnt]; [| |done].
  - destruct Hok as [Hi HU]. pose proof (HU k Hk) as Hkr. simpl in Hkr.
    rewrite {1}(chunks_take σ j _ Hj). iDestruct "Hc" as "[[Hh Hr] Hc]".
    wp_focus. iApply (wp_block_to_arena_small _ Hpage with "Hh Hd"); [done..|]. iIntros "Hh Hd".
    wp_focus. iApply (wp_get_arena_desc _ Hpage with "Hh"). iIntros "Hh". change (not_null (Some (desc_at i))) with true. cbv iota.
    wp_focus. iApply (wp_get_desc with "Hd"); [done|]. iIntros "Hd". iApply wp_ret. iSplit; [done|].
    iFrame "Hp Hn Hd Hl". iSplit; [done|]. rewrite (chunks_take σ j _ Hj). iFrame.
  - cbn [chunk_ok chunk_cnt] in Hok, Hin. destruct (page_pos _ Hpage) as (Hpos & Hmod & Hend).
    rewrite {1}(chunks_take σ j _ Hj). iDestruct "Hc" as "[Hh Hc]". cbn [chunk_rep].
    wp_focus. iApply (wp_block_to_arena_big _ Hpage with "Hh"). iIntros "Hh".
    wp_focus. iApply (wp_get_arena_desc _ Hpage with "Hh"). iIntros "Hh". change (not_null NULL) with false. cbv iota.
    assert (0 < cnt < 2 ^ 20) as Hc by (destruct Hlayout as (L1 & L2 & L3 & L4 & L5); destruct Hin; lia).
    wp_focus. iApply (wp_get_free_cnt _ Hpage with "Hh"); [unfold in_u; lia|]. iIntros "Hh". iApply wp_ret.
    rewrite pg_ofs_mod (_ : (PGSIZE * j + ARENA_SIZE) mod PGSIZE = ARENA_SIZE); [|change ARENA_SIZE with 12; pg_lia].
    rewrite wrap_u_id; [|unfold in_u; change ARENA_SIZE with 12; pg_lia]. iSplit; [done|].
    iFrame "Hp Hn Hd Hl". iSplit; [done|]. rewrite (chunks_take σ j _ Hj). iFrame.
Qed.

Lemma grows_swap σ p n σ1 q m σ2 : grows σ p Heap n σ1 → handed σ q Heap m → grows σ2 q Heap m σ1 →
  (∀ a k n', handed σ2 a k n' ↔ (a = p ∧ k = Heap ∧ n' = n) ∨ (handed σ a k n' ∧ a ≠ q)).
Proof.
  intros [H1 H1'] Hq [H2 H2'] a k n'. specialize (H1 a k n'). specialize (H2 a k n').
  assert (p ≠ q) as Hpq by (intros ->; by eapply H1').
  destruct (decide (a = q)) as [->|Hne].
  - split; [intros H; by apply H2' in H|]. intros [[? _]|[_ ?]]; congruence.
  - split.
    + intros H. assert (handed σ1 a k n') as H' by tauto. apply H1 in H'. tauto.
    + intros [H|[H _]]; [assert (handed σ1 a k n') as H' by tauto|assert (handed σ1 a k n') as H' by tauto]; apply H2 in H'; destruct H' as [[-> _]|]; done.
Qed.

(** The old block goes when the new one has its bytes. *)
Lemma realloc_spec σ p x size : handed σ p Heap (size_of x) → 0 < p → 0 < size < 2 ^ 32 - 11 →
  ⦃ malloc_inv σ ∗ block p x ⦄ realloc p size
  ⦃ r, (⌈malloc_fails ks kn σ size r⌉ ∗ malloc_inv σ ∗ block p x) ∨
    (∃ σ' bs, ⌈0 < r ∧ size <= size_of bs ∧ (∀ a k n, handed σ' a k n ↔ (a = r ∧ k = Heap ∧ n = size_of bs) ∨ (handed σ a k n ∧ a ≠ p)) ∧
        (∀ k n, ¬ handed σ r k n) ∧ apart p (size_of x) r (size_of bs) ∧
        slice 0 (Z.min size (size_of x)) bs = slice 0 (Z.min size (size_of x)) x⌉ ∗ malloc_inv σ' ∗ block r bs) ⦄.
Proof.
  intros Hh Hp Hs. unfold hoare, realloc. iIntros "[H Hx]". rewrite bool_decide_false; [|lia].
  wp_focus. iApply (hoare_wp_ret with "H"); [apply (malloc_spec ks kn us un Hlayout); lia|].
  iIntros (r) "[[%Hf H]|(%σ' & %bs & %Hr & H & Hblock)]".
  - destruct Hf as [-> Hf]. rewrite (bool_decide_false (0 ≠ 0)); [|tauto]. rewrite andb_false_r. wp_finish. iLeft. by iFrame.
  - destruct Hr as (Hr & Hg & Hsz & _). rewrite !bool_decide_true; [|lia..]. cbn [andb].
    assert (handed σ' p Heap (size_of x)) as Hh' by (apply Hg; by right).
    wp_focus. iApply (hoare_wp_ret with "H"); [by apply block_size_spec|]. iIntros (n) "[-> H]".
    assert ((if bool_decide (size < size_of x) then size else size_of x) = Z.min size (size_of x)) as -> by (case_bool_decide; lia).
    pose proof (size_of_nonneg x). set (m := Z.min size (size_of x)) in *. assert (0 <= m <= size_of bs ∧ m <= size_of x) as [Hm1 Hm2] by (unfold m; lia).
    iDestruct (inv_pure with "H") as %[Hwf' _].
    iDestruct (block_apart p x r bs with "[$Hx $Hblock]") as %Hap; [by eapply handed_pos|eapply (handed_pos σ' r); [done|]; apply Hg; by left|].
    wp_focus. iApply (hoare_wp_ret with "[Hblock Hx]"); [by apply (memcpy_spec r p m bs x)|iFrame|]. iIntros (q) "(_ & Hblock & Hx)".
    wp_focus. iApply (hoare_wp_ret with "[H Hx]"); [by apply free_spec|iFrame|]. iIntros (_u) "(%σ2 & %Hg2 & H)". wp_finish.
    iRight. iExists σ2, _. iFrame. iPureIntro.
    assert (size_of (slice 0 m x) = m) as Hsm by (rewrite size_of_slice; lia). rewrite size_of_splice; [|done|lia].
    split; [done|]. split; [done|]. split; [by eapply grows_swap|]. split; [apply Hg|]. split; [done|]. rewrite -{1}Hsm. apply slice_splice_eq; lia.
Qed.

(** * The page allocator next to [malloc] *)

Definition pages_short (flags cnt : Z) (C : gset Z) : Prop :=
  if flag flags PAL_USER then no_room us un C cnt else no_room ks kn C cnt.

Lemma get_pages_spec σ flags cnt : 0 <= cnt → flag flags PAL_ASSERT = false →
  ⦃ malloc_inv σ ⦄ palloc_get_multiple flags cnt
  ⦃ r, (⌈r = 0 ∧ (cnt = 0 ∨ pages_short flags cnt (covered σ))⌉ ∗ malloc_inv σ) ∨
    (∃ σ' bs, ⌈0 < r ∧ grows σ r (Paged cnt) (size_of bs) σ' ∧ size_of bs = (PGSIZE * cnt)%Z ∧
        (flag flags PAL_ZERO = true → bs = replicate (Z.to_nat (PGSIZE * cnt)) 0)⌉ ∗ malloc_inv σ' ∗ block r bs) ⦄.
Proof.
  intros Hc Hf. unfold hoare. iIntros "(%Hσ & Hp & Hn & Hd & Hl & Hc)". destruct Hσ as [Hwf Hbusy].
  iApply (hoare_wp_ret with "Hp"); [by apply (palloc_pools_spec ks kn us un Hlayout)|].
  iIntros (r) "[[%Hr Hp]|(%j & %bs & %Hr & Hp & Hb)]"; [iLeft; by iFrame|].
  destruct Hr as (-> & Hc0 & Hbs & Hin & Hout & Hz). destruct (wf_insert _ _ _ _ σ j (Pages cnt) Hwf) as [Hwf' Hj]; [done..|].
  destruct (page_pos _ (wf_page _ _ _ _ Hlayout _ j _ Hwf' (lookup_insert_eq σ j _))) as (Hpos & _).
  iRight. iExists (<[j := Pages cnt]> σ), bs. iFrame "Hb". iSplit.
  - iPureIntro. split_and!; [done| |done|done]. rewrite Hbs. eapply grows_insert; [done..|]. intros a' k' n'.
    split; [by inversion 1|]. intros (-> & -> & ->). constructor.
  - unfold PintosAlloc.malloc_inv. rewrite (covered_insert j) //. iFrame "Hp Hn Hd". iSplit; [iPureIntro; split; [done|by apply busy_insert]|].
    iSplitL "Hl"; [iApply (lists_pages with "Hl"); intros i; by rewrite (free_of_insert i j _ σ Hj)|].
    unfold chunks. rewrite big_sepM_insert //. by iFrame.
Qed.

Lemma free_pages_spec σ p cnt bs : handed σ p (Paged cnt) (size_of bs) →
  ⦃ malloc_inv σ ∗ block p bs ⦄ palloc_free_multiple p cnt ⦃ _u, ∃ σ', ⌈grows σ' p (Paged cnt) (size_of bs) σ⌉ ∗ malloc_inv σ' ⦄.
Proof.
  intros (j & c & Hj & Hb). unfold hoare. iIntros "[(%Hσ & Hp & Hn & Hd & Hl & Hc) Hx]". destruct Hσ as [Hwf Hbusy].
  remember (Paged cnt) as kd eqn:Hkd. remember (size_of bs) as n eqn:Hbs. destruct Hb as [i U k Hk|cnt'|cnt']; [done..|].
  injection Hkd as ->. destruct (wf_chunk _ _ _ _ σ Hwf j _ Hj) as [Hok Hin].
  iApply (hoare_wp_ret with "[Hp Hx]"); [apply (palloc_free_spec ks kn us un) with (i := j) (cnt := cnt)|iFrame|].
  { by destruct Hlayout as (_ & ? & _). }
  { done. }
  { done. }
  { intros p Hp. apply elem_of_covered. by exists j, (Pages cnt). }
  { done. }
  iIntros (_u) "Hp". iExists (base.delete j σ). iSplit.
  - iPureIntro. eapply grows_delete; [done|done|]. intros a' k' n'. split; [by inversion 1|]. intros (-> & -> & ->). constructor.
  - unfold PintosAlloc.malloc_inv. rewrite (covered_delete _ _ _ _ σ j _ Hwf Hj) (chunks_take σ j _ Hj). iDestruct "Hc" as "[_ Hc]".
    iFrame "Hp Hn Hd Hc". iSplit.
    + iPureIntro. split; [by apply wf_delete|]. intros j' i [_ H]%lookup_delete_Some. by eapply Hbusy.
    + iApply (lists_pages with "Hl"). intros i. by rewrite (free_of_delete i j _ σ Hj).
Qed.
End free.
