(* ===== verification/PintosAllocSpec.v ===== *)
(** What the memory allocators of Pintos promise: an abstract allocator whose state
    is the blocks in use with their bytes, and the programs that may use it. *)
From S2P Require Export PintosFree.
Local Open Scope Z_scope.

(** * Programs *)

(** The calls of malloc.c and palloc.c, and the accesses to a byte of memory. *)
Inductive cmd :=
  | Malloc (size : Z)
  | Calloc (a b : Z)
  | Realloc (p size : Z)
  | Free (p : Z)
  | GetPages (flags cnt : Z)
  | FreePages (p cnt : Z)
  | Write (a c : Z)
  | Read (a : Z).

(** A program that makes one call after another; what it does next may depend on
    the result. *)
Inductive client :=
  | Stop
  | Call (c : cmd) (k : Z → client).

Section exec.
Context {ST : Statics}.
Abbreviation cell := (Z + (pool + desc))%type.

Definition exec (c : cmd) : M (gmap loc cell) Z :=
  match c with
  | Malloc size => malloc size
  | Calloc a b => calloc a b
  | Realloc p size => realloc p size
  | Free p => free p;; mret 0
  | GetPages flags cnt => palloc_get_multiple flags cnt
  | FreePages p cnt => palloc_free_multiple p cnt;; mret 0
  | Write a c => store_byte a c;; mret 0
  | Read a => load_byte a
  end.

Fixpoint run_client (p : client) : M (gmap loc cell) (list (cmd * Z)) :=
  match p with
  | Stop => mret []
  | Call c k => r ← exec c; t ← run_client (k r); mret ((c, r) :: t)
  end.
End exec.

(** * The abstract allocator *)

(** The blocks in use, by their address: from which allocator they are, and their bytes. *)
Abbreviation live := (gmap Z (kind * bytes)).

Section spec.
Context (ks kn us un : Z).
Implicit Types (L : live).

(** A page in which there is some byte of a block in use; and there are no [cnt]
    pages next to each other, of the [n] pages from [s], without such bytes. *)
Definition touched L (j : Z) : Prop :=
  map_Exists (λ a kx, a < PGSIZE * (j + 1) ∧ PGSIZE * j < a + size_of kx.2) L.
Definition full (s n : Z) L (cnt : Z) : Prop :=
  ∀ i, s <= i → i + cnt <= s + n → ∃ j, i <= j < i + cnt ∧ touched L j.

(** A block that has no byte in common with those in use. *)
Record new_block L (r : Z) (bs : bytes) : Prop := {
  new_pos : 0 < r ∧ r mod 4 = 0;
  new_none : L !! r = None;
  new_bytes : Forall (in_u 8) bs;
  new_apart : map_Forall (λ a kx, apart a (size_of kx.2) r (size_of bs)) L;
}.

Inductive astep L : cmd → Z → live → Prop :=
  | step_malloc n r bs :
      n ≠ 0 → n <= size_of bs → new_block L r bs → astep L (Malloc n) r (<[r := (Heap, bs)]> L)
  | step_malloc_null n : n = 0 ∨ full ks kn L (pages_for n) → astep L (Malloc n) 0 L
  | step_calloc a b r bs :
      a * b ≠ 0 → a * b <= size_of bs → slice 0 (a * b) bs = replicate (Z.to_nat (a * b)) 0 → new_block L r bs →
      astep L (Calloc a b) r (<[r := (Heap, bs)]> L)
  | step_calloc_null a b : a * b = 0 ∨ full ks kn L (pages_for (a * b)) → astep L (Calloc a b) 0 L
  | step_realloc p n x r bs :
      L !! p = Some (Heap, x) → n ≠ 0 → n <= size_of bs → new_block L r bs →
      slice 0 (Z.min n (size_of x)) bs = slice 0 (Z.min n (size_of x)) x →
      astep L (Realloc p n) r (<[r := (Heap, bs)]> (base.delete p L))
  | step_realloc_null p n : n ≠ 0 → full ks kn L (pages_for n) → astep L (Realloc p n) 0 L
  | step_realloc_new n r bs :
      n ≠ 0 → n <= size_of bs → new_block L r bs → astep L (Realloc 0 n) r (<[r := (Heap, bs)]> L)
  | step_realloc_free p x : L !! p = Some (Heap, x) → astep L (Realloc p 0) 0 (base.delete p L)
  | step_realloc_nothing : astep L (Realloc 0 0) 0 L
  | step_free p x : L !! p = Some (Heap, x) → astep L (Free p) 0 (base.delete p L)
  | step_free_null : astep L (Free 0) 0 L
  | step_get_pages flags cnt r bs :
      0 < cnt → size_of bs = PGSIZE * cnt → (flag flags PAL_ZERO = true → bs = replicate (Z.to_nat (PGSIZE * cnt)) 0) →
      new_block L r bs → astep L (GetPages flags cnt) r (<[r := (Paged cnt, bs)]> L)
  | step_get_pages_null flags cnt :
      cnt = 0 ∨ (if flag flags PAL_USER then full us un L cnt else full ks kn L cnt) → astep L (GetPages flags cnt) 0 L
  | step_free_pages p cnt x : L !! p = Some (Paged cnt, x) → astep L (FreePages p cnt) 0 (base.delete p L)
  | step_write p k x i c :
      L !! p = Some (k, x) → 0 <= i < size_of x →
      astep L (Write (p + i) c) 0 (<[p := (k, splice i [wrap_u 8 c] x)]> L)
  | step_read p k x i c : L !! p = Some (k, x) → byte_at i x = Some c → astep L (Read (p + i)) c L.

(** What a call may ask for. *)
Definition is_block L (p : Z) : Prop := ∃ x, L !! p = Some (Heap, x).
Definition in_block L (a : Z) : Prop := ∃ p k x i, L !! p = Some (k, x) ∧ 0 <= i < size_of x ∧ a = p + i.

Definition call_ok L (c : cmd) : Prop :=
  match c with
  | Malloc n => 0 <= n < 2 ^ 32 - 11
  | Calloc a b => 0 <= a < 2 ^ 32 ∧ 0 <= b < 2 ^ 32 ∧ a * b < 2 ^ 32 - 11
  | Realloc p n => (p = 0 ∨ is_block L p) ∧ 0 <= n < 2 ^ 32 - 11
  | Free p => p = 0 ∨ is_block L p
  | GetPages flags cnt => 0 <= cnt ∧ flag flags PAL_ASSERT = false
  | FreePages p cnt => ∃ x, L !! p = Some (Paged cnt, x)
  | Write a _ | Read a => in_block L a
  end.

(** A program that only makes calls it may make, whatever the results are. *)
Fixpoint legal L (p : client) : Prop :=
  match p with
  | Stop => True
  | Call c k => call_ok L c ∧ ∀ r L', astep L c r L' → legal L' (k r)
  end.

(** The calls and results that the abstract allocator allows. *)
Inductive asteps : live → list (cmd * Z) → live → Prop :=
  | asteps_nil L : asteps L [] L
  | asteps_cons L c r L' t L'' : astep L c r L' → asteps L' t L'' → asteps L ((c, r) :: t) L''.
(** Blocks in use have no byte in common. *)
Definition all_apart L : Prop :=
  ∀ a k x b k' y, L !! a = Some (k, x) → L !! b = Some (k', y) → a ≠ b → apart a (size_of x) b (size_of y).

Lemma all_apart_delete L a : all_apart L → all_apart (base.delete a L).
Proof.
  intros H b k x c k' y [_ Hb]%lookup_delete_Some [_ Hc]%lookup_delete_Some. by eapply H.
Qed.

Lemma all_apart_insert L r k bs : all_apart L → new_block L r bs → all_apart (<[r := (k, bs)]> L).
Proof.
  intros H Hnew a k1 x b k2 y Ha Hb Hne.
  apply lookup_insert_Some in Ha as [[<- [= <- <-]]|[_ Ha]]; apply lookup_insert_Some in Hb as [[<- [= <- <-]]|[_ Hb]]; [done| | |by eapply H].
  - pose proof (new_apart _ _ _ Hnew b _ Hb) as Hap. unfold apart in *. cbn [snd] in Hap. lia.
  - exact (new_apart _ _ _ Hnew a _ Ha).
Qed.

Lemma all_apart_write L a k x y : all_apart L → L !! a = Some (k, x) → size_of y = size_of x → all_apart (<[a := (k, y)]> L).
Proof.
  intros H Ha Hs b k1 z c k2 w Hb Hc Hne.
  apply lookup_insert_Some in Hb as [[<- [= <- <-]]|[_ Hb]]; apply lookup_insert_Some in Hc as [[<- [= <- <-]]|[_ Hc]];
    rewrite ?Hs; [done|by eapply H..].
Qed.

Lemma new_block_delete L a r bs : new_block L r bs → new_block (base.delete a L) r bs.
Proof.
  intros [H1 H2 H3 H4]. split; [done|by rewrite lookup_delete_None; right|done|].
  intros b kx [_ Hb]%lookup_delete_Some. by apply H4.
Qed.

Lemma astep_apart L c r L' : astep L c r L' → all_apart L → all_apart L'.
Proof.
  intros Hstep H. destruct Hstep; try done;
    try (by apply all_apart_insert); try (by apply all_apart_delete).
  - apply all_apart_insert; [by apply all_apart_delete|by apply new_block_delete].
  - eapply all_apart_write; [done|done|]. rewrite size_of_splice; [done|lia|]. change (size_of [wrap_u 8 c]) with 1. lia.
Qed.

Lemma asteps_apart L t L' : asteps L t L' → all_apart L → all_apart L'.
Proof. induction 1 as [|L c r L1 t L2 Hstep _ IH]; [done|]. intros H. by eapply IH, astep_apart. Qed.
End spec.
