(* ===== verification/PintosAllocRefine.v ===== *)
(** The allocators of Pintos implement the abstract allocator: every call does what
    a step of it does. *)
From S2P Require Export PintosAllocSpec.
Local Open Scope Z_scope.

Section refine.
Context {ST : Statics} (ks kn us un : Z) (Hlayout : layout_ok ks kn us un).
Abbreviation cell := (Z + (pool + desc))%type.
Abbreviation malloc_inv := (malloc_inv ks kn us un).
Abbreviation wf := (wf ks kn us un).
Abbreviation astep := (astep ks kn us un).
Implicit Types (L : live) (σ : gmap Z chunk).

(** * The blocks in use *)

(** The blocks that are handed out are those in use. *)
Definition matches σ L : Prop := ∀ a k n, handed σ a k n ↔ ∃ x, L !! a = Some (k, x) ∧ size_of x = n.

Definition blocks L : hpropI cell := ([∗ map] a ↦ kx ∈ L, block a kx.2)%I.
Definition alloc_rep L : hpropI cell := (∃ σ, ⌈matches σ L⌉ ∗ malloc_inv σ ∗ blocks L)%I.

Lemma matches_insert σ L a k x σ' : matches σ L → grows σ a k (size_of x) σ' → matches σ' (<[a := (k, x)]> L) ∧ L !! a = None.
Proof.
  intros HL [Hg Hg']. assert (L !! a = None) as Ha.
  { destruct (L !! a) as [[k' y]|] eqn:E; [|done]. exfalso. apply (Hg' k' (size_of y)), HL. by exists y. }
  split; [|done]. intros a' k' n'. rewrite Hg HL. split.
  - intros [(-> & -> & ->)|(y & Hy & Hn)]; [exists x; by rewrite lookup_insert_eq|]. exists y. rewrite lookup_insert_ne //.
    intros <-. by rewrite Ha in Hy.
  - intros (y & [[<- [= <- <-]]|[_ Hy]]%lookup_insert_Some & Hn); [by left|right; by exists y].
Qed.

Lemma matches_delete σ L a k x σ' : matches σ L → L !! a = Some (k, x) → grows σ' a k (size_of x) σ → matches σ' (base.delete a L).
Proof.
  intros HL Ha [Hg Hg'] a' k' n'. specialize (Hg a' k' n'). specialize (HL a' k' n'). split.
  - intros H. assert (handed σ a' k' n') as (y & Hy & Hn)%HL by tauto. exists y. rewrite lookup_delete_ne //.
    intros <-. by eapply Hg'.
  - intros (y & [Hne Hy]%lookup_delete_Some & Hn). assert (handed σ a' k' n') as H by (apply HL; by exists y). apply Hg in H.
    destruct H as [(-> & _)|]; done.
Qed.

Lemma matches_write σ L a k x y : matches σ L → L !! a = Some (k, x) → size_of y = size_of x → matches σ (<[a := (k, y)]> L).
Proof.
  intros HL Ha Hs a' k' n'. rewrite HL. destruct (decide (a = a')) as [<-|Hne].
  - rewrite Ha lookup_insert_eq. split; intros (z & [= <- <-] & <-); eauto.
  - by rewrite lookup_insert_ne.
Qed.

(** A page is in use exactly when a block in use is in it. *)
Lemma handed_pages_touch σ p : wf σ → busy σ →
  p ∈ covered σ ↔ ∃ a k n, handed σ a k n ∧ a < PGSIZE * (p + 1) ∧ PGSIZE * p < a + n.
Proof.
  intros Hwf Hbusy. rewrite elem_of_covered. split.
  - intros (j & c & Hj & Hp). destruct (wf_chunk _ _ _ _ σ Hwf j c Hj) as [Hok _]. destruct c as [i U|cnt|cnt]; cbn [chunk_cnt] in Hp.
    + destruct (set_choose_L U) as [k Hk]; [intros ->; by eapply Hbusy|]. destruct Hok as [Hi HU]. specialize (HU k Hk). simpl in HU.
      pose proof (blk_bounds i (PGSIZE * j) k Hi HU). destruct (class_sizes i Hi).
      exists (blk i (PGSIZE * j) k), Heap, (bsize i). split; [exists j, (Arena i U); split; [done|by constructor]|]. pg_lia.
    + eexists _, Heap, _. split; [exists j, (Big cnt); split; [done|constructor]|]. change ARENA_SIZE with 12. pg_lia.
    + eexists _, (Paged cnt), _. split; [exists j, (Pages cnt); split; [done|constructor]|]. pg_lia.
  - intros (a & k & n & (j & c & Hj & Hb) & H1 & H2). exists j, c. split; [done|]. destruct (wf_chunk _ _ _ _ σ Hwf j c Hj) as [Hok _].
    destruct Hb as [i U k Hk|cnt|cnt]; cbn [chunk_cnt].
    + destruct Hok as [Hi HU]. specialize (HU k Hk). simpl in HU. pose proof (blk_bounds i (PGSIZE * j) k Hi HU). pg_lia.
    + change ARENA_SIZE with 12 in *. pg_lia.
    + pg_lia.
Qed.

Lemma covered_touched σ L p : wf σ → busy σ → matches σ L → (p ∈ covered σ ↔ touched L p).
Proof.
  intros Hwf Hbusy HL. rewrite handed_pages_touch //. unfold touched. split.
  - intros (a & k & n & (x & Ha & <-)%HL & H). by exists a, (k, x).
  - intros (a & [k x] & Ha & H). exists a, k, (size_of x). split; [apply HL; by exists x|done].
Qed.

Lemma no_room_full σ L s n cnt : wf σ → busy σ → matches σ L → no_room s n (covered σ) cnt → full s n L cnt.
Proof.
  intros Hwf Hbusy HL H i H1 H2. destruct (H i H1 H2) as (j & Hj & HC). exists j. split; [done|]. by eapply covered_touched.
Qed.

(** What is known of a block next to those in use. *)
Lemma blocks_new L r bs : (∀ a k x, L !! a = Some (k, x) → 0 < size_of x) → L !! r = None → 0 < r → 0 < size_of bs →
  blocks L ∗ block r bs ⊢ ⌜new_block L r bs⌝.
Proof.
  intros HL Hnone Hr Hs. iIntros "[HL Hb]".
  iDestruct (block_pure with "Hb") as %(_ & Hr4 & _). iDestruct (block_bytes with "Hb") as %Hbytes.
  iAssert ⌜map_Forall (λ a kx, apart a (size_of kx.2) r (size_of bs)) L⌝%I as %Hap; [|iPureIntro; by split].
  iIntros (a [k' x] Ha). unfold blocks. rewrite (big_sepM_delete _ _ _ _ Ha). iDestruct "HL" as "[Hx _]".
  iApply (block_apart with "[$Hx $Hb]"); [by eapply HL|done].
Qed.

Lemma new_block_swap L p k x r bs : L !! p = Some (k, x) → new_block (base.delete p L) r bs →
  L !! r = None → apart p (size_of x) r (size_of bs) → new_block L r bs.
Proof.
  intros Hp [H1 H2 H3 H4] Hr Hap. split; [done..|]. intros a [k' y] Ha. destruct (decide (p = a)) as [<-|Hne].
  - rewrite Hp in Ha. by injection Ha as <- <-.
  - apply H4. by rewrite lookup_delete_ne.
Qed.

(** * The calls *)

(** A block that [malloc] or the page allocator has given joins those in use. *)
Lemma rep_insert σ σ' L r k bs : matches σ L → grows σ r k (size_of bs) σ' → 0 < r →
  malloc_inv σ' ∗ blocks L ∗ block r bs ⊢ ⌈new_block L r bs⌉ ∗ alloc_rep (<[r := (k, bs)]> L).
Proof.
  intros HL Hg Hr. iIntros "(H & HL & Hb)". iDestruct (inv_pure with "H") as %[Hwf _].
  destruct (matches_insert σ L r k bs σ' HL Hg) as [HL' Hnone].
  iDestruct (blocks_new L r bs with "[$HL $Hb]") as %Hnew; [|done|done| |].
  { intros a k' x Ha. apply (handed_pos ks kn us un σ' a k'); [done|]. apply Hg. right. apply HL. by exists x. }
  { apply (handed_pos ks kn us un σ' r k); [done|]. apply Hg. by left. }
  iSplit; [done|]. iExists σ'. iFrame "H". iSplit; [done|]. unfold blocks. rewrite big_sepM_insert //. iFrame.
Qed.

(** A block takes the place of another one. *)
Lemma rep_swap σ σ' L p x r bs : matches σ L → L !! p = Some (Heap, x) → 0 < r →
  (∀ a k n, handed σ' a k n ↔ (a = r ∧ k = Heap ∧ n = size_of bs) ∨ (handed σ a k n ∧ a ≠ p)) →
  (∀ k n, ¬ handed σ r k n) → apart p (size_of x) r (size_of bs) →
  malloc_inv σ' ∗ blocks (base.delete p L) ∗ block r bs ⊢
  ⌈new_block L r bs⌉ ∗ alloc_rep (<[r := (Heap, bs)]> (base.delete p L)).
Proof.
  intros HL Hp Hr Hg Hnew Hap. iIntros "(H & HL & Hb)". iDestruct (inv_pure with "H") as %[Hwf _].
  assert (L !! r = None) as Hnone.
  { destruct (L !! r) as [[k y]|] eqn:E; [|done]. exfalso. apply (Hnew k (size_of y)), HL. by exists y. }
  assert (p ≠ r) as Hne by (intros ->; by rewrite Hp in Hnone).
  assert (base.delete p L !! r = None) as Hnone' by by rewrite lookup_delete_ne.
  iDestruct (blocks_new (base.delete p L) r bs with "[$HL $Hb]") as %Hb; [|done|done| |].
  { intros a k y [Hpa Ha]%lookup_delete_Some. apply (handed_pos ks kn us un σ' a k); [done|]. apply Hg. right. split; [|done].
    apply HL. by exists y. }
  { apply (handed_pos ks kn us un σ' r Heap); [done|]. apply Hg. by left. }
  iSplit; [iPureIntro; by eapply new_block_swap|]. iExists σ'. iFrame "H".
  iSplit; [|unfold blocks; rewrite big_sepM_insert //; iFrame]. iPureIntro. intros a k n. rewrite Hg HL. split.
  - intros [(-> & -> & ->)|((y & Ha & Hn) & Hpa)]; [exists bs; by rewrite lookup_insert_eq|]. exists y.
    rewrite lookup_insert_ne; [by rewrite lookup_delete_ne|]. intros <-. by rewrite Ha in Hnone.
  - intros (y & [[<- [= <- <-]]|[_ [Hpa Ha]%lookup_delete_Some]]%lookup_insert_Some & Hn); [by left|right]. split; [by exists y|done].
Qed.

Lemma blocks_take L a k x : L !! a = Some (k, x) → blocks L ⊣⊢ block a x ∗ blocks (base.delete a L).
Proof. intros Ha. unfold blocks. by rewrite (big_sepM_delete _ _ _ _ Ha). Qed.

Lemma null_rep σ L n p : matches σ L → malloc_fails ks kn σ n p →
  malloc_inv σ ∗ blocks L ⊢ ⌈p = 0 ∧ (n = 0 ∨ full ks kn L (pages_for n))⌉ ∗ alloc_rep L.
Proof.
  intros HL [-> Hs]. iIntros "[H HL]". iDestruct (inv_pure with "H") as %[Hwf Hbusy]. iSplit; [|iExists σ; by iFrame].
  iPureIntro. split; [done|]. destruct Hs as [|Hs]; [by left|right]. by eapply no_room_full.
Qed.

Definition exec_post L (c : cmd) (r : Z) : hpropI cell := (∃ L', ⌈astep L c r L'⌉ ∗ alloc_rep L')%I.

Lemma malloc_refines_step L n : 0 <= n < 2 ^ 32 - 11 →
  ⦃ alloc_rep L ⦄ malloc n
  ⦃ r, (⌈r = 0 ∧ (n = 0 ∨ full ks kn L (pages_for n))⌉ ∗ alloc_rep L) ∨
    (∃ bs, ⌈n ≠ 0 ∧ n <= size_of bs ∧ new_block L r bs⌉ ∗ alloc_rep (<[r := (Heap, bs)]> L)) ⦄.
Proof.
  intros Hn. unfold hoare. iIntros "(%σ & %HL & H & HL)". destruct (decide (n = 0)) as [->|Hn0].
  { unfold malloc. rewrite bool_decide_true //. iApply wp_ret. iLeft. iSplit; [iPureIntro; split; [done|by left]|]. iExists σ. by iFrame. }
  iApply (hoare_wp_ret with "H"); [by apply (malloc_spec ks kn us un Hlayout)|]. iIntros (r) "[[%Hf H]|(%σ' & %bs & %Hr & H & Hb)]".
  - iLeft. iApply (null_rep σ); [done|done|iFrame].
  - destruct Hr as (Hr & Hg & Hs & _). iRight. iExists bs. iDestruct (rep_insert σ σ' L r with "[$H $HL $Hb]") as "[%Hnew $]"; [done..|].
    done.
Qed.

Lemma calloc_refines_step L a b : call_ok L (Calloc a b) → ⦃ alloc_rep L ⦄ calloc a b ⦃ r, exec_post L (Calloc a b) r ⦄.
Proof.
  intros (Ha & Hb & Hab). unfold hoare. iIntros "(%σ & %HL & H & HL)".
  iApply (hoare_wp_ret with "H"); [by apply (calloc_spec ks kn us un Hlayout)|]. iIntros (r) "[[%Hf H]|(%σ' & %bs & %Hr & H & Hb)]".
  - iDestruct (null_rep σ with "[$H $HL]") as "[%Hnull H]"; [done..|]. destruct Hnull as [-> Hnull]. iExists L. iFrame.
    iPureIntro. by apply step_calloc_null.
  - destruct Hr as (H0 & Hr & Hg & Hs & Hz). iDestruct (rep_insert σ σ' L r with "[$H $HL $Hb]") as "[%Hnew H]"; [done..|].
    iExists _. iFrame. iPureIntro. by apply step_calloc.
Qed.

(** Giving a block back. *)
Lemma free_refines_step L p : p = 0 ∨ is_block L p → ⦃ alloc_rep L ⦄ free p ⦃ _u, exec_post L (Free p) 0 ⦄.
Proof.
  intros Hp. unfold hoare. iIntros "(%σ & %HL & H & HL)". destruct Hp as [->|[x Hx]].
  - iApply (hoare_wp_ret with "H"); [by apply free_null_spec|]. iIntros (_u) "H". iExists L. iSplit; [iPureIntro; apply step_free_null|].
    iExists σ. by iFrame.
  - rewrite (blocks_take L p _ x Hx). iDestruct "HL" as "[Hb HL]".
    assert (handed σ p Heap (size_of x)) as Hh by (apply HL; by exists x).
    iApply (hoare_wp_ret with "[H Hb]"); [by apply (free_spec ks kn us un Hlayout)|iFrame|]. iIntros (_u) "(%σ' & %Hg & H)".
    iExists (base.delete p L). iSplit; [iPureIntro; by eapply step_free|]. iExists σ'. iFrame. iPureIntro. by eapply matches_delete.
Qed.

Lemma realloc_refines_step L p n : call_ok L (Realloc p n) → ⦃ alloc_rep L ⦄ realloc p n ⦃ r, exec_post L (Realloc p n) r ⦄.
Proof.
  intros [Hp Hn]. destruct (decide (n = 0)) as [->|Hn0].
  { unfold hoare, realloc. rewrite bool_decide_true //. iIntros "H". wp_focus.
    iApply (hoare_wp_ret with "H"); [by apply free_refines_step|]. iIntros (_u) "(%L' & %Hstep & H)". iApply wp_ret. iExists L'. iFrame.
    iPureIntro. inversion Hstep; subst; [by eapply step_realloc_free|apply step_realloc_nothing]. }
  destruct (decide (p = 0)) as [->|Hp0].
  { unfold hoare, realloc. rewrite bool_decide_false //. iIntros "H". wp_focus.
    iApply (hoare_wp_ret with "H"); [by apply malloc_refines_step|]. rewrite (bool_decide_false (0 ≠ 0)); [|tauto]. cbn [andb].
    iIntros (r) "[[%Hr H]|(%bs & %Hr & H)]"; wp_finish; iExists _; iFrame; iPureIntro.
    - destruct Hr as [-> [|Hfull]]; [done|]. by apply step_realloc_null.
    - destruct Hr as (_ & Hs & Hnew). by apply step_realloc_new. }
  destruct Hp as [|[x Hx]]; [done|]. unfold hoare. iIntros "(%σ & %HL & H & HL)".
  assert (handed σ p Heap (size_of x)) as Hh by (apply HL; by exists x).
  rewrite (blocks_take L p _ x Hx). iDestruct "HL" as "[Hb HL]". iDestruct (block_pure with "Hb") as %(Hpos & _).
  iApply (hoare_wp_ret with "[H Hb]"); [apply (realloc_spec ks kn us un Hlayout σ p x n); [done|done|lia]|iFrame|].
  iIntros (r) "[(%Hf & H & Hb)|(%σ' & %bs & %Hr & H & Hb)]".
  - iDestruct (null_rep σ L n r HL Hf with "[$H Hb HL]") as "[%Hnull H]"; [rewrite (blocks_take L p _ x Hx); iFrame|].
    destruct Hnull as [-> [|Hfull]]; [done|]. iExists L. iFrame. iPureIntro. by apply step_realloc_null.
  - destruct Hr as (Hr & Hs & Hg & Hnew & Hap & Hsl).
    iDestruct (rep_swap σ σ' L p x r bs with "[$H $HL $Hb]") as "[%Hnb H]"; [done..|]. iExists _. iFrame. iPureIntro. by eapply step_realloc.
Qed.
Lemma get_pages_refines_step L flags cnt : call_ok L (GetPages flags cnt) →
  ⦃ alloc_rep L ⦄ palloc_get_multiple flags cnt ⦃ r, exec_post L (GetPages flags cnt) r ⦄.
Proof.
  intros [Hc Hf]. unfold hoare. iIntros "(%σ & %HL & H & HL)".
  iApply (hoare_wp_ret with "H"); [by apply (get_pages_spec ks kn us un Hlayout)|].
  iIntros (r) "[[%Hr H]|(%σ' & %bs & %Hr & H & Hb)]".
  - destruct Hr as [-> Hr]. iDestruct (inv_pure with "H") as %[Hwf Hbusy]. iExists L. iSplit; [|iExists σ; by iFrame].
    iPureIntro. apply step_get_pages_null. destruct Hr as [|Hr]; [by left|right]. unfold pages_short in Hr.
    destruct (flag flags PAL_USER); by eapply no_room_full.
  - destruct Hr as (Hr & Hg & Hs & Hz). iDestruct (inv_pure with "H") as %[Hwf _].
    iDestruct (rep_insert σ σ' L r with "[$H $HL $Hb]") as "[%Hnew H]"; [done..|].
    assert (0 < size_of bs) as Hpos by (apply (handed_pos ks kn us un σ' r (Paged cnt)); [done|]; apply Hg; by left).
    iExists _. iFrame. iPureIntro. apply step_get_pages; [|done..]. rewrite Hs in Hpos. pg_lia.
Qed.

Lemma free_pages_refines_step L p cnt : call_ok L (FreePages p cnt) →
  ⦃ alloc_rep L ⦄ palloc_free_multiple p cnt ⦃ _u, exec_post L (FreePages p cnt) 0 ⦄.
Proof.
  intros [x Hx]. unfold hoare. iIntros "(%σ & %HL & H & HL)". rewrite (blocks_take L p _ x Hx). iDestruct "HL" as "[Hb HL]".
  assert (handed σ p (Paged cnt) (size_of x)) as Hh by (apply HL; by exists x).
  iApply (hoare_wp_ret with "[H Hb]"); [by apply (free_pages_spec ks kn us un Hlayout)|iFrame|]. iIntros (_u) "(%σ' & %Hg & H)".
  iExists (base.delete p L). iSplit; [iPureIntro; by eapply step_free_pages|]. iExists σ'. iFrame. iPureIntro. by eapply matches_delete.
Qed.

Lemma write_refines_step L a c : in_block L a → ⦃ alloc_rep L ⦄ store_byte a c ⦃ _u, exec_post L (Write a c) 0 ⦄.
Proof.
  intros (p & k & x & i & Hx & Hi & ->). unfold hoare. iIntros "(%σ & %HL & H & HL)".
  rewrite (blocks_take L p _ x Hx). iDestruct "HL" as "[Hb HL]". iApply (wp_store_byte with "Hb"); [done|]. iIntros "Hb".
  iExists _. iSplit; [iPureIntro; by eapply step_write|]. iExists σ. iFrame "H". iSplit.
  - iPureIntro. eapply matches_write; [done|done|]. rewrite size_of_splice; [done|lia|]. change (size_of [wrap_u 8 c]) with 1. lia.
  - rewrite -insert_delete_eq /blocks big_sepM_insert; [iFrame|apply lookup_delete_eq].
Qed.

Lemma read_refines_step L a : in_block L a → ⦃ alloc_rep L ⦄ load_byte a ⦃ r, exec_post L (Read a) r ⦄.
Proof.
  intros (p & k & x & i & Hx & Hi & ->). destruct (byte_at_lt i x Hi) as [c Hc]. unfold hoare. iIntros "(%σ & %HL & H & HL)".
  rewrite {1}(blocks_take L p _ x Hx). iDestruct "HL" as "[Hb HL]". iApply (wp_load_byte with "Hb"); [done|]. iIntros "Hb".
  iExists L. iSplit; [iPureIntro; by eapply step_read|]. iExists σ. iFrame "H". iSplit; [done|].
  rewrite (blocks_take L p _ x Hx). iFrame.
Qed.

(** * Programs *)

Lemma exec_refines_step L c : call_ok L c → ⦃ alloc_rep L ⦄ exec c ⦃ r, exec_post L c r ⦄.
Proof.
  intros Hok. destruct c as [n|a b|p n|p|flags cnt|p cnt|a c|a]; cbn [exec].
  - unfold hoare. iIntros "H". iApply (hoare_wp_ret with "H"); [by apply malloc_refines_step|].
    iIntros (r) "[[%Hr H]|(%bs & %Hr & H)]"; iExists _; iFrame; iPureIntro.
    + destruct Hr as [-> Hr]. by apply step_malloc_null.
    + destruct Hr as (H0 & Hs & Hnew). by apply step_malloc.
  - by apply calloc_refines_step.
  - by apply realloc_refines_step.
  - unfold hoare. iIntros "H". wp_focus. iApply (hoare_wp_ret with "H"); [by apply free_refines_step|]. iIntros (_u) "H". by iApply wp_ret.
  - by apply get_pages_refines_step.
  - unfold hoare. iIntros "H". wp_focus. iApply (hoare_wp_ret with "H"); [by apply free_pages_refines_step|].
    iIntros (_u) "H". by iApply wp_ret.
  - unfold hoare. iIntros "H". wp_focus. iApply (hoare_wp_ret with "H"); [by apply write_refines_step|]. iIntros (_u) "H". by iApply wp_ret.
  - by apply read_refines_step.
Qed.

Lemma client_refines p L : legal ks kn us un L p →
  ⦃ alloc_rep L ⦄ run_client p ⦃ t, ∃ L', ⌈asteps ks kn us un L t L'⌉ ∗ alloc_rep L' ⦄.
Proof.
  revert L. induction p as [|c k IH]; intros L Hp; unfold hoare; cbn [run_client]; iIntros "H".
  - iApply wp_ret. iExists L. iFrame. iPureIntro. constructor.
  - destruct Hp as [Hok Hk]. wp_focus. iApply (hoare_wp_ret with "H"); [by apply exec_refines_step|].
    iIntros (r) "(%L' & %Hstep & H)". wp_focus. iApply (hoare_wp_ret with "H"); [by apply IH, Hk|].
    iIntros (t) "(%L'' & %Ht & H)". iApply wp_ret. iExists L''. iFrame. iPureIntro. by econstructor.
Qed.
End refine.
