(* ===== verification/PintosAllocBoot.v ===== *)
(** The start of the memory allocators of Pintos: [palloc_init] and [malloc_init] on
    the memory that the loader leaves, and programs that run after them. *)
From S2P Require Export PintosAllocRefine.
Local Open Scope Z_scope.

Section init.
Context {ST : Statics}.
Abbreviation cell := (Z + (pool + desc))%type.

(** * [malloc_init] *)

(** A descriptor before [malloc_init]. *)
Definition raw_desc (i : Z) : hpropI cell :=
  ((desc_at i)~0 ↦ Desc 0 0 false ∗ elem (desc_at i)~1~0 ∗ elem (desc_at i)~1~1)%positive%I.

Definition ready_desc (i : Z) : hpropI cell := (desc_rep None i ∗ is_list (desc_at i)~1%positive [])%I.

Lemma desc_size_double m : 0 <= m < CLASSES → wrap_u 32 (bsize m * 2) = bsize (m + 1) ∧ bsize m < PGSIZE / 2.
Proof. intros H. destruct (class_cases m H) as [->|[->|[->|[->|[->|[->| ->]]]]]]; by vm_compute. Qed.

Lemma malloc_init_spec :
  ⦃ desc_cnt ↦ 0 ∗ [∗ list] i ∈ seqZ 0 CLASSES, raw_desc i ⦄ malloc_init
  ⦃ _u, desc_cnt ↦ CLASSES ∗ descs_rep None ∗ [∗ list] i ∈ seqZ 0 CLASSES, is_list (desc_at i)~1%positive [] ⦄.
Proof.
  unfold hoare. iIntros "[Hn H]".
  assert (∀ fuel m Ψ, 0 <= m <= CLASSES → CLASSES - m < Z.of_nat fuel →
    desc_cnt ↦ m ∗ ([∗ list] i ∈ seqZ 0 m, ready_desc i) ∗ ([∗ list] i ∈ seqZ m (CLASSES - m), raw_desc i) ⊢
    wp (loop fuel (λ block_size,
      if bool_decide (block_size < PGSIZE / 2) then
        cnt ← load (T := Z) (Some desc_cnt);
        let d := Some (desc_at cnt) in
        store (Some desc_cnt) (cnt + 1);;
        ASSERT (bool_decide (cnt + 1 <= DESC_MAX));;
        x ← get_desc d;
        set_desc d (Desc block_size ((PGSIZE - ARENA_SIZE) / block_size) false);;
        list_init (free_list d);;
        mret (inl (wrap_u 32 (block_size * 2)))
      else mret (inr tt)) (bsize m))
    (λ _u, desc_cnt ↦ CLASSES ∗ [∗ list] i ∈ seqZ 0 CLASSES, ready_desc i)%I Ψ) as Hloop.
  { induction fuel as [|fuel IH]; intros m Ψ Hm Hf; [lia|]. iIntros "(Hn & Hr & H)". iApply wp_loop.
    destruct (decide (m = CLASSES)) as [->|Hne].
    - rewrite bool_decide_false; [|by vm_compute]. wp_finish. rewrite Z.sub_diag (seqZ_nil CLASSES 0) //. iDestruct "H" as "_". iSplitL "Hn"; [iExact "Hn"|iExact "Hr"].
    - destruct (desc_size_double m ltac:(lia)) as [Hd Hlt]. rewrite bool_decide_true //.
      rewrite (seqZ_cons m); [|lia]. cbn [big_opL]. iDestruct "H" as "[(Hx & Hh & Ht) H]".
      wp_load "Hn". wp_store "Hn". wp_focus. iApply wp_ASSERT. rewrite bool_decide_true; [|unfold CLASSES, DESC_MAX in *; lia].
      unfold get_desc, set_desc. wp_load "Hx". wp_store "Hx".
      wp_focus. iApply (hoare_wp_ret with "[Hh Ht]"); [apply (list_init_spec (desc_at m)~1%positive)|iFrame|]. iIntros (_u) "Hl". wp_finish.
      rewrite Hd. iApply (IH (m + 1)); [lia|lia|]. iFrame "Hn".
      replace (Z.pred (CLASSES - m)) with (CLASSES - (m + 1)) by lia. replace (Z.succ m) with (m + 1) by lia. iFrame "H".
      rewrite (seqZ_app 0 m 1); [|lia..]. rewrite big_sepL_app (seqZ_cons (0 + m) 1) // (seqZ_nil _ (Z.pred 1)) //=. iFrame. }
  iApply (wp_wand with "[Hn H]").
  { iApply (Hloop 32%nat 0 with "[Hn H]"); [unfold CLASSES; lia|unfold CLASSES; lia|]. rewrite (seqZ_nil 0 0) // (Z.sub_0_r CLASSES). iSplitL "Hn"; [iExact "Hn"|]. iSplitR; [done|iExact "H"]. }
  iSplit; [|iIntros (e) "[]"]. iIntros (_u) "[$ H]". unfold ready_desc. by rewrite big_sepL_sep.
Qed.

(** * Both allocators *)

(** The start of [main] in init.c, as far as memory is concerned. *)
Definition boot (end_ ram_pages user_page_limit : Z) : M (gmap loc cell) unit :=
  palloc_init end_ ram_pages user_page_limit;; malloc_init.

Context (end_ ram_pages limit s kn un : Z) (Hboot : boot_ok end_ ram_pages limit s kn un).
Abbreviation ks := (s + bm_pages kn).
Abbreviation us := (s + kn + bm_pages un).
Abbreviation kc := (kn - bm_pages kn).
Abbreviation uc := (un - bm_pages un).

Lemma boot_layout : layout_ok ks kc us uc.
Proof.
  destruct Hboot as [(He & He' & Hs) (Hr & Hsum & Hlt) (Hun & Hu0 & Hk0) [Hbk Hbu]].
  assert (0 <= bm_pages kn) by (rewrite bm_pages_eq; [div_lia|unfold PHYS_BASE in *; pg_lia]).
  assert (0 <= bm_pages un) by (rewrite bm_pages_eq; [div_lia|unfold PHYS_BASE in *; pg_lia]).
  unfold layout_ok. unfold PHYS_BASE in *. pg_lia.
Qed.

Lemma boot_spec bs : size_of bs = PGSIZE * (kn + un) →
  ⦃ kernel_pool ↦ Pool false (Bitmap 0 []) 0 ∗ user_pool ↦ Pool false (Bitmap 0 []) 0 ∗ desc_cnt ↦ 0 ∗
    ([∗ list] i ∈ seqZ 0 CLASSES, raw_desc i) ∗ block (PGSIZE * s) bs ⦄
  boot end_ ram_pages limit
  ⦃ _u, alloc_rep ks kc us uc ∅ ⦄.
Proof.
  intros Hbs. unfold hoare, boot. iIntros "(Hk & Hu & Hn & Hd & Hb)". wp_focus.
  iApply (hoare_wp_ret with "[Hk Hu Hb]"); [by eapply palloc_init_spec|iFrame|]. iIntros (_u) "Hp".
  iApply (hoare_wp_ret with "[Hn Hd]"); [by apply malloc_init_spec|iFrame|]. iIntros (_u') "(Hn & Hd & Hl)".
  iExists ∅. iSplit.
  { iPureIntro. intros a k n. split; [by intros (j & c & ? & _)|by intros (x & ? & _)]. }
  iSplitL; [|unfold blocks; by rewrite big_sepM_empty]. iFrame "Hn Hd".
  change (covered ∅) with (∅ : gset Z). iFrame "Hp". unfold chunks. rewrite big_sepM_empty right_id. iSplit; [by iPureIntro|].
  iApply (big_sepL_mono with "Hl"). intros k i _. iIntros "Hl". iExists []. by iFrame.
Qed.
End init.
