(* ===== verification/PintosAllocRuns.v ===== *)
(** Programs that use the memory allocators of Pintos, from the start of the kernel:
    what they get is what the abstract allocator gives. *)
From S2P Require Export PintosAllocBoot.
Local Open Scope Z_scope.

Section heap.
Context {ST : Statics}.
Abbreviation cell := (Z + (pool + desc))%type.

(** * Memory at the start *)

(** The cells of the static variables, which are zero. *)
Definition desc_cells (i : Z) : list (loc * cell) :=
  let l := (desc_at i)~1%positive in
  [((desc_at i)~0, pack (Desc 0 0 false)); (l~0~0, pack NULL); (l~0~1, pack NULL); (l~1~0, pack NULL); (l~1~1, pack NULL)]%positive.
Definition static_cells : list (loc * cell) :=
  (kernel_pool, pack (Pool false (Bitmap 0 []) 0)) :: (user_pool, pack (Pool false (Bitmap 0 []) 0)) :: (desc_cnt, pack 0) ::
  (seqZ 0 CLASSES ≫= desc_cells).
(** The descriptors that [malloc_init] leaves as they are. *)
Definition spare_cells : list (loc * cell) := seqZ CLASSES (DESC_MAX - CLASSES) ≫= desc_cells.

(** The words of memory from address [a] on. *)
Fixpoint ram_cells (a : Z) (ws : list Z) : list (loc * cell) :=
  match ws with
  | [] => []
  | w :: ws => (loc_of a, pack w) :: ram_cells (a + 4) ws
  end.

(** The static variables, and memory with the words [ws] from page [s] on. *)
Definition boot_heap (s : Z) (ws : list Z) : gmap loc cell :=
  list_to_map (static_cells ++ ram_cells (PGSIZE * s) ws) ∪ list_to_map spare_cells.

(** The static variables are in different places, below the memory. *)
Definition statics_ok : Prop :=
  NoDup (static_cells ++ spare_cells).*1 ∧ Forall (λ l, Z.pos l <= PHYS_BASE / 4) (static_cells ++ spare_cells).*1.

Lemma own_cells (l : list (loc * cell)) : NoDup l.*1 → hprop_holds ([∗ list] kv ∈ l, kv.1 ↦ kv.2)%I (list_to_map l).
Proof.
  induction l as [|[k v] l IH]; intros Hl; [done|]. apply NoDup_cons in Hl as [Hk Hl]. cbn [list_to_map foldr].
  exists {[k := v]}, (list_to_map l). rewrite insert_union_singleton_l. split; [done|]. split; [|split; [done|by apply IH]].
  apply map_disjoint_singleton_l. by apply not_elem_of_list_to_map.
Qed.

Lemma ram_block a ws : 0 < a → a mod 4 = 0 → ([∗ list] kv ∈ ram_cells a ws, kv.1 ↦ kv.2) ⊢ block a (words_bytes ws).
Proof.
  revert a. induction ws as [|w ws IH]; intros a Ha Ha4; cbn [ram_cells big_opL].
  { iIntros "_". unfold block. by iSplit. }
  change (words_bytes (w :: ws)) with (le_split 4 w ++ words_bytes ws).
  rewrite block_app; [|done..|by rewrite size_of_le_split|rewrite size_of_words; div_lia].
  rewrite size_of_le_split block_word //. iIntros "[Hw H]". iSplitL "Hw".
  - iExists w. by iFrame.
  - iApply IH; [lia|div_lia|done].
Qed.

Lemma ram_locs a ws l : 0 < a → a mod 4 = 0 → l ∈ (ram_cells a ws).*1 → a / 4 < Z.pos l.
Proof.
  revert a. induction ws as [|w ws IH]; intros a Ha Ha4 Hl; [by apply not_elem_of_nil in Hl|].
  apply elem_of_cons in Hl as [->|Hl]; [cbn [fst]; unfold loc_of; rewrite Z2Pos.id; div_lia|].
  specialize (IH (a + 4) ltac:(lia) ltac:(div_lia) Hl). div_lia.
Qed.

Lemma ram_nodup a ws : 0 < a → a mod 4 = 0 → NoDup (ram_cells a ws).*1.
Proof.
  revert a. induction ws as [|w ws IH]; intros a Ha Ha4; [constructor|]. cbn [ram_cells fmap list_fmap]. constructor.
  - intros Hl%ram_locs; [|lia|div_lia]. cbn [fst] in Hl. unfold loc_of in Hl. rewrite Z2Pos.id in Hl; div_lia.
  - apply IH; [lia|div_lia].
Qed.

Lemma desc_cells_raw i : ([∗ list] kv ∈ desc_cells i, kv.1 ↦ kv.2) ⊢ raw_desc i.
Proof.
  unfold desc_cells. cbn [big_opL]. iIntros "(H1 & H2 & H3 & H4 & H5 & _)". iSplitL "H1"; [iExact "H1"|].
  iSplitL "H2 H3"; iExists NULL, NULL; [iSplitL "H2"; [iExact "H2"|iExact "H3"]|iSplitL "H4"; [iExact "H4"|iExact "H5"]].
Qed.

(** * Programs *)

Context (end_ ram_pages limit s kn un : Z) (ws : list Z).
Abbreviation ks := (s + bm_pages kn).
Abbreviation us := (s + kn + bm_pages un).
Abbreviation kc := (kn - bm_pages kn).
Abbreviation uc := (un - bm_pages un).

(** The memory of the machine. *)
Record machine_ok : Prop := {
  machine_boot : boot_ok end_ ram_pages limit s kn un;
  machine_statics : statics_ok;
  machine_words : Z.of_nat (length ws) = PGSIZE / 4 * (kn + un);
}.
Hypothesis Hm : machine_ok.

Lemma start_page : PHYS_BASE < PGSIZE * s.
Proof. destruct (machine_boot Hm) as [(He & He' & ->) _ _ _]. unfold PHYS_BASE in *. pg_lia. Qed.

Definition at_start : hpropI cell :=
  (kernel_pool ↦ Pool false (Bitmap 0 []) 0 ∗ user_pool ↦ Pool false (Bitmap 0 []) 0 ∗ desc_cnt ↦ 0 ∗
   ([∗ list] i ∈ seqZ 0 CLASSES, raw_desc i) ∗ block (PGSIZE * s) (words_bytes ws))%I.

Lemma boot_heap_holds :
  hprop_holds at_start (list_to_map (static_cells ++ ram_cells (PGSIZE * s) ws)) ∧
  list_to_map (static_cells ++ ram_cells (PGSIZE * s) ws) ##ₘ (list_to_map spare_cells : gmap loc cell).
Proof.
  pose proof start_page as Hs. unfold PHYS_BASE in Hs. destruct (machine_statics Hm) as [Hnd Hlow]. rewrite fmap_app in Hnd, Hlow.
  apply NoDup_app in Hnd as (Hnd1 & Hnd & Hnd2). apply Forall_app in Hlow as [Hlow1 Hlow2]. rewrite !Forall_forall in Hlow1, Hlow2.
  assert (∀ l, l ∈ (ram_cells (PGSIZE * s) ws).*1 → PHYS_BASE / 4 < Z.pos l) as Hram.
  { intros l Hl%ram_locs; [|pg_lia..]. unfold PHYS_BASE. pg_lia. }
  split.
  - refine (entails_holds _ _ _ _ (own_cells _ _)).
    + rewrite big_sepL_app. unfold static_cells. cbn [big_opL]. rewrite big_sepL_bind. iIntros "[(H1 & H2 & H3 & H4) H5]".
      iSplitL "H1"; [iExact "H1"|]. iSplitL "H2"; [iExact "H2"|]. iSplitL "H3"; [iExact "H3"|].
      iSplitL "H4"; [iApply (big_sepL_mono with "H4"); intros; apply desc_cells_raw|]. iApply (ram_block with "H5"); pg_lia.
    + rewrite fmap_app. apply NoDup_app. split; [done|]. split; [|apply ram_nodup; pg_lia].
      intros l Hl Hl'%Hram. specialize (Hlow1 l Hl). simpl in Hlow1. lia.
  - apply map_disjoint_list_to_map_l. rewrite Forall_forall. intros [l c] Hl. apply not_elem_of_list_to_map. intros Hl'.
    apply (list_elem_of_fmap_2 fst) in Hl. cbn [fst] in Hl.
    rewrite fmap_app in Hl. apply elem_of_app in Hl as [Hl|Hl%Hram]; [by eapply Hnd|]. specialize (Hlow2 l Hl'). simpl in Hlow2. lia.
Qed.

(** A page that is marked as used in the bitmap of its pool. *)
Definition page_used (h : gmap loc cell) (j : Z) : Prop :=
  ∃ p x, p ∈ [kernel_pool; user_pool] ∧ h !! p = Some (pack (x : pool)) ∧
    base x / PGSIZE <= j < base x / PGSIZE + bit_cnt (used_map x) ∧ bit (used_map x) (j - base x / PGSIZE) = true.

Lemma alloc_rep_pools L : alloc_rep ks kc us uc L ⊢ ∃ σ kb ub,
  ⌈wf ks kc us uc σ ∧ busy σ ∧ matches σ L ∧ pool_ok kb ks kc (covered σ) ∧ pool_ok ub us uc (covered σ)⌉ ∗
  kernel_pool ↦ Pool false kb (PGSIZE * ks) ∗ user_pool ↦ Pool false ub (PGSIZE * us) ∗ True.
Proof.
  iIntros "(%σ & %HL & (%Hσ & ((%kb & %Hkb & Hk & Hkf) & (%ub & %Hub & Hu & Huf)) & H) & Hb)". destruct Hσ as [Hwf Hbusy].
  iExists σ, kb, ub. iFrame "Hk Hu". iSplit; [by iPureIntro|done].
Qed.

Lemma pool_page_used (x : pool) b s' n C j : x = Pool false b (PGSIZE * s') → pool_ok b s' n C →
  base x / PGSIZE <= j < base x / PGSIZE + bit_cnt (used_map x) ∧ bit (used_map x) (j - base x / PGSIZE) = true ↔
  s' <= j < s' + n ∧ j ∈ C.
Proof.
  intros -> [_ Hn Hbit _ _]. cbn [base used_map]. replace (PGSIZE * s' / PGSIZE) with s' by pg_lia. rewrite Hn.
  split; intros [Hj Hb]; (split; [done|]); rewrite (Hbit (j - s')) in Hb |- *; try lia;
    replace (s' + (j - s')) with j in * by lia; [by apply bool_decide_eq_true in Hb|by apply bool_decide_eq_true].
Qed.

Lemma used_pages L h hf : hprop_holds (alloc_rep ks kc us uc L) h → h ##ₘ hf → ∀ j, page_used (h ∪ hf) j ↔ touched L j.
Proof.
  intros (σ & kb & ub & HH)%(entails_holds _ _ (alloc_rep_pools L)) Hd j.
  destruct HH as (h1 & h2 & -> & _ & [-> Hσ] & (h3 & h4 & -> & Hd1 & ->%points_to_holds & (h5 & h6 & -> & Hd2 & ->%points_to_holds & _))).
  destruct Hσ as (Hwf & Hbusy & HL & Hkb & Hub). rewrite left_id_L. rewrite -(covered_touched ks kc us uc σ) //.
  set (h := {[kernel_pool := _]} ∪ _ ∪ hf).
  assert (h !! kernel_pool = Some (pack (Pool false kb (PGSIZE * ks)))) as Hlk by (unfold h; rewrite -assoc_L; apply union_singleton_lookup).
  assert (h !! user_pool = Some (pack (Pool false ub (PGSIZE * us)))) as Hlu.
  { unfold h. rewrite -assoc_L lookup_union_r; [rewrite -assoc_L; apply union_singleton_lookup|].
    rewrite lookup_singleton_None. intros E. apply map_disjoint_singleton_l in Hd1. by rewrite E union_singleton_lookup in Hd1. }
  split.
  - intros (p & x & Hp & Hx & Hpage). rewrite !elem_of_cons in Hp. destruct Hp as [->|[->|Hp]]; [| |by apply not_elem_of_nil in Hp].
    + rewrite Hlk in Hx. injection Hx as Hx. by apply (pool_page_used x kb _ _ _ j (eq_sym Hx) Hkb).
    + rewrite Hlu in Hx. injection Hx as Hx. by apply (pool_page_used x ub _ _ _ j (eq_sym Hx) Hub).
  - intros Hj. pose proof Hj as (j' & c & Hc & Hj')%elem_of_covered. destruct (wf_chunk _ _ _ _ σ Hwf j' c Hc) as [_ [Hin|Hin]].
    + exists kernel_pool, (Pool false kb (PGSIZE * ks)). split; [apply elem_of_cons; by left|]. split; [done|].
      apply (pool_page_used _ kb _ _ _ j eq_refl Hkb). split; [lia|done].
    + exists user_pool, (Pool false ub (PGSIZE * us)). split; [apply elem_of_cons; right; apply list_elem_of_singleton; done|]. split; [done|].
      apply (pool_page_used _ ub _ _ _ j eq_refl Hub). split; [lia|done].
Qed.

(** Start-up, and then a program. *)
Lemma boot_ready : ⦃ at_start ⦄ boot end_ ram_pages limit ⦃ _u, alloc_rep ks kc us uc ∅ ⦄.
Proof.
  apply boot_spec; [apply (machine_boot Hm)|]. rewrite size_of_words (machine_words Hm). change (PGSIZE / 4) with 1024. pg_lia.
Qed.

Lemma boot_client p : legal ks kc us uc ∅ p →
  ⦃ at_start ⦄ (boot end_ ram_pages limit;; run_client p) ⦃ t, ∃ L', ⌈asteps ks kc us uc ∅ t L'⌉ ∗ alloc_rep ks kc us uc L' ⦄.
Proof.
  intros Hp. unfold hoare. iIntros "H". wp_focus. iApply (hoare_wp_ret with "H"); [by apply boot_ready|]. iIntros (_u) "H".
  iApply (hoare_wp_ret with "H"); [apply client_refines; [|done]; eapply boot_layout, (machine_boot Hm)|]. by iIntros (t) "H".
Qed.

(** A run of a triple for the memory at the start. *)
Lemma boot_run {A} P (m : M (gmap loc cell) A) Q :
  hprop_holds P (list_to_map (static_cells ++ ram_cells (PGSIZE * s) ws)) → ⦃ P ⦄ m ⦃ a, Q a ⦄ →
  ∃ a h', m (boot_heap s ws) = Ret a (h' ∪ list_to_map spare_cells) ∧ h' ##ₘ list_to_map spare_cells ∧ hprop_holds (Q a) h'.
Proof.
  unfold boot_heap. destruct boot_heap_holds as [_ Hd]. revert Hd.
  generalize (list_to_map (M := gmap loc cell) (static_cells ++ ram_cells (PGSIZE * s) ws)) as h.
  generalize (list_to_map (M := gmap loc cell) spare_cells) as hf. intros hf h Hd HP Hrun.
  pose proof (hoare_run _ _ _ _ h hf Hrun HP Hd) as H.
  destruct (m (h ∪ hf)) as [a h2|e h2| | |]; [|by destruct H as (h' & _ & _ & [])|done..].
  destruct H as (h' & -> & Hd' & HQ). by exists a, h'.
Qed.

Lemma client_runs p : legal ks kc us uc ∅ p → ∃ t h L',
  (boot end_ ram_pages limit;; run_client p) (boot_heap s ws) = Ret t h ∧ asteps ks kc us uc ∅ t L' ∧
  ∀ j, page_used h j ↔ touched L' j.
Proof.
  intros Hp. destruct boot_heap_holds as [HP _]. destruct (boot_run _ _ _ HP (boot_client p Hp)) as (t & h' & Hrun & Hd & HQ).
  destruct HQ as (L' & h1 & h2 & -> & _ & [-> Ht] & HL'). rewrite left_id_L in Hrun, Hd. exists t, (h2 ∪ list_to_map spare_cells), L'.
  split; [done|]. split; [done|]. by apply used_pages.
Qed.
(** * Sizes that wrap around *)

(** With the header the size is no longer a size. *)
Lemma overflow_pages size : 2 ^ 32 - 11 <= size < 2 ^ 32 → DIV_ROUND_UP (wrap_u 32 (size + ARENA_SIZE)) PGSIZE = 1.
Proof.
  intros Hs. change ARENA_SIZE with 12. unfold DIV_ROUND_UP, wrap_u. change PGSIZE with 4096.
  replace ((size + 12) mod 2 ^ 32) with (size + 12 - 2 ^ 32) by div_lia. rewrite Z.mod_small; div_lia.
Qed.

Lemma malloc_overflow_run size : 2 ^ 32 - 11 <= size < 2 ^ 32 → 0 < kc →
  ⦃ alloc_rep ks kc us uc ∅ ⦄ malloc size
  ⦃ p, ∃ j bs, ⌈p = (PGSIZE * j + ARENA_SIZE)%Z ∧ 0 < j ∧ size_of bs = PGSIZE - ARENA_SIZE⌉ ∗ alloc_rep ks kc us uc {[p := (Heap, bs)]} ⦄.
Proof.
  intros Hs Hkc. pose proof (boot_layout _ _ _ _ _ _ (machine_boot Hm)) as Hlayout. unfold hoare, malloc.
  rewrite bool_decide_false; [|lia]. iIntros "(%σ & %HL & (Hσ & Hp & Hn & Hd & H) & Hblocks)". wp_load "Hn".
  wp_focus. iApply (wp_find_desc with "Hd"). iIntros (i) "%Hi Hd".
  assert (i = CLASSES) as -> by (destruct Hi as [[-> _]|[Hi Hle]]; [done|]; destruct (class_sizes i Hi); lia). rewrite bool_decide_true //.
  iCombine "Hσ Hp Hn Hd H" as "H". iDestruct (inv_pure with "H") as %[Hwf Hbusy].
  iApply (hoare_wp_ret with "H"); [apply (malloc_big_run _ _ _ _ Hlayout σ size 1); [by rewrite overflow_pages|lia]|].
  iIntros (p) "[[%Hno H]|(%j & %bs & %Hr & H & Hb)]".
  - exfalso. destruct Hno as [_ [|Hno]]; [done|]. destruct (Hno ks) as (q & Hq & HC); [lia|lia|].
    apply (covered_touched ks kc us uc σ ∅) in HC as (a & kx & Ha & _); [by rewrite lookup_empty in Ha|done..].
  - destruct Hr as (-> & Hj0 & _ & Hwf' & Hj & Hbs). rewrite Z.mul_1_r in Hbs. iExists j, bs. iSplit; [done|].
    assert (grows σ (PGSIZE * j + ARENA_SIZE) Heap (size_of bs) (<[j := Big 1]> σ)) as Hg.
    { eapply grows_insert; [done|done|done|]. intros a' k' n'. rewrite Hbs. split; [inversion 1; subst; by rewrite Z.mul_1_r|].
      intros (-> & -> & ->). rewrite -{2}(Z.mul_1_r PGSIZE). constructor. }
    iDestruct (rep_insert _ _ _ _ σ _ ∅ with "[$H $Hblocks $Hb]") as "[_ H]"; [done|done| |by rewrite insert_empty].
    change ARENA_SIZE with 12. pg_lia.
Qed.
Lemma boot_overflow size : 2 ^ 32 - 11 <= size < 2 ^ 32 → 0 < kc →
  ⦃ at_start ⦄ (boot end_ ram_pages limit;; malloc size)
  ⦃ p, ∃ j bs, ⌈p = (PGSIZE * j + ARENA_SIZE)%Z ∧ 0 < j ∧ size_of bs = PGSIZE - ARENA_SIZE⌉ ∗ alloc_rep ks kc us uc {[p := (Heap, bs)]} ⦄.
Proof.
  intros Hs Hkc. unfold hoare. iIntros "H". wp_focus. iApply (hoare_wp_ret with "H"); [by apply boot_ready|]. iIntros (_u) "H".
  iApply (hoare_wp_ret with "H"); [by apply malloc_overflow_run|]. by iIntros (p) "H".
Qed.
End heap.

(** * Properties *)

Section properties.
Context {ST : Statics} (end_ ram_pages limit s kn un : Z) (ws : list Z).
Abbreviation ks := (s + bm_pages kn).
Abbreviation us := (s + kn + bm_pages un).
Abbreviation kc := (kn - bm_pages kn).
Abbreviation uc := (un - bm_pages un).

(** C10: From any start of the machine, a program that calls the allocators of malloc.c and palloc.c
    and accesses only the blocks it has returns: no assertion of the kernel fails,
    no memory is accessed wrongly, and every result is one of the abstract
    allocator. *)
Theorem alloc_refines p :
  machine_ok end_ ram_pages limit s kn un ws → legal ks kc us uc ∅ p → ∃ t h L',
  (boot end_ ram_pages limit;; run_client p) (boot_heap s ws) = Ret t h ∧ asteps ks kc us uc ∅ t L'.
Proof. intros Hm Hp. destruct (client_runs _ _ _ _ _ _ _ Hm p Hp) as (t & h & L' & Hrun & Ht & _). by exists t, h, L'. Qed.

(** C11: After any such program no two blocks in use have a byte in common, and the bitmaps of the page
    allocator have exactly the pages in which there is a byte of a block in use:
    nothing is lost when a block is given back. *)
Theorem alloc_pages p :
  machine_ok end_ ram_pages limit s kn un ws → legal ks kc us uc ∅ p → ∃ t h L',
  (boot end_ ram_pages limit;; run_client p) (boot_heap s ws) = Ret t h ∧ asteps ks kc us uc ∅ t L' ∧
  all_apart L' ∧ ∀ j, page_used h j ↔ touched L' j.
Proof.
  intros Hm Hp. destruct (client_runs _ _ _ _ _ _ _ Hm p Hp) as (t & h & L' & Hrun & Ht & Hused).
  exists t, h, L'. split; [done|]. split; [done|]. split; [|done]. by eapply asteps_apart.
Qed.

(** C12: [malloc] of a size that the header takes past [SIZE_MAX] does not fail: it returns a block of
    one page. *)
Theorem malloc_overflow size :
  machine_ok end_ ram_pages limit s kn un ws → 0 < kc → 2 ^ 32 - 11 <= size < 2 ^ 32 → ∃ p h j,
  (boot end_ ram_pages limit;; malloc size) (boot_heap s ws) = Ret p h ∧ p = PGSIZE * j + ARENA_SIZE ∧ 0 < j ∧
  ∀ j', page_used h j' ↔ j' = j.
Proof.
  intros Hm Hkc Hs. destruct (boot_heap_holds _ _ _ _ _ _ _ Hm) as [HP _].
  destruct (boot_run _ _ _ _ _ _ _ Hm _ _ _ HP (boot_overflow _ _ _ _ _ _ _ Hm size Hs Hkc)) as (p & h' & Hrun & Hd & HQ).
  destruct HQ as (j & bs & h1 & h2 & -> & _ & [-> Hp] & HL'). rewrite left_id_L in Hrun, Hd. destruct Hp as (Hp & Hj & Hbs).
  exists p, (h2 ∪ list_to_map spare_cells), j. split; [done|]. split; [done|]. split; [done|]. intros j'.
  rewrite (used_pages _ _ _ _ _ _ HL' Hd j') Hp. unfold touched. rewrite map_Exists_singleton. cbn [snd]. rewrite Hbs.
  change ARENA_SIZE with 12. pg_lia.
Qed.
End properties.

(** * Concrete runs *)

Module Runs.

#[local] Instance statics : Statics := {| kernel_pool := 1; user_pool := 2; desc_cnt := 3; descs := 16 |}%positive.

(** A machine of nine pages above the page of the kernel. *)
Definition words : list Z := replicate (Z.to_nat 8192) 0.
Lemma small_machine : machine_ok (PHYS_BASE + 1) 9 (2 ^ 32 - 1) 786433 4 4 words.
Proof.
  split.
  - split; vm_compute; split_and?; congruence.
  - split; apply (bool_decide_unpack _); by vm_compute.
  - by rewrite length_replicate.
Qed.

(** A program that gets a block, uses it, makes it larger and gives it back. *)
Definition user : client :=
  Call (Malloc 100) (λ p, if bool_decide (p = 0) then Stop else
  Call (Write (p + 99) 7) (λ _, Call (Realloc p 2000) (λ q, if bool_decide (q = 0) then Call (Free p) (λ _, Stop) else
  Call (Read (q + 99)) (λ _, Call (Free q) (λ _, Stop))))).

Lemma free_legal ks kn us un L p : is_block L p → legal ks kn us un L (Call (Free p) (λ _, Stop)).
Proof. intros H. split; [by right|done]. Qed.

Lemma write_block ks kn us un L a c r L' p : astep ks kn us un L (Write a c) r L' → is_block L p → is_block L' p.
Proof.
  inversion 1 as [| | | | | | | | | | | | | |q k x i ? Hq Hi|]; subst. intros [y Hy]. unfold is_block.
  destruct (decide (q = p)) as [->|Hne]; [|exists y; by rewrite lookup_insert_ne].
  rewrite Hq in Hy. injection Hy as -> ->. eexists. apply lookup_insert_eq.
Qed.

Lemma user_legal ks kn us un : legal ks kn us un ∅ user.
Proof.
  split; [cbn; lia|]. intros p L1 H1. case_bool_decide as Hp; [done|].
  inversion H1 as [? ? bs _ Hbs Hnew| | | | | | | | | | | | | | |]; subst; [|done].
  split; [exists p, Heap, bs, 99; rewrite lookup_insert_eq; split_and!; [done|lia|lia|done]|].
  intros r L2 H2%(write_block _ _ _ _ _ _ _ _ _ p); [|eexists; apply lookup_insert_eq].
  split; [split; [by right|lia]|]. intros q L3 H3. case_bool_decide as Hq.
  - apply free_legal. subst q. inversion H3; subst; try done; match goal with H : new_block _ 0 _ |- _ => destruct (new_pos _ _ _ H); lia end.
  - inversion H3; subst; try done. split; [|intros r' L4 Hread; apply free_legal].
    + eexists q, Heap, _, 99. rewrite lookup_insert_eq. split_and!; [done|lia|lia|done].
    + inversion Hread; subst. eexists. apply lookup_insert_eq.
Qed.
Lemma alloc_refines_witness : ∃ t h L',
  (boot (PHYS_BASE + 1) 9 (2 ^ 32 - 1);; run_client user) (boot_heap 786433 words) = Ret t h ∧ asteps 786434 3 786438 3 ∅ t L'.
Proof. apply (alloc_refines _ _ _ _ _ _ _ user small_machine). apply user_legal. Defined.

Lemma alloc_pages_witness : ∃ t h L',
  (boot (PHYS_BASE + 1) 9 (2 ^ 32 - 1);; run_client user) (boot_heap 786433 words) = Ret t h ∧ asteps 786434 3 786438 3 ∅ t L' ∧
  all_apart L' ∧ ∀ j, page_used h j ↔ touched L' j.
Proof. apply (alloc_pages _ _ _ _ _ _ _ user small_machine). apply user_legal. Defined.

Lemma malloc_overflow_witness : ∃ p h j,
  (boot (PHYS_BASE + 1) 9 (2 ^ 32 - 1);; malloc (2 ^ 32 - 1)) (boot_heap 786433 words) = Ret p h ∧ p = PGSIZE * j + ARENA_SIZE ∧ 0 < j ∧
  ∀ j', page_used h j' ↔ j' = j.
Proof. apply (malloc_overflow _ _ _ _ _ _ _ (2 ^ 32 - 1) small_machine); [by vm_compute|split; by vm_compute]. Defined.

(** What the program above gets: a block of an arena, and then pages of its own. *)
Definition result {S A} (r : outcome S A) : option A := match r with Ret a _ => Some a | _ => None end.

Example user_run :
  result ((boot (PHYS_BASE + 1) 9 (2 ^ 32 - 1);; run_client user) (boot_heap 786433 words)) =
  Some [(Malloc 100, 0xc000200c); (Write 0xc000206f 7, 0); (Realloc 0xc000200c 2000, 0xc000300c); (Read 0xc000306f, 7); (Free 0xc000300c, 0)].
Proof. by vm_compute. Qed.

(** [calloc] compares the product with its factors, and 65792 * 65282 wraps around
    to 66048: a block of 17 pages. *)
Example calloc_overflow :
  result ((boot (PHYS_BASE + 1) 20 1;; p ← calloc 65792 65282; n ← block_size p; mret (p, n))
    (boot_heap 786433 (replicate (Z.to_nat (19 * 1024)) 0))) = Some (0xc000200c, 69620).
Proof. vm_cast_no_check (eq_refl (Some (0xc000200c, 69620))). Qed.
End Runs.
