(* ===== verification/PintosPagedir.v ===== *)
(** Page tables in Pintos: the entries of src/bin/OS/pintos/src/threads/pte.h, the
    page directories of userprog/pagedir.c, and [paging_init] of threads/init.c. *)
From S2P Require Export PintosPalloc.
Local Open Scope Z_scope.

(** * Page tables: pte.h *)

Definition BITMASK (SHIFT CNT : Z) : Z := Z.shiftl (Z.shiftl 1 CNT - 1) SHIFT.
Definition PTSHIFT : Z := PGBITS.
Definition PTBITS : Z := 10.
Definition PTMASK : Z := BITMASK PTSHIFT PTBITS.
Definition PDSHIFT : Z := PTSHIFT + PTBITS.

Definition pt_no (va : Z) : Z := Z.shiftr (Z.land va PTMASK) PTSHIFT.
Definition pd_no (va : Z) : Z := Z.shiftr va PDSHIFT.

Definition PTE_ADDR : Z := 0xfffff000.
Definition PTE_P : Z := 0x1.
Definition PTE_W : Z := 0x2.
Definition PTE_U : Z := 0x4.
Definition PTE_A : Z := 0x20.
Definition PTE_D : Z := 0x40.

(** Where the static variables are, and the register CR3 of the processor, with the
    number of times it was loaded: each load empties the TLB. *)
Class Paging := { base_page_dir : loc; cr3 : loc; cr3_loads : loc }.

Section pagedir.
Context {Y : Type} {ST : Statics} {PG : Paging}.
Abbreviation cell := (Z + (pool + Y))%type.
Abbreviation heap := (gmap loc cell).

Definition pde_create (pt : Z) : M heap Z :=
  ASSERT (bool_decide (pg_ofs pt = 0));;
  p ← vtop pt; mret (Z.lor (Z.lor (Z.lor p PTE_U) PTE_P) PTE_W).

Definition pde_get_pt (pde : Z) : M heap Z :=
  ASSERT (bool_decide (Z.land pde PTE_P ≠ 0));; ptov (Z.land pde PTE_ADDR).

Definition pte_create_kernel (page : Z) (writable : bool) : M heap Z :=
  ASSERT (bool_decide (pg_ofs page = 0));;
  p ← vtop page; mret (Z.lor (Z.lor p PTE_P) (if writable then PTE_W else 0)).

Definition pte_create_user (page : Z) (writable : bool) : M heap Z :=
  w ← pte_create_kernel page writable; mret (Z.lor w PTE_U).

Definition pte_get_page (pte : Z) : M heap Z := ptov (Z.land pte PTE_ADDR).

(** * Page directories: pagedir.c *)

Definition set_cr3 (w : Z) : M heap unit :=
  store (Some cr3) w;; n ← load (T := Z) (Some cr3_loads); store (Some cr3_loads) (n + 1).

Definition pagedir_activate (pd : Z) : M heap unit :=
  pd ← (if bool_decide (pd = 0) then load (T := Z) (Some base_page_dir) else mret pd);
  p ← vtop pd; set_cr3 p.

Definition active_pd : M heap Z := pd ← load (T := Z) (Some cr3); ptov pd.

Definition invalidate_pagedir (pd : Z) : M heap unit :=
  a ← active_pd; if bool_decide (a = pd) then pagedir_activate pd else mret tt.

Definition pagedir_create : M heap Z :=
  pd ← palloc_get_page 0;
  (if bool_decide (pd ≠ 0) then b ← load (T := Z) (Some base_page_dir); memcpy pd b PGSIZE;; mret tt else mret tt);;
  mret pd.

(** A loop over the [n] words from address [a] on. *)
Definition for_words (a n : Z) (body : Z → M heap unit) : M heap unit :=
  loop (S (Z.to_nat n)) (λ i,
    if bool_decide (i < n) then w ← load_word (a + 4 * i); body w;; mret (inl (i + 1)) else mret (inr tt)) 0.

(** The pages of a page table, and the table. *)
Definition destroy_pt (pde : Z) : M heap unit :=
  if bool_decide (Z.land pde PTE_P ≠ 0) then
    pt ← pde_get_pt pde;
    for_words pt (PGSIZE / 4) (λ pte,
      if bool_decide (Z.land pte PTE_P ≠ 0) then page ← pte_get_page pte; palloc_free_page page else mret tt);;
    palloc_free_page pt
  else mret tt.

Definition pagedir_destroy (pd : Z) : M heap unit :=
  if bool_decide (pd = 0) then mret tt
  else
    ASSERT_M (b ← load (T := Z) (Some base_page_dir); mret (bool_decide (pd ≠ b)));;
    for_words pd (pd_no PHYS_BASE) destroy_pt;;
    palloc_free_page pd.

(** The address of the entry, or 0. *)
Definition lookup_page (pd vaddr : Z) (create : bool) : M heap Z :=
  ASSERT (bool_decide (pd ≠ 0));;
  ASSERT (negb create || is_user_vaddr vaddr);;
  let pde := pd + 4 * pd_no vaddr in
  w ← load_word pde;
  ok ← (if bool_decide (w = 0) then
          if create then
            pt ← palloc_get_page PAL_ZERO;
            if bool_decide (pt = 0) then mret false else w ← pde_create pt; store_word pde w;; mret true
          else mret false
        else mret true);
  if (ok : bool) then w ← load_word pde; pt ← pde_get_pt w; mret (pt + 4 * pt_no vaddr) else mret 0.

Definition pagedir_set_page (ram_pages pd upage kpage : Z) (writable : bool) : M heap bool :=
  ASSERT (bool_decide (pg_ofs upage = 0));;
  ASSERT (bool_decide (pg_ofs kpage = 0));;
  ASSERT (is_user_vaddr upage);;
  ASSERT_M (p ← vtop kpage; mret (bool_decide (Z.shiftr p PTSHIFT < ram_pages)));;
  ASSERT_M (b ← load (T := Z) (Some base_page_dir); mret (bool_decide (pd ≠ b)));;
  pte ← lookup_page pd upage true;
  if bool_decide (pte ≠ 0) then
    ASSERT_M (w ← load_word pte; mret (bool_decide (Z.land w PTE_P = 0)));;
    w ← pte_create_user kpage writable; store_word pte w;; mret true
  else mret false.

Definition pagedir_get_page (pd uaddr : Z) : M heap Z :=
  ASSERT (is_user_vaddr uaddr);;
  pte ← lookup_page pd uaddr false;
  p ← (if bool_decide (pte ≠ 0) then w ← load_word pte; mret (bool_decide (Z.land w PTE_P ≠ 0)) else mret false);
  if (p : bool) then w ← load_word pte; page ← pte_get_page w; mret (page + pg_ofs uaddr) else mret 0.

Definition pagedir_clear_page (pd upage : Z) : M heap unit :=
  ASSERT (bool_decide (pg_ofs upage = 0));;
  ASSERT (is_user_vaddr upage);;
  pte ← lookup_page pd upage false;
  p ← (if bool_decide (pte ≠ 0) then w ← load_word pte; mret (bool_decide (Z.land w PTE_P ≠ 0)) else mret false);
  if (p : bool) then w ← load_word pte; store_word pte (Z.land w (wrap_u 32 (Z.lnot PTE_P)));; invalidate_pagedir pd else mret tt.

(** [pagedir_is_dirty] and [pagedir_is_accessed], for a bit of the entry. *)
Definition pte_test (bit pd vpage : Z) : M heap bool :=
  pte ← lookup_page pd vpage false;
  if bool_decide (pte ≠ 0) then w ← load_word pte; mret (bool_decide (Z.land w bit ≠ 0)) else mret false.
Definition pagedir_is_dirty : Z → Z → M heap bool := pte_test PTE_D.
Definition pagedir_is_accessed : Z → Z → M heap bool := pte_test PTE_A.

(** [pagedir_set_dirty] and [pagedir_set_accessed]. *)
Definition pte_change (bit pd vpage : Z) (value : bool) : M heap unit :=
  pte ← lookup_page pd vpage false;
  if bool_decide (pte ≠ 0) then
    w ← load_word pte;
    if value then store_word pte (Z.lor w bit)
    else store_word pte (Z.land w (wrap_u 32 (Z.lnot bit)));; invalidate_pagedir pd
  else mret tt.
Definition pagedir_set_dirty : Z → Z → bool → M heap unit := pte_change PTE_D.
Definition pagedir_set_accessed : Z → Z → bool → M heap unit := pte_change PTE_A.

(** * [paging_init]

    [start] and [end_kernel_text] are the addresses of symbols of the linker. *)

Definition paging_page (pd start end_kernel_text page pt : Z) : M heap Z :=
  vaddr ← ptov (wrap_u 32 (page * PGSIZE));
  let pde_idx := pd_no vaddr in
  let pte_idx := pt_no vaddr in
  let in_kernel_text := bool_decide (start <= vaddr) && bool_decide (vaddr < end_kernel_text) in
  w ← load_word (pd + 4 * pde_idx);
  pt ← (if bool_decide (w = 0) then
          pt ← palloc_get_page (Z.lor PAL_ASSERT PAL_ZERO);
          e ← pde_create pt; store_word (pd + 4 * pde_idx) e;; mret pt
        else mret pt);
  e ← pte_create_kernel vaddr (negb in_kernel_text); store_word (pt + 4 * pte_idx) e;;
  mret pt.

Definition paging_init (ram_pages start end_kernel_text : Z) : M heap unit :=
  pd ← palloc_get_page (Z.lor PAL_ASSERT PAL_ZERO);
  store (Some base_page_dir) pd;;
  loop (S (Z.to_nat ram_pages)) (λ '(page, pt),
    if bool_decide (page < ram_pages) then
      pt ← paging_page pd start end_kernel_text page pt; mret (inl (page + 1, pt))
    else mret (inr tt)) (0, 0);;
  b ← load (T := Z) (Some base_page_dir);
  p ← vtop b; set_cr3 p.
End pagedir.
