(* ===== verification/PintosPte.v ===== *)
(** The entries of page tables as records, and the functions of pte.h on them. *)
From S2P Require Export PintosPagedir.
Local Open Scope Z_scope.

(** * Words of a page number and flags *)

Lemma page_testbit q c n : 0 <= c < 4096 → 0 <= n →
  Z.testbit (4096 * q + c) n = if decide (n < 12) then Z.testbit c n else Z.testbit q (n - 12).
Proof.
  intros Hc Hn. case_decide as H.
  - rewrite -(Z.mod_pow2_bits_low (4096 * q + c) 12 n); [|lia]. f_equal. change (2 ^ 12) with 4096. div_lia.
  - replace q with ((4096 * q + c) / 2 ^ 12) at 2 by (change (2 ^ 12) with 4096; div_lia).
    rewrite Z.div_pow2_bits; [|lia..]. f_equal. lia.
Qed.

Lemma flag_testbit c n : 0 <= c < 4096 → 12 <= n → Z.testbit c n = false.
Proof. intros Hc Hn. rewrite -(Z.add_0_l c) -(Z.mul_0_r 4096) page_testbit; [|lia..]. case_decide; [lia|]. apply Z.bits_0. Qed.

Lemma flag_bound x : (∀ n, 12 <= n → Z.testbit x n = false) → 0 <= x < 4096.
Proof.
  intros H. assert (x = x mod 2 ^ 12) as ->; [|apply Z.mod_pos_bound; lia]. apply Z.bits_inj'. intros n Hn.
  destruct (decide (n < 12)); [by rewrite Z.mod_pow2_bits_low|]. rewrite Z.mod_pow2_bits_high; [apply H|]; lia.
Qed.
Lemma lor_bound c m : 0 <= c < 4096 → 0 <= m < 4096 → 0 <= Z.lor c m < 4096.
Proof. intros Hc Hm. apply flag_bound. intros n Hn. by rewrite Z.lor_spec !flag_testbit. Qed.
Lemma land_bound c m : 0 <= c < 4096 → 0 <= Z.land c m < 4096.
Proof. intros Hc. apply flag_bound. intros n Hn. by rewrite Z.land_spec flag_testbit. Qed.

Lemma land_flag q c m : 0 <= c < 4096 → 0 <= m < 4096 → Z.land (4096 * q + c) m = Z.land c m.
Proof.
  intros Hc Hm. apply Z.bits_inj'. intros n Hn. rewrite !Z.land_spec page_testbit //. case_decide; [done|].
  rewrite (flag_testbit m n) //; [|lia]. by rewrite !andb_false_r.
Qed.

Lemma lor_flag q c m : 0 <= c < 4096 → 0 <= m < 4096 → Z.lor (4096 * q + c) m = 4096 * q + Z.lor c m.
Proof.
  intros Hc Hm. pose proof (lor_bound c m Hc Hm) as Hl.
  apply Z.bits_inj'. intros n Hn. rewrite Z.lor_spec !page_testbit //. case_decide; [by rewrite Z.lor_spec|].
  rewrite (flag_testbit m n) //; [|lia]. by rewrite orb_false_r.
Qed.

Lemma land_clear q c m : 0 <= q < 2 ^ 20 → 0 <= c < 4096 → 0 <= m < 4096 →
  Z.land (4096 * q + c) (wrap_u 32 (Z.lnot m)) = 4096 * q + Z.land c (4095 - m).
Proof.
  intros Hq Hc Hm. assert (wrap_u 32 (Z.lnot m) = 4096 * (2 ^ 20 - 1) + (4095 - m)) as ->.
  { unfold wrap_u, Z.lnot. rewrite -(Z.mod_unique _ _ (-1) (2 ^ 32 - 1 - m)); lia. }
  pose proof (land_bound c (4095 - m) Hc) as Hl.
  apply Z.bits_inj'. intros n Hn. rewrite Z.land_spec !page_testbit //; [|lia]. case_decide; [by rewrite Z.land_spec|].
  change (2 ^ 20 - 1) with (Z.ones 20). destruct (decide (n < 32)).
  - rewrite Z.ones_spec_low; [by rewrite andb_true_r|lia].
  - rewrite Z.ones_spec_high; [|lia]. rewrite andb_false_r. symmetry. rewrite -(Z.mod_small q (2 ^ 20)) // Z.mod_pow2_bits_high //. lia.
Qed.

Lemma land_address q c : 0 <= q < 2 ^ 20 → 0 <= c < 4096 → Z.land (4096 * q + c) PTE_ADDR = 4096 * q.
Proof. intros Hq Hc. change PTE_ADDR with (wrap_u 32 (Z.lnot 4095)). rewrite land_clear //. rewrite Z.land_0_r. lia. Qed.

(** * Entries *)

(** What an entry says: the page at the kernel address [pte_frame], and flags. *)
Record pte := Pte {
  pte_frame : Z;
  pte_present : bool;
  pte_writable : bool;
  pte_user : bool;
  pte_accessed : bool;
  pte_dirty : bool;
}.

Definition pte_flags (e : pte) : Z :=
  Z.b2z (pte_present e) * PTE_P + Z.b2z (pte_writable e) * PTE_W + Z.b2z (pte_user e) * PTE_U +
  Z.b2z (pte_accessed e) * PTE_A + Z.b2z (pte_dirty e) * PTE_D.
Definition pte_word (e : pte) : Z := pte_frame e - PHYS_BASE + pte_flags e.

(** The address of a page that the kernel can use. *)
Definition frame_ok (f : Z) : Prop := f mod PGSIZE = 0 ∧ PHYS_BASE <= f < 2 ^ 32.

Definition null_pte : pte := Pte PHYS_BASE false false false false false.
Definition user_pte (f : Z) (w : bool) : pte := Pte f true w true false false.
Definition table_pte (f : Z) : pte := user_pte f true.
Definition with_present (b : bool) (e : pte) : pte := Pte (pte_frame e) b (pte_writable e) (pte_user e) (pte_accessed e) (pte_dirty e).
Definition with_accessed (b : bool) (e : pte) : pte := Pte (pte_frame e) (pte_present e) (pte_writable e) (pte_user e) b (pte_dirty e).
Definition with_dirty (b : bool) (e : pte) : pte := Pte (pte_frame e) (pte_present e) (pte_writable e) (pte_user e) (pte_accessed e) b.

Lemma pte_flags_bound e : 0 <= pte_flags e < 4096.
Proof. destruct e as [f [] [] [] [] []]; by vm_compute. Qed.

Lemma frame_page f : frame_ok f → f - PHYS_BASE = 4096 * (f / 4096 - 786432) ∧ 0 <= f / 4096 - 786432 < 2 ^ 18.
Proof. intros [H1 H2]. unfold PHYS_BASE in *. pg_lia. Qed.

Lemma null_frame : frame_ok PHYS_BASE.
Proof. by split; vm_compute. Qed.
Lemma null_word : pte_word null_pte = 0.
Proof. done. Qed.

Lemma pte_word_split e : frame_ok (pte_frame e) →
  pte_word e = 4096 * (pte_frame e / 4096 - 786432) + pte_flags e ∧ 0 <= pte_frame e / 4096 - 786432 < 2 ^ 18.
Proof. intros H. destruct (frame_page _ H) as [H1 H2]. unfold pte_word. by rewrite H1. Qed.

Lemma pte_word_range e : frame_ok (pte_frame e) → in_u 32 (pte_word e).
Proof. intros H. destruct (pte_word_split e H) as [-> H1]. pose proof (pte_flags_bound e). unfold in_u. lia. Qed.

(** An entry that is 0 is not present. *)
Lemma pte_word_present e : frame_ok (pte_frame e) → pte_present e = true → pte_word e ≠ 0.
Proof.
  intros H Hp. destruct (pte_word_split e H) as [-> H1]. pose proof (pte_flags_bound e) as Hf.
  enough (pte_flags e ≠ 0) by lia. destruct e as [f p [] [] [] []]; cbn in Hp; subst p; by vm_compute.
Qed.

Definition is_flag (m : Z) : Prop := 0 <= m < 4096.

Lemma pte_word_land e m : frame_ok (pte_frame e) → is_flag m → Z.land (pte_word e) m = Z.land (pte_flags e) m.
Proof. intros H Hm. destruct (pte_word_split e H) as [-> H1]. apply land_flag; [apply pte_flags_bound|done]. Qed.

Lemma test_present e : frame_ok (pte_frame e) → bool_decide (Z.land (pte_word e) PTE_P ≠ 0) = pte_present e.
Proof. intros H. rewrite pte_word_land //. by destruct e as [f [] [] [] [] []]. Qed.
Lemma test_absent e : frame_ok (pte_frame e) → pte_present e = false → bool_decide (Z.land (pte_word e) PTE_P = 0) = true.
Proof. intros H Hp. pose proof (test_present e H) as E. rewrite Hp in E. apply bool_decide_eq_false in E. by apply bool_decide_true, dec_stable. Qed.
Lemma test_accessed e : frame_ok (pte_frame e) → bool_decide (Z.land (pte_word e) PTE_A ≠ 0) = pte_accessed e.
Proof. intros H. rewrite pte_word_land //. by destruct e as [f [] [] [] [] []]. Qed.
Lemma test_dirty e : frame_ok (pte_frame e) → bool_decide (Z.land (pte_word e) PTE_D ≠ 0) = pte_dirty e.
Proof. intros H. rewrite pte_word_land //. by destruct e as [f [] [] [] [] []]. Qed.
Lemma test_writable e : frame_ok (pte_frame e) → bool_decide (Z.land (pte_word e) PTE_W ≠ 0) = pte_writable e.
Proof. intros H. rewrite pte_word_land //. by destruct e as [f [] [] [] [] []]. Qed.
Lemma test_user e : frame_ok (pte_frame e) → bool_decide (Z.land (pte_word e) PTE_U ≠ 0) = pte_user e.
Proof. intros H. rewrite pte_word_land //. by destruct e as [f [] [] [] [] []]. Qed.

Lemma pte_word_lor e e' m : frame_ok (pte_frame e) → is_flag m → pte_frame e' = pte_frame e →
  Z.lor (pte_flags e) m = pte_flags e' → Z.lor (pte_word e) m = pte_word e'.
Proof.
  intros H Hm Hf He. destruct (pte_word_split e H) as [-> H1]. rewrite lor_flag; [|apply pte_flags_bound|done]. rewrite He -Hf.
  symmetry. apply pte_word_split. by rewrite Hf.
Qed.

Lemma pte_word_clear e e' m : frame_ok (pte_frame e) → is_flag m → pte_frame e' = pte_frame e →
  Z.land (pte_flags e) (4095 - m) = pte_flags e' → Z.land (pte_word e) (wrap_u 32 (Z.lnot m)) = pte_word e'.
Proof.
  intros H Hm Hf He. destruct (pte_word_split e H) as [-> H1]. rewrite land_clear; [|lia|apply pte_flags_bound|done]. rewrite He -Hf.
  symmetry. apply pte_word_split. by rewrite Hf.
Qed.

Lemma pte_word_address e : frame_ok (pte_frame e) → Z.land (pte_word e) PTE_ADDR = pte_frame e - PHYS_BASE.
Proof.
  intros H. destruct (pte_word_split e H) as [-> H1]. rewrite land_address; [|lia|apply pte_flags_bound]. by rewrite (proj1 (frame_page _ H)).
Qed.

Lemma clear_present e : frame_ok (pte_frame e) → Z.land (pte_word e) (wrap_u 32 (Z.lnot PTE_P)) = pte_word (with_present false e).
Proof. intros H. apply pte_word_clear; [done|done|done|]. by destruct e as [f [] [] [] [] []]. Qed.

Lemma change_accessed e : frame_ok (pte_frame e) →
  Z.lor (pte_word e) PTE_A = pte_word (with_accessed true e) ∧
  Z.land (pte_word e) (wrap_u 32 (Z.lnot PTE_A)) = pte_word (with_accessed false e).
Proof. intros H. split; [apply pte_word_lor|apply pte_word_clear]; try done; by destruct e as [f [] [] [] [] []]. Qed.
Lemma change_dirty e : frame_ok (pte_frame e) →
  Z.lor (pte_word e) PTE_D = pte_word (with_dirty true e) ∧
  Z.land (pte_word e) (wrap_u 32 (Z.lnot PTE_D)) = pte_word (with_dirty false e).
Proof. intros H. split; [apply pte_word_lor|apply pte_word_clear]; try done; by destruct e as [f [] [] [] [] []]. Qed.

(** * The functions of pte.h *)

Section pte.
Context {Y : Type} {ST : Statics} {PG : Paging}.
Abbreviation heap := (gmap loc (Z + (pool + Y))%type).
Implicit Types h : heap.

Lemma assert_run b h : b = true → ASSERT b h = Ret tt h.
Proof. by intros ->. Qed.

Lemma vtop_run f h : PHYS_BASE <= f < 2 ^ 32 → vtop f h = Ret (f - PHYS_BASE) h.
Proof.
  intros H. unfold vtop, is_kernel_vaddr. rewrite (M_bind_Ret _ _ h tt h); [|apply assert_run, bool_decide_true; lia].
  rewrite wrap_u_id //. unfold in_u, PHYS_BASE in *. lia.
Qed.

Lemma ptov_run f h : PHYS_BASE <= f < 2 ^ 32 → ptov (f - PHYS_BASE) h = Ret f h.
Proof.
  intros H. unfold ptov, PHYS_BASE in *. rewrite (M_bind_Ret _ _ h tt h); [|apply assert_run, bool_decide_true; lia].
  rewrite wrap_u_id; [|unfold in_u; lia]. cbv [mret M_ret]. f_equal. lia.
Qed.

Lemma pte_create_kernel_run f w h : frame_ok f → pte_create_kernel f w h = Ret (pte_word (Pte f true w false false false)) h.
Proof.
  intros H. pose proof H as [H1 H2]. unfold pte_create_kernel.
  rewrite (M_bind_Ret _ _ h tt h); [|apply assert_run, bool_decide_true; by rewrite pg_ofs_mod].
  rewrite (M_bind_Ret _ _ _ _ _ (vtop_run f h H2)). cbv [mret M_ret]. f_equal.
  rewrite (_ : f - PHYS_BASE = pte_word (Pte f false false false false false)); [|unfold pte_word; cbn [pte_frame]; rewrite (_ : pte_flags _ = 0); [lia|done]].
  rewrite (pte_word_lor _ (Pte f true false false false false)) //.
  destruct w; [by apply pte_word_lor|by rewrite Z.lor_0_r].
Qed.

Lemma pte_create_user_run f w h : frame_ok f → pte_create_user f w h = Ret (pte_word (user_pte f w)) h.
Proof.
  intros H. unfold pte_create_user. rewrite (M_bind_Ret _ _ _ _ _ (pte_create_kernel_run f w h H)). cbv [mret M_ret]. f_equal.
  apply pte_word_lor; [done|done|done|]. by destruct w.
Qed.

Lemma pde_create_run f h : frame_ok f → pde_create f h = Ret (pte_word (table_pte f)) h.
Proof.
  intros H. pose proof H as [H1 H2]. unfold pde_create.
  rewrite (M_bind_Ret _ _ h tt h); [|apply assert_run, bool_decide_true; by rewrite pg_ofs_mod].
  rewrite (M_bind_Ret _ _ _ _ _ (vtop_run f h H2)). cbv [mret M_ret]. f_equal.
  rewrite (_ : f - PHYS_BASE = pte_word (Pte f false false false false false)); [|unfold pte_word; cbn [pte_frame]; rewrite (_ : pte_flags _ = 0); [lia|done]].
  rewrite (pte_word_lor _ (Pte f false false true false false)) // (pte_word_lor _ (Pte f true false true false false)) //.
  by apply pte_word_lor.
Qed.

Lemma pte_get_page_run e h : frame_ok (pte_frame e) → pte_get_page (pte_word e) h = Ret (pte_frame e) h.
Proof. intros H. unfold pte_get_page. rewrite pte_word_address //. apply ptov_run, H. Qed.

Lemma pde_get_pt_run e h : frame_ok (pte_frame e) → pte_present e = true → pde_get_pt (pte_word e) h = Ret (pte_frame e) h.
Proof.
  intros H Hp. unfold pde_get_pt. rewrite test_present // Hp (M_bind_Ret _ _ h tt h) //. rewrite pte_word_address //. apply ptov_run, H.
Qed.
End pte.
