(* ===== verification/PintosPages.v ===== *)
(** Pages of the page allocator as tables of words, next to the other blocks in use. *)
From S2P Require Export PintosAllocRefine PintosPte.
Local Open Scope Z_scope.

(** The page at [a] is in use and has the words [ws]. *)
Definition page_words (L : live) (a : Z) (ws : list Z) : Prop :=
  L !! a = Some (Paged 1, words_bytes ws) ∧ Z.of_nat (length ws) = 1024 ∧ Forall (in_u 32) ws.

Definition word (ws : list Z) (i : Z) : option Z := ws !! Z.to_nat i.
Definition set_word (i w : Z) (ws : list Z) : list Z := <[Z.to_nat i := w]> ws.

Definition zero_words : list Z := replicate (Z.to_nat 1024) 0.

Lemma page_words_insert L a ws : Z.of_nat (length ws) = 1024 → Forall (in_u 32) ws →
  page_words (<[a := (Paged 1, words_bytes ws)]> L) a ws.
Proof. intros. split; [apply lookup_insert_eq|done]. Qed.

Lemma page_words_ne L a b ws kx : a ≠ b → page_words L a ws → page_words (<[b := kx]> L) a ws.
Proof. intros Hne (H & Hn & Hw). split; [by rewrite lookup_insert_ne|done]. Qed.

Lemma page_words_same L L' a ws : L' !! a = L !! a → page_words L a ws → page_words L' a ws.
Proof. intros HL (H & Hw). split; [by rewrite HL|done]. Qed.

Lemma zero_words_ok : Z.of_nat (length zero_words) = 1024 ∧ Forall (in_u 32) zero_words.
Proof. split; [done|]. apply Forall_replicate. by vm_compute. Qed.

Lemma zero_page : replicate (Z.to_nat (PGSIZE * 1)) 0 = words_bytes zero_words.
Proof. unfold zero_words. rewrite words_bytes_zero. f_equal. Qed.

Lemma word_lt ws i : Z.of_nat (length ws) = 1024 → 0 <= i < 1024 → is_Some (word ws i).
Proof. intros. apply lookup_lt_is_Some. lia. Qed.

Section pages.
Context {ST : Statics} (ks kn us un : Z) (Hlayout : layout_ok ks kn us un).
Abbreviation cell := (Z + (pool + desc))%type.
Abbreviation alloc_rep := (alloc_rep ks kn us un).

Lemma rep_take L a k x : L !! a = Some (k, x) →
  alloc_rep L ⊢ block a x ∗ (∀ y, ⌈size_of y = size_of x⌉ -∗ block a y -∗ alloc_rep (<[a := (k, y)]> L)).
Proof.
  intros Ha. iIntros "(%σ & %HL & H & HL)". rewrite (blocks_take L a k x Ha). iDestruct "HL" as "[$ HL]".
  iIntros (y) "%Hy Hb". iExists σ. iFrame "H". iSplit; [iPureIntro; by eapply matches_write|].
  rewrite -insert_delete_eq /blocks big_sepM_insert; [iFrame|apply lookup_delete_eq].
Qed.

Lemma wp_read_word L a ws i w Φ Ψ : page_words L a ws → 0 <= i → word ws i = Some w →
  alloc_rep L -∗ (alloc_rep L -∗ Φ w) -∗ wp (load_word (a + 4 * i)) Φ Ψ.
Proof.
  intros (Ha & Hn & Hws) Hi Hw. iIntros "H HΦ". iDestruct (rep_take L a _ _ Ha with "H") as "[Hb H]".
  unfold word in Hw. pose proof (lookup_lt_Some _ _ _ Hw) as Hlt.
  assert (0 <= 4 * i < size_of (words_bytes ws)) as Hr by (rewrite size_of_words; lia).
  iDestruct (block_pure with "Hb") as %(H0 & H4 & Hs).
  iDestruct (block_access a _ (4 * i) Hr with "Hb") as "(%Hp & (%v & %Hv & Hl) & Hb)". destruct Hp as (H1 & H2 & H3).
  assert (word_of (a + 4 * i) = a + 4 * i ∧ word_of (4 * i) = 4 * i) as [E1 E2] by (unfold word_of; div_lia). rewrite E1 E2 in H1 H2 Hv |- *.
  replace (4 * i) with (4 * Z.of_nat (Z.to_nat i)) in Hv by lia. rewrite (slice_words ws (Z.to_nat i) w Hw) in Hv.
  iApply (wp_load_word with "Hl"); [done..|]. iIntros "Hl".
  assert (wrap_u 32 v = w) as ->.
  { rewrite Forall_lookup in Hws. rewrite -(le_combine_4 w); [|by eapply Hws]. rewrite -Hv le_combine_split. done. }
  iApply "HΦ". iDestruct ("Hb" $! (le_split 4 w) with "[Hl]") as "Hb"; [iExists v; by iFrame|].
  iDestruct ("H" with "[] Hb") as "H".
  - iPureIntro. rewrite size_of_splice ?size_of_le_split; [done|lia|]. rewrite size_of_words. lia.
  - replace (4 * i) with (4 * Z.of_nat (Z.to_nat i)) by lia. rewrite splice_words // list_insert_id //.
    by rewrite insert_id.
Qed.

Lemma wp_write_word L a ws i w Φ Ψ : page_words L a ws → 0 <= i < 1024 → in_u 32 w →
  alloc_rep L -∗
  (⌈page_words (<[a := (Paged 1, words_bytes (set_word i w ws))]> L) a (set_word i w ws)⌉ -∗
   alloc_rep (<[a := (Paged 1, words_bytes (set_word i w ws))]> L) -∗ Φ tt) -∗ wp (store_word (a + 4 * i) w) Φ Ψ.
Proof.
  intros (Ha & Hn & Hws) Hi Hw. iIntros "H HΦ". iDestruct (rep_take L a _ _ Ha with "H") as "[Hb H]".
  assert (0 <= 4 * i < size_of (words_bytes ws)) as Hr by (rewrite size_of_words; lia).
  iDestruct (block_pure with "Hb") as %(H0 & H4 & Hs).
  iDestruct (block_access a _ (4 * i) Hr with "Hb") as "(%Hp & (%v & %Hv & Hl) & Hb)". destruct Hp as (H1 & H2 & H3).
  assert (word_of (a + 4 * i) = a + 4 * i ∧ word_of (4 * i) = 4 * i) as [E1 E2] by (unfold word_of; div_lia). rewrite E1 E2 in H1 H2 |- *.
  iApply (wp_store_word with "Hl"); [done..|]. iIntros "Hl". iDestruct ("Hb" with "[Hl]") as "Hb"; [by iExists _; iFrame|].
  rewrite wrap_u_id //. replace (4 * i) with (4 * Z.of_nat (Z.to_nat i)) by lia. rewrite splice_words; [|lia].
  iDestruct ("H" with "[] Hb") as "H"; [iPureIntro; by rewrite !size_of_words length_insert|]. iApply ("HΦ" with "[] H").
  iPureIntro. apply page_words_insert; [by rewrite length_insert|by apply Forall_insert].
Qed.
End pages.
