(* ===== verification/PintosTables.v ===== *)
(** Page directories as maps: what directories and page tables are in memory, and who
    uses which page. *)
From S2P Require Export PintosPages.
Local Open Scope Z_scope.

(** A page directory: the page tables by their index, and the entries by the number
    of the page that they are for. *)
Record dir := Dir { dir_tables : gmap Z Z; dir_pages : gmap Z pte }.

Definition entry (d : dir) (v : Z) : pte := default null_pte (dir_pages d !! v).
Definition set_entry (v : Z) (e : pte) (d : dir) : dir := Dir (dir_tables d) (<[v := e]> (dir_pages d)).
Definition add_table (i t : Z) (d : dir) : dir := Dir (<[i := t]> (dir_tables d)) (dir_pages d).
Definition empty_dir : dir := Dir ∅ ∅.

(** The table of page [v], and the place of its entry there. *)
Definition table_of (v : Z) : Z := v / 1024.
Definition place_of (v : Z) : Z := v mod 1024.

Definition table_words (d : dir) (i : Z) : list Z := (λ k, pte_word (entry d (1024 * i + k))) <$> seqZ 0 1024.

Lemma word_fmap (f : Z → Z) i : 0 <= i < 1024 → word (f <$> seqZ 0 1024) i = Some (f i).
Proof.
  intros Hi. unfold word. rewrite list_lookup_fmap (_ : seqZ 0 1024 !! Z.to_nat i = Some i) //.
  apply lookup_seqZ. lia.
Qed.

Lemma words_eq ws vs : Z.of_nat (length ws) = 1024 → Z.of_nat (length vs) = 1024 →
  (∀ i, 0 <= i < 1024 → word ws i = word vs i) → ws = vs.
Proof.
  intros H1 H2 H. apply list_eq. intros i. destruct (decide (i < 1024)%nat) as [Hi|Hi].
  - specialize (H (Z.of_nat i) ltac:(lia)). unfold word in H. by rewrite Nat2Z.id in H.
  - rewrite !lookup_ge_None_2; [done|lia|lia].
Qed.

Lemma length_words (f : Z → Z) : Z.of_nat (length (f <$> seqZ 0 1024)) = 1024.
Proof. by rewrite length_fmap length_seqZ. Qed.

Lemma word_set i j w ws : Z.of_nat (length ws) = 1024 → 0 <= i < 1024 → 0 <= j < 1024 →
  word (set_word i w ws) j = if decide (i = j) then Some w else word ws j.
Proof.
  intros Hn Hi Hj. unfold word, set_word. case_decide as E.
  - subst j. apply list_lookup_insert_eq. lia.
  - apply list_lookup_insert_ne. lia.
Qed.

Lemma set_table_words v e d : set_word (place_of v) (pte_word e) (table_words d (table_of v)) = table_words (set_entry v e d) (table_of v).
Proof.
  unfold place_of, table_of. apply words_eq; [by rewrite length_insert length_words|by rewrite length_words|]. intros i Hi.
  rewrite word_set; [|by rewrite length_words|div_lia|done]. unfold table_words. rewrite !word_fmap //. unfold entry, set_entry. cbn [dir_pages].
  case_decide as E.
  - by rewrite (_ : 1024 * (v / 1024) + i = v) ?lookup_insert_eq; [|div_lia].
  - rewrite lookup_insert_ne //. div_lia.
Qed.

Lemma table_words_other v e d i : i ≠ table_of v → table_words (set_entry v e d) i = table_words d i.
Proof.
  intros Hi. unfold table_words. apply list_fmap_ext. intros k x Hx. apply lookup_seqZ in Hx as [-> Hk].
  f_equal. unfold entry, set_entry. cbn [dir_pages]. rewrite lookup_insert_ne //. unfold table_of in Hi. div_lia.
Qed.

(** A table that is not there has no entries. *)
Lemma table_words_none d i : (∀ v e, dir_pages d !! v = Some e → is_Some (dir_tables d !! table_of v)) → dir_tables d !! i = None →
  table_words d i = zero_words.
Proof.
  intros H Hi. apply words_eq; [by rewrite length_words|apply zero_words_ok|]. intros k Hk.
  unfold table_words. rewrite word_fmap // /entry. destruct (dir_pages d !! (1024 * i + k)) as [e|] eqn:E.
  - destruct (H _ _ E) as [t' Ht']. unfold table_of in Ht'. rewrite (_ : (1024 * i + k) / 1024 = i) in Ht'; [|div_lia]. by rewrite Hi in Ht'.
  - cbn. unfold word, zero_words. symmetry. apply lookup_replicate. split; [done|lia].
Qed.

Section tables.
Context (base : Z) (kd : dir) (K : gset Z).
Implicit Types (L : live) (D : gmap Z dir).

(** The tables of a directory: the kernel's part of each, above [PHYS_BASE], is that of
    the base directory [kd]. *)
Definition table_at (d : dir) (i : Z) : option Z :=
  match dir_tables d !! i with Some t => Some t | None => dir_tables kd !! i end.
Definition dir_word (d : dir) (i : Z) : Z := from_option (λ t, pte_word (table_pte t)) 0 (table_at d i).
Definition dir_words (d : dir) : list Z := dir_word d <$> seqZ 0 1024.

(** What a page is used for: memory of the kernel itself, a directory, a table of a
    directory, or a page that a directory maps. *)
Inductive role := Kernel | Directory | Table (pd i : Z) | Mapped (pd v : Z).
Inductive uses D : Z → role → Prop :=
  | uses_kernel a : a ∈ K → uses D a Kernel
  | uses_dir pd d : D !! pd = Some d → uses D pd Directory
  | uses_table pd d i t : D !! pd = Some d → dir_tables d !! i = Some t → uses D t (Table pd i)
  | uses_frame pd d v e : D !! pd = Some d → dir_pages d !! v = Some e → pte_present e = true → uses D (pte_frame e) (Mapped pd v).

Record dir_ok (d : dir) : Prop := {
  ok_tables i t : dir_tables d !! i = Some t → 0 <= i < 768 ∧ frame_ok t;
  ok_pages v e : dir_pages d !! v = Some e → is_Some (dir_tables d !! table_of v) ∧ frame_ok (pte_frame e);
}.

(** The tables of the kernel. *)
Record kernel_ok : Prop := {
  kernel_tables i t : dir_tables kd !! i = Some t → 768 <= i < 1024 ∧ t ∈ K ∧ frame_ok t;
  kernel_pages v e : dir_pages kd !! v = Some e → is_Some (dir_tables kd !! table_of v) ∧ frame_ok (pte_frame e);
}.

Record dirs_ok L D : Prop := {
  ok_base : page_words L base (dir_words kd) ∧ base ∈ K;
  ok_kernel : kernel_ok;
  ok_kernel_table i t : dir_tables kd !! i = Some t → page_words L t (table_words kd i);
  ok_dir pd d : D !! pd = Some d → dir_ok d ∧ page_words L pd (dir_words d);
  ok_table pd d i t : D !! pd = Some d → dir_tables d !! i = Some t → page_words L t (table_words d i);
  ok_used a r : uses D a r → ∃ x, L !! a = Some (Paged 1, x);
  ok_sole a r r' : uses D a r → uses D a r' → r = r';
}.

Lemma entry_ok d v : dir_ok d → frame_ok (pte_frame (entry d v)).
Proof. intros [_ H]. unfold entry. destruct (dir_pages d !! v) as [e|] eqn:E; [by apply (H v)|apply null_frame]. Qed.

Lemma word_table d i k : 0 <= k < 1024 → word (table_words d i) k = Some (pte_word (entry d (1024 * i + k))).
Proof. apply word_fmap. Qed.
Lemma word_entry d v : word (table_words d (table_of v)) (place_of v) = Some (pte_word (entry d v)).
Proof. unfold table_of, place_of. rewrite word_table; [|div_lia]. do 3 f_equal. div_lia. Qed.

Lemma dir_words_range d : dir_ok d → kernel_ok → Forall (in_u 32) (dir_words d).
Proof.
  intros [H _] [Hk _]. apply Forall_fmap, Forall_forall. intros i _. unfold compose, dir_word, table_at.
  destruct (dir_tables d !! i) as [t|] eqn:E; [by apply pte_word_range, (H i)|].
  destruct (dir_tables kd !! i) as [t|] eqn:Ek; [by apply pte_word_range, (Hk i)|by vm_compute].
Qed.
Lemma table_words_range d i : dir_ok d → Forall (in_u 32) (table_words d i).
Proof. intros Hd. apply Forall_fmap, Forall_forall. intros k _. by apply pte_word_range, entry_ok. Qed.

Lemma uses_kernel_table L D i t : dirs_ok L D → dir_tables kd !! i = Some t → uses D t Kernel.
Proof. intros Hok Ht. apply uses_kernel. by apply (kernel_tables (ok_kernel _ _ Hok) i). Qed.

(** * Changing an entry *)

(** A page that nothing uses, as far as the kernel knows. *)
Definition unused_page L D (f : Z) : Prop := (∃ x, L !! f = Some (Paged 1, x)) ∧ ∀ r, ¬ uses D f r.

Lemma uses_change D pd d v e a r : D !! pd = Some d →
  uses (<[pd := set_entry v e d]> D) a r → (uses D a r ∧ r ≠ Mapped pd v) ∨ (r = Mapped pd v ∧ a = pte_frame e ∧ pte_present e = true).
Proof.
  intros Hd [a' Ha|pd' d' Hd'|pd' d' i t Hd' Ht|pd' d' v' e' Hd' He Hp].
  - left. split; [by constructor|done].
  - left. split; [|done]. apply lookup_insert_Some in Hd' as [[<- _]|[_ Hd']]; by econstructor.
  - left. split; [|done]. apply lookup_insert_Some in Hd' as [[<- <-]|[_ Hd']]; by econstructor.
  - apply lookup_insert_Some in Hd' as [[<- <-]|[Hne Hd']].
    + cbn in He. apply lookup_insert_Some in He as [[<- <-]|[Hne He]]; [by right|left]. split; [by econstructor|congruence].
    + left. split; [by econstructor|congruence].
Qed.

Lemma dirs_ok_change L D pd d v e t : dirs_ok L D → D !! pd = Some d → dir_tables d !! table_of v = Some t → frame_ok (pte_frame e) →
  (pte_present e = true → unused_page L D (pte_frame e) ∨ uses D (pte_frame e) (Mapped pd v)) →
  dirs_ok (<[t := (Paged 1, words_bytes (table_words (set_entry v e d) (table_of v)))]> L) (<[pd := set_entry v e d]> D).
Proof.
  intros Hok Hd Ht He Hp. pose proof (uses_table D pd d _ t Hd Ht) as Htab.
  assert (∀ a ws r, uses D a r → r ≠ Table pd (table_of v) → page_words L a ws →
    page_words (<[t := (Paged 1, words_bytes (table_words (set_entry v e d) (table_of v)))]> L) a ws) as Hsame.
  { intros a ws r Ha Hr. apply page_words_ne. intros <-. apply Hr. by eapply ok_sole. }
  assert (dir_ok (set_entry v e d)) as Hdok.
  { destruct (proj1 (ok_dir _ _ Hok pd d Hd)) as [H1 H2]. split; [exact H1|]. intros v' e'. cbn.
    intros [[<- <-]|[_ H]]%lookup_insert_Some; [split; [rewrite Ht; eauto|done]|by apply H2]. }
  split.
  - destruct (ok_base _ _ Hok) as [H1 H2]. split; [|done]. eapply Hsame; [by apply uses_kernel|done|done].
  - apply (ok_kernel _ _ Hok).
  - intros i k Hk. eapply (Hsame _ _ Kernel); [by eapply uses_kernel_table|done|]. by eapply ok_kernel_table.
  - intros pd' d' Hd'. apply lookup_insert_Some in Hd' as [[<- <-]|[Hne Hd']].
    + split; [done|]. eapply (Hsame _ _ Directory); [by econstructor|done|]. exact (proj2 (ok_dir _ _ Hok pd d Hd)).
    + destruct (ok_dir _ _ Hok pd' d' Hd') as [H1 H2]. split; [done|]. eapply (Hsame _ _ Directory); [by econstructor|done|done].
  - intros pd' d' i t' Hd' Ht'. apply lookup_insert_Some in Hd' as [[<- <-]|[Hne Hd']].
    + cbn in Ht'. destruct (decide (i = table_of v)) as [->|Hi].
      * rewrite Ht in Ht'. injection Ht' as <-. apply page_words_insert; [apply length_words|by apply table_words_range].
      * rewrite (table_words_other v e d i) //. eapply (Hsame _ _ (Table pd i)); [by econstructor|congruence|]. by eapply ok_table.
    + eapply (Hsame _ _ (Table pd' i)); [by econstructor|congruence|]. by eapply ok_table.
  - assert (∀ a x, L !! a = Some (Paged 1, x) → ∃ y, <[t := (Paged 1, words_bytes (table_words (set_entry v e d) (table_of v)))]> L !! a = Some (Paged 1, y)) as Hin.
    { intros a x Ha. destruct (decide (t = a)) as [<-|]; [rewrite lookup_insert_eq|rewrite lookup_insert_ne //]; eauto. }
    intros a r Hr. apply (uses_change D pd d v e a r Hd) in Hr as [[Hr _]|(-> & -> & Hpe)].
    + destruct (ok_used _ _ Hok a r Hr) as [x Hx]. by eapply Hin.
    + destruct (Hp Hpe) as [[[x Hx] _]|Hu]; [by eapply Hin|]. destruct (ok_used _ _ Hok _ _ Hu) as [x Hx]. by eapply Hin.
  - intros a r r' Hr Hr'. apply (uses_change D pd d v e a r Hd) in Hr as [[Hr Hn]|(-> & -> & Hpe)];
      apply (uses_change D pd d v e _ r' Hd) in Hr' as [[Hr' Hn']|(-> & Ha & Hpe')]; [by eapply ok_sole| | |done].
    + subst a. destruct (Hp Hpe') as [[_ Hu]|Hu]; [by apply Hu in Hr|by eapply ok_sole].
    + destruct (Hp Hpe) as [[_ Hu]|Hu]; [by apply Hu in Hr'|by eapply ok_sole].
Qed.
(** * Other changes of memory *)

(** The kernel has the pages of this use for itself. *)
Definition internal (r : role) : Prop := match r with Mapped _ _ => False | _ => True end.

Lemma dirs_ok_memory L L' D : dirs_ok L D →
  (∀ a r, uses D a r → (∃ x, L' !! a = Some (Paged 1, x)) ∧ (internal r → L' !! a = L !! a)) → dirs_ok L' D.
Proof.
  intros Hok H. assert (∀ a ws r, uses D a r → internal r → page_words L a ws → page_words L' a ws) as Hsame.
  { intros a ws r Ha Hr. apply page_words_same. by apply (H a r). }
  split.
  - destruct (ok_base _ _ Hok) as [H1 H2]. split; [|done]. by eapply Hsame; [apply uses_kernel|..].
  - apply (ok_kernel _ _ Hok).
  - intros i k Hk. eapply (Hsame _ _ Kernel); [by eapply uses_kernel_table|done|]. by eapply ok_kernel_table.
  - intros pd d Hd. destruct (ok_dir _ _ Hok pd d Hd) as [H1 H2]. split; [done|]. by eapply (Hsame _ _ Directory); [eapply uses_dir|..].
  - intros pd d i t Hd Ht. eapply (Hsame _ _ (Table pd i)); [by eapply uses_table|done|by eapply ok_table].
  - intros a r Hr. by apply (H a r).
  - apply (ok_sole _ _ Hok).
Qed.

Lemma uses_in L D a r : dirs_ok L D → L !! a = None → ¬ uses D a r.
Proof. intros Hok Ha Hr. destruct (ok_used _ _ Hok a r Hr) as [x Hx]. by rewrite Ha in Hx. Qed.

Lemma dirs_ok_new L D a kx : dirs_ok L D → L !! a = None → dirs_ok (<[a := kx]> L) D.
Proof.
  intros Hok Ha. apply (dirs_ok_memory L); [done|]. intros b r Hr.
  assert (a ≠ b) as Hne by (intros ->; by eapply uses_in). rewrite lookup_insert_ne //. split; [|done]. by eapply ok_used.
Qed.

(** * Tables and directories *)

Lemma dir_words_add d i t : 0 <= i < 1024 → set_word i (pte_word (table_pte t)) (dir_words d) = dir_words (add_table i t d).
Proof.
  intros Hi. apply words_eq; [by rewrite length_insert length_words|by rewrite length_words|]. intros j Hj.
  rewrite word_set; [|by rewrite length_words|done|done]. unfold dir_words. rewrite !word_fmap //. unfold dir_word, table_at, add_table. cbn [dir_tables].
  case_decide as E; [by subst j; rewrite lookup_insert_eq|by rewrite lookup_insert_ne].
Qed.

Lemma table_words_new d i : dir_ok d → dir_tables d !! i = None → table_words d i = zero_words.
Proof. intros [_ H] Hi. apply table_words_none; [|done]. intros v e He. by destruct (H v e He). Qed.

Lemma table_words_add d i j t : table_words (add_table j t d) i = table_words d i.
Proof. done. Qed.

Lemma uses_add_table D pd d i t a r : D !! pd = Some d →
  uses (<[pd := add_table i t d]> D) a r → uses D a r ∨ (r = Table pd i ∧ a = t).
Proof.
  intros Hd [a' Ha|pd' d' Hd'|pd' d' j t' Hd' Ht|pd' d' v' e' Hd' He Hp].
  - left. by constructor.
  - left. apply lookup_insert_Some in Hd' as [[<- _]|[_ Hd']]; by econstructor.
  - apply lookup_insert_Some in Hd' as [[<- <-]|[_ Hd']]; [|left; by econstructor]. cbn in Ht.
    apply lookup_insert_Some in Ht as [[<- <-]|[_ Ht]]; [by right|left; by econstructor].
  - left. apply lookup_insert_Some in Hd' as [[<- <-]|[_ Hd']]; by econstructor.
Qed.

Lemma dirs_ok_add_table L D pd d i t : dirs_ok L D → D !! pd = Some d → 0 <= i < 768 → dir_tables d !! i = None →
  frame_ok t → L !! t = None →
  dirs_ok (<[pd := (Paged 1, words_bytes (dir_words (add_table i t d)))]> (<[t := (Paged 1, words_bytes zero_words)]> L))
    (<[pd := add_table i t d]> D).
Proof.
  intros Hok Hd Hi Hti Hft Ht. set (L' := <[pd := _]> (<[t := _]> L)). pose proof (uses_dir D pd d Hd) as Hdir.
  assert (∀ a r, uses D a r → t ≠ a) as Hne by (intros a r Hr ->; by eapply uses_in).
  assert (∀ a r, uses D a r → r ≠ Directory → L' !! a = L !! a) as Hother.
  { intros a r Hr Hrd. unfold L'. rewrite lookup_insert_ne; [rewrite lookup_insert_ne //; by eapply Hne|].
    intros <-. apply Hrd. by eapply ok_sole. }
  assert (∀ a ws, a ≠ pd → uses D a Directory → page_words L a ws → page_words L' a ws) as Hdirs.
  { intros a ws Ha Hr Hw. unfold L'. apply page_words_ne; [done|]. apply page_words_ne; [|done]. intros <-. by eapply Hne. }
  assert (dir_ok (add_table i t d)) as Hdok.
  { destruct (proj1 (ok_dir _ _ Hok pd d Hd)) as [H1 H2]. split.
    - intros j t'. cbn. intros [[<- <-]|[_ H]]%lookup_insert_Some; [done|by apply H1].
    - intros v e He. destruct (H2 v e He) as [[t' Ht'] Hf]. split; [|done]. cbn. destruct (decide (i = table_of v)) as [->|].
      + rewrite lookup_insert_eq. eauto.
      + by rewrite lookup_insert_ne. }
  split.
  - destruct (ok_base _ _ Hok) as [H1 H2]. split; [|done]. eapply page_words_same; [|done]. by apply (Hother _ Kernel); [apply uses_kernel|].
  - apply (ok_kernel _ _ Hok).
  - intros j k Hk. eapply page_words_same; [|by eapply ok_kernel_table]. by apply (Hother _ Kernel); [eapply uses_kernel_table|].
  - intros pd' d' Hd'. apply lookup_insert_Some in Hd' as [[<- <-]|[Hne' Hd']].
    + split; [done|]. apply page_words_insert; [apply length_words|]. apply dir_words_range; [done|apply (ok_kernel _ _ Hok)].
    + destruct (ok_dir _ _ Hok pd' d' Hd') as [H1 H2]. split; [done|]. apply Hdirs; [done|by eapply uses_dir|done].
  - intros pd' d' j t' Hd' Ht'. apply lookup_insert_Some in Hd' as [[<- <-]|[Hne' Hd']].
    + cbn in Ht'. apply lookup_insert_Some in Ht' as [[<- <-]|[Hij Ht']].
      * rewrite table_words_add table_words_new //; [|by apply (ok_dir _ _ Hok pd)]. unfold L'. apply page_words_ne; [|by apply page_words_insert; apply zero_words_ok].
        by eapply Hne.
      * rewrite table_words_add. eapply page_words_same; [|by eapply ok_table]. by eapply (Hother _ (Table pd j)); [eapply uses_table|].
    + eapply page_words_same; [|by eapply ok_table]. by eapply (Hother _ (Table pd' j)); [eapply uses_table|].
  - intros a r Hr. apply (uses_add_table D pd d i t a r Hd) in Hr as [Hr|[-> ->]].
    + destruct (decide (pd = a)) as [<-|Hpa]; [unfold L'; rewrite lookup_insert_eq; eauto|].
      unfold L'. rewrite lookup_insert_ne // lookup_insert_ne; [by eapply ok_used|by eapply Hne].
    + unfold L'. rewrite lookup_insert_ne; [rewrite lookup_insert_eq; eauto|]. intros <-. by eapply (Hne pd).
  - intros a r r' Hr Hr'. apply (uses_add_table D pd d i t a r Hd) in Hr as [Hr|[-> ->]];
      apply (uses_add_table D pd d i t _ r' Hd) in Hr' as [Hr'|[-> Ha]]; [by eapply ok_sole| | |done].
    + subst a. by apply Hne in Hr.
    + by apply Hne in Hr'.
Qed.

Lemma dir_words_empty : dir_words empty_dir = dir_words kd.
Proof.
  unfold dir_words. apply list_fmap_ext. intros k i _. unfold dir_word, table_at. cbn. rewrite lookup_empty.
  by destruct (dir_tables kd !! i).
Qed.

Lemma dirs_ok_create L D r : dirs_ok L D → L !! r = None →
  dirs_ok (<[r := (Paged 1, words_bytes (dir_words kd))]> L) (<[r := empty_dir]> D).
Proof.
  intros Hok Hr. destruct (ok_base _ _ Hok) as [(H1 & Hn & Hw) H2]. pose proof (dirs_ok_new L D r (Paged 1, words_bytes (dir_words kd)) Hok Hr) as Hok'.
  assert (D !! r = None) as HD.
  { destruct (D !! r) as [d|] eqn:E; [|done]. exfalso. apply (uses_in L D r Directory Hok Hr). by eapply uses_dir. }
  assert (∀ a x, uses (<[r := empty_dir]> D) a x → uses D a x ∨ (x = Directory ∧ a = r)) as Huses.
  { intros a x [a' Ha|pd d Hd|pd d i t Hd Ht|pd d v e Hd He Hp]; [left; by constructor|..];
      (apply lookup_insert_Some in Hd as [[<- <-]|[_ Hd]]; [|left; by econstructor]); [by right|by rewrite lookup_empty in Ht|by rewrite lookup_empty in He]. }
  split.
  - apply (ok_base _ _ Hok').
  - apply (ok_kernel _ _ Hok).
  - apply (ok_kernel_table _ _ Hok').
  - intros pd d Hd. apply lookup_insert_Some in Hd as [[<- <-]|[_ Hd]]; [|by apply (ok_dir _ _ Hok')].
    split; [split; intros ?? H; by rewrite lookup_empty in H|]. rewrite dir_words_empty. by apply page_words_insert.
  - intros pd d i t Hd Ht. apply lookup_insert_Some in Hd as [[<- <-]|[_ Hd]]; [by rewrite lookup_empty in Ht|]. by eapply (ok_table _ _ Hok').
  - intros a x Hx. apply Huses in Hx as [Hx|[-> ->]]; [by eapply (ok_used _ _ Hok')|rewrite lookup_insert_eq; eauto].
  - intros a x x' Hx Hx'. apply Huses in Hx as [Hx|[-> ->]]; apply Huses in Hx' as [Hx'|[-> ?]]; [by eapply ok_sole| | |done].
    + subst a. by apply (uses_in _ _ _ _ Hok Hr) in Hx.
    + by apply (uses_in _ _ _ _ Hok Hr) in Hx'.
Qed.
(** * Destroying a directory *)

(** The pages of a directory: its own, its tables, and those it maps. *)
Definition owned (pd : Z) (d : dir) (a : Z) : Prop :=
  a = pd ∨ (∃ i, dir_tables d !! i = Some a) ∨ (∃ v e, dir_pages d !! v = Some e ∧ pte_present e = true ∧ pte_frame e = a).

Lemma uses_delete D pd a r : uses (base.delete pd D) a r → uses D a r ∧ (∀ i, r ≠ Table pd i) ∧ (∀ v, r ≠ Mapped pd v) ∧
  (r = Directory → a ≠ pd).
Proof.
  intros [a' Ha|pd' d Hd|pd' d i t Hd Ht|pd' d v e Hd He Hp]; [split_and!; try done; by constructor|..];
    apply lookup_delete_Some in Hd as [Hne Hd]; split_and!; try done; try congruence; by econstructor.
Qed.

Lemma dirs_ok_destroy L L' D pd d : dirs_ok L D → D !! pd = Some d →
  (∀ a, ¬ owned pd d a → L' !! a = L !! a) → dirs_ok L' (base.delete pd D).
Proof.
  intros Hok Hd HL. assert (dirs_ok L (base.delete pd D)) as Hok'.
  { split.
    - apply (ok_base _ _ Hok).
    - apply (ok_kernel _ _ Hok).
    - apply (ok_kernel_table _ _ Hok).
    - intros pd' d' [_ Hd']%lookup_delete_Some. by apply (ok_dir _ _ Hok).
    - intros pd' d' i t [_ Hd']%lookup_delete_Some. by apply (ok_table _ _ Hok pd').
    - intros a r [Hr _]%uses_delete. by eapply ok_used.
    - intros a r r' [Hr _]%uses_delete [Hr' _]%uses_delete. by eapply ok_sole. }
  apply (dirs_ok_memory L); [done|]. intros a r Hr. pose proof Hr as (Hu & Ht & Hf & Hdir)%uses_delete.
  rewrite HL; [split; [by eapply ok_used|done]|]. intros [->|[[i Hi]|(v & e & He & Hp & <-)]].
  - apply (Hdir (ok_sole _ _ Hok _ _ _ Hu (uses_dir D pd d Hd)) eq_refl).
  - exact (Ht i (ok_sole _ _ Hok _ _ _ Hu (uses_table D pd d i a Hd Hi))).
  - exact (Hf v (ok_sole _ _ Hok _ _ _ Hu (uses_frame D pd d v e Hd He Hp))).
Qed.
End tables.
