(* ===== verification/PintosVmSpec.v ===== *)
(** What page directories promise: each is a map from the pages of user programs to
    pages of memory, and the programs that may use them next to the allocators. *)
From S2P Require Export PintosTables PintosAllocSpec.
Local Open Scope Z_scope.

(** The calls of pagedir.c, and those of the allocators; and what the processor does
    with an address of the program that runs. *)
Inductive vcmd :=
  | VAlloc (c : cmd)
  | VCreate
  | VDestroy (pd : Z)
  | VSetPage (pd upage kpage : Z) (writable : bool)
  | VGetPage (pd uaddr : Z)
  | VClearPage (pd upage : Z)
  | VIsDirty (pd vpage : Z)
  | VSetDirty (pd vpage : Z) (dirty : bool)
  | VIsAccessed (pd vpage : Z)
  | VSetAccessed (pd vpage : Z) (accessed : bool)
  | VActivate (pd : Z)
  | VTranslate (a : Z) (write user : bool).

Inductive vclient :=
  | VStop
  | VCall (c : vcmd) (k : Z → vclient).

Section exec.
Context {ST : Statics} {PG : Paging} (ram_pages : Z).
Abbreviation cell := (Z + (pool + desc))%type.

(** The walk through the tables of a directory, as pte.h describes it: the physical
    address, or -1 for a page fault. The processor begins with the directory in CR3. *)
Definition pte_allows (w : Z) (write user : bool) : bool :=
  bool_decide (Z.land w PTE_P ≠ 0) && implb write (bool_decide (Z.land w PTE_W ≠ 0)) && implb user (bool_decide (Z.land w PTE_U ≠ 0)).
Definition walk (pd a : Z) (write user : bool) : M (gmap loc cell) Z :=
  pde ← load_word (pd + 4 * pd_no a);
  if pte_allows pde write user then
    pte ← load_word (PHYS_BASE + Z.land pde PTE_ADDR + 4 * pt_no a);
    mret (if pte_allows pte write user then Z.land pte PTE_ADDR + pg_ofs a else -1)
  else mret (-1).
Definition translate (a : Z) (write user : bool) : M (gmap loc cell) Z :=
  c ← load (T := Z) (Some cr3); walk (PHYS_BASE + c) a write user.

Definition vexec (c : vcmd) : M (gmap loc cell) Z :=
  match c with
  | VAlloc c => exec c
  | VCreate => pagedir_create
  | VDestroy pd => pagedir_destroy pd;; mret 0
  | VSetPage pd upage kpage w => r ← pagedir_set_page ram_pages pd upage kpage w; mret (Z.b2z r)
  | VGetPage pd uaddr => pagedir_get_page pd uaddr
  | VClearPage pd upage => pagedir_clear_page pd upage;; mret 0
  | VIsDirty pd vpage => r ← pagedir_is_dirty pd vpage; mret (Z.b2z r)
  | VSetDirty pd vpage b => pagedir_set_dirty pd vpage b;; mret 0
  | VIsAccessed pd vpage => r ← pagedir_is_accessed pd vpage; mret (Z.b2z r)
  | VSetAccessed pd vpage b => pagedir_set_accessed pd vpage b;; mret 0
  | VActivate pd => pagedir_activate pd;; mret 0
  | VTranslate a write user => translate a write user
  end.

Fixpoint run_vclient (p : vclient) : M (gmap loc cell) (list (vcmd * Z)) :=
  match p with
  | VStop => mret []
  | VCall c k => r ← vexec c; t ← run_vclient (k r); mret ((c, r) :: t)
  end.
End exec.

(** The blocks in use, the page directories, the directory that the processor uses,
    and how often it was told. *)
Record vm := Vm { vm_live : live; vm_dirs : gmap Z dir; vm_active : Z; vm_loads : Z }.

Section spec.
Context (ks kn us un base : Z) (kd : dir) (K : gset Z).
Implicit Types (L : live) (D : gmap Z dir).
Abbreviation uses := (uses K).

(** A page of user programs. *)
Definition user_addr (a : Z) : Prop := 0 <= a < PHYS_BASE.
Definition page_of (a : Z) : Z := a / PGSIZE.

(** Memory that is not the kernel's own is as before. *)
Definition same_user L L' D' : Prop := ∀ a, (∀ r, uses D' a r → ¬ internal r) → L' !! a = L !! a.

(** Loading a new value into CR3 only when the directory is active. *)
Definition reload (act pd n : Z) : Z := if bool_decide (act = pd) then n + 1 else n.

(** An entry changes, where there is a table for it. *)
Definition changed_entry (s : vm) (pd : Z) (d : dir) (v : Z) (e : pte) (n : Z) (s' : vm) : Prop :=
  vm_dirs s !! pd = Some d ∧ is_Some (dir_tables d !! table_of v) ∧
  vm_dirs s' = <[pd := set_entry v e d]> (vm_dirs s) ∧ same_user (vm_live s) (vm_live s') (vm_dirs s') ∧
  vm_active s' = vm_active s ∧ vm_loads s' = n.

(** The entry for an address in the directory that the processor uses: the kernel's
    part is the same in each. *)
Definition mapping (s : vm) (a : Z) : pte :=
  if bool_decide (a < PHYS_BASE) then entry (default empty_dir (vm_dirs s !! vm_active s)) (page_of a) else entry kd (page_of a).
Definition allows (e : pte) (write user : bool) : bool := pte_present e && implb write (pte_writable e) && implb user (pte_user e).

Inductive vstep (s : vm) : vcmd → Z → vm → Prop :=
  | v_alloc c r L' : astep ks kn us un (vm_live s) c r L' → vstep s (VAlloc c) r (Vm L' (vm_dirs s) (vm_active s) (vm_loads s))
  | v_create r x : new_block (vm_live s) r x → size_of x = PGSIZE →
      vstep s VCreate r (Vm (<[r := (Paged 1, x)]> (vm_live s)) (<[r := empty_dir]> (vm_dirs s)) (vm_active s) (vm_loads s))
  | v_create_null : full ks kn (vm_live s) 1 → vstep s VCreate 0 s
  | v_destroy pd d L' : vm_dirs s !! pd = Some d →
      (∀ a, owned pd d a → L' !! a = None) → (∀ a, ¬ owned pd d a → L' !! a = vm_live s !! a) →
      vstep s (VDestroy pd) 0 (Vm L' (base.delete pd (vm_dirs s)) (vm_active s) (vm_loads s))
  | v_destroy_null : vstep s (VDestroy 0) 0 s
  | v_set pd up f w d s' : pte_present (entry d (page_of up)) = false →
      changed_entry s pd d (page_of up) (user_pte f w) (vm_loads s) s' → vstep s (VSetPage pd up f w) 1 s'
  | v_set_table pd up f w d t x L' : vm_dirs s !! pd = Some d → dir_tables d !! table_of (page_of up) = None →
      new_block (vm_live s) t x → size_of x = PGSIZE →
      let D' := <[pd := set_entry (page_of up) (user_pte f w) (add_table (table_of (page_of up)) t d)]> (vm_dirs s) in
      same_user (vm_live s) L' D' → vstep s (VSetPage pd up f w) 1 (Vm L' D' (vm_active s) (vm_loads s))
  | v_set_null pd up f w d : vm_dirs s !! pd = Some d → dir_tables d !! table_of (page_of up) = None →
      full ks kn (vm_live s) 1 → vstep s (VSetPage pd up f w) 0 s
  | v_get pd a d : vm_dirs s !! pd = Some d →
      vstep s (VGetPage pd a) (if pte_present (entry d (page_of a)) then pte_frame (entry d (page_of a)) + a mod PGSIZE else 0) s
  | v_clear pd up d s' : pte_present (entry d (page_of up)) = true →
      changed_entry s pd d (page_of up) (with_present false (entry d (page_of up))) (reload (vm_active s) pd (vm_loads s)) s' →
      vstep s (VClearPage pd up) 0 s'
  | v_clear_nothing pd up d : vm_dirs s !! pd = Some d → pte_present (entry d (page_of up)) = false → vstep s (VClearPage pd up) 0 s
  | v_is_dirty pd a d : vm_dirs s !! pd = Some d → vstep s (VIsDirty pd a) (Z.b2z (pte_dirty (entry d (page_of a)))) s
  | v_is_accessed pd a d : vm_dirs s !! pd = Some d → vstep s (VIsAccessed pd a) (Z.b2z (pte_accessed (entry d (page_of a)))) s
  | v_set_dirty pd a b d s' :
      changed_entry s pd d (page_of a) (with_dirty b (entry d (page_of a))) (if b then vm_loads s else reload (vm_active s) pd (vm_loads s)) s' →
      vstep s (VSetDirty pd a b) 0 s'
  | v_set_accessed pd a b d s' :
      changed_entry s pd d (page_of a) (with_accessed b (entry d (page_of a))) (if b then vm_loads s else reload (vm_active s) pd (vm_loads s)) s' →
      vstep s (VSetAccessed pd a b) 0 s'
  | v_set_flag_nothing c pd a b d : vm_dirs s !! pd = Some d → dir_tables d !! table_of (page_of a) = None →
      c = VSetDirty pd a b ∨ c = VSetAccessed pd a b → vstep s c 0 s
  | v_activate pd : pd ≠ 0 → is_Some (vm_dirs s !! pd) → vstep s (VActivate pd) 0 (Vm (vm_live s) (vm_dirs s) pd (vm_loads s + 1))
  | v_activate_base : vstep s (VActivate 0) 0 (Vm (vm_live s) (vm_dirs s) base (vm_loads s + 1))
  | v_translate a write user :
      let e := mapping s a in
      vstep s (VTranslate a write user) (if allows e write user then pte_frame e - PHYS_BASE + a mod PGSIZE else -1) s.

(** What a call may ask for. *)
Definition user_block L D (a : Z) : Prop :=
  ∃ p k x i, L !! p = Some (k, x) ∧ 0 <= i < size_of x ∧ a = p + i ∧ ∀ r, uses D p r → ¬ internal r.

Definition vcall_ok (s : vm) (c : vcmd) : Prop :=
  let L := vm_live s in let D := vm_dirs s in
  match c with
  | VAlloc c => call_ok L c ∧
      match c with
      | FreePages p _ => ∀ r, ¬ uses D p r
      | Write a _ | Read a => user_block L D a
      | _ => True
      end
  | VCreate => True
  | VDestroy pd => pd = 0 ∨ (is_Some (D !! pd) ∧ pd ≠ vm_active s)
  | VSetPage pd up f w => ∃ d, D !! pd = Some d ∧ user_addr up ∧ up mod PGSIZE = 0 ∧ unused_page K L D f ∧ pte_present (entry d (page_of up)) = false
  | VClearPage pd up => is_Some (D !! pd) ∧ user_addr up ∧ up mod PGSIZE = 0
  | VGetPage pd a | VIsDirty pd a | VSetDirty pd a _ | VIsAccessed pd a | VSetAccessed pd a _ => is_Some (D !! pd) ∧ user_addr a
  | VActivate pd => pd = 0 ∨ is_Some (D !! pd)
  | VTranslate a _ _ => 0 <= a < 2 ^ 32
  end.

Fixpoint vlegal (s : vm) (p : vclient) : Prop :=
  match p with
  | VStop => True
  | VCall c k => vcall_ok s c ∧ ∀ r s', vstep s c r s' → vlegal s' (k r)
  end.

Inductive vsteps : vm → list (vcmd * Z) → vm → Prop :=
  | vsteps_nil s : vsteps s [] s
  | vsteps_cons s c r s' t s'' : vstep s c r s' → vsteps s' t s'' → vsteps s ((c, r) :: t) s''.
End spec.
