(* ===== verification/PintosVmOps.v ===== *)
(** What the functions of pagedir.c do to page directories. *)
From S2P Require Export PintosVmSpec.
Local Open Scope Z_scope.

Section ops.
Context {ST : Statics} {PG : Paging} (ram_pages ks kn us un : Z) (Hlayout : layout_ok ks kn us un).
Hypothesis Hlow : PHYS_BASE / PGSIZE <= ks.
Hypothesis Hhigh : us + un <= PHYS_BASE / PGSIZE + ram_pages.
Context (base : Z) (kd : dir) (K : gset Z).
Abbreviation cell := (Z + (pool + desc))%type.
Abbreviation alloc_rep := (alloc_rep ks kn us un).
Abbreviation dirs_ok := (dirs_ok base kd K).
Abbreviation uses := (uses K).
Abbreviation dir_words := (dir_words kd).
Implicit Types (L : live) (D : gmap Z dir).

(** The static variables. *)
Definition machine (act n : Z) : hpropI cell :=
  (base_page_dir ↦ base ∗ cr3 ↦ (act - PHYS_BASE) ∗ cr3_loads ↦ n)%I.

(** * Addresses of pages *)

Lemma rep_frames L : alloc_rep L ⊢ ⌜∀ a x, L !! a = Some (Paged 1, x) → frame_ok a ∧ (a - PHYS_BASE) / PGSIZE < ram_pages⌝.
Proof.
  iIntros "(%σ & %HL & H & _)". iDestruct (inv_pure with "H") as %[Hwf _]. iPureIntro. intros a x Ha.
  assert (handed σ a (Paged 1) (size_of x)) as (j & c & Hj & Hb) by (apply HL; eauto).
  destruct (wf_chunk _ _ _ _ σ Hwf j c Hj) as [Hok Hin]. inversion Hb; subst. cbn [chunk_cnt] in Hin.
  destruct Hlayout as (L1 & L2 & L3 & L4 & L5). unfold frame_ok, PHYS_BASE in *. change (0xc0000000 / PGSIZE) with 786432 in *.
  destruct Hin; pg_lia.
Qed.

Lemma page_split v : 0 <= v → pd_no v = table_of (page_of v) ∧ pt_no v = place_of (page_of v).
Proof.
  intros Hv. unfold table_of, place_of, page_of. split.
  - assert (pd_no v = v / 4194304) as -> by by (unfold pd_no; rewrite Z.shiftr_div_pow2). pg_lia.
  - unfold pt_no. rewrite Z.shiftr_land. change (Z.shiftr PTMASK PTSHIFT) with (Z.ones 10). by rewrite Z.land_ones // Z.shiftr_div_pow2.
Qed.

Lemma user_page v : user_addr v → pd_no v = table_of (page_of v) ∧ pt_no v = place_of (page_of v) ∧ 0 <= table_of (page_of v) < 768.
Proof.
  intros [H0 Hv]. destruct (page_split v H0) as [-> ->]. split_and!; [done|done|..]; unfold PHYS_BASE, table_of, page_of in *; pg_lia.
Qed.

Lemma place_bound v : 0 <= place_of v < 1024.
Proof. unfold place_of. div_lia. Qed.

Lemma dir_word_table d i t : dir_tables d !! i = Some t → dir_word kd d i = pte_word (table_pte t).
Proof. intros H. unfold dir_word, table_at. by rewrite H. Qed.
Lemma dir_word_none L D d i : dirs_ok L D → 0 <= i < 768 → dir_tables d !! i = None → dir_word kd d i = 0.
Proof. intros Hok Hi H. unfold dir_word. unfold table_at. rewrite H.
  destruct (dir_tables kd !! i) as [t|] eqn:E; [|done]. destruct (kernel_tables _ _ (ok_kernel _ _ _ _ _ Hok) i t E). lia. Qed.

(** * Entries *)

Lemma wp_read_pde L D pd d v Φ Ψ : dirs_ok L D → D !! pd = Some d → user_addr v →
  alloc_rep L -∗ (alloc_rep L -∗ Φ (dir_word kd d (table_of (page_of v)))) -∗ wp (load_word (pd + 4 * pd_no v)) Φ Ψ.
Proof.
  intros Hok Hd Hv. destruct (user_page v Hv) as (-> & _ & Hi). apply (wp_read_word ks kn us un L pd (dir_words d)); [by apply (ok_dir _ _ _ _ _ Hok)|lia|].
  apply word_fmap. lia.
Qed.

Lemma wp_read_pte L D pd d v t Φ Ψ : dirs_ok L D → D !! pd = Some d → dir_tables d !! table_of (page_of v) = Some t → user_addr v →
  alloc_rep L -∗ (alloc_rep L -∗ Φ (pte_word (entry d (page_of v)))) -∗ wp (load_word (t + 4 * pt_no v)) Φ Ψ.
Proof.
  intros Hok Hd Ht Hv. destruct (user_page v Hv) as (_ & -> & Hi). pose proof (place_bound (page_of v)).
  apply (wp_read_word ks kn us un L t (table_words d (table_of (page_of v)))); [by eapply ok_table|lia|apply word_entry].
Qed.

Lemma wp_write_pte L D pd d v t e Φ Ψ : dirs_ok L D → D !! pd = Some d → dir_tables d !! table_of (page_of v) = Some t → user_addr v →
  frame_ok (pte_frame e) → (pte_present e = true → unused_page K L D (pte_frame e) ∨ uses D (pte_frame e) (Mapped pd (page_of v))) →
  alloc_rep L -∗
  (∀ L', ⌈dirs_ok L' (<[pd := set_entry (page_of v) e d]> D) ∧ same_user K L L' (<[pd := set_entry (page_of v) e d]> D)⌉ -∗
    alloc_rep L' -∗ Φ tt) -∗ wp (store_word (t + 4 * pt_no v) (pte_word e)) Φ Ψ.
Proof.
  intros Hok Hd Ht Hv He Hp. destruct (user_page v Hv) as (_ & -> & Hi). pose proof (place_bound (page_of v)). iIntros "H HΦ".
  iApply (wp_write_word ks kn us un L t (table_words d (table_of (page_of v))) with "H"); [by eapply ok_table|done|by apply pte_word_range|].
  rewrite set_table_words. iIntros "_ H". iApply ("HΦ" with "[] H"). iPureIntro. split; [by apply dirs_ok_change|].
  intros a Ha. rewrite lookup_insert_ne //. intros <-. apply (Ha (Table pd (table_of (page_of v)))); [|done].
  eapply uses_table; [apply lookup_insert_eq|exact Ht].
Qed.

(** * Lookup *)

Lemma lookup_asserts L D pd d v (create : bool) : dirs_ok L D → D !! pd = Some d → user_addr v → frame_ok pd →
  bool_decide (pd ≠ 0) = true ∧ negb create || is_user_vaddr v = true.
Proof.
  intros Hok Hd Hv [_ Hf]. unfold is_user_vaddr, user_addr, PHYS_BASE in *. rewrite !bool_decide_true; [|lia..]. split; [done|apply orb_true_r].
Qed.

Lemma pd_frame L D pd d : dirs_ok L D → D !! pd = Some d → ∃ x, L !! pd = Some (Paged 1, x).
Proof. intros Hok Hd. eapply ok_used; [done|by eapply uses_dir]. Qed.

Definition entry_at (d : dir) (v : Z) : Z :=
  match dir_tables d !! table_of (page_of v) with Some t => t + 4 * pt_no v | None => 0 end.

Lemma table_frame L D pd d i t : dirs_ok L D → D !! pd = Some d → dir_tables d !! i = Some t → frame_ok t.
Proof. intros Hok Hd Ht. destruct (ok_dir _ _ _ _ _ Hok pd d Hd) as [[H _] _]. by apply (H i t Ht). Qed.

(** The end of [lookup_page], when there is a table. *)
Lemma wp_lookup_end L D pd d v t Φ Ψ : dirs_ok L D → D !! pd = Some d → dir_tables d !! table_of (page_of v) = Some t → user_addr v →
  alloc_rep L -∗ (alloc_rep L -∗ Φ (t + 4 * pt_no v)) -∗
  wp (w ← load_word (pd + 4 * pd_no v); pt ← pde_get_pt w; mret (pt + 4 * pt_no v)) Φ Ψ.
Proof.
  intros Hok Hd Ht Hv. iIntros "H HΦ". wp_focus. iApply (wp_read_pde with "H"); [done..|]. iIntros "H". rewrite (dir_word_table _ _ t Ht).
  wp_focus. iApply wp_run; [intros h; apply pde_get_pt_run; [by eapply table_frame|done]|]. iApply wp_ret. by iApply "HΦ".
Qed.

Lemma wp_lookup_page L D pd d v Φ Ψ : dirs_ok L D → D !! pd = Some d → user_addr v →
  alloc_rep L -∗ (alloc_rep L -∗ Φ (entry_at d v)) -∗ wp (lookup_page pd v false) Φ Ψ.
Proof.
  intros Hok Hd Hv. iIntros "H HΦ". iDestruct (rep_frames with "H") as %Hf. destruct (pd_frame L D pd d Hok Hd) as [x Hx].
  destruct (lookup_asserts L D pd d v false Hok Hd Hv (proj1 (Hf _ _ Hx))) as [E1 E2]. unfold lookup_page. rewrite E1 E2.
  wp_focus. iApply wp_ASSERT. wp_focus. iApply wp_ASSERT.
  wp_focus. iApply (wp_read_pde with "H"); [done..|]. iIntros "H". destruct (user_page v Hv) as (_ & _ & Hi). unfold entry_at.
  destruct (dir_tables d !! table_of (page_of v)) as [t|] eqn:Et.
  - rewrite (dir_word_table _ _ t Et). rewrite bool_decide_false; [|apply pte_word_present; [by eapply table_frame|done]]. wp_finish.
    by iApply (wp_lookup_end with "H").
  - rewrite (dir_word_none L D d _ Hok Hi Et) bool_decide_true //. wp_finish. by iApply "HΦ".
Qed.
(** A page from the page allocator. *)
Lemma wp_get_page L flags Φ Ψ : flag flags PAL_ASSERT = false → flag flags PAL_USER = false →
  alloc_rep L -∗
  ((∀ r x, ⌈new_block L r x ∧ size_of x = PGSIZE ∧ (flag flags PAL_ZERO = true → x = words_bytes zero_words) ∧ frame_ok r⌉ -∗
      alloc_rep (<[r := (Paged 1, x)]> L) -∗ Φ r) ∧
   (⌈full ks kn L 1⌉ -∗ alloc_rep L -∗ Φ 0)) -∗
  wp (palloc_get_page flags) Φ Ψ.
Proof.
  intros Ha Hu. iIntros "H HΦ". unfold palloc_get_page.
  iApply (hoare_wp_ret with "H"); [by apply get_pages_refines_step|]. iIntros (r) "(%L' & %Hstep & H)".
  inversion Hstep as [| | | | | | | | | | |flags' cnt r' x _ Hs Hz Hnew| ? ? Hfull| | |]; subst.
  - iDestruct "HΦ" as "[HΦ _]". iDestruct (rep_frames with "H") as %Hf. iApply ("HΦ" with "[] H"). iPureIntro. split; [done|]. split; [lia|].
    split; [intros Hfl; by rewrite (Hz Hfl) zero_page|]. apply (Hf r x). apply lookup_insert_eq.
  - iDestruct "HΦ" as "[_ HΦ]". iApply ("HΦ" with "[] H"). iPureIntro. rewrite Hu in Hfull. by destruct Hfull.
Qed.

Lemma unused_add_table L L' D pd d i t f : D !! pd = Some d → L !! t = None → unused_page K L D f → (L' !! f = L !! f) →
  unused_page K L' (<[pd := add_table i t d]> D) f.
Proof.
  intros Hd Ht [[x Hx] Hu] HL. split; [exists x; by rewrite HL|]. intros r [Hr|[_ ->]]%(uses_add_table _ _ _ d); [by apply Hu in Hr|by rewrite Ht in Hx|done].
Qed.

Definition table_added L L' D (pd : Z) (d d' : dir) (i t : Z) : Prop :=
  (d' = d ∧ L' = L) ∨
  (d' = add_table i t d ∧ dir_tables d !! i = None ∧ (∃ x, new_block L t x ∧ size_of x = PGSIZE) ∧ same_user K L L' (<[pd := d']> D)).

Lemma wp_lookup_create L D pd d v Φ Ψ : dirs_ok L D → D !! pd = Some d → user_addr v →
  alloc_rep L -∗
  ((∀ L' d' t, ⌈dirs_ok L' (<[pd := d']> D) ∧ dir_tables d' !! table_of (page_of v) = Some t ∧ dir_pages d' = dir_pages d ∧
        table_added L L' D pd d d' (table_of (page_of v)) t⌉ -∗
      alloc_rep L' -∗ Φ (t + 4 * pt_no v)) ∧
   (⌈dir_tables d !! table_of (page_of v) = None ∧ full ks kn L 1⌉ -∗ alloc_rep L -∗ Φ 0)) -∗
  wp (lookup_page pd v true) Φ Ψ.
Proof.
  intros Hok Hd Hv. iIntros "H HΦ". iDestruct (rep_frames with "H") as %Hf. destruct (pd_frame L D pd d Hok Hd) as [x Hx].
  destruct (lookup_asserts L D pd d v true Hok Hd Hv (proj1 (Hf _ _ Hx))) as [E1 E2]. unfold lookup_page. rewrite E1 E2.
  wp_focus. iApply wp_ASSERT. wp_focus. iApply wp_ASSERT.
  wp_focus. iApply (wp_read_pde with "H"); [done..|]. iIntros "H". destruct (user_page v Hv) as (Hpd & _ & Hi).
  destruct (dir_tables d !! table_of (page_of v)) as [t|] eqn:Et.
  { rewrite (dir_word_table _ _ t Et). rewrite bool_decide_false; [|apply pte_word_present; [by eapply table_frame|done]]. wp_finish.
    iDestruct "HΦ" as "[HΦ _]". iApply (wp_lookup_end with "H"); [done..|]. iIntros "H". iApply ("HΦ" with "[] H"). iPureIntro.
    rewrite insert_id //. split; [done|]. split; [done|]. split; [done|]. by left. }
  rewrite (dir_word_none L D d _ Hok Hi Et) bool_decide_true //. wp_focus. iApply (wp_get_page with "H"); [done..|]. iSplit; last first.
  { iIntros "%Hfull H". rewrite bool_decide_true //. wp_finish. iDestruct "HΦ" as "[_ HΦ]". iApply ("HΦ" with "[] H"). by iPureIntro. }
  iIntros (t y) "%Hnew H". destruct Hnew as (Hnew & Hs & Hz & Hft). specialize (Hz eq_refl) as ->.
  pose proof (new_none _ _ _ Hnew) as Hnone. pose proof (new_pos _ _ _ Hnew) as [Hpos _]. rewrite bool_decide_false; [|lia].
  wp_focus. iApply wp_run; [intros h; by apply pde_create_run|]. wp_focus. rewrite {1}Hpd.
  destruct (ok_dir _ _ _ _ _ Hok pd d Hd) as [_ Hpw]. assert (t ≠ pd) as Hne by (intros ->; by rewrite Hx in Hnone).
  iApply (wp_write_word ks kn us un _ pd (dir_words d) with "H"); [by apply page_words_ne|lia|by apply pte_word_range|].
  rewrite dir_words_add; [|lia]. iIntros "%Hpw' H". wp_finish.
  pose proof (dirs_ok_add_table _ _ _ L D pd d _ t Hok Hd Hi Et Hft Hnone) as Hok'. iDestruct "HΦ" as "[HΦ _]".
  iApply (wp_lookup_end _ _ pd (add_table (table_of (page_of v)) t d) v t with "H");
    [exact Hok'|apply lookup_insert_eq|apply lookup_insert_eq|done|].
  iIntros "H". iApply ("HΦ" with "[] H"). iPureIntro. split; [exact Hok'|]. split; [apply lookup_insert_eq|]. split; [done|]. right.
  split; [done|]. split; [done|]. split; [eauto|]. intros a Ha. rewrite !lookup_insert_ne //; intros <-.
  - by apply (Ha (Table pd (table_of (page_of v)))); [eapply uses_table; apply lookup_insert_eq|].
  - by apply (Ha Directory); [eapply uses_dir, lookup_insert_eq|].
Qed.
End ops.
