(* ===== verification/PintosVmRefine.v ===== *)
(** The functions of pagedir.c implement the maps of [PintosVmSpec]: every call does
    what a step does. *)
From S2P Require Export PintosVmOps.
Local Open Scope Z_scope.

Section refine.
Context {ST : Statics} {PG : Paging} (ram_pages ks kn us un : Z) (Hlayout : layout_ok ks kn us un).
Context (Hlow : PHYS_BASE / PGSIZE <= ks) (Hhigh : us + un <= PHYS_BASE / PGSIZE + ram_pages).
Context (base : Z) (kd : dir) (K : gset Z).
Abbreviation cell := (Z + (pool + desc))%type.
Abbreviation alloc_rep := (alloc_rep ks kn us un).
Abbreviation dirs_ok := (dirs_ok base kd K).
Abbreviation uses := (uses K).
Abbreviation machine := (machine base).
Abbreviation vstep := (vstep ks kn us un base kd K).
Implicit Types (L : live) (D : gmap Z dir) (s : vm).

Definition active_ok D (act : Z) : Prop := act = base ∨ is_Some (D !! act).
Definition vm_rep s : hpropI cell :=
  (⌈dirs_ok (vm_live s) (vm_dirs s) ∧ active_ok (vm_dirs s) (vm_active s)⌉ ∗ alloc_rep (vm_live s) ∗ machine (vm_active s) (vm_loads s))%I.
Definition vexec_post s (c : vcmd) (r : Z) : hpropI cell := (∃ s', ⌈vstep s c r s'⌉ ∗ vm_rep s')%I.

Lemma active_insert D act pd d d' : D !! pd = Some d → active_ok D act → active_ok (<[pd := d']> D) act.
Proof.
  intros Hd [->|Ha]; [by left|right]. destruct (decide (pd = act)) as [->|]; [rewrite lookup_insert_eq|rewrite lookup_insert_ne //]. eauto.
Qed.

(** * The register CR3 *)

Lemma base_frame L D : dirs_ok L D → ∃ x, L !! base = Some (Paged 1, x).
Proof. intros Hok. destruct (ok_base _ _ _ _ _ Hok) as [(H & _) _]. eauto. Qed.

Lemma active_frame L D act : dirs_ok L D → active_ok D act → ∃ x, L !! act = Some (Paged 1, x).
Proof. intros Hok [->|[d Hd]]; [by eapply base_frame|by eapply pd_frame]. Qed.

Lemma wp_set_cr3 act n f Φ Ψ : machine act n -∗ (machine f (n + 1) -∗ Φ tt) -∗ wp (set_cr3 (f - PHYS_BASE)) Φ Ψ.
Proof.
  iIntros "(Hb & Hc & Hn) HΦ". unfold set_cr3. wp_store "Hc". wp_load "Hn". iApply (wp_store with "Hn"). iIntros "Hn".
  iApply "HΦ". iFrame.
Qed.

Lemma wp_activate act n pd f Φ Ψ : frame_ok f → (f = pd ∧ pd ≠ 0) ∨ (f = base ∧ pd = 0) →
  machine act n -∗ (machine f (n + 1) -∗ Φ tt) -∗ wp (pagedir_activate pd) Φ Ψ.
Proof.
  intros [_ Hf] Hpd. iIntros "H HΦ". unfold pagedir_activate. destruct Hpd as [[-> Hpd]|[-> ->]].
  - rewrite bool_decide_false //. wp_finish. wp_focus. iApply wp_run; [intros h; by apply vtop_run|]. iApply (wp_set_cr3 with "H HΦ").
  - rewrite bool_decide_true //. iDestruct "H" as "(Hb & Hc & Hn)". wp_load "Hb".
    wp_focus. iApply wp_run; [intros h; by apply vtop_run|]. iApply (wp_set_cr3 act n base with "[$Hb $Hc $Hn] HΦ").
Qed.

Lemma wp_invalidate act n pd Φ Ψ : frame_ok act →
  machine act n -∗ (machine act (reload act pd n) -∗ Φ tt) -∗ wp (invalidate_pagedir pd) Φ Ψ.
Proof.
  intros Ha. pose proof Ha as [_ Ha']. iIntros "(Hb & Hc & Hn) HΦ". unfold invalidate_pagedir, active_pd, reload. wp_focus. wp_load "Hc".
  iApply wp_run; [intros h; by apply ptov_run|]. case_bool_decide as E.
  - subst pd. iApply (wp_activate act n act act with "[$Hb $Hc $Hn] HΦ"); [done|]. left. split; [done|]. unfold PHYS_BASE in *. lia.
  - iApply wp_ret. iApply "HΦ". iFrame.
Qed.

Lemma activate_refines s pd : pd = 0 ∨ is_Some (vm_dirs s !! pd) → ⦃ vm_rep s ⦄ pagedir_activate pd ⦃ _u, vexec_post s (VActivate pd) 0 ⦄.
Proof.
  intros Hpd. unfold hoare. iIntros "(%Hs & H & Hm)". destruct Hs as [Hok Hact]. iDestruct (rep_frames with "H") as %Hf; [done..|].
  destruct Hpd as [->|Hpd].
  - destruct (base_frame _ _ Hok) as [x Hx]. iApply (wp_activate _ _ 0 base with "Hm"); [by eapply Hf|by right|]. iIntros "Hm".
    iExists _. iSplit; [iPureIntro; apply v_activate_base|]. iFrame. iPureIntro. split; [done|by left].
  - pose proof Hpd as [d Hd]. destruct (pd_frame _ _ _ _ _ _ _ Hok Hd) as [x Hx]. destruct (Hf _ _ Hx) as [[? Hr] _].
    iApply (wp_activate _ _ pd pd with "Hm"); [by eapply Hf|left; unfold PHYS_BASE in Hr; split; [done|lia]|]. iIntros "Hm".
    iExists _. iSplit; [iPureIntro; apply v_activate; [unfold PHYS_BASE in Hr; lia|done]|]. iFrame. iPureIntro. split; [done|by right].
Qed.

(** * Creating a directory *)

Lemma wp_copy_page L a b k x k' y n Φ Ψ : L !! a = Some (k, x) → L !! b = Some (k', y) → a ≠ b → 0 <= n <= size_of x → n <= size_of y →
  alloc_rep L -∗ (alloc_rep (<[a := (k, splice 0 (slice 0 n y) x)]> L) -∗ Φ a) -∗ wp (memcpy a b n) Φ Ψ.
Proof.
  intros Ha Hb Hne Hx Hy. iIntros "(%σ & %HL & H & HL) HΦ". rewrite (blocks_take L a k x Ha). iDestruct "HL" as "[Hxa HL]".
  assert (base.delete a L !! b = Some (k', y)) as Hb' by by rewrite lookup_delete_ne.
  rewrite {1}(blocks_take (base.delete a L) b k' y Hb'). iDestruct "HL" as "[Hyb HL]".
  iApply (hoare_wp_ret with "[Hxa Hyb]"); [by apply (memcpy_spec a b n x y)|iFrame|]. iIntros (r) "(-> & Hxa & Hyb)".
  iApply "HΦ". iExists σ. iFrame "H". iSplit.
  - iPureIntro. eapply matches_write; [done|done|]. rewrite size_of_splice; [done|lia|]. rewrite size_of_slice; lia.
  - rewrite -insert_delete_eq /blocks big_sepM_insert; [|apply lookup_delete_eq]. iFrame "Hxa".
    change (blocks (base.delete b (base.delete a L))) with ([∗ map] a ↦ kx ∈ base.delete b (base.delete a L), block a kx.2)%I.
    rewrite (big_sepM_delete _ (base.delete a L) b _ Hb'). iFrame.
Qed.

Lemma create_refines s : ⦃ vm_rep s ⦄ pagedir_create ⦃ r, vexec_post s VCreate r ⦄.
Proof.
  unfold hoare, pagedir_create. iIntros "(%Hs & H & Hm)". destruct Hs as [Hok Hact].
  wp_focus. iApply (wp_get_page with "H"); [done..|]. iSplit; last first.
  { iIntros "%Hfull H". rewrite bool_decide_false; [|tauto]. wp_finish. iExists s. iSplit; [iPureIntro; by apply v_create_null|]. by iFrame. }
  iIntros (r x) "%Hnew H". destruct Hnew as (Hnew & Hs & _ & Hfr). pose proof (new_none _ _ _ Hnew) as Hnone.
  pose proof (new_pos _ _ _ Hnew) as [Hpos _]. rewrite bool_decide_true; [|lia]. iDestruct "Hm" as "(Hb & Hc & Hn)". wp_load "Hb".
  destruct (ok_base _ _ _ _ _ Hok) as [(Hbase & Hlen & Hw) _]. assert (size_of (words_bytes (dir_words kd kd)) = PGSIZE) as Hsb.
  { rewrite size_of_words Hlen. done. }
  assert (r ≠ base) as Hne by (intros ->; by rewrite Hnone in Hbase).
  wp_focus. iApply (wp_copy_page _ r base with "H"); [apply lookup_insert_eq|by rewrite lookup_insert_ne|done|pg_lia|pg_lia|]. iIntros "H". wp_finish.
  rewrite -Hsb slice_all splice_all; [|lia]. rewrite insert_insert_eq.
  assert (new_block (vm_live s) r (words_bytes (dir_words kd kd))) as Hnew'.
  { destruct Hnew as [H1 H2 H3 H4]. split; [done|done| |by rewrite Hsb -Hs]. unfold words_bytes. apply Forall_bind, Forall_forall. intros. apply le_split_bytes. }
  iExists (Vm _ _ _ _). iSplit; [iPureIntro; by eapply v_create|]. iFrame. iPureIntro. split; [by apply dirs_ok_create|].
  destruct Hact as [->|[d Hd]]; [by left|right]. cbn. destruct (decide (r = vm_active s)) as [->|]; [rewrite lookup_insert_eq|rewrite lookup_insert_ne //]; eauto.
Qed.
(** * Entries *)

Lemma unused_base L D pd d : dirs_ok L D → D !! pd = Some d → pd ≠ base.
Proof.
  intros Hok Hd ->. destruct (ok_base _ _ _ _ _ Hok) as [_ HK].
  by assert (Kernel = Directory) by (eapply ok_sole; [done|by apply uses_kernel|by eapply uses_dir]).
Qed.

(** The address of an entry is not 0. *)
Lemma pte_pos t v : frame_ok t → t + 4 * pt_no v ≠ 0.
Proof.
  intros [_ Ht]. unfold PHYS_BASE in Ht. enough (0 <= pt_no v) by lia. unfold pt_no. apply Z.shiftr_nonneg, Z.land_nonneg. right. by vm_compute.
Qed.

Lemma unused_new_table L L' D pd d d' i t f : dirs_ok L D → D !! pd = Some d → unused_page K L D f → table_added K L L' D pd d d' i t →
  unused_page K L' (<[pd := d']> D) f.
Proof.
  intros Hok Hd Hf [[-> ->]|(-> & Hi & (x & Hnew & _) & Hsame)]; [by rewrite insert_id|].
  apply unused_add_table with (L := L) (d := d); [done|by apply (new_none _ _ _ Hnew)|done|]. apply Hsame.
  intros r [Hr|[_ ->]]%(uses_add_table _ _ _ d); [by destruct Hf as [_ Hf]; apply Hf in Hr| |done].
  destruct Hf as [[y Hy] _]. by rewrite (new_none _ _ _ Hnew) in Hy.
Qed.

Lemma same_user_set L L1 L2 D pd d d' v e i t : D !! pd = Some d →
  table_added K L L1 D pd d d' i t → same_user K L1 L2 (<[pd := set_entry v e d']> (<[pd := d']> D)) →
  same_user K L L2 (<[pd := set_entry v e d']> D).
Proof.
  rewrite insert_insert_eq. intros Hd [[-> ->]|(-> & _ & _ & H1)] H2; [done|]. intros a Ha. rewrite H2 //. apply H1. intros r Hr.
  destruct Hr as [a' Ha'|pd' d' Hd'|pd' d' j t' Hd' Ht'|pd' d' w e' Hd' He Hp]; [| | |tauto]; apply Ha.
  - by apply uses_kernel.
  - destruct (decide (pd = pd')) as [<-|Hne]; [eapply uses_dir, lookup_insert_eq|]. rewrite lookup_insert_ne // in Hd'.
    eapply uses_dir. by rewrite lookup_insert_ne.
  - destruct (decide (pd = pd')) as [<-|Hne].
    + rewrite lookup_insert_eq in Hd'. injection Hd' as <-. by eapply uses_table; [apply lookup_insert_eq|].
    + rewrite lookup_insert_ne // in Hd'. by eapply uses_table; [rewrite lookup_insert_ne|].
Qed.

Lemma set_page_refines s pd up f w : vcall_ok K s (VSetPage pd up f w) →
  ⦃ vm_rep s ⦄ pagedir_set_page ram_pages pd up f w ⦃ r, vexec_post s (VSetPage pd up f w) (Z.b2z r) ⦄.
Proof.
  intros (d & Hd & Hup & Hmod & Hf & Hnp). unfold hoare, pagedir_set_page. iIntros "(%Hs & H & Hm)". destruct Hs as [Hok Hact].
  iDestruct (rep_frames with "H") as %Hfr; [done..|]. pose proof Hf as [[x Hx] _]. destruct (Hfr _ _ Hx) as [Hff Hram].
  pose proof Hff as [Hf4 Hfb].
  wp_focus. iApply wp_ASSERT. rewrite pg_ofs_mod bool_decide_true //.
  wp_focus. iApply wp_ASSERT. rewrite pg_ofs_mod bool_decide_true //.
  wp_focus. iApply wp_ASSERT. unfold is_user_vaddr. rewrite bool_decide_true; [|unfold user_addr in Hup; lia].
  wp_focus. iApply wp_ASSERT_M. wp_focus. iApply wp_run; [intros h; by apply vtop_run|]. iApply wp_ret.
  iSplit; [iPureIntro; apply bool_decide_true; by rewrite Z.shiftr_div_pow2|].
  wp_focus. iApply wp_ASSERT_M. iDestruct "Hm" as "(Hb & Hc & Hn)". wp_load "Hb". wp_finish.
  iSplit; [iPureIntro; apply bool_decide_true; by eapply unused_base|]. iCombine "Hb Hc Hn" as "Hm".
  wp_focus. iApply (wp_lookup_create with "H"); [done..|]. iSplit; last first.
  { iIntros "%Hnull H". rewrite bool_decide_false; [|tauto]. wp_finish. iExists s. iSplit; [|by iFrame]. iPureIntro. destruct Hnull. by eapply v_set_null. }
  iIntros (L1 d1 t) "%Ht H". destruct Ht as (Hok1 & Ht & Hpages & Hadd).
  assert (<[pd := d1]> (vm_dirs s) !! pd = Some d1) as Hd1 by apply lookup_insert_eq. pose proof (table_frame _ _ _ _ _ _ _ _ _ Hok1 Hd1 Ht) as Hft.
  rewrite bool_decide_true; [|by apply pte_pos].
  assert (entry d1 (page_of up) = entry d (page_of up)) as He by by unfold entry; rewrite Hpages.
  assert (frame_ok (pte_frame (entry d (page_of up)))) as Hfe by (apply entry_ok; by apply (ok_dir _ _ _ _ _ Hok pd)).
  wp_focus. iApply wp_ASSERT_M. wp_focus. iApply (wp_read_pte with "H"); [done..|]. iIntros "H". iApply wp_ret. rewrite He.
  iSplit; [iPureIntro; by apply test_absent|].
  wp_focus. iApply wp_run; [intros h; by apply pte_create_user_run|]. wp_focus.
  iApply (wp_write_pte with "H"); [done..| |].
  { intros _. left. by eapply unused_new_table. }
  iIntros (L2) "%H2 H". destruct H2 as [Hok2 Hsame]. wp_finish. iExists (Vm L2 _ (vm_active s) (vm_loads s)). iSplit; last first.
  { iFrame. iPureIntro. split; [exact Hok2|]. eapply active_insert; [done|by eapply active_insert]. }
  iPureIntro. cbn. pose proof (same_user_set _ _ _ _ _ _ _ _ _ _ _ Hd Hadd Hsame) as Hsame'. rewrite insert_insert_eq.
  destruct Hadd as [[-> ->]|(-> & Hnone & (y & Hnew & Hy) & _)].
  - eapply v_set; [done|]. split; [done|]. split; [eauto|]. done.
  - by eapply v_set_table.
Qed.
(** A page without a table has no entry. *)
Lemma entry_no_table d v : dir_ok d → dir_tables d !! table_of v = None → entry d v = null_pte.
Proof.
  intros [_ H] Ht. unfold entry. destruct (dir_pages d !! v) as [e|] eqn:E; [|done].
  destruct (H v e E) as [[t Ht'] _]. by rewrite Ht in Ht'.
Qed.

(** The part that the functions on an entry begin with: the entry, if it has a place. *)
Lemma wp_lookup_entry {A} L D pd d v (k : Z → M (gmap loc cell) A) Φ Ψ : dirs_ok L D → D !! pd = Some d → user_addr v →
  alloc_rep L -∗
  (∀ pte, ⌈(pte = 0 ∧ dir_tables d !! table_of (page_of v) = None ∧ entry d (page_of v) = null_pte) ∨
     (pte ≠ 0 ∧ ∃ t, dir_tables d !! table_of (page_of v) = Some t ∧ pte = (t + 4 * pt_no v)%Z)⌉ -∗ alloc_rep L -∗ wp (k pte) Φ Ψ) -∗
  wp (pte ← lookup_page pd v false; k pte) Φ Ψ.
Proof.
  intros Hok Hd Hv. iIntros "H HΦ". wp_focus. iApply (wp_lookup_page with "H"); [done..|]. iIntros "H". iApply ("HΦ" with "[] H"). iPureIntro.
  unfold entry_at. destruct (dir_tables d !! table_of (page_of v)) as [t|] eqn:Et; [right|left].
  - split; [|by exists t]. apply pte_pos. by eapply table_frame.
  - split; [done|]. split; [done|]. apply entry_no_table; [by apply (ok_dir _ _ _ _ _ Hok pd)|done].
Qed.

Lemma entry_frame L D pd d v : dirs_ok L D → D !! pd = Some d → frame_ok (pte_frame (entry d v)).
Proof. intros Hok Hd. by apply entry_ok, (ok_dir _ _ _ _ _ Hok pd). Qed.

(** [pte != NULL && ( *pte & PTE_P) != 0] *)
Lemma wp_entry_present {A} L D pd d v pte (k : bool → M (gmap loc cell) A) Φ Ψ : dirs_ok L D → D !! pd = Some d → user_addr v →
  (pte = 0 ∧ dir_tables d !! table_of (page_of v) = None ∧ entry d (page_of v) = null_pte) ∨
    (pte ≠ 0 ∧ ∃ t, dir_tables d !! table_of (page_of v) = Some t ∧ pte = (t + 4 * pt_no v)%Z) →
  alloc_rep L -∗ (alloc_rep L -∗ wp (k (pte_present (entry d (page_of v)))) Φ Ψ) -∗
  wp (p ← (if bool_decide (pte ≠ 0) then w ← load_word pte; mret (bool_decide (Z.land w PTE_P ≠ 0)) else mret false); k p) Φ Ψ.
Proof.
  intros Hok Hd Hv Hpte. iIntros "H HΦ". destruct Hpte as [(-> & _ & He)|(Hne & t & Ht & ->)].
  - rewrite bool_decide_false; [|tauto]. wp_finish. rewrite He. by iApply "HΦ".
  - rewrite bool_decide_true //. wp_focus. iApply (wp_read_pte with "H"); [done..|]. iIntros "H". wp_finish.
    rewrite test_present; [by iApply "HΦ"|by eapply entry_frame].
Qed.

Lemma get_page_refines s pd a : is_Some (vm_dirs s !! pd) → user_addr a → ⦃ vm_rep s ⦄ pagedir_get_page pd a ⦃ r, vexec_post s (VGetPage pd a) r ⦄.
Proof.
  intros [d Hd] Ha. unfold hoare, pagedir_get_page. iIntros "(%Hs & H & Hm)". pose proof Hs as [Hok Hact].
  wp_focus. iApply wp_ASSERT. unfold is_user_vaddr. rewrite bool_decide_true; [|unfold user_addr in Ha; lia].
  iApply (wp_lookup_entry with "H"); [done..|]. iIntros (pte) "%Hpte H". iApply (wp_entry_present with "H"); [done..|]. iIntros "H".
  pose proof (v_get ks kn us un base kd K s pd a d Hd) as Hstep. pose proof (entry_frame _ _ _ _ (page_of a) Hok Hd) as He.
  destruct (pte_present (entry d (page_of a))) eqn:Ep; last first.
  { iApply wp_ret. iExists s. iSplit; [done|]. by iFrame. }
  destruct Hpte as [(_ & _ & E)|(_ & t & Ht & ->)]; [by rewrite E in Ep|].
  wp_focus. iApply (wp_read_pte with "H"); [done..|]. iIntros "H". wp_focus. iApply wp_run; [intros h; by apply pte_get_page_run|].
  iApply wp_ret. rewrite pg_ofs_mod. iExists s. iSplit; [done|]. by iFrame.
Qed.

(** Writing an entry that maps the page that it did, if it maps one. *)
Lemma wp_update_entry s pd d v t e n Φ Ψ : dirs_ok (vm_live s) (vm_dirs s) → active_ok (vm_dirs s) (vm_active s) →
  vm_dirs s !! pd = Some d → user_addr v → dir_tables d !! table_of (page_of v) = Some t →
  pte_frame e = pte_frame (entry d (page_of v)) → (pte_present e = true → pte_present (entry d (page_of v)) = true) →
  alloc_rep (vm_live s) -∗
  (∀ L', ⌈∃ s', s' = Vm L' (<[pd := set_entry (page_of v) e d]> (vm_dirs s)) (vm_active s) n ∧
      changed_entry K s pd d (page_of v) e n s' ∧ dirs_ok L' (vm_dirs s') ∧ active_ok (vm_dirs s') (vm_active s)⌉ -∗ alloc_rep L' -∗ Φ tt) -∗
  wp (store_word (t + 4 * pt_no v) (pte_word e)) Φ Ψ.
Proof.
  intros Hok Hact Hd Hv Ht Hf Hp. iIntros "H HΦ". pose proof (entry_frame _ _ _ _ (page_of v) Hok Hd) as He.
  iApply (wp_write_pte with "H"); [done..|by rewrite Hf| |].
  { intros Hpe. right. rewrite Hf. specialize (Hp Hpe). unfold entry in *. destruct (dir_pages d !! page_of v) as [e'|] eqn:E; [|done].
    by eapply uses_frame. }
  iIntros (L') "%H' H". destruct H' as [Hok' Hsame]. iApply ("HΦ" with "[] H"). iPureIntro. eexists. split; [done|].
  split; [split; [done|]; split; [eauto|]; done|]. split; [done|]. by eapply active_insert.
Qed.

Lemma clear_page_refines s pd up : vcall_ok K s (VClearPage pd up) → ⦃ vm_rep s ⦄ pagedir_clear_page pd up ⦃ _u, vexec_post s (VClearPage pd up) 0 ⦄.
Proof.
  intros ([d Hd] & Hup & Hmod). unfold hoare, pagedir_clear_page. iIntros "(%Hs & H & Hm)". pose proof Hs as [Hok Hact].
  iDestruct (rep_frames with "H") as %Hfr; [done..|]. destruct (active_frame _ _ _ Hok Hact) as [y Hy].
  wp_focus. iApply wp_ASSERT. rewrite pg_ofs_mod bool_decide_true //.
  wp_focus. iApply wp_ASSERT. unfold is_user_vaddr. rewrite bool_decide_true; [|unfold user_addr in Hup; lia].
  iApply (wp_lookup_entry with "H"); [done..|]. iIntros (pte) "%Hpte H". iApply (wp_entry_present with "H"); [done..|]. iIntros "H".
  pose proof (entry_frame _ _ _ _ (page_of up) Hok Hd) as He. destruct (pte_present (entry d (page_of up))) eqn:Ep; last first.
  { iApply wp_ret. iExists s. iSplit; [iPureIntro; by eapply v_clear_nothing|]. by iFrame. }
  destruct Hpte as [(_ & _ & E)|(_ & t & Ht & ->)]; [by rewrite E in Ep|].
  wp_focus. iApply (wp_read_pte with "H"); [done..|]. iIntros "H". rewrite clear_present //. wp_focus.
  iApply (wp_update_entry s pd d up t _ (reload (vm_active s) pd (vm_loads s)) with "H"); [done..|].
  iIntros (L') "%H' H". destruct H' as (s' & -> & Hch & Hok' & Hact').
  iApply (wp_invalidate with "Hm"); [by eapply Hfr|]. iIntros "Hm". iExists _. iSplit; [iPureIntro; by eapply v_clear|]. by iFrame.
Qed.

Lemma test_refines s pd a bit (get : pte → bool) : is_Some (vm_dirs s !! pd) → user_addr a →
  (∀ e, frame_ok (pte_frame e) → bool_decide (Z.land (pte_word e) bit ≠ 0) = get e) → get null_pte = false →
  ⦃ vm_rep s ⦄ pte_test bit pd a ⦃ r, ⌈∃ d, vm_dirs s !! pd = Some d ∧ r = get (entry d (page_of a))⌉ ∗ vm_rep s ⦄.
Proof.
  intros [d Hd] Ha Hget Hnull. unfold hoare, pte_test. iIntros "(%Hs & H & Hm)". pose proof Hs as [Hok Hact].
  iApply (wp_lookup_entry with "H"); [done..|]. iIntros (pte) "%Hpte H". pose proof (entry_frame _ _ _ _ (page_of a) Hok Hd) as He.
  destruct Hpte as [(-> & _ & E)|(Hne & t & Ht & ->)].
  - rewrite bool_decide_false; [|tauto]. iApply wp_ret. iFrame. iPureIntro. split; [|done]. exists d. by rewrite E Hnull.
  - rewrite bool_decide_true //. wp_focus. iApply (wp_read_pte with "H"); [done..|]. iIntros "H". iApply wp_ret. iFrame. iPureIntro.
    split; [|done]. exists d. by rewrite Hget.
Qed.

Lemma change_refines s pd a bit (b : bool) (set : bool → pte → pte) : is_Some (vm_dirs s !! pd) → user_addr a →
  (∀ e, frame_ok (pte_frame e) → Z.lor (pte_word e) bit = pte_word (set true e) ∧ Z.land (pte_word e) (wrap_u 32 (Z.lnot bit)) = pte_word (set false e)) →
  (∀ b e, pte_frame (set b e) = pte_frame e ∧ pte_present (set b e) = pte_present e) →
  ⦃ vm_rep s ⦄ pte_change bit pd a b
  ⦃ _u, (⌈∃ d, vm_dirs s !! pd = Some d ∧ dir_tables d !! table_of (page_of a) = None⌉ ∗ vm_rep s) ∨
    ∃ s', ⌈∃ d, changed_entry K s pd d (page_of a) (set b (entry d (page_of a))) (if b then vm_loads s else reload (vm_active s) pd (vm_loads s)) s'⌉ ∗
      vm_rep s' ⦄.
Proof.
  intros [d Hd] Ha Hbit Hset. unfold hoare, pte_change. iIntros "(%Hs & H & Hm)". pose proof Hs as [Hok Hact].
  iDestruct (rep_frames with "H") as %Hfr; [done..|]. destruct (active_frame _ _ _ Hok Hact) as [y Hy].
  iApply (wp_lookup_entry with "H"); [done..|]. iIntros (pte) "%Hpte H". pose proof (entry_frame _ _ _ _ (page_of a) Hok Hd) as He.
  destruct Hpte as [(-> & Hnone & E)|(Hne & t & Ht & ->)].
  { rewrite bool_decide_false; [|tauto]. iApply wp_ret. iLeft. iSplit; [iPureIntro; by exists d|]. by iFrame. }
  rewrite bool_decide_true //. wp_focus. iApply (wp_read_pte with "H"); [done..|]. iIntros "H".
  destruct (Hbit _ He) as [E1 E2]. destruct b.
  - rewrite E1. iApply (wp_update_entry s pd d a t _ (vm_loads s) with "H"); [done..|by apply Hset|by rewrite (proj2 (Hset _ _))|].
    iIntros (L') "%H' H". destruct H' as (s' & -> & Hch & Hok' & Hact'). iRight. iExists _. iSplit; [iPureIntro; by exists d|]. by iFrame.
  - rewrite E2. wp_focus. iApply (wp_update_entry s pd d a t _ (reload (vm_active s) pd (vm_loads s)) with "H"); [done..|by apply Hset|by rewrite (proj2 (Hset _ _))|].
    iIntros (L') "%H' H". destruct H' as (s' & -> & Hch & Hok' & Hact').
    iApply (wp_invalidate with "Hm"); [by eapply Hfr|]. iIntros "Hm". iRight. iExists _. iSplit; [iPureIntro; by exists d|]. by iFrame.
Qed.

(** * The walk of the processor *)

Lemma entry_allows e write user : frame_ok (pte_frame e) → pte_allows (pte_word e) write user = allows e write user.
Proof. intros H. unfold pte_allows, allows. by rewrite test_present // test_writable // test_user. Qed.

Lemma table_allows t write user : frame_ok t → pte_allows (pte_word (table_pte t)) write user = true.
Proof. intros H. rewrite entry_allows //. by destruct write, user. Qed.

(** The words of the directory that is active. *)
Lemma active_words s : dirs_ok (vm_live s) (vm_dirs s) → active_ok (vm_dirs s) (vm_active s) →
  let d := default empty_dir (vm_dirs s !! vm_active s) in dir_ok d ∧ page_words (vm_live s) (vm_active s) (dir_words kd d) ∧
  ∀ i t, dir_tables d !! i = Some t → page_words (vm_live s) t (table_words d i).
Proof.
  intros Hok Hact. cbn zeta. destruct (vm_dirs s !! vm_active s) as [d|] eqn:E.
  - destruct (ok_dir _ _ _ _ _ Hok _ _ E) as [H1 H2]. split; [done|]. split; [done|]. intros i t. by apply (ok_table _ _ _ _ _ Hok _ _ _ _ E).
  - destruct Hact as [->|[d Hd]]; [|congruence]. split; [split; intros ?? H; cbn in H; by rewrite lookup_empty in H|].
    split; [|intros i t H; cbn in H; by rewrite lookup_empty in H]. cbn [default]. rewrite dir_words_empty. apply (ok_base _ _ _ _ _ Hok).
Qed.

(** The table for an address, of the directory or of the kernel. *)
Lemma mapping_table s a : dirs_ok (vm_live s) (vm_dirs s) → active_ok (vm_dirs s) (vm_active s) → 0 <= a < 2 ^ 32 →
  frame_ok (pte_frame (mapping kd s a)) ∧
  match table_at kd (default empty_dir (vm_dirs s !! vm_active s)) (table_of (page_of a)) with
  | Some t => frame_ok t ∧ ∃ d, page_words (vm_live s) t (table_words d (table_of (page_of a))) ∧ entry d (page_of a) = mapping kd s a
  | None => mapping kd s a = null_pte
  end.
Proof.
  intros Hok Hact Ha. destruct (active_words s Hok Hact) as (Hd & _ & Htabs). set (d := default empty_dir _) in *.
  pose proof (ok_kernel _ _ _ _ _ Hok) as [Hkt Hkp]. unfold mapping. fold d. unfold table_at. case_bool_decide as Hlow'.
  - split; [by apply entry_ok|]. destruct (dir_tables d !! table_of (page_of a)) as [t|] eqn:E.
    + split; [by apply (ok_tables _ Hd _ _ E)|]. exists d. split; [by apply Htabs|done].
    + destruct (dir_tables kd !! table_of (page_of a)) as [t|] eqn:Ek; [|by apply entry_no_table].
      destruct (Hkt _ _ Ek) as [Hi _]. unfold table_of, page_of, PHYS_BASE in *. pg_lia.
  - split; [unfold entry; destruct (dir_pages kd !! page_of a) eqn:E; [by eapply Hkp|apply null_frame]|].
    destruct (dir_tables d !! table_of (page_of a)) as [t|] eqn:E.
    { destruct (ok_tables _ Hd _ _ E) as [Hi _]. unfold table_of, page_of, PHYS_BASE in *. pg_lia. }
    destruct (dir_tables kd !! table_of (page_of a)) as [t|] eqn:Ek.
    + split; [by apply (Hkt _ _ Ek)|]. exists kd. split; [by apply (ok_kernel_table _ _ _ _ _ Hok)|done].
    + unfold entry. destruct (dir_pages kd !! page_of a) as [e|] eqn:Ee; [|done]. destruct (Hkp _ _ Ee) as [[t Ht] _]. by rewrite Ek in Ht.
Qed.

Lemma translate_refines s a write user : 0 <= a < 2 ^ 32 →
  ⦃ vm_rep s ⦄ translate a write user ⦃ r, vexec_post s (VTranslate a write user) r ⦄.
Proof.
  intros Ha. unfold hoare, translate, walk. iIntros "(%Hs & H & (Hb & Hc & Hn))". pose proof Hs as [Hok Hact]. wp_load "Hc".
  iCombine "Hb Hc Hn" as "Hm". pose proof (v_translate ks kn us un base kd K s a write user) as Hstep. cbn zeta in Hstep.
  destruct (page_split a ltac:(lia)) as [-> ->]. destruct (active_words s Hok Hact) as (_ & Hpw & _).
  destruct (mapping_table s a Hok Hact Ha) as [Hfr Htab].
  assert (0 <= table_of (page_of a) < 1024) as Hi by (unfold table_of, page_of; pg_lia).
  wp_focus. replace (PHYS_BASE + (vm_active s - PHYS_BASE)) with (vm_active s) by lia.
  iApply (wp_read_word with "H"); [exact Hpw|lia|by apply word_fmap|]. iIntros "H". unfold dir_word.
  destruct (table_at kd _ (table_of (page_of a))) as [t|] eqn:Et; cbn [from_option].
  - destruct Htab as (Hft & d & Htw & He). rewrite table_allows //. wp_focus. rewrite pte_word_address //. cbn [table_pte user_pte pte_frame].
    replace (PHYS_BASE + (t - PHYS_BASE)) with t by lia.
    iApply (wp_read_word with "H"); [exact Htw|apply place_bound|apply word_entry|]. iIntros "H". rewrite He. iApply wp_ret.
    rewrite entry_allows // pte_word_address // pg_ofs_mod. iExists s. iSplit; [done|]. by iFrame.
  - iApply wp_ret. iExists s. rewrite Htab in Hstep. iSplit; [done|]. by iFrame.
Qed.
End refine.
