(* ===== verification/PintosVmDestroy.v ===== *)
(** Destroying a page directory gives back its pages, and the calls of the allocators
    next to page directories. *)
From S2P Require Export PintosVmRefine.
Local Open Scope Z_scope.

Section destroy.
Context {ST : Statics} {PG : Paging} (ram_pages ks kn us un : Z) (Hlayout : layout_ok ks kn us un).
Context (Hlow : PHYS_BASE / PGSIZE <= ks) (Hhigh : us + un <= PHYS_BASE / PGSIZE + ram_pages).
Context (base : Z) (kd : dir) (K : gset Z).
Abbreviation cell := (Z + (pool + desc))%type.
Abbreviation alloc_rep := (alloc_rep ks kn us un).
Abbreviation dirs_ok := (dirs_ok base kd K).
Abbreviation uses := (uses K).
Abbreviation machine := (machine base).
Abbreviation vstep := (vstep ks kn us un base kd K).
Abbreviation vm_rep := (vm_rep ks kn us un base kd K).
Abbreviation vexec_post := (vexec_post ks kn us un base kd K).
Implicit Types (L : live) (D : gmap Z dir) (s : vm).

(** * Loops over words *)

Lemma wp_for_words a n (body : Z → M (gmap loc cell) unit) (I : Z → hpropI cell) Φ Ψ : 0 <= n →
  (∀ i, 0 <= i < n → I i ⊢ wp (load_word (a + 4 * i)) (λ w, wp (body w) (λ _, I (i + 1)) (λ _, False)) (λ _, False)) →
  I 0 -∗ (I n -∗ Φ tt) -∗ wp (for_words a n body) Φ Ψ.
Proof.
  intros Hn Hbody. iIntros "H HΦ". unfold for_words.
  assert (∀ fuel i, 0 <= i <= n → n - i < Z.of_nat fuel → I i ⊢ wp (loop fuel (λ i,
    if bool_decide (i < n) then w ← load_word (a + 4 * i); body w;; mret (inl (i + 1)) else mret (inr tt)) i) (λ _, I n) (λ _, False%I)) as Hloop.
  { induction fuel as [|fuel IH]; intros i Hi Hf; [lia|]. iIntros "H". iApply wp_loop. case_bool_decide as Hlt.
    - iDestruct (Hbody i with "H") as "H"; [lia|]. iApply wp_bind. iApply (wp_wand with "H"). iSplit; [|iIntros (e) "[]"].
      iIntros (w) "H". wp_focus. iApply (wp_wand with "H"). iSplit; [|iIntros (e) "[]"]. iIntros (_u) "H". wp_finish.
      iApply (IH with "H"); lia.
    - replace i with n by lia. by wp_finish. }
  iApply (wp_wand with "[H]"); [iApply (Hloop with "H"); lia|]. iSplit; [|iIntros (e) "[]"]. iIntros (u) "H". destruct u. by iApply "HΦ".
Qed.

(** * Destroying *)

(** The pages of a directory that are gone before entry [k] of table [i]. *)
Definition gone (d : dir) (i k : Z) (a : Z) : Prop :=
  (∃ j, j < i ∧ dir_tables d !! j = Some a) ∨
  (∃ v e, v < 1024 * i + k ∧ dir_pages d !! v = Some e ∧ pte_present e = true ∧ pte_frame e = a).

(** [L'] is [L] without the pages in [P]. *)
Definition without L (P : Z → Prop) L' : Prop := (∀ a, P a → L' !! a = None) ∧ (∀ a, ¬ P a → L' !! a = L !! a).

Lemma without_delete L (P Q : Z → Prop) L' f : without L P L' → (∀ a, Q a ↔ P a ∨ a = f) → without L Q (base.delete f L').
Proof.
  intros [H1 H2] HQ. split; intros a Ha.
  - apply HQ in Ha as [Ha| ->]; [|apply lookup_delete_eq]. destruct (decide (f = a)) as [->|]; [apply lookup_delete_eq|].
    rewrite lookup_delete_ne //. by apply H1.
  - rewrite HQ in Ha. rewrite lookup_delete_ne; [|intros ->; apply Ha; by right]. apply H2. tauto.
Qed.

Lemma without_ext L (P Q : Z → Prop) L' : without L P L' → (∀ a, Q a ↔ P a) → without L Q L'.
Proof. intros [H1 H2] HQ. split; intros a Ha; [apply H1|apply H2]; rewrite -?HQ //; by rewrite HQ in Ha. Qed.

Lemma gone_uses D pd d i k a : D !! pd = Some d → gone d i k a → ∃ r, uses D a r ∧
  ((∃ j, j < i ∧ r = Table pd j) ∨ (∃ v, v < 1024 * i + k ∧ r = Mapped pd v)).
Proof.
  intros Hd [(j & Hj & Ht)|(v & e & Hv & He & Hp & <-)].
  - exists (Table pd j). split; [by eapply uses_table|]. left. eauto.
  - exists (Mapped pd v). split; [by eapply uses_frame|]. right. eauto.
Qed.

(** What is used otherwise is still there. *)
Lemma not_gone L D pd d i k a r : dirs_ok L D → D !! pd = Some d → uses D a r →
  (∀ j, j < i → r ≠ Table pd j) → (∀ v, v < 1024 * i + k → r ≠ Mapped pd v) → ¬ gone d i k a.
Proof.
  intros Hok Hd Hr H1 H2 (r' & Hr' & Hc)%(gone_uses D pd d i k a Hd). assert (r = r') as -> by by eapply ok_sole.
  destruct Hc as [(j & Hj & ->)|(v & Hv & ->)]; [by apply (H1 j)|by apply (H2 v)].
Qed.

Lemma wp_free_page L a x Φ Ψ : L !! a = Some (Paged 1, x) →
  alloc_rep L -∗ (alloc_rep (base.delete a L) -∗ Φ tt) -∗ wp (palloc_free_page a) Φ Ψ.
Proof.
  intros Ha. iIntros "H HΦ". unfold palloc_free_page. iApply (hoare_wp_ret with "H"); [apply (free_pages_refines_step ks kn us un Hlayout L a 1); by exists x|].
  iIntros (_u) "(%L' & %Hstep & H)". destruct _u. inversion Hstep; subst. by iApply "HΦ".
Qed.

Lemma gone_step d i k : (∀ e, dir_pages d !! (1024 * i + k) = Some e → pte_present e = false) → ∀ a, gone d i (k + 1) a ↔ gone d i k a.
Proof.
  intros Hno a. unfold gone. split; (intros [H|(v & e & Hv & He & Hp & Hf)]; [by left|right; exists v, e]).
  - split; [|done]. destruct (decide (v = 1024 * i + k)) as [->|]; [|lia]. specialize (Hno e He). congruence.
  - split; [lia|done].
Qed.

Lemma gone_step_frame d i k e : dir_pages d !! (1024 * i + k) = Some e → pte_present e = true →
  ∀ a, gone d i (k + 1) a ↔ gone d i k a ∨ a = pte_frame e.
Proof.
  intros He Hp a. unfold gone. split.
  - intros [H|(v & e' & Hv & He' & Hp' & Hf)]; [by left; left|]. destruct (decide (v = 1024 * i + k)) as [->|].
    + right. congruence.
    + left. right. exists v, e'. split; [lia|done].
  - intros [[H|(v & e' & Hv & He' & Hp' & Hf)]| ->]; [by left|right; exists v, e'; split; [lia|done]|right].
    exists (1024 * i + k), e. split; [lia|done].
Qed.

(** The entries of a table. *)
Lemma destroy_entries L D pd d i t Φ Ψ : dirs_ok L D → D !! pd = Some d → dir_tables d !! i = Some t →
  (∃ L', ⌈without L (gone d i 0) L'⌉ ∗ alloc_rep L') -∗
  ((∃ L', ⌈without L (gone d i 1024) L'⌉ ∗ alloc_rep L') -∗ Φ tt) -∗
  wp (for_words t (PGSIZE / 4) (λ pte,
    if bool_decide (Z.land pte PTE_P ≠ 0) then page ← pte_get_page pte; palloc_free_page page else mret tt)) Φ Ψ.
Proof.
  intros Hok Hd Ht. change (PGSIZE / 4) with 1024.
  apply (wp_for_words t 1024 _ (λ k, ∃ L', ⌈without L (gone d i k) L'⌉ ∗ alloc_rep L')%I); [done|].
  intros k Hk. iIntros "(%L' & %HL & H)". pose proof (uses_table K D pd d i t Hd Ht) as Hut.
  assert (page_words L' t (table_words d i)) as Hpw.
  { eapply page_words_same; [|by eapply ok_table]. apply HL. eapply not_gone; [done|done|exact Hut| |done].
    intros j Hj [= ->]. lia. }
  iApply (wp_read_word with "H"); [exact Hpw|lia|by apply word_table|]. iIntros "H".
  assert (frame_ok (pte_frame (entry d (1024 * i + k)))) as Hf by by eapply entry_frame.
  rewrite test_present //. destruct (pte_present (entry d (1024 * i + k))) eqn:Ep.
  - unfold entry in Ep, Hf |- *. destruct (dir_pages d !! (1024 * i + k)) as [e|] eqn:Ee; [cbn [default] in *|done].
    wp_focus. iApply wp_run; [intros h; by apply pte_get_page_run|].
    pose proof (uses_frame K D pd d _ e Hd Ee Ep) as Hu. destruct (ok_used _ _ _ _ _ Hok _ _ Hu) as [x Hx].
    assert (L' !! pte_frame e = Some (Paged 1, x)) as Hx'.
    { rewrite (proj2 HL) //. eapply not_gone; [done|done|exact Hu|done|]. intros v Hv [= <-]. lia. }
    iApply (wp_free_page with "H"); [exact Hx'|]. iIntros "H". iExists _. iFrame. iPureIntro. eapply without_delete; [done|by apply gone_step_frame].
  - iApply wp_ret. iExists L'. iFrame. iPureIntro. eapply without_ext; [done|]. apply gone_step. intros e He. unfold entry in Ep. by rewrite He in Ep.
Qed.
Lemma gone_skip d i : dir_ok d → dir_tables d !! i = None → ∀ a, gone d (i + 1) 0 a ↔ gone d i 0 a.
Proof.
  intros [_ H] Hi a. unfold gone. split.
  - intros [(j & Hj & Ht)|(v & e & Hv & He & Hp)]; [left; exists j|right; exists v, e].
    + split; [|done]. destruct (decide (j = i)) as [->|]; [by rewrite Hi in Ht|lia].
    + split; [|done]. destruct (H v e He) as [[t Ht] _]. unfold table_of in Ht.
      destruct (decide (v / 1024 = i)) as [Ev|]; [by rewrite Ev Hi in Ht|div_lia].
  - intros [(j & Hj & Ht)|(v & e & Hv & He)]; [left; exists j|right; exists v, e]; (split; [lia|done]).
Qed.

Lemma gone_table d i t : dir_tables d !! i = Some t → ∀ a, gone d (i + 1) 0 a ↔ gone d i 1024 a ∨ a = t.
Proof.
  intros Hi a. unfold gone. split.
  - intros [(j & Hj & Ht)|(v & e & Hv & He)]; [|left; right; exists v, e; split; [lia|done]].
    destruct (decide (j = i)) as [->|]; [right; congruence|left; left; exists j; split; [lia|done]].
  - intros [[(j & Hj & Ht)|(v & e & Hv & He)]| ->]; [left; exists j|right; exists v, e|left; exists i]; (split; [lia|done]).
Qed.

Lemma gone_all d pd a : dir_ok d → owned pd d a ↔ gone d 768 0 a ∨ a = pd.
Proof.
  intros [H1 H2]. unfold owned, gone. split.
  - intros [->|[[i Hi]|(v & e & He & Hp)]]; [by right|left; left; exists i|left; right; exists v, e].
    + split; [|done]. destruct (H1 i a Hi). lia.
    + split; [|done]. destruct (H2 v e He) as [[t Ht] _]. destruct (H1 _ _ Ht) as [Hv _]. unfold table_of in Hv. div_lia.
  - intros [[(j & _ & Ht)|(v & e & _ & He)]| ->]; [right; left; by exists j|right; right; by exists v, e|by left].
Qed.

(** A table with its entries. *)
Lemma destroy_table L D pd d i L' Φ Ψ : dirs_ok L D → D !! pd = Some d → 0 <= i < 768 → without L (gone d i 0) L' →
  alloc_rep L' -∗ ((∃ L', ⌈without L (gone d (i + 1) 0) L'⌉ ∗ alloc_rep L') -∗ Φ tt) -∗ wp (destroy_pt (dir_word kd d i)) Φ Ψ.
Proof.
  intros Hok Hd Hi HL. iIntros "H HΦ". unfold destroy_pt. destruct (ok_dir _ _ _ _ _ Hok pd d Hd) as [Hdok _].
  destruct (dir_tables d !! i) as [t|] eqn:Et; last first.
  { rewrite (dir_word_none base kd K L D d i Hok Hi Et). rewrite bool_decide_false; [|tauto]. iApply wp_ret. iApply "HΦ". iExists L'. iFrame. iPureIntro.
    eapply without_ext; [done|by apply gone_skip]. }
  rewrite (dir_word_table kd d i t Et). assert (frame_ok t) as Hft by by eapply table_frame.
  rewrite test_present //. change (pte_present (table_pte t)) with true. cbv beta iota.
  wp_focus. iApply wp_run; [intros h; by apply pde_get_pt_run|]. change (pte_frame (table_pte t)) with t.
  wp_focus. iApply (destroy_entries with "[H]"); [done..|iExists L'; by iFrame|]. iIntros "(%L2 & %HL2 & H)".
  pose proof (uses_table K D pd d i t Hd Et) as Hu. destruct (ok_used _ _ _ _ _ Hok _ _ Hu) as [x Hx].
  assert (L2 !! t = Some (Paged 1, x)) as Hx2.
  { rewrite (proj2 HL2) //. eapply not_gone; [done|done|exact Hu| |done]. intros j Hj [= ->]. lia. }
  iApply (wp_free_page with "H"); [exact Hx2|]. iIntros "H". iApply "HΦ". iExists _. iFrame. iPureIntro.
  eapply without_delete; [done|by apply gone_table].
Qed.

Lemma destroy_refines s pd : vcall_ok K s (VDestroy pd) → ⦃ vm_rep s ⦄ pagedir_destroy pd ⦃ _u, vexec_post s (VDestroy pd) 0 ⦄.
Proof.
  intros Hpd. unfold hoare, pagedir_destroy. iIntros "(%Hs & H & Hm)". pose proof Hs as [Hok Hact].
  destruct Hpd as [->|[[d Hd] Hne]].
  { rewrite bool_decide_true //. iApply wp_ret. iExists s. iSplit; [iPureIntro; apply v_destroy_null|]. by iFrame. }
  iDestruct (rep_frames with "H") as %Hfr; [done..|]. destruct (pd_frame _ _ _ _ _ _ _ Hok Hd) as [x Hx].
  destruct (Hfr _ _ Hx) as [[_ Hpos] _]. rewrite bool_decide_false; [|unfold PHYS_BASE in Hpos; lia].
  wp_focus. iApply wp_ASSERT_M. iDestruct "Hm" as "(Hb & Hc & Hn)". wp_load "Hb". wp_finish.
  iSplit; [iPureIntro; apply bool_decide_true; by eapply unused_base|]. iCombine "Hb Hc Hn" as "Hm".
  set (L := vm_live s) in *. set (D := vm_dirs s) in *. pose proof (uses_dir K D pd d Hd) as Hu.
  destruct (ok_dir _ _ _ _ _ Hok pd d Hd) as [Hdok Hpw].
  assert (∀ i L', without L (gone d i 0) L' → L' !! pd = L !! pd) as Hkeep by (intros i L' HL; apply HL; by eapply not_gone).
  wp_focus. change (pd_no PHYS_BASE) with 768.
  iApply (wp_for_words pd 768 destroy_pt (λ i, ∃ L', ⌈without L (gone d i 0) L'⌉ ∗ alloc_rep L')%I with "[H]"); [done| | |].
  { intros i Hi. iIntros "(%L' & %HL & H)".
    iApply (wp_read_word with "H"); [eapply page_words_same; [by eapply Hkeep|exact Hpw]|lia|apply word_fmap; lia|]. iIntros "H".
    iApply (destroy_table with "H"); [done..|]. iIntros "H". iExact "H". }
  { iExists L. iFrame. iPureIntro. split; [|done]. intros a [(j & Hj & Ht)|(v & e & Hv & He & _)].
    - destruct (ok_tables d Hdok j a Ht). lia.
    - destruct (ok_pages d Hdok v e He) as [[t Ht] _]. destruct (ok_tables d Hdok _ _ Ht) as [Hi _]. unfold table_of in Hi. div_lia. }
  iIntros "(%L' & %HL & H)". iApply (wp_free_page with "H"); [by erewrite (Hkeep _ _ HL)|]. iIntros "H".
  assert (without L (owned pd d) (base.delete pd L')) as [H1 H2].
  { eapply without_delete; [done|]. intros a. by apply gone_all. }
  iExists (Vm (base.delete pd L') (base.delete pd D) (vm_active s) (vm_loads s)). iSplit; [iPureIntro; by eapply v_destroy|]. iFrame. iPureIntro.
  split; [by eapply dirs_ok_destroy|]. destruct Hact as [->|Ha]; [by left|right]. cbn. by rewrite lookup_delete_ne.
Qed.

(** * The allocators *)

Lemma rep_apart L : alloc_rep L ⊢ ⌜all_apart L⌝.
Proof.
  iIntros "(%σ & %HL & H & Hb)". iDestruct (inv_pure with "H") as %[Hwf _].
  iIntros (a k x b k' y Ha Hb Hne). rewrite (blocks_take L a k x Ha). iDestruct "Hb" as "[Hx Hb]".
  assert (base.delete a L !! b = Some (k', y)) as Hb' by by rewrite lookup_delete_ne.
  rewrite (blocks_take (base.delete a L) b k' y Hb'). iDestruct "Hb" as "[Hy _]".
  iApply (block_apart with "[$Hx $Hy]").
  - apply (handed_pos ks kn us un σ a k); [done|]. apply HL. eauto.
  - apply (handed_pos ks kn us un σ b k'); [done|]. apply HL. eauto.
Qed.

(** A byte is in one block. *)
Lemma same_block L p k x i p' k' x' i' : all_apart L → L !! p = Some (k, x) → L !! p' = Some (k', x') →
  0 <= i < size_of x → 0 <= i' < size_of x' → p + i = p' + i' → p = p'.
Proof.
  intros H Hp Hp' Hi Hi' E. destruct (decide (p = p')) as [|Hne]; [done|]. destruct (H p k x p' k' x' Hp Hp' Hne); lia.
Qed.

Lemma alloc_keeps L D c r L' : dirs_ok L D → all_apart L → vcall_ok K (Vm L D 0 0) (VAlloc c) → astep ks kn us un L c r L' → dirs_ok L' D.
Proof.
  intros Hok Hap [Hc Hv] Hstep. assert (∀ a x, L !! a = Some (Heap, x) → ∀ r, ¬ uses D a r) as Hheap.
  { intros a x Ha r' Hr. destruct (ok_used _ _ _ _ _ Hok a r' Hr) as [y Hy]. congruence. }
  assert (∀ a, (∀ r, ¬ uses D a r) → dirs_ok (base.delete a L) D) as Hdel.
  { intros a Ha. eapply dirs_ok_memory; [done|]. intros b r' Hr. assert (a ≠ b) as Hne by (intros ->; by eapply Ha).
    rewrite lookup_delete_ne //. split; [by eapply ok_used|done]. }
  destruct Hstep; try done; try (apply dirs_ok_new; [done|by eapply new_none]); try (by eapply Hdel, Hheap).
  - apply dirs_ok_new; [by eapply Hdel, Hheap|]. rewrite lookup_delete_None. right. by eapply new_none.
  - by apply Hdel.
  - cbn in Hv. destruct Hv as (p' & k' & x' & i' & Hp' & Hi' & E & Hint). assert (p = p') as <- by by eapply same_block.
    eapply dirs_ok_memory; [done|]. intros b r' Hr. destruct (decide (p = b)) as [<-|Hne].
    + rewrite lookup_insert_eq. destruct (ok_used _ _ _ _ _ Hok _ _ Hr) as [y Hy]. split; [|intros Hi; by apply Hint in Hr].
      assert (k = Paged 1) as -> by congruence. eauto.
    + rewrite lookup_insert_ne //. split; [by eapply ok_used|done].
Qed.

Lemma alloc_refines_step s c : vcall_ok K s (VAlloc c) → ⦃ vm_rep s ⦄ exec c ⦃ r, vexec_post s (VAlloc c) r ⦄.
Proof.
  intros Hc. unfold hoare. iIntros "(%Hs & H & Hm)". destruct Hs as [Hok Hact]. iDestruct (rep_apart with "H") as %Hap.
  iApply (hoare_wp_ret with "H"); [apply (exec_refines_step ks kn us un Hlayout); apply Hc|]. iIntros (r) "(%L' & %Hstep & H)".
  iExists (Vm L' (vm_dirs s) (vm_active s) (vm_loads s)). iSplit; [iPureIntro; by apply v_alloc|]. iFrame. iPureIntro.
  split; [by eapply alloc_keeps|done].
Qed.

(** * Programs *)

Lemma vexec_refines s c : vcall_ok K s c → ⦃ vm_rep s ⦄ vexec ram_pages c ⦃ r, vexec_post s c r ⦄.
Proof.
  intros Hc. destruct c as [c| |pd|pd up f w|pd a|pd up|pd a|pd a b|pd a|pd a b|pd|a wr us']; cbn [vexec].
  - by apply alloc_refines_step.
  - by apply (create_refines ram_pages ks kn us un).
  - unfold hoare. iIntros "H". wp_focus. iApply (hoare_wp_ret with "H"); [by apply destroy_refines|]. iIntros (_u) "H". by iApply wp_ret.
  - unfold hoare. iIntros "H". wp_focus. iApply (hoare_wp_ret with "H"); [by apply (set_page_refines ram_pages ks kn us un)|]. iIntros (r) "H". by iApply wp_ret.
  - destruct Hc. by apply (get_page_refines ram_pages ks kn us un).
  - unfold hoare. iIntros "H". wp_focus. iApply (hoare_wp_ret with "H"); [by apply (clear_page_refines ram_pages ks kn us un)|]. iIntros (_u) "H". by iApply wp_ret.
  - destruct Hc as [Hd Ha]. unfold hoare. iIntros "H". wp_focus.
    iApply (hoare_wp_ret with "H"); [by apply (test_refines ram_pages ks kn us un Hlayout Hlow Hhigh base kd K s pd a PTE_D pte_dirty Hd Ha test_dirty)|].
    iIntros (r) "[(%d & %Hd' & ->) H]". iApply wp_ret. iExists s. iFrame. iPureIntro. by apply v_is_dirty.
  - destruct Hc as [Hd Ha]. unfold hoare. iIntros "H". wp_focus.
    iApply (hoare_wp_ret with "H"); [by apply (change_refines ram_pages ks kn us un Hlayout Hlow Hhigh base kd K s pd a PTE_D b with_dirty Hd Ha change_dirty)|].
    iIntros (_u) "[[%Hn H]|(%s' & %Hs & H)]"; iApply wp_ret.
    + destruct Hn as (d & Hd' & Hn). iExists s. iFrame. iPureIntro. eapply v_set_flag_nothing; [done|done|by left].
    + destruct Hs as (d & Hs). iExists s'. iFrame. iPureIntro. by eapply v_set_dirty.
  - destruct Hc as [Hd Ha]. unfold hoare. iIntros "H". wp_focus.
    iApply (hoare_wp_ret with "H"); [by apply (test_refines ram_pages ks kn us un Hlayout Hlow Hhigh base kd K s pd a PTE_A pte_accessed Hd Ha test_accessed)|].
    iIntros (r) "[(%d & %Hd' & ->) H]". iApply wp_ret. iExists s. iFrame. iPureIntro. by apply v_is_accessed.
  - destruct Hc as [Hd Ha]. unfold hoare. iIntros "H". wp_focus.
    iApply (hoare_wp_ret with "H"); [by apply (change_refines ram_pages ks kn us un Hlayout Hlow Hhigh base kd K s pd a PTE_A b with_accessed Hd Ha change_accessed)|].
    iIntros (_u) "[[%Hn H]|(%s' & %Hs & H)]"; iApply wp_ret.
    + destruct Hn as (d & Hd' & Hn). iExists s. iFrame. iPureIntro. eapply v_set_flag_nothing; [done|done|by right].
    + destruct Hs as (d & Hs). iExists s'. iFrame. iPureIntro. by eapply v_set_accessed.
  - unfold hoare. iIntros "H". wp_focus. iApply (hoare_wp_ret with "H"); [by apply (activate_refines ram_pages ks kn us un)|]. iIntros (_u) "H". by iApply wp_ret.
  - by apply (translate_refines ks kn us un).
Qed.

Lemma vclient_refines p s : vlegal ks kn us un base kd K s p →
  ⦃ vm_rep s ⦄ run_vclient ram_pages p ⦃ t, ∃ s', ⌈vsteps ks kn us un base kd K s t s'⌉ ∗ vm_rep s' ⦄.
Proof.
  revert s. induction p as [|c k IH]; intros s Hp; unfold hoare; cbn [run_vclient]; iIntros "H".
  - iApply wp_ret. iExists s. iFrame. iPureIntro. constructor.
  - destruct Hp as [Hok Hk]. wp_focus. iApply (hoare_wp_ret with "H"); [by apply vexec_refines|].
    iIntros (r) "(%s' & %Hstep & H)". wp_focus. iApply (hoare_wp_ret with "H"); [by apply IH, Hk|].
    iIntros (t) "(%s'' & %Ht & H)". iApply wp_ret. iExists s''. iFrame. iPureIntro. by econstructor.
Qed.
End destroy.
