(* ===== verification/PintosPaging.v ===== *)
(** [paging_init] of threads/init.c: the base directory, which maps the memory of the
    machine from [PHYS_BASE] on. *)
From S2P Require Export PintosVmDestroy.
Local Open Scope Z_scope.

(** The first page of the kernel. *)
Abbreviation FIRST := 786432.

Section paging.
Context {ST : Statics} {PG : Paging} (ram_pages ks kn us un : Z) (Hlayout : layout_ok ks kn us un).
Context (start end_kernel_text : Z).
Abbreviation cell := (Z + (pool + desc))%type.
Abbreviation alloc_rep := (alloc_rep ks kn us un).
Implicit Types (L : live) (d : dir).

(** The entry for a page of the kernel: its text is read-only. *)
Definition kernel_pte (v : Z) : pte :=
  let a := PGSIZE * v in Pte a true (negb (bool_decide (start <= a) && bool_decide (a < end_kernel_text))) false false false.

(** After [p] pages, with [n] tables: only the tables and the directory at [b] are in
    use. *)
Record kernel_dir L (b n p : Z) d : Prop := {
  kd_dir : page_words L b (dir_words empty_dir d);
  kd_table i t : dir_tables d !! i = Some t → page_words L t (table_words d i) ∧ t ≠ b ∧ frame_ok t;
  kd_sole i j t : dir_tables d !! i = Some t → dir_tables d !! j = Some t → i = j;
  kd_tables i : is_Some (dir_tables d !! i) ↔ 768 <= i < 768 + n;
  kd_pages v : dir_pages d !! v = if decide (FIRST <= v < FIRST + p) then Some (kernel_pte v) else None;
  kd_live a : is_Some (L !! a) → a = b ∨ ∃ i, dir_tables d !! i = Some a;
  kd_size : Z.of_nat (size L) = 1 + n;
}.

Lemma kernel_frame v : FIRST <= v < 2 ^ 20 → frame_ok (pte_frame (kernel_pte v)).
Proof. intros Hv. unfold frame_ok, PHYS_BASE. cbn [kernel_pte pte_frame]. pg_lia. Qed.

Lemma kd_entry L b n p d v : kernel_dir L b n p d → FIRST + p <= 2 ^ 20 → frame_ok (pte_frame (entry d v)).
Proof. intros Hk Hp. unfold entry. rewrite (kd_pages _ _ _ _ _ Hk). case_decide; [apply kernel_frame; lia|apply null_frame]. Qed.

Lemma kd_table_range L b n p d i : kernel_dir L b n p d → FIRST + p <= 2 ^ 20 → Forall (in_u 32) (table_words d i).
Proof. intros Hk Hp. apply Forall_fmap, Forall_forall. intros k _. by eapply pte_word_range, kd_entry. Qed.

Lemma kd_dir_range d : (∀ i t, dir_tables d !! i = Some t → frame_ok t) → Forall (in_u 32) (dir_words empty_dir d).
Proof.
  intros H. apply Forall_fmap, Forall_forall. intros i _. unfold compose, dir_word, table_at.
  destruct (dir_tables d !! i) as [t|] eqn:E; [by apply pte_word_range, (H i)|by vm_compute].
Qed.

Lemma kd_word L b n p d i : kernel_dir L b n p d → dir_word empty_dir d i = from_option (λ t, pte_word (table_pte t)) 0 (dir_tables d !! i).
Proof. intros Hk. unfold dir_word, table_at. by destruct (dir_tables d !! i). Qed.

(** * One more table, one more page *)

Lemma kernel_dir_add L b n p d t : kernel_dir L b n p d → p <= 1024 * n → 0 <= n < 256 → frame_ok t → L !! t = None →
  kernel_dir (<[b := (Paged 1, words_bytes (dir_words empty_dir (add_table (768 + n) t d)))]> (<[t := (Paged 1, words_bytes zero_words)]> L))
    b (n + 1) p (add_table (768 + n) t d).
Proof.
  intros Hk Hp Hn Ht Hnone. set (d' := add_table (768 + n) t d).
  assert (dir_tables d !! (768 + n) = None) as Hnew.
  { apply eq_None_not_Some. rewrite (kd_tables _ _ _ _ _ Hk). lia. }
  destruct (kd_dir _ _ _ _ _ Hk) as (Hb & _). assert (t ≠ b) as Hne by (intros ->; by rewrite Hb in Hnone).
  assert (∀ i t', dir_tables d' !! i = Some t' → (i = 768 + n ∧ t' = t) ∨ (dir_tables d !! i = Some t' ∧ t' ≠ t)) as Htabs.
  { intros i t' Hi. cbn in Hi. apply lookup_insert_Some in Hi as [[<- <-]|[_ H]]; [by left|right]. split; [done|]. intros ->.
    destruct (kd_table _ _ _ _ _ Hk i t H) as ((Hx & _) & _). by rewrite Hx in Hnone. }
  split.
  - apply page_words_insert; [apply length_words|]. apply kd_dir_range. intros i t' [[_ ->]|[H _]]%Htabs; [done|by apply (kd_table _ _ _ _ _ Hk i)].
  - intros i t' [[-> ->]|[H Hne']]%Htabs.
    + split; [|done]. apply page_words_ne; [done|]. rewrite (_ : table_words d' (768 + n) = zero_words); [by apply page_words_insert; apply zero_words_ok|].
      apply (table_words_none d); [|done]. intros v e He. rewrite (kd_pages _ _ _ _ _ Hk) in He. case_decide; [|done].
      apply (kd_tables _ _ _ _ _ Hk). unfold table_of. div_lia.
    + destruct (kd_table _ _ _ _ _ Hk i t' H) as (H1 & H2 & H3). split; [|done]. apply page_words_ne; [done|]. by apply page_words_ne.
  - intros i j t' [[-> ->]|[Hi Hi']]%Htabs [[-> Hj']|[Hj Hj']]%Htabs; [done..|]. by eapply (kd_sole _ _ _ _ _ Hk).
  - intros i. unfold d', add_table. cbn [dir_tables]. destruct (decide (768 + n = i)) as [<-|Hi].
    + rewrite lookup_insert_eq. split; [lia|eauto].
    + rewrite lookup_insert_ne // (kd_tables _ _ _ _ _ Hk). lia.
  - apply (kd_pages _ _ _ _ _ Hk).
  - intros a [x [[<- _]|[_ [[<- _]|[_ Ha]]%lookup_insert_Some]]%lookup_insert_Some]; [by left|right; exists (768 + n); apply lookup_insert_eq|].
    destruct (kd_live _ _ _ _ _ Hk a) as [->|[i Hi]]; [by exists x|by left|right; exists i]. unfold d', add_table. cbn [dir_tables].
    rewrite lookup_insert_ne //. intros <-. by rewrite Hnew in Hi.
  - rewrite map_size_insert_Some; [|rewrite lookup_insert_ne //; by rewrite Hb]. rewrite map_size_insert_None // Nat2Z.inj_succ (kd_size _ _ _ _ _ Hk). lia.
Qed.

Lemma kernel_dir_entry L b n p d t : kernel_dir L b n p d → FIRST + p < 2 ^ 20 → 0 <= p →
  let v := FIRST + p in dir_tables d !! table_of v = Some t →
  kernel_dir (<[t := (Paged 1, words_bytes (table_words (set_entry v (kernel_pte v) d) (table_of v)))]> L) b n (p + 1) (set_entry v (kernel_pte v) d).
Proof.
  intros Hk Hp Hp0 v Ht. set (d' := set_entry v (kernel_pte v) d). destruct (kd_table _ _ _ _ _ Hk _ _ Ht) as ((Hx & _) & Htb & _).
  assert (∀ w, dir_pages d' !! w = if decide (FIRST <= w < FIRST + (p + 1)) then Some (kernel_pte w) else None) as Hpages.
  { intros w. unfold d', set_entry. cbn [dir_pages]. destruct (decide (v = w)) as [<-|Hw].
    - rewrite lookup_insert_eq decide_True //. unfold v. lia.
    - rewrite lookup_insert_ne // (kd_pages _ _ _ _ _ Hk). unfold v in Hw.
      destruct (decide (FIRST <= w < FIRST + p)); [rewrite decide_True //; lia|rewrite decide_False //; lia]. }
  assert (∀ i, Forall (in_u 32) (table_words d' i)) as Hrange.
  { intros i. apply Forall_fmap, Forall_forall. intros k _. apply pte_word_range. unfold entry. rewrite Hpages.
    case_decide; [apply kernel_frame; lia|apply null_frame]. }
  split.
  - apply page_words_ne; [by apply not_eq_sym|]. apply (kd_dir _ _ _ _ _ Hk).
  - intros i t' Hi. destruct (kd_table _ _ _ _ _ Hk _ _ Hi) as (H1 & H2 & H3). split; [|done]. destruct (decide (i = table_of v)) as [->|Hne].
    + cbn in Hi. rewrite Ht in Hi. injection Hi as <-. apply page_words_insert; [apply length_words|apply Hrange].
    + unfold d'. rewrite (table_words_other v _ d i) //. apply page_words_ne; [|done]. intros ->. apply Hne. by eapply (kd_sole _ _ _ _ _ Hk).
  - apply (kd_sole _ _ _ _ _ Hk).
  - apply (kd_tables _ _ _ _ _ Hk).
  - exact Hpages.
  - intros a [x [[<- _]|[_ Ha]]%lookup_insert_Some]; [right; by exists (table_of v)|]. apply (kd_live _ _ _ _ _ Hk). by exists x.
  - rewrite map_size_insert_Some; [|by rewrite Hx]. apply (kd_size _ _ _ _ _ Hk).
Qed.

(** * Pages that are not refused *)

(** There is a page left when fewer blocks, of one page each, are in use. *)
Lemma not_full L : (∀ a kx, L !! a = Some kx → size_of kx.2 = PGSIZE ∧ a mod PGSIZE = 0) → Z.of_nat (size L) < kn → ¬ full ks kn L 1.
Proof.
  intros HL Hs Hf. assert (seqZ ks kn ⊆+ (λ ax, ax.1 / PGSIZE) <$> map_to_list L) as H%submseteq_length.
  { apply NoDup_submseteq; [apply NoDup_seqZ|]. intros j Hj%elem_of_seqZ. destruct (Hf j) as (j' & Hj' & a & kx & Ha & Ht); [lia|lia|].
    destruct (HL a kx Ha) as [Hsz Hmod]. apply list_elem_of_fmap. exists (a, kx). split; [cbn [fst]; pg_lia|]. by apply elem_of_map_to_list. }
  rewrite length_seqZ length_fmap length_map_to_list in H. lia.
Qed.

(** Where a page is left, [PAL_ASSERT] makes no difference. *)
Lemma get_page_assert (h : gmap loc cell) r h' : palloc_get_page PAL_ZERO h = Ret r h' → r ≠ 0 → palloc_get_page (Z.lor PAL_ASSERT PAL_ZERO) h = Ret r h'.
Proof.
  unfold palloc_get_page, palloc_get_multiple. change (flag (Z.lor PAL_ASSERT PAL_ZERO) PAL_ZERO) with true.
  change (flag (Z.lor PAL_ASSERT PAL_ZERO) PAL_USER) with false. change (flag (Z.lor PAL_ASSERT PAL_ZERO) PAL_ASSERT) with true.
  change (flag PAL_ZERO PAL_ZERO) with true. change (flag PAL_ZERO PAL_USER) with false. change (flag PAL_ZERO PAL_ASSERT) with false.
  rewrite (bool_decide_false (1 = 0)) //. cbv beta iota zeta delta [mbind M_bind mret M_ret].
  destruct (lock_pool kernel_pool h) as [? h1|? h1|? h1| |]; [|done..].
  destruct (on_used_map kernel_pool _ h1) as [i h2|? h2|? h2| |]; [|done..].
  destruct (unlock_pool kernel_pool h2) as [? h3|? h3|? h3| |]; [|done..].
  destruct (load (Some kernel_pool) h3) as [x h4|? h4|? h4| |]; [|done..].
  case_bool_decide as E; [done|]. intros [= <- <-] Hr. exfalso. by apply Hr.
Qed.

Lemma wp_get_page_assert (Φ : Z → hpropI cell) Ψ :
  wp (palloc_get_page PAL_ZERO) (λ r, ⌈r ≠ 0⌉ ∗ Φ r)%I (λ _, False)%I ⊢ wp (palloc_get_page (Z.lor PAL_ASSERT PAL_ZERO)) Φ Ψ.
Proof.
  split. intros h Hh hf Hd. specialize (Hh hf Hd). destruct (palloc_get_page PAL_ZERO (h ∪ hf)) as [r h2|e h2| | |] eqn:E; [|by destruct Hh as (h' & _ & _ & [])|done..].
  destruct Hh as (h' & -> & Hd' & h1 & h3 & -> & _ & [-> Hr] & HΦ). rewrite left_id_L in E Hd'.
  rewrite (get_page_assert _ _ _ E Hr). by exists h3.
Qed.

(** * [paging_init] *)

Context (Hlow : PHYS_BASE / PGSIZE <= ks) (Hhigh : us + un <= PHYS_BASE / PGSIZE + ram_pages).
Context (Hram : 0 <= ram_pages) (Hend : FIRST + ram_pages < 2 ^ 20).

(** A page full of zeros. *)
Lemma wp_new_page L (Φ : Z → hpropI cell) Ψ : (∀ a kx, L !! a = Some kx → kx.1 = Paged 1 ∧ size_of kx.2 = PGSIZE) → Z.of_nat (size L) < kn →
  alloc_rep L -∗ (∀ t, ⌈L !! t = None ∧ frame_ok t⌉ -∗ alloc_rep (<[t := (Paged 1, words_bytes zero_words)]> L) -∗ Φ t) -∗
  wp (palloc_get_page (Z.lor PAL_ASSERT PAL_ZERO)) Φ Ψ.
Proof.
  intros HL Hs. iIntros "H HΦ". iDestruct (rep_frames ram_pages ks kn us un Hlayout Hlow Hhigh with "H") as %Hfr.
  iApply wp_get_page_assert. iApply (wp_get_page ram_pages ks kn us un Hlayout Hlow Hhigh with "H"); [done|done|]. iSplit.
  - iIntros (r x) "%Hnew H". destruct Hnew as (Hnew & _ & Hz & Hf). rewrite (Hz eq_refl). pose proof (new_pos _ _ _ Hnew) as [Hpos _].
    iSplit; [iPureIntro; lia|]. iApply ("HΦ" with "[] H"). iPureIntro. split; [by apply (new_none _ _ _ Hnew)|done].
  - iIntros "%Hfull H". exfalso. apply (not_full L) in Hfull; [done| |done]. intros a [k x] Ha. destruct (HL a _ Ha) as [Hk Hx]. cbn in Hk. subst k.
    split; [done|]. by destruct (Hfr a x Ha) as [[Hmod _] _].
Qed.

Lemma kd_blocks L b n p d : kernel_dir L b n p d → ∀ a kx, L !! a = Some kx → kx.1 = Paged 1 ∧ size_of kx.2 = PGSIZE.
Proof.
  intros Hk a kx Ha. assert (∃ ws, page_words L a ws) as (ws & Hx & Hn & _).
  { destruct (kd_live _ _ _ _ _ Hk a) as [->|[i Hi]]; [by exists kx|eexists; apply (kd_dir _ _ _ _ _ Hk)|].
    eexists. by apply (kd_table _ _ _ _ _ Hk i a Hi). }
  rewrite Ha in Hx. injection Hx as ->. split; [done|]. cbn [snd]. by rewrite size_of_words Hn.
Qed.

(** [pt] is the table for page [p], when it is not the first of its table. *)
Definition last_table d (p pt : Z) : Prop := p mod 1024 ≠ 0 → dir_tables d !! (768 + p / 1024) = Some pt.

(** The entry of the directory for a page, and a new table where there is none. *)
Lemma wp_paging_table {A} L b p d pt (k : Z → M (gmap loc cell) A) Φ Ψ :
  kernel_dir L b ((p + 1023) / 1024) p d → last_table d p pt → 0 <= p < ram_pages → 1 + (ram_pages + 1023) / 1024 <= kn →
  alloc_rep L -∗
  (∀ L' d' t, ⌈kernel_dir L' b ((p + 1 + 1023) / 1024) p d' ∧ dir_tables d' !! (768 + p / 1024)%Z = Some t⌉ -∗ alloc_rep L' -∗ wp (k t) Φ Ψ) -∗
  wp (w ← load_word (b + 4 * (768 + p / 1024));
      pt ← (if bool_decide (w = 0) then
        pt ← palloc_get_page (Z.lor PAL_ASSERT PAL_ZERO);
        e ← pde_create pt; store_word (b + 4 * (768 + p / 1024)) e;; mret pt
      else mret pt); k pt) Φ Ψ.
Proof.
  intros Hk Hpt Hp Hroom. iIntros "H HΦ". wp_focus. pose proof (kd_dir _ _ _ _ _ Hk) as Hpw.
  iApply (wp_read_word with "H"); [exact Hpw|div_lia|apply word_fmap; div_lia|]. iIntros "H". rewrite (kd_word _ _ _ _ _ _ Hk).
  destruct (decide (p mod 1024 = 0)) as [Hmod|Hmod].
  - set (n := (p + 1023) / 1024) in *. assert (n = p / 1024 ∧ (p + 1 + 1023) / 1024 = n + 1) as [Hn ->] by (unfold n; div_lia).
    assert (dir_tables d !! (768 + p / 1024) = None) as Hnone.
    { apply eq_None_not_Some. rewrite (kd_tables _ _ _ _ _ Hk). lia. }
    rewrite Hnone bool_decide_true //. wp_focus.
    iApply (wp_new_page with "H"); [by eapply kd_blocks|rewrite (kd_size _ _ _ _ _ Hk); div_lia|]. iIntros (t) "%Ht H". destruct Ht as [Ht Hft].
    wp_focus. iApply wp_run; [intros h; by apply pde_create_run|]. wp_focus.
    assert (t ≠ b) as Hne by (intros ->; destruct Hpw as [Hpw _]; by rewrite Hpw in Ht).
    iApply (wp_write_word with "H"); [by apply page_words_ne; [apply not_eq_sym|exact Hpw]|div_lia|by apply pte_word_range|].
    rewrite dir_words_add; [|div_lia]. iIntros "_ H". wp_finish. iApply ("HΦ" with "[] H"). iPureIntro. rewrite -Hn.
    split; [apply kernel_dir_add; [done|div_lia|div_lia|done|done]|]. unfold add_table. cbn [dir_tables]. apply lookup_insert_eq.
  - specialize (Hpt Hmod). rewrite Hpt. cbn [from_option]. destruct (kd_table _ _ _ _ _ Hk _ _ Hpt) as (_ & _ & Hft).
    rewrite bool_decide_false; [|by apply pte_word_present]. wp_finish. iApply ("HΦ" with "[] H"). iPureIntro. split; [|done].
    by replace ((p + 1 + 1023) / 1024) with ((p + 1023) / 1024) by div_lia.
Qed.

Lemma page_address p : 0 <= p < ram_pages → let v := FIRST + p in
  wrap_u 32 (p * PGSIZE) = PGSIZE * v - PHYS_BASE ∧ pd_no (PGSIZE * v) = 768 + p / 1024 ∧ pt_no (PGSIZE * v) = place_of v ∧
  table_of v = 768 + p / 1024 ∧ frame_ok (PGSIZE * v).
Proof.
  intros Hp v. destruct (page_split (PGSIZE * v)) as [-> ->]; [unfold v; pg_lia|].
  assert (page_of (PGSIZE * v) = v) as -> by (unfold page_of; pg_lia).
  unfold wrap_u, frame_ok, table_of, PHYS_BASE, v. change PGSIZE with 4096. rewrite Z.mod_small; [|lia]. split_and!; try done; div_lia.
Qed.

Lemma wp_paging_page L b p d pt (Φ : Z → hpropI cell) Ψ :
  kernel_dir L b ((p + 1023) / 1024) p d → last_table d p pt → 0 <= p < ram_pages → 1 + (ram_pages + 1023) / 1024 <= kn →
  alloc_rep L -∗
  (∀ L' d' pt', ⌈kernel_dir L' b ((p + 1 + 1023) / 1024) (p + 1) d' ∧ last_table d' (p + 1) pt'⌉ -∗ alloc_rep L' -∗ Φ pt') -∗
  wp (paging_page b start end_kernel_text p pt) Φ Ψ.
Proof.
  intros Hk Hpt Hp Hroom. iIntros "H HΦ". unfold paging_page. destruct (page_address p Hp) as (-> & Hpd & Hpn & Htab & Hf). set (v := FIRST + p) in *.
  pose proof Hf as [_ Hf']. wp_focus. iApply wp_run; [intros h; by apply ptov_run|]. rewrite Hpd Hpn.
  iApply (wp_paging_table with "H"); [done..|]. iIntros (L1 d1 t) "%H1 H". destruct H1 as [Hk1 Ht].
  wp_focus. iApply wp_run; [intros h; by apply pte_create_kernel_run|]. fold (kernel_pte v). wp_focus.
  destruct (kd_table _ _ _ _ _ Hk1 _ _ Ht) as (Hpw & _ & _).
  iApply (wp_write_word with "H"); [exact Hpw|apply place_bound|apply pte_word_range, Hf|]. rewrite -Htab set_table_words. iIntros "_ H".
  wp_finish. rewrite -Htab in Ht. iApply ("HΦ" with "[] H"). iPureIntro. split; [apply kernel_dir_entry; [done|lia|lia|done]|].
  intros Hmod. cbn. rewrite -Ht Htab. f_equal. div_lia.
Qed.

Lemma wp_paging_loop L b p d pt fuel (Φ : unit → hpropI cell) Ψ :
  kernel_dir L b ((p + 1023) / 1024) p d → last_table d p pt → 0 <= p <= ram_pages → 1 + (ram_pages + 1023) / 1024 <= kn →
  ram_pages - p < Z.of_nat fuel →
  alloc_rep L -∗ (∀ L' d', ⌈kernel_dir L' b ((ram_pages + 1023) / 1024) ram_pages d'⌉ -∗ alloc_rep L' -∗ Φ tt) -∗
  wp (loop fuel (λ '(page, pt),
    if bool_decide (page < ram_pages) then
      pt ← paging_page b start end_kernel_text page pt; mret (inl (page + 1, pt))
    else mret (inr tt)) (p, pt)) Φ Ψ.
Proof.
  revert L p d pt. induction fuel as [|fuel IH]; intros L p d pt Hk Hpt Hp Hroom Hf; [lia|]. iIntros "H HΦ". iApply wp_loop.
  case_bool_decide as Hlt.
  - wp_focus. iApply (wp_paging_page with "H"); [done|done|lia|done|]. iIntros (L' d' pt') "%H' H". destruct H' as [Hk' Hpt']. wp_finish.
    iApply (IH with "H HΦ"); [done|done|lia|done|lia].
  - wp_finish. assert (p = ram_pages) as -> by lia. iApply ("HΦ" with "[] H"). done.
Qed.

Lemma paging_init_spec (x y : Z) : 1 + (ram_pages + 1023) / 1024 <= kn →
  ⦃ alloc_rep ∅ ∗ base_page_dir ↦ x ∗ cr3 ↦ y ∗ cr3_loads ↦ 0 ⦄ paging_init ram_pages start end_kernel_text
  ⦃ _u, ∃ L b d, ⌈kernel_dir L b ((ram_pages + 1023) / 1024) ram_pages d ∧ frame_ok b⌉ ∗ alloc_rep L ∗ machine b b 1 ⦄.
Proof.
  intros Hroom. unfold hoare, paging_init. iIntros "(H & Hb & Hc & Hn)". wp_focus.
  iApply (wp_new_page ∅ with "H"); [intros ?? E; by rewrite lookup_empty in E|rewrite map_size_empty; div_lia|]. iIntros (b) "%Hb H". destruct Hb as [_ Hfb].
  wp_store "Hb". wp_focus.
  iApply (wp_paging_loop _ b 0 empty_dir 0 with "H"); [|by intros ?|lia|done|lia|].
  { split.
    - rewrite (_ : dir_words empty_dir empty_dir = zero_words) //. by apply page_words_insert; apply zero_words_ok.
    - intros i t E. cbn in E. by rewrite lookup_empty in E.
    - intros i j t E. cbn in E. by rewrite lookup_empty in E.
    - intros i. change ((0 + 1023) / 1024) with 0. cbn [empty_dir dir_tables]. rewrite lookup_empty. split; [by intros []|lia].
    - intros v. cbn. rewrite lookup_empty decide_False //. lia.
    - intros a [kx [[<- _]|[_ E]]%lookup_insert_Some]; [by left|by rewrite lookup_empty in E].
    - rewrite map_size_insert_None; [by rewrite map_size_empty|apply lookup_empty]. }
  iIntros (L d) "%Hk H". wp_load "Hb". pose proof Hfb as [_ Hfb']. wp_focus. iApply wp_run; [intros h; by apply vtop_run|].
  unfold set_cr3. wp_store "Hc". wp_load "Hn". iApply (wp_store with "Hn"). iIntros "Hn". iExists L, b, d. iFrame. done.
Qed.
End paging.
