(* ===== verification/PintosVmBoot.v ===== *)
(** The kernel from its start up to user programs: the allocators, [paging_init], and
    programs that use page directories. *)
From S2P Require Export PintosPaging PintosAllocRuns.
Local Open Scope Z_scope.

Section start.
Context {ST : Statics} {PG : Paging} (ram_pages start end_kernel_text : Z).
Abbreviation kernel_dir := (kernel_dir start end_kernel_text).
Abbreviation kernel_pte := (kernel_pte start end_kernel_text).

(** The directory of the kernel, and the state after [paging_init]. *)
Record vm_start (base : Z) (kd : dir) (K : gset Z) (s : vm) : Prop := {
  start_dirs : vm_dirs s = ∅;
  start_active : vm_active s = base ∧ vm_loads s = 1;
  start_used : K = dom (vm_live s) ∧ base ∈ K;
  start_size : Z.of_nat (size (vm_live s)) = 1 + (ram_pages + 1023) / 1024;
  start_blocks : map_Forall (λ _ kx, kx.1 = Paged 1 ∧ size_of kx.2 = PGSIZE) (vm_live s);
  start_pages v : dir_pages kd !! v = if decide (FIRST <= v < FIRST + ram_pages) then Some (kernel_pte v) else None;
}.

Lemma kernel_start L b n d : kernel_dir L b n ram_pages d → FIRST + ram_pages <= 2 ^ 20 → 0 <= ram_pages → n = (ram_pages + 1023) / 1024 →
  vm_start b d (dom L) (Vm L ∅ b 1) ∧ dirs_ok b d (dom L) L ∅.
Proof.
  intros Hk Hram Hram0 ->. assert (∀ a ws, page_words L a ws → a ∈ dom L) as Hdom by (intros a ws (Ha & _); apply elem_of_dom; eauto).
  pose proof (kd_blocks _ _ _ _ _ _ _ Hk) as Hblocks. split.
  - split; [done|done| | |exact Hblocks|apply (kd_pages _ _ _ _ _ _ _ Hk)].
    + split; [done|]. by eapply Hdom, kd_dir.
    + apply (kd_size _ _ _ _ _ _ _ Hk).
  - split.
    + split; [|by eapply Hdom, kd_dir]. rewrite (_ : dir_words d d = dir_words empty_dir d); [apply (kd_dir _ _ _ _ _ _ _ Hk)|].
      apply list_fmap_ext. intros _ i _. unfold dir_word, table_at. cbn. rewrite lookup_empty. by destruct (dir_tables d !! i).
    + split.
      * intros i t Ht. destruct (kd_table _ _ _ _ _ _ _ Hk i t Ht) as (Hw & _ & Hf).
        assert (768 <= i < 768 + (ram_pages + 1023) / 1024) as Hi by (apply (kd_tables _ _ _ _ _ _ _ Hk); eauto).
        split; [div_lia|]. split; [by eapply Hdom|done].
      * intros v e He. rewrite (kd_pages _ _ _ _ _ _ _ Hk) in He. case_decide as Hv; [|done]. injection He as <-.
        split; [|apply kernel_frame; lia]. apply (kd_tables _ _ _ _ _ _ _ Hk). unfold table_of. div_lia.
    + intros i t Ht. by apply (kd_table _ _ _ _ _ _ _ Hk i t).
    + intros pd d' Hd. by rewrite lookup_empty in Hd.
    + intros pd d' i t Hd. by rewrite lookup_empty in Hd.
    + intros a r Hr. destruct Hr as [a Ha|pd d' Hd|pd d' i t Hd|pd d' v e Hd]; [|by rewrite lookup_empty in Hd..].
      apply elem_of_dom in Ha as [[k x] Ha]. destruct (Hblocks a _ Ha) as [Hk' _]. cbn in Hk'. subst k. by exists x.
    + intros a r r' Hr Hr'. assert (∀ r, uses (dom L) ∅ a r → r = Kernel) as Hkernel.
      { intros r0 [a' Ha|pd d' Hd|pd d' i t Hd|pd d' v e Hd]; [done|by rewrite lookup_empty in Hd..]. }
      by rewrite (Hkernel _ Hr) (Hkernel _ Hr').
Qed.
End start.

Section boot.
Context {ST : Statics} {PG : Paging} (end_ ram_pages limit s kn un : Z) (Hboot : boot_ok end_ ram_pages limit s kn un).
Context (start end_kernel_text : Z).
Abbreviation ks := (s + bm_pages kn).
Abbreviation us := (s + kn + bm_pages un).
Abbreviation kc := (kn - bm_pages kn).
Abbreviation uc := (un - bm_pages un).
Abbreviation cell := (Z + (pool + desc))%type.

Lemma boot_pages : PHYS_BASE / PGSIZE <= ks ∧ us + uc <= PHYS_BASE / PGSIZE + ram_pages ∧ 0 <= ram_pages ∧ FIRST + ram_pages < 2 ^ 20.
Proof.
  destruct (boot_layout _ _ _ _ _ _ Hboot) as (L1 & _). destruct Hboot as [(He & He' & Hs) (Hr & Hsum & Hlt) (Hun & Hu0 & Hk0) [Hbk Hbu]].
  assert (0 <= bm_pages kn) by (rewrite bm_pages_eq; [div_lia|unfold PHYS_BASE in *; pg_lia]).
  unfold PHYS_BASE in *. change (0xc0000000 / PGSIZE) with 786432 in *. pg_lia.
Qed.

(** The directory of the kernel fits in its pages. *)
Definition room : Prop := 1 + (ram_pages + 1023) / 1024 <= kc.

(** The machine as far as [main] in init.c starts it. *)
Definition vm_boot : M (gmap loc cell) unit := boot end_ ram_pages limit;; paging_init ram_pages start end_kernel_text.

Definition started (base : Z) (kd : dir) (K : gset Z) (st : vm) : hpropI cell :=
  (⌈vm_start ram_pages start end_kernel_text base kd K st⌉ ∗ vm_rep ks kc us uc base kd K st)%I.

Lemma vm_boot_spec (ws : list Z) x y : machine_ok end_ ram_pages limit s kn un ws → room →
  ⦃ at_start s ws ∗ base_page_dir ↦ (x : Z) ∗ cr3 ↦ (y : Z) ∗ cr3_loads ↦ 0 ⦄ vm_boot ⦃ _u, ∃ base kd K st, started base kd K st ⦄.
Proof.
  intros Hm Hroom. destruct boot_pages as (H1 & H2 & H3 & H4). pose proof (boot_layout _ _ _ _ _ _ Hboot) as Hlayout.
  unfold hoare, vm_boot. iIntros "[H Hp]". wp_focus. iApply (hoare_wp_ret with "H"); [by eapply boot_ready|]. iIntros (_u) "H".
  iApply (hoare_wp_ret with "[H Hp]"); [by apply (paging_init_spec ram_pages ks kc us uc Hlayout start end_kernel_text H1 H2 H3 H4 x y Hroom)|by iFrame|].
  iIntros (_u') "(%L & %b & %d & %Hk & H & Hb)". destruct Hk as [Hk Hf]. destruct (kernel_start _ _ _ L b _ d Hk) as [Hst Hok]; [lia|done|done|].
  iExists b, d, (dom L), (Vm L ∅ b 1). iFrame. iPureIntro. split; [done|]. split; [done|by left].
Qed.
End boot.
