(* ===== verification/PintosVmMemory.v ===== *)
(** What memory holds of the page directories: the mappings that a trace of calls leaves,
    and the walk of the processor through the words of the tables. *)
From S2P Require Export PintosVmBoot.
Local Open Scope Z_scope.

(** * The mappings of a trace *)

(** The directories, each with its pages: where they are and whether they are writable. *)
Abbreviation mappings := (gmap Z (gmap Z (Z * bool))).

Definition mapped_step (M : mappings) (cr : vcmd * Z) : mappings :=
  match cr with
  | (VCreate, r) => if bool_decide (r = 0) then M else <[r := ∅]> M
  | (VDestroy pd, _) => base.delete pd M
  | (VSetPage pd up f w, r) => if bool_decide (r = 0) then M else alter <[page_of up := (f, w)]> pd M
  | (VClearPage pd up, _) => alter (base.delete (page_of up)) pd M
  | _ => M
  end.
Definition mapped (t : list (vcmd * Z)) : mappings := foldl mapped_step ∅ t.

(** The same of a state. *)
Definition page_view (e : pte) : option (Z * bool) := if pte_present e then Some (pte_frame e, pte_writable e) else None.
Definition view (d : dir) : gmap Z (Z * bool) := omap page_view (dir_pages d).
Definition seen (s : vm) : mappings := view <$> vm_dirs s.

Lemma view_set v e d : view (set_entry v e d) = partial_alter (λ _, page_view e) v (view d).
Proof.
  apply map_eq. intros x. unfold view, set_entry. cbn [dir_pages]. rewrite lookup_omap. destruct (decide (v = x)) as [->|Hx].
  - by rewrite lookup_insert_eq lookup_partial_alter_eq.
  - by rewrite lookup_insert_ne // lookup_partial_alter_ne // lookup_omap.
Qed.

Lemma view_lookup d v : view d !! v = page_view (entry d v).
Proof. unfold view, entry. rewrite lookup_omap. by destruct (dir_pages d !! v). Qed.

Lemma view_same v e d : page_view e = page_view (entry d v) → view (set_entry v e d) = view d.
Proof.
  intros H. rewrite view_set H -view_lookup. apply map_eq. intros x. destruct (decide (v = x)) as [->|Hx];
    [by rewrite lookup_partial_alter_eq|by rewrite lookup_partial_alter_ne].
Qed.

(** What a program reaches at the address [a]: a physical address, or -1. *)
Definition user_access (m : gmap Z (Z * bool)) (a : Z) (write : bool) : Z :=
  match m !! page_of a with
  | Some (f, w) => if implb write w then f - PHYS_BASE + a mod PGSIZE else -1
  | None => -1
  end.

Section traces.
Context (ks kn us un base : Z) (kd : dir) (K : gset Z).
Abbreviation vstep := (vstep ks kn us un base kd K).
Abbreviation vsteps := (vsteps ks kn us un base kd K).
Implicit Types (s : vm).

(** Pages of user programs are for user programs, and no directory is at address 0. *)
Definition users s : Prop :=
  vm_dirs s !! 0 = None ∧ ∀ pd d v, vm_dirs s !! pd = Some d → pte_present (entry d v) = true → pte_user (entry d v) = true.

Lemma users_insert s s' pd d : users s → vm_dirs s' = <[pd := d]> (vm_dirs s) → pd ≠ 0 →
  (∀ v, pte_present (entry d v) = true → pte_user (entry d v) = true) → users s'.
Proof.
  intros [H0 H] Hs Hpd Hd. split; rewrite Hs; [by rewrite lookup_insert_ne|].
  intros pd' d' v [[<- <-]|[_ Hd']]%lookup_insert_Some; [apply Hd|by eapply H].
Qed.

Lemma entry_set v e d x : entry (set_entry v e d) x = if decide (v = x) then e else entry d x.
Proof. unfold entry, set_entry. cbn [dir_pages]. case_decide as E; [by rewrite E lookup_insert_eq|by rewrite lookup_insert_ne]. Qed.

Lemma seen_insert s s' pd d : vm_dirs s' = <[pd := d]> (vm_dirs s) → seen s' = <[pd := view d]> (seen s).
Proof. intros H. unfold seen. by rewrite H fmap_insert. Qed.

(** A changed entry: its users, and what is seen of it. *)
Lemma changed_users s pd d v e n s' : changed_entry K s pd d v e n s' → users s → (pte_present e = true → pte_user e = true) →
  users s' ∧ seen s' = alter (partial_alter (λ _, page_view e) v) pd (seen s).
Proof.
  intros (Hd & _ & Hs & _) Hu He. pose proof Hu as [H0 H]. split.
  - eapply users_insert; [done|done|congruence|]. intros x. rewrite entry_set. case_decide; [done|by eapply H].
  - rewrite (seen_insert _ _ _ _ Hs) view_set. unfold seen. symmetry. apply map_eq. intros x. destruct (decide (pd = x)) as [->|Hx].
    + by rewrite lookup_alter_eq lookup_insert_eq lookup_fmap Hd.
    + by rewrite lookup_alter_ne // lookup_insert_ne.
Qed.
Lemma changed_same s pd d v e n s' : changed_entry K s pd d v e n s' → users s → (pte_present e = true → pte_user e = true) →
  page_view e = page_view (entry d v) → users s' ∧ seen s' = seen s.
Proof.
  intros Hc Hu He Hv. destruct (changed_users _ _ _ _ _ _ _ Hc Hu He) as [H1 H2]. split; [done|]. destruct Hc as (Hd & _ & Hs & _).
  rewrite (seen_insert _ _ _ _ Hs) view_same //. apply insert_id. unfold seen. by rewrite lookup_fmap Hd.
Qed.

Lemma step_mapped s c r s' : vstep s c r s' → users s → users s' ∧ seen s' = mapped_step (seen s) (c, r).
Proof.
  intros Hstep Hu. pose proof Hu as [H0 H].
  destruct Hstep as [c r L'|r x Hnew _| |pd d L' Hd| |pd up f w d s' _ Hc|pd up f w d t x L' Hd _ _ _ D'| | |pd up d s' _ Hc|pd up d Hd He| |
    |pd a b d s' Hc|pd a b d s' Hc|c pd a b d _ _ Hc| | |]; try done; cbn [mapped_step].
  - destruct (new_pos _ _ _ Hnew) as [Hpos _]. rewrite bool_decide_false; [|lia]. split; [|by rewrite (seen_insert s _ r empty_dir)].
    eapply users_insert; [done|done|lia|]. intros v. unfold entry. by rewrite lookup_empty.
  - split; [|by unfold seen; rewrite -fmap_delete]. split; cbn [vm_dirs]; [by rewrite lookup_delete_None; right|].
    intros pd' d' v [_ Hd']%lookup_delete_Some. by eapply H.
  - split; [done|]. symmetry. apply delete_id. unfold seen. by rewrite lookup_fmap H0.
  - rewrite bool_decide_false //. by apply (changed_users _ _ _ _ _ _ _ Hc Hu).
  - rewrite bool_decide_false //. assert (pd ≠ 0) as Hpd by congruence. split.
    + eapply users_insert; [done|done|done|]. intros v. rewrite entry_set. case_decide; [done|exact (H pd d v Hd)].
    + rewrite (seen_insert s _ pd (set_entry (page_of up) (user_pte f w) (add_table (table_of (page_of up)) t d))) // view_set.
      unfold seen. apply map_eq. intros v. destruct (decide (pd = v)) as [->|Hv].
      * by rewrite lookup_insert_eq lookup_alter_eq lookup_fmap Hd.
      * by rewrite lookup_insert_ne // lookup_alter_ne.
  - by apply (changed_users _ _ _ _ _ _ _ Hc Hu).
  - split; [done|]. symmetry. apply map_eq. intros v. destruct (decide (pd = v)) as [->|Hv]; [|by rewrite lookup_alter_ne].
    rewrite lookup_alter_eq. unfold seen. rewrite lookup_fmap Hd. cbn. f_equal. apply delete_id. by rewrite view_lookup /page_view He.
  - eapply (changed_same _ _ _ _ _ _ _ Hc Hu); [|done]. destruct Hc as (Hd & _). by eapply H.
  - eapply (changed_same _ _ _ _ _ _ _ Hc Hu); [|done]. destruct Hc as (Hd & _). by eapply H.
  - by destruct Hc as [-> | ->].
Qed.

Lemma steps_mapped s t s' : vsteps s t s' → users s → users s' ∧ seen s' = foldl mapped_step (seen s) t.
Proof.
  induction 1 as [|s c r s1 t s2 H1 _ IH]; intros Hu; [done|]. destruct (step_mapped _ _ _ _ H1 Hu) as [Hu1 Hm]. cbn [foldl]. rewrite -Hm. by apply IH.
Qed.

Lemma trace_mapped s t s' : vm_dirs s = ∅ → vsteps s t s' → users s' ∧ seen s' = mapped t.
Proof.
  intros Hs Ht. apply steps_mapped in Ht as [H1 H2]; [|split; [by rewrite Hs|intros pd d v Hd; by rewrite Hs lookup_empty in Hd]].
  split; [done|]. rewrite H2. unfold mapped, seen. by rewrite Hs fmap_empty.
Qed.
End traces.

(** * The words in memory *)

Section memory.
Context {ST : Statics} {PG : Paging} (ram_pages ks kn us un : Z) (Hlayout : layout_ok ks kn us un).
Context (base : Z) (kd : dir) (K : gset Z).
Abbreviation cell := (Z + (pool + desc))%type.
Abbreviation alloc_rep := (alloc_rep ks kn us un).
Abbreviation uses := (uses K).
Implicit Types (L : live) (s : vm) (h : gmap loc cell).

Lemma load_word_same h a w h' : load_word a h = Ret w h' → h' = h.
Proof.
  unfold load_word. case_decide; [|done]. unfold mbind, M_bind, load. destruct (_ ≫= _) as [x|]; [|done].
  unfold mret, M_ret. congruence.
Qed.

Lemma read_word_run L a ws i w h hf : page_words L a ws → 0 <= i → word ws i = Some w →
  hprop_holds (alloc_rep L) h → h ##ₘ hf → load_word (a + 4 * i) (h ∪ hf) = Ret w (h ∪ hf).
Proof.
  intros Hpw Hi Hw HL Hd. assert (⦃ alloc_rep L ⦄ load_word (a + 4 * i) ⦃ r, ⌈r = w⌉ ∗ True ⦄) as Ht.
  { unfold hoare. iIntros "H". iApply (wp_read_word ks kn us un L a ws i w with "H"); [done..|]. iIntros "_". by iSplit. }
  pose proof (hoare_run _ _ _ _ _ hf Ht HL Hd) as H.
  destruct (load_word (a + 4 * i) (h ∪ hf)) as [r h2|e h2| | |] eqn:E; [|by destruct H as (h' & _ & _ & [])|done..].
  destruct H as (h' & _ & _ & h1 & h3 & _ & _ & [_ ->] & _). by rewrite (load_word_same _ _ _ _ E).
Qed.

Lemma rep_holds L h (φ : Prop) : (alloc_rep L ⊢ ⌜φ⌝) → hprop_holds (alloc_rep L) h → φ.
Proof. intros [H] Hh. exact (H h Hh). Qed.

(** Each page in use is one page long, and marked. *)
Lemma rep_page L : alloc_rep L ⊢ ⌜∀ a x, L !! a = Some (Paged 1, x) → size_of x = PGSIZE ∧ a mod PGSIZE = 0⌝.
Proof.
  iIntros "(%σ & %HL & H & _)". iPureIntro. intros a x Ha.
  assert (handed σ a (Paged 1) (size_of x)) as (j & c & Hj & Hb) by (apply HL; eauto). inversion Hb; subst. pg_lia.
Qed.
Lemma page_touched L h a x : hprop_holds (alloc_rep L) h → L !! a = Some (Paged 1, x) → touched L (a / PGSIZE).
Proof.
  intros Hh Ha. destruct (rep_holds _ _ _ (rep_page L) Hh a x Ha) as [Hs Hm]. exists a, (Paged 1, x). split; [done|]. cbn [snd]. rewrite Hs. pg_lia.
Qed.

(** The walk from a directory finds what the directory maps. *)
Lemma walk_run s a write user h hf : dirs_ok base kd K (vm_live s) (vm_dirs s) → active_ok base (vm_dirs s) (vm_active s) → 0 <= a < 2 ^ 32 →
  hprop_holds (alloc_rep (vm_live s)) h → h ##ₘ hf → let e := mapping kd s a in
  walk (vm_active s) a write user (h ∪ hf) = Ret (if allows e write user then pte_frame e - PHYS_BASE + a mod PGSIZE else -1) (h ∪ hf).
Proof.
  intros Hok Hact Ha HL Hd e. unfold walk. destruct (page_split a ltac:(lia)) as [-> ->]. destruct (active_words base kd K s Hok Hact) as (_ & Hpw & _).
  destruct (mapping_table base kd K s a Hok Hact Ha) as [Hfr Htab]. fold e in Hfr, Htab.
  assert (0 <= table_of (page_of a) < 1024) as Hi by (unfold table_of, page_of; pg_lia).
  rewrite (M_bind_Ret _ _ _ _ _ (read_word_run _ _ _ _ _ h hf Hpw (proj1 Hi) (word_fmap _ _ Hi) HL Hd)). unfold dir_word.
  destruct (table_at kd _ (table_of (page_of a))) as [t|] eqn:Et; cbn [from_option]; [|by rewrite Htab].
  destruct Htab as (Hft & d & Htw & He). rewrite table_allows // pte_word_address //. cbn [table_pte user_pte pte_frame].
  replace (PHYS_BASE + (t - PHYS_BASE)) with t by lia.
  rewrite (M_bind_Ret _ _ _ _ _ (read_word_run _ _ _ _ _ h hf Htw (proj1 (place_bound _)) (word_entry _ _) HL Hd)).
  by rewrite He entry_allows // pte_word_address // pg_ofs_mod.
Qed.

(** The word [i] of the directory [pd] says that the page [t] is a table. *)
Definition leads_to h (pd i t : Z) : Prop :=
  ∃ w, load_word (pd + 4 * i) h = Ret w h ∧ Z.land w PTE_P ≠ 0 ∧ t = PHYS_BASE + Z.land w PTE_ADDR.

(** A table below [PHYS_BASE] is the directory's own; above, it is the kernel's. *)
Lemma leads_to_uses s pd d i t h hf : dirs_ok base kd K (vm_live s) (vm_dirs s) → vm_dirs s !! pd = Some d → 0 <= i < 1024 →
  hprop_holds (alloc_rep (vm_live s)) h → h ##ₘ hf → leads_to (h ∪ hf) pd i t →
  uses (vm_dirs s) t (if decide (i < 768) then Table pd i else Kernel).
Proof.
  intros Hok Hd Hi HL Hdisj (w & Hw & Hp & ->). destruct (ok_dir _ _ _ _ _ Hok _ _ Hd) as [Hdok Hpw]. pose proof (ok_kernel _ _ _ _ _ Hok) as [Hkt _].
  rewrite (read_word_run _ _ _ _ _ h hf Hpw (proj1 Hi) (word_fmap _ _ Hi) HL Hdisj) in Hw. injection Hw as <-. unfold dir_word, table_at in *.
  assert (∀ t, frame_ok t → PHYS_BASE + Z.land (pte_word (table_pte t)) PTE_ADDR = t) as Ht.
  { intros t Hf. rewrite pte_word_address //. cbn [table_pte user_pte pte_frame]. lia. }
  destruct (dir_tables d !! i) as [t|] eqn:E.
  - destruct (ok_tables _ Hdok _ _ E) as [Hi' Hf]. cbn [from_option]. rewrite (Ht t Hf) decide_True; [|lia]. by econstructor.
  - destruct (dir_tables kd !! i) as [t|] eqn:Ek; [|by cbn in Hp]. destruct (Hkt _ _ Ek) as (Hi' & HK & Hf). cbn [from_option].
    rewrite (Ht t Hf) decide_False; [|lia]. by constructor.
Qed.

(** Each table that is not the kernel's belongs to one place of one directory, and to nothing else. *)
Definition tables_apart (M : mappings) h : Prop := ∀ pd i t, is_Some (M !! pd) → 0 <= i < 768 → leads_to h pd i t →
  page_used h (t / PGSIZE) ∧ M !! t = None ∧
  ∀ pd' i', is_Some (M !! pd') → 0 <= i' < 1024 → leads_to h pd' i' t → pd' = pd ∧ i' = i.

(** Each page that is mapped is in use, is no directory and no table, and is mapped nowhere else. *)
Definition pages_apart (M : mappings) h : Prop := ∀ pd m v f w, M !! pd = Some m → m !! v = Some (f, w) →
  page_used h (f / PGSIZE) ∧ M !! f = None ∧
  (∀ pd' i, is_Some (M !! pd') → 0 <= i < 1024 → ¬ leads_to h pd' i f) ∧
  (∀ pd' m' v' w', M !! pd' = Some m' → m' !! v' = Some (f, w') → pd' = pd ∧ v' = v).

Context (s : vm) (h hf : gmap loc cell) (Hok : dirs_ok base kd K (vm_live s) (vm_dirs s)).
Context (HL : hprop_holds (alloc_rep (vm_live s)) h) (Hd : h ##ₘ hf).
Hypothesis Hused : ∀ j, page_used (h ∪ hf) j ↔ touched (vm_live s) j.

Lemma uses_used a r : uses (vm_dirs s) a r → page_used (h ∪ hf) (a / PGSIZE).
Proof. intros Hr. apply Hused. destruct (ok_used _ _ _ _ _ Hok a r Hr) as [x Hx]. by eapply page_touched. Qed.

Lemma seen_uses a r : uses (vm_dirs s) a r → r ≠ Directory → seen s !! a = None.
Proof.
  intros Hr Hne. unfold seen. rewrite lookup_fmap. destruct (vm_dirs s !! a) as [d|] eqn:E; [|done]. exfalso. apply Hne.
  eapply ok_sole; [exact Hok|exact Hr|by eapply uses_dir].
Qed.

Lemma seen_dir pd : is_Some (seen s !! pd) → ∃ d, vm_dirs s !! pd = Some d.
Proof. unfold seen. rewrite lookup_fmap. intros [m Hm]. destruct (vm_dirs s !! pd); [eauto|done]. Qed.

Lemma seen_table pd i t : is_Some (seen s !! pd) → 0 <= i < 1024 → leads_to (h ∪ hf) pd i t →
  uses (vm_dirs s) t (if decide (i < 768) then Table pd i else Kernel).
Proof. intros [d Hpd]%seen_dir Hi Ht. by eapply leads_to_uses. Qed.

Lemma seen_page pd m v f w : seen s !! pd = Some m → m !! v = Some (f, w) → uses (vm_dirs s) f (Mapped pd v).
Proof.
  unfold seen. rewrite lookup_fmap. destruct (vm_dirs s !! pd) as [d|] eqn:E; [|done]. intros [= <-] Hv.
  unfold view in Hv. rewrite lookup_omap in Hv. destruct (dir_pages d !! v) as [e|] eqn:Ee; [|done]. cbn in Hv. unfold page_view in Hv.
  destruct (pte_present e) eqn:Ep; [|done]. injection Hv as <- _. by econstructor.
Qed.

Lemma tables_in_memory : tables_apart (seen s) (h ∪ hf).
Proof.
  intros pd i t Hpd Hi Ht. apply seen_table in Ht; [|done|lia]. rewrite decide_True in Ht; [|lia].
  split; [by eapply uses_used|]. split; [by eapply seen_uses|]. intros pd' i' Hpd' Hi' Ht'. apply seen_table in Ht'; [|done..].
  pose proof (ok_sole _ _ _ _ _ Hok _ _ _ Ht Ht') as Hr. case_decide; [by injection Hr|done].
Qed.

Lemma pages_in_memory : pages_apart (seen s) (h ∪ hf).
Proof.
  intros pd m v f w Hpd Hv. pose proof (seen_page _ _ _ _ _ Hpd Hv) as Hf.
  split; [by eapply uses_used|]. split; [by eapply seen_uses|]. split.
  - intros pd' i Hpd' Hi Ht. apply seen_table in Ht; [|done..]. pose proof (ok_sole _ _ _ _ _ Hok _ _ _ Hf Ht). by case_decide.
  - intros pd' m' v' w' Hpd' Hv'. pose proof (seen_page _ _ _ _ _ Hpd' Hv') as Hf'. pose proof (ok_sole _ _ _ _ _ Hok _ _ _ Hf Hf') as Hr.
    by injection Hr as -> ->.
Qed.
End memory.
