(* ===== verification/PintosVmRuns.v ===== *)
(** User memory in Pintos, from the start of the kernel: what page directories promise
    to programs that use them, and what the processor makes of them. *)
From S2P Require Export PintosVmMemory.
Local Open Scope Z_scope.

Section heap.
Context {ST : Statics} {PG : Paging}.
Abbreviation cell := (Z + (pool + desc))%type.

(** The static variable of init.c, and the register. *)
Definition paging_cells : list (loc * cell) := [(base_page_dir, pack 0); (cr3, pack 0); (cr3_loads, pack 0)].
Definition vm_heap (s : Z) (ws : list Z) : gmap loc cell := list_to_map paging_cells ∪ boot_heap s ws.

(** They are in places of their own, below the memory. *)
Definition paging_ok : Prop :=
  NoDup (paging_cells ++ static_cells ++ spare_cells).*1 ∧ Forall (λ l, Z.pos l <= PHYS_BASE / 4) paging_cells.*1.

Context (end_ ram_pages limit s kn un start end_kernel_text : Z) (ws : list Z).
Abbreviation ks := (s + bm_pages kn).
Abbreviation us := (s + kn + bm_pages un).
Abbreviation kc := (kn - bm_pages kn).
Abbreviation uc := (un - bm_pages un).
Abbreviation vm_boot := (vm_boot end_ ram_pages limit start end_kernel_text).
Abbreviation vm_start := (vm_start ram_pages start end_kernel_text).
Abbreviation started := (started ram_pages s kn un start end_kernel_text).

(** The machine, with room for the directory of the kernel. *)
Record vm_machine_ok : Prop := {
  vm_machine : machine_ok end_ ram_pages limit s kn un ws;
  vm_paging : paging_ok;
  vm_room : room ram_pages kn;
}.
Hypothesis Hm : vm_machine_ok.

Lemma vm_layout : layout_ok ks kc us uc.
Proof. eapply boot_layout, machine_boot, (vm_machine Hm). Qed.

Lemma paging_cells_disjoint : list_to_map paging_cells ##ₘ boot_heap s ws.
Proof.
  destruct (vm_paging Hm) as [Hnd Hlow]. pose proof (start_page _ _ _ _ _ _ _ (vm_machine Hm)) as Hs. unfold PHYS_BASE in Hs.
  rewrite fmap_app in Hnd. apply NoDup_app in Hnd as (_ & Hnd & _). rewrite Forall_forall in Hlow.
  apply map_disjoint_list_to_map_l. rewrite Forall_forall. intros [l c] Hl. apply (list_elem_of_fmap_2 fst) in Hl. cbn [fst] in *.
  specialize (Hnd l Hl). rewrite fmap_app in Hnd. apply not_elem_of_app in Hnd as [Hn1 Hn2].
  unfold boot_heap. apply lookup_union_None. split; apply not_elem_of_list_to_map; [|done]. rewrite fmap_app. intros [|Hram]%elem_of_app; [done|].
  apply ram_locs in Hram; [|pg_lia..]. specialize (Hlow l Hl). simpl in Hlow. unfold PHYS_BASE in Hlow. pg_lia.
Qed.

(** From the start, what is shown of a program after [paging_init] holds of its runs. *)
Lemma vm_run_rep {A} (m : M (gmap loc cell) A) (Q : A → hpropI cell) :
  (∀ base kd K st, vm_start base kd K st → ⦃ started base kd K st ⦄ m ⦃ a, Q a ⦄) →
  ∃ a h hf, (vm_boot;; m) (vm_heap s ws) = Ret a (h ∪ hf) ∧ h ##ₘ hf ∧ hprop_holds (Q a) h.
Proof.
  intros Hrun. pose proof (vm_machine Hm) as Hmachine. destruct (boot_heap_holds _ _ _ _ _ _ _ Hmachine) as [HP Hd].
  pose proof paging_cells_disjoint as Hd2. unfold boot_heap in Hd2.
  assert (hprop_holds (at_start s ws ∗ base_page_dir ↦ 0 ∗ cr3 ↦ 0 ∗ cr3_loads ↦ 0)%I
    (list_to_map (static_cells ++ ram_cells (PGSIZE * s) ws) ∪ list_to_map paging_cells)) as HH.
  { eexists _, _. split; [done|]. split; [by apply map_disjoint_union_r in Hd2 as [Hd2 _]|]. split; [done|].
    refine (entails_holds _ _ _ _ (own_cells paging_cells _)).
    - unfold paging_cells. cbn [big_opL]. iIntros "(H1 & H2 & H3 & _)". iSplitL "H1"; [iExact "H1"|]. iSplitL "H2"; [iExact "H2"|iExact "H3"].
    - destruct (vm_paging Hm) as [Hnd _]. rewrite fmap_app in Hnd. by apply NoDup_app in Hnd as (Hnd & _). }
  assert (⦃ at_start s ws ∗ base_page_dir ↦ 0 ∗ cr3 ↦ 0 ∗ cr3_loads ↦ 0 ⦄ (vm_boot;; m) ⦃ a, Q a ⦄) as Htriple.
  { unfold hoare. iIntros "H". wp_focus. iApply (hoare_wp_ret with "H").
    - eapply vm_boot_spec; [eapply machine_boot, Hmachine|done|apply (vm_room Hm)].
    - iIntros (_u) "(%base & %kd & %K & %st & %Hst & H)". iApply (hoare_wp_ret with "[H]"); [by apply (Hrun base kd K st)| |by iIntros (a) "$"].
      by iFrame. }
  unfold vm_heap, boot_heap.
  revert HH Hd Hd2. generalize (list_to_map (M := gmap loc cell) (static_cells ++ ram_cells (PGSIZE * s) ws)) as h1.
  generalize (list_to_map (M := gmap loc cell) spare_cells) as hf. generalize (list_to_map (M := gmap loc cell) paging_cells) as h2.
  intros h2 hf h1 HH Hd Hd2. apply map_disjoint_union_r in Hd2 as [Hd21 Hd2f].
  assert ((h1 ∪ h2) ##ₘ hf) as Hdf by by apply map_disjoint_union_l.
  pose proof (hoare_run _ _ _ _ _ hf Htriple HH Hdf) as H.
  rewrite (_ : h2 ∪ (h1 ∪ hf) = h1 ∪ h2 ∪ hf); [|rewrite (assoc_L (∪) h2) (map_union_comm h2 h1); [done|exact Hd21]].
  destruct ((vm_boot;; m) (h1 ∪ h2 ∪ hf)) as [a h3|e h3| | |]; [|by destruct H as (h' & _ & _ & [])|done..].
  destruct H as (h' & -> & Hd' & HQ). by exists a, h', hf.
Qed.
Lemma vm_run {A} (m : M (gmap loc cell) A) (Q : A → Prop) :
  (∀ base kd K st, vm_start base kd K st → ⦃ started base kd K st ⦄ m ⦃ a, ⌈Q a⌉ ∗ True ⦄) →
  ∃ a h, (vm_boot;; m) (vm_heap s ws) = Ret a h ∧ Q a.
Proof.
  intros H. destruct (vm_run_rep m (λ a, ⌈Q a⌉ ∗ True)%I H) as (a & h & hf & Hrun & _ & h1 & h2 & _ & _ & [_ HQ] & _). by eexists a, _.
Qed.
End heap.

Section properties.
Context {ST : Statics} {PG : Paging} (end_ ram_pages limit s kn un start end_kernel_text : Z) (ws : list Z).
Abbreviation ks := (s + bm_pages kn).
Abbreviation us := (s + kn + bm_pages un).
Abbreviation kc := (kn - bm_pages kn).
Abbreviation uc := (un - bm_pages un).
Abbreviation vm_boot := (vm_boot end_ ram_pages limit start end_kernel_text).
Abbreviation vm_start := (vm_start ram_pages start end_kernel_text).
Abbreviation vm_machine_ok := (vm_machine_ok end_ ram_pages limit s kn un ws).
Abbreviation vsteps := (vsteps ks kc us uc).

(** A program that may be run, whatever the kernel's directory is. *)
Definition vm_legal (p : vclient) : Prop := ∀ base kd K st, vm_start base kd K st → vlegal ks kc us uc base kd K st p.

Lemma started_runs p base kd K st : vm_machine_ok → vm_legal p → vm_start base kd K st →
  ⦃ started ram_pages s kn un start end_kernel_text base kd K st ⦄ run_vclient ram_pages p
  ⦃ t, ∃ st', ⌈vsteps base kd K st t st'⌉ ∗ vm_rep ks kc us uc base kd K st' ⦄.
Proof.
  intros Hm Hp Hst. pose proof (machine_boot _ _ _ _ _ _ _ (vm_machine _ _ _ _ _ _ _ Hm)) as Hboot.
  destruct (boot_pages _ _ _ _ _ _ Hboot) as (H1 & H2 & _). unfold hoare. iIntros "[_ H]".
  iApply (hoare_wp_ret with "H"); [apply (vclient_refines ram_pages ks kc us uc); [by eapply boot_layout|done|done|by apply Hp]|]. by iIntros (t) "H".
Qed.

(** C13: From the start of the kernel, a program that uses page directories, the
    allocators and its own pages returns, and its results are those of the maps that
    the directories stand for; an address that the processor translates through the
    tables goes to the page that the active map says. *)
Theorem vm_refines p : vm_machine_ok → vm_legal p → ∃ t h,
  (vm_boot;; run_vclient ram_pages p) (vm_heap s ws) = Ret t h ∧
  ∃ base kd K st st', vm_start base kd K st ∧ vsteps base kd K st t st'.
Proof.
  intros Hm Hp. eapply vm_run; [exact Hm|]. intros base kd K st Hst. unfold hoare. iIntros "H".
  iApply (hoare_wp_ret with "H"); [by apply started_runs|]. iIntros (t) "(%st' & %Ht & H)". iSplit; [|done]. iPureIntro. eauto 8.
Qed.

(** The address that the tables of [paging_init] give. *)
Definition kernel_access (a : Z) (write user : bool) : bool :=
  bool_decide (PHYS_BASE <= a < PHYS_BASE + PGSIZE * ram_pages) && negb user &&
  implb write (negb (bool_decide (start <= a - a mod PGSIZE) && bool_decide (a - a mod PGSIZE < end_kernel_text))).

(** The kernel's part of every directory. *)
Lemma mapping_kernel base kd K st s' a write user : vm_start base kd K st → 0 <= a < 2 ^ 32 → 0 <= ram_pages → PHYS_BASE <= a →
  let e := mapping kd s' a in
  (if allows e write user then pte_frame e - PHYS_BASE + a mod PGSIZE else -1) = if kernel_access a write user then a - PHYS_BASE else -1.
Proof.
  intros Hst Ha Hram Hhigh e. unfold e, mapping, kernel_access. rewrite (bool_decide_false (a < PHYS_BASE)); [|lia].
  unfold entry. rewrite (start_pages _ _ _ _ _ _ _ Hst). unfold page_of.
  destruct (decide (FIRST <= a / PGSIZE < FIRST + ram_pages)) as [Hin|Hout]; cbn [default].
  - rewrite (bool_decide_true (PHYS_BASE <= a < _)); [|unfold PHYS_BASE in *; pg_lia].
    unfold allows, kernel_pte. cbn [pte_present pte_writable pte_user pte_frame]. replace (PGSIZE * (a / PGSIZE)) with (a - a mod PGSIZE) by pg_lia.
    destruct user; [by rewrite !andb_false_r|]. rewrite /= andb_true_r. destruct (implb write _); [lia|done].
  - rewrite (bool_decide_false (PHYS_BASE <= a < _)) //. unfold PHYS_BASE in *. pg_lia.
Qed.

Lemma mapping_start base kd K st a write user : vm_start base kd K st → 0 <= a < 2 ^ 32 → 0 <= ram_pages →
  let e := mapping kd st a in
  (if allows e write user then pte_frame e - PHYS_BASE + a mod PGSIZE else -1) = if kernel_access a write user then a - PHYS_BASE else -1.
Proof.
  intros Hst Ha Hram e. destruct (decide (a < PHYS_BASE)) as [Hlow|]; [|by apply (mapping_kernel base kd K st); [..|lia]].
  unfold e, mapping, kernel_access. rewrite (start_dirs _ _ _ _ _ _ _ Hst) lookup_empty (bool_decide_true (a < PHYS_BASE)) //. cbn [default].
  rewrite (_ : entry empty_dir (page_of a) = null_pte) // (bool_decide_false (PHYS_BASE <= a < _)) //. lia.
Qed.

(** What the program with these pages reaches, or the kernel when the program runs. *)
Definition process_access (m : gmap Z (Z * bool)) (a : Z) (write user : bool) : Z :=
  if bool_decide (a < PHYS_BASE) then user_access m a write
  else if kernel_access a write user then a - PHYS_BASE else -1.

Lemma mapping_process base kd K st s' pd d a write user : vm_start base kd K st → 0 <= a < 2 ^ 32 → 0 <= ram_pages →
  vm_dirs s' !! pd = Some d → vm_active s' = pd → users s' →
  let e := mapping kd s' a in
  (if allows e write user then pte_frame e - PHYS_BASE + a mod PGSIZE else -1) = process_access (view d) a write user.
Proof.
  intros Hst Ha Hram Hd Hact [_ Hu] e. unfold process_access. case_bool_decide as Hlow; [|by apply (mapping_kernel base kd K st); [..|lia]].
  unfold e, mapping, user_access. rewrite bool_decide_true // Hact Hd view_lookup. cbn [from_option]. unfold page_view, allows, id.
  destruct (pte_present (entry d (page_of a))) eqn:Ep; [|done]. rewrite (Hu pd d _ Hd Ep). destruct write, user; cbn; by rewrite ?andb_true_r.
Qed.

(** C14: After any such program the words in memory are those of the directories that its
    calls made and did not destroy, with the pages that they set and did not clear. From each
    directory the processor reaches, at every 32-bit address below [PHYS_BASE], the page set
    there (for a write only when it was set as writable) or a page fault; above, programs
    reach nothing, and the kernel all of memory. Each directory, and each page table below
    [PHYS_BASE], is marked as used in the bitmaps of the page allocator; no table serves two
    places; and the pages that are mapped are marked too, and are no directory, no table,
    and mapped only once. *)
Theorem directories_in_memory p : vm_machine_ok → vm_legal p → ∃ t h,
  (vm_boot;; run_vclient ram_pages p) (vm_heap s ws) = Ret t h ∧
  (∀ pd m, mapped t !! pd = Some m → page_used h (pd / PGSIZE) ∧
    ∀ a write user, 0 <= a < 2 ^ 32 → walk pd a write user h = Ret (process_access m a write user) h) ∧
  tables_apart (mapped t) h ∧ pages_apart (mapped t) h.
Proof.
  intros Hm Hp. pose proof (machine_boot _ _ _ _ _ _ _ (vm_machine _ _ _ _ _ _ _ Hm)) as Hboot.
  destruct (boot_pages _ _ _ _ _ _ Hboot) as (_ & _ & Hram & _).
  destruct (vm_run_rep _ _ _ _ _ _ start end_kernel_text _ Hm (run_vclient ram_pages p)
    (λ t, ∃ base kd K st st', ⌈vm_start base kd K st ∧ vsteps base kd K st t st'⌉ ∗ vm_rep ks kc us uc base kd K st')%I)
    as (t & h & hf & Hrun & Hd & HQ).
  { intros base kd K st Hst. unfold hoare. iIntros "H". iApply (hoare_wp_ret with "H"); [by apply started_runs|].
    iIntros (t) "(%st' & %Ht & H)". iExists base, kd, K, st, st'. by iFrame. }
  destruct HQ as (base & kd & K & st & st' & h0 & h1 & -> & _ & [-> Hst] & h2 & h3 & -> & _ & [-> Hok] & h4 & h5 & -> & Hd45 & HL & _).
  destruct Hst as [Hst Ht], Hok as [Hok _]. rewrite !left_id_L in Hrun, Hd. apply map_disjoint_union_l in Hd as [Hd4 Hd5].
  assert (h4 ##ₘ h5 ∪ hf) as Hd by by apply map_disjoint_union_r. rewrite -assoc_L in Hrun.
  destruct (trace_mapped _ _ _ _ _ _ _ _ _ _ (start_dirs _ _ _ _ _ _ _ Hst) Ht) as [Hu Hseen].
  pose proof (used_pages s kn un _ _ _ HL Hd) as Hused.
  exists t, (h4 ∪ (h5 ∪ hf)). rewrite -Hseen. split; [exact Hrun|]. split; [|split; [by eapply tables_in_memory|by eapply pages_in_memory]].
  intros pd m Hpd. unfold seen in Hpd. rewrite lookup_fmap in Hpd. destruct (vm_dirs st' !! pd) as [d|] eqn:E; [|done]. injection Hpd as <-.
  split; [eapply uses_used; [done..|by eapply uses_dir]|]. intros a write user Ha. set (s' := Vm (vm_live st') (vm_dirs st') pd (vm_loads st')).
  change pd with (vm_active s') at 1. erewrite (walk_run _ _ _ _ base kd K s'); [|done|by right; eauto|done..].
  f_equal. by apply (mapping_process base kd K st s' pd d).
Qed.

(** C15: [paging_init] maps the memory of the machine to the addresses from
    [PHYS_BASE] on, for the kernel alone, with its text read-only, and nothing else. *)
Theorem paging_init_maps a write user : vm_machine_ok → 0 <= a < 2 ^ 32 → ∃ r h,
  (vm_boot;; translate a write user) (vm_heap s ws) = Ret r h ∧ r = if kernel_access a write user then a - PHYS_BASE else -1.
Proof.
  intros Hm Ha. pose proof (machine_boot _ _ _ _ _ _ _ (vm_machine _ _ _ _ _ _ _ Hm)) as Hboot.
  destruct (boot_pages _ _ _ _ _ _ Hboot) as (H1 & H2 & H3 & _).
  eapply vm_run; [exact Hm|]. intros base kd K st Hst. unfold hoare. iIntros "[_ H]".
  iApply (hoare_wp_ret with "H"); [by apply (translate_refines ks kc us uc)|]. iIntros (r) "(%st' & %Hstep & _)". iSplit; [|done].
  iPureIntro. inversion Hstep; subst; [by destruct_or!|by eapply mapping_start].
Qed.
End properties.

(** * Concrete runs *)

Module VmRuns.

#[local] Instance statics : Statics := {| kernel_pool := 1; user_pool := 2; desc_cnt := 3; descs := 16 |}%positive.
#[local] Instance paging : Paging := {| base_page_dir := 4; cr3 := 5; cr3_loads := 6 |}%positive.

(** A machine of sixteen pages, without text in them. *)
Definition words : list Z := replicate (Z.to_nat 15360) 0.
Lemma vm_small_machine : vm_machine_ok (PHYS_BASE + 1) 16 (2 ^ 32 - 1) 786433 8 7 words.
Proof.
  split.
  - split.
    + split; vm_compute; split_and?; congruence.
    + split; apply (bool_decide_unpack _); by vm_compute.
    + by rewrite length_replicate.
  - split; apply (bool_decide_unpack _); by vm_compute.
  - unfold room. by vm_compute.
Qed.

(** Programs that make a directory for a page, and go on with them. *)
Definition with_page (rest : Z → Z → vclient) : vclient :=
  VCall (VAlloc (GetPages PAL_USER 1)) (λ f, if bool_decide (f = 0) then VStop else
  VCall VCreate (λ pd, if bool_decide (pd = 0) then VStop else rest f pd)).

(** One that uses the directory and destroys it, and one that makes another directory. *)
Definition user : vclient := with_page (λ f pd,
  VCall (VSetPage pd 0x8048000 f true) (λ _, VCall (VActivate pd) (λ _, VCall (VTranslate 0x8048123 true true) (λ _,
  VCall (VActivate 0) (λ _, VCall (VDestroy pd) (λ _, VStop)))))).
Definition keeper : vclient := with_page (λ f pd, VCall (VSetPage pd 0x8048000 f true) (λ _, VCall VCreate (λ _, VStop))).

Example vm_user_run :
  Runs.result ((vm_boot (PHYS_BASE + 1) 16 (2 ^ 32 - 1) 0 0;; run_vclient 16 user) (vm_heap 786433 words)) =
  Some [(VAlloc (GetPages PAL_USER 1), 0xc000a000); (VCreate, 0xc0004000); (VSetPage 0xc0004000 0x8048000 0xc000a000 true, 1);
        (VActivate 0xc0004000, 0); (VTranslate 0x8048123 true true, 0xa123); (VActivate 0, 0); (VDestroy 0xc0004000, 0)].
Proof. by vm_compute. Qed.

Lemma run_result {S A} (r : outcome S A) a h x : r = Ret a h → Runs.result r = Some x → a = x.
Proof. intros -> [= H]. done. Qed.

Definition keeper_trace : list (vcmd * Z) :=
  [(VAlloc (GetPages PAL_USER 1), 0xc000a000); (VCreate, 0xc0004000); (VSetPage 0xc0004000 0x8048000 0xc000a000 true, 1); (VCreate, 0xc0006000)].
Example vm_keeper_run :
  Runs.result ((vm_boot (PHYS_BASE + 1) 16 (2 ^ 32 - 1) 0 0;; run_vclient 16 keeper) (vm_heap 786433 words)) = Some keeper_trace.
Proof. by vm_compute. Qed.

Section legal.
Context (ks kn us un base : Z) (kd : dir) (K : gset Z).
Abbreviation vstep := (vstep ks kn us un base kd K).
Implicit Types (s : vm).

(** A directory stays until it is destroyed. *)
Lemma step_keeps s c r s' pd : vstep s c r s' → c ≠ VDestroy pd → is_Some (vm_dirs s !! pd) → is_Some (vm_dirs s' !! pd).
Proof.
  intros Hstep Hc Hpd. assert (∀ D pd' d', D = <[pd' := d']> (vm_dirs s) → is_Some (D !! pd)) as Hins.
  { intros D pd' d' ->. destruct (decide (pd' = pd)) as [->|]; [rewrite lookup_insert_eq; eauto|by rewrite lookup_insert_ne]. }
  destruct Hstep; try done; try (match goal with H : changed_entry _ _ _ _ _ _ _ _ |- _ => destruct H as (_ & _ & Hd & _) end); try by eapply Hins.
  cbn. rewrite lookup_delete_ne //. congruence.
Qed.

Lemma step_active s c r s' : vstep s c r s' → (∀ pd, c ≠ VActivate pd) → vm_active s' = vm_active s.
Proof.
  intros Hstep Hc. destruct Hstep; try done; try (match goal with H : changed_entry _ _ _ _ _ _ _ _ |- _ => apply H end); exfalso; by eapply Hc.
Qed.

Lemma destroy_legal s pd : is_Some (vm_dirs s !! pd) → pd ≠ vm_active s → vlegal ks kn us un base kd K s (VCall (VDestroy pd) (λ _, VStop)).
Proof. intros H Hne. split; [by right|done]. Qed.

Lemma activate_base s r s' : vstep s (VActivate 0) r s' → vm_active s' = base.
Proof. inversion 1; subst; try done. by destruct_or!. Qed.

Lemma alloc_step s c r s' : vstep s (VAlloc c) r s' →
  ∃ L', s' = Vm L' (vm_dirs s) (vm_active s) (vm_loads s) ∧ astep ks kn us un (vm_live s) c r L'.
Proof. inversion 1; subst; [eauto|by destruct_or!]. Qed.

Lemma create_step s r s' : vstep s VCreate r s' → r ≠ 0 → ∃ x, new_block (vm_live s) r x ∧
  s' = Vm (<[r := (Paged 1, x)]> (vm_live s)) (<[r := empty_dir]> (vm_dirs s)) (vm_active s) (vm_loads s).
Proof. inversion 1; subst; [eauto|done|by destruct_or!]. Qed.

Lemma use_legal s pd f : is_Some (vm_dirs s !! pd) → pd ≠ base → vcall_ok K s (VSetPage pd 0x8048000 f true) →
  vlegal ks kn us un base kd K s (VCall (VSetPage pd 0x8048000 f true) (λ _, VCall (VActivate pd) (λ _,
    VCall (VTranslate 0x8048123 true true) (λ _, VCall (VActivate 0) (λ _, VCall (VDestroy pd) (λ _, VStop)))))).
Proof.
  intros Hpd Hne Hset. split; [done|]. intros r1 s1 H1. apply (step_keeps _ _ _ _ pd H1) in Hpd; [|done].
  split; [by right|]. intros r2 s2 H2. apply (step_keeps _ _ _ _ pd H2) in Hpd; [|done].
  split; [done|]. intros r3 s3 H3. apply (step_keeps _ _ _ _ pd H3) in Hpd; [|done].
  split; [by left|]. intros r4 s4 H4. apply (step_keeps _ _ _ _ pd H4) in Hpd; [|done].
  apply destroy_legal; [done|]. by rewrite (activate_base _ _ _ H4).
Qed.
End legal.

Lemma with_page_legal ks kn us un base kd K s rest : vm_dirs s = ∅ → K = dom (vm_live s) → base ∈ K →
  (∀ s f pd, is_Some (vm_dirs s !! pd) → pd ≠ base → vcall_ok K s (VSetPage pd 0x8048000 f true) → vlegal ks kn us un base kd K s (rest f pd)) →
  vlegal ks kn us un base kd K s (with_page rest).
Proof.
  intros HD HK Hbase Hrest. split; [split; [split; [done|by vm_compute]|done]|]. intros f s1 H1. case_bool_decide as Hf; [done|].
  split; [done|]. intros pd s2 H2. case_bool_decide as Hpd; [done|].
  apply alloc_step in H1 as (L1 & -> & Ha). apply create_step in H2 as (y & Hnew2 & ->); [|done].
  inversion Ha as [| | | | | | | | | | |? ? ? x Hcnt Hs Hz Hnew| | | |]; subst; [|done].
  cbn [vm_live vm_dirs vm_active vm_loads] in *. rewrite HD. pose proof (new_none _ _ _ Hnew) as Hn1. pose proof (new_none _ _ _ Hnew2) as Hn2.
  apply lookup_insert_None in Hn2 as [Hn2 Hne]. apply elem_of_dom in Hbase as [kx Hkx].
  apply Hrest; [cbn; rewrite lookup_insert_eq; eauto|congruence|]. exists empty_dir.
  cbn [vm_live vm_dirs]. rewrite lookup_insert_eq. split; [done|]. split; [by split; vm_compute|]. split; [by vm_compute|]. split; [|done].
  split; [exists x; rewrite lookup_insert_ne // lookup_insert_eq //|].
  intros r Hr. destruct Hr as [a Hr|p d Hd|p d i t Hd Ht|p d v e Hd He _].
  - apply elem_of_dom in Hr as [? Hr]. congruence.
  - apply lookup_insert_Some in Hd as [[<- _]|[_ Hd]]; [done|by rewrite lookup_empty in Hd].
  - apply lookup_insert_Some in Hd as [[_ <-]|[_ Hd]]; [by rewrite lookup_empty in Ht|by rewrite lookup_empty in Hd].
  - apply lookup_insert_Some in Hd as [[_ <-]|[_ Hd]]; [by rewrite lookup_empty in He|by rewrite lookup_empty in Hd].
Qed.

Lemma vm_small_legal : vm_legal 16 786433 8 7 0 0 user.
Proof.
  intros base kd K st Hst. destruct (start_used _ _ _ _ _ _ _ Hst) as [HK Hb].
  apply with_page_legal; [apply (start_dirs _ _ _ _ _ _ _ Hst)|done|done|]. intros. by apply use_legal.
Qed.
Lemma vm_keeper_legal : vm_legal 16 786433 8 7 0 0 keeper.
Proof.
  intros base kd K st Hst. destruct (start_used _ _ _ _ _ _ _ Hst) as [HK Hb].
  apply with_page_legal; [apply (start_dirs _ _ _ _ _ _ _ Hst)|done|done|]. intros s f pd _ _ Hset. by split.
Qed.

Lemma vm_refines_witness : ∃ t h,
  (vm_boot (PHYS_BASE + 1) 16 (2 ^ 32 - 1) 0 0;; run_vclient 16 user) (vm_heap 786433 words) = Ret t h ∧
  ∃ base kd K st st', vm_start 16 0 0 base kd K st ∧ vsteps 786434 7 786442 6 base kd K st t st'.
Proof. apply (vm_refines _ _ _ _ _ _ 0 0 _ user vm_small_machine vm_small_legal). Defined.

(** The page can be reached from the first directory, and nothing from the second. *)
Lemma directories_in_memory_witness : ∃ h,
  (vm_boot (PHYS_BASE + 1) 16 (2 ^ 32 - 1) 0 0;; run_vclient 16 keeper) (vm_heap 786433 words) = Ret keeper_trace h ∧
  walk 0xc0004000 0x8048123 true true h = Ret 0xa123 h ∧ walk 0xc0006000 0x8048123 false true h = Ret (-1) h ∧
  page_used h (0xc000a000 / PGSIZE).
Proof.
  destruct (directories_in_memory _ _ _ _ _ _ 0 0 _ keeper vm_small_machine vm_keeper_legal) as (t & h & Hrun & Hwalk & _ & Hpages).
  pose proof (run_result _ _ _ _ Hrun vm_keeper_run) as ->. exists h.
  assert (mapped keeper_trace !! 0xc0004000 = Some {[0x8048 := (0xc000a000, true)]}) as H1 by by vm_compute.
  assert (mapped keeper_trace !! 0xc0006000 = Some ∅) as H2 by by vm_compute.
  split; [exact Hrun|]. clear Hrun. split; [|split].
  - destruct (Hwalk _ _ H1) as [_ H]. refine (eq_trans (H _ _ _ _) _); [by split; vm_compute|done].
  - destruct (Hwalk _ _ H2) as [_ H]. refine (eq_trans (H _ _ _ _) _); [by split; vm_compute|done].
  - apply (Hpages _ _ 0x8048 0xc000a000 true H1). by vm_compute.
Defined.

Lemma paging_init_maps_witness : ∃ r h,
  (vm_boot (PHYS_BASE + 1) 16 (2 ^ 32 - 1) 0xc0000000 0xc0001000;; translate 0xc0002345 true false) (vm_heap 786433 words) = Ret r h ∧
  r = if kernel_access 16 0xc0000000 0xc0001000 0xc0002345 true false then 0xc0002345 - PHYS_BASE else -1.
Proof. apply (paging_init_maps _ _ _ _ _ _ 0xc0000000 0xc0001000 _ 0xc0002345 true false vm_small_machine). by split; vm_compute. Defined.
End VmRuns.
