(* ===== verification/NodePool.v ===== *)
(** The node allocator of src/bin/books/advanced_data_structures (ch1/free_list.c,
    which the other programs of the book repeat for their own nodes): nodes come
    from a list of returned nodes or are cut off a block, and the interface that
    the data structures are verified against. *)
From S2P Require Export HeapLogic.

(** What the programs rely on: [pool] describes the allocator's own memory. *)
Class NodeAlloc (T N : Type) `{!Struct T N} := {
  get_node : M (gmap loc N) ptr;
  return_node : ptr → M (gmap loc N) unit;
  pool : hpropI N;
  get_node_spec : ⦃ pool ⦄ get_node ⦃ r, ∃ l (x : T), ⌈r = Some l⌉ ∗ l ↦ x ∗ pool ⦄;
  return_node_spec l (x : T) : ⦃ l ↦ x ∗ pool ⦄ return_node (Some l) ⦃ _u, pool ⦄;
}.

(** The C library's [malloc] for an array of [n] nodes, as a function of the
    addresses in use: consecutive addresses, none of them in use, or [NULL]. *)
Class BlockMalloc := {
  block_malloc : gset loc → nat → ptr;
  block_malloc_fresh s n b : block_malloc s n = Some b → ∀ i : nat, i < n → (Pos.of_nat (Pos.to_nat b + i) ∉ s)%positive;
}.

(** [p + i], in units of the type of the array. *)
Definition node_at (b : loc) (i : nat) : loc := Pos.of_nat (Pos.to_nat b + i).
Lemma node_at_inj b i j : node_at b i = node_at b j → i = j.
Proof. unfold node_at. lia. Qed.

(** [malloc] of some cells, all of which hold [x] first: [choose] gives the address of
    the block and its cells, or [None] when there is no memory. *)
Section cells.
Context {T N : Type} `{!Struct T N}.
Definition malloc_cells (choose : gset loc → option (loc * list loc)) (x : T) : M (gmap loc N) ptr := λ h,
  match choose (dom h) with
  | Some (b, cs) => Ret (Some b) (foldr (λ c h, <[c := pack x]> h) h cs)
  | None => Ret NULL h
  end.

Lemma fill_cells (x : T) (cs : list loc) (hf : gmap loc N) :
  NoDup cs → (∀ c, c ∈ cs → c ∉ dom hf) →
  ∃ h', foldr (λ c h, <[c := pack x]> h) hf cs = h' ∪ hf ∧ h' ##ₘ hf ∧ dom h' = list_to_set cs ∧
    hprop_holds ([∗ list] c ∈ cs, c ↦ x)%I h'.
Proof.
  induction 1 as [|c cs Hc _ IH]; intros Hfresh; simpl.
  { exists ∅. rewrite left_id_L dom_empty_L. split_and!; [done|apply map_disjoint_empty_l|done|done]. }
  destruct IH as (h' & -> & Hd & Hdom & HP); [intros j Hj; apply Hfresh, elem_of_cons; by right|].
  assert (c ∉ dom hf) as Hc1 by (apply Hfresh, elem_of_cons; by left).
  assert (c ∉ dom h') as Hc2 by (by rewrite Hdom elem_of_list_to_set).
  apply not_elem_of_dom in Hc1, Hc2. exists ({[c := pack x]} ∪ h'). split_and!.
  - rewrite insert_union_singleton_l. apply assoc_L, _.
  - apply map_disjoint_union_l. split; [by apply map_disjoint_singleton_l|done].
  - by rewrite dom_union_L dom_singleton_L Hdom.
  - exists {[c := pack x]}, h'. split_and!; [done|by apply map_disjoint_singleton_l|done|done].
Qed.

Lemma malloc_cells_spec choose x :
  (∀ s b cs, choose s = Some (b, cs) → NoDup cs ∧ ∀ c, c ∈ cs → c ∉ s) →
  ⦃ emp ⦄ malloc_cells choose x
  ⦃ r, (∃ s, ⌈r = NULL ∧ choose s = None⌉) ∨
       (∃ s b cs, ⌈r = Some b ∧ choose s = Some (b, cs)⌉ ∗ [∗ list] c ∈ cs, c ↦ x) ⦄.
Proof.
  intros Hchoose. split. intros h Hh hf Hd. unfold hprop_holds in Hh; simpl in Hh. subst h. rewrite left_id_L.
  unfold malloc_cells. destruct (choose (dom hf)) as [[b cs]|] eqn:E.
  - destruct (Hchoose _ _ _ E) as [Hnd Hfresh]. destruct (fill_cells x cs hf Hnd Hfresh) as (h' & Hfold & Hd' & _ & HP).
    exists h'. split_and!; [exact Hfold|done|]. right. exists (dom hf), b, cs, ∅, h'. rewrite left_id_L.
    split_and!; [done|apply map_disjoint_empty_l| |exact HP]. by split.
  - exists ∅. rewrite left_id_L. split_and!; [done|apply map_disjoint_empty_l|]. left. exists (dom hf). by split.
Qed.
End cells.

(** A block of [n] nodes. *)
Definition block_cells `{!BlockMalloc} (n : nat) (s : gset loc) : option (loc * list loc) :=
  b ← block_malloc s n; Some (b, node_at b <$> seq 0 n).
Lemma block_cells_ok `{!BlockMalloc} n s b cs : block_cells n s = Some (b, cs) →
  cs = node_at b <$> seq 0 n ∧ NoDup cs ∧ ∀ c, c ∈ cs → c ∉ s.
Proof.
  unfold block_cells. destruct (block_malloc s n) as [b'|] eqn:Hb; [|done]. intros [= -> <-]. split_and!; [done|..].
  - apply NoDup_fmap_2_strong; [|apply NoDup_seq]. intros i j _ _. apply node_at_inj.
  - intros c Hc. apply list_elem_of_fmap in Hc as (i & -> & Hi%elem_of_seq). eapply block_malloc_fresh; [exact Hb|lia].
Qed.

Definition BLOCKSIZE : nat := 256.

(** The global variables. *)
Record pool_vars := PoolVars { currentblock : ptr; size_left : Z; free_list : ptr }.

Section free_list.
Context {T N : Type} `{!Struct T N, !Struct pool_vars N, !BlockMalloc}.
(** The field that links returned nodes, its update, and what is in memory that
    [malloc] returns. *)
Context (link : T → ptr) (set_link : T → ptr → T) (garbage : T).
Context (link_set : ∀ x p, link (set_link x p) = p).
(** Where the global variables are. *)
Context (globals : loc).
Abbreviation heap := (gmap loc N).

Definition malloc_block : M heap ptr :=
  malloc_cells (block_cells BLOCKSIZE) garbage.

(** [currentblock++] on [NULL] is undefined. *)
Definition next_node (p : ptr) : option ptr := (λ b, Some (node_at b 1)) <$> p.

Definition pool_get_node : M heap ptr :=
  g ← load (Some globals);
  if bool_decide (free_list g ≠ NULL) then
    let tmp := free_list g in
    n ← load tmp;
    store (Some globals) (PoolVars (currentblock g) (size_left g) (link n));;
    mret tmp
  else
    (if bool_decide (currentblock g = NULL) || bool_decide (size_left g = 0%Z) then
       b ← malloc_block;
       store (Some globals) (PoolVars b (Z.of_nat BLOCKSIZE) (free_list g))
     else mret tt);;
    g ← load (Some globals);
    let tmp := currentblock g in
    next ← defined (next_node tmp);
    store (Some globals) (PoolVars next (size_left g - 1) (free_list g));;
    mret tmp.

Definition pool_return_node (node : ptr) : M heap unit :=
  g ← load (Some globals);
  n ← load node; store node (set_link n (free_list g));;
  store (Some globals) (PoolVars (currentblock g) (size_left g) node).

(** * The memory of the allocator *)

(** The returned nodes, and the rest of the current block. *)
Fixpoint free_nodes (p : ptr) (ls : list loc) : hpropI N :=
  match ls with
  | [] => ⌈p = NULL⌉
  | l :: ls => ⌈p = Some l⌉ ∗ ∃ x : T, l ↦ x ∗ free_nodes (link x) ls
  end%I.
Definition block_rest (b : loc) (n : nat) : hpropI N := ([∗ list] i ∈ seq 0 n, ∃ x : T, node_at b i ↦ x)%I.
Definition pool_state : hpropI N :=
  (∃ g ls n, globals ↦ g ∗ free_nodes (free_list g) ls ∗ ⌈size_left g = Z.of_nat n⌉ ∗
    match currentblock g with Some b => block_rest b n | None => ⌈n = 0⌉ end)%I.

Lemma node_at_next b i : node_at (node_at b 1) i = node_at b (S i).
Proof. unfold node_at. f_equal. lia. Qed.

Lemma block_rest_cons b n : block_rest b (S n) ⊣⊢ (∃ x : T, b ↦ x) ∗ block_rest (node_at b 1) n.
Proof.
  unfold block_rest. cbn [seq]. rewrite big_sepL_cons -fmap_S_seq big_sepL_fmap.
  assert (node_at b 0 = b) as -> by (unfold node_at; lia). f_equiv. apply big_sepL_proper.
  intros ???. by rewrite node_at_next.
Qed.

(** The code does not check that [malloc] has succeeded. *)
Context (malloc_succeeds : ∀ s, is_Some (block_malloc s BLOCKSIZE)).

Lemma malloc_block_spec : ⦃ emp ⦄ malloc_block ⦃ r, ∃ b, ⌈r = Some b⌉ ∗ block_rest b BLOCKSIZE ⦄.
Proof.
  unfold hoare. iIntros "H". iApply (hoare_wp_ret with "H"); [apply malloc_cells_spec|].
  - intros s b cs Hs. by apply block_cells_ok in Hs as [_ Hs].
  - iIntros (r) "[(%s & %Hr) | (%s & %b & %cs & %Hr & H)]"; destruct Hr as [-> Hr].
    + unfold block_cells in Hr. destruct (malloc_succeeds s) as [b Hb]. by rewrite Hb in Hr.
    + apply block_cells_ok in Hr as [-> _]. iExists b. iSplit; [done|].
      unfold block_rest. rewrite big_sepL_fmap. iApply (big_sepL_impl with "H"). iIntros "!>" (k i _) "H". by iExists garbage.
Qed.

Lemma pool_get_node_spec :
  ⦃ pool_state ⦄ pool_get_node ⦃ r, ∃ l (x : T), ⌈r = Some l⌉ ∗ l ↦ x ∗ pool_state ⦄.
Proof.
  unfold hoare, pool_get_node, pool_state. iIntros "(%g & %ls & %n & Hg & Hls & %Hn & Hb)".
  wp_load "Hg". destruct ls as [|l ls]; simpl.
  - iDestruct "Hls" as %Hfree. rewrite bool_decide_false; [|tauto].
    iApply wp_bind.
    iApply (wp_wand _ (λ _, ∃ g b n, globals ↦ g ∗ ⌈free_list g = NULL ∧ currentblock g = Some b ∧ size_left g = Z.of_nat (S n)⌉ ∗ block_rest b (S n))%I
      (λ _, False)%I with "[Hg Hb]").
    + destruct (currentblock g) as [b|] eqn:Hcb; [destruct n as [|n]|].
      * rewrite Hn orb_true_r. iApply wp_bind. iApply (hoare_wp_ret with "[]"); [apply malloc_block_spec|done|].
        iIntros (r) "(%b' & -> & Hb')". iApply (wp_store with "Hg"). iIntros "Hg".
        iExists _, b', (pred BLOCKSIZE). iSplitL "Hg"; [iExact "Hg"|]. iSplit; [done|]. iExact "Hb'".
      * rewrite bool_decide_false // bool_decide_false; [|lia]. iApply wp_ret. iExists g, b, n. iFrame. done.
      * iApply wp_bind. iApply (hoare_wp_ret with "[]"); [apply malloc_block_spec|done|].
        iIntros (r) "(%b' & -> & Hb')". iApply (wp_store with "Hg"). iIntros "Hg".
        iExists _, b', (pred BLOCKSIZE). iSplitL "Hg"; [iExact "Hg"|]. iSplit; [done|]. iExact "Hb'".
    + iSplit; [|by iIntros (e) "[]"]. iIntros (u) "(%g' & %b & %m & Hg & (%Hf & %Hc & %Hs) & Hb)".
      wp_load "Hg". rewrite Hc. iApply wp_bind. iApply (wp_defined _ (Some (node_at b 1))); [done|].
      wp_store "Hg". rewrite block_rest_cons. iDestruct "Hb" as "[(%x & Hx) Hb]".
      iExists b, x. iFrame "Hx". iSplit; [done|]. iExists _, [], m. iFrame "Hg". simpl. iFrame "Hb".
      iPureIntro. split; [done|lia].
  - iDestruct "Hls" as "(%Hfree & %x & Hl & Hls)". rewrite Hfree bool_decide_true //.
    wp_load "Hl". wp_store "Hg". iExists l, x. iFrame "Hl". iSplit; [done|].
    iExists _, ls, n. iFrame "Hg". simpl. by iFrame.
Qed.

Lemma pool_return_node_spec l (x : T) :
  ⦃ l ↦ x ∗ pool_state ⦄ pool_return_node (Some l) ⦃ _u, pool_state ⦄.
Proof.
  unfold hoare, pool_return_node, pool_state. iIntros "[Hl (%g & %ls & %n & Hg & Hls & %Hn & Hb)]".
  wp_load "Hg". wp_load "Hl". wp_store "Hl". iApply (wp_store with "Hg"). iIntros "Hg".
  iExists _, (l :: ls), n. iFrame "Hg". simpl. iFrame "Hb". iSplit; [|done]. iSplit; [done|].
  iExists _. iFrame "Hl". by rewrite link_set.
Qed.

(** The allocator provides the interface. *)
Definition free_list_alloc : NodeAlloc T N := {|
  get_node := pool_get_node;
  return_node := pool_return_node;
  pool := pool_state;
  get_node_spec := pool_get_node_spec;
  return_node_spec := pool_return_node_spec;
|}.
End free_list.

(** * An allocator *)

(** [malloc] that gives the addresses after those in use. *)
Lemma max_address (xs : list loc) x : x ∈ xs → (x <= foldr Pos.max 1 xs)%positive.
Proof. induction 1; simpl; lia. Qed.
Definition next_fit : BlockMalloc.
Proof.
  refine {| block_malloc s _ := Some (1 + foldr Pos.max 1 (elements s))%positive |}.
  intros s n b [= <-] i _ Hi. apply elem_of_elements, max_address in Hi. lia.
Defined.
Lemma next_fit_succeeds s : is_Some (block_malloc (BlockMalloc := next_fit) s BLOCKSIZE).
Proof. by eexists. Qed.
