(* ===== verification/HeightTree.v ===== *)
(** The height-balanced search tree of
    src/bin/books/advanced_data_structures/ch3/h_bl_tree.c: the operations on the
    store, and their refinement of a finite map.

    Objects are at the leaves, whose [left] field holds the object and whose
    [right] field is [NULL]; an empty tree is a node whose [left] is [NULL]. *)
From S2P Require Export NodePool.
Local Open Scope Z_scope.

(** [tree_node_t]. *)
Record tnode := TNode { key : Z; left : ptr; right : ptr; height : Z }.

(** * The operations *)

Section tree_operations.
Context {N : Type} `{!Struct tnode N, !NodeAlloc tnode N}.
Abbreviation heap := (gmap loc N).

Definition KEY (p : ptr) : M heap Z := n ← load p; mret (key n).
Definition LEFT (p : ptr) : M heap ptr := n ← load p; mret (left n).
Definition RIGHT (p : ptr) : M heap ptr := n ← load p; mret (right n).
Definition HEIGHT (p : ptr) : M heap Z := n ← load p; mret (height n).
Definition set_key (p : ptr) (k : Z) : M heap unit := n ← load p; store p (TNode k (left n) (right n) (height n)).
Definition set_left (p q : ptr) : M heap unit := n ← load p; store p (TNode (key n) q (right n) (height n)).
Definition set_right (p q : ptr) : M heap unit := n ← load p; store p (TNode (key n) (left n) q (height n)).
Definition set_height (p : ptr) (h : Z) : M heap unit := n ← load p; store p (TNode (key n) (left n) (right n) h).
(** Arithmetic on [int]. *)
Definition add (a b : Z) : M heap Z := defined (int_of (a + b)).
Definition sub (a b : Z) : M heap Z := defined (int_of (a - b)).

Definition create_tree : M heap ptr :=
  tmp_node ← get_node; set_left tmp_node NULL;; mret tmp_node.

Definition left_rotation (n : ptr) : M heap unit :=
  tmp_node ← LEFT n; tmp_key ← KEY n;
  r ← RIGHT n; set_left n r;;
  r ← RIGHT n; k ← KEY r; set_key n k;;
  l ← LEFT n; r ← RIGHT l; set_right n r;;
  l ← LEFT n; ll ← LEFT l; set_right l ll;;
  l ← LEFT n; set_left l tmp_node;;
  l ← LEFT n; set_key l tmp_key.

Definition right_rotation (n : ptr) : M heap unit :=
  tmp_node ← RIGHT n; tmp_key ← KEY n;
  l ← LEFT n; set_right n l;;
  l ← LEFT n; k ← KEY l; set_key n k;;
  r ← RIGHT n; l ← LEFT r; set_left n l;;
  r ← RIGHT n; rr ← RIGHT r; set_left r rr;;
  r ← RIGHT n; set_right r tmp_node;;
  r ← RIGHT n; set_key r tmp_key.

(** The body of the loop of [find]. *)
Definition find_step (query_key : Z) (tmp_node : ptr) : M heap (ptr + ptr) :=
  r ← RIGHT tmp_node;
  if bool_decide (r ≠ NULL) then
    k ← KEY tmp_node;
    if bool_decide (query_key < k) then l ← LEFT tmp_node; mret (inl l)
    else r ← RIGHT tmp_node; mret (inl r)
  else mret (inr tmp_node).

Definition find (fuel : nat) (tree : ptr) (query_key : Z) : M heap ptr :=
  l ← LEFT tree;
  if bool_decide (l = NULL) then mret NULL
  else
    tmp_node ← loop fuel (find_step query_key) tree;
    k ← KEY tmp_node;
    if bool_decide (k = query_key) then LEFT tmp_node else mret NULL.

(** [path_stack], the last entry first: it has room for 100. *)
Definition push_path (path : list ptr) (n : ptr) : M heap (list ptr) :=
  if bool_decide (length path < 100)%nat then mret (n :: path) else undef.

(** The body of the loop that rebalances, which insertion and deletion share. *)
Definition rebalance_node (tmp_node : ptr) : M heap unit :=
  l ← LEFT tmp_node; lh ← HEIGHT l; r ← RIGHT tmp_node; rh ← HEIGHT r; d ← sub lh rh;
  if bool_decide (d = 2) then
    ll ← LEFT l; llh ← HEIGHT ll; d ← sub llh rh;
    if bool_decide (d = 1) then
      right_rotation tmp_node;;
      r ← RIGHT tmp_node; rl ← LEFT r; h ← HEIGHT rl; h ← add h 1; set_height r h;;
      r ← RIGHT tmp_node; h ← HEIGHT r; h ← add h 1; set_height tmp_node h
    else
      l ← LEFT tmp_node; left_rotation l;;
      right_rotation tmp_node;;
      l ← LEFT tmp_node; ll ← LEFT l; tmp_height ← HEIGHT ll;
      h ← add tmp_height 1; set_height l h;;
      r ← RIGHT tmp_node; h ← add tmp_height 1; set_height r h;;
      h ← add tmp_height 2; set_height tmp_node h
  else if bool_decide (d = -2) then
    rr ← RIGHT r; rrh ← HEIGHT rr; d ← sub rrh lh;
    if bool_decide (d = 1) then
      left_rotation tmp_node;;
      l ← LEFT tmp_node; lr ← RIGHT l; h ← HEIGHT lr; h ← add h 1; set_height l h;;
      l ← LEFT tmp_node; h ← HEIGHT l; h ← add h 1; set_height tmp_node h
    else
      r ← RIGHT tmp_node; right_rotation r;;
      left_rotation tmp_node;;
      r ← RIGHT tmp_node; rr ← RIGHT r; tmp_height ← HEIGHT rr;
      l ← LEFT tmp_node; h ← add tmp_height 1; set_height l h;;
      h ← add tmp_height 1; set_height r h;;
      h ← add tmp_height 2; set_height tmp_node h
  else
    if bool_decide (lh > rh) then
      h ← add lh 1; set_height tmp_node h
    else
      h ← add rh 1; set_height tmp_node h.

(** [while (path_st_p > 0 && !finished)]. *)
Fixpoint rebalance (path : list ptr) : M heap unit :=
  match path with
  | [] => mret tt
  | tmp_node :: path =>
      old_height ← HEIGHT tmp_node;
      rebalance_node tmp_node;;
      h ← HEIGHT tmp_node;
      if bool_decide (h = old_height) then mret tt else rebalance path
  end.

(** The bodies of the loops of [insert] and [delete] that go down: the variables are
    [tmp_node] and [path_stack], and for [delete] [upper_node] and [other_node]. *)
Definition insert_step (new_key : Z) (s : ptr * list ptr) : M heap (ptr * list ptr + ptr * list ptr) :=
  let '(tmp_node, path_stack) := s in
  r ← RIGHT tmp_node;
  if bool_decide (r ≠ NULL) then
    path_stack ← push_path path_stack tmp_node;
    k ← KEY tmp_node;
    if bool_decide (new_key < k) then l ← LEFT tmp_node; mret (inl (l, path_stack))
    else r ← RIGHT tmp_node; mret (inl (r, path_stack))
  else mret (inr (tmp_node, path_stack)).
Definition delete_step (delete_key : Z) (s : ptr * ptr * ptr * list ptr) :
    M heap (ptr * ptr * ptr * list ptr + ptr * ptr * ptr * list ptr) :=
  let '(tmp_node, upper_node, other_node, path_stack) := s in
  r ← RIGHT tmp_node;
  if bool_decide (r ≠ NULL) then
    path_stack ← push_path path_stack tmp_node;
    let upper_node := tmp_node in
    k ← KEY tmp_node;
    if bool_decide (delete_key < k) then
      tmp_node ← LEFT upper_node; other_node ← RIGHT upper_node;
      mret (inl (tmp_node, upper_node, other_node, path_stack))
    else
      tmp_node ← RIGHT upper_node; other_node ← LEFT upper_node;
      mret (inl (tmp_node, upper_node, other_node, path_stack))
  else mret (inr (tmp_node, upper_node, other_node, path_stack)).

Definition insert (fuel : nat) (tree : ptr) (new_key : Z) (new_object : ptr) : M heap Z :=
  l ← LEFT tree;
  if bool_decide (l = NULL) then
    set_left tree new_object;; set_key tree new_key;; set_height tree 0;; set_right tree NULL;;
    mret 0
  else
    '(tmp_node, path_stack) ← loop fuel (insert_step new_key) (tree, []);
    k ← KEY tmp_node;
    if bool_decide (k = new_key) then mret (-1)
    else
      old_leaf ← get_node;
      l ← LEFT tmp_node; set_left old_leaf l;; k ← KEY tmp_node; set_key old_leaf k;;
      set_right old_leaf NULL;; set_height old_leaf 0;;
      new_leaf ← get_node;
      set_left new_leaf new_object;; set_key new_leaf new_key;;
      set_right new_leaf NULL;; set_height new_leaf 0;;
      k ← KEY tmp_node;
      (if bool_decide (k < new_key) then
         set_left tmp_node old_leaf;; set_right tmp_node new_leaf;; set_key tmp_node new_key
       else
         set_left tmp_node new_leaf;; set_right tmp_node old_leaf);;
      set_height tmp_node 1;;
      rebalance path_stack;;
      mret 0.

Definition delete (fuel : nat) (tree : ptr) (delete_key : Z) : M heap ptr :=
  l ← LEFT tree;
  if bool_decide (l = NULL) then mret NULL
  else
    r ← RIGHT tree;
    if bool_decide (r = NULL) then
      k ← KEY tree;
      if bool_decide (k = delete_key) then
        deleted_object ← LEFT tree; set_left tree NULL;; mret deleted_object
      else mret NULL
    else
      '(tmp_node, upper_node, other_node, path_stack) ← loop fuel (delete_step delete_key)
        (tree, NULL, NULL, []);
      k ← KEY tmp_node;
      deleted_object ← (if bool_decide (k ≠ delete_key) then mret NULL
        else
          k ← KEY other_node; set_key upper_node k;;
          l ← LEFT other_node; set_left upper_node l;;
          r ← RIGHT other_node; set_right upper_node r;;
          h ← HEIGHT other_node; set_height upper_node h;;
          deleted_object ← LEFT tmp_node;
          return_node tmp_node;;
          return_node other_node;;
          mret deleted_object);
      rebalance (tail path_stack);;
      mret deleted_object.
End tree_operations.

(** * Trees *)

Inductive tree := Leaf (k : Z) (o : ptr) | Node (k h : Z) (l r : tree).

(** The height that is stored at the root. *)
Definition ht (t : tree) : Z := match t with Leaf _ _ => 0 | Node _ h _ _ => h end.

Fixpoint balanced (t : tree) : Prop :=
  match t with
  | Leaf _ _ => True
  | Node k h l r => h = 1 + Z.max (ht l) (ht r) ∧ -1 <= ht l - ht r <= 1 ∧ balanced l ∧ balanced r
  end.

(** The objects by their keys, and the order of keys. *)
Fixpoint dict (t : tree) : gmap Z ptr :=
  match t with Leaf k o => {[k := o]} | Node _ _ l r => dict l ∪ dict r end.
Fixpoint search (t : tree) : Prop :=
  match t with
  | Leaf _ _ => True
  | Node k _ l r =>
      map_Forall (λ x _, x < k) (dict l) ∧ map_Forall (λ x _, k <= x) (dict r) ∧ search l ∧ search r
  end.

Fixpoint leaves (t : tree) : nat := match t with Leaf _ _ => 1 | Node _ _ l r => leaves l + leaves r end.

Lemma ht_nonneg t : balanced t → 0 <= ht t.
Proof. induction t as [|k h l IHl r IHr]; simpl; [lia|]. intros (-> & _ & Hl & Hr). specialize (IHl Hl). lia. Qed.

(** The height of a balanced tree is at most twice the logarithm of its size. *)
Lemma balanced_leaves t (n : nat) : balanced t → Z.of_nat n <= ht t → (2 ^ Nat.div2 (S n) ≤ leaves t)%nat.
Proof.
  revert n. induction t as [|k h l IHl r IHr]; intros n; simpl; intros Hb Hn.
  { assert (n = 0)%nat as -> by lia. simpl. lia. }
  destruct Hb as (-> & Hd & Hl & Hr). pose proof (ht_nonneg l Hl). pose proof (ht_nonneg r Hr).
  destruct n as [|[|n]].
  - pose proof (IHl 0%nat Hl ltac:(lia)). simpl in *. lia.
  - pose proof (IHl 0%nat Hl ltac:(lia)). pose proof (IHr 0%nat Hr ltac:(lia)). simpl in *. lia.
  - change (Nat.div2 (S (S (S n)))) with (S (Nat.div2 (S n))). specialize (IHl n Hl ltac:(lia)). specialize (IHr n Hr ltac:(lia)).
    rewrite Nat.pow_succ_r'. lia.
Qed.
Lemma balanced_height t : balanced t → 0 <= ht t <= 2 * Z.of_nat (Nat.log2 (leaves t)).
Proof.
  intros Hb. pose proof (ht_nonneg t Hb). split; [done|].
  pose proof (balanced_leaves t (Z.to_nat (ht t)) Hb ltac:(lia)) as Hl.
  apply Nat.log2_le_mono in Hl. rewrite (Nat.log2_pow2 _ (Nat.le_0_l _)) in Hl. pose proof (Nat.div2_odd (S (Z.to_nat (ht t)))) as E.
  destruct (Nat.odd (S (Z.to_nat (ht t)))); cbn [Nat.b2n] in E; lia.
Qed.

Lemma dict_not_empty t : ∃ x o, dict t !! x = Some o.
Proof.
  induction t as [k o|k h l (x & o & IH) r _]; [exists k, o; apply lookup_singleton_eq|].
  exists x, o. by apply lookup_union_Some_l.
Qed.

Lemma search_disjoint k h l r : search (Node k h l r) → dict l ##ₘ dict r.
Proof.
  intros (Hl & Hr & _). apply map_disjoint_spec. intros x o1 o2 H1%Hl H2%Hr. simpl in *. lia.
Qed.

(** Where a key is looked for. *)
Lemma search_lookup q k h l r : search (Node k h l r) →
  dict (Node k h l r) !! q = if decide (q < k) then dict l !! q else dict r !! q.
Proof.
  intros (Hl & Hr & _). simpl. case_decide.
  - destruct (dict l !! q) as [o|] eqn:E; [by apply lookup_union_Some_l|].
    rewrite lookup_union_r //. destruct (dict r !! q) as [o|] eqn:E'; [|done]. specialize (Hr q o E'). simpl in *. lia.
  - rewrite lookup_union_r //. destruct (dict l !! q) as [o|] eqn:E'; [|done]. specialize (Hl q o E'). simpl in *. lia.
Qed.

Lemma size_dict t : search t → size (dict t) = leaves t.
Proof.
  induction t as [k o|k h l IHl r IHr]; simpl; [intros _; apply map_size_singleton|].
  intros Hs. pose proof (search_disjoint k h l r Hs). destruct Hs as (_ & _ & Hl & Hr).
  rewrite map_size_disj_union // IHl // IHr //.
Qed.

(** * Rebalancing *)

Definition single_right (k : Z) (l r : tree) : tree :=
  match l with
  | Node kl _ ll lr => Node kl (ht lr + 2) ll (Node k (ht lr + 1) lr r)
  | Leaf _ _ => Node k 0 l r
  end.
Definition single_left (k : Z) (l r : tree) : tree :=
  match r with
  | Node kr _ rl rr => Node kr (ht rl + 2) (Node k (ht rl + 1) l rl) rr
  | Leaf _ _ => Node k 0 l r
  end.
Definition double_right (k : Z) (l r : tree) : tree :=
  match l with
  | Node kl _ ll (Node km _ ml mr) => Node km (ht ll + 2) (Node kl (ht ll + 1) ll ml) (Node k (ht ll + 1) mr r)
  | _ => Node k 0 l r
  end.
Definition double_left (k : Z) (l r : tree) : tree :=
  match r with
  | Node kr _ (Node km _ ml mr) rr => Node km (ht rr + 2) (Node k (ht rr + 1) l ml) (Node kr (ht rr + 1) mr rr)
  | _ => Node k 0 l r
  end.

Definition left_of (t : tree) : tree := match t with Node _ _ l _ => l | _ => t end.
Definition right_of (t : tree) : tree := match t with Node _ _ _ r => r | _ => t end.

(** What [rebalance_node] makes of a node. *)
Definition rebalanced (k : Z) (l r : tree) : tree :=
  if decide (ht l - ht r = 2) then
    if decide (ht (left_of l) - ht r = 1) then single_right k l r else double_right k l r
  else if decide (ht l - ht r = -2) then
    if decide (ht (right_of r) - ht l = 1) then single_left k l r else double_left k l r
  else Node k (1 + Z.max (ht l) (ht r)) l r.

(** Two trees whose heights differ by at most two become one that is balanced,
    whose height differs by at most one from what it was, when they differed by at most
    one and one of them has changed by one. *)
Lemma rebalanced_balanced k l r : balanced l → balanced r → -2 <= ht l - ht r <= 2 →
  balanced (rebalanced k l r) ∧
  Z.max (ht l) (ht r) <= ht (rebalanced k l r) <= 1 + Z.max (ht l) (ht r) ∧
  (-1 <= ht l - ht r <= 1 → ht (rebalanced k l r) = 1 + Z.max (ht l) (ht r)).
Proof.
  intros Hl Hr Hd. unfold rebalanced. repeat case_decide.
  - destruct l as [|kl hl ll lr]; simpl in *; [pose proof (ht_nonneg r Hr); lia|].
    destruct Hl as (-> & ? & ? & ?). split_and!; (done || lia).
  - destruct l as [|kl hl ll lr]; simpl in *; [pose proof (ht_nonneg r Hr); lia|].
    destruct Hl as (-> & ? & ? & Hlr).
    destruct lr as [|km hm ml mr]; simpl in *; [pose proof (ht_nonneg ll); pose proof (ht_nonneg r Hr); lia|].
    destruct Hlr as (-> & ? & ? & ?). split_and!; (done || lia).
  - destruct r as [|kr hr rl rr]; simpl in *; [pose proof (ht_nonneg l Hl); lia|].
    destruct Hr as (-> & ? & ? & ?). split_and!; (done || lia).
  - destruct r as [|kr hr rl rr]; simpl in *; [pose proof (ht_nonneg l Hl); lia|].
    destruct Hr as (-> & ? & Hrl & ?).
    destruct rl as [|km hm ml mr]; simpl in *; [pose proof (ht_nonneg rr); pose proof (ht_nonneg l Hl); lia|].
    destruct Hrl as (-> & ? & ? & ?). split_and!; (done || lia).
  - simpl. split_and!; (done || lia).
Qed.

Lemma rebalanced_dict k l r : dict (rebalanced k l r) = dict l ∪ dict r.
Proof.
  unfold rebalanced. repeat case_decide; [..|done];
    [destruct l|destruct l as [|kl hl ll []]|destruct r|destruct r as [|kr hr [] rr]]; simpl; rewrite ?assoc_L //.
Qed.

Lemma search_node k h l r : search (Node k h l r) ↔
  map_Forall (λ x _, x < k) (dict l) ∧ map_Forall (λ x _, k <= x) (dict r) ∧ search l ∧ search r.
Proof. done. Qed.

(** The bounds of the keys of a node are those of its two subtrees, and its key
    is between them. *)
Lemma Forall_node (P : Z → Prop) k h l r : search (Node k h l r) →
  map_Forall (λ x _, P x) (dict (Node k h l r)) ↔
  map_Forall (λ x _, P x) (dict l) ∧ map_Forall (λ x _, P x) (dict r).
Proof.
  intros Hs. simpl. pose proof (search_disjoint k h l r Hs) as Hd. split.
  - intros H. split; [by eapply map_Forall_union_1_1|by eapply map_Forall_union_1_2].
  - intros [H1 H2]. by apply map_Forall_union_2.
Qed.

Lemma Forall_some (P : Z → Prop) t : map_Forall (λ x _, P x) (dict t) → ∃ x, P x ∧ ∃ o, dict t !! x = Some o.
Proof. intros H. destruct (dict_not_empty t) as (x & o & Hx). exists x. split; [by apply (H x o)|by exists o]. Qed.

Lemma Forall_lt_trans a b t : a <= b → map_Forall (λ x _, x < a) (dict t) → map_Forall (λ x _, x < b) (dict t).
Proof. intros Hab H x o Hx. specialize (H x o Hx). simpl in *. lia. Qed.
Lemma Forall_le_trans a b t : a <= b → map_Forall (λ x _, b <= x) (dict t) → map_Forall (λ x _, a <= x) (dict t).
Proof. intros Hab H x o Hx. specialize (H x o Hx). simpl in *. lia. Qed.

(** The key of a subtree is between the keys of its leaves. *)
Lemma key_lt k kl hl ll lr : search (Node kl hl ll lr) → map_Forall (λ x _, x < k) (dict (Node kl hl ll lr)) → kl <= k.
Proof.
  intros Hs H. apply (Forall_node (λ x, x < k)) in H as [_ H]; [|done]. destruct Hs as (_ & Hr & _).
  destruct (dict_not_empty lr) as (x & o & Hx). specialize (H x o Hx). specialize (Hr x o Hx). simpl in *. lia.
Qed.
Lemma key_ge k kr hr rl rr : search (Node kr hr rl rr) → map_Forall (λ x _, k <= x) (dict (Node kr hr rl rr)) → k <= kr.
Proof.
  intros Hs H. apply (Forall_node (λ x, k <= x)) in H as [H _]; [|done]. destruct Hs as (Hl & _).
  destruct (dict_not_empty rl) as (x & o & Hx). specialize (H x o Hx). specialize (Hl x o Hx). simpl in *. lia.
Qed.

(** Rotations keep the order of keys. *)
Lemma rotate_right_search k kl h h' h1 h2 ll lr r :
  search (Node k h (Node kl h' ll lr) r) → search (Node kl h1 ll (Node k h2 lr r)).
Proof.
  intros (Hl & Hr & Hs & Hsr). pose proof (key_lt _ _ _ _ _ Hs Hl) as Hk.
  apply (Forall_node (λ x, x < k)) in Hl as [Hll Hlr]; [|done].
  destruct Hs as (Hll' & Hlr' & Hsll & Hslr). assert (search (Node k h2 lr r)) as Hs' by by split_and!.
  split_and!; [done| |done..]. apply (Forall_node (λ x, kl <= x) k h2); [done|].
  split; [done|by eapply Forall_le_trans].
Qed.
Lemma rotate_left_search k kr h h' h1 h2 l rl rr :
  search (Node k h l (Node kr h' rl rr)) → search (Node kr h1 (Node k h2 l rl) rr).
Proof.
  intros (Hl & Hr & Hsl & Hs). pose proof (key_ge _ _ _ _ _ Hs Hr) as Hk.
  apply (Forall_node (λ x, k <= x)) in Hr as [Hrl Hrr]; [|done].
  destruct Hs as (Hrl' & Hrr' & Hsrl & Hsrr). assert (search (Node k h2 l rl)) as Hs' by by split_and!.
  split_and!; [|done..]. apply (Forall_node (λ x, x < kr) k h2); [done|].
  split; [by eapply Forall_lt_trans|done].
Qed.

Lemma search_height k h h' l r : search (Node k h l r) → search (Node k h' l r).
Proof. done. Qed.

(** Replacing a subtree by one with the same objects. *)
Lemma search_replace k h l l' r r' : search (Node k h l r) →
  dict l' = dict l → dict r' = dict r → search l' → search r' → search (Node k h l' r').
Proof. intros (Hl & Hr & _) Hdl Hdr Hsl Hsr. split_and!; rewrite ?Hdl ?Hdr //. Qed.

Lemma rebalanced_search k h l r : search (Node k h l r) → search (rebalanced k l r).
Proof.
  intros Hs. unfold rebalanced. repeat case_decide; [..|done].
  - destruct l as [|kl hl ll lr]; [done|]. by eapply rotate_right_search.
  - destruct l as [|kl hl ll [|km hm ml mr]]; [done..|]. simpl.
    eapply (rotate_right_search k km h 0 _ _ (Node kl _ ll ml) mr r).
    eapply search_replace; [exact Hs| |done| |apply Hs]; [by rewrite /= assoc_L|].
    by eapply rotate_left_search, (proj1 (proj2 (proj2 Hs))).
  - destruct r as [|kr hr rl rr]; [done|]. by eapply rotate_left_search.
  - destruct r as [|kr hr [|km hm ml mr] rr]; [done..|]. simpl.
    eapply (rotate_left_search k km h 0 _ _ l ml (Node kr _ mr rr)).
    eapply search_replace; [exact Hs|done| |apply Hs|]; [by rewrite /= assoc_L|].
    by eapply rotate_right_search, (proj2 (proj2 (proj2 Hs))).
  Unshelve. all: exact 0.
Qed.

(** * Trees in the store *)

Section tree_representation.
Context {N : Type} `{!Struct tnode N, !NodeAlloc tnode N}.

Fixpoint rep (n : loc) (t : tree) : hpropI N :=
  match t with
  | Leaf k o => n ↦ TNode k o NULL 0
  | Node k h l r => ∃ pl pr, n ↦ TNode k (Some pl) (Some pr) h ∗ rep pl l ∗ rep pr r
  end%I.

Lemma rep_open n k h l r :
  rep n (Node k h l r) -∗ ∃ pl pr, n ↦ TNode k (Some pl) (Some pr) h ∗ rep pl l ∗ rep pr r.
Proof. iIntros "H". iExact "H". Qed.

Section fields.
Context (l : loc) (Ψ : exn → hpropI N).
Lemma wp_KEY x Φ : l ↦ x -∗ (l ↦ x -∗ Φ (key x)) -∗ wp (N := N) (KEY (Some l)) Φ Ψ.
Proof. iIntros "H HΦ". unfold KEY. wp_load "H". by iApply "HΦ". Qed.
Lemma wp_LEFT x Φ : l ↦ x -∗ (l ↦ x -∗ Φ (left x)) -∗ wp (N := N) (LEFT (Some l)) Φ Ψ.
Proof. iIntros "H HΦ". unfold LEFT. wp_load "H". by iApply "HΦ". Qed.
Lemma wp_RIGHT x Φ : l ↦ x -∗ (l ↦ x -∗ Φ (right x)) -∗ wp (N := N) (RIGHT (Some l)) Φ Ψ.
Proof. iIntros "H HΦ". unfold RIGHT. wp_load "H". by iApply "HΦ". Qed.
Lemma wp_HEIGHT x Φ : l ↦ x -∗ (l ↦ x -∗ Φ (height x)) -∗ wp (N := N) (HEIGHT (Some l)) Φ Ψ.
Proof. iIntros "H HΦ". unfold HEIGHT. wp_load "H". by iApply "HΦ". Qed.
Lemma wp_set_key x k Φ :
  l ↦ x -∗ (l ↦ TNode k (left x) (right x) (height x) -∗ Φ tt) -∗ wp (N := N) (set_key (Some l) k) Φ Ψ.
Proof. iIntros "H HΦ". unfold set_key. wp_load "H". iApply (wp_store with "H"). iIntros "H". by iApply "HΦ". Qed.
Lemma wp_set_left x p Φ :
  l ↦ x -∗ (l ↦ TNode (key x) p (right x) (height x) -∗ Φ tt) -∗ wp (N := N) (set_left (Some l) p) Φ Ψ.
Proof. iIntros "H HΦ". unfold set_left. wp_load "H". iApply (wp_store with "H"). iIntros "H". by iApply "HΦ". Qed.
Lemma wp_set_right x p Φ :
  l ↦ x -∗ (l ↦ TNode (key x) (left x) p (height x) -∗ Φ tt) -∗ wp (N := N) (set_right (Some l) p) Φ Ψ.
Proof. iIntros "H HΦ". unfold set_right. wp_load "H". iApply (wp_store with "H"). iIntros "H". by iApply "HΦ". Qed.
Lemma wp_set_height x h Φ :
  l ↦ x -∗ (l ↦ TNode (key x) (left x) (right x) h -∗ Φ tt) -∗ wp (N := N) (set_height (Some l) h) Φ Ψ.
Proof. iIntros "H HΦ". unfold set_height. wp_load "H". iApply (wp_store with "H"). iIntros "H". by iApply "HΦ". Qed.
End fields.

Lemma wp_add a b Φ Ψ : in_s 32 (a + b) → Φ (a + b) ⊢ wp (N := N) (add a b) Φ Ψ.
Proof. intros H. by apply wp_defined, int_of_in. Qed.
Lemma wp_sub a b Φ Ψ : in_s 32 (a - b) → Φ (a - b) ⊢ wp (N := N) (sub a b) Φ Ψ.
Proof. intros H. by apply wp_defined, int_of_in. Qed.
End tree_representation.

(** Step over an access to a field of a node whose cell is in the context. *)
Ltac cell_of l tac :=
  lazymatch goal with |- envs_entails ?Δ _ =>
    lazymatch Δ with context [Esnoc _ (INamed ?i) (points_to l _)] => tac i end end.
Ltac field_step :=
  wp_focus;
  lazymatch goal with
  | |- envs_entails _ (wp (KEY (Some ?l)) _ _) => cell_of l ltac:(fun i => iApply (wp_KEY with i); iIntros i)
  | |- envs_entails _ (wp (LEFT (Some ?l)) _ _) => cell_of l ltac:(fun i => iApply (wp_LEFT with i); iIntros i)
  | |- envs_entails _ (wp (RIGHT (Some ?l)) _ _) => cell_of l ltac:(fun i => iApply (wp_RIGHT with i); iIntros i)
  | |- envs_entails _ (wp (HEIGHT (Some ?l)) _ _) => cell_of l ltac:(fun i => iApply (wp_HEIGHT with i); iIntros i)
  | |- envs_entails _ (wp (set_key (Some ?l) _) _ _) => cell_of l ltac:(fun i => iApply (wp_set_key with i); iIntros i)
  | |- envs_entails _ (wp (set_left (Some ?l) _) _ _) => cell_of l ltac:(fun i => iApply (wp_set_left with i); iIntros i)
  | |- envs_entails _ (wp (set_right (Some ?l) _) _ _) => cell_of l ltac:(fun i => iApply (wp_set_right with i); iIntros i)
  | |- envs_entails _ (wp (set_height (Some ?l) _) _ _) => cell_of l ltac:(fun i => iApply (wp_set_height with i); iIntros i)
  | |- envs_entails _ (wp (mret _) _ _) => iApply wp_ret
  end; cbn [key left right height].
Ltac field_steps := repeat field_step.

Section rotations.
Context {N : Type} `{!Struct tnode N, !NodeAlloc tnode N}.

Lemma left_rotation_spec n k h a k2 h2 b c :
  ⦃ rep (N := N) n (Node k h a (Node k2 h2 b c)) ⦄ left_rotation (Some n) ⦃ _u, rep n (Node k2 h (Node k h2 a b) c) ⦄.
Proof.
  unfold hoare, left_rotation. iIntros "(%pa & %p & Hn & Ha & (%pb & %pc & Hp & Hb & Hc))". field_steps.
  iExists p, pc. iFrame "Hn Hc". iExists pa, pb. iFrame.
Qed.
Lemma right_rotation_spec n k h k2 h2 a b c :
  ⦃ rep (N := N) n (Node k h (Node k2 h2 a b) c) ⦄ right_rotation (Some n) ⦃ _u, rep n (Node k2 h a (Node k h2 b c)) ⦄.
Proof.
  unfold hoare, right_rotation. iIntros "(%p & %pc & Hn & (%pa & %pb & Hp & Ha & Hb) & Hc)". field_steps.
  iExists pa, p. iFrame "Hn Ha". iExists pb, pc. iFrame.
Qed.
End rotations.

(** * Rebalancing a node *)

Section rebalance_node.
Context {N : Type} `{!Struct tnode N, !NodeAlloc tnode N}.

Lemma wp_rep_HEIGHT p t Φ Ψ : rep p t -∗ (rep p t -∗ Φ (ht t)) -∗ wp (N := N) (HEIGHT (Some p)) Φ Ψ.
Proof.
  iIntros "H HΦ". destruct t as [k o|k h l r]; simpl.
  - iApply (wp_HEIGHT with "H"). iExact "HΦ".
  - iDestruct "H" as (pl pr) "(Hp & Hl & Hr)". iApply (wp_HEIGHT with "Hp"). iIntros "Hp". iApply "HΦ".
    iExists pl, pr. iFrame.
Qed.

(** A node is put together from its cell and its subtrees. *)
Lemma rep_node n k h l r pl pr :
  n ↦ TNode k (Some pl) (Some pr) h -∗ rep pl l -∗ rep pr r -∗ rep (N := N) n (Node k h l r).
Proof. iIntros "Hn Hl Hr". iExists pl, pr. iFrame. Qed.
End rebalance_node.

Ltac rep_of l tac :=
  lazymatch goal with |- envs_entails ?Δ _ =>
    lazymatch Δ with context [Esnoc _ (INamed ?i) (rep l _)] => tac i end end.
(** Also the heights of subtrees, and arithmetic on heights. *)
Ltac tree_step :=
  first [ field_step
        | wp_focus;
          lazymatch goal with
          | |- envs_entails _ (wp (HEIGHT (Some ?l)) _ _) => rep_of l ltac:(fun i => iApply (wp_rep_HEIGHT with i); iIntros i)
          | |- envs_entails _ (wp (add _ _) _ _) => iApply wp_add; [unfold in_s; simpl in *; lia|]
          | |- envs_entails _ (wp (sub _ _) _ _) => iApply wp_sub; [unfold in_s; simpl in *; lia|]
          end; cbn [key left right height ht] ].
Ltac tree_steps := repeat tree_step.

Section rebalance_node_correct.
Context {N : Type} `{!Struct tnode N, !NodeAlloc tnode N}.

Lemma rebalance_node_spec n k h l r :
  balanced l → balanced r → -2 <= ht l - ht r <= 2 → ht l <= 1000 → ht r <= 1000 →
  ⦃ rep (N := N) n (Node k h l r) ⦄ rebalance_node (Some n) ⦃ _u, rep n (rebalanced k l r) ⦄.
Proof.
  intros Hl Hr Hd Hbl Hbr. pose proof (ht_nonneg l Hl). pose proof (ht_nonneg r Hr).
  unfold hoare, rebalance_node, rebalanced. iIntros "Hn".
  iDestruct (rep_open with "Hn") as (pl pr) "(Hn & Hl & Hr)". tree_steps.
  case_bool_decide as E2; [rewrite decide_True //|rewrite decide_False //].
  { destruct l as [|kl hl ll lr]; [simpl in *; lia|]. destruct Hl as (Ehl & ? & Hll & Hlr).
    pose proof (ht_nonneg ll Hll). pose proof (ht_nonneg lr Hlr). simpl in Hbl, E2.
    iDestruct (rep_open with "Hl") as (pll plr) "(Hpl & Hll & Hlr)". tree_steps. cbn [left_of].
    case_bool_decide as E1; [rewrite decide_True //|rewrite decide_False //].
    - iDestruct (rep_node with "Hpl Hll Hlr") as "Hl". iDestruct (rep_node with "Hn Hl Hr") as "Hn".
      iApply wp_bind. iApply (hoare_wp_ret with "Hn"); [apply right_rotation_spec|].
      iIntros ([]) "Hn".
      iDestruct (rep_open with "Hn") as (pa pb) "(Hn & Ha & Hb)". iDestruct (rep_open with "Hb") as (pc pd) "(Hb & Hc & Hd)". tree_steps.
      replace (ht lr + 1 + 1) with (ht lr + 2) by lia.
      iApply (rep_node with "Hn Ha"). iApply (rep_node with "Hb Hc Hd").
    - destruct lr as [|km hm ml mr]; [simpl in *; lia|].
      iDestruct (rep_node with "Hpl Hll Hlr") as "Hl".
      field_step. iApply wp_bind. iApply (hoare_wp_ret with "Hl"); [apply left_rotation_spec|]. iIntros ([]) "Hl".
      iDestruct (rep_node with "Hn Hl Hr") as "Hn".
      iApply wp_bind. iApply (hoare_wp_ret with "Hn"); [apply right_rotation_spec|].
      iIntros ([]) "Hn".
      iDestruct (rep_open with "Hn") as (pa pb) "(Hn & Ha & Hb)". iDestruct (rep_open with "Ha") as (pc pd) "(Ha & Hc & Hd)".
      iDestruct (rep_open with "Hb") as (pe pf) "(Hb & He & Hf)". tree_steps.
      iApply (rep_node with "Hn [Ha Hc Hd]"); [iApply (rep_node with "Ha Hc Hd")|iApply (rep_node with "Hb He Hf")]. }
  case_bool_decide as E3; [rewrite decide_True //|rewrite decide_False //].
  { destruct r as [|kr hr rl rr]; [simpl in *; lia|]. destruct Hr as (Ehr & ? & Hrl & Hrr).
    pose proof (ht_nonneg rl Hrl). pose proof (ht_nonneg rr Hrr). simpl in Hbr, E3.
    iDestruct (rep_open with "Hr") as (prl prr) "(Hpr & Hrl & Hrr)". tree_steps. cbn [right_of].
    case_bool_decide as E1; [rewrite decide_True //|rewrite decide_False //].
    - iDestruct (rep_node with "Hpr Hrl Hrr") as "Hr". iDestruct (rep_node with "Hn Hl Hr") as "Hn".
      iApply wp_bind. iApply (hoare_wp_ret with "Hn"); [apply left_rotation_spec|].
      iIntros ([]) "Hn".
      iDestruct (rep_open with "Hn") as (pa pb) "(Hn & Ha & Hb)". iDestruct (rep_open with "Ha") as (pc pd) "(Ha & Hc & Hd)". tree_steps.
      replace (ht rl + 1 + 1) with (ht rl + 2) by lia.
      iApply (rep_node with "Hn [Ha Hc Hd] Hb"). iApply (rep_node with "Ha Hc Hd").
    - destruct rl as [|km hm ml mr]; [simpl in *; lia|].
      iDestruct (rep_node with "Hpr Hrl Hrr") as "Hr".
      field_step. iApply wp_bind. iApply (hoare_wp_ret with "Hr"); [apply right_rotation_spec|]. iIntros ([]) "Hr".
      iDestruct (rep_node with "Hn Hl Hr") as "Hn".
      iApply wp_bind. iApply (hoare_wp_ret with "Hn"); [apply left_rotation_spec|].
      iIntros ([]) "Hn".
      iDestruct (rep_open with "Hn") as (pa pb) "(Hn & Ha & Hb)". iDestruct (rep_open with "Ha") as (pc pd) "(Ha & Hc & Hd)".
      iDestruct (rep_open with "Hb") as (pe pf) "(Hb & He & Hf)". tree_steps.
      iApply (rep_node with "Hn [Ha Hc Hd]"); [iApply (rep_node with "Ha Hc Hd")|iApply (rep_node with "Hb He Hf")]. }
  case_bool_decide; tree_steps.
  - replace (1 + Z.max (ht l) (ht r)) with (ht l + 1) by lia. iApply (rep_node with "Hn Hl Hr").
  - replace (1 + Z.max (ht l) (ht r)) with (ht r + 1) by lia. iApply (rep_node with "Hn Hl Hr").
Qed.
End rebalance_node_correct.

(** * Paths *)

(** An ancestor whose left, or right, subtree is on the path, with the other one. *)
Inductive frame :=
  | FL (n : loc) (k h : Z) (pr : loc) (r : tree)
  | FR (n : loc) (k h : Z) (pl : loc) (l : tree).
Definition addr (f : frame) : ptr := match f with FL n _ _ _ _ => Some n | FR n _ _ _ _ => Some n end.

Fixpoint plug (fs : list frame) (t : tree) : tree :=
  match fs with
  | [] => t
  | FL _ k h _ r :: fs => plug fs (Node k h t r)
  | FR _ k h _ l :: fs => plug fs (Node k h l t)
  end.

(** The path is the one to the key [q]. *)
Fixpoint path_to (q : Z) (fs : list frame) : Prop :=
  match fs with
  | [] => True
  | FL _ k _ _ _ :: fs => q < k ∧ path_to q fs
  | FR _ k _ _ _ :: fs => k <= q ∧ path_to q fs
  end.

(** The tree around a subtree of height [h0] is balanced, and not very high. *)
Fixpoint path_balanced (h0 : Z) (fs : list frame) : Prop :=
  match fs with
  | [] => True
  | FL _ k h _ t :: fs | FR _ k h _ t :: fs =>
      balanced t ∧ -1 <= h0 - ht t <= 1 ∧ h = 1 + Z.max h0 (ht t) ∧ h <= 900 ∧ path_balanced h fs
  end.

Lemma plug_search_inv fs t : search (plug fs t) → search t.
Proof. revert t. induction fs as [|[] fs IH]; intros u; simpl; [done|..]; intros H%IH; apply H. Qed.

Lemma path_balanced_inv fs t : balanced (plug fs t) → ht (plug fs t) <= 900 →
  balanced t ∧ path_balanced (ht t) fs ∧ Z.of_nat (length fs) + ht t <= ht (plug fs t).
Proof.
  revert t. induction fs as [|[n k h pr r|n k h pl l] fs IH]; intros t; simpl; [intros; split_and!; (done || lia)|..];
    intros Hb Hh; destruct (IH _ Hb Hh) as (Hnode & Hp & Hlen); simpl in *;
    destruct Hnode as (-> & Hd & Hl & Hr); pose proof (ht_nonneg _ Hl); pose proof (ht_nonneg _ Hr);
    split_and!; (done || lia || by rewrite Z.max_comm).
Qed.

Lemma plug_balanced fs t : balanced t → path_balanced (ht t) fs → balanced (plug fs t).
Proof.
  revert t. induction fs as [|[n k h pr r|n k h pl l] fs IH]; intros t Ht; simpl; [done|..];
    intros (Hb & Hd & -> & _ & Hp); apply IH; simpl; try done; split_and!; (done || lia).
Qed.

Section replacing.
Context (q : Z) (t t' : tree) (Hagree : ∀ x, x ≠ q → dict t' !! x = dict t !! x) (Ht' : search t').

(** Replacing a subtree on the path to [q] changes at most what is at [q]. *)
Lemma plug_agree fs x : x ≠ q → dict (plug fs t') !! x = dict (plug fs t) !! x.
Proof.
  intros Hx. clear Ht'. revert t t' Hagree.
  induction fs as [|[n k h pr r|n k h pl l] fs IH]; intros u u' Hu; simpl; [by apply Hu|..];
    apply IH; intros y Hy; simpl; by rewrite !lookup_union Hu.
Qed.
End replacing.

Lemma plug_search q fs t t' : (∀ x, x ≠ q → dict t' !! x = dict t !! x) → search t' →
  search (plug fs t) → path_to q fs → search (plug fs t').
Proof.
  revert t t'. induction fs as [|[n k h pr r|n k h pl l] fs IH]; intros t t' Hagree Ht' Hs Hp; simpl in *; [done|..].
  - destruct Hp as [Hq Hp]. eapply IH; [..|exact Hs|exact Hp].
    + intros x Hx. simpl. by rewrite !lookup_union Hagree.
    + pose proof (plug_search_inv _ _ Hs) as (Hlt & Hge & _ & Hr). split_and!; [|done..].
      intros x o Hx. destruct (decide (x = q)) as [->|Hne]; [done|]. rewrite Hagree // in Hx. by apply (Hlt x o).
  - destruct Hp as [Hq Hp]. eapply IH; [..|exact Hs|exact Hp].
    + intros x Hx. simpl. by rewrite !lookup_union Hagree.
    + pose proof (plug_search_inv _ _ Hs) as (Hlt & Hge & Hl & _). split_and!; [done| |done..].
      intros x o Hx. destruct (decide (x = q)) as [->|Hne]; [done|]. rewrite Hagree // in Hx. by apply (Hge x o).
Qed.

Lemma plug_lookup q fs t : search (plug fs t) → path_to q fs → dict (plug fs t) !! q = dict t !! q.
Proof.
  revert t. induction fs as [|[n k h pr r|n k h pl l] fs IH]; intros t Hs Hp; simpl in *; [done|..];
    destruct Hp as [Hq Hp]; rewrite (IH _ Hs Hp); pose proof (plug_search_inv _ _ Hs) as Hn;
    rewrite (search_lookup q _ _ _ _ Hn); [rewrite decide_True //|rewrite decide_False //; lia].
Qed.

(** * Going down *)

Section path_representation.
Context {N : Type} `{!Struct tnode N, !NodeAlloc tnode N}.

(** The sibling of the subtree on the path. *)
Definition sibling (f : frame) : ptr := match f with FL _ _ _ pr _ => Some pr | FR _ _ _ pl _ => Some pl end.

(** The store around the subtree at [p] of the tree at [root]. *)
Fixpoint around (fs : list frame) (p root : loc) : hpropI N :=
  match fs with
  | [] => ⌈p = root⌉
  | FL n k h pr r :: fs => n ↦ TNode k (Some p) (Some pr) h ∗ rep pr r ∗ around fs n root
  | FR n k h pl l :: fs => n ↦ TNode k (Some pl) (Some p) h ∗ rep pl l ∗ around fs n root
  end%I.

Lemma around_plug fs p root t : rep p t -∗ around fs p root -∗ rep root (plug fs t).
Proof.
  revert p t. induction fs as [|[n k h pr r|n k h pl l] fs IH]; intros p t; simpl; iIntros "Ht H".
  - by iDestruct "H" as %->.
  - iDestruct "H" as "(Hn & Hr & H)". iApply (IH with "[Hn Ht Hr] H"). iApply (rep_node with "Hn Ht Hr").
  - iDestruct "H" as "(Hn & Hl & H)". iApply (IH with "[Hn Hl Ht] H"). iApply (rep_node with "Hn Hl Ht").
Qed.

(** The loop of [find] ends at the only leaf that can have the key. *)
Lemma find_loop q fuel p t : balanced t → search t → (Z.to_nat (ht t) < fuel)%nat →
  rep p t ⊢ wp (N := N) (loop fuel (find_step q) (Some p))
    (λ r, ∃ p' k o, ⌈r = Some p' ∧ dict t !! q = if decide (k = q) then Some o else None⌉ ∗
      p' ↦ TNode k o NULL 0 ∗ (p' ↦ TNode k o NULL 0 -∗ rep p t))%I (λ _, False)%I.
Proof.
  revert p fuel. induction t as [k o|k h l IHl r IHr]; intros p [|fuel]; simpl; intros Hb Hs Hf; try lia;
    iIntros "H"; iApply wp_loop; iApply wp_bind; unfold find_step.
  { field_steps. rewrite bool_decide_false; [|tauto]. field_steps. iExists p, k, o. iFrame "H".
    iSplit; [|by iIntros "$"]. iPureIntro. split; [done|]. case_decide; [by subst; apply lookup_singleton_eq|].
    by apply lookup_singleton_ne. }
  pose proof (search_lookup q k h l r Hs) as Hq. destruct Hb as (-> & Hd & Hbl & Hbr). destruct Hs as (_ & _ & Hsl & Hsr).
  pose proof (ht_nonneg l Hbl). pose proof (ht_nonneg r Hbr).
  iDestruct "H" as (pl pr) "(Hn & Hl & Hr)". field_steps. rewrite bool_decide_true //. field_steps.
  case_bool_decide as E; field_steps; rewrite Hq; [rewrite decide_True //|rewrite decide_False //].
  - iApply (wp_wand with "[Hl]"); [iApply (IHl pl with "Hl"); (done || lia)|]. iSplit; [|by iIntros (e) "[]"].
    iIntros (r') "(%p' & %k' & %o' & % & Hp & Hback)". iExists p', k', o'. iFrame "Hp". iSplit; [done|].
    iIntros "Hp". iApply (rep_node with "Hn [Hp Hback] Hr"). by iApply "Hback".
  - iApply (wp_wand with "[Hr]"); [iApply (IHr pr with "Hr"); (done || lia)|]. iSplit; [|by iIntros (e) "[]"].
    iIntros (r') "(%p' & %k' & %o' & % & Hp & Hback)". iExists p', k', o'. iFrame "Hp". iSplit; [done|].
    iIntros "Hp". iApply (rep_node with "Hn Hl [Hp Hback]"). by iApply "Hback".
Qed.

Lemma wp_push_path path n Φ Ψ : (length path < 100)%nat → Φ (n :: path) ⊢ wp (N := N) (push_path path n) Φ Ψ.
Proof. intros H. unfold push_path. rewrite bool_decide_true //. apply wp_ret. Qed.

(** The loops of [insert] and [delete] end there too, and have stored the path. *)
Definition insert_state (p : loc) (fs : list frame) : ptr * list ptr := (Some p, addr <$> fs).
Lemma insert_loop q fuel fs p t root : balanced t → path_to q fs → (Z.to_nat (ht t) < fuel)%nat →
  Z.of_nat (length fs) + ht t <= 100 →
  rep p t ∗ around fs p root ⊢ wp (N := N) (loop fuel (insert_step q) (insert_state p fs))
    (λ r, ∃ p' fs' k o, ⌈r = insert_state p' fs' ∧ path_to q fs' ∧ plug fs' (Leaf k o) = plug fs t⌉ ∗
      p' ↦ TNode k o NULL 0 ∗ around fs' p' root)%I (λ _, False)%I.
Proof.
  revert p fs fuel. induction t as [k o|k h l IHl r IHr]; intros p fs [|fuel]; cbn [rep ht]; intros Hb Hp Hf Hlen; try lia;
    iIntros "[H Hfs]"; iApply wp_loop; iApply wp_bind; unfold insert_step, insert_state.
  { field_steps. rewrite bool_decide_false; [|tauto]. field_steps. iExists p, fs, k, o. by iFrame. }
  destruct Hb as (-> & Hd & Hbl & Hbr). pose proof (ht_nonneg l Hbl). pose proof (ht_nonneg r Hbr).
  iDestruct "H" as (pl pr) "(Hn & Hl & Hr)". field_steps. rewrite bool_decide_true //.
  wp_focus. iApply wp_push_path; [rewrite length_fmap; lia|]. field_steps. case_bool_decide as E; field_steps.
  - iApply (IHl pl (FL p k _ pr r :: fs) with "[$Hl Hn Hr Hfs]"); simpl; [done|done|lia|lia|iFrame].
  - iApply (IHr pr (FR p k _ pl l :: fs) with "[$Hr Hn Hl Hfs]"); simpl; [done|split; [lia|done]|lia|lia|iFrame].
Qed.

Definition delete_state (p : loc) (fs : list frame) : ptr * ptr * ptr * list ptr :=
  (Some p, head fs ≫= addr, head fs ≫= sibling, addr <$> fs).
Lemma delete_loop q fuel fs p t root : balanced t → path_to q fs → (Z.to_nat (ht t) < fuel)%nat →
  Z.of_nat (length fs) + ht t <= 100 →
  rep p t ∗ around fs p root ⊢ wp (N := N) (loop fuel (delete_step q) (delete_state p fs))
    (λ r, ∃ p' fs' k o, ⌈r = delete_state p' fs' ∧ path_to q fs' ∧ plug fs' (Leaf k o) = plug fs t⌉ ∗
      p' ↦ TNode k o NULL 0 ∗ around fs' p' root)%I (λ _, False)%I.
Proof.
  revert p fs fuel. induction t as [k o|k h l IHl r IHr]; intros p fs [|fuel]; cbn [rep ht]; intros Hb Hp Hf Hlen; try lia;
    iIntros "[H Hfs]"; iApply wp_loop; iApply wp_bind; unfold delete_step, delete_state.
  { field_steps. rewrite bool_decide_false; [|tauto]. field_steps. iExists p, fs, k, o. by iFrame. }
  destruct Hb as (-> & Hd & Hbl & Hbr). pose proof (ht_nonneg l Hbl). pose proof (ht_nonneg r Hbr).
  iDestruct "H" as (pl pr) "(Hn & Hl & Hr)". field_steps. rewrite bool_decide_true //.
  wp_focus. iApply wp_push_path; [rewrite length_fmap; lia|]. field_steps. case_bool_decide as E; field_steps.
  - iApply (IHl pl (FL p k _ pr r :: fs) with "[$Hl Hn Hr Hfs]"); simpl; [done|done|lia|lia|iFrame].
  - iApply (IHr pr (FR p k _ pl l :: fs) with "[$Hr Hn Hl Hfs]"); simpl; [done|split; [lia|done]|lia|lia|iFrame].
Qed.
End path_representation.

(** * Rebalancing a path *)

Lemma plug_dict fs t t' : dict t' = dict t → dict (plug fs t') = dict (plug fs t).
Proof. revert t t'. induction fs as [|[] fs IH]; intros u u' H; simpl; [done|..]; apply IH; simpl; by rewrite H. Qed.

Lemma plug_search_same fs t t' : dict t' = dict t → (search t → search t') → search (plug fs t) → search (plug fs t').
Proof.
  revert t t'. induction fs as [|[n k h pr r|n k h pl l] fs IH]; intros u u' H Hs; simpl; [done|..]; apply IH; simpl;
    [by rewrite H| |by rewrite H|]; intros Hn; pose proof Hn as (? & ? & ? & ?); split_and!; rewrite ?H //; auto.
Qed.

Section rebalance_path.
Context {N : Type} `{!Struct tnode N, !NodeAlloc tnode N}.

Lemma rebalance_spec fs p t h0 root :
  balanced t → path_balanced h0 fs → -1 <= ht t - h0 <= 1 →
  ⦃ rep (N := N) p t ∗ around fs p root ⦄
  rebalance (addr <$> fs)
  ⦃ _u, ∃ T, rep root T ∗ ⌈balanced T ∧ dict T = dict (plug fs t) ∧ (search (plug fs t) → search T)⌉ ⦄.
Proof.
  (* One step up, whichever side the subtree is on. *)
  assert (∀ f fs n k h l r, addr f = Some n → balanced l → balanced r → -2 <= ht l - ht r <= 2 →
      ht l <= 1000 → ht r <= 1000 → path_balanced h fs →
      (∀ t, balanced t → -1 <= ht t - h <= 1 → rep (N := N) n t ∗ around fs n root ⊢
        wp (N := N) (rebalance (addr <$> fs)) (λ _, ∃ T, rep root T ∗
          ⌈balanced T ∧ dict T = dict (plug fs t) ∧ (search (plug fs t) → search T)⌉)%I (λ _, False)%I) →
      -1 <= ht (rebalanced k l r) - h <= 1 →
      rep (N := N) n (Node k h l r) ∗ around fs n root ⊢
        wp (N := N) (rebalance (addr <$> f :: fs)) (λ _, ∃ T, rep root T ∗
          ⌈balanced T ∧ dict T = dict (plug fs (Node k h l r)) ∧
           (search (plug fs (Node k h l r)) → search T)⌉)%I (λ _, False)%I) as Hup.
  { clear. intros f fs n k h l r Hf Hl Hr Hd Hbl Hbr Hp IH Ht'. iIntros "[Hn Hfs]". rewrite fmap_cons Hf. cbn [rebalance].
    pose proof (rebalanced_balanced k l r Hl Hr Hd) as (Hbal & _).
    assert (dict (rebalanced k l r) = dict (Node k h l r)) as Hdict by apply rebalanced_dict.
    pose proof (rebalanced_search k h l r) as Hsearch.
    wp_focus. iApply (wp_rep_HEIGHT with "Hn"). iIntros "Hn". cbn [ht].
    iApply wp_bind. iApply (hoare_wp_ret with "Hn"); [by apply rebalance_node_spec|]. iIntros ([]) "Hn".
    wp_focus. iApply (wp_rep_HEIGHT with "Hn"). iIntros "Hn". case_bool_decide as Eh.
    - iApply wp_ret. iExists (plug fs (rebalanced k l r)). iSplit; [iApply (around_plug with "Hn Hfs")|].
      iPureIntro. split_and!; [apply plug_balanced; [done|by rewrite Eh]|by apply plug_dict|by apply plug_search_same].
    - iApply (wp_wand with "[Hn Hfs]"); [iApply (IH with "[$Hn $Hfs]"); done|]. iSplit; [|by iIntros (e) "[]"].
      iIntros (u) "(%T & HT & %HbT & %HdT & %HsT)". iExists T. iFrame "HT". iPureIntro.
      split_and!; [done|rewrite HdT; by apply plug_dict|]. intros Hs. apply HsT. by eapply plug_search_same. }
  unfold hoare. revert p t h0. induction fs as [|[n k h pr r|n k h pl l] fs IH]; intros p t h0 Ht Hp Hh0;
    iIntros "[Ht Hfs]".
  - cbn [around]. iDestruct "Hfs" as %->. iApply wp_ret. iExists t. by iFrame.
  - destruct Hp as (Hr & Hd & -> & Hmax & Hp). pose proof (ht_nonneg t Ht). pose proof (ht_nonneg r Hr).
    pose proof (rebalanced_balanced k t r Ht Hr ltac:(lia)).
    cbn [around]. iDestruct "Hfs" as "(Hn & Hr & Hfs)". iDestruct (rep_node with "Hn Ht Hr") as "Hn".
    iApply (Hup (FL n k _ pr r) with "[$Hn $Hfs]"); (done || lia || idtac). intros t' Ht' Hd'. by eapply IH.
  - destruct Hp as (Hl & Hd & -> & Hmax & Hp). pose proof (ht_nonneg t Ht). pose proof (ht_nonneg l Hl).
    pose proof (rebalanced_balanced k l t Hl Ht ltac:(lia)).
    cbn [around]. iDestruct "Hfs" as "(Hn & Hl & Hfs)". iDestruct (rep_node with "Hn Hl Ht") as "Hn".
    iApply (Hup (FR n k _ pl l) with "[$Hn $Hfs]"); (done || lia || idtac). intros t' Ht' Hd'. by eapply IH.
Qed.
End rebalance_path.

(** * The dictionary *)

(** Keys are values of [int], and no object is [NULL]: it would be an empty tree. *)
Definition entry_ok (k : Z) (o : ptr) : Prop := in_s 32 k ∧ o ≠ NULL.

Lemma size_keys (m : gmap Z ptr) : map_Forall entry_ok m → Z.of_nat (size m) <= 2 ^ 32.
Proof.
  intros Hm. rewrite -size_dom.
  assert (∀ n : nat, (∀ k o, m !! k = Some o → - 2 ^ 31 <= k < - 2 ^ 31 + Z.of_nat n) → (size (dom m) ≤ n)%nat) as Hn.
  { intros n Hn. rewrite -(Nat2Z.id n) -(length_seqZ (- 2 ^ 31) (Z.of_nat n)).
    rewrite -(size_list_to_set (C := gset Z)); [|apply NoDup_seqZ]. apply subseteq_size. intros k [o Hk]%elem_of_dom.
    apply elem_of_list_to_set, elem_of_seqZ. by eapply Hn. }
  enough (size (dom m) ≤ Z.to_nat (2 ^ 32))%nat by (apply Nat2Z.inj_le in H; rewrite Z2Nat.id in H; lia).
  apply Hn. intros k o Hk. rewrite Z2Nat.id; [|lia]. destruct (Hm k o Hk) as [H _]. unfold in_s in H. lia.
Qed.

(** The fuel is enough for a loop down any tree that represents [m]. *)
Definition enough (fuel : nat) (m : gmap Z ptr) : Prop :=
  ∀ t, dict t = m → balanced t → search t → map_Forall entry_ok m → (Z.to_nat (ht t) < fuel)%nat.
Lemma enough_log2 fuel m : (2 * Nat.log2 (size m) < fuel)%nat → enough fuel m.
Proof. intros Hf t <- Hb Hs _. rewrite (size_dict t Hs) in Hf. pose proof (balanced_height t Hb). lia. Qed.

(** So no tree is higher than 65, and the stack of 100 entries is enough. *)
Lemma ht_bound t : balanced t → search t → map_Forall entry_ok (dict t) → ht t <= 65.
Proof.
  intros Hb Hs Hm%size_keys. rewrite (size_dict t Hs) in Hm.
  destruct (Z.le_gt_cases (ht t) 65) as [|Hgt]; [done|exfalso].
  pose proof (balanced_leaves t 66 Hb ltac:(lia)) as Hl. apply Nat2Z.inj_le in Hl. rewrite Nat2Z.inj_pow in Hl.
  change (Z.of_nat 2 ^ Z.of_nat (Nat.div2 67)) with (2 ^ 33) in Hl. lia.
Qed.
Lemma enough_66 fuel m : (66 ≤ fuel)%nat → enough fuel m.
Proof. intros Hf t <- Hb Hs Hm. pose proof (ht_bound t Hb Hs Hm). lia. Qed.

Lemma plug_update q fs t t' (u : option ptr) : search (plug fs t) → path_to q fs → search t' →
  dict t' = partial_alter (λ _, u) q (dict t) →
  search (plug fs t') ∧ dict (plug fs t') = partial_alter (λ _, u) q (dict (plug fs t)).
Proof.
  intros Hs Hp Ht' Hd.
  assert (∀ x, x ≠ q → dict t' !! x = dict t !! x) as Hagree by (intros x Hx; by rewrite Hd lookup_partial_alter_ne).
  assert (search (plug fs t')) as Hs' by by eapply plug_search. split; [done|].
  apply map_eq. intros x. destruct (decide (x = q)) as [->|Hx].
  - by rewrite (plug_lookup q fs t') // Hd !lookup_partial_alter_eq.
  - rewrite (plug_agree q t t') // lookup_partial_alter_ne //.
Qed.

Section dictionary.
Context {N : Type} `{!Struct tnode N, !NodeAlloc tnode N}.

Definition avl (root : loc) (m : gmap Z ptr) : hpropI N :=
  ((⌈m = ∅⌉ ∗ ∃ x, root ↦ x ∗ ⌈left x = NULL⌉) ∨
   (∃ t, rep root t ∗ ⌈dict t = m ∧ balanced t ∧ search t ∧ map_Forall entry_ok m⌉))%I.

(** What the root of a tree holds, which can be moved to another node. *)
Definition root_cell (t : tree) (x : tnode) : Prop :=
  match t with
  | Leaf k o => x = TNode k o NULL 0
  | Node _ h _ _ => left x ≠ NULL ∧ right x ≠ NULL ∧ height x = h
  end.
Lemma rep_cell p t : rep (N := N) p t ⊢ ∃ x, p ↦ x ∗ ⌈root_cell t x⌉ ∗
  (∀ n : loc, n ↦ TNode (key x) (left x) (right x) (height x) -∗ rep n t).
Proof.
  destruct t as [k o|k h l r]; simpl; iIntros "H".
  - iExists _. iFrame "H". iSplit; [done|]. by iIntros (n) "$".
  - iDestruct "H" as (pl pr) "(H & Hl & Hr)". iExists _. iFrame "H". simpl. iSplit; [done|].
    iIntros (n) "Hn". iApply (rep_node with "Hn Hl Hr").
Qed.

Lemma rep_LEFT p t Φ Ψ : map_Forall entry_ok (dict t) →
  rep p t -∗ (∀ q, ⌈q ≠ NULL⌉ -∗ rep p t -∗ Φ q) -∗ wp (N := N) (LEFT (Some p)) Φ Ψ.
Proof.
  iIntros (Hm) "H HΦ". iDestruct (rep_cell with "H") as (x) "(H & %Hx & Hback)".
  iApply (wp_LEFT with "H"). iIntros "H". iApply "HΦ"; [|by destruct x; iApply "Hback"].
  iPureIntro. destruct t as [k o|]; [simpl in Hx; subst x|apply Hx]. destruct (Hm k o) as [_ Ho]; [apply lookup_singleton_eq|done].
Qed.

Lemma create_tree_spec : ⦃ pool ⦄ create_tree (N := N) ⦃ r, ∃ root, ⌈r = Some root⌉ ∗ avl root ∅ ∗ pool ⦄.
Proof.
  unfold hoare, create_tree. iIntros "H". wp_call get_node_spec with "H". iIntros (r) "(%l & %x & -> & Hl & Hpool)".
  field_steps. iExists l. iSplit; [done|]. iFrame "Hpool". iLeft. iSplit; [done|]. iExists _. iFrame "Hl". done.
Qed.

Lemma find_spec fuel root m q : enough fuel m →
  ⦃ avl root m ⦄ find fuel (Some root) q ⦃ r, ⌈r = default NULL (m !! q)⌉ ∗ avl root m ⦄.
Proof.
  intros Hf. unfold hoare, find. iIntros "[[-> (%x & H & %Hx)] | (%t & H & %Ht)]".
  { field_steps. rewrite bool_decide_true //. field_steps. iSplit; [done|]. iLeft. iSplit; [done|]. iExists x. by iFrame. }
  destruct Ht as (<- & Hb & Hs & Hm). specialize (Hf t eq_refl Hb Hs Hm).
  iApply wp_bind. iApply (rep_LEFT with "H"); [done|]. iIntros (p Hp) "H". rewrite bool_decide_false //.
  wp_focus. iApply (wp_wand with "[H]"); [iApply (find_loop q with "H"); (done || lia)|]. iSplit; [|by iIntros (e) "[]"].
  iIntros (r) "(%p' & %k & %o & %Hr & H & Hback)". destruct Hr as [-> Hq]. field_steps.
  rewrite Hq. case_bool_decide; [rewrite decide_True //|rewrite decide_False //]; field_steps;
    (iSplit; [done|]; iRight; iExists t; iSplitL; [by iApply "Hback"|done]).
Qed.
End dictionary.

Section updates.
Context {N : Type} `{!Struct tnode N, !NodeAlloc tnode N}.

(** Splitting a leaf. *)
Definition split_leaf (k : Z) (o : ptr) (q : Z) (obj : ptr) : tree :=
  if decide (k < q) then Node q 1 (Leaf k o) (Leaf q obj) else Node k 1 (Leaf q obj) (Leaf k o).
Lemma split_leaf_ok k o q obj : k ≠ q →
  ht (split_leaf k o q obj) = 1 ∧ balanced (split_leaf k o q obj) ∧ search (split_leaf k o q obj) ∧
  dict (split_leaf k o q obj) = <[q := obj]> (dict (Leaf k o)).
Proof.
  intros Hk. unfold split_leaf. case_decide; simpl; split_and!; try (done || lia);
    try (intros x y [<- <-]%lookup_singleton_Some; simpl; lia).
  - rewrite insert_union_singleton_l map_union_comm //. by apply map_disjoint_singleton_l, lookup_singleton_ne.
  - by rewrite insert_union_singleton_l.
Qed.

Lemma avl_leave root t m : rep root t -∗ ⌈dict t = m ∧ balanced t ∧ search t ∧ map_Forall entry_ok m⌉ -∗ avl (N := N) root m.
Proof. iIntros "H %Hm". iRight. iExists t. by iFrame. Qed.

(** Inserting adds the object, unless the key is already there. *)
Lemma insert_spec fuel root m q obj : enough fuel m → entry_ok q obj →
  ⦃ avl (N := N) root m ∗ pool ⦄
  insert fuel (Some root) q obj
  ⦃ r, match m !! q with
       | Some _ => ⌈r = -1⌉ ∗ avl root m
       | None => ⌈r = 0⌉ ∗ avl root (<[q := obj]> m)
       end ∗ pool ⦄.
Proof.
  intros Hf Hq. unfold hoare, insert. iIntros "[[[-> (%x & H & %Hx)] | (%t & H & %Ht)] Hpool]".
  { field_steps. rewrite bool_decide_true //. field_steps. rewrite lookup_empty. iFrame "Hpool". iSplit; [done|].
    iApply (avl_leave _ (Leaf q obj) with "H"). iPureIntro. split_and!; [done..|apply map_Forall_insert_2; [done|apply map_Forall_empty]]. }
  destruct Ht as (<- & Hb & Hs & Hm). pose proof (ht_bound t Hb Hs Hm) as Hht. specialize (Hf t eq_refl Hb Hs Hm). pose proof (ht_nonneg t Hb).
  iApply wp_bind. iApply (rep_LEFT with "H"); [done|]. iIntros (p Hp) "H". rewrite bool_decide_false //.
  wp_focus. iApply (wp_wand with "[H]").
  { iApply (insert_loop q fuel [] root t root with "[$H //]"); (done || simpl; lia). }
  iSplit; [|by iIntros (e) "[]"]. iIntros (r) "(%p' & %fs & %k & %o & %Hr & H & Hfs)". destruct Hr as (-> & Hpath & Hplug).
  cbn [insert_state plug] in *. subst t. rewrite (plug_lookup q fs) //. field_steps.
  destruct (path_balanced_inv fs _ Hb ltac:(lia)) as (_ & Hpb & _). cbn [ht] in Hpb.
  case_bool_decide as Ek.
  { subst k. cbn [dict]. rewrite lookup_singleton_eq. field_steps. iFrame "Hpool". iSplit; [done|].
    iApply (avl_leave with "[H Hfs] [//]"). iApply (around_plug fs p' root (Leaf q o) with "H Hfs"). }
  cbn [dict]. rewrite lookup_singleton_ne //.
  wp_call get_node_spec with "Hpool". iIntros (r) "(%po & %xo & -> & Ho & Hpool)". field_steps.
  wp_call get_node_spec with "Hpool". iIntros (r) "(%pn & %xn & -> & Hn & Hpool)". field_steps.
  destruct (split_leaf_ok k o q obj Ek) as (Hsh & Hsb & Hss & Hsd).
  destruct (plug_update q fs _ _ (Some obj) Hs Hpath Hss Hsd) as [Hs' Hd'].
  iApply wp_bind. iApply (wp_wand _ (λ _, ∃ k' l r h, ⌈split_leaf k o q obj = Node k' 1 l r⌉ ∗ rep p' (Node k' h l r))%I
    (λ _, False)%I with "[H Ho Hn]").
  { unfold split_leaf. case_bool_decide; [rewrite decide_True //|rewrite decide_False //]; field_steps;
      iExists _, _, _, _; (iSplit; [done|]); [iApply (rep_node _ _ _ (Leaf k o) (Leaf q obj) with "H Ho Hn")|iApply (rep_node _ _ _ (Leaf q obj) (Leaf k o) with "H Hn Ho")]. }
  iSplit; [|by iIntros (e) "[]"]. iIntros (u) "(%k' & %l & %r & %h & %Hsplit & H)".
  iDestruct (rep_open with "H") as (pl pr) "(H & Hl & Hr)". field_steps.
  iDestruct (rep_node with "H Hl Hr") as "H". rewrite -Hsplit.
  iApply wp_bind. iApply (hoare_wp_ret with "[H Hfs]"); [apply (rebalance_spec fs p' (split_leaf k o q obj) 0 root); (done || lia)|iFrame|].
  iIntros (u') "(%T & HT & %HT)". destruct HT as (HbT & HdT & HsT). iApply wp_ret. iFrame "Hpool". iSplit; [done|].
  iApply (avl_leave with "HT"). iPureIntro. rewrite HdT Hd'. split_and!; [done..|by apply HsT|by apply map_Forall_insert_2].
Qed.
(** The node above the leaf of [q], and what is left of it. *)
Definition above (q : Z) (o : ptr) (f : frame) : tree :=
  match f with FL _ k h _ t => Node k h (Leaf q o) t | FR _ k h _ t => Node k h t (Leaf q o) end.
Definition other (f : frame) : tree := match f with FL _ _ _ _ t | FR _ _ _ _ t => t end.
Lemma above_ok k o f fs : plug (f :: fs) (Leaf k o) = plug fs (above k o f).
Proof. by destruct f. Qed.
Lemma other_ok q o f : search (above q o f) → dict (other f) = base.delete q (dict (above q o f)).
Proof.
  destruct f as [n k h pr t|n k h pl t]; cbn [above other dict]; intros Hs; pose proof (search_disjoint k h _ _ Hs) as Hd; symmetry; simpl in Hd.
  - rewrite -insert_union_singleton_l delete_insert_id //. by apply map_disjoint_singleton_l in Hd.
  - rewrite map_union_comm // -insert_union_singleton_l delete_insert_id //. by apply map_disjoint_singleton_r in Hd.
Qed.

Lemma around_open f fs p root : around (N := N) (f :: fs) p root ⊢ ∃ n s (x : tnode),
  ⌈addr f = Some n ∧ sibling f = Some s ∧
    ∀ q o, p ↦ TNode q o NULL 0 ∗ rep s (other f) ∗ n ↦ x ⊢ rep (N := N) n (above q o f)⌉ ∗
  n ↦ x ∗ rep s (other f) ∗ around fs n root.
Proof.
  destruct f as [n k h s t|n k h s t]; simpl; iIntros "(Hn & Ht & Hfs)"; iExists n, s, _; iFrame; iPureIntro;
    (split_and!; [done|done|]); intros q o; iIntros "(Hp & Ht & Hn)";
    [iApply (rep_node n k h (Leaf q o) t with "Hn Hp Ht")|iApply (rep_node n k h t (Leaf q o) with "Hn Ht Hp")].
Qed.

(** What the middle of [delete] leaves at the parent of the leaf [k]. *)
Definition unlinked (q k : Z) (o : ptr) (f : frame) : tree := if decide (k = q) then other f else above k o f.
Lemma unlinked_ok q k o f fs : balanced (plug (f :: fs) (Leaf k o)) → ht (plug (f :: fs) (Leaf k o)) <= 900 →
  search (plug (f :: fs) (Leaf k o)) → path_to q (f :: fs) →
  ∃ h0, balanced (unlinked q k o f) ∧ path_balanced h0 fs ∧ -1 <= ht (unlinked q k o f) - h0 <= 1 ∧
    search (plug fs (unlinked q k o f)) ∧
    dict (plug fs (unlinked q k o f)) = base.delete q (dict (plug (f :: fs) (Leaf k o))).
Proof.
  intros Hb Hh Hs Hp. pose proof (plug_lookup q (f :: fs) _ Hs Hp) as Hq. rewrite above_ok in Hb, Hh, Hs, Hq |- *.
  destruct (path_balanced_inv fs _ Hb Hh) as (Hab & Hpb & _). pose proof (plug_search_inv _ _ Hs) as Has.
  assert (path_to q fs) as Hp' by by destruct f; apply Hp.
  exists (ht (above k o f)). unfold unlinked. case_decide as Ek.
  - subst k. assert (balanced (other f) ∧ search (other f)) as [Hbo Hso] by (destruct f; split; apply Hab || apply Has).
    assert (0 <= ht (other f)) by by apply ht_nonneg.
    destruct (plug_update q fs _ (other f) None Hs Hp' Hso) as [Hs' Hd']; [by apply other_ok|].
    split_and!; [done|done|destruct f; simpl in *; lia..|done|done].
  - split_and!; [done|done|lia|lia|done|]. rewrite delete_id //. rewrite Hq. by apply lookup_singleton_ne.
Qed.

(** Deletion removes the key and returns its object, or returns [NULL]. *)
Lemma delete_spec fuel root m q : enough fuel m →
  ⦃ avl (N := N) root m ∗ pool ⦄
  HeightTree.delete fuel (Some root) q
  ⦃ r, ⌈r = default NULL (m !! q)⌉ ∗ avl root (base.delete q m) ∗ pool ⦄.
Proof.
  intros Hf. unfold hoare, HeightTree.delete. iIntros "[[[-> (%x & H & %Hx)] | (%t & H & %Ht)] Hpool]".
  { field_steps. rewrite bool_decide_true //. field_steps. iFrame "Hpool". rewrite lookup_empty. iSplit; [done|]. iLeft.
    rewrite delete_empty. iSplit; [done|]. iExists x. by iFrame. }
  destruct Ht as (<- & Hb & Hs & Hm). pose proof (ht_bound t Hb Hs Hm) as Hht. specialize (Hf t eq_refl Hb Hs Hm). pose proof (ht_nonneg t Hb).
  iApply wp_bind. iApply (rep_LEFT with "H"); [done|]. iIntros (p Hp) "H". rewrite bool_decide_false //.
  destruct t as [k o|k h l r].
  { cbn [rep dict]. field_steps. rewrite bool_decide_true //. field_steps. case_bool_decide as Ek; field_steps; iFrame "Hpool".
    - subst k. rewrite lookup_singleton_eq delete_singleton_eq. iSplit; [done|]. iLeft. iSplit; [done|]. iExists _. by iFrame "H".
    - rewrite lookup_singleton_ne // delete_id; [|by apply lookup_singleton_ne]. iSplit; [done|].
      by iApply (avl_leave _ (Leaf k o) with "H"). }
  iDestruct (rep_open with "H") as (pl pr) "(H & Hl & Hr)". field_steps. rewrite bool_decide_false //.
  iDestruct (rep_node with "H Hl Hr") as "H".
  wp_focus. iApply (wp_wand with "[H]").
  { iApply (delete_loop q fuel [] root (Node k h l r) root with "[$H //]"); (done || simpl in *; lia). }
  iSplit; [|by iIntros (e) "[]"]. iIntros (res) "(%p' & %fs & %k' & %o & %Hr & H & Hfs)". destruct Hr as (-> & Hpath & Hplug).
  destruct fs as [|f fs]; [done|]. change (plug (f :: fs) (Leaf k' o) = Node k h l r) in Hplug.
  unfold delete_state. iDestruct (around_open with "Hfs") as (n s x) "(%Hf' & Hn & Hs & Hfs)". destruct Hf' as (Ha & Hsib & Hback).
  cbn [head mbind option_bind]. rewrite Ha Hsib fmap_cons. cbn [tail].
  rewrite -Hplug in Hb, Hs, Hm, Hht |- *. rewrite (plug_lookup q _ _ Hs Hpath).
  destruct (unlinked_ok q k' o f fs Hb ltac:(lia) Hs Hpath) as (h0 & Hub & Hpb & Hh0 & Hus & Hud).
  field_steps. iApply wp_bind.
  iApply (wp_wand _ (λ d, ⌈d = default NULL (dict (Leaf k' o) !! q)⌉ ∗ rep n (unlinked q k' o f) ∗ pool)%I
    (λ _, False)%I with "[H Hn Hs Hpool]").
  { unfold unlinked. cbn [dict]. case_bool_decide as Ek; [rewrite decide_False //|].
    - field_steps. rewrite lookup_singleton_ne //. iFrame "Hpool". iSplit; [done|]. iApply Hback. iFrame.
    - subst k'. rewrite decide_True // lookup_singleton_eq.
      iDestruct (rep_cell with "Hs") as (y) "(Hs & _ & Hmove)". field_steps.
      wp_call return_node_spec with "[H Hpool]"; [iSplitL "H"; iAssumption|]. iIntros (u) "Hpool".
      wp_call return_node_spec with "[Hs Hpool]"; [iSplitL "Hs"; iAssumption|]. iIntros (u') "Hpool". field_steps. iFrame "Hpool". iSplit; [done|].
      iApply ("Hmove" with "Hn"). }
  iSplit; [|by iIntros (e) "[]"]. iIntros (d) "(-> & H & Hpool)".
  iApply wp_bind. iApply (hoare_wp_ret with "[H Hfs]"); [apply (rebalance_spec fs n (unlinked q k' o f) h0 root); done|iFrame|].
  iIntros (u') "(%T & HT & %HT)". destruct HT as (HbT & HdT & HsT). iApply wp_ret. iFrame "Hpool". iSplit; [done|].
  iApply (avl_leave with "HT"). iPureIntro. rewrite HdT Hud. split_and!; [done..|by apply HsT|by apply map_Forall_delete].
Qed.
End updates.

(** * Programs over a tree *)

Inductive op := Find (q : Z) | Insert (q : Z) (obj : ptr) | Delete (q : Z).
Inductive answer := Object (o : ptr) | Code (c : Z).
Definition op_ok (o : op) : Prop := match o with Insert q obj => entry_ok q obj | _ => True end.

Section programs.
Context {N : Type} `{!Struct tnode N, !NodeAlloc tnode N}.

Definition run_op (fuel : nat) (root : ptr) (o : op) : M (gmap loc N) answer :=
  match o with
  | Find q => r ← find fuel root q; mret (Object r)
  | Insert q obj => r ← insert fuel root q obj; mret (Code r)
  | Delete q => r ← HeightTree.delete fuel root q; mret (Object r)
  end.
Fixpoint run_ops (fuel : nat) (root : ptr) (ops : list op) : M (gmap loc N) (list answer) :=
  match ops with
  | [] => mret []
  | o :: ops => r ← run_op fuel root o; rs ← run_ops fuel root ops; mret (r :: rs)
  end.
End programs.

(** The same on a finite map. *)
Definition map_op (m : gmap Z ptr) (o : op) : answer * gmap Z ptr :=
  match o with
  | Find q => (Object (default NULL (m !! q)), m)
  | Insert q obj => match m !! q with Some _ => (Code (-1), m) | None => (Code 0, <[q := obj]> m) end
  | Delete q => (Object (default NULL (m !! q)), base.delete q m)
  end.
Fixpoint map_ops (m : gmap Z ptr) (ops : list op) : list answer * gmap Z ptr :=
  match ops with
  | [] => ([], m)
  | o :: ops => let '(r, m) := map_op m o in let '(rs, m) := map_ops m ops in (r :: rs, m)
  end.

Section refinement.
Context {N : Type} `{!Struct tnode N, !NodeAlloc tnode N}.

Lemma run_op_spec fuel root m o : enough fuel m → op_ok o →
  ⦃ avl (N := N) root m ∗ pool ⦄ run_op fuel (Some root) o
  ⦃ r, ⌈r = (map_op m o).1⌉ ∗ avl root (map_op m o).2 ∗ pool ⦄.
Proof.
  intros Hf Ho. unfold hoare. destruct o as [q|q obj|q]; cbn [run_op map_op fst snd]; iIntros "[H Hpool]"; iApply wp_bind.
  - iApply (hoare_wp_ret with "H"); [by apply find_spec|]. iIntros (r) "[-> H]". iApply wp_ret. by iFrame.
  - iApply (hoare_wp_ret with "[H Hpool]"); [by apply insert_spec|iFrame|]. iIntros (r) "[H Hpool]". iApply wp_ret.
    destruct (m !! q); iDestruct "H" as "[-> H]"; by iFrame.
  - iApply (hoare_wp_ret with "[H Hpool]"); [by apply delete_spec|iFrame|]. iIntros (r) "(-> & H & Hpool)". iApply wp_ret. by iFrame.
Qed.

Lemma run_ops_spec fuel root ops m : (66 ≤ fuel)%nat → Forall op_ok ops →
  ⦃ avl (N := N) root m ∗ pool ⦄ run_ops fuel (Some root) ops
  ⦃ r, ⌈r = (map_ops m ops).1⌉ ∗ avl root (map_ops m ops).2 ∗ pool ⦄.
Proof.
  intros Hf Hops. unfold hoare. revert m. induction Hops as [|o ops Ho _ IH]; intros m; cbn [run_ops map_ops]; iIntros "H".
  { iApply wp_ret. by iFrame. }
  iApply wp_bind. iApply (hoare_wp_ret with "H"); [by apply run_op_spec; [apply enough_66|]|]. iIntros (r) "[-> H]".
  destruct (map_op m o) as [r m1]. cbn [fst snd]. specialize (IH m1). destruct (map_ops m1 ops) as [rs m2].
  iApply wp_bind. iApply (hoare_wp_ret with "H"); [exact IH|]. iIntros (rs') "[-> H]". iApply wp_ret. by iFrame.
Qed.

(** C18: any sequence of operations on a new tree gives the answers that a finite map gives. *)
Theorem tree_refines_map fuel ops : (66 ≤ fuel)%nat → Forall op_ok ops →
  ⦃ pool ⦄
  (tree ← create_tree (N := N); run_ops fuel tree ops)
  ⦃ r, ⌈r = (map_ops ∅ ops).1⌉ ∗ (∃ root, avl root (map_ops ∅ ops).2) ∗ pool ⦄.
Proof.
  intros Hf Hops. unfold hoare. iIntros "H". iApply wp_bind. iApply (hoare_wp_ret with "H"); [apply create_tree_spec|].
  iIntros (r) "(%root & -> & H)". iApply (hoare_wp_ret with "H"); [by apply run_ops_spec|]. iIntros (rs) "(-> & H & Hpool)".
  iFrame "Hpool". iSplit; [done|]. by iExists root.
Qed.
End refinement.

(** * The height *)

Section height.
Context {N : Type} `{!Struct tnode N, !NodeAlloc tnode N}.

Lemma avl_HEIGHT root m Φ Ψ : m ≠ ∅ → avl root m -∗
  (∀ h, ⌈0 <= h <= 2 * Z.of_nat (Nat.log2 (size m))⌉ -∗ avl root m -∗ Φ h) -∗ wp (N := N) (HEIGHT (Some root)) Φ Ψ.
Proof.
  intros Hm. iIntros "[[%Hm0 H] | (%t & H & %Ht)] HΦ"; [done|]. destruct Ht as (<- & Hb & Hs & Hok).
  iApply (wp_rep_HEIGHT with "H"). iIntros "H". iApply ("HΦ" with "[%]"); [|by iApply (avl_leave with "H")].
  rewrite (size_dict t Hs). by apply balanced_height.
Qed.

(** C19: after any sequence of operations on a new tree, the height it keeps at the root of [size m]
    objects is at most twice the binary logarithm of [size m], and the loop of the next operation,
    whichever it is, takes at most one round more than that to give the answer of a finite map. *)
Theorem height_logarithmic fuel ops rounds o : (66 ≤ fuel)%nat → Forall op_ok ops → op_ok o →
  (map_ops ∅ ops).2 ≠ ∅ → (2 * Nat.log2 (size (map_ops ∅ ops).2) < rounds)%nat →
  ⦃ pool ⦄
  (tree ← create_tree (N := N); run_ops fuel tree ops;; h ← HEIGHT tree; r ← run_op rounds tree o; mret (h, r))
  ⦃ r, ⌈0 <= r.1 <= 2 * Z.of_nat (Nat.log2 (size (map_ops ∅ ops).2)) ∧ r.2 = (map_op (map_ops ∅ ops).2 o).1⌉ ∗
       (∃ root, avl root (map_op (map_ops ∅ ops).2 o).2) ∗ pool ⦄.
Proof.
  intros Hf Hops Ho Hm Hr. unfold hoare. iIntros "H". iApply wp_bind. iApply (hoare_wp_ret with "H"); [apply create_tree_spec|].
  iIntros (r) "(%root & -> & H)". iApply wp_bind. iApply (hoare_wp_ret with "H"); [by apply run_ops_spec|].
  iIntros (rs) "(_ & H & Hpool)". iApply wp_bind. iApply (avl_HEIGHT with "H"); [done|]. iIntros (h Hh) "H".
  iApply wp_bind. iApply (hoare_wp_ret with "[H Hpool]"); [by apply (run_op_spec rounds root (map_ops ∅ ops).2 o); [apply enough_log2|]|iFrame|].
  iIntros (r) "(-> & H & Hpool)". iApply wp_ret. iFrame "Hpool". iSplit; [done|]. by iExists root.
Qed.
End height.

(** * A run *)

(** The program's own allocator, whose list of returned nodes goes through [left],
    with the global variables at 1. *)
Definition set_link (x : tnode) (p : ptr) : tnode := TNode (key x) p (right x) (height x).
Definition tree_get_node : M (gmap loc (tnode + pool_vars)) ptr :=
  pool_get_node (H := next_fit) left (TNode 0 NULL NULL 0) 1%positive.
Definition tree_return_node : ptr → M (gmap loc (tnode + pool_vars)) unit :=
  pool_return_node set_link 1%positive.
#[local] Instance tree_alloc : NodeAlloc tnode (tnode + pool_vars) := {|
  get_node := tree_get_node;
  return_node := tree_return_node;
  pool := pool_state left 1%positive;
  get_node_spec := pool_get_node_spec (H := next_fit) left (TNode 0 NULL NULL 0) 1%positive next_fit_succeeds;
  return_node_spec := pool_return_node_spec left set_link (λ _ _, eq_refl) 1%positive;
|}.

Lemma tree_refines_map_witness :
  ⦃ pool ⦄
  (tree ← create_tree (N := tnode + pool_vars);
   run_ops 66 tree [Insert 3 (Some 7%positive); Insert 3 (Some 8%positive); Find 3; Delete 4; Delete 3; Find 3])
  ⦃ r, ⌈r = [Code 0; Code (-1); Object (Some 7%positive); Object NULL; Object (Some 7%positive); Object NULL]⌉ ∗
       (∃ root, avl root ∅) ∗ pool ⦄.
Proof.
  apply (tree_refines_map 66 [Insert 3 (Some 7%positive); Insert 3 (Some 8%positive); Find 3; Delete 4; Delete 3; Find 3]);
    [lia|]. repeat constructor; simpl; done.
Defined.

(** Ascending keys, so that there are rotations. *)
Example tree_run :
  match (tree ← create_tree (N := tnode + pool_vars);
         run_ops 66 tree ((λ k, Insert k (Some 9%positive)) <$> [1; 2; 3; 4; 5; 6]) ;; h ← HEIGHT tree;
         rs ← run_ops 66 tree [Delete 1; Delete 2; Delete 3; Find 4; Find 2]; mret (h, rs))
      {[1%positive := inr (PoolVars NULL 0 NULL)]} with
  | Ret r _ => r | _ => (0, [])
  end = (3, [Object (Some 9%positive); Object (Some 9%positive); Object (Some 9%positive); Object (Some 9%positive); Object NULL]).
Proof. vm_compute. done. Qed.

(** Six ascending keys and a deletion leave five objects: the height is at most 4, and the search
    for 5 takes at most five rounds. *)
Definition six_ops : list op := ((λ k, Insert k (Some 9%positive)) <$> [1; 2; 3; 4; 5; 6]) ++ [Delete 2].

Lemma height_logarithmic_witness :
  ⦃ pool ⦄
  (tree ← create_tree (N := tnode + pool_vars);
   run_ops 66 tree six_ops;; h ← HEIGHT tree; r ← run_op 5 tree (Find 5); mret (h, r))
  ⦃ r, ⌈0 <= r.1 <= 4 ∧ r.2 = Object (Some 9%positive)⌉ ∗ (∃ root, avl root (map_op (map_ops ∅ six_ops).2 (Find 5)).2) ∗ pool ⦄.
Proof.
  assert (Nat.log2 (size (map_ops ∅ six_ops).2) = 2%nat) as Hn by by vm_compute.
  assert ((map_op (map_ops ∅ six_ops).2 (Find 5)).1 = Object (Some 9%positive)) as Hr by by vm_compute.
  assert (2 * Nat.log2 (size (map_ops ∅ six_ops).2) < 5)%nat as Hlt by (rewrite Hn; lia).
  assert (Forall op_ok six_ops) as Hok by (repeat constructor; simpl; done).
  assert ((map_ops ∅ six_ops).2 ≠ ∅) as Hne by (intros E; by rewrite E in Hn).
  pose proof (height_logarithmic (N := tnode + pool_vars) 66 six_ops 5 (Find 5) ltac:(lia) Hok I Hne Hlt) as H.
  rewrite Hn Hr in H. exact H.
Defined.
