(* ===== verification/PintosHash.v ===== *)
(** The hash table of src/bin/OS/pintos/src/lib/kernel/hash.c, built on the lists of
    PintosList: the operations on the store, the choice of the number of buckets,
    and the triples of the internal operations.  PintosHashMap has the operations
    of the interface.

    The table at [h] is one cell with the fields of [struct hash].  The array
    [buckets] at [b] is the lists at [b], [b + 1] and so on, each of them with
    the four pointers of a [struct list]. *)
From S2P Require Export PintosList NodePool.
Local Open Scope Z_scope.

(** [struct hash]: the two functions are addresses of code. *)
Record hash := Hash { elem_cnt : Z; bucket_cnt : Z; buckets : ptr; hash_fn : ptr; less_fn : ptr; aux : ptr }.
(** [struct hash_iterator]; [list_elem_to_hash_elem] and [&e->list_elem] do not
    change an address. *)
Record hash_iterator := HashIterator { it_hash : ptr; it_bucket : ptr; it_elem : ptr }.

(** * The number of buckets *)

Definition MIN_ELEMS_PER_BUCKET : Z := 1.
Definition BEST_ELEMS_PER_BUCKET : Z := 2.
Definition MAX_ELEMS_PER_BUCKET : Z := 4.

Definition turn_off_least_1bit (x : Z) : Z := Z.land x (wrap_u 32 (x - 1)).
Definition is_power_of_2 (x : Z) : bool := bool_decide (x ≠ 0) && bool_decide (turn_off_least_1bit x = 0).

(** * The sample hash functions *)

Definition FNV_32_PRIME : Z := 16777619.
Definition FNV_32_BASIS : Z := 2166136261.
Definition fnv_step (hash byte : Z) : Z := Z.lxor (wrap_u 32 (hash * FNV_32_PRIME)) byte.

(** [buf_] and [s_] are the bytes at the pointer and after it, up to the end of
    the object; [None] is [NULL].  Reading past the end is undefined. *)
Fixpoint hash_bytes_from {S} (hash : Z) (buf : list Z) (size : nat) : M S Z :=
  match size, buf with
  | O, _ => mret hash
  | Datatypes.S size, byte :: buf => hash_bytes_from (fnv_step hash byte) buf size
  | Datatypes.S _, [] => undef
  end.
Definition hash_bytes {S} (buf : option (list Z)) (size : nat) : M S Z :=
  match buf with Some buf => hash_bytes_from FNV_32_BASIS buf size | None => throw Assert_Failed end.
Fixpoint hash_string_from {S} (hash : Z) (s : list Z) : M S Z :=
  match s with
  | byte :: s => if bool_decide (byte ≠ 0) then hash_string_from (fnv_step hash byte) s else mret hash
  | [] => undef
  end.
Definition hash_string {S} (s : option (list Z)) : M S Z :=
  match s with Some s => hash_string_from FNV_32_BASIS s | None => throw Assert_Failed end.
(** The bytes of an [int], the least significant first. *)
Definition int_bytes (i : Z) : list Z := (λ k, wrap_u 8 (Z.shiftr (wrap_u 32 i) (8 * k))) <$> [0; 1; 2; 3].
Definition hash_int {S} (i : Z) : M S Z := hash_bytes (Some (int_bytes i)) 4.

(** A string has the hash value of its bytes, which is a word; bytes that are not there
    are not read. *)
Lemma hash_string_bytes {S} (s rest : list Z) : Forall (λ c, c ≠ 0) s →
  hash_string (S := S) (Some (s ++ 0 :: rest)) ≡ hash_bytes (Some (s ++ 0 :: rest)) (length s).
Proof.
  intros Hs. cbn [hash_string hash_bytes]. generalize FNV_32_BASIS as v.
  induction Hs as [|c s Hc _ IH]; intros v; simpl; [done|]. rewrite bool_decide_true //.
Qed.
Lemma lxor_word a b : 0 <= a < 2 ^ 32 → 0 <= b < 2 ^ 32 → 0 <= Z.lxor a b < 2 ^ 32.
Proof.
  intros Ha Hb. assert (0 <= Z.lxor a b) as H by (apply Z.lxor_nonneg; lia). split; [done|].
  destruct (decide (Z.lxor a b = 0)) as [->|Hne]; [lia|]. apply Z.log2_lt_pow2; [lia|].
  pose proof (Z.log2_lxor a b ltac:(lia) ltac:(lia)).
  assert (∀ x, 0 <= x < 2 ^ 32 → Z.log2 x < 32) as Hlog.
  { intros x Hx. destruct (decide (x = 0)) as [->|]; [done|]. apply Z.log2_lt_pow2; lia. }
  pose proof (Hlog a Ha). pose proof (Hlog b Hb). lia.
Qed.
Lemma hash_bytes_word {S} bs size (s s' : S) v : Forall (λ c, 0 <= c < 2 ^ 8) bs →
  hash_bytes (Some bs) size s = Ret v s' → 0 <= v < 2 ^ 32 ∧ s' = s ∧ (size <= length bs)%nat.
Proof.
  cbn [hash_bytes]. assert (0 <= FNV_32_BASIS < 2 ^ 32) as Hv by (unfold FNV_32_BASIS; lia). revert Hv.
  generalize FNV_32_BASIS as w. revert size. induction bs as [|c bs IH]; intros [|size] w Hw Hbs; simpl; unfold mret, M_ret, undef; intros H; simplify_eq.
  - split_and!; (done || lia).
  - split_and!; (done || lia).
  - apply Forall_cons in Hbs as [Hc Hbs]. apply IH in H as (? & ? & ?); [split_and!; (done || lia)| |done].
    apply lxor_word; [apply Z.mod_pos_bound; lia|lia].
Qed.

(** * The operations *)

Section hash_operations.
Context {N : Type} `{!Struct ptr N, !Struct hash N, !BlockMalloc}.
(** The functions at the addresses in a table, and what is in memory that [malloc]
    returns. *)
Context (code_hash : ptr → option (ptr * ptr → M (gmap loc N) Z)).
Context (code_less : ptr → option (ptr * ptr * ptr → M (gmap loc N) bool)).
Context (garbage : ptr).
(** More than the length of any bucket. *)
Context (fuel : nat).
Abbreviation heap := (gmap loc N).

(** [sizeof (struct list)], the four pointers of a list, and the address of a list from
    that of one of them. *)
Definition sizeof_list : Z := 16.
Definition list_cells (l : loc) : list loc := [l~0~0; l~0~1; l~1~0; l~1~1]%positive.
Definition list_of (c : loc) : loc := Pos.div2 (Pos.div2 c).
(** [malloc] for an array of lists, and [free] of an array of [n] of them. *)
Definition lists_cells (size : Z) (s : gset loc) : option (loc * list loc) :=
  '(b, ls) ← block_cells (Z.to_nat (size / sizeof_list)) (set_map list_of s); Some (b, ls ≫= list_cells).
Definition malloc_lists (size : Z) : M heap ptr := malloc_cells (lists_cells size) garbage.
Fixpoint free_cells (cs : list loc) : M heap unit :=
  match cs with [] => mret tt | c :: cs => Memory_free (Some c);; free_cells cs end.
Definition free_lists (p : ptr) (n : Z) : M heap unit :=
  match p with Some b => free_cells ((node_at b <$> seq 0 (Z.to_nat n)) ≫= list_cells) | None => mret tt end.

(** [&buckets[i]]. *)
Definition bucket_addr (buckets : ptr) (i : Z) : M heap ptr :=
  defined ((λ b, Some (node_at b (Z.to_nat i))) <$> buckets).
(** [for (i = 0; i < n; i++) body]. *)
Definition for_buckets (n : Z) (body : Z → M heap unit) : M heap unit :=
  foldr (λ i m, body (Z.of_nat i);; m) (mret tt) (seq 0 (Z.to_nat n)).

Definition hash_function (h e : ptr) : M heap Z :=
  t ← load (T := hash) h; call (code_hash (hash_fn t)) (e, aux t).
Definition less_function (h a b : ptr) : M heap bool :=
  t ← load (T := hash) h; call (code_less (less_fn t)) (a, b, aux t).

Definition find_bucket (h e : ptr) : M heap ptr :=
  v ← hash_function h e; t ← load h;
  let bucket_idx := Z.land v (wrap_u 32 (bucket_cnt t - 1)) in
  bucket_addr (buckets t) bucket_idx.

Definition find_elem (h bucket e : ptr) : M heap ptr :=
  i ← list_begin bucket;
  r ← for_each fuel bucket (λ hi _,
    same ← M_and (negb <$> less_function h hi e) (negb <$> less_function h e hi);
    mret (if (same : bool) then inr hi else inl NULL)) i NULL;
  mret r.2.

Definition set_elem_cnt (h : ptr) (n : Z) : M heap unit :=
  t ← load h; store h (Hash (wrap_u 32 n) (bucket_cnt t) (buckets t) (hash_fn t) (less_fn t) (aux t)).
Definition set_buckets (h : ptr) (b : ptr) (n : Z) : M heap unit :=
  t ← load h; store h (Hash (elem_cnt t) n b (hash_fn t) (less_fn t) (aux t)).

Definition insert_elem (h bucket e : ptr) : M heap unit :=
  t ← load h; set_elem_cnt h (elem_cnt t + 1);;
  list_push_front bucket e.
Definition remove_elem (h e : ptr) : M heap unit :=
  t ← load h; set_elem_cnt h (elem_cnt t - 1);;
  list_remove e;; mret tt.

(** The number of buckets for [n] elements. *)
Definition new_bucket_count (n : Z) : M heap Z :=
  let new_bucket_cnt := n / BEST_ELEMS_PER_BUCKET in
  let new_bucket_cnt := if bool_decide (new_bucket_cnt < 4) then 4 else new_bucket_cnt in
  loop 33 (λ c, mret (if negb (is_power_of_2 c) then inl (turn_off_least_1bit c) else inr c)) new_bucket_cnt.

(** The elements of one old bucket go to the new buckets. *)
Definition rehash_bucket (h old_bucket : ptr) : M heap unit :=
  elem ← list_begin old_bucket;
  loop fuel (λ elem,
    e ← list_end old_bucket;
    if bool_decide (elem ≠ e) then
      new_bucket ← find_bucket h elem;
      next ← list_next elem;
      list_remove elem;;
      list_push_front new_bucket elem;;
      mret (inl next)
    else mret (inr tt)) elem.

Definition rehash (h : ptr) : M heap unit :=
  ASSERT (not_null h);;
  t ← load h;
  let old_buckets := buckets t in
  let old_bucket_cnt := bucket_cnt t in
  new_bucket_cnt ← new_bucket_count (elem_cnt t);
  if bool_decide (new_bucket_cnt = old_bucket_cnt) then mret tt
  else
    new_buckets ← malloc_lists (wrap_u 32 (sizeof_list * new_bucket_cnt));
    if bool_decide (new_buckets = NULL) then mret tt
    else
      for_buckets new_bucket_cnt (λ i, b ← bucket_addr new_buckets i; list_init b);;
      set_buckets h new_buckets new_bucket_cnt;;
      for_buckets old_bucket_cnt (λ i, old_bucket ← bucket_addr old_buckets i; rehash_bucket h old_bucket);;
      free_lists old_buckets old_bucket_cnt.

(** [hash_action_func]. *)
Abbreviation hash_action := (option (ptr * ptr → M (gmap loc N) unit)).

Definition hash_clear (h : ptr) (destructor : hash_action) : M heap unit :=
  t ← load h;
  for_buckets (bucket_cnt t) (λ i,
    t ← load h; bucket ← bucket_addr (buckets t) i;
    (if is_fn destructor then
       loop fuel (λ _,
         empty ← list_empty bucket;
         if negb (empty : bool) then
           hash_elem ← list_pop_front bucket;
           t ← load h; call destructor (hash_elem, aux t);;
           mret (inl tt)
         else mret (inr tt)) tt
     else mret tt);;
    list_init bucket);;
  set_elem_cnt h 0.

Definition hash_init (h : ptr) (hash less aux : ptr) : M heap bool :=
  load (T := PintosHash.hash) h;;
  b ← malloc_lists (wrap_u 32 (sizeof_list * 4));
  store h (Hash 0 4 b hash less aux);;
  if bool_decide (b ≠ NULL) then hash_clear h None;; mret true else mret false.

Definition hash_destroy (h : ptr) (destructor : hash_action) : M heap unit :=
  (if is_fn destructor then hash_clear h destructor else mret tt);;
  t ← load (T := hash) h; free_lists (buckets t) (bucket_cnt t).

Definition hash_insert (h new : ptr) : M heap ptr :=
  bucket ← find_bucket h new;
  old ← find_elem h bucket new;
  (if bool_decide (old = NULL) then insert_elem h bucket new else mret tt);;
  rehash h;;
  mret old.

Definition hash_replace (h new : ptr) : M heap ptr :=
  bucket ← find_bucket h new;
  old ← find_elem h bucket new;
  (if bool_decide (old ≠ NULL) then remove_elem h old else mret tt);;
  insert_elem h bucket new;;
  rehash h;;
  mret old.

Definition hash_find (h e : ptr) : M heap ptr :=
  bucket ← find_bucket h e; find_elem h bucket e.

Definition hash_delete (h e : ptr) : M heap ptr :=
  bucket ← find_bucket h e;
  found ← find_elem h bucket e;
  (if bool_decide (found ≠ NULL) then remove_elem h found;; rehash h else mret tt);;
  mret found.

Definition hash_apply (h : ptr) (action : hash_action) : M heap unit :=
  ASSERT (is_fn action);;
  t ← load h;
  for_buckets (bucket_cnt t) (λ i,
    t ← load h; bucket ← bucket_addr (buckets t) i;
    elem ← list_begin bucket;
    loop fuel (λ elem,
      e ← list_end bucket;
      if bool_decide (elem ≠ e) then
        next ← list_next elem;
        t ← load h; call action (elem, aux t);;
        mret (inl next)
      else mret (inr tt)) elem).

Definition hash_size (h : ptr) : M heap Z := t ← load h; mret (elem_cnt t).
Definition hash_empty (h : ptr) : M heap bool := t ← load h; mret (bool_decide (elem_cnt t = 0)).

(** * Iterators *)

(** [p <= q] for addresses in one array. *)
Definition addr_le (p q : ptr) : Prop :=
  match p, q with Some p, Some q => (p <= q)%positive | _, _ => False end.
#[export] Instance addr_le_dec p q : Decision (addr_le p q).
Proof. destruct p, q; simpl; apply _. Defined.

Section iterators.
Context `{!Struct hash_iterator N}.

Definition hash_first (i h : ptr) : M heap unit :=
  ASSERT (not_null i);; ASSERT (not_null h);;
  t ← load (T := hash) h;
  e ← list_head (buckets t);
  load (T := hash_iterator) i;; store i (HashIterator h (buckets t) e).

(** The loop of [hash_next], with [i->bucket] and [i->elem] as its variables. *)
Definition hash_next (i : ptr) : M heap ptr :=
  ASSERT (not_null i);;
  it ← load i;
  e ← list_next (it_elem it);
  store i (HashIterator (it_hash it) (it_bucket it) e);;
  loop fuel (λ _,
    it ← load i;
    e ← list_end (it_bucket it);
    if bool_decide (it_elem it = e) then
      next ← bucket_addr (it_bucket it) 1;
      store i (HashIterator (it_hash it) next (it_elem it));;
      t ← load (it_hash it);
      stop ← bucket_addr (buckets t) (bucket_cnt t);
      if bool_decide (addr_le stop next) then
        store i (HashIterator (it_hash it) next NULL);; mret (inr tt)
      else
        b ← list_begin next;
        store i (HashIterator (it_hash it) next b);; mret (inl tt)
    else mret (inr tt)) tt;;
  it ← load i; mret (it_elem it).

Definition hash_cur (i : ptr) : M heap ptr := it ← load i; mret (it_elem it).
End iterators.
End hash_operations.

(** * Powers of two *)

Section powers.
Implicit Types x y j q : Z.

Lemma odd_part x : 0 < x → ∃ j q, 0 <= j ∧ 0 <= q ∧ x = 2 ^ j * (2 * q + 1).
Proof.
  intros Hx. revert Hx. induction x as [x IH] using (well_founded_induction (Z.lt_wf 0)). intros Hx.
  destruct (Z.Even_or_Odd x) as [[y ->]|[y ->]].
  - destruct (IH y) as (j & q & Hj & Hq & ->); [lia..|]. exists (j + 1), q. split_and!; [lia..|]. rewrite Z.pow_add_r; lia.
  - exists 0, y. split_and!; lia.
Qed.

Lemma land_pred j q : 0 <= j → 0 <= q →
  Z.land (2 ^ j * (2 * q + 1)) (2 ^ j * (2 * q + 1) - 1) = 2 ^ (j + 1) * q.
Proof.
  intros Hj Hq. set (a := 2 ^ j * (2 * q + 1)). pose proof (Z.pow_pos_nonneg 2 j ltac:(lia) Hj).
  assert (Z.shiftr (Z.land a (a - 1)) j = 2 * q) as Hhi.
  { rewrite Z.shiftr_land !Z.shiftr_div_pow2 //.
    assert (a / 2 ^ j = 2 * q + 1) as -> by (rewrite /a Z.mul_comm Z.div_mul; lia).
    assert ((a - 1) / 2 ^ j = 2 * q) as ->.
    { symmetry. apply (Z.div_unique_pos _ _ _ (2 ^ j - 1)); lia. }
    apply Z.bits_inj'. intros n Hn. rewrite Z.land_spec. destruct (decide (n = 0)) as [->|Hne].
    - by rewrite Z.testbit_odd_0 Z.testbit_even_0.
    - replace n with (Z.succ (n - 1)) by lia. rewrite Z.testbit_odd_succ; [|lia]. rewrite Z.testbit_even_succ; [|lia]. apply andb_diag. }
  assert (Z.land a (a - 1) mod 2 ^ j = 0) as Hlo.
  { rewrite -Z.land_ones // -Z.land_assoc (Z.land_comm (a - 1)) Z.land_assoc (Z.land_ones a) //.
    assert (a mod 2 ^ j = 0) as -> by (rewrite /a Z.mul_comm Z.mod_mul; lia). apply Z.land_0_l. }
  rewrite Z.shiftr_div_pow2 // in Hhi.
  rewrite (Z.div_mod (Z.land a (a - 1)) (2 ^ j)); [|lia]. rewrite Hhi Hlo Z.pow_add_r; lia.
Qed.

(** What clearing the least bit does to a word. *)
Lemma turn_off_spec x : 0 < x < 2 ^ 32 →
  ∃ j q, 0 <= j ∧ 0 <= q ∧ x = 2 ^ j * (2 * q + 1) ∧ turn_off_least_1bit x = 2 ^ (j + 1) * q.
Proof.
  intros Hx. destruct (odd_part x) as (j & q & Hj & Hq & Heq); [lia|]. exists j, q. split_and!; [done..|].
  unfold turn_off_least_1bit, wrap_u. rewrite Z.mod_small; [|lia]. rewrite Heq. by apply land_pred.
Qed.

Lemma log2_odd_part j q : 0 <= j → 0 <= q → Z.log2 (2 ^ j * (2 * q + 1)) = j + Z.log2 (2 * q + 1).
Proof. intros Hj Hq. rewrite Z.mul_comm Z.log2_mul_pow2; lia. Qed.

(** [is_power_of_2] is exact, and a word that is none loses a bit but not its greatest. *)
Lemma is_power_of_2_spec x : 0 < x < 2 ^ 32 → is_power_of_2 x = bool_decide (x = 2 ^ Z.log2 x).
Proof.
  intros Hx. unfold is_power_of_2. rewrite (bool_decide_true (x ≠ 0)); [|lia]. apply bool_decide_ext.
  destruct (turn_off_spec x Hx) as (j & q & Hj & Hq & Heq & ->). pose proof (Z.pow_pos_nonneg 2 j ltac:(lia) Hj).
  subst x. rewrite log2_odd_part // Z.pow_add_r; [|lia..]. split.
  - intros H0. assert (q = 0) as -> by lia. change (Z.log2 (2 * 0 + 1)) with 0. rewrite Z.add_0_r. lia.
  - intros H0. destruct (decide (q = 0)) as [->|Hne]; [lia|].
    pose proof (Z.log2_nonneg q). rewrite Z.log2_succ_double in H0; [|lia]. rewrite Z.pow_add_r in H0; [|lia..].
    rewrite Z.pow_succ_r in H0; [|lia].
    pose proof (Z.log2_spec q ltac:(lia)) as [Hl _]. nia.
Qed.

Lemma turn_off_log2 x : 0 < x < 2 ^ 32 → x ≠ 2 ^ Z.log2 x →
  Z.log2 (turn_off_least_1bit x) = Z.log2 x ∧ 0 < turn_off_least_1bit x < x.
Proof.
  intros Hx Hne. destruct (turn_off_spec x Hx) as (j & q & Hj & Hq & Heq & ->).
  pose proof (Z.pow_pos_nonneg 2 j ltac:(lia) Hj).
  assert (q ≠ 0) as Hq0.
  { intros ->. apply Hne. rewrite {2}Heq log2_odd_part //= Z.add_0_r. lia. }
  split.
  - rewrite Heq log2_odd_part // Z.log2_succ_double; [|lia]. rewrite Z.mul_comm Z.log2_mul_pow2; lia.
  - rewrite Heq Z.pow_add_r; [|lia..]. nia.
Qed.

Definition bucket_number (n : Z) : Z := 2 ^ Z.log2 (Z.max 4 (n / 2)).

(** 33 rounds are enough: after each, one more low bit is 0. *)
Lemma new_bucket_loop {S} (fuel : nat) x : 0 < x < 2 ^ 32 → (2 ^ (33 - Z.of_nat fuel) | x) → (fuel <= 33)%nat →
  loop (S := S) fuel (λ c, mret (if negb (is_power_of_2 c) then inl (turn_off_least_1bit c) else inr c)) x ≡ mret (2 ^ Z.log2 x).
Proof.
  revert x. induction fuel as [|fuel IH]; intros x Hx Hdiv Hf s.
  { apply Z.divide_pos_le in Hdiv; [|lia]. simpl in Hdiv. lia. }
  rewrite run_loop is_power_of_2_spec // run_ret. case_bool_decide as Ex; cbn [negb]; [by rewrite -Ex|].
  destruct (turn_off_log2 x Hx Ex) as [Hlog Hlt]. rewrite -Hlog. apply IH; [lia| |lia].
  destruct (turn_off_spec x Hx) as (j & q & Hj & Hq & Heq & ->).
  assert (33 - Z.of_nat (Datatypes.S fuel) <= j) as Hle.
  { destruct (Z.le_gt_cases (33 - Z.of_nat (Datatypes.S fuel)) j) as [|Hgt]; [done|exfalso]. destruct Hdiv as [c Hc]. rewrite Heq in Hc.
    pose proof (Z.pow_pos_nonneg 2 j ltac:(lia) Hj).
    set (d := 33 - Z.of_nat (Datatypes.S fuel) - j - 1). replace (33 - Z.of_nat (Datatypes.S fuel)) with (j + (1 + d)) in Hc by lia.
    assert (0 <= d) by lia. pose proof (Z.pow_pos_nonneg 2 d ltac:(lia) ltac:(lia)).
    rewrite Z.pow_add_r in Hc; [|lia..]. rewrite (Z.pow_add_r 2 1) in Hc; [|lia..].
    assert (2 * q + 1 = 2 * (c * 2 ^ d)) as Hodd by nia. lia. }
  apply Z.divide_mul_l. exists (2 ^ (j + 1 - (33 - Z.of_nat fuel))). rewrite -Z.pow_add_r; [f_equal; lia|lia..].
Qed.

Lemma new_bucket_count_spec {N} n : 0 <= n < 2 ^ 32 → new_bucket_count (N := N) n ≡ mret (bucket_number n).
Proof.
  intros Hn. unfold new_bucket_count, bucket_number, BEST_ELEMS_PER_BUCKET.
  pose proof (Z.div_pos n 2 ltac:(lia) ltac:(lia)). assert (n / 2 < 2 ^ 32) by (apply Z.div_lt_upper_bound; lia).
  assert ((if bool_decide (n / 2 < 4) then 4 else n / 2) = Z.max 4 (n / 2)) as -> by (case_bool_decide; lia).
  apply new_bucket_loop; [lia| |lia]. apply Z.divide_1_l.
Qed.
End powers.

(** * Tables in the store *)

(** What a client promises of its two functions, for elements that have keys: they
    read [user], the memory of the elements, and do not change it. *)
Record hash_client {N K : Type} (code_hash : ptr → option (ptr * ptr → M (gmap loc N) Z))
    (code_less : ptr → option (ptr * ptr * ptr → M (gmap loc N) bool)) := HashClient {
  client_hash : ptr; client_less : ptr; client_aux : ptr;
  key : loc → K;
  hash_value : loc → Z;
  less_value : loc → loc → bool;
  user : hpropI N;
  client_hash_spec e : ⦃ user ⦄ call (code_hash client_hash) (Some e, client_aux) ⦃ r, ⌈r = hash_value e⌉ ∗ user ⦄;
  client_less_spec a b :
    ⦃ user ⦄ call (code_less client_less) (Some a, Some b, client_aux) ⦃ r, ⌈r = less_value a b⌉ ∗ user ⦄;
  hash_value_range e : 0 <= hash_value e < 2 ^ 32;
  hash_value_key a b : key a = key b → hash_value a = hash_value b;
  less_value_key a b : negb (less_value a b) && negb (less_value b a) = true ↔ key a = key b;
}.
Arguments client_hash {N K code_hash code_less}.
Arguments client_less {N K code_hash code_less}.
Arguments client_aux {N K code_hash code_less}.
Arguments key {N K code_hash code_less}.
Arguments hash_value {N K code_hash code_less}.
Arguments less_value {N K code_hash code_less}.
Arguments user {N K code_hash code_less}.

Section tables.
Context {N : Type} `{!Struct ptr N, !Struct hash N, !BlockMalloc}.
Context (code_hash : ptr → option (ptr * ptr → M (gmap loc N) Z)).
Context (code_less : ptr → option (ptr * ptr * ptr → M (gmap loc N) bool)).
Context {K : Type} `{!EqDecision K} (cl : hash_client (K := K) code_hash code_less).
Context (garbage : ptr) (fuel : nat).

(** The fields of a table with [n] elements in [nb] buckets at [b]. *)
Definition fields (n nb : Z) (b : ptr) : hash := Hash n nb b (client_hash cl) (client_less cl) (client_aux cl).

Definition bucket_lists (b : loc) (bs : list (list loc)) : hpropI N := ([∗ list] i↦xs ∈ bs, is_list (node_at b i) xs)%I.

(** The bucket of an element, when there are [nb]. *)
Definition index (nb : nat) (x : loc) : nat := Z.to_nat (hash_value cl x mod Z.of_nat nb).
Definition placed (bs : list (list loc)) : Prop :=
  ∀ i xs, bs !! i = Some xs → Forall (λ x, index (length bs) x = i) xs.
(** The number of buckets. *)
Definition power (n : nat) : Prop := ∃ k : Z, 0 <= k <= 31 ∧ Z.of_nat n = 2 ^ k.

Lemma power_pos n : power n → (0 < n)%nat.
Proof. intros (k & Hk & Hn). pose proof (Z.pow_pos_nonneg 2 k ltac:(lia) ltac:(lia)). lia. Qed.
Lemma index_lt n x : power n → (index n x < n)%nat.
Proof. intros Hp%power_pos. unfold index. pose proof (Z.mod_pos_bound (hash_value cl x) (Z.of_nat n)). lia. Qed.
Lemma index_mask n x : power n → Z.land (hash_value cl x) (wrap_u 32 (Z.of_nat n - 1)) = Z.of_nat (index n x).
Proof.
  intros Hp. pose proof (power_pos n Hp). destruct Hp as (k & Hk & Hn). unfold index, wrap_u.
  pose proof (Z.pow_le_mono_r 2 k 31 ltac:(lia) ltac:(lia)).
  rewrite Z.mod_small; [|lia]. pose proof (Z.mod_pos_bound (hash_value cl x) (Z.of_nat n) ltac:(lia)).
  rewrite Z2Nat.id; [|lia]. rewrite Hn -Z.land_ones; [|lia]. by rewrite Z.ones_equiv -Z.sub_1_r.
Qed.

Lemma bucket_lists_acc b bs i xs : bs !! i = Some xs →
  bucket_lists b bs ⊢ is_list (node_at b i) xs ∗ (∀ ys, is_list (node_at b i) ys -∗ bucket_lists b (<[i := ys]> bs)).
Proof. intros Hi. exact (big_sepL_insert_acc (λ i xs, is_list (node_at b i) xs) bs i xs Hi). Qed.

Lemma wp_bucket_addr b i Φ Ψ : Φ (Some (node_at b i)) ⊢ wp (N := N) (bucket_addr (Some b) (Z.of_nat i)) Φ Ψ.
Proof. apply wp_defined. by rewrite Nat2Z.id. Qed.

Lemma find_bucket_spec h n nb b x : power nb →
  ⦃ h ↦ fields n (Z.of_nat nb) (Some b) ∗ user cl ⦄
  find_bucket code_hash (Some h) (Some x)
  ⦃ r, ⌈r = Some (node_at b (index nb x))⌉ ∗ h ↦ fields n (Z.of_nat nb) (Some b) ∗ user cl ⦄.
Proof.
  intros Hp. unfold hoare, find_bucket, hash_function. iIntros "[Hh HU]". wp_load "Hh".
  wp_focus. iApply (hoare_wp_ret with "HU"); [apply client_hash_spec|]. iIntros (r) "[-> HU]". wp_load "Hh".
  cbn [fields buckets bucket_cnt]. rewrite index_mask //. iApply wp_bucket_addr. by iFrame.
Qed.

(** The first element with the key of [e]. *)
Definition lookup_key (e : loc) (xs : list loc) : ptr := head (filter (λ x, key cl x = key cl e) xs).

Lemma wp_hash_less h t a b Φ Ψ : client_less cl = less_fn t → client_aux cl = aux t →
  h ↦ t ∗ user cl -∗ (h ↦ t ∗ user cl -∗ Φ (less_value cl a b)) -∗
  wp (N := N) (less_function code_less (Some h) (Some a) (Some b)) Φ Ψ.
Proof.
  iIntros (Hl Ha) "[Hh HU] HΦ". unfold less_function. wp_load "Hh". rewrite -Hl -Ha.
  iApply (hoare_wp_ret with "HU"); [apply client_less_spec|]. iIntros (r) "[-> HU]". iApply "HΦ". iFrame.
Qed.

Lemma find_elem_spec h n nb p l xs e : (length xs < fuel)%nat →
  ⦃ is_list l xs ∗ h ↦ fields n nb p ∗ user cl ⦄
  find_elem code_less fuel (Some h) (Some l) (Some e)
  ⦃ r, ⌈r = lookup_key e xs⌉ ∗ is_list l xs ∗ h ↦ fields n nb p ∗ user cl ⦄.
Proof.
  intros Hf. unfold hoare, find_elem. iIntros "[H HR]". iApply wp_bind. iApply (wp_list_begin with "H"). iIntros "H".
  iApply wp_bind. iApply (hoare_wp_ret with "[H HR]");
    [apply (for_each_spec l fuel _ (λ x _, if decide (key cl x = key cl e) then inr (Some x) else inl NULL)
       (λ s, s = NULL) (h ↦ fields n nb p ∗ user cl)%I [] xs NULL Hf); [done|..]|iFrame|].
  - intros x s ->. unfold hoare. iIntros "HR". iApply wp_bind. unfold M_and. iApply wp_bind. iApply wp_fmap.
    iApply (wp_hash_less with "HR"); [done..|]. iIntros "HR".
    pose proof (less_value_key _ _ cl x e) as Hk.
    destruct (less_value cl x e); cbn [negb andb] in *.
    + iApply wp_ret. iApply wp_ret. rewrite decide_False; [by iFrame|]. by intros ?%Hk.
    + iApply wp_fmap. iApply (wp_hash_less with "HR"); [done..|]. iIntros "HR". iApply wp_ret.
      destruct (less_value cl e x); cbn [negb] in *; [rewrite decide_False|rewrite decide_True]; try (by iFrame);
        [by intros ?%Hk|by apply Hk].
  - intros x s s' -> Hs. case_decide; by simplify_eq.
  - iIntros (r) "(-> & H & HR)". iApply wp_ret. iFrame. iPureIntro. cbn [snd]. unfold lookup_key. clear Hf.
    induction xs as [|x xs IH]; [done|]. cbn [scan]. rewrite filter_cons. case_decide; [done|exact IH].
Qed.
(** * Loops over the buckets *)

Lemma sep_seq_snoc (Φ : nat → hpropI N) i : ([∗ list] j ∈ seq 0 i, Φ j) -∗ Φ i -∗ [∗ list] j ∈ seq 0 (S i), Φ j.
Proof. iIntros "H Hi". replace (S i) with (i + 1)%nat by lia. rewrite seq_app big_sepL_app. simpl. by iFrame. Qed.

Lemma for_buckets_spec (n : nat) body (I : nat → hpropI N) :
  (∀ i, (i < n)%nat → ⦃ I i ⦄ body (Z.of_nat i) ⦃ _u, I (S i) ⦄) →
  ⦃ I 0%nat ⦄ for_buckets (Z.of_nat n) body ⦃ _u, I n ⦄.
Proof.
  intros Hbody. unfold hoare, for_buckets. rewrite Nat2Z.id.
  assert (∀ m a, (a + m = n)%nat → I a ⊢ wp (N := N) (foldr (λ i m, body (Z.of_nat i);; m) (mret tt) (seq a m)) (λ _, I n) (λ _, False)%I) as H'.
  { induction m as [|m IH]; intros a Ha; cbn [seq foldr].
    - assert (a = n) as -> by lia. iIntros "H". by iApply wp_ret.
    - iIntros "H". iApply wp_bind. iApply (hoare_wp_ret with "H"); [apply Hbody; lia|]. iIntros (_) "H". iApply (IH with "H"). lia. }
  by apply H'.
Qed.

(** An element at the front of its bucket. *)
Definition place (bs : list (list loc)) (x : loc) : list (list loc) :=
  match bs !! index (length bs) x with Some xs => <[index (length bs) x := x :: xs]> bs | None => bs end.

Lemma length_place bs x : length (place bs x) = length bs.
Proof. unfold place. destruct (bs !! _); [apply length_insert|done]. Qed.
Lemma length_places bs xs : length (foldl place bs xs) = length bs.
Proof. revert bs. induction xs as [|x xs IH]; intros bs; [done|]. by rewrite /= IH length_place. Qed.

Lemma concat_insert (bs : list (list loc)) i xs ys : bs !! i = Some xs → ∃ zs, concat bs ≡ₚ xs ++ zs ∧ concat (<[i := ys]> bs) ≡ₚ ys ++ zs.
Proof.
  intros Hi. pose proof (lookup_lt_Some _ _ _ Hi). rewrite -{1}(take_drop_middle bs i xs Hi) insert_take_drop //.
  exists (concat (take i bs) ++ concat (drop (S i) bs)). rewrite !concat_app /= !app_assoc.
  split; by rewrite (Permutation_app_comm (concat (take i bs))).
Qed.

Lemma place_perm bs x : power (length bs) → concat (place bs x) ≡ₚ x :: concat bs.
Proof.
  intros Hp. unfold place. destruct (lookup_lt_is_Some_2 bs (index (length bs) x)) as [xs Hxs]; [by apply index_lt|].
  rewrite Hxs. destruct (concat_insert bs _ xs (x :: xs) Hxs) as (zs & -> & ->). done.
Qed.
Lemma places_perm bs xs : power (length bs) → concat (foldl place bs xs) ≡ₚ xs ++ concat bs.
Proof.
  revert bs. induction xs as [|x xs IH]; intros bs Hp; [done|]. cbn [foldl].
  rewrite IH; [|by rewrite length_place]. rewrite place_perm // -Permutation_middle. done.
Qed.

Lemma placed_insert bs i ys : placed bs → Forall (λ x, index (length bs) x = i) ys → placed (<[i := ys]> bs).
Proof.
  intros Hbs Hys j xs. rewrite length_insert. intros [(<- & <- & _)|[_ Hj]]%list_lookup_insert_Some; [done|by apply Hbs].
Qed.
Lemma placed_place bs x : placed bs → placed (place bs x).
Proof.
  intros Hbs. unfold place. destruct (bs !! _) as [xs|] eqn:Hxs; [|done].
  apply placed_insert; [done|]. constructor; [done|]. by apply Hbs.
Qed.
Lemma placed_places bs xs : placed bs → placed (foldl place bs xs).
Proof. revert bs. induction xs as [|x xs IH]; intros bs Hbs; [done|]. by apply IH, placed_place. Qed.
Lemma placed_empty n : placed (replicate n []).
Proof. intros i xs [-> _]%lookup_replicate. constructor. Qed.
Lemma concat_empty n : concat (replicate n ([] : list loc)) = [].
Proof. by induction n. Qed.

Lemma push_bucket_spec b bs x : power (length bs) →
  ⦃ bucket_lists b bs ∗ elem x ⦄ list_push_front (Some (node_at b (index (length bs) x))) (Some x)
  ⦃ _u, bucket_lists b (place bs x) ⦄.
Proof.
  intros Hp. unfold hoare, place. destruct (lookup_lt_is_Some_2 bs (index (length bs) x)) as [xs Hxs]; [by apply index_lt|].
  rewrite Hxs. iIntros "[H Hx]". iDestruct (bucket_lists_acc _ _ _ _ Hxs with "H") as "[H Hback]".
  iApply (hoare_wp_ret _ _ _ _ _ (list_push_front_spec (node_at b (index (length bs) x)) xs x) with "[$H $Hx]").
  iIntros (u) "H". by iApply "Hback".
Qed.

(** An array of lists that are all empty. *)
Lemma empty_lists b n : bucket_lists b (replicate n []) ⊣⊢ ([∗ list] i ∈ seq 0 n, is_list (node_at b i) []).
Proof.
  unfold bucket_lists. assert (replicate n [] = (λ _, []) <$> seq 0 n) as ->.
  { generalize 0%nat. induction n as [|n IH]; intros a; [done|]. simpl. by f_equal. }
  rewrite big_sepL_fmap. apply big_sepL_proper. intros k i Hi. apply lookup_seq in Hi as [-> _]. done.
Qed.

(** * Arrays of lists *)

Lemma list_of_cells l c : c ∈ list_cells l → list_of c = l.
Proof. unfold list_cells. rewrite !elem_of_cons elem_of_nil. by intros [->|[->|[->|[->|[]]]]]. Qed.

Lemma lists_cells_ok size s b cs : lists_cells size s = Some (b, cs) →
  cs = (node_at b <$> seq 0 (Z.to_nat (size / sizeof_list))) ≫= list_cells ∧ NoDup cs ∧ ∀ c, c ∈ cs → c ∉ s.
Proof.
  unfold lists_cells. destruct (block_cells _ _) as [[b' ls]|] eqn:E; [|done]. cbn [mbind option_bind].
  intros [= -> <-]. apply block_cells_ok in E as (-> & Hnd & Hfresh). split_and!; [done|..].
  - apply NoDup_bind; [|intros l _; unfold list_cells; repeat constructor; rewrite ?elem_of_cons ?elem_of_nil; intuition congruence|done].
    intros l1 l2 c _ _ H1%list_of_cells H2%list_of_cells. congruence.
  - intros c Hc Hs. apply list_elem_of_bind in Hc as (l & Hc%list_of_cells & Hl). apply (Hfresh l Hl).
    apply elem_of_map. by exists c.
Qed.

(** What is in memory that holds no list yet. *)
Definition raw_list (l : loc) : hpropI N := (elem l~0 ∗ elem l~1)%positive%I.

Lemma malloc_lists_spec n : 0 <= sizeof_list * n < 2 ^ 32 →
  ⦃ emp ⦄ malloc_lists garbage (wrap_u 32 (sizeof_list * n))
  ⦃ r, ⌈r = NULL⌉ ∨ ∃ b, ⌈r = Some b⌉ ∗ [∗ list] i ∈ seq 0 (Z.to_nat n), raw_list (node_at b i) ⦄.
Proof.
  intros Hn. unfold hoare, malloc_lists. iIntros "H". iApply (hoare_wp_ret with "H"); [apply malloc_cells_spec|].
  { intros s b cs Hs. by apply lists_cells_ok in Hs as [_ Hs]. }
  iIntros (r) "[(%s & %Hr) | (%s & %b & %cs & %Hr & H)]"; destruct Hr as [-> Hr]; [by iLeft|].
  iRight. iExists b. iSplit; [done|]. apply lists_cells_ok in Hr as [-> _].
  unfold wrap_u. rewrite Z.mod_small // Z.mul_comm Z.div_mul; [|done].
  rewrite big_sepL_bind big_sepL_fmap. iApply (big_sepL_impl with "H"). iIntros "!>" (k i _) "H".
  unfold list_cells, raw_list, elem. simpl. iDestruct "H" as "(H1 & H2 & H3 & H4 & _)". iSplitL "H1 H2"; iExists _, _; iFrame.
Qed.

Lemma free_cells_spec cs : ⦃ [∗ list] c ∈ cs, ∃ v : ptr, c ↦ v ⦄ free_cells (N := N) cs ⦃ _u, emp ⦄.
Proof.
  unfold hoare. induction cs as [|c cs IH]; cbn [free_cells big_opL].
  - iIntros "H". by iApply wp_ret.
  - iIntros "[(%v & Hc) H]". iApply wp_bind. iApply (wp_free with "Hc"). by iApply IH.
Qed.

Lemma raw_list_cells l : raw_list l ⊢ [∗ list] c ∈ list_cells l, ∃ v : ptr, c ↦ v.
Proof.
  unfold raw_list, elem, list_cells. simpl. iIntros "[(%&%&H1&H2) (%&%&H3&H4)]".
  iSplitL "H1"; [by iExists _|]. iSplitL "H2"; [by iExists _|]. iSplitL "H3"; [by iExists _|]. iSplitL "H4"; [by iExists _|done].
Qed.

Lemma free_lists_spec b n :
  ⦃ [∗ list] i ∈ seq 0 n, raw_list (node_at b i) ⦄ free_lists (Some b) (Z.of_nat n) ⦃ _u, emp ⦄.
Proof.
  unfold hoare, free_lists. rewrite Nat2Z.id. iIntros "H".
  iApply (hoare_wp_ret with "[H]"); [apply free_cells_spec| |by iIntros (u) "H"].
  rewrite big_sepL_bind big_sepL_fmap. iApply (big_sepL_impl with "H"). iIntros "!>" (k i _) "H".
  by iApply raw_list_cells.
Qed.

(** The elements of a list are no longer in it when it goes. *)
Lemma links_elems (a : ptr) zs : links (N := N) (a :: (Some <$> zs) ++ [NULL]) ⊢
  (match a with Some x => ∃ n : ptr, x~1 ↦ n | None => emp end)%positive ∗ [∗ list] z ∈ zs, elem z.
Proof.
  revert a. induction zs as [|z zs IH]; intros a.
  - simpl. unfold link. iIntros "[[Ha _] _]". iSplit; [|done]. destruct a; [by iExists _|done].
  - rewrite fmap_cons. cbn [app big_opL]. rewrite links_cons IH /link. iIntros "[[Ha Hz] [(%n & Hn) H]]". iFrame "H". iSplitL "Ha".
    + destruct a; [by iExists _|done].
    + iExists a, n. iFrame.
Qed.
Lemma is_list_elems l xs : is_list (N := N) l xs ⊢ raw_list l ∗ [∗ list] x ∈ xs, elem x.
Proof.
  unfold is_list, PintosList.chain, raw_list. rewrite links_elems. iIntros "[_ H]". cbn [big_opL]. rewrite big_sepL_app. simpl.
  iDestruct "H" as "($ & $ & $ & _)".
Qed.

(** Lists and elements of an array, apart. *)
Lemma list_of_seq {A} `{!Inhabited A} (xs : list A) : xs = (λ i, xs !!! i) <$> seq 0 (length xs).
Proof.
  apply list_eq. intros i. rewrite list_lookup_fmap. destruct (decide (i < length xs)%nat) as [Hi|Hi].
  - rewrite lookup_seq_lt //=. by apply list_lookup_lookup_total_lt.
  - rewrite lookup_seq_ge /=; [|lia]. apply lookup_ge_None. lia.
Qed.
Lemma sep_of_seq {A} `{!Inhabited A} (Φ : nat → A → hpropI N) xs :
  ([∗ list] i↦x ∈ xs, Φ i x) ⊣⊢ [∗ list] i ∈ seq 0 (length xs), Φ i (xs !!! i).
Proof.
  rewrite {1}(list_of_seq xs) big_sepL_fmap. apply big_sepL_proper. intros k i Hi. apply lookup_seq in Hi as [-> _]. done.
Qed.
Lemma sep_concat (Φ : loc → hpropI N) (bs : list (list loc)) :
  ([∗ list] xs ∈ bs, [∗ list] x ∈ xs, Φ x) ⊣⊢ [∗ list] x ∈ concat bs, Φ x.
Proof. induction bs as [|xs bs IH]; [done|]. by rewrite /= big_sepL_app IH. Qed.

Lemma bucket_lists_elems b bs :
  bucket_lists b bs ⊢ ([∗ list] i ∈ seq 0 (length bs), raw_list (node_at b i)) ∗ [∗ list] x ∈ concat bs, elem x.
Proof.
  unfold bucket_lists. rewrite -sep_concat -(sep_of_seq (λ i _, raw_list (node_at b i))) -big_sepL_sep.
  apply big_sepL_mono. intros i xs _. apply is_list_elems.
Qed.

(** The buckets are initialised one by one. *)
Lemma init_buckets_spec b n :
  ⦃ [∗ list] i ∈ seq 0 n, raw_list (node_at b i) ⦄
  for_buckets (Z.of_nat n) (λ i, b ← bucket_addr (Some b) i; list_init b)
  ⦃ _u, bucket_lists b (replicate n []) ⦄.
Proof.
  eapply hoare_conseq; [apply (for_buckets_spec n _ (λ i, bucket_lists b (replicate i []) ∗
    [∗ list] j ∈ seq i (n - i), raw_list (node_at b j))%I)| |intros a; simpl|done].
  - intros i Hi. unfold hoare. iIntros "[H1 H2]". replace (n - i)%nat with (S (n - S i)) by lia. cbn [seq big_opL].
    iDestruct "H2" as "[Hi H2]". wp_focus. iApply wp_bucket_addr.
    iApply (hoare_wp_ret _ _ _ _ _ (list_init_spec (node_at b i)) with "Hi"). iIntros (u) "Hi". iFrame "H2".
    rewrite !empty_lists. replace (S i) with (i + 1)%nat by lia. rewrite seq_app big_sepL_app. simpl. by iFrame.
  - rewrite Nat.sub_0_r. iIntros "$". rewrite empty_lists. done.
  - rewrite Nat.sub_diag. simpl. by iIntros "[$ _]".
Qed.

(** * Rehashing *)

Lemma rehash_bucket_spec h n l b bs xs : power (length bs) → (length xs < fuel)%nat →
  ⦃ is_list l xs ∗ bucket_lists b bs ∗ h ↦ fields n (Z.of_nat (length bs)) (Some b) ∗ user cl ⦄
  rehash_bucket code_hash fuel (Some h) (Some l)
  ⦃ _u, is_list l [] ∗ bucket_lists b (foldl place bs xs) ∗ h ↦ fields n (Z.of_nat (length bs)) (Some b) ∗ user cl ⦄.
Proof.
  intros Hp Hf. unfold hoare, rehash_bucket. iIntros "(H & Hbs & HR)". iApply wp_bind. iApply (wp_list_begin with "H"). iIntros "H".
  change (head (xs ++ [l~1%positive])) with (first l xs).
  remember (length bs) as nb eqn:Hnb.
  iInduction fuel as [|fuel'] "IH" forall (bs xs Hf Hnb); [lia|]. iApply wp_loop. iApply wp_bind. iApply wp_list_end.
  iDestruct (first_end l [] xs with "H") as %E. destruct xs as [|x xs].
  { rewrite bool_decide_false; [|tauto]. iApply wp_ret. iApply wp_ret. by iFrame. }
  rewrite bool_decide_true; [|by intros Hx%E]. change (first l (x :: xs)) with (Some x).
  wp_focus. iApply (hoare_wp_ret with "HR"); [by apply find_bucket_spec|]. iIntros (r) "[-> HR]".
  wp_focus. iApply (wp_list_next_at l [] x xs with "H"). iIntros "H".
  wp_focus. iApply (hoare_wp_ret with "H"); [apply (list_remove_at l [] x xs)|]. iIntros (r) "(_ & H & Hx)".
  wp_focus. subst nb. iApply (hoare_wp_ret _ _ _ _ _ (push_bucket_spec b bs x Hp) with "[$Hbs $Hx]"). iIntros (u) "Hbs".
  iApply wp_ret. iApply ("IH" with "[%] [%] Hbs HR H"); [simpl in *; lia|by rewrite length_place].
Qed.

(** A table of [n] elements: the buckets hold [xs], in some order. *)
Definition table (h : loc) (n : Z) (b : loc) (bs : list (list loc)) : hpropI N :=
  (h ↦ fields n (Z.of_nat (length bs)) (Some b) ∗ bucket_lists b bs ∗ user cl)%I.
Definition table_ok (bs : list (list loc)) : Prop := power (length bs) ∧ placed bs.

Lemma bucket_number_ok n : 0 <= n < 2 ^ 29 → 0 <= sizeof_list * bucket_number n < 2 ^ 32 ∧ power (Z.to_nat (bucket_number n)).
Proof.
  intros Hn. unfold bucket_number, power, sizeof_list. assert (n / 2 < 2 ^ 28) by (apply Z.div_lt_upper_bound; lia).
  set (m := Z.max 4 (n / 2)). pose proof (Z.log2_spec m ltac:(lia)) as [Hlog _]. pose proof (Z.log2_nonneg m).
  assert (Z.log2 m <= 28) by (transitivity (Z.log2 (2 ^ 28)); [apply Z.log2_le_mono; lia|done]).
  pose proof (Z.pow_pos_nonneg 2 (Z.log2 m) ltac:(lia) ltac:(lia)). split; [lia|]. exists (Z.log2 m). rewrite Z2Nat.id; lia.
Qed.

(** A round of the loop that empties the old buckets. *)
Lemma move_bucket_spec h n ob b bs nb i : power nb → (i < length bs)%nat → Forall (λ xs, length xs < fuel)%nat bs →
  let state i := (bucket_lists ob (replicate i [] ++ drop i bs) ∗
    bucket_lists b (foldl place (replicate nb []) (concat (take i bs))) ∗
    h ↦ fields n (Z.of_nat nb) (Some b) ∗ user cl)%I in
  ⦃ state i ⦄
  (old_bucket ← bucket_addr (Some ob) (Z.of_nat i); rehash_bucket code_hash fuel (Some h) old_bucket)
  ⦃ _u, state (S i) ⦄.
Proof.
  intros Hp Hi Hf state. unfold hoare, state. iIntros "(Hold & Hnew & HR)".
  destruct (lookup_lt_is_Some_2 bs i Hi) as [xs Hxs].
  assert ((replicate i [] ++ drop i bs) !! i = Some xs) as Hxs'.
  { rewrite lookup_app_r length_replicate // Nat.sub_diag lookup_drop Nat.add_0_r //. }
  iDestruct (bucket_lists_acc _ _ _ _ Hxs' with "Hold") as "[H Hback]".
  wp_focus. iApply wp_bucket_addr.
  set (nbs := foldl place (replicate nb []) (concat (take i bs))).
  assert (length nbs = nb) as Hlen by by rewrite length_places length_replicate. rewrite -Hlen.
  assert (length xs < fuel)%nat as Hlx by by eapply (Forall_lookup_1 (λ xs, length xs < fuel)%nat).
  iApply (hoare_wp_ret with "[H Hnew HR]"); [apply (rehash_bucket_spec h n (node_at ob i) b nbs xs); [by rewrite Hlen|done]|iFrame|].
  iIntros (u) "(H & Hnew & HR)". iFrame "HR".
  assert (concat [xs] = xs) as Hxs1 by apply app_nil_r.
  rewrite (take_S_r bs i xs) // concat_app Hxs1 foldl_app -/nbs Hlen. iFrame "Hnew".
  assert (<[i := []]> (replicate i [] ++ drop i bs) = replicate i [] ++ [] :: drop (S i) bs) as Hins.
  { by rewrite (drop_S bs xs i) // insert_app_r_alt length_replicate // Nat.sub_diag. }
  iSpecialize ("Hback" with "H"). iEval (rewrite Hins) in "Hback".
  rewrite replicate_S_end -app_assoc. cbn [app]. iFrame.
Qed.

Lemma rehash_spec h n b bs : 0 <= n < 2 ^ 29 → table_ok bs → Forall (λ xs, length xs < fuel)%nat bs →
  ⦃ table h n b bs ⦄ rehash code_hash garbage fuel (Some h)
  ⦃ _u, ∃ b' bs', table h n b' bs' ∗ ⌈table_ok bs' ∧ concat bs' ≡ₚ concat bs⌉ ⦄.
Proof.
  intros Hn [Hp Hpl] Hf. destruct (bucket_number_ok n Hn) as [Hsize Hp']. pose proof (power_pos _ Hp').
  unfold hoare, rehash, table. iIntros "(Hh & Hbs & HU)".
  iApply wp_bind. iApply wp_ASSERT_ptr. wp_load "Hh". cbn [fields elem_cnt bucket_cnt buckets].
  iApply wp_bind. iApply (wp_equiv _ _ _ _ (new_bucket_count_spec n ltac:(lia))). iApply wp_ret.
  case_bool_decide.
  { iApply wp_ret. iExists b, bs. by iFrame. }
  iApply wp_bind. iApply (hoare_wp_ret with "[]"); [by apply malloc_lists_spec|done|].
  iIntros (r) "[-> | (%b' & -> & Hraw)]"; [rewrite bool_decide_true //|rewrite bool_decide_false //].
  { iApply wp_ret. iExists b, bs. by iFrame. }
  set (nb := Z.to_nat (bucket_number n)) in *.
  assert (bucket_number n = Z.of_nat nb) as -> by (rewrite /nb Z2Nat.id; lia).
  iApply wp_bind. iApply (hoare_wp_ret with "Hraw"); [apply init_buckets_spec|]. iIntros (u) "Hnew".
  iApply wp_bind. unfold set_buckets. wp_load "Hh". iApply (wp_store with "Hh"). iIntros "Hh". cbn [elem_cnt hash_fn less_fn aux].
  iApply wp_bind. iApply (hoare_wp_ret with "[Hbs Hnew Hh HU]");
    [apply (for_buckets_spec (length bs)); intros i Hi; by apply (move_bucket_spec h n b b' bs nb i)|simpl; iFrame|].
  iIntros (u') "(Hold & Hnew & Hh & HU)". rewrite firstn_all drop_all app_nil_r.
  iDestruct (bucket_lists_elems with "Hold") as "[Hold Hnil]". rewrite length_replicate concat_empty. cbn [big_opL]. iClear "Hnil".
  iApply (hoare_wp_ret with "Hold"); [apply free_lists_spec|]. iIntros (u'') "_".
  set (nbs := foldl place _ _). assert (length nbs = nb) as Hlen by by rewrite length_places length_replicate.
  iExists b', nbs. rewrite Hlen. iFrame. iPureIntro. unfold table_ok. rewrite Hlen. split_and!; [done|..].
  - apply placed_places, placed_empty.
  - unfold nbs. rewrite places_perm; [|by rewrite length_replicate]. by rewrite concat_empty app_nil_r.
Qed.
End tables.
