(* ===== verification/PintosHashMap.v ===== *)
(** The interface of src/bin/OS/pintos/src/lib/kernel/hash.c: a hash table is a finite
    map from keys to elements, whatever [malloc] does when the table is rehashed;
    an iterator visits every element once. *)
From S2P Require Export PintosHash.
Local Open Scope Z_scope.

Section hash_map.
Context {N : Type} `{!Struct ptr N, !Struct hash N, !BlockMalloc}.
Context (code_hash : ptr → option (ptr * ptr → M (gmap loc N) Z)).
Context (code_less : ptr → option (ptr * ptr * ptr → M (gmap loc N) bool)).
Context {K : Type} `{Countable K} (cl : hash_client (K := K) code_hash code_less).
Context (garbage : ptr) (fuel : nat).

Definition map_of (xs : list loc) : gmap K loc := list_to_map ((λ x, (key cl x, x)) <$> xs).
Definition represents (bs : list (list loc)) (m : gmap K loc) : Prop :=
  table_ok _ _ cl bs ∧ NoDup (key cl <$> concat bs) ∧ m = map_of (concat bs).

Lemma keys_fst xs : ((λ x, (key cl x, x)) <$> xs).*1 = key cl <$> xs.
Proof. rewrite -list_fmap_compose. done. Qed.

Lemma map_of_lookup xs x : NoDup (key cl <$> xs) → x ∈ xs → map_of xs !! key cl x = Some x.
Proof. intros Hnd Hx. apply elem_of_list_to_map_1; [by rewrite keys_fst|]. apply list_elem_of_fmap. by exists x. Qed.
Lemma map_of_lookup_2 xs k x : map_of xs !! k = Some x → x ∈ xs ∧ key cl x = k.
Proof. intros Hx%elem_of_list_to_map_2. apply list_elem_of_fmap in Hx as (y & [= -> ->] & Hy). done. Qed.
Lemma map_of_none xs k : map_of xs !! k = None ↔ k ∉ key cl <$> xs.
Proof. rewrite -keys_fst. split; [apply not_elem_of_list_to_map_2|apply not_elem_of_list_to_map_1]. Qed.
Lemma map_of_perm xs ys : NoDup (key cl <$> xs) → xs ≡ₚ ys → map_of xs = map_of ys.
Proof. intros Hnd Hp. apply list_to_map_proper; [by rewrite keys_fst|by rewrite Hp]. Qed.
Lemma map_of_cons x xs : map_of (x :: xs) = <[key cl x := x]> (map_of xs).
Proof. done. Qed.
Lemma map_of_size xs : NoDup (key cl <$> xs) → size (map_of xs) = length xs.
Proof.
  induction xs as [|x xs IH]; [intros _; apply map_size_empty|]. rewrite fmap_cons map_of_cons. intros [Hx Hnd]%NoDup_cons.
  rewrite map_size_insert_None ?IH //. by apply map_of_none.
Qed.

Lemma represents_perm bs bs' m : represents bs m → table_ok _ _ cl bs' → concat bs' ≡ₚ concat bs → represents bs' m.
Proof.
  intros (_ & Hnd & ->) Hok Hp. split_and!; [done|by rewrite Hp|symmetry; apply map_of_perm; [by rewrite Hp|done]].
Qed.
Lemma represents_size bs m : represents bs m → size m = length (concat bs).
Proof. intros (_ & Hnd & ->). by apply map_of_size. Qed.
Lemma represents_fuel bs m : represents bs m → (size m < fuel)%nat → Forall (λ xs, length xs < fuel)%nat bs.
Proof.
  intros Hr Hf. rewrite (represents_size _ _ Hr) in Hf. apply Forall_forall. intros xs [i Hi]%list_elem_of_lookup_1.
  destruct (concat_insert bs i xs [] Hi) as (zs & Hp & _). rewrite Hp length_app in Hf. lia.
Qed.

Lemma elem_of_concat (bs : list (list loc)) x : x ∈ concat bs ↔ ∃ i xs, bs !! i = Some xs ∧ x ∈ xs.
Proof.
  rewrite list_elem_of_In in_concat. split.
  - intros (xs & Hxs & Hx). apply list_elem_of_In, list_elem_of_lookup_1 in Hxs as [i Hi]. exists i, xs. by rewrite list_elem_of_In.
  - intros (i & xs & Hi & Hx). exists xs. rewrite -!list_elem_of_In. split; [by eapply list_elem_of_lookup_2|done].
Qed.

(** The bucket of a key has the element of that key, if there is one. *)
Lemma bucket_lookup bs m e ys : represents bs m → bs !! index _ _ cl (length bs) e = Some ys →
  lookup_key _ _ cl e ys = m !! key cl e.
Proof.
  intros ((_ & Hpl) & Hnd & ->) Hys. unfold lookup_key. destruct (filter (λ x, key cl x = key cl e) ys) as [|x zs] eqn:E; cbn [head].
  - symmetry. apply map_of_none. intros (x & Hk & Hx)%list_elem_of_fmap.
    apply elem_of_concat in Hx as (i & xs & Hi & Hx).
    pose proof (Hpl i xs Hi) as Hall. rewrite Forall_forall in Hall. specialize (Hall x Hx).
    unfold index in Hys, Hall. rewrite -(hash_value_key _ _ cl e x Hk) in Hall. rewrite Hall Hi in Hys. injection Hys as ->.
    assert (x ∈ []) as Hnil by (rewrite -E; by apply list_elem_of_filter). by apply elem_of_nil in Hnil.
  - assert (x ∈ x :: zs) as Hx by apply list_elem_of_here. rewrite -E in Hx. apply list_elem_of_filter in Hx as [Hk Hx].
    rewrite -Hk. symmetry. apply map_of_lookup; [done|]. apply elem_of_concat. by eexists _, ys.
Qed.

(** Adding an element at its place, and taking one out. *)
Lemma represents_place bs m e : represents bs m → m !! key cl e = None → represents (place _ _ cl bs e) (<[key cl e := e]> m).
Proof.
  intros ((Hp & Hpl) & Hnd & ->) Hk%map_of_none. pose proof (place_perm _ _ cl bs e Hp) as Hperm. split_and!.
  - split; [by rewrite length_place|by apply placed_place].
  - rewrite Hperm fmap_cons. by constructor.
  - rewrite -map_of_cons. symmetry. apply map_of_perm; [|done]. rewrite Hperm. rewrite fmap_cons. by constructor.
Qed.

Lemma represents_remove bs m i ys x zs : represents bs m → bs !! i = Some (ys ++ x :: zs) →
  represents (<[i := ys ++ zs]> bs) (base.delete (key cl x) m).
Proof.
  intros ((Hp & Hpl) & Hnd & ->) Hi. destruct (concat_insert bs i _ (ys ++ zs) Hi) as (ws & Hp1 & Hp2).
  assert (concat bs ≡ₚ x :: concat (<[i := ys ++ zs]> bs)) as Hperm by by rewrite Hp1 Hp2 -Permutation_middle.
  rewrite Hperm fmap_cons in Hnd. pose proof Hnd as [Hx Hnd']%NoDup_cons. split_and!.
  - split; [by rewrite length_insert|]. apply placed_insert; [done|].
    pose proof (Hpl i _ Hi) as Hall. rewrite Forall_app Forall_cons in Hall. rewrite Forall_app. tauto.
  - done.
  - rewrite (map_of_perm (concat bs) _ _ Hperm); [|by rewrite Hperm]. rewrite map_of_cons delete_insert_id //. by apply map_of_none.
Qed.

(** * The operations on a table *)

(** The table at [h] holds the elements of [m]. *)
Definition hash_table (h : loc) (m : gmap K loc) : hpropI N :=
  (∃ b bs, table _ _ cl h (size m) b bs ∗ ⌈represents bs m⌉)%I.

(** Looking for an element: its bucket, and what [find_elem] finds there. *)
Lemma find_in_table h n b bs m e A (k : ptr → ptr → M (gmap loc N) A) Φ Ψ : represents bs m → (size m < fuel)%nat →
  table _ _ cl h n b bs -∗
  (∀ ys, ⌈bs !! index _ _ cl (length bs) e = Some ys⌉ -∗ table _ _ cl h n b bs -∗
    wp (k (Some (node_at b (index _ _ cl (length bs) e))) (m !! key cl e)) Φ Ψ) -∗
  wp (bucket ← find_bucket code_hash (Some h) (Some e);
      old ← find_elem code_less fuel (Some h) bucket (Some e);
      k bucket old) Φ Ψ.
Proof.
  iIntros (Hr Hf) "(Hh & Hbs & HU) Hk". pose proof (represents_fuel _ _ Hr Hf) as Hfs.
  pose proof Hr as ((Hp & Hpl) & _).
  iApply wp_bind. iApply (hoare_wp_ret _ _ _ _ _ (find_bucket_spec _ _ cl h n (length bs) b e Hp) with "[$Hh $HU]").
  iIntros (r) "(-> & Hh & HU)".
  destruct (lookup_lt_is_Some_2 bs (index _ _ cl (length bs) e)) as [ys Hys]; [by apply index_lt|].
  iDestruct (bucket_lists_acc b bs _ ys Hys with "Hbs") as "[H Hback]".
  assert (length ys < fuel)%nat as Hly by by eapply (Forall_lookup_1 (λ xs, length xs < fuel)%nat).
  iApply wp_bind. iApply (hoare_wp_ret _ _ _ _ _ (find_elem_spec _ _ cl fuel h n (Z.of_nat (length bs)) (Some b) (node_at b (index _ _ cl (length bs) e)) ys e Hly) with "[$H $Hh $HU]").
  iIntros (r) "(-> & H & Hh & HU)". rewrite (bucket_lookup bs m) //.
  iApply ("Hk" with "[//]"). iFrame. iSpecialize ("Hback" with "H"). rewrite list_insert_id //.
Qed.

(** Adding an element to its bucket, and taking one out. *)
Lemma insert_elem_spec h n b bs e : power (length bs) → 0 <= n < 2 ^ 29 →
  ⦃ table _ _ cl h n b bs ∗ elem e ⦄
  insert_elem (Some h) (Some (node_at b (index _ _ cl (length bs) e))) (Some e)
  ⦃ _u, table _ _ cl h (n + 1) b (place _ _ cl bs e) ⦄.
Proof.
  intros Hp Hn. unfold hoare, insert_elem, set_elem_cnt, table. iIntros "((Hh & Hbs & HU) & He)".
  wp_load "Hh". iApply wp_bind. wp_load "Hh". iApply (wp_store with "Hh"). iIntros "Hh". cbn [fields elem_cnt bucket_cnt buckets hash_fn less_fn aux].
  iApply (hoare_wp_ret with "[Hbs He]"); [by apply (push_bucket_spec _ _ cl b bs e)|iFrame|]. iIntros (u) "Hbs".
  rewrite length_place. unfold wrap_u. rewrite Z.mod_small; [|lia]. iFrame.
Qed.

Lemma remove_elem_spec h n b bs i ys x zs : 0 < n < 2 ^ 29 → bs !! i = Some (ys ++ x :: zs) →
  ⦃ table _ _ cl h n b bs ⦄ remove_elem (Some h) (Some x)
  ⦃ _u, table _ _ cl h (n - 1) b (<[i := ys ++ zs]> bs) ∗ elem x ⦄.
Proof.
  intros Hn Hi. unfold hoare, remove_elem, set_elem_cnt, table. iIntros "(Hh & Hbs & HU)".
  wp_load "Hh". iApply wp_bind. wp_load "Hh". iApply (wp_store with "Hh"). iIntros "Hh". cbn [fields elem_cnt bucket_cnt buckets hash_fn less_fn aux].
  iDestruct (bucket_lists_acc b bs i _ Hi with "Hbs") as "[H Hback]".
  iApply wp_bind. iApply (hoare_wp_ret with "H"); [apply (list_remove_at (node_at b i) ys x zs)|]. iIntros (r) "(_ & H & Hx)". iApply wp_ret.
  rewrite length_insert. unfold wrap_u. rewrite Z.mod_small; [|lia]. iFrame. by iApply "Hback".
Qed.

Lemma rehash_table h b bs m : (size m < fuel)%nat → Z.of_nat (size m) < 2 ^ 29 → represents bs m →
  ⦃ table _ _ cl h (size m) b bs ⦄ rehash code_hash garbage fuel (Some h) ⦃ _u, hash_table h m ⦄.
Proof.
  intros Hf Hn Hr. eapply hoare_conseq; [apply (rehash_spec _ _ cl garbage fuel h (size m) b bs); [lia|apply Hr|by eapply represents_fuel]|done| |done].
  intros u. iIntros "(%b' & %bs' & H & %Hbs')". destruct Hbs' as [Hok Hperm]. iExists b', bs'. iFrame. iPureIntro.
  by eapply represents_perm.
Qed.

(** What is found is in the bucket. *)
Lemma found_in_bucket bs m e ys x : represents bs m → bs !! index _ _ cl (length bs) e = Some ys → m !! key cl e = Some x →
  key cl x = key cl e ∧ ∃ y z, ys = y ++ x :: z.
Proof.
  intros Hr Hys Hx. rewrite -(bucket_lookup bs m e ys Hr Hys) in Hx. unfold lookup_key in Hx.
  apply head_Some_elem_of, list_elem_of_filter in Hx as [Hk Hx]. split; [done|]. by apply list_elem_of_split.
Qed.

Lemma hash_find_spec h m e : (size m < fuel)%nat →
  ⦃ hash_table h m ⦄ hash_find code_hash code_less fuel (Some h) (Some e) ⦃ r, ⌈r = m !! key cl e⌉ ∗ hash_table h m ⦄.
Proof.
  intros Hf. unfold hoare, hash_find. iIntros "(%b & %bs & H & %Hr)".
  iApply (wp_equiv _ _ _ _ (symmetry (M_bind_ret_r _))). iApply (wp_equiv _ _ _ _ (M_bind_assoc _ _ _)).
  iApply (find_in_table h _ b bs m e _ (λ _ old, mret old) with "H"); [done..|]. iIntros (ys Hys) "H".
  iApply wp_ret. iSplit; [done|]. iExists b, bs. by iFrame.
Qed.

Lemma hash_insert_spec h m e : (S (size m) < fuel)%nat → Z.of_nat (size m) + 1 < 2 ^ 29 →
  ⦃ hash_table h m ∗ elem e ⦄ hash_insert code_hash code_less garbage fuel (Some h) (Some e)
  ⦃ r, ⌈r = m !! key cl e⌉ ∗
       if m !! key cl e then hash_table h m ∗ elem e else hash_table h (<[key cl e := e]> m) ⦄.
Proof.
  intros Hf Hn. unfold hoare, hash_insert. iIntros "[(%b & %bs & H & %Hr) He]". pose proof Hr as ((Hp & _) & _).
  iApply (find_in_table h _ b bs m e _ (λ bucket old, _) with "H"); [done|lia|]. iIntros (ys Hys) "H".
  destruct (m !! key cl e) as [x|] eqn:Hm; [rewrite bool_decide_false //|rewrite bool_decide_true //].
  - wp_finish. iApply wp_bind. iApply (hoare_wp_ret with "H"); [apply rehash_table; (done || lia)|]. iIntros (u) "H". iApply wp_ret. by iFrame.
  - assert (0 <= Z.of_nat (size m) < 2 ^ 29) as Hn' by lia. iApply wp_bind. iApply (hoare_wp_ret _ _ _ _ _ (insert_elem_spec h (size m) b bs e Hp Hn') with "[$H $He]"). iIntros (u) "H".
    assert (Z.of_nat (size m) + 1 = Z.of_nat (size (<[key cl e := e]> m))) as -> by (rewrite map_size_insert_None //; lia).
    iApply wp_bind. iApply (hoare_wp_ret with "H"); [apply rehash_table; [rewrite map_size_insert_None //|rewrite map_size_insert_None //; lia|by apply represents_place]|].
    iIntros (u') "H". iApply wp_ret. by iFrame.
Qed.

(** Taking the element that was found out of the table. *)
Lemma remove_found_spec h b bs m e ys x : represents bs m → Z.of_nat (size m) < 2 ^ 29 →
  bs !! index _ _ cl (length bs) e = Some ys → m !! key cl e = Some x →
  ⦃ table _ _ cl h (size m) b bs ⦄ remove_elem (Some h) (Some x)
  ⦃ _u, (∃ bs', table _ _ cl h (size (base.delete (key cl e) m)) b bs' ∗
           ⌈represents bs' (base.delete (key cl e) m) ∧ length bs' = length bs⌉) ∗ elem x ⦄.
Proof.
  intros Hr Hn Hys Hx. destruct (found_in_bucket bs m e ys x Hr Hys Hx) as (Hk & y & z & ->).
  pose proof (map_size_delete_Some (key cl e) m (mk_is_Some _ _ Hx)) as Hsize.
  assert (size m ≠ 0%nat) as Hne by (intros ->%map_size_empty_iff; by rewrite lookup_empty in Hx).
  assert (0 < Z.of_nat (size m) < 2 ^ 29) as Hn' by lia.
  unfold hoare. iIntros "H". iApply (hoare_wp_ret with "H"); [by eapply (remove_elem_spec h _ b bs _ y x z)|].
  iIntros (u) "[H $]". iExists _. rewrite Hsize. replace (Z.of_nat (Nat.pred (size m))) with (Z.of_nat (size m) - 1) by lia. iFrame "H".
  iPureIntro. split; [rewrite -Hk; by eapply represents_remove|apply length_insert].
Qed.

Lemma hash_delete_spec h m e : (size m < fuel)%nat → Z.of_nat (size m) < 2 ^ 29 →
  ⦃ hash_table h m ⦄ hash_delete code_hash code_less garbage fuel (Some h) (Some e)
  ⦃ r, ⌈r = m !! key cl e⌉ ∗ hash_table h (base.delete (key cl e) m) ∗ if m !! key cl e is Some x then elem x else emp ⦄.
Proof.
  intros Hf Hn. unfold hoare, hash_delete. iIntros "(%b & %bs & H & %Hr)".
  iApply (find_in_table h _ b bs m e _ (λ bucket old, _) with "H"); [done..|]. iIntros (ys Hys) "H".
  destruct (m !! key cl e) as [x|] eqn:Hm; [rewrite bool_decide_true //|rewrite bool_decide_false //; [|tauto]].
  - wp_focus. iApply (hoare_wp_ret with "H"); [by apply (remove_found_spec h b bs m e ys x)|].
    iIntros (u) "[(%bs' & H & %Hbs') Hx]". destruct Hbs' as [Hr' _].
    pose proof (map_size_delete_Some (key cl e) m (mk_is_Some _ _ Hm)) as Hsize.
    iApply (hoare_wp_ret with "H"); [apply rehash_table; (done || lia)|]. iIntros (u') "H". iApply wp_ret. by iFrame.
  - wp_finish. rewrite delete_id //. iSplit; [done|]. iSplitL; [|done]. iExists b, bs. by iFrame.
Qed.

Lemma hash_replace_spec h m e : (S (size m) < fuel)%nat → Z.of_nat (size m) + 1 < 2 ^ 29 →
  ⦃ hash_table h m ∗ elem e ⦄ hash_replace code_hash code_less garbage fuel (Some h) (Some e)
  ⦃ r, ⌈r = m !! key cl e⌉ ∗ hash_table h (<[key cl e := e]> m) ∗ if m !! key cl e is Some x then elem x else emp ⦄.
Proof.
  intros Hf Hn. unfold hoare, hash_replace. iIntros "[(%b & %bs & H & %Hr) He]". pose proof Hr as ((Hp & _) & _).
  iApply (find_in_table h _ b bs m e _ (λ bucket old, _) with "H"); [done|lia|]. iIntros (ys Hys) "H".
  iApply wp_bind. iApply (wp_wand _ (λ _, (∃ bs', table _ _ cl h (size (base.delete (key cl e) m)) b bs' ∗
      ⌈represents bs' (base.delete (key cl e) m) ∧ length bs' = length bs⌉) ∗ if m !! key cl e is Some x then elem x else emp)%I
    (λ _, False)%I with "[H]").
  { destruct (m !! key cl e) as [x|] eqn:Hm; [rewrite bool_decide_true //|rewrite bool_decide_false //; [|tauto]].
    - iApply (hoare_wp_ret with "H"); [apply (remove_found_spec h b bs m e ys x); (done || lia)|]. iIntros (u) "$".
    - iApply wp_ret. rewrite delete_id //. iSplitL; [|done]. iExists bs. by iFrame. }
  iSplit; [|by iIntros (ex) "[]"]. iIntros (u) "[(%bs' & H & %Hbs') Hx]". destruct Hbs' as [Hr' Hlen].
  set (m' := base.delete (key cl e) m) in *.
  assert (m' !! key cl e = None) as Hm' by apply lookup_delete_eq.
  assert (size m' <= size m)%nat as Hle by (unfold m'; rewrite map_size_delete; destruct (m !! key cl e); simpl; lia).
  assert (0 <= Z.of_nat (size m') < 2 ^ 29) as Hn' by lia. rewrite -Hlen. rewrite -Hlen in Hp.
  iApply wp_bind. iApply (hoare_wp_ret _ _ _ _ _ (insert_elem_spec h (size m') b bs' e Hp Hn') with "[$H $He]"). iIntros (u') "H".
  assert (Z.of_nat (size m') + 1 = Z.of_nat (size (<[key cl e := e]> m'))) as -> by (rewrite map_size_insert_None //; lia).
  iApply wp_bind. iApply (hoare_wp_ret with "H"); [apply rehash_table; [rewrite map_size_insert_None //; lia|rewrite map_size_insert_None //; lia|by apply represents_place]|].
  iIntros (u'') "H". iApply wp_ret. iSplit; [done|]. unfold m'. rewrite insert_delete_eq. iFrame.
Qed.

Lemma hash_size_spec h m : ⦃ hash_table h m ⦄ hash_size (Some h) ⦃ r, ⌈r = Z.of_nat (size m)⌉ ∗ hash_table h m ⦄.
Proof.
  unfold hoare, hash_size. iIntros "(%b & %bs & (Hh & H) & %Hr)". wp_load "Hh". iSplit; [done|]. iExists b, bs. by iFrame.
Qed.
Lemma hash_empty_spec h m : ⦃ hash_table h m ⦄ hash_empty (Some h) ⦃ r, ⌈r = bool_decide (m = ∅)⌉ ∗ hash_table h m ⦄.
Proof.
  unfold hoare, hash_empty. iIntros "(%b & %bs & (Hh & H) & %Hr)". wp_load "Hh". cbn [fields elem_cnt].
  iSplit; [|iExists b, bs; by iFrame]. iPureIntro. apply bool_decide_ext. rewrite -(map_size_empty_iff m). lia.
Qed.

(** * Clearing *)

(** The loop over the buckets: [P i] is bucket [i] before, [R i] what the destructor leaves. *)
Lemma hash_clear_loop h n nb b d (P R : nat → hpropI N) :
  (∀ i, (i < nb)%nat →
    ⦃ P i ∗ h ↦ fields _ _ cl n (Z.of_nat nb) (Some b) ∗ user cl ⦄
    (if is_fn d then
       loop fuel (λ _,
         empty ← list_empty (Some (node_at b i));
         if negb (empty : bool) then
           hash_elem ← list_pop_front (Some (node_at b i));
           t ← load (Some h); call d (hash_elem, aux t);; mret (inl tt)
         else mret (inr tt)) tt
     else mret tt)
    ⦃ _u, raw_list (node_at b i) ∗ R i ∗ h ↦ fields _ _ cl n (Z.of_nat nb) (Some b) ∗ user cl ⦄) →
  ⦃ ([∗ list] i ∈ seq 0 nb, P i) ∗ h ↦ fields _ _ cl n (Z.of_nat nb) (Some b) ∗ user cl ⦄
  hash_clear fuel (Some h) d
  ⦃ _u, ([∗ list] i ∈ seq 0 nb, R i) ∗ table _ _ cl h 0 b (replicate nb []) ⦄.
Proof.
  intros Hbody. unfold hoare, hash_clear, table. iIntros "(HP & Hh & HU)". wp_load "Hh".
  cbn [fields bucket_cnt buckets].
  iApply wp_bind. iApply (hoare_wp_ret with "[HP Hh HU]");
    [apply (for_buckets_spec nb _ (λ i, ([∗ list] j ∈ seq 0 i, is_list (node_at b j) [] ∗ R j) ∗ ([∗ list] j ∈ seq i (nb - i), P j) ∗
       h ↦ fields _ _ cl n (Z.of_nat nb) (Some b) ∗ user cl)%I)| |].
  - intros i Hi. unfold hoare. iIntros "(Hdone & HP & Hh & HU)". replace (nb - i)%nat with (S (nb - S i)) by lia. cbn [seq big_opL].
    iDestruct "HP" as "[Hi HP]". wp_load "Hh". cbn [fields buckets]. iApply wp_bind. iApply wp_bucket_addr.
    iApply wp_bind. iApply (hoare_wp_ret _ _ _ _ _ (Hbody i Hi) with "[$Hi $Hh $HU]"). iIntros (u) "(Hi & HR & Hh & HU)".
    iApply (hoare_wp_ret _ _ _ _ _ (list_init_spec (node_at b i)) with "Hi"). iIntros (u') "Hi". iSplitL "Hdone Hi HR"; [|iFrame].
    iApply (sep_seq_snoc (λ j, is_list (node_at b j) [] ∗ R j)%I with "Hdone"). iFrame.
  - rewrite Nat.sub_0_r. iFrame. done.
  - iIntros (u) "(H & HP & Hh & HU)". rewrite Nat.sub_diag. cbn [seq big_opL]. iClear "HP". rewrite big_sepL_sep -empty_lists. iDestruct "H" as "[H HR]". unfold set_elem_cnt.
    wp_load "Hh". iApply (wp_store with "Hh"). iIntros "Hh". rewrite length_replicate. iFrame.
Qed.

Lemma represents_empty nb : power nb → represents (replicate nb []) ∅.
Proof.
  intros Hp. split_and!; [split; [by rewrite length_replicate|apply placed_empty]|..]; rewrite concat_empty; [constructor|done].
Qed.

(** What a destructor, or no destructor, makes of an element. *)
Definition destroys (d : option (ptr * ptr → M (gmap loc N) unit)) (Q : loc → hpropI N) : Prop :=
  match d with
  | Some _ => ∀ x, ⦃ elem x ∗ user cl ⦄ call d (Some x, client_aux cl) ⦃ _u, Q x ∗ user cl ⦄
  | None => ∀ x, elem x ⊢ Q x
  end.

Lemma clear_bucket_spec h t l d Q xs : destroys d Q → aux t = client_aux cl → (length xs < fuel)%nat →
  ⦃ is_list l xs ∗ h ↦ t ∗ user cl ⦄
  (if is_fn d then
     loop fuel (λ _,
       empty ← list_empty (Some l);
       if negb (empty : bool) then
         hash_elem ← list_pop_front (Some l);
         t ← load (Some h); call d (hash_elem, aux t);; mret (inl tt)
       else mret (inr tt)) tt
   else mret tt)
  ⦃ _u, raw_list l ∗ ([∗ list] x ∈ xs, Q x) ∗ h ↦ t ∗ user cl ⦄.
Proof.
  intros Hd Haux Hf. unfold hoare. iIntros "(H & Hh & HU)". destruct d as [d|]; cbn [is_fn].
  - iInduction fuel as [|fuel'] "IH" forall (xs Hf); [lia|]. iApply wp_loop. iApply wp_bind. iApply (wp_list_empty with "H"). iIntros "H".
    destruct xs as [|x xs]; cbn [bool_decide decide negb].
    + rewrite bool_decide_true //. cbn [negb]. iApply wp_ret. iApply wp_ret. iFrame.
      iDestruct (is_list_elems with "H") as "[$ $]".
    + rewrite bool_decide_false //. cbn [negb]. wp_focus.
      iApply (hoare_wp with "H"); [apply list_pop_front_spec|]. iSplit; [|by iIntros (e) "[[%Hnil _] _]"].
      iIntros (r) "(%y & %ys & %Hr & H & Hy)". destruct Hr as [[= <- <-] ->].
      wp_load "Hh". rewrite Haux. iApply wp_bind. iApply (hoare_wp_ret _ _ _ _ _ (Hd x) with "[$Hy $HU]"). iIntros (u) "[HQ HU]".
      iApply wp_ret. iApply (wp_wand with "[H Hh HU]"); [iApply ("IH" with "[%] H Hh HU"); simpl in Hf; lia|].
      iSplit; [|by iIntros (e) "[]"]. iIntros (u') "($ & $ & $ & $)". iFrame.
  - iApply wp_ret. iDestruct (is_list_elems with "H") as "[$ H]". iFrame. iApply (big_sepL_impl with "H"). iIntros "!>" (k x _) "H". by iApply Hd.
Qed.

Lemma hash_clear_spec h n b bs d Q : destroys d Q → Forall (λ xs, length xs < fuel)%nat bs →
  ⦃ table _ _ cl h n b bs ⦄ hash_clear fuel (Some h) d
  ⦃ _u, ([∗ list] x ∈ concat bs, Q x) ∗ table _ _ cl h 0 b (replicate (length bs) []) ⦄.
Proof.
  intros Hd Hf. unfold hoare, table at 1, bucket_lists. iIntros "(Hh & Hbs & HU)". rewrite sep_of_seq.
  iApply (hoare_wp_ret with "[Hbs Hh HU]");
    [apply (hash_clear_loop h n (length bs) b d (λ i, is_list (node_at b i) (bs !!! i)) (λ i, [∗ list] x ∈ bs !!! i, Q x)%I)|iFrame|].
  - intros i Hi. apply clear_bucket_spec; [done|done|]. eapply (Forall_lookup_1 (λ xs, length xs < fuel)%nat); [done|].
    by apply list_lookup_lookup_total_lt.
  - iIntros (u) "[H $]". by rewrite -(sep_of_seq (λ _ xs, [∗ list] x ∈ xs, Q x)%I bs) sep_concat.
Qed.

Lemma hash_clear_table h m d Q : destroys d Q → (size m < fuel)%nat →
  ⦃ hash_table h m ⦄ hash_clear fuel (Some h) d ⦃ _u, ([∗ map] x ∈ m, Q x) ∗ hash_table h ∅ ⦄.
Proof.
  intros Hd Hf. unfold hoare. iIntros "(%b & %bs & H & %Hr)". pose proof (represents_fuel _ _ Hr Hf) as Hfs.
  iApply (hoare_wp_ret with "H"); [by apply hash_clear_spec|]. iIntros (u) "[HQ H]". destruct Hr as ((Hp & _) & Hnd & ->).
  iSplitL "HQ".
  - unfold map_of. rewrite big_sepM_list_to_map; [|by rewrite keys_fst]. by rewrite big_sepL_fmap.
  - iExists b, _. rewrite map_size_empty. iFrame "H". iPureIntro. by apply represents_empty.
Qed.

(** [hash_destroy] frees the buckets; without a destructor the elements stay as they are. *)
Lemma hash_destroy_spec h m d Q : destroys d Q → (size m < fuel)%nat →
  ⦃ hash_table h m ⦄ hash_destroy fuel (Some h) d ⦃ _u, ([∗ map] x ∈ m, Q x) ∗ (∃ t : hash, h ↦ t) ∗ user cl ⦄.
Proof.
  intros Hd Hf. unfold hoare, hash_destroy. iIntros "H".
  iApply wp_bind. iApply (wp_wand _ (λ _, ∃ n b bs, table _ _ cl h n b bs ∗
    (([∗ list] x ∈ concat bs, elem x) -∗ [∗ map] x ∈ m, Q x))%I (λ _, False)%I with "[H]").
  { destruct d as [d|]; cbn [is_fn].
    - iApply (hoare_wp_ret with "H"); [by apply (hash_clear_table h m (Some d) Q)|]. iIntros (u) "[HQ (%b & %bs & H & %Hr)]".
      iExists _, b, bs. iFrame "H". iIntros "H". destruct (concat bs) as [|x xs] eqn:E; [done|].
      pose proof (represents_size _ _ Hr) as Hs. by rewrite E map_size_empty in Hs.
    - iDestruct "H" as (b bs) "[H %Hr]". destruct Hr as (_ & Hnd & ->). iApply wp_ret. iExists _, b, bs. iFrame "H". iIntros "H".
      unfold map_of. rewrite big_sepM_list_to_map; [|by rewrite keys_fst]. rewrite big_sepL_fmap.
      iApply (big_sepL_impl with "H"). iIntros "!>" (k x _) "H". by iApply Hd. }
  iSplit; [|by iIntros (e) "[]"]. iIntros (u) "(%n & %b & %bs & (Hh & Hbs & HU) & HQ)".
  wp_load "Hh". cbn [fields buckets bucket_cnt]. iDestruct (bucket_lists_elems with "Hbs") as "[Hbs Helems]".
  iApply (hoare_wp_ret with "Hbs"); [apply free_lists_spec|]. iIntros (u') "_". iSplitL "HQ Helems"; [by iApply "HQ"|].
  iFrame.
Qed.

(** [hash_init] fails when there is no memory for four lists. *)
Lemma hash_init_spec h (t : hash) :
  ⦃ h ↦ t ∗ user cl ⦄
  hash_init garbage fuel (Some h) (client_hash cl) (client_less cl) (client_aux cl)
  ⦃ r, if (r : bool) then hash_table h ∅ else h ↦ fields _ _ cl 0 4 NULL ∗ user cl ⦄.
Proof.
  unfold hoare, hash_init. iIntros "[Hh HU]". wp_load "Hh".
  iApply wp_bind. iApply (hoare_wp_ret with "[]"); [apply (malloc_lists_spec garbage 4); unfold sizeof_list; lia|done|].
  iIntros (r) "[-> | (%b & -> & Hraw)]"; wp_store "Hh"; [rewrite bool_decide_false; [|tauto]|rewrite bool_decide_true //].
  { iApply wp_ret. iFrame. }
  iApply wp_bind. iApply (hoare_wp_ret with "[Hraw Hh HU]");
    [apply (hash_clear_loop h 0 4 b None (λ i, raw_list (node_at b i)) (λ _, emp)%I)|iFrame|].
  - intros i Hi. unfold hoare. iIntros "(H & Hh & HU)". iApply wp_ret. iFrame.
  - iIntros (u) "[_ H]". iApply wp_ret. iExists b, _. rewrite map_size_empty. iFrame "H". iPureIntro. apply represents_empty.
    exists 2. split; [lia|done].
Qed.
End hash_map.

(** * Sequences of operations *)

Inductive hcmd := HInsert (x : loc) | HReplace (x : loc) | HFind (x : loc) | HDelete (x : loc) | HSize | HEmpty.
Inductive hanswer := HElem (p : ptr) | HNum (n : Z) | HBool (b : bool).

Section commands.
Context {N : Type} `{!Struct ptr N, !Struct hash N, !BlockMalloc}.
Context (code_hash : ptr → option (ptr * ptr → M (gmap loc N) Z)).
Context (code_less : ptr → option (ptr * ptr * ptr → M (gmap loc N) bool)).
Context {K : Type} `{Countable K} (cl : hash_client (K := K) code_hash code_less).
Context (garbage : ptr) (fuel : nat).

Definition run_hcmd (h : ptr) (c : hcmd) : M (gmap loc N) hanswer :=
  match c with
  | HInsert x => HElem <$> hash_insert code_hash code_less garbage fuel h (Some x)
  | HReplace x => HElem <$> hash_replace code_hash code_less garbage fuel h (Some x)
  | HFind x => HElem <$> hash_find code_hash code_less fuel h (Some x)
  | HDelete x => HElem <$> hash_delete code_hash code_less garbage fuel h (Some x)
  | HSize => HNum <$> hash_size h
  | HEmpty => HBool <$> hash_empty h
  end.
Fixpoint run_hcmds (h : ptr) (cs : list hcmd) : M (gmap loc N) (list hanswer) :=
  match cs with
  | [] => mret []
  | c :: cs => r ← run_hcmd h c; rs ← run_hcmds h cs; mret (r :: rs)
  end.

(** The same on a finite map and the set of elements that are not in the table: only
    those may be inserted. *)
Definition release (p : ptr) (free : gset loc) : gset loc := match p with Some x => {[x]} ∪ free | None => free end.
Definition abs_hcmd (c : hcmd) (m : gmap K loc) (free : gset loc) : option (hanswer * gmap K loc * gset loc) :=
  match c with
  | HInsert x =>
      if decide (x ∈ free) then
        Some (if m !! key cl x is Some y then (HElem (Some y), m, free) else (HElem NULL, <[key cl x := x]> m, free ∖ {[x]}))
      else None
  | HReplace x =>
      if decide (x ∈ free) then Some (HElem (m !! key cl x), <[key cl x := x]> m, release (m !! key cl x) (free ∖ {[x]})) else None
  | HFind x => Some (HElem (m !! key cl x), m, free)
  | HDelete x => Some (HElem (m !! key cl x), base.delete (key cl x) m, release (m !! key cl x) free)
  | HSize => Some (HNum (Z.of_nat (size m)), m, free)
  | HEmpty => Some (HBool (bool_decide (m = ∅)), m, free)
  end.
Fixpoint abs_hcmds (cs : list hcmd) (m : gmap K loc) (free : gset loc) : option (list hanswer * gmap K loc * gset loc) :=
  match cs with
  | [] => Some ([], m, free)
  | c :: cs =>
      '(r, m, free) ← abs_hcmd c m free;
      '(rs, m, free) ← abs_hcmds cs m free;
      Some (r :: rs, m, free)
  end.

Definition free_elems (free : gset loc) : hpropI N := ([∗ set] x ∈ free, elem x)%I.

Lemma release_elem p free : (if p is Some x then elem x else emp) -∗ free_elems free -∗ free_elems (release p free).
Proof. destruct p as [x|]; [apply elem_free|]. iIntros "_ $". Qed.

Lemma abs_hcmd_size c m free r m' free' : abs_hcmd c m free = Some (r, m', free') → (size m' <= S (size m))%nat.
Proof.
  destruct c as [x|x|x|x| |]; simpl; try case_decide; intros Hc; simplify_eq; try lia.
  - destruct (m !! key cl x) eqn:E; simplify_eq; [lia|]. rewrite map_size_insert E. lia.
  - rewrite map_size_insert. destruct (m !! key cl x); simpl; lia.
  - rewrite map_size_delete. destruct (m !! key cl x); simpl; lia.
Qed.

Lemma run_hcmd_spec h c m free r m' free' :
  (S (size m) < fuel)%nat → Z.of_nat (size m) + 1 < 2 ^ 29 → abs_hcmd c m free = Some (r, m', free') →
  ⦃ hash_table _ _ cl h m ∗ free_elems free ⦄ run_hcmd (Some h) c
  ⦃ r', ⌈r' = r⌉ ∗ hash_table _ _ cl h m' ∗ free_elems free' ⦄.
Proof.
  intros Hf Hn Habs. unfold hoare. iIntros "[H Hfree]".
  destruct c as [x|x|x|x| |]; cbn [abs_hcmd run_hcmd] in *;
    [destruct (decide (x ∈ free)) as [Hx|]; [|done]..| | | |]; simplify_eq; iApply wp_fmap.
  - unfold free_elems at 1. rewrite (big_sepS_delete _ free x) //. iDestruct "Hfree" as "[Hx Hfree]".
    iApply (hoare_wp_ret _ _ _ _ _ (hash_insert_spec _ _ cl garbage fuel h m x Hf Hn) with "[$H $Hx]"). iIntros (p) "[-> H]".
    destruct (m !! key cl x); simplify_eq; [|by iFrame].
    iDestruct "H" as "[$ Hx]". iSplit; [done|]. unfold free_elems. rewrite (big_sepS_delete _ free' x) //. iFrame.
  - unfold free_elems at 1. rewrite (big_sepS_delete _ free x) //. iDestruct "Hfree" as "[Hx Hfree]".
    iApply (hoare_wp_ret _ _ _ _ _ (hash_replace_spec _ _ cl garbage fuel h m x Hf Hn) with "[$H $Hx]"). iIntros (p) "(-> & $ & Hp)".
    iSplit; [done|]. iApply (release_elem with "Hp"). iFrame.
  - iApply (hoare_wp_ret with "H"); [apply hash_find_spec; lia|]. iIntros (p) "[-> $]". by iFrame.
  - iApply (hoare_wp_ret with "H"); [apply (hash_delete_spec _ _ cl garbage); lia|]. iIntros (p) "(-> & $ & Hp)".
    iSplit; [done|]. iApply (release_elem with "Hp Hfree").
  - iApply (hoare_wp_ret with "H"); [apply hash_size_spec|]. iIntros (p) "[-> $]". by iFrame.
  - iApply (hoare_wp_ret with "H"); [apply hash_empty_spec|]. iIntros (p) "[-> $]". by iFrame.
Qed.

Lemma run_hcmds_spec h cs m free rs m' free' :
  (size m + length cs < fuel)%nat → Z.of_nat (size m + length cs) < 2 ^ 29 → abs_hcmds cs m free = Some (rs, m', free') →
  ⦃ hash_table _ _ cl h m ∗ free_elems free ⦄ run_hcmds (Some h) cs
  ⦃ r', ⌈r' = rs⌉ ∗ hash_table _ _ cl h m' ∗ free_elems free' ⦄.
Proof.
  unfold hoare. revert m free rs. induction cs as [|c cs IH]; intros m free rs Hf Hn Habs; simpl in *; simplify_eq; iIntros "H".
  { iApply wp_ret. by iFrame. }
  destruct (abs_hcmd c m free) as [[[r m1] free1]|] eqn:Hc; [|done]. simpl in Habs.
  destruct (abs_hcmds cs m1 free1) as [[[rs1 m2] free2]|] eqn:Hcs; simplify_eq/=.
  pose proof (abs_hcmd_size _ _ _ _ _ _ Hc).
  iApply wp_bind. iApply (hoare_wp_ret with "H"); [eapply run_hcmd_spec; [| |exact Hc]; lia|].
  iIntros (r') "[-> H]". iApply wp_bind. iApply (hoare_wp_ret with "H"); [apply (IH m1 free1 rs1); (done || lia)|].
  iIntros (rs') "[-> H]". iApply wp_ret. by iFrame.
Qed.

(** C16: a new hash table, whatever the hash values of the keys are and whether or not
    there is memory when it is to have more or fewer buckets, behaves as a finite
    map from keys to elements: any sequence of insertions, replacements, searches
    and deletions returns the elements that it returns on the map, and leaves the
    map's elements in the table; the only failure is that [hash_init] returns
    [false]. *)
Theorem hash_refines_map h (t : hash) cs free rs m' free' :
  (length cs < fuel)%nat → Z.of_nat (length cs) < 2 ^ 29 → abs_hcmds cs ∅ free = Some (rs, m', free') →
  ⦃ h ↦ t ∗ user cl ∗ free_elems free ⦄
  (ok ← hash_init garbage fuel (Some h) (client_hash cl) (client_less cl) (client_aux cl);
   if (ok : bool) then Some <$> run_hcmds (Some h) cs else mret None)
  ⦃ r, match r with
       | Some rs' => ⌈rs' = rs⌉ ∗ hash_table _ _ cl h m' ∗ free_elems free'
       | None => h ↦ fields _ _ cl 0 4 NULL ∗ user cl ∗ free_elems free
       end ⦄.
Proof.
  intros Hf Hn Habs. unfold hoare. iIntros "(Hh & HU & Hfree)".
  iApply wp_bind. iApply (hoare_wp_ret _ _ _ _ _ (hash_init_spec _ _ cl garbage fuel h t) with "[$Hh $HU]"). iIntros ([]) "H".
  - iApply wp_fmap. iApply (hoare_wp_ret with "[H Hfree]");
      [apply (run_hcmds_spec h cs ∅ free rs); rewrite ?map_size_empty; done|iFrame|]. iIntros (rs') "$".
  - iApply wp_ret. iDestruct "H" as "[$ $]". iFrame.
Qed.
End commands.

(** * A client *)

(** Elements that have the same address but for the four lowest bits have the same
    key; the functions are at the addresses 1 and 2. *)
Definition sample_key (x : loc) : Z := Z.pos x / 16.
Definition sample_hash {N} : ptr → option (ptr * ptr → M (gmap loc N) Z) :=
  λ f, if bool_decide (f = Some 1%positive) then Some (λ '(e, _), mret (wrap_u 32 (from_option sample_key 0 e * 2654435761))) else None.
Definition sample_less {N} : ptr → option (ptr * ptr * ptr → M (gmap loc N) bool) :=
  λ f, if bool_decide (f = Some 2%positive)
       then Some (λ '(a, b, _), mret (bool_decide (from_option sample_key 0 a < from_option sample_key 0 b))) else None.
Definition sample_client {N} : hash_client (N := N) (K := Z) sample_hash sample_less.
Proof.
  refine {| client_hash := Some 1%positive; client_less := Some 2%positive; client_aux := NULL; key := sample_key;
    hash_value x := wrap_u 32 (sample_key x * 2654435761); less_value a b := bool_decide (sample_key a < sample_key b);
    user := emp%I |}.
  - intros e. unfold hoare, sample_hash. rewrite bool_decide_true //. iIntros "_". by iApply wp_ret.
  - intros a b. unfold hoare, sample_less. rewrite bool_decide_true //. iIntros "_". by iApply wp_ret.
  - intros e. apply Z.mod_pos_bound. lia.
  - by intros a b ->.
  - intros a b. repeat case_bool_decide; cbn [negb andb]; split; (done || lia).
Defined.

Lemma hash_refines_map_witness :
  ⦃ 900%positive ↦ Hash 0 0 NULL NULL NULL NULL ∗ user sample_client ∗ free_elems (N := ptr + hash) {[100; 101; 200]}%positive ⦄
  (ok ← hash_init (H := next_fit) NULL 8 (Some 900%positive) (Some 1%positive) (Some 2%positive) NULL;
   if (ok : bool) then Some <$> run_hcmds (H := next_fit) sample_hash sample_less NULL 8 (Some 900%positive)
     [HInsert 100; HInsert 101; HReplace 101; HFind 100; HDelete 200; HSize]%positive
   else mret None)
  ⦃ r, match r with
       | Some rs => ⌈rs = [HElem NULL; HElem (Some 100%positive); HElem (Some 100%positive); HElem (Some 101%positive); HElem NULL; HNum 1]⌉ ∗
           hash_table _ _ sample_client 900 {[6 := 101%positive]} ∗ free_elems {[100; 200]}%positive
       | None => 900%positive ↦ fields (N := ptr + hash) _ _ sample_client 0 4 NULL ∗ user sample_client ∗ free_elems {[100; 101; 200]}%positive
       end ⦄.
Proof.
  apply (hash_refines_map (H := next_fit) _ _ sample_client NULL 8 900 _
    [HInsert 100; HInsert 101; HReplace 101; HFind 100; HDelete 200; HSize]%positive); [simpl; lia|simpl; lia|by vm_compute].
Defined.

(** Forty elements with different keys: the table grows, and shrinks again. *)
Example hash_run :
  match (hash_init (H := next_fit) NULL 50 (Some 2%positive) (Some 1%positive) (Some 2%positive) NULL;;
         run_hcmds (H := next_fit) sample_hash sample_less NULL 50 (Some 2%positive) ((λ i, HInsert (Pos.of_nat (16 * i))) <$> seq 1 40);;
         t ← load (T := hash) (Some 2%positive);
         rs ← run_hcmds (H := next_fit) sample_hash sample_less NULL 50 (Some 2%positive)
           (((λ i, HDelete (Pos.of_nat (16 * i + 1))) <$> seq 1 37) ++ [HFind (Pos.of_nat (16 * 39)); HSize]);
         t' ← load (T := hash) (Some 2%positive);
         mret (bucket_cnt t, bucket_cnt t', drop 36 rs))
    (<[2%positive := inr (Hash 0 0 NULL NULL NULL NULL)]>
      (gset_to_gmap (inl NULL) (list_to_set (seq 1 40 ≫= λ i, [Pos.of_nat (32 * i); Pos.of_nat (32 * i + 1)])))) with
  | Ret r _ => r | _ => (0, 0, [])
  end = (16, 4, [HElem (Some 592%positive); HElem (Some 624%positive); HNum 3]).
Proof. vm_compute. done. Qed.
