(* ===== verification/PintosHashIter.v ===== *)
(** Going over the elements of a hash table of src/bin/OS/pintos/src/lib/kernel/hash.c:
    [hash_apply], and iterators in the idiom that the comment of [hash_first] gives. *)
From S2P Require Export PintosHashMap.
Local Open Scope Z_scope.

Lemma elements_perm {N K} `{Countable K} code_hash code_less (cl : hash_client (N := N) (K := K) code_hash code_less) xs :
  NoDup (key cl <$> xs) → xs ≡ₚ (map_to_list (map_of _ _ cl xs)).*2.
Proof.
  intros Hnd. unfold map_of. rewrite map_to_list_to_map; [|by rewrite keys_fst]. rewrite -list_fmap_compose. clear.
  induction xs as [|x xs IH]; [done|]. by rewrite fmap_cons -IH.
Qed.

(** The elements of a table, each of them once. *)
Definition enumerates `{Countable K} (m : gmap K loc) (xs : list loc) : Prop := xs ≡ₚ (map_to_list m).*2.

(** * Iterators *)

Section iterators.
Context {N : Type} `{!Struct ptr N, !Struct hash N, !Struct hash_iterator N, !BlockMalloc}.
Context (code_hash : ptr → option (ptr * ptr → M (gmap loc N) Z)).
Context (code_less : ptr → option (ptr * ptr * ptr → M (gmap loc N) bool)).
Context {K : Type} `{Countable K} (cl : hash_client (K := K) code_hash code_less).
Context (fuel : nat).

(** [hash_first (&i, h); while (hash_next (&i)) ... hash_cur (&i) ...]: the elements that are seen. *)
Definition iterate (rounds : nat) (i h : ptr) : M (gmap loc N) (list ptr) :=
  hash_first i h;;
  loop rounds (λ seen,
    e ← hash_next fuel i;
    if bool_decide (e ≠ NULL) then c ← hash_cur i; mret (inl (seen ++ [c])) else mret (inr seen)) [].

(** The iterator has passed [ys] in bucket [j], where [zs] are left. *)
Definition cursor (i h : loc) (b : loc) (bs : list (list loc)) (j : nat) (ys zs : list loc) : hpropI N :=
  (⌈bs !! j = Some (ys ++ zs)⌉ ∗
   i ↦ HashIterator (Some h) (Some (node_at b j)) (last ((node_at b j)~0 :: ys)%positive))%I.

Lemma hash_first_spec i h n b bs (it : hash_iterator) xs : bs !! 0%nat = Some xs →
  ⦃ i ↦ it ∗ table _ _ cl h n b bs ⦄ hash_first (Some i) (Some h)
  ⦃ _u, cursor i h b bs 0 [] xs ∗ table _ _ cl h n b bs ⦄.
Proof.
  intros Hxs. unfold hoare, hash_first, cursor, table. iIntros "(Hi & Hh & H)".
  do 2 (iApply wp_bind; iApply wp_ASSERT_ptr). wp_load "Hh". unfold list_head. cbn [fields buckets].
  iApply wp_bind. iApply wp_bind. iApply wp_ASSERT_ptr. iApply wp_ret. wp_load "Hi". iApply (wp_store with "Hi"). iIntros "Hi".
  iFrame. iSplit; [done|]. assert (node_at b 0 = b) as -> by (unfold node_at; lia). iFrame.
Qed.

(** The loop of [hash_next]: it goes on to the next bucket that is not empty. *)
Lemma hash_next_loop k i h n b bs j ys zs : (length bs <= j + k)%nat → bs !! j = Some (ys ++ zs) →
  i ↦ HashIterator (Some h) (Some (node_at b j)) (first (node_at b j) zs) ∗ table _ _ cl h n b bs ⊢
  wp (N := N) (loop k (λ _,
      it ← load (Some i);
      e ← list_end (it_bucket it);
      if bool_decide (it_elem it = e) then
        next ← bucket_addr (it_bucket it) 1;
        store (Some i) (HashIterator (it_hash it) next (it_elem it));;
        t ← load (it_hash it);
        stop ← bucket_addr (buckets t) (bucket_cnt t);
        if bool_decide (addr_le stop next) then
          store (Some i) (HashIterator (it_hash it) next NULL);; mret (inr tt)
        else
          b ← list_begin next;
          store (Some i) (HashIterator (it_hash it) next b);; mret (inl tt)
      else mret (inr tt)) tt)
    (λ _, table _ _ cl h n b bs ∗
      match zs ++ concat (drop (S j) bs) with
      | [] => ∃ p, i ↦ HashIterator (Some h) p NULL
      | x :: _ => ∃ j' ys' zs', ⌈bs !! j' = Some (ys' ++ x :: zs') ∧ zs ++ concat (drop (S j) bs) = x :: zs' ++ concat (drop (S j') bs)⌉ ∗
          i ↦ HashIterator (Some h) (Some (node_at b j')) (Some x)
      end)%I (λ _, False)%I.
Proof.
  revert j ys zs. induction k as [|k IH]; intros j ys zs Hk Hj; [apply lookup_lt_Some in Hj; lia|].
  unfold table. iIntros "(Hi & Hh & Hbs & HU)". iApply wp_loop. wp_load "Hi". cbn [it_bucket it_elem it_hash].
  iApply wp_bind. iApply wp_list_end.
  iDestruct (bucket_lists_acc b bs j _ Hj with "Hbs") as "[H Hback]". iDestruct (first_end (node_at b j) ys zs with "H") as %E.
  iSpecialize ("Hback" with "H"). rewrite list_insert_id //.
  destruct zs as [|x zs].
  - rewrite bool_decide_true; [|tauto]. iApply wp_bind. iApply (wp_bucket_addr (node_at b j) 1).
    assert (node_at (node_at b j) 1 = node_at b (S j)) as -> by (unfold node_at; lia).
    wp_store "Hi". wp_load "Hh". cbn [fields buckets bucket_cnt]. iApply wp_bind. iApply wp_bucket_addr.
    assert (addr_le (Some (node_at b (length bs))) (Some (node_at b (S j))) ↔ (length bs <= S j)%nat) as Hle by (simpl; unfold node_at; lia).
    rewrite (bool_decide_ext _ _ Hle). case_bool_decide as Hend.
    + wp_store "Hi". iFrame. rewrite drop_ge //=. by iExists _.
    + destruct (lookup_lt_is_Some_2 bs (S j)) as [xs Hxs]; [lia|].
      iDestruct (bucket_lists_acc b bs (S j) _ Hxs with "Hback") as "[H Hback]".
      iApply wp_bind. iApply (wp_list_begin with "H"). iIntros "H". iSpecialize ("Hback" with "H"). rewrite list_insert_id //.
      wp_store "Hi". change (head (xs ++ [(node_at b (S j))~1%positive])) with (first (node_at b (S j)) xs).
      rewrite (drop_S bs xs (S j)) // concat_cons.
      iApply (IH (S j) [] xs with "[$Hi $Hh $Hback $HU]"); [lia|done].
  - rewrite bool_decide_false; [|by intros Hx%E]. iApply wp_ret. iApply wp_ret. change (first (node_at b j) (x :: zs)) with (Some x). iFrame "Hh Hback HU". cbn [app].
    iExists j, ys, zs. by iFrame.
Qed.

Lemma hash_next_spec i h n b bs j ys zs : (length bs < fuel)%nat →
  ⦃ cursor i h b bs j ys zs ∗ table _ _ cl h n b bs ⦄ hash_next fuel (Some i)
  ⦃ r, table _ _ cl h n b bs ∗
       match zs ++ concat (drop (S j) bs) with
       | [] => ⌈r = NULL⌉ ∗ ∃ p, i ↦ HashIterator (Some h) p NULL
       | x :: rest => ⌈r = Some x⌉ ∗ ∃ j' ys' zs', cursor i h b bs j' ys' zs' ∗
           ⌈last ((node_at b j')~0 :: ys')%positive = Some x ∧ rest = zs' ++ concat (drop (S j') bs)⌉
       end ⦄.
Proof.
  intros Hf. unfold hoare, hash_next, cursor. iIntros "[[%Hj Hi] H]". iApply wp_bind. iApply wp_ASSERT_ptr. wp_load "Hi".
  cbn [it_elem it_hash it_bucket]. unfold table at 1. iDestruct "H" as "(Hh & Hbs & HU)".
  destruct (snoc_inv ((node_at b j)~0 :: ys)%positive) as [|(u & x & Hu)]; [done|].
  iDestruct (bucket_lists_acc b bs j _ Hj with "Hbs") as "[H Hback]".
  assert (∃ y v, zs ++ [(node_at b j)~1]%positive = y :: v ∧ first (node_at b j) zs = Some y) as (y & v & Hv & Hfirst).
  { unfold first. destruct zs as [|z zs]; [by eexists _, _|by exists z, (zs ++ [(node_at b j)~1]%positive)]. }
  rewrite Hu last_snoc. iApply wp_bind. unfold is_list.
  iApply (wp_list_next _ u x y v with "H").
  { rewrite -app_assoc Hv app_comm_cons Hu -app_assoc. done. }
  iIntros "H". iSpecialize ("Hback" with "H"). rewrite list_insert_id //. wp_store "Hi". rewrite -Hfirst.
  iApply wp_bind. iApply (wp_wand with "[Hi Hh Hback HU]").
  { iApply (hash_next_loop fuel i h n b bs j ys zs with "[$Hi $Hh $Hback $HU]"); [lia|done]. }
  iSplit; [|by iIntros (e) "[]"]. iIntros (_) "[Ht H]". destruct (zs ++ concat (drop (S j) bs)) as [|z rest].
  - iDestruct "H" as (p) "Hi". wp_load "Hi". iFrame "Ht". iSplit; [done|]. by iExists p.
  - iDestruct "H" as (j' ys' zs') "[%Hz Hi]". destruct Hz as [Hj' [= Hrest]]. wp_load "Hi". iFrame "Ht". iSplit; [done|].
    iExists j', (ys' ++ [z]), zs'. rewrite app_comm_cons last_snoc -app_assoc. by iFrame.
Qed.

(** What the idiom sees from a cursor on. *)
Lemma iterate_loop k i h n b bs j ys zs seen : (length bs < fuel)%nat →
  (length (zs ++ concat (drop (S j) bs)) < k)%nat →
  ⦃ cursor i h b bs j ys zs ∗ table _ _ cl h n b bs ⦄
  loop k (λ seen, e ← hash_next fuel (Some i);
      if bool_decide (e ≠ NULL) then c ← hash_cur (Some i); mret (inl (seen ++ [c])) else mret (inr seen)) seen
  ⦃ r, ⌈r = seen ++ (Some <$> zs ++ concat (drop (S j) bs))⌉ ∗ table _ _ cl h n b bs ∗ ∃ it : hash_iterator, i ↦ it ⦄.
Proof.
  intros Hf. unfold hoare. revert j ys zs seen. induction k as [|k IH]; intros j ys zs seen Hk; [lia|].
  iIntros "H". iApply wp_loop. iApply wp_bind. iApply (hoare_wp_ret with "H"); [by apply hash_next_spec|]. iIntros (r) "[Ht H]".
  destruct (zs ++ concat (drop (S j) bs)) as [|x rest].
  - iDestruct "H" as "[-> (%p & Hi)]". rewrite bool_decide_false; [|tauto]. iApply wp_ret. iApply wp_ret.
    rewrite app_nil_r. by iFrame.
  - iDestruct "H" as "[-> (%j' & %ys' & %zs' & [%Hj' Hi] & %Hx)]". destruct Hx as [Hlast ->]. rewrite bool_decide_true //.
    unfold hash_cur. wp_load "Hi". cbn [it_elem]. rewrite Hlast.
    iApply (wp_wand with "[Hi Ht]").
    { iApply (IH j' ys' zs'); [simpl in Hk; lia|]. unfold cursor. rewrite Hlast. by iFrame. }
    iSplit; [|by iIntros (e) "[]"]. iIntros (r) "(-> & $ & $)". by rewrite fmap_cons -app_assoc.
Qed.

(** C17: an iterator returns every element of the table once, in the order of the
    buckets, and then [NULL]. *)
Theorem iteration_correct rounds i h b bs m (it : hash_iterator) :
  represents _ _ cl bs m → (length bs < fuel)%nat → (size m < rounds)%nat →
  ⦃ i ↦ it ∗ table _ _ cl h (size m) b bs ⦄
  iterate rounds (Some i) (Some h)
  ⦃ r, ∃ xs, ⌈r = Some <$> xs ∧ enumerates m xs⌉ ∗ table _ _ cl h (size m) b bs ∗ ∃ it : hash_iterator, i ↦ it ⦄.
Proof.
  intros Hr Hf Hk. pose proof (represents_size _ _ _ _ _ Hr) as Hsize. destruct Hr as ((Hp & _) & Hnd & Hm).
  destruct (lookup_lt_is_Some_2 bs 0) as [xs0 Hxs0]; [by apply power_pos|].
  assert (xs0 ++ concat (drop 1 bs) = concat bs) as Hall by (by destruct bs; simplify_eq/=).
  unfold hoare, iterate. iIntros "H". iApply wp_bind. iApply (hoare_wp_ret with "H"); [by apply hash_first_spec|]. iIntros (u) "H".
  iApply (hoare_wp_ret with "H"); [apply (iterate_loop rounds i h _ b bs 0 [] xs0 []); [done|rewrite Hall; lia]|].
  iIntros (r) "(-> & $ & $)". iExists (concat bs). iPureIntro. rewrite Hall. split; [done|].
  rewrite Hm. by apply elements_perm.
Qed.
End iterators.

(** * Applying a function *)

Section apply.
Context {N : Type} `{!Struct ptr N, !Struct hash N, !BlockMalloc}.
Context (code_hash : ptr → option (ptr * ptr → M (gmap loc N) Z)).
Context (code_less : ptr → option (ptr * ptr * ptr → M (gmap loc N) bool)).
Context {K : Type} `{Countable K} (cl : hash_client (K := K) code_hash code_less).
Context (fuel : nat).

Lemma apply_bucket h t l (action : ptr * ptr → M (gmap loc N) unit) (I : list loc → hpropI N) done_ ys xs :
  aux t = client_aux cl → (length xs < fuel)%nat →
  (∀ seen x, ⦃ I seen ∗ user cl ⦄ action (Some x, client_aux cl) ⦃ _u, I (seen ++ [x]) ∗ user cl ⦄) →
  ⦃ is_list l (ys ++ xs) ∗ h ↦ t ∗ I done_ ∗ user cl ⦄
  loop fuel (λ elem,
    e ← list_end (Some l);
    if bool_decide (elem ≠ e) then
      next ← list_next elem; t ← load (Some h); call (Some action) (elem, aux t);; mret (inl next)
    else mret (inr tt)) (first l xs)
  ⦃ _u, is_list l (ys ++ xs) ∗ h ↦ t ∗ I (done_ ++ xs) ∗ user cl ⦄.
Proof.
  intros Haux Hf Hact. unfold hoare. revert done_ ys xs Hf. generalize fuel as k.
  induction k as [|k IH]; intros done_ ys xs Hf; [lia|]. iIntros "(H & Hh & HI & HU)". iApply wp_loop. iApply wp_bind. iApply wp_list_end.
  iDestruct (first_end l ys xs with "H") as %E. destruct xs as [|x xs].
  { rewrite bool_decide_false; [|tauto]. iApply wp_ret. iApply wp_ret. rewrite !app_nil_r. iFrame. }
  rewrite bool_decide_true; [|by intros Hx%E]. change (first l (x :: xs)) with (Some x).
  wp_focus. iApply (wp_list_next_at l ys x xs with "H"). iIntros "H". wp_load "Hh". rewrite Haux.
  iApply wp_bind. iApply (hoare_wp_ret _ _ _ _ _ (Hact done_ x) with "[$HI $HU]"). iIntros (u) "[HI HU]". iApply wp_ret.
  rewrite (app_cons_assoc ys) (app_cons_assoc done_ x xs). iApply IH; [simpl in Hf; lia|]. iFrame.
Qed.

(** [hash_apply] calls the action once for each element: an assertion that each call
    takes from what was seen so far to that and the element holds of all of them. *)
Theorem hash_apply_correct h m (action : ptr * ptr → M (gmap loc N) unit) (I : list loc → hpropI N) :
  (size m < fuel)%nat →
  (∀ seen x, ⦃ I seen ∗ user cl ⦄ action (Some x, client_aux cl) ⦃ _u, I (seen ++ [x]) ∗ user cl ⦄) →
  ⦃ hash_table _ _ cl h m ∗ I [] ⦄
  hash_apply fuel (Some h) (Some action)
  ⦃ _u, hash_table _ _ cl h m ∗ ∃ xs, ⌈enumerates m xs⌉ ∗ I xs ⦄.
Proof.
  intros Hf Hact. unfold hoare, hash_apply. iIntros "[(%b & %bs & (Hh & Hbs & HU) & %Hr) HI]".
  pose proof (represents_fuel _ _ _ fuel _ _ Hr Hf) as Hfs.
  iApply wp_bind. iApply wp_ret. wp_load "Hh". cbn [fields bucket_cnt].
  set (t := fields _ _ cl (size m) (length bs) (Some b)).
  iApply (hoare_wp_ret with "[Hh Hbs HU HI]");
    [apply (for_buckets_spec (length bs) _ (λ i, bucket_lists b bs ∗ h ↦ t ∗ I (concat (take i bs)) ∗ user cl)%I)|iFrame|].
  - intros i Hi. unfold hoare. iIntros "(Hbs & Hh & HI & HU)". destruct (lookup_lt_is_Some_2 bs i Hi) as [xs Hxs].
    assert (length xs < fuel)%nat as Hlx by by eapply (Forall_lookup_1 (λ xs, length xs < fuel)%nat).
    wp_load "Hh". cbn [t fields buckets]. iApply wp_bind. iApply wp_bucket_addr.
    iDestruct (bucket_lists_acc b bs i xs Hxs with "Hbs") as "[H Hback]".
    iApply wp_bind. iApply (wp_list_begin with "H"). iIntros "H".
    iApply (hoare_wp_ret with "[H Hh HI HU]"); [by apply (apply_bucket h t (node_at b i) action I (concat (take i bs)) [] xs)|iFrame|].
    iIntros (u) "(H & $ & HI & $)". iSpecialize ("Hback" with "H"). rewrite list_insert_id //. iFrame "Hback".
    assert (concat (take (S i) bs) = concat (take i bs) ++ xs) as ->; [|done].
    by rewrite (take_S_r bs i xs) // concat_app /= app_nil_r.
  - iIntros (u) "(Hbs & Hh & HI & HU)". rewrite firstn_all. iSplitL "Hbs Hh HU"; [iExists b, bs; by iFrame|].
    iExists (concat bs). iFrame. iPureIntro. destruct Hr as (_ & Hnd & ->). by apply elements_perm.
Qed.
End apply.

(** * A table with one element *)

Definition sample_map : gmap Z loc := {[6 := 100%positive]}.
Lemma sample_represents {N} : represents (N := N) _ _ sample_client [[]; []; [100%positive]; []] sample_map.
Proof.
  split_and!.
  - split; [exists 2; by split|]. intros i xs Hi. do 4 (destruct i as [|i]; [injection Hi as <-; repeat constructor|]). done.
  - repeat constructor. by intros ?%elem_of_nil.
  - by vm_compute.
Qed.

Lemma iteration_correct_witness :
  ⦃ 5%positive ↦ HashIterator NULL NULL NULL ∗ table (N := ptr + hash + hash_iterator) _ _ sample_client 900 (size sample_map) 700 [[]; []; [100%positive]; []] ⦄
  iterate 5 2 (Some 5%positive) (Some 900%positive)
  ⦃ r, ∃ xs, ⌈r = Some <$> xs ∧ enumerates sample_map xs⌉ ∗
       table _ _ sample_client 900 (size sample_map) 700 [[]; []; [100%positive]; []] ∗ ∃ it : hash_iterator, 5%positive ↦ it ⦄.
Proof.
  apply (iteration_correct (N := ptr + hash + hash_iterator) _ _ sample_client 5 2 5 900 700 [[]; []; [100%positive]; []]
    sample_map (HashIterator NULL NULL NULL)); [apply sample_represents|simpl; lia|apply le_n].
Defined.

(** The elements of a table that was built by insertions, as an iterator sees them. *)
Example iteration_run :
  match (hash_init (H := next_fit) (N := ptr + hash + hash_iterator) NULL 50 (Some 2%positive) (Some 1%positive) (Some 2%positive) NULL;;
         run_hcmds (H := next_fit) sample_hash sample_less NULL 50 (Some 2%positive) ((λ i, HInsert (Pos.of_nat (16 * i))) <$> seq 1 6);;
         iterate 50 50 (Some 3%positive) (Some 2%positive))
    (<[3%positive := inr (HashIterator NULL NULL NULL)]> (<[2%positive := inl (inr (Hash 0 0 NULL NULL NULL NULL))]>
      (gset_to_gmap (inl (inl NULL)) (list_to_set (seq 1 6 ≫= λ i, [Pos.of_nat (32 * i); Pos.of_nat (32 * i + 1)]))))) with
  | Ret r _ => r | _ => []
  end = [Some 64; Some 80; Some 16; Some 96; Some 32; Some 48]%positive.
Proof. vm_compute. done. Qed.

Lemma hash_apply_correct_witness :
  ⦃ hash_table (N := ptr + hash) _ _ sample_client 900 sample_map ∗ emp ⦄
  hash_apply 5 (Some 900%positive) (Some (λ _, mret tt))
  ⦃ _u, hash_table _ _ sample_client 900 sample_map ∗ ∃ xs, ⌈enumerates sample_map xs⌉ ∗ emp ⦄.
Proof.
  apply (hash_apply_correct _ _ sample_client 5 900 sample_map (λ _, mret tt) (λ _, emp)%I);
    [vm_compute; lia|]. intros seen x. unfold hoare. iIntros "H". by iApply wp_ret.
Defined.
