(* ===== verification/PintosThread.v ===== *)
(** The threads of src/bin/OS/pintos/src/threads (thread.c and the interrupt level of
    interrupt.c): the state of the kernel, the scheduler and the life of a thread.

    A context switch leaves the code of one thread in the middle of a function and
    goes on with that of another.  So each thread has the list of what it has yet
    to do, [code]: the points of the kernel's functions at which it can be
    interrupted or switched from.  A function that switches first says, with
    [resume_with], where its own thread goes on when it runs again.

    An address stands for the structure at it, and a list of threads for the list
    of their [elem] members (PintosList has the lists themselves). *)
From S2P Require Export Prelude.
From stdpp Require Import countable.
Local Open Scope Z_scope.

(** * The state *)

Inductive thread_status := THREAD_RUNNING | THREAD_READY | THREAD_BLOCKED | THREAD_DYING.
#[export] Instance thread_status_eq_dec : EqDecision thread_status.
Proof. solve_decision. Defined.

(** The address of a [struct semaphore]: one of its own, the one in a [struct lock], or
    the one in a [struct semaphore_elem]. *)
Inductive sema_addr := Sema (s : loc) | LockSema (l : loc) | WaiterSema (w : loc).
#[export] Instance sema_addr_eq_dec : EqDecision sema_addr.
Proof. solve_decision. Defined.
#[export] Instance sema_addr_countable : Countable sema_addr.
Proof.
  refine (inj_countable'
    (λ a, match a with Sema s => inl s | LockSema l => inr (inl l) | WaiterSema w => inr (inr w) end)
    (λ a, match a with inl s => Sema s | inr (inl l) => LockSema l | inr (inr w) => WaiterSema w end) _).
  by intros [].
Defined.

(** Where the functions of thread.c and synch.c can be interrupted or switched from. *)
Inductive instr :=
  | SetLevel (level : bool)                (* the end of [thread_yield] *)
  | Iret                                   (* the end of an external interrupt *)
  | KernelThread                           (* the start of [kernel_thread] *)
  | IdleStart (idle_started : sema_addr)   (* the start of [idle], and its loop *)
  | IdleLoop
  | IdleHalt
  | IntrEnable                             (* in [thread_start] *)
  | TakeTid (t : loc)                      (* in [allocate_tid], for [t] *)
  | Unblock (t : loc)                      (* in [thread_create] *)
  | SemaDown (s : sema_addr)               (* the start of [sema_down], and its loop *)
  | SemaDownLoop (s : sema_addr) (old_level : bool)
  | SemaUp (s : sema_addr)                 (* the end of [lock_release] *)
  | LockHold (l : loc)                     (* the end of [lock_acquire] *)
  | LockAcquire (l : loc)                  (* the start of [lock_acquire] *)
  | CondDone (w : loc)                     (* the end of [cond_wait] *)
  | CondBroadcast (c l : loc).             (* the loop of [cond_broadcast] *)
#[export] Instance instr_eq_dec : EqDecision instr.
Proof. solve_decision. Defined.

(** [struct thread]. *)
Record thread := Thread { tid : Z; status : thread_status; priority : Z; code : list instr }.
(** [struct semaphore]. *)
Record semaphore := Semaphore { value : Z; waiters : list loc }.

(** The global variables, the interrupt flag, and the structures in memory.
    [current] is the thread whose stack is in use. *)
Record kernel := Kernel {
  threads : gmap loc thread;
  ready_list : list loc;
  current : loc;
  idle_thread : ptr;
  initial_thread : loc;
  next_tid : Z;
  thread_ticks : Z; idle_ticks : Z; kernel_ticks : Z;
  intr_on : bool;
  in_external_intr : bool;
  yield_on_return : bool;
  semas : gmap sema_addr semaphore;
  holders : gmap loc ptr;
  conds : gmap loc (list loc);
}.

(** Updates. *)
Definition with_threads (f : gmap loc thread → gmap loc thread) (k : kernel) : kernel :=
  Kernel (f (threads k)) (ready_list k) (current k) (idle_thread k) (initial_thread k) (next_tid k) (thread_ticks k)
    (idle_ticks k) (kernel_ticks k) (intr_on k) (in_external_intr k) (yield_on_return k) (semas k) (holders k) (conds k).
Definition with_ready (f : list loc → list loc) (k : kernel) : kernel :=
  Kernel (threads k) (f (ready_list k)) (current k) (idle_thread k) (initial_thread k) (next_tid k) (thread_ticks k)
    (idle_ticks k) (kernel_ticks k) (intr_on k) (in_external_intr k) (yield_on_return k) (semas k) (holders k) (conds k).
Definition with_current (t : loc) (k : kernel) : kernel :=
  Kernel (threads k) (ready_list k) t (idle_thread k) (initial_thread k) (next_tid k) (thread_ticks k)
    (idle_ticks k) (kernel_ticks k) (intr_on k) (in_external_intr k) (yield_on_return k) (semas k) (holders k) (conds k).
Definition with_idle (t : ptr) (k : kernel) : kernel :=
  Kernel (threads k) (ready_list k) (current k) t (initial_thread k) (next_tid k) (thread_ticks k)
    (idle_ticks k) (kernel_ticks k) (intr_on k) (in_external_intr k) (yield_on_return k) (semas k) (holders k) (conds k).
Definition with_initial (t : loc) (k : kernel) : kernel :=
  Kernel (threads k) (ready_list k) (current k) (idle_thread k) t (next_tid k) (thread_ticks k)
    (idle_ticks k) (kernel_ticks k) (intr_on k) (in_external_intr k) (yield_on_return k) (semas k) (holders k) (conds k).
Definition with_next_tid (n : Z) (k : kernel) : kernel :=
  Kernel (threads k) (ready_list k) (current k) (idle_thread k) (initial_thread k) n (thread_ticks k)
    (idle_ticks k) (kernel_ticks k) (intr_on k) (in_external_intr k) (yield_on_return k) (semas k) (holders k) (conds k).
Definition with_ticks (tt_ it kt : Z) (k : kernel) : kernel :=
  Kernel (threads k) (ready_list k) (current k) (idle_thread k) (initial_thread k) (next_tid k) tt_ it kt
    (intr_on k) (in_external_intr k) (yield_on_return k) (semas k) (holders k) (conds k).
Definition with_intr (on ext yield : bool) (k : kernel) : kernel :=
  Kernel (threads k) (ready_list k) (current k) (idle_thread k) (initial_thread k) (next_tid k) (thread_ticks k)
    (idle_ticks k) (kernel_ticks k) on ext yield (semas k) (holders k) (conds k).
Definition with_semas (f : gmap sema_addr semaphore → gmap sema_addr semaphore) (k : kernel) : kernel :=
  Kernel (threads k) (ready_list k) (current k) (idle_thread k) (initial_thread k) (next_tid k) (thread_ticks k)
    (idle_ticks k) (kernel_ticks k) (intr_on k) (in_external_intr k) (yield_on_return k) (f (semas k)) (holders k) (conds k).
Definition with_holders (f : gmap loc ptr → gmap loc ptr) (k : kernel) : kernel :=
  Kernel (threads k) (ready_list k) (current k) (idle_thread k) (initial_thread k) (next_tid k) (thread_ticks k)
    (idle_ticks k) (kernel_ticks k) (intr_on k) (in_external_intr k) (yield_on_return k) (semas k) (f (holders k)) (conds k).
Definition with_conds (f : gmap loc (list loc) → gmap loc (list loc)) (k : kernel) : kernel :=
  Kernel (threads k) (ready_list k) (current k) (idle_thread k) (initial_thread k) (next_tid k) (thread_ticks k)
    (idle_ticks k) (kernel_ticks k) (intr_on k) (in_external_intr k) (yield_on_return k) (semas k) (holders k) (f (conds k)).

(** Of the threads, one has its status, or its code, changed. *)
Definition alter_status (t : loc) (s : thread_status) : gmap loc thread → gmap loc thread :=
  alter (λ th, Thread (tid th) s (priority th) (code th)) t.
Definition alter_code (t : loc) (c : list instr) : gmap loc thread → gmap loc thread :=
  alter (λ th, Thread (tid th) (status th) (priority th) c) t.
Definition set_status (t : loc) (s : thread_status) : kernel → kernel := with_threads (alter_status t s).
Definition set_code (t : loc) (c : list instr) : kernel → kernel := with_threads (alter_code t c).

Abbreviation K := (M kernel).

(** * The interrupt level *)

Definition intr_get_level : K bool := gets intr_on.
Definition intr_context : K bool := gets in_external_intr.
Definition set_flag (on : bool) : K unit := modify (λ k, with_intr on (in_external_intr k) (yield_on_return k) k).
Definition intr_enable : K bool :=
  old_level ← intr_get_level; c ← intr_context; ASSERT (negb c);; set_flag true;; mret old_level.
Definition intr_disable : K bool :=
  old_level ← intr_get_level; set_flag false;; mret old_level.
Definition intr_set_level (level : bool) : K bool := if level then intr_enable else intr_disable.
Definition intr_yield_on_return : K unit :=
  c ← intr_context; ASSERT c;; modify (λ k, with_intr (intr_on k) (in_external_intr k) true k).

(** * Threads *)

(** [is_thread (t)]: there is a thread at [t]. *)
Definition is_thread (t : ptr) : K bool :=
  ts ← gets threads; mret (match t with Some t => bool_decide (is_Some (ts !! t)) | None => false end).
Definition get_thread (t : loc) : K thread := ts ← gets threads; defined (ts !! t).

Definition running_thread : K loc := gets current.
Definition thread_current : K loc :=
  t ← running_thread;
  b ← is_thread (Some t); ASSERT b;;
  th ← get_thread t; ASSERT (bool_decide (status th = THREAD_RUNNING));;
  mret t.

(** Where the running thread goes on when it runs again. *)
Definition resume_with (c : list instr) : K unit :=
  t ← running_thread; th ← get_thread t; modify (set_code t (c ++ code th)).

Definition next_thread_to_run : K ptr :=
  l ← gets ready_list;
  match l with
  | [] => gets idle_thread
  | t :: l => modify (with_ready (λ _, l));; mret (Some t)
  end.

(** [palloc_free_page]. *)
Definition free_thread (t : loc) : K unit := modify (with_threads (base.delete t)).

Definition schedule_tail (prev : ptr) : K unit :=
  cur ← running_thread;
  on ← intr_get_level; ASSERT (negb on);;
  modify (set_status cur THREAD_RUNNING);;
  modify (λ k, with_ticks 0 (idle_ticks k) (kernel_ticks k) k);;
  match prev with
  | Some p =>
      th ← get_thread p; i ← gets initial_thread;
      if bool_decide (status th = THREAD_DYING) && bool_decide (p ≠ i) then
        ASSERT (bool_decide (p ≠ cur));; free_thread p
      else mret tt
  | None => mret tt
  end.

Definition schedule : K unit :=
  cur ← running_thread;
  next ← next_thread_to_run;
  on ← intr_get_level; ASSERT (negb on);;
  th ← get_thread cur; ASSERT (bool_decide (status th ≠ THREAD_RUNNING));;
  b ← is_thread next; ASSERT b;;
  next ← defined next;
  if bool_decide (cur ≠ next) then
    modify (with_current next);; schedule_tail (Some cur)
  else schedule_tail NULL.

Definition thread_block : K unit :=
  c ← intr_context; ASSERT (negb c);;
  on ← intr_get_level; ASSERT (negb on);;
  cur ← thread_current; modify (set_status cur THREAD_BLOCKED);;
  schedule.

Definition thread_unblock (t : loc) : K unit :=
  b ← is_thread (Some t); ASSERT b;;
  old_level ← intr_disable;
  th ← get_thread t; ASSERT (bool_decide (status th = THREAD_BLOCKED));;
  modify (with_ready (λ l, l ++ [t]));;
  modify (set_status t THREAD_READY);;
  intr_set_level old_level;; mret tt.

Definition thread_exit : K unit :=
  c ← intr_context; ASSERT (negb c);;
  intr_disable;;
  cur ← thread_current; modify (set_status cur THREAD_DYING);;
  schedule.

Definition thread_yield : K unit :=
  cur ← thread_current;
  c ← intr_context; ASSERT (negb c);;
  old_level ← intr_disable;
  idle ← gets idle_thread;
  (if bool_decide (Some cur ≠ idle) then modify (with_ready (λ l, l ++ [cur])) else mret tt);;
  modify (set_status cur THREAD_READY);;
  resume_with [SetLevel old_level];;
  schedule.

Definition TIME_SLICE : Z := 4.

(** The counters of ticks are 64 bits wide, and [unsigned]. *)
Definition thread_tick : K unit :=
  t ← thread_current;
  idle ← gets idle_thread;
  (if bool_decide (Some t = idle)
   then modify (λ k, with_ticks (thread_ticks k) (idle_ticks k + 1) (kernel_ticks k) k)
   else modify (λ k, with_ticks (thread_ticks k) (idle_ticks k) (kernel_ticks k + 1) k));;
  modify (λ k, with_ticks (wrap_u 32 (thread_ticks k + 1)) (idle_ticks k) (kernel_ticks k) k);;
  n ← gets thread_ticks;
  if bool_decide (TIME_SLICE <= n) then intr_yield_on_return else mret tt.

Definition PRI_MIN : Z := 0.
Definition PRI_DEFAULT : Z := 31.
Definition PRI_MAX : Z := 63.

(** A blocked thread. *)
Definition init_thread (t : loc) (prio : Z) : K unit :=
  ASSERT (bool_decide (PRI_MIN <= prio) && bool_decide (prio <= PRI_MAX));;
  modify (with_threads <[t := Thread 0 THREAD_BLOCKED prio []]>).

Definition thread_tid : K Z := t ← thread_current; th ← get_thread t; mret (tid th).
Definition thread_set_priority (p : Z) : K unit :=
  t ← thread_current; modify (with_threads (alter (λ th, Thread (tid th) (status th) p (code th)) t)).
Definition thread_get_priority : K Z := t ← thread_current; th ← get_thread t; mret (priority th).

Definition kernel_thread : K unit := intr_enable;; mret tt.

(** An external interrupt, whose handler is [handler]; the processor has turned
    interrupts off, and turns them on again at the end, [Iret]. *)
Definition intr_handler (handler : K unit) : K unit :=
  on ← intr_get_level; ASSERT (negb on);;
  c ← intr_context; ASSERT (negb c);;
  modify (λ k, with_intr (intr_on k) true false k);;
  handler;;
  on ← intr_get_level; ASSERT (negb on);;
  c ← intr_context; ASSERT c;;
  modify (λ k, with_intr (intr_on k) false (yield_on_return k) k);;
  y ← gets yield_on_return;
  if (y : bool) then thread_yield else mret tt.
