(* ===== verification/PintosSynch.v ===== *)
(** Semaphores, locks and condition variables of src/bin/OS/pintos/src/threads/synch.c,
    the functions of thread.c that use them, and the execution of a kernel: what
    each suspended function does next, and the steps of the whole machine. *)
From S2P Require Export PintosThread.
Local Open Scope Z_scope.

(** * Semaphores *)

Definition get_sema (s : sema_addr) : K semaphore := m ← gets semas; defined (m !! s).
Definition set_sema (s : sema_addr) (x : semaphore) : K unit := modify (with_semas <[s := x]>).
(** [value] is unsigned. *)
Definition set_value (s : sema_addr) (v : Z) : K unit := x ← get_sema s; set_sema s (Semaphore (wrap_u 32 v) (waiters x)).
Definition set_waiters (s : sema_addr) (l : list loc) : K unit := x ← get_sema s; set_sema s (Semaphore (value x) l).

Definition sema_init (s : sema_addr) (v : Z) : K unit := set_sema s (Semaphore v []).

(** The loop of [sema_down] and what follows it. *)
Definition sema_down_loop (s : sema_addr) (old_level : bool) : K unit :=
  x ← get_sema s;
  if bool_decide (value x = 0) then
    cur ← thread_current; set_waiters s (waiters x ++ [cur]);;
    resume_with [SemaDownLoop s old_level];;
    thread_block
  else
    set_value s (value x - 1);;
    intr_set_level old_level;; mret tt.

Definition sema_down (s : sema_addr) : K unit :=
  c ← intr_context; ASSERT (negb c);;
  old_level ← intr_disable;
  sema_down_loop s old_level.

Definition sema_try_down (s : sema_addr) : K bool :=
  old_level ← intr_disable;
  x ← get_sema s;
  success ← (if bool_decide (0 < value x) then set_value s (value x - 1);; mret true else mret false);
  intr_set_level old_level;;
  mret success.

Definition sema_up (s : sema_addr) : K unit :=
  old_level ← intr_disable;
  x ← get_sema s;
  match waiters x with
  | t :: l => set_waiters s l;; thread_unblock t
  | [] => mret tt
  end;;
  x ← get_sema s; set_value s (value x + 1);;
  intr_set_level old_level;; mret tt.

(** * Locks *)

(** What is seen of a lock: who has it now. *)
Inductive event := Acquired (t l : loc) | Released (t l : loc).

Definition get_holder (l : loc) : K ptr := m ← gets holders; defined (m !! l).
Definition set_holder (l : loc) (t : ptr) : K unit := modify (with_holders <[l := t]>).

Definition lock_init (l : loc) : K unit := set_holder l NULL;; sema_init (LockSema l) 1.

Definition lock_held_by_current_thread (l : loc) : K bool :=
  h ← get_holder l; t ← thread_current; mret (bool_decide (h = Some t)).

Definition lock_acquire (l : loc) : K unit :=
  c ← intr_context; ASSERT (negb c);;
  b ← lock_held_by_current_thread l; ASSERT (negb b);;
  resume_with [LockHold l];;
  sema_down (LockSema l).
(** After [sema_down] in [lock_acquire], and after success in [lock_try_acquire]. *)
Definition lock_hold (l : loc) : K (option event) :=
  t ← thread_current; set_holder l (Some t);; mret (Some (Acquired t l)).

Definition lock_try_acquire (l : loc) : K unit :=
  b ← lock_held_by_current_thread l; ASSERT (negb b);;
  success ← sema_try_down (LockSema l);
  if (success : bool) then resume_with [LockHold l] else mret tt.

Definition lock_release (l : loc) : K (option event) :=
  b ← lock_held_by_current_thread l; ASSERT b;;
  set_holder l NULL;;
  resume_with [SemaUp (LockSema l)];;
  t ← running_thread; mret (Some (Released t l)).

(** * Condition variables *)

Definition get_cond (c : loc) : K (list loc) := m ← gets conds; defined (m !! c).
Definition set_cond (c : loc) (ws : list loc) : K unit := modify (with_conds <[c := ws]>).

Definition cond_init (c : loc) : K unit := set_cond c [].

(** [w] is the address of [waiter], on the stack; it is gone when [cond_wait] returns. *)
Definition cond_wait (c l w : loc) : K (option event) :=
  x ← intr_context; ASSERT (negb x);;
  b ← lock_held_by_current_thread l; ASSERT b;;
  sema_init (WaiterSema w) 0;;
  ws ← get_cond c; set_cond c (ws ++ [w]);;
  resume_with [SemaDown (WaiterSema w); LockAcquire l; CondDone w];;
  lock_release l.
Definition cond_done (w : loc) : K unit := modify (with_semas (base.delete (WaiterSema w))).

Definition cond_signal (c l : loc) : K unit :=
  x ← intr_context; ASSERT (negb x);;
  b ← lock_held_by_current_thread l; ASSERT b;;
  ws ← get_cond c;
  match ws with
  | w :: ws => set_cond c ws;; sema_up (WaiterSema w)
  | [] => mret tt
  end.

(** The loop of [cond_broadcast]. *)
Definition cond_broadcast (c l : loc) : K unit :=
  ws ← get_cond c;
  if bool_decide (ws ≠ []) then cond_signal c l;; resume_with [CondBroadcast c l] else mret tt.

(** * Creating threads *)

Section kernel.
(** [tid_lock]. *)
Context (tid_lock : loc).

(** [allocate_tid] for [t], after [lock_acquire]; [tid_t] is [int]. *)
Definition take_tid (t : loc) : K (option event) :=
  n ← gets next_tid;
  next ← defined (int_of (n + 1)); modify (with_next_tid next);;
  modify (with_threads (alter (λ th, Thread n (status th) (priority th) (code th)) t));;
  lock_release tid_lock.

(** [t] is the page that [palloc_get_page] returned; the stack of the thread has the
    frames of [switch_entry] and of [kernel_thread], which runs [function]. *)
Definition thread_create (t : ptr) (prio : Z) (function : list instr) : K unit :=
  match t with
  | None => mret tt
  | Some t =>
      init_thread t prio;; modify (set_code t (KernelThread :: function));;
      resume_with [LockAcquire tid_lock; TakeTid t; Unblock t]
  end.

(** [initial] is the page of the running code. *)
Definition thread_init (initial : loc) : K unit :=
  on ← intr_get_level; ASSERT (negb on);;
  lock_init tid_lock;; modify (with_ready (λ _, []));;
  modify (with_initial initial);; init_thread initial PRI_DEFAULT;; modify (set_status initial THREAD_RUNNING);;
  resume_with [LockAcquire tid_lock; TakeTid initial].

(** [idle_started] is on the stack. *)
Definition thread_start (t : ptr) (idle_started : loc) : K unit :=
  sema_init (Sema idle_started) 0;;
  resume_with [IntrEnable; SemaDown (Sema idle_started)];;
  thread_create t PRI_MIN [IdleStart (Sema idle_started)].

(** [idle]: what it does first, and its loop. *)
Definition idle_start (idle_started : sema_addr) : K unit :=
  t ← thread_current; modify (with_idle (Some t));;
  resume_with [SemaUp idle_started; IdleLoop].
Definition idle_loop : K unit := intr_disable;; resume_with [IdleHalt];; thread_block.
(** [sti; hlt]: any interrupt, or none, comes before the loop goes on. *)
Definition idle_halt : K unit := set_flag true;; resume_with [IdleLoop].

(** * Execution *)

(** What a suspended function does. *)
Definition exec (i : instr) : K (option event) :=
  match i with
  | SetLevel level => intr_set_level level;; mret None
  | Iret => set_flag true;; mret None
  | KernelThread => kernel_thread;; mret None
  | IdleStart s => idle_start s;; mret None
  | IdleLoop => idle_loop;; mret None
  | IdleHalt => idle_halt;; mret None
  | IntrEnable => intr_enable;; mret None
  | TakeTid t => take_tid t
  | Unblock t => thread_unblock t;; mret None
  | SemaDown s => sema_down s;; mret None
  | SemaDownLoop s old_level => sema_down_loop s old_level;; mret None
  | SemaUp s => sema_up s;; mret None
  | LockHold l => lock_hold l
  | LockAcquire l => lock_acquire l;; mret None
  | CondDone w => cond_done w;; mret None
  | CondBroadcast c l => cond_broadcast c l;; mret None
  end.

(** What the code of a thread may call, and its obligations. *)
Inductive call :=
  | CSemaInit (s : loc) (v : Z) | CSemaDown (s : loc) | CSemaTryDown (s : loc) | CSemaUp (s : loc)
  | CLockInit (l : loc) | CLockAcquire (l : loc) | CLockTryAcquire (l : loc) | CLockRelease (l : loc)
  | CCondInit (c : loc) | CCondWait (c l w : loc) | CCondSignal (c l : loc) | CCondBroadcast (c l : loc)
  | CYield | CExit | CCreate (t : ptr) (prio : Z) | CSetPriority (p : Z).

Definition run_call (c : call) : K (option event) :=
  match c with
  | CSemaInit s v => sema_init (Sema s) v;; mret None
  | CSemaDown s => sema_down (Sema s);; mret None
  | CSemaTryDown s => sema_try_down (Sema s);; mret None
  | CSemaUp s => sema_up (Sema s);; mret None
  | CLockInit l => lock_init l;; mret None
  | CLockAcquire l => lock_acquire l;; mret None
  | CLockTryAcquire l => lock_try_acquire l;; mret None
  | CLockRelease l => lock_release l
  | CCondInit c => cond_init c;; mret None
  | CCondWait c l w => cond_wait c l w
  | CCondSignal c l => cond_signal c l;; mret None
  | CCondBroadcast c l => resume_with [CondBroadcast c l];; mret None
  | CYield => thread_yield;; mret None
  | CExit => thread_exit;; mret None
  | CCreate t prio => thread_create t prio [];; mret None
  | CSetPriority p => thread_set_priority p;; mret None
  end.

(** An object is initialised once; a lock is acquired by a thread that does not have
    it, and released, or waited and signalled with, by the one that has it; a thread
    that exits has no lock; a new page is not in use. *)
Definition call_ok (k : kernel) (c : call) : Prop :=
  match c with
  | CSemaInit s v => semas k !! Sema s = None ∧ in_u 32 v
  | CSemaDown s | CSemaTryDown s | CSemaUp s => is_Some (semas k !! Sema s)
  | CLockInit l => holders k !! l = None ∧ l ≠ tid_lock
  | CLockAcquire l | CLockTryAcquire l => ∃ h, holders k !! l = Some h ∧ h ≠ Some (current k) ∧ l ≠ tid_lock
  | CLockRelease l => holders k !! l = Some (Some (current k)) ∧ l ≠ tid_lock
  | CCondInit c => conds k !! c = None
  | CCondWait c l w =>
      is_Some (conds k !! c) ∧ holders k !! l = Some (Some (current k)) ∧ l ≠ tid_lock ∧ semas k !! WaiterSema w = None
  | CCondSignal c l | CCondBroadcast c l => is_Some (conds k !! c) ∧ holders k !! l = Some (Some (current k)) ∧ l ≠ tid_lock
  | CYield | CSetPriority _ => True
  | CExit => ∀ l, holders k !! l ≠ Some (Some (current k))
  | CCreate t prio => PRI_MIN <= prio <= PRI_MAX ∧ ∀ t', t = Some t' → threads k !! t' = None
  end.

(** What an interrupt handler does. *)
Inductive handler := HTick | HSemaUp (s : loc) | HSemaTryDown (s : loc).
Definition run_handler (h : handler) : K unit :=
  match h with
  | HTick => thread_tick
  | HSemaUp s => sema_up (Sema s)
  | HSemaTryDown s => sema_try_down (Sema s);; mret tt
  end.
Definition handler_ok (k : kernel) (h : handler) : Prop :=
  match h with HTick => True | HSemaUp s | HSemaTryDown s => is_Some (semas k !! Sema s) end.

(** The code of the running thread. *)
Definition current_code (k : kernel) : option (list instr) := code <$> threads k !! current k.

(** What runs next: the function that the thread is in, a new call, or an interrupt. *)
Inductive move := Resume | Call (c : call) | Interrupt (h : handler).
Definition run_move (m : move) : K (option event) :=
  match m with
  | Resume =>
      t ← running_thread; th ← get_thread t;
      match code th with
      | i :: c => modify (set_code t c);; exec i
      | [] => undef
      end
  | Call c => run_call c
  | Interrupt h => set_flag false;; resume_with [Iret];; intr_handler (run_handler h);; mret None
  end.
Definition move_ok (k : kernel) (m : move) : Prop :=
  match m with
  | Resume => ∃ i c, current_code k = Some (i :: c)
  | Call c => current_code k = Some [] ∧ idle_thread k ≠ Some (current k) ∧ call_ok k c
  | Interrupt h => intr_on k = true ∧ handler_ok k h
  end.

(** An execution: the moves, what they show, and the states they lead to. *)
Abbreviation trace := (list (move * option event * kernel)).
Inductive execution (k : kernel) : trace → Prop :=
  | execution_nil : execution k []
  | execution_cons m e k' tr :
      move_ok k m → run_move m k = Ret e k' → execution k' tr → execution k ((m, e, k') :: tr).
End kernel.

(** The state at the end, and the events. *)
Fixpoint final (k : kernel) (tr : list (move * option event * kernel)) : kernel :=
  match tr with [] => k | (_, _, k') :: tr => final k' tr end.
Definition events (tr : list (move * option event * kernel)) : list event := omap (λ '(_, e, _), e) tr.
