(* ===== verification/PintosSched.v ===== *)
(** The scheduler of src/bin/OS/pintos/src/threads/thread.c: the invariant that ties
    the status of the threads to the ready list, to the lists of waiters and to the
    code that each thread will go on with, and its preservation by what the functions
    of thread.c and synch.c do to them. *)
From S2P Require Export PintosSynch.
Local Open Scope Z_scope.

(** * Views of the threads *)

(** The status and the code of each thread are all that the invariants speak of. *)
Abbreviation statuses := (loc → option thread_status).
Abbreviation codes := (loc → option (list instr)).
Definition st (ts : gmap loc thread) : statuses := λ t, status <$> ts !! t.
Definition cd (ts : gmap loc thread) : codes := λ t, code <$> ts !! t.

(** A function changed at one place. *)
Definition upd {A} (f : loc → A) (t : loc) (x : A) : loc → A := λ u, if decide (u = t) then x else f u.

Section views.
Context (ts : gmap loc thread) (t u : loc).

Lemma upd_eq {A} (f : loc → A) x : upd f t x t = x.
Proof. unfold upd. by rewrite decide_True. Qed.
Lemma upd_ne {A} (f : loc → A) x : u ≠ t → upd f t x u = f u.
Proof. unfold upd. intros. by rewrite decide_False. Qed.
Lemma upd_upd {A} (f : loc → A) x y : upd (upd f t x) t y u = upd f t y u.
Proof. unfold upd. by case_decide. Qed.
Lemma upd_same {A} (f : loc → A) : upd f t (f t) u = f u.
Proof. unfold upd. case_decide; congruence. Qed.

Lemma st_cd : is_Some (st ts t) ↔ is_Some (cd ts t).
Proof. unfold st, cd. by rewrite !fmap_is_Some. Qed.
Lemma st_alter_code c : st (alter_code t c ts) u = st ts u.
Proof.
  unfold st, alter_code. destruct (decide (u = t)) as [->|Hne]; [rewrite lookup_alter_eq|by rewrite lookup_alter_ne].
  by destruct (ts !! t).
Qed.
Lemma cd_alter_status s : cd (alter_status t s ts) u = cd ts u.
Proof.
  unfold cd, alter_status. destruct (decide (u = t)) as [->|Hne]; [rewrite lookup_alter_eq|by rewrite lookup_alter_ne].
  by destruct (ts !! t).
Qed.
Lemma st_alter_status s : is_Some (st ts t) → st (alter_status t s ts) u = upd (st ts) t (Some s) u.
Proof.
  unfold st, alter_status, upd. rewrite fmap_is_Some. intros [th Hth].
  case_decide; [subst; by rewrite lookup_alter_eq Hth|by rewrite lookup_alter_ne].
Qed.
Lemma cd_alter_code c : is_Some (st ts t) → cd (alter_code t c ts) u = upd (cd ts) t (Some c) u.
Proof.
  unfold st, cd, alter_code, upd. rewrite fmap_is_Some. intros [th Hth].
  case_decide; [subst; by rewrite lookup_alter_eq Hth|by rewrite lookup_alter_ne].
Qed.
Lemma alter_code_twice c c' : alter_code t c (alter_code t c' ts) = alter_code t c ts.
Proof. unfold alter_code. rewrite alter_alter_eq. by apply alter_ext. Qed.
Lemma alter_code_same c : cd ts t = Some c → alter_code t c ts = ts.
Proof.
  unfold cd, alter_code. intros H. apply map_eq. intros v. destruct (decide (v = t)) as [->|]; [|by rewrite lookup_alter_ne].
  rewrite lookup_alter_eq. destruct (ts !! t) as [[]|]; [|done]. simpl in *. by simplify_eq.
Qed.
Lemma st_insert th : st (<[t := th]> ts) u = upd (st ts) t (Some (status th)) u.
Proof. unfold st, upd. case_decide; [subst; by rewrite lookup_insert_eq|by rewrite lookup_insert_ne]. Qed.
Lemma cd_insert th : cd (<[t := th]> ts) u = upd (cd ts) t (Some (code th)) u.
Proof. unfold cd, upd. case_decide; [subst; by rewrite lookup_insert_eq|by rewrite lookup_insert_ne]. Qed.
Lemma st_delete : st (base.delete t ts) u = upd (st ts) t None u.
Proof. unfold st, upd. case_decide; [subst; by rewrite lookup_delete_eq|by rewrite lookup_delete_ne]. Qed.
Lemma cd_delete : cd (base.delete t ts) u = upd (cd ts) t None u.
Proof. unfold cd, upd. case_decide; [subst; by rewrite lookup_delete_eq|by rewrite lookup_delete_ne]. Qed.
End views.

(** * The code of a thread *)

(** The points of a function called by the thread, and the points where the thread
    waits for the processor, with interrupts off. *)
Definition plain (i : instr) : Prop :=
  match i with
  | SetLevel _ | Iret | KernelThread | IdleStart _ | IdleLoop | IdleHalt | IntrEnable | SemaDownLoop _ _ => False
  | _ => True
  end.

(** The code that thread may have: the [idle] thread or not, with interrupts on or off. *)
Inductive coded : bool → bool → list instr → Prop :=
  | coded_plain c : Forall plain c → coded false true c
  | coded_idle : coded true true [IdleLoop]
  | coded_halt : coded true false [IdleHalt]
  | coded_iret i c : coded i true c → coded i false (Iret :: c)
  | coded_preempted i c : coded i true c → coded i false (SetLevel false :: Iret :: c)
  | coded_yield c : Forall plain c → coded false false (SetLevel true :: c)
  | coded_wait s c : Forall plain c → coded false false (SemaDownLoop s true :: c)
  | coded_new : coded false false [KernelThread].

Definition is_idle (idle : ptr) (t : loc) : bool := bool_decide (idle = Some t).

(** What the thread is to do, whatever interrupts it. *)
Fixpoint task_of (c : list instr) : list instr :=
  match c with
  | (SetLevel _ | Iret | KernelThread | IdleHalt | IdleLoop) :: c => task_of c
  | SemaDownLoop s _ :: c => SemaDown s :: c
  | _ => c
  end.
Definition tk (C : codes) (t : loc) : list instr := task_of (default [] (C t)).

Lemma task_of_plain c : Forall plain c → task_of c = c.
Proof. by destruct 1 as [|[]]. Qed.
Lemma task_of_coded i on c : coded i on c → Forall plain (task_of c).
Proof. induction 1; simpl; [rewrite task_of_plain //|..]; repeat constructor; auto. rewrite task_of_plain //. Qed.

(** The thread is in the loop of [sema_down]. *)
Definition waits_at (C : codes) (t : loc) (s : sema_addr) : Prop := ∃ c, C t = Some (SemaDownLoop s true :: c).

Lemma tk_ext (C C' : codes) t : C t = C' t → tk C t = tk C' t.
Proof. unfold tk. by intros ->. Qed.
Lemma tk_cd C t c : C t = Some c → tk C t = task_of c.
Proof. unfold tk. by intros ->. Qed.
Lemma tk_upd C t c u : tk (upd C t (Some c)) u = upd (tk C) t (task_of c) u.
Proof. unfold tk, upd. by case_decide. Qed.
Lemma tk_upd_None C t u : tk (upd C t None) u = upd (tk C) t [] u.
Proof. unfold tk, upd. by case_decide. Qed.
Lemma waits_at_upd C t c u s :
  waits_at (upd C t c) u s ↔ if decide (u = t) then ∃ c', c = Some (SemaDownLoop s true :: c') else waits_at C u s.
Proof. unfold waits_at, upd. by case_decide. Qed.
Lemma waits_at_inj C t s s' : waits_at C t s → waits_at C t s' → s = s'.
Proof. intros [c Hc] [c' Hc']. congruence. Qed.

(** * The invariant *)

(** The threads have the statuses [S] and the code [C]; [rl] is the ready list, [idle]
    the idle thread, [sm] has the semaphores, and the thread [run] is running: none
    is in the middle of [schedule]. *)
Record sched_inv (S : statuses) (C : codes) (rl : list loc) (idle : ptr) (sm : gmap sema_addr semaphore) (run : ptr) : Prop := {
  si_idle : ∃ i s, idle = Some i ∧ S i = Some s ∧ s ≠ THREAD_DYING;
  si_domain t : is_Some (S t) ↔ is_Some (C t);
  si_running t : S t = Some THREAD_RUNNING ↔ run = Some t;
  (* A thread that is not running goes on with interrupts off. *)
  si_code t c : C t = Some c → run ≠ Some t → S t ≠ Some THREAD_DYING → coded (is_idle idle t) false c;
  si_dying t : S t = Some THREAD_DYING → C t = Some [];
  (* The ready list has the threads that are ready, but for the idle thread. *)
  si_ready t : t ∈ rl ↔ S t = Some THREAD_READY ∧ idle ≠ Some t;
  si_ready_nodup : NoDup rl;
  (* A thread that is blocked is the idle thread, or one that its creator will
     unblock, or it waits for a semaphore. *)
  si_blocked t : S t = Some THREAD_BLOCKED →
    C t = Some [IdleHalt] ∨ C t = Some [KernelThread] ∧ (∃ t', Unblock t ∈ tk C t') ∨ ∃ s, waits_at C t s;
  si_new t u : Unblock u ∈ tk C t → S u = Some THREAD_BLOCKED ∧ C u = Some [KernelThread];
  si_new_unique t t' u : Unblock u ∈ tk C t → Unblock u ∈ tk C t' → t = t';
  (* The waiters of a semaphore are the blocked threads that wait for it. *)
  si_waiters s x : sm !! s = Some x → NoDup (waiters x) ∧ ∀ t, t ∈ waiters x ↔ S t = Some THREAD_BLOCKED ∧ waits_at C t s;
  (* As long as there are waiters, what the value of the semaphore is worth has
     been promised to threads that have been woken and are still to take it. *)
  si_woken s x : sm !! s = Some x → in_u 32 (value x) ∧
    (waiters x ≠ [] → ∃ ws, NoDup ws ∧ value x <= Z.of_nat (length ws) ∧ ∀ t, t ∈ ws → S t ≠ Some THREAD_BLOCKED ∧ waits_at C t s);
}.

Ltac upd_cases :=
  unfold upd in *;
  repeat match goal with
    | |- context [@decide (@eq loc ?a ?b) ?d] => destruct (@decide (@eq loc a b) d)
    | H : context [@decide (@eq loc ?a ?b) ?d] |- _ => destruct (@decide (@eq loc a b) d)
    end; subst.

Lemma sched_inv_ext S S' C C' rl idle sm run :
  (∀ t, S' t = S t) → (∀ t, C' t = C t) → sched_inv S C rl idle sm run → sched_inv S' C' rl idle sm run.
Proof.
  intros HS HC H. assert (∀ t, tk C' t = tk C t) as HT by (intros; by apply tk_ext).
  assert (∀ t s, waits_at C' t s ↔ waits_at C t s) as HW by (intros; unfold waits_at; by rewrite HC).
  destruct H. constructor; try setoid_rewrite HS; try setoid_rewrite HT; try setoid_rewrite HW; try setoid_rewrite HC; auto.
Qed.

Section facts.
Context {S : statuses} {C : codes} {rl : list loc} {idle : ptr} {sm : gmap sema_addr semaphore} {run : ptr}.
Hypothesis H : sched_inv S C rl idle sm run.

Lemma waits_at_task t s : waits_at C t s → SemaDown s ∈ tk C t.
Proof. intros [c Hc]. unfold tk. rewrite Hc. simpl. left. Qed.

Lemma idle_coded t c : idle = Some t → run ≠ Some t → C t = Some c → coded true false c.
Proof.
  intros Hi Hr Hc. destruct (si_idle _ _ _ _ _ _ H) as (i & s & Hi' & Hs & Hd).
  assert (i = t) as -> by congruence. rewrite -(bool_decide_true (idle = Some t)) //. change (coded (is_idle idle t) false c).
  eapply (si_code _ _ _ _ _ _ H); eauto. congruence.
Qed.
Lemma idle_not_waiting t s : idle = Some t → run ≠ Some t → ¬ waits_at C t s.
Proof. intros Hi Hr [c Hc]. eapply idle_coded in Hc; [|done..]. inversion Hc. Qed.
Lemma idle_not_new t : idle = Some t → run ≠ Some t → C t ≠ Some [KernelThread].
Proof. intros Hi Hr Hc. eapply idle_coded in Hc; [|done..]. inversion Hc. Qed.
Lemma running_not_new t u : run = Some t → Unblock u ∈ tk C t → u ≠ t.
Proof.
  intros Hr [Hu _]%(si_new _ _ _ _ _ _ H) ->. apply (si_running _ _ _ _ _ _ H) in Hr. congruence.
Qed.
End facts.

(** The running thread has other code. *)
Lemma sched_inv_recode S C rl idle sm cur c :
  sched_inv S C rl idle sm (Some cur) →
  (∀ u, Unblock u ∈ task_of c ↔ Unblock u ∈ tk C cur) →
  (∀ s, waits_at C cur s → ∃ c', c = SemaDownLoop s true :: c') →
  sched_inv S (upd C cur (Some c)) rl idle sm (Some cur).
Proof.
  intros H Hu Hw. assert (S cur = Some THREAD_RUNNING) as Hcur by by apply (si_running _ _ _ _ _ _ H).
  assert (∀ t u, Unblock u ∈ tk (upd C cur (Some c)) t ↔ Unblock u ∈ tk C t) as HT.
  { intros t u. rewrite tk_upd. upd_cases; auto. }
  assert (∀ t, S t ≠ Some THREAD_RUNNING → t ≠ cur) as Hne by congruence.
  destruct H. constructor; auto.
  - intros t. rewrite si_domain0. upd_cases; [|done]. split; [done|]. intros _. apply si_domain0. eauto.
  - intros t c0. upd_cases; [done|]. auto.
  - intros t Ht. upd_cases; [congruence|]. auto.
  - intros t Ht. setoid_rewrite HT. rewrite upd_ne; [|apply Hne; congruence].
    destruct (si_blocked0 _ Ht) as [?|[?|[s ?]]]; [auto..|]. right; right. exists s.
    apply waits_at_upd. rewrite decide_False; [done|]. apply Hne; congruence.
  - intros t u Htu. apply HT in Htu. destruct (si_new0 _ _ Htu) as [Hs Hc]. split; [done|].
    rewrite upd_ne //. apply Hne; congruence.
  - intros t t' u. rewrite !HT. eauto.
  - intros s x Hx. destruct (si_waiters0 _ _ Hx) as [Hnd Hin]. split; [done|]. intros t. rewrite Hin.
    split; intros [Hs Hc]; (split; [done|]); revert Hc; rewrite waits_at_upd decide_False //; apply Hne; congruence.
  - intros s x Hx. destruct (si_woken0 _ _ Hx) as [Hv Hwk]. split; [done|]. intros Hne'.
    destruct (Hwk Hne') as (ws & Hnd & Hlen & Hws). exists ws. split_and!; [done..|]. intros t Ht.
    destruct (Hws _ Ht) as [Hs Hc]. split; [done|]. apply waits_at_upd. case_decide; [subst|done].
    destruct (Hw _ Hc) as [c' ->]. eauto.
Qed.

(** The running thread stops: it yields, exits, or, if it is the idle thread, blocks. *)
Lemma sched_inv_stop S C rl rl' idle sm cur s c :
  sched_inv S C rl idle sm (Some cur) → C cur = Some c → s ≠ THREAD_RUNNING →
  (s = THREAD_DYING → c = [] ∧ idle ≠ Some cur) → (s ≠ THREAD_DYING → coded (is_idle idle cur) false c) →
  (s = THREAD_BLOCKED → c = [IdleHalt]) →
  rl' = (if decide (s = THREAD_READY ∧ idle ≠ Some cur) then rl ++ [cur] else rl) →
  sched_inv (upd S cur (Some s)) C rl' idle sm None.
Proof.
  intros H Hc Hs Hdying Hcoded Hblocked Hrl. assert (S cur = Some THREAD_RUNNING) as Hcur by by apply (si_running _ _ _ _ _ _ H).
  assert (∀ t s, S t = Some s → s ≠ THREAD_RUNNING → t ≠ cur) as Hne by congruence.
  destruct H. constructor; auto.
  - destruct si_idle0 as (i & s' & -> & Hs' & Hd). exists i. upd_cases; [|eauto]. exists s. split_and!; [done..|].
    intros ->. by destruct Hdying.
  - intros t. rewrite -si_domain0. upd_cases; [|done]. rewrite Hcur. split; eauto.
  - intros t. split; [|done]. upd_cases; [congruence|]. rewrite si_running0. congruence.
  - intros t c0 Hc0 _. upd_cases; intros; [|apply si_code0; congruence]. simplify_eq. apply Hcoded. congruence.
  - intros t. upd_cases; [|auto]. intros [= ->]. destruct Hdying as [-> _]; auto.
  - intros t. assert (t ∈ rl' ↔ t ∈ rl ∨ t = cur ∧ s = THREAD_READY ∧ idle ≠ Some cur) as ->.
    { subst rl'. case_decide; [rewrite elem_of_app list_elem_of_singleton|]; tauto. }
    rewrite si_ready0. upd_cases; [|tauto]. split; [intros [[? ?]|(_ & -> & ?)]; [congruence|done]|].
    intros [[= ->] ?]. auto.
  - subst rl'. case_decide; [|done]. apply NoDup_app. split_and!; [done| |apply NoDup_singleton].
    intros t Ht ->%list_elem_of_singleton. apply si_ready0 in Ht as [? ?]. congruence.
  - intros t. upd_cases; [|auto]. intros [= ->]. left. rewrite Hc Hblocked //.
  - intros t u Htu. destruct (si_new0 _ _ Htu) as [Hu Hcu]. rewrite upd_ne //. by eapply Hne.
  - intros s' x Hx. destruct (si_waiters0 _ _ Hx) as [Hnd Hin]. split; [done|]. intros t. rewrite Hin. upd_cases; [|done].
    rewrite Hcur. split; [by intros [? ?]|]. intros [[= ->] [c' Hc']]. rewrite Hc Hblocked // in Hc'.
  - intros s' x Hx. destruct (si_woken0 _ _ Hx) as [Hv Hwk]. split; [done|]. intros Hw.
    destruct (Hwk Hw) as (ws & Hnd & Hlen & Hws). exists ws. split_and!; [done..|]. intros t Ht.
    destruct (Hws _ Ht) as [Hst [c' Hc']]. split; [|by exists c']. upd_cases; [|done]. intros [= ->].
    rewrite Hc Hblocked // in Hc'.
Qed.

(** It waits for a semaphore. *)
Lemma sched_inv_block S C rl idle sm cur s x c :
  sched_inv S C rl idle sm (Some cur) → C cur = Some (SemaDownLoop s true :: c) → Forall plain c → idle ≠ Some cur →
  sm !! s = Some x → value x = 0 →
  sched_inv (upd S cur (Some THREAD_BLOCKED)) C rl idle (<[s := Semaphore (value x) (waiters x ++ [cur])]> sm) None.
Proof.
  intros H Hc Hplain Hidle Hx Hx0. assert (S cur = Some THREAD_RUNNING) as Hcur by by apply (si_running _ _ _ _ _ _ H).
  assert (∀ t s, S t = Some s → s ≠ THREAD_RUNNING → t ≠ cur) as Hne by congruence.
  destruct H. constructor; auto.
  - destruct si_idle0 as (i & s' & -> & Hs' & Hd). exists i, s'. rewrite upd_ne //. congruence.
  - intros t. rewrite -si_domain0. upd_cases; [|done]. rewrite Hcur. split; eauto.
  - intros t. split; [|done]. upd_cases; [done|]. rewrite si_running0. congruence.
  - intros t c0 Hc0 _. upd_cases; intros; [|apply si_code0; congruence]. simplify_eq.
    rewrite /is_idle bool_decide_false //. by constructor.
  - intros t. upd_cases; [done|auto].
  - intros t. rewrite si_ready0. upd_cases; [|done]. rewrite Hcur. split; intros [? ?]; congruence.
  - intros t. upd_cases; [|auto]. intros _. right; right. exists s. by exists c.
  - intros t u Htu. destruct (si_new0 _ _ Htu) as [Hu Hcu]. rewrite upd_ne //. by eapply Hne.
  - intros s' y Hy. destruct (decide (s' = s)) as [->|Hss].
    + rewrite lookup_insert_eq in Hy. injection Hy as <-. destruct (si_waiters0 _ _ Hx) as [Hnd Hin]. cbn [waiters]. split.
      { apply NoDup_app. split_and!; [done| |apply NoDup_singleton]. intros t Ht ->%list_elem_of_singleton.
        apply Hin in Ht as [? ?]. congruence. }
      intros t. rewrite elem_of_app Hin list_elem_of_singleton. upd_cases; [|tauto]. split; [|auto].
      intros _. split; [done|]. by exists c.
    + rewrite lookup_insert_ne // in Hy. destruct (si_waiters0 _ _ Hy) as [Hnd Hin]. split; [done|]. intros t. rewrite Hin.
      upd_cases; [|done]. rewrite Hcur. split; intros [? [c' Hc']]; congruence.
  - intros s' y Hy. destruct (decide (s' = s)) as [->|Hss].
    + rewrite lookup_insert_eq in Hy. injection Hy as <-. cbn [value waiters]. split; [by rewrite Hx0|]. intros _. exists [].
      split_and!; [constructor|simpl; lia|]. by intros t ?%not_elem_of_nil.
    + rewrite lookup_insert_ne // in Hy. destruct (si_woken0 _ _ Hy) as [Hv Hwk]. split; [done|]. intros Hw.
      destruct (Hwk Hw) as (ws & Hnd & Hlen & Hws). exists ws. split_and!; [done..|]. intros t Ht.
      destruct (Hws _ Ht) as [Hst [c' Hc']]. split; [|by exists c']. upd_cases; [|done]. congruence.
Qed.

(** [next] is dispatched. *)
Lemma sched_inv_dispatch S C rl idle sm next l :
  sched_inv S C rl idle sm None → (rl = next :: l ∨ rl = [] ∧ l = [] ∧ idle = Some next) →
  sched_inv (upd S next (Some THREAD_RUNNING)) C l idle sm (Some next) ∧
  ∃ c, C next = Some c ∧ coded (is_idle idle next) false c.
Proof.
  intros H Hnext.
  assert ((S next = Some THREAD_READY ∧ idle ≠ Some next) ∨ idle = Some next) as Hn.
  { destruct Hnext as [->|(_ & _ & ->)]; [left|by right]. apply (si_ready _ _ _ _ _ _ H). left. }
  assert (∃ s, S next = Some s ∧ s ≠ THREAD_DYING ∧ s ≠ THREAD_RUNNING) as (sn & Hsn & Hd & Hr).
  { destruct Hn as [[? _]|Hi]; [eexists; split_and!; done|]. destruct (si_idle _ _ _ _ _ _ H) as (i & s & ? & ? & ?).
    simplify_eq. exists s. split_and!; [done..|]. intros ->. by apply (si_running _ _ _ _ _ _ H) in H1. }
  assert (∀ t s, waits_at C t s → t ≠ next ∨ S t = Some THREAD_READY) as Hwait.
  { intros t s Ht. destruct (decide (t = next)) as [->|]; [right|by left]. destruct Hn as [[]|Hi]; [done|].
    by eapply idle_not_waiting in Ht. }
  assert (∀ u, C u = Some [KernelThread] → S u = Some THREAD_BLOCKED → u ≠ next) as Hnew.
  { intros u Hu Hub ->. destruct Hn as [[]|Hi]; [congruence|]. by eapply idle_not_new in Hu. }
  split.
  2:{ destruct (proj1 (si_domain _ _ _ _ _ _ H next)) as [c Hc]; [eauto|]. exists c. split; [done|].
      eapply (si_code _ _ _ _ _ _ H); [done..|]. congruence. }
  destruct H. constructor; auto.
  - destruct si_idle0 as (i & s' & Hi & Hs' & Hd'). exists i. upd_cases; [|eauto]. by exists THREAD_RUNNING.
  - intros t. rewrite -si_domain0. upd_cases; [|done]. rewrite Hsn. split; eauto.
  - intros t. upd_cases; [done|]. rewrite si_running0. split; [done|congruence].
  - intros t c Hc Ht. rewrite upd_ne; [auto|congruence].
  - intros t. upd_cases; [done|auto].
  - intros t. transitivity (t ∈ rl ∧ t ≠ next).
    + destruct Hnext as [->|(-> & -> & _)]; [|split; [by intros ?%not_elem_of_nil|by intros [?%not_elem_of_nil _]]].
      apply NoDup_cons in si_ready_nodup0 as [Hin _]. rewrite elem_of_cons. split; [|tauto]. intros Ht. split; [auto|congruence].
    + rewrite si_ready0. upd_cases; [|tauto]. split; [by intros [_ ?]|by intros [? _]].
  - destruct Hnext as [->|(-> & -> & _)]; [|done]. by apply NoDup_cons in si_ready_nodup0 as [_ ?].
  - intros t. upd_cases; [done|auto].
  - intros t u Htu. destruct (si_new0 _ _ Htu). split; [|done]. rewrite upd_ne //. auto.
  - intros s x Hx. destruct (si_waiters0 _ _ Hx) as [Hnd Hin]. split; [done|]. intros t. rewrite Hin.
    split; intros [Ht Hw]; (split; [|done]); destruct (Hwait _ _ Hw); upd_cases; congruence.
  - intros s x Hx. destruct (si_woken0 _ _ Hx) as [Hv Hwk]. split; [done|]. intros Hw.
    destruct (Hwk Hw) as (ws & Hnd & Hlen & Hws). exists ws. split_and!; [done..|]. intros t Ht.
    destruct (Hws _ Ht). split; [|done]. upd_cases; [done|auto].
Qed.

(** A dying thread is freed. *)
Lemma sched_inv_free S C rl idle sm run t :
  sched_inv S C rl idle sm run → S t = Some THREAD_DYING → sched_inv (upd S t None) (upd C t None) rl idle sm run.
Proof.
  intros H Ht. assert (C t = Some []) as Hc by by apply (si_dying _ _ _ _ _ _ H).
  assert (∀ u, tk (upd C t None) u = tk C u) as HT.
  { intros u. rewrite tk_upd_None. upd_cases; [|done]. by rewrite /tk Hc. }
  assert (∀ u s, waits_at (upd C t None) u s ↔ waits_at C u s) as HW.
  { intros u s. rewrite waits_at_upd. case_decide; [subst|done]. split; [by intros [??]|]. intros [c ?]. congruence. }
  destruct H. constructor; auto; try setoid_rewrite HT; try setoid_rewrite HW; auto.
  - destruct si_idle0 as (i & s' & -> & Hs' & Hd). exists i, s'. rewrite upd_ne //. congruence.
  - intros u. upd_cases; [|auto]. split; by intros [??].
  - intros u. rewrite -si_running0. upd_cases; [|done]. split; congruence.
  - intros u c. upd_cases; [done|auto].
  - intros u. upd_cases; [done|auto].
  - intros u. rewrite si_ready0. upd_cases; [|done]. rewrite Ht. split; intros [? ?]; done.
  - intros u. upd_cases; [done|auto].
  - intros u v Hv. destruct (si_new0 _ _ Hv). upd_cases; [congruence|done].
  - intros s x Hx. destruct (si_waiters0 _ _ Hx) as [Hnd Hin]. split; [done|]. intros u. rewrite Hin.
    upd_cases; [|done]. rewrite Ht. split; intros [? ?]; done.
  - intros s x Hx. destruct (si_woken0 _ _ Hx) as [Hv Hwk]. split; [done|]. intros Hw.
    destruct (Hwk Hw) as (ws & Hnd & Hlen & Hws). exists ws. split_and!; [done..|]. intros u Hu.
    destruct (Hws _ Hu). split; [|done]. upd_cases; done.
Qed.

(** The first waiter is woken, and the value goes up. *)
Lemma sched_inv_wake S C rl idle sm run s x t l v :
  sched_inv S C rl idle sm run → sm !! s = Some x → waiters x = t :: l → in_u 32 v → v <= value x + 1 →
  sched_inv (upd S t (Some THREAD_READY)) C (rl ++ [t]) idle (<[s := Semaphore v l]> sm) run.
Proof.
  intros H Hx Hl Hv Hle. destruct (proj1 (proj2 (si_waiters _ _ _ _ _ _ H _ _ Hx) t)) as [Hb Hw]; [rewrite Hl; left|].
  assert (idle ≠ Some t) as Hidle.
  { intros Hi. eapply idle_not_waiting in Hw; [done..|]. intros Hr%(si_running _ _ _ _ _ _ H). congruence. }
  destruct H. constructor; auto.
  - destruct si_idle0 as (i & s' & -> & Hs' & Hd). exists i, s'. rewrite upd_ne //. congruence.
  - intros u. rewrite -si_domain0. upd_cases; [|done]. rewrite Hb. split; eauto.
  - intros u. rewrite -si_running0. upd_cases; [|done]. split; congruence.
  - intros u c Hc Hu. upd_cases; [intros _; apply si_code0; [done..|congruence]|auto].
  - intros u. upd_cases; [done|auto].
  - intros u. rewrite elem_of_app list_elem_of_singleton si_ready0. upd_cases; [split; auto|tauto].
  - apply NoDup_app. split_and!; [done| |apply NoDup_singleton]. intros u Hu ->%list_elem_of_singleton.
    apply si_ready0 in Hu as [? ?]. congruence.
  - intros u. upd_cases; [done|auto].
  - intros u u' Hu. destruct (si_new0 _ _ Hu) as [? Hc]. split; [|done]. rewrite upd_ne //. intros ->.
    destruct Hw. congruence.
  - intros s' y Hy. destruct (decide (s' = s)) as [->|Hs].
    + rewrite lookup_insert_eq in Hy. injection Hy as <-. destruct (si_waiters0 _ _ Hx) as [Hnd Hin]. cbn [waiters].
      rewrite Hl in Hnd Hin. apply NoDup_cons in Hnd as [Ht Hnd]. split; [done|]. intros u. specialize (Hin u).
      rewrite elem_of_cons in Hin. upd_cases; [|tauto]. split; [done|by intros []].
    + rewrite lookup_insert_ne // in Hy. destruct (si_waiters0 _ _ Hy) as [Hnd Hin]. split; [done|]. intros u. rewrite Hin.
      upd_cases; [|done]. rewrite Hb. split; [|by intros []]. intros [_ Hw']. by rewrite (waits_at_inj _ _ _ _ Hw' Hw) in Hs.
  - assert (∀ u s, S u ≠ Some THREAD_BLOCKED ∧ waits_at C u s → upd S t (Some THREAD_READY) u ≠ Some THREAD_BLOCKED ∧ waits_at C u s)
      as Hws by (intros u s' [? ?]; split; [upd_cases|]; done).
    intros s' y Hy. destruct (decide (s' = s)) as [->|Hs].
    + rewrite lookup_insert_eq in Hy. injection Hy as <-. destruct (si_woken0 _ _ Hx) as [_ Hwk]. cbn [value waiters]. split; [done|].
      intros _. destruct Hwk as (ws & Hnd & Hlen & Hin); [by rewrite Hl|]. exists (t :: ws). split_and!.
      * constructor; [|done]. intros Ht. by destruct (Hin _ Ht).
      * simpl. lia.
      * intros u [->|Hu]%elem_of_cons; [|auto]. split; [by rewrite upd_eq|done].
    + rewrite lookup_insert_ne // in Hy. destruct (si_woken0 _ _ Hy) as [Hy0 Hwk]. split; [done|]. intros Hy'.
      destruct (Hwk Hy') as (ws & Hnd & Hlen & Hin). exists ws. split_and!; auto.
Qed.

(** The value of a semaphore goes down, or up without waiters. *)
Lemma sched_inv_value S C rl idle sm run s x v :
  sched_inv S C rl idle sm run → sm !! s = Some x → in_u 32 v → (v <= value x ∨ waiters x = []) →
  sched_inv S C rl idle (<[s := Semaphore v (waiters x)]> sm) run.
Proof.
  intros H Hx Hv Hle. destruct H. constructor; auto.
  - intros s' y Hy. destruct (decide (s' = s)) as [->|Hs]; [|rewrite lookup_insert_ne // in Hy; auto].
    rewrite lookup_insert_eq in Hy. injection Hy as <-. apply (si_waiters0 _ _ Hx).
  - intros s' y Hy. destruct (decide (s' = s)) as [->|Hs]; [|rewrite lookup_insert_ne // in Hy; auto].
    rewrite lookup_insert_eq in Hy. injection Hy as <-. destruct (si_woken0 _ _ Hx) as [_ Hwk]. cbn [value waiters].
    split; [done|]. intros Hw. destruct Hle as [Hle|]; [|done]. destruct (Hwk Hw) as (ws & Hnd & Hlen & Hin).
    exists ws. split_and!; [done|lia|done].
Qed.

Lemma sched_inv_new_sema S C rl idle sm run s v :
  sched_inv S C rl idle sm run → in_u 32 v → (∀ t, ¬ waits_at C t s) →
  sched_inv S C rl idle (<[s := Semaphore v []]> sm) run.
Proof.
  intros H Hv Hw. destruct H. constructor; auto.
  - intros s' y Hy. destruct (decide (s' = s)) as [->|Hs]; [|rewrite lookup_insert_ne // in Hy; auto].
    rewrite lookup_insert_eq in Hy. injection Hy as <-. split; [constructor|]. cbn [waiters]. intros t.
    split; [by intros ?%not_elem_of_nil|]. by intros [_ ?%Hw].
  - intros s' y Hy. destruct (decide (s' = s)) as [->|Hs]; [|rewrite lookup_insert_ne // in Hy; auto].
    rewrite lookup_insert_eq in Hy. injection Hy as <-. done.
Qed.

Lemma sched_inv_delete_sema S C rl idle sm run s :
  sched_inv S C rl idle sm run → sched_inv S C rl idle (base.delete s sm) run.
Proof.
  intros H. destruct H. constructor; auto; intros s' y [_ Hy]%lookup_delete_Some; auto.
Qed.

(** The running thread takes what a semaphore has. *)
Lemma sched_inv_down S C rl idle sm cur s x c :
  sched_inv S C rl idle sm (Some cur) → C cur = Some (SemaDownLoop s true :: c) → Forall plain c →
  sm !! s = Some x → value x ≠ 0 →
  sched_inv S (upd C cur (Some c)) rl idle (<[s := Semaphore (value x - 1) (waiters x)]> sm) (Some cur).
Proof.
  intros H Hc Hplain Hx Hx0. assert (S cur = Some THREAD_RUNNING) as Hcur by by apply (si_running _ _ _ _ _ _ H).
  assert (∀ t u, Unblock u ∈ tk (upd C cur (Some c)) t ↔ Unblock u ∈ tk C t) as HT.
  { intros t u. rewrite tk_upd. upd_cases; [|done]. rewrite task_of_plain // /tk Hc /= elem_of_cons.
    split; [auto|by intros [|]]. }
  assert (∀ t s' v, t ≠ cur → waits_at (upd C cur v) t s' ↔ waits_at C t s') as HW.
  { intros t s' v Ht. rewrite waits_at_upd decide_False //. }
  assert (∀ t, S t ≠ Some THREAD_RUNNING → t ≠ cur) as Hne by congruence.
  destruct H. constructor; auto.
  - intros t. rewrite si_domain0. upd_cases; [|done]. rewrite Hc. split; eauto.
  - intros t c0. upd_cases; [done|]. auto.
  - intros t Ht. upd_cases; [congruence|]. auto.
  - intros t Ht. setoid_rewrite HT. setoid_rewrite HW; [|apply Hne; congruence]. rewrite upd_ne; [auto|apply Hne; congruence].
  - intros t u Htu. apply HT in Htu. destruct (si_new0 _ _ Htu) as [Hs Hcu]. split; [done|].
    rewrite upd_ne //. apply Hne; congruence.
  - intros t t' u. rewrite !HT. eauto.
  - assert (∀ t y s', t ∈ waiters y ↔ S t = Some THREAD_BLOCKED ∧ waits_at C t s' →
      t ∈ waiters y ↔ S t = Some THREAD_BLOCKED ∧ waits_at (upd C cur (Some c)) t s') as Hw.
    { intros t y s' ->. destruct (decide (t = cur)) as [->|]; [|by rewrite HW]. split; intros [? _]; congruence. }
    intros s' y Hy. destruct (decide (s' = s)) as [->|Hs]; [|rewrite lookup_insert_ne // in Hy].
    + rewrite lookup_insert_eq in Hy. injection Hy as <-. cbn [waiters]. destruct (si_waiters0 _ _ Hx). auto.
    + destruct (si_waiters0 _ _ Hy). auto.
  - intros s' y Hy. destruct (decide (s' = s)) as [->|Hs]; [|rewrite lookup_insert_ne // in Hy].
    + rewrite lookup_insert_eq in Hy. injection Hy as <-. cbn [value waiters]. destruct (si_woken0 _ _ Hx) as [Hv Hwk].
      split; [unfold in_u in *; lia|]. intros Hw. destruct (Hwk Hw) as (ws & Hnd & Hlen & Hin).
      destruct (decide (cur ∈ ws)) as [[ws' Hp]%elem_of_Permutation|Hout].
      * rewrite Hp in Hnd. apply NoDup_cons in Hnd as [Hn Hnd]. exists ws'. rewrite Hp /= in Hlen. split_and!; [done|lia|].
        intros t Ht. assert (t ≠ cur) by congruence. rewrite HW //. apply Hin. rewrite Hp. by right.
      * exists ws. split_and!; [done|lia|]. intros t Ht. rewrite HW; [auto|congruence].
    + destruct (si_woken0 _ _ Hy) as [Hv Hwk]. split; [done|]. intros Hw. destruct (Hwk Hw) as (ws & Hnd & Hlen & Hin).
      exists ws. split_and!; [done..|]. intros t Ht. destruct (Hin _ Ht) as [? Hwt]. split; [done|]. rewrite HW //.
      intros ->. apply Hs. apply (waits_at_inj C cur); [done|]. by exists c.
Qed.

(** The creator of [u] unblocks it. *)
Lemma sched_inv_unblock S C rl idle sm cur c u :
  sched_inv S C rl idle sm (Some cur) → Unblock u ∈ tk C cur →
  (∀ v, Unblock v ∈ task_of c ↔ Unblock v ∈ tk C cur ∧ v ≠ u) → (∀ s, ¬ waits_at C cur s) →
  sched_inv (upd S u (Some THREAD_READY)) (upd C cur (Some c)) (rl ++ [u]) idle sm (Some cur).
Proof.
  intros H Hu Hc Hwait. assert (S cur = Some THREAD_RUNNING) as Hcur by by apply (si_running _ _ _ _ _ _ H).
  destruct (si_new _ _ _ _ _ _ H _ _ Hu) as [Hb Hnew].
  assert (u ≠ cur) as Huc by congruence.
  assert (idle ≠ Some u) as Hidle by (intros Hi; eapply (idle_not_new H u); [done|congruence|done]).
  assert (∀ t v, Unblock v ∈ tk (upd C cur (Some c)) t ↔ Unblock v ∈ tk C t ∧ v ≠ u) as HT.
  { intros t v. rewrite tk_upd. upd_cases; [done|]. split; [|by intros []]. intros Hv. split; [done|]. intros ->.
    assert (t = cur) by by eapply (si_new_unique _ _ _ _ _ _ H). done. }
  assert (∀ t s, waits_at (upd C cur (Some c)) t s → S t = Some THREAD_BLOCKED → waits_at C t s) as HW.
  { intros t s. rewrite waits_at_upd. case_decide; [subst; congruence|done]. }
  assert (∀ t s, waits_at C t s → t ≠ u ∧ waits_at (upd C cur (Some c)) t s) as HW'.
  { intros t s Hw. split; [intros ->; destruct Hw; congruence|]. rewrite waits_at_upd decide_False //. intros ->. by eapply Hwait. }
  destruct H. constructor; auto.
  - destruct si_idle0 as (i & s' & -> & Hs' & Hd). exists i, s'. rewrite upd_ne //. congruence.
  - intros t. transitivity (is_Some (S t)); [upd_cases; [rewrite Hb; split; eauto|done]|]. rewrite si_domain0.
    upd_cases; [|done]. split; [eauto|]. intros _. apply si_domain0. eauto.
  - intros t. rewrite -si_running0. upd_cases; [|done]. split; congruence.
  - intros t c0 Hc0 Ht. rewrite upd_ne in Hc0; [|congruence]. intros Hd. apply si_code0; [done..|]. intros Ht'. apply Hd.
    rewrite upd_ne //. congruence.
  - intros t. unfold upd at 1. case_decide; [done|]. intros Ht. rewrite upd_ne; [auto|congruence].
  - intros t. rewrite elem_of_app list_elem_of_singleton si_ready0. upd_cases; [split; auto|tauto].
  - apply NoDup_app. split_and!; [done| |apply NoDup_singleton]. intros t Ht ->%list_elem_of_singleton.
    apply si_ready0 in Ht as [? ?]. congruence.
  - intros t. unfold upd at 1. case_decide as Htu; [done|]. intros Ht. rewrite upd_ne; [|congruence]. setoid_rewrite HT.
    destruct (si_blocked0 _ Ht) as [?|[[? [t' ?]]|[s Hs]]]; [by left|right; left; eauto|]. right; right. exists s. by apply HW'.
  - intros t v [Htv Hv]%HT. destruct (si_new0 _ _ Htv). rewrite upd_ne // upd_ne //. congruence.
  - intros t t' v [? _]%HT [? _]%HT. eauto.
  - intros s x Hx. destruct (si_waiters0 _ _ Hx) as [Hnd Hin]. split; [done|]. intros t. rewrite Hin. split; intros [Ht Hw].
    + destruct (HW' _ _ Hw). rewrite upd_ne //.
    + unfold upd in Ht at 1. case_decide; [done|]. auto.
  - intros s x Hx. destruct (si_woken0 _ _ Hx) as [Hv Hwk]. split; [done|]. intros Hw.
    destruct (Hwk Hw) as (ws & Hnd & Hlen & Hws). exists ws. split_and!; [done..|]. intros t Ht.
    destruct (Hws _ Ht) as [? [? ?]%HW']. rewrite upd_ne //.
Qed.

(** A thread is created, and the running thread is to unblock it. *)
Lemma sched_inv_create S C rl idle sm cur c u :
  sched_inv S C rl idle sm (Some cur) → S u = None → tk C cur = [] → (∀ v, Unblock v ∈ task_of c ↔ v = u) →
  sched_inv (upd S u (Some THREAD_BLOCKED)) (upd (upd C u (Some [KernelThread])) cur (Some c)) rl idle sm (Some cur).
Proof.
  intros H Hu Hc0 Hc. assert (S cur = Some THREAD_RUNNING) as Hcur by by apply (si_running _ _ _ _ _ _ H).
  assert (C u = None) as Hcu.
  { apply eq_None_not_Some. rewrite -(si_domain _ _ _ _ _ _ H) Hu. by intros []. }
  assert (u ≠ cur) as Huc by congruence.
  set (C' := upd (upd C u (Some [KernelThread])) cur (Some c)).
  assert (∀ t, t ≠ u → t ≠ cur → C' t = C t) as HC by (intros; unfold C'; rewrite !upd_ne //).
  assert (C' u = Some [KernelThread]) as Hnew by by rewrite /C' upd_ne // upd_eq.
  assert (∀ t v, Unblock v ∈ tk C' t ↔ (t = cur ∧ v = u) ∨ (Unblock v ∈ tk C t ∧ v ≠ u)) as HT.
  { intros t v. unfold C'. rewrite tk_upd. unfold upd at 1. case_decide as Ht.
    - subst. rewrite Hc Hc0 elem_of_nil. tauto.
    - rewrite tk_upd. unfold upd. case_decide as Ht'; [subst; simpl; rewrite elem_of_nil /tk Hcu /= elem_of_nil; tauto|].
      split; [|tauto]. intros Hv. right. split; [done|]. intros ->. apply (si_new _ _ _ _ _ _ H) in Hv as [? _]. congruence. }
  assert (∀ t s, waits_at C' t s → S t ≠ Some THREAD_RUNNING → t ≠ u ∧ waits_at C t s) as HW.
  { intros t s Hw Ht. assert (t ≠ u) by (intros ->; destruct Hw; congruence). split; [done|]. destruct Hw as [c' Hw].
    exists c'. rewrite -HC //. congruence. }
  assert (∀ t s, waits_at C t s → t ≠ u ∧ waits_at C' t s) as HW'.
  { intros t s [c' Hw]. assert (t ≠ u) by congruence. split; [done|]. exists c'. rewrite HC //. intros ->.
    rewrite /tk Hw in Hc0. done. }
  destruct H. constructor; auto.
  - destruct si_idle0 as (i & s' & -> & Hs' & Hd). exists i, s'. rewrite upd_ne //. congruence.
  - intros t. destruct (decide (t = u)) as [->|]; [rewrite upd_eq Hnew; split; eauto|]. rewrite upd_ne // si_domain0.
    destruct (decide (t = cur)) as [->|]; [|by rewrite HC]. rewrite /C' upd_eq. split; [eauto|]. intros _. apply si_domain0. eauto.
  - intros t. rewrite -si_running0. upd_cases; [|done]. split; congruence.
  - intros t c0 Hc1 Ht. destruct (decide (t = u)) as [->|].
    + assert (c0 = [KernelThread]) as -> by congruence. intros _. rewrite /is_idle bool_decide_false; [constructor|].
      intros ->. destruct si_idle0 as (i & s & ? & ? & ?). simplify_eq.
    + rewrite upd_ne //. rewrite HC // in Hc1; [auto|congruence].
  - intros t. unfold upd. case_decide; [done|]. intros Ht. rewrite HC //; [auto|congruence].
  - intros t. rewrite si_ready0. upd_cases; [|done]. rewrite Hu. split; intros []; done.
  - intros t. setoid_rewrite HT. unfold upd. case_decide as Htu; [subst; right; left; eauto|]. intros Ht. rewrite HC //; [|congruence].
    destruct (si_blocked0 _ Ht) as [?|[[? [t' ?]]|[s Hs]]]; [by left|right; left; eauto|]. right; right. exists s. by apply HW'.
  - intros t v [[-> ->]|[Hv Hvu]]%HT; [by rewrite upd_eq|]. destruct (si_new0 _ _ Hv). rewrite upd_ne // HC //. congruence.
  - intros t t' v [[-> ->]|[Hv Hvu]]%HT [[-> ?]|[Hv' Hvu']]%HT; [done..|]. eauto.
  - intros s x Hx. destruct (si_waiters0 _ _ Hx) as [Hnd Hin]. split; [done|]. intros t. rewrite Hin. split; intros [Ht Hw].
    + destruct (HW' _ _ Hw). rewrite upd_ne //.
    + unfold upd in Ht. case_decide; [subst; destruct Hw; congruence|]. apply HW in Hw; [tauto|congruence].
  - intros s x Hx. destruct (si_woken0 _ _ Hx) as [Hv Hwk]. split; [done|]. intros Hw.
    destruct (Hwk Hw) as (ws & Hnd & Hlen & Hws). exists ws. split_and!; [done..|]. intros t Ht.
    destruct (Hws _ Ht) as [? [? ?]%HW']. rewrite upd_ne //.
Qed.
