(* ===== verification/PintosRun.v ===== *)
(** Running the functions of src/bin/OS/pintos/src/threads/thread.c: their effect on
    the invariant of the scheduler (PintosSched), and that no assertion fails. *)
From S2P Require Export PintosSched.
Local Open Scope Z_scope.

(** * Kernel code that returns *)

Definition pwp {A} (m : K A) (k : kernel) (Q : A → kernel → Prop) : Prop :=
  match m k with Ret a k' => Q a k' | _ => False end.

Section pwp.
Context {A B : Type}.
Lemma pwp_ret (a : A) k (Q : A → kernel → Prop) : Q a k → pwp (mret a) k Q.
Proof. done. Qed.
Lemma pwp_bind (m : K A) (f : A → K B) k Q : pwp m k (λ a k', pwp (f a) k' Q) → pwp (m ≫= f) k Q.
Proof. unfold pwp, mbind, M_bind. by destruct (m k). Qed.
Lemma pwp_mono (m : K A) k (Q Q' : A → kernel → Prop) : pwp m k Q → (∀ a k', Q a k' → Q' a k') → pwp m k Q'.
Proof. unfold pwp. destruct (m k); auto. Qed.
Lemma pwp_gets (f : kernel → A) k Q : Q (f k) k → pwp (gets f) k Q.
Proof. done. Qed.
Lemma pwp_modify f k Q : Q tt (f k) → pwp (modify f) k Q.
Proof. done. Qed.
Lemma pwp_defined (o : option A) a k Q : o = Some a → Q a k → pwp (defined o) k Q.
Proof. by intros ->. Qed.
Lemma pwp_ASSERT (b : bool) k Q : b = true → Q tt k → pwp (ASSERT b) k Q.
Proof. by intros ->. Qed.
Lemma pwp_run (m : K A) k (Q : A → kernel → Prop) : pwp m k Q → ∃ a k', m k = Ret a k' ∧ Q a k'.
Proof. unfold pwp. destruct (m k) as [a k'| | | |]; try done. intros H. by exists a, k'. Qed.
End pwp.

(** Step to the next statement that needs a fact. *)
Ltac pstep :=
  lazymatch goal with
  | |- pwp (mbind _ _) _ _ => apply pwp_bind
  | |- pwp (mret _) _ _ => apply pwp_ret
  | |- pwp (gets _) _ _ => apply pwp_gets
  | |- pwp (modify _) _ _ => apply pwp_modify
  | |- pwp (set_flag _) _ _ => apply pwp_modify
  | |- pwp intr_get_level _ _ => apply pwp_gets
  | |- pwp intr_context _ _ => apply pwp_gets
  | |- pwp running_thread _ _ => apply pwp_gets
  | |- pwp intr_disable _ _ => unfold intr_disable
  | |- pwp (free_thread _) _ _ => apply pwp_modify
  | |- pwp (set_sema _ _) _ _ => apply pwp_modify
  | |- pwp (set_holder _ _) _ _ => apply pwp_modify
  | |- pwp (set_cond _ _) _ _ => apply pwp_modify
  end; cbv beta.
Ltac psteps := repeat pstep.
Ltac passert := psteps; apply pwp_ASSERT; [|psteps].

(** * States of the kernel *)

Definition sched_ok (run : ptr) (k : kernel) : Prop :=
  sched_inv (st (threads k)) (cd (threads k)) (ready_list k) (idle_thread k) (semas k) run.
(** The running thread can go on. *)
Definition going (k : kernel) : Prop :=
  ∃ c, cd (threads k) (current k) = Some c ∧ coded (is_idle (idle_thread k) (current k)) (intr_on k) c.

(** What scheduling leaves as it is. *)
Record quiet (k k' : kernel) : Prop := {
  quiet_tasks t : tk (cd (threads k')) t = tk (cd (threads k)) t;
  quiet_semas : semas k' = semas k;
  quiet_holders : holders k' = holders k;
  quiet_conds : conds k' = conds k;
  quiet_idle : idle_thread k' = idle_thread k;
  quiet_tid : next_tid k' = next_tid k;
  quiet_external : in_external_intr k' = in_external_intr k;
}.
#[export] Instance quiet_preorder : PreOrder quiet.
Proof.
  split; [by intros k|]. intros k1 k2 k3 [] []. constructor; try congruence; intros t; congruence.
Qed.

(** Another thread has been scheduled, or the same. *)
Record switched (k k' : kernel) : Prop := {
  sw_sched : sched_ok (Some (current k')) k';
  sw_going : going k';
  sw_off : intr_on k' = false;
  sw_quiet : quiet k k';
}.

Lemma quiet_status t s k : is_Some (st (threads k) t) → quiet k (set_status t s k).
Proof. intros. constructor; auto. intros u. apply tk_ext. simpl. by rewrite cd_alter_status. Qed.
Lemma quiet_current t k : quiet k (with_current t k).
Proof. by constructor. Qed.
Lemma quiet_ready f k : quiet k (with_ready f k).
Proof. by constructor. Qed.
Lemma quiet_ticks a b c k : quiet k (with_ticks a b c k).
Proof. by constructor. Qed.

(** * The functions of thread.c *)

Section functions.
Context (k : kernel).
Implicit Types t : loc.

Lemma st_lookup t s : st (threads k) t = Some s → ∃ th, threads k !! t = Some th ∧ status th = s.
Proof. unfold st. destruct (threads k !! t) as [th|]; [|done]. intros [= <-]. by exists th. Qed.

Lemma pwp_get_thread t s Q : st (threads k) t = Some s → (∀ th, threads k !! t = Some th → status th = s → Q th k) → pwp (get_thread t) k Q.
Proof. intros (th & Hth & Hs)%st_lookup HQ. unfold get_thread. psteps. rewrite Hth. apply pwp_ret. auto. Qed.

Lemma pwp_is_thread t s Q : st (threads k) t = Some s → Q true k → pwp (is_thread (Some t)) k Q.
Proof. intros (th & Hth & Hs)%st_lookup HQ. unfold is_thread. psteps. by rewrite Hth bool_decide_true. Qed.

Lemma pwp_thread_current Q : st (threads k) (current k) = Some THREAD_RUNNING → Q (current k) k → pwp thread_current k Q.
Proof.
  intros Hs HQ. unfold thread_current. psteps. eapply pwp_is_thread; [done|]. passert; [done|].
  eapply pwp_get_thread; [done|]. intros th Hth Hst.
  passert; [by rewrite bool_decide_true|]. done.
Qed.

Lemma pwp_resume_with c c0 Q :
  cd (threads k) (current k) = Some c0 → Q tt (set_code (current k) (c ++ c0) k) → pwp (resume_with c) k Q.
Proof.
  intros Hc HQ. unfold resume_with, get_thread. psteps. unfold cd in Hc. destruct (threads k !! current k) as [th|]; [|done].
  injection Hc as <-. by psteps.
Qed.

Lemma pwp_intr_enable Q :
  in_external_intr k = false → Q (intr_on k) (with_intr true (in_external_intr k) (yield_on_return k) k) → pwp intr_enable k Q.
Proof. intros Hc HQ. unfold intr_enable. passert; [by rewrite Hc|done]. Qed.

Lemma pwp_intr_set_level (level : bool) Q :
  (level = true → in_external_intr k = false) →
  Q (intr_on k) (with_intr level (in_external_intr k) (yield_on_return k) k) → pwp (intr_set_level level) k Q.
Proof.
  intros Hc HQ. destruct level; cbn [intr_set_level]; [by apply pwp_intr_enable; auto|]. by psteps.
Qed.
End functions.

(** ** The scheduler *)

Lemma schedule_tail_spec k prev run :
  sched_ok (Some (current k)) (set_status (current k) THREAD_RUNNING k) → going k → intr_on k = false →
  is_Some (st (threads k) (current k)) → run ≠ current k →
  (prev = Some run ∧ is_Some (st (threads k) run) ∨ prev = NULL) →
  pwp (schedule_tail prev) k (λ _ k', switched k k').
Proof.
  intros Hok Hgo Hoff Hcur Hrun Hprev. unfold schedule_tail. passert; [by rewrite Hoff|].
  set (k1 := with_ticks _ _ _ _).
  assert (switched k k1) as Hk1.
  { constructor; [done| |done|].
    - destruct Hgo as (c & Hc & Hcd). exists c. split; [|done]. simpl. by rewrite cd_alter_status.
    - etransitivity; [by apply quiet_status|apply quiet_ticks]. }
  destruct Hprev as [[-> [s Hs]]| ->]; [|by psteps].
  psteps. eapply pwp_get_thread; [simpl; rewrite st_alter_status // upd_ne //|]. intros th Hth Hst. psteps.
  destruct (bool_decide (status th = THREAD_DYING)) eqn:Hd; [|by psteps]. apply bool_decide_eq_true in Hd.
  destruct (bool_decide (run ≠ initial_thread k1)); [|by psteps]. psteps.
  cbn [andb]. passert; [by rewrite bool_decide_true|].
  assert (st (threads k1) run = Some THREAD_DYING) as Hdying by by rewrite /st Hth -Hd.
  assert (cd (threads k1) run = Some []) as Hnil by by eapply si_dying; [apply Hk1|].
  constructor; [| |done|].
  - eapply sched_inv_ext; [..|eapply sched_inv_free; [apply Hk1|done]].
    + intros t. apply st_delete.
    + intros t. apply cd_delete.
  - destruct (sw_going _ _ Hk1) as (c & Hc & Hcd). exists c. split; [|done]. simpl in *. rewrite cd_delete upd_ne //.
  - transitivity k1; [apply Hk1|]. constructor; try done. intros t. simpl. unfold tk. rewrite cd_delete. unfold upd.
    case_decide; [subst|done]. change (threads k1) with (alter_status (current k) THREAD_RUNNING (threads k)) in Hnil.
    by rewrite Hnil.
Qed.

Lemma schedule_spec k Q :
  sched_ok None k → intr_on k = false → is_Some (st (threads k) (current k)) →
  (∀ k', switched k k' → Q tt k') → pwp schedule k Q.
Proof.
  intros Hok Hoff [s Hs] HQ. unfold schedule, next_thread_to_run. psteps.
  assert (∃ next l, pwp (match ready_list k with [] => gets idle_thread | t :: l => modify (with_ready (λ _, l));; mret (Some t) end) k
      (λ r k', r = Some next ∧ k' = with_ready (λ _, l) k) ∧
      (ready_list k = next :: l ∨ ready_list k = [] ∧ l = [] ∧ idle_thread k = Some next)) as (next & l & Hnext & Hl).
  { destruct (ready_list k) as [|t l] eqn:Hl; [|exists t, l; split; [by psteps|by left]].
    destruct (si_idle _ _ _ _ _ _ Hok) as (i & s' & Hi & _). exists i, []. split; [|auto]. psteps. split; [done|].
    destruct k; simpl in *. by subst. }
  eapply pwp_mono; [exact Hnext|]. intros r k1 [-> ->]. set (k1 := with_ready _ k).
  destruct (sched_inv_dispatch _ _ _ _ _ _ _ Hok Hl) as [Hd (c & Hc & Hcd)].
  assert (is_Some (st (threads k) next)) as [s' Hs'] by (apply (si_domain _ _ _ _ _ _ Hok); eauto).
  passert; [by rewrite /= Hoff|]. eapply (pwp_get_thread k1); [done|]. intros th Hth Hst.
  passert.
  { apply bool_decide_true. rewrite Hst. intros ->. apply (si_running _ _ _ _ _ _ Hok) in Hs. done. }
  eapply (pwp_is_thread k1); [done|]. passert; [done|]. cbn [defined]. psteps.
  set (k2 := with_current next k1).
  assert (sched_ok (Some next) (set_status next THREAD_RUNNING k2)) as Hok2.
  { eapply sched_inv_ext; [..|exact Hd]; intros t; simpl; [by apply st_alter_status|apply cd_alter_status]. }
  assert (going k2) as Hgo by (exists c; split; [done|]; simpl; by rewrite Hoff).
  assert (quiet k k2) as Hq by (etransitivity; [apply quiet_ready|apply quiet_current]).
  case_bool_decide as Hne.
  - psteps. eapply pwp_mono; [apply (schedule_tail_spec k2 _ (current k)); simpl; eauto|].
    intros [] k' []. apply HQ. constructor; [done..|]. by transitivity k2.
  - rename Hne into Hcn. assert (k2 = k1) as Hk.
    { unfold k2, k1. rewrite -Hcn. done. }
    rewrite Hk in Hok2, Hgo, Hq. eapply pwp_mono.
    + eapply (schedule_tail_spec k1 NULL (Pos.succ (current k))); eauto; simpl; rewrite ?Hcn; eauto. lia.
    + intros [] k' []. apply HQ. constructor; [done..|]. by transitivity k1.
Qed.

Lemma quiet_code t c k : is_Some (st (threads k) t) → task_of c = tk (cd (threads k)) t → quiet k (set_code t c k).
Proof.
  intros Hs Hc. constructor; auto. intros u. rewrite (tk_ext _ (upd (cd (threads k)) t (Some c))).
  - rewrite tk_upd. by upd_cases.
  - by apply cd_alter_code.
Qed.

(** The running thread stops, after its code has been set. *)
Lemma stop_spec k s c rl Q :
  sched_ok (Some (current k)) k → cd (threads k) (current k) = Some c → intr_on k = false → s ≠ THREAD_RUNNING →
  (s = THREAD_DYING → c = [] ∧ idle_thread k ≠ Some (current k)) →
  (s ≠ THREAD_DYING → coded (is_idle (idle_thread k) (current k)) false c) → (s = THREAD_BLOCKED → c = [IdleHalt]) →
  rl = (if decide (s = THREAD_READY ∧ idle_thread k ≠ Some (current k)) then ready_list k ++ [current k] else ready_list k) →
  (∀ k', switched k k' → Q tt k') →
  pwp schedule (set_status (current k) s (with_ready (λ _, rl) k)) Q.
Proof.
  intros Hok Hc Hoff Hs Hd Hcd Hb Hrl HQ. assert (is_Some (st (threads k) (current k))) as Hcur by (rewrite st_cd Hc; eauto).
  apply schedule_spec.
  - eapply sched_inv_ext; [..|eapply sched_inv_stop; eauto]; intros t; simpl; [by apply st_alter_status|apply cd_alter_status].
  - done.
  - simpl. rewrite st_alter_status // upd_eq. eauto.
  - intros k' []. apply HQ. constructor; [done..|]. etransitivity; [apply quiet_ready|]. etransitivity; [by apply quiet_status|done].
Qed.

Lemma set_code_status t u c s k : set_code t c (set_status u s k) = set_status u s (set_code t c k).
Proof.
  unfold set_code, set_status, with_threads. f_equal. simpl. unfold alter_code, alter_status.
  destruct (decide (t = u)) as [->|]; [rewrite !alter_alter_eq; by apply alter_ext|by apply alter_alter_ne].
Qed.

Lemma recode_ok k c c' :
  sched_ok (Some (current k)) k → cd (threads k) (current k) = Some c →
  (∀ u, Unblock u ∈ task_of c' ↔ Unblock u ∈ task_of c) →
  (∀ s c0, c = SemaDownLoop s true :: c0 → ∃ c1, c' = SemaDownLoop s true :: c1) →
  sched_ok (Some (current k)) (set_code (current k) c' k).
Proof.
  intros Hok Hc Hu Hw. eapply sched_inv_ext; [..|eapply (sched_inv_recode _ _ _ _ _ _ c'); [exact Hok|..]].
  - intros t. apply st_alter_code.
  - intros t. apply cd_alter_code. rewrite st_cd Hc. eauto.
  - intros u. by rewrite Hu (tk_cd _ _ _ Hc).
  - intros s [c0 Hs]. apply (Hw s c0). congruence.
Qed.

Lemma thread_yield_spec k c Q :
  sched_ok (Some (current k)) k → cd (threads k) (current k) = Some c → in_external_intr k = false →
  coded (is_idle (idle_thread k) (current k)) false (SetLevel (intr_on k) :: c) →
  (∀ s c0, c ≠ SemaDownLoop s true :: c0) →
  (∀ k', switched k k' → Q tt k') → pwp thread_yield k Q.
Proof.
  intros Hok Hc Hext Hcoded Hw HQ. assert (is_Some (st (threads k) (current k))) as Hcur by (rewrite st_cd Hc; eauto).
  unfold thread_yield. psteps. apply pwp_thread_current; [by apply (si_running _ _ _ _ _ _ Hok)|].
  passert; [by rewrite Hext|]. cbn [idle_thread with_intr].
  set (k0 := with_intr false _ _ k).
  set (rl := if decide (THREAD_READY = THREAD_READY ∧ idle_thread k ≠ Some (current k)) then ready_list k ++ [current k] else ready_list k).
  assert (pwp (if bool_decide (Some (current k) ≠ idle_thread k) then modify (with_ready (λ l, l ++ [current k])) else mret tt) k0
    (λ _ k', k' = with_ready (λ _, rl) k0)) as Hready.
  { unfold rl. case_bool_decide; case_decide; psteps; try done; [|]; exfalso; [by intuition|by intuition congruence]. }
  eapply pwp_mono; [exact Hready|]. intros _ k1 ->. psteps.
  eapply pwp_resume_with; [simpl; rewrite cd_alter_status; exact Hc|]. cbn [app current with_ready with_threads set_status].
  rewrite set_code_status. set (k2 := set_code (current k) (SetLevel (intr_on k) :: c) k0).
  eapply (stop_spec k2 THREAD_READY _ rl).
  - apply (recode_ok k0 c); [done..|]. intros s c0 ->. by edestruct Hw.
  - simpl. rewrite cd_alter_code // upd_eq //.
  - done.
  - done.
  - done.
  - done.
  - done.
  - done.
  - intros k' []. apply HQ. constructor; [done..|]. transitivity k2; [|done].
    transitivity k0; [by constructor|]. apply quiet_code; [done|]. simpl. by rewrite (tk_cd _ _ _ Hc).
Qed.

Lemma thread_exit_spec k Q :
  sched_ok (Some (current k)) k → cd (threads k) (current k) = Some [] → in_external_intr k = false →
  idle_thread k ≠ Some (current k) →
  (∀ k', switched k k' → Q tt k') → pwp thread_exit k Q.
Proof.
  intros Hok Hc Hext Hidle HQ. unfold thread_exit. passert; [by rewrite Hext|].
  apply pwp_thread_current; [by apply (si_running _ _ _ _ _ _ Hok)|]. psteps. set (k0 := with_intr false _ _ k).
  eapply (stop_spec k0 THREAD_DYING [] (ready_list k)); try done.
  intros k' []. apply HQ. constructor; [done..|]. transitivity k0; [by constructor|done].
Qed.

(** [thread_block] of the thread that is idle. *)
Lemma thread_block_idle_spec k Q :
  sched_ok (Some (current k)) k → cd (threads k) (current k) = Some [IdleHalt] → in_external_intr k = false →
  intr_on k = false → idle_thread k = Some (current k) →
  (∀ k', switched k k' → Q tt k') → pwp thread_block k Q.
Proof.
  intros Hok Hc Hext Hoff Hidle HQ. unfold thread_block. passert; [by rewrite Hext|]. passert; [by rewrite Hoff|].
  apply pwp_thread_current; [by apply (si_running _ _ _ _ _ _ Hok)|]. psteps.
  eapply (stop_spec k THREAD_BLOCKED [IdleHalt] (ready_list k)); try done.
  intros _. rewrite /is_idle bool_decide_true //. constructor.
Qed.

(** [thread_block] of a thread that waits for [s], already among its waiters. *)
Lemma thread_block_wait_spec k s x c Q :
  sched_ok (Some (current k)) k → cd (threads k) (current k) = Some (SemaDownLoop s true :: c) → Forall plain c →
  in_external_intr k = false → intr_on k = false → idle_thread k ≠ Some (current k) → semas k !! s = Some x → value x = 0 →
  (∀ k', switched (with_semas <[s := Semaphore (value x) (waiters x ++ [current k])]> k) k' → Q tt k') →
  pwp thread_block (with_semas <[s := Semaphore (value x) (waiters x ++ [current k])]> k) Q.
Proof.
  intros Hok Hc Hplain Hext Hoff Hidle Hx Hx0 HQ. unfold thread_block. passert; [by rewrite /= Hext|]. passert; [by rewrite /= Hoff|].
  apply pwp_thread_current; [by apply (si_running _ _ _ _ _ _ Hok)|]. psteps. cbn [current with_semas].
  assert (is_Some (st (threads k) (current k))) as Hcur by (rewrite st_cd Hc; eauto).
  apply schedule_spec.
  - eapply sched_inv_ext; [..|eapply sched_inv_block; eauto]; intros t; simpl; [by apply st_alter_status|apply cd_alter_status].
  - done.
  - simpl. rewrite st_alter_status // upd_eq. eauto.
  - intros k' []. apply HQ. constructor; [done..|]. etransitivity; [|done]. by apply quiet_status.
Qed.

(** ** Semaphores *)

Section semaphores.
Context (k : kernel).
Lemma pwp_get_sema s x Q : semas k !! s = Some x → Q x k → pwp (get_sema s) k Q.
Proof. intros Hx HQ. unfold get_sema. psteps. by rewrite Hx. Qed.
Lemma pwp_set_value s x v Q : semas k !! s = Some x →
  Q tt (with_semas <[s := Semaphore (wrap_u 32 v) (waiters x)]> k) → pwp (set_value s v) k Q.
Proof. intros Hx HQ. unfold set_value. apply pwp_bind, (pwp_get_sema s x); [done|]. by psteps. Qed.
Lemma pwp_set_waiters s x l Q : semas k !! s = Some x →
  Q tt (with_semas <[s := Semaphore (value x) l]> k) → pwp (set_waiters s l) k Q.
Proof. intros Hx HQ. unfold set_waiters. apply pwp_bind, (pwp_get_sema s x); [done|]. by psteps. Qed.
End semaphores.

(** The semaphore [s] has the value [v], and otherwise threads may have become ready. *)
Record valued (s : sema_addr) (v : Z) (k k' : kernel) : Prop := {
  va_code t : cd (threads k') t = cd (threads k) t;
  va_sema : ∃ l, semas k' = <[s := Semaphore v l]> (semas k);
  va_current : current k' = current k;
  va_idle : idle_thread k' = idle_thread k;
  va_intr : intr_on k' = intr_on k;
  va_external : in_external_intr k' = in_external_intr k;
  va_yield : yield_on_return k' = yield_on_return k;
  va_holders : holders k' = holders k;
  va_conds : conds k' = conds k;
  va_tid : next_tid k' = next_tid k;
}.
Lemma valued_going s v k k' : valued s v k k' → going k → going k'.
Proof. intros [] (c & Hc & Hcd). exists c. rewrite va_code0 va_current0 va_idle0 va_intr0. done. Qed.

Lemma thread_unblock_spec k t Q :
  st (threads k) t = Some THREAD_BLOCKED → (intr_on k = true → in_external_intr k = false) →
  Q tt (set_status t THREAD_READY (with_ready (λ l, l ++ [t]) k)) → pwp (thread_unblock t) k Q.
Proof.
  intros Ht Hext HQ. unfold thread_unblock. psteps. eapply pwp_is_thread; [done|]. passert; [done|].
  eapply pwp_get_thread; [done|]. intros th Hth Hst. passert; [by rewrite bool_decide_true|].
  apply pwp_intr_set_level; [done|]. by psteps.
Qed.

Lemma wrap_up v : in_u 32 v → in_u 32 (wrap_u 32 (v + 1)) ∧ wrap_u 32 (v + 1) <= v + 1.
Proof. intros []. split; [by apply wrap_u_range|]. apply Z.mod_le; lia. Qed.

Lemma sema_up_spec run k s x Q :
  sched_ok run k → semas k !! s = Some x → (intr_on k = true → in_external_intr k = false) →
  (∀ k', sched_ok run k' → valued s (wrap_u 32 (value x + 1)) k k' → Q tt k') →
  pwp (sema_up s) k Q.
Proof.
  intros Hok Hx Hext HQ. unfold sema_up. psteps. set (k0 := with_intr false _ _ k).
  apply (pwp_get_sema k0 s x); [done|]. destruct (si_woken _ _ _ _ _ _ Hok _ _ Hx) as [Hv _]. apply wrap_up in Hv as [Hv Hle].
  destruct (waiters x) as [|t l] eqn:Hl; psteps.
  - apply (pwp_get_sema k0 s x); [done|]. apply pwp_bind, (pwp_set_value k0 s x); [done|].
    apply pwp_bind, pwp_intr_set_level; [done|]. psteps. apply HQ; [|constructor; eauto].
    eapply sched_inv_value; [exact Hok|done|done|by right].
  - apply pwp_set_waiters with x; [done|]. set (k1 := with_semas _ k0).
    destruct (proj1 (proj2 (si_waiters _ _ _ _ _ _ Hok _ _ Hx) t)) as [Hb Hw]; [rewrite Hl; left|].
    apply (thread_unblock_spec k1); [done|done|]. psteps.
    eapply pwp_get_sema; [apply lookup_insert_eq|]. apply pwp_bind. eapply pwp_set_value; [apply lookup_insert_eq|].
    apply pwp_bind, pwp_intr_set_level; [done|]. psteps. cbn [value waiters].
    assert (∀ a : semaphore, <[s := a]> (<[s := Semaphore (value x) l]> (semas k)) = <[s := a]> (semas k)) as Hins by (intros; apply insert_insert_eq).
    apply HQ.
    + unfold sched_ok. simpl. rewrite Hins. eapply sched_inv_ext; [..|eapply (sched_inv_wake _ _ _ _ _ _ s x t l); eauto];
        intros u; [|apply cd_alter_status]. apply st_alter_status. rewrite Hb. eauto.
    + constructor; try done; simpl; [intros u; apply cd_alter_status|rewrite Hins; eauto].
Qed.

Lemma sema_try_down_spec run k s x Q :
  sched_ok run k → semas k !! s = Some x → (intr_on k = true → in_external_intr k = false) →
  (∀ k' (b : bool), sched_ok run k' → valued s (if b then value x - 1 else value x) k k' → (b = true ↔ 0 < value x) → Q b k') →
  pwp (sema_try_down s) k Q.
Proof.
  intros Hok Hx Hext HQ. destruct (si_woken _ _ _ _ _ _ Hok _ _ Hx) as [Hr _]. unfold sema_try_down. psteps. set (k0 := with_intr false _ _ k).
  apply (pwp_get_sema k0 s x); [done|]. psteps. case_bool_decide as Hv; psteps.
  - apply (pwp_set_value k0 s x); [done|]. psteps. apply pwp_intr_set_level; [done|]. psteps.
    rewrite wrap_u_id; [|unfold in_u in *; lia]. apply HQ; [|constructor; eauto|done].
    eapply sched_inv_value; [exact Hok|done|unfold in_u in *; lia|left; lia].
  - apply pwp_intr_set_level; [done|]. psteps. apply HQ; [exact Hok| |done]. constructor; try done. exists (waiters x).
    simpl. rewrite insert_id //. by destruct x.
Qed.
