(* ===== verification/PintosLocks.v ===== *)
(** The locks and the condition variables of src/bin/OS/pintos/src/threads/synch.c:
    the invariant that ties the value of a lock's semaphore and its holder to what
    the threads are doing, and its preservation by each step of the functions. *)
From S2P Require Export PintosRun.
Local Open Scope Z_scope.

Abbreviation tasks := (loc → list instr).
Definition val (sm : gmap sema_addr semaphore) (s : sema_addr) : option Z := value <$> sm !! s.

Section locks.
(** [tid_lock]. *)
Context (tid_lock : loc).

(** * What a thread does *)

Section doing.
Context (sm : gmap sema_addr semaphore) (hs : gmap loc ptr) (cs : gmap loc (list loc)).

(** What is left of a function that has acquired [l], or released it. *)
Inductive after_acquire (l : loc) : list instr → Prop :=
  | acquired_call : l ≠ tid_lock → after_acquire l []
  | acquired_cond w : l ≠ tid_lock → is_Some (sm !! WaiterSema w) → after_acquire l [CondDone w]
  | acquired_tid u : l = tid_lock → after_acquire l [TakeTid u; Unblock u].
Inductive after_release (l : loc) : list instr → Prop :=
  | released_call : l ≠ tid_lock → after_release l []
  | released_cond w : l ≠ tid_lock → is_Some (sm !! WaiterSema w) →
      after_release l [SemaDown (WaiterSema w); LockAcquire l; CondDone w]
  | released_tid u : l = tid_lock → after_release l [Unblock u].

(** The function that [t] is in, and how far. *)
Inductive doing (t : loc) : list instr → Prop :=
  | doing_nothing : doing t []
  | doing_down s : is_Some (sm !! Sema s) → doing t [SemaDown (Sema s)]
  | doing_acquire l r : is_Some (hs !! l) → hs !! l ≠ Some (Some t) → after_acquire l r → doing t (LockAcquire l :: r)
  | doing_lock_down l r : is_Some (hs !! l) → after_acquire l r → doing t (SemaDown (LockSema l) :: LockHold l :: r)
  | doing_hold l r : is_Some (hs !! l) → after_acquire l r → doing t (LockHold l :: r)
  | doing_up l r : is_Some (hs !! l) → after_release l r → doing t (SemaUp (LockSema l) :: r)
  | doing_wait w l : is_Some (hs !! l) → hs !! l ≠ Some (Some t) → l ≠ tid_lock → is_Some (sm !! WaiterSema w) →
      doing t [SemaDown (WaiterSema w); LockAcquire l; CondDone w]
  | doing_done w : is_Some (sm !! WaiterSema w) → doing t [CondDone w]
  | doing_broadcast c l : is_Some (cs !! c) → hs !! l = Some (Some t) → l ≠ tid_lock → doing t [CondBroadcast c l]
  | doing_tid u : hs !! tid_lock = Some (Some t) → doing t [TakeTid u; Unblock u]
  | doing_unblock u : doing t [Unblock u].

(** Between [sema_down] and the assignment to [holder], or that and [sema_up]. *)
Definition between (l : loc) (c : list instr) : Prop :=
  match c with LockHold l' :: _ | SemaUp (LockSema l') :: _ => l' = l | _ => False end.

(** The semaphore of a lock is 0 when a thread owns the lock; that thread is the
    holder, or about to be, or the last. *)
Definition lock_inv (T : tasks) (l : loc) (h : ptr) : Prop :=
  ∃ o : ptr, val sm (LockSema l) = Some (if o then 0 else 1) ∧
    (∀ t, between l (T t) ↔ h = NULL ∧ o = Some t) ∧ (h = NULL ∨ h = o).

(** A waiter of a condition has not been signalled, and belongs to a thread that waits for it. *)
Definition cond_inv (T : tasks) (ws : list loc) : Prop :=
  NoDup ws ∧ ∀ w, w ∈ ws → val sm (WaiterSema w) = Some 0 ∧ ∃ t, SemaDown (WaiterSema w) ∈ T t.

Record sync_inv (T : tasks) : Prop := {
  sy_doing t : doing t (T t);
  sy_lock l h : hs !! l = Some h → lock_inv T l h;
  sy_tid_lock : is_Some (hs !! tid_lock);
  sy_tid t : hs !! tid_lock = Some (Some t) → ∃ u, T t = [TakeTid u; Unblock u];
  sy_waiter t t' w : CondDone w ∈ T t → CondDone w ∈ T t' → t = t';
  sy_cond c ws : cs !! c = Some ws → cond_inv T ws;
  sy_cond_unique c c' ws ws' w : cs !! c = Some ws → cs !! c' = Some ws' → w ∈ ws → w ∈ ws' → c = c';
}.
End doing.

(** A thread goes on with what it does while others change the state. *)
Lemma after_acquire_mono sm sm' l r : (∀ w, CondDone w ∈ r → is_Some (sm !! WaiterSema w) → is_Some (sm' !! WaiterSema w)) →
  after_acquire sm l r → after_acquire sm' l r.
Proof. intros Hw. destruct 1; constructor; auto. apply Hw; [left|done]. Qed.
Lemma after_release_mono sm sm' l r : (∀ w, CondDone w ∈ r → is_Some (sm !! WaiterSema w) → is_Some (sm' !! WaiterSema w)) →
  after_release sm l r → after_release sm' l r.
Proof. intros Hw. destruct 1; constructor; auto. apply Hw; [right; right; left|done]. Qed.

Lemma doing_mono sm sm' hs hs' cs cs' t c :
  (∀ s, is_Some (sm !! Sema s) → is_Some (sm' !! Sema s)) →
  (∀ w, CondDone w ∈ c → is_Some (sm !! WaiterSema w) → is_Some (sm' !! WaiterSema w)) →
  (∀ l, is_Some (hs !! l) → is_Some (hs' !! l)) →
  (∀ l, is_Some (hs !! l) → hs' !! l = Some (Some t) ↔ hs !! l = Some (Some t)) →
  (∀ c, is_Some (cs !! c) → is_Some (cs' !! c)) →
  doing sm hs cs t c → doing sm' hs' cs' t c.
Proof.
  intros Hs Hw Hl Hh Hc Hd. destruct Hd; try (constructor; auto; fail).
  - constructor; [auto|by rewrite Hh|]. eapply after_acquire_mono; [|done]. intros w ?. apply Hw. by right.
  - constructor; [auto|]. eapply after_acquire_mono; [|done]. intros w ?. apply Hw. by do 2 right.
  - constructor; [auto|]. eapply after_acquire_mono; [|done]. intros w ?. apply Hw. by right.
  - constructor; [auto|]. eapply after_release_mono; [|done]. intros w ?. apply Hw. by right.
  - constructor; [auto|by rewrite Hh|auto|]. apply Hw; [do 2 right; left|done].
  - constructor. apply Hw; [left|done].
  - constructor; [auto|rewrite Hh; eauto|done].
  - constructor. rewrite Hh; eauto.
Qed.

Lemma val_is_Some sm s : is_Some (sm !! s) ↔ is_Some (val sm s).
Proof. unfold val. by rewrite fmap_is_Some. Qed.
Lemma val_exists sm sm' s : val sm' s = val sm s → is_Some (sm !! s) → is_Some (sm' !! s).
Proof. intros Hv. by rewrite !val_is_Some Hv. Qed.
Lemma val_insert sm s v l s' : val (<[s := Semaphore v l]> sm) s' = if decide (s' = s) then Some v else val sm s'.
Proof. unfold val. case_decide; [subst; by rewrite lookup_insert_eq|by rewrite lookup_insert_ne]. Qed.
Lemma val_delete sm s s' : val (base.delete s sm) s' = if decide (s' = s) then None else val sm s'.
Proof. unfold val. case_decide; [subst; by rewrite lookup_delete_eq|by rewrite lookup_delete_ne]. Qed.

Lemma between_inj l l' c : between l c → between l' c → l = l'.
Proof. destruct c as [|[] ?]; try done; simpl; [destruct s|]; try done; congruence. Qed.

(** ** What does not change *)

Lemma lock_inv_frame sm sm' T cur c l h :
  lock_inv sm T l h → val sm' (LockSema l) = val sm (LockSema l) → (between l c ↔ between l (T cur)) →
  lock_inv sm' (upd T cur c) l h.
Proof.
  intros (o & Hv & Hb & Ho) Hval Hc. exists o. split_and!; [by rewrite Hval| |done]. intros t. rewrite -Hb. by upd_cases.
Qed.
Lemma cond_inv_frame sm sm' T cur c ws :
  cond_inv sm T ws → (∀ w, w ∈ ws → val sm' (WaiterSema w) = val sm (WaiterSema w)) →
  (∀ w, SemaDown (WaiterSema w) ∈ T cur → w ∈ ws → SemaDown (WaiterSema w) ∈ c) →
  cond_inv sm' (upd T cur c) ws.
Proof.
  intros [Hnd Hws] Hval Hc. split; [done|]. intros w Hw. destruct (Hws _ Hw) as [Hv [t Ht]]. rewrite Hval //.
  split; [done|]. exists t. upd_cases; auto.
Qed.

(** One thread goes on. *)
Lemma sync_step sm sm' hs hs' cs cs' T cur c :
  sync_inv sm hs cs T →
  (∀ s, is_Some (sm !! Sema s) → is_Some (sm' !! Sema s)) →
  (∀ t w, t ≠ cur → CondDone w ∈ T t → is_Some (sm !! WaiterSema w) → is_Some (sm' !! WaiterSema w)) →
  (∀ l, is_Some (hs !! l) → is_Some (hs' !! l)) →
  (∀ t l, t ≠ cur → is_Some (hs !! l) → hs' !! l = Some (Some t) ↔ hs !! l = Some (Some t)) →
  (∀ c, is_Some (cs !! c) → is_Some (cs' !! c)) →
  (∀ l h, hs' !! l = Some h → lock_inv sm' (upd T cur c) l h) →
  (hs' !! tid_lock = Some (Some cur) → ∃ u, c = [TakeTid u; Unblock u]) →
  (∀ w, CondDone w ∈ c → CondDone w ∈ T cur ∨ ∀ t, CondDone w ∉ T t) →
  (∀ c0 ws, cs' !! c0 = Some ws → cond_inv sm' (upd T cur c) ws) →
  (∀ c c' ws ws' w, cs' !! c = Some ws → cs' !! c' = Some ws' → w ∈ ws → w ∈ ws' → c = c') →
  doing sm' hs' cs' cur c →
  sync_inv sm' hs' cs' (upd T cur c).
Proof.
  intros H Hs Hw Hl Hh Hcs Hlock Htid Hwait Hcond Huniq Hc. destruct H. constructor; auto.
  - intros t. destruct (decide (t = cur)) as [->|Ht]; [by rewrite upd_eq|]. rewrite upd_ne //.
    eapply doing_mono, sy_doing0; eauto.
  - intros t Ht. destruct (decide (t = cur)) as [->|Hne]; [rewrite upd_eq; auto|]. rewrite upd_ne //. apply sy_tid0.
    by apply Hh in Ht.
  - intros t t' w. upd_cases; intros Ht Ht'; auto.
    + destruct (Hwait _ Ht) as [Hcur|Hno]; [eauto|by destruct (Hno t')].
    + destruct (Hwait _ Ht') as [Hcur|Hno]; [eauto|by destruct (Hno t)].
    + eauto.
Qed.

Lemma sync_inv_ext sm sm' hs cs T T' :
  (∀ t, T' t = T t) → (∀ s, val sm' s = val sm s) → sync_inv sm hs cs T → sync_inv sm' hs cs T'.
Proof.
  intros HT Hv [Hd Hl Htl Ht Hw Hc Hu]. constructor; try setoid_rewrite HT; auto.
  - intros t. eapply doing_mono, Hd; auto; intros; apply (val_exists sm); auto.
  - intros l h (o & Ho & Hb & Hh)%Hl. exists o. rewrite Hv. setoid_rewrite HT. done.
  - intros c ws [Hnd Hws]%Hc. split; [done|]. intros w. rewrite Hv. setoid_rewrite HT. auto.
Qed.

(** ** The steps of synch.c *)

Section steps.
Context {sm : gmap sema_addr semaphore} {hs : gmap loc ptr} {cs : gmap loc (list loc)} {T : tasks}.
Context (H : sync_inv sm hs cs T) (cur : loc).

(** Nothing that the invariant speaks of. *)
Lemma sync_frame sm' c :
  (∀ s, is_Some (sm !! Sema s) → is_Some (sm' !! Sema s)) →
  (∀ s, (∀ s0, s ≠ Sema s0) → val sm' s = val sm s) →
  (∀ l, between l c ↔ between l (T cur)) →
  (hs !! tid_lock = Some (Some cur) → T cur = c) →
  (∀ w, CondDone w ∈ c → CondDone w ∈ T cur) →
  (∀ w, SemaDown (WaiterSema w) ∈ T cur → SemaDown (WaiterSema w) ∈ c) →
  doing sm' hs cs cur c →
  sync_inv sm' hs cs (upd T cur c).
Proof.
  intros Hs Hv Hb Htid Hw Hd Hc. eapply sync_step; try exact H; auto.
  - intros t w _ _. by apply val_exists, Hv.
  - intros l h Hl. eapply lock_inv_frame; [by eapply sy_lock|by apply Hv|done].
  - intros Ht. rewrite -Htid //. by eapply sy_tid.
  - intros c0 ws Hws. eapply cond_inv_frame; [by eapply sy_cond|intros; by apply Hv|auto].
  - by eapply sy_cond_unique.
Qed.

(** A lock that is acquired is free, and that is released is held by the thread. *)
Lemma lock_free l v : is_Some (hs !! l) → val sm (LockSema l) = Some v → v ≠ 0 → v = 1 ∧ hs !! l = Some NULL ∧ ∀ t, ¬ between l (T t).
Proof.
  intros [h Hh] Hv Hv0. destruct (sy_lock _ _ _ _ H _ _ Hh) as (o & Hv' & Hb & Ho). destruct o; [congruence|].
  split_and!; [congruence|destruct Ho; congruence|]. by intros t [_ ?]%Hb.
Qed.
Lemma lock_between l t : between l (T t) → is_Some (hs !! l) → hs !! l = Some NULL ∧ val sm (LockSema l) = Some 0.
Proof.
  intros Hb [h Hh]. destruct (sy_lock _ _ _ _ H _ _ Hh) as (o & Hv' & Hb' & Ho). destruct (proj1 (Hb' t) Hb) as [Hn Ht].
  rewrite Ht in Hv'. split; congruence.
Qed.
Lemma lock_held l t : hs !! l = Some (Some t) → val sm (LockSema l) = Some 0 ∧ ∀ t, ¬ between l (T t).
Proof.
  intros Hh. destruct (sy_lock _ _ _ _ H _ _ Hh) as (o & Hv' & Hb' & Ho). destruct Ho as [|<-]; [done|].
  split; [done|]. by intros t' [? _]%Hb'.
Qed.
Lemma lock_sema_exists l : is_Some (hs !! l) → is_Some (sm !! LockSema l).
Proof. intros [h Hh]. destruct (sy_lock _ _ _ _ H _ _ Hh) as (o & Hv' & _). apply val_is_Some. eauto. Qed.

(** [sema_down] of a lock, or the success of [sema_try_down]. *)
Lemma sync_lock_down l v x r :
  is_Some (hs !! l) → val sm (LockSema l) = Some v → v ≠ 0 → (∀ l, ¬ between l (T cur)) →
  (∀ w, SemaDown (WaiterSema w) ∉ T cur) → (∀ w, CondDone w ∈ r → CondDone w ∈ T cur) → hs !! tid_lock ≠ Some (Some cur) →
  after_acquire sm l r →
  sync_inv (<[LockSema l := Semaphore (v - 1) x]> sm) hs cs (upd T cur (LockHold l :: r)).
Proof.
  intros Hl Hv Hv0 Hb Hwd Hw Htid Hr. destruct (lock_free _ _ Hl Hv Hv0) as (-> & Hh & Hnb).
  eapply sync_step; try exact H; auto.
  - intros s. by rewrite lookup_insert_ne.
  - intros t w _ _. by rewrite lookup_insert_ne.
  - intros l' h Hh'. destruct (decide (l' = l)) as [->|Hne].
    + assert (h = NULL) as -> by congruence. exists (Some cur). rewrite val_insert decide_True //. split_and!; [done| |by left].
      intros t. upd_cases; [by split|]. split; [by intros ?%Hnb|by intros [_ [= ->]]].
    + eapply lock_inv_frame; [by eapply sy_lock|rewrite val_insert decide_False //; congruence|].
      split; [simpl; congruence|by intros ?%Hb].
  - by intros [=].
  - intros w [|]%elem_of_cons; [done|auto].
  - intros c0 ws Hws. eapply cond_inv_frame; [by eapply sy_cond|intros; by rewrite val_insert|by intros w ?%Hwd].
  - by eapply sy_cond_unique.
  - constructor; [done|]. eapply after_acquire_mono; [|done]. intros w _. by rewrite lookup_insert_ne.
Qed.

(** The end of [lock_acquire]. *)
Lemma sync_hold l r :
  T cur = LockHold l :: r → is_Some (hs !! l) → after_acquire sm l r →
  sync_inv sm (<[l := Some cur]> hs) cs (upd T cur r).
Proof.
  intros HT Hl Hr. destruct (lock_between l cur) as [Hh Hv]; [by rewrite HT|done|].
  assert (hs !! tid_lock ≠ Some (Some cur)) as Htid by (intros [u Hu]%(sy_tid _ _ _ _ H); congruence).
  eapply sync_step; try exact H; auto.
  - intros l'. rewrite lookup_insert. case_decide; [eauto|done].
  - intros t l' Ht _. rewrite lookup_insert. case_decide; [subst|done]. rewrite Hh. split; congruence.
  - intros l' h Hh'. destruct (decide (l' = l)) as [->|Hne].
    + rewrite lookup_insert_eq in Hh'. injection Hh' as <-. exists (Some cur). split_and!; [done| |by right].
      destruct (sy_lock _ _ _ _ H _ _ Hh) as (o & Hv' & Hb & _). intros t. split; [|by intros [? _]]. upd_cases.
      * by destruct Hr.
      * intros Ht%Hb. assert (between l (T cur)) as Hc by (by rewrite HT). apply Hb in Hc. destruct Ht, Hc. congruence.
    + rewrite lookup_insert_ne // in Hh'. eapply lock_inv_frame; [by eapply sy_lock|done|]. rewrite HT /=.
      split; [by destruct Hr|congruence].
  - rewrite lookup_insert. case_decide; [subst|done]. intros _. inversion Hr; try done. by eexists.
  - intros w ?. left. rewrite HT. by right.
  - intros c0 ws Hws. eapply cond_inv_frame; [by eapply sy_cond|done|]. intros w. rewrite HT elem_of_cons.
    by intros [|?] _.
  - by eapply sy_cond_unique.
  - destruct Hr; constructor; auto. subst. by rewrite lookup_insert_eq.
Qed.

(** The end of [lock_release]. *)
Lemma sync_lock_up l r x :
  T cur = SemaUp (LockSema l) :: r → is_Some (hs !! l) → after_release sm l r →
  sync_inv (<[LockSema l := Semaphore 1 x]> sm) hs cs (upd T cur r).
Proof.
  intros HT Hl Hr. destruct (lock_between l cur) as [Hh Hv]; [by rewrite HT|done|].
  assert (hs !! tid_lock ≠ Some (Some cur)) as Htid by (intros [u Hu]%(sy_tid _ _ _ _ H); congruence).
  assert (∀ l, ¬ between l r) as Hnb by (destruct Hr; auto).
  eapply sync_step; try exact H; auto.
  - intros s. by rewrite lookup_insert_ne.
  - intros t w _ _. by rewrite lookup_insert_ne.
  - intros l' h Hh'. destruct (decide (l' = l)) as [->|Hne].
    + assert (h = NULL) as -> by congruence. exists NULL. rewrite val_insert decide_True //. split_and!; [done| |by left].
      destruct (sy_lock _ _ _ _ H _ _ Hh) as (o & Hv' & Hb & _). intros t. split; [|by intros [_ ?]]. upd_cases; [by intros ?%Hnb|].
      intros Ht%Hb. assert (between l (T cur)) as Hc by (by rewrite HT). apply Hb in Hc. destruct Ht, Hc. congruence.
    + eapply lock_inv_frame; [by eapply sy_lock|rewrite val_insert decide_False //; congruence|].
      rewrite HT. split; [by intros ?%Hnb|simpl; congruence].
  - done.
  - intros w ?. left. rewrite HT. by right.
  - intros c0 ws Hws. eapply cond_inv_frame; [by eapply sy_cond|intros; by rewrite val_insert|]. intros w. rewrite HT elem_of_cons.
    by intros [|?] _.
  - by eapply sy_cond_unique.
  - destruct Hr; constructor; auto; [congruence|by rewrite lookup_insert_ne].
Qed.

(** The assignment to [holder] in [lock_release]; in [cond_wait] there is a new waiter as well. *)
Lemma sync_release_gen sm' cs' l r :
  hs !! l = Some (Some cur) → (l ≠ tid_lock → hs !! tid_lock ≠ Some (Some cur)) →
  (∀ s, is_Some (sm !! s) → is_Some (sm' !! s)) → (∀ l, val sm' (LockSema l) = val sm (LockSema l)) →
  (∀ c, is_Some (cs !! c) → is_Some (cs' !! c)) → (∀ l, ¬ between l (T cur)) →
  (∀ w, CondDone w ∈ r → ∀ t, CondDone w ∉ T t) →
  (∀ c0 ws, cs' !! c0 = Some ws → cond_inv sm' (upd T cur (SemaUp (LockSema l) :: r)) ws) →
  (∀ c c' ws ws' w, cs' !! c = Some ws → cs' !! c' = Some ws' → w ∈ ws → w ∈ ws' → c = c') →
  after_release sm' l r →
  sync_inv sm' (<[l := NULL]> hs) cs' (upd T cur (SemaUp (LockSema l) :: r)).
Proof.
  intros Hh Htid Hs Hv Hcs Hb Hw Hcond Huniq Hr. destruct (lock_held _ _ Hh) as [Hv0 Hnb].
  eapply sync_step; try exact H; auto.
  - intros l'. rewrite lookup_insert. case_decide; [eauto|done].
  - intros t l' Ht _. rewrite lookup_insert. case_decide; [subst|done]. rewrite Hh. split; congruence.
  - intros l' h Hh'. destruct (decide (l' = l)) as [->|Hne].
    + rewrite lookup_insert_eq in Hh'. injection Hh' as <-. exists (Some cur). split_and!; [by rewrite Hv| |by left].
      intros t. upd_cases; [by split|]. split; [by intros ?%Hnb|intros [_ ?]; congruence].
    + rewrite lookup_insert_ne // in Hh'. eapply lock_inv_frame; [by eapply sy_lock|by rewrite Hv|].
      split; [simpl; congruence|by intros ?%Hb].
  - rewrite lookup_insert. case_decide as Hl; [done|]. intros ?. by destruct Htid.
  - intros w [|]%elem_of_cons; [done|auto].
  - constructor; [by rewrite lookup_insert_eq|done].
Qed.

Lemma sync_release l r :
  hs !! l = Some (Some cur) → (l ≠ tid_lock → hs !! tid_lock ≠ Some (Some cur)) → (∀ l, ¬ between l (T cur)) →
  (∀ w, SemaDown (WaiterSema w) ∉ T cur) → (∀ w, CondDone w ∉ r) → after_release sm l r →
  sync_inv sm (<[l := NULL]> hs) cs (upd T cur (SemaUp (LockSema l) :: r)).
Proof.
  intros Hh Htid Hb Hwd Hw Hr. apply sync_release_gen; auto.
  - by intros w ?%Hw.
  - intros c0 ws Hws. eapply cond_inv_frame; [by eapply sy_cond|done|]. by intros w ?%Hwd.
  - by eapply sy_cond_unique.
Qed.

(** A thread that mentions a waiter. *)
Lemma waiter_exists t w : CondDone w ∈ T t → is_Some (sm !! WaiterSema w).
Proof.
  intros Hw. assert (∀ l r, after_acquire sm l r → CondDone w ∈ r → is_Some (sm !! WaiterSema w)) as Ha.
  { intros l r [] Hw'; repeat (apply elem_of_cons in Hw' as [[= ->]|Hw']); try done; by apply elem_of_nil in Hw'. }
  assert (∀ l r, after_release sm l r → CondDone w ∈ r → is_Some (sm !! WaiterSema w)) as Hr.
  { intros l r [] Hw'; repeat (apply elem_of_cons in Hw' as [[= ->]|Hw']); try done; by apply elem_of_nil in Hw'. }
  destruct (sy_doing _ _ _ _ H t); repeat (apply elem_of_cons in Hw as [[= ->]|Hw]); eauto; by apply elem_of_nil in Hw.
Qed.
Lemma down_done t w : SemaDown (WaiterSema w) ∈ T t → CondDone w ∈ T t.
Proof.
  assert (∀ l r, after_acquire sm l r → SemaDown (WaiterSema w) ∈ r → CondDone w ∈ r) as Ha.
  { intros l r [] Hw'; repeat (apply elem_of_cons in Hw' as [[= ->]|Hw']); try done; by apply elem_of_nil in Hw'. }
  assert (∀ l r, after_release sm l r → SemaDown (WaiterSema w) ∈ r → CondDone w ∈ r) as Hr.
  { intros l r [] Hw'; repeat (apply elem_of_cons in Hw' as [[= ->]|Hw']); try (by apply elem_of_nil in Hw'). do 2 right. left. }
  destruct (sy_doing _ _ _ _ H t); intros Hw; repeat (apply elem_of_cons in Hw as [[= ->]|Hw]);
    try (by apply elem_of_nil in Hw); try (by repeat first [left|right]); rewrite ?elem_of_cons; eauto.
Qed.
Lemma new_waiter t w : sm !! WaiterSema w = None → CondDone w ∉ T t.
Proof. intros Hw [x Hx]%waiter_exists. congruence. Qed.

Lemma sync_cond_wait c l w ws x :
  hs !! l = Some (Some cur) → hs !! tid_lock ≠ Some (Some cur) → l ≠ tid_lock → T cur = [] →
  cs !! c = Some ws → sm !! WaiterSema w = None →
  sync_inv (<[WaiterSema w := Semaphore 0 x]> sm) (<[l := NULL]> hs) (<[c := ws ++ [w]]> cs)
    (upd T cur [SemaUp (LockSema l); SemaDown (WaiterSema w); LockAcquire l; CondDone w]).
Proof.
  intros Hh Htid Hl HT Hc Hw.
  assert (∀ c0 ws0, cs !! c0 = Some ws0 → w ∉ ws0) as Hnew.
  { intros c0 ws0 Hc0 Hin. destruct (sy_cond _ _ _ _ H _ _ Hc0) as [_ Hws]. destruct (Hws _ Hin) as [Hv _].
    rewrite /val Hw in Hv. done. }
  assert (∀ v, val (<[WaiterSema w := Semaphore 0 x]> sm) (WaiterSema v) = if decide (v = w) then Some 0 else val sm (WaiterSema v)) as Hval.
  { intros v. rewrite val_insert. repeat case_decide; congruence. }
  assert (∀ c0 ws0, cs !! c0 = Some ws0 → cond_inv (<[WaiterSema w := Semaphore 0 x]> sm)
    (upd T cur [SemaUp (LockSema l); SemaDown (WaiterSema w); LockAcquire l; CondDone w]) ws0) as Hframe.
  { intros c0 ws0 Hws0. eapply cond_inv_frame; [by eapply sy_cond| |].
    - intros v Hv. rewrite Hval decide_False //. intros ->. by eapply Hnew.
    - intros v. rewrite HT. by intros ?%not_elem_of_nil. }
  apply sync_release_gen; auto.
  - intros s [y Hy]. rewrite lookup_insert. case_decide; eauto.
  - intros l'. by rewrite val_insert.
  - intros c0. rewrite lookup_insert. case_decide; eauto.
  - rewrite HT. auto.
  - intros w' Hw' t. repeat (apply elem_of_cons in Hw' as [[= ->]|Hw']); [by apply new_waiter|by apply elem_of_nil in Hw'].
  - intros c0 ws0. rewrite lookup_insert. case_decide; [|apply Hframe]. intros [= <-]. destruct (Hframe _ _ Hc) as [Hnd Hws]. split.
    + apply NoDup_app. split_and!; [done| |apply NoDup_singleton]. intros v Hv ->%list_elem_of_singleton. by eapply Hnew.
    + intros v [Hv| ->%list_elem_of_singleton]%elem_of_app; [by apply Hws|]. rewrite Hval decide_True //. split; [done|].
      exists cur. rewrite upd_eq. right; left.
  - assert (∀ c0 ws0 v, <[c:=ws ++ [w]]> cs !! c0 = Some ws0 → v ∈ ws0 → (v = w ∧ c0 = c) ∨ (v ≠ w ∧ ∃ ws1, cs !! c0 = Some ws1 ∧ v ∈ ws1)) as Hin.
    { intros c0 ws0 v. rewrite lookup_insert. case_decide as Hcc; [subst|].
      - intros [= <-] [Hv| ->%list_elem_of_singleton]%elem_of_app; [right|by left]. split; [|eauto]. intros ->. by eapply Hnew.
      - intros Hc0 Hv. right. split; [|eauto]. intros ->. by eapply Hnew. }
    intros c1 c2 ws1 ws2 v H1 H2 Hv1 Hv2. destruct (Hin _ _ _ H1 Hv1) as [[-> ->]|(Hne & ws1' & Hc1 & Hv1')];
      destruct (Hin _ _ _ H2 Hv2) as [[Hv2'' ->]|(Hne2 & ws2' & Hc2 & Hv2')]; try done.
    by eapply (sy_cond_unique _ _ _ _ H c1 c2).
  - constructor; [done|]. rewrite lookup_insert_eq. eauto.
Qed.

(** The waiter goes on. *)
Lemma sync_wait_down w l v x :
  T cur = [SemaDown (WaiterSema w); LockAcquire l; CondDone w] → val sm (WaiterSema w) = Some v → v ≠ 0 →
  sync_inv (<[WaiterSema w := Semaphore (v - 1) x]> sm) hs cs (upd T cur [LockAcquire l; CondDone w]).
Proof.
  intros HT Hv Hv0. assert (∀ w', is_Some (sm !! WaiterSema w') → is_Some (<[WaiterSema w:=Semaphore (v - 1) x]> sm !! WaiterSema w')) as Hex.
  { intros w' ?. rewrite lookup_insert. case_decide; eauto. }
  pose proof (sy_doing _ _ _ _ H cur) as Hd. rewrite HT in Hd. inversion Hd; subst.
  eapply sync_step; try exact H; auto.
  - intros s. by rewrite lookup_insert_ne.
  - intros l' h Hh. eapply lock_inv_frame; [by eapply sy_lock|by rewrite val_insert|by rewrite HT].
  - intros [u Hu]%(sy_tid _ _ _ _ H). congruence.
  - intros w'. rewrite HT. left. by right.
  - intros c0 ws Hws. destruct (sy_cond _ _ _ _ H _ _ Hws) as [Hnd Hin].
    assert (∀ w', w' ∈ ws → w' ≠ w) as Hne by (intros w' [Hw' _]%Hin ->; congruence).
    eapply cond_inv_frame; [by eapply sy_cond| |].
    + intros w' Hw'%Hne. rewrite val_insert decide_False //. congruence.
    + intros w' Hw' Hin'. rewrite HT in Hw'. repeat (apply elem_of_cons in Hw' as [[= ->]|Hw']); [by destruct (Hne w)|by apply elem_of_nil in Hw'].
  - by eapply sy_cond_unique.
  - constructor; [done..|]. constructor; [done|auto].
Qed.

Lemma sync_done w :
  T cur = [CondDone w] → sync_inv (base.delete (WaiterSema w) sm) hs cs (upd T cur []).
Proof.
  intros HT. assert (∀ s, s ≠ WaiterSema w → val (base.delete (WaiterSema w) sm) s = val sm s) as Hval.
  { intros s Hs. by rewrite val_delete decide_False. }
  assert (∀ t, CondDone w ∈ T t → t = cur) as Hcur.
  { intros t Ht. eapply (sy_waiter _ _ _ _ H); [done|]. rewrite HT. left. }
  eapply sync_step; try exact H; auto.
  - intros s. apply val_exists. by apply Hval.
  - intros t w' Ht Hw'. apply val_exists, Hval. intros [= ->]. auto.
  - intros l h Hh. eapply lock_inv_frame; [by eapply sy_lock|by apply Hval|by rewrite HT].
  - intros [u Hu]%(sy_tid _ _ _ _ H). congruence.
  - by intros w' ?%not_elem_of_nil.
  - intros c0 ws Hws. destruct (sy_cond _ _ _ _ H _ _ Hws) as [Hnd Hin]. eapply cond_inv_frame; [by eapply sy_cond| |].
    + intros w' Hw'. apply Hval. intros [= ->]. destruct (Hin _ Hw') as [_ [t Ht]]. pose proof (down_done _ _ Ht) as Hd%Hcur. subst.
      rewrite HT in Ht. apply elem_of_cons in Ht as [|Ht]; [done|by apply elem_of_nil in Ht].
    + intros w' Hw'. rewrite HT in Hw'. apply elem_of_cons in Hw' as [|Hw']; [done|by apply elem_of_nil in Hw'].
  - by eapply sy_cond_unique.
  - constructor.
Qed.

(** No thread goes on. *)
Lemma sync_stay sm' hs' cs' :
  (∀ s, is_Some (sm !! s) → is_Some (sm' !! s)) →
  (∀ l, is_Some (hs !! l) → hs' !! l = hs !! l) →
  (∀ c, is_Some (cs !! c) → is_Some (cs' !! c)) →
  (∀ l h, hs' !! l = Some h → lock_inv sm' T l h) →
  (∀ c0 ws, cs' !! c0 = Some ws → cond_inv sm' T ws) →
  (∀ c c' ws ws' w, cs' !! c = Some ws → cs' !! c' = Some ws' → w ∈ ws → w ∈ ws' → c = c') →
  sync_inv sm' hs' cs' T.
Proof.
  intros Hs Hh Hc Hlock Hcond Huniq. assert (∀ l, is_Some (hs !! l) → is_Some (hs' !! l)) as Hh' by (intros l Hl; rewrite Hh //).
  constructor; auto.
  - intros t. eapply doing_mono, (sy_doing _ _ _ _ H t); auto. intros l Hl. by rewrite Hh.
  - apply Hh', (sy_tid_lock _ _ _ _ H).
  - intros t. rewrite Hh; [apply (sy_tid _ _ _ _ H)|apply (sy_tid_lock _ _ _ _ H)].
  - apply (sy_waiter _ _ _ _ H).
Qed.

Lemma sync_lock_init l x :
  hs !! l = None → sync_inv (<[LockSema l := Semaphore 1 x]> sm) (<[l := NULL]> hs) cs T.
Proof.
  intros Hl. apply sync_stay; auto.
  - intros s ?. rewrite lookup_insert. case_decide; eauto.
  - intros l' [h Hh]. rewrite lookup_insert_ne //. congruence.
  - intros l' h. rewrite lookup_insert. case_decide as Hne.
    + intros [= <-]. subst. exists NULL. rewrite val_insert decide_True //. split_and!; [done| |by left]. intros t.
      split; [|by intros [_ ?]]. intros Hb. exfalso. pose proof (sy_doing _ _ _ _ H t) as Hd.
      destruct Hd as [| | | |l0 r [? ?]|l0 r [? ?]| | | | |]; simpl in Hb; try done; congruence.
    + intros Hh. destruct (sy_lock _ _ _ _ H _ _ Hh) as (o & Hv & Ho). exists o. rewrite val_insert decide_False //. congruence.
  - intros c ws [Hnd Hws]%(sy_cond _ _ _ _ H). split; [done|]. intros w. rewrite val_insert. case_decide; [done|auto].
  - apply (sy_cond_unique _ _ _ _ H).
Qed.

Lemma sync_cond_init c : cs !! c = None → sync_inv sm hs (<[c := []]> cs) T.
Proof.
  intros Hc. apply sync_stay; auto.
  - intros c0 [ws Hws]. rewrite lookup_insert. case_decide; eauto.
  - apply (sy_lock _ _ _ _ H).
  - intros c0 ws. rewrite lookup_insert. case_decide; [|apply (sy_cond _ _ _ _ H)]. intros [= <-].
    split; [constructor|]. by intros w ?%not_elem_of_nil.
  - intros c1 c2 ws1 ws2 w. rewrite !lookup_insert. repeat case_decide; [congruence|..].
    + by intros [= <-] _ ?%not_elem_of_nil.
    + by intros _ [= <-] _ ?%not_elem_of_nil.
    + apply (sy_cond_unique _ _ _ _ H).
Qed.

Lemma sync_sema s x : sync_inv (<[Sema s := x]> sm) hs cs T.
Proof.
  assert (∀ s', (∀ s0, s' ≠ Sema s0) → val (<[Sema s := x]> sm) s' = val sm s') as Hv.
  { intros s' Hs'. unfold val. by rewrite lookup_insert_ne. }
  apply sync_stay; auto.
  - intros s' ?. rewrite lookup_insert. case_decide; eauto.
  - intros l h (o & Ho & ?)%(sy_lock _ _ _ _ H). exists o. rewrite Hv //.
  - intros c ws [Hnd Hws]%(sy_cond _ _ _ _ H). split; [done|]. intros w. rewrite Hv //. auto.
  - apply (sy_cond_unique _ _ _ _ H).
Qed.

(** [cond_signal] takes a waiter out and lets it go on. *)
Lemma sync_signal c w ws v x :
  cs !! c = Some (w :: ws) → sync_inv (<[WaiterSema w := Semaphore v x]> sm) hs (<[c := ws]> cs) T.
Proof.
  intros Hc. destruct (sy_cond _ _ _ _ H _ _ Hc) as [[Hw Hnd]%NoDup_cons Hws].
  assert (∀ c0 ws0, <[c := ws]> cs !! c0 = Some ws0 → ∃ ws1, cs !! c0 = Some ws1 ∧ (∀ v, v ∈ ws0 → v ∈ ws1 ∧ v ≠ w) ∧ NoDup ws0) as Hsub.
  { intros c0 ws0. rewrite lookup_insert. case_decide as Hcc.
    - intros [= <-]. exists (w :: ws). subst. split_and!; [done| |done]. intros u Hu. split; [by right|congruence].
    - intros Hc0. exists ws0. destruct (sy_cond _ _ _ _ H _ _ Hc0) as [Hnd0 _]. split_and!; [done| |done].
      intros u Hu. split; [done|]. intros ->. apply Hcc. symmetry. eapply (sy_cond_unique _ _ _ _ H c0 c); [done..|]. left. }
  apply sync_stay; auto.
  - intros s' ?. rewrite lookup_insert. case_decide; eauto.
  - intros c0 [ws0 ?]. rewrite lookup_insert. case_decide; eauto.
  - intros l h (o & Ho & ?)%(sy_lock _ _ _ _ H). exists o. rewrite val_insert //.
  - intros c0 ws0 (ws1 & Hc1 & Hin & Hnd0)%Hsub. split; [done|]. intros u [Hu1 Hu]%Hin.
    rewrite val_insert decide_False; [by apply (sy_cond _ _ _ _ H _ _ Hc1)|congruence].
  - intros c1 c2 ws1 ws2 u (ws1' & Hc1 & Hin1 & _)%Hsub (ws2' & Hc2 & Hin2 & _)%Hsub [Hu1 _]%Hin1 [Hu2 _]%Hin2.
    by eapply (sy_cond_unique _ _ _ _ H c1 c2).
Qed.
End steps.
End locks.
