(* ===== verification/PintosKernel.v ===== *)
(** The kernel of src/bin/OS/pintos/src/threads: the invariants of the scheduler
    and of the synchronisation primitives together, and that every move of the
    machine (a call, an interrupt, the rest of a suspended function) preserves them. *)
From S2P Require Export PintosLocks.
Local Open Scope Z_scope.

Section kernel.
Context (tid_lock : loc).
Abbreviation run_move := (run_move tid_lock).
Abbreviation move_ok := (move_ok tid_lock).
Abbreviation sync_inv := (sync_inv tid_lock).

(** What the threads of a kernel are to do. *)
Definition todo (k : kernel) : tasks := tk (cd (threads k)).
Definition sync_ok (k : kernel) : Prop := sync_inv (semas k) (holders k) (conds k) (todo k).

(** The invariant of the kernel, between two moves. *)
Record kernel_inv (k : kernel) : Prop := {
  ki_sched : sched_ok (Some (current k)) k;
  ki_sync : sync_ok k;
  ki_going : going k;
  ki_external : in_external_intr k = false;
}.

(** * Lemmas *)

Lemma running k : sched_ok (Some (current k)) k → st (threads k) (current k) = Some THREAD_RUNNING.
Proof. intros H. by apply (si_running _ _ _ _ _ _ H). Qed.
Lemma running_code k : sched_ok (Some (current k)) k → is_Some (st (threads k) (current k)).
Proof. intros H. rewrite running //. Qed.

Lemma todo_set_code t c k u : is_Some (st (threads k) t) → todo (set_code t c k) u = upd (todo k) t (task_of c) u.
Proof.
  intros Ht. unfold todo. rewrite -tk_upd. apply tk_ext. by apply cd_alter_code.
Qed.
Lemma todo_current k c : cd (threads k) (current k) = Some c → todo k (current k) = task_of c.
Proof. apply tk_cd. Qed.

Lemma sync_ext k T : sync_inv (semas k) (holders k) (conds k) T → (∀ u, todo k u = T u) → sync_ok k.
Proof. intros H HT. by eapply sync_inv_ext; [..|exact H]. Qed.

Lemma switched_inv k k' : switched k k' → sync_ok k → in_external_intr k = false → kernel_inv k'.
Proof.
  intros [Hs Hg Hoff [Ht Hsm Hh Hc _ _ He]] H Hext. constructor; [done| |done|congruence].
  unfold sync_ok. rewrite Hsm Hh Hc. eapply sync_inv_ext; [..|exact H]; done.
Qed.

Lemma not_idle k c on : coded (is_idle (idle_thread k) (current k)) on c → is_idle (idle_thread k) (current k) = false →
  idle_thread k ≠ Some (current k).
Proof. unfold is_idle. intros _ H%bool_decide_eq_false. done. Qed.

Lemma plain_task c u : Forall plain c → Unblock u ∈ task_of c ↔ Unblock u ∈ c.
Proof. intros. by rewrite task_of_plain. Qed.
Lemma plain_not_loop s b c c0 : Forall plain c → c ≠ SemaDownLoop s b :: c0.
Proof. intros H ->. by apply Forall_cons in H as [? _]. Qed.

(** The thread that runs has the code [c] and is in a call. *)
Record in_call (k : kernel) (c : list instr) : Prop := {
  ic_sched : sched_ok (Some (current k)) k;
  ic_code : cd (threads k) (current k) = Some c;
  ic_plain : Forall plain c;
  ic_idle : idle_thread k ≠ Some (current k);
  ic_on : intr_on k = true;
  ic_external : in_external_intr k = false;
}.

Lemma in_call_inv k c : in_call k c → sync_ok k → kernel_inv k.
Proof.
  intros [] H. constructor; [done..| |done]. exists c. split; [done|]. rewrite ic_on0 /is_idle bool_decide_false //. by constructor.
Qed.

(** * Semaphores *)

Lemma sync_down sm hs cs T cur s c v x :
  sync_inv sm hs cs T → T cur = SemaDown s :: c → val sm s = Some v → v ≠ 0 →
  sync_inv (<[s := Semaphore (v - 1) x]> sm) hs cs (upd T cur c).
Proof.
  intros H HT Hv Hv0. pose proof (sy_doing _ _ _ _ _ H cur) as Hd. rewrite HT in Hd.
  assert (hs !! tid_lock ≠ Some (Some cur)) as Htid by (intros [u Hu]%(sy_tid _ _ _ _ _ H); congruence).
  inversion Hd as [|s' Hs| |l r Hl Hr| | |w l Hl Hh Hne Hw| | | |]; subst.
  - eapply (sync_frame _ H); auto; rewrite ?HT; try done.
    + intros s0 ?. rewrite lookup_insert. case_decide; eauto.
    + intros s0 Hs0. rewrite val_insert. case_decide; [|done]. subst. by edestruct Hs0.
    + by intros w ?%not_elem_of_nil.
    + intros w Hw. apply elem_of_cons in Hw as [|Hw]; [done|by apply elem_of_nil in Hw].
    + constructor.
  - eapply (sync_lock_down _ H); eauto; rewrite ?HT; auto.
    + intros w Hw. repeat (apply elem_of_cons in Hw as [|Hw]; [done|]). destruct Hr; repeat (apply elem_of_cons in Hw as [|Hw]; [done|]); by apply elem_of_nil in Hw.
    + intros w Hw. by do 2 right.
  - by eapply (sync_wait_down _ H).
Qed.

(** [sema_down_loop], from [sema_down] or when the thread has been woken. *)
Lemma sema_down_loop_ok k s c :
  sched_ok (Some (current k)) (set_code (current k) (SemaDownLoop s true :: c) k) →
  sync_inv (semas k) (holders k) (conds k) (upd (todo k) (current k) (SemaDown s :: c)) →
  cd (threads k) (current k) = Some c → Forall plain c → idle_thread k ≠ Some (current k) →
  in_external_intr k = false → intr_on k = false →
  pwp (sema_down_loop s true) k (λ _ k', kernel_inv k' ∧ holders k' = holders k).
Proof.
  intros Hok Hsync Hc Hplain Hidle Hext Hoff.
  assert (is_Some (st (threads k) (current k))) as Hcur by (rewrite st_cd Hc; eauto).
  set (k0 := set_code (current k) (SemaDownLoop s true :: c) k) in Hok.
  assert (cd (threads k0) (current k) = Some (SemaDownLoop s true :: c)) as Hc0 by (simpl; by rewrite cd_alter_code // upd_eq).
  assert (∃ x, semas k !! s = Some x) as [x Hx].
  { pose proof (sy_doing _ _ _ _ _ Hsync (current k)) as Hd. rewrite upd_eq in Hd. inversion Hd; subst; try done.
    by eapply (lock_sema_exists _ Hsync). }
  unfold sema_down_loop. psteps. apply (pwp_get_sema k s x); [done|]. case_bool_decide as Hv; psteps.
  - apply pwp_thread_current; [rewrite -(st_alter_code _ (current k) _ (SemaDownLoop s true :: c)); by apply (running k0)|]. psteps.
    apply (pwp_set_waiters k s x); [done|]. psteps. eapply pwp_resume_with; [exact Hc|]. cbn [app current with_semas].
    change (set_code (current k) _ _) with (with_semas <[s := Semaphore (value x) (waiters x ++ [current k0])]> k0).
    apply (thread_block_wait_spec k0 s x c); try done. intros k' Hk'. split.
    + eapply switched_inv; [done| |done]. eapply sync_inv_ext; [..|exact Hsync].
      * intros u. apply todo_set_code. done.
      * intros s'. simpl. rewrite val_insert. case_decide; [subst|done]. by rewrite /val Hx.
    + apply (quiet_holders _ _ (sw_quiet _ _ Hk')).
  - apply (pwp_set_value k s x); [done|]. psteps. apply pwp_intr_set_level; [done|]. psteps.
    destruct (si_woken _ _ _ _ _ _ Hok s x Hx) as [Hr _]. rewrite wrap_u_id; [|unfold in_u in *; lia].
    assert (sched_inv (st (threads k)) (cd (threads k)) (ready_list k) (idle_thread k)
      (<[s := Semaphore (value x - 1) (waiters x)]> (semas k)) (Some (current k))) as Hok'.
    { eapply sched_inv_ext; [..|eapply sched_inv_down; [exact Hok|exact Hc0|done|exact Hx|done]].
      - intros u. simpl. by rewrite st_alter_code.
      - intros u. unfold k0. simpl. unfold upd. case_decide; [subst; done|]. by rewrite cd_alter_code // upd_ne. }
    split; [|done]. apply (in_call_inv _ c); [by constructor|].
    eapply sync_ext; [eapply (sync_down _ _ _ _ (current k)); [exact Hsync|by rewrite upd_eq|by rewrite /val Hx|done]|].
    intros u. rewrite upd_upd. unfold upd. case_decide; [subst|done]. rewrite (todo_current _ c) //. by rewrite task_of_plain.
Qed.

(** [sema_down], called. *)
Lemma sema_down_ok k s c :
  in_call k c → sync_inv (semas k) (holders k) (conds k) (upd (todo k) (current k) (SemaDown s :: c)) →
  pwp (sema_down s) k (λ _ k', kernel_inv k' ∧ holders k' = holders k).
Proof.
  intros [] Hsync. unfold sema_down. passert; [by rewrite ic_external0|]. rewrite ic_on0.
  set (k0 := with_intr false _ _ k). apply (sema_down_loop_ok k0 s c); try done.
  apply (recode_ok k0 c); [done..| |].
  - intros u. rewrite /= plain_task // elem_of_cons. split; [by intros [|]|auto].
  - intros s' c0 Hc0. by eapply plain_not_loop in Hc0.
Qed.

(** A call that another follows. *)
Lemma in_call_recode k c c' :
  in_call k c → Forall plain c' → (∀ u, Unblock u ∈ c' ↔ Unblock u ∈ c) → in_call (set_code (current k) c' k) c'.
Proof.
  intros [] Hp Hu. constructor; try done.
  - apply (recode_ok k c); [done..| |]; [intros u; rewrite !plain_task //|]. intros s c0 Hc0. by eapply plain_not_loop in Hc0.
  - simpl. rewrite cd_alter_code ?upd_eq //. by apply running_code.
Qed.
Lemma in_call_resume k c c' Q :
  in_call k c → (Q tt (set_code (current k) (c' ++ c) k)) → pwp (resume_with c') k Q.
Proof. intros []. by apply pwp_resume_with. Qed.
Lemma in_call_todo k c u : in_call k c → todo k u = upd (todo k) (current k) c u.
Proof. intros []. upd_cases; [|done]. rewrite (todo_current _ c) // task_of_plain //. Qed.
Lemma todo_recode k c c' u : in_call k c → Forall plain c' → todo (set_code (current k) c' k) u = upd (todo k) (current k) c' u.
Proof. intros [] ?. rewrite todo_set_code ?task_of_plain //. by apply running_code. Qed.

Lemma in_call_current k c Q : in_call k c → Q (current k) k → pwp thread_current k Q.
Proof. intros []. apply pwp_thread_current. by apply running. Qed.
Lemma in_call_held k c l h Q :
  in_call k c → holders k !! l = Some h → Q (bool_decide (h = Some (current k))) k → pwp (lock_held_by_current_thread l) k Q.
Proof.
  intros Hc Hh HQ. unfold lock_held_by_current_thread, get_holder. psteps. rewrite Hh. cbn [defined]. psteps.
  eapply in_call_current; [done|]. by psteps.
Qed.

(** [sema_up], called. *)
Lemma sema_up_ok k c s x Q :
  in_call k c → semas k !! s = Some x →
  (∀ k', in_call k' c → valued s (wrap_u 32 (value x + 1)) k k' → Q tt k') → pwp (sema_up s) k Q.
Proof.
  intros [] Hx HQ. apply (sema_up_spec (Some (current k)) k s x); [done..|]. intros k' Hok' Hv. apply HQ; [|done].
  destruct Hv. constructor; try congruence; by rewrite ?va_current0.
Qed.

Lemma valued_todo s v k k' u : valued s v k k' → todo k' u = todo k u.
Proof. intros []. by apply tk_ext. Qed.

(** * Locks *)

(** What a move shows of the locks. *)
Definition owner (k : kernel) (l : loc) : ptr := mjoin (holders k !! l).
Definition event_ok (k : kernel) (e : option event) (k' : kernel) : Prop :=
  match e with
  | None => ∀ l, owner k' l = owner k l
  | Some (Acquired t l) => t = current k ∧ owner k l = NULL ∧ ∀ l', owner k' l' = if decide (l' = l) then Some t else owner k l'
  | Some (Released t l) => t = current k ∧ owner k l = Some t ∧ ∀ l', owner k' l' = if decide (l' = l) then NULL else owner k l'
  end.
Lemma event_none k k' : holders k' = holders k → event_ok k None k'.
Proof. intros H l. unfold owner. by rewrite H. Qed.

Lemma lock_acquire_ok k l h r :
  in_call k r → holders k !! l = Some h → h ≠ Some (current k) →
  sync_inv (semas k) (holders k) (conds k) (upd (todo k) (current k) (SemaDown (LockSema l) :: LockHold l :: r)) →
  pwp (lock_acquire l) k (λ _ k', kernel_inv k' ∧ holders k' = holders k).
Proof.
  intros Hc Hh Hne Hsync. unfold lock_acquire. passert; [by destruct Hc as [? ? ? ? ? ->]|].
  eapply in_call_held; [done..|]. rewrite bool_decide_false //. passert; [done|]. eapply in_call_resume; [done|].
  assert (Forall plain (LockHold l :: r)) as Hp by (constructor; [done|apply Hc]).
  apply (sema_down_ok (set_code (current k) (LockHold l :: r) k) _ (LockHold l :: r)).
  - apply (in_call_recode k r); [done..|]. intros u. rewrite elem_of_cons. split; [by intros [|]|auto].
  - simpl. eapply sync_inv_ext; [..|exact Hsync]; [|done]. intros u. rewrite /upd. case_decide; [done|].
    rewrite (todo_recode _ r) // upd_ne //.
Qed.

(** The end of [lock_acquire]. *)
Lemma lock_hold_ok k l r :
  in_call k r → sync_inv (semas k) (holders k) (conds k) (upd (todo k) (current k) (LockHold l :: r)) →
  pwp (lock_hold l) k (λ e k', kernel_inv k' ∧ event_ok k e k').
Proof.
  intros Hc Hsync. unfold lock_hold. psteps. eapply in_call_current; [done|]. psteps.
  pose proof (sy_doing _ _ _ _ _ Hsync (current k)) as Hd. rewrite upd_eq in Hd. inversion Hd as [| | | |l' r' Hl Hr| | | | | |]; subst.
  destruct (lock_between _ Hsync l (current k)) as [Hh _]; [by rewrite upd_eq|done|]. split.
  - apply (in_call_inv _ r); [by destruct Hc|]. eapply sync_ext.
    + eapply (sync_hold _ Hsync (current k) l r); [by rewrite upd_eq|done..].
    + intros u. rewrite upd_upd. by apply (in_call_todo k r).
  - split_and!; [done| |].
    + unfold owner. by rewrite Hh.
    + intros l'. unfold owner. simpl. rewrite lookup_insert. repeat case_decide; simpl; congruence.
Qed.

(** [lock_release] up to [sema_up]. *)
Lemma lock_release_ok k l r :
  in_call k r → holders k !! l = Some (Some (current k)) →
  sync_inv (semas k) (<[l := NULL]> (holders k)) (conds k) (upd (todo k) (current k) (SemaUp (LockSema l) :: r)) →
  pwp (lock_release l) k (λ e k', kernel_inv k' ∧ event_ok k e k').
Proof.
  intros Hc Hh Hsync. unfold lock_release. psteps. eapply in_call_held; [done..|]. rewrite bool_decide_true //.
  passert; [done|]. set (k1 := with_holders _ k). assert (in_call k1 r) as Hc1 by by destruct Hc.
  eapply in_call_resume; [exact Hc1|]. psteps.
  assert (Forall plain (SemaUp (LockSema l) :: r)) as Hp by (constructor; [done|apply Hc]). split.
  - apply (in_call_inv _ (SemaUp (LockSema l) :: r)).
    + apply (in_call_recode k1 r); [done..|]. intros u. rewrite elem_of_cons. split; [by intros [|]|auto].
    + eapply sync_ext; [exact Hsync|]. intros u. by apply (todo_recode k1 r).
  - split_and!; [done| |].
    + unfold owner. by rewrite Hh.
    + intros l'. unfold owner. simpl. rewrite lookup_insert. repeat case_decide; simpl; congruence.
Qed.

(** The end of [lock_release]. *)
Lemma lock_up_ok k l r :
  in_call k r → sync_inv (semas k) (holders k) (conds k) (upd (todo k) (current k) (SemaUp (LockSema l) :: r)) →
  pwp (sema_up (LockSema l)) k (λ _ k', kernel_inv k' ∧ holders k' = holders k).
Proof.
  intros Hc Hsync. pose proof (sy_doing _ _ _ _ _ Hsync (current k)) as Hd. rewrite upd_eq in Hd.
  inversion Hd as [| | | | |l' r' Hl Hr| | | | |]; subst.
  destruct (lock_between _ Hsync l (current k)) as [Hh Hv]; [by rewrite upd_eq|done|].
  unfold val in Hv. destruct (semas k !! LockSema l) as [x|] eqn:Hx; [|done]. injection Hv as Hv.
  eapply sema_up_ok; [done..|]. intros k' Hc' Hval. rewrite Hv in Hval. split; [|apply Hval].
  apply (in_call_inv _ r); [done|]. destruct (va_sema _ _ _ _ Hval) as [l0 Hl0].
  eapply sync_inv_ext; [| |rewrite (va_holders _ _ _ _ Hval) (va_conds _ _ _ _ Hval)].
  3:{ eapply (sync_lock_up _ Hsync (current k) l r l0); [by rewrite upd_eq|done..]. }
  - intros u. rewrite (valued_todo _ _ _ _ u Hval) upd_upd. by apply (in_call_todo k r).
  - intros s. by rewrite Hl0.
Qed.

(** * Condition variables *)

Lemma cond_signal_ok k c l ws Q :
  in_call k [] → sync_ok k → conds k !! c = Some ws → holders k !! l = Some (Some (current k)) →
  (∀ k', in_call k' [] → sync_ok k' → holders k' = holders k → current k' = current k → is_Some (conds k' !! c) → Q tt k') →
  pwp (cond_signal c l) k Q.
Proof.
  intros Hc Hsync Hws Hh HQ. unfold cond_signal. passert; [by destruct Hc as [? ? ? ? ? ->]|].
  eapply in_call_held; [done..|]. rewrite bool_decide_true //. passert; [done|]. unfold get_cond. psteps. rewrite Hws.
  cbn [defined]. psteps. destruct ws as [|w ws]; psteps; [apply HQ; eauto|].
  destruct (sy_cond _ _ _ _ _ Hsync _ _ Hws) as [_ Hin]. destruct (Hin w) as [Hv _]; [left|].
  unfold val in Hv. destruct (semas k !! WaiterSema w) as [x|] eqn:Hx; [|done].
  set (k1 := with_conds _ k). assert (in_call k1 []) as Hc1 by by destruct Hc.
  eapply sema_up_ok; [exact Hc1|exact Hx|]. intros k' Hc' Hval. destruct (va_sema _ _ _ _ Hval) as [l0 Hl0]. apply HQ; [done|..].
  - unfold sync_ok. rewrite Hl0 (va_holders _ _ _ _ Hval) (va_conds _ _ _ _ Hval). eapply sync_inv_ext; [| |].
    3:{ eapply (sync_signal _ Hsync c w ws). done. }
    + intros u. rewrite (valued_todo _ _ _ _ u Hval). done.
    + intros s. done.
  - apply (va_holders _ _ _ _ Hval).
  - apply (va_current _ _ _ _ Hval).
  - rewrite (va_conds _ _ _ _ Hval) /= lookup_insert_eq. eauto.
Qed.

(** The loop of [cond_broadcast] begins, or goes on. *)
Lemma cond_broadcast_push k c l :
  in_call k [] → sync_ok k → is_Some (conds k !! c) → holders k !! l = Some (Some (current k)) → l ≠ tid_lock →
  pwp (resume_with [CondBroadcast c l]) k (λ _ k', kernel_inv k' ∧ holders k' = holders k).
Proof.
  intros Hc Hsync Hws Hh Hl. eapply in_call_resume; [done|]. cbn [app]. split; [|done].
  assert (Forall plain [CondBroadcast c l]) as Hp by repeat constructor.
  assert (todo k (current k) = []) as HT by by destruct Hc; rewrite (todo_current _ []).
  apply (in_call_inv _ [CondBroadcast c l]).
  - apply (in_call_recode k []); [done..|]. intros u. by rewrite list_elem_of_singleton elem_of_nil.
  - eapply sync_ext; [|intros u; by apply (todo_recode k [])]. eapply (sync_frame _ Hsync); rewrite ?HT; try done.
    + intros [u Hu]%(sy_tid _ _ _ _ _ Hsync). congruence.
    + intros w Hw. by apply list_elem_of_singleton in Hw.
    + by intros w ?%not_elem_of_nil.
    + by constructor.
Qed.

Lemma cond_broadcast_ok k c l ws :
  in_call k [] → sync_ok k → conds k !! c = Some ws → holders k !! l = Some (Some (current k)) → l ≠ tid_lock →
  pwp (cond_broadcast c l) k (λ _ k', kernel_inv k' ∧ holders k' = holders k).
Proof.
  intros Hc Hsync Hws Hh Hl. unfold cond_broadcast, get_cond. psteps. rewrite Hws. cbn [defined]. psteps.
  case_bool_decide; psteps; [|split; [by eapply in_call_inv|done]].
  eapply cond_signal_ok; [done..|]. intros k' Hc' Hsync' Hh' Hcur Hws'. rewrite -Hh'.
  apply cond_broadcast_push; [done..| |done]. by rewrite Hh' Hcur.
Qed.

(** * What a suspended function does *)

Lemma sync_no_tid sm hs cs T t : sync_inv sm hs cs T → (∀ u c, T t ≠ TakeTid u :: c) → hs !! tid_lock ≠ Some (Some t).
Proof. intros H HT [u Hu]%(sy_tid _ _ _ _ _ H). by eapply HT. Qed.

Lemma sync_lock_wait sm hs cs T cur l r :
  sync_inv sm hs cs T → is_Some (hs !! l) → after_acquire tid_lock sm l r →
  (T cur = LockAcquire l :: r ∨ T cur = [] ∧ ∀ w, CondDone w ∉ r) →
  sync_inv sm hs cs (upd T cur (SemaDown (LockSema l) :: LockHold l :: r)).
Proof.
  intros H Hl Hr HT. eapply (sync_frame _ H); try done.
  - intros l'. by destruct HT as [->|[-> _]].
  - intros Htid. exfalso. eapply sync_no_tid in Htid; [done..|]. intros u c. destruct HT as [->|[-> _]]; done.
  - intros w Hw. do 2 (apply elem_of_cons in Hw as [|Hw]; [done|]). destruct HT as [->|[-> Hno]]; [by right|by apply Hno in Hw].
  - intros w Hw. destruct HT as [HT|[HT _]]; rewrite HT in Hw; [|by apply elem_of_nil in Hw].
    apply elem_of_cons in Hw as [|Hw]; [done|]. by do 2 right.
  - by constructor.
Qed.

Lemma exec_ok k i c :
  in_call k c → sync_inv (semas k) (holders k) (conds k) (upd (todo k) (current k) (i :: c)) →
  (∀ u, i ≠ Unblock u) → (∀ u, i = TakeTid u → in_s 32 (next_tid k + 1)) →
  pwp (exec tid_lock i) k (λ e k', kernel_inv k' ∧ event_ok k e k').
Proof.
  intros Hc Hsync Hnu Htid. pose proof (sy_doing _ _ _ _ _ Hsync (current k)) as Hd. rewrite upd_eq in Hd.
  assert (∀ A (m : K A), pwp m k (λ _ k', kernel_inv k' ∧ holders k' = holders k) →
    pwp (m;; mret None) k (λ e k', kernel_inv k' ∧ event_ok k e k')) as Hret.
  { intros A m Hm. psteps. eapply pwp_mono; [exact Hm|]. intros a k' [Hk' Hh]. psteps. split; [done|by apply event_none]. }
  inversion Hd as [|s Hs|l r [h Hh] Hhl Hr|l r Hl Hr|l r Hl Hr|l r Hl Hr|w l Hl Hhl Hne Hw|w Hw|cv l [ws Hws] Hh Hne|u Hh|u]; subst; cbn [exec].
  - apply Hret. by eapply sema_down_ok.
  - apply Hret. eapply lock_acquire_ok; [done..|congruence|]. eapply sync_inv_ext; [| |].
    3:{ eapply (sync_lock_wait _ _ _ _ (current k) l c); [exact Hsync|eauto|done|left; by rewrite upd_eq]. }
    + intros u. by rewrite upd_upd.
    + done.
  - apply Hret. by eapply sema_down_ok.
  - by eapply lock_hold_ok.
  - apply Hret. by eapply lock_up_ok.
  - apply Hret. by eapply sema_down_ok.
  - apply Hret. unfold cond_done. psteps. split; [|done]. apply (in_call_inv _ []).
    + destruct Hc. constructor; try done. by apply sched_inv_delete_sema.
    + eapply sync_ext; [eapply (sync_done _ Hsync (current k)); by rewrite upd_eq|].
      intros u. rewrite upd_upd. by apply (in_call_todo k []).
  - apply Hret. eapply cond_broadcast_ok; [done| |done..]. eapply sync_ext.
    + eapply (sync_frame _ Hsync (current k) (semas k) []); rewrite ?upd_eq; try done.
      * intros Ht. exfalso. eapply sync_no_tid in Ht; [done|exact Hsync|]. by rewrite upd_eq.
      * by intros w ?%not_elem_of_nil.
      * intros w Hw. by apply list_elem_of_singleton in Hw.
      * constructor.
    + intros u. rewrite upd_upd. by apply (in_call_todo k []).
  - unfold take_tid. psteps. rewrite int_of_in; [|by eapply Htid]. cbn [defined]. psteps. set (k1 := with_threads _ _).
    assert (∀ t, st (threads k1) t = st (threads k) t) as Hst.
    { intros t. unfold st, k1. simpl. rewrite lookup_alter. case_decide; [subst; by destruct (threads k !! t)|done]. }
    assert (∀ t, cd (threads k1) t = cd (threads k) t) as Hcd.
    { intros t. unfold cd, k1. simpl. rewrite lookup_alter. case_decide; [subst; by destruct (threads k !! t)|done]. }
    assert (in_call k1 [Unblock u]) as Hc1.
    { destruct Hc. constructor; try done; [|by rewrite Hcd]. eapply sched_inv_ext; [exact Hst|exact Hcd|done]. }
    eapply pwp_mono; [eapply (lock_release_ok k1 _ [Unblock u]); [done..|]|].
    + eapply sync_inv_ext; [| |eapply (sync_release _ Hsync (current k) tid_lock [Unblock u]); try done; rewrite ?upd_eq].
      * intros t. simpl. rewrite upd_upd. upd_cases; [done|]. by apply tk_ext.
      * done.
      * by intros l [].
      * intros w Hw. do 2 (apply elem_of_cons in Hw as [|Hw]; [done|]). by apply elem_of_nil in Hw.
      * intros w Hw. by apply list_elem_of_singleton in Hw.
      * by constructor.
    + intros e k' [Hk' He]. split; [done|]. exact He.
  - by edestruct Hnu.
Qed.

(** The thread that is created is unblocked. *)
Lemma unblock_ok k u :
  in_call k [Unblock u] → sync_ok k →
  pwp (thread_unblock u) (set_code (current k) [] k) (λ _ k', kernel_inv k' ∧ holders k' = holders k).
Proof.
  intros Hc Hsync. assert (todo k (current k) = [Unblock u]) as HT by by destruct Hc; rewrite (todo_current _ [Unblock u]).
  assert (is_Some (st (threads k) (current k))) as Hcur by (destruct Hc; by apply running_code).
  assert (∀ s, ¬ waits_at (cd (threads k)) (current k) s) as Hw.
  { intros s [c Hc0]. destruct Hc. congruence. }
  assert (Unblock u ∈ todo k (current k)) as Hu by (rewrite HT; left).
  destruct (si_new _ _ _ _ _ _ (ic_sched _ _ Hc) _ _ Hu) as [Hb Hnew].
  apply thread_unblock_spec; [by rewrite /= st_alter_code|by destruct Hc|]. split; [|done].
  assert (u ≠ current k) as Huc.
  { intros ->. rewrite running in Hb; [done|apply Hc]. }
  apply (in_call_inv _ []).
  - destruct Hc. constructor; try done.
    + eapply sched_inv_ext; [..|eapply (sched_inv_unblock _ _ _ _ _ _ [] u); [exact ic_sched0|done| |done]].
      * intros t. simpl. rewrite st_alter_status; [|by rewrite st_alter_code Hb]. unfold upd. case_decide; [done|apply st_alter_code].
      * intros t. simpl. rewrite cd_alter_status. by apply cd_alter_code.
      * intros v. change (Unblock v ∈ [] ↔ Unblock v ∈ todo k (current k) ∧ v ≠ u).
        rewrite HT elem_of_nil list_elem_of_singleton. split; [done|]. intros [? ?]. congruence.
    + simpl. rewrite cd_alter_status cd_alter_code // upd_eq //.
  - eapply sync_ext.
    + eapply (sync_frame _ Hsync (current k) (semas k) []); rewrite ?HT; try done.
      * intros Ht. exfalso. eapply sync_no_tid in Ht; [done|exact Hsync|]. by rewrite HT.
      * by intros w ?%not_elem_of_nil.
      * intros w Hw'. by apply list_elem_of_singleton in Hw'.
      * constructor.
    + intros t. transitivity (tk (upd (cd (threads k)) (current k) (Some [])) t); [|apply tk_upd].
      apply tk_ext. simpl. rewrite cd_alter_status. by apply cd_alter_code.
Qed.

(** The points where interrupts are off. *)
Lemma off_recode k c c' on :
  kernel_inv k → cd (threads k) (current k) = Some c → task_of c' = task_of c → (∀ s c0, c ≠ SemaDownLoop s true :: c0) →
  coded (is_idle (idle_thread k) (current k)) on c' →
  kernel_inv (set_code (current k) c' (with_intr on false (yield_on_return k) k)).
Proof.
  intros [] Hc Htask Hw Hcd. set (k1 := with_intr _ _ _ k). assert (is_Some (st (threads k) (current k))) as Hcur by by apply running_code.
  constructor; [|..|done].
  - apply (recode_ok k1 c); [done..| |]; [intros u; by rewrite Htask|]. intros s c0 ->. by destruct (Hw s c0).
  - eapply sync_ext; [exact ki_sync0|]. intros u. rewrite todo_set_code //. unfold upd. case_decide; [subst|done].
    by rewrite Htask -(tk_cd (cd (threads k)) (current k) c).
  - exists c'. split; [|done]. simpl. by rewrite cd_alter_code // upd_eq.
Qed.

(** What runs when a suspended function goes on. *)
Lemma resume_ok k i c :
  kernel_inv k → cd (threads k) (current k) = Some (i :: c) → (∀ u, i = TakeTid u → in_s 32 (next_tid k + 1)) →
  pwp (exec tid_lock i) (set_code (current k) c k) (λ e k', kernel_inv k' ∧ event_ok k e k').
Proof.
  intros Hk Hc Htid. pose proof Hk as [Hsched Hsync (c' & Hc' & Hcd) Hext].
  assert (c' = i :: c) as -> by congruence. assert (is_Some (st (threads k) (current k))) as Hcur by by apply running_code.
  assert (∀ (m : K unit) k0, pwp m k0 (λ _ k', kernel_inv k' ∧ holders k' = holders k) →
    pwp (m;; mret None) k0 (λ e k', kernel_inv k' ∧ event_ok k e k')) as Hret.
  { intros m k0 Hm. psteps. eapply pwp_mono; [exact Hm|]. intros a k' [Hk' Hh]. psteps. split; [done|by apply event_none]. }
  assert (cd (threads (set_code (current k) c k)) (current k) = Some c) as Hc1 by (simpl; by rewrite cd_alter_code // upd_eq).
  assert (∀ on, with_intr on false (yield_on_return k) (set_code (current k) c k) = set_code (current k) c (with_intr on false (yield_on_return k) k))
    as Hcomm by done.
  assert (∀ on (b : bool), (∀ s c0, i :: c ≠ SemaDownLoop s true :: c0) → task_of c = task_of (i :: c) → b = on →
    coded (is_idle (idle_thread k) (current k)) on c →
    kernel_inv (with_intr b (in_external_intr k) (yield_on_return k) (set_code (current k) c k))) as Hoff.
  { intros on b Hw Ht -> Hcd'. rewrite Hext. by apply (off_recode k (i :: c)). }
  inversion Hcd as [c0 Hp Hi Hon Heq|Hi Hon Heq|Hi Hon Heq|i0 c0 Hcd0 Hi Hon Heq|i0 c0 Hcd0 Hi Hon Heq|c0 Hp Hi Hon Heq|s c0 Hp Hi Hon Heq|Hi Hon Heq];
    simplify_eq/=; cbn [exec].
  - assert (in_call k (i :: c)) as Hcall.
    { constructor; try done. intros Hidle. rewrite /is_idle bool_decide_true // in Hi. }
    assert ((∃ u, i = Unblock u) ∨ ∀ u, i ≠ Unblock u) as [[u ->]|Hnu] by (clear; destruct i; eauto).
    + assert (c = []) as ->.
      { pose proof (sy_doing _ _ _ _ _ Hsync (current k)) as Hd. rewrite (todo_current _ _ Hc) in Hd. by inversion Hd. }
      cbn [exec]. apply Hret. by apply unblock_ok.
    + assert (Forall plain c) as Hpc by by apply Forall_cons in Hp as [_ ?].
      eapply (exec_ok (set_code (current k) c k) i c); [| |done|done].
      * apply (in_call_recode k (i :: c)); [done..|]. intros u. rewrite elem_of_cons. split; [auto|]. intros [Hiu|]; [by destruct (Hnu u)|done].
      * eapply sync_inv_ext; [..|exact Hsync]; [|done]. intros u. simpl. unfold upd. case_decide; [subst|].
        -- rewrite (todo_current _ _ Hc). by rewrite task_of_plain.
        -- by rewrite (todo_recode _ (i :: c)) // upd_ne.
  - (* IdleLoop *) apply Hret. unfold idle_loop. psteps. eapply pwp_resume_with; [exact Hc1|]. psteps. cbn [app].
    set (k1 := set_code _ _ _).
    assert (k1 = set_code (current k) [IdleHalt] (with_intr false (in_external_intr k) (yield_on_return k) k)) as Hk1.
    { unfold k1, set_code, with_threads. simpl. by rewrite alter_code_twice. }
    assert (kernel_inv k1) as [].
    { rewrite Hk1 Hext. apply (off_recode k [IdleLoop]); try done. rewrite -Hi. constructor. }
    apply thread_block_idle_spec; try done.
    + rewrite Hk1 /= cd_alter_code // upd_eq //.
    + unfold is_idle in Hi. symmetry in Hi. by apply bool_decide_eq_true in Hi.
    + intros k' Hk'. split; [by eapply switched_inv|apply (quiet_holders _ _ (sw_quiet _ _ Hk'))].
  - (* IdleHalt *) apply Hret. unfold idle_halt. psteps. eapply pwp_resume_with; [exact Hc1|]. cbn [app]. split; [|done].
    set (k1 := set_code _ _ _).
    assert (k1 = set_code (current k) [IdleLoop] (with_intr true false (yield_on_return k) k)) as ->.
    { unfold k1, set_code, with_threads. simpl. by rewrite alter_code_twice Hext. }
    apply (off_recode k [IdleHalt]); try done. rewrite -Hi. constructor.
  - (* Iret *) apply Hret. psteps. split; [|done]. by eapply Hoff.
  - (* SetLevel false *) psteps. split; [|by apply event_none]. eapply Hoff; try done.
    rewrite -Hon. by constructor.
  - (* SetLevel true *) psteps. apply pwp_intr_enable; [done|]. psteps. split; [|by apply event_none]. eapply Hoff; try done.
    rewrite -Hi. by constructor.
  - (* SemaDownLoop *) apply Hret. assert (set_code (current k) (SemaDownLoop s true :: c) (set_code (current k) c k) = k) as Hsame.
    { unfold set_code, with_threads. simpl. rewrite alter_code_twice alter_code_same //. by destruct k. }
    apply (sema_down_loop_ok (set_code (current k) c k) s c); try done.
    + simpl current. by rewrite Hsame.
    + eapply sync_inv_ext; [..|exact Hsync]; [|done]. intros u. unfold upd. simpl current. case_decide; [subst|].
      * by rewrite (todo_current _ _ Hc).
      * by rewrite todo_set_code // upd_ne.
    + intros Hidle. rewrite /is_idle bool_decide_true // in Hi.
  - (* KernelThread *) apply Hret. unfold kernel_thread. psteps. apply pwp_intr_enable; [done|]. psteps. split; [|done]. eapply Hoff; try done.
    rewrite -Hi. by constructor.
Qed.

(** * Calls *)

(** A semaphore that is new has no thread in it. *)
Lemma down_known sm hs cs T t s : sync_inv sm hs cs T → SemaDown s ∈ T t →
  match s with LockSema l => is_Some (hs !! l) | _ => is_Some (sm !! s) end.
Proof.
  intros H Hs. destruct s as [s|l|w].
  - pose proof (sy_doing _ _ _ _ _ H t) as Hd. revert Hs. destruct Hd as [| | ? ? ? ? []|? ? ? []|? ? ? []|? ? ? []| | | | |];
      intros Hs; repeat (apply elem_of_cons in Hs as [?|Hs]; [by simplify_eq|]); by apply elem_of_nil in Hs.
  - pose proof (sy_doing _ _ _ _ _ H t) as Hd. revert Hs. destruct Hd as [| | ? ? ? ? []|? ? ? []|? ? ? []|? ? ? []| | | | |];
      intros Hs; repeat (apply elem_of_cons in Hs as [?|Hs]; [by simplify_eq|]); by apply elem_of_nil in Hs.
  - eapply (waiter_exists _ H t), (down_done _ H t w). done.
Qed.
Lemma new_sema_ok k s v :
  sched_ok (Some (current k)) k → sync_ok k → in_u 32 v →
  match s with LockSema l => holders k !! l = None | _ => semas k !! s = None end →
  sched_ok (Some (current k)) (with_semas <[s := Semaphore v []]> k).
Proof.
  intros Hok Hsync Hv Hnew. apply sched_inv_new_sema; [done..|]. intros t Hw%waits_at_task.
  eapply down_known in Hw; [|exact Hsync]. destruct s; destruct Hw; congruence.
Qed.

Section calls.
Context (k : kernel) (Hc : in_call k []) (Hsync : sync_ok k).

Lemma idle_todo : todo k (current k) = [].
Proof. destruct Hc. by rewrite (todo_current _ []). Qed.
Lemma idle_no_tid : holders k !! tid_lock ≠ Some (Some (current k)).
Proof. eapply sync_no_tid; [exact Hsync|]. by rewrite idle_todo. Qed.
Lemma sync_again : sync_inv (semas k) (holders k) (conds k) (upd (todo k) (current k) []).
Proof.
  eapply sync_inv_ext; [..|exact Hsync]; [|done]. intros u. symmetry. by apply (in_call_todo k []).
Qed.

Lemma call_lock_try_acquire l h :
  holders k !! l = Some h → h ≠ Some (current k) → l ≠ tid_lock →
  pwp (lock_try_acquire l) k (λ _ k', kernel_inv k' ∧ holders k' = holders k).
Proof.
  intros Hh Hne Hl. unfold lock_try_acquire. psteps. eapply in_call_held; [done..|]. rewrite bool_decide_false //.
  passert; [done|]. destruct (lock_sema_exists _ Hsync l) as [x Hx]; [eauto|]. pose proof Hc as [].
  eapply sema_try_down_spec; [done|exact Hx|done|]. intros k' b Hok' Hv Hb.
  assert (in_call k' []) as Hc'.
  { destruct Hv. constructor; try congruence; by rewrite ?va_current0. }
  destruct (va_sema _ _ _ _ Hv) as [l0 Hl0]. destruct b; psteps.
  - eapply in_call_resume; [done|]. cbn [app]. split; [|apply (va_holders _ _ _ _ Hv)].
    assert (Forall plain [LockHold l]) as Hp by repeat constructor.
    apply (in_call_inv _ [LockHold l]).
    + apply (in_call_recode k' []); [done..|]. intros u. by rewrite list_elem_of_singleton elem_of_nil.
    + unfold sync_ok. simpl. rewrite Hl0 (va_holders _ _ _ _ Hv) (va_conds _ _ _ _ Hv). eapply sync_inv_ext; [| |].
      3:{ eapply (sync_lock_down _ Hsync (current k) l (value x) l0 []); rewrite ?idle_todo; try done.
          - by rewrite /val Hx.
          - assert (0 < value x) by (by apply Hb). lia.
          - by intros l' [].
          - by intros w ?%not_elem_of_nil.
          - apply idle_no_tid.
          - by constructor. }
      * intros u. rewrite (todo_recode k' []) // (va_current _ _ _ _ Hv). unfold upd. case_decide; [done|].
        apply (valued_todo _ _ _ _ u Hv).
      * done.
  - split; [|apply (va_holders _ _ _ _ Hv)]. apply (in_call_inv _ []); [done|]. unfold sync_ok.
    rewrite (va_holders _ _ _ _ Hv) (va_conds _ _ _ _ Hv). eapply sync_inv_ext; [..|exact Hsync].
    + intros u. apply (valued_todo _ _ _ _ u Hv).
    + intros s. rewrite Hl0 val_insert. case_decide; [subst|done]. by rewrite /val Hx.
Qed.

Lemma call_cond_wait c l w ws :
  conds k !! c = Some ws → holders k !! l = Some (Some (current k)) → l ≠ tid_lock → semas k !! WaiterSema w = None →
  pwp (cond_wait c l w) k (λ e k', kernel_inv k' ∧ event_ok k e k').
Proof.
  intros Hws Hh Hl Hw. unfold cond_wait. pose proof Hc as []. passert; [by rewrite ic_external0|].
  eapply in_call_held; [done..|]. rewrite bool_decide_true //. passert; [done|]. unfold sema_init, get_cond. psteps.
  cbn [conds with_semas]. rewrite Hws. cbn [defined]. psteps.
  set (k1 := with_conds _ _). assert (in_call k1 []) as Hc1 by by constructor; [apply (new_sema_ok k (WaiterSema w) 0)|..].
  eapply in_call_resume; [done|]. psteps. cbn [app]. set (r := [SemaDown (WaiterSema w); LockAcquire l; CondDone w]).
  assert (Forall plain r) as Hp by repeat constructor.
  assert (in_call (set_code (current k1) r k1) r) as Hc2.
  { apply (in_call_recode k1 []); [done..|]. intros u. rewrite elem_of_nil. split; [|done].
    intros Hu. do 3 (apply elem_of_cons in Hu as [|Hu]; [done|]). by apply elem_of_nil in Hu. }
  eapply pwp_mono; [eapply (lock_release_ok _ l r); [done..|]|].
  - eapply sync_inv_ext; [| |].
    3:{ eapply (sync_cond_wait _ Hsync (current k) c l w ws []); try done; [apply idle_no_tid|apply idle_todo]. }
    + intros u. unfold upd. simpl current. case_decide; [done|]. rewrite (todo_recode k1 []) // upd_ne //.
    + done.
  - intros e k' [Hk' He]. split; [done|]. exact He.
Qed.

Lemma call_create t prio :
  PRI_MIN <= prio <= PRI_MAX → threads k !! t = None →
  pwp (thread_create tid_lock (Some t) prio []) k (λ _ k', kernel_inv k' ∧ holders k' = holders k).
Proof.
  intros Hprio Ht. unfold thread_create, init_thread. passert.
  { rewrite andb_true_iff !bool_decide_eq_true. lia. }
  pose proof Hc as []. assert (st (threads k) t = None) as Hst by by rewrite /st Ht.
  assert (is_Some (st (threads k) (current k))) as Hcur by by apply running_code.
  set (k1 := set_code _ _ _). set (r := [LockAcquire tid_lock; TakeTid t; Unblock t]).
  assert (∀ u, st (threads k1) u = upd (st (threads k)) t (Some THREAD_BLOCKED) u) as Hst1.
  { intros u. unfold k1. simpl. by rewrite st_alter_code st_insert. }
  assert (∀ u, cd (threads k1) u = upd (cd (threads k)) t (Some [KernelThread]) u) as Hcd1.
  { intros u. unfold k1. simpl. rewrite cd_alter_code; [|rewrite st_insert upd_eq //]. unfold upd. case_decide; [done|].
    by rewrite cd_insert upd_ne. }
  assert (t ≠ current k) as Htc by (intros ->; rewrite Hst in Hcur; by destruct Hcur).
  assert (cd (threads k1) (current k1) = Some []) as Hc1 by by rewrite Hcd1 upd_ne.
  eapply pwp_resume_with; [exact Hc1|]. cbn [app]. split; [|done].
  assert (is_Some (st (threads k1) (current k1))) as Hcur1 by (rewrite st_cd Hc1; eauto).
  assert (∀ u, cd (threads (set_code (current k) r k1)) u = upd (upd (cd (threads k)) t (Some [KernelThread])) (current k) (Some r) u) as Hcd.
  { intros u. simpl. rewrite cd_alter_code //. change (upd (cd (threads k1)) (current k) (Some r) u = upd (upd (cd (threads k)) t (Some [KernelThread])) (current k) (Some r) u).
    unfold upd at 1 2. case_decide; [done|]. apply Hcd1. }
  apply (in_call_inv _ r).
  - constructor; try done; [| |repeat constructor].
    + eapply sched_inv_ext; [|exact Hcd|eapply sched_inv_create; [exact ic_sched0|done|apply idle_todo|]].
      * intros u. rewrite -Hst1. apply st_alter_code.
      * intros v. cbn [task_of r]. rewrite !elem_of_cons elem_of_nil.
        split; [by intros [|[|[[= ->]|]]]|intros ->; auto].
    + simpl. rewrite cd_alter_code // upd_eq //.
  - eapply sync_ext.
    + eapply (sync_frame _ Hsync (current k) (semas k) r); rewrite ?idle_todo; try done.
      * by intros ?%idle_no_tid.
      * intros w Hw. do 3 (apply elem_of_cons in Hw as [|Hw]; [done|]). by apply elem_of_nil in Hw.
      * by intros w ?%not_elem_of_nil.
      * constructor; [apply (sy_tid_lock _ _ _ _ _ Hsync)|apply idle_no_tid|by constructor].
    + intros u. unfold todo. rewrite (tk_ext _ _ _ (Hcd u)) tk_upd.
      destruct (decide (u = current k)) as [->|Hne]; [by rewrite !upd_eq|]. rewrite !(upd_ne (current k) u) // tk_upd.
      unfold upd. case_decide; [subst|done]. by rewrite /todo /tk /cd Ht.
Qed.
End calls.

Lemma valued_sync k k' s v : sync_ok k → valued (Sema s) v k k' → sync_ok k'.
Proof.
  intros Hsync Hv. destruct (va_sema _ _ _ _ Hv) as [l Hl]. unfold sync_ok.
  rewrite Hl (va_holders _ _ _ _ Hv) (va_conds _ _ _ _ Hv). eapply sync_inv_ext; [| |by apply (sync_sema _ Hsync s (Semaphore v l))].
  - intros u. apply (valued_todo _ _ _ _ u Hv).
  - done.
Qed.
Lemma valued_in_call k k' c s v : in_call k c → sched_ok (Some (current k)) k' → valued s v k k' → in_call k' c.
Proof. intros [] Hok []. constructor; try congruence; by rewrite ?va_current0. Qed.

Lemma run_call_ok k c :
  in_call k [] → sync_ok k → call_ok tid_lock k c →
  pwp (run_call tid_lock c) k (λ e k', kernel_inv k' ∧ event_ok k e k').
Proof.
  intros Hc Hsync Hcall.
  assert (∀ A (m : K A), pwp m k (λ _ k', kernel_inv k' ∧ holders k' = holders k) →
    pwp (m;; mret None) k (λ e k', kernel_inv k' ∧ event_ok k e k')) as Hret.
  { intros A m Hm. psteps. eapply pwp_mono; [exact Hm|]. intros a k' [Hk' Hh]. psteps. split; [done|by apply event_none]. }
  assert (∀ k', in_call k' [] → sync_ok k' → kernel_inv k') as Hinv by (intros k'; apply in_call_inv).
  pose proof (idle_todo _ Hc) as HT. pose proof (idle_no_tid _ Hc Hsync) as Hno. pose proof Hc as [].
  destruct c as [s v|s|s|s|l|l|l|l|cv|cv l w|cv l|cv l| | |t prio|p]; cbn [run_call]; simpl in Hcall.
  - destruct Hcall as [Hs Hv]. apply Hret. unfold sema_init. psteps. split; [|done]. apply Hinv.
    + constructor; try done. by apply (new_sema_ok k (Sema s) v).
    + apply (sync_sema _ Hsync s).
  - apply Hret. eapply sema_down_ok; [done|]. eapply (sync_frame _ Hsync); rewrite ?HT; try done; try by constructor.
    + intros w Hw. by apply list_elem_of_singleton in Hw.
  - apply Hret. destruct Hcall as [x Hx]. eapply sema_try_down_spec; [done|exact Hx|done|]. intros k' b Hok' Hv _.
    split; [|apply Hv]. apply Hinv; [by eapply valued_in_call|by eapply valued_sync].
  - apply Hret. destruct Hcall as [x Hx]. eapply sema_up_ok; [done|exact Hx|]. intros k' Hc' Hv.
    split; [|apply Hv]. apply Hinv; [done|by eapply valued_sync].
  - destruct Hcall as [Hl Hne]. unfold lock_init, sema_init. psteps. split.
    + apply Hinv; [|by apply (sync_lock_init _ Hsync l)]. constructor; try done. by apply (new_sema_ok k (LockSema l) 1).
    + intros l'. unfold owner. simpl. rewrite lookup_insert. case_decide; [subst; by rewrite Hl|done].
  - destruct Hcall as (h & Hh & Hne & Hl). apply Hret. eapply lock_acquire_ok; [done..|]. apply sync_lock_wait; [done|eauto|by constructor|].
    right. split; [done|]. by intros w ?%not_elem_of_nil.
  - destruct Hcall as (h & Hh & Hne & Hl). apply Hret. by eapply call_lock_try_acquire.
  - destruct Hcall as [Hh Hl]. eapply (lock_release_ok k l []); [done..|]. eapply (sync_release _ Hsync); rewrite ?HT; try done; try by constructor.
    + by intros l' [].
    + by intros w ?%not_elem_of_nil.
    + by intros w ?%not_elem_of_nil.
  - apply Hret. unfold cond_init. psteps. split; [|done]. apply Hinv; [by constructor|]. by apply (sync_cond_init _ Hsync).
  - destruct Hcall as ([ws Hws] & Hh & Hl & Hw). by eapply call_cond_wait.
  - destruct Hcall as ([ws Hws] & Hh & Hl). apply Hret. eapply cond_signal_ok; [done..|]. intros k' Hc' Hsync' Hh' _ _. split; [|done]. auto.
  - destruct Hcall as (Hws & Hh & Hl). apply Hret. by apply cond_broadcast_push.
  - apply Hret. eapply thread_yield_spec; [done..| |done|].
    + rewrite ic_on0 /is_idle bool_decide_false //. by constructor.
    + intros k' Hk'. split; [by eapply switched_inv|apply (quiet_holders _ _ (sw_quiet _ _ Hk'))].
  - apply Hret. eapply thread_exit_spec; [done..|].
    intros k' Hk'. split; [by eapply switched_inv|apply (quiet_holders _ _ (sw_quiet _ _ Hk'))].
  - destruct Hcall as [Hprio Ht]. apply Hret. destruct t as [t|].
    + apply call_create; auto.
    + cbn [thread_create]. psteps. split; [|done]. auto.
  - apply Hret. unfold thread_set_priority. psteps. apply pwp_thread_current; [by apply running|]. psteps. split; [|done].
    set (k1 := with_threads _ k). assert (∀ t, st (threads k1) t = st (threads k) t) as Hst.
    { intros t. unfold st, k1. simpl. rewrite lookup_alter. case_decide; [subst; by destruct (threads k !! current k)|done]. }
    assert (∀ t, cd (threads k1) t = cd (threads k) t) as Hcd.
    { intros t. unfold cd, k1. simpl. rewrite lookup_alter. case_decide; [subst; by destruct (threads k !! current k)|done]. }
    apply Hinv.
    + constructor; try done; [|by rewrite Hcd]. eapply sched_inv_ext; [exact Hst|exact Hcd|done].
    + eapply sync_ext; [exact Hsync|]. intros u. by apply tk_ext.
Qed.

(** * Interrupts *)

(** The handler of an interrupt of [k]. *)
Record in_interrupt (k k' : kernel) : Prop := {
  ii_sched : sched_ok (Some (current k)) k';
  ii_sync : sync_ok k';
  ii_code t : cd (threads k') t = cd (threads k) t;
  ii_current : current k' = current k;
  ii_idle : idle_thread k' = idle_thread k;
  ii_holders : holders k' = holders k;
  ii_off : intr_on k' = false;
  ii_external : in_external_intr k' = true;
}.

Lemma thread_tick_ok k k' :
  in_interrupt k k' → pwp thread_tick k' (λ _ k'', in_interrupt k k'').
Proof.
  intros []. unfold thread_tick. psteps. apply pwp_thread_current; [rewrite ii_current0; by apply (si_running _ _ _ _ _ _ ii_sched0)|]. psteps.
  set (Q := λ k'', in_interrupt k k'').
  assert (∀ a b c, Q (with_ticks a b c k')) as HQ by by constructor.
  eapply (pwp_mono _ _ (λ _ k'', ∃ a b c, k'' = with_ticks a b c k')); [case_bool_decide; psteps; eauto|].
  intros _ k'' (a & b & c & ->). psteps. case_bool_decide; psteps; [|apply HQ].
  unfold intr_yield_on_return. passert; [done|]. destruct (HQ (wrap_u 32 (a + 1)) b c). by constructor.
Qed.

Lemma run_handler_ok k k' h :
  in_interrupt k k' → handler_ok k' h → pwp (run_handler h) k' (λ _ k'', in_interrupt k k'').
Proof.
  intros Hk' Hh. pose proof Hk' as [].
  assert (∀ s v k'', sched_ok (Some (current k)) k'' → valued (Sema s) v k' k'' → in_interrupt k k'') as Hv.
  { intros s v k'' Hok Hv. pose proof Hv as []. constructor; try congruence. by eapply valued_sync. }
  destruct h as [|s|s]; cbn [run_handler]; simpl in Hh.
  - by apply thread_tick_ok.
  - destruct Hh as [x Hx]. eapply sema_up_spec; [done|exact Hx|congruence|]. eauto.
  - destruct Hh as [x Hx]. psteps. eapply sema_try_down_spec; [done|exact Hx|congruence|]. intros k'' b Hok Hval _. psteps. eauto.
Qed.

Lemma interrupt_ok k h :
  kernel_inv k → intr_on k = true → handler_ok k h →
  pwp (run_move (Interrupt h)) k (λ e k', kernel_inv k' ∧ event_ok k e k').
Proof.
  intros Hk Hon Hh. pose proof Hk as [Hsched Hsync (c & Hc & Hcd) Hext]. unfold run_move, PintosSynch.run_move. psteps.
  eapply pwp_resume_with; [exact Hc|]. cbn [app]. set (k1 := set_code _ _ _).
  assert (is_Some (st (threads k) (current k))) as Hcur by by apply running_code.
  assert (∀ s c0, c ≠ SemaDownLoop s true :: c0) as Hw.
  { intros s c0 ->. rewrite Hon in Hcd. inversion Hcd as [c1 Hp| | | | | | |]; subst. by eapply plain_not_loop in Hp. }
  assert (kernel_inv k1) as [].
  { unfold k1. assert (with_intr false (in_external_intr k) (yield_on_return k) k = with_intr false false (yield_on_return k) k) as -> by by rewrite Hext.
    apply (off_recode k c); try done. rewrite Hon in Hcd. by constructor. }
  unfold intr_handler. passert; [done|]. passert; [by rewrite ki_external0|].
  set (k2 := with_intr _ true false k1).
  assert (in_interrupt k1 k2) as Hk2 by by constructor.
  eapply pwp_mono; [by eapply run_handler_ok|]. intros _ k3 []. psteps. passert; [by rewrite ii_off0|]. passert; [done|].
  set (k4 := with_intr _ _ _ k3).
  assert (cd (threads k4) (current k4) = Some (Iret :: c)) as Hc4.
  { simpl. rewrite ii_code0 ii_current0. simpl. by rewrite cd_alter_code // upd_eq. }
  assert (kernel_inv k4) as Hk4.
  { constructor; [by rewrite /= ii_current0|done| |done]. exists (Iret :: c). split; [done|]. simpl. rewrite ii_off0 ii_idle0 ii_current0.
    rewrite Hon in Hcd. by constructor. }
  destruct (yield_on_return k4) eqn:Hy; psteps.
  - eapply thread_yield_spec; [apply Hk4|exact Hc4|done| |done|].
    + simpl. rewrite ii_off0 ii_idle0 ii_current0. rewrite Hon in Hcd. by constructor.
    + intros k' Hk'. psteps. split; [eapply switched_inv; [done|apply Hk4|done]|]. apply event_none.
      by rewrite (quiet_holders _ _ (sw_quiet _ _ Hk')) /= ii_holders0.
  - split; [done|]. apply event_none. by rewrite /= ii_holders0.
Qed.

(** * Moves *)

(** Creating a thread when there is no [tid_t] left is undefined. *)
Definition tid_overflow (k : kernel) (m : move) : Prop :=
  m = Resume ∧ next_tid k = 2 ^ 31 - 1 ∧ ∃ u c, current_code k = Some (TakeTid u :: c).

Lemma move_inv k m :
  kernel_inv k → in_s 32 (next_tid k) → move_ok k m → ¬ tid_overflow k m →
  pwp (run_move m) k (λ e k', kernel_inv k' ∧ event_ok k e k').
Proof.
  intros Hk Htid Hm Hover. destruct m as [|c|h]; simpl in Hm.
  - destruct Hm as (i & c & Hc). unfold run_move, PintosSynch.run_move. psteps. pose proof Hk as [].
    eapply pwp_get_thread; [by apply running|]. intros th Hth _. change (code <$> threads k !! current k = Some (i :: c)) in Hc.
    rewrite Hth in Hc. injection Hc as Hcode. rewrite Hcode. psteps.
    eapply resume_ok; [done|by rewrite /cd Hth /= Hcode|]. intros u ->.
    destruct (decide (next_tid k = 2 ^ 31 - 1)) as [Hn|Hn]; [|unfold in_s in *; lia].
    destruct Hover. split_and!; [done..|]. exists u, c. unfold current_code. by rewrite Hth /= Hcode.
  - destruct Hm as (Hc & Hidle & Hcall). destruct Hk as [Hsched Hsync (c' & Hc' & Hcd) Hext].
    assert (c' = []) as -> by (unfold current_code, cd in *; congruence).
    apply run_call_ok; [|done..]. constructor; try done. by inversion Hcd.
  - destruct Hm. by apply interrupt_ok.
Qed.
End kernel.
