(* ===== verification/PintosLive.v ===== *)
(** The turns of the threads of src/bin/OS/pintos/src/threads: what each function does
    to the ready list, to the running thread and to the ticks of its time slice. *)
From S2P Require Export PintosKernel.
Local Open Scope Z_scope.

(** * Code that returns has an effect *)

Definition respects {A} (R : kernel → kernel → Prop) (m : K A) : Prop := ∀ k a k', m k = Ret a k' → R k k'.

Section respects.
Context (R : kernel → kernel → Prop) `{!PreOrder R} {A B : Type}.
Lemma respects_ret (a : A) : respects R (mret a).
Proof. by intros k ? ? [= <- <-]. Qed.
Lemma respects_bind (m : K A) (f : A → K B) : respects R m → (∀ a, respects R (f a)) → respects R (m ≫= f).
Proof.
  intros Hm Hf k b k' H. apply M_bind_inv_Ret in H as (a & k1 & H1 & H2). transitivity k1; [by eapply Hm|by eapply Hf].
Qed.
Lemma respects_gets (f : kernel → A) : respects R (gets f).
Proof. by intros k ? ? [= <- <-]. Qed.
Lemma respects_modify f : (∀ k, R k (f k)) → respects R (modify f).
Proof. by intros H k ? ? [= <- <-]. Qed.
Lemma respects_defined (o : option A) : respects R (defined o).
Proof. destruct o; [apply respects_ret|done]. Qed.
Lemma respects_undef : respects R (@undef kernel A).
Proof. done. Qed.
End respects.
Lemma respects_ASSERT (R : kernel → kernel → Prop) `{!PreOrder R} (b : bool) : respects R (ASSERT b).
Proof. destruct b; [by apply respects_ret|done]. Qed.

Create HintDb kernel_code.
#[export] Hint Unfold thread_current is_thread get_thread running_thread intr_get_level intr_context intr_enable intr_disable
  intr_set_level set_flag intr_yield_on_return resume_with thread_unblock thread_set_priority kernel_thread free_thread
  get_sema set_sema set_value set_waiters sema_init sema_try_down sema_up
  get_holder set_holder lock_init lock_held_by_current_thread lock_hold lock_try_acquire lock_release
  get_cond set_cond cond_init cond_wait cond_done cond_signal cond_broadcast
  thread_create init_thread idle_start idle_halt thread_tick run_handler
  schedule schedule_tail next_thread_to_run thread_block thread_exit thread_yield
  sema_down_loop sema_down lock_acquire idle_loop intr_handler take_tid : kernel_code.

(** Go through the statements; what is left are the assignments. *)
Ltac respect :=
  autounfold with kernel_code;
  repeat first
    [ progress intros
    | apply respects_bind; [typeclasses eauto| |]
    | apply respects_ret; typeclasses eauto
    | apply respects_gets; typeclasses eauto
    | apply respects_defined; typeclasses eauto
    | apply respects_ASSERT; typeclasses eauto
    | apply respects_undef; typeclasses eauto
    | apply respects_modify
    | match goal with
      | |- respects _ (if ?b then _ else _) => destruct b
      | |- respects _ (match ?x with _ => _ end) => destruct x
      end
    | solve [hnf; auto] ].

(** * Identifiers of threads *)

Definition tid_kept (k k' : kernel) : Prop := in_s 32 (next_tid k) → in_s 32 (next_tid k').
#[export] Instance tid_kept_preorder : PreOrder tid_kept.
Proof. unfold tid_kept. split; [by intros k H|]. intros k1 k2 k3 H1 H2 H. auto. Qed.

Section kernel.
Context (tid_lock : loc).

Lemma take_tid_kept t : respects tid_kept (take_tid tid_lock t).
Proof.
  intros k a k' H. unfold take_tid in H. rewrite run_gets in H. apply M_bind_inv_Ret in H as (n & k1 & H1 & H).
  unfold int_of in H1. case_decide as Hn; [|done]. injection H1 as <- <-. rewrite run_modify in H. intros _.
  assert (respects tid_kept (modify (with_threads (alter (λ th, Thread (next_tid k) (status th) (priority th) (code th)) t));; lock_release tid_lock)) as Hr by respect.
  by eapply Hr.
Qed.
Lemma run_move_tid m : respects tid_kept (run_move tid_lock m).
Proof.
  destruct m as [|c|h]; unfold run_move.
  - apply respects_bind; [apply _|by respect|]. intros t. apply respects_bind; [apply _|by respect|]. intros th.
    destruct (code th) as [|i c]; [done|]. apply respects_bind; [apply _|by respect|]. intros _.
    destruct i; cbn [exec]; try (by respect). apply take_tid_kept.
  - destruct c; cbn [run_call]; by respect.
  - destruct h; by respect.
Qed.
End kernel.

(** * Turns *)

(** Threads may become ready; *)
Definition grow (k k' : kernel) : Prop :=
  (∃ l, ready_list k' = ready_list k ++ l) ∧ current k' = current k ∧ thread_ticks k' = thread_ticks k.
(** the first of the ready list may get the processor, with a new time slice. *)
Definition switch (k k' : kernel) : Prop :=
  thread_ticks k' = 0 ∧ ∀ t l, ready_list k = t :: l → ready_list k' = l ∧ current k' = t.
Definition turns (k k' : kernel) : Prop := ∃ k1, grow k k1 ∧ switch k1 k'.
Definition advance (k k' : kernel) : Prop := grow k k' ∨ turns k k'.

#[export] Instance grow_preorder : PreOrder grow.
Proof.
  split; [intros k; split_and!; [exists []; by rewrite app_nil_r|done..]|].
  intros k1 k2 k3 ([l Hl] & Hc & Ht) ([l' Hl'] & Hc' & Ht'). split_and!; [|congruence..].
  exists (l ++ l'). by rewrite (assoc_L (++)) -Hl.
Qed.
Lemma grow_same k k' : ready_list k' = ready_list k → current k' = current k → thread_ticks k' = thread_ticks k → grow k k'.
Proof. intros Hr Hc Ht. split_and!; [exists []; by rewrite app_nil_r|done..]. Qed.
Lemma grow_advance k1 k2 k3 : grow k1 k2 → advance k2 k3 → advance k1 k3.
Proof.
  intros Hg [Hg'|(k & Hg' & Hs)]; [left; by transitivity k2|]. right. exists k. split; [by transitivity k2|done].
Qed.

Lemma respects_grow_advance {A} (m : K A) : respects grow m → respects advance m.
Proof. intros Hm k a k' H. left. by eapply Hm. Qed.
Lemma respects_bind_advance {A B} (m : K A) (f : A → K B) : respects grow m → (∀ a, respects advance (f a)) → respects advance (m ≫= f).
Proof.
  intros Hm Hf k b k' H. apply M_bind_inv_Ret in H as (a & k1 & H1 & H2). eapply grow_advance; [by eapply Hm|by eapply Hf].
Qed.
Lemma respects_bind_turns {A B} (m : K A) (f : A → K B) : respects grow m → (∀ a, respects turns (f a)) → respects turns (m ≫= f).
Proof.
  intros Hm Hf k b k' H. apply M_bind_inv_Ret in H as (a & k1 & H1 & (k2 & Hg & Hs)%Hf). exists k2. split; [|done].
  transitivity k1; [by eapply Hm|done].
Qed.
Lemma respects_bind_return {A B} (m : K A) (b : B) : respects advance m → respects advance (m;; mret b).
Proof. intros Hm k b' k' H. apply M_bind_inv_Ret in H as (a & k1 & H1 & [= <- <-]). by eapply Hm. Qed.

(** The assignments that are left. *)
Ltac grows := respect; try (intros; apply grow_same; reflexivity);
  try (intros; split_and!; [eexists; reflexivity|reflexivity..]).

(** The end of [schedule]. *)
Lemma ASSERT_same b (k : kernel) (a : unit) k' : ASSERT b k = Ret a k' → k' = k.
Proof. by destruct b; [intros [= _ <-]|]. Qed.
Lemma get_thread_same t (k : kernel) a k' : get_thread t k = Ret a k' → k' = k.
Proof. unfold get_thread. rewrite run_gets. by destruct (threads k !! t); [intros [= _ <-]|]. Qed.
Definition same_turn (k k' : kernel) : Prop :=
  ready_list k' = ready_list k ∧ current k' = current k ∧ thread_ticks k' = thread_ticks k.
#[export] Instance same_turn_preorder : PreOrder same_turn.
Proof. unfold same_turn. split; [done|]. intros k1 k2 k3 (? & ? & ?) (? & ? & ?). split_and!; congruence. Qed.
Lemma schedule_tail_turn k prev a k' : schedule_tail prev k = Ret a k' →
  ready_list k' = ready_list k ∧ current k' = current k ∧ thread_ticks k' = 0.
Proof.
  intros H. unfold schedule_tail in H. apply M_bind_inv_Ret in H as (cur & k1 & [= <- <-] & H).
  apply M_bind_inv_Ret in H as (on & k1 & [= <- <-] & H). apply M_bind_inv_Ret in H as ([] & k1 & H1 & H).
  assert (k1 = k) as -> by by eapply ASSERT_same.
  apply M_bind_inv_Ret in H as ([] & k1 & [= <-] & H). apply M_bind_inv_Ret in H as ([] & k1 & [= <-] & H).
  set (k1 := with_ticks 0 _ _ _) in H. assert (same_turn k1 k') as (Hr & Hc & Ht); [|by rewrite Hr Hc Ht].
  revert H. generalize (current k). intros cur H.
  assert (respects same_turn (match prev with
    | Some p => th ← get_thread p; i ← gets initial_thread;
        if bool_decide (status th = THREAD_DYING) && bool_decide (p ≠ i) then ASSERT (bool_decide (p ≠ cur));; free_thread p else mret tt
    | None => mret tt end)) as Hs by (respect; intros; by split_and!).
  by eapply Hs.
Qed.

Lemma schedule_switch k a k' : schedule k = Ret a k' → switch k k'.
Proof.
  intros H. unfold schedule in H. apply M_bind_inv_Ret in H as (cur & k1 & [= <- <-] & H).
  apply M_bind_inv_Ret in H as (next & k1 & H1 & H).
  assert (∀ t l, ready_list k = t :: l → next = Some t ∧ ready_list k1 = l) as Hnext.
  { intros t l Hl. unfold next_thread_to_run in H1. rewrite run_gets Hl run_modify in H1. by injection H1 as <- <-. }
  apply M_bind_inv_Ret in H as (on & k2 & [= <- <-] & H). apply M_bind_inv_Ret in H as ([] & k2 & H2 & H).
  assert (k2 = k1) as -> by by eapply ASSERT_same.
  apply M_bind_inv_Ret in H as (th & k2 & H3 & H).
  assert (k2 = k1) as -> by by eapply get_thread_same.
  apply M_bind_inv_Ret in H as ([] & k2 & H4 & H). assert (k2 = k1) as -> by by eapply ASSERT_same.
  apply M_bind_inv_Ret in H as (b & k2 & [= <- <-] & H). apply M_bind_inv_Ret in H as ([] & k2 & H5 & H).
  assert (k2 = k1) as -> by by eapply ASSERT_same.
  destruct next as [next|]; [|done]. cbn [defined] in H. rewrite run_ret in H.
  assert (∃ k2, ready_list k2 = ready_list k1 ∧ current k2 = next ∧ ∃ prev, schedule_tail prev k2 = Ret a k') as (k2 & Hr2 & Hc2 & prev & Ht).
  { case_bool_decide as Hne.
    - rewrite run_modify in H. exists (with_current next k1). split_and!; [done..|by exists (Some (current k))].
    - exists k1. split_and!; [done| |by exists NULL].
      assert (current k1 = current k) as ->; [|done].
      assert (respects (λ k k', current k' = current k) next_thread_to_run) as Hcur.
      { unfold next_thread_to_run. intros k0 a0 k0' H0. rewrite run_gets in H0. by destruct (ready_list k0); injection H0 as _ <-. }
      by eapply Hcur. }
  destruct (schedule_tail_turn _ _ _ _ Ht) as (Hr & Hc & Hticks). split; [done|]. intros t l Hl.
  destruct (Hnext _ _ Hl) as [[= ->] <-]. split; congruence.
Qed.

Ltac advances :=
  repeat lazymatch goal with
    | |- respects advance (mbind _ _) => apply respects_bind_advance; [solve [grows]|intros ?]
    | |- respects turns (mbind _ _) => apply respects_bind_turns; [solve [grows]|intros ?]
    end.

Lemma schedule_turns : respects turns schedule.
Proof. intros k a k' H. exists k. split; [done|by eapply schedule_switch]. Qed.
Lemma schedule_advance : respects advance schedule.
Proof. intros k a k' H. right. by eapply schedule_turns. Qed.
Lemma thread_block_advance : respects advance thread_block.
Proof. unfold thread_block. advances. apply schedule_advance. Qed.
Lemma thread_exit_advance : respects advance thread_exit.
Proof. unfold thread_exit. advances. apply schedule_advance. Qed.
Lemma thread_yield_turns : respects turns thread_yield.
Proof. unfold thread_yield. advances. apply schedule_turns. Qed.
Lemma thread_yield_advance : respects advance thread_yield.
Proof. intros k a k' H. right. by eapply thread_yield_turns. Qed.
Lemma sema_down_loop_advance s b : respects advance (sema_down_loop s b).
Proof.
  unfold sema_down_loop. advances. destruct (bool_decide _).
  - advances. apply thread_block_advance.
  - apply respects_grow_advance. grows.
Qed.
Lemma sema_down_advance s : respects advance (sema_down s).
Proof. unfold sema_down. advances. apply sema_down_loop_advance. Qed.
Lemma lock_acquire_advance l : respects advance (lock_acquire l).
Proof. unfold lock_acquire. advances. apply sema_down_advance. Qed.
Lemma idle_loop_advance : respects advance idle_loop.
Proof. unfold idle_loop. advances. apply thread_block_advance. Qed.
#[export] Hint Resolve thread_exit_advance thread_yield_advance sema_down_advance sema_down_loop_advance
  lock_acquire_advance idle_loop_advance : kernel_code.

Section kernel.
Context (tid_lock : loc).

Lemma exec_advance i : respects advance (exec tid_lock i).
Proof.
  destruct i; cbn [exec];
    first [apply respects_bind_return; solve [auto with kernel_code] | apply respects_grow_advance; solve [grows]].
Qed.
Lemma run_call_advance c : respects advance (run_call tid_lock c).
Proof.
  destruct c; cbn [run_call];
    first [apply respects_bind_return; solve [auto with kernel_code] | apply respects_grow_advance; solve [grows]].
Qed.
Lemma handler_advance h : h ≠ HTick → respects advance (intr_handler (run_handler h)).
Proof.
  intros Hh. unfold intr_handler. advances. apply respects_bind_advance; [destruct h; [done|solve [grows]..]|intros _].
  advances. destruct (_ : bool); [apply thread_yield_advance|]. apply respects_grow_advance. grows.
Qed.
Lemma run_move_advance m : m ≠ Interrupt HTick → respects advance (run_move tid_lock m).
Proof.
  intros Hm. destruct m as [|c|h]; unfold run_move.
  - advances. destruct (code _) as [|i c]; [done|]. advances. apply exec_advance.
  - apply run_call_advance.
  - advances. apply respects_bind_return, handler_advance. congruence.
Qed.
End kernel.

(** * The timer *)

Lemma thread_current_same (k : kernel) a k' : thread_current k = Ret a k' → k' = k.
Proof.
  intros H. unfold thread_current, running_thread, is_thread in H. rewrite run_gets run_assoc run_gets run_ret in H.
  apply M_bind_inv_Ret in H as ([] & k1 & ->%ASSERT_same & H).
  apply M_bind_inv_Ret in H as (th & k1 & ->%get_thread_same & H).
  by apply M_bind_inv_Ret in H as ([] & k1 & ->%ASSERT_same & [= _ <-]).
Qed.

Lemma thread_tick_turn (k : kernel) a k' : thread_tick k = Ret a k' →
  ready_list k' = ready_list k ∧ current k' = current k ∧ thread_ticks k' = wrap_u 32 (thread_ticks k + 1) ∧
  (TIME_SLICE <= thread_ticks k' → yield_on_return k' = true).
Proof.
  intros H. unfold thread_tick in H. apply M_bind_inv_Ret in H as (t & k1 & ->%thread_current_same & H).
  rewrite run_gets in H. apply M_bind_inv_Ret in H as ([] & k1 & H1 & H).
  assert (∃ i j, k1 = with_ticks (thread_ticks k) i j k) as (i & j & ->).
  { destruct (bool_decide _); injection H1 as <-; eauto. }
  rewrite run_modify run_gets in H. case_bool_decide as Hs; [|injection H as <- <-; split_and!; [done..|intros Hle; by destruct (Hs Hle)]].
  unfold intr_yield_on_return, intr_context in H. rewrite run_gets in H.
  apply M_bind_inv_Ret in H as ([] & k1 & ->%ASSERT_same & [= <- <-]). by split_and!.
Qed.

(** A tick of the timer: time passes, or the time slice is over. *)
Definition tick (k k' : kernel) : Prop :=
  (grow (with_ticks (thread_ticks k + 1) (idle_ticks k) (kernel_ticks k) k) k' ∧ thread_ticks k + 1 < TIME_SLICE) ∨
  ∃ k1, (∃ l, ready_list k1 = ready_list k ++ l) ∧ switch k1 k'.

Lemma intr_handler_tick (k : kernel) a k' : 0 <= thread_ticks k < TIME_SLICE → intr_handler thread_tick k = Ret a k' → tick k k'.
Proof.
  intros Ht H. unfold intr_handler, intr_get_level, intr_context in H. rewrite run_gets in H.
  apply M_bind_inv_Ret in H as ([] & k1 & ->%ASSERT_same & H). rewrite run_gets in H.
  apply M_bind_inv_Ret in H as ([] & k1 & ->%ASSERT_same & H). rewrite run_modify in H.
  apply M_bind_inv_Ret in H as ([] & k1 & H1 & H). apply thread_tick_turn in H1 as (Hr & Hc & Htk & Hy).
  cbn [ready_list current thread_ticks with_intr] in Hr, Hc, Htk. rewrite wrap_u_id in Htk; [|unfold in_u, TIME_SLICE in *; lia].
  rewrite run_gets in H. apply M_bind_inv_Ret in H as ([] & k2 & ->%ASSERT_same & H). rewrite run_gets in H.
  apply M_bind_inv_Ret in H as ([] & k2 & ->%ASSERT_same & H). rewrite run_modify run_gets in H.
  cbn [yield_on_return with_intr] in H. destruct (yield_on_return k1) eqn:Hyield.
  - right. apply thread_yield_turns in H as (k2 & ([l Hl] & _) & Hsw). exists k2. split; [|done]. exists l. by rewrite Hl /= Hr.
  - injection H as <- <-. left. split; [by apply grow_same|].
    destruct (decide (TIME_SLICE <= thread_ticks k1)) as [Hle%Hy|]; [congruence|lia].
Qed.

Lemma tick_move tid_lock (k : kernel) e k' :
  0 <= thread_ticks k < TIME_SLICE → run_move tid_lock (Interrupt HTick) k = Ret e k' → tick k k'.
Proof.
  intros Ht H. unfold run_move in H. apply M_bind_inv_Ret in H as ([] & k1 & H1 & H).
  apply M_bind_inv_Ret in H as ([] & k2 & H2 & H). apply M_bind_inv_Ret in H as ([] & k3 & H3 & [= _ <-]).
  assert (same_turn k k2) as (Hr & Hc & Htk).
  { assert (respects same_turn (set_flag false;; resume_with [Iret])) as Hs by (respect; intros; by split_and!).
    apply (Hs k tt). by rewrite /mbind /M_bind H1. }
  apply intr_handler_tick in H3; [|by rewrite Htk]. unfold tick, grow in *. cbn [ready_list current thread_ticks with_ticks] in *.
  rewrite Htk Hr Hc in H3. destruct H3 as [?|(k4 & Hl & ?)]; [by left|]. right. by exists k4.
Qed.

(** * Waiting *)

(** How many ticks the thread at the index [i] of the ready list waits at most. *)
Definition rank (k : kernel) (i : nat) : Z := TIME_SLICE * Z.of_nat i + (TIME_SLICE - thread_ticks k).

Lemma ready_app (k k' : kernel) l i t : ready_list k' = ready_list k ++ l → ready_list k !! i = Some t → ready_list k' !! i = Some t.
Proof. intros -> Hi. by apply lookup_app_l_Some. Qed.
Lemma switch_waiting k k' i t : switch k k' → ready_list k !! i = Some t → thread_ticks k' = 0 ∧
  (current k' = t ∨ ∃ j, i = S j ∧ ready_list k' !! j = Some t).
Proof.
  intros [Ht Hs] Hi. split; [done|]. destruct (ready_list k) as [|u l] eqn:Hl; [done|].
  destruct (Hs u l) as [Hr Hc]; [done|]. destruct i as [|j]; simpl in Hi; [left; congruence|right].
  exists j. by rewrite Hr.
Qed.

Lemma advance_waiting k k' i t : thread_ticks k <= TIME_SLICE → advance k k' → ready_list k !! i = Some t →
  current k' = t ∨ ∃ j, ready_list k' !! j = Some t ∧ rank k' j <= rank k i.
Proof.
  intros Hle [([l Hl] & Hc & Ht)|(k1 & ([l Hl] & Hc & Ht) & Hs)] Hi; pose proof (ready_app _ _ _ _ _ Hl Hi) as Hi'.
  - right. exists i. split; [done|]. unfold rank. lia.
  - destruct (switch_waiting _ _ _ _ Hs Hi') as [Ht' [?|(j & -> & Hj)]]; [by left|right]. exists j. split; [done|]. unfold rank. lia.
Qed.
Lemma tick_waiting k k' i t : thread_ticks k < TIME_SLICE → tick k k' → ready_list k !! i = Some t →
  current k' = t ∨ ∃ j, ready_list k' !! j = Some t ∧ rank k' j < rank k i.
Proof.
  intros Hlt [[([l Hl] & Hc & Ht) Hlt']|(k1 & [l Hl] & Hs)] Hi; pose proof (ready_app _ _ _ _ _ Hl Hi) as Hi'.
  - right. exists i. split; [done|]. unfold rank. simpl in Ht. lia.
  - destruct (switch_waiting _ _ _ _ Hs Hi') as [Ht' [?|(j & -> & Hj)]]; [by left|right]. exists j. split; [done|]. unfold rank. lia.
Qed.
Lemma advance_ticks k k' : 0 <= thread_ticks k < TIME_SLICE → advance k k' → 0 <= thread_ticks k' < TIME_SLICE.
Proof. intros Ht [(_ & _ & ->)|(k1 & _ & -> & _)]; [done|]. unfold TIME_SLICE. lia. Qed.
Lemma tick_ticks k k' : 0 <= thread_ticks k < TIME_SLICE → tick k k' → 0 <= thread_ticks k' < TIME_SLICE.
Proof.
  intros Ht [[(_ & _ & ->) Hlt]|(k1 & _ & -> & _)]; [simpl; lia|]. unfold TIME_SLICE. lia.
Qed.
