(* ===== verification/PintosSafety.v ===== *)
(** What the threads of src/bin/OS/pintos/src/threads can rely on, in every execution
    after the system has booted: no assertion fails, locks exclude each other, no
    thread and no wake-up is lost, and every thread that is ready gets its turn. *)
From S2P Require Export PintosLive.
Local Open Scope Z_scope.

(** * Booting *)

(** [main] of init.c is running, with interrupts off; nothing is initialised. *)
Definition power_on (initial : loc) : kernel :=
  Kernel ∅ [] initial NULL initial 1 0 0 0 false false false ∅ ∅ ∅.

(** The rest of the functions that [main] calls, and then of [idle]. *)
Fixpoint resume_n (tid_lock : loc) (n : nat) : K unit :=
  match n with O => mret tt | S n => run_move tid_lock Resume;; resume_n tid_lock n end.
Definition boot (initial idle_page tid_lock idle_started : loc) : K unit :=
  thread_init tid_lock initial;; resume_n tid_lock 4;;
  thread_start tid_lock (Some idle_page) idle_started;; resume_n tid_lock 12.

(** The system has booted: [thread_start] has returned to [main]. *)
Definition booted (initial idle_page tid_lock idle_started : loc) : kernel :=
  Kernel
    {[ initial := Thread 1 THREAD_RUNNING PRI_DEFAULT []; idle_page := Thread 2 THREAD_BLOCKED PRI_MIN [IdleHalt] ]}
    [] initial (Some idle_page) initial 3 0 0 0 true false false
    {[ LockSema tid_lock := Semaphore 1 []; Sema idle_started := Semaphore 0 [] ]} {[ tid_lock := NULL ]} ∅.

(** Locks are acquired when free, and released by the thread that has them; [own] is
    who has each lock at first. *)
Fixpoint legal (own : loc → ptr) (es : list event) : Prop :=
  match es with
  | [] => True
  | Acquired t l :: es => own l = NULL ∧ legal (upd own l (Some t)) es
  | Released t l :: es => own l = Some t ∧ legal (upd own l NULL) es
  end.

(** The timer interrupts of an execution. *)
Definition is_tick (x : move * option event * kernel) : Prop := x.1.1 = Interrupt HTick.
#[export] Instance is_tick_dec x : Decision (is_tick x).
Proof. destruct x as [[[|c|[]] e] k]; unfold is_tick; simpl; (by left) || by right. Defined.
Definition ticks (tr : list (move * option event * kernel)) : nat := length (filter is_tick tr).

Section safety.
Context (tid_lock : loc).

(** The invariant, with what the identifiers and the time slice need. *)
Record state_inv (k : kernel) : Prop := {
  st_inv : kernel_inv tid_lock k;
  st_tid : in_s 32 (next_tid k);
  st_ticks : 0 <= thread_ticks k < TIME_SLICE;
}.

Lemma state_inv_booted initial idle_page idle_started :
  initial ≠ idle_page → state_inv (booted initial idle_page tid_lock idle_started).
Proof.
  intros Hne. set (k := booted _ _ _ _).
  assert (∀ t, st (threads k) t = if decide (t = initial) then Some THREAD_RUNNING else if decide (t = idle_page) then Some THREAD_BLOCKED else None) as Hst.
  { intros t. unfold st, k. simpl. rewrite lookup_insert. repeat case_decide; subst; try done.
    - by rewrite lookup_singleton_eq.
    - by rewrite lookup_singleton_ne. }
  assert (∀ t, cd (threads k) t = if decide (t = initial) then Some [] else if decide (t = idle_page) then Some [IdleHalt] else None) as Hcd.
  { intros t. unfold cd, k. simpl. rewrite lookup_insert. repeat case_decide; subst; try done.
    - by rewrite lookup_singleton_eq.
    - by rewrite lookup_singleton_ne. }
  assert (∀ t, tk (cd (threads k)) t = []) as Htk.
  { intros t. unfold tk. rewrite Hcd. by repeat case_decide. }
  assert (∀ t s, ¬ waits_at (cd (threads k)) t s) as Hw.
  { intros t s [c Hc]. rewrite Hcd in Hc. by repeat case_decide. }
  assert (∀ s x, semas k !! s = Some x → in_u 32 (value x) ∧ waiters x = []) as Hsm.
  { intros s x. simpl. rewrite lookup_insert. case_decide; [intros [= <-]; by vm_compute|].
    intros [<- <-]%lookup_singleton_Some. by vm_compute. }
  split; [|by vm_compute|by vm_compute].
  constructor; [| | |done].
  - constructor; try setoid_rewrite Htk.
    + exists idle_page, THREAD_BLOCKED. rewrite Hst decide_False // decide_True //.
    + intros t. rewrite Hst Hcd. repeat case_decide; split; eauto; by intros [].
    + intros t. rewrite Hst. change (current k) with initial. repeat case_decide; subst; split; congruence.
    + intros t c. rewrite Hcd Hst. repeat case_decide; [intros _ Hn; exfalso; apply Hn; by subst| |done]. intros [= <-] _ _. subst.
      rewrite /is_idle bool_decide_true //. constructor.
    + intros t. rewrite Hst. by repeat case_decide.
    + intros t. rewrite Hst elem_of_nil. split; [done|]. intros [? _]. by repeat case_decide.
    + constructor.
    + intros t. rewrite Hst Hcd. repeat case_decide; try done. by left.
    + by intros t u ?%not_elem_of_nil.
    + by intros t t' u ?%not_elem_of_nil.
    + intros s x [_ Hx]%Hsm. rewrite Hx. split; [constructor|]. intros t. split; [by intros ?%not_elem_of_nil|by intros [_ ?%Hw]].
    + intros s x [Hv Hx]%Hsm. rewrite Hx. split; [done|by intros ?].
  - unfold sync_ok, todo. eapply (sync_inv_ext _ _ (semas k) _ _ (λ _, [])); [done|done|]. constructor; simpl.
    + constructor.
    + intros l h [<- <-]%lookup_singleton_Some. exists NULL. unfold val. rewrite lookup_insert_eq. split_and!; [done| |by left].
      intros t. split; [done|by intros [_ ?]].
    + rewrite lookup_singleton_eq. eauto.
    + intros t. rewrite lookup_singleton_eq. done.
    + by intros t t' w ?%not_elem_of_nil.
    + done.
    + done.
  - exists []. split; [rewrite Hcd decide_True //|]. simpl. rewrite /is_idle bool_decide_false; [by constructor|congruence].
Qed.

Lemma state_inv_step k m e k' : state_inv k → move_ok tid_lock k m → run_move tid_lock m k = Ret e k' → state_inv k' ∧ event_ok k e k'.
Proof.
  intros [Hk Htid Ht] Hm Hrun.
  assert (¬ tid_overflow k m) as Hover.
  { intros (-> & Hn & u & c & Hc). unfold run_move in Hrun. apply M_bind_inv_Ret in Hrun as (t & k1 & [= <- <-] & Hrun).
    unfold get_thread in Hrun. rewrite run_assoc run_gets in Hrun. unfold current_code in Hc.
    destruct (threads k !! current k) as [th|]; [|done]. injection Hc as Hc. cbn [defined] in Hrun. rewrite run_ret Hc run_modify in Hrun.
    unfold exec, take_tid in Hrun. rewrite run_gets in Hrun. by rewrite /= Hn in Hrun. }
  pose proof (move_inv tid_lock k m Hk Htid Hm Hover) as Hinv. unfold pwp in Hinv. rewrite Hrun in Hinv. destruct Hinv as [Hk' He].
  split; [|done]. split; [done|by eapply run_move_tid|].
  assert (m = Interrupt HTick ∨ m ≠ Interrupt HTick) as [->|Hne] by (clear; destruct m as [|c|[]]; (by left) || by right).
  - eapply tick_ticks, tick_move; done.
  - eapply advance_ticks, run_move_advance; done.
Qed.

Lemma execution_app k tr tr' : execution tid_lock k (tr ++ tr') ↔ execution tid_lock k tr ∧ execution tid_lock (final k tr) tr'.
Proof.
  revert k. induction tr as [|[[m e] k'] tr IH]; intros k; simpl.
  - split; [intros H; split; [constructor|done]|by intros [_ ?]].
  - split.
    + inversion 1; subst. destruct (proj1 (IH k')) as [? ?]; [done|]. split; [by constructor|done].
    + intros [H ?]. inversion H; subst. constructor; [done..|]. by apply IH.
Qed.
Lemma execution_inv k tr : state_inv k → execution tid_lock k tr → state_inv (final k tr).
Proof.
  intros Hk H. revert Hk. induction H as [|k m e k' tr Hm Hrun _ IH]; intros Hk; [done|]. apply IH.
  by eapply state_inv_step.
Qed.

Lemma state_inv_moves k m : state_inv k → move_ok tid_lock k m →
  (∃ e k', run_move tid_lock m k = Ret e k') ∨ tid_overflow k m ∧ run_move tid_lock m k = Undef.
Proof.
  intros [Hk Htid Ht] Hm. assert (tid_overflow k m ∨ ¬ tid_overflow k m) as [Hover|Hover].
  { unfold tid_overflow. destruct m as [| |]; [|by right; intros [? _]..]. destruct (decide (next_tid k = 2 ^ 31 - 1)); [|by right; intros (_ & ? & _)].
    destruct (current_code k) as [[|[] c]|]; first [by left; split_and!; [..|by eexists _, _]|by right; intros (_ & _ & u & c' & ?)]. }
  - right. split; [done|]. destruct Hover as (-> & Hn & u & c & Hc). unfold run_move. rewrite run_gets.
    unfold get_thread. rewrite run_assoc run_gets. unfold current_code in Hc.
    destruct (threads k !! current k) as [th|]; [|done]. injection Hc as Hc. cbn [defined]. rewrite run_ret Hc run_modify.
    unfold exec, take_tid. rewrite run_gets. by rewrite /= Hn.
  - left. pose proof (move_inv tid_lock k m Hk Htid Hm Hover) as (e & k' & Hrun & _)%pwp_run. eauto.
Qed.

Lemma legal_ext own own' es : (∀ l, own l = own' l) → legal own es → legal own' es.
Proof.
  revert own own'. induction es as [|[t l|t l] es IH]; intros own own' H; [done|..]; simpl; rewrite H; intros [? Hes];
    (split; [done|]); eapply IH, Hes; intros l'; upd_cases; auto.
Qed.
Lemma execution_legal k tr : state_inv k → execution tid_lock k tr → legal (owner k) (events tr).
Proof.
  intros Hk H. revert Hk. induction H as [|k m e k' tr Hm Hrun _ IH]; intros Hk; [done|].
  destruct (state_inv_step _ _ _ _ Hk Hm Hrun) as [Hk' He]. specialize (IH Hk'). unfold events. simpl.
  destruct e as [[t l|t l]|]; simpl in He.
  - destruct He as (_ & Hfree & Hown). split; [done|]. by eapply legal_ext.
  - destruct He as (_ & Hheld & Hown). split; [done|]. by eapply legal_ext.
  - by eapply legal_ext.
Qed.

Lemma execution_turn k tr i t : state_inv k → execution tid_lock k tr → ready_list k !! i = Some t →
  rank k i <= Z.of_nat (ticks tr) → ∃ m e k', (m, e, k') ∈ tr ∧ current k' = t.
Proof.
  intros Hk H. revert i Hk. induction H as [|k m e k' tr Hm Hrun _ IH]; intros i Hk Hi Hrank.
  - exfalso. pose proof (st_ticks _ Hk). change (ticks []) with O in Hrank. unfold rank, TIME_SLICE in *. lia.
  - destruct (state_inv_step _ _ _ _ Hk Hm Hrun) as [Hk' _]. pose proof (st_ticks _ Hk) as Ht.
    assert (current k' = t ∨ ∃ j, ready_list k' !! j = Some t ∧ rank k' j <= Z.of_nat (ticks tr)) as [Hc|(j & Hj & Hr)].
    { assert (m = Interrupt HTick ∨ m ≠ Interrupt HTick) as [->|Hne] by (clear; destruct m as [|c|[]]; (by left) || by right).
      - assert (Z.of_nat (ticks ((Interrupt HTick, e, k') :: tr)) = Z.of_nat (ticks tr) + 1) as Hn by (unfold ticks; simpl; lia).
        destruct (tick_waiting k k' i t) as [?|(j & Hj & Hr)]; [lia|by eapply tick_move|done|by left|]. right. exists j. split; [done|lia].
      - assert (ticks ((m, e, k') :: tr) = ticks tr) as Hn.
        { unfold ticks. rewrite filter_cons_False //. }
        destruct (advance_waiting k k' i t) as [?|(j & Hj & Hr)]; [lia|by eapply run_move_advance|done|by left|]. right. exists j. split; [done|lia]. }
    + exists m, e, k'. split; [left|done].
    + destruct (IH j Hk' Hj Hr) as (m' & e' & k'' & Hin & Hc). exists m', e', k''. split; [by right|done].
Qed.
End safety.

(** Where a thread is. *)
Definition accounted (k : kernel) (t : loc) (th : thread) : Prop :=
  match status th with
  | THREAD_RUNNING => t = current k
  | THREAD_READY => t ∈ ready_list k ∨ idle_thread k = Some t
  | THREAD_BLOCKED =>
      idle_thread k = Some t ∨ (∃ s x, semas k !! s = Some x ∧ t ∈ waiters x) ∨
      ∃ t' th', threads k !! t' = Some th' ∧ Unblock t ∈ code th'
  | THREAD_DYING => code th = []
  end.

Lemma task_of_in u c : Unblock u ∈ task_of c → Unblock u ∈ c.
Proof.
  induction c as [|i c IH]; [done|]. destruct i; simpl; try done; rewrite ?elem_of_cons; [auto..|].
  intros [|]; [done|by right].
Qed.

Lemma accounted_inv tid_lock k t th :
  sched_ok (Some (current k)) k → sync_ok tid_lock k → threads k !! t = Some th → accounted k t th.
Proof.
  intros Hs Hy Hth. assert (st (threads k) t = Some (status th)) as Hst by by rewrite /st Hth.
  assert (cd (threads k) t = Some (code th)) as Hcd by by rewrite /cd Hth.
  unfold accounted. destruct (status th) eqn:Hstatus.
  - apply (si_running _ _ _ _ _ _ Hs) in Hst. congruence.
  - destruct (decide (idle_thread k = Some t)); [by right|left]. by apply (si_ready _ _ _ _ _ _ Hs).
  - destruct (si_blocked _ _ _ _ _ _ Hs _ Hst) as [Hc|[(_ & t' & Hu)|[s Hw]]].
    + left. assert (coded (is_idle (idle_thread k) t) false [IdleHalt]) as Hi.
      { eapply (si_code _ _ _ _ _ _ Hs); [done| |congruence]. intros Hr%(si_running _ _ _ _ _ _ Hs). congruence. }
      inversion Hi as [| |Hidle| | | | |]. symmetry in Hidle. by apply bool_decide_eq_true in Hidle.
    + right; right. unfold tk, cd in Hu. destruct (threads k !! t') as [th'|] eqn:Ht'; [|by apply elem_of_nil in Hu].
      exists t', th'. split; [done|by apply task_of_in].
    + right; left. assert (∃ x, semas k !! s = Some x) as [x Hx].
      { pose proof (waits_at_task _ _ Hw) as Hd. eapply down_known in Hd; [|exact Hy]. destruct s as [s|l|w]; [done| |done].
        by apply (lock_sema_exists _ Hy). }
      exists s, x. split; [done|]. by apply (si_waiters _ _ _ _ _ _ Hs _ _ Hx).
  - apply (si_dying _ _ _ _ _ _ Hs) in Hst. congruence.
Qed.

(** * A short execution *)

(** Thread 1 creates thread 5, *)
Definition create_moves : list move :=
  [Call (CCreate (Some 5%positive) PRI_DEFAULT); Resume; Resume; Resume; Resume; Resume].
(** and the timer ticks until that runs; *)
Definition tick_moves : list move :=
  [Interrupt HTick; Resume; Interrupt HTick; Resume; Interrupt HTick; Resume; Interrupt HTick].
(** or both wait for a semaphore, and an interrupt handler ups it once. *)
Definition sema_moves : list move :=
  [Call (CSemaInit 6 0); Call (CSemaDown 6); Resume; Call (CSemaDown 6); Resume; Interrupt (HSemaUp 6)].
Fixpoint play (tid_lock : loc) (ms : list move) (k : kernel) : list (move * option event * kernel) :=
  match ms with
  | [] => []
  | m :: ms => match run_move tid_lock m k with Ret e k' => (m, e, k') :: play tid_lock ms k' | _ => [] end
  end.
Definition booted_sample : kernel := booted 1 2 3 4.
Definition created_sample : kernel := final booted_sample (play 3 create_moves booted_sample).

Ltac solve_move :=
  lazymatch goal with
  | |- move_ok _ _ Resume => eexists _, _; vm_compute; reflexivity
  | |- move_ok _ _ (Interrupt HTick) => by vm_compute
  | |- move_ok _ _ (Interrupt _) => split; [by vm_compute|eexists; vm_compute; reflexivity]
  | |- move_ok _ _ (Call (CSemaInit _ _)) => split; [vm_compute; reflexivity|split; [by vm_compute|split; [|split]; by vm_compute]]
  | |- move_ok _ _ (Call (CSemaDown _)) => split; [vm_compute; reflexivity|split; [by vm_compute|eexists; vm_compute; reflexivity]]
  | |- move_ok _ _ (Call (CCreate _ _)) => split; [vm_compute; reflexivity|split; [by vm_compute|split; [split; by vm_compute|intros ? [= <-]; by vm_compute]]]
    end.
Ltac solve_execution :=
  vm_compute play;
  repeat (eapply execution_cons; [solve_move|vm_compute; reflexivity|]); apply execution_nil.

Lemma create_execution : execution 3 booted_sample (play 3 create_moves booted_sample).
Proof. solve_execution. Qed.
Lemma tick_execution : execution 3 created_sample (play 3 tick_moves created_sample).
Proof. solve_execution. Qed.
Lemma sema_execution : execution 3 booted_sample (play 3 (create_moves ++ sema_moves) booted_sample).
Proof. solve_execution. Qed.

(** * Properties *)

Section properties.
Context (initial idle_page tid_lock idle_started : loc).
Context (Hpages : initial ≠ idle_page).

Lemma reachable_inv tr : execution tid_lock (booted initial idle_page tid_lock idle_started) tr → state_inv tid_lock (final (booted initial idle_page tid_lock idle_started) tr).
Proof. apply execution_inv. by apply state_inv_booted. Qed.

(** C1: whatever the threads call and whenever interrupts come, as long as the calls
    respect their obligations no assertion of the kernel fails and no memory is
    misused: each move returns, but for the creation of a thread after [INT_MAX]. *)
Theorem kernel_never_panics tr k m :
  execution tid_lock (booted initial idle_page tid_lock idle_started) tr →
  k = final (booted initial idle_page tid_lock idle_started) tr → move_ok tid_lock k m →
  (∃ e k', run_move tid_lock m k = Ret e k') ∨ tid_overflow k m ∧ run_move tid_lock m k = Undef.
Proof. intros Htr ->. by apply state_inv_moves, reachable_inv. Qed.

(** C2: a lock is only acquired while no thread has it, and only released by the
    thread that has it, in every execution. *)
Theorem mutual_exclusion tr : execution tid_lock (booted initial idle_page tid_lock idle_started) tr → legal (λ _, NULL) (events tr).
Proof.
  intros Htr. eapply legal_ext; [|eapply execution_legal; [by apply state_inv_booted|done]].
  intros l. unfold owner. simpl. destruct (decide (tid_lock = l)) as [->|]; [by rewrite lookup_singleton_eq|by rewrite lookup_singleton_ne].
Qed.

(** C5: no thread is lost: the ready list and the lists of waiters have no duplicates
    and no thread in common, which the one [elem] member of a thread asks for, and
    every thread is running, or in the ready list, or waits for a semaphore, or is
    about to be unblocked by its creator, or is the idle thread, or has exited. *)
Theorem threads_accounted tr k :
  execution tid_lock (booted initial idle_page tid_lock idle_started) tr →
  k = final (booted initial idle_page tid_lock idle_started) tr →
  NoDup (ready_list k) ∧
  (∀ s x, semas k !! s = Some x → NoDup (waiters x) ∧ ∀ t, t ∈ waiters x → t ∉ ready_list k ∧
    ∀ s' x', semas k !! s' = Some x' → t ∈ waiters x' → s' = s) ∧
  ∀ t th, threads k !! t = Some th → accounted k t th.
Proof.
  intros Htr ->. destruct (reachable_inv _ Htr) as [[Hs Hy _ _] _ _]. set (k := final (booted initial idle_page tid_lock idle_started) tr) in *. split_and!.
  - apply (si_ready_nodup _ _ _ _ _ _ Hs).
  - intros s x Hx. destruct (si_waiters _ _ _ _ _ _ Hs _ _ Hx) as [Hnd Hin]. split; [done|]. intros t [Hb Hw]%Hin. split.
    + intros [Hr _]%(si_ready _ _ _ _ _ _ Hs). congruence.
    + intros s' x' Hx' Ht. destruct (si_waiters _ _ _ _ _ _ Hs _ _ Hx') as [_ Hin']. apply Hin' in Ht as [_ Hw'].
      by eapply waits_at_inj.
  - intros t th Hth. apply (accounted_inv tid_lock); [done..|]. exact Hth.
Qed.

(** C4: no wake-up is lost: while a semaphore has waiters, each unit of its value has
    been promised to a thread of its own that has been woken and is about to take it. *)
Theorem no_lost_wakeup tr k s x :
  execution tid_lock (booted initial idle_page tid_lock idle_started) tr →
  k = final (booted initial idle_page tid_lock idle_started) tr → semas k !! s = Some x → waiters x ≠ [] →
  ∃ ws, NoDup ws ∧ value x <= Z.of_nat (length ws) ∧
    ∀ t, t ∈ ws → ∃ th c, threads k !! t = Some th ∧ status th ≠ THREAD_BLOCKED ∧ code th = SemaDownLoop s true :: c.
Proof.
  intros Htr -> Hx Hw. destruct (reachable_inv _ Htr) as [[Hs _ _ _] _ _].
  destruct (si_woken _ _ _ _ _ _ Hs _ _ Hx) as [_ Hwk]. destruct (Hwk Hw) as (ws & Hnd & Hlen & Hin). exists ws.
  split_and!; [done..|]. intros t Ht. destruct (Hin _ Ht) as [Hb [c Hc]]. unfold st, cd in *.
  destruct (threads _ !! t) as [th|]; [|done]. exists th, c. split_and!; [done| |by injection Hc]. intros Heq. by rewrite /= Heq in Hb.
Qed.

(** C3: a thread in the ready list, with [i] threads before it, runs before the timer
    has ticked [TIME_SLICE * (i + 1)] times, whatever the others do. *)
Theorem ready_threads_run tr k tr' i t :
  execution tid_lock (booted initial idle_page tid_lock idle_started) tr →
  k = final (booted initial idle_page tid_lock idle_started) tr → ready_list k !! i = Some t →
  execution tid_lock k tr' → TIME_SLICE * (Z.of_nat i + 1) <= Z.of_nat (ticks tr') →
  ∃ m e k', (m, e, k') ∈ tr' ∧ current k' = t.
Proof.
  intros Htr -> Hi Htr' Hn. pose proof (reachable_inv _ Htr) as Hk. eapply execution_turn; [done..|].
  pose proof (st_ticks _ _ Hk). unfold rank. lia.
Qed.

(** C6: the code of every thread is well formed: it is in one of the functions of the
    kernel, at a point that the function has, having and waiting for what that asks;
    and the points with interrupts on are those of the running thread alone. *)
Theorem code_well_formed tr k t th :
  execution tid_lock (booted initial idle_page tid_lock idle_started) tr →
  k = final (booted initial idle_page tid_lock idle_started) tr → threads k !! t = Some th → status th ≠ THREAD_DYING →
  doing tid_lock (semas k) (holders k) (conds k) t (task_of (code th)) ∧
  ∃ on, coded (is_idle (idle_thread k) t) on (code th) ∧ (on = true → t = current k ∧ intr_on k = true).
Proof.
  intros Htr -> Hth Hd. destruct (reachable_inv _ Htr) as [[Hs Hy (c & Hc & Hcd) _] _ _]. set (k := final (booted initial idle_page tid_lock idle_started) tr) in *.
  assert (cd (threads k) t = Some (code th)) as Hcode by by rewrite /cd Hth. split.
  - rewrite -(tk_cd _ _ _ Hcode). apply (sy_doing _ _ _ _ _ Hy).
  - destruct (decide (t = current k)) as [->|Hne].
    + exists (intr_on k). split; [|done]. congruence.
    + exists false. split; [|done]. eapply (si_code _ _ _ _ _ _ Hs); [done|congruence|]. rewrite /st Hth /=. congruence.
Qed.
End properties.

(** The scenarios above, for each of them. *)
Abbreviation create_trace := (play 3 create_moves booted_sample).
Abbreviation sema_trace := (play 3 (create_moves ++ sema_moves) booted_sample).

Lemma kernel_never_panics_witness : ∃ e k', run_move 3 (Interrupt HTick) created_sample = Ret e k'.
Proof.
  destruct (kernel_never_panics 1 2 3 4 ltac:(done) _ _ (Interrupt HTick) create_execution eq_refl) as [H|[[H _] _]].
  - by vm_compute.
  - exact H.
  - done.
Defined.
Lemma mutual_exclusion_witness : legal (λ _, NULL) [Acquired 1 3; Released 1 3].
Proof. exact (mutual_exclusion 1 2 3 4 ltac:(done) _ create_execution). Defined.
Lemma threads_accounted_witness : NoDup (ready_list created_sample).
Proof. exact (proj1 (threads_accounted 1 2 3 4 ltac:(done) _ _ create_execution eq_refl)). Defined.
(** One unit for two waiters, and one of them woken. *)
Lemma no_lost_wakeup_witness : ∃ t th c,
  threads (final booted_sample sema_trace) !! t = Some th ∧ status th ≠ THREAD_BLOCKED ∧ code th = SemaDownLoop (Sema 6) true :: c.
Proof.
  destruct (no_lost_wakeup 1 2 3 4 ltac:(done) _ _ (Sema 6) (Semaphore 1 [5%positive]) sema_execution eq_refl) as (ws & Hnd & Hlen & Hws).
  - vm_compute. reflexivity.
  - done.
  - destruct ws as [|t ws]; [simpl in Hlen; lia|]. exists t. apply Hws. left.
Defined.
Lemma ready_threads_run_witness : ∃ m e k', (m, e, k') ∈ play 3 tick_moves created_sample ∧ current k' = 5%positive.
Proof.
  apply (ready_threads_run 1 2 3 4 ltac:(done) _ _ _ 0 5 create_execution eq_refl).
  - vm_compute. reflexivity.
  - exact tick_execution.
  - by vm_compute.
Defined.
Lemma code_well_formed_witness : ∃ on, coded false on [KernelThread].
Proof.
  destruct (code_well_formed 1 2 3 4 ltac:(done) _ _ 5 (Thread 3 THREAD_READY 31 [KernelThread]) create_execution eq_refl) as [_ (on & H & _)].
  - vm_compute. reflexivity.
  - done.
  - exists on. exact H.
Defined.
Lemma boot_booted : boot 1 2 3 4 (power_on 1) = Ret tt booted_sample.
Proof. vm_compute. reflexivity. Qed.
