(* ===== verification/PintosDisk.v ===== *)
(** The state of the file system of src/bin/OS/pintos/src/filesys: the disk, the
    objects in memory and the allocations, and the structures on the disk. *)
From S2P Require Export Bytes PintosBitmap.
Local Open Scope Z_scope.

(** * Structures in a block *)

(** [struct inode_disk], which fills a sector. *)
Record inode_disk := InodeDisk { i_start : Z; i_length : Z; i_magic : Z; i_unused : bytes }.

Definition encode_inode (d : inode_disk) : bytes :=
  le_split 4 (i_start d) ++ le_split 4 (i_length d) ++ le_split 4 (i_magic d) ++ i_unused d.
Definition decode_inode (l : bytes) : inode_disk :=
  InodeDisk (le_combine (slice 0 4 l)) (wrap_s 32 (le_combine (slice 4 4 l)))
    (le_combine (slice 8 4 l)) (slice 12 500 l).

(** [struct inode], [struct file] and [struct dir]. *)
Record inode := Inode { sector : Z; open_cnt : Z; removed : bool; deny_write_cnt : Z; data : inode_disk }.
Record file := File { f_inode : ptr; f_pos : Z; f_deny : bool }.
Record dir := Dir { d_inode : ptr; d_pos : Z }.

(** * The state *)

(** [disk] is the contents of [filesys_disk]; [allocs] says which of the coming
    allocations succeed, and those after it do; [stack] is what the coming
    uninitialised variables hold. *)
Record fs := Fs {
  disk : bytes;
  capacity : Z;
  inodes : gmap loc inode;
  open_inodes : list loc;
  files : gmap loc file;
  dirs : gmap loc dir;
  free_map : bitmap;
  free_map_file : ptr;
  allocs : list bool;
  stack : bytes;
}.

Definition with_disk d s := Fs d (capacity s) (inodes s) (open_inodes s) (files s) (dirs s) (free_map s) (free_map_file s) (allocs s) (stack s).
Definition with_inodes m s := Fs (disk s) (capacity s) m (open_inodes s) (files s) (dirs s) (free_map s) (free_map_file s) (allocs s) (stack s).
Definition with_open l s := Fs (disk s) (capacity s) (inodes s) l (files s) (dirs s) (free_map s) (free_map_file s) (allocs s) (stack s).
Definition with_files m s := Fs (disk s) (capacity s) (inodes s) (open_inodes s) m (dirs s) (free_map s) (free_map_file s) (allocs s) (stack s).
Definition with_dirs m s := Fs (disk s) (capacity s) (inodes s) (open_inodes s) (files s) m (free_map s) (free_map_file s) (allocs s) (stack s).
Definition with_free_map b s := Fs (disk s) (capacity s) (inodes s) (open_inodes s) (files s) (dirs s) b (free_map_file s) (allocs s) (stack s).
Definition with_free_map_file p s := Fs (disk s) (capacity s) (inodes s) (open_inodes s) (files s) (dirs s) (free_map s) p (allocs s) (stack s).
Definition with_allocs l s := Fs (disk s) (capacity s) (inodes s) (open_inodes s) (files s) (dirs s) (free_map s) (free_map_file s) l (stack s).
Definition with_stack l s := Fs (disk s) (capacity s) (inodes s) (open_inodes s) (files s) (dirs s) (free_map s) (free_map_file s) (allocs s) l.

Abbreviation F := (M fs).

(** A kernel panic, which nothing catches. *)
Definition PANIC {A} : F A := throw Assert_Failed.

(** Signed arithmetic. *)
Definition int (z : Z) : F Z := defined (int_of z).

(** Whether [malloc] or [calloc] finds memory. *)
Definition malloc_ok : F bool :=
  l ← gets allocs;
  match l with [] => mret true | b :: l => modify (with_allocs l);; mret b end.

(** An uninitialised variable of [n] bytes. *)
Definition uninit (n : nat) : F bytes :=
  l ← gets stack; modify (with_stack (drop n l));;
  mret (wrap_u 8 <$> resize n 0 l).

(** * The disk *)

Definition DISK_SECTOR_SIZE : Z := 512.

Definition disk_size : F Z := gets capacity.

(** What the driver asserts of the sector; the sector number has 28 bits. *)
Definition select_sector (sec_no : Z) : F unit :=
  n ← gets capacity; ASSERT (bool_decide (sec_no < n));; ASSERT (bool_decide (sec_no < 2 ^ 28)).

(** What the driver does, where the controller does what it is told; the number of
    reads and writes is left out. *)
Definition disk_read (sec_no : Z) : F bytes :=
  select_sector sec_no;; d ← gets disk; mret (slice (DISK_SECTOR_SIZE * sec_no) DISK_SECTOR_SIZE d).
Definition disk_write (sec_no : Z) (buffer : bytes) : F unit :=
  select_sector sec_no;; b ← defined (block_at 0 DISK_SECTOR_SIZE buffer);
  d ← gets disk; modify (with_disk (splice (DISK_SECTOR_SIZE * sec_no) b d)).

(** What a sector must hold to be read back. *)
Record wf_inode_disk (d : inode_disk) : Prop := {
  wf_start : in_u 32 (i_start d);
  wf_length : in_s 32 (i_length d);
  wf_magic : in_u 32 (i_magic d);
  wf_unused : size_of (i_unused d) = 500;
}.

Lemma size_of_encode d : wf_inode_disk d → size_of (encode_inode d) = DISK_SECTOR_SIZE.
Proof. intros [_ _ _ Hu]. unfold encode_inode. sizes. by rewrite !size_of_le_split Hu. Qed.

Lemma decode_encode d : wf_inode_disk d → decode_inode (encode_inode d) = d.
Proof.
  intros [H1 H2 H3 H4]. destruct d as [st len mg un]. unfold decode_inode, encode_inode.
  cbn [i_start i_length i_magic i_unused] in *. f_equal.
  - by apply le_combine_4.
  - by apply (le_combine_4_signed len).
  - by apply (le_combine_4 mg).
  - rewrite !app_assoc -H4. by apply slice_app_r.
Qed.
