(* ===== verification/PintosInode.v ===== *)
(** The operations of src/bin/OS/pintos/src/filesys/inode.c, file.c and free-map.c
    and the transfer of a bitmap to and from a file of lib/kernel/bitmap.c, in
    the order in which they call each other. *)
From S2P Require Export PintosDisk.
Local Open Scope Z_scope.

(** * Memory *)

Definition deref {A} (m : gmap loc A) (p : ptr) : F A := defined (a ← p; m !! a).

Definition get_inode (p : ptr) : F inode := m ← gets inodes; deref m p.
Definition set_inode (p : ptr) (x : inode) : F unit :=
  get_inode p;; m ← gets inodes;
  match p with Some a => modify (with_inodes (<[a := x]> m)) | None => undef end.
Definition get_file (p : ptr) : F file := m ← gets files; deref m p.
Definition set_file (p : ptr) (x : file) : F unit :=
  get_file p;; m ← gets files;
  match p with Some a => modify (with_files (<[a := x]> m)) | None => undef end.

Definition set_open_cnt (p : ptr) (n : Z) : F unit :=
  x ← get_inode p; set_inode p (Inode (sector x) n (removed x) (deny_write_cnt x) (data x)).
Definition set_removed (p : ptr) (r : bool) : F unit :=
  x ← get_inode p; set_inode p (Inode (sector x) (open_cnt x) r (deny_write_cnt x) (data x)).
Definition set_deny_write_cnt (p : ptr) (n : Z) : F unit :=
  x ← get_inode p; set_inode p (Inode (sector x) (open_cnt x) (removed x) n (data x)).
Definition set_pos (p : ptr) (n : Z) : F unit :=
  f ← get_file p; set_file p (File (f_inode f) n (f_deny f)).
Definition set_deny (p : ptr) (b : bool) : F unit :=
  f ← get_file p; set_file p (File (f_inode f) (f_pos f) b).

(** A block for a new object, unless there is no memory. *)
Definition new_inode (x : inode) : F ptr :=
  ok ← malloc_ok;
  if (ok : bool) then
    m ← gets inodes; let a := fresh (dom m) in
    modify (with_inodes (<[a := x]> m));; mret (Some a)
  else mret NULL.
Definition new_file (x : file) : F ptr :=
  ok ← malloc_ok;
  if (ok : bool) then
    m ← gets files; let a := fresh (dom m) in
    modify (with_files (<[a := x]> m));; mret (Some a)
  else mret NULL.

(** [free]; that of [NULL] does nothing. *)
Definition free_inode (p : ptr) : F unit :=
  match p with
  | Some a => get_inode p;; m ← gets inodes; modify (with_inodes (base.delete a m))
  | None => mret tt
  end.
Definition free_file (p : ptr) : F unit :=
  match p with
  | Some a => get_file p;; m ← gets files; modify (with_files (base.delete a m))
  | None => mret tt
  end.

(** * Reading and writing inodes *)

Definition INODE_MAGIC : Z := 0x494e4f44.

(** [DIV_ROUND_UP], where [size] is signed and the result is not. *)
Definition bytes_to_sectors (size : Z) : F Z :=
  n ← int (size + DISK_SECTOR_SIZE); n ← int (n - 1);
  mret (wrap_u 32 (n `quot` DISK_SECTOR_SIZE)).

Definition inode_length (p : ptr) : F Z := x ← get_inode p; mret (i_length (data x)).

Definition byte_to_sector (p : ptr) (pos : Z) : F Z :=
  ASSERT (bool_decide (p ≠ NULL));;
  x ← get_inode p;
  mret (if bool_decide (pos < i_length (data x))
        then wrap_u 32 (i_start (data x) + pos `quot` DISK_SECTOR_SIZE) else wrap_u 32 (-1)).

Definition inode_init : F unit := modify (with_open []).

(** The sector, the offset in it and the size of the next chunk. *)
Definition next_chunk (p : ptr) (size offset : Z) : F (Z * Z * Z * Z) :=
  sector_idx ← byte_to_sector p offset;
  let sector_ofs := offset `rem` DISK_SECTOR_SIZE in
  len ← inode_length p; inode_left ← int (len - offset);
  let sector_left := DISK_SECTOR_SIZE - sector_ofs in
  let min_left := if bool_decide (inode_left < sector_left) then inode_left else sector_left in
  let chunk_size := if bool_decide (size < min_left) then size else min_left in
  mret (sector_idx, sector_ofs, sector_left, chunk_size).

(** The variables of the loops: the buffer of the caller, [size], [offset], the
    number of bytes transferred, and whether there is a bounce buffer. *)
Record transfer := Transfer { t_buffer : bytes; t_size : Z; t_offset : Z; t_done : Z; t_bounce : bool }.

(** [bounce = malloc (DISK_SECTOR_SIZE)] where there is none. *)
Definition bounce_ok (b : bool) : F bool := if b then mret true else malloc_ok.

Definition advance (t : transfer) (buffer : bytes) (bounce : bool) (chunk_size : Z) : F transfer :=
  size ← int (t_size t - chunk_size); offset ← int (t_offset t + chunk_size);
  n ← int (t_done t + chunk_size);
  mret (Transfer buffer size offset n bounce).

Definition read_step (p : ptr) (t : transfer) : F (transfer + transfer) :=
  if bool_decide (t_size t > 0) then
    '(sector_idx, sector_ofs, _, chunk_size) ← next_chunk p (t_size t) (t_offset t);
    if bool_decide (chunk_size <= 0) then mret (inr t)
    else if bool_decide (sector_ofs = 0 ∧ chunk_size = DISK_SECTOR_SIZE) then
      d ← disk_read sector_idx;
      buffer ← defined (overwrite (t_done t) d (t_buffer t));
      t' ← advance t buffer (t_bounce t) chunk_size; mret (inl t')
    else
      ok ← bounce_ok (t_bounce t);
      if (ok : bool) then
        bounce ← disk_read sector_idx;
        b ← defined (block_at sector_ofs chunk_size bounce);
        buffer ← defined (overwrite (t_done t) b (t_buffer t));
        t' ← advance t buffer true chunk_size; mret (inl t')
      else mret (inr t)
  else mret (inr t).

(** What is read, and what is then in the buffer of the caller.  Each round but
    the last transfers a byte. *)
Definition inode_read_at (p : ptr) (buffer : bytes) (size offset : Z) : F (Z * bytes) :=
  t ← loop (S (S (Z.to_nat size))) (read_step p) (Transfer buffer size offset 0 false);
  mret (t_done t, t_buffer t).

Definition write_step (p : ptr) (t : transfer) : F (transfer + transfer) :=
  if bool_decide (t_size t > 0) then
    '(sector_idx, sector_ofs, sector_left, chunk_size) ← next_chunk p (t_size t) (t_offset t);
    if bool_decide (chunk_size <= 0) then mret (inr t)
    else if bool_decide (sector_ofs = 0 ∧ chunk_size = DISK_SECTOR_SIZE) then
      b ← defined (block_at (t_done t) DISK_SECTOR_SIZE (t_buffer t));
      disk_write sector_idx b;;
      t' ← advance t (t_buffer t) (t_bounce t) chunk_size; mret (inl t')
    else
      ok ← bounce_ok (t_bounce t);
      if (ok : bool) then
        bounce ← (if bool_decide (sector_ofs > 0 ∨ chunk_size < sector_left)
                  then disk_read sector_idx
                  else mret (replicate (Z.to_nat DISK_SECTOR_SIZE) 0));
        b ← defined (block_at (t_done t) chunk_size (t_buffer t));
        bounce ← defined (overwrite sector_ofs b bounce);
        disk_write sector_idx bounce;;
        t' ← advance t (t_buffer t) true chunk_size; mret (inl t')
      else mret (inr t)
  else mret (inr t).

Definition inode_write_at (p : ptr) (buffer : bytes) (size offset : Z) : F Z :=
  x ← get_inode p;
  if bool_decide (deny_write_cnt x ≠ 0) then mret 0
  else
    t ← loop (S (S (Z.to_nat size))) (write_step p) (Transfer buffer size offset 0 false);
    mret (t_done t).

Definition inode_reopen (p : ptr) : F ptr :=
  match p with
  | Some _ => x ← get_inode p; n ← int (open_cnt x + 1); set_open_cnt p n
  | None => mret tt
  end;;
  mret p.

Definition inode_get_inumber (p : ptr) : F Z := x ← get_inode p; mret (sector x).

Definition inode_remove (p : ptr) : F unit :=
  ASSERT (bool_decide (p ≠ NULL));; set_removed p true.

Definition inode_deny_write (p : ptr) : F unit :=
  x ← get_inode p; n ← int (deny_write_cnt x + 1); set_deny_write_cnt p n;;
  x ← get_inode p; ASSERT (bool_decide (deny_write_cnt x <= open_cnt x)).

Definition inode_allow_write (p : ptr) : F unit :=
  x ← get_inode p; ASSERT (bool_decide (deny_write_cnt x > 0));;
  ASSERT (bool_decide (deny_write_cnt x <= open_cnt x));;
  n ← int (deny_write_cnt x - 1); set_deny_write_cnt p n.

(** The search of [inode_open] in the list of open inodes. *)
Fixpoint find_open (sec : Z) (l : list loc) : F ptr :=
  match l with
  | [] => mret NULL
  | a :: l =>
      x ← get_inode (Some a);
      if bool_decide (sector x = sec) then mret (Some a) else find_open sec l
  end.

(** [disk_read] fills [data]. *)
Definition inode_open (sec : Z) : F ptr :=
  l ← gets open_inodes; p ← find_open sec l;
  match p with
  | Some _ => inode_reopen p
  | None =>
      p ← new_inode (Inode sec 1 false 0 (InodeDisk 0 0 0 []));
      match p with
      | None => mret NULL
      | Some a =>
          l ← gets open_inodes; modify (with_open (a :: l));;
          d ← disk_read sec;
          set_inode p (Inode sec 1 false 0 (decode_inode d));;
          mret p
      end
  end.

(** * The free map *)

Definition FREE_MAP_SECTOR : Z := 0.
Definition ROOT_DIR_SECTOR : Z := 1.

Definition file_read_at (f : ptr) (buffer : bytes) (size file_ofs : Z) : F (Z * bytes) :=
  x ← get_file f; inode_read_at (f_inode x) buffer size file_ofs.
Definition file_write_at (f : ptr) (buffer : bytes) (size file_ofs : Z) : F Z :=
  x ← get_file f; inode_write_at (f_inode x) buffer size file_ofs.

(** The words of a bitmap in memory, and the words that bytes in memory make. *)
Definition bytes_of_words (ws : list Z) : bytes := ws ≫= le_split 4.
Fixpoint words_of_bytes (n : nat) (l : bytes) : list Z :=
  match n with O => [] | S n => le_combine (slice 0 4 l) :: words_of_bytes n (drop 4 l) end.

Definition last_mask (b : bitmap) : Z :=
  let last_bits := bit_cnt b mod ELEM_BITS in
  if bool_decide (last_bits ≠ 0) then wrap_u 32 (Z.shiftl 1 last_bits - 1) else wrap_u 32 (-1).

Definition bitmap_file_size (b : bitmap) : Z := byte_cnt (bit_cnt b).

Definition bitmap_read (b : bitmap) (f : ptr) : F (bool * bitmap) :=
  if bool_decide (bit_cnt b > 0) then
    let size := wrap_s 32 (byte_cnt (bit_cnt b)) in
    '(n, l) ← file_read_at f (bytes_of_words (bits b)) size 0;
    let b := Bitmap (bit_cnt b) (words_of_bytes (length (bits b)) l) in
    let last := elem_cnt (bit_cnt b) - 1 in
    w ← defined (bits b !! Z.to_nat last);
    mret (bool_decide (n = size),
      Bitmap (bit_cnt b) (<[Z.to_nat last := Z.land w (last_mask b)]> (bits b)))
  else mret (true, b).

Definition bitmap_write (b : bitmap) (f : ptr) : F bool :=
  let size := wrap_s 32 (byte_cnt (bit_cnt b)) in
  n ← file_write_at f (bytes_of_words (bits b)) size 0;
  mret (bool_decide (n = size)).

(** An operation on [free_map]. *)
Definition on_free_map {A} (m : M bitmap A) : F A := λ s,
  match m (free_map s) with
  | Ret a b => Ret a (with_free_map b s)
  | Throw e b => Throw e (with_free_map b s)
  | Exit c b => Exit c (with_free_map b s)
  | Undef => Undef
  | NoFuel => NoFuel
  end.

(** The structure and the words are two allocations; the words hold [stack]. *)
Definition free_map_init : F unit :=
  n ← disk_size;
  header ← malloc_ok;
  block ← (if (header : bool) then
             ok ← malloc_ok; l ← uninit (Z.to_nat (byte_cnt n));
             mret (if (ok : bool) then Some (words_of_bytes (Z.to_nat (elem_cnt n)) l) else None)
           else mret None);
  match bitmap_create header block n with
  | Ret (Some b) _ =>
      modify (with_free_map b);;
      on_free_map (bitmap_mark FREE_MAP_SECTOR);; on_free_map (bitmap_mark ROOT_DIR_SECTOR)
  | Ret None _ => PANIC
  | Throw e _ => throw e
  | Exit c _ => exit c
  | Undef => undef
  | NoFuel => nofuel
  end.

(** The result is the sector that is stored through [sectorp], if any. *)
Definition free_map_allocate (cnt : Z) : F (option Z) :=
  sector ← on_free_map (bitmap_scan_and_flip 0 cnt false);
  f ← gets free_map_file;
  sector ← (if bool_decide (sector ≠ BITMAP_ERROR ∧ f ≠ NULL) then
              b ← gets free_map; w ← bitmap_write b f;
              if (w : bool) then mret sector
              else on_free_map (bitmap_set_multiple sector cnt false);; mret BITMAP_ERROR
            else mret sector);
  mret (if bool_decide (sector ≠ BITMAP_ERROR) then Some sector else None).

Definition free_map_release (sector cnt : Z) : F unit :=
  a ← on_free_map (bitmap_all sector cnt); ASSERT a;;
  on_free_map (bitmap_set_multiple sector cnt false);;
  f ← gets free_map_file; b ← gets free_map; bitmap_write b f;; mret tt.

(** * Creating and closing inodes *)

(** [sizeof (struct inode_disk)] is [DISK_SECTOR_SIZE]. *)
Definition inode_create (sec len : Z) : F bool :=
  ASSERT (bool_decide (len >= 0));;
  ok ← malloc_ok;
  if (ok : bool) then
    sectors ← bytes_to_sectors len;
    start ← free_map_allocate sectors;
    match start with
    | Some start =>
        disk_write sec (encode_inode (InodeDisk start len INODE_MAGIC (replicate 500 0)));;
        (if bool_decide (sectors > 0) then
           loop (S (Z.to_nat sectors)) (λ i,
             if bool_decide (i < sectors) then
               disk_write (wrap_u 32 (start + i)) (replicate (Z.to_nat DISK_SECTOR_SIZE) 0);;
               mret (inl (i + 1))
             else mret (inr tt)) 0
         else mret tt);;
        mret true
    | None => mret false
    end
  else mret false.

Definition list_remove (a : loc) : list loc → list loc := filter (λ b, b ≠ a).

Definition inode_close (p : ptr) : F unit :=
  match p with
  | None => mret tt
  | Some a =>
      x ← get_inode p; n ← int (open_cnt x - 1); set_open_cnt p n;;
      if bool_decide (n = 0) then
        l ← gets open_inodes; modify (with_open (list_remove a l));;
        x ← get_inode p;
        (if removed x then
           free_map_release (sector x) 1;;
           n ← bytes_to_sectors (i_length (data x));
           free_map_release (i_start (data x)) n
         else mret tt);;
        free_inode p
      else mret tt
  end.

(** * Files *)

Definition file_open (p : ptr) : F ptr :=
  f ← new_file (File NULL 0 false);
  if bool_decide (p ≠ NULL ∧ f ≠ NULL) then
    set_file f (File p 0 false);; mret f
  else inode_close p;; free_file f;; mret NULL.

Definition file_reopen (f : ptr) : F ptr :=
  x ← get_file f; p ← inode_reopen (f_inode x); file_open p.

Definition file_deny_write (f : ptr) : F unit :=
  ASSERT (bool_decide (f ≠ NULL));;
  x ← get_file f;
  if negb (f_deny x) then set_deny f true;; inode_deny_write (f_inode x) else mret tt.

Definition file_allow_write (f : ptr) : F unit :=
  ASSERT (bool_decide (f ≠ NULL));;
  x ← get_file f;
  if f_deny x then set_deny f false;; inode_allow_write (f_inode x) else mret tt.

Definition file_close (f : ptr) : F unit :=
  match f with
  | Some _ => file_allow_write f;; x ← get_file f; inode_close (f_inode x);; free_file f
  | None => mret tt
  end.

Definition file_get_inode (f : ptr) : F ptr := x ← get_file f; mret (f_inode x).

Definition file_read (f : ptr) (buffer : bytes) (size : Z) : F (Z * bytes) :=
  x ← get_file f; '(n, l) ← inode_read_at (f_inode x) buffer size (f_pos x);
  pos ← int (f_pos x + n); set_pos f pos;; mret (n, l).

Definition file_write (f : ptr) (buffer : bytes) (size : Z) : F Z :=
  x ← get_file f; n ← inode_write_at (f_inode x) buffer size (f_pos x);
  pos ← int (f_pos x + n); set_pos f pos;; mret n.

Definition file_length (f : ptr) : F Z :=
  ASSERT (bool_decide (f ≠ NULL));; x ← get_file f; inode_length (f_inode x).

Definition file_seek (f : ptr) (new_pos : Z) : F unit :=
  ASSERT (bool_decide (f ≠ NULL));; ASSERT (bool_decide (new_pos >= 0));; set_pos f new_pos.

Definition file_tell (f : ptr) : F Z :=
  ASSERT (bool_decide (f ≠ NULL));; x ← get_file f; mret (f_pos x).

(** * The free map file *)

Definition free_map_open : F unit :=
  p ← inode_open FREE_MAP_SECTOR; f ← file_open p;
  modify (with_free_map_file f);;
  if bool_decide (f = NULL) then PANIC
  else
    b ← gets free_map; '(ok, b) ← bitmap_read b f; modify (with_free_map b);;
    if (ok : bool) then mret tt else PANIC.

Definition free_map_close : F unit := f ← gets free_map_file; file_close f.

Definition free_map_create : F unit :=
  b ← gets free_map; ok ← inode_create FREE_MAP_SECTOR (wrap_s 32 (bitmap_file_size b));
  if (ok : bool) then
    p ← inode_open FREE_MAP_SECTOR; f ← file_open p;
    modify (with_free_map_file f);;
    if bool_decide (f = NULL) then PANIC
    else
      b ← gets free_map; ok ← bitmap_write b f;
      if (ok : bool) then mret tt else PANIC
  else PANIC.
