(* ===== verification/PintosDir.v ===== *)
(** The operations of src/bin/OS/pintos/src/filesys/directory.c and filesys.c. *)
From S2P Require Export PintosInode.
Local Open Scope Z_scope.

(** * Directory entries

    [struct dir_entry] is a block of 20 bytes: the sector, the name, [in_use]. *)

Definition NAME_MAX : Z := 14.
Definition sizeof_entry : Z := 20.

Definition e_inode_sector (e : bytes) : Z := le_combine (slice 0 4 e).
Definition e_name (e : bytes) : bytes := slice 4 (NAME_MAX + 1) e.
Definition e_in_use (e : bytes) : bool := negb (bool_decide (slice 19 1 e = [0])).
Definition set_inode_sector (sec : Z) (e : bytes) : bytes := splice 0 (le_split 4 sec) e.
Definition set_name (name e : bytes) : bytes := splice 4 name e.
Definition set_in_use (b : bool) (e : bytes) : bytes := splice 19 [if b then 1 else 0] e.

(** A C string is given by its bytes without the terminator.  [strcmp] of one with
    an array, which need not be terminated: whether they are equal. *)
Fixpoint strcmp (name a : bytes) : option bool :=
  match name, a with
  | _, [] => None
  | [], c :: _ => Some (bool_decide (c = 0))
  | n :: name, c :: a => if bool_decide (n = c) then strcmp name a else Some false
  end.

(** [strlcpy] of a string to an array of [size] bytes. *)
Definition strlcpy (dst src : bytes) (size : Z) : bytes :=
  splice 0 (take (Z.to_nat (size - 1)) src ++ [0]) dst.
(** The string in an array. *)
Fixpoint c_string (a : bytes) : option bytes :=
  match a with
  | [] => None
  | c :: a => if bool_decide (c = 0) then Some [] else (c ::.) <$> c_string a
  end.

(** * Directories *)

Definition get_dir (p : ptr) : F dir := m ← gets dirs; deref m p.
Definition set_dir (p : ptr) (x : dir) : F unit :=
  get_dir p;; m ← gets dirs;
  match p with Some a => modify (with_dirs (<[a := x]> m)) | None => undef end.
Definition new_dir (x : dir) : F ptr :=
  ok ← malloc_ok;
  if (ok : bool) then
    m ← gets dirs; let a := fresh (dom m) in
    modify (with_dirs (<[a := x]> m));; mret (Some a)
  else mret NULL.
Definition free_dir (p : ptr) : F unit :=
  match p with
  | Some a => get_dir p;; m ← gets dirs; modify (with_dirs (base.delete a m))
  | None => mret tt
  end.

Definition dir_create (sec entry_cnt : Z) : F bool :=
  inode_create sec (wrap_s 32 (wrap_u 32 (entry_cnt * sizeof_entry))).

Definition dir_open (p : ptr) : F ptr :=
  d ← new_dir (Dir NULL 0);
  if bool_decide (p ≠ NULL ∧ d ≠ NULL) then
    set_dir d (Dir p 0);; mret d
  else inode_close p;; free_dir d;; mret NULL.

Definition dir_open_root : F ptr := p ← inode_open ROOT_DIR_SECTOR; dir_open p.

Definition dir_reopen (d : ptr) : F ptr :=
  x ← get_dir d; p ← inode_reopen (d_inode x); dir_open p.

Definition dir_close (d : ptr) : F unit :=
  match d with
  | Some _ => x ← get_dir d; inode_close (d_inode x);; free_dir d
  | None => mret tt
  end.

Definition dir_get_inode (d : ptr) : F ptr := x ← get_dir d; mret (d_inode x).

(** Read the entry at [ofs] into [e]; whether there is one. *)
Definition read_entry (d : ptr) (e : bytes) (ofs : Z) : F (bool * bytes) :=
  x ← get_dir d; '(n, e) ← inode_read_at (d_inode x) e sizeof_entry ofs;
  mret (bool_decide (n = sizeof_entry), e).

(** [fuel] is more than the number of entries; [ofs] is [size_t] but is passed as
    [off_t].  The result is the entry and its offset. *)
Section fuel.
Context (fuel : nat).

Definition lookup_step (d : ptr) (name : bytes) (x : bytes * Z) : F (bytes * Z + option (bytes * Z)) :=
  let '(e, ofs) := x in
  '(ok, e) ← read_entry d e (wrap_s 32 ofs);
  if (ok : bool) then
    eq ← (if e_in_use e then defined (strcmp name (e_name e)) else mret false);
    mret (if (eq : bool) then inr (Some (e, ofs)) else inl (e, wrap_u 32 (ofs + sizeof_entry)))
  else mret (inr None).

Definition lookup (d : ptr) (name : bytes) : F (option (bytes * Z)) :=
  ASSERT (bool_decide (d ≠ NULL));;
  e ← uninit (Z.to_nat sizeof_entry);
  loop fuel (lookup_step d name) (e, 0).

(** The result is [*inode]. *)
Definition dir_lookup (d : ptr) (name : bytes) : F ptr :=
  ASSERT (bool_decide (d ≠ NULL));;
  r ← lookup d name;
  match r with
  | Some (e, _) => inode_open (e_inode_sector e)
  | None => mret NULL
  end.

Definition free_step (d : ptr) (x : bytes * Z) : F (bytes * Z + bytes * Z) :=
  let '(e, ofs) := x in
  '(ok, e) ← read_entry d e ofs;
  if (ok : bool) then
    if e_in_use e then ofs ← int (ofs + sizeof_entry); mret (inl (e, ofs)) else mret (inr (e, ofs))
  else mret (inr (e, ofs)).

Definition dir_add (d : ptr) (name : bytes) (inode_sector : Z) : F bool :=
  ASSERT (bool_decide (d ≠ NULL));;
  e ← uninit (Z.to_nat sizeof_entry);
  if bool_decide (name = [] ∨ size_of name > NAME_MAX) then mret false
  else
    r ← lookup d name;
    match r with
    | Some _ => mret false
    | None =>
        '(e, ofs) ← loop fuel (free_step d) (e, 0);
        let e := set_in_use true e in
        let e := set_name (strlcpy (e_name e) name (NAME_MAX + 1)) e in
        let e := set_inode_sector inode_sector e in
        x ← get_dir d; n ← inode_write_at (d_inode x) e sizeof_entry ofs;
        mret (bool_decide (n = sizeof_entry))
    end.

Definition dir_remove (d : ptr) (name : bytes) : F bool :=
  ASSERT (bool_decide (d ≠ NULL));;
  r ← lookup d name;
  match r with
  | None => inode_close NULL;; mret false
  | Some (e, ofs) =>
      p ← inode_open (e_inode_sector e);
      success ←
        (if bool_decide (p = NULL) then mret false
         else
           let e := set_in_use false e in
           x ← get_dir d; n ← inode_write_at (d_inode x) e sizeof_entry (wrap_s 32 ofs);
           if bool_decide (n ≠ sizeof_entry) then mret false
           else inode_remove p;; mret true);
      inode_close p;; mret success
  end.

Definition set_dir_pos (d : ptr) (n : Z) : F unit := x ← get_dir d; set_dir d (Dir (d_inode x) n).

(** The result is [name], if there are more entries. *)
Definition readdir_step (d : ptr) (e : bytes) : F (bytes + option bytes) :=
  x ← get_dir d; '(ok, e) ← read_entry d e (d_pos x);
  if (ok : bool) then
    pos ← int (d_pos x + sizeof_entry); set_dir_pos d pos;;
    if e_in_use e then name ← defined (c_string (e_name e)); mret (inr (Some name)) else mret (inl e)
  else mret (inr None).

Definition dir_readdir (d : ptr) : F (option bytes) :=
  e ← uninit (Z.to_nat sizeof_entry); loop fuel (readdir_step d) e.

(** * The file system *)

Definition filesys_create (name : bytes) (initial_size : Z) : F bool :=
  d ← dir_open_root;
  inode_sector ← (if bool_decide (d ≠ NULL) then free_map_allocate 1 else mret None);
  success ←
    match inode_sector with
    | Some sec =>
        c ← inode_create sec initial_size;
        if (c : bool) then dir_add d name sec else mret false
    | None => mret false
    end;
  (if negb success && bool_decide (default 0 inode_sector ≠ 0)
   then free_map_release (default 0 inode_sector) 1 else mret tt);;
  dir_close d;;
  mret success.

Definition filesys_open (name : bytes) : F ptr :=
  d ← dir_open_root;
  p ← (if bool_decide (d ≠ NULL) then dir_lookup d name else mret NULL);
  dir_close d;;
  file_open p.

Definition filesys_remove (name : bytes) : F bool :=
  d ← dir_open_root;
  success ← (if bool_decide (d ≠ NULL) then dir_remove d name else mret false);
  dir_close d;;
  mret success.

Definition do_format : F unit :=
  free_map_create;;
  ok ← dir_create ROOT_DIR_SECTOR 16;
  if (ok : bool) then free_map_close else PANIC.

(** [present] says whether [disk_get] finds the disk. *)
Definition filesys_init (present format : bool) : F unit :=
  if present then
    inode_init;; free_map_init;;
    (if format then do_format else mret tt);;
    free_map_open
  else PANIC.

Definition filesys_done : F unit := free_map_close.

End fuel.

