(* ===== verification/PintosTransfer.v ===== *)
(** What [inode_read_at] and [inode_write_at] do to the bytes of an inode. *)
From S2P Require Export PintosInode.
Local Open Scope Z_scope.

(** * Contents *)

(** The sectors and the bytes of an inode. *)
Definition sectors_of (d : inode_disk) : Z := (i_length d + 511) / 512.
Definition content (d : inode_disk) (l : bytes) : bytes := slice (512 * i_start d) (i_length d) l.

(** The number of bytes that there are to transfer. *)
Definition available (d : inode_disk) (size offset : Z) : Z := Z.max 0 (Z.min size (i_length d - offset)).

(** No allocation fails. *)
Definition plenty (s : fs) : Prop := Forall (λ b, b = true) (allocs s).

(** An inode whose sectors are on the disk, and a range of offsets. *)
Record on_disk (s : fs) (d : inode_disk) : Prop := {
  on_size : size_of (disk s) = 512 * capacity s;
  on_capacity : capacity s <= 2 ^ 28;
  on_start : 0 <= i_start d;
  on_length : 0 <= i_length d <= 2 ^ 31 - 513;
  on_end : i_start d + sectors_of d <= capacity s;
}.

Definition range_ok (size offset : Z) : Prop := 0 <= offset ∧ offset + Z.max 0 size < 2 ^ 31 ∧ - 2 ^ 31 <= size.

Lemma int_run {A} z (k : Z → F A) s : - 2 ^ 31 <= z < 2 ^ 31 → (int z ≫= k) s = k z s.
Proof. intros. unfold int. rewrite int_of_in //. Qed.

Lemma ASSERT_true {S A} b (k : unit → M S A) s : b = true → (ASSERT b ≫= k) s = k tt s.
Proof. by intros ->. Qed.

Section inode_at.
Context (s : fs) (a : loc) (x : inode) (Hx : inodes s !! a = Some x).

Lemma get_inode_run {A} (k : inode → F A) : (get_inode (Some a) ≫= k) s = k x s.
Proof. unfold get_inode, deref. rewrite run_assoc run_gets. simpl. by rewrite Hx. Qed.

Lemma set_inode_run {A} y (k : unit → F A) :
  (set_inode (Some a) y ≫= k) s = k tt (with_inodes (<[a := y]> (inodes s)) s).
Proof. unfold set_inode. rewrite run_assoc get_inode_run. run. done. Qed.

Context (Hd : on_disk s (data x)).

Lemma next_chunk_run {A} size offset (k : Z * Z * Z * Z → F A) :
  range_ok size offset → 0 < size →
  (next_chunk (Some a) size offset ≫= k) s =
  k (if decide (offset < i_length (data x)) then i_start (data x) + offset / 512 else 2 ^ 32 - 1,
     offset mod 512, 512 - offset mod 512,
     Z.min size (Z.min (i_length (data x) - offset) (512 - offset mod 512))) s.
Proof.
  intros (H1 & H2 & _) Hs. destruct Hd as [D1 D2 D3 D4 D5]. unfold next_chunk, byte_to_sector, inode_length, DISK_SECTOR_SIZE.
  unfold sectors_of in D5.
  rewrite !run_assoc ASSERT_true // run_assoc get_inode_run run_ret run_assoc run_assoc get_inode_run run_ret run_assoc int_run; [|lia].
  rewrite run_ret. rewrite Z.rem_mod_nonneg; [|lia..]. rewrite Z.quot_div_nonneg; [|lia..].
  do 3 f_equal. f_equal.
  2:{ destruct (Z.mod_pos_bound offset 512); [lia|].
      repeat case_bool_decide; lia. }
  do 2 f_equal. case_bool_decide; case_decide; try lia; [|done].
  apply wrap_u_id. unfold in_u. div_lia.
Qed.
End inode_at.

(** * Allocation *)

(** [s'] is [s] after some allocations, and nothing else. *)
Definition later (s s' : fs) : Prop := ∃ k, s' = with_allocs (drop k (allocs s)) s.

#[export] Instance later_refl : Reflexive later.
Proof. intros s. exists O. by destruct s. Qed.
#[export] Instance later_trans : Transitive later.
Proof. intros s1 s2 s3 [k ->] [k' ->]. exists (k + k')%nat. simpl. by rewrite drop_drop. Qed.

Lemma later_plenty s s' : later s s' → plenty s → plenty s'.
Proof. intros [k ->] H. unfold plenty. simpl. by apply Forall_drop. Qed.

Lemma malloc_ok_run s : ∃ b s', malloc_ok s = Ret b s' ∧ later s s' ∧ (b = false → ¬ plenty s).
Proof.
  unfold malloc_ok. rewrite run_gets. destruct (allocs s) as [|b l] eqn:E.
  - exists true, s. done.
  - exists b, (with_allocs l s). split; [done|]. split; [exists 1%nat; by rewrite E|].
    intros -> H. unfold plenty in H. rewrite E in H. by inversion H.
Qed.

Lemma bounce_ok_run c s : ∃ b s', bounce_ok c s = Ret b s' ∧ later s s' ∧ (b = false → ¬ plenty s ∧ c = false).
Proof.
  destruct c; [by exists true, s|]. destruct (malloc_ok_run s) as (b & s' & Hrun & Hl & Hb).
  exists b, s'. split; [done|]. split; [done|]. intros ?. by split; [apply Hb|].
Qed.

(** * Reading *)

Lemma select_sector_run {A} k (f : unit → F A) s : 0 <= k < capacity s → capacity s <= 2 ^ 28 → (select_sector k ≫= f) s = f tt s.
Proof.
  intros. unfold select_sector. rewrite run_assoc run_gets run_assoc ASSERT_true; [|apply bool_decide_true; lia].
  rewrite ASSERT_true; [done|apply bool_decide_true; lia].
Qed.

Lemma disk_read_run {A} k (f : bytes → F A) s : 0 <= k < capacity s → capacity s <= 2 ^ 28 →
  (disk_read k ≫= f) s = f (slice (512 * k) 512 (disk s)) s.
Proof. intros. unfold disk_read. rewrite run_assoc select_sector_run //. Qed.

Lemma size_of_content s d : on_disk s d → size_of (content d (disk s)) = i_length d.
Proof. intros [D1 D2 D3 D4 D5]. unfold sectors_of in D5. apply size_of_slice; [lia|lia|]. rewrite D1. div_lia. Qed.

(** The next chunk of an inode is inside one of its sectors. *)
Lemma chunk_bounds s d size offset c :
  on_disk s d → 0 <= offset → offset < i_length d → 0 < size →
  c = Z.min size (Z.min (i_length d - offset) (512 - offset mod 512)) →
  0 < c <= 512 - offset mod 512 ∧ 0 <= offset mod 512 ∧ offset + c <= i_length d ∧
  0 <= i_start d + offset / 512 < capacity s ∧
  512 * (i_start d + offset / 512) + offset mod 512 = 512 * i_start d + offset ∧
  i_start d <= i_start d + offset / 512 < i_start d + sectors_of d.
Proof. intros [D1 D2 D3 D4 D5] H1 H2 H3 ->. unfold sectors_of in *. div_lia. Qed.

Lemma chunk_content s d size offset c :
  on_disk s d → 0 <= offset → offset < i_length d → 0 < size →
  c = Z.min size (Z.min (i_length d - offset) (512 - offset mod 512)) →
  slice (offset mod 512) c (slice (512 * (i_start d + offset / 512)) 512 (disk s)) = slice offset c (content d (disk s)).
Proof.
  intros Hd H1 H2 H3 Hc. destruct (chunk_bounds s d size offset c) as (B1 & B2 & B3 & B4 & B5 & B6); [done..|].
  pose proof (size_of_content _ _ Hd) as Hsz. destruct Hd as [D1 D2 D3 D4 D5]. unfold content. unfold sectors_of in *.
  rewrite slice_slice; [|lia..]. rewrite slice_slice; [|lia|lia|lia|lia|]. 2:{ rewrite D1. div_lia. }
  by rewrite B5.
Qed.

Section transfer.
Context (a : loc) (x : inode).

(** What a step of a transfer starts from. *)
Record can_step (s : fs) (t : transfer) : Prop := {
  can_inode : inodes s !! a = Some x;
  can_disk : on_disk s (data x);
  can_range : range_ok (t_size t) (t_offset t);
  can_done : 0 <= t_done t ∧ t_done t + Z.max 0 (t_size t) < 2 ^ 31;
  can_buffer : t_done t + t_size t <= size_of (t_buffer t);
}.

Lemma can_step_later s s' t : later s s' → can_step s t → can_step s' t.
Proof. intros [k ->] [H1 H2 H3 H4 H5]. split; [done| |done..]. by destruct H2; split. Qed.

Definition chunk (t : transfer) : Z :=
  Z.min (t_size t) (Z.min (i_length (data x) - t_offset t) (512 - t_offset t mod 512)).

Lemma advance_run {A} s t l b (k : transfer → F A) :
  can_step s t → 0 < chunk t →
  (advance t l b (chunk t) ≫= k) s = k (Transfer l (t_size t - chunk t) (t_offset t + chunk t) (t_done t + chunk t) b) s.
Proof.
  intros [H1 H2 (H3 & H3' & H3'') H4 H5] Hc. unfold advance. unfold chunk in *.
  rewrite run_assoc int_run; [|lia]. rewrite run_assoc int_run; [|lia]. rewrite run_assoc int_run; [|lia]. run. done.
Qed.

(** One round of a read. *)
Lemma read_step_run s t : can_step s t →
  (t_size t <= 0 ∨ i_length (data x) <= t_offset t) ∧ read_step (Some a) t s = Ret (inr t) s ∨
  (0 < t_size t ∧ t_offset t < i_length (data x)) ∧
  ∃ s', later s s' ∧
    (¬ plenty s ∧ read_step (Some a) t s = Ret (inr t) s' ∨
     ∃ b, read_step (Some a) t s =
       Ret (inl (Transfer (splice (t_done t) (slice (t_offset t) (chunk t) (content (data x) (disk s))) (t_buffer t))
         (t_size t - chunk t) (t_offset t + chunk t) (t_done t + chunk t) b)) s').
Proof.
  intros H. pose proof H as [Hx Hd Hr Hn Hb]. unfold read_step.
  case_bool_decide as Hs; [|left; split; [lia|done]].
  rewrite (next_chunk_run _ _ _ Hx Hd); [|done|lia]. destruct Hr as (R1 & R2 & _).
  case_bool_decide as Hc.
  { left. split; [|done]. div_lia. }
  right. assert (t_offset t < i_length (data x)) as Hlt by lia. split; [lia|].
  destruct (chunk_bounds s (data x) (t_size t) (t_offset t) (chunk t)) as (B1 & B2 & B3 & B4 & B5 & B6); [done|lia..|done|].
  pose proof (chunk_content s (data x) (t_size t) (t_offset t) (chunk t) Hd R1 Hlt ltac:(lia) eq_refl) as Hcontent.
  pose proof (size_of_content _ _ Hd) as Hsize. pose proof (size_of_nonneg (t_buffer t)).
  assert (chunk t <= t_size t) as Hle by (unfold chunk; lia).
  rewrite decide_True //. fold (chunk t). fold (chunk t) in Hc. destruct Hd as [D1 D2 D3 D4 D5].
  case_bool_decide as Hfull.
  - exists s. split; [done|]. right. exists (t_bounce t). destruct Hfull as [F1 F2]. unfold DISK_SECTOR_SIZE in F2.
    rewrite disk_read_run //. rewrite overwrite_Some; [|lia|sizes; lia].
    rewrite run_defined advance_run; [|done|lia]. run. rewrite -Hcontent F1 F2 slice_slice; [|lia..|sizes; lia].
    by rewrite Z.add_0_r.
  - destruct (bounce_ok_run (t_bounce t) s) as (b & s1 & Hrun & Hl & Hf). rewrite (M_bind_Ret _ _ _ _ _ Hrun).
    exists s1. split; [done|]. destruct b; [right|left; split; [by apply Hf|done]]. exists true.
    pose proof (can_step_later _ _ _ Hl H) as H1. destruct Hl as [k ->].
    rewrite disk_read_run //. cbn [disk with_allocs]. rewrite block_at_Some; [|lia|sizes; lia].
    rewrite run_defined overwrite_Some; [|lia|rewrite Hcontent; sizes; lia].
    rewrite run_defined advance_run; [|done|lia]. run. by rewrite -Hcontent.
Qed.

Definition left_ (t : transfer) : Z := available (data x) (t_size t) (t_offset t).

(** A round that goes on leaves less to transfer. *)
Lemma chunk_left t : 0 <= t_offset t → 0 < t_size t → t_offset t < i_length (data x) →
  0 < chunk t ∧ chunk t <= left_ t ∧ chunk t <= t_size t ∧
  left_ t = chunk t + available (data x) (t_size t - chunk t) (t_offset t + chunk t).
Proof. intros. unfold chunk, left_, available. div_lia. Qed.

Lemma can_step_next s t l b : can_step s t → 0 < chunk t → chunk t <= t_size t → size_of l = size_of (t_buffer t) →
  can_step s (Transfer l (t_size t - chunk t) (t_offset t + chunk t) (t_done t + chunk t) b).
Proof. intros [H1 H2 (H3 & H3' & H3'') H4 H5] ? ? Hl. split; [done|done|split_and!; simpl; lia|simpl; lia|simpl; lia]. Qed.

Lemma read_loop fuel s t : can_step s t → left_ t < Z.of_nat fuel →
  ∃ r s' n, loop fuel (read_step (Some a)) t s = Ret r s' ∧ later s s' ∧
    0 <= n <= left_ t ∧ (n = left_ t ∨ ¬ plenty s) ∧ t_done r = t_done t + n ∧
    t_buffer r = splice (t_done t) (slice (t_offset t) n (content (data x) (disk s))) (t_buffer t).
Proof.
  revert s t. induction fuel as [|fuel IH]; intros s t H Hf; [unfold left_, available in Hf; lia|].
  rewrite run_loop. destruct (read_step_run s t H) as [[Hstop Hrun]|[[Hs Hlt] (s1 & Hl & Hcase)]].
  - rewrite (M_bind_Ret _ _ _ _ _ Hrun). exists t, s, 0. rewrite slice_nil splice_nil.
    split_and!; try done; try lia; first [by right|left|idtac]; unfold left_, available; lia.
  - pose proof H as [Hx Hd (R1 & _ & _) Hn Hb]. destruct (chunk_left t R1 Hs Hlt) as (C1 & C2 & C3 & C4).
    destruct Hcase as [[Hp Hrun]|(b & Hrun)]; rewrite (M_bind_Ret _ _ _ _ _ Hrun).
    + exists t, s1, 0. rewrite slice_nil splice_nil. split_and!; try done; try lia; first [by right|left|idtac]; unfold left_, available; lia.
    + pose proof (size_of_content _ _ Hd) as Hsize. pose proof (on_length _ _ Hd).
      set (l := splice _ _ _) in *.
      assert (size_of l = size_of (t_buffer t)) as Hsl.
      { unfold l, left_, available in *. sizes. done. }
      destruct (IH s1 (Transfer l (t_size t - chunk t) (t_offset t + chunk t) (t_done t + chunk t) b))
        as (r & s2 & n & Hloop & Hl2 & Hn2 & Hp2 & Hr1 & Hr2).
      { eapply can_step_later; [done|]. by apply can_step_next. }
      { unfold left_ in *. simpl. lia. }
      exists r, s2, (chunk t + n). unfold left_ in *. cbn [t_size t_offset t_done t_buffer] in *.
      split; [exact Hloop|]. split; [by transitivity s1|]. split; [lia|]. split.
      { destruct Hp2 as [->|Hp2]; [left; lia|right; intros Hp; by apply Hp2, (later_plenty s)]. }
      split; [lia|]. rewrite Hr2. unfold l. destruct Hl as [k ->]. cbn [disk with_allocs].
      unfold left_, available in *.
      rewrite slice_add; [|lia..]. rewrite -splice_app; [|lia|sizes; lia]. by rewrite size_of_slice; [|lia..].
Qed.

(** [inode_read_at] reads what there is from [offset] on, or less when there is
    no memory. *)
Lemma inode_read_at_run s buffer size offset :
  inodes s !! a = Some x → on_disk s (data x) → range_ok size offset → size <= size_of buffer →
  ∃ n s', inode_read_at (Some a) buffer size offset s =
      Ret (n, splice 0 (slice offset n (content (data x) (disk s))) buffer) s' ∧ later s s' ∧
    0 <= n <= available (data x) size offset ∧ (n = available (data x) size offset ∨ ¬ plenty s).
Proof.
  intros Hx Hd Hr Hb. pose proof Hr as (R1 & R2 & R3).
  destruct (read_loop (S (S (Z.to_nat size))) s (Transfer buffer size offset 0 false)) as (r & s' & n & Hrun & Hl & Hn & Hp & Hr1 & Hr2).
  { split; [done..|simpl; lia|simpl; lia]. }
  { unfold left_, available. simpl. lia. }
  exists n, s'. unfold inode_read_at. rewrite (M_bind_Ret _ _ _ _ _ Hrun) Hr1 Hr2. done.
Qed.

(** * Writing *)

Lemma disk_write_run {A} k l (f : unit → F A) s : 0 <= k < capacity s → capacity s <= 2 ^ 28 → size_of l = 512 →
  (disk_write k l ≫= f) s = f tt (with_disk (splice (512 * k) l (disk s)) s).
Proof.
  intros Hk Hc Hl. unfold disk_write. rewrite run_assoc select_sector_run //.
  rewrite block_at_Some; [|lia|unfold DISK_SECTOR_SIZE; lia]. run. do 3 f_equal. unfold DISK_SECTOR_SIZE.
  by rewrite -Hl slice_all.
Qed.

(** The disk after [n] bytes of the buffer have been written. *)
Definition written (s : fs) (t : transfer) (n : Z) : bytes :=
  splice (512 * i_start (data x) + t_offset t) (slice (t_done t) n (t_buffer t)) (disk s).

Lemma can_step_written s t n l : can_step s t → 0 <= n <= left_ t →
  size_of l = size_of (disk s) → can_step (with_disk l s) t.
Proof. intros [H1 [D1 D2 D3 D4 D5] H3 H4 H5] Hn Hl. split; [done| |done..]. split; simpl; lia. Qed.

Lemma size_of_written s t n : can_step s t → 0 <= n <= left_ t → size_of (written s t n) = size_of (disk s).
Proof.
  intros [H1 [D1 D2 D3 D4 D5] (R1 & R2 & R3) (N1 & N2) H5] Hn. unfold written, left_, available, sectors_of in *.
  destruct (decide (n = 0)) as [->|]; [by rewrite slice_nil splice_nil|].
  assert (512 * i_start (data x) + t_offset t + n <= size_of (disk s)) by (rewrite D1; div_lia). by sizes.
Qed.

(** One round of a write. *)
Lemma write_step_run s t : can_step s t →
  (t_size t <= 0 ∨ i_length (data x) <= t_offset t) ∧ write_step (Some a) t s = Ret (inr t) s ∨
  (0 < t_size t ∧ t_offset t < i_length (data x)) ∧
  ((∃ s', later s s' ∧ ¬ plenty s ∧ t_bounce t = false ∧ write_step (Some a) t s = Ret (inr t) s') ∨
   ∃ b s', later (with_disk (written s t (chunk t)) s) s' ∧ (t_size t < 512 → b = true) ∧
     write_step (Some a) t s =
       Ret (inl (Transfer (t_buffer t) (t_size t - chunk t) (t_offset t + chunk t) (t_done t + chunk t) b)) s').
Proof.
  intros H. pose proof H as [Hx Hd Hr Hn Hb]. unfold write_step.
  case_bool_decide as Hs; [|left; split; [lia|done]].
  rewrite (next_chunk_run _ _ _ Hx Hd); [|done|lia]. pose proof Hr as (R1 & R2 & _).
  case_bool_decide as Hc.
  { left. split; [|done]. div_lia. }
  right. assert (t_offset t < i_length (data x)) as Hlt by lia. split; [lia|].
  destruct (chunk_bounds s (data x) (t_size t) (t_offset t) (chunk t)) as (B1 & B2 & B3 & B4 & B5 & B6); [done|lia..|done|].
  destruct (chunk_left t R1 ltac:(lia) Hlt) as (C1 & C2 & C3 & C4).
  pose proof (size_of_written s t (chunk t) H ltac:(lia)) as Hsw.
  pose proof (size_of_nonneg (t_buffer t)).
  rewrite decide_True //. fold (chunk t). fold (chunk t) in Hc. pose proof Hd as [D1 D2 D3 D4 D5].
  case_bool_decide as Hfull.
  - right. exists (t_bounce t). destruct Hfull as [F1 F2]. unfold DISK_SECTOR_SIZE in F2.
    eexists. split; [reflexivity|]. split; [lia|]. unfold DISK_SECTOR_SIZE.
    rewrite block_at_Some; [|lia..]. rewrite run_defined disk_write_run; [|done|done|sizes; done].
    assert (splice (512 * (i_start (data x) + t_offset t / 512)) (slice (t_done t) 512 (t_buffer t)) (disk s) = written s t (chunk t)) as ->.
    { unfold written. rewrite F2. f_equal. lia. }
    rewrite advance_run; [done|by apply (can_step_written _ _ (chunk t)); [|lia|]|lia].
  - destruct (bounce_ok_run (t_bounce t) s) as (b & s1 & Hrun & Hl & Hf). rewrite (M_bind_Ret _ _ _ _ _ Hrun).
    destruct b; [right|left; exists s1; destruct (Hf eq_refl); done]. exists true.
    pose proof (can_step_later _ _ _ Hl H) as H1. destruct Hl as [k ->].
    exists (with_disk (written s t (chunk t)) (with_allocs (drop k (allocs s)) s)). split; [by exists k|]. split; [done|].
    rewrite bool_decide_true; [|unfold DISK_SECTOR_SIZE in Hfull; lia].
    rewrite disk_read_run //. cbn [disk with_allocs]. rewrite block_at_Some; [|lia..].
    rewrite run_defined overwrite_Some; [|lia|sizes; lia].
    rewrite run_defined disk_write_run; [|done|done|by sizes]. cbn [disk with_allocs].
    rewrite splice_sector; [|lia|lia|lia|sizes; lia|rewrite D1; lia]. rewrite B5. fold (written s t (chunk t)).
    rewrite advance_run; [done| |lia]. by apply (can_step_written _ _ (chunk t)); [|lia|].
Qed.

Lemma write_loop fuel s t : can_step s t → left_ t < Z.of_nat fuel →
  ∃ r s' n, loop fuel (write_step (Some a)) t s = Ret r s' ∧ later (with_disk (written s t n) s) s' ∧
    0 <= n <= left_ t ∧ (n = left_ t ∨ ¬ plenty s) ∧
    (t_size t < 512 → n = left_ t ∨ n = 0 ∧ t_bounce t = false) ∧ t_done r = t_done t + n.
Proof.
  revert s t. induction fuel as [|fuel IH]; intros s t H Hf; [unfold left_, available in Hf; lia|].
  assert (with_disk (written s t 0) s = s) as H0.
  { unfold written. rewrite slice_nil splice_nil. by destruct s. }
  rewrite run_loop. destruct (write_step_run s t H) as [[Hstop Hrun]|[[Hs Hlt] Hcase]].
  { rewrite (M_bind_Ret _ _ _ _ _ Hrun). exists t, s, 0. rewrite H0.
    assert (left_ t = 0) as E by (unfold left_, available; lia). rewrite E. split_and!; try done; try lia; by left. }
  pose proof H as [Hx Hd (R1 & _ & _) Hn Hb]. destruct (chunk_left t R1 Hs Hlt) as (C1 & C2 & C3 & C4).
  destruct Hcase as [(s1 & Hl & Hp & Hb' & Hrun)|(b & s1 & Hl & Hb' & Hrun)]; rewrite (M_bind_Ret _ _ _ _ _ Hrun).
  { exists t, s1, 0. rewrite H0. split_and!; try done; try lia; first [by right|unfold left_, available; lia]. }
  pose proof (size_of_written s t (chunk t) H ltac:(lia)) as Hsw. pose proof (on_length _ _ Hd).
  destruct (IH s1 (Transfer (t_buffer t) (t_size t - chunk t) (t_offset t + chunk t) (t_done t + chunk t) b))
    as (r & s2 & n & Hloop & Hl2 & Hn2 & Hp2 & Hat2 & Hr1).
  { eapply can_step_later; [done|]. apply (can_step_written _ _ 0); [by apply can_step_next| |done].
    unfold left_, available. simpl. lia. }
  { unfold left_ in *. simpl. lia. }
  exists r, s2, (chunk t + n). unfold left_ in *. cbn [t_size t_offset t_done t_buffer t_bounce] in *.
  split; [exact Hloop|]. split; [|split; [lia|split; [|split]]].
  - destruct Hl as [k ->], Hl2 as [k' ->]. exists (k + k')%nat. simpl. rewrite drop_drop.
    unfold with_disk, with_allocs. simpl. f_equal. unfold written. simpl.
    destruct Hd as [D1 D2 D3 D4 D5]. unfold sectors_of, available in *.
    rewrite slice_add; [|lia..]. assert (512 * i_start (data x) + t_offset t + (chunk t + n) <= size_of (disk s)) by (rewrite D1; div_lia).
    rewrite -splice_app; [|lia|sizes; lia]. rewrite size_of_slice; [|lia..].
    f_equal. lia.
  - destruct Hp2 as [->|Hp2]; [left; lia|right]. intros Hp. by apply Hp2, (later_plenty (with_disk (written s t (chunk t)) s)).
  - intros Hsmall. left. destruct Hat2 as [->|[_ Hf2]]; [lia|lia|]. by rewrite Hb' in Hf2.
  - lia.
Qed.

(** [inode_write_at] writes as much of the buffer as fits into the inode from
    [offset] on, or less when there is no memory. *)
Lemma inode_write_at_run s buffer size offset :
  inodes s !! a = Some x → on_disk s (data x) → range_ok size offset → size <= size_of buffer → deny_write_cnt x = 0 →
  ∃ n s', inode_write_at (Some a) buffer size offset s = Ret n s' ∧
    later (with_disk (splice (512 * i_start (data x) + offset) (slice 0 n buffer) (disk s)) s) s' ∧
    0 <= n <= available (data x) size offset ∧ (n = available (data x) size offset ∨ ¬ plenty s) ∧
    (size < 512 → n = 0 ∨ n = available (data x) size offset).
Proof.
  intros Hx Hd Hr Hb Hdeny. pose proof Hr as (R1 & R2 & R3).
  destruct (write_loop (S (S (Z.to_nat size))) s (Transfer buffer size offset 0 false)) as (r & s' & n & Hrun & Hl & Hn & Hp & Hat & Hr1).
  { split; [done..|simpl; lia|simpl; lia]. }
  { unfold left_, available. simpl. lia. }
  exists n, s'. unfold inode_write_at. rewrite (get_inode_run _ _ _ Hx) bool_decide_false; [|lia].
  rewrite (M_bind_Ret _ _ _ _ _ Hrun) Hr1. split; [done|]. split; [exact Hl|]. split; [exact Hn|]. split; [exact Hp|].
  intros Hsmall. destruct (Hat Hsmall) as [?|[? _]]; [by right|by left].
Qed.

(** Nothing is written while writes are denied. *)
Lemma inode_write_at_denied s buffer size offset :
  inodes s !! a = Some x → deny_write_cnt x ≠ 0 → inode_write_at (Some a) buffer size offset s = Ret 0 s.
Proof. intros Hx Hdeny. unfold inode_write_at. by rewrite (get_inode_run _ _ _ Hx) bool_decide_true. Qed.
End transfer.
