(* ===== verification/PintosLayout.v ===== *)
(** Where the inodes are on the disk: which sectors each of them has, how the free
    map accounts for them, and what allocating and releasing sectors and
    creating inodes do to the others. *)
From S2P Require Export PintosTransfer.
Local Open Scope Z_scope.

(** * Disks that agree except in some sectors *)

Definition agree (P : Z → Prop) (l l' : bytes) : Prop :=
  size_of l = size_of l' ∧ ∀ i, 0 <= i < size_of l → ¬ P (i / 512) → byte_at i l = byte_at i l'.

#[export] Instance agree_refl P : Reflexive (agree P).
Proof. done. Qed.
#[export] Instance agree_trans P : Transitive (agree P).
Proof.
  intros l1 l2 l3 [H1 H1'] [H2 H2']. split; [congruence|]. intros i Hi Hp. rewrite H1' // H2' //. by rewrite -H1.
Qed.

Lemma agree_weaken (P Q : Z → Prop) l l' : (∀ k, P k → Q k) → agree P l l' → agree Q l l'.
Proof. intros HPQ [H H']. split; [done|]. intros i Hi Hp. apply H'; [done|]. intros ?. by apply Hp, HPQ. Qed.

Lemma agree_splice (P : Z → Prop) a x l : 0 <= a → a + size_of x <= size_of l →
  (∀ i, a <= i < a + size_of x → P (i / 512)) → agree P l (splice a x l).
Proof.
  intros Ha Hn HP. split; [by rewrite size_of_splice|]. intros i Hi Hp. rewrite byte_at_splice //.
  rewrite decide_False //. intros ?. by apply Hp, HP.
Qed.

Lemma agree_slice P a n l l' : agree P l l' → 0 <= a → 0 <= n → a + n <= size_of l →
  (∀ i, a <= i < a + n → ¬ P (i / 512)) → slice a n l' = slice a n l.
Proof.
  intros [H H'] Ha Hn Hs Hp. apply bytes_eq; [by rewrite !size_of_slice; try lia|].
  rewrite size_of_slice; [|lia..]. intros i Hi. rewrite !byte_at_slice; [|lia..]. symmetry. apply H'; [lia|]. apply Hp. lia.
Qed.

(** * The layout of the disk *)

(** The data of an inode, and all its sectors. *)
Definition in_data (d : inode_disk) (k : Z) : Prop := i_start d <= k < i_start d + sectors_of d.
Definition owns (sec : Z) (d : inode_disk) (k : Z) : Prop := k = sec ∨ in_data d k.

(** An inode that fits the disk. *)
Record inode_ok (n : Z) (sec : Z) (d : inode_disk) : Prop := {
  ok_sector : 0 <= sec < n;
  ok_disk : wf_inode_disk d;
  ok_length : 0 <= i_length d <= 2 ^ 31 - 513;
  ok_end : i_start d + sectors_of d <= n;
  ok_apart : ¬ in_data d sec;
}.

(** [live] has the inodes that there are, by sector; their sectors are in use in
    the free map and no two of them share one. *)
Record layout (live : gmap Z inode_disk) (s : fs) : Prop := {
  lay_size : size_of (disk s) = 512 * capacity s;
  lay_bytes : Forall (in_u 8) (disk s);
  lay_map : wf_bitmap (free_map s);
  lay_cnt : bit_cnt (free_map s) = capacity s;
  lay_inode sec d : live !! sec = Some d → inode_ok (capacity s) sec d;
  lay_disk sec d : live !! sec = Some d → slice (512 * sec) 512 (disk s) = encode_inode d;
  lay_used sec d k : live !! sec = Some d → owns sec d k → bit (free_map s) k = true;
  lay_disjoint sec d sec' d' k :
    live !! sec = Some d → live !! sec' = Some d' → owns sec d k → owns sec' d' k → sec = sec';
  lay_capacity : capacity s <= 2 ^ 28;
}.

(** The contents of the inodes. *)
Definition contents (live : gmap Z inode_disk) (s : fs) : gmap Z bytes := (λ d, content d (disk s)) <$> live.

Lemma layout_on_disk live s sec d : layout live s → live !! sec = Some d → on_disk s d.
Proof.
  intros H Hd. destruct (lay_inode _ _ H _ _ Hd) as [O1 O2 O3 O4 O5].
  split; [apply (lay_size _ _ H)|apply (lay_capacity _ _ H)|apply (wf_start _ O2)|done|done].
Qed.

Lemma layout_capacity live s : layout live s → 0 <= capacity s <= 2 ^ 28.
Proof. intros H. pose proof (wf_cnt _ (lay_map _ _ H)) as Hc. rewrite (lay_cnt _ _ H) in Hc. split; [apply Hc|apply H]. Qed.

Lemma layout_later live s s' : later s s' → layout live s → layout live s'.
Proof. intros [k ->] [H1 H2 H3 H4 H5 H6 H7 H8 H9]. by split. Qed.

Lemma in_data_content n sec d i : inode_ok n sec d →
  512 * i_start d <= i < 512 * i_start d + i_length d → in_data d (i / 512).
Proof. intros [O1 O2 O3 O4 O5] Hi. unfold in_data, sectors_of in *. pose proof (wf_start _ O2). div_lia. Qed.

(** Sectors that no live inode has can change. *)
Lemma layout_agree live P l s :
  layout live s → agree P (disk s) l → Forall (in_u 8) l → (∀ sec d, live !! sec = Some d → ¬ P sec) →
  layout live (with_disk l s).
Proof.
  intros H Ha Hl HP. pose proof H as [H1 H2 H3 H4 H5 H6 H7 H8 H9]. split; try done; simpl.
  - destruct Ha as [Hs _]. congruence.
  - intros sec d Hd. rewrite -(H6 _ _ Hd). destruct (H5 _ _ Hd) as [O1 _ _ _ _].
    eapply agree_slice; [done|lia..|]. intros i Hi. replace (i / 512) with sec by div_lia. by eapply HP.
Qed.

Lemma content_agree live P l s sec d :
  layout live s → agree P (disk s) l → live !! sec = Some d → (∀ k, P k → ¬ in_data d k) →
  content d l = content d (disk s).
Proof.
  intros H Ha Hd HP. pose proof (layout_on_disk _ _ _ _ H Hd) as [D1 D2 D3 D4 D5]. unfold content.
  eapply agree_slice; [done|lia|lia|rewrite D1; unfold sectors_of in D5; div_lia|].
  intros i Hi Hp. apply (HP _ Hp). by eapply in_data_content; [apply (lay_inode _ _ H _ _ Hd)|].
Qed.

(** The effect of writing to the data of one inode. *)
Lemma layout_write live s sec d ofs x :
  layout live s → live !! sec = Some d → Forall (in_u 8) x → 0 <= ofs → ofs + size_of x <= i_length d →
  let s' := with_disk (splice (512 * i_start d + ofs) x (disk s)) s in
  layout live s' ∧ agree (in_data d) (disk s) (disk s') ∧
  contents live s' = <[sec := splice ofs x (content d (disk s))]> (contents live s).
Proof.
  intros H Hd Hx Ho Hn s'. pose proof (layout_on_disk _ _ _ _ H Hd) as Hon.
  pose proof (size_of_content _ _ Hon) as Hsz. pose proof Hon as [D1 D2 D3 D4 D5].
  pose proof (size_of_nonneg x).
  assert (512 * i_start d + i_length d <= size_of (disk s)) as Hend by (rewrite D1; unfold sectors_of in D5; div_lia).
  pose proof (lay_inode _ _ H _ _ Hd) as Hok.
  assert (agree (in_data d) (disk s) (disk s')) as Ha.
  { apply agree_splice; [lia..|]. intros i Hi. eapply in_data_content; [done|lia]. }
  split; [|split; [done|]].
  - eapply layout_agree; [done..|apply Forall_splice; [done|apply (lay_bytes _ _ H)]|].
    intros sec' d' Hd' Hp. destruct (decide (sec = sec')) as [<-|Hne]; [by apply (ok_apart _ _ _ Hok)|].
    apply Hne. eapply (lay_disjoint _ _ H _ _ _ _ sec'); [done..|by right|by left].
  - apply map_eq. intros sec'. unfold contents. destruct (decide (sec' = sec)) as [->|Hne].
    + rewrite lookup_insert_eq lookup_fmap Hd /=. f_equal. unfold content, s'. simpl.
      rewrite slice_splice_in; [|lia..]. f_equal. lia.
    + rewrite lookup_insert_ne // !lookup_fmap. destruct (live !! sec') as [d'|] eqn:Hd'; [|done]. simpl. f_equal.
      eapply content_agree; [done|done|done|]. intros k Hk Hk'. apply Hne.
      eapply (lay_disjoint _ _ H); [done..|by right|by right].
Qed.

(** * What stays the same in memory *)

Record same_memory (s s' : fs) : Prop := {
  same_capacity : capacity s' = capacity s;
  same_inodes : inodes s' = inodes s;
  same_open : open_inodes s' = open_inodes s;
  same_files : files s' = files s;
  same_dirs : dirs s' = dirs s;
  same_free_map_file : free_map_file s' = free_map_file s;
  same_plenty : plenty s → plenty s';
}.

#[export] Instance same_memory_refl : Reflexive same_memory.
Proof. by split. Qed.
#[export] Instance same_memory_trans : Transitive same_memory.
Proof. intros s1 s2 s3 [] []. split; try congruence. auto. Qed.

Lemma later_same s s' : later s s' → same_memory s s'.
Proof. intros [k ->]. split; try done. intros H. unfold plenty. simpl. by apply Forall_drop. Qed.
Lemma with_disk_same l s : same_memory s (with_disk l s).
Proof. by split. Qed.
Lemma with_free_map_same b s : same_memory s (with_free_map b s).
Proof. by split. Qed.
Lemma with_stack_same l s : same_memory s (with_stack l s).
Proof. by split. Qed.
#[export] Hint Resolve later_same with_disk_same with_free_map_same with_stack_same : fs.

(** * Writing the free map *)

(** The contents of all inodes but the free map. *)
Definition visible (live : gmap Z inode_disk) (s : fs) : gmap Z bytes := base.delete FREE_MAP_SECTOR (contents live s).

Lemma contents_later live s s' : later s s' → contents live s' = contents live s.
Proof. by intros [k ->]. Qed.

(** The free map file is open on the inode of the free map. *)
Record free_map_ready (live : gmap Z inode_disk) (s : fs) (f a : loc) (x : inode) : Prop := {
  ready_file : free_map_file s = Some f;
  ready_inode : ∃ pos, files s !! f = Some (File (Some a) pos false);
  ready_open : inodes s !! a = Some x;
  ready_sector : sector x = FREE_MAP_SECTOR;
  ready_live : live !! FREE_MAP_SECTOR = Some (data x);
  ready_length : i_length (data x) = byte_cnt (capacity s);
  ready_writable : deny_write_cnt x = 0;
}.

Lemma ready_same live s s' f a x : same_memory s s' → free_map_ready live s f a x → free_map_ready live s' f a x.
Proof. intros [C I O Fi Di Fm P] [R1 [pos R2] R3 R4 R5 R6 R7]. split; try congruence. exists pos. congruence. Qed.

Lemma byte_cnt_eq n : 0 <= n <= 2 ^ 32 - 32 → byte_cnt n = 4 * ((n + 31) / 32) ∧ 0 <= byte_cnt n <= 2 ^ 29.
Proof.
  intros Hn. unfold byte_cnt, elem_cnt, ELEM_BITS. rewrite (wrap_u_id 32 (n + 32 - 1)); [|unfold in_u; lia].
  replace (n + 32 - 1) with (n + 31) by lia. rewrite wrap_u_id; [|unfold in_u; div_lia]. div_lia.
Qed.

Lemma bytes_of_words_wf ws : Forall (in_u 32) ws →
  size_of (bytes_of_words ws) = 4 * Z.of_nat (length ws) ∧ Forall (in_u 8) (bytes_of_words ws).
Proof.
  unfold bytes_of_words. induction 1 as [|w ws Hw _ [IH1 IH2]]; [done|]. cbn [mbind list_bind].
  rewrite size_of_app IH1 size_of_le_split. split; [simpl length; lia|]. apply Forall_app. split; [apply le_split_bytes|done].
Qed.

Lemma bitmap_bytes b : wf_bitmap b →
  wrap_s 32 (byte_cnt (bit_cnt b)) = byte_cnt (bit_cnt b) ∧ byte_cnt (bit_cnt b) <= size_of (bytes_of_words (bits b)).
Proof.
  intros [Hc Hl Hw]. destruct (bytes_of_words_wf _ Hw) as [-> _]. unfold ELEM_BITS in Hc.
  destruct (byte_cnt_eq (bit_cnt b)) as [E B]; [lia|]. split; [apply wrap_s_id; [lia|unfold in_s; lia]|].
  rewrite E. unfold elem_cnt, ELEM_BITS in Hl. rewrite wrap_u_id in Hl; [|unfold in_u; lia].
  replace (bit_cnt b + 32 - 1) with (bit_cnt b + 31) in Hl by lia. lia.
Qed.

Lemma get_file_run {A} s f x (k : file → F A) : files s !! f = Some x → (get_file (Some f) ≫= k) s = k x s.
Proof. intros Hx. unfold get_file, deref. rewrite run_assoc run_gets. simpl. by rewrite Hx. Qed.

(** The free map file is up to date: its words have the bits of the free map. *)
Definition saved (n : Z) (l : bytes) (b : bitmap) : Prop :=
  ∀ k, 0 <= k < n → bit (Bitmap n (words_of_bytes (Z.to_nat (elem_cnt n)) l)) k = bit b k.
Definition synced (live : gmap Z inode_disk) (s : fs) : Prop :=
  ∃ l, contents live s !! FREE_MAP_SECTOR = Some l ∧ saved (capacity s) l (free_map s).

Lemma words_of_bytes_lookup n l i : (i < n)%nat →
  words_of_bytes n l !! i = Some (le_combine (slice (4 * Z.of_nat i) 4 l)).
Proof.
  revert l i. induction n as [|n IH]; intros l i Hi; [lia|]. destruct i as [|i]; cbn [words_of_bytes lookup list_lookup]; [done|].
  rewrite IH; [|lia]. do 2 f_equal. Transparent slice. unfold slice. Opaque slice. rewrite drop_drop. do 2 f_equal. lia.
Qed.

Lemma length_words_of_bytes n l : length (words_of_bytes n l) = n.
Proof. revert l. induction n as [|n IH]; intros l; simpl; [done|]. by rewrite IH. Qed.

Lemma words_of_bytes_wf n l : Forall (in_u 8) l → 4 * Z.of_nat n <= size_of l → Forall (in_u 32) (words_of_bytes n l).
Proof.
  intros Hl Hn. apply Forall_lookup. intros i w Hw. pose proof (lookup_lt_Some _ _ _ Hw) as Hi. rewrite length_words_of_bytes in Hi.
  rewrite words_of_bytes_lookup // in Hw. simplify_eq. pose proof (le_combine_range (slice (4 * Z.of_nat i) 4 l)) as Hc.
  rewrite size_of_slice in Hc; [|lia..]. unfold in_u. apply Hc. by apply Forall_slice.
Qed.

Lemma bytes_of_words_lookup ws i w : Forall (in_u 32) ws → ws !! i = Some w →
  slice (4 * Z.of_nat i) 4 (bytes_of_words ws) = le_split 4 w.
Proof.
  intros Hws. revert i. induction Hws as [|v ws Hv Hws IH]; intros i Hi; [done|].
  change (bytes_of_words (v :: ws)) with (le_split 4 v ++ bytes_of_words ws). pose proof (size_of_le_split 4 v) as Hsz.
  destruct (bytes_of_words_wf ws Hws) as [Hsz' _]. destruct i as [|i].
  - injection Hi as ->. change (4 * Z.of_nat 0) with 0. change 4 with (Z.of_nat 4) at 1. rewrite -(size_of_le_split 4 w). apply slice_app_l.
  - change (ws !! i = Some w) in Hi. pose proof (lookup_lt_Some _ _ _ Hi). rewrite -(IH _ Hi). block_eq.
Qed.

Lemma bit_words n b ws k : 0 <= k → (∀ w, bits b !! Z.to_nat (elem_idx k) = Some w → ws !! Z.to_nat (elem_idx k) = Some w) →
  is_Some (bits b !! Z.to_nat (elem_idx k)) → bit (Bitmap n ws) k = bit b k.
Proof. intros Hk Hw [w Hb]. unfold bit. simpl. by rewrite (Hw _ Hb) Hb. Qed.

(** The words that hold the bits of the map. *)
Lemma elem_idx_bound n k : 0 <= k < n → n <= 2 ^ 32 - 32 → 0 <= elem_idx k < elem_cnt n.
Proof.
  intros Hk Hn. unfold elem_idx, elem_cnt, ELEM_BITS. rewrite wrap_u_id; [|unfold in_u; lia]. div_lia.
Qed.

Lemma saved_write b n : wf_bitmap b → bit_cnt b = n → saved n (slice 0 (byte_cnt n) (bytes_of_words (bits b))) b.
Proof.
  intros Hwf Hn k Hk. pose proof Hwf as [Hc Hl Hw]. rewrite Hn in Hc Hl. unfold ELEM_BITS in Hc.
  destruct (elem_idx_bound n k Hk) as [Hi1 Hi2]; [lia|]. destruct (byte_cnt_eq n) as [Eb _]; [lia|].
  destruct (bytes_of_words_wf _ Hw) as [Hsz _].
  assert (byte_cnt n = 4 * elem_cnt n) as Eb'.
  { rewrite Eb. unfold elem_cnt, ELEM_BITS. rewrite wrap_u_id; [|unfold in_u; lia]. do 2 f_equal. lia. }
  destruct (elem_lookup b k Hwf) as (w & Hw' & Hu & _); [lia|].
  apply bit_words; [lia| |by exists w]. intros w' E. assert (w' = w) as -> by congruence.
  rewrite words_of_bytes_lookup; [|lia]. rewrite slice_slice; [|lia..]. rewrite Z.add_0_l.
  rewrite (bytes_of_words_lookup _ _ w) //. f_equal. by apply le_combine_4.
Qed.

(** Nothing but the contents of the free map file changes. *)
Record quiet (live : gmap Z inode_disk) (s s' : fs) : Prop := {
  quiet_memory : same_memory s s';
  quiet_layout : layout live s';
  quiet_visible : visible live s' = visible live s;
}.

Lemma quiet_trans live s1 s2 s3 : quiet live s1 s2 → quiet live s2 s3 → quiet live s1 s3.
Proof. intros [] []. split; [by etrans|done|congruence]. Qed.
Lemma quiet_refl live s : layout live s → quiet live s s.
Proof. by split. Qed.
Lemma quiet_later live s s' : layout live s → later s s' → quiet live s s'.
Proof.
  intros H Hl. split; [by apply later_same|by eapply layout_later|]. unfold visible. by rewrite (contents_later _ _ _ Hl).
Qed.

Lemma bitmap_write_run live s f a x :
  layout live s → free_map_ready live s f a x →
  ∃ ok s', bitmap_write (free_map s) (Some f) s = Ret ok s' ∧ quiet live s s' ∧ free_map s' = free_map s ∧
    if (ok : bool) then synced live s' else ¬ plenty s.
Proof.
  intros H [Rf [pos Ri] Ro Rs Rl Rn Rw]. pose proof (lay_map _ _ H) as Hwf. pose proof (lay_cnt _ _ H) as Hcnt.
  destruct (bitmap_bytes _ Hwf) as [Hw Hb]. destruct (bytes_of_words_wf _ (wf_word _ Hwf)) as [_ Hbytes].
  destruct (byte_cnt_eq (bit_cnt (free_map s))) as [_ Hbn]; [pose proof (layout_capacity _ _ H); lia|].
  rewrite Hcnt in Hw Hb Hbn.
  unfold bitmap_write, file_write_at. rewrite Hcnt Hw run_assoc (get_file_run _ _ _ _ Ri).
  destruct (inode_write_at_run a x s (bytes_of_words (bits (free_map s))) (byte_cnt (capacity s)) 0)
    as (n & s' & Hrun & Hl & Hn & Hp & _); [done|by eapply layout_on_disk|split_and!; lia|done|done|].
  rewrite (M_bind_Ret _ _ _ _ _ Hrun). unfold available in *. rewrite Rn in Hn Hp.
  destruct (layout_write live s FREE_MAP_SECTOR (data x) 0 (slice 0 n (bytes_of_words (bits (free_map s))))) as (W1 & W2 & W3);
    [done|done|by apply Forall_slice|lia|rewrite size_of_slice; lia|].
  set (s1 := with_disk _ s) in *.
  exists (bool_decide (n = byte_cnt (capacity s))), s'. split; [done|]. split; [|split].
  - eapply quiet_trans; [|by eapply quiet_later]. split; [by apply with_disk_same|done|].
    unfold visible. rewrite W3. apply delete_insert_eq.
  - by destruct Hl as [k ->].
  - case_bool_decide as E; [|intros ?; destruct Hp as [->|Hp]; [lia|done]]. unfold synced.
    exists (slice 0 n (bytes_of_words (bits (free_map s)))). split.
    + rewrite (contents_later _ _ _ Hl) W3 lookup_insert_eq. f_equal. rewrite E splice_all //.
      rewrite size_of_slice; [|lia..]. rewrite (size_of_content s); [done|by eapply layout_on_disk].
    + destruct Hl as [k ->]. cbn [capacity free_map with_allocs with_disk s1]. rewrite E. by apply saved_write.
Qed.

(** * Allocating and releasing sectors *)

Lemma on_free_map_run {A B} (m : M bitmap A) (k : A → F B) s r b :
  m (free_map s) = Ret r b → (on_free_map m ≫= k) s = k r (with_free_map b s).
Proof. intros Hm. unfold on_free_map, mbind, M_bind. by rewrite Hm. Qed.

Lemma layout_free_map live s b f :
  layout live s → changed (free_map s) b f →
  (∀ sec d k, live !! sec = Some d → owns sec d k → f k = true) → layout live (with_free_map b s).
Proof.
  intros H [C1 C2 C3] Hf. pose proof H as [H1 H2 H3 H4 H5 H6 H7 H8 H9]. split; try done; simpl.
  - by rewrite C2.
  - intros sec d k Hd Hk. destruct (H5 _ _ Hd) as [O1 O2 O3 O4 O5]. pose proof (wf_start _ O2).
    rewrite C3; [by eapply Hf|]. rewrite H4. destruct Hk as [->|Hk]; [done|]. unfold in_data, in_u in *. lia.
Qed.

Lemma quiet_free_map live s b f :
  layout live s → changed (free_map s) b f →
  (∀ sec d k, live !! sec = Some d → owns sec d k → f k = true) → quiet live s (with_free_map b s).
Proof. intros. split; [by apply with_free_map_same|by eapply layout_free_map|done]. Qed.

(** The free map is written to its file once that is open. *)
Definition maybe_ready (live : gmap Z inode_disk) (s : fs) : Prop :=
  free_map_file s = NULL ∨ ∃ f a x, free_map_ready live s f a x.

Lemma maybe_ready_same live s s' : same_memory s s' → maybe_ready live s → maybe_ready live s'.
Proof.
  intros Hs [Hn|(f & a & x & Hr)]; [left; by rewrite (same_free_map_file _ _ Hs)|right].
  exists f, a, x. by eapply ready_same.
Qed.

Lemma free_map_allocate_run live s cnt :
  layout live s → maybe_ready live s → 0 <= cnt →
  ∃ r s', free_map_allocate cnt s = Ret r s' ∧ quiet live s s' ∧
    match r with
    | Some start => in_range start cnt (free_map s) ∧ first_group (free_map s) false 0 cnt start ∧
        (∀ k, start <= k < start + cnt → bit (free_map s) k = false) ∧
        (∀ k, 0 <= k < capacity s → bit (free_map s') k = if decide (start <= k < start + cnt) then true else bit (free_map s) k) ∧
        (free_map_file s ≠ NULL → synced live s')
    | None =>
        (∀ k, 0 <= k < capacity s → bit (free_map s') k = bit (free_map s) k) ∧
        (plenty s → s' = s ∧ ∀ k, 0 <= k → ¬ group (free_map s) false cnt k)
    end.
Proof.
  intros H Hready Hc. pose proof (lay_map _ _ H) as Hwf. pose proof (lay_cnt _ _ H) as Hcnt.
  destruct (bitmap_scan_and_flip_run (free_map s) 0 cnt false Hwf) as (r & b & Hrun & Hg & Hb); [pose proof (wf_cnt _ Hwf); lia|done|].
  unfold free_map_allocate. rewrite (on_free_map_run _ _ _ _ _ Hrun) run_gets. cbn [free_map_file with_free_map].
  case_bool_decide as Hr.
  { rewrite bool_decide_false; [|tauto]. run. rewrite bool_decide_false; [|tauto]. exists None, s. subst b.
    assert (with_free_map (free_map s) s = s) as -> by by destruct s.
    split; [done|]. split; [by apply quiet_refl|]. split; [done|]. intros _. split; [done|].
    destruct Hg as [[_ Hg]|[? _]]; [done|by subst]. }
  destruct Hb as [Hin Hch]. pose proof Hch as [C1 C2 C3]. set (s1 := with_free_map b s).
  assert (quiet live s s1) as Hq.
  { eapply quiet_free_map; [done..|]. intros sec d k Hd Hk. simpl. case_decide; [done|]. by eapply (lay_used _ _ H). }
  assert (∀ k, r <= k < r + cnt → bit (free_map s) k = false) as Hfree.
  { destruct Hg as [[? _]|(_ & _ & [_ Hg] & _)]; done. }
  rewrite Hcnt in C3. destruct (decide (free_map_file s = NULL)) as [Hn|Hn].
  { rewrite bool_decide_false; [|tauto]. run. rewrite bool_decide_true //. exists (Some r), s1. done. }
  destruct Hready as [?|(f & a & x & Hready)]; [done|]. rewrite (ready_file _ _ _ _ _ Hready).
  rewrite bool_decide_true; [|done]. run. fold s1.
  destruct (bitmap_write_run live s1 f a x) as (ok & s2 & Hrun2 & Hq2 & Hfm & Hok);
    [by apply Hq|by eapply ready_same; [apply Hq|]|].
  rewrite (M_bind_Ret _ _ _ _ _ Hrun2). cbv beta. destruct ok.
  - run. rewrite bool_decide_true //. exists (Some r), s2. split; [done|]. split; [by eapply quiet_trans|].
    rewrite Hfm. done.
  - destruct (bitmap_set_multiple_run r cnt false b C1) as (b' & Hrun3 & [D1 D2 D3]).
    { destruct Hin as (? & ? & ?). split_and!; lia. }
    change b with (free_map s1) in Hrun3. rewrite -Hfm in Hrun3. rewrite run_assoc (on_free_map_run _ _ _ _ _ Hrun3). run.
    rewrite bool_decide_false; [|tauto]. exists None, (with_free_map b' s2). split; [done|].
    assert (∀ k, 0 <= k < capacity s → bit b' k = bit (free_map s) k) as Hback.
    { intros k Hk. rewrite D3; [|lia]. case_decide as E; [by rewrite Hfree|]. rewrite C3 // decide_False //. }
    assert (changed (free_map s2) b' (bit (free_map s))) as Hch2.
    { split; [done|by rewrite Hfm|]. intros i Hi. apply Hback. rewrite Hfm /= C2 in Hi. lia. }
    split; [|split; [done|]].
    + eapply quiet_trans; [done|]. eapply quiet_trans; [done|]. eapply quiet_free_map; [by apply Hq2|done|].
      intros sec d k Hd Hk. by eapply (lay_used _ _ H).
    + intros Hp. by destruct Hok.
Qed.

Lemma bitmap_all_run b start cnt : wf_bitmap b → in_range start cnt b →
  (∀ k, start <= k < start + cnt → bit b k = true) → bitmap_all start cnt b = Ret true b.
Proof.
  intros Hwf Hin Hall. unfold bitmap_all.
  destruct (bitmap_contains_run start cnt false b Hwf Hin) as (r & Hrun & Hr).
  rewrite (M_bind_Ret _ _ _ _ _ Hrun). destruct r; [|done].
  destruct (proj1 Hr eq_refl) as (j & Hj & Hb). by rewrite Hall in Hb.
Qed.

Lemma free_map_release_run live s f a x start cnt :
  layout live s → free_map_ready live s f a x → in_range start cnt (free_map s) →
  (∀ k, start <= k < start + cnt → bit (free_map s) k = true) →
  (∀ sec d k, live !! sec = Some d → owns sec d k → ¬ (start <= k < start + cnt)) →
  ∃ s', free_map_release start cnt s = Ret tt s' ∧ quiet live s s' ∧
    (∀ k, 0 <= k < capacity s → bit (free_map s') k = if decide (start <= k < start + cnt) then false else bit (free_map s) k) ∧
    (plenty s → synced live s').
Proof.
  intros H Hready Hin Hall Hapart. pose proof (lay_map _ _ H) as Hwf. pose proof (lay_cnt _ _ H) as Hcnt.
  unfold free_map_release. rewrite (on_free_map_run _ _ _ _ _ (bitmap_all_run _ _ _ Hwf Hin Hall)).
  assert (with_free_map (free_map s) s = s) as -> by by destruct s.
  rewrite ASSERT_true //. destruct (bitmap_set_multiple_run start cnt false _ Hwf Hin) as (b & Hrun & Hch).
  pose proof Hch as [C1 C2 C3]. rewrite (on_free_map_run _ _ _ _ _ Hrun). set (s1 := with_free_map b s).
  assert (quiet live s s1) as Hq.
  { eapply quiet_free_map; [done..|]. intros sec d k Hd Hk. simpl. rewrite decide_False; [|by eapply Hapart].
    by eapply (lay_used _ _ H). }
  rewrite !run_gets. cbn [free_map_file with_free_map s1]. rewrite (ready_file _ _ _ _ _ Hready).
  destruct (bitmap_write_run live s1 f a x) as (ok & s2 & Hrun2 & Hq2 & Hfm & Hok);
    [by apply Hq|by eapply ready_same; [apply Hq|]|].
  rewrite (M_bind_Ret _ _ _ _ _ Hrun2). exists s2. split; [done|]. split; [by eapply quiet_trans|].
  split; [rewrite Hfm; by rewrite Hcnt in C3|]. intros Hp. by destruct ok.
Qed.

(** * Creating an inode *)

(** The loop that clears the data of a new inode. *)
Lemma zero_loop fuel start n i s :
  0 <= start → 0 <= i <= n → start + n <= capacity s → capacity s <= 2 ^ 28 → size_of (disk s) = 512 * capacity s →
  n - i < Z.of_nat fuel →
  loop fuel (λ i,
    if bool_decide (i < n) then
      disk_write (wrap_u 32 (start + i)) (replicate (Z.to_nat DISK_SECTOR_SIZE) 0);;
      mret (inl (i + 1))
    else mret (inr tt)) i s =
  Ret tt (with_disk (splice (512 * (start + i)) (replicate (Z.to_nat (512 * (n - i))) 0) (disk s)) s).
Proof.
  intros Hs Hi Hn Hc Hd Hf. revert s i Hi Hn Hc Hd Hf. induction fuel as [|fuel IH]; intros s i Hi Hn Hc Hd Hf; [lia|].
  rewrite run_loop. case_bool_decide as Hlt.
  - rewrite wrap_u_id; [|unfold in_u; lia].
    assert (size_of (replicate (Z.to_nat DISK_SECTOR_SIZE) 0) = 512) as Hz by by rewrite size_of_replicate.
    rewrite run_assoc disk_write_run; [|lia|lia|done]. rewrite !run_ret IH; [|lia|done|done|simpl; rewrite size_of_splice; rewrite ?Hz; lia|lia].
    unfold with_disk. simpl. do 2 f_equal.
    replace (512 * (start + (i + 1))) with (512 * (start + i) + size_of (replicate (Z.to_nat DISK_SECTOR_SIZE) 0)) by lia.
    rewrite splice_app; [|lia|rewrite Hz size_of_replicate; lia]. f_equal. unfold DISK_SECTOR_SIZE. rewrite -replicate_add. f_equal. lia.
  - replace (n - i) with 0 by lia. run. simpl. rewrite splice_nil. by destruct s.
Qed.

Lemma Forall_zeros n : Forall (in_u 8) (replicate n 0).
Proof. by apply Forall_replicate. Qed.

Lemma encode_bytes d : Forall (in_u 8) (i_unused d) → Forall (in_u 8) (encode_inode d).
Proof. intros. unfold encode_inode. rewrite !Forall_app. split_and!; [apply le_split_bytes..|done]. Qed.

Section create.
Context (live : gmap Z inode_disk) (s : fs) (sec : Z) (d : inode_disk).
Context (H : layout live s) (Hok : inode_ok (capacity s) sec d) (Hbytes : Forall (in_u 8) (i_unused d)).
Context (Hused : ∀ k, owns sec d k → bit (free_map s) k = true).
Context (Hapart : ∀ sec' d' k, live !! sec' = Some d' → owns sec' d' k → ¬ owns sec d k).

(** The disk with the new inode, and with its data cleared. *)
Definition fresh_disk : bytes :=
  splice (512 * i_start d) (replicate (Z.to_nat (512 * sectors_of d)) 0) (splice (512 * sec) (encode_inode d) (disk s)).

Lemma sectors_of_nonneg : 0 <= sectors_of d.
Proof. unfold sectors_of. pose proof (ok_length _ _ _ Hok). div_lia. Qed.

Lemma fresh_disk_agree : agree (owns sec d) (disk s) fresh_disk.
Proof.
  pose proof Hok as [O1 O2 O3 O4 O5]. pose proof (wf_start _ O2) as Hs. unfold in_u in Hs.
  pose proof (lay_size _ _ H) as Hd. pose proof (size_of_encode _ O2) as He. unfold DISK_SECTOR_SIZE in He.
  pose proof sectors_of_nonneg. unfold fresh_disk. etrans; apply agree_splice; try lia; rewrite ?He.
  - intros i Hi. left. div_lia.
  - rewrite size_of_replicate size_of_splice; lia.
  - rewrite size_of_replicate. intros i Hi. right. unfold in_data. div_lia.
Qed.

Lemma content_zeros l : 512 * i_start d + 512 * sectors_of d <= size_of l →
  content d (splice (512 * i_start d) (replicate (Z.to_nat (512 * sectors_of d)) 0) l) = replicate (Z.to_nat (i_length d)) 0.
Proof.
  intros Hl. pose proof Hok as [O1 O2 O3 O4 O5]. pose proof (wf_start _ O2) as Hs. unfold in_u in Hs.
  pose proof sectors_of_nonneg. assert (i_length d <= 512 * sectors_of d) by (unfold sectors_of; div_lia).
  unfold content. apply bytes_eq; [sizes; lia|]. sizes. intros i Hi. byte_cases.
  unfold byte_at. rewrite !bool_decide_true; [|lia..]. rewrite !lookup_replicate_2 //; lia.
Qed.

Lemma layout_create : live !! sec = None →
  let s' := with_disk fresh_disk s in
  layout (<[sec := d]> live) s' ∧
  contents (<[sec := d]> live) s' = <[sec := replicate (Z.to_nat (i_length d)) 0]> (contents live s).
Proof.
  intros Hnone s'. pose proof fresh_disk_agree as Ha. pose proof Hok as [O1 O2 O3 O4 O5].
  pose proof (size_of_encode _ O2) as He. unfold DISK_SECTOR_SIZE in He. pose proof (wf_start _ O2) as Hs. unfold in_u in Hs.
  pose proof (lay_size _ _ H) as Hd. pose proof sectors_of_nonneg.
  assert (layout live s') as H'.
  { eapply layout_agree; [done..| |].
    - apply Forall_splice; [apply Forall_zeros|]. apply Forall_splice; [by apply encode_bytes|apply (lay_bytes _ _ H)].
    - intros sec' d' Hd' Hp. eapply Hapart; [done|by left|done]. }
  split.
  - pose proof H' as [H1 H2 H3 H4 H5 H6 H7 H8 H9]. split; [done..| | | | |done].
    + intros sec' d'. destruct (decide (sec' = sec)) as [->|].
      * by rewrite lookup_insert_eq => [=<-].
      * rewrite lookup_insert_ne //. apply H5.
    + intros sec' d'. destruct (decide (sec' = sec)) as [->|].
      * rewrite lookup_insert_eq => [=<-]. unfold s', fresh_disk. simpl.
        rewrite slice_splice_out; [by rewrite -He slice_splice_eq; [|lia..]|lia|lia|rewrite size_of_splice; lia|lia|..].
        { rewrite size_of_replicate size_of_splice; lia. }
        rewrite size_of_replicate. unfold in_data in O5. lia.
      * rewrite lookup_insert_ne //. apply H6.
    + intros sec' d' k. destruct (decide (sec' = sec)) as [->|].
      * rewrite lookup_insert_eq => [=<-]. apply Hused.
      * rewrite lookup_insert_ne //. apply H7.
    + intros sec1 d1 sec2 d2 k.
      destruct (decide (sec1 = sec)) as [->|], (decide (sec2 = sec)) as [->|];
        rewrite ?lookup_insert_eq ?lookup_insert_ne //; try (intros [=<-]); try (intros Hd1 [=<-]); try intros Hd1.
      * intros K1 K2. exfalso. by eapply Hapart.
      * intros K1 K2. exfalso. by eapply Hapart.
      * intros Hd2. by apply (H8 _ _ _ _ k).
  - unfold contents. rewrite fmap_insert. apply map_eq. intros sec'. destruct (decide (sec' = sec)) as [->|].
    + rewrite !lookup_insert_eq. f_equal. unfold s', fresh_disk. simpl. apply content_zeros. rewrite size_of_splice; lia.
    + rewrite !lookup_insert_ne // !lookup_fmap. destruct (live !! sec') as [d'|] eqn:Hd'; [|done]. simpl. f_equal.
      eapply content_agree; [done|done|done|]. intros k Hk Hk'. eapply Hapart; [done|by right|done].
Qed.
End create.

Lemma bytes_to_sectors_run {A} n (k : Z → F A) s : 0 <= n <= 2 ^ 31 - 513 →
  (bytes_to_sectors n ≫= k) s = k ((n + 511) / 512) s.
Proof.
  intros Hn. unfold bytes_to_sectors, DISK_SECTOR_SIZE. rewrite run_assoc int_run; [|lia]. rewrite run_assoc int_run; [|lia].
  rewrite run_ret. rewrite Z.quot_div_nonneg; [|lia..]. replace (n + 512 - 1) with (n + 511) by lia.
  by rewrite wrap_u_id; [|unfold in_u; div_lia].
Qed.

(** The inode that [inode_create] writes. *)
Definition new_disk_inode (start len : Z) : inode_disk := InodeDisk start len INODE_MAGIC (replicate 500 0).

Lemma new_disk_inode_wf start len : in_u 32 start → 0 <= len <= 2 ^ 31 - 513 → wf_inode_disk (new_disk_inode start len).
Proof. intros. split; simpl; [done|unfold in_s; lia|done|done]. Qed.

(** A sector that is in use, but not by any inode. *)
Definition reserved (live : gmap Z inode_disk) (s : fs) (sec : Z) : Prop :=
  0 <= sec < capacity s ∧ bit (free_map s) sec = true ∧ ∀ sec' d, live !! sec' = Some d → ¬ owns sec' d sec.

(** Bits that are on stay on. *)
Definition map_grows (s s' : fs) : Prop :=
  ∀ k, 0 <= k < capacity s → bit (free_map s) k = true → bit (free_map s') k = true.

Lemma reserved_none live s sec : reserved live s sec → live !! sec = None.
Proof. intros (_ & _ & H). destruct (live !! sec) as [d|] eqn:E; [|done]. destruct (H _ _ E). by left. Qed.

Lemma visible_insert live s sec d : sec ≠ FREE_MAP_SECTOR → contents live s = <[sec := d]> (contents live s) →
  visible live s = <[sec := d]> (visible live s).
Proof. intros Hne E. unfold visible. rewrite {1}E. by rewrite delete_insert_ne. Qed.

Lemma inode_create_run live s sec len :
  layout live s → maybe_ready live s → reserved live s sec → 0 <= len <= 2 ^ 31 - 513 →
  ∃ ok s', inode_create sec len s = Ret ok s' ∧ same_memory s s' ∧ map_grows s s' ∧
    if (ok : bool) then
      ∃ d, i_length d = len ∧
        (∀ k, in_data d k → bit (free_map s) k = false) ∧
        (∀ k, 0 <= k < capacity s → bit (free_map s') k = true → bit (free_map s) k = true ∨ in_data d k) ∧
        layout (<[sec := d]> live) s' ∧
        visible (<[sec := d]> live) s' =
          base.delete FREE_MAP_SECTOR (<[sec := replicate (Z.to_nat len) 0]> (visible live s)) ∧
        (sec ≠ FREE_MAP_SECTOR → free_map_file s ≠ NULL → synced (<[sec := d]> live) s')
    else quiet live s s' ∧ (plenty s → later s s' ∧ ∀ k, 0 <= k → ¬ group (free_map s) false ((len + 511) / 512) k).
Proof.
  intros H Hready Hres Hlen. pose proof Hres as (Hsec & Hbit & Hfree). pose proof (reserved_none _ _ _ Hres) as Hnone.
  unfold inode_create. rewrite ASSERT_true; [|apply bool_decide_true; lia].
  destruct (malloc_ok_run s) as (ok & s0 & Hrun0 & Hl0 & Hok0). rewrite (M_bind_Ret _ _ _ _ _ Hrun0). cbv beta.
  destruct ok.
  2: { exists false, s0. split; [done|]. split; [by apply later_same|]. split.
       { destruct Hl0 as [k ->]. by intros k' _. }
       split; [by apply quiet_later|]. intros Hp. by destruct Hok0. }
  rewrite bytes_to_sectors_run //. set (n := (len + 511) / 512).
  assert (quiet live s s0) as Hq0 by by apply quiet_later.
  assert (free_map s0 = free_map s ∧ capacity s0 = capacity s) as [Hfm0 Hcap0] by by destruct Hl0 as [k ->].
  destruct (free_map_allocate_run live s0 n) as (r & s1 & Hrun1 & Hq1 & Hr);
    [apply Hq0|by eapply maybe_ready_same; [apply Hq0|]|unfold n; div_lia|].
  rewrite (M_bind_Ret _ _ _ _ _ Hrun1). cbv beta. rewrite Hfm0 Hcap0 in Hr. assert (quiet live s s1) as Hq by by eapply quiet_trans.
  destruct r as [start|].
  2: { destruct Hr as [Hr1 Hr2]. exists false, s1. split; [done|]. split; [apply Hq|]. split.
       { intros k Hk Hb. by rewrite Hr1. }
       split; [done|]. intros Hp. destruct Hr2 as [-> Hg]; [by eapply same_plenty; [apply Hq0|]|]. done. }
  destruct Hr as ((I1 & I2 & I3) & _ & Hzero & Hbits & Hsync). rewrite (lay_cnt _ _ H) in I3.
  pose proof (layout_capacity _ _ H) as Hcap. set (d := new_disk_inode start len). fold n in I3.
  assert (wf_inode_disk d) as Hwf by (apply new_disk_inode_wf; [unfold in_u; lia|done]).
  pose proof (size_of_encode _ Hwf) as He. unfold DISK_SECTOR_SIZE in He.
  assert (capacity s1 = capacity s) as Hcap1 by apply Hq.
  assert (sectors_of d = n) as Hn by done.
  rewrite disk_write_run; [|lia|lia|done]. set (s2 := with_disk _ s1). pose proof (quiet_layout _ _ _ Hq1) as H1.
  pose proof (lay_size _ _ H1) as Hsize.
  assert (¬ in_data d sec) as Hnot.
  { intros Hin. rewrite Hzero in Hbit; [done|]. unfold in_data in Hin. by rewrite Hn in Hin. }
  assert (size_of (disk s2) = size_of (disk s1)) as Hs2.
  { apply size_of_splice; [lia|]. fold d. rewrite He. lia. }
  set (s3 := with_disk (fresh_disk s1 sec d) s1).
  assert ((if bool_decide (n > 0) then
      loop (S (Z.to_nat n)) (λ i,
        if bool_decide (i < n) then
          disk_write (wrap_u 32 (start + i)) (replicate (Z.to_nat DISK_SECTOR_SIZE) 0);; mret (inl (i + 1))
        else mret (inr tt)) 0 else mret tt) s2 = Ret tt s3) as Hrun2.
  { case_bool_decide as Hpos.
    - rewrite zero_loop; [|lia|lia|simpl; lia|simpl; lia|by rewrite Hs2|lia].
      unfold s3, fresh_disk. rewrite Z.add_0_r Z.sub_0_r Hn. done.
    - assert (n = 0) as Hn0 by (unfold n in *; div_lia). unfold s3, fresh_disk. rewrite Hn Hn0. rewrite splice_nil. done. }
  rewrite (M_bind_Ret _ _ _ _ _ Hrun2).
  assert (∀ k, owns sec d k → 0 <= k < capacity s) as Hrange.
  { intros k [->|Hk]; [done|]. unfold in_data in Hk. rewrite Hn in Hk. simpl in Hk. lia. }
  destruct (layout_create live s1 sec d) as [C1 C2]; try done.
  { split; [lia|done|done|rewrite Hn /=; lia|done]. }
  { by apply Forall_replicate. }
  { intros k Hk. pose proof (Hrange k Hk). rewrite Hbits; [|done]. destruct (decide (start <= k < start + n)) as [?|E]; [done|].
    destruct Hk as [->|Hk]; [done|]. unfold in_data in Hk. by rewrite Hn in Hk. }
  { intros sec' d' k Hd' Hk Hk'. destruct Hk' as [->|Hk']; [by eapply Hfree|].
    assert (bit (free_map s) k = true) as Hb by by eapply (lay_used _ _ H).
    rewrite Hzero in Hb; [done|]. unfold in_data in Hk'. by rewrite Hn in Hk'. }
  exists true, s3. split; [done|]. split.
  { etrans; [apply Hq|]. by apply with_disk_same. }
  split.
  { intros k Hk Hb. change (free_map s3) with (free_map s1). rewrite Hbits; [|done]. by destruct (decide (start <= k < start + n)). }
  exists d. split; [done|]. split.
  { intros k Hk. apply Hzero. unfold in_data in Hk. by rewrite Hn in Hk. }
  split.
  { intros k Hk. change (free_map s3) with (free_map s1). rewrite Hbits; [|done].
    destruct (decide (start <= k < start + n)) as [E|E]; [intros _; right; unfold in_data; rewrite Hn; exact E|by left]. }
  split; [done|]. split.
  - pose proof (quiet_visible _ _ _ Hq) as Hv. unfold visible in *. rewrite C2 -Hv.
    destruct (decide (sec = FREE_MAP_SECTOR)) as [->|Hne]; [by rewrite !delete_insert_eq delete_delete_eq|].
    by rewrite !delete_insert_ne // delete_delete_eq.
  - intros Hne Hf. unfold synced. rewrite C2 lookup_insert_ne //. apply Hsync. by rewrite (same_free_map_file _ _ (quiet_memory _ _ _ Hq0)).
Qed.
