(* ===== verification/PintosOpen.v ===== *)
(** The open inodes: how the list of open inodes, the counts in the inodes and the
    inodes on the disk belong together, and how opening and closing an inode keeps
    them together. *)
From S2P Require Export PintosLayout.
Local Open Scope Z_scope.

(** * References *)

(** How often an inode occurs in a list of references. *)
Definition refs (a : loc) (l : list loc) : Z := Z.of_nat (length (filter (λ b, b = a) l)).

Lemma refs_cons a b l : refs a (b :: l) = (if decide (b = a) then 1 else 0) + refs a l.
Proof. unfold refs. rewrite filter_cons. case_decide; simpl; lia. Qed.
Lemma refs_cons_eq a l : refs a (a :: l) = 1 + refs a l.
Proof. by rewrite refs_cons decide_True. Qed.
Lemma refs_cons_ne a b l : b ≠ a → refs a (b :: l) = refs a l.
Proof. intros. by rewrite refs_cons decide_False. Qed.
Lemma refs_nonneg a l : 0 <= refs a l.
Proof. unfold refs. lia. Qed.
Lemma refs_le a l : refs a l <= Z.of_nat (length l).
Proof. unfold refs. pose proof (length_filter (λ b, b = a) l). lia. Qed.
Lemma refs_pos a l : 0 < refs a l ↔ a ∈ l.
Proof.
  unfold refs. split.
  - intros H. destruct (filter (λ b, b = a) l) as [|b l'] eqn:E; [simpl in H; lia|].
    assert (b ∈ filter (λ b, b = a) l) as Hb by (rewrite E; by left).
    apply list_elem_of_filter in Hb as [-> ?]. done.
  - intros H. assert (a ∈ filter (λ b, b = a) l) as Ha by by apply list_elem_of_filter.
    destruct (filter (λ b, b = a) l); [by apply not_elem_of_nil in Ha|simpl; lia].
Qed.
#[export] Instance refs_proper a : Proper ((≡ₚ) ==> (=)) (refs a).
Proof. intros l l' H. unfold refs. by rewrite H. Qed.

(** * The open inodes

    [held] has a reference for every user of an inode, [denied] one for every user
    that denies writes, and [gone] has the sectors of the removed inodes. *)
Record opened (live : gmap Z inode_disk) (gone : gset Z) (held denied : list loc) (s : fs) : Prop := {
  op_nodup : NoDup (open_inodes s);
  op_list a : a ∈ open_inodes s ↔ is_Some (inodes s !! a);
  op_live a x : inodes s !! a = Some x → live !! sector x = Some (data x);
  op_inj a b x y : inodes s !! a = Some x → inodes s !! b = Some y → sector x = sector y → a = b;
  op_cnt a x : inodes s !! a = Some x →
    open_cnt x = refs a held ∧ 0 < refs a held ∧ deny_write_cnt x = refs a denied;
  op_denied a : refs a denied <= refs a held;
  op_removed a x : inodes s !! a = Some x → removed x = bool_decide (sector x ∈ gone);
  op_gone sec : sec ∈ gone → ∃ a x, inodes s !! a = Some x ∧ sector x = sec;
  op_held a : a ∈ held → is_Some (inodes s !! a);
}.

Lemma opened_same live gone held denied s s' :
  inodes s' = inodes s → open_inodes s' = open_inodes s → opened live gone held denied s → opened live gone held denied s'.
Proof. intros E1 E2 []. split; rewrite ?E1 ?E2; done. Qed.

Lemma opened_perm live gone held held' denied denied' s :
  held ≡ₚ held' → denied ≡ₚ denied' → opened live gone held denied s → opened live gone held' denied' s.
Proof.
  intros E1 E2 [H1 H2 H3 H4 H5 H5' H6 H7 H8]. split; try done.
  - intros a x Hx. rewrite -E1 -E2. by apply H5.
  - intros a. rewrite -E1 -E2. apply H5'.
  - intros a. rewrite -E1. apply H8.
Qed.

(** Changing the counts and the flag of one inode. *)
Lemma opened_update live gone gone' held held' denied denied' s a x y :
  opened live gone held denied s → inodes s !! a = Some x → sector y = sector x → data y = data x →
  open_cnt y = refs a held' → 0 < refs a held' → deny_write_cnt y = refs a denied' → refs a denied' <= refs a held' →
  removed y = bool_decide (sector x ∈ gone') → (∀ b, b ≠ a → refs b held' = refs b held ∧ refs b denied' = refs b denied) →
  (∀ sec, sec ≠ sector x → sec ∈ gone' ↔ sec ∈ gone) →
  opened live gone' held' denied' (with_inodes (<[a := y]> (inodes s)) s).
Proof.
  intros [H1 H2 H3 H4 H5 H5' H6 H7 H8] Hx E1 E2 E3 E4 E5 E6 E7 Hrefs Hgone.
  assert (∀ b z, <[a := y]> (inodes s) !! b = Some z →
    b = a ∧ z = y ∨ b ≠ a ∧ inodes s !! b = Some z) as Hcase.
  { intros b z [[<- <-]|[? ?]]%lookup_insert_Some; auto. }
  split; simpl; [done| | | | | | | |].
  - intros b. rewrite H2. destruct (decide (b = a)) as [->|]; [by rewrite lookup_insert_eq Hx; split|by rewrite lookup_insert_ne].
  - intros b z [[-> ->]|[_ Hz]]%Hcase; [rewrite E1 E2; by eapply H3|by eapply H3].
  - intros b c z w [[-> ->]|[? Hz]]%Hcase [[-> ->]|[? Hw]]%Hcase; rewrite ?E1; try done; intros; by eapply H4.
  - intros b z [[-> ->]|[? Hz]]%Hcase; [done|]. destruct (Hrefs b) as [-> ->]; [done|]. by apply H5.
  - intros b. destruct (decide (b = a)) as [->|Hne]; [done|]. destruct (Hrefs b Hne) as [-> ->]. apply H5'.
  - intros b z [[-> ->]|[? Hz]]%Hcase; [by rewrite E1|]. rewrite (H6 _ _ Hz).
    apply bool_decide_ext. symmetry. apply Hgone. intros E. by assert (b = a) as -> by by eapply H4.
  - intros sec Hs. destruct (decide (sec = sector x)) as [->|Hne].
    + exists a, y. by rewrite lookup_insert_eq.
    + apply Hgone in Hs; [|done]. apply H7 in Hs as (b & z & Hz & Hsec). exists b, z. rewrite lookup_insert_ne; [done|]. intros <-. congruence.
  - intros b Hb%refs_pos. destruct (decide (b = a)) as [->|Hne]; [by rewrite lookup_insert_eq|].
    rewrite lookup_insert_ne //. apply H8, refs_pos. by destruct (Hrefs b) as [<- _].
Qed.

(** Adding an inode. *)
Lemma opened_insert live gone held denied s a y :
  opened live gone held denied s → inodes s !! a = None → live !! sector y = Some (data y) →
  (∀ b x, inodes s !! b = Some x → sector x ≠ sector y) →
  open_cnt y = 1 → deny_write_cnt y = 0 → removed y = false →
  opened live gone (a :: held) denied (with_inodes (<[a := y]> (inodes s)) (with_open (a :: open_inodes s) s)).
Proof.
  intros [H1 H2 H3 H4 H5 H5' H6 H7 H8] Ha Hlive Hnew E1 E2 E3.
  assert (refs a held = 0) as Hr.
  { pose proof (refs_nonneg a held). destruct (decide (0 < refs a held)) as [Hp|]; [|lia].
    apply refs_pos, H8 in Hp as [z Hz]. congruence. }
  assert (∀ b z, <[a := y]> (inodes s) !! b = Some z → b = a ∧ z = y ∨ b ≠ a ∧ inodes s !! b = Some z) as Hcase.
  { intros b z [[<- <-]|[? ?]]%lookup_insert_Some; auto. }
  split; simpl.
  - constructor; [|done]. rewrite H2 Ha. by intros [z [=]].
  - intros b. rewrite elem_of_cons H2. destruct (decide (b = a)) as [->|]; [rewrite lookup_insert_eq; split; [done|by left]|].
    rewrite lookup_insert_ne //. split; [by intros [?|?]|by right].
  - intros b z [[-> ->]|[_ Hz]]%Hcase; [done|by eapply H3].
  - intros b c z w [[-> ->]|[? Hz]]%Hcase [[-> ->]|[? Hw]]%Hcase; try done; intros E.
    + by destruct (Hnew _ _ Hw).
    + by destruct (Hnew _ _ Hz).
    + by eapply H4.
  - intros b z [[-> ->]|[? Hz]]%Hcase.
    + rewrite refs_cons_eq. pose proof (H5' a). pose proof (refs_nonneg a denied). lia.
    + rewrite refs_cons_ne //. by apply H5.
  - intros b. specialize (H5' b). rewrite refs_cons. case_decide; lia.
  - intros b z [[-> ->]|[? Hz]]%Hcase; [|by eapply H6]. rewrite E3. symmetry. apply bool_decide_eq_false.
    intros (c & w & Hw & Hs)%H7. by destruct (Hnew _ _ Hw Hs).
  - intros sec (b & z & Hz & Hsec)%H7. exists b, z. rewrite lookup_insert_ne; [done|]. intros <-. congruence.
  - intros b [->|Hb]%elem_of_cons; [by rewrite lookup_insert_eq|]. destruct (decide (b = a)) as [->|]; [by rewrite lookup_insert_eq|].
    rewrite lookup_insert_ne //. by apply H8.
Qed.

(** Removing an inode that nobody uses any more. *)
Lemma opened_delete live gone held denied s a x :
  opened live gone (a :: held) denied s → inodes s !! a = Some x → refs a held = 0 → refs a denied = 0 →
  ∀ live', (∀ sec, sec ≠ sector x → live' !! sec = live !! sec) →
  opened live' (gone ∖ {[sector x]}) held denied (with_inodes (base.delete a (inodes s)) (with_open (list_remove a (open_inodes s)) s)).
Proof.
  intros [H1 H2 H3 H4 H5 H5' H6 H7 H8] Hx Hr Hd live' Hlive.
  assert (∀ b z, base.delete a (inodes s) !! b = Some z → b ≠ a ∧ inodes s !! b = Some z ∧ sector z ≠ sector x) as Hcase.
  { intros b z [? Hz]%lookup_delete_Some. split; [done|]. split; [done|]. intros E. by assert (b = a) as <- by by eapply H4. }
  split; simpl.
  - by apply NoDup_filter.
  - intros b. unfold list_remove. rewrite list_elem_of_filter H2. destruct (decide (b = a)) as [->|].
    + rewrite lookup_delete_eq. split; [by intros [? _]|by intros [z [=]]].
    + rewrite lookup_delete_ne //. split; [by intros [_ ?]|done].
  - intros b z (? & Hz & ?)%Hcase. rewrite Hlive //. by eapply H3.
  - intros b c z w (? & Hz & ?)%Hcase (? & Hw & ?)%Hcase. by eapply H4.
  - intros b z (? & Hz & ?)%Hcase. specialize (H5 _ _ Hz). by rewrite refs_cons_ne in H5.
  - intros b. specialize (H5' b). rewrite refs_cons in H5'. case_decide; [subst; lia|lia].
  - intros b z (? & Hz & ?)%Hcase. rewrite (H6 _ _ Hz). apply bool_decide_ext.
    rewrite elem_of_difference elem_of_singleton. split; [done|by intros [? _]].
  - intros sec [(b & z & Hz & <-)%H7 Hne%not_elem_of_singleton]%elem_of_difference. exists b, z.
    rewrite lookup_delete_ne; [done|]. intros <-. congruence.
  - intros b Hb. destruct (decide (b = a)) as [->|]; [apply refs_pos in Hb; lia|].
    rewrite lookup_delete_ne //. apply H8. by right.
Qed.

(** * What changes *)

(** What an operation on the inode of a sector leaves as it was. *)
Record inode_step (sec : Z) (s s' : fs) : Prop := {
  step_capacity : capacity s' = capacity s;
  step_files : files s' = files s;
  step_dirs : dirs s' = dirs s;
  step_free_map_file : free_map_file s' = free_map_file s;
  step_plenty : plenty s → plenty s';
  step_others b y : inodes s !! b = Some y → sector y ≠ sec → inodes s' !! b = Some y;
  step_sector b y y' : inodes s !! b = Some y → inodes s' !! b = Some y' → sector y' = sector y;
}.

#[export] Instance inode_step_refl sec : Reflexive (inode_step sec).
Proof. split; congruence. Qed.
Lemma inode_step_same_l sec s1 s2 s3 : same_memory s1 s2 → inode_step sec s2 s3 → inode_step sec s1 s3.
Proof.
  intros [M1 M2 M3 M4 M5 M6 M7] [C Fi Di Fm P O Se]. split; try congruence; auto.
  - intros b y Hy. apply O. by rewrite M2.
  - intros b y y' Hy. apply (Se b). by rewrite M2.
Qed.
Lemma inode_step_same_r sec s1 s2 s3 : inode_step sec s1 s2 → same_memory s2 s3 → inode_step sec s1 s3.
Proof.
  intros [C Fi Di Fm P O Se] [M1 M2 M3 M4 M5 M6 M7]. split; try congruence; auto.
  - intros b y. rewrite M2. apply O.
  - intros b y y'. rewrite M2. apply Se.
Qed.

(** An inode that is closed in between may be replaced by another one. *)
Lemma inode_step_trans sec s1 s2 s3 : (∀ b, is_Some (inodes s1 !! b) → is_Some (inodes s2 !! b)) →
  inode_step sec s1 s2 → inode_step sec s2 s3 → inode_step sec s1 s3.
Proof.
  intros Hk [C Fi Di Fm P O Se] [C' Fi' Di' Fm' P' O' Se']. split; try congruence; auto.
  intros b y y' Hy Hy'. destruct (Hk b) as [z Hz]; [by exists y|]. rewrite (Se' _ _ _ Hz Hy'). by apply (Se b).
Qed.

Lemma same_step sec s s' : same_memory s s' → inode_step sec s s'.
Proof. intros []. split; try done; congruence. Qed.

Lemma later_step sec s s' : later s s' → inode_step sec s s'.
Proof. intros. by apply same_step, later_same. Qed.

Lemma update_step s a x y : inodes s !! a = Some x → sector y = sector x →
  inode_step (sector x) s (with_inodes (<[a := y]> (inodes s)) s).
Proof.
  intros Hx E. split; try done; simpl.
  - intros b z Hz Hs. rewrite lookup_insert_ne; [done|]. intros <-. congruence.
  - intros b z z' Hz [[<- <-]|[_ Hz']]%lookup_insert_Some; congruence.
Qed.

Lemma ready_step live live' sec s s' f a x :
  inode_step sec s s' → sec ≠ FREE_MAP_SECTOR → live' !! FREE_MAP_SECTOR = live !! FREE_MAP_SECTOR →
  free_map_ready live s f a x → free_map_ready live' s' f a x.
Proof.
  intros [C Fi Di Fm P O _] Hne Hl [R1 [pos R2] R3 R4 R5 R6 R7].
  split; [congruence|exists pos; congruence| |done|congruence|congruence|done]. apply O; [done|]. by rewrite R4.
Qed.

(** What [layout], [contents] and [synced] depend on. *)
Record same_disk (s s' : fs) : Prop := {
  same_disk_disk : disk s' = disk s;
  same_disk_capacity : capacity s' = capacity s;
  same_disk_map : free_map s' = free_map s;
}.

#[export] Instance same_disk_refl : Reflexive same_disk.
Proof. by split. Qed.
#[export] Instance same_disk_trans : Transitive same_disk.
Proof. intros s1 s2 s3 [] []. split; congruence. Qed.

Lemma later_same_disk s s' : later s s' → same_disk s s'.
Proof. by intros [k ->]. Qed.

Lemma layout_same live s s' : same_disk s s' → layout live s → layout live s'.
Proof. intros [E1 E2 E3] []. split; rewrite ?E1 ?E2 ?E3; done. Qed.
Lemma contents_same live s s' : same_disk s s' → contents live s' = contents live s.
Proof. intros [E _ _]. unfold contents. by rewrite E. Qed.
Lemma visible_same live s s' : same_disk s s' → visible live s' = visible live s.
Proof. intros E. unfold visible. by rewrite (contents_same _ _ _ E). Qed.
Lemma synced_same live s s' : same_disk s s' → synced live s → synced live s'.
Proof. intros E. unfold synced. rewrite (contents_same _ _ _ E). destruct E as [_ -> ->]. done. Qed.

(** * Opening *)

Lemma find_open_run sec l s : (∀ a, a ∈ l → is_Some (inodes s !! a)) →
  ∃ r, find_open sec l s = Ret r s ∧
    match r with
    | Some a => ∃ x, inodes s !! a = Some x ∧ sector x = sec
    | None => ∀ a x, a ∈ l → inodes s !! a = Some x → sector x ≠ sec
    end.
Proof.
  induction l as [|a l IH]; intros Hl; simpl.
  { exists NULL. split; [done|]. intros a x H. by apply not_elem_of_nil in H. }
  destruct (Hl a) as [x Hx]; [by left|]. rewrite (get_inode_run _ _ _ Hx). case_bool_decide as Hs.
  - exists (Some a). split; [done|]. by exists x.
  - destruct IH as (r & Hrun & Hr); [intros b Hb; apply Hl; by right|]. exists r. split; [done|].
    destruct r as [b|]; [done|]. intros b y [->|Hb]%elem_of_cons Hy; [congruence|by eapply Hr].
Qed.

Section opening.
Context (live : gmap Z inode_disk) (gone : gset Z) (held denied : list loc) (s : fs).
Context (Hop : opened live gone held denied s).

Lemma inode_reopen_run a x :
  inodes s !! a = Some x → Z.of_nat (length held) < 2 ^ 31 - 1 →
  ∃ s' y, inode_reopen (Some a) s = Ret (Some a) s' ∧ opened live gone (a :: held) denied s' ∧
    inode_step (sector x) s s' ∧ same_disk s s' ∧ inodes s' !! a = Some y ∧ sector y = sector x.
Proof using Hop.
  intros Hx Hn. destruct (op_cnt _ _ _ _ _ Hop _ _ Hx) as (C1 & C2 & C3). pose proof (refs_le a held).
  unfold inode_reopen. rewrite run_assoc (get_inode_run _ _ _ Hx) run_assoc int_run; [|lia].
  unfold set_open_cnt. rewrite run_assoc (get_inode_run _ _ _ Hx) (set_inode_run _ _ _ Hx).
  eexists _, _. split; [done|]. split; [|split; [by apply update_step|split; [done|split; [apply lookup_insert_eq|done]]]].
  eapply opened_update; [done|done|done|done|..]; simpl; rewrite ?refs_cons_eq; try lia; try done.
  - pose proof (op_denied _ _ _ _ _ Hop a). lia.
  - by eapply op_removed.
  - intros b Hb. by rewrite refs_cons_ne.
Qed.

Lemma inode_open_run sec d :
  capacity s <= 2 ^ 28 → inode_ok (capacity s) sec d → slice (512 * sec) 512 (disk s) = encode_inode d → live !! sec = Some d →
  Z.of_nat (length held) < 2 ^ 31 - 1 →
  ∃ p s', inode_open sec s = Ret p s' ∧ inode_step sec s s' ∧ same_disk s s' ∧
    match p with
    | Some a => opened live gone (a :: held) denied s' ∧ ∃ y, inodes s' !! a = Some y ∧ sector y = sec
    | None => opened live gone held denied s' ∧ ¬ plenty s
    end.
Proof using Hop.
  intros Hcap [O1 O2 O3 O4 O5] Henc Hd Hn. unfold inode_open. rewrite run_gets.
  destruct (find_open_run sec (open_inodes s) s) as (r & Hrun & Hr); [intros a Ha; by apply (op_list _ _ _ _ _ Hop)|].
  rewrite (M_bind_Ret _ _ _ _ _ Hrun). destruct r as [a|].
  { destruct Hr as (x & Hx & <-). destruct (inode_reopen_run a x Hx Hn) as (s' & y & Hrun' & Hop' & Hs & Hd' & Hy & E).
    exists (Some a), s'. split; [done|]. split; [done|]. split; [done|]. split; [done|]. by exists y. }
  unfold new_inode. rewrite run_assoc.
  destruct (malloc_ok_run s) as (ok & s1 & Hrun1 & Hl & Hok). rewrite (M_bind_Ret _ _ _ _ _ Hrun1). cbv beta. destruct ok.
  2: { exists NULL, s1. split; [done|]. split; [by apply later_step|]. split; [by apply later_same_disk|].
       split; [|by apply Hok]. destruct Hl as [k ->]. by apply (opened_same _ _ _ _ s). }
  assert (opened live gone held denied s1) as Hop1 by (destruct Hl as [k ->]; by apply (opened_same _ _ _ _ s)).
  assert (same_disk s s1) as Hsd by by apply later_same_disk.
  rewrite run_assoc run_gets. set (a := fresh (dom (inodes s1))).
  assert (inodes s1 !! a = None) as Ha by apply not_elem_of_dom, is_fresh.
  rewrite run_assoc run_modify run_ret. cbn [open_inodes with_inodes]. rewrite run_gets run_modify.
  rewrite disk_read_run; [|simpl; rewrite (same_disk_capacity _ _ Hsd); lia..]. cbn [disk with_inodes with_open].
  rewrite (same_disk_disk _ _ Hsd) Henc decode_encode //.
  rewrite (set_inode_run _ a _ (lookup_insert_eq _ _ _)). cbn [inodes with_inodes with_open]. rewrite insert_insert_eq.
  eexists (Some a), _. split; [done|]. split; [|split; [|split]].
  - eapply inode_step_same_l; [by apply later_same|]. split; try done; simpl.
    + intros b y Hy _. rewrite lookup_insert_ne; [done|]. intros <-. congruence.
    + intros b y y' Hy [[<- <-]|[_ ?]]%lookup_insert_Some; congruence.
  - etrans; [exact Hsd|]. done.
  - apply (opened_insert live gone held denied s1 a (Inode sec 1 false 0 d)); try done.
    intros b x Hx. simpl. eapply Hr; [|by destruct Hl as [k ->]].
    apply (op_list _ _ _ _ _ Hop). destruct Hl as [k ->]. by exists x.
  - eexists. split; [apply lookup_insert_eq|done].
Qed.

(** Marking an inode for removal. *)
Lemma inode_remove_run a x :
  inodes s !! a = Some x →
  ∃ s', inode_remove (Some a) s = Ret tt s' ∧ opened live ({[sector x]} ∪ gone) held denied s' ∧
    inode_step (sector x) s s' ∧ same_disk s s' ∧ ∃ y, inodes s' !! a = Some y ∧ sector y = sector x.
Proof using Hop.
  intros Hx. destruct (op_cnt _ _ _ _ _ Hop _ _ Hx) as (C1 & C2 & C3).
  unfold inode_remove. rewrite ASSERT_true //. unfold set_removed.
  rewrite (get_inode_run _ _ _ Hx). rewrite -(M_bind_ret_r (set_inode _ _) s) (set_inode_run _ _ _ Hx).
  eexists. split; [done|]. split; [|split; [by apply update_step|split; [done|eexists; split; [apply lookup_insert_eq|done]]]].
  eapply opened_update; [done|done|done|done|..]; simpl; try done.
  - apply (op_denied _ _ _ _ _ Hop).
  - symmetry. apply bool_decide_eq_true. apply elem_of_union_l. by apply elem_of_singleton.
  - intros sec Hne. rewrite elem_of_union elem_of_singleton. split; [by intros [?|?]|by right].
Qed.

Lemma inode_deny_write_run a x :
  inodes s !! a = Some x → refs a denied < refs a held → Z.of_nat (length held) < 2 ^ 31 - 1 →
  ∃ s', inode_deny_write (Some a) s = Ret tt s' ∧ opened live gone held (a :: denied) s' ∧
    inode_step (sector x) s s' ∧ same_disk s s'.
Proof using Hop.
  intros Hx Hlt Hn. destruct (op_cnt _ _ _ _ _ Hop _ _ Hx) as (C1 & C2 & C3). pose proof (refs_le a held).
  pose proof (refs_nonneg a denied).
  unfold inode_deny_write. rewrite (get_inode_run _ _ _ Hx) int_run; [|lia]. unfold set_deny_write_cnt.
  rewrite run_assoc (get_inode_run _ _ _ Hx) (set_inode_run _ _ _ Hx).
  set (y := Inode _ _ _ _ _). set (s' := with_inodes _ s).
  assert (inodes s' !! a = Some y) as Hy by apply lookup_insert_eq.
  rewrite (get_inode_run _ _ _ Hy). unfold ASSERT. rewrite bool_decide_true; [|simpl; lia].
  exists s'. split; [done|]. split; [|split; [by apply update_step|done]].
  eapply opened_update; [done|done|done|done|..]; simpl; rewrite ?refs_cons_eq; try lia; try done.
  - by eapply op_removed.
  - intros b Hb. by rewrite refs_cons_ne.
Qed.

Lemma inode_allow_write_run a x denied' :
  inodes s !! a = Some x → denied ≡ₚ a :: denied' → Z.of_nat (length held) < 2 ^ 31 - 1 →
  ∃ s', inode_allow_write (Some a) s = Ret tt s' ∧ opened live gone held denied' s' ∧
    inode_step (sector x) s s' ∧ same_disk s s'.
Proof using Hop.
  intros Hx Hden Hn. destruct (op_cnt _ _ _ _ _ Hop _ _ Hx) as (C1 & C2 & C3).
  assert (refs a denied = 1 + refs a denied') as Hr by by rewrite Hden refs_cons_eq.
  pose proof (refs_nonneg a denied'). pose proof (op_denied _ _ _ _ _ Hop a) as Hle.
  pose proof (refs_le a held).
  unfold inode_allow_write. rewrite (get_inode_run _ _ _ Hx) ASSERT_true; [|apply bool_decide_true; lia].
  rewrite ASSERT_true; [|apply bool_decide_true; lia]. rewrite int_run; [|lia]. unfold set_deny_write_cnt.
  rewrite (get_inode_run _ _ _ Hx). rewrite -(M_bind_ret_r (set_inode _ _) s) (set_inode_run _ _ _ Hx).
  eexists. split; [done|]. split; [|split; [by apply update_step|done]].
  eapply opened_update; [done|done|done|done|..]; simpl; try lia; try done.
  - by eapply op_removed.
  - intros b Hb. by rewrite Hden refs_cons_ne.
Qed.
End opening.

(** * Closing *)

Lemma layout_delete live s sec : layout live s → layout (base.delete sec live) s.
Proof.
  intros []. split; try done.
  - intros sec' d [_ ?]%lookup_delete_Some. eauto.
  - intros sec' d [_ ?]%lookup_delete_Some. eauto.
  - intros sec' d k [_ ?]%lookup_delete_Some. eauto.
  - intros sec1 d1 sec2 d2 k [_ ?]%lookup_delete_Some [_ ?]%lookup_delete_Some. eauto.
Qed.

Lemma contents_delete live s sec : contents (base.delete sec live) s = base.delete sec (contents live s).
Proof. unfold contents. apply fmap_delete. Qed.

Lemma visible_delete live s sec : visible (base.delete sec live) s = base.delete sec (visible live s).
Proof. unfold visible. rewrite contents_delete. apply delete_delete. Qed.

(** Giving the sectors of a removed inode back. *)
Lemma release_run live s f b y sec d :
  layout live s → free_map_ready live s f b y → live !! sec = Some d → sec ≠ FREE_MAP_SECTOR →
  ∃ s', (free_map_release sec 1;; n ← bytes_to_sectors (i_length d); free_map_release (i_start d) n) s = Ret tt s' ∧
    quiet (base.delete sec live) s s' ∧ (plenty s → synced (base.delete sec live) s').
Proof.
  intros H Hready Hd Hne. pose proof (lay_inode _ _ H _ _ Hd) as [O1 O2 O3 O4 O5]. pose proof (lay_cnt _ _ H) as Hcnt.
  pose proof (wf_start _ O2) as Hst. unfold in_u in Hst.
  assert (0 <= sectors_of d) as Hn by (unfold sectors_of; div_lia).
  set (live' := base.delete sec live). assert (layout live' s) as H' by by apply layout_delete.
  assert (free_map_ready live' s f b y) as Hready'.
  { destruct Hready. split; try done. unfold live'. by rewrite lookup_delete_ne. }
  assert (∀ sec' d' k, live' !! sec' = Some d' → owns sec' d' k → ¬ owns sec d k) as Hapart.
  { intros sec' d' k [Hne' Hd']%lookup_delete_Some K1 K2. apply Hne'. by eapply (lay_disjoint _ _ H). }
  destruct (free_map_release_run live' s f b y sec 1) as (s1 & Hrun1 & Hq1 & Hb1 & Hs1); [done|done|split_and!; lia| | |].
  { intros k Hk. eapply (lay_used _ _ H); [exact Hd|left; lia]. }
  { intros sec' d' k Hd' K1 Hk. eapply Hapart; [done..|left; lia]. }
  rewrite (M_bind_Ret _ _ _ _ _ Hrun1) bytes_to_sectors_run //. fold (sectors_of d).
  pose proof (quiet_memory _ _ _ Hq1) as Hm1. pose proof (lay_cnt _ _ (quiet_layout _ _ _ Hq1)) as Hcnt1.
  rewrite (same_capacity _ _ Hm1) in Hcnt1.
  destruct (free_map_release_run live' s1 f b y (i_start d) (sectors_of d)) as (s2 & Hrun2 & Hq2 & Hb2 & Hs2);
    [by apply Hq1|by eapply ready_same|split_and!; lia| | |].
  { intros k Hk. rewrite Hb1; [|lia]. rewrite decide_False; [by eapply (lay_used _ _ H); [exact Hd|right]|].
    intros Hk'. apply O5. by replace sec with k by lia. }
  { intros sec' d' k Hd' K1 Hk. eapply Hapart; [done..|by right]. }
  exists s2. split; [exact Hrun2|]. split; [by eapply quiet_trans|]. intros Hp. apply Hs2. by eapply same_plenty.
Qed.

Section closing.
Context (live : gmap Z inode_disk) (gone : gset Z) (held denied : list loc) (s : fs) (a : loc) (x : inode).
Context (H : layout live s) (Hop : opened live gone (a :: held) denied s) (Hx : inodes s !! a = Some x).
Context (Hn : Z.of_nat (length held) < 2 ^ 31 - 2) (Hden : refs a denied <= refs a held).

(** A reference that is not the last one. *)
Lemma inode_close_shared : a ∈ held →
  ∃ s', inode_close (Some a) s = Ret tt s' ∧ inode_step (sector x) s s' ∧ same_disk s s' ∧ opened live gone held denied s'.
Proof using All.
  intros Ha%refs_pos. destruct (op_cnt _ _ _ _ _ Hop _ _ Hx) as (C1 & C2 & C3). rewrite refs_cons_eq in C1.
  pose proof (refs_le a held). unfold inode_close. rewrite (get_inode_run _ _ _ Hx) int_run; [|lia].
  unfold set_open_cnt. rewrite run_assoc (get_inode_run _ _ _ Hx) (set_inode_run _ _ _ Hx) bool_decide_false; [|lia].
  eexists. split; [done|]. split; [by apply update_step|]. split; [done|].
  eapply opened_update; [done|done|done|done|..]; simpl; try done; try lia.
  - by eapply op_removed.
  - intros b Hb. by rewrite refs_cons_ne.
Qed.

(** The last reference. *)
Lemma inode_close_last : a ∉ held →
  (sector x ∈ gone → sector x ≠ FREE_MAP_SECTOR ∧ ∃ f b y, free_map_ready live s f b y) →
  ∃ s', inode_close (Some a) s = Ret tt s' ∧ inode_step (sector x) s s' ∧
    if bool_decide (sector x ∈ gone) then
      layout (base.delete (sector x) live) s' ∧ opened (base.delete (sector x) live) (gone ∖ {[sector x]}) held denied s' ∧
      visible (base.delete (sector x) live) s' = base.delete (sector x) (visible live s) ∧
      (plenty s → synced (base.delete (sector x) live) s')
    else same_disk s s' ∧ opened live gone held denied s'.
Proof using All.
  intros Ha Hgone. assert (refs a held = 0) as Hr.
  { pose proof (refs_nonneg a held). destruct (decide (0 < refs a held)) as [Hp%refs_pos|]; [done|lia]. }
  destruct (op_cnt _ _ _ _ _ Hop _ _ Hx) as (C1 & C2 & C3). rewrite refs_cons_eq Hr in C1.
  assert (refs a denied = 0) as Hd by (pose proof (refs_nonneg a denied); lia).
  unfold inode_close. rewrite (get_inode_run _ _ _ Hx) int_run; [|lia].
  unfold set_open_cnt. rewrite run_assoc (get_inode_run _ _ _ Hx) (set_inode_run _ _ _ Hx) bool_decide_true; [|lia].
  rewrite run_gets run_modify. set (y := Inode _ _ _ _ _). set (s1 := with_open _ _).
  assert (inodes s1 !! a = Some y) as Hy by apply lookup_insert_eq.
  rewrite (get_inode_run _ _ _ Hy). cbn [removed sector data y]. rewrite (op_removed _ _ _ _ _ Hop _ _ Hx).
  assert (∀ live', (∀ sec, sec ≠ sector x → live' !! sec = live !! sec) → ∀ s2,
    inodes s2 = inodes s1 → open_inodes s2 = open_inodes s1 →
    opened live' (gone ∖ {[sector x]}) held denied (with_inodes (base.delete a (inodes s2)) s2)) as Hdel.
  { intros live' Hlive s2 E1 E2. eapply opened_same; [..|by eapply opened_delete]; simpl.
    - rewrite E1. simpl. apply delete_insert_eq.
    - by rewrite E2. }
  assert (∀ s2, inodes s2 = inodes s1 → inode_step (sector x) s1 s2 →
    inode_step (sector x) s (with_inodes (base.delete a (inodes s2)) s2)) as Hstep.
  { intros s2 E [Z1 Z2 Z3 Z4 Z5 _ _]. split; try done; simpl; rewrite E.
    - intros b z Hz Hne. rewrite lookup_delete_ne; [|intros <-; congruence].
      simpl. rewrite lookup_insert_ne; [done|intros <-; congruence].
    - intros b z z' Hz [Hne Hz']%lookup_delete_Some. simpl in Hz'. rewrite lookup_insert_ne in Hz'; congruence. }
  assert (∀ s2, inodes s2 = inodes s1 → free_inode (Some a) s2 = Ret tt (with_inodes (base.delete a (inodes s2)) s2)) as Hfree.
  { intros s2 E. unfold free_inode. rewrite (get_inode_run s2 a y); [|by rewrite E]. done. }
  case_bool_decide as Hg.
  - destruct (Hgone Hg) as (Hne & f & b & z & Hready).
    assert (free_map_ready live s1 f b z) as Hready1.
    { destruct Hready as [R1 R2 R3 R4 R5 R6 R7]. split; try done. simpl. rewrite lookup_insert_ne; [done|]. intros <-. congruence. }
    assert (layout live s1) as H1 by by eapply (layout_same _ s).
    destruct (release_run live s1 f b z (sector x) (data x) H1 Hready1 (op_live _ _ _ _ _ Hop _ _ Hx) Hne)
      as (s2 & Hrun & [Hm Hl Hv] & Hs).
    rewrite (M_bind_Ret _ _ _ _ _ Hrun). rewrite (Hfree s2); [|apply Hm].
    eexists. split; [done|]. split; [apply Hstep; [apply Hm|by apply same_step]|].
    split; [by apply (layout_same _ s2)|]. split; [|split].
    + apply Hdel; [|apply Hm..]. intros sec Hsec. by rewrite lookup_delete_ne.
    + rewrite (visible_same _ s2) // Hv visible_delete. done.
    + intros Hp. apply (synced_same _ s2); [done|]. by apply Hs.
  - rewrite run_ret (Hfree s1) //. eexists. split; [done|]. split; [by apply Hstep|]. split; [done|].
    assert (gone ∖ {[sector x]} = gone) as <-; [|by apply Hdel].
    apply set_eq. intros sec. rewrite elem_of_difference elem_of_singleton. split; [by intros [? _]|].
    intros Hsec. split; [done|]. by intros ->.
Qed.
End closing.
