(* ===== verification/PintosFiles.v ===== *)
(** The invariant of the file system in memory and on the disk, and what the
    operations on inodes and files do to it. *)
From S2P Require Export PintosOpen.
Local Open Scope Z_scope.

(** * The references of the open files *)

Definition collect (g : file → option loc) (m : gmap loc file) : list loc := omap (λ p, g p.2) (map_to_list m).

Definition deny_of (x : file) : option loc := if f_deny x then f_inode x else None.

Definition file_refs (s : fs) : list loc := collect f_inode (files s).
Definition file_denies (s : fs) : list loc := collect deny_of (files s).

Section collect.
Context (g : file → option loc).
Implicit Types (m : gmap loc file).

Lemma collect_insert m f x : m !! f = None → collect g (<[f := x]> m) ≡ₚ option_list (g x) ++ collect g m.
Proof.
  intros Hf. unfold collect. rewrite map_to_list_insert //. simpl. by destruct (g x).
Qed.

Lemma collect_delete m f x : m !! f = Some x → collect g m ≡ₚ option_list (g x) ++ collect g (base.delete f m).
Proof.
  intros Hf. rewrite -{1}(insert_id _ _ _ Hf) -insert_delete_eq. apply collect_insert, lookup_delete_eq.
Qed.

Lemma collect_update m f x y : m !! f = Some x → g y = g x → collect g (<[f := y]> m) ≡ₚ collect g m.
Proof.
  intros Hf Hg. rewrite -insert_delete_eq collect_insert; [|apply lookup_delete_eq]. by rewrite Hg -(collect_delete m f x).
Qed.

Lemma elem_of_collect m a : a ∈ collect g m ↔ ∃ f x, m !! f = Some x ∧ g x = Some a.
Proof.
  unfold collect. rewrite list_elem_of_omap. split.
  - intros ([f x] & Hf%elem_of_map_to_list & Hg). by exists f, x.
  - intros (f & x & Hf & Hg). exists (f, x). split; [by apply elem_of_map_to_list|done].
Qed.

Lemma collect_length m : Z.of_nat (length (collect g m)) <= Z.of_nat (size m).
Proof.
  unfold collect. rewrite -length_map_to_list. apply inj_le. induction (map_to_list m) as [|p l IH]; [done|].
  cbn [omap list_omap length]. destruct (g p.2); cbn [length]; lia.
Qed.
End collect.

Lemma denies_le a m : refs a (collect deny_of m) <= refs a (collect f_inode m).
Proof.
  unfold collect. induction (map_to_list m) as [|[f x] l IH]; [done|]. cbn [omap list_omap snd]. unfold deny_of at 1.
  destruct (f_deny x), (f_inode x); rewrite ?refs_cons; try case_decide; lia.
Qed.

(** * The invariant

    [extra] has the references to inodes that functions in progress hold; only
    they refer to the inodes of the free map and of the root directory, apart
    from the file of the free map. *)
Record fs_inv (live : gmap Z inode_disk) (gone : gset Z) (extra : list loc) (s : fs) : Prop := {
  inv_layout : layout live s;
  inv_opened : opened live gone (extra ++ file_refs s) (file_denies s) s;
  inv_ready : ∃ f a x, free_map_ready live s f a x;
  inv_system sec : sec ∈ gone → sec ≠ FREE_MAP_SECTOR ∧ sec ≠ ROOT_DIR_SECTOR;
  inv_user f x : files s !! f = Some x → free_map_file s ≠ Some f →
    ∃ a y, f_inode x = Some a ∧ inodes s !! a = Some y ∧ sector y ≠ FREE_MAP_SECTOR ∧ sector y ≠ ROOT_DIR_SECTOR;
}.

(** There are few enough files and references to count them. *)
Definition few (extra : list loc) (s : fs) : Prop := Z.of_nat (length extra) + Z.of_nat (size (files s)) < 2 ^ 31 - 8.

Lemma few_refs extra s : few extra s → Z.of_nat (length (extra ++ file_refs s)) < 2 ^ 31 - 8.
Proof. unfold few, file_refs. rewrite length_app. pose proof (collect_length f_inode (files s)). lia. Qed.

Section same.
Context (live : gmap Z inode_disk) (gone : gset Z) (extra : list loc) (s s' : fs).
Context (Hs : same_memory s s') (H : fs_inv live gone extra s).

Lemma fs_inv_memory live' :
  layout live' s' → (∀ sec d, live !! sec = Some d → live' !! sec = Some d) → fs_inv live' gone extra s'.
Proof using All.
  intros Hl Hlive. pose proof Hs as [M1 M2 M3 M4 M5 M6 M7]. destruct H as [H1 H2 (f & a & x & H3) H4 H5].
  unfold file_refs, file_denies in *. split; rewrite /file_refs /file_denies ?M2 ?M4 ?M6; try done.
  - eapply opened_same; [done..|]. destruct H2. split; try done. eauto.
  - exists f, a, x. apply (ready_same _ s); [done|]. destruct H3. split; try done. eauto.
Qed.

Lemma fs_inv_quiet : quiet live s s' → fs_inv live gone extra s'.
Proof using All. intros Hq. by apply fs_inv_memory; [apply Hq|]. Qed.

Lemma fs_inv_same : same_disk s s' → fs_inv live gone extra s'.
Proof using All. intros Hd. apply fs_inv_memory; [|done]. eapply layout_same; [done|apply H]. Qed.

Lemma few_same : few extra s → few extra s'.
Proof using Hs. unfold few. by rewrite (same_files _ _ Hs). Qed.
End same.

Lemma fs_inv_later live gone extra s s' : later s s' → fs_inv live gone extra s → fs_inv live gone extra s'.
Proof. intros Hl H. apply (fs_inv_same _ _ _ s); [by apply later_same|done|by apply later_same_disk]. Qed.

Lemma fs_inv_perm live gone extra extra' s : extra ≡ₚ extra' → fs_inv live gone extra s → fs_inv live gone extra' s.
Proof. intros E []. split; try done. eapply opened_perm; [|done|done]. by rewrite E. Qed.

(** An operation on the inode of a sector other than that of the free map. *)
Lemma fs_inv_step live live' gone gone' extra extra' sec s s' :
  inode_step sec s s' → fs_inv live gone extra s → layout live' s' →
  opened live' gone' (extra' ++ file_refs s) (file_denies s) s' →
  sec ≠ FREE_MAP_SECTOR → live' !! FREE_MAP_SECTOR = live !! FREE_MAP_SECTOR →
  (∀ sec, sec ∈ gone' → sec ≠ FREE_MAP_SECTOR ∧ sec ≠ ROOT_DIR_SECTOR) → fs_inv live' gone' extra' s'.
Proof.
  intros Hs [H1 H2 (f & a & x & H3) H4 H5] Hl Hop Hne Hfm Hgone. pose proof Hs as [C Fi Di Fm P O Se].
  unfold file_refs, file_denies in *. split; rewrite /file_refs /file_denies ?Fi; try done.
  - exists f, a, x. by eapply ready_step.
  - intros g y. rewrite Fm. intros Hg Hne'. destruct (H5 g y Hg Hne') as (b & z & E & Hz & Hsec).
    destruct (op_held _ _ _ _ _ Hop b) as [z' Hz'].
    { apply elem_of_app. right. apply elem_of_collect. by exists g, y. }
    exists b, z'. split; [done|]. split; [done|]. by rewrite (Se _ _ _ Hz Hz').
Qed.

(** * Inodes *)

Section inodes.
Context (live : gmap Z inode_disk) (gone : gset Z) (extra : list loc) (s : fs).
Context (H : fs_inv live gone extra s) (Hfew : few extra s).

Lemma inv_inode_open sec d : live !! sec = Some d → sec ≠ FREE_MAP_SECTOR →
  ∃ p s', inode_open sec s = Ret p s' ∧ inode_step sec s s' ∧ same_disk s s' ∧
    match p with
    | Some a => fs_inv live gone (a :: extra) s' ∧ ∃ y, inodes s' !! a = Some y ∧ sector y = sec
    | None => fs_inv live gone extra s' ∧ ¬ plenty s
    end.
Proof using All.
  intros Hd Hne. pose proof (few_refs _ _ Hfew).
  destruct (inode_open_run _ _ _ _ _ (inv_opened _ _ _ _ H) sec d) as (p & s' & Hrun & Hs & Hd' & Hp);
    [apply H|by apply (lay_inode _ _ (inv_layout _ _ _ _ H))|by apply (lay_disk _ _ (inv_layout _ _ _ _ H))|done|lia|].
  assert (layout live s') as Hl by (eapply layout_same; [done|apply H]).
  exists p, s'. split; [done|]. split; [done|]. split; [done|].
  destruct p as [a|]; destruct Hp as [Hop Hp]; (split; [|done]); eapply fs_inv_step; try done; by apply H.
Qed.

Lemma inv_inode_reopen a x : inodes s !! a = Some x → sector x ≠ FREE_MAP_SECTOR →
  ∃ s' y, inode_reopen (Some a) s = Ret (Some a) s' ∧ inode_step (sector x) s s' ∧ same_disk s s' ∧
    fs_inv live gone (a :: extra) s' ∧ inodes s' !! a = Some y ∧ sector y = sector x.
Proof using All.
  intros Hx Hne. pose proof (few_refs _ _ Hfew).
  destruct (inode_reopen_run _ _ _ _ _ (inv_opened _ _ _ _ H) a x Hx) as (s' & y & Hrun & Hop & Hs & Hd & Hy & E); [lia|].
  exists s', y. split; [done|]. split; [done|]. split; [done|]. split; [|done].
  eapply fs_inv_step; try done; [eapply layout_same; [done|apply H]|apply H].
Qed.

Lemma inv_inode_remove a x : inodes s !! a = Some x → sector x ≠ FREE_MAP_SECTOR → sector x ≠ ROOT_DIR_SECTOR →
  ∃ s', inode_remove (Some a) s = Ret tt s' ∧ inode_step (sector x) s s' ∧ same_disk s s' ∧
    fs_inv live ({[sector x]} ∪ gone) extra s' ∧ ∃ y, inodes s' !! a = Some y ∧ sector y = sector x.
Proof using All.
  intros Hx Hne Hne'.
  destruct (inode_remove_run _ _ _ _ _ (inv_opened _ _ _ _ H) a x Hx) as (s' & Hrun & Hop & Hs & Hd & Hy).
  exists s'. split; [done|]. split; [done|]. split; [done|]. split; [|done].
  eapply fs_inv_step; try done; [eapply layout_same; [done|apply H]|].
  intros sec [->%elem_of_singleton|Hsec]%elem_of_union; [done|by apply H].
Qed.
End inodes.

(** What closing the inode of a sector does: the last reference to a removed inode
    gives its sectors back. *)
Definition close_effect (last : bool) (sec : Z) (live : gmap Z inode_disk) (gone : gset Z) (s : fs)
    (live' : gmap Z inode_disk) (gone' : gset Z) (s' : fs) : Prop :=
  if last && bool_decide (sec ∈ gone) then
    live' = base.delete sec live ∧ gone' = gone ∖ {[sec]} ∧
    visible live' s' = base.delete sec (visible live s) ∧ (plenty s → synced live' s')
  else live' = live ∧ gone' = gone ∧ same_disk s s'.

Lemma inv_inode_close live gone extra s a x :
  fs_inv live gone (a :: extra) s → few extra s → inodes s !! a = Some x → sector x ≠ FREE_MAP_SECTOR →
  ∃ s' live' gone', inode_close (Some a) s = Ret tt s' ∧ inode_step (sector x) s s' ∧ fs_inv live' gone' extra s' ∧
    close_effect (bool_decide (a ∉ extra ++ file_refs s)) (sector x) live gone s live' gone' s'.
Proof.
  intros H Hfew Hx Hne. pose proof H as [H1 H2 H3 H4 H5]. pose proof (few_refs _ _ Hfew) as Hn. simpl in H2.
  assert (refs a (file_denies s) <= refs a (extra ++ file_refs s)) as Hden.
  { unfold refs. rewrite filter_app length_app. pose proof (denies_le a (files s)) as Hle. unfold refs, file_denies, file_refs in *. lia. }
  unfold close_effect. case_bool_decide as Hlast; simpl.
  - destruct (inode_close_last _ _ _ _ _ _ _ H1 H2 Hx ltac:(lia) Hden Hlast) as (s' & Hrun & Hs & Hcase).
    { intros Hg. by split. }
    case_bool_decide as Hg.
    + destruct Hcase as (C1 & C2 & C3 & C4). eexists s', _, _. split; [done|]. split; [done|]. split; [|done].
      eapply fs_inv_step; try done; [by rewrite lookup_delete_ne|]. intros sec [Hsec _]%elem_of_difference. by apply H4.
    + destruct Hcase as [C1 C2]. exists s', live, gone. split; [done|]. split; [done|]. split; [|done].
      eapply fs_inv_step; try done. by eapply layout_same.
  - destruct (inode_close_shared _ _ _ _ _ _ _ H1 H2 Hx ltac:(lia) Hden) as (s' & Hrun & Hs & Hd & Hop).
    { done. }
    exists s', live, gone. split; [done|]. split; [done|]. split; [|done].
    eapply fs_inv_step; try done. by eapply layout_same.
Qed.

(** * Contents *)

(** How many bytes there are to transfer. *)
Definition avail (size offset : Z) (c : bytes) : Z := Z.max 0 (Z.min size (size_of c - offset)).

Section data.
Context (live : gmap Z inode_disk) (gone : gset Z) (extra : list loc) (s : fs) (a : loc) (x : inode).
Context (H : fs_inv live gone extra s) (Hx : inodes s !! a = Some x) (Hne : sector x ≠ FREE_MAP_SECTOR).
Context (buffer : bytes) (size offset : Z) (Hr : range_ok size offset) (Hb : size <= size_of buffer).

Lemma inv_on_disk : on_disk s (data x).
Proof using H Hx. eapply layout_on_disk; [apply H|]. eapply op_live; [apply H|done]. Qed.

Lemma inv_content : ∃ c, visible live s !! sector x = Some c ∧ c = content (data x) (disk s) ∧ size_of c = i_length (data x).
Proof using H Hx Hne.
  exists (content (data x) (disk s)). split; [|split; [done|apply size_of_content, inv_on_disk]].
  unfold visible. rewrite lookup_delete_ne //. unfold contents. rewrite lookup_fmap.
  by rewrite (op_live _ _ _ _ _ (inv_opened _ _ _ _ H) _ _ Hx).
Qed.

Lemma inv_inode_read_at : ∃ c n s',
  visible live s !! sector x = Some c ∧
  inode_read_at (Some a) buffer size offset s = Ret (n, splice 0 (slice offset n c) buffer) s' ∧ later s s' ∧
  0 <= n <= avail size offset c ∧ (n = avail size offset c ∨ ¬ plenty s).
Proof using All.
  destruct inv_content as (c & Hc & -> & Hsize).
  destruct (inode_read_at_run a x s buffer size offset) as (n & s' & Hrun & Hl & Hn & Hp); [done|apply inv_on_disk|done..|].
  exists (content (data x) (disk s)), n, s'. unfold avail. rewrite Hsize. done.
Qed.

Lemma inv_inode_write_at : Forall (in_u 8) buffer → ∃ c n s',
  visible live s !! sector x = Some c ∧
  inode_write_at (Some a) buffer size offset s = Ret n s' ∧ same_memory s s' ∧ fs_inv live gone extra s' ∧
  visible live s' = <[sector x := splice offset (slice 0 n buffer) c]> (visible live s) ∧
  (synced live s → synced live s') ∧
  0 <= n <= avail size offset c ∧
  (if bool_decide (a ∈ file_denies s) then n = 0 else n = avail size offset c ∨ ¬ plenty s) ∧
  (size < 512 → n = 0 ∨ n = avail size offset c).
Proof using All.
  intros Hbytes. destruct inv_content as (c & Hc & E & Hsize).
  destruct (op_cnt _ _ _ _ _ (inv_opened _ _ _ _ H) _ _ Hx) as (_ & _ & Hden).
  destruct (decide (a ∈ file_denies s)) as [Hd|Hd].
  { rewrite bool_decide_true //. apply refs_pos in Hd. exists c, 0, s. split; [done|].
    split; [apply (inode_write_at_denied a x s buffer size offset Hx); lia|].
    split; [done|]. split; [done|]. split; [by rewrite slice_nil splice_nil insert_id|]. split; [done|]. unfold avail. lia. }
  rewrite bool_decide_false //.
  destruct (inode_write_at_run a x s buffer size offset) as (n & s' & Hrun & Hl & Hn & Hp & Hat); [done|apply inv_on_disk|done|done| |].
  { rewrite Hden. pose proof (refs_nonneg a (file_denies s)). destruct (decide (0 < refs a (file_denies s))) as [?%refs_pos|]; [done|lia]. }
  unfold available in *. rewrite -Hsize in Hn Hp Hat. destruct Hr as (R1 & R2 & R3). pose proof (size_of_nonneg buffer).
  assert (Forall (in_u 8) (slice 0 n buffer)) as Hs by by apply Forall_slice.
  assert (n = 0 ∨ offset + size_of (slice 0 n buffer) <= i_length (data x)) as Hofs.
  { destruct (decide (n = 0)); [by left|right]. rewrite size_of_slice; lia. }
  destruct (decide (n = 0)) as [->|Hn0].
  - exists c, 0, s'. rewrite slice_nil splice_nil in Hl. assert (with_disk (disk s) s = s) as E' by by destruct s. rewrite E' in Hl.
    split; [done|]. split; [done|]. split; [by apply later_same|]. split; [by eapply fs_inv_later|].
    split; [rewrite slice_nil splice_nil insert_id //; by apply visible_same, later_same_disk|].
    split; [apply synced_same; by apply later_same_disk|]. done.
  - destruct Hofs as [?|Hle]; [done|].
    destruct (layout_write live s (sector x) (data x) offset (slice 0 n buffer)) as (W1 & W2 & W3);
      [apply H|eapply op_live; [apply H|done]|done|done|done|].
    exists c, n, s'. set (s1 := with_disk _ s) in *.
    assert (visible live s1 = <[sector x := splice offset (slice 0 n buffer) c]> (visible live s)) as Hv.
    { unfold visible. rewrite W3 -E. by rewrite delete_insert_ne. }
    split; [done|]. split; [done|]. split; [etrans; [apply with_disk_same|by apply later_same]|]. split; [|split; [|split; [|done]]].
    + eapply fs_inv_later; [done|]. by apply (fs_inv_memory live gone extra s s1 (with_disk_same _ s) H live).
    + rewrite (visible_same _ s1); [done|by apply later_same_disk].
    + intros Hsync. apply (synced_same _ s1); [by apply later_same_disk|]. unfold synced. rewrite W3 lookup_insert_ne //.
Qed.
End data.

(** * Files *)

(** What an operation on a file leaves as it was, when the files are [m] after it. *)
Record file_step (m : gmap loc file) (s s' : fs) : Prop := {
  fstep_files : files s' = m;
  fstep_dirs : dirs s' = dirs s;
  fstep_capacity : capacity s' = capacity s;
  fstep_free_map_file : free_map_file s' = free_map_file s;
  fstep_plenty : plenty s → plenty s';
  fstep_sector b y y' : inodes s !! b = Some y → inodes s' !! b = Some y' → sector y' = sector y;
}.

Lemma inode_file_step sec s s' : inode_step sec s s' → file_step (files s) s s'.
Proof. by intros []. Qed.
Lemma same_file_step s s' : same_memory s s' → file_step (files s) s s'.
Proof. intros []. split; try done; congruence. Qed.
Lemma with_files_step m s : file_step m s (with_files m s).
Proof. split; try done. simpl. congruence. Qed.
Lemma file_step_same_r m s1 s2 s3 : file_step m s1 s2 → same_memory s2 s3 → file_step m s1 s3.
Proof.
  intros [F1 F2 F3 F4 F5 F6] [M1 M2 M3 M4 M5 M6 M7]. split; try congruence; auto.
  intros b y y'. rewrite M2. apply F6.
Qed.
Lemma file_step_same_l m s1 s2 s3 : same_memory s1 s2 → file_step m s2 s3 → file_step m s1 s3.
Proof.
  intros [M1 M2 M3 M4 M5 M6 M7] [F1 F2 F3 F4 F5 F6]. split; try congruence; auto.
  intros b y y' Hy. apply (F6 b). by rewrite M2.
Qed.
Lemma file_step_with_r m m' s1 s2 : file_step m s1 s2 → file_step m' s1 (with_files m' s2).
Proof. by intros []. Qed.

Lemma with_files_layout live m s : layout live s → layout live (with_files m s).
Proof. by apply layout_same. Qed.

Lemma set_file_run {A} f x y s (k : unit → F A) : files s !! f = Some x →
  (set_file (Some f) y ≫= k) s = k tt (with_files (<[f := y]> (files s)) s).
Proof. intros Hf. unfold set_file. rewrite run_assoc (get_file_run _ _ _ _ Hf). run. done. Qed.

(** Building the invariant after a step on files. *)
Lemma fs_inv_build live live' gone gone' extra extra' m s s' :
  fs_inv live gone extra s → layout live' s' → file_step m s s' →
  opened live' gone' (extra' ++ collect f_inode m) (collect deny_of m) s' →
  (∀ sec, sec ∈ gone' → sec ≠ FREE_MAP_SECTOR ∧ sec ≠ ROOT_DIR_SECTOR) →
  live' !! FREE_MAP_SECTOR = live !! FREE_MAP_SECTOR →
  (∀ f, free_map_file s = Some f → m !! f = files s !! f) →
  (∀ b y, inodes s !! b = Some y → sector y = FREE_MAP_SECTOR → inodes s' !! b = Some y) →
  (∀ f x, m !! f = Some x → free_map_file s ≠ Some f → files s !! f = Some x ∨
     ∃ a y, f_inode x = Some a ∧ inodes s' !! a = Some y ∧ sector y ≠ FREE_MAP_SECTOR ∧ sector y ≠ ROOT_DIR_SECTOR) →
  fs_inv live' gone' extra' s'.
Proof.
  intros [H1 H2 (f & a & x & H3) H4 H5] Hl [F1 F2 F3 F4 F5 F6] Hop Hgone Hlive Hfm Hin Huser.
  split; rewrite /file_refs /file_denies ?F1; try done.
  - destruct H3 as [R1 [pos R2] R3 R4 R5 R6 R7]. exists f, a, x. split; try done; try congruence.
    + exists pos. rewrite F1. by rewrite Hfm.
    + by apply Hin.
  - intros g y Hg Hne. rewrite F4 in Hne. destruct (Huser g y Hg Hne) as [Hold|Hnew]; [|done].
    destruct (H5 g y Hold Hne) as (b & z & E & Hz & Hsec).
    destruct (op_held _ _ _ _ _ Hop b) as [z' Hz'].
    { apply elem_of_app. right. apply elem_of_collect. by exists g, y. }
    exists b, z'. split; [done|]. split; [done|]. by rewrite (F6 _ _ _ Hz Hz').
Qed.

Lemma fs_inv_intro live gone extra extra' m s s' :
  fs_inv live gone extra s → layout live s' → file_step m s s' →
  opened live gone (extra' ++ collect f_inode m) (collect deny_of m) s' →
  (∀ f, free_map_file s = Some f → m !! f = files s !! f) →
  (∀ b y, inodes s !! b = Some y → sector y = FREE_MAP_SECTOR → inodes s' !! b = Some y) →
  (∀ f x, m !! f = Some x → free_map_file s ≠ Some f → files s !! f = Some x ∨
     ∃ a y, f_inode x = Some a ∧ inodes s' !! a = Some y ∧ sector y ≠ FREE_MAP_SECTOR ∧ sector y ≠ ROOT_DIR_SECTOR) →
  fs_inv live gone extra' s'.
Proof. intros H ????? ?. eapply fs_inv_build; try done. apply H. Qed.

Section file.
Context (live : gmap Z inode_disk) (gone : gset Z) (extra : list loc) (s : fs) (f a : loc) (pos : Z) (deny : bool).
Context (H : fs_inv live gone extra s) (Hf : files s !! f = Some (File (Some a) pos deny)) (Hu : free_map_file s ≠ Some f).

Lemma file_inode : ∃ y, inodes s !! a = Some y ∧ sector y ≠ FREE_MAP_SECTOR ∧ sector y ≠ ROOT_DIR_SECTOR.
Proof using All. destruct (inv_user _ _ _ _ H f _ Hf Hu) as (b & y & [=<-] & Hy). by exists y. Qed.

(** Moving the position. *)
Lemma inv_set_pos n s' : same_memory s s' → fs_inv live gone extra s' →
  ∃ s'', set_pos (Some f) n s' = Ret tt s'' ∧ same_disk s' s'' ∧ fs_inv live gone extra s'' ∧
    file_step (<[f := File (Some a) n deny]> (files s)) s s''.
Proof using All.
  intros Hs H'. assert (files s' !! f = Some (File (Some a) pos deny)) as Hf' by by rewrite (same_files _ _ Hs).
  unfold set_pos. rewrite (get_file_run _ _ _ _ Hf'). rewrite -(M_bind_ret_r (set_file _ _) s') (set_file_run _ _ _ _ _ Hf').
  cbn [f_inode f_deny]. eexists. split; [done|]. split; [done|].
  assert (file_step (<[f := File (Some a) n deny]> (files s)) s (with_files (<[f:=File (Some a) n deny]> (files s')) s')) as Hstep.
  { rewrite (same_files _ _ Hs). eapply file_step_same_l; [done|]. apply with_files_step. }
  split; [|done]. eapply (fs_inv_intro _ _ extra); [exact H'|apply with_files_layout, H'|by apply with_files_step| | |done|].
  - eapply opened_perm; [..|apply (opened_same _ _ _ _ s'); [done..|apply H']].
    + unfold file_refs. by rewrite (collect_update _ _ _ _ _ Hf').
    + unfold file_denies. by rewrite (collect_update _ _ _ _ _ Hf').
  - intros g Hg. rewrite (same_free_map_file _ _ Hs) in Hg. rewrite lookup_insert_ne //. congruence.
  - intros g y [[<- <-]|[? Hy]]%lookup_insert_Some Hg; [right|by left].
    by apply (inv_user _ _ _ _ H' f _ Hf').
Qed.

Lemma inv_file_read buffer size : range_ok size pos → size <= size_of buffer →
  ∃ c n s' y, inodes s !! a = Some y ∧ visible live s !! sector y = Some c ∧
    file_read (Some f) buffer size s = Ret (n, splice 0 (slice pos n c) buffer) s' ∧
    0 <= n <= avail size pos c ∧ (n = avail size pos c ∨ ¬ plenty s) ∧
    same_disk s s' ∧ fs_inv live gone extra s' ∧ file_step (<[f := File (Some a) (pos + n) deny]> (files s)) s s'.
Proof using All.
  intros Hr Hb. destruct file_inode as (y & Hy & Hn0 & Hn1).
  destruct (inv_inode_read_at _ _ _ _ _ _ H Hy Hn0 buffer size pos Hr Hb) as (c & n & s1 & Hc & Hrun & Hl & Hn & Hp).
  destruct (inv_set_pos (pos + n) s1) as (s2 & Hrun2 & Hd2 & H2 & Hstep); [by apply later_same|by eapply fs_inv_later|].
  exists c, n, s2, y. split; [done|]. split; [done|]. split; [|split; [done|split; [done|split; [|done]]]].
  - unfold file_read. rewrite (get_file_run _ _ _ _ Hf) (M_bind_Ret _ _ _ _ _ Hrun). cbn [f_pos].
    destruct Hr as (R1 & R2 & R3). rewrite int_run; [|unfold avail in Hn; lia]. by rewrite (M_bind_Ret _ _ _ _ _ Hrun2).
  - etrans; [by apply later_same_disk|done].
Qed.

Lemma inv_file_write buffer size : range_ok size pos → size <= size_of buffer → Forall (in_u 8) buffer →
  ∃ c n s' y, inodes s !! a = Some y ∧ visible live s !! sector y = Some c ∧
    file_write (Some f) buffer size s = Ret n s' ∧
    0 <= n <= avail size pos c ∧
    (if bool_decide (a ∈ file_denies s) then n = 0 else n = avail size pos c ∨ ¬ plenty s) ∧
    visible live s' = <[sector y := splice pos (slice 0 n buffer) c]> (visible live s) ∧
    (synced live s → synced live s') ∧
    fs_inv live gone extra s' ∧ file_step (<[f := File (Some a) (pos + n) deny]> (files s)) s s'.
Proof using All.
  intros Hr Hb Hbytes. destruct file_inode as (y & Hy & Hn0 & Hn1).
  destruct (inv_inode_write_at _ _ _ _ _ _ H Hy Hn0 buffer size pos Hr Hb Hbytes)
    as (c & n & s1 & Hc & Hrun & Hm & H1 & Hv & Hsync & Hn & Hp & _).
  destruct (inv_set_pos (pos + n) s1 Hm H1) as (s2 & Hrun2 & Hd2 & H2 & Hstep).
  exists c, n, s2, y. split; [done|]. split; [done|]. split; [|split; [done|split; [done|split; [|split; [|done]]]]].
  - unfold file_write. rewrite (get_file_run _ _ _ _ Hf) (M_bind_Ret _ _ _ _ _ Hrun). cbn [f_pos].
    destruct Hr as (R1 & R2 & R3). rewrite int_run; [|unfold avail in Hn; lia]. by rewrite (M_bind_Ret _ _ _ _ _ Hrun2).
  - by rewrite (visible_same _ s1).
  - intros Hsy. apply (synced_same _ s1); [done|]. by apply Hsync.
Qed.

Lemma inv_file_seek n : 0 <= n →
  ∃ s', file_seek (Some f) n s = Ret tt s' ∧ same_disk s s' ∧ fs_inv live gone extra s' ∧
    file_step (<[f := File (Some a) n deny]> (files s)) s s'.
Proof using All.
  intros Hn. unfold file_seek. rewrite ASSERT_true // ASSERT_true; [|apply bool_decide_true; lia]. by apply inv_set_pos.
Qed.

Lemma inv_file_tell : file_tell (Some f) s = Ret pos s.
Proof using All. unfold file_tell. rewrite ASSERT_true //. by rewrite (get_file_run _ _ _ _ Hf). Qed.

Lemma inv_file_length : ∃ c y, inodes s !! a = Some y ∧ visible live s !! sector y = Some c ∧
  file_length (Some f) s = Ret (size_of c) s.
Proof using All.
  destruct file_inode as (y & Hy & Hn0 & Hn1). destruct (inv_content _ _ _ _ _ _ H Hy Hn0) as (c & Hc & _ & Hsize).
  exists c, y. split; [done|]. split; [done|]. unfold file_length. rewrite ASSERT_true // (get_file_run _ _ _ _ Hf).
  unfold inode_length. rewrite (get_inode_run _ _ _ Hy) Hsize. done.
Qed.

(** The denials, when [f] does not deny writes or no longer does. *)
Lemma denies_split : file_denies s ≡ₚ (if deny then [a] else []) ++ collect deny_of (base.delete f (files s)).
Proof using Hf. unfold file_denies. rewrite (collect_delete _ _ _ _ Hf). by destruct deny. Qed.
Lemma refs_split : file_refs s ≡ₚ a :: collect f_inode (base.delete f (files s)).
Proof using Hf. unfold file_refs. by rewrite (collect_delete _ _ _ _ Hf). Qed.

Context (Hfew : few extra s).

Lemma held_bounds : 0 <= refs a (collect deny_of (base.delete f (files s))) <= refs a (collect f_inode (base.delete f (files s))) ∧
  Z.of_nat (length (extra ++ file_refs s)) < 2 ^ 31 - 8 ∧
  refs a (extra ++ file_refs s) = 1 + refs a extra + refs a (collect f_inode (base.delete f (files s))).
Proof using All.
  split; [split; [apply refs_nonneg|apply denies_le]|]. split; [by apply few_refs|].
  rewrite refs_split. unfold refs. rewrite filter_app filter_cons decide_True // length_app /=. lia.
Qed.

(** Setting the flag of the file, and then changing the count of its inode. *)
Lemma inv_change_deny (b : bool) (op : F unit) : (∀ (s1 : fs) (y : inode),
    inodes s1 !! a = Some y → opened live gone (extra ++ file_refs s) (file_denies s) s1 →
    ∃ s2, op s1 = Ret tt s2 ∧
      opened live gone (extra ++ file_refs s) ((if b then [a] else []) ++ collect deny_of (base.delete f (files s))) s2 ∧
      inode_step (sector y) s1 s2 ∧ same_disk s1 s2) →
  ∃ s', (set_deny (Some f) b;; op) s = Ret tt s' ∧ same_disk s s' ∧ fs_inv live gone extra s' ∧
    file_step (<[f := File (Some a) pos b]> (files s)) s s'.
Proof using All.
  intros Hop. destruct file_inode as (y & Hy & Hn0 & Hn1).
  set (s1 := with_files (<[f := File (Some a) pos b]> (files s)) s).
  destruct (Hop s1 y) as (s2 & Hrun & Hop2 & Hs & Hd); [done|eapply opened_same; [..|apply H]; done|].
  exists s2. split; [|split; [by transitivity s1|]].
  { unfold set_deny. rewrite run_assoc (get_file_run _ _ _ _ Hf) (set_file_run _ _ _ _ _ Hf). exact Hrun. }
  assert (file_step (<[f := File (Some a) pos b]> (files s)) s s2) as Hstep.
  { destruct Hs as [C Fi Di Fm P O Se]. split; try done. }
  split; [|done]. eapply (fs_inv_intro _ _ extra); [exact H|by eapply (layout_same _ s1); [done|apply with_files_layout, H]|done| | | |].
  - eapply opened_perm; [| |exact Hop2].
    + unfold file_refs. by rewrite (collect_update _ _ _ _ _ Hf).
    + rewrite -insert_delete_eq collect_insert; [|apply lookup_delete_eq]. by destruct b.
  - intros g Hg. rewrite lookup_insert_ne //. congruence.
  - intros c z Hz Hsec. apply Hs; [done|]. congruence.
  - intros g x [[<- <-]|[? Hx]]%lookup_insert_Some Hg; [right|by left]. exists a.
    destruct (op_held _ _ _ _ _ Hop2 a) as [y' Hy']; [apply elem_of_app; right; apply elem_of_collect; by exists f, (File (Some a) pos deny)|].
    exists y'. split; [done|]. split; [done|]. by rewrite (step_sector _ _ _ Hs _ _ _ Hy Hy').
Qed.

Lemma inv_file_deny_write :
  ∃ s', file_deny_write (Some f) s = Ret tt s' ∧ same_disk s s' ∧ fs_inv live gone extra s' ∧
    file_step (<[f := File (Some a) pos true]> (files s)) s s'.
Proof using All.
  destruct held_bounds as (B1 & B2 & B3). pose proof denies_split as Hden.
  unfold file_deny_write. rewrite ASSERT_true // (get_file_run _ _ _ _ Hf). cbn [f_deny f_inode].
  destruct (decide (deny = true)) as [E|E%not_true_is_false]; rewrite E in Hden |- *.
  - exists s. split; [done|]. split; [done|]. split; [done|]. rewrite insert_id -?E //. by apply same_file_step.
  - apply inv_change_deny. intros s1 y Hy Hop.
    destruct (inode_deny_write_run _ _ _ _ _ Hop a y Hy) as (s2 & Hrun & Hop2 & Hs & Hd).
    { rewrite Hden. simpl. pose proof (refs_nonneg a extra). lia. }
    { lia. }
    exists s2. split; [done|]. split; [|done]. by eapply opened_perm; [done| |exact Hop2]; rewrite Hden.
Qed.

Lemma inv_file_allow_write :
  ∃ s', file_allow_write (Some f) s = Ret tt s' ∧ same_disk s s' ∧ fs_inv live gone extra s' ∧
    file_step (<[f := File (Some a) pos false]> (files s)) s s'.
Proof using All.
  destruct held_bounds as (B1 & B2 & B3). pose proof denies_split as Hden.
  unfold file_allow_write. rewrite ASSERT_true // (get_file_run _ _ _ _ Hf). cbn [f_deny f_inode].
  destruct (decide (deny = true)) as [E|E%not_true_is_false]; rewrite E in Hden |- *.
  - apply inv_change_deny. intros s1 y Hy Hop.
    destruct (inode_allow_write_run _ _ _ _ _ Hop a y _ Hy Hden) as (s2 & Hrun & Hop2 & Hs & Hd); [lia|].
    by exists s2.
  - exists s. split; [done|]. split; [done|]. split; [done|]. rewrite insert_id -?E //. by apply same_file_step.
Qed.
End file.

(** * Opening and closing files *)

Lemma new_file_run s x : ∃ s1, later s s1 ∧
  ((∃ f, new_file x s = Ret (Some f) (with_files (<[f := x]> (files s1)) s1) ∧ files s1 !! f = None) ∨
   (new_file x s = Ret NULL s1 ∧ ¬ plenty s)).
Proof.
  unfold new_file. destruct (malloc_ok_run s) as (ok & s1 & Hrun & Hl & Hok). exists s1. split; [done|].
  rewrite (M_bind_Ret _ _ _ _ _ Hrun). cbv beta. destruct ok; [left|right; by split; [|apply Hok]].
  rewrite run_gets run_modify. eexists. split; [done|]. apply not_elem_of_dom, is_fresh.
Qed.

(** A null inode is not opened. *)
Lemma file_open_null s : ∃ s', file_open NULL s = Ret NULL s' ∧ same_memory s s' ∧ same_disk s s'.
Proof.
  unfold file_open. destruct (new_file_run s (File NULL 0 false)) as (s1 & Hl & [(f & Hrun & Hf)|[Hrun Hp]]);
    rewrite (M_bind_Ret _ _ _ _ _ Hrun); cbv beta; rewrite bool_decide_false; [|tauto| |tauto].
  - set (s2 := with_files _ s1). assert (files s2 !! f = Some (File NULL 0 false)) as Hf2 by apply lookup_insert_eq.
    unfold inode_close, free_file. rewrite run_ret run_assoc (get_file_run _ _ _ _ Hf2). run.
    eexists. split; [done|]. cbn [files with_files s2]. rewrite delete_insert_id //.
    assert (with_files (files s1) s2 = s1) as -> by by destruct s1. split; [by apply later_same|by apply later_same_disk].
  - exists s1. split; [done|]. split; [by apply later_same|by apply later_same_disk].
Qed.

(** An inode stays open as long as there are references to it. *)
Lemma fs_inv_keeps live live' gone gone' extra s s' b :
  fs_inv live gone extra s → fs_inv live' gone' extra s' → file_refs s' ≡ₚ file_refs s →
  is_Some (inodes s !! b) → is_Some (inodes s' !! b).
Proof.
  intros H H' Hp [y Hy]. eapply (op_held _ _ _ _ _ (inv_opened _ _ _ _ H')). rewrite Hp. apply refs_pos.
  by eapply op_cnt; [apply H|].
Qed.

Section file_open.
Context (live : gmap Z inode_disk) (gone : gset Z) (extra : list loc) (s : fs) (a : loc) (y : inode).
Context (H : fs_inv live gone (a :: extra) s) (Hfew : few extra s) (Hy : inodes s !! a = Some y).
Context (Hn0 : sector y ≠ FREE_MAP_SECTOR) (Hn1 : sector y ≠ ROOT_DIR_SECTOR).

Lemma inv_file_open :
  (∃ f s', file_open (Some a) s = Ret (Some f) s' ∧ files s !! f = None ∧ same_disk s s' ∧ fs_inv live gone extra s' ∧
     file_step (<[f := File (Some a) 0 false]> (files s)) s s' ∧ inodes s' = inodes s) ∨
  (∃ s' live' gone', file_open (Some a) s = Ret NULL s' ∧ ¬ plenty s ∧ fs_inv live' gone' extra s' ∧
     inode_step (sector y) s s' ∧
     close_effect (bool_decide (a ∉ extra ++ file_refs s)) (sector y) live gone s live' gone' s').
Proof using All.
  unfold file_open. destruct (new_file_run s (File NULL 0 false)) as (s1 & Hl & [(f & Hrun & Hf)|[Hrun Hp]]);
    rewrite (M_bind_Ret _ _ _ _ _ Hrun); cbv beta.
  - left. rewrite bool_decide_true //. rewrite (set_file_run _ (File NULL 0 false)); [|apply lookup_insert_eq].
    cbn [files with_files]. rewrite insert_insert_eq. pose proof (later_same _ _ Hl) as Hs.
    set (s2 := with_files _ _). exists f, s2.
    assert (file_step (<[f := File (Some a) 0 false]> (files s)) s s2) as Hstep.
    { rewrite -(same_files _ _ Hs). eapply file_step_same_l; [done|]. apply with_files_step. }
    rewrite (same_files _ _ Hs) in Hf. split; [done|]. split; [done|]. split; [by etrans; [apply later_same_disk|]|].
    split; [|split; [done|apply Hs]]. pose proof (fs_inv_later _ _ _ _ _ Hl H) as H1.
    eapply (fs_inv_intro _ _ (a :: extra)); [exact H|apply with_files_layout, with_files_layout, H1|done| | |by rewrite /s2 /= (same_inodes _ _ Hs)|].
    + eapply opened_perm; [..|by eapply (opened_same _ _ _ _ s); [apply Hs|apply Hs|apply H]].
      * rewrite collect_insert //. simpl. unfold file_refs. by rewrite Permutation_middle.
      * by rewrite collect_insert.
    + intros g Hg. rewrite lookup_insert_ne //. intros <-.
      destruct (inv_ready _ _ _ _ H) as (g & b & x & [R1 [pos R2] _ _ _ _ _]). congruence.
    + intros g x [[<- <-]|[? Hx]]%lookup_insert_Some Hg; [right|by left]. exists a, y. by rewrite /s2 /= (same_inodes _ _ Hs).
  - right. rewrite bool_decide_false; [|tauto]. pose proof (later_same _ _ Hl) as Hs.
    destruct (inv_inode_close live gone extra s1 a y) as (s2 & live' & gone' & Hrun2 & Hstep & Hinv & Heff);
      [by eapply fs_inv_later|by eapply few_same|by rewrite (same_inodes _ _ Hs)|done|].
    rewrite (M_bind_Ret _ _ _ _ _ Hrun2). exists s2, live', gone'. split; [done|]. split; [done|]. split; [done|].
    split; [by eapply inode_step_same_l|]. destruct Hl as [k ->]. unfold close_effect in *.
    destruct (_ && _); [|by destruct Heff as (-> & -> & [])].
    destruct Heff as (E1 & E2 & E3 & E4). split; [done|]. split; [done|]. split; [done|].
    intros ?. apply E4. by apply Hs.
Qed.
End file_open.

Section file_close.
Context (live : gmap Z inode_disk) (gone : gset Z) (extra : list loc) (s : fs) (f a : loc) (pos : Z) (deny : bool).
Context (H : fs_inv live gone extra s) (Hf : files s !! f = Some (File (Some a) pos deny)) (Hu : free_map_file s ≠ Some f).
Context (Hfew : few extra s).

(** Releasing a file that does not deny writes. *)
Lemma inv_release_file y : deny = false → inodes s !! a = Some y →
  ∃ s' live' gone', (inode_close (Some a);; free_file (Some f)) s = Ret tt s' ∧ fs_inv live' gone' extra s' ∧
    file_step (base.delete f (files s)) s s' ∧
    close_effect (bool_decide (a ∉ extra ++ collect f_inode (base.delete f (files s)))) (sector y) live gone s live' gone' s'.
Proof using All.
  intros Hdeny Hy. destruct (file_inode _ _ _ _ _ _ _ _ H Hf Hu) as (y' & Hy' & Hn0 & Hn1).
  assert (y' = y) as -> by congruence.
  destruct (held_bounds _ _ _ _ _ _ _ _ H Hf Hu Hfew) as (B1 & B2 & B3).
  pose proof (denies_split _ _ _ _ _ Hf) as Hden. rewrite Hdeny in Hden. simpl in Hden.
  set (m := base.delete f (files s)) in *. pose proof (refs_split _ _ _ _ _ Hf) as Href. fold m in Href.
  assert (opened live gone (a :: extra ++ collect f_inode m) (collect deny_of m) s) as Hop.
  { eapply opened_perm; [..|apply H]; [|done]. by rewrite Href Permutation_middle. }
  assert (refs a (collect deny_of m) <= refs a (extra ++ collect f_inode m)) as Hle.
  { unfold refs in *. rewrite filter_app length_app. lia. }
  assert (Z.of_nat (length (extra ++ collect f_inode m)) < 2 ^ 31 - 2) as Hn.
  { rewrite Href in B2. rewrite length_app /= in B2. rewrite length_app. lia. }
  assert (∀ s1 live' gone', layout live' s1 → inode_step (sector y) s s1 →
    opened live' gone' (extra ++ collect f_inode m) (collect deny_of m) s1 →
    (∀ sec, sec ∈ gone' → sec ∈ gone) → live' !! FREE_MAP_SECTOR = live !! FREE_MAP_SECTOR →
    ∃ s', free_file (Some f) s1 = Ret tt s' ∧ s' = with_files m s1 ∧ fs_inv live' gone' extra s' ∧ file_step m s s') as Hfin.
  { intros s1 live' gone' Hl Hs Hop1 Hgone Hlive. pose proof Hs as [C Fi Di Fm P O Se].
    assert (files s1 !! f = Some (File (Some a) pos deny)) as Hf1 by by rewrite Fi.
    exists (with_files m s1). split; [|split; [done|]].
    { unfold free_file. rewrite (get_file_run _ _ _ _ Hf1) run_gets Fi. done. }
    assert (file_step m s (with_files m s1)) as Hstep by by split. split; [|done].
    eapply (fs_inv_build live live' gone gone'); [exact H|by apply with_files_layout|done|by apply (opened_same _ _ _ _ s1)|..]; try done.
    - intros sec Hsec. by eapply inv_system, Hgone.
    - intros g Hg. unfold m. rewrite lookup_delete_ne //. congruence.
    - intros b z Hz Hsec. apply O; [done|]. congruence.
    - intros g x [_ Hx]%lookup_delete_Some _. by left. }
  unfold close_effect. case_bool_decide as Hlast; cbn [andb].
  - destruct (inode_close_last _ _ _ _ _ _ _ (inv_layout _ _ _ _ H) Hop Hy ltac:(lia) Hle Hlast) as (s1 & Hrun & Hs & Hcase).
    { intros Hg. split; [done|apply H]. }
    rewrite (M_bind_Ret _ _ _ _ _ Hrun). case_bool_decide as Hg.
    + destruct Hcase as (C1 & C2 & C3 & C4).
      destruct (Hfin s1 _ _ C1 Hs C2) as (s2 & Hrun2 & E & Hinv & Hstep);
        [by intros sec [? _]%elem_of_difference|by rewrite lookup_delete_ne|].
      exists s2, (base.delete (sector y) live), (gone ∖ {[sector y]}). split; [done|]. split; [done|]. split; [done|].
      split; [done|]. split; [done|]. by subst s2.
    + destruct Hcase as [C1 C2].
      destruct (Hfin s1 live gone) as (s2 & Hrun2 & E & Hinv & Hstep); try done; [eapply layout_same; [done|apply H]|].
      exists s2, live, gone. split; [done|]. split; [done|]. split; [done|]. split; [done|]. split; [done|].
      etrans; [exact C1|by subst s2].
  - destruct (inode_close_shared _ _ _ _ _ _ _ (inv_layout _ _ _ _ H) Hop Hy ltac:(lia) Hle) as (s1 & Hrun & Hs & Hd & Hop1).
    { done. }
    rewrite (M_bind_Ret _ _ _ _ _ Hrun).
    destruct (Hfin s1 live gone) as (s2 & Hrun2 & E & Hinv & Hstep); try done; [eapply layout_same; [done|apply H]|].
    exists s2, live, gone. split; [done|]. split; [done|]. split; [done|]. split; [done|]. split; [done|].
    etrans; [exact Hd|by subst s2].
Qed.
End file_close.

Section user_file.
Context (live : gmap Z inode_disk) (gone : gset Z) (extra : list loc) (s : fs) (f a : loc) (pos : Z) (deny : bool).
Context (H : fs_inv live gone extra s) (Hf : files s !! f = Some (File (Some a) pos deny)) (Hu : free_map_file s ≠ Some f).
Context (Hfew : few extra s).

Lemma inv_file_close :
  ∃ s' live' gone' y, inodes s !! a = Some y ∧ file_close (Some f) s = Ret tt s' ∧ fs_inv live' gone' extra s' ∧
    file_step (base.delete f (files s)) s s' ∧
    close_effect (bool_decide (a ∉ extra ++ collect f_inode (base.delete f (files s)))) (sector y) live gone s live' gone' s'.
Proof using All.
  destruct (file_inode _ _ _ _ _ _ _ _ H Hf Hu) as (y & Hy & Hn0 & Hn1).
  destruct (inv_file_allow_write _ _ _ _ _ _ _ _ H Hf Hu Hfew) as (s1 & Hrun1 & Hd1 & H1 & Hs1).
  pose proof (fstep_files _ _ _ Hs1) as Ef.
  assert (files s1 !! f = Some (File (Some a) pos false)) as Hf1 by by rewrite Ef lookup_insert_eq.
  assert (free_map_file s1 ≠ Some f) as Hu1 by by rewrite (fstep_free_map_file _ _ _ Hs1).
  assert (few extra s1) as Hfew1 by by rewrite /few Ef map_size_insert_Some; [|by exists (File (Some a) pos deny)].
  assert (∀ b, is_Some (inodes s !! b) → is_Some (inodes s1 !! b)) as Hkeep.
  { intros b. apply (fs_inv_keeps live live gone gone extra); [done..|]. unfold file_refs. by rewrite Ef (collect_update _ _ _ _ _ Hf). }
  destruct (Hkeep a) as [y1 Hy1]; [by exists y|]. pose proof (fstep_sector _ _ _ Hs1 _ _ _ Hy Hy1) as Esec.
  destruct (inv_release_file _ _ _ _ _ _ _ _ H1 Hf1 Hu1 Hfew1 y1 eq_refl Hy1) as (s2 & live' & gone' & Hrun2 & H2 & Hs2 & Heff).
  rewrite Ef delete_insert_eq in Hs2 Heff.
  exists s2, live', gone', y. split; [done|]. split; [|split; [done|split]].
  - unfold file_close. rewrite (M_bind_Ret _ _ _ _ _ Hrun1) (get_file_run _ _ _ _ Hf1). exact Hrun2.
  - destruct Hs1 as [F1 F2 F3 F4 F5 F6], Hs2 as [G1 G2 G3 G4 G5 G6]. split; try congruence; auto.
    intros b z z' Hz Hz'. destruct (Hkeep b) as [z1 Hz1]; [by exists z|]. rewrite (G6 _ _ _ Hz1 Hz'). by apply (F6 b).
  - rewrite -Esec. unfold close_effect in *. destruct (_ && _).
    + destruct Heff as (-> & -> & E3 & E4). rewrite (visible_same _ _ _ Hd1) in E3. split_and!; try done.
      intros Hp. by apply E4, (fstep_plenty _ _ _ Hs1).
    + destruct Heff as (-> & -> & E3). split_and!; [done..|]. by transitivity s1.
Qed.

Lemma inv_file_reopen :
  (∃ f' s', file_reopen (Some f) s = Ret (Some f') s' ∧ files s !! f' = None ∧ same_disk s s' ∧ fs_inv live gone extra s' ∧
     file_step (<[f' := File (Some a) 0 false]> (files s)) s s') ∨
  (∃ s', file_reopen (Some f) s = Ret NULL s' ∧ ¬ plenty s ∧ same_disk s s' ∧ fs_inv live gone extra s' ∧
     file_step (files s) s s').
Proof using All.
  destruct (file_inode _ _ _ _ _ _ _ _ H Hf Hu) as (y & Hy & Hn0 & Hn1).
  destruct (inv_inode_reopen _ _ _ _ H Hfew a y Hy Hn0) as (s1 & y1 & Hrun1 & Hs1 & Hd1 & H1 & Hy1 & E1).
  pose proof (inode_file_step _ _ _ Hs1) as Hfs1. pose proof (fstep_files _ _ _ Hfs1) as Ef.
  assert (few extra s1) as Hfew1 by by rewrite /few Ef.
  assert (a ∈ file_refs s) as Ha by (apply elem_of_collect; by exists f, (File (Some a) pos deny)).
  unfold file_reopen. rewrite -E1 in Hn0, Hn1.
  destruct (inv_file_open live gone extra s1 a y1 H1 Hfew1 Hy1 Hn0 Hn1) as [(f' & s2 & Hrun2 & Hf2 & Hd2 & H2 & Hs2 & Ei)|(s2 & live' & gone' & Hrun2 & Hp & H2 & Hs2 & Heff)].
  - left. exists f', s2. rewrite (get_file_run _ _ _ _ Hf) (M_bind_Ret _ _ _ _ _ Hrun1). rewrite Ef in Hf2 Hs2.
    split; [done|]. split; [done|]. split; [by transitivity s1|]. split; [done|].
    destruct Hfs1 as [F1 F2 F3 F4 F5 F6], Hs2 as [G1 G2 G3 G4 G5 G6]. split; try congruence; auto.
    intros b z z' Hz Hz'. rewrite Ei in Hz'. by apply (F6 b).
  - right. exists s2. rewrite (get_file_run _ _ _ _ Hf) (M_bind_Ret _ _ _ _ _ Hrun1).
    assert (a ∈ extra ++ file_refs s1) as Ha' by (apply elem_of_app; right; by rewrite /file_refs Ef).
    unfold close_effect in Heff. rewrite bool_decide_false in Heff; [|by intros ?]. destruct Heff as (-> & -> & Hd2).
    split; [done|]. split; [intros ?; by apply Hp, Hs1|]. split; [by transitivity s1|]. split; [done|].
    assert (∀ b, is_Some (inodes s !! b) → is_Some (inodes s1 !! b)) as Hkeep.
    { intros b Hb. eapply (op_held _ _ _ _ _ (inv_opened _ _ _ _ H1)). right.
      rewrite /file_refs Ef. destruct Hb as [z Hz]. apply refs_pos. by eapply op_cnt; [apply H|]. }
    destruct Hs1 as [F1 F2 F3 F4 F5 _ F6], Hs2 as [G1 G2 G3 G4 G5 _ G6]. split; try congruence; auto.
    intros b z z' Hz Hz'. destruct (Hkeep b) as [z1 Hz1]; [by exists z|]. rewrite (G6 _ _ _ Hz1 Hz'). by apply (F6 b).
Qed.
End user_file.
