(* ===== verification/PintosDirectory.v ===== *)
(** What the operations on the root directory do to its entries. *)
From S2P Require Export PintosDir PintosFiles.
Local Open Scope Z_scope.

(** * Entries *)

(** A place in a directory: free, or the name and the sector of an inode. *)
Abbreviation slot := (option (bytes * Z)).

Definition entry_slot (e : bytes) : option slot :=
  if e_in_use e then name ← c_string (e_name e); Some (Some (name, e_inode_sector e)) else Some None.

(** The contents of a directory with some entries. *)
Record dir_rep (slots : list slot) (c : bytes) : Prop := {
  rep_size : size_of c = 20 * Z.of_nat (length slots);
  rep_bytes : Forall (in_u 8) c;
  rep_slot j sl : slots !! j = Some sl → entry_slot (slice (20 * Z.of_nat j) 20 c) = Some sl;
}.

Definition name_of (sl : slot) : option bytes := fst <$> sl.

(** The first entry with a name, and the first free place. *)
Definition find_name (name : bytes) (slots : list slot) : option (nat * slot) :=
  list_find (λ sl, name_of sl = Some name) slots.
Definition find_free (slots : list slot) : option (nat * slot) := list_find (λ sl, sl = None) slots.

(** A C string has no zero byte. *)
Definition c_name (name : bytes) : Prop := Forall (λ c, 0 < c < 256) name.

Lemma strcmp_c_string name a n : c_name name → c_string a = Some n → strcmp name a = Some (bool_decide (name = n)).
Proof.
  intros Hname. revert a n. induction Hname as [|b name Hb Hname IH]; intros [|c a] n Hn; try done; simpl in *.
  - case_bool_decide; simplify_eq/=; [done|]. destruct (c_string a); simplify_eq/=. done.
  - case_bool_decide as Hc; simplify_eq/=.
    + rewrite bool_decide_false; [done|]. intros ->. lia.
    + destruct (c_string a) as [n'|] eqn:E; simplify_eq/=. case_bool_decide as Hbc.
      * subst. rewrite (IH _ _ E). f_equal. apply bool_decide_ext. split; [by intros ->|by intros [=]].
      * rewrite bool_decide_false; [done|]. by intros [=].
Qed.

Lemma c_string_name name l : c_name name → c_string (name ++ 0 :: l) = Some name.
Proof. induction 1 as [|b name Hb _ IH]; simpl; [done|]. rewrite bool_decide_false; [|lia]. by rewrite IH. Qed.

(** The entry that [dir_add] writes. *)
Section new_entry.
Context (name e : bytes) (sec : Z) (Hname : c_name name) (Hlen : size_of name <= NAME_MAX).
Context (He : size_of e = 20) (Hsec : in_u 32 sec).

Definition new_entry : bytes :=
  set_inode_sector sec (set_name (strlcpy (e_name (set_in_use true e)) name (NAME_MAX + 1)) (set_in_use true e)).

Lemma size_of_in_use b l : size_of l = 20 → size_of (set_in_use b l) = 20.
Proof. intros Hl. unfold set_in_use. rewrite size_of_splice // Hl. by destruct b. Qed.

Lemma size_of_name l : size_of l = 20 → size_of (e_name l) = 15.
Proof. intros Hl. unfold e_name, NAME_MAX. rewrite size_of_slice; lia. Qed.

Lemma strlcpy_name l : size_of l = 15 → size_of (strlcpy l name 15) = 15 ∧ c_string (strlcpy l name 15) = Some name ∧
  (Forall (in_u 8) l → Forall (in_u 8) (strlcpy l name 15)).
Proof using All.
  intros Hl. unfold strlcpy. rewrite take_ge; [|unfold size_of, NAME_MAX in *; lia].
  assert (size_of (name ++ [0]) <= 15) as Hn by (rewrite size_of_app; change (size_of [0]) with 1; unfold NAME_MAX in *; lia).
  split; [rewrite size_of_splice; lia|]. split.
  - Transparent splice. unfold splice. Opaque splice. simpl. rewrite -app_assoc. by apply c_string_name.
  - intros Hb. apply Forall_splice; [|done]. apply Forall_app. split; [|by repeat constructor].
    eapply Forall_impl; [exact Hname|]. intros c Hc. unfold in_u. simpl in Hc. lia.
Qed.

Lemma size_of_new_entry : size_of new_entry = 20.
Proof using All.
  pose proof (size_of_in_use true e He) as H1. destruct (strlcpy_name (e_name (set_in_use true e))) as (H2 & _); [by apply size_of_name|].
  unfold new_entry. change (NAME_MAX + 1) with 15. set (nm := strlcpy _ _ _) in *. set (u := set_in_use true e) in *.
  assert (size_of (set_name nm u) = 20) as H4 by (unfold set_name; rewrite size_of_splice; lia).
  pose proof (size_of_le_split 4 sec) as H5. unfold set_inode_sector. rewrite size_of_splice; lia.
Qed.

Lemma new_entry_bytes : Forall (in_u 8) e → Forall (in_u 8) new_entry.
Proof using All.
  intros Hb. unfold new_entry, set_inode_sector, set_name. apply Forall_splice; [apply le_split_bytes|].
  assert (Forall (in_u 8) (set_in_use true e)) as Hu by (apply Forall_splice; [by repeat constructor|done]).
  apply Forall_splice; [|done]. destruct (strlcpy_name (e_name (set_in_use true e))) as (_ & _ & H); [by apply size_of_name, size_of_in_use|].
  by apply H, Forall_slice.
Qed.

Lemma new_entry_slot : entry_slot new_entry = Some (Some (name, sec)).
Proof using All.
  pose proof (size_of_in_use true e He) as H1. destruct (strlcpy_name (e_name (set_in_use true e))) as (H2 & H3 & _); [by apply size_of_name|].
  unfold new_entry. change (NAME_MAX + 1) with 15. set (nm := strlcpy _ _ _) in *. set (u := set_in_use true e) in *.
  assert (size_of (set_name nm u) = 20) as H4 by (unfold set_name; rewrite size_of_splice; lia).
  pose proof (size_of_le_split 4 sec) as H5.
  unfold entry_slot.
  assert (e_in_use (set_inode_sector sec (set_name nm u)) = true) as ->.
  { unfold e_in_use, set_inode_sector. rewrite slice_splice_out; [|lia..]. unfold set_name. rewrite slice_splice_out; [|lia..].
    unfold u, set_in_use. change 1 with (size_of [1]) at 1. rewrite slice_splice_eq; [done|lia|]. rewrite He. done. }
  assert (e_name (set_inode_sector sec (set_name nm u)) = nm) as ->.
  { unfold e_name, set_inode_sector. change (NAME_MAX + 1) with 15. rewrite slice_splice_out; [|lia..].
    unfold set_name. rewrite -{1}H2. rewrite slice_splice_eq; lia || done. }
  rewrite H3 /=. do 3 f_equal. unfold e_inode_sector, set_inode_sector.
  change 4 with (size_of (le_split 4 sec)) at 1. rewrite slice_splice_eq; [by apply le_combine_4|lia|lia].
Qed.
End new_entry.

(** The entry that [dir_remove] writes. *)
Lemma free_entry_slot e : size_of e = 20 → entry_slot (set_in_use false e) = Some None.
Proof.
  intros He. unfold entry_slot. assert (e_in_use (set_in_use false e) = false) as ->; [|done].
  unfold e_in_use, set_in_use. change 1 with (size_of [0]) at 1. rewrite slice_splice_eq; [done|lia|]. by rewrite He.
Qed.

(** Writing an entry. *)
Lemma dir_rep_insert slots c j e sl : dir_rep slots c → (j < length slots)%nat → size_of e = 20 → Forall (in_u 8) e →
  entry_slot e = Some sl → dir_rep (<[j := sl]> slots) (splice (20 * Z.of_nat j) e c).
Proof.
  intros [R1 R2 R3] Hj He Hb Hsl. split.
  - rewrite size_of_splice; rewrite ?length_insert; lia.
  - by apply Forall_splice.
  - intros k sl' Hk. destruct (decide (j = k)) as [<-|Hne].
    + rewrite list_lookup_insert_eq // in Hk. simplify_eq. rewrite -{2}He slice_splice_eq; [done|lia|lia].
    + rewrite list_lookup_insert_ne // in Hk. pose proof (lookup_lt_Some _ _ _ Hk).
      rewrite slice_splice_out; [by apply R3|lia..].
Qed.

(** * The root directory *)

(** [d] is open on the root directory, which has some entries. *)
Record root_dir (live : gmap Z inode_disk) (gone : gset Z) (extra : list loc) (slots : list slot) (c : bytes)
    (d a : loc) (x : inode) (s : fs) : Prop := {
  root_inv : fs_inv live gone extra s;
  root_few : few extra s;
  root_open : ∃ pos, dirs s !! d = Some (Dir (Some a) pos);
  root_inode : inodes s !! a = Some x;
  root_sector : sector x = ROOT_DIR_SECTOR;
  root_content : visible live s !! ROOT_DIR_SECTOR = Some c;
  root_rep : dir_rep slots c;
  root_length : 20 * Z.of_nat (length slots) + 20 < 2 ^ 31;
}.

Lemma root_dir_same live gone extra slots c d a x s s' :
  same_memory s s' → same_disk s s' → root_dir live gone extra slots c d a x s → root_dir live gone extra slots c d a x s'.
Proof.
  intros Hs Hd [H1 H2 [pos H3] H4 H5 H6 H7 H8]. split; try done.
  - by eapply fs_inv_same.
  - by eapply few_same.
  - exists pos. by rewrite (same_dirs _ _ Hs).
  - by rewrite (same_inodes _ _ Hs).
  - by rewrite (visible_same _ _ _ Hd).
Qed.

Lemma get_dir_run {A} s d x (k : dir → F A) : dirs s !! d = Some x → (get_dir (Some d) ≫= k) s = k x s.
Proof. intros Hx. unfold get_dir, deref. rewrite run_assoc run_gets. simpl. by rewrite Hx. Qed.

(** What an uninitialised variable holds. *)
Lemma uninit_run {A} n (k : bytes → F A) s : ∃ l s', (uninit n ≫= k) s = k l s' ∧ same_memory s s' ∧ same_disk s s' ∧
  size_of l = Z.of_nat n ∧ Forall (in_u 8) l.
Proof.
  unfold uninit. rewrite run_assoc run_gets run_assoc run_modify run_ret. eexists _, _. split; [done|].
  split; [by apply with_stack_same|]. split; [done|]. split.
  - unfold size_of. by rewrite length_fmap length_resize.
  - apply Forall_fmap, Forall_true. intros b. by apply wrap_u_range.
Qed.

(** A name that is in the directory, or is not as far as can be read. *)
Definition no_entry (name : bytes) (slots : list slot) (j : nat) : Prop :=
  ∀ i sl, (i < j)%nat → slots !! i = Some sl → name_of sl ≠ Some name.

Section root.
Context (live : gmap Z inode_disk) (gone : gset Z) (extra : list loc) (slots : list slot) (c : bytes) (d a : loc) (x : inode).

Lemma read_entry_run s e j : root_dir live gone extra slots c d a x s → size_of e = 20 → Forall (in_u 8) e →
  (j <= length slots)%nat →
  ∃ ok e' s', read_entry (Some d) e (20 * Z.of_nat j) s = Ret (ok, e') s' ∧ later s s' ∧ size_of e' = 20 ∧ Forall (in_u 8) e' ∧
    if (ok : bool) then (j < length slots)%nat ∧ e' = slice (20 * Z.of_nat j) 20 c else j = length slots ∨ ¬ plenty s.
Proof.
  intros [H1 H2 [pos H3] H4 H5 H6 [R1 R2 R3] H8] He Hb Hj. unfold read_entry. rewrite (get_dir_run _ _ _ _ H3). cbn [d_inode].
  destruct (inv_inode_read_at _ _ _ _ _ _ H1 H4) with (buffer := e) (size := sizeof_entry) (offset := 20 * Z.of_nat j)
    as (c' & n & s1 & Hc' & Hrun & Hl & Hn & Hp); unfold sizeof_entry in *; [by rewrite H5|split_and!; lia|lia|].
  rewrite H5 in Hc'. assert (c' = c) as -> by congruence. rewrite (M_bind_Ret _ _ _ _ _ Hrun).
  unfold avail in *. eexists _, _, s1. split; [done|]. split; [done|]. pose proof (size_of_nonneg c).
  assert (n = 0 ∨ 20 * Z.of_nat j + n <= size_of c) as Hin by lia.
  split; [|split].
  - destruct Hin as [->|Hin]; [by rewrite slice_nil splice_nil|]. sizes; done.
  - apply Forall_splice; [by apply Forall_slice|done].
  - case_bool_decide as E.
    + subst n. split; [lia|]. rewrite splice_all; [done|]. sizes. done.
    + destruct (decide (j = length slots)); [by left|right]. destruct Hp as [Hp|Hp]; [lia|done].
Qed.

Lemma entry_strcmp j sl name e : dir_rep slots c → slots !! j = Some sl → e = slice (20 * Z.of_nat j) 20 c → c_name name →
  (if e_in_use e then strcmp name (e_name e) else Some false) = Some (bool_decide (name_of sl = Some name)) ∧
  (∀ n sec, sl = Some (n, sec) → e_inode_sector e = sec) ∧ e_in_use e = bool_decide (sl ≠ None).
Proof.
  intros [R1 R2 R3] Hj -> Hname. specialize (R3 _ _ Hj). unfold entry_slot in R3.
  destruct (e_in_use _); simplify_eq/=.
  - destruct (c_string _) as [n|] eqn:E; simplify_eq/=. split; [|split; [by intros ?? [= -> ->]|done]].
    rewrite (strcmp_c_string _ _ _ Hname E). f_equal. apply bool_decide_ext. unfold name_of. simpl. split; [by intros ->|by intros [= ->]].
  - done.
Qed.

Lemma wrap_offset j : (j <= length slots)%nat → 20 * Z.of_nat (length slots) + 20 < 2 ^ 31 →
  wrap_s 32 (20 * Z.of_nat j) = 20 * Z.of_nat j ∧ wrap_u 32 (20 * Z.of_nat j + sizeof_entry) = 20 * Z.of_nat (S j).
Proof.
  intros Hj Hn. split; [apply wrap_s_id; [lia|unfold in_s; lia]|]. unfold sizeof_entry. rewrite wrap_u_id; unfold in_u; lia.
Qed.

Lemma lookup_step_eq dd name e ofs : lookup_step dd name (e, ofs) =
  ('(ok, e) ← read_entry dd e (wrap_s 32 ofs);
   if (ok : bool) then
     eq ← (if e_in_use e then defined (strcmp name (e_name e)) else mret false);
     mret (if (eq : bool) then inr (Some (e, ofs)) else inl (e, wrap_u 32 (ofs + sizeof_entry)))
   else mret (inr None)).
Proof. done. Qed.

(** The search for a name. *)
Definition lookup_result (name : bytes) (s : fs) (r : option (bytes * Z)) : Prop :=
  match r with
  | Some (e, ofs) => ∃ j sl, find_name name slots = Some (j, sl) ∧ ofs = 20 * Z.of_nat j ∧ e = slice (20 * Z.of_nat j) 20 c
  | None => find_name name slots = None ∨ ¬ plenty s
  end.

Lemma lookup_loop name fuel s e j : root_dir live gone extra slots c d a x s → c_name name →
  size_of e = 20 → Forall (in_u 8) e → (j <= length slots)%nat → (length slots - j < fuel)%nat → no_entry name slots j →
  ∃ r s', loop fuel (lookup_step (Some d) name) (e, 20 * Z.of_nat j) s = Ret r s' ∧ same_memory s s' ∧ same_disk s s' ∧
    lookup_result name s r.
Proof.
  intros H Hname. revert s e j H. induction fuel as [|fuel IH]; intros s e j H He Hb Hj Hf Hno; [lia|].
  pose proof H as [H1 H2 H3 H4 H5 H6 Hrep Hlen]. destruct (wrap_offset j Hj Hlen) as [W1 W2].
  rewrite run_loop lookup_step_eq W1 run_assoc.
  destruct (read_entry_run s e j H He Hb Hj) as (ok & e' & s1 & Hrun & Hl & He' & Hb' & Hok).
  pose proof (later_same _ _ Hl) as Hs. pose proof (later_same_disk _ _ Hl) as Hd.
  rewrite (M_bind_Ret _ _ _ _ _ Hrun). cbv beta iota. destruct ok.
  - destruct Hok as [Hlt Heq]. destruct (lookup_lt_is_Some_2 slots j Hlt) as [sl Hsl].
    destruct (entry_strcmp j sl name e' Hrep Hsl Heq Hname) as (Hcmp & Hsec & Huse).
    assert ((if e_in_use e' then defined (strcmp name (e_name e')) else mret false) s1 =
      Ret (bool_decide (name_of sl = Some name)) s1) as Hrun2.
    { destruct (e_in_use e'); simplify_eq/=; [by rewrite Hcmp|]. by rewrite -Hcmp. }
    rewrite run_assoc (M_bind_Ret _ _ _ _ _ Hrun2). cbv beta. case_bool_decide as Hmatch; run.
    + exists (Some (e', 20 * Z.of_nat j)), s1. split; [done|]. split; [done|]. split; [done|]. exists j, sl.
      split; [|done]. apply list_find_Some. split; [done|]. split; [done|]. intros i sl' Hi Hlt'. by eapply Hno.
    + rewrite W2. destruct (IH s1 e' (S j)) as (r & s2 & Hrun3 & Hs2 & Hd2 & Hr); try done; [by eapply root_dir_same|lia| |].
      { intros i sl' Hi Hsl'. destruct (decide (i = j)) as [->|]; [congruence|]. eapply Hno; [|done]. lia. }
      exists r, s2. split; [done|]. split; [by etrans|]. split; [by etrans|].
      destruct r as [[e2 ofs]|]; [done|]. destruct Hr as [?|Hp]; [by left|right]. intros ?. by apply Hp, Hs.
  - run. exists None, s1. split; [done|]. split; [done|]. split; [done|]. destruct Hok as [->|?]; [left|by right].
    apply list_find_None, Forall_lookup. intros i sl Hi. eapply Hno; [by eapply lookup_lt_Some|done].
Qed.

Lemma lookup_run name fuel s : root_dir live gone extra slots c d a x s → c_name name → (length slots < fuel)%nat →
  ∃ r s', PintosDir.lookup fuel (Some d) name s = Ret r s' ∧ same_memory s s' ∧ same_disk s s' ∧ lookup_result name s r.
Proof.
  intros H Hname Hf. unfold PintosDir.lookup. rewrite ASSERT_true //.
  destruct (uninit_run (Z.to_nat sizeof_entry) (λ e, loop fuel (lookup_step (Some d) name) (e, 0)) s)
    as (e & s1 & -> & Hs & Hd & He & Hb).
  destruct (lookup_loop name fuel s1 e 0) as (r & s2 & Hrun & Hs2 & Hd2 & Hr); [by eapply root_dir_same|done..|lia|lia| |].
  { intros i sl Hi. lia. }
  exists r, s2. split; [done|]. split; [by etrans|]. split; [by etrans|].
  destruct r as [[e2 ofs]|]; [done|]. destruct Hr as [?|Hp]; [by left|right]. intros ?. by apply Hp, Hs.
Qed.

(** The search for a free place. *)
Lemma free_step_eq dd e ofs : free_step dd (e, ofs) =
  ('(ok, e) ← read_entry dd e ofs;
   if (ok : bool) then
     if e_in_use e then ofs ← int (ofs + sizeof_entry); mret (inl (e, ofs)) else mret (inr (e, ofs))
   else mret (inr (e, ofs))).
Proof. done. Qed.

Lemma free_loop fuel s e j : root_dir live gone extra slots c d a x s →
  size_of e = 20 → Forall (in_u 8) e → (j <= length slots)%nat → (length slots - j < fuel)%nat →
  (∀ i, (i < j)%nat → slots !! i ≠ Some None) →
  ∃ e' j' s', loop fuel (free_step (Some d)) (e, 20 * Z.of_nat j) s = Ret (e', 20 * Z.of_nat j') s' ∧
    same_memory s s' ∧ same_disk s s' ∧ size_of e' = 20 ∧ Forall (in_u 8) e' ∧ (j' <= length slots)%nat ∧
    (find_free slots = Some (j', None) ∨ find_free slots = None ∧ j' = length slots ∨ ¬ plenty s).
Proof.
  intros H. revert s e j H. induction fuel as [|fuel IH]; intros s e j H He Hb Hj Hf Hno; [lia|].
  pose proof H as [H1 H2 H3 H4 H5 H6 Hrep Hlen].
  rewrite run_loop free_step_eq run_assoc.
  destruct (read_entry_run s e j H He Hb Hj) as (ok & e' & s1 & Hrun & Hl & He' & Hb' & Hok).
  pose proof (later_same _ _ Hl) as Hs. pose proof (later_same_disk _ _ Hl) as Hd.
  rewrite (M_bind_Ret _ _ _ _ _ Hrun). cbv beta iota. destruct ok.
  - destruct Hok as [Hlt Heq]. destruct (lookup_lt_is_Some_2 slots j Hlt) as [sl Hsl].
    assert (c_name []) as Hnil by constructor.
    destruct (entry_strcmp j sl [] e' Hrep Hsl Heq Hnil) as (_ & _ & Huse). rewrite Huse.
    case_bool_decide as Hfree.
    + unfold sizeof_entry. rewrite run_assoc int_run; [|lia]. run. replace (20 * Z.of_nat j + 20) with (20 * Z.of_nat (S j)) by lia.
      destruct (IH s1 e' (S j)) as (e2 & j2 & s2 & Hrun2 & Hs2 & Hd2 & He2 & Hb2 & Hj2 & Hr); try done; [by eapply root_dir_same|lia| |].
      { intros i Hi. destruct (decide (i = j)) as [->|]; [congruence|]. apply Hno. lia. }
      exists e2, j2, s2. split; [done|]. split; [by etrans|]. split; [by etrans|]. split_and!; try done.
      destruct Hr as [?|[?|Hp]]; [by left|by right; left|right; right]. intros ?. by apply Hp, Hs.
    + run. exists e', j, s1. split; [done|]. split_and!; try done. left. apply list_find_Some.
      assert (sl = None) as -> by by destruct sl. split; [done|]. split; [done|]. intros i sl' Hi Hlt' ->. by eapply Hno.
  - run. exists e', j, s1. split; [done|]. split_and!; try done.
    destruct Hok as [->|?]; [right; left; split; [|done]|by right; right].
    apply list_find_None, Forall_lookup. intros i sl Hi ->. eapply Hno; [by eapply lookup_lt_Some|done].
Qed.

(** Users do not deny writes to the root directory. *)
Lemma root_not_denied s : root_dir live gone extra slots c d a x s → a ∉ file_denies s.
Proof.
  intros [H1 _ _ H4 H5 _ _ _] (f & y & Hf & Hy)%elem_of_collect. unfold deny_of in Hy.
  destruct (inv_ready _ _ _ _ H1) as (g & b & z & [R1 [pos R2] _ _ _ _ _]).
  destruct (decide (f = g)) as [->|Hne]; [rewrite R2 in Hf; by simplify_eq/=|].
  destruct (inv_user _ _ _ _ H1 f y Hf) as (b' & z' & E & Hz & _ & Hr); [congruence|].
  destruct (f_deny y); [|done]. rewrite E in Hy. simplify_eq.
Qed.

(** Writing the entry at a place of the directory. *)
Lemma write_entry_run s e j sl : root_dir live gone extra slots c d a x s → size_of e = 20 → Forall (in_u 8) e →
  (j <= length slots)%nat → entry_slot e = Some sl →
  ∃ n s', inode_write_at (Some a) e sizeof_entry (20 * Z.of_nat j) s = Ret n s' ∧ same_memory s s' ∧
    (synced live s → synced live s') ∧
    if bool_decide (n = sizeof_entry) then
      (j < length slots)%nat ∧ visible live s' = <[ROOT_DIR_SECTOR := splice (20 * Z.of_nat j) e c]> (visible live s) ∧
      root_dir live gone extra (<[j := sl]> slots) (splice (20 * Z.of_nat j) e c) d a x s'
    else visible live s' = visible live s ∧ root_dir live gone extra slots c d a x s' ∧ (j = length slots ∨ ¬ plenty s).
Proof.
  intros H He Hb Hj Hsl. pose proof (root_not_denied _ H) as Hden. destruct H as [H1 H2 [pos H3] H4 H5 H6 Hrep H8].
  destruct (inv_inode_write_at _ _ _ _ _ _ H1 H4) with (buffer := e) (size := sizeof_entry) (offset := 20 * Z.of_nat j)
    as (c' & n & s1 & Hc' & Hrun & Hs & Hinv & Hv & Hsync & Hn & Hp & Hat); unfold sizeof_entry in *;
    [by rewrite H5|split_and!; lia|lia|done|].
  rewrite H5 in Hc' Hv. assert (c' = c) as -> by congruence. exists n, s1. split; [done|]. split; [done|]. split; [done|].
  rewrite bool_decide_false // in Hp. pose proof (rep_size _ _ Hrep) as Hsize. unfold avail in *.
  assert (few extra s1) as Hfew by by eapply few_same.
  assert (∃ pos, dirs s1 !! d = Some (Dir (Some a) pos)) as Hdir by (exists pos; by rewrite (same_dirs _ _ Hs)).
  assert (inodes s1 !! a = Some x) as Hx by by rewrite (same_inodes _ _ Hs).
  case_bool_decide as E.
  - subst n. assert (slice 0 20 e = e) as Hall by (rewrite -{1}He; apply slice_all). rewrite Hall in Hv. split; [lia|]. split; [done|]. split; try done.
    + rewrite Hv. apply lookup_insert_eq.
    + apply dir_rep_insert; try done. lia.
    + by rewrite length_insert.
  - assert (n = 0) as -> by lia. rewrite slice_nil splice_nil insert_id // in Hv. split; [done|]. split.
    + split; try done. by rewrite Hv.
    + destruct Hp as [Hp|Hp]; [left; lia|by right].
Qed.

Lemma dir_add_run name sec fuel s :
  root_dir live gone extra slots c d a x s → c_name name → in_u 32 sec → (length slots < fuel)%nat →
  ∃ b s', dir_add fuel (Some d) name sec s = Ret b s' ∧ same_memory s s' ∧ (synced live s → synced live s') ∧
    if (b : bool) then
      name ≠ [] ∧ size_of name <= NAME_MAX ∧ (find_name name slots = None ∨ ¬ plenty s) ∧
      ∃ j c', (j < length slots)%nat ∧ (find_free slots = Some (j, None) ∨ ¬ plenty s) ∧
        visible live s' = <[ROOT_DIR_SECTOR := c']> (visible live s) ∧
        root_dir live gone extra (<[j := Some (name, sec)]> slots) c' d a x s'
    else
      visible live s' = visible live s ∧ root_dir live gone extra slots c d a x s' ∧
      (name = [] ∨ NAME_MAX < size_of name ∨ is_Some (find_name name slots) ∨ find_free slots = None ∨ ¬ plenty s) ∧
      (is_Some (find_name name slots) → plenty s → same_disk s s').
Proof.
  intros H Hname Hsec Hf. unfold dir_add. rewrite ASSERT_true //.
  match goal with |- context [uninit _ ≫= ?k] => destruct (uninit_run (Z.to_nat sizeof_entry) k s) as (e & s1 & -> & Hs & Hd & He & Hb) end.
  cbv beta. assert (root_dir live gone extra slots c d a x s1) as H1 by by eapply root_dir_same.
  case_bool_decide as Hvalid.
  { run. exists false, s1. split; [done|]. split; [done|]. split; [by apply synced_same|].
    split; [by apply visible_same|]. split; [done|]. split; [destruct Hvalid as [?|?]; [by left|right; left; lia]|done]. }
  destruct (lookup_run name fuel s1 H1 Hname Hf) as (r & s2 & Hrun2 & Hs2 & Hd2 & Hr).
  rewrite (M_bind_Ret _ _ _ _ _ Hrun2). assert (same_memory s s2) as Hs' by by etrans. assert (same_disk s s2) as Hd' by by etrans.
  assert (root_dir live gone extra slots c d a x s2) as H2 by by eapply root_dir_same.
  destruct r as [[e0 ofs]|].
  { run. exists false, s2. split; [done|]. split; [done|]. split; [by apply synced_same|]. split; [by apply visible_same|].
    split; [done|]. split; [|done]. right. right. left. destruct Hr as (j & sl & -> & _). done. }
  destruct (free_loop fuel s2 e 0) as (e1 & j & s3 & Hrun3 & Hs3 & Hd3 & He3 & Hb3 & Hj & Hfree); try done; [lia|lia|intros i Hi; lia|].
  change (20 * Z.of_nat 0) with 0 in Hrun3. rewrite (M_bind_Ret _ _ _ _ _ Hrun3). cbv beta iota.
  assert (same_memory s s3) as Hs'' by by etrans. assert (same_disk s s3) as Hd'' by by etrans.
  assert (root_dir live gone extra slots c d a x s3) as H3 by by eapply root_dir_same.
  fold (new_entry name e1 sec). assert (size_of name <= NAME_MAX) as Hlen by (destruct (decide (size_of name <= NAME_MAX)); [done|tauto || (exfalso; apply Hvalid; right; lia)]).
  destruct (root_open _ _ _ _ _ _ _ _ _ H3) as [pos Hdir]. rewrite (get_dir_run _ _ _ _ Hdir). cbn [d_inode].
  destruct (write_entry_run s3 (new_entry name e1 sec) j (Some (name, sec)) H3) as (n & s4 & Hrun4 & Hs4 & Hsync & Hcase);
    [by apply size_of_new_entry|by apply new_entry_bytes|done|by apply new_entry_slot|].
  rewrite (M_bind_Ret _ _ _ _ _ Hrun4). exists (bool_decide (n = sizeof_entry)), s4. split; [done|]. split; [by etrans|].
  split; [intros Hsy; by apply Hsync, (synced_same _ s)|].
  assert (∀ P : Prop, (P ∨ ¬ plenty s1 → P ∨ ¬ plenty s) ∧ (P ∨ ¬ plenty s2 → P ∨ ¬ plenty s) ∧ (P ∨ ¬ plenty s3 → P ∨ ¬ plenty s)) as Hpl.
  { intros P. split_and!; (intros [?|Hp]; [by left|right; intros ?; apply Hp]); [by apply (same_plenty _ _ Hs)|by apply (same_plenty _ _ Hs')|by apply (same_plenty _ _ Hs'')]. }
  case_bool_decide.
  - destruct Hcase as (Hlt & Hv & Hroot). split; [tauto|]. split; [done|]. split; [exact (proj1 (Hpl _) Hr)|].
    exists j, (splice (20 * Z.of_nat j) (new_entry name e1 sec) c). split; [done|]. split.
    { destruct Hfree as [?|[[_ ?]|Hp]]; [by left|lia|]. apply (proj1 (proj2 (Hpl _))). by right. }
    split; [by rewrite Hv (visible_same _ _ _ Hd'')|done].
  - destruct Hcase as (Hv & Hroot & Hj'). split; [by rewrite Hv (visible_same _ _ _ Hd'')|]. split; [done|].
    split.
    2: { intros [? Hn] Hp. exfalso. destruct (proj1 (Hpl _) Hr) as [Hn'|Hp']; [by rewrite Hn in Hn'|done]. }
    right. right. right. destruct Hfree as [Hfr|[[? _]|Hp]]; [|by left|apply (proj1 (proj2 (Hpl _))); by right].
    apply (proj2 (proj2 (Hpl _))). destruct Hj' as [->|?]; [|by right]. exfalso. apply list_find_Some in Hfr as [Hfr _]. apply lookup_lt_Some in Hfr. lia.
Qed.
End root.

(** * Opening and removing what is in the directory *)

Lemma few_files extra s s' : files s' = files s → few extra s → few extra s'.
Proof. unfold few. by intros ->. Qed.

Lemma root_dir_step live live' gone gone' extra extra' slots c d a x sec s s' :
  root_dir live gone extra slots c d a x s → inode_step sec s s' → sec ≠ ROOT_DIR_SECTOR →
  fs_inv live' gone' extra' s' → few extra' s' → visible live' s' !! ROOT_DIR_SECTOR = Some c →
  root_dir live' gone' extra' slots c d a x s'.
Proof.
  intros [H1 H2 [pos H3] H4 H5 H6 H7 H8] Hs Hne Hinv Hfew Hv. split; try done.
  - exists pos. by rewrite (step_dirs _ _ _ Hs).
  - apply (step_others _ _ _ Hs); [done|]. congruence.
Qed.

(** The entries of a directory refer to different inodes, which are there. *)
Record slots_ok (slots : list slot) (live : gmap Z inode_disk) (gone : gset Z) : Prop := {
  slots_live j name sec : slots !! j = Some (Some (name, sec)) →
    is_Some (live !! sec) ∧ sec ≠ FREE_MAP_SECTOR ∧ sec ≠ ROOT_DIR_SECTOR ∧ sec ∉ gone;
  slots_inj i j n m sec : slots !! i = Some (Some (n, sec)) → slots !! j = Some (Some (m, sec)) → i = j;
}.

(** An inode stays open as long as there are references to it. *)
Lemma inode_kept live live' gone gone' extra extra' s s' b :
  fs_inv live gone extra s → fs_inv live' gone' extra' s' →
  (∀ a, a ∈ extra ++ file_refs s → a ∈ extra' ++ file_refs s') → is_Some (inodes s !! b) → is_Some (inodes s' !! b).
Proof.
  intros H H' Hsub [y Hy]. eapply (op_held _ _ _ _ _ (inv_opened _ _ _ _ H')), Hsub, refs_pos. by eapply op_cnt; [apply H|].
Qed.

Lemma same_files' s s' : same_memory s s' → file_refs s' = file_refs s.
Proof. intros Hs. by rewrite /file_refs (same_files _ _ Hs). Qed.

(** Removing an inode that one has just opened, and closing it. *)
Lemma remove_close_run live gone extra slots c d a x s b y :
  root_dir live gone (b :: extra) slots c d a x s → inodes s !! b = Some y →
  sector y ≠ FREE_MAP_SECTOR → sector y ≠ ROOT_DIR_SECTOR → sector y ∉ gone →
  ∃ s1 s2 live' gone', inode_remove (Some b) s = Ret tt s1 ∧ inode_close (Some b) s1 = Ret tt s2 ∧ inode_step (sector y) s s2 ∧
    (plenty s → synced live s → synced live' s2) ∧ root_dir live' gone' extra slots c d a x s2 ∧
    if bool_decide (b ∈ extra ++ file_refs s) then live' = live ∧ gone' = {[sector y]} ∪ gone ∧ visible live' s2 = visible live s
    else live' = base.delete (sector y) live ∧ gone' = gone ∧ visible live' s2 = base.delete (sector y) (visible live s).
Proof.
  intros H Hy Hn0 Hn1 Hg.
  destruct (inv_inode_remove live gone (b :: extra) s (root_inv _ _ _ _ _ _ _ _ _ H)) with (a := b) (x := y)
    as (s1 & Hrun1 & Hs1 & Hd1 & H1 & y1 & Hy1 & Ey1); [by apply H|done..|].
  assert (few extra s1) as Hfew1.
  { apply (few_files _ s); [apply Hs1|]. pose proof (root_few _ _ _ _ _ _ _ _ _ H). unfold few in *. simpl in *. lia. }
  destruct (inv_inode_close live ({[sector y]} ∪ gone) extra s1 b y1 H1 Hfew1 Hy1)
    as (s2 & live' & gone' & Hrun2 & Hs2 & H2 & Heff); [by rewrite Ey1|].
  rewrite Ey1 in Hs2, Heff. assert (file_refs s1 = file_refs s) as Hrefs by by rewrite /file_refs (step_files _ _ _ Hs1).
  assert (inode_step (sector y) s s2) as Hs.
  { eapply inode_step_trans; [|done|done]. intros z. eapply inode_kept; [apply H|exact H1|]. by rewrite Hrefs. }
  exists s1, s2, live', gone'. split; [done|]. split; [done|]. split; [done|].
  assert (visible live' s2 !! ROOT_DIR_SECTOR = Some c → root_dir live' gone' extra slots c d a x s2) as Hroot.
  { intros Hc. eapply root_dir_step; [exact H|done|done|done|by apply (few_files _ s1); [apply Hs2|]|done]. }
  pose proof (root_content _ _ _ _ _ _ _ _ _ H) as Hc. unfold close_effect in Heff. rewrite Hrefs in Heff.
  rewrite (bool_decide_true (sector y ∈ _)) in Heff; [|apply elem_of_union_l; by apply elem_of_singleton]. rewrite andb_true_r in Heff.
  destruct (decide (b ∈ extra ++ file_refs s)) as [Hin|Hin].
  - rewrite bool_decide_false in Heff; [|by intros ?]. rewrite bool_decide_true //. destruct Heff as (-> & -> & Hd2).
    assert (same_disk s s2) as Hd by by etrans. split; [by intros _; apply synced_same|].
    rewrite (visible_same _ _ _ Hd) in Hroot |- *. split; [by apply Hroot|done].
  - rewrite bool_decide_true // in Heff. rewrite bool_decide_false //. destruct Heff as (-> & Eg & Ev & Es).
    rewrite (visible_same _ _ _ Hd1) in Ev. split; [by intros Hp _; apply Es, Hs1|]. rewrite Ev in Hroot |- *.
    split; [apply Hroot; by rewrite lookup_delete_ne|]. split; [done|]. split; [|done].
    rewrite Eg. apply set_eq. intros z. rewrite elem_of_difference elem_of_union elem_of_singleton.
    split; [by intros [[?|?] ?]|]. intros Hz. split; [by right|]. by intros ->.
Qed.

(** Closing an inode that one has just opened. *)
Lemma open_close_run live gone extra slots c d a x s b y :
  root_dir live gone (b :: extra) slots c d a x s → inodes s !! b = Some y →
  sector y ≠ FREE_MAP_SECTOR → sector y ≠ ROOT_DIR_SECTOR → sector y ∉ gone →
  ∃ s', inode_close (Some b) s = Ret tt s' ∧ inode_step (sector y) s s' ∧ same_disk s s' ∧ root_dir live gone extra slots c d a x s'.
Proof.
  intros H Hy Hn0 Hn1 Hg. assert (few extra s) as Hfew.
  { pose proof (root_few _ _ _ _ _ _ _ _ _ H). unfold few in *. simpl in *. lia. }
  destruct (inv_inode_close live gone extra s b y (root_inv _ _ _ _ _ _ _ _ _ H) Hfew Hy Hn0) as (s1 & live' & gone' & Hrun & Hs & H1 & Heff).
  unfold close_effect in Heff. rewrite (bool_decide_false (sector y ∈ gone)) // andb_false_r in Heff. destruct Heff as (-> & -> & Hd).
  exists s1. split; [done|]. split; [done|]. split; [done|].
  eapply root_dir_step; [exact H|done|done|done|by apply (few_files _ s); [apply Hs|]|]. rewrite (visible_same _ _ _ Hd). apply H.
Qed.

Section named.
Context (live : gmap Z inode_disk) (gone : gset Z) (extra : list loc) (slots : list slot) (c : bytes) (d a : loc) (x : inode).
Context (s : fs) (name : bytes) (fuel : nat).
Context (H : root_dir live gone extra slots c d a x s) (Hfew : few (a :: extra) s) (Hok : slots_ok slots live gone).
Context (Hname : c_name name) (Hf : (length slots < fuel)%nat).

(** Opening the inode of an entry that has been found. *)
Lemma open_slot_run s1 j sl : same_memory s s1 → same_disk s s1 → find_name name slots = Some (j, sl) →
  ∃ sec p s2, sl = Some (name, sec) ∧ e_inode_sector (slice (20 * Z.of_nat j) 20 c) = sec ∧
    inode_open sec s1 = Ret p s2 ∧ inode_step sec s s2 ∧ same_disk s s2 ∧
    (sec ≠ FREE_MAP_SECTOR ∧ sec ≠ ROOT_DIR_SECTOR ∧ sec ∉ gone) ∧ (j < length slots)%nat ∧
    match p with
    | Some b => root_dir live gone (b :: extra) slots c d a x s2 ∧ ∃ y, inodes s2 !! b = Some y ∧ sector y = sec
    | None => root_dir live gone extra slots c d a x s2 ∧ ¬ plenty s
    end.
Proof using H Hfew Hok Hname.
  intros Hs Hd Hfind. assert (root_dir live gone extra slots c d a x s1) as H1 by by eapply root_dir_same.
  apply list_find_Some in Hfind as (Hj & Hn & _). destruct sl as [[n sec]|]; [|done]. injection Hn as ->.
  destruct (entry_strcmp _ _ _ _ _ _ (root_rep _ _ _ _ _ _ _ _ _ H) Hj eq_refl Hname) as (_ & Hsec & _).
  destruct (slots_live _ _ _ Hok _ _ _ Hj) as ([dd Hdd] & Hne & Hne' & Hg).
  destruct (inv_inode_open live gone extra s1) with (sec := sec) (d := dd) as (p & s2 & Hrun2 & Hstep & Hd2 & Hp);
    [apply H1|apply H1|done|done|].
  assert (same_disk s s2) as Hd' by by etrans. assert (visible live s2 !! ROOT_DIR_SECTOR = Some c) as Hc.
  { rewrite (visible_same _ _ _ Hd'). apply H. }
  assert (few (a :: extra) s1) as Hfew1 by by eapply few_same.
  exists sec, p, s2. split; [done|]. split; [by eapply Hsec|]. split; [done|]. split; [by eapply inode_step_same_l|]. split; [done|].
  split; [done|]. split; [by eapply lookup_lt_Some|]. destruct p as [b|]; destruct Hp as [Hinv Hp]; (split; [|try done]).
  - eapply root_dir_step; [exact H1|done|done|done| |done]. apply (few_files _ s1); [apply Hstep|exact Hfew1].
  - eapply root_dir_step; [exact H1|done|done|done| |done]. apply (few_files _ s1); [apply Hstep|apply H1].
  - intros ?. by apply Hp, Hs.
Qed.

Lemma dir_lookup_run :
  ∃ p s' sec, dir_lookup fuel (Some d) name s = Ret p s' ∧ inode_step sec s s' ∧ same_disk s s' ∧ sec ≠ FREE_MAP_SECTOR ∧ sec ≠ ROOT_DIR_SECTOR ∧
    match p with
    | Some b => (∃ j, find_name name slots = Some (j, Some (name, sec))) ∧
        root_dir live gone (b :: extra) slots c d a x s' ∧ ∃ y, inodes s' !! b = Some y ∧ sector y = sec
    | None => root_dir live gone extra slots c d a x s' ∧ (find_name name slots = None ∨ ¬ plenty s)
    end.
Proof using All.
  unfold dir_lookup. rewrite ASSERT_true //.
  destruct (lookup_run _ _ _ _ _ _ _ _ name fuel s H Hname Hf) as (r & s1 & Hrun & Hs & Hd & Hr).
  rewrite (M_bind_Ret _ _ _ _ _ Hrun). assert (root_dir live gone extra slots c d a x s1) as H1 by by eapply root_dir_same.
  destruct r as [[e ofs]|].
  - destruct Hr as (j & sl & Hfind & -> & ->).
    destruct (open_slot_run s1 j sl Hs Hd Hfind) as (sec & p & s2 & -> & -> & Hrun2 & Hstep & Hd2 & (Hn0 & Hn1 & _) & _ & Hp).
    exists p, s2, sec. split; [done|]. split; [done|]. split; [done|]. split; [done|]. split; [done|].
    destruct p as [b|]; destruct Hp as [Hroot Hp]; [split; [by exists j|done]|split; [done|by right]].
  - exists NULL, s1, 2. split; [done|]. split; [by apply same_step|]. split; [done|]. split; [done|]. split; [done|]. by split.
Qed.

Lemma dir_remove_run :
  ∃ r s' live' gone' sec, dir_remove fuel (Some d) name s = Ret r s' ∧ inode_step sec s s' ∧
    sec ≠ FREE_MAP_SECTOR ∧ sec ≠ ROOT_DIR_SECTOR ∧ (plenty s → synced live s → synced live' s') ∧
    if (r : bool) then
      ∃ j c' b, find_name name slots = Some (j, Some (name, sec)) ∧
        root_dir live' gone' extra (<[j := None]> slots) c' d a x s' ∧
        (b ∈ extra ++ file_refs s → ∃ y, inodes s !! b = Some y ∧ sector y = sec) ∧
        (∀ b' y, inodes s !! b' = Some y → sector y = sec → b' = b) ∧
        if bool_decide (b ∈ extra ++ file_refs s) then
          live' = live ∧ gone' = {[sec]} ∪ gone ∧ visible live' s' = <[ROOT_DIR_SECTOR := c']> (visible live s)
        else live' = base.delete sec live ∧ gone' = gone ∧
          visible live' s' = base.delete sec (<[ROOT_DIR_SECTOR := c']> (visible live s))
    else live' = live ∧ gone' = gone ∧ root_dir live gone extra slots c d a x s' ∧ visible live s' = visible live s ∧
      (find_name name slots = None ∨ ¬ plenty s).
Proof using All.
  unfold dir_remove. rewrite ASSERT_true //.
  destruct (lookup_run _ _ _ _ _ _ _ _ name fuel s H Hname Hf) as (r & s1 & Hrun & Hs & Hd & Hr).
  rewrite (M_bind_Ret _ _ _ _ _ Hrun). assert (root_dir live gone extra slots c d a x s1) as H1 by by eapply root_dir_same.
  destruct r as [[e ofs]|].
  2: { run. exists false, s1, live, gone, 2. split; [done|]. split; [by apply same_step|]. split; [done|]. split; [done|].
       split; [intros _; by apply synced_same|]. split; [done|]. split; [done|]. split; [done|]. split; [by apply visible_same|].
       destruct Hr as [?|Hp]; [by left|by right]. }
  destruct Hr as (j & sl & Hfind & -> & ->).
  destruct (open_slot_run s1 j sl Hs Hd Hfind) as (sec & p & s2 & -> & -> & Hrun2 & Hstep2 & Hd' & (Hne & Hne' & Hg) & Hlt & Hp).
  rewrite (M_bind_Ret _ _ _ _ _ Hrun2). cbv beta. destruct (root_rep _ _ _ _ _ _ _ _ _ H) as [R1 R2 R3].
  destruct p as [b|]; destruct Hp as [H2 Hp].
  2: { rewrite bool_decide_true //. run. exists false, s2, live, gone, sec. split; [done|]. split; [done|]. split; [done|]. split; [done|].
       split; [intros _; by apply synced_same|]. split; [done|]. split; [done|]. split; [done|]. split; [by apply visible_same|by right]. }
  destruct Hp as (y & Hy & Hys). rewrite bool_decide_false //.
  assert (file_refs s2 = file_refs s) as Hrefs by by rewrite /file_refs (step_files _ _ _ Hstep2).
  destruct (root_open _ _ _ _ _ _ _ _ _ H2) as [pos Hdir]. rewrite run_assoc (get_dir_run _ _ _ _ Hdir). cbn [d_inode].
  destruct (wrap_offset slots j) as [-> _]; [lia|apply H|].
  set (e := set_in_use false (slice (20 * Z.of_nat j) 20 c)).
  assert (size_of (slice (20 * Z.of_nat j) 20 c) = 20) as Hsl by (apply size_of_slice; lia).
  destruct (write_entry_run live gone (b :: extra) slots c d a x s2 e j None H2) as (k & s3 & Hrun3 & Hs3 & Hsync & Hcase);
    [by apply size_of_in_use|apply Forall_splice; [by repeat constructor|by apply Forall_slice]|lia|by apply free_entry_slot|].
  rewrite run_assoc (M_bind_Ret _ _ _ _ _ Hrun3).
  assert (inodes s3 !! b = Some y) as Hy3 by by rewrite (same_inodes _ _ Hs3).
  assert (inode_step sec s s3) as Hstep3 by by eapply inode_step_same_r.
  assert (∀ z, is_Some (inodes s !! z) → is_Some (inodes s3 !! z)) as Hkeep.
  { intros z. assert (∃ slots' c', root_dir live gone (b :: extra) slots' c' d a x s3) as (slots' & c' & H3).
    { destruct (bool_decide (k = sizeof_entry)); [destruct Hcase as (_ & _ & H3)|destruct Hcase as (_ & H3 & _)]; by eexists _, _. }
    eapply inode_kept; [apply H|apply H3|].
    rewrite (same_files' s2 s3 Hs3) Hrefs. intros z' Hz'. by right. }
  assert (synced live s → synced live s3) as Hsync3.
  { intros Hsy. apply Hsync. by apply (synced_same _ _ _ Hd'). }
  destruct (decide (k = sizeof_entry)) as [Hk|Hk].
  - (* the entry is written *)
    rewrite bool_decide_true // in Hcase. rewrite bool_decide_false; [|tauto]. destruct Hcase as (_ & Hv3 & H3).
    set (c' := splice (20 * Z.of_nat j) e c) in *. rewrite (visible_same _ _ _ Hd') in Hv3.
    destruct (remove_close_run _ _ _ _ _ _ _ _ _ _ _ H3 Hy3) as (s4 & s5 & live' & gone' & Hrun4 & Hrun5 & Hs5 & Hsync5 & H5 & Heff);
      [by rewrite Hys..|].
    rewrite Hys in Hs5, Heff. rewrite run_assoc (M_bind_Ret _ _ _ _ _ Hrun4). run. rewrite (M_bind_Ret _ _ _ _ _ Hrun5).
    exists true, s5, live', gone', sec. split; [done|]. split; [by eapply inode_step_trans|]. split; [done|]. split; [done|].
    split; [intros Hp Hsy; apply Hsync5; [by apply Hstep3|by apply Hsync3]|].
    exists j, c', b. split; [done|]. split; [done|]. rewrite (same_files' s2 s3 Hs3) Hrefs in Heff.
    split; [|split; [|by rewrite Hv3 in Heff]].
    + intros Hin%(op_held _ _ _ _ _ (inv_opened _ _ _ _ (root_inv _ _ _ _ _ _ _ _ _ H))). destruct Hin as [y0 Hy0].
      exists y0. split; [done|]. by rewrite -(step_sector _ _ _ Hstep3 _ _ _ Hy0 Hy3).
    + intros b' y' Hb' Hsec'. destruct (Hkeep b') as [z Hz]; [by exists y'|].
      eapply (op_inj _ _ _ _ _ (inv_opened _ _ _ _ (root_inv _ _ _ _ _ _ _ _ _ H3))); [done..|].
      rewrite (step_sector _ _ _ Hstep3 _ _ _ Hb' Hz). congruence.
  - (* there is no memory to write it *)
    rewrite bool_decide_false // in Hcase. rewrite bool_decide_true; [|done]. destruct Hcase as (Hv3 & H3 & Hp3). run.
    destruct (open_close_run _ _ _ _ _ _ _ _ _ _ _ H3 Hy3) as (s4 & Hrun4 & Hs4 & Hd4 & H4); [by rewrite Hys..|].
    rewrite (M_bind_Ret _ _ _ _ _ Hrun4). rewrite Hys in Hs4.
    exists false, s4, live, gone, sec. split; [done|]. split; [by eapply inode_step_trans|]. split; [done|]. split; [done|].
    split. { intros _ Hsy. apply (synced_same _ _ _ Hd4). by apply Hsync3. }
    split; [done|]. split; [done|]. split; [done|].
    split; [by rewrite (visible_same _ _ _ Hd4) Hv3 (visible_same _ _ _ Hd')|].
    right. destruct Hp3 as [?|Hp3]; [lia|]. intros ?. by apply Hp3, Hstep2.
Qed.
End named.
