(* ===== verification/PintosFsSpec.v ===== *)
(** What the file system of Pintos promises to its users: files that hold bytes, a
    directory of names, and open files with positions; the steps that the calls
    of src/bin/OS/pintos/src/filesys make on them. *)
From S2P Require Export PintosDirectory.
Local Open Scope Z_scope.

(** * The calls *)

Inductive cmd : Type :=
  | Create (name : bytes) (size : Z)
  | Open (name : bytes)
  | Remove (name : bytes)
  | Reopen (f : loc)
  | Close (f : loc)
  | Read (f : loc) (buffer : bytes) (size : Z)
  | Write (f : loc) (buffer : bytes) (size : Z)
  | Seek (f : loc) (pos : Z)
  | Tell (f : loc)
  | Length (f : loc)
  | Deny (f : loc)
  | Allow (f : loc).

Inductive result : Type :=
  | RBool (b : bool)
  | RFile (f : ptr)
  | RBytes (n : Z) (buffer : bytes)
  | RNum (n : Z)
  | RUnit.

Definition exec (fuel : nat) (c : cmd) : F result :=
  match c with
  | Create name size => x ← filesys_create fuel name size; mret (RBool x)
  | Open name => x ← filesys_open fuel name; mret (RFile x)
  | Remove name => x ← filesys_remove fuel name; mret (RBool x)
  | Reopen f => x ← file_reopen (Some f); mret (RFile x)
  | Close f => file_close (Some f);; mret RUnit
  | Read f buffer size => '(n, l) ← file_read (Some f) buffer size; mret (RBytes n l)
  | Write f buffer size => x ← file_write (Some f) buffer size; mret (RNum x)
  | Seek f pos => file_seek (Some f) pos;; mret RUnit
  | Tell f => x ← file_tell (Some f); mret (RNum x)
  | Length f => x ← file_length (Some f); mret (RNum x)
  | Deny f => file_deny_write (Some f);; mret RUnit
  | Allow f => file_allow_write (Some f);; mret RUnit
  end.

(** A program that uses the file system, whose calls depend on earlier results. *)
Inductive client : Type :=
  | Stop
  | Call (c : cmd) (k : result → client).

(** Its calls, with their results. *)
Fixpoint run_client (fuel : nat) (p : client) : F (list (cmd * result)) :=
  match p with
  | Stop => mret []
  | Call c k => r ← exec fuel c; t ← run_client fuel (k r); mret ((c, r) :: t)
  end.

(** * The abstract file system *)

(** The directory, the contents of the files by the sector of their inode, the
    files that are no longer in the directory but still open, and the open files
    with their position and whether they deny writes. *)
Record afs := Afs {
  a_slots : list slot;
  a_store : gmap Z bytes;
  a_gone : gset Z;
  a_handles : gmap loc (Z * Z * bool);
}.

Definition open_on (sec : Z) (hs : gmap loc (Z * Z * bool)) : Prop := map_Exists (λ _ h, h.1.1 = sec) hs.
Definition denied_on (sec : Z) (hs : gmap loc (Z * Z * bool)) : Prop := map_Exists (λ _ h, h.1.1 = sec ∧ h.2 = true) hs.

#[export] Instance open_on_dec sec hs : Decision (open_on sec hs).
Proof. unfold open_on. apply _. Defined.
#[export] Instance denied_on_dec sec hs : Decision (denied_on sec hs).
Proof. unfold denied_on. apply _. Defined.

Definition with_handles (hs : gmap loc (Z * Z * bool)) (A : afs) : afs := Afs (a_slots A) (a_store A) (a_gone A) hs.

(** A file that is not in the directory goes when its last user closes it. *)
Definition close_handle (f : loc) (sec : Z) (A : afs) : afs :=
  let hs := base.delete f (a_handles A) in
  if decide (sec ∈ a_gone A ∧ ¬ open_on sec hs)
  then Afs (a_slots A) (base.delete sec (a_store A)) (a_gone A ∖ {[sec]}) hs
  else with_handles hs A.

(** Removing the entry at [j]: the file goes with it unless it is open. *)
Definition remove_slot (j : nat) (sec : Z) (A : afs) : afs :=
  let slots := <[j := None]> (a_slots A) in
  if decide (open_on sec (a_handles A))
  then Afs slots (a_store A) ({[sec]} ∪ a_gone A) (a_handles A)
  else Afs slots (base.delete sec (a_store A)) (a_gone A) (a_handles A).

Definition add_slot (j : nat) (name : bytes) (sec size : Z) (A : afs) : afs :=
  Afs (<[j := Some (name, sec)]> (a_slots A)) (<[sec := replicate (Z.to_nat size) 0]> (a_store A)) (a_gone A) (a_handles A).

Definition open_handle (f : loc) (sec : Z) (A : afs) : afs := with_handles (<[f := (sec, 0, false)]> (a_handles A)) A.

(** The steps.  [low] says that some allocation of memory may fail, and [full n]
    that there may be no room on the disk for a file of [n] sectors. *)
Inductive astep (low : Prop) (full : Z → Prop) (A : afs) : cmd → result → afs → Prop :=
  | step_create name size j sec :
      name ≠ [] → size_of name <= NAME_MAX → (find_name name (a_slots A) = None ∨ low) →
      (j < length (a_slots A))%nat → (find_free (a_slots A) = Some (j, None) ∨ low) →
      a_store A !! sec = None → sec ≠ FREE_MAP_SECTOR → sec ≠ ROOT_DIR_SECTOR →
      astep low full A (Create name size) (RBool true) (add_slot j name sec size A)
  | step_create_fails name size :
      name = [] ∨ NAME_MAX < size_of name ∨ is_Some (find_name name (a_slots A)) ∨
        find_free (a_slots A) = None ∨ full ((size + 511) / 512) ∨ low →
      astep low full A (Create name size) (RBool false) A
  | step_open name j sec f :
      find_name name (a_slots A) = Some (j, Some (name, sec)) → a_handles A !! f = None →
      astep low full A (Open name) (RFile (Some f)) (open_handle f sec A)
  | step_open_fails name : find_name name (a_slots A) = None ∨ low → astep low full A (Open name) (RFile NULL) A
  | step_remove name j sec :
      find_name name (a_slots A) = Some (j, Some (name, sec)) →
      astep low full A (Remove name) (RBool true) (remove_slot j sec A)
  | step_remove_fails name : find_name name (a_slots A) = None ∨ low → astep low full A (Remove name) (RBool false) A
  | step_reopen f sec pos deny f' :
      a_handles A !! f = Some (sec, pos, deny) → a_handles A !! f' = None →
      astep low full A (Reopen f) (RFile (Some f')) (open_handle f' sec A)
  | step_reopen_fails f sec pos deny :
      a_handles A !! f = Some (sec, pos, deny) → low → astep low full A (Reopen f) (RFile NULL) A
  | step_close f sec pos deny :
      a_handles A !! f = Some (sec, pos, deny) → astep low full A (Close f) RUnit (close_handle f sec A)
  | step_read f buffer size sec pos deny c n :
      a_handles A !! f = Some (sec, pos, deny) → a_store A !! sec = Some c →
      0 <= n <= avail size pos c → (n = avail size pos c ∨ low) →
      astep low full A (Read f buffer size) (RBytes n (splice 0 (slice pos n c) buffer))
        (with_handles (<[f := (sec, pos + n, deny)]> (a_handles A)) A)
  | step_write f buffer size sec pos deny c n :
      a_handles A !! f = Some (sec, pos, deny) → a_store A !! sec = Some c →
      0 <= n <= avail size pos c →
      (if decide (denied_on sec (a_handles A)) then n = 0 else n = avail size pos c ∨ low) →
      astep low full A (Write f buffer size) (RNum n)
        (Afs (a_slots A) (<[sec := splice pos (slice 0 n buffer) c]> (a_store A)) (a_gone A)
          (<[f := (sec, pos + n, deny)]> (a_handles A)))
  | step_seek f sec pos deny n :
      a_handles A !! f = Some (sec, pos, deny) →
      astep low full A (Seek f n) RUnit (with_handles (<[f := (sec, n, deny)]> (a_handles A)) A)
  | step_tell f sec pos deny :
      a_handles A !! f = Some (sec, pos, deny) → astep low full A (Tell f) (RNum pos) A
  | step_length f sec pos deny c :
      a_handles A !! f = Some (sec, pos, deny) → a_store A !! sec = Some c →
      astep low full A (Length f) (RNum (size_of c)) A
  | step_deny f sec pos deny :
      a_handles A !! f = Some (sec, pos, deny) →
      astep low full A (Deny f) RUnit (with_handles (<[f := (sec, pos, true)]> (a_handles A)) A)
  | step_allow f sec pos deny :
      a_handles A !! f = Some (sec, pos, deny) →
      astep low full A (Allow f) RUnit (with_handles (<[f := (sec, pos, false)]> (a_handles A)) A).

(** What a call may ask for. *)
Definition call_ok (A : afs) (c : cmd) : Prop :=
  match c with
  | Create name size => c_name name ∧ 0 <= size <= 2 ^ 31 - 513
  | Open name | Remove name => c_name name
  | Reopen f | Close f | Tell f | Length f | Deny f | Allow f => is_Some (a_handles A !! f)
  | Read f buffer size =>
      ∃ sec pos deny, a_handles A !! f = Some (sec, pos, deny) ∧ range_ok size pos ∧ size <= size_of buffer
  | Write f buffer size =>
      ∃ sec pos deny, a_handles A !! f = Some (sec, pos, deny) ∧ range_ok size pos ∧ size <= size_of buffer ∧
        Forall (in_u 8) buffer
  | Seek f pos => is_Some (a_handles A !! f) ∧ 0 <= pos
  end.

(** The number of open files does not overflow the counts. *)
Definition not_many (A : afs) : Prop := Z.of_nat (size (a_handles A)) < 2 ^ 31 - 16.

(** A program that only makes calls it may make, whatever the file system answers. *)
Fixpoint legal (low : Prop) (full : Z → Prop) (A : afs) (p : client) : Prop :=
  match p with
  | Stop => True
  | Call c k => call_ok A c ∧ not_many A ∧ ∀ r A', astep low full A c r A' → legal low full A' (k r)
  end.

(** The calls and results that the abstract file system allows. *)
Inductive asteps (low : Prop) (full : Z → Prop) : afs → list (cmd * result) → afs → Prop :=
  | asteps_nil A : asteps low full A [] A
  | asteps_cons A c r A' t A'' :
      astep low full A c r A' → asteps low full A' t A'' → asteps low full A ((c, r) :: t) A''.

Lemma astep_weaken (low low' : Prop) (full full' : Z → Prop) A c r A' :
  (low → low') → (∀ n, full n → full' n) → astep low full A c r A' → astep low' full' A c r A'.
Proof.
  intros Hl Hf. assert (∀ P : Prop, P ∨ low → P ∨ low') as Hor by tauto. intros [].
  all: try by econstructor; eauto.
  - apply step_create_fails. specialize (Hf ((size + 511) / 512)). tauto.
  - eapply step_write; [done..|]. destruct (decide (denied_on sec (a_handles A))); [done|tauto].
Qed.
