(* ===== verification/PintosFilesys.v ===== *)
(** The file system does what its specification says: each call of filesys.c and
    file.c on a well-formed state returns, and makes a step of the abstract file
    system. *)
From S2P Require Export PintosFsSpec.
Local Open Scope Z_scope.

(** * The abstract state of a state *)

(** The open file at [f] when the files are [m], if it is one of a user: its
    sector, position and flag. *)
Definition handle_in (s : fs) (m : gmap loc file) (f : loc) : option (Z * Z * bool) :=
  if decide (free_map_file s = Some f) then None
  else x ← m !! f; a ← f_inode x; y ← inodes s !! a; Some (sector y, f_pos x, f_deny x).

(** [s] is a state of the abstract file system [A]. *)
Record shows (live : gmap Z inode_disk) (A : afs) (s : fs) : Prop := {
  shows_inv : fs_inv live (a_gone A) [] s;
  shows_dirs : dirs s = ∅;
  shows_root : ∃ c, visible live s !! ROOT_DIR_SECTOR = Some c ∧ dir_rep (a_slots A) c;
  shows_store : a_store A = base.delete ROOT_DIR_SECTOR (visible live s);
  shows_slots : slots_ok (a_slots A) live (a_gone A);
  shows_length : 20 * Z.of_nat (length (a_slots A)) + 20 < 2 ^ 31;
  shows_handles f : a_handles A !! f = handle_in s (files s) f;
}.

(** There is no room for the inode and the sectors of a file. *)
Definition no_room (s : fs) (n : Z) : Prop := ∀ k, 0 <= k → ¬ group (free_map s) false (n + 1) k.

(** * Handles *)

Section handles.
Context (live : gmap Z inode_disk) (gone : gset Z) (extra : list loc) (s : fs) (H : fs_inv live gone extra s).
Context (m : gmap loc file) (hs : gmap loc (Z * Z * bool)).
Context (Hm : m ⊆ files s) (Hs : ∀ f, hs !! f = handle_in s m f).

(** A handle is a file with an inode. *)
Lemma handle_file f sec pos deny : hs !! f = Some (sec, pos, deny) →
  ∃ a y, m !! f = Some (File (Some a) pos deny) ∧ free_map_file s ≠ Some f ∧ inodes s !! a = Some y ∧ sector y = sec.
Proof using Hs.
  rewrite Hs. unfold handle_in. case_decide; [done|].
  destruct (m !! f) as [[p pos' deny']|] eqn:Hf; [|done]. simpl. destruct p as [a|]; [|done]. simpl.
  destruct (inodes s !! a) as [y|] eqn:Hy; [|done]. intros [= <- <- <-]. by exists a, y.
Qed.

Lemma file_handle f x : m !! f = Some x → free_map_file s ≠ Some f →
  ∃ a y, f_inode x = Some a ∧ inodes s !! a = Some y ∧ hs !! f = Some (sector y, f_pos x, f_deny x).
Proof using All.
  intros Hf Hne. pose proof (lookup_weaken _ _ _ _ Hf Hm) as Hf'.
  destruct (inv_user _ _ _ _ H f x Hf' Hne) as (a & y & E & Hy & _).
  exists a, y. split; [done|]. split; [done|]. rewrite Hs. unfold handle_in.
  rewrite decide_False // Hf /= E /= Hy. done.
Qed.

(** A file of the free map does not get in the way. *)
Lemma free_map_file_at f x : files s !! f = Some x → free_map_file s = Some f →
  f_deny x = false ∧ ∃ a y, f_inode x = Some a ∧ inodes s !! a = Some y ∧ sector y = FREE_MAP_SECTOR.
Proof using H.
  intros Hf E. destruct (inv_ready _ _ _ _ H) as (g & b & z & [R1 [pos R2] R3 R4 _ _ _]).
  rewrite R1 in E. simplify_eq/=. split; [done|]. by exists b, z.
Qed.

(** The inodes that users have open, by sector. *)
Lemma open_on_refs a y : inodes s !! a = Some y → sector y ≠ FREE_MAP_SECTOR →
  open_on (sector y) hs ↔ a ∈ collect f_inode m.
Proof using All.
  intros Hy Hne. unfold open_on, map_Exists. split.
  - intros (f & [[sec pos] deny] & Hf & E). simpl in E. subst sec.
    destruct (handle_file _ _ _ _ Hf) as (b & z & Hx & _ & Hz & Es).
    assert (b = a) as ->; [|apply elem_of_collect; by exists f, (File (Some a) pos deny)].
    eapply op_inj; [apply H|done..].
  - intros (f & x & Hf & E)%elem_of_collect. pose proof (lookup_weaken _ _ _ _ Hf Hm) as Hf'.
    destruct (decide (free_map_file s = Some f)) as [Hfm|Hfm].
    { destruct (free_map_file_at f x Hf' Hfm) as (_ & b & z & E' & Hz & Es). congruence. }
    destruct (file_handle f x Hf Hfm) as (b' & z' & E' & Hz' & Hh).
    exists f, (sector z', f_pos x, f_deny x). split; [done|]. simpl. congruence.
Qed.

Lemma denied_on_denies a y : inodes s !! a = Some y → denied_on (sector y) hs ↔ a ∈ collect deny_of m.
Proof using All.
  intros Hy. unfold denied_on, map_Exists. split.
  - intros (f & [[sec pos] deny] & Hf & E & Ed). simpl in E, Ed. subst sec deny.
    destruct (handle_file _ _ _ _ Hf) as (b & z & Hx & _ & Hz & Es).
    assert (b = a) as ->; [|apply elem_of_collect; by exists f, (File (Some a) pos true)].
    eapply op_inj; [apply H|done..].
  - intros (f & x & Hf & E)%elem_of_collect. unfold deny_of in E. pose proof (lookup_weaken _ _ _ _ Hf Hm) as Hf'.
    destruct (decide (free_map_file s = Some f)) as [Hfm|Hfm].
    { destruct (free_map_file_at f x Hf' Hfm) as (Ed & _). by rewrite Ed in E. }
    destruct (file_handle f x Hf Hfm) as (b' & z' & E' & Hz' & Hh).
    destruct (f_deny x) eqn:Ed; [|done]. exists f, (sector z', f_pos x, true). split; [done|]. simpl. split; [congruence|done].
Qed.
End handles.

(** * What stays the same for the open files *)

Record calm (s s' : fs) : Prop := {
  calm_files : files s' = files s;
  calm_capacity : capacity s' = capacity s;
  calm_free_map_file : free_map_file s' = free_map_file s;
  calm_plenty : plenty s → plenty s';
  calm_sector b y : b ∈ file_refs s → inodes s !! b = Some y → ∃ y', inodes s' !! b = Some y' ∧ sector y' = sector y;
}.

#[export] Instance calm_refl : Reflexive calm.
Proof. split; try done. intros b y _ Hy. by exists y. Qed.
#[export] Instance calm_trans : Transitive calm.
Proof.
  intros s1 s2 s3 [F1 C1 M1 P1 S1] [F2 C2 M2 P2 S2]. split; try congruence; auto.
  intros b y Hb Hy. destruct (S1 b y Hb Hy) as (y' & Hy' & <-). apply S2; [|done]. by rewrite /file_refs F1.
Qed.

Lemma same_calm s s' : same_memory s s' → calm s s'.
Proof. intros []. split; try done. intros b y _ Hy. exists y. split; [congruence|done]. Qed.

Lemma step_calm live gone extra sec s s' : inode_step sec s s' → fs_inv live gone extra s' → calm s s'.
Proof.
  intros [C Fi Di Fm P O Se] H. split; try done. intros b y Hb Hy.
  destruct (op_held _ _ _ _ _ (inv_opened _ _ _ _ H) b) as [y' Hy'].
  { apply elem_of_app. right. by rewrite /file_refs Fi. }
  exists y'. split; [done|]. by eapply Se.
Qed.

Lemma calm_handles live gone extra s s' f : fs_inv live gone extra s → calm s s' →
  handle_in s' (files s') f = handle_in s (files s) f.
Proof.
  intros H [F C M P S]. unfold handle_in. rewrite M. case_decide as Hfm; [done|]. rewrite F.
  destruct (files s !! f) as [x|] eqn:Hf; [|done]. simpl.
  destruct (inv_user _ _ _ _ H f x Hf Hfm) as (a & y & E & Hy & _). rewrite E /=.
  destruct (S a y) as (y' & Hy' & Es); [apply elem_of_collect; by exists f, x|done|]. by rewrite Hy Hy' /= Es.
Qed.

(** After an operation on a file. *)
Lemma step_handles live gone extra live' gone' extra' m s s' f :
  fs_inv live gone extra s → fs_inv live' gone' extra' s' → file_step m s s' →
  (∀ a, a ∈ collect f_inode m → is_Some (inodes s !! a)) →
  handle_in s' (files s') f = handle_in s m f.
Proof.
  intros H H' [F1 F2 F3 F4 F5 F6] Hm. unfold handle_in. rewrite F4. case_decide as Hfm; [done|]. rewrite F1.
  destruct (m !! f) as [x|] eqn:Hf; [|done]. simpl. destruct (f_inode x) as [a|] eqn:E; [|done]. simpl.
  assert (a ∈ collect f_inode m) as Ha by (apply elem_of_collect; by exists f, x).
  destruct (Hm a Ha) as [y Hy]. destruct (op_held _ _ _ _ _ (inv_opened _ _ _ _ H') a) as [y' Hy'].
  { apply elem_of_app. right. by rewrite /file_refs F1. }
  by rewrite Hy Hy' /= (F6 _ _ _ Hy Hy').
Qed.

Lemma handle_in_insert s m f x a y g : free_map_file s ≠ Some f → f_inode x = Some a → inodes s !! a = Some y →
  handle_in s (<[f := x]> m) g = if decide (g = f) then Some (sector y, f_pos x, f_deny x) else handle_in s m g.
Proof.
  intros Hne E Hy. unfold handle_in. destruct (decide (g = f)) as [->|Hg].
  - rewrite decide_False // lookup_insert_eq /= E /= Hy. done.
  - by rewrite lookup_insert_ne.
Qed.

Lemma handle_in_delete s m f g : handle_in s (base.delete f m) g = if decide (g = f) then None else handle_in s m g.
Proof.
  unfold handle_in. destruct (decide (g = f)) as [->|Hg].
  - rewrite lookup_delete_eq. by case_decide.
  - by rewrite lookup_delete_ne.
Qed.

Lemma shows_few live A s extra : shows live A s → not_many A → (length extra < 8)%nat → few extra s.
Proof.
  unfold not_many, few. intros H Hn He. destruct (inv_ready _ _ _ _ (shows_inv _ _ _ H)) as (g & b & z & [R1 _ _ _ _ _ _]).
  assert (dom (files s) ⊆ {[g]} ∪ dom (a_handles A)) as Hsub.
  { intros f [x Hf]%elem_of_dom. apply elem_of_union. destruct (decide (f = g)) as [->|Hne]; [left; by apply elem_of_singleton|right].
    destruct (file_handle _ _ _ _ (shows_inv _ _ _ H) (files s) _ ltac:(done) (shows_handles _ _ _ H) f x Hf) as (a & y & _ & _ & Hh); [congruence|].
    apply elem_of_dom. by exists (sector y, f_pos x, f_deny x). }
  apply subseteq_size in Hsub. rewrite size_dom in Hsub.
  pose proof (size_union_alt {[g]} (dom (a_handles A))) as Hu. rewrite Hu size_singleton in Hsub.
  assert (size (dom (a_handles A) ∖ {[g]}) <= size (dom (a_handles A)))%nat as Hle.
  { apply subseteq_size. intros f [? _]%elem_of_difference. done. }
  rewrite size_dom in Hle. lia.
Qed.

(** A file is opened after steps that do not show. *)
Lemma shows_opened live A s s1 extra a y f s2 :
  shows live A s → calm s s1 → same_disk s s1 → dirs s1 = ∅ → fs_inv live (a_gone A) extra s1 →
  inodes s1 !! a = Some y → free_map_file s1 ≠ Some f → files s1 !! f = None →
  fs_inv live (a_gone A) [] s2 → file_step (<[f := File (Some a) 0 false]> (files s1)) s1 s2 → same_disk s1 s2 →
  shows live (open_handle f (sector y) A) s2.
Proof.
  intros H Hc Hd1 Hdirs H1 Hy Hu Hf H2 Hs Hd2. pose proof H as [S1 S2 S3 S4 S5 S6 S7].
  assert (same_disk s s2) as Hd by by etrans. split; simpl; try done; rewrite ?(visible_same _ _ _ Hd); try done.
  - by rewrite (fstep_dirs _ _ _ Hs).
  - intros g. rewrite (step_handles _ _ _ _ _ _ _ _ _ g H1 H2 Hs).
    + erewrite handle_in_insert; [|done..]. destruct (decide (g = f)) as [->|]; [by rewrite lookup_insert_eq|].
      rewrite lookup_insert_ne // S7. symmetry. by eapply calm_handles.
    + intros b. rewrite collect_insert // elem_of_cons. intros [->|Hb]; [by exists y|].
      apply (op_held _ _ _ _ _ (inv_opened _ _ _ _ H1)), elem_of_app. by right.
Qed.

(** * Operations on open files *)

(** A call returns, and makes a step of the abstract file system; when there is
    memory, there is memory after it and the free map on the disk stays up to date. *)
Definition refined (fuel : nat) (A : afs) (c : cmd) (live : gmap Z inode_disk) (s : fs) : Prop :=
  ∃ r s' live' A', exec fuel c s = Ret r s' ∧ shows live' A' s' ∧ astep (¬ plenty s) (no_room s) A c r A' ∧
    (plenty s → plenty s') ∧ (plenty s → synced live s → synced live' s') ∧ capacity s' = capacity s.

Section files.
Context (live : gmap Z inode_disk) (A : afs) (s : fs) (fuel : nat) (H : shows live A s) (Hmany : not_many A).
Context (f : loc) (sec pos : Z) (deny : bool) (Hh : a_handles A !! f = Some (sec, pos, deny)).

Lemma shows_file : ∃ a y, files s !! f = Some (File (Some a) pos deny) ∧ free_map_file s ≠ Some f ∧
  inodes s !! a = Some y ∧ sector y = sec ∧ sec ≠ FREE_MAP_SECTOR ∧ sec ≠ ROOT_DIR_SECTOR.
Proof using H Hh.
  destruct (handle_file _ _ _ (shows_handles _ _ _ H) _ _ _ _ Hh) as (a & y & Hf & Hu & Hy & <-).
  destruct (inv_user _ _ _ _ (shows_inv _ _ _ H) f _ Hf Hu) as (a' & y' & [= <-] & Hy' & Hne). simplify_eq. by exists a, y.
Qed.

Lemma shows_store_lookup k c : k ≠ ROOT_DIR_SECTOR → visible live s !! k = Some c → a_store A !! k = Some c.
Proof using H. intros Hne Hc. by rewrite (shows_store _ _ _ H) lookup_delete_ne. Qed.

Lemma file_refs_open a : a ∈ file_refs s → is_Some (inodes s !! a).
Proof using H. intros Ha. by apply (op_held _ _ _ _ _ (inv_opened _ _ _ _ (shows_inv _ _ _ H))). Qed.

(** Changing the position and the flag of a file, and the data of files. *)
Lemma shows_update a y n d s' :
  files s !! f = Some (File (Some a) pos deny) → free_map_file s ≠ Some f → inodes s !! a = Some y →
  fs_inv live (a_gone A) [] s' → file_step (<[f := File (Some a) n d]> (files s)) s s' →
  visible live s' !! ROOT_DIR_SECTOR = visible live s !! ROOT_DIR_SECTOR →
  shows live (Afs (a_slots A) (base.delete ROOT_DIR_SECTOR (visible live s')) (a_gone A)
    (<[f := (sector y, n, d)]> (a_handles A))) s'.
Proof using H.
  intros Hf Hu Hy H' Hs Hr. pose proof H as [S1 S2 S3 S4 S5 S6 S7]. split; simpl; try done.
  - by rewrite (fstep_dirs _ _ _ Hs).
  - by rewrite Hr.
  - intros g. rewrite (step_handles _ _ _ _ _ _ _ _ _ g S1 H' Hs).
    + erewrite handle_in_insert; [|done..]. rewrite -S7. cbn [f_pos f_deny]. destruct (decide (g = f)) as [->|].
      * by rewrite lookup_insert_eq.
      * by rewrite lookup_insert_ne.
    + intros b. rewrite (collect_update _ _ _ _ _ Hf) //. apply file_refs_open.
Qed.

Lemma shows_update_same a y n d s' :
  files s !! f = Some (File (Some a) pos deny) → free_map_file s ≠ Some f → inodes s !! a = Some y →
  fs_inv live (a_gone A) [] s' → file_step (<[f := File (Some a) n d]> (files s)) s s' → same_disk s s' →
  shows live (with_handles (<[f := (sector y, n, d)]> (a_handles A)) A) s'.
Proof using H.
  intros Hf Hu Hy H' Hs Hd. unfold with_handles. rewrite (shows_store _ _ _ H) -(visible_same _ _ _ Hd).
  eapply shows_update; try done. by rewrite (visible_same _ _ _ Hd).
Qed.

Lemma read_refined buffer size : range_ok size pos → size <= size_of buffer → refined fuel A (Read f buffer size) live s.
Proof using H Hh.
  intros Hr Hb. destruct shows_file as (a & y & Hf & Hu & Hy & <- & Hn0 & Hn1).
  destruct (inv_file_read _ _ _ _ _ _ _ _ (shows_inv _ _ _ H) Hf Hu buffer size Hr Hb)
    as (c & n & s' & y' & Hy' & Hc & Hrun & Hn & Hp & Hd & H' & Hs). simplify_eq.
  eexists _, s', live, _. split; [by rewrite /= (M_bind_Ret _ _ _ _ _ Hrun)|]. split; [by eapply shows_update_same|].
  split; [|split; [apply Hs|split; [intros _; by apply synced_same|apply Hs]]].
  eapply step_read; [done|by apply shows_store_lookup|done|done].
Qed.

Lemma write_refined buffer size : range_ok size pos → size <= size_of buffer → Forall (in_u 8) buffer →
  refined fuel A (Write f buffer size) live s.
Proof using H Hh.
  intros Hr Hb Hbytes. destruct shows_file as (a & y & Hf & Hu & Hy & <- & Hn0 & Hn1).
  destruct (inv_file_write _ _ _ _ _ _ _ _ (shows_inv _ _ _ H) Hf Hu buffer size Hr Hb Hbytes)
    as (c & n & s' & y' & Hy' & Hc & Hrun & Hn & Hp & Hv & Hsync & H' & Hs). simplify_eq.
  eexists _, s', live, (Afs (a_slots A) (<[sector y := splice pos (slice 0 n buffer) c]> (a_store A)) (a_gone A)
    (<[f := (sector y, pos + n, deny)]> (a_handles A))).
  split; [by rewrite /= (M_bind_Ret _ _ _ _ _ Hrun)|]. split; [|split; [|split; [apply Hs|split; [by intros _|apply Hs]]]].
  - rewrite (shows_store _ _ _ H) -delete_insert_ne // -Hv. eapply shows_update; try done. by rewrite Hv lookup_insert_ne.
  - eapply step_write; [done|by apply shows_store_lookup|done|].
    pose proof (denied_on_denies _ _ _ _ (shows_inv _ _ _ H) (files s) _ ltac:(done) (shows_handles _ _ _ H) _ _ Hy) as Hden.
    destruct (decide (denied_on (sector y) (a_handles A))) as [Hd|Hd].
    + rewrite bool_decide_true // in Hp. by apply Hden.
    + rewrite bool_decide_false // in Hp. by rewrite -Hden.
Qed.

Lemma seek_refined n : 0 <= n → refined fuel A (Seek f n) live s.
Proof using H Hh.
  intros Hn. destruct shows_file as (a & y & Hf & Hu & Hy & <- & Hn0 & Hn1).
  destruct (inv_file_seek _ _ _ _ _ _ _ _ (shows_inv _ _ _ H) Hf Hu n Hn) as (s' & Hrun & Hd & H' & Hs).
  eexists _, s', live, _. split; [by rewrite /= (M_bind_Ret _ _ _ _ _ Hrun)|]. split; [by eapply shows_update_same|].
  split; [by eapply step_seek|]. split; [apply Hs|]. split; [intros _; by apply synced_same|apply Hs].
Qed.

Lemma tell_refined : refined fuel A (Tell f) live s.
Proof using H Hh.
  destruct shows_file as (a & y & Hf & Hu & Hy & <- & Hn0 & Hn1).
  pose proof (inv_file_tell _ _ _ _ _ _ _ _ (shows_inv _ _ _ H) Hf Hu) as Hrun.
  eexists _, s, live, A. split; [by rewrite /= (M_bind_Ret _ _ _ _ _ Hrun)|]. split; [done|]. split; [by eapply step_tell|done].
Qed.

Lemma length_refined : refined fuel A (Length f) live s.
Proof using H Hh.
  destruct shows_file as (a & y & Hf & Hu & Hy & <- & Hn0 & Hn1).
  destruct (inv_file_length _ _ _ _ _ _ _ _ (shows_inv _ _ _ H) Hf Hu) as (c & y' & Hy' & Hc & Hrun). simplify_eq.
  eexists _, s, live, A. split; [by rewrite /= (M_bind_Ret _ _ _ _ _ Hrun)|]. split; [done|].
  split; [|done]. eapply step_length; [done|by apply shows_store_lookup].
Qed.

Lemma deny_refined : refined fuel A (Deny f) live s.
Proof using H Hh Hmany.
  destruct shows_file as (a & y & Hf & Hu & Hy & <- & Hn0 & Hn1).
  destruct (inv_file_deny_write _ _ _ _ _ _ _ _ (shows_inv _ _ _ H) Hf Hu) as (s' & Hrun & Hd & H' & Hs);
    [by eapply shows_few; [..|simpl; lia]|].
  eexists _, s', live, _. split; [by rewrite /= (M_bind_Ret _ _ _ _ _ Hrun)|]. split; [by eapply shows_update_same|].
  split; [by eapply step_deny|]. split; [apply Hs|]. split; [intros _; by apply synced_same|apply Hs].
Qed.

Lemma allow_refined : refined fuel A (Allow f) live s.
Proof using H Hh Hmany.
  destruct shows_file as (a & y & Hf & Hu & Hy & <- & Hn0 & Hn1).
  destruct (inv_file_allow_write _ _ _ _ _ _ _ _ (shows_inv _ _ _ H) Hf Hu) as (s' & Hrun & Hd & H' & Hs);
    [by eapply shows_few; [..|simpl; lia]|].
  eexists _, s', live, _. split; [by rewrite /= (M_bind_Ret _ _ _ _ _ Hrun)|]. split; [by eapply shows_update_same|].
  split; [by eapply step_allow|]. split; [apply Hs|]. split; [intros _; by apply synced_same|apply Hs].
Qed.

(** A file that is not there is no handle, and is not the file of the free map. *)
Lemma no_file f' : files s !! f' = None → a_handles A !! f' = None ∧ free_map_file s ≠ Some f'.
Proof using H.
  intros Hf'. rewrite (shows_handles _ _ _ H). unfold handle_in. rewrite Hf' /=. split; [by case_decide|].
  destruct (inv_ready _ _ _ _ (shows_inv _ _ _ H)) as (g & b & z & [R1 [p R2] _ _ _ _ _]). congruence.
Qed.

Lemma reopen_refined : refined fuel A (Reopen f) live s.
Proof using H Hh Hmany.
  destruct shows_file as (a & y & Hf & Hu & Hy & <- & Hn0 & Hn1).
  destruct (inv_file_reopen _ _ _ _ _ _ _ _ (shows_inv _ _ _ H) Hf Hu) as
    [(f' & s' & Hrun & Hf' & Hd & H' & Hs)|(s' & Hrun & Hp & Hd & H' & Hs)]; [by eapply shows_few; [..|simpl; lia]| |].
  - destruct (no_file f' Hf') as [Hh' Hu'].
    eexists _, s', live, _. split; [by rewrite /= (M_bind_Ret _ _ _ _ _ Hrun)|].
    split; [eapply (shows_opened live A s s); try done; apply H|].
    split; [by eapply step_reopen|]. split; [apply Hs|]. split; [intros _; by apply synced_same|apply Hs].
  - eexists _, s', live, A. split; [by rewrite /= (M_bind_Ret _ _ _ _ _ Hrun)|]. split; [|split; [by eapply step_reopen_fails|]].
    + pose proof H as [S1 S2 S3 S4 S5 S6 S7]. split; try done.
      * by rewrite (fstep_dirs _ _ _ Hs).
      * by rewrite (visible_same _ _ _ Hd).
      * by rewrite (visible_same _ _ _ Hd).
      * intros g. rewrite S7. symmetry. apply (step_handles _ _ _ _ _ _ _ _ _ g S1 H' Hs). intros b. apply file_refs_open.
    + split; [apply Hs|]. split; [intros _; by apply synced_same|apply Hs].
Qed.

(** The inodes of removed files are not in the directory. *)
Lemma slots_ok_delete slots gone k : slots_ok slots live gone → k ∈ gone → slots_ok slots (base.delete k live) (gone ∖ {[k]}).
Proof using.
  clear. intros [S1 S2] Hk. split; [|done]. intros j name sec Hj. destruct (S1 _ _ _ Hj) as (Hl & Hn0 & Hn1 & Hg).
  split; [|split; [done|split; [done|]]]; [|by intros [? _]%elem_of_difference]. rewrite lookup_delete_ne; [done|]. by intros ->.
Qed.

Lemma close_refined : refined fuel A (Close f) live s.
Proof using H Hh Hmany.
  destruct shows_file as (a & y & Hf & Hu & Hy & <- & Hn0 & Hn1).
  destruct (inv_file_close _ _ _ _ _ _ _ _ (shows_inv _ _ _ H) Hf Hu)
    as (s' & live' & gone' & y' & Hy' & Hrun & H' & Hs & Heff); [by eapply shows_few; [..|simpl; lia]|]. simplify_eq.
  exists RUnit, s', live', (close_handle f (sector y) A).
  split; [by rewrite /= (M_bind_Ret _ _ _ _ _ Hrun)|]. pose proof H as [S1 S2 S3 S4 S5 S6 S7].
  assert (∀ g, handle_in s' (files s') g = base.delete f (a_handles A) !! g) as Hhs.
  { intros g. rewrite (step_handles _ _ _ _ _ _ _ _ _ g S1 H' Hs).
    - rewrite handle_in_delete -S7. destruct (decide (g = f)) as [->|]; [by rewrite lookup_delete_eq|by rewrite lookup_delete_ne].
    - intros b Hb. apply file_refs_open. unfold file_refs. rewrite (collect_delete _ _ _ _ Hf). simpl. by right. }
  assert (open_on (sector y) (base.delete f (a_handles A)) ↔ a ∈ collect f_inode (base.delete f (files s))) as Hopen.
  { eapply (open_on_refs live _ [] s); [done|apply delete_subseteq| |done|done].
    intros g. rewrite handle_in_delete -S7. destruct (decide (g = f)) as [->|]; [by rewrite lookup_delete_eq|by rewrite lookup_delete_ne]. }
  assert (dirs s' = ∅) as Hdirs by by rewrite (fstep_dirs _ _ _ Hs).
  split; [|split; [by eapply step_close|split; [apply Hs|split; [|apply Hs]]]].
  - unfold close_handle, close_effect in *.
    destruct (decide (sector y ∈ a_gone A ∧ ¬ open_on (sector y) (base.delete f (a_handles A)))) as [[Hg Ho]|Hd].
    + rewrite !bool_decide_true // in Heff; [|simpl; tauto]. destruct Heff as (-> & -> & Hv & _).
      assert (visible (base.delete (sector y) live) s' !! ROOT_DIR_SECTOR = visible live s !! ROOT_DIR_SECTOR) as Hr.
      { by rewrite Hv lookup_delete_ne. }
      split; simpl; try done; [by rewrite Hr|by rewrite Hv S4 delete_delete|by apply slots_ok_delete].
    + assert (bool_decide (a ∉ [] ++ collect f_inode (base.delete f (files s))) && bool_decide (sector y ∈ a_gone A) = false) as Hf0.
      { apply andb_false_iff. rewrite !bool_decide_eq_false. simpl. destruct (decide (sector y ∈ a_gone A)); [left|by right].
        intros Ha. apply Hd. split; [done|]. tauto. }
      rewrite Hf0 in Heff. destruct Heff as (-> & -> & Hd').
      split; simpl; try done; by rewrite (visible_same _ _ _ Hd').
  - intros Hp Hsy. unfold close_effect in Heff. simpl app in Heff. destruct (bool_decide _ && bool_decide _).
    + destruct Heff as (-> & -> & _ & Heff). by apply Heff.
    + destruct Heff as (-> & -> & Heff). by eapply synced_same.
Qed.
End files.
