(* ===== verification/PintosNames.v ===== *)
(** Creating, opening and removing files by name refines the abstract file system,
    and so does every program that uses the file system. *)
From S2P Require Export PintosFilesys.
Local Open Scope Z_scope.

(** * Opening and closing the root directory *)

Lemma fs_inv_dirs live gone extra m s : fs_inv live gone extra s → fs_inv live gone extra (with_dirs m s).
Proof.
  intros [I1 I2 (f & a & x & [R1 R2 R3 R4 R5 R6 R7]) I4 I5].
  split; [by apply (layout_same _ s)|by apply (opened_same _ _ _ _ s)|by exists f, a, x|done|done].
Qed.

(** [dir_open] when no directory is open. *)
Lemma new_dir_run s : dirs s = ∅ → ∃ p s', new_dir (Dir NULL 0) s = Ret p s' ∧
  match p with
  | Some d => ∃ s1, later s s1 ∧ s' = with_dirs {[d := Dir NULL 0]} s1
  | None => later s s' ∧ ¬ plenty s
  end.
Proof.
  intros Hs. unfold new_dir. destruct (malloc_ok_run s) as (ok & s1 & Hrun & Hl & Hok).
  rewrite (M_bind_Ret _ _ _ _ _ Hrun). cbv beta. destruct ok.
  - rewrite run_gets (same_dirs _ _ (later_same _ _ Hl)) Hs run_modify.
    exists (Some (fresh (dom (∅ : gmap loc dir)))). eexists. split; [done|]. exists s1. by rewrite insert_empty.
  - exists NULL, s1. split; [done|]. split; [done|by apply Hok].
Qed.

Lemma dir_open_null s : dirs s = ∅ → ∃ s', dir_open NULL s = Ret NULL s' ∧ later s s'.
Proof.
  intros Hs. unfold dir_open. destruct (new_dir_run s Hs) as (p & s1 & Hrun & Hp). rewrite (M_bind_Ret _ _ _ _ _ Hrun). cbv beta.
  destruct p as [d|].
  - destruct Hp as (s2 & Hl & ->). rewrite bool_decide_false; [|tauto]. unfold inode_close, free_dir.
    rewrite run_ret run_assoc. erewrite get_dir_run; [|apply lookup_singleton_eq]. run. exists s2. split; [|done].
    cbn [dirs with_dirs]. rewrite delete_singleton_eq. pose proof (same_dirs _ _ (later_same _ _ Hl)) as E. rewrite Hs in E. destruct s2; simpl in *. by subst.
  - rewrite bool_decide_false; [|tauto]. unfold inode_close, free_dir. run. exists s1. tauto.
Qed.

Lemma dir_open_run live gone s a x :
  fs_inv live gone [a] s → few [] s → dirs s = ∅ → inodes s !! a = Some x → sector x = ROOT_DIR_SECTOR →
  ∃ p s', dir_open (Some a) s = Ret p s' ∧ calm s s' ∧ same_disk s s' ∧
    match p with
    | Some d => fs_inv live gone [a] s' ∧ inodes s' = inodes s ∧ dirs s' = {[d := Dir (Some a) 0]}
    | None => fs_inv live gone [] s' ∧ dirs s' = ∅ ∧ ¬ plenty s
    end.
Proof.
  intros H Hfew Hs Hx Hxs. unfold dir_open. destruct (new_dir_run s Hs) as (p & s1 & Hrun & Hp). rewrite (M_bind_Ret _ _ _ _ _ Hrun). cbv beta.
  destruct p as [d|].
  - destruct Hp as (s2 & Hl & ->). pose proof (later_same _ _ Hl) as Hs2. rewrite bool_decide_true //. unfold set_dir.
    rewrite run_assoc. erewrite get_dir_run; [|apply lookup_singleton_eq]. run.
    exists (Some d). eexists. split; [done|]. cbn [dirs with_dirs]. rewrite insert_singleton_eq.
    set (m := {[d := _]}). assert (∀ m', with_dirs m (with_dirs m' s2) = with_dirs m s2) as -> by done.
    split; [by destruct (same_calm _ _ Hs2); split|]. split; [etrans; [by apply later_same_disk|done]|].
    split; [by eapply fs_inv_dirs, fs_inv_later|]. split; [apply Hs2|done].
  - destruct Hp as [Hl Hp]. pose proof (later_same _ _ Hl) as Hs1. rewrite bool_decide_false; [|tauto].
    destruct (inv_inode_close live gone [] s1 a x) as (s2 & live' & gone' & Hrun2 & Hs2 & H2 & Heff);
      [by eapply fs_inv_later|by eapply few_same|by rewrite (same_inodes _ _ Hs1)|by rewrite Hxs|].
    rewrite (M_bind_Ret _ _ _ _ _ Hrun2). unfold free_dir. run.
    unfold close_effect in Heff. rewrite (bool_decide_false (sector x ∈ _)) in Heff.
    2: { rewrite Hxs. by intros [_ ?]%(inv_system _ _ _ _ H). }
    rewrite andb_false_r in Heff. destruct Heff as (-> & -> & Hd2).
    exists NULL, s2. split; [done|]. split; [etrans; [by apply same_calm|by eapply step_calm]|].
    split; [etrans; [by apply later_same_disk|done]|]. split; [done|].
    by rewrite (step_dirs _ _ _ Hs2) (same_dirs _ _ Hs1).
Qed.

Section root_dir.
Context (live : gmap Z inode_disk) (A : afs) (s : fs) (H : shows live A s) (Hmany : not_many A).

(** A state in which the open files have not changed. *)
Lemma shows_intro live' A' s' c :
  fs_inv live' (a_gone A') [] s' → calm s s' → dirs s' = ∅ → a_handles A' = a_handles A →
  visible live' s' !! ROOT_DIR_SECTOR = Some c → dir_rep (a_slots A') c → slots_ok (a_slots A') live' (a_gone A') →
  length (a_slots A') = length (a_slots A) → a_store A' = base.delete ROOT_DIR_SECTOR (visible live' s') → shows live' A' s'.
Proof using H.
  intros H' Hcalm Hdirs Hh Hc Hrep Hok Hlen Hst. pose proof H as [S1 S2 S3 S4 S5 S6 S7]. split; try done.
  - by exists c.
  - by rewrite Hlen.
  - intros f. rewrite Hh S7. symmetry. by eapply calm_handles.
Qed.

(** A state in which nothing has changed for users. *)
Lemma shows_same s' :
  fs_inv live (a_gone A) [] s' → calm s s' → visible live s' = visible live s → dirs s' = ∅ → shows live A s'.
Proof using H.
  intros H' Hcalm Hd Hdirs. pose proof H as [S1 S2 (c & Hc & Hrep) S4 S5 S6 S7].
  eapply shows_intro; try done; by rewrite Hd.
Qed.

(** What a function sees after opening the root directory. *)
Lemma dir_open_root_run :
  ∃ p s', dir_open_root s = Ret p s' ∧ calm s s' ∧ same_disk s s' ∧
    match p with
    | Some d => ∃ a x c, root_dir live (a_gone A) [a] (a_slots A) c d a x s' ∧ dirs s' = {[d := Dir (Some a) 0]}
    | None => shows live A s' ∧ ¬ plenty s
    end.
Proof using All.
  pose proof H as [S1 S2 (c & Hc & Hrep) S4 S5 S6 S7].
  assert (∃ dd, live !! ROOT_DIR_SECTOR = Some dd) as [dd Hdd].
  { unfold visible in Hc. rewrite lookup_delete_ne // in Hc. unfold contents in Hc. rewrite lookup_fmap in Hc.
    destruct (live !! ROOT_DIR_SECTOR) as [dd|]; [by exists dd|done]. }
  assert (∀ extra s', calm s s' → (length extra < 8)%nat → few extra s') as Hfew.
  { intros extra s' Hcalm. unfold few. rewrite (calm_files _ _ Hcalm). by apply (shows_few live A s extra H Hmany). }
  unfold dir_open_root.
  destruct (inv_inode_open live (a_gone A) [] s S1) with (sec := ROOT_DIR_SECTOR) (d := dd) as (p & s1 & Hrun1 & Hs1 & Hd1 & Hp);
    [apply Hfew; [done|simpl; lia]|done|done|].
  rewrite (M_bind_Ret _ _ _ _ _ Hrun1). assert (dirs s1 = ∅) as Hdirs1 by by rewrite (step_dirs _ _ _ Hs1).
  destruct p as [a|]; destruct Hp as [Hinv Hp]; pose proof (step_calm _ _ _ _ _ _ Hs1 Hinv) as Hc1.
  - destruct Hp as (x & Hx & Hxs).
    destruct (dir_open_run _ _ _ _ _ Hinv ltac:(apply Hfew; [done|simpl; lia]) Hdirs1 Hx Hxs) as (p & s2 & Hrun2 & Hc2 & Hd2 & Hp).
    assert (calm s s2) as Hc' by by etrans. assert (same_disk s s2) as Hd by by etrans.
    exists p, s2. split; [done|]. split; [done|]. split; [done|]. destruct p as [d|].
    + destruct Hp as (H2 & Hi & Hdirs). exists a, x, c. split; [|done]. split; try done.
      * apply Hfew; [done|simpl; lia].
      * exists 0. rewrite Hdirs. apply lookup_singleton_eq.
      * by rewrite Hi.
      * by rewrite (visible_same _ _ _ Hd).
    + destruct Hp as (H2 & Hdirs & Hp). split; [by apply shows_same; [..|apply visible_same|]|]. intros ?. by apply Hp, Hs1.
  - destruct (dir_open_null s1 Hdirs1) as (s2 & Hrun2 & Hl).
    assert (calm s s2) as Hc' by (etrans; [done|by apply same_calm, later_same]).
    assert (same_disk s s2) as Hd by (etrans; [done|by apply later_same_disk]).
    exists NULL, s2. split; [done|]. split; [done|]. split; [done|]. split; [|done].
    apply shows_same; [by eapply fs_inv_later|done|by apply visible_same|]. by rewrite (same_dirs _ _ (later_same _ _ Hl)).
Qed.
End root_dir.

Lemma dir_close_run live gone extra slots c d a x pos s :
  root_dir live gone (a :: extra) slots c d a x s → dirs s = {[d := Dir (Some a) pos]} →
  ∃ s', dir_close (Some d) s = Ret tt s' ∧ calm s s' ∧ same_disk s s' ∧ dirs s' = ∅ ∧ fs_inv live gone extra s' ∧
    (∀ b y, b ≠ a → inodes s !! b = Some y → inodes s' !! b = Some y).
Proof.
  intros [H1 H2 H3 H4 H5 H6 H7 H8] Hdirs. unfold dir_close. erewrite get_dir_run; [|by rewrite Hdirs lookup_singleton_eq]. cbn [d_inode].
  destruct (inv_inode_close live gone extra s a x) as (s1 & live' & gone' & Hrun1 & Hs1 & Hi1 & Heff);
    [done|unfold few in *; simpl in H2; lia|done|by rewrite H5|].
  rewrite (M_bind_Ret _ _ _ _ _ Hrun1). unfold close_effect in Heff. rewrite (bool_decide_false (sector x ∈ _)) in Heff.
  2: { rewrite H5. by intros [_ ?]%(inv_system _ _ _ _ H1). }
  rewrite andb_false_r in Heff. destruct Heff as (-> & -> & Hd1). unfold free_dir.
  assert (dirs s1 = {[d := Dir (Some a) pos]}) as Hdirs1 by by rewrite (step_dirs _ _ _ Hs1).
  erewrite get_dir_run; [|by rewrite Hdirs1 lookup_singleton_eq]. rewrite run_gets Hdirs1 delete_singleton_eq.
  eexists. split; [done|]. split; [by destruct (step_calm _ _ _ _ _ _ Hs1 Hi1); split|].
  split; [etrans; [exact Hd1|done]|]. split; [done|]. split; [by apply fs_inv_dirs|].
  intros b y Hne Hy. apply (step_others _ _ _ Hs1); [done|]. rewrite H5. intros E. apply Hne.
  eapply (op_inj _ _ _ _ _ (inv_opened _ _ _ _ H1)); [done..|congruence].
Qed.

(** * Opening a file *)

Lemma root_dir_perm live gone extra extra' slots c d a x s :
  extra ≡ₚ extra' → root_dir live gone extra slots c d a x s → root_dir live gone extra' slots c d a x s.
Proof.
  intros E [H1 H2 H3 H4 H5 H6 H7 H8]. split; try done; [by eapply fs_inv_perm|]. unfold few in *. by rewrite -E.
Qed.

Section names.
Context (live : gmap Z inode_disk) (A : afs) (s : fs) (H : shows live A s) (Hmany : not_many A).
Context (fuel : nat) (Hfuel : (length (a_slots A) < fuel)%nat) (name : bytes) (Hname : c_name name).

Lemma calm_few s' extra : calm s s' → (length extra < 8)%nat → few extra s'.
Proof using H Hmany. intros Hcalm. unfold few. rewrite (calm_files _ _ Hcalm). by apply (shows_few live A s extra H Hmany). Qed.

(** Failing to open. *)
Lemma open_null_refined s1 : shows live A s1 → calm s s1 → same_disk s s1 →
  (find_name name (a_slots A) = None ∨ ¬ plenty s) →
  ∃ s' live' A', file_open NULL s1 = Ret NULL s' ∧ shows live' A' s' ∧
    astep (¬ plenty s) (no_room s) A (Open name) (RFile NULL) A' ∧ (plenty s → plenty s') ∧
    (plenty s → synced live s → synced live' s') ∧ capacity s' = capacity s.
Proof using.
  intros H1 Hc1 Hd1 Hno. destruct (file_open_null s1) as (s2 & Hrun & Hs2 & Hd2).
  assert (calm s s2) as Hc2 by (etrans; [done|by apply same_calm]). exists s2, live, A. split; [done|]. split; [|split; [|split; [|split]]].
  - apply (shows_same _ _ _ H1); [by apply (fs_inv_same _ _ _ s1 s2 Hs2 (shows_inv _ _ _ H1))|by apply same_calm|by apply visible_same|].
    rewrite (same_dirs _ _ Hs2). apply H1.
  - by apply step_open_fails.
  - apply Hc2.
  - intros _. apply synced_same. by etrans.
  - apply Hc2.
Qed.

Lemma open_refined : refined fuel A (Open name) live s.
Proof using All.
  unfold refined. cbn [exec]. unfold filesys_open.
  destruct (dir_open_root_run live A s H Hmany) as (p & s1 & Hrun1 & Hc1 & Hd1 & Hp).
  rewrite run_assoc (M_bind_Ret _ _ _ _ _ Hrun1). destruct p as [d|].
  2: { destruct Hp as [H1 Hp]. destruct (open_null_refined s1 H1 Hc1 Hd1 (or_intror Hp)) as (s' & live' & A' & Hrun & Hrest).
       rewrite bool_decide_false; [|tauto]. unfold dir_close. run. rewrite (M_bind_Ret _ _ _ _ _ Hrun).
       by exists (RFile NULL), s', live', A'. }
  destruct Hp as (a & x & c & Hroot & Hdirs). rewrite bool_decide_true //.
  destruct (dir_lookup_run _ _ _ _ _ _ _ _ _ name fuel Hroot) as (p & s2 & sec & Hrun2 & Hs2 & Hd2 & Hn0 & Hn1 & Hp);
    [by apply calm_few; [|simpl; lia]|apply H|done|done|].
  rewrite run_assoc (M_bind_Ret _ _ _ _ _ Hrun2). assert (same_disk s s2) as Hd2' by by etrans.
  assert (dirs s2 = {[d := Dir (Some a) 0]}) as Hdirs2 by by rewrite (step_dirs _ _ _ Hs2).
  destruct p as [b|].
  - destruct Hp as ((j & Hj) & Hroot2 & y & Hy & <-).
    assert (calm s s2) as Hc2 by (etrans; [done|by eapply step_calm; [done|apply Hroot2]]).
    assert (root_dir live (a_gone A) [a; b] (a_slots A) c d a x s2) as Hroot3 by (eapply root_dir_perm; [|done]; apply Permutation_swap).
    destruct (dir_close_run _ _ _ _ _ _ _ _ _ _ Hroot3 Hdirs2) as (s3 & Hrun3 & Hc3 & Hd3 & Hdirs3 & H3 & Hkeep).
    rewrite run_assoc (M_bind_Ret _ _ _ _ _ Hrun3). assert (same_disk s s3) as Hd3' by by etrans.
    assert (calm s s3) as Hc3' by by etrans.
    assert (inodes s3 !! b = Some y) as Hy3.
    { apply Hkeep; [|done]. intros ->. rewrite (root_inode _ _ _ _ _ _ _ _ _ Hroot2) in Hy. simplify_eq. apply Hn1, Hroot2. }
    destruct (inv_file_open live (a_gone A) [] s3 b y H3) as
      [(f & s4 & Hrun4 & Hf4 & Hd4 & H4 & Hs4 & _)|(s4 & live' & gone' & Hrun4 & Hp & H4 & Hs4 & Heff)];
      [by apply calm_few; [|simpl; lia]|done|done|done| |]; rewrite (M_bind_Ret _ _ _ _ _ Hrun4).
    + assert (files s !! f = None) as Hf by by rewrite -(calm_files _ _ Hc3'). destruct (no_file _ _ _ H f Hf) as [Hh Hu].
      eexists _, s4, live, _. split; [done|]. split; [|split; [|split; [|split]]].
      * eapply (shows_opened live A s s3); try done. by rewrite (calm_free_map_file _ _ Hc3').
      * by eapply step_open.
      * intros ?. by apply Hs4, Hc3'.
      * intros _ Hsy. apply (synced_same _ _ _ Hd4). by apply (synced_same _ _ _ Hd3').
      * rewrite (fstep_capacity _ _ _ Hs4). apply Hc3'.
    + apply list_find_Some in Hj as Hj'. destruct Hj' as (Hj' & _). destruct (slots_live _ _ _ (shows_slots _ _ _ H) _ _ _ Hj') as (_ & _ & _ & Hg).
      unfold close_effect in Heff. rewrite (bool_decide_false (_ ∈ _)) // andb_false_r in Heff. destruct Heff as (-> & -> & Hd4).
      assert (calm s s4) as Hc4 by (etrans; [done|by eapply step_calm]). assert (same_disk s s4) as Hd4' by by etrans.
      exists (RFile NULL), s4, live, A. split; [done|]. split; [|split; [|split; [apply Hc4|split; [by intros _; apply synced_same|apply Hc4]]]].
      * apply (shows_same _ _ _ H); [done..|by apply visible_same|]. by rewrite (step_dirs _ _ _ Hs4).
      * apply step_open_fails. right. intros ?. by apply Hp, Hc3'.
  - destruct Hp as [Hroot2 Hno]. assert (calm s s2) as Hc2 by (etrans; [done|by eapply step_calm; [done|apply Hroot2]]).
    destruct (dir_close_run _ _ _ _ _ _ _ _ _ _ Hroot2 Hdirs2) as (s3 & Hrun3 & Hc3 & Hd3 & Hdirs3 & H3 & _).
    rewrite run_assoc (M_bind_Ret _ _ _ _ _ Hrun3). assert (same_disk s s3) as Hd3' by by etrans.
    assert (calm s s3) as Hc3' by by etrans.
    destruct (open_null_refined s3) as (s' & live' & A' & Hrun & Hrest); [by apply (shows_same _ _ _ H); [..|apply visible_same|]|done|done| |].
    { destruct Hno as [?|Hno]; [by left|right]. intros ?. by apply Hno, Hc1. }
    rewrite (M_bind_Ret _ _ _ _ _ Hrun). by exists (RFile NULL), s', live', A'.
Qed.

(** * Removing a file *)

Lemma slots_ok_remove slots gone live' gone' j sec :
  slots_ok slots live gone → slots !! j = Some (Some (name, sec)) →
  (∀ k, k ≠ sec → live' !! k = live !! k) → (∀ k, k ≠ sec → k ∈ gone' → k ∈ gone) → slots_ok (<[j := None]> slots) live' gone'.
Proof using.
  clear. intros [S1 S2] Hj Hlive Hgone. split.
  - intros i n k [(_ & ? & _)|[Hne Hi]]%list_lookup_insert_Some; [done|]. destruct (S1 _ _ _ Hi) as (Hl & Hn0 & Hn1 & Hg).
    assert (k ≠ sec) as Hk by (intros ->; apply Hne; by eapply S2).
    rewrite Hlive //. split; [done|]. split; [done|]. split; [done|]. intros ?. by apply Hg, Hgone.
  - intros i i' n n' k [(_ & ? & _)|[_ Hi]]%list_lookup_insert_Some [(_ & ? & _)|[_ Hi']]%list_lookup_insert_Some; try done.
    by eapply S2.
Qed.

(** The users of an inode in a state in which the open files have not changed. *)
Lemma open_on_held s1 extra sec b :
  fs_inv live (a_gone A) extra s1 → calm s s1 → sec ≠ FREE_MAP_SECTOR →
  (∀ a y, a ∈ extra → inodes s1 !! a = Some y → sector y ≠ sec) →
  (b ∈ extra ++ file_refs s1 → ∃ y, inodes s1 !! b = Some y ∧ sector y = sec) →
  (∀ b' y, inodes s1 !! b' = Some y → sector y = sec → b' = b) →
  open_on sec (a_handles A) ↔ b ∈ extra ++ file_refs s1.
Proof using H.
  intros H1 Hc Hne Hextra Hb Huniq.
  assert (∀ f, a_handles A !! f = handle_in s1 (files s1) f) as Hh.
  { intros f. rewrite (shows_handles _ _ _ H). symmetry. eapply calm_handles; [apply H|done]. }
  split.
  - intros (f & [[k pos] deny] & Hf & E). simpl in E. subst k.
    destruct (handle_file s1 _ _ Hh _ _ _ _ Hf) as (b' & z & Hx & _ & Hz & Es). rewrite -(Huniq b' z Hz Es).
    apply elem_of_app. right. apply elem_of_collect. by eexists f, _.
  - intros Hin. destruct (Hb Hin) as (y & Hy & <-). apply (open_on_refs live _ _ s1 H1 (files s1) _ ltac:(done) Hh b y Hy Hne).
    apply elem_of_app in Hin as [Hin|Hin]; [|done]. by destruct (Hextra b y Hin Hy).
Qed.

Lemma remove_refined : refined fuel A (Remove name) live s.
Proof using All.
  unfold refined. cbn [exec]. unfold filesys_remove. pose proof H as [S1 S2 S3 S4 S5 S6 S7].
  destruct (dir_open_root_run live A s H Hmany) as (p & s1 & Hrun1 & Hc1 & Hd1 & Hp).
  rewrite run_assoc (M_bind_Ret _ _ _ _ _ Hrun1). destruct p as [d|].
  2: { destruct Hp as [H1 Hp]. rewrite bool_decide_false; [|tauto]. unfold dir_close. run.
       exists (RBool false), s1, live, A. split; [done|]. split; [done|]. split; [by apply step_remove_fails; right|].
       split; [apply Hc1|]. split; [intros _; by apply synced_same|apply Hc1]. }
  destruct Hp as (a & x & c & Hroot & Hdirs). rewrite bool_decide_true //.
  destruct (dir_remove_run _ _ _ _ _ _ _ _ _ name fuel Hroot) as (r & s2 & live' & gone' & sec & Hrun2 & Hs2 & Hn0 & Hn1 & Hsync & Hr);
    [by apply calm_few; [|simpl; lia]|done|done|done|].
  rewrite run_assoc (M_bind_Ret _ _ _ _ _ Hrun2).
  assert (dirs s2 = {[d := Dir (Some a) 0]}) as Hdirs2 by by rewrite (step_dirs _ _ _ Hs2).
  assert (∃ slots' c', root_dir live' gone' [a] slots' c' d a x s2) as (slots' & c0 & Hroot2).
  { destruct r; [destruct Hr as (j & c' & b & _ & Hr & _)|destruct Hr as (-> & -> & Hr & _)]; by eexists _, _. }
  assert (calm s s2) as Hc2 by (etrans; [done|by eapply step_calm; [done|apply Hroot2]]).
  destruct (dir_close_run _ _ _ _ _ _ _ _ _ _ Hroot2 Hdirs2) as (s3 & Hrun3 & Hc3 & Hd3 & Hdirs3 & H3 & _).
  rewrite run_assoc (M_bind_Ret _ _ _ _ _ Hrun3). clear slots' c0 Hroot2. assert (calm s s3) as Hc3' by by etrans.
  assert (plenty s → synced live s → synced live' s3) as Hsync3.
  { intros Hp Hsy. apply (synced_same _ _ _ Hd3), Hsync; [by apply Hc1|by apply (synced_same _ _ _ Hd1)]. }
  run. destruct r.
  - destruct Hr as (j & c' & b & Hj & Hroot2 & Hb & Huniq & Hr).
    apply list_find_Some in Hj as Hj'. destruct Hj' as (Hj' & _).
    assert (open_on sec (a_handles A) ↔ b ∈ [a] ++ file_refs s1) as Hopen.
    { eapply open_on_held; try done; [apply Hroot|]. intros a' y ->%list_elem_of_singleton Hy.
      rewrite (root_inode _ _ _ _ _ _ _ _ _ Hroot) in Hy. simplify_eq. rewrite (root_sector _ _ _ _ _ _ _ _ _ Hroot). congruence. }
    exists (RBool true), s3, live', (remove_slot j sec A). split; [done|]. split; [|split; [by eapply step_remove|]].
    2: { split; [apply Hc3'|]. split; [done|apply Hc3']. }
    unfold remove_slot. destruct (decide (open_on sec (a_handles A))) as [Ho|Ho].
    + rewrite bool_decide_true in Hr; [|tauto]. destruct Hr as (-> & -> & Hv).
      eapply (shows_intro _ _ _ H _ _ _ c'); simpl; try done; rewrite ?(visible_same _ _ _ Hd3) ?length_insert //.
      * apply Hroot2.
      * apply Hroot2.
      * eapply slots_ok_remove; [done|done|done|]. intros k Hk [->%elem_of_singleton|?]%elem_of_union; done.
      * by rewrite Hv delete_insert_eq (visible_same _ _ _ Hd1).
    + rewrite bool_decide_false in Hr; [|tauto]. destruct Hr as (-> & -> & Hv).
      eapply (shows_intro _ _ _ H _ _ _ c'); simpl; try done; rewrite ?(visible_same _ _ _ Hd3) ?length_insert //.
      * apply Hroot2.
      * apply Hroot2.
      * eapply slots_ok_remove; [done|done| |done]. intros k Hk. by rewrite lookup_delete_ne.
      * by rewrite Hv delete_delete delete_insert_eq (visible_same _ _ _ Hd1) S4.
  - destruct Hr as (-> & -> & Hroot2 & Hv & Hno).
    exists (RBool false), s3, live, A. split; [done|]. split; [|split; [|split; [apply Hc3'|split; [done|apply Hc3']]]].
    + apply (shows_same _ _ _ H); [done..| |done]. by rewrite (visible_same _ _ _ Hd3) Hv (visible_same _ _ _ Hd1).
    + apply step_remove_fails. destruct Hno as [?|Hno]; [by left|right]. intros ?. by apply Hno, Hc1.
Qed.

(** * Creating a file *)

Lemma root_dir_quiet extra slots c d a x s1 s2 :
  quiet live s1 s2 → root_dir live (a_gone A) extra slots c d a x s1 → root_dir live (a_gone A) extra slots c d a x s2.
Proof using.
  clear. intros Hq [H1 H2 [pos H3] H4 H5 H6 H7 H8]. pose proof (quiet_memory _ _ _ Hq) as Hs. split; try done.
  - by eapply fs_inv_quiet.
  - by eapply few_same.
  - exists pos. by rewrite (same_dirs _ _ Hs).
  - by rewrite (same_inodes _ _ Hs).
  - by rewrite (quiet_visible _ _ _ Hq).
Qed.

Lemma reserved_system s1 extra sec :
  fs_inv live (a_gone A) extra s1 → is_Some (live !! ROOT_DIR_SECTOR) → reserved live s1 sec →
  live !! sec = None ∧ sec ≠ FREE_MAP_SECTOR ∧ sec ≠ ROOT_DIR_SECTOR ∧ in_u 32 sec.
Proof using.
  clear. intros H Hroot Hres. pose proof (reserved_none _ _ _ Hres) as Hnone. destruct Hres as (Hsec & _).
  destruct (inv_ready _ _ _ _ H) as (g & b & z & [_ _ _ _ Hl _ _]). pose proof (layout_capacity _ _ (inv_layout _ _ _ _ H)).
  split; [done|]. split; [congruence|]. split; [intros ->; rewrite Hnone in Hroot; by destruct Hroot|]. unfold in_u. lia.
Qed.

(** When the first free sector is taken, a group of free sectors keeps all but one. *)
Lemma group_after b b' n k sec : 0 <= n → 0 <= k → first_group b false 0 1 sec → sec ≠ BITMAP_ERROR → bit_cnt b' = bit_cnt b →
  (∀ i, 0 <= i < bit_cnt b → bit b' i = if decide (sec <= i < sec + 1) then true else bit b i) →
  group b false (n + 1) k → group b' false n (k + 1).
Proof using.
  clear. intros Hn Hk [[? _]|(_ & Hs & _ & Hfirst)] Hne Hcnt Hbits [Hg1 Hg2]; [done|].
  assert (sec <= k) as Hle.
  { destruct (decide (sec <= k)); [done|]. destruct (Hfirst k); [lia|]. split; [lia|]. intros j Hj. apply Hg2. lia. }
  split; [lia|]. intros j Hj. rewrite Hbits; [|lia]. rewrite decide_False; [|lia]. apply Hg2. lia.
Qed.

Section entry.
Context (size : Z) (Hsize : 0 <= size <= 2 ^ 31 - 513).

(** The sectors of the data of [d] were free, and are the only ones that are no longer so. *)
Definition takes (s1 s2 : fs) (d : inode_disk) : Prop :=
  (∀ k, in_data d k → 0 <= k < capacity s1 ∧ bit (free_map s1) k = false) ∧
  (∀ k, 0 <= k < capacity s1 → bit (free_map s2) k = true ↔ bit (free_map s1) k = true ∨ in_data d k).

(** A new inode and its entry. *)
Lemma create_entry_run c d a x sec s2 :
  root_dir live (a_gone A) [a] (a_slots A) c d a x s2 → is_Some (live !! ROOT_DIR_SECTOR) → reserved live s2 sec →
  ∃ b s4, (c0 ← inode_create sec size; if (c0 : bool) then dir_add fuel (Some d) name sec else mret false) s2 = Ret b s4 ∧
    same_memory s2 s4 ∧
    if (b : bool) then
      name ≠ [] ∧ size_of name <= NAME_MAX ∧ (find_name name (a_slots A) = None ∨ ¬ plenty s2) ∧
      ∃ dd j c', (j < length (a_slots A))%nat ∧ (find_free (a_slots A) = Some (j, None) ∨ ¬ plenty s2) ∧
        root_dir (<[sec := dd]> live) (a_gone A) [a] (<[j := Some (name, sec)]> (a_slots A)) c' d a x s4 ∧
        visible (<[sec := dd]> live) s4 =
          <[ROOT_DIR_SECTOR := c']> (<[sec := replicate (Z.to_nat size) 0]> (visible live s2)) ∧
        synced (<[sec := dd]> live) s4
    else root_dir live (a_gone A) [a] (a_slots A) c d a x s4 ∧ visible live s4 = visible live s2 ∧ reserved live s4 sec ∧
      (name = [] ∨ NAME_MAX < size_of name ∨ is_Some (find_name name (a_slots A)) ∨ find_free (a_slots A) = None ∨
        (plenty s2 → ∀ k, 0 <= k → ¬ group (free_map s2) false ((size + 511) / 512) k)) ∧
      (is_Some (find_name name (a_slots A)) → plenty s2 → (∃ k, 0 <= k ∧ group (free_map s2) false ((size + 511) / 512) k) →
        ∃ dd, i_length dd = size ∧ takes s2 s4 dd).
Proof using Hname Hfuel Hsize.
  clear H Hmany. intros Hroot Hlive Hres. pose proof (root_inv _ _ _ _ _ _ _ _ _ Hroot) as H2. pose proof (inv_layout _ _ _ _ H2) as Hlay.
  destruct (reserved_system s2 _ sec H2 Hlive Hres) as (Hnone & Hn0 & Hn1 & Hu). pose proof Hres as (Hr1 & Hr2 & Hr3).
  destruct (inv_ready _ _ _ _ H2) as (g & b & z & Hready).
  destruct (inode_create_run live s2 sec size Hlay) as (ok & s3 & Hrun3 & Hs3 & Hgrow & Hok); [right; by exists g, b, z|done|done|].
  rewrite (M_bind_Ret _ _ _ _ _ Hrun3). cbv beta. destruct ok.
  2: { destruct Hok as [Hq Hfull]. exists false, s3. split; [done|]. split; [done|]. split; [by eapply root_dir_quiet|].
       split; [apply Hq|]. split; [|split; [do 4 right; intros Hp; by apply Hfull|]].
       2: { intros _ Hp (k & Hk & Hg). destruct Hfull as [_ Hno]; [done|]. by destruct (Hno k). }
       split; [by rewrite (same_capacity _ _ Hs3)|]. split; [by apply Hgrow|done]. }
  destruct Hok as (dd & Hlen & Hfree3 & Hbits3 & Hlay3 & Hv3 & Hsync3). set (live2 := <[sec := dd]> live) in *.
  assert (visible live2 s3 = <[sec := replicate (Z.to_nat size) 0]> (visible live s2)) as Hv.
  { rewrite Hv3 delete_insert_ne //. unfold visible. by rewrite delete_delete_eq. }
  assert (root_dir live2 (a_gone A) [a] (a_slots A) c d a x s3) as Hroot3.
  { destruct Hroot as [R1 R2 [pos R3] R4 R5 R6 R7 R8]. split; try done.
    - eapply (fs_inv_memory live _ _ s2); [done|done|done|]. intros k d' Hk. unfold live2. rewrite lookup_insert_ne //. congruence.
    - by eapply few_same.
    - exists pos. by rewrite (same_dirs _ _ Hs3).
    - by rewrite (same_inodes _ _ Hs3).
    - rewrite Hv lookup_insert_ne //. }
  destruct (dir_add_run _ _ _ _ _ _ _ _ name sec fuel s3 Hroot3 Hname Hu Hfuel) as (ok & s4 & Hrun4 & Hs4 & Hsync4 & Hok).
  assert (∀ P : Prop, P ∨ ¬ plenty s3 → P ∨ ¬ plenty s2) as Hpl.
  { intros P [?|Hp]; [by left|right]. intros ?. by apply Hp, Hs3. }
  exists ok, s4. split; [done|]. split; [by etrans|]. destruct ok.
  - destruct Hok as (N1 & N2 & N3 & j & c' & J1 & J2 & J3 & J4). split; [done|]. split; [done|]. split; [by apply Hpl|].
    exists dd, j, c'. split; [done|]. split; [by apply Hpl|]. split; [done|]. split; [by rewrite J3 Hv|].
    apply Hsync4, Hsync3; [done|]. by rewrite (ready_file _ _ _ _ _ Hready).
  - destruct Hok as (O1 & O2 & O3 & O4). pose proof (inv_layout _ _ _ _ (root_inv _ _ _ _ _ _ _ _ _ O2)) as Hlay4.
    assert (base.delete sec live2 = live) as Elive by (unfold live2; by rewrite delete_insert_id).
    assert (visible live s4 = visible live s2) as Ev.
    { rewrite -Elive visible_delete O1 Hv delete_insert_id; [by rewrite Elive|]. unfold visible, contents.
      by rewrite lookup_delete_ne // lookup_fmap Hnone. }
    assert (layout live s4) as Hlay4' by (rewrite -Elive; by apply layout_delete).
    assert (quiet live s2 s4) as Hq by (split; [by etrans|done|done]).
    split; [by eapply root_dir_quiet|]. split; [done|]. split; [|split].
    + split; [by rewrite (same_capacity _ _ Hs4) (same_capacity _ _ Hs3)|]. split; [|done].
      eapply (lay_used _ _ Hlay4); [apply lookup_insert_eq|by left].
    + destruct O3 as [?|[?|[?|[?|Hp]]]]; [tauto..|]. do 4 right. intros Hp'. destruct Hp. by apply Hs3.
    + intros Hn Hp _. exists dd. split; [done|]. assert (plenty s3) as Hp3 by by apply Hs3.
      pose proof (same_disk_map _ _ (O4 Hn Hp3)) as Em. split.
      * intros k Hk. split; [|by apply Hfree3]. destruct (lay_inode _ _ Hlay3 sec dd) as [E1 E2 E3 E4 E5]; [apply lookup_insert_eq|].
        pose proof (wf_start _ E2) as Hst. unfold in_u in Hst. rewrite -(same_capacity _ _ Hs3). unfold in_data in Hk. lia.
      * intros k Hk. rewrite Em. split; [by apply Hbits3|]. intros [Hb|Hd]; [by apply Hgrow|].
        eapply (lay_used _ _ Hlay3); [apply lookup_insert_eq|by right].
Qed.

(** Giving the sector of the inode back, and closing the directory. *)
Lemma create_fails_run c d a x s4 o :
  root_dir live (a_gone A) [a] (a_slots A) c d a x s4 → dirs s4 = {[d := Dir (Some a) 0]} → calm s s4 →
  visible live s4 = visible live s → (∀ sec, o = Some sec → reserved live s4 sec) → (o = None → plenty s → synced live s → synced live s4) →
  ∃ s5, ((if negb false && bool_decide (default 0 o ≠ 0) then free_map_release (default 0 o) 1 else mret tt);;
         dir_close (Some d);; mret false) s4 = Ret false s5 ∧
    shows live A s5 ∧ calm s s5 ∧ (plenty s → synced live s → synced live s5) ∧
    ∀ k, 0 <= k < capacity s4 → bit (free_map s5) k = if decide (o = Some k) then false else bit (free_map s4) k.
Proof using H Hfuel.
  intros Hroot Hdirs Hc Hv Hres Hsync. pose proof Hroot as [R1 R2 R3 R4 R5 R6 R7 R8].
  assert (∃ s5, (if negb false && bool_decide (default 0 o ≠ 0) then free_map_release (default 0 o) 1 else mret tt) s4 = Ret tt s5 ∧
    quiet live s4 s5 ∧ (plenty s → synced live s → synced live s5) ∧
    ∀ k, 0 <= k < capacity s4 → bit (free_map s5) k = if decide (o = Some k) then false else bit (free_map s4) k) as (s5 & Hrun & Hq & Hs5 & Hb5).
  { destruct o as [sec|]; simpl.
    2: { exists s4. split; [done|]. split; [apply quiet_refl, R1|]. split; [by apply Hsync|done]. }
    destruct (inv_ready _ _ _ _ R1) as (g & b & z & Hready). destruct (Hres sec eq_refl) as (E1 & E2 & E3).
    assert (sec ≠ 0) as Hne.
    { intros ->. eapply E3; [exact (ready_live _ _ _ _ _ Hready)|by left]. }
    rewrite bool_decide_true //. pose proof (lay_cnt _ _ (inv_layout _ _ _ _ R1)) as Hcnt.
    destruct (free_map_release_run live s4 g b z sec 1) as (s5 & Hrun & Hq & Hb5 & Hs5); [apply R1|done|split_and!; lia| | |].
    - intros k Hk. by replace k with sec by lia.
    - intros sec' d' k Hd' Hk Hk'. replace k with sec in Hk by lia. by eapply E3.
    - exists s5. split; [done|]. split; [done|]. split; [intros Hp _; by apply Hs5, Hc|].
      intros k Hk. rewrite Hb5 //. destruct (decide (Some sec = Some k)) as [[= ->]|Hne']; [rewrite decide_True //; lia|].
      rewrite decide_False //. intros ?. apply Hne'. f_equal. lia. }
  rewrite (M_bind_Ret _ _ _ _ _ Hrun).
  assert (root_dir live (a_gone A) [a] (a_slots A) c d a x s5) as Hroot5 by by eapply root_dir_quiet.
  pose proof (quiet_memory _ _ _ Hq) as Hm.
  destruct (dir_close_run _ _ _ _ _ _ _ _ 0 _ Hroot5) as (s6 & Hrun6 & Hc6 & Hd6 & Hdirs6 & H6 & _).
  { by rewrite (same_dirs _ _ Hm). }
  rewrite (M_bind_Ret _ _ _ _ _ Hrun6). assert (calm s s6) as Hc' by (etrans; [exact Hc|etrans; [by apply same_calm|done]]).
  exists s6. split; [done|]. split; [|split; [done|]].
  - apply (shows_same _ _ _ H); [done..| |done]. by rewrite (visible_same _ _ _ Hd6) (quiet_visible _ _ _ Hq).
  - split; [|by rewrite (same_disk_map _ _ Hd6)]. intros Hp Hsy. apply (synced_same _ _ _ Hd6). by apply Hs5.
Qed.

Lemma shows_created s2 s5 dd j c' c d a x sec :
  calm s s5 → (∃ s4, root_dir (<[sec := dd]> live) (a_gone A) [a] (<[j := Some (name, sec)]> (a_slots A)) c' d a x s4) →
  fs_inv (<[sec := dd]> live) (a_gone A) [] s5 → dirs s5 = ∅ → live !! sec = None → sec ≠ FREE_MAP_SECTOR → sec ≠ ROOT_DIR_SECTOR →
  root_dir live (a_gone A) [a] (a_slots A) c d a x s2 → visible live s2 = visible live s → (j < length (a_slots A))%nat →
  visible (<[sec := dd]> live) s5 = <[ROOT_DIR_SECTOR := c']> (<[sec := replicate (Z.to_nat size) 0]> (visible live s2)) →
  shows (<[sec := dd]> live) (add_slot j name sec size A) s5.
Proof using H.
  intros Hc [s4 Hroot4] H5 Hdirs Hnone Hn0 Hn1 Hroot Hv2 Hj Hv. pose proof (shows_slots _ _ _ H) as [O1 O2].
  assert (∀ i n k, a_slots A !! i = Some (Some (n, k)) → k ≠ sec) as Hnew.
  { intros i n k Hi ->. destruct (O1 _ _ _ Hi) as ([? Hl] & _). congruence. }
  eapply (shows_intro _ _ _ H _ _ _ c'); simpl; try done.
  - rewrite Hv. apply lookup_insert_eq.
  - apply Hroot4.
  - split.
    + intros i n k [(<- & [= <- <-] & _)|[Hne Hi]]%list_lookup_insert_Some.
      * rewrite lookup_insert_eq. split; [done|]. split; [done|]. split; [done|].
        intros (b & y & Hy & E)%(op_gone _ _ _ _ _ (inv_opened _ _ _ _ (shows_inv _ _ _ H))).
        apply (op_live _ _ _ _ _ (inv_opened _ _ _ _ (shows_inv _ _ _ H))) in Hy. congruence.
      * rewrite lookup_insert_ne; [by eapply O1|]. intros <-. by eapply Hnew.
    + intros i i' n n' k [(<- & [= <- <-] & _)|[Hne Hi]]%list_lookup_insert_Some [(<- & [= <-] & _)|[Hne' Hi']]%list_lookup_insert_Some; try done.
      * by destruct (Hnew _ _ _ Hi').
      * subst. by destruct (Hnew _ _ _ Hi).
      * by eapply O2.
  - by rewrite length_insert.
  - by rewrite Hv delete_insert_eq Hv2 delete_insert_ne // (shows_store _ _ _ H).
Qed.

Lemma filesys_create_run :
  ∃ b s' live' A', filesys_create fuel name size s = Ret b s' ∧ shows live' A' s' ∧
    astep (¬ plenty s) (no_room s) A (Create name size) (RBool b) A' ∧
    (plenty s → plenty s') ∧ (plenty s → synced live s → synced live' s') ∧ capacity s' = capacity s.
Proof using All.
  unfold filesys_create. pose proof H as [S1 S2 S3 S4 S5 S6 S7].
  assert (is_Some (live !! ROOT_DIR_SECTOR)) as Hlive.
  { destruct S3 as (c & Hc & _). unfold visible, contents in Hc. rewrite lookup_delete_ne // lookup_fmap in Hc. by destruct (live !! _). }
  assert (0 <= (size + 511) / 512) as Hn by div_lia.
  destruct (dir_open_root_run live A s H Hmany) as (p & s1 & Hrun1 & Hc1 & Hd1 & Hp).
  rewrite (M_bind_Ret _ _ _ _ _ Hrun1). destruct p as [d|].
  2: { destruct Hp as [H1 Hp]. rewrite bool_decide_false; [|tauto]. unfold dir_close. run.
       exists false, s1, live, A. split; [done|]. split; [done|]. split; [by apply step_create_fails; do 5 right|].
       split; [apply Hc1|]. split; [intros _; by apply synced_same|apply Hc1]. }
  destruct Hp as (a & x & c & Hroot & Hdirs). rewrite bool_decide_true //.
  assert (∀ P Q : Prop, (plenty s → P) → Q ∨ P ∨ ¬ plenty s) as Hdec.
  { intros P Q HP. destruct (decide (Forall (λ b, b = true) (allocs s))) as [Hp|Hp]; [right; left; by apply HP|by right; right]. }
  destruct (free_map_allocate_run live s1 1) as (r & s2 & Hrun2 & Hq2 & Hr); [apply Hroot|right; apply Hroot|done|].
  rewrite (M_bind_Ret _ _ _ _ _ Hrun2).
  assert (calm s s2) as Hc2 by (etrans; [done|by apply same_calm, Hq2]).
  assert (root_dir live (a_gone A) [a] (a_slots A) c d a x s2) as Hroot2 by by eapply root_dir_quiet.
  assert (dirs s2 = {[d := Dir (Some a) 0]}) as Hdirs2 by by rewrite (same_dirs _ _ (quiet_memory _ _ _ Hq2)).
  assert (visible live s2 = visible live s) as Hv2 by by rewrite (quiet_visible _ _ _ Hq2) (visible_same _ _ _ Hd1).
  pose proof (same_disk_map _ _ Hd1) as Em.
  destruct r as [sec|].
  2: { rewrite run_ret. destruct Hr as [_ Hfull].
       destruct (create_fails_run c d a x s2 None) as (s5 & Hrun5 & H5 & Hc5 & Hs5 & _); [done..| |].
       { intros _ Hp Hsy. destruct Hfull as [-> _]; [by apply Hc1|]. by apply (synced_same _ _ _ Hd1). }
       rewrite Hrun5.
       exists false, s5, live, A. split; [done|]. split; [done|]. split; [|split; [apply Hc5|split; [done|apply Hc5]]].
       apply step_create_fails. do 3 right. apply Hdec. intros Hp k Hk [Hg1 Hg2]. destruct Hfull as [_ Hfull]; [by apply Hc1|].
       apply (Hfull k Hk). rewrite Em. split; [lia|]. intros j Hj. apply Hg2. lia. }
  destruct Hr as (Hin & Hfirst & Hfree & Hbits & Hsync2). rewrite Em in Hfirst, Hin, Hfree, Hbits.
  assert (reserved live s2 sec) as Hres.
  { destruct Hin as (I1 & I2 & I3). rewrite -Em (lay_cnt _ _ (inv_layout _ _ _ _ (root_inv _ _ _ _ _ _ _ _ _ Hroot))) in I3.
    assert (capacity s2 = capacity s1) as Ecap by apply Hq2. split; [lia|]. split.
    - rewrite Hbits; [|lia]. rewrite decide_True; [done|lia].
    - intros sec' d' Hd' Ho. pose proof (lay_used _ _ (inv_layout _ _ _ _ (root_inv _ _ _ _ _ _ _ _ _ Hroot)) _ _ _ Hd' Ho) as Hb.
      rewrite Em Hfree in Hb; [done|lia]. }
  destruct (create_entry_run c d a x sec s2 Hroot2 Hlive Hres) as (b & s4 & Hrun4 & Hs4 & Hb).
  rewrite (M_bind_Ret _ _ _ _ _ Hrun4). cbv beta.
  assert (calm s s4) as Hc4 by (etrans; [done|by apply same_calm]).
  assert (dirs s4 = {[d := Dir (Some a) 0]}) as Hdirs4 by by rewrite (same_dirs _ _ Hs4).
  destruct b.
  - destruct Hb as (N1 & N2 & N3 & dd & j & c' & J1 & J2 & J3 & J4 & J5).
    destruct (reserved_system s2 _ sec (root_inv _ _ _ _ _ _ _ _ _ Hroot2) Hlive Hres) as (Hnone & Hn0 & Hn1 & _).
    cbn [negb andb]. rewrite run_ret.
    destruct (dir_close_run _ _ _ _ _ _ _ _ 0 _ J3 Hdirs4) as (s5 & Hrun5 & Hc5 & Hd5 & Hdirs5 & H5 & _).
    rewrite (M_bind_Ret _ _ _ _ _ Hrun5). run. assert (calm s s5) as Hc5' by by etrans.
    eexists true, s5, (<[sec := dd]> live), (add_slot j name sec size A). split; [done|].
    split; [|split; [|split; [apply Hc5'|split; [by intros _ _; apply (synced_same _ _ _ Hd5)|apply Hc5']]]].
    + eapply (shows_created s2 s5 dd j c'); try done; [by exists s4|]. by rewrite (visible_same _ _ _ Hd5).
    + assert (∀ P : Prop, P ∨ ¬ plenty s2 → P ∨ ¬ plenty s) as Hpl.
      { intros P [?|Hp]; [by left|right]. intros ?. by apply Hp, Hc2. }
      apply step_create; try done; [by apply Hpl..|]. rewrite S4 lookup_delete_ne // /visible lookup_delete_ne // /contents lookup_fmap Hnone. done.
  - destruct Hb as (Hroot4 & Hv4 & Hres4 & Hwhy & _).
    destruct (create_fails_run c d a x s4 (Some sec)) as (s5 & Hrun5 & H5 & Hc5 & Hs5 & _); [done..|by rewrite Hv4|by intros ? [= <-]|done|].
    rewrite Hrun5. exists false, s5, live, A. split; [done|]. split; [done|].
    split; [|split; [apply Hc5|split; [done|apply Hc5]]]. apply step_create_fails.
    destruct Hwhy as [?|[?|[?|[?|Hfull]]]]; [tauto..|]. do 3 right. apply Hdec. intros Hp k Hk Hg.
    assert (capacity s2 = capacity s1) as Ecap by apply Hq2.
    assert (bit_cnt (free_map s2) = bit_cnt (free_map s)) as Ecnt.
    { rewrite -Em (lay_cnt _ _ (inv_layout _ _ _ _ (root_inv _ _ _ _ _ _ _ _ _ Hroot))).
      by rewrite (lay_cnt _ _ (inv_layout _ _ _ _ (root_inv _ _ _ _ _ _ _ _ _ Hroot2))). }
    apply (Hfull ltac:(by apply Hc2) (k + 1)); [lia|]. eapply (group_after (free_map s)); try done.
    { destruct Hin as (_ & _ & I3). pose proof (layout_capacity _ _ (inv_layout _ _ _ _ S1)) as Hcap.
      rewrite -(lay_cnt _ _ (inv_layout _ _ _ _ S1)) in Hcap. unfold BITMAP_ERROR. lia. }
    intros i Hi. apply Hbits. rewrite -Ecap -(lay_cnt _ _ (inv_layout _ _ _ _ (root_inv _ _ _ _ _ _ _ _ _ Hroot2))). lia.
Qed.

(** A file that is there cannot be created, but its data take sectors. *)
Lemma create_existing_run k0 :
  plenty s → is_Some (find_name name (a_slots A)) → 0 <= k0 → group (free_map s) false ((size + 511) / 512 + 1) k0 →
  ∃ s' d, filesys_create fuel name size s = Ret false s' ∧ shows live A s' ∧ i_length d = size ∧ takes s s' d.
Proof using All.
  intros Hp Hname' Hk0 Hg. unfold filesys_create. pose proof H as [S1 S2 S3 S4 S5 S6 S7].
  assert (is_Some (live !! ROOT_DIR_SECTOR)) as Hlive.
  { destruct S3 as (c & Hc & _). unfold visible, contents in Hc. rewrite lookup_delete_ne // lookup_fmap in Hc. by destruct (live !! _). }
  assert (0 <= (size + 511) / 512) as Hn by div_lia.
  destruct (dir_open_root_run live A s H Hmany) as (p & s1 & Hrun1 & Hc1 & Hd1 & Hopen).
  rewrite (M_bind_Ret _ _ _ _ _ Hrun1). destruct p as [d|]; [|by destruct Hopen].
  destruct Hopen as (a & x & c & Hroot & Hdirs). rewrite bool_decide_true //. assert (plenty s1) as Hp1 by by apply Hc1.
  destruct (free_map_allocate_run live s1 1) as (r & s2 & Hrun2 & Hq2 & Hr); [apply Hroot|right; apply Hroot|done|].
  rewrite (M_bind_Ret _ _ _ _ _ Hrun2). pose proof (same_disk_map _ _ Hd1) as Em. rewrite Em in Hr.
  destruct r as [sec|].
  2: { destruct Hr as [_ Hfull]. destruct Hfull as [_ Hfull]; [done|]. exfalso. apply (Hfull k0 Hk0).
       destruct Hg as [Hg1 Hg2]. split; [lia|]. intros j Hj. apply Hg2. lia. }
  destruct Hr as (Hin & Hfirst & Hfree & Hbits & _). pose proof (inv_layout _ _ _ _ (root_inv _ _ _ _ _ _ _ _ _ Hroot)) as Hlay1.
  assert (capacity s1 = capacity s) as Ecap1 by apply Hd1. assert (capacity s2 = capacity s1) as Ecap2 by apply Hq2.
  assert (bit_cnt (free_map s) = capacity s) as Ecnt by by apply lay_cnt with live, S1.
  assert (reserved live s2 sec) as Hres.
  { destruct Hin as (I1 & I2 & I3). split; [lia|]. split; [rewrite Hbits; [rewrite decide_True; [done|lia]|lia]|].
    intros sec' d' Hd' Ho. pose proof (lay_used _ _ Hlay1 _ _ _ Hd' Ho) as Hb. rewrite Em Hfree in Hb; [done|lia]. }
  assert (root_dir live (a_gone A) [a] (a_slots A) c d a x s2) as Hroot2 by by eapply root_dir_quiet.
  assert (∃ k, 0 <= k ∧ group (free_map s2) false ((size + 511) / 512) k) as Hroom.
  { exists (k0 + 1). split; [lia|]. eapply (group_after (free_map s)); try done.
    - destruct Hin as (_ & _ & I3). pose proof (layout_capacity _ _ Hlay1) as Hcap. unfold BITMAP_ERROR. lia.
    - rewrite Ecnt (lay_cnt _ _ (inv_layout _ _ _ _ (root_inv _ _ _ _ _ _ _ _ _ Hroot2))). lia.
    - intros i Hi. apply Hbits. lia. }
  assert (plenty s2) as Hp2 by by apply (same_plenty _ _ (quiet_memory _ _ _ Hq2)).
  destruct (create_entry_run c d a x sec s2 Hroot2 Hlive Hres) as (b & s4 & Hrun4 & Hs4 & Hb).
  rewrite (M_bind_Ret _ _ _ _ _ Hrun4). cbv beta. destruct b.
  { destruct Hb as (_ & _ & [Hnone|?] & _); [|done]. rewrite Hnone in Hname'. by destruct Hname'. }
  destruct Hb as (Hroot4 & Hv4 & Hres4 & _ & Htakes). destruct (Htakes Hname' Hp2 Hroom) as (dd & Hlen & Ht1 & Ht2).
  assert (calm s s4) as Hc4 by (etrans; [done|etrans; apply same_calm; [apply Hq2|done]]).
  destruct (create_fails_run c d a x s4 (Some sec)) as (s5 & Hrun5 & H5 & _ & _ & Hb5); [done| |done| |by intros ? [= <-]|done|].
  { by rewrite (same_dirs _ _ Hs4) (same_dirs _ _ (quiet_memory _ _ _ Hq2)). }
  { by rewrite Hv4 (quiet_visible _ _ _ Hq2) (visible_same _ _ _ Hd1). }
  rewrite Hrun5. exists s5, dd. split; [done|]. split; [done|]. split; [done|].
  assert (capacity s4 = capacity s2) as Ecap4 by apply Hs4. destruct Hin as (I1 & I2 & I3).
  assert (¬ in_data dd sec) as Hsec.
  { intros [_ Hb]%Ht1. rewrite Hbits in Hb; [|lia]. rewrite decide_True in Hb; [done|lia]. }
  split.
  - intros k Hk. destruct (Ht1 k Hk) as [Hr Hb]. split; [lia|]. rewrite Hbits in Hb; [|lia]. case_decide; [done|done].
  - intros k Hk. rewrite Hb5; [|lia]. destruct (decide (Some sec = Some k)) as [[= <-]|E].
    + rewrite Hfree; [|lia]. split; [done|]. intros [?|?]; done.
    + rewrite Ht2; [|lia]. rewrite Hbits; [|lia]. rewrite decide_False; [done|]. intros ?. apply E. f_equal. lia.
Qed.

Lemma create_refined : refined fuel A (Create name size) live s.
Proof using All.
  destruct filesys_create_run as (b & s' & live' & A' & Hrun & Hrest).
  exists (RBool b), s', live', A'. split; [|done]. cbn [exec]. by rewrite (M_bind_Ret _ _ _ _ _ Hrun).
Qed.
End entry.
End names.

(** * All calls *)

Lemma exec_refined fuel live A s c :
  shows live A s → not_many A → (length (a_slots A) < fuel)%nat → call_ok A c → refined fuel A c live s.
Proof.
  intros H Hmany Hfuel. destruct c as [name size|name|name|f|f|f buffer size|f buffer size|f pos|f|f|f|f]; cbn [call_ok].
  - intros [Hname Hsize]. by apply create_refined.
  - by apply open_refined.
  - by apply remove_refined.
  - intros [[[sec pos] deny] Hh]. by eapply reopen_refined.
  - intros [[[sec pos] deny] Hh]. by eapply close_refined.
  - intros (sec & pos & deny & Hh & Hr & Hb). by eapply read_refined.
  - intros (sec & pos & deny & Hh & Hr & Hb & Hbytes). by eapply write_refined.
  - intros [[[[sec pos'] deny] Hh] Hpos]. by eapply seek_refined.
  - intros [[[sec pos] deny] Hh]. by eapply tell_refined.
  - intros [[[sec pos] deny] Hh]. by eapply length_refined.
  - intros [[[sec pos] deny] Hh]. by eapply deny_refined.
  - intros [[[sec pos] deny] Hh]. by eapply allow_refined.
Qed.

(** The directory does not grow. *)
Lemma astep_slots low full A c r A' : astep low full A c r A' → length (a_slots A') = length (a_slots A).
Proof.
  intros []; try done; simpl.
  - by rewrite length_insert.
  - unfold remove_slot. destruct (decide _); simpl; by rewrite length_insert.
  - unfold close_handle. by destruct (decide _).
Qed.

(** What a program that uses the file system sees is what the abstract file system
    allows; when there is memory, the free map on the disk stays up to date. *)
Lemma client_served fuel p live A s :
  shows live A s → (length (a_slots A) < fuel)%nat → legal (¬ plenty s) (λ _, True) A p →
  ∃ t s' live' A', run_client fuel p s = Ret t s' ∧ shows live' A' s' ∧ asteps (¬ plenty s) (λ _, True) A t A' ∧
    (plenty s → plenty s') ∧ (plenty s → synced live s → synced live' s') ∧ capacity s' = capacity s.
Proof.
  intros H Hfuel Hp. assert (∀ low : Prop, (¬ plenty s → low) → legal low (λ _, True) A p → ∃ t s' live' A',
    run_client fuel p s = Ret t s' ∧ shows live' A' s' ∧ asteps low (λ _, True) A t A' ∧
    (plenty s → plenty s') ∧ (plenty s → synced live s → synced live' s') ∧ capacity s' = capacity s) as Hall; [clear Hp|by apply Hall].
  revert live A s H Hfuel. induction p as [|c k IH]; intros live A s H Hfuel low Hlow Hlegal.
  - exists [], s, live, A. split; [done|]. split; [done|]. split; [constructor|done].
  - destruct Hlegal as (Hc & Hmany & Hnext).
    destruct (exec_refined fuel live A s c H Hmany Hfuel Hc) as (r & s1 & live1 & A1 & Hrun & H1 & Hstep & Hp & Hsync & Hcap).
    assert (astep low (λ _, True) A c r A1) as Hstep' by by eapply astep_weaken.
    destruct (IH r live1 A1 s1 H1) with (low := low) as (t & s2 & live2 & A2 & Hrun2 & H2 & Hsteps & Hp2 & Hsync2 & Hcap2).
    { by rewrite (astep_slots _ _ _ _ _ _ Hstep). }
    { intros Hno. apply Hlow. intros ?. by apply Hno, Hp. }
    { by apply Hnext. }
    exists ((c, r) :: t), s2, live2, A2. cbn [run_client]. rewrite (M_bind_Ret _ _ _ _ _ Hrun) (M_bind_Ret _ _ _ _ _ Hrun2).
    split; [done|]. split; [done|]. split; [by econstructor|]. split; [auto|]. split; [auto|congruence].
Qed.
