(* ===== verification/PintosBoot.v ===== *)
(** Starting the file system: formatting the disk gives an empty file system, and
    starting again from the disk gives the files that were there. *)
From S2P Require Export PintosNames.
Local Open Scope Z_scope.

(** * Reading a bitmap from a file *)

Lemma last_mask_bit b k : wf_bitmap b → 0 <= k < bit_cnt b → elem_idx k = elem_cnt (bit_cnt b) - 1 →
  Z.testbit (last_mask b) (k mod ELEM_BITS) = true.
Proof.
  intros Hwf Hk E. pose proof (wf_cnt b Hwf) as Hc. unfold last_mask, elem_idx, elem_cnt, ELEM_BITS in *.
  rewrite wrap_u_id in E; [|unfold in_u; lia]. pose proof (Z.mod_pos_bound (bit_cnt b) 32 ltac:(lia)) as Hm.
  assert (∀ m, 0 <= m <= 32 → wrap_u 32 (Z.shiftl 1 m - 1) = Z.ones m) as Hones.
  { intros m Hm'. rewrite Z.shiftl_1_l. replace (2 ^ m - 1) with (Z.ones m) by (rewrite Z.ones_equiv; lia). apply wrap_u_id.
    rewrite Z.ones_equiv. unfold in_u.
    pose proof (Z.pow_le_mono_r 2 m 32). pose proof (Z.pow_pos_nonneg 2 m). lia. }
  pose proof (Z.mod_pos_bound k 32 ltac:(lia)) as Hkm. case_bool_decide as Hz.
  - rewrite Hones; [|lia]. apply Z.ones_spec_low. div_lia.
  - change (wrap_u 32 (-1)) with (Z.ones 32). apply Z.ones_spec_low. lia.
Qed.

Lemma last_mask_in_u b : in_u 32 (last_mask b).
Proof. unfold last_mask. case_bool_decide; apply wrap_u_range; lia. Qed.

Section bitmap_read.
Context (s : fs) (f a : loc) (x : inode) (pos : Z) (deny : bool) (b : bitmap).
Context (Hf : files s !! f = Some (File (Some a) pos deny)) (Hx : inodes s !! a = Some x) (Hd : on_disk s (data x)).
Context (Hbytes : Forall (in_u 8) (disk s)) (Hlen : i_length (data x) = byte_cnt (bit_cnt b)).
Context (Hwf : wf_bitmap b) (Hpos : 0 < bit_cnt b) (Hp : plenty s).

Lemma bitmap_read_run : ∃ b' s', bitmap_read b (Some f) s = Ret (true, b') s' ∧ later s s' ∧
  wf_bitmap b' ∧ bit_cnt b' = bit_cnt b ∧ saved (bit_cnt b) (content (data x) (disk s)) b'.
Proof using All.
  pose proof Hwf as [Hc Hl Hw]. unfold ELEM_BITS in Hc. destruct (bitmap_bytes b Hwf) as [Ew Eb].
  destruct (bytes_of_words_wf _ Hw) as [Hsz Hby]. pose proof (size_of_content _ _ Hd) as Hcs. rewrite Hlen in Hcs.
  destruct (byte_cnt_eq (bit_cnt b)) as [Ebc Bbc]; [lia|].
  assert (elem_cnt (bit_cnt b) = (bit_cnt b + 31) / 32) as Eec.
  { unfold elem_cnt, ELEM_BITS. rewrite wrap_u_id; [|unfold in_u; lia]. f_equal. lia. }
  unfold bitmap_read. rewrite bool_decide_true; [|lia]. rewrite Ew. unfold file_read_at. rewrite run_assoc (get_file_run _ _ _ _ Hf).
  destruct (inode_read_at_run a x s (bytes_of_words (bits b)) (byte_cnt (bit_cnt b)) 0) as (n & s1 & Hrun & Hlater & Hn & Hnp);
    [done|done|split_and!; lia|done|].
  rewrite (M_bind_Ret _ _ _ _ _ Hrun). cbv beta iota. unfold available in *. rewrite Hlen in Hn Hnp.
  assert (n = byte_cnt (bit_cnt b)) as -> by (destruct Hnp; [lia|done]). clear Hn Hnp.
  set (c := content (data x) (disk s)) in *. set (l := splice 0 _ _).
  assert (slice 0 (byte_cnt (bit_cnt b)) c = c) as Ec by (rewrite -Hcs; apply slice_all).
  assert (Forall (in_u 8) c) as Hcb by (unfold c, content; by apply Forall_slice).
  assert (size_of l = size_of (bytes_of_words (bits b))) as Hsl by (unfold l; rewrite Ec size_of_splice; lia).
  assert (Forall (in_u 8) l) as Hlb by (unfold l; rewrite Ec; by apply Forall_splice).
  set (ws := words_of_bytes (length (bits b)) l). cbn [bits bit_cnt].
  assert (length ws = length (bits b)) as Hlws by apply length_words_of_bytes.
  assert (Forall (in_u 32) ws) as Hwws by (apply words_of_bytes_wf; [done|lia]).
  destruct (lookup_lt_is_Some_2 ws (Z.to_nat (elem_cnt (bit_cnt b) - 1))) as [w Hwl]; [rewrite Hlws; div_lia|].
  rewrite Hwl. run. rewrite bool_decide_true //. eexists _, s1. split; [done|]. split; [done|].
  assert (in_u 32 w) as Hwu by by eapply Forall_lookup_1.
  split; [|split; [done|]].
  - split; simpl; [done|rewrite length_insert; lia|]. apply Forall_insert; [done|by apply in_u_land].
  - intros k Hk. destruct (elem_idx_bound _ k Hk) as [I1 I2]; [lia|]. unfold bit. cbn [bits].
    rewrite words_of_bytes_lookup; [|lia].
    assert (ws !! Z.to_nat (elem_idx k) = Some (le_combine (slice (4 * Z.of_nat (Z.to_nat (elem_idx k))) 4 c))) as Hwk.
    { unfold ws. rewrite words_of_bytes_lookup; [|lia]. do 2 f_equal. unfold l. rewrite Ec.
      block_eq. }
    unfold last_mask. cbn [bit_cnt]. fold (last_mask b).
    destruct (decide (Z.to_nat (elem_cnt (bit_cnt b) - 1) = Z.to_nat (elem_idx k))) as [E|E].
    + rewrite E in Hwl |- *. rewrite list_lookup_insert_eq; [|rewrite Hlws; lia]. rewrite Hwl in Hwk. injection Hwk as <-.
      rewrite Z.land_spec last_mask_bit //; [by rewrite andb_true_r|lia].
    + by rewrite list_lookup_insert_ne // Hwk.
Qed.
End bitmap_read.

(** * Opening the free map *)

(** There is nothing in memory yet. *)
Record blank (s : fs) : Prop := {
  blank_inodes : inodes s = ∅;
  blank_open : open_inodes s = [];
  blank_files : files s = ∅;
  blank_dirs : dirs s = ∅;
}.

Lemma opened_blank live s : inodes s = ∅ → open_inodes s = [] → opened live ∅ [] [] s.
Proof.
  intros E1 E2. split; rewrite ?E1 ?E2; try done; try by constructor.
  - intros a. split; [by intros ?%not_elem_of_nil|by intros [x ?]].
  - by intros a ?%not_elem_of_nil.
Qed.

(** Nothing is open but the free map. *)
Record map_open (live : gmap Z inode_disk) (d : inode_disk) (f a : loc) (x : inode) (s : fs) : Prop := {
  mo_files : files s = {[f := File (Some a) 0 false]};
  mo_dirs : dirs s = ∅;
  mo_opened : opened live ∅ [a] [] s;
  mo_inode : inodes s !! a = Some x;
  mo_sector : sector x = FREE_MAP_SECTOR;
  mo_data : data x = d;
}.

Lemma map_open_same live d f a x s s' : same_memory s s' → map_open live d f a x s → map_open live d f a x s'.
Proof.
  intros [M1 M2 M3 M4 M5 M6 M7] [E1 E2 E3 E4 E5 E6]. split; try congruence. by eapply opened_same.
Qed.

Lemma free_map_file_run live s d : blank s → live !! FREE_MAP_SECTOR = Some d → capacity s <= 2 ^ 28 → inode_ok (capacity s) FREE_MAP_SECTOR d →
  slice (512 * FREE_MAP_SECTOR) 512 (disk s) = encode_inode d → plenty s →
  ∃ f a x s', (∀ B (k : ptr → F B), (p ← inode_open FREE_MAP_SECTOR; f ← file_open p; k f) s = k (Some f) s') ∧
    map_open live d f a x s' ∧ same_disk s s' ∧ plenty s'.
Proof.
  intros [B1 B2 B3 B4] Hd Hcap Hok Henc Hp.
  destruct (inode_open_run live ∅ [] [] s (opened_blank live s B1 B2) FREE_MAP_SECTOR d) as (p & s1 & Hrun1 & Hs1 & Hd1 & Hop); try done.
  destruct p as [a|]; [|by destruct Hop]. destruct Hop as (Hop & x & Hx & Hxs).
  destruct (new_file_run s1 (File NULL 0 false)) as (s2 & Hl & [(f & Hrun2 & Hf)|[_ Hno]]); [|by destruct Hno; apply Hs1].
  pose proof (later_same _ _ Hl) as Hs2. exists f, a, x. eexists. split; [|split; [|split]].
  - intros B k. rewrite (M_bind_Ret _ _ _ _ _ Hrun1). unfold file_open. rewrite run_assoc (M_bind_Ret _ _ _ _ _ Hrun2) bool_decide_true //.
    rewrite run_assoc (set_file_run _ (File NULL 0 false)); [|apply lookup_insert_eq]. rewrite run_ret. cbn [files with_files].
    rewrite insert_insert_eq. done.
  - split; simpl; try done.
    + by rewrite (same_files _ _ Hs2) (step_files _ _ _ Hs1) B3 insert_empty.
    + by rewrite (same_dirs _ _ Hs2) (step_dirs _ _ _ Hs1).
    + eapply opened_same; [| |exact Hop]; simpl; apply Hs2.
    + by rewrite (same_inodes _ _ Hs2).
    + apply (op_live _ _ _ _ _ Hop) in Hx. rewrite Hxs in Hx. congruence.
  - etrans; [exact Hd1|]. etrans; [by apply later_same_disk|done].
  - unfold plenty. simpl. apply (same_plenty _ _ Hs2), Hs1, Hp.
Qed.

Lemma map_open_ready live d f a x s : map_open live d f a x s → free_map_file s = Some f → live !! FREE_MAP_SECTOR = Some d →
  i_length d = byte_cnt (capacity s) → free_map_ready live s f a x.
Proof.
  intros [E1 E2 E3 E4 E5 E6] Hf Hd Hlen. split; try done; try congruence.
  - exists 0. rewrite E1. apply lookup_singleton_eq.
  - by destruct (op_cnt _ _ _ _ _ E3 a x E4) as (_ & _ & ->).
Qed.

Lemma map_open_inv live d f a x s : map_open live d f a x s → free_map_file s = Some f → live !! FREE_MAP_SECTOR = Some d →
  i_length d = byte_cnt (capacity s) → layout live s → fs_inv live ∅ [] s.
Proof.
  intros H Hf Hd Hlen Hl. pose proof H as [E1 E2 E3 E4 E5 E6]. split; [done| |by exists f, a, x; eapply map_open_ready|by intros ? ?%not_elem_of_empty|].
  - unfold file_refs, file_denies. rewrite E1. by rewrite /collect map_to_list_singleton.
  - intros g y. rewrite E1 Hf. intros [<- _]%lookup_singleton_Some. congruence.
Qed.

(** The free map is read back; [b] is what it was. *)
Lemma free_map_open_run live s b d :
  blank s → layout live (with_free_map b s) → synced live (with_free_map b s) → live !! FREE_MAP_SECTOR = Some d →
  i_length d = byte_cnt (capacity s) → wf_bitmap (free_map s) → bit_cnt (free_map s) = capacity s → plenty s →
  ∃ s', free_map_open s = Ret tt s' ∧ fs_inv live ∅ [] s' ∧ disk s' = disk s ∧ capacity s' = capacity s ∧ dirs s' = ∅ ∧
    synced live s' ∧ plenty s' ∧ ∀ f, handle_in s' (files s') f = None.
Proof.
  intros Hblank Hl [l [Hc Hsaved]] Hd Hlen Hwf Hcnt Hp. cbn [capacity free_map with_free_map] in Hsaved.
  pose proof (lay_inode _ _ Hl _ _ Hd) as Hok. pose proof (lay_disk _ _ Hl _ _ Hd) as Henc. cbn [capacity disk with_free_map] in Hok, Henc.
  destruct (free_map_file_run live s d Hblank Hd (lay_capacity _ _ Hl) Hok Henc Hp) as (f & a & x & s1 & Hrun & Hmo & Hd1 & Hp1).
  unfold free_map_open. rewrite Hrun run_modify bool_decide_false // run_gets. set (s2 := with_free_map_file _ s1).
  destruct Hmo as [E1 E2 E3 E4 E5 E6]. pose proof Hd1 as [D1 D2 D3].
  assert (on_disk s2 (data x)) as Hon.
  { pose proof (layout_on_disk _ _ _ _ Hl Hd) as [O1 O2 O3 O4 O5]. rewrite E6. split; simpl in *; by rewrite ?D1 ?D2. }
  assert (bit_cnt (free_map s2) = capacity s) as Hcnt2 by (simpl; congruence).
  destruct (bitmap_read_run s2 f a x 0 false (free_map s2)) as (b' & s3 & Hrun3 & Hl3 & W1 & W2 & W3); try done.
  { simpl. rewrite E1. apply lookup_singleton_eq. }
  { simpl. rewrite D1. apply (lay_bytes _ _ Hl). }
  { by rewrite Hcnt2 E6. }
  { simpl. by rewrite D3. }
  { rewrite Hcnt2. pose proof (ok_sector _ _ _ Hok). lia. }
  rewrite (M_bind_Ret _ _ _ _ _ Hrun3) run_modify. rewrite Hcnt2 in W2, W3.
  exists (with_free_map b' s3). split; [done|]. pose proof (later_same _ _ Hl3) as Hs3. pose proof (later_same_disk _ _ Hl3) as Hd3.
  assert (contents live (with_free_map b s) !! FREE_MAP_SECTOR = Some (content d (disk s))) as Hc'.
  { unfold contents. by rewrite lookup_fmap Hd. }
  rewrite Hc' in Hc. injection Hc as <-.
  assert (disk s3 = disk s ∧ capacity s3 = capacity s) as [K1 K2].
  { destruct Hd3 as [-> -> _]. simpl. by rewrite D1 D2. }
  assert (content (data x) (disk s2) = content d (disk s)) as Econt by (simpl; by rewrite E6 D1).
  rewrite Econt in W3.
  assert (changed b b' (bit b)) as Hch.
  { split; [done|rewrite W2; symmetry; apply (lay_cnt _ _ Hl)|]. intros k Hk. rewrite (lay_cnt _ _ Hl) in Hk. simpl in Hk.
    by rewrite -W3 // Hsaved. }
  assert (layout live (with_free_map b' s3)) as Hl'.
  { apply (layout_same _ (with_free_map b' (with_free_map b s))); [by split|].
    apply (layout_free_map _ _ _ (bit b)); [done|done|]. intros sec d' k Hd' Hk. by eapply (lay_used _ _ Hl). }
  assert (map_open live d f a x (with_free_map b' s3)) as Hmo'.
  { apply (map_open_same _ _ _ _ _ s2); [etrans; [exact Hs3|by apply with_free_map_same]|]. split; try done. by apply (opened_same _ _ _ _ s1). }
  assert (free_map_file s3 = Some f) as Hfm by by rewrite (same_free_map_file _ _ Hs3).
  split; [eapply map_open_inv; try done; simpl; by rewrite K2|]. split; [done|]. split; [done|].
  split; [apply Hmo'|]. split; [|split; [by apply Hs3|]].
  - exists (content d (disk s)). simpl. rewrite K2. split; [|done]. unfold contents. simpl. by rewrite lookup_fmap Hd K1.
  - intros g. unfold handle_in. case_decide as Hg; [done|]. simpl in Hg. simpl.
    rewrite (same_files _ _ Hs3). simpl. rewrite E1 lookup_singleton_ne //. congruence.
Qed.

(** * Creating the free map *)

Lemma free_map_init_run s : 2 <= capacity s <= 2 ^ 28 → plenty s →
  ∃ s', free_map_init s = Ret tt s' ∧ same_memory s s' ∧ disk s' = disk s ∧ wf_bitmap (free_map s') ∧
    bit_cnt (free_map s') = capacity s ∧ ∀ k, 0 <= k < capacity s → bit (free_map s') k = bool_decide (k < 2).
Proof.
  intros Hcap Hp. unfold free_map_init, disk_size. rewrite run_gets.
  destruct (malloc_ok_run s) as (o1 & s1 & Hrun1 & Hl1 & Ho1). rewrite (M_bind_Ret _ _ _ _ _ Hrun1).
  destruct o1; [|by destruct (Ho1 eq_refl)]. pose proof (later_plenty _ _ Hl1 Hp) as Hp1.
  destruct (malloc_ok_run s1) as (o2 & s2 & Hrun2 & Hl2 & Ho2). rewrite run_assoc (M_bind_Ret _ _ _ _ _ Hrun2).
  destruct o2; [|by destruct (Ho2 eq_refl)]. set (n := capacity s) in *. rewrite run_assoc.
  match goal with |- context [(uninit _ ≫= ?k) s2] => destruct (uninit_run (Z.to_nat (byte_cnt n)) k s2) as (l & s3 & -> & Hs3 & Hd3 & Hsz & Hb) end.
  rewrite run_ret. destruct (byte_cnt_eq n) as [Eb Bb]; [lia|].
  assert (elem_cnt n = (n + 31) / 32) as Ee.
  { unfold elem_cnt, ELEM_BITS. rewrite wrap_u_id; [|unfold in_u; lia]. f_equal. lia. }
  destruct (bitmap_create_clear (words_of_bytes (Z.to_nat (elem_cnt n)) l) n) as (b & -> & W1 & W2 & W3).
  { unfold ELEM_BITS. lia. }
  { rewrite length_words_of_bytes. lia. }
  { apply words_of_bytes_wf; [done|]. rewrite Ee Hsz Eb. div_lia. }
  rewrite run_modify. unfold FREE_MAP_SECTOR, ROOT_DIR_SECTOR.
  destruct (bitmap_mark_run b 0) as (b1 & Hrun3 & [M1 M2 M3]); [done|lia|]. rewrite W2 in M2, M3.
  rewrite (on_free_map_run _ _ (with_free_map b s3) _ _ Hrun3).
  destruct (bitmap_mark_run b1 1) as (b2 & Hrun4 & [N1 N2 N3]); [done|lia|]. rewrite M2 in N2, N3.
  exists (with_free_map b2 (with_free_map b1 (with_free_map b s3))). split.
  { unfold on_free_map. cbn [free_map with_free_map]. by rewrite Hrun4. }
  split.
  { etrans; [by apply later_same|]. etrans; [by apply later_same|]. etrans; [exact Hs3|]. by split. }
  split; [simpl; rewrite (same_disk_disk _ _ Hd3) (same_disk_disk _ _ (later_same_disk _ _ Hl2)); by apply (same_disk_disk _ _ (later_same_disk _ _ Hl1))|].
  split; [done|]. split; [done|]. intros k Hk. cbn [free_map with_free_map]. rewrite N3 //. rewrite M3 //. rewrite W3 //.
  destruct (decide (k = 1)) as [->|H1]; [done|]. destruct (decide (k = 0)) as [->|H0]; [done|]. symmetry. apply bool_decide_eq_false. lia.
Qed.

(** * Formatting *)

(** The sectors of the free map file. *)
Definition map_sectors (n : Z) : Z := (byte_cnt n + 511) / 512.

(** A machine that has just started, with a disk. *)
Record started (s : fs) : Prop := {
  st_blank : blank s;
  st_file : free_map_file s = NULL;
  st_disk : size_of (disk s) = 512 * capacity s;
  st_bytes : Forall (in_u 8) (disk s);
  st_capacity : 3 + map_sectors (capacity s) <= capacity s <= 2 ^ 28;
  st_plenty : plenty s;
}.

Lemma layout_empty s : size_of (disk s) = 512 * capacity s → Forall (in_u 8) (disk s) → wf_bitmap (free_map s) →
  bit_cnt (free_map s) = capacity s → capacity s <= 2 ^ 28 → layout ∅ s.
Proof. intros. split; try done. Qed.

Lemma free_map_create_run s :
  started s → wf_bitmap (free_map s) → bit_cnt (free_map s) = capacity s →
  (∀ k, 0 <= k < capacity s → bit (free_map s) k = bool_decide (k < 2)) →
  ∃ d f a x s', free_map_create s = Ret tt s' ∧ map_open {[FREE_MAP_SECTOR := d]} d f a x s' ∧ free_map_file s' = Some f ∧
    i_length d = byte_cnt (capacity s) ∧ layout {[FREE_MAP_SECTOR := d]} s' ∧ plenty s' ∧ capacity s' = capacity s ∧
    reserved {[FREE_MAP_SECTOR := d]} s' ROOT_DIR_SECTOR ∧ ∃ k, 0 <= k ∧ group (free_map s') false 1 k.
Proof.
  intros [S1 S2 S3 S4 S5 S6] Hwf Hcnt Hbits. set (n := capacity s) in *. assert (0 <= map_sectors n) as Hms.
  { unfold map_sectors. destruct (decide (0 <= n <= 2 ^ 28)) as [Hn|Hn].
    - destruct (byte_cnt_eq n ltac:(lia)). div_lia.
    - assert (in_u 32 (byte_cnt n)) by (apply wrap_u_range; lia). unfold in_u in *. div_lia. }
  destruct (byte_cnt_eq n) as [Eb Bb]; [lia|].
  assert (wrap_s 32 (byte_cnt n) = byte_cnt n) as Ew by (apply wrap_s_id; [lia|unfold in_s; lia]).
  unfold free_map_create, bitmap_file_size. rewrite run_gets Hcnt Ew.
  assert (layout ∅ s) as Hl by (apply layout_empty; try done; lia).
  destruct (inode_create_run ∅ s FREE_MAP_SECTOR (byte_cnt n) Hl) as (ok & s1 & Hrun1 & Hs1 & Hgrow & Hok); [by left| |lia|].
  { split; [unfold FREE_MAP_SECTOR; lia|]. split; [|by intros]. rewrite Hbits; [done|unfold FREE_MAP_SECTOR; lia]. }
  rewrite (M_bind_Ret _ _ _ _ _ Hrun1). destruct ok.
  2: { destruct Hok as [_ Hno]. destruct (Hno S6) as [_ Hno']. exfalso. apply (Hno' 2); [lia|]. fold (map_sectors n).
       split; [lia|]. intros j Hj. rewrite Hbits; [|lia]. apply bool_decide_eq_false. lia. }
  destruct Hok as (d & Hlen & Hfree & Hnew & Hl1 & _ & _). rewrite insert_empty in Hl1.
  assert (blank s1) as Hb1.
  { destruct S1 as [B1 B2 B3 B4]. pose proof Hs1 as [M1 M2 M3 M4 M5 M6 M7]. split; congruence. }
  assert ({[FREE_MAP_SECTOR := d]} !! FREE_MAP_SECTOR = Some d) as Hd by apply lookup_singleton_eq.
  pose proof (lay_inode _ _ Hl1 _ _ Hd) as Hiok. assert (plenty s1) as Hp1 by by apply Hs1.
  destruct (free_map_file_run {[FREE_MAP_SECTOR := d]} s1 d Hb1 Hd) as (f & a & x & s2 & Hrun2 & Hmo & Hd2 & Hp2); [apply Hl1|done|by apply (lay_disk _ _ Hl1)|done|].
  rewrite Hrun2 run_modify bool_decide_false // run_gets. set (s3 := with_free_map_file _ s2).
  assert (map_open {[FREE_MAP_SECTOR := d]} d f a x s3) as Hmo3 by (destruct Hmo; split; try done; by apply (opened_same _ _ _ _ s2)).
  assert (same_disk s1 s3) as Hd3 by by etrans.
  assert (capacity s3 = n) as Hcap3 by by rewrite (same_disk_capacity _ _ Hd3) (same_capacity _ _ Hs1).
  assert (layout {[FREE_MAP_SECTOR := d]} s3) as Hl3 by by eapply layout_same.
  destruct (bitmap_write_run {[FREE_MAP_SECTOR := d]} s3 f a x Hl3) as (ok & s4 & Hrun4 & Hq & Hfm & Hok4).
  { eapply map_open_ready; [done..|by rewrite Hcap3]. }
  rewrite (M_bind_Ret _ _ _ _ _ Hrun4). destruct ok; [|by destruct Hok4].
  pose proof (quiet_memory _ _ _ Hq) as Hs4. exists d, f, a, x, s4.
  assert (free_map s4 = free_map s1) as Efm by by rewrite Hfm (same_disk_map _ _ Hd3).
  assert (sectors_of d = map_sectors n) as Esec by by rewrite /sectors_of Hlen.
  pose proof (ok_end _ _ _ Hiok) as Hend. rewrite Esec (same_capacity _ _ Hs1) in Hend.
  assert (0 <= i_start d) as Hst by apply (wf_start _ (ok_disk _ _ _ Hiok)).
  split; [done|]. split; [by eapply map_open_same|]. split; [by rewrite (same_free_map_file _ _ Hs4)|]. split; [done|].
  split; [apply Hq|]. split; [by apply Hs4|]. split; [by rewrite (same_capacity _ _ Hs4)|]. split.
  - unfold ROOT_DIR_SECTOR. rewrite /reserved (same_capacity _ _ Hs4) Hcap3 Efm. split; [lia|]. split.
    + apply Hgrow; [lia|]. rewrite Hbits; [done|lia].
    + intros sec' d' [<- <-]%lookup_singleton_Some [?|Hin]; [done|]. apply Hfree in Hin. rewrite Hbits in Hin; [done|lia].
  - rewrite Efm. assert (∀ k, 2 <= k < n → ¬ in_data d k → group (free_map s1) false 1 k) as Hgroup.
    { intros k Hk Hin. split; [rewrite (lay_cnt _ _ Hl1) (same_capacity _ _ Hs1); lia|]. intros j Hj. replace j with k by lia.
      apply not_true_is_false. intros Hb. apply Hnew in Hb as [Hb|?]; [|done|lia]. rewrite Hbits in Hb; [|lia].
      apply bool_decide_eq_true in Hb. lia. }
    destruct (decide (i_start d + map_sectors n < n ∧ 2 <= i_start d + map_sectors n)) as [Hc|Hc].
    + exists (i_start d + map_sectors n). split; [lia|]. apply Hgroup; [lia|]. unfold in_data. rewrite Esec. lia.
    + exists 2. split; [lia|]. apply Hgroup; [lia|]. unfold in_data. rewrite Esec. lia.
Qed.

Lemma opened_weaken live live' gone held denied s : live ⊆ live' → opened live gone held denied s → opened live' gone held denied s.
Proof. intros Hsub []. split; try done. intros a x Hx. by eapply lookup_weaken; [eauto|]. Qed.

Lemma visible_disk live s s' : disk s' = disk s → visible live s' = visible live s.
Proof. unfold visible, contents. by intros ->. Qed.

(** Closing the free map leaves nothing open. *)
Lemma free_map_close_run live d f a x s :
  map_open live d f a x s → free_map_file s = Some f → layout live s → live !! FREE_MAP_SECTOR = Some d → plenty s →
  ∃ s', free_map_close s = Ret tt s' ∧ blank s' ∧ same_disk s s' ∧ plenty s'.
Proof.
  intros [E1 E2 E3 E4 E5 E6] Hf Hl Hd Hp. unfold free_map_close. rewrite run_gets Hf. unfold file_close, file_allow_write.
  assert (files s !! f = Some (File (Some a) 0 false)) as Hx by by rewrite E1 lookup_singleton_eq.
  rewrite run_assoc ASSERT_true // run_assoc (get_file_run _ _ _ _ Hx) run_ret (get_file_run _ _ _ _ Hx). cbn [f_inode].
  destruct (inode_close_last live ∅ [] [] s a x Hl E3 E4) as (s1 & Hrun & Hs1 & Hcase); [simpl; lia|done|by apply not_elem_of_nil|by intros ?%not_elem_of_empty|].
  rewrite bool_decide_false in Hcase; [|by apply not_elem_of_empty]. destruct Hcase as [Hd1 Hop].
  rewrite (M_bind_Ret _ _ _ _ _ Hrun). unfold free_file.
  rewrite (get_file_run s1 f (File (Some a) 0 false)); [|by rewrite (step_files _ _ _ Hs1)]. rewrite run_gets.
  eexists. split; [done|]. split; [|split; [by etrans|by apply Hs1]].
  assert (inodes s1 = ∅) as Hi.
  { apply map_eq. intros b. rewrite lookup_empty. destruct (inodes s1 !! b) as [y|] eqn:Hy; [|done].
    by destruct (op_cnt _ _ _ _ _ Hop _ _ Hy) as (_ & ? & _). }
  split; simpl; [done| | |by rewrite (step_dirs _ _ _ Hs1)].
  - destruct (open_inodes s1) as [|b l] eqn:El; [done|]. destruct (proj1 (op_list _ _ _ _ _ Hop b)) as [y Hy]; [rewrite El; by left|].
    by rewrite Hi in Hy.
  - by rewrite (step_files _ _ _ Hs1) E1 delete_singleton_eq.
Qed.

Lemma do_format_run s :
  started s → wf_bitmap (free_map s) → bit_cnt (free_map s) = capacity s →
  (∀ k, 0 <= k < capacity s → bit (free_map s) k = bool_decide (k < 2)) →
  ∃ live d dd s', do_format s = Ret tt s' ∧ blank s' ∧ plenty s' ∧ capacity s' = capacity s ∧
    live !! FREE_MAP_SECTOR = Some d ∧ i_length d = byte_cnt (capacity s) ∧ live !! ROOT_DIR_SECTOR = Some dd ∧
    layout live s' ∧ synced live s' ∧ visible live s' = {[ROOT_DIR_SECTOR := replicate 320 0]}.
Proof.
  intros Hst Hwf Hcnt Hbits. destruct (free_map_create_run s Hst Hwf Hcnt Hbits)
    as (d & f & a & x & s1 & Hrun1 & Hmo & Hf & Hlen & Hl1 & Hp1 & Hcap1 & Hres & k & Hk & Hgroup).
  unfold do_format. rewrite (M_bind_Ret _ _ _ _ _ Hrun1). set (live1 := {[FREE_MAP_SECTOR := d]}) in *.
  unfold dir_create. change (wrap_s 32 (wrap_u 32 (16 * sizeof_entry))) with 320.
  assert (live1 !! FREE_MAP_SECTOR = Some d) as Hd by apply lookup_singleton_eq.
  destruct (inode_create_run live1 s1 ROOT_DIR_SECTOR 320 Hl1) as (ok & s2 & Hrun2 & Hs2 & _ & Hok); [|done|lia|].
  { right. exists f, a, x. eapply map_open_ready; [done..|by rewrite Hcap1]. }
  rewrite (M_bind_Ret _ _ _ _ _ Hrun2). destruct ok.
  2: { destruct Hok as [_ Hno]. destruct (Hno Hp1) as [_ Hno']. by destruct (Hno' k Hk). }
  destruct Hok as (dd & Hdd & _ & _ & Hl2 & Hv2 & Hsync). set (live2 := <[ROOT_DIR_SECTOR := dd]> live1) in *.
  assert (live2 !! FREE_MAP_SECTOR = Some d) as Hd2 by by rewrite lookup_insert_ne.
  destruct (free_map_close_run live2 d f a x s2) as (s3 & Hrun3 & Hb3 & Hd3 & Hp3); [| |done|done|by apply Hs2|].
  { apply (map_open_same _ _ _ _ _ s1); [done|]. destruct Hmo as [E1 E2 E3 E4 E5 E6]. split; try done.
    eapply opened_weaken; [|done]. by apply insert_subseteq, lookup_singleton_ne. }
  { by rewrite (same_free_map_file _ _ Hs2). }
  exists live2, d, dd, s3. split; [done|]. split; [done|]. split; [done|].
  split; [by rewrite (same_disk_capacity _ _ Hd3) (same_capacity _ _ Hs2)|]. split; [done|]. split; [done|].
  split; [apply lookup_insert_eq|]. split; [by eapply layout_same|]. split.
  - apply (synced_same _ s2); [done|]. apply Hsync; [done|]. by rewrite Hf.
  - rewrite (visible_same _ _ _ Hd3) Hv2. unfold visible at 1, contents. rewrite /live1 map_fmap_singleton delete_singleton_eq.
    rewrite insert_empty. by rewrite delete_singleton_ne.
Qed.

(** * Starting *)

(** A directory with room for [n] files. *)
Lemma dir_rep_empty (n : nat) : dir_rep (replicate n None) (replicate (20 * n) 0).
Proof.
  split.
  - rewrite size_of_replicate length_replicate. lia.
  - by apply Forall_replicate.
  - intros j sl [-> Hj]%lookup_replicate.
    assert (slice (20 * Z.of_nat j) 20 (replicate (20 * n) 0) = replicate 20 0) as ->; [|done].
    apply bytes_eq; [sizes; lia|]. sizes. intros i Hi. byte_cases. unfold byte_at. rewrite !bool_decide_true; [|lia..].
    rewrite !lookup_replicate_2 //; lia.
Qed.

(** The file system without files. *)
Definition empty_afs : afs := Afs (replicate 16 None) ∅ ∅ ∅.

Lemma format_run s : started s →
  ∃ s' live, filesys_init true true s = Ret tt s' ∧ shows live empty_afs s' ∧ synced live s' ∧ plenty s' ∧ capacity s' = capacity s.
Proof.
  intros Hst. pose proof Hst as [S1 S2 S3 S4 S5 S6]. pose proof S1 as [B1 B2 B3 B4].
  assert (0 <= map_sectors (capacity s)) as Hms.
  { unfold map_sectors. assert (in_u 32 (byte_cnt (capacity s))) as Hu by (apply wrap_u_range; lia). unfold in_u in Hu. div_lia. }
  unfold filesys_init, inode_init. rewrite run_modify. set (s0 := with_open [] s).
  destruct (free_map_init_run s0) as (s1 & Hrun1 & Hs1 & Hd1 & W1 & W2 & W3); [simpl; lia|done|].
  rewrite (M_bind_Ret _ _ _ _ _ Hrun1). pose proof Hs1 as [M1 M2 M3 M4 M5 M6 M7]. simpl in *.
  destruct (do_format_run s1) as (live & d & dd & s2 & Hrun2 & Hb2 & Hp2 & Hc2 & Hd & Hlen & Hdd & Hl2 & Hsync2 & Hv2);
    [|done|congruence|by rewrite M1|].
  { split; [split; congruence|congruence|congruence|congruence|by rewrite M1|by apply M7]. }
  rewrite (M_bind_Ret _ _ _ _ _ Hrun2). assert (with_free_map (free_map s2) s2 = s2) as Es by by destruct s2.
  destruct (free_map_open_run live s2 (free_map s2) d) as (s3 & Hrun3 & H3 & Hd3 & Hc3 & Hdirs & Hsync3 & Hp3 & Hh);
    [done|by rewrite Es|by rewrite Es|done|by rewrite Hc2|apply (lay_map _ _ Hl2)|apply (lay_cnt _ _ Hl2)|done|].
  exists s3, live. split; [done|]. split; [|split; [done|split; [done|congruence]]].
  assert (visible live s3 = {[ROOT_DIR_SECTOR := replicate 320 0]}) as Hv by by rewrite (visible_disk _ _ _ Hd3).
  split; unfold empty_afs; cbn [a_slots a_store a_gone a_handles]; try done.
  - exists (replicate 320 0). rewrite Hv lookup_singleton_eq. split; [done|]. exact (dir_rep_empty 16).
  - by rewrite Hv delete_singleton_eq.
  - split.
    + intros j n k [? _]%lookup_replicate. done.
    + intros i j n m k [? _]%lookup_replicate. done.
Qed.

(** The entries of a map but those of some sectors. *)
Definition without {B} (gone : gset Z) (m : gmap Z B) : gmap Z B := filter (λ p : Z * B, p.1 ∉ gone) m.

Lemma without_Some {B} gone (m : gmap Z B) k c : without gone m !! k = Some c ↔ m !! k = Some c ∧ k ∉ gone.
Proof. unfold without. by rewrite map_lookup_filter_Some. Qed.

(** What is left of the file system when the machine starts again: nothing is open,
    and the files that had been removed are gone. *)
Definition restart (A : afs) : afs := Afs (a_slots A) (without (a_gone A) (a_store A)) ∅ ∅.

Lemma layout_subseteq live live' s : live' ⊆ live → layout live s → layout live' s.
Proof.
  intros Hsub []. assert (∀ k d, live' !! k = Some d → live !! k = Some d) as Hw by (intros k d Hk; by eapply lookup_weaken).
  split; eauto.
Qed.

Lemma visible_without live gone s : visible (without gone live) s = without gone (visible live s).
Proof.
  apply map_eq. intros k. apply option_eq. intros c. unfold visible, contents.
  rewrite without_Some !lookup_delete_Some !lookup_fmap_Some. setoid_rewrite without_Some. firstorder.
Qed.

Section restart.
Context (live : gmap Z inode_disk) (A : afs) (s s0 : fs) (H : shows live A s) (Hsync : synced live s).
Context (Hb : blank s0) (Hp : plenty s0) (Hdisk : disk s0 = disk s) (Hcap : capacity s0 = capacity s).

Lemma restart_run :
  ∃ s' live', filesys_init true false s0 = Ret tt s' ∧ shows live' (restart A) s' ∧ synced live' s' ∧ plenty s'.
Proof using All.
  pose proof H as [S1 S2 (c & Hc & Hrep) S4 S5 S6 S7]. pose proof (inv_layout _ _ _ _ S1) as Hl.
  pose proof (inv_system _ _ _ _ S1) as Hgone. pose proof (layout_capacity _ _ Hl) as Hcap'.
  assert (∃ dd, live !! ROOT_DIR_SECTOR = Some dd) as [dd Hdd].
  { unfold visible in Hc. rewrite lookup_delete_ne // in Hc. unfold contents in Hc. rewrite lookup_fmap in Hc.
    destruct (live !! ROOT_DIR_SECTOR) as [dd|]; [by exists dd|done]. }
  pose proof (ok_sector _ _ _ (lay_inode _ _ Hl _ _ Hdd)) as Hroot. unfold ROOT_DIR_SECTOR in Hroot.
  destruct (inv_ready _ _ _ _ S1) as (g & a & x & [_ _ _ _ Hd Hlen _]).
  unfold filesys_init, inode_init. rewrite run_modify. set (s1 := with_open [] s0).
  destruct (free_map_init_run s1) as (s2 & Hrun2 & Hs2 & Hd2 & W1 & W2 & _); [simpl; lia|done|].
  rewrite (M_bind_Ret _ _ _ _ _ Hrun2) run_ret. pose proof Hs2 as [M1 M2 M3 M4 M5 M6 M7]. simpl in *.
  set (live' := without (a_gone A) live).
  assert (∀ k, k ∉ a_gone A → live' !! k = live !! k) as Hkeep.
  { intros k Hk. apply option_eq. intros d. unfold live'. rewrite without_Some. tauto. }
  assert (FREE_MAP_SECTOR ∉ a_gone A) as Hg0 by by intros [? _]%Hgone.
  assert (ROOT_DIR_SECTOR ∉ a_gone A) as Hg1 by by intros [_ ?]%Hgone.
  assert (layout live' (with_free_map (free_map s) s2)) as Hl'.
  { apply (layout_same _ s); [split; simpl; congruence|]. eapply layout_subseteq; [|done]. apply map_filter_subseteq. }
  destruct (free_map_open_run live' s2 (free_map s) (data x)) as (s3 & Hrun3 & H3 & Hd3 & Hc3 & Hdirs & Hsync3 & Hp3 & Hh).
  { destruct Hb as [B1 B2 B3 B4]. split; congruence. }
  { done. }
  { destruct Hsync as (l & Hl0 & Hsv). exists l. simpl. rewrite M1 Hcap. split; [|done]. rewrite -Hl0. unfold contents.
    rewrite !lookup_fmap Hkeep //. simpl. by rewrite Hd2 Hdisk. }
  { by rewrite Hkeep. }
  { by rewrite Hlen M1 Hcap. }
  { done. }
  { by rewrite W2. }
  { by apply M7. }
  exists s3, live'. split; [done|]. split; [|by split].
  assert (visible live' s3 = without (a_gone A) (visible live s)) as Hv.
  { rewrite (visible_disk _ s s3); [|congruence]. apply visible_without. }
  assert (visible live' s3 !! ROOT_DIR_SECTOR = Some c) as Hc'.
  { by rewrite Hv without_Some. }
  split; unfold restart; cbn [a_slots a_store a_gone a_handles]; try done.
  - by exists c.
  - rewrite Hv S4. unfold without. apply map_filter_delete.
  - destruct S5 as [O1 O2]. split; [|done]. intros j n k Hj. destruct (O1 _ _ _ Hj) as (L1 & L2 & L3 & L4).
    by rewrite Hkeep.
Qed.
End restart.
