(* ===== verification/PintosFsRuns.v ===== *)
(** Programs that use the file system are served, and their files are there after
    the machine starts again; runs on a small disk. *)
From S2P Require Export PintosBoot.
Local Open Scope Z_scope.

(** * A small disk *)

(** A machine with a disk of ten sectors; [allocs] says which allocations succeed. *)
Definition machine (allocs : list bool) : fs :=
  Fs (replicate (Z.to_nat (512 * 10)) 7) 10 ∅ [] ∅ ∅ (Bitmap 0 []) NULL allocs (replicate 100 9).

Lemma machine_started : started (machine []).
Proof.
  split; [by split|done|by rewrite size_of_replicate|by apply Forall_replicate|by vm_compute|constructor].
Qed.

Definition used (s : fs) : list Z := filter (λ k, bit (free_map s) k) (seqZ 0 (capacity s)).

(** The names in the root directory. *)
Definition names (s : fs) : list (option slot) :=
  (λ j : nat, entry_slot (slice (512 * 3 + 20 * Z.of_nat j) 20 (disk s))) <$> seq 0 3.

Definition with_memory (l : list bool) : F unit := modify (with_allocs l).

Definition result_of {A} (m : F A) (s : fs) : option (A * list Z * list (option slot)) :=
  match m s with Ret x s' => Some (x, used s', names s') | _ => None end.

(** Creating a file twice. *)
Definition create_twice : F (bool * bool) :=
  filesys_init true true;; a ← filesys_create 17 [97] 512; b ← filesys_create 17 [97] 512; mret (a, b).

(** Creating one file after another when the allocations of the second are [l]. *)
Definition create_after (name : bytes) (l : list bool) : F (bool * bool) :=
  filesys_init true true;; a ← filesys_create 17 [97] 0; with_memory l;; b ← filesys_create 17 name 0; mret (a, b).

(** * What programs see *)

(** The calls of a program return, and their results are those of a run of the
    abstract file system. *)
Definition serves (fuel : nat) (p : client) (A : afs) (s : fs) : Prop :=
  ∃ t s' live' A', run_client fuel p s = Ret t s' ∧ shows live' A' s' ∧ asteps (¬ plenty s) (λ _, True) A t A'.

(** Its files are there when the machine starts again from the disk. *)
Definition survives (fuel : nat) (p : client) (s : fs) : Prop :=
  ∃ s1 t s2 A, filesys_init true true s = Ret tt s1 ∧ run_client fuel p s1 = Ret t s2 ∧
    asteps False (λ _, True) empty_afs t A ∧
    ∀ s3, blank s3 → plenty s3 → disk s3 = disk s2 → capacity s3 = capacity s2 →
      ∃ s4 live, filesys_init true false s3 = Ret tt s4 ∧ shows live (restart A) s4.

(** The inodes on the disk: they and their data are in sectors of the disk that are
    in use, and no two have a sector in common. *)
Record accounted (live : gmap Z inode_disk) (s : fs) : Prop := {
  acc_disk sec d : live !! sec = Some d → decode_inode (slice (512 * sec) 512 (disk s)) = d;
  acc_used sec d k : live !! sec = Some d → owns sec d k → 0 <= k < capacity s ∧ bit (free_map s) k = true;
  acc_apart sec d sec' d' k : live !! sec = Some d → live !! sec' = Some d' → owns sec d k → owns sec' d' k → sec = sec';
}.

Lemma layout_accounted live s : layout live s → accounted live s.
Proof.
  intros H. split.
  - intros sec d Hd. rewrite (lay_disk _ _ H _ _ Hd). apply decode_encode, (ok_disk _ _ _ (lay_inode _ _ H _ _ Hd)).
  - intros sec d k Hd Hk. split; [|by eapply (lay_used _ _ H)]. destruct (lay_inode _ _ H _ _ Hd) as [O1 O2 O3 O4 O5].
    pose proof (wf_start _ O2) as Hst. unfold in_u in Hst. destruct Hk as [->|Hk]; [done|]. unfold in_data in Hk. lia.
  - intros sec d sec' d' k. apply (lay_disjoint _ _ H).
Qed.

Lemma legal_weaken (low low' : Prop) full A p : (low' → low) → legal low full A p → legal low' full A p.
Proof.
  intros Hl. revert A. induction p as [|c k IH]; intros A; [done|]. intros (Hc & Hm & Hnext). split; [done|]. split; [done|].
  intros r A' Hstep. apply IH, Hnext. by eapply astep_weaken.
Qed.

Lemma asteps_weaken (low low' : Prop) full A t A' : (low → low') → asteps low full A t A' → asteps low' full A t A'.
Proof. intros Hl. induction 1; [constructor|]. econstructor; [|done]. by eapply astep_weaken. Qed.

(** A program that writes to a new file. *)
Definition writer : client :=
  Call (Create [97] 5) (λ _, Call (Open [97]) (λ r,
    match r with
    | RFile (Some f) => Call (Write f [104; 105] 2) (λ _, Call (Close f) (λ _, Stop))
    | _ => Stop
    end)).

Lemma writer_legal low : legal low (λ _, True) empty_afs writer.
Proof.
  split; [split; [by repeat constructor|done]|]. split; [done|]. intros r A Hstep.
  assert (a_handles A = ∅) as Hh by by inversion Hstep.
  split; [by repeat constructor|]. split; [by rewrite /not_many Hh|]. intros r' A' Hstep'.
  destruct r' as [|[f|]| | |]; try done. inversion Hstep' as [| |? j sec ? Hfind Hf| | | | | | | | | | | | |]; subst.
  split; [|split].
  - exists sec, 0, false. split; [apply lookup_insert_eq|]. split; [by split|]. split; [done|]. by repeat constructor.
  - rewrite /not_many /open_handle /= Hh insert_empty map_size_singleton. done.
  - intros r'' A'' Hstep''. inversion Hstep''; subst. split; [|split; [|done]].
    + eexists. apply lookup_insert_eq.
    + rewrite /not_many /= Hh !insert_empty insert_insert_eq map_size_singleton. done.
Qed.

(** * Properties *)

(** C7: In every state that the file system can be in, whatever the user program
    does within its rights, and whichever allocations of memory fail, each call of
    filesys.c and file.c returns without a kernel panic, and its result and
    effect are those of the abstract file system: a directory of names, files
    of bytes, and open files with a position and a write denial. *)
Theorem filesys_refines fuel live A s p :
  shows live A s → (length (a_slots A) < fuel)%nat → legal (¬ plenty s) (λ _, True) A p → serves fuel p A s.
Proof.
  intros H Hf Hp. destruct (client_served fuel p live A s H Hf Hp) as (t & s' & live' & A' & H1 & H2 & H3 & _).
  by exists t, s', live', A'.
Qed.

(** C8: When there is memory, formatting a disk gives an empty file system; and
    after any program has used it, starting the machine again from the disk gives
    the same directory and the same contents, without the files that had been
    removed. *)
Theorem files_survive fuel s p :
  started s → (16 < fuel)%nat → legal False (λ _, True) empty_afs p → survives fuel p s.
Proof.
  intros Hst Hf Hp. destruct (format_run s Hst) as (s1 & live & Hrun1 & H1 & Hsync1 & Hp1 & Hc1).
  destruct (client_served fuel p live empty_afs s1) as (t & s2 & live2 & A & Hrun2 & H2 & Hsteps & Hp2 & Hsync2 & Hc2); [done|done| |].
  { eapply legal_weaken; [|done]. tauto. }
  exists s1, t, s2, A. split; [done|]. split; [done|]. split; [eapply asteps_weaken; [|done]; tauto|].
  intros s3 Hb Hp3 Hd Hc. destruct (restart_run live2 A s2 s3 H2) as (s4 & live4 & Hrun4 & H4 & _); [by apply Hsync2|done..|].
  by exists s4, live4.
Qed.

(** C9: Whatever programs do and whichever allocations fail, the free map has
    every sector of every file and directory in use, no two files share a sector,
    and every entry of the directory refers to an inode. *)
Theorem sectors_accounted fuel live A s p :
  shows live A s → (length (a_slots A) < fuel)%nat → legal (¬ plenty s) (λ _, True) A p →
  ∃ t s' live' A', run_client fuel p s = Ret t s' ∧ asteps (¬ plenty s) (λ _, True) A t A' ∧ accounted live' s' ∧
    ∀ j name sec, a_slots A' !! j = Some (Some (name, sec)) → is_Some (live' !! sec).
Proof.
  intros H Hf Hp. destruct (client_served fuel p live A s H Hf Hp) as (t & s' & live' & A' & H1 & H2 & H3 & _).
  exists t, s', live', A'. split; [done|]. split; [done|]. split; [apply layout_accounted, (shows_inv _ _ _ H2)|].
  intros j name sec Hj. by eapply (slots_live _ _ _ (shows_slots _ _ _ H2)).
Qed.

(** C29: Creating a file that is already there fails and changes no file, but when
    the disk has room for its inode and its data, the sectors of the data stay in
    use: they were free, no file has them, and nothing gives them back.  This is so
    in every state of the file system. *)
Theorem create_existing_leaks fuel live A s name size k :
  shows live A s → not_many A → (length (a_slots A) < fuel)%nat → plenty s → c_name name → 0 <= size <= 2 ^ 31 - 513 →
  is_Some (find_name name (a_slots A)) → 0 <= k → group (free_map s) false ((size + 511) / 512 + 1) k →
  ∃ s' lost, filesys_create fuel name size s = Ret false s' ∧ shows live A s' ∧
    NoDup lost ∧ Z.of_nat (length lost) = (size + 511) / 512 ∧
    Forall (λ j, 0 <= j < capacity s ∧ bit (free_map s) j = false ∧ ∀ sec d, live !! sec = Some d → ¬ owns sec d j) lost ∧
    ∀ j, 0 <= j < capacity s → bit (free_map s') j = true ↔ bit (free_map s) j = true ∨ j ∈ lost.
Proof.
  intros H Hmany Hf Hp Hname Hsize Hthere Hk Hg.
  destruct (create_existing_run live A s H Hmany fuel Hf name Hname size Hsize k Hp Hthere Hk Hg) as (s' & d & Hrun & H' & Hlen & Ht1 & Ht2).
  assert (∀ j, j ∈ seqZ (i_start d) (sectors_of d) ↔ in_data d j) as Hin by (intros j; rewrite elem_of_seqZ; done).
  exists s', (seqZ (i_start d) (sectors_of d)). split; [done|]. split; [done|]. split; [apply NoDup_seqZ|].
  split; [rewrite length_seqZ /sectors_of Hlen; div_lia|]. split.
  - apply Forall_forall. intros j Hj%Hin. destruct (Ht1 j Hj) as [Hr Hb]. split; [done|]. split; [done|]. intros sec d' Hd' Ho.
    by rewrite (lay_used _ _ (inv_layout _ _ _ _ (shows_inv _ _ _ H)) _ _ _ Hd' Ho) in Hb.
  - intros j Hj. by rewrite Hin Ht2.
Qed.

(** Creating a file of a sector twice leaves sector 7 in use; and when the memory
    for a sector buffer runs out while the directory is searched, a second file of
    the same name is created, or the entry of another file is overwritten. *)
Example create_runs :
  result_of create_twice (machine []) = Some (true, false, [0; 1; 2; 3; 4; 5; 7], [Some (Some ([97], 4)); Some None; Some None]) ∧
  result_of (create_after [97] [true; true; true; true; true; false]) (machine []) =
    Some (true, true, [0; 1; 2; 3; 4; 5], [Some (Some ([97], 4)); Some (Some ([97], 5)); Some None]) ∧
  result_of (create_after [98] [true; true; true; true; true; false; false]) (machine []) =
    Some (true, true, [0; 1; 2; 3; 4; 5], [Some (Some ([98], 5)); Some None; Some None]).
Proof. vm_compute. split_and!; reflexivity. Qed.

(** * Witnesses *)

Lemma filesys_refines_witness :
  ∃ live s, filesys_init true true (machine []) = Ret tt s ∧ shows live empty_afs s ∧ serves 17 writer empty_afs s.
Proof.
  destruct (format_run (machine []) machine_started) as (s & live & Hrun & H & _). exists live, s.
  split; [done|]. split; [done|]. apply (filesys_refines 17 live empty_afs s writer H); [simpl; lia|apply writer_legal].
Defined.

Lemma files_survive_witness : started (machine []) ∧ survives 17 writer (machine []).
Proof.
  split; [exact machine_started|]. apply (files_survive 17 (machine []) writer machine_started); [lia|apply writer_legal].
Defined.

Lemma sectors_accounted_witness :
  ∃ live s, filesys_init true true (machine []) = Ret tt s ∧ shows live empty_afs s ∧
    ∃ t s' live' A', run_client 17 writer s = Ret t s' ∧ asteps (¬ plenty s) (λ _, True) empty_afs t A' ∧ accounted live' s' ∧
      ∀ j name sec, a_slots A' !! j = Some (Some (name, sec)) → is_Some (live' !! sec).
Proof.
  destruct (format_run (machine []) machine_started) as (s & live & Hrun & H & _). exists live, s.
  split; [done|]. split; [done|]. apply (sectors_accounted 17 live empty_afs s writer H); [simpl; lia|apply writer_legal].
Defined.

(** The machine after a file of a sector was created on a new file system. *)
Definition with_file : fs :=
  match (filesys_init true true;; filesys_create 17 [97] 512) (machine []) with Ret true s => s | _ => machine [] end.

Lemma run_true (o : outcome fs bool) s : match o with Ret b _ => b | _ => false end = true →
  o = Ret true (match o with Ret true s' => s' | _ => s end).
Proof. by destruct o as [[]| | | |]. Qed.

Lemma with_file_run : (filesys_init true true;; filesys_create 17 [97] 512) (machine []) = Ret true with_file.
Proof. apply run_true. by vm_compute. Qed.

Lemma with_file_shows : ∃ live A, shows live A with_file ∧ not_many A ∧ (length (a_slots A) < 17)%nat ∧ plenty with_file ∧
  is_Some (find_name [97] (a_slots A)).
Proof.
  generalize with_file_run. generalize with_file. intros file Hfile. destruct (format_run (machine []) machine_started) as (s & live & Hrun & H & _ & Hp & _).
  rewrite (M_bind_Ret _ _ _ _ _ Hrun) in Hfile. clear Hrun.
  destruct (exec_refined 17 live empty_afs s (Create [97] 512) H) as (r & s' & live' & A' & Hex & H' & Hstep & Hp' & _);
    [by vm_compute|simpl; lia|split; [by repeat constructor|lia]|].
  cbn [exec] in Hex. rewrite (M_bind_Ret _ _ _ _ _ Hfile) in Hex. injection Hex as <- <-.
  exists live', A'. split; [done|]. split; [|split; [|split; [by apply Hp'|]]].
  - inversion Hstep; by vm_compute.
  - inversion Hstep; subst. simpl. rewrite length_insert. simpl. lia.
  - inversion Hstep as [? ? j sec _ _ _ Hj _ _ _ _| | | | | | | | | | | | | | |]; subst. unfold find_name. cbn [add_slot a_slots].
    destruct (list_find _ (<[j:=Some ([97], sec)]> (a_slots empty_afs))) as [x|] eqn:E; [by eexists|].
    apply list_find_None in E. rewrite Forall_lookup in E. exfalso. by apply (E j (Some ([97], sec))); [apply list_lookup_insert_eq|].
Qed.

Lemma create_existing_leaks_witness : ∃ live A, shows live A with_file ∧ is_Some (find_name [97] (a_slots A)) ∧
  ∃ s' lost, filesys_create 17 [97] 512 with_file = Ret false s' ∧ shows live A s' ∧
    NoDup lost ∧ Z.of_nat (length lost) = (512 + 511) / 512 ∧
    Forall (λ j, 0 <= j < capacity with_file ∧ bit (free_map with_file) j = false ∧ ∀ sec d, live !! sec = Some d → ¬ owns sec d j) lost ∧
    ∀ j, 0 <= j < capacity with_file → bit (free_map s') j = true ↔ bit (free_map with_file) j = true ∨ j ∈ lost.
Proof.
  destruct with_file_shows as (live & A & H & Hmany & Hl & Hp & Hn). exists live, A. split; [exact H|]. split; [exact Hn|].
  apply (create_existing_leaks 17 live A with_file [97] 512 6 H Hmany Hl Hp); [by repeat constructor|lia|exact Hn|lia|].
  split; [by vm_compute|]. intros j Hj. change (6 + _) with 8 in Hj. assert (j = 6 ∨ j = 7) as [->| ->] by lia; by vm_compute.
Defined.
